(* ===== verification/_CoqProject ===== *)
-Q . S2P
Prelude.v
Smt.v
SmtTree.v
SmtCorrect.v
SmtTheorems.v
Address.v
Cache.v
Access.v
Tx.v
Standard.v
Account.v
Coinbase.v
Validator.v
Commit.v
CommitTheorems.v
CommitRefine.v
AccountChanges.v
Commitment.v
CommitmentGaps.v
Did.v
DidTheorems.v
DidCodec.v
StateStores.v
Uint.v
UintCorrect.v
Header.v
HeaderCodec.v
Merkle.v
BlockState.v
BlockStateTheorems.v
Interval.v
Reach.v
ReachTree.v
ReachStores.v
ReachQueries.v
ReachLaws.v
ReachCount.v
ReachPropagate.v
ReachSides.v
ReachReclaim.v
ReachInsert.v
ReachConcentrate.v
ReachDag.v
ReachService.v
ReachHistory.v
ReachRoot.v
ReachLedger.v
ReachCommit.v
ReachCut.v
ReachDelete.v
ReachTheorems.v
Work.v
Relations.v
Ghostdag.v
GhostdagStores.v
HeaderStores.v
Difficulty.v
Window.v
BlockDepth.v
ParentsBuilder.v
Pow.v
PowTheorems.v
HeaderProcessor.v
Body.v
Params.v
Dag.v
GhostdagSpec.v
GhostdagColor.v
GhostdagOrder.v
DifficultyTheorems.v
GhostdagRun.v
WindowTheorems.v
HeaderLedger.v
ParamsTheorems.v
HeaderChecks.v
HeaderCommit.v
HeaderTheorems.v
HeaderAccept.v
GhostdagTheorems.v
BodyTheorems.v
