(* ===== verification/Prelude.v ===== *)
(** * Sahyadri: block processing, block ordering, reachability and the state commitment

    Sahyadri is a block-DAG node written in Rust. A block carries transfers
    between accounts (flash transactions), operations on decentralized
    identities (DIDs) and a coinbase; its header commits to the root of a sparse
    Merkle tree over all accounts and identities. The node checks the
    headers and bodies of the blocks that arrive, orders their blocks by the GHOSTDAG rule, with the
    help of an index that answers whether a block is in the past of another in
    logarithmic time, and computes the committed state along the selected chain. This
    library models the code that decides these things, from the bytes of a payload to
    the tables in the database, and proves it correct. Paths are relative to the root
    of the sources; those without a crate are under consensus/src.

    ** The parts and where they are modelled

    State commitment, bottom up:
    - [Smt] (crypto/smt/src/lib.rs): nodes, node stores and the overlay, [update],
      [update_many], [get], [prove], [leaves_after], verification of proofs.
      [SmtTree] is the abstract tree, [SmtCorrect] the refinement, [SmtTheorems] the
      properties.
    - [Cache], [Access] (database/src/{cache,access,item,key,writer,errors}.rs): the
      bounded cache with random eviction and the typed access over RocksDB, with
      direct and with batched writes.
    - [Address], [Tx], [Standard] (crypto/addresses, consensus/core/src/tx.rs,
      crypto/txscript/src/{standard,script_class}.rs): bech32 addresses, transactions
      and the FLASH_V1 payload, the standard scripts.
    - [Account] (consensus/src/model/stores/account_store.rs,
      pipeline/virtual_processor/flash_tx.rs): account states, their canonical bytes,
      flash transactions applied to and taken back from the live store.
    - [Coinbase] (processes/coinbase.rs), [Validator] (processes/transaction_validator/):
      payloads, subsidy and reward split; the validation rules.
    - [Commit], [CommitTheorems], [CommitRefine] (pipeline/virtual_processor/processor.rs,
      [commit_virtual_state]): unwinding and executing the blocks of a chain change on
      the live store, on a map and on the cached database.
    - [AccountChanges], [Commitment], [CommitmentGaps]
      (pipeline/virtual_processor/account_changes.rs): the account part of the commitment.
    - [Did], [DidTheorems], [DidCodec] (pipeline/virtual_processor/did_changes.rs): the
      identity part.
    - [StateStores], [BlockState], [BlockStateTheorems]
      (model/stores/{smt_nodes,account_states,did_states,account_roots}.rs,
      processor.rs, block_validation.rs): the commitment through the life of a block,
      in the template, in verification and in the commit.

    Reachability (consensus/src/processes/reachability/, model/stores/reachability.rs,
    model/services/reachability.rs):
    - [Interval]: the intervals of the tree and the rules that split them, with the
      float arithmetic of the code.
    - [Reach]: every algorithm (queries, insertion, deletion, reindexing, moving the
      reindex root), written once against the class [ReachabilityStore], as the code is
      against the trait.
    - [ReachStores]: the memory store, the database store and the staging store;
      [ReachLaws] shows that the memory and the staging store satisfy the laws
      ([ReachabilityStoreLaws] of [ReachQueries]) all other proofs use.
    - [ReachTree] is the abstract side: a rose tree, what it is for a store to
      represent it, and for its intervals to be nested. [ReachQueries], [ReachCount],
      [ReachPropagate], [ReachSides], [ReachReclaim], [ReachInsert], [ReachConcentrate],
      [ReachRoot], [ReachDag], [ReachCut], [ReachDelete] and [ReachCommit] prove what each
      routine does to it; [ReachService] has the service and the chain iterators,
      [ReachHistory] the specification by a history of insertions, [ReachTheorems] the
      properties. [ReachLedger] follows a store through insertions and moves of the
      reindex root as the header processor makes them.

    Headers and block ordering:
    - [Uint], [UintCorrect], [Work] (math/src/{uint,lib}.rs, processes/difficulty.rs): large
      integers as limbs, compact targets, the work of a block.
    - [Header], [HeaderCodec] (consensus/core/src/header.rs, hashing/, utils/src/iter.rs,
      protocol/p2p/src/convert/header.rs): headers, their run-length encoded parents, the
      bytes of their hash, both wire formats.
    - [Relations], [Ghostdag], [GhostdagStores] (processes/relations.rs,
      processes/sahyadri_consensus/, model/stores/{relations,sahyadri_consensus}.rs): the
      parents and children of a block, the mergeset and its colouring, and their stores.
      [Dag] has the order of a history, [GhostdagSpec] the rule, [GhostdagColor],
      [GhostdagOrder] and [GhostdagRun] the refinement.
    - [Difficulty], [Window], [BlockDepth], [ParentsBuilder] (processes/{difficulty,
      past_median_time,window,block_depth,parents_builder}.rs): what a header is checked
      against; [WindowTheorems] and [DifficultyTheorems] say what it computes.
    - [Pow], [PowTheorems] (consensus/pow, crypto/hashes/src/pow_hashers.rs): the proof of work.
    - [Params], [ParamsTheorems] (consensus/core/src/config): the networks, their parameters
      and genesis blocks.
    - [HeaderStores], [HeaderProcessor] (model/stores/{headers,daa,depth,statuses,
      headers_selected_tip}.rs, pipeline/header_processor/): the handlers, [process_header]
      with all its checks and the commit to eleven stores, and the start of a new node.
      [HeaderLedger] is the invariant that ties the stores to one history of blocks,
      [HeaderChecks] and [HeaderCommit] show that each step keeps it, and
      [HeaderTheorems], [HeaderAccept] and [GhostdagTheorems] have the properties.

    Block bodies:
    - [Merkle] (consensus/core/src/hashing/tx.rs, crypto/merkle, consensus/core/src/merkle.rs):
      the hash and the id of a transaction, the Merkle root of a body.
    - [Body] (consensus/core/src/mass/mod.rs, pipeline/body_processor/, model/stores/tips.rs):
      the masses, every check of a body, [process_body] with its commit to the stores,
      the genesis body, and [process_block], the way of a block from the header to the
      body processor. [BodyTheorems] has the properties.

    ** How state and effects are modelled

    A store is any type with the operations of a class ([NodeStore], [RocksDb],
    [AccountAccess], [Table], [ReachabilityStore]); a second class states its laws. Code
    is a function in the state and error monad [st] below; a panic is a value
    ([Panic] of [fault], [Crashed] of [stop]) and never confused with a returned
    error. A store error that the code logs and ignores is caught the same way here.
    Machine integers are [Z] with the wrap-around or saturation of the operation
    written out: the release profile turns overflow checks off, and debug assertions
    are not part of it. A hash map is a [gmap] where the order of iteration does not
    matter; where the code iterates over one, the order is a parameter, any permutation,
    and the theorems hold for each. (In [ParentsBuilder] the order shows only in the order
    of the parents of a level, which the check compares as sets.)

    Third-party code is a parameter: SHA3 and the sponge of the tree, BLAKE3, the
    Poseidon2 permutation, the hashes of blocks, transactions and Merkle branches, ML-DSA
    verification, hexadecimal conversion, bincode, RocksDB. What a theorem needs of it
    (collision-freeness on the nodes that occur, a round trip, the behaviour of a
    key-value map) is a hypothesis, and the witness of the theorem instantiates it with
    a concrete function. The witnesses of the processors run the main network: headers
    that pass the proof of work on a matrix of full rank, accepted blocks with bodies, and
    blocks that break a rule.

    ** What the theorems show

    - The tree implements a finite map: updates, lookups, the independence of the root
      from order and history, completeness and soundness of inclusion and exclusion
      proofs, the paginated enumeration.
    - The cache never returns anything but what was written and stays within its
      bound; access through it is a map; batched writes are read back.
    - Parsers accept exactly what the printers produce (flash and DID payloads, coinbase
      payloads, addresses, standard scripts, tree nodes).
    - Committing flash transactions conserves the supply and admits no replay; taking a
      block back undoes it; for a block whose flash transactions are valid and paid for
      without its own rewards, [commit_virtual_state] leaves the live store with the accounts
      that the block commits to, up to flash entries old enough to be pruned; the
      database does what the map does.
    - The commitment of a template is the one every verifier computes, and a verified
      block leaves in the database all that a later block needs.
    - Any valid history of insertions succeeds (it neither fails, panics nor runs
      out of steps) and yields a store that answers every chain and DAG query as the walk over
      the parents does. Insertion extends the represented DAG by the new block,
      deletion and moves of the reindex root keep all other answers; what the staging
      store commits is what is read back, also after all caches were emptied.
    - A new node never stops on a header: of fewer than 2^23 headers with fields within their
      widths, in any order, each is accepted, known, or rejected by a rule, unless the search
      for the matrix of its proof of work does not end; the stores then hold the history of
      exactly the accepted blocks, whose relations, reachability and ordering data agree; and
      the next header is accepted exactly when it follows the rules on that history. This composes the reachability theorems, the
      ordering, the windows, the difficulty, the depth and parents managers, the proof of
      work and the stores, through the invariant of [HeaderLedger].
    - The same node never stops on a whole block. Bodies are stored only above bodies, each
      with the Merkle root of its header, and the body tips are the maximal ones; a body is
      accepted exactly when it follows the rules, and a rejected one changes only the status
      of its block and, at most, the cached windows of past median times. The Merkle root binds the body in every field.
    - The ordering of a block is the greedy k-cluster colouring; block windows are the
      greatest sampled blocks of the chain, whatever the caches hold; the difficulty is the
      stated quotient of targets and times, in any order of the heap.
    - Large-integer division, compact targets and work are exact; the parents' encoding, the
      header hash and the wire formats are injective or round trips, with the one input on
      which they panic.
    - The parameters of every network satisfy what the processor needs, and a block is final
      before it is pruned, at every supported block rate.
    - [CommitmentGaps], [HeaderCodec], [HeaderStores], [DifficultyTheorems] and parts of
      [BodyTheorems], [CommitTheorems] and [DidTheorems] prove, with concrete instances, where the code does not do what its comments intend.

    ** Bounds and fuel

    The depth of the tree of [Smt] is 256, and its recursions run on the depth left, so
    their exhaustion is the depth check of the code. [leaves_after] and the loops of
    [Reach] take a bound on their iterations; a theorem about one of them gives a bound, in
    terms of the number of blocks, from which on it returns. Running out of the bound is an outcome
    of its own ([Diverges]), so a proved result is never vacuous. The number of blocks for
    which insertions are shown to succeed is bounded by the capacity of 64-bit intervals,
    as a hypothesis on the length of a history. For the header processor, which also moves
    the reindex root, that is [MAX_BLOCKS], 2^23 blocks; the fuel is more than twice the
    number of blocks and more than the parents of a header plus the blocks, which bounds the
    walks up the chain and through the mergeset. The one loop of the header processor without
    a bound is the search for a matrix of full rank in the proof of work.

    ** Not modelled

    Locks and threads: the operations of one component run one after the other here, and
    the task queues of the processors are left out: a block goes through the header and the
    body processor before the next one. Pruning and its proofs, trusted data,
    synchronisation, the virtual tips and the choice of the sink and of the virtual parents
    are not modelled; the theorems on the two processors are about ordinary blocks above the
    genesis block, with the pruning point a new node registers, and the status of a block
    stays what they leave, since the virtual processor that moves it on from there is modelled
    only in the state commitment. Serde and memory
    estimates have no part in the results. The
    script engine, the cryptographic primitives, the network, rpc, mempool, wallet and
    command-line parts are outside the scope: they do not decide the committed state, the
    order of the blocks or reachability. *)

From stdpp Require Export base tactics numbers list gmap strings sorting.
From Stdlib Require Export ZArith Lia.

#[global] Open Scope Z_scope.

(** * Results and the state-error monad

    Rust's [Result<A, E>] and the [&mut self] methods that return one: a
    mutation made before an early [?] return stays in the state. *)

Inductive result (E A : Type) : Type :=
| Ok (a : A)
| Err (e : E).
Arguments Ok {E A} a.
Arguments Err {E A} e.

#[export] Instance result_eq_dec {E A} `{EqDecision E, EqDecision A} : EqDecision (result E A).
Proof. solve_decision. Defined.

#[export] Instance result_ret {E} : MRet (result E) := fun _ a => Ok a.
#[export] Instance result_bind {E} : MBind (result E) :=
  fun _ _ f m => match m with Ok a => f a | Err e => Err e end.
#[export] Instance result_fmap {E} : FMap (result E) :=
  fun _ _ f m => match m with Ok a => Ok (f a) | Err e => Err e end.

Definition ok_or {E A} (e : E) (o : option A) : result E A :=
  match o with Some a => Ok a | None => Err e end.

Definition is_ok {E A} (r : result E A) : bool :=
  match r with Ok _ => true | Err _ => false end.

Definition st (S E A : Type) : Type := S -> S * result E A.

#[export] Instance st_ret {S E} : MRet (st S E) := fun _ a s => (s, Ok a).
#[export] Instance st_bind {S E} : MBind (st S E) :=
  fun _ _ f m s => match m s with
                   | (s', Ok a) => f a s'
                   | (s', Err e) => (s', Err e)
                   end.

(** A panic, as distinct from a returned error. *)
Inductive fault (E : Type) := Panic | Error (e : E).
Arguments Panic {E}.
Arguments Error {E} e.

#[export] Instance fault_eq_dec {E} `{EqDecision E} : EqDecision (fault E).
Proof. solve_decision. Defined.

Definition throw {S E A} (e : E) : st S E A := fun s => (s, Err e).
Definition gets {S E A} (f : S -> A) : st S E A := fun s => (s, Ok (f s)).
Definition lift {S E A} (r : result E A) : st S E A := fun s => (s, r).

(** [assert!]/indexing: [None] panics. *)
Definition or_panic {S E A} (o : option A) : st S (fault E) A := lift (ok_or Panic o).

(** A call whose error is returned with [?], and one whose error is inspected. *)
Definition map_err {S E E' A} (f : E -> E') (m : st S E A) : st S E' A :=
  fun s => match m s with (s', Ok a) => (s', Ok a) | (s', Err e) => (s', Err (f e)) end.

Definition try_catch {S E A} (m : st S (fault E) A) : st S (fault E) (result E A) :=
  fun s => match m s with
           | (s', Ok a) => (s', Ok (Ok a))
           | (s', Err (Error e)) => (s', Ok (Err e))
           | (s', Err Panic) => (s', Err Panic)
           end.

Lemma Ok_inj {E A} (a b : A) : Ok (E := E) a = Ok b -> a = b.
Proof. by intros [= ->]. Qed.

Lemma result_bind_ok {E A B} (m : result E A) (f : A -> result E B) b :
  (m ≫= f) = Ok b -> exists a, m = Ok a /\ f a = Ok b.
Proof. destruct m as [a|e]; [|done]. intros H. by exists a. Qed.

Lemma st_bind_ok {S E A B} (m : st S E A) (f : A -> st S E B) s s' b :
  (m ≫= f) s = (s', Ok b) -> exists s1 a, m s = (s1, Ok a) /\ f a s1 = (s', Ok b).
Proof.
  unfold mbind, st_bind. destruct (m s) as [s1 [a|e]]; [|done]. eauto.
Qed.

Lemma st_bind_run {S E A B} (m : st S E A) (f : A -> st S E B) s s1 a :
  m s = (s1, Ok a) -> (m ≫= f) s = f a s1.
Proof. unfold mbind, st_bind. by intros ->. Qed.

(** * Machine integers

    A [w]-bit unsigned integer is a [Z] in [0, 2^w). The release profile of the
    workspace sets [overflow-checks = false], so unchecked [+], [-] and [*]
    wrap around. *)

Abbreviation u8_range x := (0 <= x < 256).
Abbreviation u64_range x := (0 <= x < 2 ^ 64).

Definition U64_MAX : Z := 2 ^ 64 - 1.

Definition wrap (w x : Z) : Z := x mod 2 ^ w.
Definition wadd64 (a b : Z) : Z := wrap 64 (a + b).
Definition wsub64 (a b : Z) : Z := wrap 64 (a - b).
Definition wmul64 (a b : Z) : Z := wrap 64 (a * b).

Definition saturating_add64 (a b : Z) : Z := Z.min U64_MAX (a + b).
Definition saturating_sub (a b : Z) : Z := Z.max 0 (a - b).
Definition checked_add64 (a b : Z) : option Z :=
  if a + b <=? U64_MAX then Some (a + b) else None.
Definition checked_sub (a b : Z) : option Z :=
  if b <=? a then Some (a - b) else None.

Lemma wrap_range w x : 0 <= w -> 0 <= wrap w x < 2 ^ w.
Proof. intros. apply Z.mod_pos_bound. by apply Z.pow_pos_nonneg. Qed.

Lemma wrap_small w x : 0 <= x < 2 ^ w -> wrap w x = x.
Proof. apply Z.mod_small. Qed.

Lemma wadd64_small a b : 0 <= a + b < 2 ^ 64 -> wadd64 a b = a + b.
Proof. apply wrap_small. Qed.

Lemma wsub64_small a b : 0 <= a - b < 2 ^ 64 -> wsub64 a b = a - b.
Proof. apply wrap_small. Qed.

Lemma wmul64_small a b : 0 <= a * b < 2 ^ 64 -> wmul64 a b = a * b.
Proof. apply wrap_small. Qed.

Lemma saturating_add64_range a b :
  u64_range a -> u64_range b -> u64_range (saturating_add64 a b).
Proof. unfold saturating_add64, U64_MAX. lia. Qed.

Lemma saturating_sub_range a b : u64_range a -> 0 <= b -> u64_range (saturating_sub a b).
Proof. unfold saturating_sub. lia. Qed.

Create HintDb machine.
#[export] Hint Resolve saturating_add64_range saturating_sub_range : machine.

(** * Byte strings *)

Abbreviation bytes := (list Z).

Definition byte_ok (b : Z) : Prop := u8_range b.
Abbreviation bytes_ok := (Forall byte_ok).

#[export] Instance byte_ok_dec b : Decision (byte_ok b).
Proof. unfold byte_ok. apply _. Defined.

Fixpoint from_le (l : bytes) : Z :=
  match l with [] => 0 | b :: l' => b + 256 * from_le l' end.

Fixpoint to_le (n : nat) (z : Z) : bytes :=
  match n with O => [] | S n' => z mod 256 :: to_le n' (z / 256) end.

Fixpoint from_be (l : bytes) : Z :=
  match l with [] => 0 | b :: l' => b * 256 ^ Z.of_nat (length l') + from_be l' end.

(** Lexicographic order on byte strings, as Rust's [Ord] for arrays and slices. *)
Fixpoint bytes_ltb (a b : bytes) : bool :=
  match a, b with
  | [], [] => false
  | [], _ :: _ => true
  | _ :: _, [] => false
  | x :: a', y :: b' => (x <? y) || ((x =? y) && bytes_ltb a' b')
  end.

Definition bytes_leb (a b : bytes) : bool := negb (bytes_ltb b a).

Fixpoint string_bytes (s : string) : bytes :=
  match s with
  | EmptyString => []
  | String c s' => Z.of_N (Ascii.N_of_ascii c) :: string_bytes s'
  end.

(** [slice.chunks(n)]; the fuel is the length of the list. *)
Fixpoint chunks_fuel {A} (fuel n : nat) (l : list A) : list (list A) :=
  match fuel, l with
  | O, _ | _, [] => []
  | S fuel', _ => take n l :: chunks_fuel fuel' n (drop n l)
  end.

Definition chunks {A} (n : nat) (l : list A) : list (list A) := chunks_fuel (length l) n l.

Lemma length_to_le n z : length (to_le n z) = n.
Proof. revert z; induction n; intros; simpl; auto. Qed.

Lemma to_le_ok n z : bytes_ok (to_le n z).
Proof.
  revert z; induction n; intros z; simpl; constructor; auto.
  apply Z.mod_pos_bound. lia.
Qed.

Lemma pow256_S n : 256 ^ Z.of_nat (S n) = 256 * 256 ^ Z.of_nat n.
Proof. rewrite Nat2Z.inj_succ, Z.pow_succ_r; lia. Qed.

Lemma pow256_pos n : 0 < 256 ^ Z.of_nat n.
Proof. apply Z.pow_pos_nonneg; lia. Qed.

Lemma from_le_range l : bytes_ok l -> 0 <= from_le l < 256 ^ Z.of_nat (length l).
Proof.
  induction 1 as [|b l Hb Hl IH]; [simpl; lia|].
  simpl length. rewrite pow256_S. unfold byte_ok in Hb. simpl. lia.
Qed.

Lemma from_to_le n z : from_le (to_le n z) = z mod 256 ^ Z.of_nat n.
Proof.
  revert z; induction n as [|n IH]; intros z.
  - simpl. by rewrite Z.mod_1_r.
  - cbn [to_le from_le]. rewrite IH, pow256_S.
    rewrite Z.rem_mul_r; pose proof (pow256_pos n); lia.
Qed.

Lemma from_to_le_small n z : 0 <= z < 256 ^ Z.of_nat n -> from_le (to_le n z) = z.
Proof. intros. rewrite from_to_le. by apply Z.mod_small. Qed.

Lemma to_from_le l : bytes_ok l -> to_le (length l) (from_le l) = l.
Proof.
  induction 1 as [|b l Hb Hl IH]; [done|].
  unfold byte_ok in Hb. cbn [length to_le from_le]. f_equal.
  - rewrite Z.mul_comm, Z.mod_add by lia. apply Z.mod_small. lia.
  - rewrite Z.mul_comm, Z.div_add by lia. rewrite Z.div_small by lia. done.
Qed.

Lemma from_be_range l : bytes_ok l -> 0 <= from_be l < 256 ^ Z.of_nat (length l).
Proof.
  induction 1 as [|b l Hb Hl IH]; [simpl; lia|].
  simpl length. rewrite pow256_S. unfold byte_ok in Hb. simpl. nia.
Qed.

(** On byte strings of one length the lexicographic order is the order of the
    big-endian values. *)
Lemma bytes_ltb_be a b :
  bytes_ok a -> bytes_ok b -> length a = length b ->
  bytes_ltb a b = (from_be a <? from_be b).
Proof.
  intros Ha. revert b. induction Ha as [|x a Hx Ha IH]; intros [|y b] Hb Hlen; try done.
  inversion Hb as [|? ? Hy Hb']; subst. simpl in Hlen. injection Hlen as Hlen.
  cbn [bytes_ltb from_be]. rewrite IH by done. rewrite Hlen.
  pose proof (from_be_range a Ha) as Ra. pose proof (from_be_range b Hb') as Rb.
  rewrite Hlen in Ra. unfold byte_ok in *.
  set (P := 256 ^ Z.of_nat (length b)) in *.
  destruct (Z.ltb_spec x y); simpl.
  { symmetry. apply Z.ltb_lt. nia. }
  destruct (Z.eqb_spec x y); simpl.
  { subst y. apply eq_true_iff_eq. rewrite !Z.ltb_lt. lia. }
  symmetry. apply Z.ltb_ge. nia.
Qed.

Lemma from_be_inj a b :
  bytes_ok a -> bytes_ok b -> length a = length b -> from_be a = from_be b -> a = b.
Proof.
  intros Ha. revert b. induction Ha as [|x a Hx Ha IH]; intros [|y b] Hb Hlen E; try done.
  inversion Hb as [|? ? Hy Hb']; subst. simpl in Hlen. injection Hlen as Hlen.
  cbn [from_be] in E. rewrite Hlen in E.
  pose proof (from_be_range a Ha) as Ra. pose proof (from_be_range b Hb') as Rb.
  rewrite Hlen in Ra. unfold byte_ok in *.
  set (P := 256 ^ Z.of_nat (length b)) in *.
  assert (x = y) by nia. subst y. f_equal. apply IH; auto. lia.
Qed.

(** The lexicographic order is total. *)
Definition bytes_le (a b : bytes) : Prop := bytes_leb a b = true.

Lemma bytes_ltb_trans a b c : bytes_ltb a b = true -> bytes_ltb b c = true -> bytes_ltb a c = true.
Proof.
  revert b c. induction a as [|x a IH]; intros [|y b] [|z c]; simpl; try done.
  rewrite !orb_true_iff, !andb_true_iff, !Z.ltb_lt, !Z.eqb_eq.
  intros [?|[? ?]] [?|[? ?]]; subst; (left; lia) || (right; eauto).
Qed.

Lemma bytes_ltb_trichotomy a b : bytes_ltb a b = true \/ a = b \/ bytes_ltb b a = true.
Proof.
  revert b. induction a as [|x a IH]; intros [|y b]; simpl; auto.
  rewrite !orb_true_iff, !andb_true_iff, !Z.ltb_lt, !Z.eqb_eq.
  destruct (Z.lt_total x y) as [?|[?|?]]; auto. subst. destruct (IH b) as [?|[?|?]]; subst; auto.
Qed.

Lemma bytes_ltb_irrefl a : bytes_ltb a a = false.
Proof. induction a as [|x a IH]; simpl; [done|]. by rewrite Z.ltb_irrefl, Z.eqb_refl, IH. Qed.

#[export] Instance bytes_le_trans : Transitive bytes_le.
Proof.
  intros a b c. unfold bytes_le, bytes_leb. rewrite !negb_true_iff. intros H1 H2.
  destruct (bytes_ltb c a) eqn:E; [|done].
  destruct (bytes_ltb_trichotomy a b) as [H|[->|H]]; [|congruence|congruence].
  pose proof (bytes_ltb_trans _ _ _ E H). congruence.
Qed.

#[export] Instance bytes_le_antisymm : AntiSymm (=) bytes_le.
Proof.
  intros a b. unfold bytes_le, bytes_leb. rewrite !negb_true_iff. intros H1 H2.
  destruct (bytes_ltb_trichotomy a b) as [H|[H|H]]; congruence.
Qed.

#[export] Instance bytes_le_total : Total bytes_le.
Proof.
  intros a b. unfold bytes_le, bytes_leb. rewrite !negb_true_iff.
  destruct (bytes_ltb a b) eqn:E1; [|by right]. left.
  destruct (bytes_ltb b a) eqn:E2; [|done].
  pose proof (bytes_ltb_trans _ _ _ E1 E2). by rewrite bytes_ltb_irrefl in *.
Qed.

(** Concatenations of equally long pieces. *)
Lemma concat_fixed_inj {A} (n : nat) (l1 l2 : list (list A)) :
  (0 < n)%nat -> Forall (fun x => length x = n) l1 -> Forall (fun x => length x = n) l2 ->
  concat l1 = concat l2 -> l1 = l2.
Proof.
  intros Hn H1. revert l2. induction H1 as [|x l1 Hx H1 IH]; intros l2 H2 E.
  - destruct H2 as [|y l2 Hy H2]; [done|]. simpl in E. apply (f_equal length) in E.
    rewrite length_app in E. simpl in E. lia.
  - destruct H2 as [|y l2 Hy H2].
    + simpl in E. apply (f_equal length) in E. rewrite length_app in E. simpl in E. lia.
    + simpl in E. apply app_inj_1 in E as [-> E]; [|congruence]. f_equal. by apply IH.
Qed.

Lemma to_le_inj n x y :
  0 <= x < 256 ^ Z.of_nat n -> 0 <= y < 256 ^ Z.of_nat n -> to_le n x = to_le n y -> x = y.
Proof.
  intros Hx Hy E. rewrite <-(from_to_le_small n x), <-(from_to_le_small n y) by done. by rewrite E.
Qed.

(** [p.get(off..off + n)]: the [n] bytes at [off], if they are there. *)
Definition slice (p : bytes) (off n : Z) : option bytes :=
  if off + n <=? Z.of_nat (length p)
  then Some (take (Z.to_nat n) (drop (Z.to_nat off) p)) else None.

Definition rest_at (p : bytes) (off : Z) : bytes := drop (Z.to_nat off) p.

Lemma slice_next p off n x :
  0 <= off -> 0 <= n -> slice p off n = Some x ->
  rest_at p off = x ++ rest_at p (off + n) /\ Z.of_nat (length x) = n.
Proof.
  intros Ho Hn. unfold slice, rest_at. destruct (Z.leb_spec (off + n) (Z.of_nat (length p))); [|done].
  intros [= <-]. split.
  - rewrite Z2Nat.inj_add by lia. rewrite <-drop_drop. by rewrite take_drop.
  - rewrite length_take, length_drop. lia.
Qed.

(** Reading at an offset whose tail is known: the forward direction. *)
Lemma slice_at p off n x r :
  0 <= off <= Z.of_nat (length p) -> rest_at p off = x ++ r -> n = Z.of_nat (length x) ->
  slice p off n = Some x /\ rest_at p (off + n) = r /\ off + n <= Z.of_nat (length p).
Proof.
  unfold slice, rest_at. intros Ho E ->.
  assert (L : length (drop (Z.to_nat off) p) = (length x + length r)%nat) by (rewrite E; apply length_app).
  rewrite length_drop in L. destruct (Z.leb_spec (off + Z.of_nat (length x)) (Z.of_nat (length p))); [|lia].
  rewrite E. rewrite Nat2Z.id, take_app_length. split; [done|]. split; [|done].
  rewrite Z2Nat.inj_add, Nat2Z.id by lia. by rewrite <-drop_drop, E, drop_app_length.
Qed.

Lemma bytes_ok_slice p off n x : bytes_ok p -> slice p off n = Some x -> bytes_ok x.
Proof.
  unfold slice. intros Hp. case_match; [|done]. intros [= <-]. by apply Forall_take, Forall_drop.
Qed.

Lemma length_string_bytes s : length (string_bytes s) = String.length s.
Proof. induction s; simpl; auto. Qed.

Create Rewrite HintDb bytes.
#[export] Hint Rewrite length_to_le @length_app @length_map @length_replicate
  @length_take @length_drop : bytes.
#[export] Hint Resolve to_le_ok Forall_app_2 : machine.

(** * Lists *)

Lemma filter_none {A} (P : A -> Prop) `{forall x, Decision (P x)} (l : list A) :
  Forall (fun x => ~ P x) l -> filter P l = [].
Proof. induction 1; [done|]. by rewrite filter_cons_False. Qed.

Lemma filter_all {A} (P : A -> Prop) `{forall x, Decision (P x)} (l : list A) :
  Forall P l -> filter P l = l.
Proof. induction 1; [done|]. rewrite filter_cons_True by done. by f_equal. Qed.

Lemma StronglySorted_filter {A} (R : relation A) (P : A -> Prop) `{forall x, Decision (P x)} (l : list A) :
  StronglySorted R l -> StronglySorted R (filter P l).
Proof.
  induction 1 as [|x l Hl IH Hx]; [constructor|].
  destruct (decide (P x)); [rewrite filter_cons_True by done|by rewrite filter_cons_False].
  constructor; [done|]. apply Forall_forall. intros y Hy. apply list_elem_of_filter in Hy as [_ Hy].
  rewrite Forall_forall in Hx. by apply Hx.
Qed.

Definition sumZ {A} (f : A -> Z) (l : list A) : Z := foldr (fun x acc => f x + acc) 0 l.

Lemma sumZ_nonneg {A} (f : A -> Z) l : (forall x, 0 <= f x) -> 0 <= sumZ f l.
Proof. intros Hf. induction l as [|x l IH]; simpl; [done|]. specialize (Hf x). lia. Qed.
