(* ===== verification/Smt.v ===== *)
(** The sparse Merkle tree of crypto/smt/src/lib.rs: hashing of nodes, node
    stores, [update], [get], [prove], proof verification and the paginated
    enumeration [leaves_after]. Definitions only; SmtTree.v holds the abstract
    tree and SmtCorrect.v the theorems. *)

From S2P Require Import Prelude.

(** * Data *)

(** [type H256 = [u8; 32]]. *)
Abbreviation H256 := (list Z).

Definition EMPTY : H256 := replicate 32 0.
Definition TREE_DEPTH : nat := 256.

(** The values a [[u8; 32]] can take. *)
Definition h256_ok (h : H256) : Prop := length h = 32%nat /\ bytes_ok h.

#[export] Instance h256_ok_dec h : Decision (h256_ok h).
Proof. unfold h256_ok. apply _. Defined.

Inductive Node :=
| Leaf (key value : H256)
| Branch (lft rgt : H256).

#[export] Instance Node_eq_dec : EqDecision Node.
Proof. solve_decision. Defined.

Inductive SmtError :=
| MissingNode (h : H256)
| DepthExceeded.

#[export] Instance SmtError_eq_dec : EqDecision SmtError.
Proof. solve_decision. Defined.

(** * Node encoding *)

Definition ENCODED_SIZE : nat := 65.

Definition encode (n : Node) : bytes :=
  match n with
  | Leaf key value => 0 :: key ++ value
  | Branch lft rgt => 1 :: lft ++ rgt
  end.

Definition decode (bs : bytes) : option Node :=
  if decide (length bs <> ENCODED_SIZE) then None
  else
    let a := take 32 (drop 1 bs) in
    let b := take 32 (drop 33 bs) in
    match bs with
    | 0 :: _ => Some (Leaf a b)
    | 1 :: _ => Some (Branch a b)
    | _ => None
    end.

(** * Key bits *)

(** [bit(key, i)]: the index is in range wherever the callers guard the depth. *)
Definition bit (key : H256) (i : nat) : Z :=
  Z.land (Z.shiftr (key !!! (i / 8)%nat) (Z.of_nat (7 - i mod 8))) 1.

(** The same read where the caller does not bound [i]: [None] is the index panic. *)
Definition bit_checked (key : H256) (i : nat) : option Z :=
  b ← key !! (i / 8)%nat; Some (Z.land (Z.shiftr b (Z.of_nat (7 - i mod 8))) 1).

Definition set_bit (key : H256) (i : nat) : H256 :=
  alter (fun b => Z.lor b (Z.shiftl 1 (Z.of_nat (7 - i mod 8)))) (i / 8)%nat key.

(** [for i in depth..TREE_DEPTH { set_bit(&mut m, i) }]. *)
Definition subtree_max (path : H256) (depth : nat) : H256 :=
  foldl set_bit path (seq depth (TREE_DEPTH - depth)).

Definition shares_prefix (a b : H256) (n : nat) : option bool :=
  foldr (fun i acc =>
           x ← bit_checked a i; y ← bit_checked b i;
           if x =? y then acc else Some false)
        (Some true) (seq 0 n).

(** * Hashing

    A Goldilocks element is a residue modulo [2^64 - 2^32 + 1]. *)

Definition goldilocks_p : Z := 2 ^ 64 - 2 ^ 32 + 1.
Definition from_u64 (x : Z) : Z := x mod goldilocks_p.
Definition as_canonical_u64 (f : Z) : Z := f mod goldilocks_p.

(** [[Goldilocks; 4]]. *)
Definition felt4 : Type := Z * Z * Z * Z.

Definition felts (f : felt4) : list Z :=
  let '(a, b, c, d) := f in [a; b; c; d].

Definition bytes_to_goldilocks (bs : bytes) : felt4 :=
  let word i := from_u64 (from_le (take 8 (drop (i * 8) bs))) in
  (word 0%nat, word 1%nat, word 2%nat, word 3%nat).

Definition goldilocks_to_bytes (f : felt4) : H256 :=
  concat (map (fun x => to_le 8 (as_canonical_u64 x)) (felts f)).

Definition domain_from_bytes (bs : bytes) : felt4 :=
  let n := Nat.min (length bs) 32 in
  bytes_to_goldilocks (take n bs ++ replicate (32 - n) 0).

Definition leaf_domain : felt4 := domain_from_bytes (string_bytes "SAHYADRI_SMT_LEAF_V1").
Definition branch_domain : felt4 := domain_from_bytes (string_bytes "SAHYADRI_SMT_BRANCH_V1").
Definition key_domain : felt4 := domain_from_bytes (string_bytes "SAHYADRI_SMT_KEY_V1").

(** [while padded.len() % 32 != 0 { padded.push(0) }]; 31 rounds are enough. *)
Fixpoint pad_loop (fuel : nat) (padded : bytes) : bytes :=
  match fuel with
  | O => padded
  | S fuel' =>
      if decide (length padded mod 32 = 0)%nat then padded
      else pad_loop fuel' (padded ++ [0])
  end.

Definition key_padding (data : bytes) : bytes :=
  let padded := pad_loop 32 data in
  match padded with [] => replicate 32 0 | _ => padded end.

(** * Node stores *)

(** The trait [NodeStore]. *)
Class NodeStore (S : Type) := {
  store_get : S -> H256 -> option Node;
  store_put : Node -> S -> S * H256;
}.

Inductive Terminal :=
| TermEmpty
| TermLeaf (key value : H256).

#[export] Instance Terminal_eq_dec : EqDecision Terminal.
Proof. solve_decision. Defined.

Record Proof_ := { siblings : list H256; terminal : Terminal }.

Section hashing.
(** [MyHash::hash_iter], the width-8 Poseidon2 sponge of the p3 crates. *)
Context (hash_iter : list Z -> felt4).

Definition hash_leaf (key value : H256) : H256 :=
  goldilocks_to_bytes (hash_iter
    (felts leaf_domain ++ felts (bytes_to_goldilocks key) ++ felts (bytes_to_goldilocks value))).

Definition hash_branch (lft rgt : H256) : H256 :=
  goldilocks_to_bytes (hash_iter
    (felts branch_domain ++ felts (bytes_to_goldilocks lft) ++ felts (bytes_to_goldilocks rgt))).

Definition hash_key (data : bytes) : H256 :=
  let input := felts key_domain ++
    concat (map (fun chunk => felts (bytes_to_goldilocks chunk)) (chunks 32 (key_padding data))) in
  goldilocks_to_bytes (hash_iter input).

Definition hash (n : Node) : H256 :=
  match n with
  | Leaf key value => hash_leaf key value
  | Branch lft rgt => hash_branch lft rgt
  end.

(** [MemStore]. *)
Record MemStore := { nodes : gmap H256 Node }.

#[export] Instance mem_store : NodeStore MemStore := {
  store_get s h := nodes s !! h;
  store_put n s := ({| nodes := <[hash n := n]> (nodes s) |}, hash n);
}.

(** [OverlayStore]: reads fall through to [base], writes stay in [pending]. *)
Record OverlayStore (B : Type) := { base : B; pending : gmap H256 Node }.
Arguments base {B}.
Arguments pending {B}.

Definition overlay_new {B} (b : B) : OverlayStore B := {| base := b; pending := ∅ |}.

#[export] Instance overlay_store {B} `{NodeStore B} : NodeStore (OverlayStore B) := {
  store_get s h := match pending s !! h with
                   | Some n => Some n
                   | None => store_get (base s) h
                   end;
  store_put n s := ({| base := base s; pending := <[hash n := n]> (pending s) |}, hash n);
}.

(** * Tree operations *)

Section ops.
Context {S : Type} `{NodeStore S}.

Definition put (n : Node) : st S SmtError H256 :=
  fun s => let '(s', h) := store_put n s in (s', Ok h).

Definition get_node (h : H256) : st S SmtError Node :=
  fun s => (s, ok_or (MissingNode h) (store_get s h)).

Definition is_leaf (h : H256) : st S SmtError bool :=
  n ← get_node h;
  mret (match n with Leaf _ _ => true | Branch _ _ => false end).

(** [fuel] is [TREE_DEPTH - depth], so its exhaustion is the depth check. *)
Fixpoint split (fuel depth : nat) (ka va kb vb : H256) : st S SmtError H256 :=
  if decide (TREE_DEPTH <= depth)%nat then throw DepthExceeded
  else match fuel with
  | O => throw DepthExceeded
  | Datatypes.S fuel' =>
      let ba := bit ka depth in
      let bb := bit kb depth in
      if negb (ba =? bb) then
        ha ← put (Leaf ka va);
        hb ← put (Leaf kb vb);
        let '(l, r) := if ba =? 0 then (ha, hb) else (hb, ha) in
        put (Branch l r)
      else
        child ← split fuel' (depth + 1) ka va kb vb;
        let '(l, r) := if ba =? 0 then (child, EMPTY) else (EMPTY, child) in
        put (Branch l r)
  end.

Definition normalize (l r : H256) : st S SmtError H256 :=
  match bool_decide (l = EMPTY), bool_decide (r = EMPTY) with
  | true, true => mret EMPTY
  | false, true => b ← is_leaf l; if b : bool then mret l else put (Branch l r)
  | true, false => b ← is_leaf r; if b : bool then mret r else put (Branch l r)
  | false, false => put (Branch l r)
  end.

Fixpoint update_at (fuel : nat) (node_hash : H256) (depth : nat) (key : H256)
    (value : option H256) : st S SmtError H256 :=
  if decide (node_hash = EMPTY) then
    match value with
    | Some v => put (Leaf key v)
    | None => mret EMPTY
    end
  else
    node ← get_node node_hash;
    match node with
    | Leaf k v =>
        if decide (k = key) then
          match value with
          | Some nv => put (Leaf k nv)
          | None => mret EMPTY
          end
        else match value with
             | None => mret node_hash
             | Some nv => split fuel depth k v key nv
             end
    | Branch lft rgt =>
        if decide (TREE_DEPTH <= depth)%nat then throw DepthExceeded
        else match fuel with
        | O => throw DepthExceeded
        | Datatypes.S fuel' =>
            if bit key depth =? 0 then
              l ← update_at fuel' lft (depth + 1) key value;
              normalize l rgt
            else
              r ← update_at fuel' rgt (depth + 1) key value;
              normalize lft r
        end
    end.

Definition update (root key : H256) (value : option H256) : st S SmtError H256 :=
  update_at TREE_DEPTH root 0 key value.

Fixpoint update_many (root : H256) (changes : list (H256 * option H256)) :
    st S SmtError H256 :=
  match changes with
  | [] => mret root
  | (key, value) :: changes' =>
      root' ← update root key value;
      update_many root' changes'
  end.

(** The loop of [get]. *)
Fixpoint get_loop (fuel : nat) (s : S) (cur : H256) (depth : nat) (key : H256) :
    result SmtError (option H256) :=
  if decide (cur = EMPTY) then Ok None
  else match store_get s cur with
  | None => Err (MissingNode cur)
  | Some (Leaf k value) => Ok (if decide (k = key) then Some value else None)
  | Some (Branch lft rgt) =>
      if decide (TREE_DEPTH <= depth)%nat then Err DepthExceeded
      else match fuel with
      | O => Err DepthExceeded
      | Datatypes.S fuel' =>
          get_loop fuel' s (if bit key depth =? 0 then lft else rgt) (depth + 1) key
      end
  end.

Definition get (s : S) (root key : H256) : result SmtError (option H256) :=
  get_loop TREE_DEPTH s root 0 key.

(** The loop of [prove]; [sibs] is the vector built so far. *)
Fixpoint prove_loop (fuel : nat) (s : S) (sibs : list H256) (cur : H256) (depth : nat)
    (key : H256) : result SmtError Proof_ :=
  if decide (cur = EMPTY) then Ok {| siblings := sibs; terminal := TermEmpty |}
  else match store_get s cur with
  | None => Err (MissingNode cur)
  | Some (Leaf k value) => Ok {| siblings := sibs; terminal := TermLeaf k value |}
  | Some (Branch lft rgt) =>
      if decide (TREE_DEPTH <= depth)%nat then Err DepthExceeded
      else match fuel with
      | O => Err DepthExceeded
      | Datatypes.S fuel' =>
          if bit key depth =? 0 then prove_loop fuel' s (sibs ++ [rgt]) lft (depth + 1) key
          else prove_loop fuel' s (sibs ++ [lft]) rgt (depth + 1) key
      end
  end.

Definition prove (s : S) (root key : H256) : result SmtError Proof_ :=
  prove_loop TREE_DEPTH s [] root 0 key.

(** The loop of [leaves_after]: [None] is exhausted fuel. The stack's top is
    the head of the list. *)
Fixpoint leaves_loop (fuel : nat) (s : S) (after : option H256) (limit : nat)
    (out : list (H256 * H256)) (stack : list (H256 * nat * H256)) :
    option (result SmtError (list (H256 * H256))) :=
  match stack with
  | [] => Some (Ok out)
  | (h, depth, path) :: stack' =>
      match fuel with
      | O => None
      | Datatypes.S fuel' =>
          if decide (h = EMPTY) then leaves_loop fuel' s after limit out stack'
          else if (match after with
                   | Some a => bytes_leb (subtree_max path depth) a
                   | None => false
                   end)
          then leaves_loop fuel' s after limit out stack'
          else match store_get s h with
          | None => Some (Err (MissingNode h))
          | Some (Leaf key value) =>
              if (match after with Some a => bytes_ltb a key | None => true end) then
                let out' := out ++ [(key, value)] in
                if decide (limit <= length out')%nat then Some (Ok out')
                else leaves_loop fuel' s after limit out' stack'
              else leaves_loop fuel' s after limit out stack'
          | Some (Branch lft rgt) =>
              if decide (TREE_DEPTH <= depth)%nat then Some (Err DepthExceeded)
              else leaves_loop fuel' s after limit out
                     ((lft, (depth + 1)%nat, path)
                        :: (rgt, (depth + 1)%nat, set_bit path depth) :: stack')
          end
      end
  end.

Definition leaves_after (fuel : nat) (s : S) (root : H256) (after : option H256)
    (limit : nat) : option (result SmtError (list (H256 * H256))) :=
  if decide (root = EMPTY \/ limit = 0%nat) then Some (Ok [])
  else leaves_loop fuel s after limit [] [(root, 0%nat, replicate 32 0)].
End ops.

(** * Proof verification

    [None] is the index panic of [bit] on a proof with more than 256 siblings. *)

Definition compute_root (key : H256) (p : Proof_) : option H256 :=
  let h0 := match terminal p with
            | TermEmpty => EMPTY
            | TermLeaf k v => hash_leaf k v
            end in
  foldr (fun '(i, sib) acc =>
           h ← acc;
           b ← bit_checked key i;
           Some (if b =? 0 then hash_branch h sib else hash_branch sib h))
        (Some h0) (imap (fun i sib => (i, sib)) (siblings p)).

Definition verify_inclusion (root key value : H256) (p : Proof_) : option bool :=
  match terminal p with
  | TermLeaf k v =>
      if decide (k = key /\ v = value) then
        r ← compute_root key p; Some (bool_decide (r = root))
      else Some false
  | TermEmpty => Some false
  end.

Definition verify_exclusion (root key : H256) (p : Proof_) : option bool :=
  match terminal p with
  | TermEmpty => r ← compute_root key p; Some (bool_decide (r = root))
  | TermLeaf k _ =>
      if decide (k = key) then Some false
      else
        sp ← shares_prefix k key (length (siblings p));
        if sp : bool then r ← compute_root key p; Some (bool_decide (r = root))
        else Some false
  end.
End hashing.

Arguments base {B}.
Arguments pending {B}.
