(* ===== verification/SmtTree.v ===== *)
(** The abstract side of the sparse Merkle tree: keys as 256-bit strings,
    compressed binary trees, their canonical form and their content as a finite
    map. [tupdate] is the reference definition that SmtCorrect.v shows
    [Smt.update] to implement. *)

From S2P Require Import Prelude Smt.

(** * Keys as bit strings *)

(** Bit [i] of a key counted from the most significant end. *)
Definition kbit (k : H256) (i : nat) : bool := Z.testbit (from_be k) (255 - Z.of_nat i).
Definition kbits (k : H256) : list bool := map (kbit k) (seq 0 256).

Lemma testbit_hi_lo b x m i :
  0 <= x < 2 ^ m -> 0 <= m -> 0 <= i ->
  Z.testbit (b * 2 ^ m + x) i = if i <? m then Z.testbit x i else Z.testbit b (i - m).
Proof.
  intros Hx Hm Hi. rewrite <- Z.shiftl_mul_pow2 by lia.
  assert (E : Z.land (Z.shiftl b m) x = 0).
  { apply Z.bits_inj'. intros j Hj. rewrite Z.land_spec, Z.bits_0, Z.shiftl_spec by lia.
    destruct (Z.ltb_spec j m); [by rewrite Z.testbit_neg_r by lia|].
    rewrite <- (Z.mod_small x (2 ^ m)) by done.
    rewrite Z.mod_pow2_bits_high by lia. apply andb_false_r. }
  rewrite Z.add_nocarry_lxor, Z.lxor_lor, Z.lor_spec, Z.shiftl_spec by done.
  destruct (Z.ltb_spec i m).
  - by rewrite Z.testbit_neg_r by lia.
  - rewrite <- (Z.mod_small x (2 ^ m)) by done.
    rewrite Z.mod_pow2_bits_high by lia. apply orb_false_r.
Qed.

Lemma pow256_pow2 n : 256 ^ Z.of_nat n = 2 ^ (8 * Z.of_nat n).
Proof. change 256 with (2 ^ 8). rewrite <- Z.pow_mul_r; lia. Qed.

Lemma from_be_testbit l i :
  bytes_ok l -> (i < 8 * length l)%nat ->
  Z.testbit (from_be l) (8 * Z.of_nat (length l) - 1 - Z.of_nat i) =
  Z.testbit (l !!! (i / 8)%nat) (7 - Z.of_nat (i mod 8)).
Proof.
  intros Hl. revert i. induction Hl as [|b l Hb Hl IH]; intros i Hi; simpl length in *; [lia|].
  cbn [from_be]. rewrite pow256_pow2.
  pose proof (from_be_range l Hl) as R. rewrite pow256_pow2 in R.
  rewrite testbit_hi_lo by lia.
  destruct (Nat.lt_ge_cases i 8) as [Hi8|Hi8].
  - destruct (Z.ltb_spec (8 * Z.of_nat (S (length l)) - 1 - Z.of_nat i) (8 * Z.of_nat (length l))); [lia|].
    rewrite Nat.div_small, Nat.mod_small by done. simpl. f_equal. lia.
  - destruct (Z.ltb_spec (8 * Z.of_nat (S (length l)) - 1 - Z.of_nat i) (8 * Z.of_nat (length l))); [|lia].
    replace i with (i - 8 + 1 * 8)%nat by lia.
    rewrite Nat.div_add, Nat.Div0.mod_add by lia.
    rewrite Nat.add_1_r.
    change ((b :: l) !!! S ((i - 8) / 8)%nat) with (l !!! ((i - 8) / 8)%nat).
    rewrite <- IH by lia. f_equal. lia.
Qed.

Lemma bit_kbit k i : h256_ok k -> (i < 256)%nat -> bit k i = Z.b2z (kbit k i).
Proof.
  intros [Hlen Hok] Hi. unfold bit, kbit.
  assert (Hm := Nat.mod_upper_bound i 8).
  change 1 with (Z.ones 1) at 1. rewrite Z.land_ones by lia.
  change (2 ^ 1) with 2. rewrite <- Z.bit0_mod, Z.shiftr_spec by lia. f_equal.
  replace (0 + Z.of_nat (7 - i mod 8)) with (7 - Z.of_nat (i mod 8)) by lia.
  rewrite <- from_be_testbit by (done || lia). rewrite Hlen. f_equal; lia.
Qed.

Lemma bit_is_0 k i : h256_ok k -> (i < 256)%nat -> (bit k i =? 0) = negb (kbit k i).
Proof. intros. rewrite bit_kbit by done. by destruct (kbit k i). Qed.

Lemma bit_eqb a b i :
  h256_ok a -> h256_ok b -> (i < 256)%nat -> (bit a i =? bit b i) = eqb (kbit a i) (kbit b i).
Proof. intros. rewrite !bit_kbit by done. by destruct (kbit a i), (kbit b i). Qed.

Lemma length_kbits k : length (kbits k) = 256%nat.
Proof. done. Qed.

Lemma kbits_lookup k i : (i < 256)%nat -> kbits k !! i = Some (kbit k i).
Proof.
  intros Hi. unfold kbits. 
  rewrite list_lookup_fmap, lookup_seq_lt by done. done.
Qed.

Lemma kbits_inj a b : h256_ok a -> h256_ok b -> kbits a = kbits b -> a = b.
Proof.
  intros [La Oa] [Lb Ob] E. apply from_be_inj; [done..|congruence|].
  pose proof (from_be_range a Oa) as Ra. pose proof (from_be_range b Ob) as Rb.
  rewrite La in Ra. rewrite Lb in Rb. rewrite pow256_pow2 in *.
  change (8 * Z.of_nat 32) with 256 in *.
  apply Z.bits_inj'. intros j Hj. destruct (Z.lt_ge_cases j 256) as [Hj'|Hj'].
  - assert (Ei : kbits a !! Z.to_nat (255 - j) = kbits b !! Z.to_nat (255 - j)) by by rewrite E.
    rewrite !kbits_lookup in Ei by lia. injection Ei as Ei. unfold kbit in Ei.
    by replace (255 - Z.of_nat (Z.to_nat (255 - j))) with j in Ei by lia.
  - rewrite <- (Z.mod_small (from_be a) (2 ^ 256)), <- (Z.mod_small (from_be b) (2 ^ 256)) by done.
    by rewrite !Z.mod_pow2_bits_high by lia.
Qed.

Lemma prefix_snoc (p : list bool) k b :
  (length p < 256)%nat ->
  p ++ [b] `prefix_of` kbits k <-> p `prefix_of` kbits k /\ kbit k (length p) = b.
Proof.
  intros Hp. split.
  - intros Hpre. split; [by eapply prefix_app_l|].
    assert (E : kbits k !! length p = Some b).
    { destruct Hpre as [q ->]. by rewrite <- app_assoc, lookup_app_r, Nat.sub_diag by lia. }
    rewrite kbits_lookup in E by done. congruence.
  - intros [[q Hq] Hb]. destruct q as [|b' q].
    { apply (f_equal length) in Hq. rewrite length_kbits, app_nil_r in Hq. lia. }
    assert (E : kbits k !! length p = Some b').
    { by rewrite Hq, lookup_app_r, Nat.sub_diag by lia. }
    rewrite kbits_lookup in E by done. exists q. rewrite <- app_assoc. simpl. congruence.
Qed.

Lemma prefix_full (p : list bool) a b :
  h256_ok a -> h256_ok b -> (256 <= length p)%nat ->
  p `prefix_of` kbits a -> p `prefix_of` kbits b -> a = b.
Proof.
  intros Ha Hb Hp Pa Pb. apply kbits_inj; [done..|].
  assert (Ea : p = kbits a).
  { apply prefix_length_eq; [done|]. by rewrite length_kbits. }
  assert (Eb : p = kbits b).
  { apply prefix_length_eq; [done|]. by rewrite length_kbits. }
  congruence.
Qed.

(** * Trees *)

Inductive tree :=
| TEmpty
| TLeaf (k v : H256)
| TBranch (l r : tree).

#[export] Instance tree_eq_dec : EqDecision tree.
Proof. solve_decision. Defined.

Fixpoint nleaves (t : tree) : nat :=
  match t with TEmpty => 0 | TLeaf _ _ => 1 | TBranch l r => nleaves l + nleaves r end.

Fixpoint tleaves (t : tree) : list (H256 * H256) :=
  match t with
  | TEmpty => []
  | TLeaf k v => [(k, v)]
  | TBranch l r => tleaves l ++ tleaves r
  end.

(** The content of a tree. *)
Fixpoint tmap (t : tree) : gmap H256 H256 :=
  match t with
  | TEmpty => ∅
  | TLeaf k v => {[k := v]}
  | TBranch l r => tmap l ∪ tmap r
  end.

(** Canonical form below the path [p]: every key lies on its path and a subtree
    with a single leaf is that leaf. *)
Fixpoint canon (p : list bool) (t : tree) : Prop :=
  match t with
  | TEmpty => True
  | TLeaf k v => h256_ok k /\ h256_ok v /\ p `prefix_of` kbits k
  | TBranch l r =>
      (length p < 256)%nat /\ canon (p ++ [false]) l /\ canon (p ++ [true]) r /\
      (2 <= nleaves l + nleaves r)%nat
  end.

Definition tnorm (l r : tree) : tree :=
  match l, r with
  | TEmpty, TEmpty => TEmpty
  | TLeaf _ _, TEmpty => l
  | TEmpty, TLeaf _ _ => r
  | _, _ => TBranch l r
  end.

Fixpoint tsplit (fuel depth : nat) (ka va kb vb : H256) : tree :=
  match fuel with
  | O => TEmpty
  | S fuel' =>
      if eqb (kbit ka depth) (kbit kb depth) then
        let child := tsplit fuel' (depth + 1) ka va kb vb in
        if kbit ka depth then TBranch TEmpty child else TBranch child TEmpty
      else if kbit ka depth then TBranch (TLeaf kb vb) (TLeaf ka va)
      else TBranch (TLeaf ka va) (TLeaf kb vb)
  end.

Fixpoint tupdate (t : tree) (depth : nat) (k : H256) (value : option H256) : tree :=
  match t with
  | TEmpty => match value with Some v => TLeaf k v | None => TEmpty end
  | TLeaf k' v' =>
      if decide (k' = k) then match value with Some v => TLeaf k' v | None => TEmpty end
      else match value with
           | None => t
           | Some v => tsplit (256 - depth) depth k' v' k v
           end
  | TBranch l r =>
      if kbit k depth then tnorm l (tupdate r (depth + 1) k value)
      else tnorm (tupdate l (depth + 1) k value) r
  end.

(** What an update does to the content. *)
Definition mupdate (m : gmap H256 H256) (k : H256) (value : option H256) : gmap H256 H256 :=
  match value with Some v => <[k := v]> m | None => delete k m end.

(** * Content of canonical trees *)

Lemma canon_lookup p t k v :
  canon p t -> tmap t !! k = Some v -> p `prefix_of` kbits k /\ h256_ok k /\ h256_ok v.
Proof.
  revert p. induction t as [|k' v'|l IHl r IHr]; intros p; simpl.
  - by rewrite lookup_empty.
  - intros (? & ? & ?) [-> ->]%lookup_singleton_Some. done.
  - intros (Hp & Hl & Hr & _) [H|[_ H]]%lookup_union_Some_raw.
    + apply (IHl (p ++ [false])) in H as (Hk & ? & ?); [|done]. by apply prefix_snoc in Hk as [? _].
    + apply (IHr (p ++ [true])) in H as (Hk & ? & ?); [|done]. by apply prefix_snoc in Hk as [? _].
Qed.

Lemma canon_disjoint p l r :
  (length p < 256)%nat -> canon (p ++ [false]) l -> canon (p ++ [true]) r -> tmap l ##ₘ tmap r.
Proof.
  intros Hp Hl Hr. apply map_disjoint_spec. intros k v w H1 H2.
  apply (canon_lookup _ _ _ _ Hl) in H1 as [H1 _].
  apply (canon_lookup _ _ _ _ Hr) in H2 as [H2 _].
  apply prefix_snoc in H1 as [_ H1]; [|done]. apply prefix_snoc in H2 as [_ H2]; [|done]. congruence.
Qed.

Lemma canon_size p t : canon p t -> size (tmap t) = nleaves t.
Proof.
  revert p. induction t as [|k v|l IHl r IHr]; intros p; simpl.
  - intros _. apply map_size_empty.
  - intros _. apply map_size_singleton.
  - intros (Hp & Hl & Hr & _).
    rewrite map_size_disj_union by (by eapply canon_disjoint). by erewrite IHl, IHr.
Qed.

(** On a branch the bit at its depth selects the side that holds a key. *)
Lemma branch_lookup p l r k :
  (length p < 256)%nat -> canon (p ++ [false]) l -> canon (p ++ [true]) r ->
  p `prefix_of` kbits k ->
  (tmap l ∪ tmap r) !! k = if kbit k (length p) then tmap r !! k else tmap l !! k.
Proof.
  intros Hp Hl Hr Hk. destruct (kbit k (length p)) eqn:E.
  - rewrite lookup_union_r; [done|]. destruct (tmap l !! k) eqn:El; [|done].
    apply (canon_lookup _ _ _ _ Hl) in El as [El _]. apply prefix_snoc in El as [_ El]; [|done]. congruence.
  - rewrite lookup_union_l; [done|]. destruct (tmap r !! k) eqn:Er; [|done].
    apply (canon_lookup _ _ _ _ Hr) in Er as [Er _]. apply prefix_snoc in Er as [_ Er]; [|done]. congruence.
Qed.

Lemma canon_branch_lookup_l p l r k :
  (length p < 256)%nat -> canon (p ++ [false]) l -> canon (p ++ [true]) r ->
  tmap l !! k = if decide (p ++ [false] `prefix_of` kbits k) then (tmap l ∪ tmap r) !! k else None.
Proof.
  intros Hp Hl Hr. case_decide as D.
  - apply prefix_snoc in D as [D1 D2]; [|done]. by rewrite (branch_lookup p), D2.
  - destruct (tmap l !! k) eqn:E; [|done]. by apply (canon_lookup _ _ _ _ Hl) in E as [? _].
Qed.

Lemma canon_branch_lookup_r p l r k :
  (length p < 256)%nat -> canon (p ++ [false]) l -> canon (p ++ [true]) r ->
  tmap r !! k = if decide (p ++ [true] `prefix_of` kbits k) then (tmap l ∪ tmap r) !! k else None.
Proof.
  intros Hp Hl Hr. case_decide as D.
  - apply prefix_snoc in D as [D1 D2]; [|done]. by rewrite (branch_lookup p), D2.
  - destruct (tmap r !! k) eqn:E; [|done]. by apply (canon_lookup _ _ _ _ Hr) in E as [? _].
Qed.

(** A canonical tree is determined by its content. *)
Lemma canon_unique p t1 t2 :
  canon p t1 -> canon p t2 -> tmap t1 = tmap t2 -> t1 = t2.
Proof.
  revert p t2. induction t1 as [|k v|l1 IHl r1 IHr]; intros p t2 H1 H2 E;
    pose proof (canon_size _ _ H1) as S1; pose proof (canon_size _ _ H2) as S2;
    rewrite E, S2 in S1; destruct t2 as [|k2 v2|l2 r2]; simpl in *; try lia; try done.
  - apply map_singleton_inj in E as [-> ->]. done.
  - destruct H1 as (Hp & Hl1 & Hr1 & _), H2 as (_ & Hl2 & Hr2 & _). f_equal.
    + apply (IHl (p ++ [false])); [done..|]. apply map_eq. intros k.
      by rewrite (canon_branch_lookup_l p l1 r1), (canon_branch_lookup_l p l2 r2), E.
    + apply (IHr (p ++ [true])); [done..|]. apply map_eq. intros k.
      by rewrite (canon_branch_lookup_r p l1 r1), (canon_branch_lookup_r p l2 r2), E.
Qed.

(** * Updates *)

Lemma canon_branch_nleaves p l r : canon p (TBranch l r) -> (2 <= nleaves (TBranch l r))%nat.
Proof. by intros (_ & _ & _ & ?). Qed.

Lemma canon_branch_intro p l r :
  (length p < 256)%nat -> canon (p ++ [false]) l -> canon (p ++ [true]) r ->
  (2 <= nleaves l + nleaves r)%nat -> canon p (TBranch l r).
Proof. done. Qed.

Lemma canon_leaf_up p b k v :
  (length p < 256)%nat -> canon (p ++ [b]) (TLeaf k v) -> canon p (TLeaf k v).
Proof. intros Hp (? & ? & Hk). by apply prefix_snoc in Hk as [? _]. Qed.

Lemma canon_tnorm p l r :
  (length p < 256)%nat -> canon (p ++ [false]) l -> canon (p ++ [true]) r ->
  canon p (tnorm l r) /\ tmap (tnorm l r) = tmap l ∪ tmap r.
Proof.
  intros Hp Hl Hr. split.
  - destruct l as [|kl vl|ll rl], r as [|kr vr|lr rr]; simpl tnorm; try done;
      try (by eapply canon_leaf_up);
      apply canon_branch_intro; try done;
      repeat match goal with
      | H : canon _ (TBranch ?a ?b) |- _ => apply canon_branch_nleaves in H
      end; simpl in *; lia.
  - destruct l, r; simpl; by rewrite ?map_empty_union, ?map_union_empty.
Qed.

Lemma tsplit_spec fuel p ka va kb vb :
  (fuel + length p = 256)%nat -> ka <> kb ->
  h256_ok ka -> h256_ok va -> h256_ok kb -> h256_ok vb ->
  p `prefix_of` kbits ka -> p `prefix_of` kbits kb ->
  canon p (tsplit fuel (length p) ka va kb vb) /\
  nleaves (tsplit fuel (length p) ka va kb vb) = 2%nat /\
  tmap (tsplit fuel (length p) ka va kb vb) = <[kb := vb]> {[ka := va]}.
Proof.
  revert p. induction fuel as [|fuel IH]; intros p Hf Hne Ha Hva Hb Hvb Pa Pb.
  { exfalso. apply Hne. eapply (prefix_full p); eauto. lia. }
  assert (Hp : (length p < 256)%nat) by lia. simpl.
  destruct (kbit ka (length p)) eqn:Ea, (kbit kb (length p)) eqn:Eb; simpl.
  - destruct (IH (p ++ [true])) as (C & N & M); rewrite ?length_app; simpl; try lia;
      rewrite ?prefix_snoc; auto.
    rewrite length_app in C, N, M; simpl in C, N, M.
    rewrite M, N, map_empty_union. auto with lia.
  - rewrite !prefix_snoc by done. split_and!; auto.
    apply map_eq. intros k. rewrite insert_union_singleton_l. done.
  - rewrite !prefix_snoc by done. split_and!; auto.
    rewrite insert_union_singleton_l, map_union_comm; [done|].
    apply map_disjoint_singleton_l. by apply lookup_singleton_ne.
  - destruct (IH (p ++ [false])) as (C & N & M); rewrite ?length_app; simpl; try lia;
      rewrite ?prefix_snoc; auto.
    rewrite length_app in C, N, M; simpl in C, N, M.
    rewrite M, N, map_union_empty. auto with lia.
Qed.

Lemma mupdate_union_l (m1 m2 : gmap H256 H256) k value :
  m2 !! k = None -> mupdate m1 k value ∪ m2 = mupdate (m1 ∪ m2) k value.
Proof.
  destruct value; simpl; intros.
  - by rewrite insert_union_l.
  - by rewrite delete_union, (delete_id m2).
Qed.

Lemma mupdate_union_r (m1 m2 : gmap H256 H256) k value :
  m1 !! k = None -> m1 ∪ mupdate m2 k value = mupdate (m1 ∪ m2) k value.
Proof.
  destruct value; simpl; intros.
  - by rewrite insert_union_r.
  - by rewrite delete_union, (delete_id m1).
Qed.

(** The reference update keeps trees canonical and updates their content. *)
Lemma tupdate_spec p t k value :
  canon p t -> h256_ok k -> p `prefix_of` kbits k -> (forall v, value = Some v -> h256_ok v) ->
  canon p (tupdate t (length p) k value) /\
  tmap (tupdate t (length p) k value) = mupdate (tmap t) k value.
Proof.
  revert p. induction t as [|k' v'|l IHl r IHr]; intros p Ht Hk Pk Hv; simpl.
  - destruct value; simpl; rewrite ?insert_empty, ?delete_empty; auto.
  - destruct Ht as (Hk' & Hv' & Pk'). case_decide as D.
    + subst k'. destruct value; simpl; split_and!; auto.
      * by rewrite insert_singleton_eq.
      * by rewrite delete_singleton_eq.
    + destruct value as [v|]; simpl.
      * assert (length p < 256)%nat.
        { destruct (Nat.lt_ge_cases (length p) 256); [done|]. exfalso. apply D. by eapply (prefix_full p). }
        destruct (tsplit_spec (256 - length p) p k' v' k v) as (? & ? & ?); auto. lia.
      * split; [auto|]. by rewrite delete_singleton_ne.
  - destruct Ht as (Hp & Hl & Hr & _). destruct (kbit k (length p)) eqn:Eb.
    + destruct (IHr (p ++ [true])) as [C M]; auto; [by rewrite prefix_snoc|].
      rewrite length_app in C, M; simpl in C, M.
      destruct (canon_tnorm p l (tupdate r (length p + 1) k value)) as [? ->]; auto.
      rewrite M. split; [done|]. apply mupdate_union_r.
      rewrite (canon_branch_lookup_l p l r), decide_False; [done|..]; auto.
      rewrite prefix_snoc by done. intros []; congruence.
    + destruct (IHl (p ++ [false])) as [C M]; auto; [by rewrite prefix_snoc|].
      rewrite length_app in C, M; simpl in C, M.
      destruct (canon_tnorm p (tupdate l (length p + 1) k value) r) as [? ->]; auto.
      rewrite M. split; [done|]. apply mupdate_union_l.
      rewrite (canon_branch_lookup_r p l r), decide_False; [done|..]; auto.
      rewrite prefix_snoc by done. intros []; congruence.
Qed.

(** * Key order *)

Definition key_lt (a b : H256 * H256) : Prop := bytes_ltb a.1 b.1 = true.

Lemma h256_ltb a b : h256_ok a -> h256_ok b -> bytes_ltb a b = (from_be a <? from_be b).
Proof. intros [La Oa] [Lb Ob]. apply bytes_ltb_be; congruence. Qed.

Lemma h256_leb a b : h256_ok a -> h256_ok b -> bytes_leb a b = (from_be a <=? from_be b).
Proof. intros. unfold bytes_leb. rewrite h256_ltb by done. lia. Qed.

Lemma h256_range k : h256_ok k -> 0 <= from_be k < 2 ^ 256.
Proof.
  intros [L Ok]. pose proof (from_be_range k Ok) as R. rewrite L, pow256_pow2 in R. exact R.
Qed.

Lemma div_pow2_S a n : 0 <= n -> a / 2 ^ n = 2 * (a / 2 ^ (n + 1)) + Z.b2z (Z.testbit a n).
Proof.
  intros Hn. rewrite Z.testbit_spec' by done.
  rewrite Z.pow_add_r, <- Z.div_div by lia. change (2 ^ 1) with 2.
  apply Z.div_mod. lia.
Qed.

Lemma lt_of_bits a b n :
  0 <= n -> (forall i, n < i -> Z.testbit a i = Z.testbit b i) ->
  Z.testbit a n = false -> Z.testbit b n = true -> a < b.
Proof.
  intros Hn Hhi Ha Hb.
  assert (E : a / 2 ^ (n + 1) = b / 2 ^ (n + 1)).
  { rewrite <- !Z.shiftr_div_pow2 by lia. apply Z.bits_inj'. intros i Hi.
    rewrite !Z.shiftr_spec by done. apply Hhi. lia. }
  pose proof (div_pow2_S a n Hn) as Da. pose proof (div_pow2_S b n Hn) as Db.
  rewrite Ha in Da. rewrite Hb in Db. simpl in Da, Db.
  destruct (Z.lt_ge_cases a b) as [|Hge]; [done|]. exfalso.
  pose proof (Z.div_le_mono b a (2 ^ n)). pose proof (Z.pow_pos_nonneg 2 n). lia.
Qed.

Lemma le_of_bits a b :
  0 <= a -> 0 <= b -> (forall i, 0 <= i -> Z.testbit a i = true -> Z.testbit b i = true) -> a <= b.
Proof.
  intros Ha Hb Hbits.
  assert (E : Z.ldiff a b = 0).
  { apply Z.bits_inj'. intros i Hi. rewrite Z.ldiff_spec, Z.bits_0.
    destruct (Z.testbit a i) eqn:E; [|done]. by rewrite (Hbits i). }
  pose proof (Z.sub_nocarry_ldiff b a E). pose proof (Z.ldiff_nonneg b a). lia.
Qed.

Lemma testbit_high k i : h256_ok k -> 256 <= i -> Z.testbit (from_be k) i = false.
Proof.
  intros Hk Hi. pose proof (h256_range k Hk). rewrite <- (Z.mod_small (from_be k) (2 ^ 256)) by done.
  by apply Z.mod_pow2_bits_high.
Qed.

(** [kbit] at the position of a bit of the key's value. *)
Lemma testbit_kbit k i : 0 <= i < 256 -> Z.testbit (from_be k) i = kbit k (Z.to_nat (255 - i)).
Proof. intros. unfold kbit. f_equal. lia. Qed.

Lemma prefix_kbit (p : list bool) a b i :
  p `prefix_of` kbits a -> p `prefix_of` kbits b -> (i < length p)%nat -> kbit a i = kbit b i.
Proof.
  intros Pa Pb Hi.
  assert (Hp : (length p <= 256)%nat) by (rewrite <- (length_kbits a); by apply prefix_length).
  pose proof (prefix_lookup_lt _ _ _ Hi Pa) as E1. pose proof (prefix_lookup_lt _ _ _ Hi Pb) as E2.
  rewrite kbits_lookup in E1, E2 by lia. congruence.
Qed.

Lemma prefix_lt p a b :
  h256_ok a -> h256_ok b -> (length p < 256)%nat ->
  p ++ [false] `prefix_of` kbits a -> p ++ [true] `prefix_of` kbits b -> from_be a < from_be b.
Proof.
  intros Ha Hb Hp [Pa Ea]%prefix_snoc [Pb Eb]%prefix_snoc; [|done..].
  apply (lt_of_bits _ _ (255 - Z.of_nat (length p))); [lia| |done|done].
  intros i Hi. destruct (Z.lt_ge_cases i 256) as [Hi'|Hi'].
  - rewrite !testbit_kbit by lia. eapply (prefix_kbit p); eauto. lia.
  - by rewrite !testbit_high.
Qed.

Lemma tleaves_tmap p t k v : canon p t -> (k, v) ∈ tleaves t <-> tmap t !! k = Some v.
Proof.
  revert p. induction t as [|k' v'|l IHl r IHr]; intros p Hc; simpl.
  - rewrite lookup_empty. split; [by intros ?%not_elem_of_nil|done].
  - rewrite list_elem_of_singleton, lookup_singleton_Some. naive_solver.
  - destruct Hc as (Hp & Hl & Hr & _). rewrite elem_of_app, (IHl _ Hl), (IHr _ Hr).
    symmetry. apply lookup_union_Some. by eapply canon_disjoint.
Qed.

(** The leaves of a canonical tree, read from left to right, ascend by key. *)
Lemma tleaves_sorted p t : canon p t -> StronglySorted key_lt (tleaves t).
Proof.
  revert p. induction t as [|k' v'|l IHl r IHr]; intros p Hc; simpl; [repeat constructor..|].
  pose proof Hc as (Hp & Hl & Hr & _). specialize (IHl _ Hl). specialize (IHr _ Hr).
  assert (Hlt : forall x y, x ∈ tleaves l -> y ∈ tleaves r -> key_lt x y).
  { intros [k1 v1] [k2 v2] H1 H2.
    apply (tleaves_tmap _ _ _ _ Hl), (canon_lookup _ _ _ _ Hl) in H1 as (P1 & O1 & _).
    apply (tleaves_tmap _ _ _ _ Hr), (canon_lookup _ _ _ _ Hr) in H2 as (P2 & O2 & _).
    unfold key_lt. simpl. rewrite h256_ltb by done. apply Z.ltb_lt. by eapply (prefix_lt p). }
  apply StronglySorted_app. split_and!; done.
Qed.

(** * Path arithmetic of [leaves_after] *)

Lemma kbit_byte k i :
  h256_ok k -> (i < 256)%nat -> kbit k i = Z.testbit (k !!! (i / 8)%nat) (7 - Z.of_nat (i mod 8)).
Proof.
  intros [L Ok] Hi. rewrite <- from_be_testbit by (done || lia). unfold kbit. rewrite L. f_equal; lia.
Qed.

Lemma lor_bit_byte b m : byte_ok b -> 0 <= m < 8 -> byte_ok (Z.lor b (Z.shiftl 1 m)).
Proof.
  unfold byte_ok. intros Hb Hm. rewrite Z.shiftl_mul_pow2, Z.mul_1_l by lia.
  assert (2 ^ m < 256) by (change 256 with (2 ^ 8); apply Z.pow_lt_mono_r; lia).
  pose proof (Z.pow_pos_nonneg 2 m). split; [apply Z.lor_nonneg; lia|].
  change 256 with (2 ^ 8). apply Z.log2_lt_cancel. rewrite Z.log2_lor, Z.log2_pow2 by lia.
  destruct (Z.eq_dec b 0) as [->|]; [simpl; lia|].
  apply Z.max_lub_lt; [|simpl; lia]. apply Z.log2_lt_pow2; simpl; lia.
Qed.

Lemma set_bit_spec k i :
  h256_ok k -> (i < 256)%nat ->
  h256_ok (set_bit k i) /\
  forall j, (j < 256)%nat -> kbit (set_bit k i) j = bool_decide (j = i) || kbit k j.
Proof.
  intros Hk Hi. pose proof (Nat.mod_upper_bound i 8 ltac:(done)) as Hm.
  assert (Hok : h256_ok (set_bit k i)).
  { destruct Hk as [L Ok]. split; [unfold set_bit; by rewrite length_alter|].
    apply Forall_alter; [done|]. intros x Hx Hbx. apply lor_bit_byte; [done|lia]. }
  split; [done|]. intros j Hj.
  pose proof (Nat.mod_upper_bound j 8 ltac:(done)) as Hmj.
  rewrite !kbit_byte by done. unfold set_bit.
  destruct (decide (j / 8 = i / 8)%nat) as [E|E].
  - destruct (lookup_lt_is_Some_2 k (j / 8)) as [b Hb].
    { destruct Hk as [-> _]. apply Nat.Div0.div_lt_upper_bound. lia. }
    rewrite (list_lookup_total_correct _ _ _ Hb), <- E.
    rewrite (list_lookup_total_correct _ _ (Z.lor b (Z.shiftl 1 (Z.of_nat (7 - i mod 8))))).
    2:{ rewrite list_lookup_alter_eq, Hb. done. }
    rewrite Z.lor_spec, orb_comm. f_equal. rewrite Z.shiftl_mul_pow2, Z.mul_1_l by lia.
    rewrite Z.pow2_bits_eqb by lia. apply eq_true_iff_eq.
    rewrite Z.eqb_eq, bool_decide_eq_true.
    pose proof (Nat.div_mod_eq i 8). pose proof (Nat.div_mod_eq j 8). lia.
  - rewrite list_lookup_total_alter_ne by done.
    rewrite bool_decide_eq_false_2; [done|]. by intros ->.
Qed.

Lemma subtree_max_spec path d :
  h256_ok path -> (d <= 256)%nat ->
  h256_ok (subtree_max path d) /\
  forall j, (j < 256)%nat -> kbit (subtree_max path d) j = bool_decide (d <= j)%nat || kbit path j.
Proof.
  intros Hp Hd. unfold subtree_max, TREE_DEPTH.
  assert (G : forall n d path, h256_ok path -> (d + n <= 256)%nat ->
    h256_ok (foldl set_bit path (seq d n)) /\
    forall j, (j < 256)%nat ->
      kbit (foldl set_bit path (seq d n)) j = bool_decide (d <= j < d + n)%nat || kbit path j).
  { clear. induction n as [|n IH]; intros d path Hp Hd; simpl.
    - split; [done|]. intros j Hj. by rewrite bool_decide_eq_false_2 by lia.
    - destruct (set_bit_spec path d) as [Ho Hb]; [done|lia|].
      destruct (IH (S d) (set_bit path d)) as [Ho' Hb']; [done|lia|].
      split; [done|]. intros j Hj. rewrite Hb', Hb, orb_assoc by done. f_equal.
      apply eq_true_iff_eq. rewrite orb_true_iff, !bool_decide_eq_true. lia. }
  destruct (G (256 - d)%nat d path) as [Ho Hb]; [done|lia|]. split; [done|].
  intros j Hj. rewrite Hb by done. f_equal. apply bool_decide_ext. lia.
Qed.

(** The path key of a subtree: its prefix followed by zeros. *)
Definition path_key (p : list bool) (path : H256) : Prop :=
  h256_ok path /\ p `prefix_of` kbits path /\
  forall j, (length p <= j < 256)%nat -> kbit path j = false.

Lemma EMPTY_ok : h256_ok EMPTY.
Proof. split; [done|]. apply Forall_replicate. unfold byte_ok. lia. Qed.

Lemma path_key_root : path_key [] (replicate 32 0).
Proof.
  split; [apply EMPTY_ok|]. split; [apply prefix_nil|]. intros j Hj. unfold kbit.
  change (from_be (replicate 32 0)) with 0. apply Z.bits_0.
Qed.

Lemma path_key_left p path : (length p < 256)%nat -> path_key p path -> path_key (p ++ [false]) path.
Proof.
  intros Hp (Ho & Hpre & Hz). split; [done|]. split.
  - apply prefix_snoc; [done|]. split; [done|]. apply Hz. lia.
  - intros j. rewrite length_app. simpl. intros. apply Hz. lia.
Qed.

Lemma prefix_kbits_intro p k k' :
  (length p <= 256)%nat -> p `prefix_of` kbits k ->
  (forall j, (j < length p)%nat -> kbit k' j = kbit k j) -> p `prefix_of` kbits k'.
Proof.
  intros Hp [q Hq] Hj. exists (drop (length p) (kbits k')).
  rewrite <- (take_drop (length p) (kbits k')) at 1. f_equal.
  apply list_eq_same_length with (length p); [done|rewrite length_take, length_kbits; lia|].
  intros i x y Hi. rewrite lookup_take_lt, kbits_lookup by lia. intros [= <-].
  intros Hy. assert (E : kbits k !! i = Some y) by (rewrite Hq; by apply lookup_app_l_Some).
  rewrite kbits_lookup in E by lia. injection E as <-. by apply Hj.
Qed.

Lemma path_key_right p path :
  (length p < 256)%nat -> path_key p path -> path_key (p ++ [true]) (set_bit path (length p)).
Proof.
  intros Hp (Ho & Hpre & Hz). destruct (set_bit_spec path (length p)) as [Ho' Hb]; [done..|].
  split; [done|]. split.
  - apply prefix_snoc; [done|]. split.
    + apply (prefix_kbits_intro p path); [lia|done|]. intros j Hj. rewrite Hb by lia.
      by rewrite bool_decide_eq_false_2 by lia.
    + rewrite Hb by done. by rewrite bool_decide_eq_true_2.
  - intros j. rewrite length_app. simpl. intros Hj. rewrite Hb, Hz by lia.
    by rewrite bool_decide_eq_false_2 by lia.
Qed.

Lemma subtree_max_upper p path k :
  (length p <= 256)%nat -> path_key p path -> h256_ok k -> p `prefix_of` kbits k ->
  from_be k <= from_be (subtree_max path (length p)).
Proof.
  intros Hp (Ho & Hpre & _) Hk Pk. destruct (subtree_max_spec path (length p)) as [Hm Hb]; [done..|].
  apply le_of_bits; [apply h256_range in Hk; lia|apply h256_range in Hm; lia|].
  intros i Hi Hbit. destruct (Z.lt_ge_cases i 256) as [Hi'|Hi']; [|by rewrite testbit_high in Hbit].
  rewrite testbit_kbit in Hbit by lia. rewrite testbit_kbit, Hb by lia.
  destruct (decide (length p <= Z.to_nat (255 - i))%nat); [by rewrite bool_decide_eq_true_2|].
  rewrite bool_decide_eq_false_2 by done. simpl. rewrite <- Hbit.
  eapply (prefix_kbit p); eauto. lia.
Qed.

(** * Sequences of changes *)

Lemma mupdate_comm m k1 o1 k2 o2 :
  k1 <> k2 -> mupdate (mupdate m k1 o1) k2 o2 = mupdate (mupdate m k2 o2) k1 o1.
Proof.
  intros Hne. destruct o1, o2; simpl.
  - by apply insert_insert_ne.
  - by apply delete_insert_ne.
  - symmetry. by apply delete_insert_ne.
  - apply delete_delete.
Qed.

Fixpoint apply_changes (m : gmap H256 H256) (changes : list (H256 * option H256)) :
    gmap H256 H256 :=
  match changes with
  | [] => m
  | (k, value) :: changes' => apply_changes (mupdate m k value) changes'
  end.

(** Changes to distinct keys commute. *)
Lemma apply_changes_perm m c1 c2 :
  c1 ≡ₚ c2 -> NoDup (map fst c1) -> apply_changes m c1 = apply_changes m c2.
Proof.
  intros Hp. revert m. induction Hp as [|[k o] c1 c2 Hp IH|[k1 o1] [k2 o2] c|c1 c2 c3 H1 IH1 H2 IH2];
    intros m Hnd; simpl in *.
  - done.
  - apply NoDup_cons in Hnd as [_ ?]. auto.
  - rewrite mupdate_comm; [done|]. apply NoDup_cons in Hnd as [Hnin _]. set_solver.
  - rewrite IH1 by done. apply IH2. by rewrite <- H1.
Qed.

Definition change_ok (c : H256 * option H256) : Prop :=
  h256_ok c.1 /\ match c.2 with Some v => h256_ok v | None => True end.

(** Pops of the [leaves_after] stack that a subtree costs. *)
Fixpoint visits (t : tree) : nat :=
  match t with TBranch l r => S (visits l + visits r) | _ => 1 end.

Lemma visits_bound p t :
  canon p t -> (visits t <= 1 + 2 * (256 - length p) * nleaves t)%nat.
Proof.
  revert p. induction t as [|k v|l IHl r IHr]; intros p Hc; cbn [visits]; [apply Nat.le_add_r..|].
  destruct Hc as (Hp & Hl & Hr & Hn). apply IHl in Hl. apply IHr in Hr.
  rewrite length_app in Hl, Hr. cbn [length nleaves] in *.
  assert (Ed : exists d, (256 - length p = S d /\ 256 - (length p + 1) = d)%nat).
  { exists (256 - (length p + 1))%nat. lia. }
  destruct Ed as (d & E1 & E2). rewrite E2 in Hl, Hr. rewrite E1.
  generalize dependent (nleaves l). generalize dependent (nleaves r). intros. nia.
Qed.
