(* ===== verification/SmtCorrect.v ===== *)
(** Correctness of the sparse Merkle tree of crypto/smt: [update] implements the
    finite-map update on any lawful node store, the root depends only on the
    content, proofs are complete and sound, and [leaves_after] enumerates the
    leaves in key order. *)

From S2P Require Import Prelude Smt SmtTree.

(** What the tree operations rely on from a node store. *)
Class NodeStoreLaws (hash_iter : list Z -> felt4) (S : Type) `{NodeStore S} : Prop := {
  put_hash n s : (store_put n s).2 = hash hash_iter n;
  get_put n s h : store_get (store_put n s).1 h =
                  if decide (h = hash hash_iter n) then Some n else store_get s h;
}.

#[export] Instance mem_store_laws hi : NodeStoreLaws hi MemStore (H := mem_store hi).
Proof.
  constructor; [done|]. intros n s h. simpl. rewrite lookup_insert.
  repeat case_decide; congruence.
Qed.

#[export] Instance overlay_store_laws hi {B} `{NB : NodeStore B} :
  NodeStoreLaws hi (OverlayStore B) (H := overlay_store hi).
Proof.
  constructor; [done|]. intros n s h. simpl. rewrite lookup_insert.
  repeat case_decide; congruence.
Qed.

Lemma goldilocks_to_bytes_ok f : h256_ok (goldilocks_to_bytes f).
Proof.
  destruct f as [[[a b] c] d]. unfold goldilocks_to_bytes, felts. cbn [concat map].
  split; [by rewrite !length_app, !length_to_le|].
  repeat apply Forall_app_2; auto with machine.
Qed.

Lemma hash_ok hi n : h256_ok (hash hi n).
Proof. destruct n; apply goldilocks_to_bytes_ok. Qed.

(** ** Node encoding *)

Lemma node_halves (x : Z) (a b : H256) :
  length a = 32%nat -> length b = 32%nat ->
  take 32 (drop 1 (x :: a ++ b)) = a /\ take 32 (drop 33 (x :: a ++ b)) = b.
Proof.
  intros La Lb. rewrite skipn_cons, (skipn_cons 32), drop_0. split.
  - by rewrite take_app_length'.
  - rewrite drop_app_length' by done. apply take_ge. lia.
Qed.

Lemma decode_encode_node n :
  match n with Leaf a b | Branch a b => h256_ok a /\ h256_ok b end ->
  decode (encode n) = Some n.
Proof.
  intros Hn. unfold decode.
  destruct n as [a b|a b]; destruct Hn as [[La _] [Lb _]]; cbn [encode];
    rewrite decide_False by (simpl; rewrite length_app, La, Lb; unfold ENCODED_SIZE; lia);
    match goal with |- context [?x :: a ++ b] => destruct (node_halves x a b La Lb) as [-> ->] end; done.
Qed.

Section tree_ops.
Context (hash_iter : list Z -> felt4).
Local Abbreviation hash := (hash hash_iter).
Local Abbreviation hash_leaf := (hash_leaf hash_iter).
Local Abbreviation hash_branch := (hash_branch hash_iter).

(** Collision resistance, restricted to the nodes [U] at hand: no two of them
    share a hash and none hashes to the all-zero [EMPTY]. *)
Record collision_free (U : Node -> Prop) : Prop := {
  cf_inj n m : U n -> U m -> hash n = hash m -> n = m;
  cf_nonempty n : U n -> hash n <> EMPTY;
}.

Fixpoint root_hash (t : tree) : H256 :=
  match t with
  | TEmpty => EMPTY
  | TLeaf k v => hash_leaf k v
  | TBranch l r => hash_branch (root_hash l) (root_hash r)
  end.

Fixpoint tnodes (t : tree) : list Node :=
  match t with
  | TEmpty => []
  | TLeaf k v => [Leaf k v]
  | TBranch l r => Branch (root_hash l) (root_hash r) :: tnodes l ++ tnodes r
  end.

(** The nodes of a tree that represent it at its root, if it is not empty. *)
Definition in_nodes (U : Node -> Prop) (t : tree) : Prop := forall n, n ∈ tnodes t -> U n.

Lemma in_nodes_branch U l r :
  in_nodes U (TBranch l r) <->
  U (Branch (root_hash l) (root_hash r)) /\ in_nodes U l /\ in_nodes U r.
Proof. unfold in_nodes. simpl. set_solver. Qed.

Lemma in_nodes_leaf U k v : in_nodes U (TLeaf k v) <-> U (Leaf k v).
Proof. unfold in_nodes. simpl. set_solver. Qed.

Lemma in_nodes_tnorm U l r : in_nodes U (tnorm l r) -> in_nodes U l /\ in_nodes U r.
Proof.
  unfold in_nodes.
  destruct l, r; simpl; intros Hin; split; intros n Hn; apply Hin; set_solver.
Qed.

Lemma root_hash_nonempty U t :
  collision_free U -> in_nodes U t -> root_hash t = EMPTY -> t = TEmpty.
Proof.
  intros HU Ht E. destruct t as [|k v|l r]; [done|..]; exfalso.
  - eapply (cf_nonempty _ HU (Leaf k v)); [|done]. by apply in_nodes_leaf.
  - eapply (cf_nonempty _ HU (Branch (root_hash l) (root_hash r))); [|done].
    by apply in_nodes_branch in Ht as [? _].
Qed.

Lemma root_hash_inj U t1 t2 :
  collision_free U -> in_nodes U t1 -> in_nodes U t2 -> root_hash t1 = root_hash t2 -> t1 = t2.
Proof.
  intros HU. revert t2. induction t1 as [|k v|l IHl r IHr]; intros t2 H1 H2 E.
  - symmetry. eapply root_hash_nonempty; eauto.
  - destruct t2 as [|k2 v2|l2 r2].
    + by apply (root_hash_nonempty U) in E.
    + apply (cf_inj U HU (Leaf k v) (Leaf k2 v2)) in E; [congruence|by apply in_nodes_leaf..].
    + apply in_nodes_branch in H2 as (H2 & _).
      apply (cf_inj U HU (Leaf k v) (Branch (root_hash l2) (root_hash r2))) in E;
        [done|by apply in_nodes_leaf|done].
  - apply in_nodes_branch in H1 as (H1 & Hl & Hr). destruct t2 as [|k2 v2|l2 r2].
    + by destruct (cf_nonempty U HU _ H1).
    + apply (cf_inj U HU (Branch (root_hash l) (root_hash r)) (Leaf k2 v2)) in E;
        [done|done|by apply in_nodes_leaf].
    + apply in_nodes_branch in H2 as (H2 & Hl2 & Hr2).
      apply (cf_inj U HU (Branch (root_hash l) (root_hash r))
               (Branch (root_hash l2) (root_hash r2))) in E; [|done..].
      injection E as El Er. f_equal; eauto.
Qed.

(** ** Authentication paths *)

Definition term_hash (t : Terminal) : H256 :=
  match t with TermEmpty => EMPTY | TermLeaf k v => hash_leaf k v end.

(** [compute_root] from depth [d] up, by recursion on the siblings. *)
Fixpoint climb (key : H256) (d : nat) (sibs : list H256) (h0 : H256) : option H256 :=
  match sibs with
  | [] => Some h0
  | sib :: sibs' =>
      h ← climb key (d + 1) sibs' h0;
      b ← bit_checked key d;
      Some (if b =? 0 then hash_branch h sib else hash_branch sib h)
  end.

Lemma compute_root_climb key p :
  compute_root hash_iter key p = climb key 0 (siblings p) (term_hash (terminal p)).
Proof.
  unfold compute_root. fold (term_hash (terminal p)).
  assert (G : forall sibs d,
    foldr (fun '(i, sib) acc => h ← acc; b ← bit_checked key i;
             Some (if b =? 0 then hash_branch h sib else hash_branch sib h))
          (Some (term_hash (terminal p))) (imap (fun i sib => ((d + i)%nat, sib)) sibs) =
    climb key d sibs (term_hash (terminal p))).
  { induction sibs as [|sib sibs IH]; intros d; [done|].
    rewrite imap_cons. cbn [foldr climb]. rewrite <- IH, Nat.add_0_r. f_equal. f_equal.
    apply imap_ext. intros i x _. simpl. f_equal. lia. }
  apply (G _ 0%nat).
Qed.

Lemma bit_checked_in key i : h256_ok key -> (i < 256)%nat -> bit_checked key i = Some (bit key i).
Proof.
  intros [Hlen _] Hi. unfold bit_checked, bit.
  destruct (lookup_lt_is_Some_2 key (i / 8)) as [b Hb].
  { rewrite Hlen. apply Nat.Div0.div_lt_upper_bound. lia. }
  by rewrite Hb, (list_lookup_total_correct _ _ _ Hb).
Qed.

Lemma bit_checked_out key i : h256_ok key -> (256 <= i)%nat -> bit_checked key i = None.
Proof.
  intros [Hlen _] Hi. unfold bit_checked.
  rewrite lookup_ge_None_2; [done|]. rewrite Hlen. apply Nat.div_le_lower_bound; lia.
Qed.

(** The path of [key] in a tree below depth [d]: siblings and terminal. *)
Fixpoint tpath (t : tree) (d : nat) (key : H256) : list H256 * Terminal :=
  match t with
  | TEmpty => ([], TermEmpty)
  | TLeaf k v => ([], TermLeaf k v)
  | TBranch l r =>
      if kbit key d
      then (root_hash l :: (tpath r (d + 1) key).1, (tpath r (d + 1) key).2)
      else (root_hash r :: (tpath l (d + 1) key).1, (tpath l (d + 1) key).2)
  end.

Lemma climb_tpath p t key :
  canon p t -> h256_ok key ->
  climb key (length p) (tpath t (length p) key).1 (term_hash (tpath t (length p) key).2) =
  Some (root_hash t).
Proof.
  revert p. induction t as [|k v|l IHl r IHr]; intros p Hc Hk; [done..|].
  destruct Hc as (Hp & Hl & Hr & _).
  specialize (IHl (p ++ [false]) Hl Hk). specialize (IHr (p ++ [true]) Hr Hk).
  rewrite length_app in IHl, IHr. simpl in IHl, IHr. cbn [tpath].
  pose proof (bit_is_0 key (length p) Hk Hp) as Hb.
  destruct (kbit key (length p)); cbn [fst snd climb];
    rewrite ?IHl, ?IHr, bit_checked_in by done; cbn -[bit]; rewrite Hb; done.
Qed.

(** The terminal of a path decides membership. *)
Lemma tpath_lookup p t key :
  canon p t -> p `prefix_of` kbits key ->
  tmap t !! key = match (tpath t (length p) key).2 with
                  | TermLeaf k v => if decide (k = key) then Some v else None
                  | TermEmpty => None
                  end.
Proof.
  revert p. induction t as [|k v|l IHl r IHr]; intros p Hc Hk; cbn [tpath tmap].
  - by rewrite lookup_empty.
  - simpl. by rewrite lookup_singleton.
  - destruct Hc as (Hp & Hl & Hr & _). rewrite (branch_lookup p) by done.
    specialize (IHl (p ++ [false]) Hl). specialize (IHr (p ++ [true]) Hr).
    rewrite length_app in IHl, IHr. simpl in IHl, IHr.
    destruct (kbit key (length p)) eqn:E; cbn [snd]; [apply IHr|apply IHl]; by apply prefix_snoc.
Qed.

(** The terminal leaf lies on the path of [key]. *)
Lemma tpath_leaf p t key k v :
  canon p t -> p `prefix_of` kbits key -> (tpath t (length p) key).2 = TermLeaf k v ->
  h256_ok k /\ exists q, length q = (length p + length (tpath t (length p) key).1)%nat /\
    q `prefix_of` kbits key /\ q `prefix_of` kbits k.
Proof.
  revert p. induction t as [|k' v'|l IHl r IHr]; intros p Hc Hk; cbn [tpath]; [done|..].
  - intros [= -> ->]. destruct Hc as (? & _ & ?). split; [done|]. exists p.
    split_and!; [simpl; lia|done..].
  - destruct Hc as (Hp & Hl & Hr & _).
    specialize (IHl (p ++ [false]) Hl). specialize (IHr (p ++ [true]) Hr).
    rewrite length_app in IHl, IHr. simpl in IHl, IHr.
    destruct (kbit key (length p)) eqn:E; cbn [fst snd]; intros Ht;
      [destruct IHr as [? (q & Hq & ? & ?)]|destruct IHl as [? (q & Hq & ? & ?)]];
      try done; try (by apply prefix_snoc);
      (split; [done|]; exists q; split_and!; [simpl; lia|done..]).
Qed.

Lemma shares_prefix_of q a b :
  h256_ok a -> h256_ok b -> q `prefix_of` kbits a -> q `prefix_of` kbits b ->
  shares_prefix a b (length q) = Some true.
Proof.
  intros Ha Hb Qa Qb. unfold shares_prefix.
  assert (Hq : (length q <= 256)%nat) by (rewrite <- (length_kbits a); by apply prefix_length).
  assert (G : forall l, Forall (fun i => (i < length q)%nat) l ->
    foldr (fun i acc => x ← bit_checked a i; y ← bit_checked b i;
             if x =? y then acc else Some false) (Some true) l = Some true).
  { induction 1 as [|i l Hi Hl IH]; [done|]. cbn [foldr]. rewrite IH.
    rewrite !bit_checked_in by (done || lia). cbn -[bit].
    assert (E : kbit a i = kbit b i).
    { assert (Hi' : (i < 256)%nat) by lia.
      pose proof (prefix_lookup_lt _ _ _ Hi Qa) as E1. pose proof (prefix_lookup_lt _ _ _ Hi Qb) as E2.
      rewrite kbits_lookup in E1, E2 by done. congruence. }
    rewrite bit_eqb, E by (done || lia). by rewrite eqb_reflx. }
  apply G. apply Forall_forall. intros i Hi. apply elem_of_seq in Hi. lia.
Qed.

(** The nodes a verifier hashes. *)
Fixpoint climb_nodes (key : H256) (d : nat) (sibs : list H256) (h0 : H256) : list Node :=
  match sibs with
  | [] => []
  | sib :: sibs' =>
      match climb key (d + 1) sibs' h0 with
      | Some h => (if bit key d =? 0 then Branch h sib else Branch sib h)
                    :: climb_nodes key (d + 1) sibs' h0
      | None => []
      end
  end.

Definition proof_nodes (key : H256) (p : Proof_) : list Node :=
  match terminal p with TermEmpty => [] | TermLeaf k v => [Leaf k v] end
    ++ climb_nodes key 0 (siblings p) (term_hash (terminal p)).

(** Without collisions a verified path is the path of the tree. *)
Lemma climb_sound U p t key sibs term :
  collision_free U -> in_nodes U t -> canon p t -> h256_ok key ->
  match term with TermEmpty => True | TermLeaf k v => U (Leaf k v) end ->
  (forall n, n ∈ climb_nodes key (length p) sibs (term_hash term) -> U n) ->
  climb key (length p) sibs (term_hash term) = Some (root_hash t) ->
  tpath t (length p) key = (sibs, term).
Proof.
  intros HU. revert p t. induction sibs as [|sib sibs IH]; intros p t Ht Hc Hk Hterm Hn E.
  - simpl in E. injection E as E. destruct term as [|k v].
    + symmetry in E. by apply (root_hash_nonempty U) in E as ->.
    + change (term_hash (TermLeaf k v)) with (root_hash (TLeaf k v)) in E.
      apply (root_hash_inj U) in E as <-; [done..| |done]. by apply in_nodes_leaf.
  - cbn [climb climb_nodes] in *.
    destruct (climb key (length p + 1) sibs (term_hash term)) as [h|] eqn:Eh; [|done]. simpl in E.
    destruct (Nat.lt_ge_cases (length p) 256) as [Hp|Hp]; [|by rewrite bit_checked_out in E].
    rewrite bit_checked_in in E by done. injection E as E.
    assert (Hn' : forall n, n ∈ climb_nodes key (length p + 1) sibs (term_hash term) -> U n).
    { intros n Hn'. apply Hn. by right. }
    pose proof (Hn _ (list_elem_of_here _ _)) as Un. clear Hn.
    rewrite bit_is_0 in E, Un by done.
    destruct t as [|k v|l r].
    + exfalso. destruct (kbit key (length p)); by apply (cf_nonempty _ HU) in Un.
    + apply in_nodes_leaf in Ht.
      destruct (kbit key (length p)); apply (cf_inj _ HU _ _ Un Ht) in E; done.
    + destruct Hc as (_ & Hl & Hr & _). apply in_nodes_branch in Ht as (Ub & Nl & Nr).
      cbn [tpath]. destruct (kbit key (length p)); simpl negb in *; cbv iota in *;
        apply (cf_inj _ HU _ _ Un Ub) in E; injection E as -> ->.
      * specialize (IH (p ++ [true]) r). rewrite length_app in IH; simpl in IH.
        by rewrite IH.
      * specialize (IH (p ++ [false]) l). rewrite length_app in IH; simpl in IH.
        by rewrite IH.
Qed.

Section with_store.
Context {S : Type} `{Laws : NodeStoreLaws hash_iter S}.
Context (U : Node -> Prop) (HU : collision_free U).

(** Every stored node sits at its hash. *)
Definition store_inv (s : S) : Prop :=
  forall h n, store_get s h = Some n -> h = hash n /\ U n.

Definition extends (s s' : S) : Prop :=
  forall h n, store_get s h = Some n -> store_get s' h = Some n.

(** All nodes of [t] are in the store. *)
Fixpoint stored (s : S) (t : tree) : Prop :=
  match t with
  | TEmpty => True
  | TLeaf k v => store_get s (hash_leaf k v) = Some (Leaf k v)
  | TBranch l r =>
      store_get s (hash_branch (root_hash l) (root_hash r)) =
        Some (Branch (root_hash l) (root_hash r)) /\ stored s l /\ stored s r
  end.

#[local] Instance extends_preorder : PreOrder extends.
Proof. split; [by intros s h n|]. intros s1 s2 s3 H1 H2 h n Hn. auto. Qed.

Lemma stored_extends s s' t : extends s s' -> stored s t -> stored s' t.
Proof. intros He. induction t; simpl; naive_solver. Qed.

Lemma stored_in_nodes s t : store_inv s -> stored s t -> in_nodes U t.
Proof.
  intros Hs. induction t as [|k v|l IHl r IHr]; simpl.
  - intros _ n Hn. by apply not_elem_of_nil in Hn.
  - intros Hn. apply in_nodes_leaf. by apply Hs in Hn as [_ ?].
  - intros (Hn & Hl & Hr). apply in_nodes_branch. apply Hs in Hn as [_ ?]. auto.
Qed.

(** The result of an operation that only adds nodes of [U]. *)
Definition grows (s s' : S) : Prop := extends s s' /\ store_inv s'.

Lemma put_spec n s :
  store_inv s -> U n ->
  exists s', put n s = (s', Ok (hash n)) /\ grows s s' /\ store_get s' (hash n) = Some n.
Proof.
  intros Hs Hn. unfold put. pose proof (put_hash n s) as E1. pose proof (get_put n s) as E2.
  destruct (store_put n s) as [s' h]. simpl in *. subst h. exists s'.
  split; [done|]. split; [split|].
  - intros h m Hm. rewrite E2. case_decide as D; [|done]. subst h. f_equal.
    apply Hs in Hm as [Eh Um]. by apply (cf_inj _ HU).
  - intros h m. rewrite E2. case_decide as D; [|by apply Hs]. intros [= <-]. done.
  - rewrite E2. by rewrite decide_True.
Qed.

(** [m] run in [s] returns the root of [t], with [t] stored. *)
Definition computes (m : st S SmtError H256) (s : S) (t : tree) : Prop :=
  exists s', m s = (s', Ok (root_hash t)) /\ grows s s' /\ stored s' t.

Lemma grows_trans s1 s2 s3 : grows s1 s2 -> grows s2 s3 -> grows s1 s3.
Proof. intros [H1 _] [H2 ?]. split; [|done]. by etrans. Qed.

Lemma computes_bind m f s t t' :
  computes m s t ->
  (forall s', grows s s' -> stored s' t -> computes (f (root_hash t)) s' t') ->
  computes (m ≫= f) s t'.
Proof.
  intros (s1 & E & G & St) Hf. destruct (Hf s1 G St) as (s2 & E2 & G2 & St2).
  exists s2. split; [by rewrite (st_bind_run _ _ _ _ _ E)|]. eauto using grows_trans.
Qed.

Lemma computes_put_leaf s k v :
  store_inv s -> U (Leaf k v) -> computes (put (Leaf k v)) s (TLeaf k v).
Proof. intros Hs Hn. destruct (put_spec _ _ Hs Hn) as (s' & ? & ? & ?). by exists s'. Qed.

Lemma computes_put_branch s l r :
  store_inv s -> stored s l -> stored s r -> U (Branch (root_hash l) (root_hash r)) ->
  computes (put (Branch (root_hash l) (root_hash r))) s (TBranch l r).
Proof.
  intros Hs Hl Hr Hn. destruct (put_spec _ _ Hs Hn) as (s' & ? & G & ?). exists s'.
  split; [done|]. split; [done|]. destruct G as [He ?].
  simpl. split_and!; eauto using stored_extends.
Qed.

Lemma computes_ret s t : store_inv s -> stored s t -> computes (mret (root_hash t)) s t.
Proof. intros. exists s. by split_and!. Qed.

Lemma get_node_spec s h n : store_get s h = Some n -> get_node h s = (s, Ok n).
Proof. unfold get_node. by intros ->. Qed.

Lemma is_leaf_spec s t :
  stored s t -> t <> TEmpty ->
  is_leaf (root_hash t) s =
    (s, Ok (match t with TLeaf _ _ => true | _ => false end)).
Proof.
  intros Ht Hne. unfold is_leaf, mbind, st_bind.
  destruct t as [|k v|l r]; [done|..].
  - by rewrite (get_node_spec s _ (Leaf k v)).
  - rewrite (get_node_spec s _ (Branch (root_hash l) (root_hash r))) by apply Ht. done.
Qed.

Lemma root_is_empty s t :
  store_inv s -> stored s t -> bool_decide (root_hash t = EMPTY) = bool_decide (t = TEmpty).
Proof.
  intros Hs Ht. apply bool_decide_ext. split; [|by intros ->].
  by eapply root_hash_nonempty, stored_in_nodes.
Qed.

Lemma computes_normalize s l r :
  store_inv s -> stored s l -> stored s r -> in_nodes U (tnorm l r) ->
  computes (normalize (root_hash l) (root_hash r)) s (tnorm l r).
Proof.
  intros Hs Hl Hr Hin. unfold normalize. rewrite !(root_is_empty s) by done.
  assert (Hb : tnorm l r = TBranch l r ->
               computes (put (Branch (root_hash l) (root_hash r))) s (TBranch l r)).
  { intros E. rewrite E in Hin. apply in_nodes_branch in Hin as [? _].
    by apply computes_put_branch. }
  destruct (bool_decide (l = TEmpty)) eqn:El, (bool_decide (r = TEmpty)) eqn:Er;
    rewrite ?bool_decide_eq_true, ?bool_decide_eq_false in *; subst.
  - by apply (computes_ret s TEmpty).
  - unfold computes, mbind, st_bind. rewrite is_leaf_spec by done.
    destruct r; [done| |by apply Hb]. by apply (computes_ret s (TLeaf _ _)).
  - unfold computes, mbind, st_bind. rewrite is_leaf_spec by done.
    destruct l; [done| |by apply Hb]. by apply (computes_ret s (TLeaf _ _)).
  - assert (E : tnorm l r = TBranch l r) by (by destruct l, r). rewrite E. by apply Hb.
Qed.

Lemma computes_split fuel s p ka va kb vb :
  (fuel + length p = 256)%nat -> store_inv s -> ka <> kb -> h256_ok ka -> h256_ok kb ->
  p `prefix_of` kbits ka -> p `prefix_of` kbits kb ->
  in_nodes U (tsplit fuel (length p) ka va kb vb) ->
  computes (split fuel (length p) ka va kb vb) s (tsplit fuel (length p) ka va kb vb).
Proof.
  revert s p. induction fuel as [|fuel IH]; intros s p Hf Hs Hne Oa Ob Pa Pb Hin.
  { exfalso. apply Hne. eapply (prefix_full p); eauto. lia. }
  assert (Hp : (length p < 256)%nat) by lia.
  cbn [split tsplit] in *. rewrite decide_False by (unfold TREE_DEPTH; lia).
  rewrite bit_eqb, bit_is_0 by done.
  destruct (eqb (kbit ka (length p)) (kbit kb (length p))) eqn:E; simpl negb; cbv iota.
  - apply eqb_prop in E.
    assert (Hc : in_nodes U (tsplit fuel (length p + 1) ka va kb vb)).
    { destruct (kbit ka (length p)); apply in_nodes_branch in Hin; tauto. }
    eapply computes_bind.
    { specialize (IH s (p ++ [kbit ka (length p)])). rewrite length_app in IH; simpl in IH.
      apply IH; try done; [lia|by apply prefix_snoc..]. }
    intros s' [_ Hs'] Hst.
    destruct (kbit ka (length p)); apply in_nodes_branch in Hin as [? _].
    + by apply (computes_put_branch s' TEmpty).
    + by apply (computes_put_branch s' _ TEmpty).
  - assert (H2 : U (Leaf ka va) /\ U (Leaf kb vb)).
    { destruct (kbit ka (length p)); rewrite in_nodes_branch, !in_nodes_leaf in Hin; tauto. }
    destruct H2 as [Ha Hb]. eapply computes_bind; [by apply computes_put_leaf|].
    intros s1 [_ Hs1] St1. eapply computes_bind; [by apply computes_put_leaf|].
    intros s2 [He2 Hs2] St2. apply (stored_extends _ _ _ He2) in St1.
    destruct (kbit ka (length p)); apply in_nodes_branch in Hin as [? _].
    + by apply (computes_put_branch s2 (TLeaf _ _) (TLeaf _ _)).
    + by apply (computes_put_branch s2 (TLeaf _ _) (TLeaf _ _)).
Qed.

Lemma computes_update_at fuel s p t k value :
  (fuel + length p = 256)%nat -> store_inv s -> stored s t -> canon p t ->
  h256_ok k -> p `prefix_of` kbits k -> in_nodes U (tupdate t (length p) k value) ->
  computes (update_at fuel (root_hash t) (length p) k value) s (tupdate t (length p) k value).
Proof.
  revert fuel s p. induction t as [|k' v'|l IHl r IHr]; intros fuel s p Hf Hs Hst Hc Hk Pk Hin;
    pose proof (root_is_empty _ _ Hs Hst) as HE.
  - destruct fuel, value as [v|]; simpl in *; try rewrite in_nodes_leaf in Hin;
      first [by apply computes_put_leaf | by apply (computes_ret s TEmpty)].
  - assert (HNE : root_hash (TLeaf k' v') <> EMPTY) by (by apply bool_decide_eq_false in HE).
    destruct Hc as (Ok' & _ & Pk').
    assert (Heq : update_at fuel (root_hash (TLeaf k' v')) (length p) k value =
      (if decide (root_hash (TLeaf k' v') = EMPTY) then
         match value with Some v => put (Leaf k v) | None => mret EMPTY end
       else node ← get_node (root_hash (TLeaf k' v')); _)) by (destruct fuel; reflexivity).
    rewrite Heq, decide_False by done. clear Heq.
    unfold computes, mbind, st_bind. rewrite (get_node_spec s _ (Leaf k' v')) by done.
    cbn [tupdate] in *. case_decide as D.
    + subst k'. destruct value as [v|]; try rewrite in_nodes_leaf in Hin;
        [by apply computes_put_leaf | by apply (computes_ret s TEmpty)].
    + destruct value as [v|]; [|by apply (computes_ret s (TLeaf k' v'))].
      replace (256 - length p)%nat with fuel in * by lia. by apply computes_split.
  - assert (HNE : root_hash (TBranch l r) <> EMPTY) by (by apply bool_decide_eq_false in HE).
    destruct Hc as (Hp & Hcl & Hcr & _). destruct fuel as [|fuel]; [lia|].
    cbn [update_at]. rewrite decide_False by done.
    unfold computes. unfold mbind at 1, st_bind at 1.
    rewrite (get_node_spec s _ (Branch (root_hash l) (root_hash r))) by apply Hst.
    rewrite decide_False by (unfold TREE_DEPTH; lia). rewrite bit_is_0 by done.
    destruct Hst as (_ & Hl & Hr). cbn [tupdate] in *.
    specialize (IHl fuel s (p ++ [false])). specialize (IHr fuel s (p ++ [true])).
    rewrite length_app in IHl, IHr. simpl in IHl, IHr.
    destruct (kbit k (length p)) eqn:Eb; simpl negb; cbv iota.
    + eapply computes_bind.
      { apply IHr; try done; [lia|by apply prefix_snoc|by apply in_nodes_tnorm in Hin as [_ ?]]. }
      intros s' [He Hs'] Hst'. apply computes_normalize; try done. by eapply stored_extends.
    + eapply computes_bind.
      { apply IHl; try done; [lia|by apply prefix_snoc|by apply in_nodes_tnorm in Hin as [? _]]. }
      intros s' [He Hs'] Hst'. apply computes_normalize; try done. by eapply stored_extends.
Qed.

Lemma get_loop_spec fuel s p t k :
  (fuel + length p = 256)%nat -> store_inv s -> stored s t -> canon p t ->
  h256_ok k -> p `prefix_of` kbits k ->
  get_loop fuel s (root_hash t) (length p) k = Ok (tmap t !! k).
Proof.
  revert fuel p. induction t as [|k' v'|l IHl r IHr]; intros fuel p Hf Hs Hst Hc Hk Pk;
    pose proof (root_is_empty _ _ Hs Hst) as HE.
  - destruct fuel; simpl; by rewrite lookup_empty.
  - apply bool_decide_eq_false in HE.
    assert (Hget : store_get s (root_hash (TLeaf k' v')) = Some (Leaf k' v')) by done.
    destruct fuel; cbn [get_loop]; rewrite decide_False, Hget by done; cbn [tmap];
      rewrite lookup_singleton; repeat case_decide; congruence.
  - apply bool_decide_eq_false in HE. destruct Hc as (Hp & Hcl & Hcr & _).
    destruct fuel as [|fuel]; [lia|]. destruct Hst as (Hget & Hl & Hr).
    cbn [get_loop]. rewrite decide_False by done.
    change (root_hash (TBranch l r)) with (hash_branch (root_hash l) (root_hash r)).
    rewrite Hget, decide_False by (unfold TREE_DEPTH; lia). rewrite bit_is_0 by done.
    cbn [tmap]. rewrite (branch_lookup p) by done.
    specialize (IHl fuel (p ++ [false])). specialize (IHr fuel (p ++ [true])).
    rewrite length_app in IHl, IHr. simpl in IHl, IHr.
    destruct (kbit k (length p)) eqn:Eb; simpl negb; cbv iota;
      [apply IHr | apply IHl]; try done; try lia; by apply prefix_snoc.
Qed.

Lemma prove_loop_spec fuel s p t k sibs :
  (fuel + length p = 256)%nat -> store_inv s -> stored s t -> canon p t -> h256_ok k ->
  prove_loop fuel s sibs (root_hash t) (length p) k =
  Ok {| siblings := sibs ++ (tpath t (length p) k).1; terminal := (tpath t (length p) k).2 |}.
Proof.
  revert fuel p sibs.
  induction t as [|k' v'|l IHl r IHr]; intros fuel p sibs Hf Hs Hst Hc Hk;
    pose proof (root_is_empty _ _ Hs Hst) as HE.
  - destruct fuel; simpl; by rewrite app_nil_r.
  - apply bool_decide_eq_false in HE.
    assert (Hget : store_get s (root_hash (TLeaf k' v')) = Some (Leaf k' v')) by done.
    destruct fuel; cbn [prove_loop]; rewrite decide_False, Hget by done; simpl;
      by rewrite app_nil_r.
  - apply bool_decide_eq_false in HE. destruct Hc as (Hp & Hcl & Hcr & _).
    destruct fuel as [|fuel]; [lia|]. destruct Hst as (Hget & Hl & Hr).
    cbn [prove_loop]. rewrite decide_False by done.
    change (root_hash (TBranch l r)) with (hash_branch (root_hash l) (root_hash r)).
    rewrite Hget, decide_False by (unfold TREE_DEPTH; lia). rewrite bit_is_0 by done.
    specialize (IHl fuel (p ++ [false])). specialize (IHr fuel (p ++ [true])).
    rewrite length_app in IHl, IHr. simpl in IHl, IHr. cbn [tpath].
    destruct (kbit k (length p)); simpl negb; cbv iota; cbn [fst snd];
      [rewrite IHr | rewrite IHl]; try done; try lia; by rewrite <- app_assoc.
Qed.

(** ** Enumeration *)

Definition after_ok (after : option H256) (kv : H256 * H256) : bool :=
  match after with Some a => bytes_ltb a kv.1 | None => true end.

Definition selected (after : option H256) (l : list (H256 * H256)) : list (H256 * H256) :=
  filter (fun kv => after_ok after kv = true) l.

(** A stack entry stands for a stored canonical subtree. *)
Definition frame_ok (s : S) (f : H256 * nat * H256) (t : tree) : Prop :=
  exists p, f.1 = (root_hash t, length p) /\ (length p <= 256)%nat /\ path_key p f.2 /\
            canon p t /\ stored s t.

Lemma selected_skip after p path t a :
  after = Some a -> h256_ok a -> (length p <= 256)%nat -> path_key p path -> canon p t ->
  bytes_leb (subtree_max path (length p)) a = true -> selected after (tleaves t) = [].
Proof.
  intros -> Ha Hp Hpath Hc Hle.
  destruct (subtree_max_spec path (length p)) as [Hm _]; [by destruct Hpath|done|].
  rewrite h256_leb in Hle by done. apply Z.leb_le in Hle.
  unfold selected. apply filter_none. apply Forall_forall. intros [k v] Hin.
  apply (tleaves_tmap _ _ _ _ Hc), (canon_lookup _ _ _ _ Hc) in Hin as (Pk & Ok' & _).
  pose proof (subtree_max_upper p path k Hp Hpath Ok' Pk).
  simpl. rewrite h256_ltb by done. lia.
Qed.

Lemma leaves_loop_spec fuel s after limit out stack ts :
  store_inv s -> (forall a, after = Some a -> h256_ok a) ->
  Forall2 (frame_ok s) stack ts -> (length out < limit)%nat ->
  (sum_list_with visits ts <= fuel)%nat ->
  leaves_loop fuel s after limit out stack =
  Some (Ok (take limit (out ++ selected after (concat (map tleaves ts))))).
Proof.
  intros Hs Ha. revert out stack ts.
  induction fuel as [|fuel IH]; intros out stack ts Hst Hout Hf;
    destruct Hst as [|[[h depth] path] t stack ts Hfr Hst];
    try (simpl; rewrite app_nil_r, take_ge by lia; done).
  { exfalso. simpl in Hf. destruct t; simpl in Hf; lia. }
  destruct Hfr as (p & Eh & Hp & Hpath & Hc & Hstored). simpl in Eh, Hpath.
  injection Eh as -> ->. pose proof (root_is_empty _ _ Hs Hstored) as HE.
  cbn [leaves_loop map concat]. unfold selected in *. rewrite filter_app.
  fold (selected after (tleaves t)) (selected after (concat (map tleaves ts))).
  cbn [sum_list_with] in Hf.
  assert (Hskip : selected after (tleaves t) = [] ->
    leaves_loop fuel s after limit out stack =
    Some (Ok (take limit (out ++ selected after (tleaves t) ++ selected after (concat (map tleaves ts)))))).
  { intros ->. apply IH; try done. destruct t; simpl in Hf; lia. }
  destruct (decide (root_hash t = EMPTY)) as [D|D].
  { rewrite bool_decide_eq_true_2 in HE by done. symmetry in HE.
    apply bool_decide_eq_true in HE as ->. by apply Hskip. }
  destruct (match after with Some a => bytes_leb (subtree_max path (length p)) a | None => false end) eqn:Eskip.
  { apply Hskip. destruct after as [a|]; [|done]. eapply selected_skip; eauto. }
  clear HE. destruct t as [|k v|l r]; [done|..].
  - assert (Hget : store_get s (root_hash (TLeaf k v)) = Some (Leaf k v)) by done.
    rewrite Hget. change (match after with Some a => bytes_ltb a k | None => true end)
      with (after_ok after (k, v)).
    destruct (after_ok after (k, v)) eqn:Ea.
    + assert (Esel : selected after (tleaves (TLeaf k v)) = [(k, v)]).
      { unfold selected. simpl. by rewrite filter_cons_True. }
      rewrite Esel. case_decide as Dl; rewrite length_app in Dl; simpl in Dl.
      * rewrite app_assoc, take_app_length'; [done|]. rewrite length_app. simpl. lia.
      * rewrite app_assoc. apply IH; try done; [rewrite length_app; simpl; lia|simpl in Hf; lia].
    + apply Hskip. unfold selected. simpl. rewrite filter_cons_False; [done|]. by rewrite Ea.
  - destruct Hc as (Hp' & Hcl & Hcr & _). destruct Hstored as (Hget & Hl & Hr).
    change (root_hash (TBranch l r)) with (hash_branch (root_hash l) (root_hash r)).
    rewrite Hget, decide_False by (unfold TREE_DEPTH; lia).
    rewrite (IH _ _ (l :: r :: ts)).
    + cbn [map concat tleaves]. unfold selected. by rewrite !filter_app, !app_assoc.
    + constructor; [|constructor; [|done]].
      * exists (p ++ [false]). rewrite length_app. simpl.
        split_and!; try done; [lia|by apply path_key_left].
      * exists (p ++ [true]). rewrite length_app. simpl.
        split_and!; try done; [lia|by apply path_key_right].
    + done.
    + simpl in Hf |- *. lia.
Qed.

(** ** Abstraction *)

(** The store represents the finite map [m] at [root]. *)
Definition represents (s : S) (root : H256) (m : gmap H256 H256) : Prop :=
  store_inv s /\ exists t, root = root_hash t /\ stored s t /\ canon [] t /\ tmap t = m.
End with_store.

(** The nodes of the tree with content [m] are among [U]. *)
Definition covers (U : Node -> Prop) (m : gmap H256 H256) : Prop :=
  forall t, canon [] t -> tmap t = m -> in_nodes U t.

Fixpoint covers_run (U : Node -> Prop) (m : gmap H256 H256)
    (changes : list (H256 * option H256)) : Prop :=
  match changes with
  | [] => True
  | (k, value) :: changes' =>
      covers U (mupdate m k value) /\ covers_run U (mupdate m k value) changes'
  end.

Lemma covers_intro U t : canon [] t -> in_nodes U t -> covers U (tmap t).
Proof. intros Hc Hn t' Hc' E. by rewrite (canon_unique [] t' t). Qed.

(** The trees a sequence of changes goes through. *)
Fixpoint run_trees (t : tree) (changes : list (H256 * option H256)) : list tree :=
  match changes with
  | [] => []
  | (k, value) :: changes' => let t' := tupdate t 0 k value in t' :: run_trees t' changes'
  end.

Lemma covers_run_intro U t changes :
  canon [] t -> Forall change_ok changes -> Forall (in_nodes U) (run_trees t changes) ->
  covers_run U (tmap t) changes.
Proof.
  intros Hc Hok. revert t Hc. induction Hok as [|[k value] cs [Hk Hv] Hcs IH]; intros t Hc Hn; [done|].
  cbn [run_trees] in Hn. apply Forall_cons in Hn as [Hn Hns]. simpl in *.
  destruct (tupdate_spec [] t k value) as [Hc' Hm]; auto using prefix_nil.
  { intros v ->. exact Hv. }
  cbn [length] in *. rewrite <-Hm. split; [by apply covers_intro|by apply IH].
Qed.

(** ** The operations on represented maps *)

Section represented.
Context {S : Type} `{Laws : NodeStoreLaws hash_iter S}.
Context (U : Node -> Prop) (HU : collision_free U).

Lemma represents_update s root m k value :
  represents U s root m -> change_ok (k, value) -> covers U (mupdate m k value) ->
  exists s' root', update root k value s = (s', Ok root') /\ extends s s' /\
                   represents U s' root' (mupdate m k value).
Proof.
  intros (Hs & t & -> & Hst & Hc & <-) [Hk Hv] Hcov.
  destruct (tupdate_spec [] t k value) as [Hc' Hm]; auto using prefix_nil.
  { intros v ->. exact Hv. }
  destruct (computes_update_at U HU TREE_DEPTH s [] t k value) as (s' & E & [He Hs'] & Hst');
    auto using prefix_nil.
  exists s', (root_hash (tupdate t 0 k value)). split; [exact E|]. split; [done|].
  split; [done|]. eauto.
Qed.

Lemma represents_update_many s root m changes :
  represents U s root m -> Forall change_ok changes -> covers_run U m changes ->
  exists s' root', update_many root changes s = (s', Ok root') /\ extends s s' /\
                   represents U s' root' (apply_changes m changes).
Proof.
  intros Hr Hok. revert s root m Hr. induction Hok as [|[k value] cs Hc Hcs IH];
    intros s root m Hr Hcov; simpl in *.
  - exists s, root. split; [done|]. split; [by intros ? ?|done].
  - destruct Hcov as [Hcov Hcovs].
    destruct (represents_update s root m k value) as (s1 & r1 & E1 & He1 & Hr1); auto.
    destruct (IH s1 r1 (mupdate m k value)) as (s2 & r2 & E2 & He2 & Hr2); auto.
    exists s2, r2. rewrite (st_bind_run _ _ _ _ _ E1). split; [done|]. split; [|done].
    intros h n Hn. by apply He2, He1.
Qed.

Lemma represents_get s root m k :
  represents U s root m -> h256_ok k -> get s root k = Ok (m !! k).
Proof.
  intros (Hs & t & -> & Hst & Hc & <-) Hk.
  pose proof (get_loop_spec U HU TREE_DEPTH s [] t k) as E. cbn [length] in E.
  unfold get. apply E; auto using prefix_nil.
Qed.

Lemma represents_prove s root m k :
  represents U s root m -> h256_ok k ->
  exists t, root = root_hash t /\ canon [] t /\ tmap t = m /\
    prove s root k = Ok {| siblings := (tpath t 0 k).1; terminal := (tpath t 0 k).2 |}.
Proof.
  intros (Hs & t & -> & Hst & Hc & <-) Hk. exists t. split_and!; try done.
  pose proof (prove_loop_spec U HU TREE_DEPTH s [] t k []) as E. cbn [length app] in E.
  unfold prove. apply E; auto.
Qed.

(** The proof [prove] returns is accepted. *)
Lemma represents_prove_verifies s root m k :
  represents U s root m -> h256_ok k ->
  exists p, prove s root k = Ok p /\
    match m !! k with
    | Some v => verify_inclusion hash_iter root k v p = Some true /\ terminal p = TermLeaf k v
    | None => verify_exclusion hash_iter root k p = Some true /\ forall v, terminal p <> TermLeaf k v
    end.
Proof.
  intros Hrep Hk.
  destruct (represents_prove s root m k Hrep Hk) as (t & -> & Hc & <- & E).
  eexists. split; [exact E|].
  pose proof (climb_tpath [] t k Hc Hk) as Hclimb.
  pose proof (tpath_lookup [] t k Hc (prefix_nil _)) as Hlook.
  pose proof (tpath_leaf [] t k) as Hleaf. cbn [length] in *.
  unfold verify_inclusion, verify_exclusion.
  rewrite !compute_root_climb. cbn [siblings terminal].
  rewrite Hlook. destruct (tpath t 0 k) as [sibs [|k' v']]; cbn [fst snd] in *.
  - rewrite Hclimb. simpl. by rewrite bool_decide_eq_true_2.
  - case_decide as D.
    + subst k'. rewrite decide_True by done. rewrite Hclimb. simpl. by rewrite bool_decide_eq_true_2.
    + destruct (Hleaf k' v' Hc (prefix_nil _) eq_refl) as [Ok' (q & Hq & Q1 & Q2)].
      simpl in Hq. rewrite <- Hq, (shares_prefix_of q k' k), Hclimb by done. simpl.
      rewrite bool_decide_eq_true_2 by done. split; [done|]. congruence.
Qed.

(** The enumeration, for any fuel above a linear bound in the map's size. *)
Lemma represents_leaves s root m after limit fuel :
  represents U s root m -> (forall a, after = Some a -> h256_ok a) ->
  (1 + 512 * size m <= fuel)%nat ->
  exists t, canon [] t /\ tmap t = m /\
    leaves_after fuel s root after limit =
    Some (Ok (take limit (selected after (tleaves t)))).
Proof.
  intros (Hs & t & -> & Hst & Hc & <-) Ha Hf. exists t. split_and!; try done.
  unfold leaves_after. case_decide as D.
  - destruct D as [D| ->]; [|done].
    apply (root_hash_nonempty U) in D as ->; [by rewrite firstn_nil|done|].
    by eapply stored_in_nodes.
  - rewrite (leaves_loop_spec U HU fuel s after limit [] _ [t]); try done.
    + simpl. by rewrite app_nil_r.
    + constructor; [|constructor]. exists []. simpl.
      split_and!; try done; [lia|apply path_key_root].
    + simpl. destruct limit; [tauto|lia].
    + simpl. pose proof (visits_bound [] t Hc) as Hv. rewrite <- (canon_size _ _ Hc) in Hv.
      simpl in Hv. lia.
Qed.
End represented.
End tree_ops.
