(* ===== verification/SmtTheorems.v ===== *)
(** The properties of the sparse Merkle tree (crypto/smt/src/lib.rs) that the
    account commitment relies on, with their witnesses. *)

From S2P Require Import Prelude Smt SmtTree SmtCorrect.

(** * Concrete data for the witnesses

    A toy sponge, two keys that differ in their first bit, and the three-node
    tree that holds both. *)

Definition toy_hash (l : list Z) : felt4 :=
  let h := foldl (fun acc x => (acc * 1000003 + x + 7) mod goldilocks_p) 5 l in
  (h, h + 1, h * 3 + 2, h * h + 3).

Definition k0 : H256 := replicate 32 1.
Definition k1 : H256 := 129 :: replicate 31 1.
Definition k2 : H256 := 65 :: replicate 31 1.
Definition v0 : H256 := replicate 32 10.
Definition v1 : H256 := replicate 32 11.

Definition t01 : tree := TBranch (TLeaf k0 v0) (TLeaf k1 v1).
Definition t0 : tree := TLeaf k0 v0.
Definition t1 : tree := TLeaf k1 v1.

Definition toy_nodes : list Node := tnodes toy_hash t01.
Definition toy_U (n : Node) : Prop := n ∈ toy_nodes.
Definition toy_store : MemStore := {| nodes := list_to_map (map (fun n => (hash toy_hash n, n)) toy_nodes) |}.
Definition toy_root : H256 := root_hash toy_hash t01.

Lemma k0_k1 : k0 <> k1.
Proof. done. Qed.

Lemma tmap_t01 : tmap t01 = {[k0 := v0; k1 := v1]}.
Proof. unfold t01. cbn [tmap]. by rewrite insert_union_singleton_l. Qed.

#[local] Instance toy_mem : NodeStore MemStore := mem_store toy_hash.

Lemma toy_collision_free : collision_free toy_hash toy_U.
Proof.
  assert (D : Forall (fun n => hash toy_hash n <> EMPTY /\
                Forall (fun m => hash toy_hash n = hash toy_hash m -> n = m) toy_nodes) toy_nodes).
  { apply (bool_decide_unpack _). by vm_compute. }
  rewrite Forall_forall in D. split.
  - intros n m Hn Hm. destruct (D n Hn) as [_ D']. rewrite Forall_forall in D'. by apply D'.
  - intros n Hn. by apply D.
Qed.

Ltac solve_h256 := apply (bool_decide_unpack _); by vm_compute.

Lemma t01_canon : canon [] t01.
Proof.
  split; [simpl; lia|]. split_and!; try lia; apply (bool_decide_unpack _); by vm_compute.
Qed.

Lemma t0_canon : canon [] t0.
Proof. split_and!; apply (bool_decide_unpack _); by vm_compute. Qed.

Lemma t1_canon : canon [] t1.
Proof. split_and!; apply (bool_decide_unpack _); by vm_compute. Qed.

Lemma toy_store_inv : store_inv toy_hash toy_U toy_store.
Proof.
  intros h n Hn. change (nodes toy_store !! h = Some n) in Hn. unfold toy_store, nodes in Hn.
  apply elem_of_list_to_map_2 in Hn.
  apply list_elem_of_fmap in Hn as (n' & [= -> ->] & Hin). by split.
Qed.

Lemma toy_stored : stored toy_hash toy_store t01.
Proof. split_and!; by vm_compute. Qed.

Lemma toy_represents : represents toy_hash toy_U toy_store toy_root {[k0 := v0; k1 := v1]}.
Proof.
  split; [apply toy_store_inv|]. exists t01.
  split_and!; [done|apply toy_stored|apply t01_canon|].
  apply tmap_t01.
Qed.

(** * Updates and lookups *)

(** C8: On a lawful node store, [update] implements the finite-map update: from a
    root that represents [m] it succeeds, keeps every stored node, and returns a
    root that represents [m] with the key set (or deleted). The hypotheses are
    that the nodes at hand have no hash collision. *)
Theorem smt_update_refines_map (hi : list Z -> felt4) {S} `{Laws : NodeStoreLaws hi S}
    (U : Node -> Prop) (s : S) (root k : H256) (value : option H256) (m : gmap H256 H256)
    (HU : collision_free hi U) (Hrep : represents hi U s root m)
    (Hok : change_ok (k, value)) (Hcov : covers hi U (mupdate m k value)) :
  exists s' root', update root k value s = (s', Ok root') /\ extends s s' /\
                   represents hi U s' root' (mupdate m k value).
Proof. by apply represents_update. Qed.

Lemma smt_update_refines_map_witness :
  exists s' root', update toy_root k1 None toy_store = (s', Ok root') /\ extends toy_store s' /\
                   represents toy_hash toy_U s' root' (mupdate {[k0 := v0; k1 := v1]} k1 None).
Proof.
  apply (smt_update_refines_map toy_hash toy_U).
  - apply toy_collision_free.
  - apply toy_represents.
  - split; [solve_h256|done].
  - assert (E : mupdate {[k0 := v0; k1 := v1]} k1 None = tmap t0).
    { simpl. by rewrite delete_insert_ne, delete_singleton_eq by (symmetry; apply k0_k1). }
    rewrite E. apply covers_intro; [apply t0_canon|]. intros n Hn. apply (bool_decide_unpack _).
    apply list_elem_of_singleton in Hn as ->. by vm_compute.
Defined.

(** [get] returns the value the represented map holds, or [None]. *)
Theorem smt_get_refines_map (hi : list Z -> felt4) {S} `{Laws : NodeStoreLaws hi S}
    (U : Node -> Prop) (s : S) (root k : H256) (m : gmap H256 H256)
    (HU : collision_free hi U) (Hrep : represents hi U s root m) (Hk : h256_ok k) :
  get s root k = Ok (m !! k).
Proof. by apply (represents_get hi U). Qed.

Lemma smt_get_refines_map_witness :
  get toy_store toy_root k1 = Ok (({[k0 := v0; k1 := v1]} : gmap H256 H256) !! k1).
Proof.
  apply (smt_get_refines_map toy_hash toy_U);
    [apply toy_collision_free|apply toy_represents|solve_h256].
Defined.

(** Roots are equal when, and without a hash collision only when, the contents are. *)
Lemma represents_root_iff (hi : list Z -> felt4) {S1} `{L1 : NodeStoreLaws hi S1} {S2} `{L2 : NodeStoreLaws hi S2}
    (U : Node -> Prop) (HU : collision_free hi U) (s1 : S1) (s2 : S2) (r1 r2 : H256) (m1 m2 : gmap H256 H256) :
  represents hi U s1 r1 m1 -> represents hi U s2 r2 m2 -> r1 = r2 <-> m1 = m2.
Proof.
  intros (I1 & t1 & -> & S1' & C1 & <-) (I2 & t2 & -> & S2' & C2 & <-). split.
  - intros E. f_equal. apply (root_hash_inj hi U t1 t2 HU);
      [exact (stored_in_nodes hi U s1 t1 I1 S1')|exact (stored_in_nodes hi U s2 t2 I2 S2')|exact E].
  - intros E. by rewrite (canon_unique [] t1 t2 C1 C2 E).
Qed.


Definition mem_empty : MemStore := {| nodes := ∅ |}.

Lemma mem_empty_represents : represents toy_hash toy_U mem_empty EMPTY ∅.
Proof. split; [by intros h n|]. exists TEmpty. by split_and!. Qed.

Lemma toy_covers t : canon [] t -> incl (tnodes toy_hash t) toy_nodes -> covers toy_hash toy_U (tmap t).
Proof.
  intros Hc Hi. apply covers_intro; [done|]. intros n Hn. apply list_elem_of_In.
  by apply Hi, list_elem_of_In.
Qed.

Lemma toy_covers_run :
  covers_run toy_hash toy_U ∅ [(k0, Some v0); (k1, Some v1)] /\
  covers_run toy_hash toy_U ∅ [(k1, Some v1); (k0, Some v0)].
Proof.
  assert (C0 : covers toy_hash toy_U (mupdate ∅ k0 (Some v0))).
  { change (mupdate ∅ k0 (Some v0)) with (tmap t0). apply toy_covers; [apply t0_canon|].
    intros n [<-|[]]. simpl. tauto. }
  assert (C1 : covers toy_hash toy_U (mupdate ∅ k1 (Some v1))).
  { change (mupdate ∅ k1 (Some v1)) with (tmap t1). apply toy_covers; [apply t1_canon|].
    intros n [<-|[]]. simpl. tauto. }
  assert (C01 : covers toy_hash toy_U (tmap t01)).
  { apply toy_covers; [apply t01_canon|]. by intros n. }
  split; (split; [done|]; split; [|done]).
  - rewrite tmap_t01 in C01. simpl.
    by rewrite insert_insert_ne by (symmetry; apply k0_k1).
  - by rewrite tmap_t01 in C01.
Qed.


Lemma store_inv_empty (hi : list Z -> felt4) {S} `{NodeStoreLaws hi S} (U : Node -> Prop) (s : S) :
  store_inv hi U s -> represents hi U s EMPTY ∅.
Proof. intros Hs. split; [done|]. exists TEmpty. by split_and!. Qed.


Lemma toy_detour : mupdate (mupdate (mupdate ∅ k0 (Some v0)) k1 (Some v1)) k0 None = mupdate ∅ k1 (Some v1).
Proof. simpl. rewrite delete_insert_ne by apply k0_k1. by rewrite delete_insert_id. Qed.

Lemma toy_covers_detour : covers_run toy_hash toy_U ∅ [(k0, Some v0); (k1, Some v1); (k0, None)].
Proof.
  destruct toy_covers_run as [[C0 [C01 _]] [C1 _]]. rewrite <- toy_detour in C1. by split_and!.
Qed.


(** * Proofs *)

(** Proofs are complete: for every key, [prove] succeeds and its proof passes
    [verify_inclusion] with the stored value when the key is present, and
    [verify_exclusion] when it is absent. *)
Theorem smt_prove_complete (hi : list Z -> felt4) {S} `{Laws : NodeStoreLaws hi S}
    (U : Node -> Prop) (s : S) (root k : H256) (m : gmap H256 H256)
    (HU : collision_free hi U) (Hrep : represents hi U s root m) (Hk : h256_ok k) :
  exists p, prove s root k = Ok p /\
    match m !! k with
    | Some v => verify_inclusion hi root k v p = Some true
    | None => verify_exclusion hi root k p = Some true
    end.
Proof.
  destruct (represents_prove_verifies hi U HU s root m k Hrep Hk) as (p & E & V).
  exists p. split; [done|]. destruct (m !! k); apply V.
Qed.

Lemma smt_prove_complete_witness :
  exists p, prove toy_store toy_root k1 = Ok p /\
    match ({[k0 := v0; k1 := v1]} : gmap H256 H256) !! k1 with
    | Some v => verify_inclusion toy_hash toy_root k1 v p = Some true
    | None => verify_exclusion toy_hash toy_root k1 p = Some true
    end.
Proof.
  apply (smt_prove_complete toy_hash toy_U);
    [apply toy_collision_free|apply toy_represents|solve_h256].
Defined.

(** C35: Inclusion proofs are sound: if [verify_inclusion] accepts, the map behind
    the root holds exactly that value at the key, as long as the nodes of the
    tree and the nodes the verifier hashes have no collision. *)
Theorem smt_inclusion_sound (hi : list Z -> felt4) {S} `{Laws : NodeStoreLaws hi S}
    (U : Node -> Prop) (s : S) (root k v : H256) (m : gmap H256 H256) (p : Proof_)
    (HU : collision_free hi U) (Hrep : represents hi U s root m) (Hk : h256_ok k)
    (Hp : forall n, n ∈ proof_nodes hi k p -> U n)
    (Hv : verify_inclusion hi root k v p = Some true) :
  m !! k = Some v.
Proof.
  destruct Hrep as (Hs & t & -> & Hst & Hc & <-).
  unfold verify_inclusion in Hv. destruct p as [sibs [|k' v']]; [done|].
  cbn [terminal] in Hv. case_decide as D; [|done]. destruct D as [-> ->].
  rewrite compute_root_climb in Hv. cbn [siblings terminal] in Hv.
  destruct (climb hi k 0 sibs _) as [r|] eqn:Ec; [|done]. simpl in Hv.
  injection Hv as Hv. apply bool_decide_eq_true in Hv. subst r.
  rewrite (tpath_lookup hi [] t k Hc (prefix_nil _)). 
  rewrite (climb_sound hi U [] t k sibs (TermLeaf k v)); try done.
  - simpl. by rewrite decide_True.
  - by eapply stored_in_nodes.
  - apply Hp. by left.
  - intros n Hn. apply Hp. unfold proof_nodes. cbn [siblings terminal]. by right.
Qed.

Definition toy_proof : Proof_ := {| siblings := [root_hash toy_hash t0]; terminal := TermLeaf k1 v1 |}.

Lemma toy_proof_nodes n : n ∈ proof_nodes toy_hash k1 toy_proof -> toy_U n.
Proof.
  assert (D : Forall (fun n => n ∈ toy_nodes) (proof_nodes toy_hash k1 toy_proof)).
  { apply (bool_decide_unpack _). by vm_compute. }
  rewrite Forall_forall in D. apply D.
Qed.

Lemma smt_inclusion_sound_witness :
  ({[k0 := v0; k1 := v1]} : gmap H256 H256) !! k1 = Some v1.
Proof.
  apply (smt_inclusion_sound toy_hash toy_U toy_store toy_root k1 v1 _ toy_proof).
  - apply toy_collision_free.
  - apply toy_represents.
  - solve_h256.
  - apply toy_proof_nodes.
  - by vm_compute.
Defined.

(** C34: Exclusion proofs are sound: if [verify_exclusion] accepts, the key is
    absent from the map behind the root, under the same collision freedom. *)
Theorem smt_exclusion_sound (hi : list Z -> felt4) {S} `{Laws : NodeStoreLaws hi S}
    (U : Node -> Prop) (s : S) (root k : H256) (m : gmap H256 H256) (p : Proof_)
    (HU : collision_free hi U) (Hrep : represents hi U s root m) (Hk : h256_ok k)
    (Hp : forall n, n ∈ proof_nodes hi k p -> U n)
    (Hv : verify_exclusion hi root k p = Some true) :
  m !! k = None.
Proof.
  destruct Hrep as (Hs & t & -> & Hst & Hc & <-).
  assert (Hcl : climb hi k 0 (siblings p) (term_hash hi (terminal p)) = Some (root_hash hi t) /\
                match terminal p with TermEmpty => True | TermLeaf k' _ => k' <> k end).
  { unfold verify_exclusion in Hv. rewrite !compute_root_climb in Hv.
    destruct p as [sibs [|k' v']]; cbn [siblings terminal] in *.
    - destruct (climb hi k 0 sibs _) as [r|] eqn:Ec; [|done]. simpl in Hv.
      injection Hv as Hv. apply bool_decide_eq_true in Hv. by subst r.
    - case_decide; [done|]. destruct (shares_prefix k' k (length sibs)) as [[|]|]; [|done..].
      simpl in Hv. destruct (climb hi k 0 sibs _) as [r|] eqn:Ec; [|done]. simpl in Hv.
      injection Hv as Hv. apply bool_decide_eq_true in Hv. by subst r. }
  destruct Hcl as [Hcl Hterm]. rewrite (tpath_lookup hi [] t k Hc (prefix_nil _)). 
  rewrite (climb_sound hi U [] t k (siblings p) (terminal p)); try done.
  - simpl. destruct (terminal p); [done|]. by rewrite decide_False.
  - by eapply stored_in_nodes.
  - unfold proof_nodes in Hp. destruct (terminal p); [done|]. apply Hp. by left.
  - intros n Hn. apply Hp. unfold proof_nodes. apply elem_of_app. by right.
Qed.

(** A key on the path of [k1] that is not in the toy tree. *)
Definition k1' : H256 := 193 :: replicate 31 1.

Lemma toy_proof_nodes' n : n ∈ proof_nodes toy_hash k1' toy_proof -> toy_U n.
Proof.
  assert (D : Forall (fun n => n ∈ toy_nodes) (proof_nodes toy_hash k1' toy_proof)).
  { apply (bool_decide_unpack _). by vm_compute. }
  rewrite Forall_forall in D. apply D.
Qed.

Lemma smt_exclusion_sound_witness :
  ({[k0 := v0; k1 := v1]} : gmap H256 H256) !! k1' = None.
Proof.
  apply (smt_exclusion_sound toy_hash toy_U toy_store toy_root k1' _ toy_proof).
  - apply toy_collision_free.
  - apply toy_represents.
  - solve_h256.
  - apply toy_proof_nodes'.
  - by vm_compute.
Defined.

(** * Enumeration *)

(** [leaves_after] returns the first [limit] entries of the map, in ascending
    key order, among those with a key above [after]. It terminates: fuel linear
    in the size of the map is enough. *)
Theorem smt_leaves_after_spec (hi : list Z -> felt4) {S} `{Laws : NodeStoreLaws hi S}
    (U : Node -> Prop) (s : S) (root : H256) (m : gmap H256 H256) (after : option H256)
    (limit fuel : nat)
    (HU : collision_free hi U) (Hrep : represents hi U s root m)
    (Ha : forall a, after = Some a -> h256_ok a) (Hf : (1 + 512 * size m <= fuel)%nat) :
  exists all, StronglySorted key_lt all /\
    (forall k v, (k, v) ∈ all <-> m !! k = Some v /\ after_ok after (k, v) = true) /\
    leaves_after fuel s root after limit = Some (Ok (take limit all)).
Proof.
  destruct (represents_leaves hi U HU s root m after limit fuel) as (t & Hc & <- & E); auto.
  exists (selected after (tleaves t)). split_and!; [|intros k v|done].
  - apply StronglySorted_filter. by eapply tleaves_sorted.
  - unfold selected. rewrite list_elem_of_filter, (tleaves_tmap [] t) by done. tauto.
Qed.

Lemma smt_leaves_after_spec_witness :
  exists all, StronglySorted key_lt all /\
    (forall k v, (k, v) ∈ all <->
       ({[k0 := v0; k1 := v1]} : gmap H256 H256) !! k = Some v /\ after_ok (Some k0) (k, v) = true) /\
    leaves_after 2000 toy_store toy_root (Some k0) 5 = Some (Ok (take 5 all)).
Proof.
  apply (smt_leaves_after_spec toy_hash toy_U).
  - apply toy_collision_free.
  - apply toy_represents.
  - intros a [= <-]. solve_h256.
  - rewrite map_size_insert_None, map_size_singleton; [lia|].
    apply lookup_singleton_ne. symmetry. apply k0_k1.
Defined.

(** In a sorted enumeration the entries above its [i]-th key are those after it. *)
Lemma selected_resume (all : list (H256 * H256)) i k v :
  Forall (fun kv => h256_ok kv.1) all -> StronglySorted key_lt all -> all !! i = Some (k, v) ->
  selected (Some k) all = drop (1 + i) all.
Proof.
  intros Hok Hsort Hi.
  assert (Hk : h256_ok k) by (rewrite Forall_lookup in Hok; by apply (Hok i (k, v))).
  assert (Hlen : length (take i all) = i).
  { rewrite length_take. apply lookup_lt_Some in Hi. lia. }
  rewrite <- (take_drop_middle _ _ _ Hi) in Hsort, Hok |- *.
  apply StronglySorted_app in Hsort as (Hlt & _ & Hs2). inversion Hs2 as [|? ? _ Hgt]; subst.
  apply Forall_app in Hok as [Hok1 _]. change (1 + i)%nat with (S i).
  rewrite drop_app_ge, Hlen by lia. replace (S i - i)%nat with 1%nat by lia.
  unfold selected. rewrite filter_app, filter_cons_False, filter_none, filter_all; [done|..].
  - by eapply Forall_impl; [exact Hgt|].
  - rewrite Forall_forall in Hok1. apply Forall_forall. intros [k' v'] Hin Hx.
    assert (Hlt' : key_lt (k', v') (k, v)) by (apply Hlt; [done|by left]).
    specialize (Hok1 _ Hin). unfold key_lt in Hlt'. simpl in Hx, Hlt', Hok1.
    rewrite h256_ltb in Hx, Hlt' by done. lia.
  - simpl. rewrite h256_ltb by done. lia.
Qed.

(** Pages compose: the page requested after the [i]-th key of the sorted
    enumeration continues exactly where that key was, so a node that resumes from
    the last key it received misses no leaf and repeats none. *)
Theorem smt_leaves_after_resumes (hi : list Z -> felt4) {S} `{Laws : NodeStoreLaws hi S}
    (U : Node -> Prop) (s : S) (root : H256) (m : gmap H256 H256) (fuel : nat)
    (HU : collision_free hi U) (Hrep : represents hi U s root m)
    (Hf : (1 + 512 * size m <= fuel)%nat) :
  exists all, leaves_after fuel s root None (size m) = Some (Ok all) /\ length all = size m /\
    forall i k v limit, all !! i = Some (k, v) ->
      leaves_after fuel s root (Some k) limit = Some (Ok (take limit (drop (1 + i) all))).
Proof.
  destruct (represents_leaves hi U HU s root m None (size m) fuel) as (t & Hc & Em & E); try done.
  assert (El : length (tleaves t) = size m).
  { rewrite <- Em, (canon_size [] t Hc). clear. induction t; simpl; rewrite ?length_app; lia. }
  assert (En : selected None (tleaves t) = tleaves t) by (apply filter_all, Forall_true; done).
  exists (tleaves t). rewrite E, En, take_ge by lia. split_and!; [done..|].
  intros i k v limit Hi.
  assert (Hk : h256_ok k).
  { apply list_elem_of_lookup_2, (tleaves_tmap [] t k v Hc), (canon_lookup _ _ _ _ Hc) in Hi. tauto. }
  destruct (represents_leaves hi U HU s root m (Some k) limit fuel) as (t' & Hc' & Em' & E'); auto.
  { by intros a [= <-]. }
  rewrite (canon_unique [] t' t) in E' by congruence. rewrite E'. do 3 f_equal.
  eapply selected_resume; [|by eapply tleaves_sorted|done].
  apply Forall_forall. intros [k' v'] Hin.
  apply (tleaves_tmap [] t k' v' Hc), (canon_lookup _ _ _ _ Hc) in Hin. tauto.
Qed.

Lemma smt_leaves_after_resumes_witness :
  exists all, leaves_after 2000 toy_store toy_root None (size ({[k0 := v0; k1 := v1]} : gmap H256 H256)) = Some (Ok all) /\
    length all = size ({[k0 := v0; k1 := v1]} : gmap H256 H256) /\
    forall i k v limit, all !! i = Some (k, v) ->
      leaves_after 2000 toy_store toy_root (Some k) limit = Some (Ok (take limit (drop (1 + i) all))).
Proof.
  apply (smt_leaves_after_resumes toy_hash toy_U).
  - apply toy_collision_free.
  - apply toy_represents.
  - rewrite map_size_insert_None, map_size_singleton; [lia|].
    apply lookup_singleton_ne. symmetry. apply k0_k1.
Defined.

(** * Stores and encoding *)

(** A node survives its 65-byte encoding. *)
Theorem smt_node_roundtrip (n : Node)
    (Hn : match n with Leaf a b | Branch a b => h256_ok a /\ h256_ok b end) :
  length (encode n) = ENCODED_SIZE /\ decode (encode n) = Some n.
Proof.
  split; [|by apply decode_encode_node].
  destruct n as [a b|a b]; destruct Hn as [[La _] [Lb _]]; simpl; rewrite length_app, La, Lb; done.
Qed.

Lemma smt_node_roundtrip_witness :
  length (encode (Branch k0 v1)) = ENCODED_SIZE /\ decode (encode (Branch k0 v1)) = Some (Branch k0 v1).
Proof. apply (smt_node_roundtrip (Branch k0 v1)). split; solve_h256. Defined.

Section overlay.
Context (hi : list Z -> felt4) {B : Type} `{NB : NodeStore B}.
#[local] Instance overlay_inst : NodeStore (OverlayStore B) := overlay_store hi.

Definition keeps_base {A} (m : st (OverlayStore B) SmtError A) : Prop :=
  forall s, base (m s).1 = base s.

Lemma keeps_base_bind {A C} (m : st (OverlayStore B) SmtError A) (f : A -> st _ _ C) :
  keeps_base m -> (forall a, keeps_base (f a)) -> keeps_base (m ≫= f).
Proof.
  intros Hm Hf s. unfold mbind, st_bind. specialize (Hm s).
  destruct (m s) as [s' [a|e]]; simpl in *; [|done]. by rewrite Hf.
Qed.

Lemma keeps_base_ret {A} (a : A) : keeps_base (mret a).
Proof. by intros s. Qed.
Lemma keeps_base_throw {A} e : keeps_base (throw (A := A) e).
Proof. by intros s. Qed.
Lemma keeps_base_put n : keeps_base (put n).
Proof. by intros s. Qed.
Lemma keeps_base_get_node h : keeps_base (get_node h).
Proof. by intros s. Qed.

Create HintDb keeps.
#[local] Hint Resolve keeps_base_bind keeps_base_ret keeps_base_throw keeps_base_put
  keeps_base_get_node : keeps.

Lemma keeps_base_split fuel d ka va kb vb : keeps_base (split fuel d ka va kb vb).
Proof.
  revert d. induction fuel as [|fuel IH]; intros d; simpl; case_decide; auto with keeps.
  destruct (negb _); [|apply keeps_base_bind; [done|]; intros h; destruct (_ =? 0); auto with keeps].
  apply keeps_base_bind; [auto with keeps|]. intros ha.
  apply keeps_base_bind; [auto with keeps|]. intros hb. destruct (_ =? 0); auto with keeps.
Qed.

Lemma keeps_base_normalize l r : keeps_base (normalize l r).
Proof.
  unfold normalize, is_leaf. destruct (bool_decide _), (bool_decide _); auto with keeps;
    (apply keeps_base_bind; [apply keeps_base_bind; auto with keeps|]; intros []; auto with keeps).
Qed.

Lemma keeps_base_update_at fuel h d k value : keeps_base (update_at fuel h d k value).
Proof.
  revert h d. induction fuel as [|fuel IH]; intros h d; simpl;
    (case_decide; [destruct value; auto with keeps|]);
    (apply keeps_base_bind; [auto with keeps|]; intros n; repeat case_match;
     auto using keeps_base_split, keeps_base_normalize with keeps).
Qed.
End overlay.

(** Work on an [OverlayStore] never touches the base store, whether [update]
    succeeds or fails, and a lookup through the overlay falls back to the base. *)
Theorem smt_overlay_isolates (hi : list Z -> felt4) {B} `{NB : NodeStore B}
    (s : OverlayStore B) (root k : H256) (value : option H256) :
  base (update (H := overlay_store hi) root k value s).1 = base s /\
  forall h, store_get (NodeStore := overlay_store hi) (overlay_new (base s)) h = store_get (base s) h.
Proof. split; [apply keeps_base_update_at|done]. Qed.

(** * What the hash does not bind *)

(** The 32-byte value whose first little-endian word is [w] plus the field order. *)
Definition shift_first_word (v : H256) : H256 :=
  to_le 8 (from_le (take 8 v) + goldilocks_p) ++ drop 8 v.

Lemma shift_first_word_spec v :
  h256_ok v -> from_le (take 8 v) < 2 ^ 32 - 1 ->
  h256_ok (shift_first_word v) /\ shift_first_word v <> v /\
  bytes_to_goldilocks (shift_first_word v) = bytes_to_goldilocks v.
Proof.
  intros [Hl Hok] Hw. unfold shift_first_word.
  assert (Hl8 : length (take 8 v) = 8%nat) by (rewrite length_take, Hl; done).
  assert (Hr : 0 <= from_le (take 8 v) < 256 ^ 8).
  { pose proof (from_le_range (take 8 v) (Forall_take _ _ _ Hok)) as R. by rewrite Hl8 in R. }
  assert (Ef : from_le (to_le 8 (from_le (take 8 v) + goldilocks_p)) = from_le (take 8 v) + goldilocks_p).
  { apply from_to_le_small. unfold goldilocks_p. change (256 ^ Z.of_nat 8) with (2 ^ 64). lia. }
  split_and!.
  - split; [rewrite length_app, length_to_le, length_drop, Hl; done|].
    apply Forall_app_2; [apply to_le_ok|by apply Forall_drop].
  - intros E. apply (f_equal (fun l => from_le (take 8 l))) in E.
    rewrite take_app_length' in E by (by rewrite length_to_le). rewrite Ef in E.
    unfold goldilocks_p in E. lia.
  - assert (Hword : forall n i, (8 <= i)%nat ->
      take n (drop i (to_le 8 (from_le (take 8 v) + goldilocks_p) ++ drop 8 v)) = take n (drop i v)).
    { intros n i Hi. rewrite drop_app_ge, drop_drop, length_to_le by (by rewrite length_to_le).
      by replace (8 + (i - 8))%nat with i by lia. }
    unfold bytes_to_goldilocks. rewrite (Hword _ (1 * 8)%nat), (Hword _ (2 * 8)%nat), (Hword _ (3 * 8)%nat) by lia.
    change (0 * 8)%nat with 0%nat. rewrite !drop_0, take_app_length', Ef by (by rewrite length_to_le).
    do 3 f_equal. unfold from_u64. rewrite <- (Z.mul_1_l goldilocks_p) at 1.
    by rewrite Z.mod_add.
Qed.

(** A leaf hash reads the value modulo the Goldilocks order, so it does not
    bind the 32 bytes: whenever the first word of a proven value is below
    [2^32 - 1], a second, different value verifies at the same key under the same
    root, whatever the sponge. *)
Theorem smt_inclusion_value_malleable (hi : list Z -> felt4) (root k v : H256) (sibs : list H256)
    (Hv : h256_ok v) (Hw : from_le (take 8 v) < 2 ^ 32 - 1)
    (Hver : verify_inclusion hi root k v {| siblings := sibs; terminal := TermLeaf k v |} = Some true) :
  exists v', h256_ok v' /\ v' <> v /\
    verify_inclusion hi root k v' {| siblings := sibs; terminal := TermLeaf k v' |} = Some true.
Proof.
  exists (shift_first_word v).
  destruct (shift_first_word_spec v Hv Hw) as (? & ? & E). split_and!; try done.
  unfold verify_inclusion in *. cbn [terminal] in *. rewrite decide_True in Hver by done.
  rewrite decide_True by done. rewrite compute_root_climb in Hver. rewrite compute_root_climb. cbn [siblings terminal term_hash] in *.
  unfold hash_leaf in *. by rewrite E.
Qed.

Definition small_v : H256 := replicate 32 0.

Lemma smt_inclusion_value_malleable_witness :
  exists v', h256_ok v' /\ v' <> small_v /\
    verify_inclusion toy_hash (hash_leaf toy_hash k0 small_v) k0 v'
      {| siblings := []; terminal := TermLeaf k0 v' |} = Some true.
Proof.
  apply (smt_inclusion_value_malleable toy_hash).
  - solve_h256.
  - by vm_compute.
  - by vm_compute.
Defined.

(** [verify_inclusion] indexes the key by the number of siblings without a
    bound, so a proof with more than 256 siblings panics instead of being
    rejected. *)
Theorem smt_verify_inclusion_panics (hi : list Z -> felt4) (root k v : H256) (sibs : list H256)
    (Hk : h256_ok k) (Hlong : (256 < length sibs)%nat) :
  verify_inclusion hi root k v {| siblings := sibs; terminal := TermLeaf k v |} = None.
Proof.
  unfold verify_inclusion. cbn [terminal]. rewrite decide_True, compute_root_climb by done.
  cbn [siblings terminal]. generalize (term_hash hi (TermLeaf k v)) as h0. intros h0.
  assert (G : forall d, (256 < d + length sibs)%nat -> sibs <> [] -> climb hi k d sibs h0 = None).
  { clear Hlong. induction sibs as [|sib sibs IH]; intros d Hd Hne; [done|].
    cbn [climb]. destruct sibs as [|sib' sibs].
    - simpl in Hd |- *. by rewrite bit_checked_out by (done || lia).
    - by rewrite IH by (simpl in *; done || lia). }
  rewrite G; [done|lia|]. intros ->. simpl in Hlong. lia.
Qed.

Lemma smt_verify_inclusion_panics_witness :
  verify_inclusion toy_hash EMPTY k0 v0
    {| siblings := replicate 257 EMPTY; terminal := TermLeaf k0 v0 |} = None.
Proof.
  apply (smt_verify_inclusion_panics toy_hash); [solve_h256|].
  rewrite length_replicate. lia.
Defined.
