(* ===== verification/Address.v ===== *)
(** Addresses and their bech32 form (crypto/addresses/src/bech32.rs, crypto/addresses/src/lib.rs):
    regrouping of bits, the checksum, printing and parsing. Strings are their bytes.
    [None] and [Panic] are the panics of an index out of range and of [assert_eq!]. *)

From S2P Require Import Prelude.

Inductive Prefix := Mainnet | Testnet | Simnet | Devnet.

#[export] Instance Prefix_eq_dec : EqDecision Prefix.
Proof. solve_decision. Defined.

Inductive Version := PubKey | PubKeyECDSA | ScriptHash | PubKeyDilithium.

#[export] Instance Version_eq_dec : EqDecision Version.
Proof. solve_decision. Defined.

Inductive AddressError :=
| InvalidPrefix (prefix : bytes)
| MissingPrefix
| InvalidVersion (v : Z)
| DecodingError (c : Z)
| BadChecksumSize
| BadChecksum
| BadPayload.

#[export] Instance AddressError_eq_dec : EqDecision AddressError.
Proof. solve_decision. Defined.

Definition prefix_as_str (p : Prefix) : bytes :=
  string_bytes match p with
               | Mainnet => "csm" | Testnet => "csmtest" | Simnet => "csmsim" | Devnet => "csmdev"
               end.

Definition prefix_try_from (s : bytes) : result AddressError Prefix :=
  if bool_decide (s = string_bytes "csm") then Ok Mainnet
  else if bool_decide (s = string_bytes "csmtest") then Ok Testnet
  else if bool_decide (s = string_bytes "csmsim") then Ok Simnet
  else if bool_decide (s = string_bytes "csmdev") then Ok Devnet
  else Err (InvalidPrefix s).

(** The [repr(u8)] discriminants. *)
Definition version_byte (v : Version) : Z :=
  match v with PubKey => 128 | PubKeyECDSA => 1 | ScriptHash => 8 | PubKeyDilithium => 129 end.

Definition version_try_from (b : Z) : result AddressError Version :=
  if b =? 128 then Ok PubKey else if b =? 1 then Ok PubKeyECDSA
  else if b =? 8 then Ok ScriptHash else if b =? 129 then Ok PubKeyDilithium
  else Err (InvalidVersion b).

Definition public_key_len (v : Version) : nat :=
  match v with PubKey => 32 | PubKeyECDSA => 33 | ScriptHash => 32 | PubKeyDilithium => 20 end.

Record Address := { addr_prefix : Prefix; addr_version : Version; addr_payload : bytes }.

(** [Address::new]; [None] is its [assert_eq!]. *)
Definition Address_new (prefix : Prefix) (version : Version) (payload : bytes) : option Address :=
  if (length payload =? public_key_len version)%nat
  then Some {| addr_prefix := prefix; addr_version := version; addr_payload := payload |} else None.

(** * bech32 *)

Definition CHARSET : bytes := string_bytes "qpzry9x8gf2tvdw0s3jn54khce6mua7l".

Definition REV_CHARSET : list Z :=
  [100; 100; 100; 100; 100; 100; 100; 100; 100; 100; 100; 100; 100; 100; 100; 100; 100; 100; 100; 100; 100; 100; 100; 100; 100; 100;
   100; 100; 100; 100; 100; 100; 100; 100; 100; 100; 100; 100; 100; 100; 100; 100; 100; 100; 100; 100; 100; 100; 15; 100; 10; 17; 21;
   20; 26; 30; 7; 5; 100; 100; 100; 100; 100; 100; 100; 100; 100; 100; 100; 100; 100; 100; 100; 100; 100; 100; 100; 100; 100; 100;
   100; 100; 100; 100; 100; 100; 100; 100; 100; 100; 100; 100; 100; 100; 100; 100; 100; 29; 100; 24; 13; 25; 9; 8; 23; 100; 18; 22;
   31; 27; 19; 100; 1; 0; 3; 16; 11; 28; 12; 14; 6; 4; 2].

Definition polymod_step (c d : Z) : Z :=
  let c0 := Z.shiftr c 35 in
  let c := Z.lxor (Z.shiftl (Z.land c 0x07ffffffff) 5) d in
  let c := if negb (Z.land c0 1 =? 0) then Z.lxor c 0x98f2bc8e61 else c in
  let c := if negb (Z.land c0 2 =? 0) then Z.lxor c 0x79b76d99e2 else c in
  let c := if negb (Z.land c0 4 =? 0) then Z.lxor c 0xf33e5fb3c4 else c in
  let c := if negb (Z.land c0 8 =? 0) then Z.lxor c 0xae2eabe2a8 else c in
  if negb (Z.land c0 16 =? 0) then Z.lxor c 0x1e4f43e470 else c.

Definition polymod (values : list Z) : Z := Z.lxor (foldl polymod_step 1 values) 0x2bc830a3.

Definition checksum (payload prefix : list Z) : Z := polymod (prefix ++ [0] ++ payload ++ replicate 8 0).

(** [v[i] = x]. *)
Definition put_at (v : list Z) (i : nat) (x : Z) : option (list Z) :=
  if (i <? length v)%nat then Some (<[i := x]> v) else None.

(** [while bits >= w { .. }]: at most two turns are taken. *)
Fixpoint drain (fuel : nat) (w : Z) (out : list Z) (idx : nat) (buff bits : Z) :
    option (list Z * nat * Z * Z) :=
  if w <=? bits then
    match fuel with
    | O => None
    | S fuel' =>
        let bits := bits - w in
        out' ← put_at out idx (Z.land (Z.shiftr buff bits) 255);
        drain fuel' w out' (S idx) (Z.land buff (Z.shiftl 1 bits - 1)) bits
    end
  else Some (out, idx, buff, bits).

(** The [for] loops of [conv8to5] and [conv5to8]; [buff] is a [u16]. *)
Fixpoint conv_loop (w_in w_out : Z) (out : list Z) (idx : nat) (buff bits : Z) (payload : list Z) :
    option (list Z * nat * Z * Z) :=
  match payload with
  | [] => Some (out, idx, buff, bits)
  | c :: payload' =>
      let buff := Z.lor (wrap 16 (Z.shiftl buff w_in)) c in
      let bits := bits + w_in in
      '(out, idx, buff, bits) ← drain 3 w_out out idx buff bits;
      conv_loop w_in w_out out idx buff bits payload'
  end.

Definition conv8to5 (payload : bytes) : option (list Z) :=
  let padding := if (length payload mod 5 =? 0)%nat then 0%nat else 1%nat in
  let five_bit := replicate (length payload * 8 / 5 + padding) 0 in
  '(five_bit, current_idx, buff, bits) ← conv_loop 8 5 five_bit 0 0 0 payload;
  if 0 <? bits then put_at five_bit current_idx (Z.land (wrap 16 (Z.shiftl buff (5 - bits))) 255)
  else Some five_bit.

Definition conv5to8 (payload : list Z) : option bytes :=
  let eight_bit := replicate (length payload * 5 / 8) 0 in
  '(eight_bit, _, _, _) ← conv_loop 5 8 eight_bit 0 0 0 payload;
  Some eight_bit.

Definition to_be_bytes (x : Z) : bytes := reverse (to_le 8 x).

Definition fivebit_prefix (p : Prefix) : list Z := map (fun c => Z.land c 0x1f) (prefix_as_str p).

(** [CHARSET[c]] for every symbol. *)
Definition charset_map (l : list Z) : option bytes := mapM (fun c => CHARSET !! Z.to_nat c) l.

Definition encode_payload (a : Address) : option bytes :=
  fivebit_payload ← conv8to5 (version_byte (addr_version a) :: addr_payload a);
  let sum := checksum fivebit_payload (fivebit_prefix (addr_prefix a)) in
  sum5 ← conv8to5 (drop 3 (to_be_bytes sum));
  charset_map (fivebit_payload ++ sum5).

(** The [scan] that stops at the first invalid character. *)
Fixpoint rev_charset_map (address : bytes) : result AddressError (list Z) :=
  match address with
  | [] => Ok []
  | b :: address' =>
      let i := default 100 (REV_CHARSET !! Z.to_nat b) in
      if i =? 100 then Err (DecodingError b)
      else l ← rev_charset_map address'; Ok (i :: l)
  end.

Definition faulty {A} (r : result AddressError A) : result (fault AddressError) A :=
  match r with Ok a => Ok a | Err e => Err (Error e) end.

Definition decode_payload (prefix : Prefix) (address : bytes) : result (fault AddressError) Address :=
  address_u5 ← faulty (rev_charset_map address);
  if (length address <? 8)%nat then Err (Error BadPayload)
  else
    let payload_u5 := take (length address - 8) address_u5 in
    let checksum_u5 := drop (length address - 8) address_u5 in
    sum ← ok_or Panic (conv5to8 checksum_u5);
    if negb (Nat.eqb (length (replicate 3 0 ++ sum)) 8) then Err (Error BadChecksumSize)
    else
      let checksum_ := from_be (replicate 3 0 ++ sum) in
      if negb (checksum payload_u5 (fivebit_prefix prefix) =? checksum_) then Err (Error BadChecksum)
      else
        payload_u8 ← ok_or Panic (conv5to8 payload_u5);
        match payload_u8 with
        | [] => Err Panic
        | v :: payload =>
            version ← faulty (version_try_from v);
            ok_or Panic (Address_new prefix version payload)
        end.

(** [From<&Address> for String] and [TryFrom<&str> for Address]; ['1'] is 49. *)
Definition address_to_string (a : Address) : option bytes :=
  p ← encode_payload a; Some (prefix_as_str (addr_prefix a) ++ [49] ++ p).

(** [split_once('1')]. *)
Fixpoint split_once (c : Z) (s : bytes) : option (bytes * bytes) :=
  match s with
  | [] => None
  | x :: s' => if x =? c then Some ([], s')
               else '(a, b) ← split_once c s'; Some (x :: a, b)
  end.

Definition address_try_from (value : bytes) : result (fault AddressError) Address :=
  match split_once 49 value with
  | Some (prefix, payload) => p ← faulty (prefix_try_from prefix); decode_payload p payload
  | None => Err (Error MissingPrefix)
  end.

(** * Regrouping of bits *)

(** The number whose base-[2^w] digits are [l], most significant first. *)
Fixpoint val (w : Z) (l : list Z) : Z :=
  match l with
  | [] => 0
  | d :: l' => d * 2 ^ (w * Z.of_nat (length l')) + val w l'
  end.

Definition digits (w : Z) (l : list Z) : Prop := Forall (fun d => 0 <= d < 2 ^ w) l.

Lemma digits_app w l1 l2 :
  0 <= w -> val w (l1 ++ l2) = val w l1 * 2 ^ (w * Z.of_nat (length l2)) + val w l2.
Proof.
  intros Hw. induction l1 as [|d l1 IH]; cbn [val app]; [lia|].
  rewrite IH, length_app, Nat2Z.inj_add, Z.mul_add_distr_l, Z.pow_add_r by lia. ring.
Qed.

Lemma digits_range w l : 0 <= w -> digits w l -> 0 <= val w l < 2 ^ (w * Z.of_nat (length l)).
Proof.
  intros Hw. induction 1 as [|d l Hd Hl IH]; cbn [val length]; [simpl; lia|].
  rewrite Nat2Z.inj_succ, Z.mul_succ_r, Z.pow_add_r by lia.
  set (P := 2 ^ (w * Z.of_nat (length l))) in *. set (Q := 2 ^ w) in *. nia.
Qed.

Lemma digits_inj w l1 l2 :
  0 <= w -> digits w l1 -> digits w l2 -> length l1 = length l2 -> val w l1 = val w l2 -> l1 = l2.
Proof.
  intros Hw H1. revert l2. induction H1 as [|d1 l1 Hd1 H1 IH]; intros [|d2 l2] H2 Hl E; try done.
  inversion H2 as [|? ? Hd2 H2']; subst. simpl in Hl. injection Hl as Hl. cbn [val] in E. rewrite Hl in E.
  pose proof (digits_range w l1 Hw H1) as R1. pose proof (digits_range w l2 Hw H2') as R2. rewrite Hl in R1.
  set (P := 2 ^ (w * Z.of_nat (length l2))) in *.
  assert (d1 = d2) as -> by nia. f_equal. apply IH; [done|done|lia].
Qed.

Lemma lor_shift buff c w :
  0 <= w -> 0 <= buff -> 0 <= c < 2 ^ w -> Z.lor (Z.shiftl buff w) c = buff * 2 ^ w + c.
Proof.
  intros Hw Hb Hc. rewrite Z.shiftl_mul_pow2 by lia. symmetry. apply Z.add_nocarry_lor.
  apply Z.bits_inj'. intros i Hi. rewrite Z.land_spec, Z.bits_0.
  destruct (Z.lt_ge_cases i w); [by rewrite Z.mul_pow2_bits_low|].
  apply andb_false_iff. right. destruct (decide (c = 0)) as [->|]; [apply Z.bits_0|].
  apply Z.bits_above_log2; [lia|]. apply Z.log2_lt_pow2; [lia|].
  apply Z.lt_le_trans with (2 ^ w); [lia|]. apply Z.pow_le_mono_r; lia.
Qed.

(** The output vector: the emitted symbols and the zeros still to be overwritten. *)
Definition filled (n : nat) (em : list Z) : list Z := em ++ replicate (n - length em) 0.

Lemma put_at_filled n em x :
  (length em < n)%nat -> put_at (filled n em) (length em) x = Some (filled n (em ++ [x])).
Proof.
  intros Hn. unfold put_at, filled. rewrite length_app, length_replicate.
  destruct (Nat.ltb_spec (length em) (length em + (n - length em))); [|lia]. f_equal.
  rewrite insert_app_r_alt, Nat.sub_diag by lia.
  replace (n - length em)%nat with (S (n - length em - 1)) by lia. cbn [replicate insert list_insert].
  rewrite length_app, <-app_assoc. simpl. do 3 f_equal. lia.
Qed.

(** What a state of the loop says of the bits read so far. *)
Record conv_state (w : Z) (em : list Z) (buff bits total value : Z) : Prop := {
  cs_buff : 0 <= buff < 2 ^ bits;
  cs_bits : 0 <= bits;
  cs_digits : digits w em;
  cs_total : Z.of_nat (length em) * w + bits = total;
  cs_value : val w em * 2 ^ bits + buff = value;
}.

Lemma drain_spec fuel w n em buff bits total value :
  5 <= w <= 8 -> conv_state w em buff bits total value -> total <= Z.of_nat n * w + (w - 1) ->
  bits < (Z.of_nat fuel + 1) * w ->
  exists em' buff' bits', drain fuel w (filled n em) (length em) buff bits =
      Some (filled n em', length em', buff', bits') /\
    conv_state w em' buff' bits' total value /\ bits' < w.
Proof.
  intros Hw. revert em buff bits. induction fuel as [|fuel IH]; intros em buff bits Hc Hn Hf; cbn [drain];
    (destruct (Z.leb_spec w bits); [|exists em, buff, bits; auto]); [lia|].
  pose proof Hc as [Hb Hbits Hd Ht Hv].
  assert (Hq : 0 <= buff / 2 ^ (bits - w) < 2 ^ w).
  { split; [apply Z.div_pos; lia|]. apply Z.div_lt_upper_bound; [lia|]. rewrite <-Z.pow_add_r by lia.
    replace (bits - w + w) with bits by lia. lia. }
  assert (Hw8 : 2 ^ w <= 2 ^ 8) by (apply Z.pow_le_mono_r; lia). change (2 ^ 8) with 256 in Hw8.
  rewrite Z.shiftr_div_pow2 by lia.
  replace (Z.land _ 255) with (buff / 2 ^ (bits - w))
    by (change 255 with (Z.ones 8); rewrite Z.land_ones by lia; symmetry; apply Z.mod_small; change (2 ^ 8) with 256; lia).
  rewrite put_at_filled by nia. cbn [mbind option_bind].
  rewrite Z.shiftl_1_l. replace (2 ^ (bits - w) - 1) with (Z.ones (bits - w)) by (rewrite Z.ones_equiv; lia).
  rewrite Z.land_ones by lia.
  replace (S (length em)) with (length (em ++ [buff / 2 ^ (bits - w)])) by (rewrite length_app; simpl; lia).
  apply IH; [|done|lia]. pose proof (Z.pow_pos_nonneg 2 (bits - w) ltac:(lia) ltac:(lia)) as Hp.
  split; [by apply Z.mod_pos_bound|lia|by apply Forall_app_2, Forall_singleton| |].
  - rewrite length_app. simpl. lia.
  - rewrite digits_app by lia. cbn [val length]. change (Z.of_nat 0) with 0. change (Z.of_nat 1) with 1.
    rewrite Z.mul_0_r, Z.mul_1_r, Z.add_0_r. change (2 ^ 0) with 1. rewrite Z.mul_1_r.
    rewrite <-Hv. pose proof (Z.div_mod buff (2 ^ (bits - w)) ltac:(lia)) as Hdm.
    replace (2 ^ bits) with (2 ^ w * 2 ^ (bits - w)) by (rewrite <-Z.pow_add_r by lia; f_equal; lia).
    rewrite Hdm at 3. ring.
Qed.

Lemma conv_loop_spec w_in w n em buff bits total value payload :
  5 <= w_in <= 8 -> 5 <= w <= 8 -> conv_state w em buff bits total value -> bits < w -> digits w_in payload ->
  total + w_in * Z.of_nat (length payload) <= Z.of_nat n * w + (w - 1) ->
  exists em' buff' bits', conv_loop w_in w (filled n em) (length em) buff bits payload =
      Some (filled n em', length em', buff', bits') /\ bits' < w /\
    conv_state w em' buff' bits' (total + w_in * Z.of_nat (length payload))
      (value * 2 ^ (w_in * Z.of_nat (length payload)) + val w_in payload).
Proof.
  intros Hi Hw. revert em buff bits total value.
  induction payload as [|c payload IH]; intros em buff bits total value Hc Hlt Hd Hn; cbn [conv_loop].
  { exists em, buff, bits. split; [done|]. split; [done|]. cbn [length val].
    change (Z.of_nat 0) with 0. rewrite Z.mul_0_r, !Z.add_0_r. change (2 ^ 0) with 1. by rewrite Z.mul_1_r. }
  apply Forall_cons in Hd as [Hcd Hd]. destruct Hc as [Hb Hbits Hde Ht Hv].
  assert (Hb7 : 2 ^ bits <= 2 ^ 7) by (apply Z.pow_le_mono_r; lia).
  assert (Hi8 : 2 ^ w_in <= 2 ^ 8) by (apply Z.pow_le_mono_r; lia).
  pose proof (Z.pow_pos_nonneg 2 w_in ltac:(lia) ltac:(lia)) as Hpi.
  rewrite (wrap_small 16), lor_shift by (rewrite ?Z.shiftl_mul_pow2 by lia; nia).
  cbn [length] in *. rewrite Nat2Z.inj_succ in *.
  destruct (drain_spec 3 w n em (buff * 2 ^ w_in + c) (bits + w_in) (total + w_in) (value * 2 ^ w_in + c))
    as (em1 & buff1 & bits1 & E1 & C1 & L1); [done| |nia|nia|].
  { split; [rewrite Z.pow_add_r by lia; nia|lia|done|lia|]. rewrite <-Hv, Z.pow_add_r by lia. ring. }
  rewrite E1. cbn [mbind option_bind].
  destruct (IH em1 buff1 bits1 (total + w_in) (value * 2 ^ w_in + c)) as (em2 & buff2 & bits2 & E2 & L2 & C2); [done|done|done|nia|].
  exists em2, buff2, bits2. split; [exact E2|]. split; [done|]. cbn [val].
  replace (w_in * Z.succ (Z.of_nat (length payload))) with (w_in + w_in * Z.of_nat (length payload)) by lia.
  rewrite Z.pow_add_r by lia.
  replace (total + (w_in + w_in * Z.of_nat (length payload))) with (total + w_in + w_in * Z.of_nat (length payload)) by lia.
  replace (_ * (_ * _) + _) with ((value * 2 ^ w_in + c) * 2 ^ (w_in * Z.of_nat (length payload)) + val w_in payload) by ring.
  exact C2.
Qed.

Lemma conv_start w : conv_state w [] 0 0 0 0.
Proof. split; simpl; [lia|lia|constructor|lia|lia]. Qed.

Lemma conv8to5_spec p :
  bytes_ok p ->
  exists q pad, conv8to5 p = Some q /\ digits 5 q /\ 0 <= pad < 5 /\
    Z.of_nat (length q) * 5 = 8 * Z.of_nat (length p) + pad /\ val 5 q = val 8 p * 2 ^ pad.
Proof.
  intros Hp. unfold conv8to5. set (padding := if (length p mod 5 =? 0)%nat then 0%nat else 1%nat).
  set (n := (length p * 8 / 5 + padding)%nat).
  pose proof (Nat.div_mod_eq (length p * 8) 5) as D. pose proof (Nat.mod_upper_bound (length p * 8) 5 ltac:(lia)) as R.
  pose proof (Nat.div_mod_eq (length p) 5) as D'. pose proof (Nat.mod_upper_bound (length p) 5 ltac:(lia)) as R'.
  assert (Pd : (length p mod 5 = 0 /\ padding = 0 \/ length p mod 5 <> 0 /\ padding = 1)%nat).
  { unfold padding. destruct (Nat.eqb_spec (length p mod 5) 0); auto. }
  destruct (conv_loop_spec 8 5 n [] 0 0 0 0 p) as (em & buff & bits & E & L & [Hb Hbits Hd Ht Hv]);
    [lia|lia|apply conv_start|lia|exact Hp|lia|].
  change (filled n []) with (replicate (n - 0) 0) in E. rewrite Nat.sub_0_r in E. cbn [length] in E. rewrite E.
  cbn [mbind option_bind]. destruct (Z.ltb_spec 0 bits).
  - assert (Ln : n = S (length em)) by lia.
    assert (Hq : 0 <= buff * 2 ^ (5 - bits) < 2 ^ 5).
    { pose proof (Z.pow_pos_nonneg 2 (5 - bits) ltac:(lia) ltac:(lia)). split; [lia|].
      replace 5 with (bits + (5 - bits)) at 2 by lia. rewrite Z.pow_add_r by lia. nia. }
    rewrite Z.shiftl_mul_pow2 by lia. rewrite (wrap_small 16) by (change (2 ^ 16) with 65536; change (2 ^ 5) with 32 in Hq; lia).
    replace (Z.land _ 255) with (buff * 2 ^ (5 - bits))
      by (change 255 with (Z.ones 8); rewrite Z.land_ones by lia; symmetry; apply Z.mod_small; change (2 ^ 5) with 32 in Hq; lia).
    rewrite put_at_filled by lia. eexists _, (5 - bits). split; [done|]. unfold filled.
    rewrite length_app, Ln. cbn [length]. replace (S (length em) - (length em + 1))%nat with 0%nat by lia.
    rewrite app_nil_r. split; [by apply Forall_app_2, Forall_singleton|]. rewrite length_app. simpl length.
    split; [lia|]. split; [lia|]. rewrite digits_app by lia. cbn [val length]. change (Z.of_nat 0) with 0. change (Z.of_nat 1) with 1.
    rewrite Z.mul_0_r, Z.mul_1_r, Z.add_0_r, Z.pow_0_r, Z.mul_1_r. rewrite Z.mul_0_l, Z.add_0_l in Hv. rewrite <-Hv.
    replace (2 ^ 5) with (2 ^ bits * 2 ^ (5 - bits)) by (rewrite <-Z.pow_add_r by lia; f_equal; lia). ring.
  - assert (bits = 0) as -> by lia. assert (Ln : n = length em) by lia. unfold filled. rewrite Ln, Nat.sub_diag, app_nil_r.
    exists em, 0. rewrite Z.mul_0_l, Z.add_0_l in Hv. split_and!; [done|done|lia|lia|lia|].
    change (2 ^ 0) with 1 in *. lia.
Qed.

Lemma conv5to8_spec q :
  digits 5 q ->
  exists p buff bits, conv5to8 q = Some p /\ digits 8 p /\ 0 <= bits < 8 /\ 0 <= buff < 2 ^ bits /\
    Z.of_nat (length p) * 8 + bits = 5 * Z.of_nat (length q) /\ val 8 p * 2 ^ bits + buff = val 5 q.
Proof.
  intros Hq. unfold conv5to8. set (n := (length q * 5 / 8)%nat).
  pose proof (Nat.div_mod_eq (length q * 5) 8) as D. pose proof (Nat.mod_upper_bound (length q * 5) 8 ltac:(lia)) as R.
  destruct (conv_loop_spec 5 8 n [] 0 0 0 0 q) as (em & buff & bits & E & L & [Hb Hbits Hd Ht Hv]);
    [lia|lia|apply conv_start|lia|exact Hq|lia|].
  change (filled n []) with (replicate (n - 0) 0) in E. rewrite Nat.sub_0_r in E. cbn [length] in E. rewrite E.
  cbn [mbind option_bind]. assert (Ln : n = length em) by lia. unfold filled. rewrite Ln, Nat.sub_diag, app_nil_r.
  exists em, buff, bits. rewrite Z.mul_0_l, Z.add_0_l in Hv. split_and!; [done|done|lia|lia|lia|lia|lia|lia].
Qed.

Lemma conv_roundtrip p q : bytes_ok p -> conv8to5 p = Some q -> conv5to8 q = Some p /\ digits 5 q.
Proof.
  intros Hp E. destruct (conv8to5_spec p Hp) as (q' & pad & E' & Hd & Hpad & Hl & Hv).
  rewrite E in E'. injection E' as <-. split; [|done].
  destruct (conv5to8_spec q Hd) as (p' & buff & bits & Ep & Hd' & Hbits & Hb & Hl' & Hv').
  rewrite Ep. f_equal. assert (bits = pad) as -> by lia.
  apply (digits_inj 8); [lia|done|exact Hp|lia|].
  pose proof (Z.pow_pos_nonneg 2 pad ltac:(lia) ltac:(lia)). nia.
Qed.

(** * Charset and checksum *)

Lemma charset_symbol c :
  0 <= c < 2 ^ 5 ->
  exists b, CHARSET !! Z.to_nat c = Some b /\ default 100 (REV_CHARSET !! Z.to_nat b) = c.
Proof.
  intros Hc.
  assert (D : Forall (fun i => match CHARSET !! i with
                | Some b => default 100 (REV_CHARSET !! Z.to_nat b) = Z.of_nat i
                | None => False end) (seq 0 32)).
  { repeat constructor. }
  rewrite Forall_forall in D. specialize (D (Z.to_nat c)). change (2 ^ 5) with 32 in Hc.
  rewrite elem_of_seq in D. specialize (D ltac:(lia)). rewrite Z2Nat.id in D by lia.
  destruct (CHARSET !! Z.to_nat c) as [b|]; [|done]. by exists b.
Qed.

Lemma charset_roundtrip l :
  digits 5 l -> exists s, charset_map l = Some s /\ rev_charset_map s = Ok l /\ length s = length l.
Proof.
  induction 1 as [|c l Hc Hl (s & E & R & L)]; [by exists []|].
  destruct (charset_symbol c Hc) as (b & Eb & Rb). exists (b :: s). unfold charset_map in *. cbn [mapM].
  rewrite Eb, E. split; [done|]. split; [|simpl; lia]. cbn [rev_charset_map]. rewrite Rb, R.
  destruct (Z.eqb_spec c 100); [|done]. change (2 ^ 5) with 32 in Hc. lia.
Qed.

Lemma lxor_bound a b n : 0 <= n -> 0 <= a < 2 ^ n -> 0 <= b < 2 ^ n -> 0 <= Z.lxor a b < 2 ^ n.
Proof.
  intros Hn Ha Hb. split; [apply Z.lxor_nonneg; lia|].
  assert (H : Z.lxor a b = Z.lxor a b mod 2 ^ n).
  { apply Z.bits_inj'. intros i Hi. destruct (Z.lt_ge_cases i n).
    - by rewrite Z.mod_pow2_bits_low.
    - rewrite Z.mod_pow2_bits_high, Z.lxor_spec by lia. rewrite <-(Z.mod_small a (2 ^ n)) by lia.
      rewrite <-(Z.mod_small b (2 ^ n)) by lia. by rewrite !Z.mod_pow2_bits_high. }
  rewrite H. apply Z.mod_pos_bound. lia.
Qed.

Lemma polymod_step_bound c d : 0 <= c -> 0 <= d < 2 ^ 5 -> 0 <= polymod_step c d < 2 ^ 40.
Proof.
  intros Hc Hd. unfold polymod_step.
  assert (H0 : 0 <= Z.lxor (Z.shiftl (Z.land c 34359738367) 5) d < 2 ^ 40).
  { apply lxor_bound; [lia| |change (2 ^ 5) with 32 in Hd; lia].
    change 34359738367 with (Z.ones 35). rewrite Z.land_ones, Z.shiftl_mul_pow2 by lia.
    pose proof (Z.mod_pos_bound c (2 ^ 35)). change (2 ^ 40) with (2 ^ 35 * 2 ^ 5). lia. }
  repeat (case_match; [apply lxor_bound; [lia| |lia]|]); exact H0.
Qed.

Lemma checksum_bound payload prefix :
  digits 5 payload -> digits 5 prefix -> 0 <= checksum payload prefix < 2 ^ 40.
Proof.
  intros Hp Hx. unfold checksum, polymod. apply lxor_bound; [lia| |lia].
  assert (D : digits 5 (prefix ++ [0] ++ payload ++ replicate 8 0)).
  { repeat apply Forall_app_2; [done|by repeat constructor|done|by repeat constructor]. }
  revert D. generalize (prefix ++ [0] ++ payload ++ replicate 8 0). intros l.
  assert (H : forall c, 0 <= c < 2 ^ 40 -> digits 5 l -> 0 <= foldl polymod_step c l < 2 ^ 40).
  { induction l as [|d l IH]; intros c Hc D; [done|]. apply Forall_cons in D as [Hd D].
    apply IH; [|done]. apply polymod_step_bound; [lia|done]. }
  intros D. apply H; [lia|done].
Qed.

Lemma to_le_add a b x : to_le (a + b) x = to_le a x ++ to_le b (x / 256 ^ Z.of_nat a).
Proof.
  revert x. induction a as [|a IH]; intros x; cbn [to_le Nat.add app]; [by rewrite Z.div_1_r|].
  rewrite IH, pow256_S, Z.div_div; [done|lia|apply pow256_pos].
Qed.

Lemma from_be_app l1 l2 : from_be (l1 ++ l2) = from_be l1 * 256 ^ Z.of_nat (length l2) + from_be l2.
Proof.
  induction l1 as [|x l1 IH]; simpl; [lia|]. rewrite IH, length_app, Nat2Z.inj_add, Z.pow_add_r by lia. ring.
Qed.

Lemma digits_from_be_reverse l : from_be (reverse l) = from_le l.
Proof.
  induction l as [|x l IH]; [done|]. rewrite reverse_cons, from_be_app, IH. simpl. lia.
Qed.

(** The 40-bit checksum in its five low bytes. *)
Lemma checksum_bytes x :
  0 <= x < 2 ^ 40 ->
  bytes_ok (drop 3 (to_be_bytes x)) /\ length (drop 3 (to_be_bytes x)) = 5%nat /\
  from_be (replicate 3 0 ++ drop 3 (to_be_bytes x)) = x.
Proof.
  intros Hx. assert (E : to_be_bytes x = replicate 3 0 ++ reverse (to_le 5 x)).
  { unfold to_be_bytes. change 8%nat with (5 + 3)%nat. rewrite to_le_add, reverse_app.
    change (256 ^ Z.of_nat 5) with (2 ^ 40). by rewrite Z.div_small by lia. }
  rewrite E, drop_app_length'; [|done]. rewrite length_reverse, length_to_le. split; [|split; [done|]].
  - apply Forall_reverse, to_le_ok.
  - rewrite from_be_app, digits_from_be_reverse, from_to_le_small by (change (256 ^ Z.of_nat 5) with (2 ^ 40); lia). done.
Qed.

Lemma fivebit_prefix_digits p : digits 5 (fivebit_prefix p).
Proof. destruct p; by repeat constructor. Qed.

Lemma split_prefix p rest : split_once 49 (prefix_as_str p ++ [49] ++ rest) = Some (prefix_as_str p, rest).
Proof. by destruct p. Qed.

Lemma prefix_roundtrip p : prefix_try_from (prefix_as_str p) = Ok p.
Proof. by destruct p. Qed.

Lemma version_roundtrip v : version_try_from (version_byte v) = Ok v.
Proof. by destruct v. Qed.

(** Printing: the five-bit payload [f] and the checksum symbols [g] of the text [s]. *)
Lemma encode_payload_spec (a : Address) :
  bytes_ok (addr_payload a) ->
  let sum f := checksum f (fivebit_prefix (addr_prefix a)) in
  exists f g s, encode_payload a = Some s /\
    conv5to8 f = Some (version_byte (addr_version a) :: addr_payload a) /\
    conv5to8 g = Some (drop 3 (to_be_bytes (sum f))) /\ length g = 8%nat /\
    rev_charset_map s = Ok (f ++ g) /\ length s = (length f + 8)%nat /\
    length (drop 3 (to_be_bytes (sum f))) = 5%nat /\
    from_be (replicate 3 0 ++ drop 3 (to_be_bytes (sum f))) = sum f.
Proof.
  intros Ha sum. assert (Hp : bytes_ok (version_byte (addr_version a) :: addr_payload a)).
  { constructor; [|done]. by destruct (addr_version a). }
  destruct (conv8to5_spec _ Hp) as (f & _ & Ef & _). destruct (conv_roundtrip _ _ Hp Ef) as [Rf Df].
  destruct (checksum_bytes (sum f)) as (Hb & Lb & Vb); [apply checksum_bound; [done|apply fivebit_prefix_digits]|].
  destruct (conv8to5_spec _ Hb) as (g & pad & Eg & _ & Hpad & Lg & _). destruct (conv_roundtrip _ _ Hb Eg) as [Rg Dg].
  rewrite Lb in Lg. assert (Lg8 : length g = 8%nat) by lia.
  destruct (charset_roundtrip (f ++ g)) as (s & Es & Rs & Ls); [by apply Forall_app_2|].
  exists f, g, s. split_and!; try done; [|by rewrite Ls, length_app, Lg8].
  unfold encode_payload. rewrite Ef. cbn [mbind option_bind]. fold (sum f). rewrite Eg. cbn [mbind option_bind].
  by rewrite Es.
Qed.

(** Parsing a printed address returns it: for every network, version and payload of
    bytes, printing succeeds and [TryFrom<&str>] on the result gives back the address,
    provided the payload has the length of its version. With any other length the text
    has a valid checksum and parses up to [Address::new], whose assertion panics. *)
Theorem address_roundtrip (a : Address) :
  bytes_ok (addr_payload a) ->
  exists text, address_to_string a = Some text /\
    address_try_from text =
      if (length (addr_payload a) =? public_key_len (addr_version a))%nat then Ok a else Err Panic.
Proof.
  intros Ha. destruct (encode_payload_spec a Ha) as (f & g & s & Es & Rf & Rg & Lg & Rs & Ls & Lb & Vb).
  set (sum := checksum f (fivebit_prefix (addr_prefix a))) in *.
  exists (prefix_as_str (addr_prefix a) ++ [49] ++ s). split; [unfold address_to_string; by rewrite Es|].
  unfold address_try_from. rewrite split_prefix, prefix_roundtrip. cbn [faulty mbind result_bind].
  unfold decode_payload. rewrite Rs. cbn [faulty mbind result_bind].
  rewrite Ls. destruct (Nat.ltb_spec (length f + 8) 8); [lia|].
  replace (length f + 8 - 8)%nat with (length f) by lia. rewrite take_app_length, drop_app_length, Rg.
  cbn [ok_or mbind result_bind]. rewrite length_app, Lb. cbn [length replicate Nat.add Nat.eqb negb].
  change ([0; 0; 0] ++ drop 3 (to_be_bytes sum)) with (replicate 3 0 ++ drop 3 (to_be_bytes sum)).
  rewrite Vb. fold sum. rewrite Z.eqb_refl. cbn [negb]. rewrite Rf. cbn [ok_or mbind result_bind].
  rewrite version_roundtrip. cbn [faulty mbind result_bind]. unfold Address_new.
  destruct (length (addr_payload a) =? _)%nat; [by destruct a|done].
Qed.

Lemma address_roundtrip_witness :
  exists text,
    address_to_string {| addr_prefix := Testnet; addr_version := PubKeyDilithium; addr_payload := replicate 20 7 |} = Some text /\
    address_try_from text =
      if (length (replicate 20 7) =? public_key_len PubKeyDilithium)%nat
      then Ok {| addr_prefix := Testnet; addr_version := PubKeyDilithium; addr_payload := replicate 20 7 |} else Err Panic.
Proof.
  apply (address_roundtrip {| addr_prefix := Testnet; addr_version := PubKeyDilithium; addr_payload := replicate 20 7 |}).
  by repeat constructor.
Defined.
