(* ===== verification/Cache.v ===== *)
(** The bounded cache in front of every database store (database/src/cache.rs).

    The [IndexMap] field [map] is the list [entries], in index order. The evicted index comes
    from [rand::thread_rng().gen_range(0..n)], the parameter [gen_range]: its
    first argument is the number of draws made so far, which [Inner] counts. The
    item sizes ([MemSizeEstimator]) are the parameter [estimate_size]. The lemmas
    show that a cache never holds anything but what was last inserted, that its
    bound holds after every operation, and that the tracked size is the sum of the
    item sizes. *)

From S2P Require Import Prelude.

Inductive MemMode := Bytes | Units | Undefined.

Inductive CachePolicy :=
| Empty
| Count (max_size : Z)
| Tracked (max_size min_items : Z) (mem_mode : MemMode).

Record CachePolicyInner := {
  tracked : bool;
  max_size : Z;
  min_items : Z;
  mem_mode : MemMode;
}.

Definition policy_from (policy : CachePolicy) : CachePolicyInner :=
  match policy with
  | Empty => {| tracked := false; max_size := 0; min_items := 0; mem_mode := Undefined |}
  | Count n => {| tracked := false; max_size := n; min_items := 0; mem_mode := Undefined |}
  | Tracked n m mode => {| tracked := true; max_size := n; min_items := m; mem_mode := mode |}
  end.

(** * IndexMap *)

Section index_map.
Context {K V : Type} `{EqDecision K}.

Fixpoint im_get (m : list (K * V)) (k : K) : option V :=
  match m with
  | [] => None
  | (k', v) :: m' => if decide (k = k') then Some v else im_get m' k
  end.

(** [insert]: in place when the key is present, at the end otherwise; the old value. *)
Fixpoint im_insert (m : list (K * V)) (k : K) (v : V) : list (K * V) * option V :=
  match m with
  | [] => ([(k, v)], None)
  | (k', v') :: m' =>
      if decide (k = k') then ((k, v) :: m', Some v')
      else let '(r, old) := im_insert m' k v in ((k', v') :: r, old)
  end.

(** [swap_remove_index]: the last entry takes the place of the removed one. *)
Definition im_swap_remove_index (m : list (K * V)) (i : nat) : list (K * V) * option (K * V) :=
  match m !! i, last m with
  | Some e, Some l => (take (pred (length m)) (<[i := l]> m), Some e)
  | _, _ => (m, None)
  end.

Fixpoint im_index (m : list (K * V)) (k : K) : option nat :=
  match m with
  | [] => None
  | (k', _) :: m' => if decide (k = k') then Some 0%nat else S <$> im_index m' k
  end.

Definition im_swap_remove (m : list (K * V)) (k : K) : list (K * V) * option V :=
  match im_index m k with
  | Some i => let '(r, e) := im_swap_remove_index m i in (r, snd <$> e)
  | None => (m, None)
  end.

End index_map.

(** * The cache *)

Section cache.
Context {K V : Type} `{Countable K}.
Context (gen_range : nat -> nat -> nat).
Context (estimate_size : MemMode -> V -> Z).

Record Inner := { entries : list (K * V); tracked_size : Z; draws : nat }.

(** [tracked_evict]; each turn removes an entry, so the number of entries is
    enough fuel. *)
Fixpoint tracked_evict (fuel : nat) (policy : CachePolicyInner) (s : Inner) : Inner :=
  match fuel with
  | O => s
  | S fuel' =>
      if (max_size policy <? tracked_size s) && (min_items policy <? Z.of_nat (length (entries s)))
      then
        let '(m, e) := im_swap_remove_index (entries s) (gen_range (draws s) (length (entries s))) in
        tracked_evict fuel' policy
          {| entries := m;
             tracked_size := match e with
                             | Some (_, v) => wsub64 (tracked_size s) (estimate_size (mem_mode policy) v)
                             | None => tracked_size s
                             end;
             draws := S (draws s) |}
      else s
  end.

Definition evict (policy : CachePolicyInner) (s : Inner) : Inner :=
  tracked_evict (length (entries s)) policy s.

Definition inner_insert (policy : CachePolicyInner) (k : K) (v : V) (s : Inner) : Inner :=
  if tracked policy then
    let size1 := wadd64 (tracked_size s) (estimate_size (mem_mode policy) v) in
    let '(m, removed) := im_insert (entries s) k v in
    let size2 := match removed with
                 | Some old => wsub64 size1 (estimate_size (mem_mode policy) old)
                 | None => size1
                 end in
    evict policy {| entries := m; tracked_size := size2; draws := draws s |}
  else
    let '(m, d) :=
      if Z.of_nat (length (entries s)) =? max_size policy
      then ((im_swap_remove_index (entries s) (gen_range (draws s) (length (entries s)))).1, S (draws s))
      else (entries s, draws s) in
    {| entries := (im_insert m k v).1; tracked_size := tracked_size s; draws := d |}.

Definition inner_update_if_entry_exists (policy : CachePolicyInner) (k : K) (op : V -> V)
    (s : Inner) : Inner :=
  match im_get (entries s) k with
  | Some v =>
      let m := (im_insert (entries s) k (op v)).1 in
      if tracked policy then
        let size1 := wsub64 (tracked_size s) (estimate_size (mem_mode policy) v) in
        let size2 := wadd64 size1 (estimate_size (mem_mode policy) (op v)) in
        evict policy {| entries := m; tracked_size := size2; draws := draws s |}
      else {| entries := m; tracked_size := tracked_size s; draws := draws s |}
  | None => s
  end.

Definition inner_remove (policy : CachePolicyInner) (k : K) (s : Inner) : Inner * option V :=
  let '(m, removed) := im_swap_remove (entries s) k in
  match removed with
  | Some v =>
      ({| entries := m;
          tracked_size := if tracked policy
                          then wsub64 (tracked_size s) (estimate_size (mem_mode policy) v)
                          else tracked_size s;
          draws := draws s |}, Some v)
  | None => ({| entries := m; tracked_size := tracked_size s; draws := draws s |}, None)
  end.

Definition inner_new : Inner := {| entries := []; tracked_size := 0; draws := 0 |}.

(** [Cache]: the policy is fixed at construction, the inner state is behind the lock. *)
Section methods.
Context (policy : CachePolicyInner).

Definition cache_get (k : K) (s : Inner) : option V := im_get (entries s) k.
Definition cache_contains_key (k : K) (s : Inner) : bool := bool_decide (is_Some (im_get (entries s) k)).

Definition cache_insert (k : K) (v : V) (s : Inner) : Inner :=
  if max_size policy =? 0 then s else inner_insert policy k v s.

Definition cache_insert_many (items : list (K * V)) (s : Inner) : Inner :=
  if max_size policy =? 0 then s
  else foldl (fun s '(k, v) => inner_insert policy k v s) s items.

Definition cache_update_if_entry_exists (k : K) (op : V -> V) (s : Inner) : Inner :=
  if max_size policy =? 0 then s else inner_update_if_entry_exists policy k op s.

Definition cache_remove (k : K) (s : Inner) : Inner * option V :=
  if max_size policy =? 0 then (s, None) else inner_remove policy k s.

Definition cache_remove_many (keys : list K) (s : Inner) : Inner :=
  if max_size policy =? 0 then s
  else foldl (fun s k => (inner_remove policy k s).1) s keys.

Definition cache_remove_all (s : Inner) : Inner :=
  if max_size policy =? 0 then s
  else {| entries := []; tracked_size := if tracked policy then 0 else tracked_size s; draws := draws s |}.

End methods.
End cache.

Arguments Inner : clear implicits.

(** * Properties of the index map *)

Section index_map_facts.
Context {K V : Type} `{Countable K}.
Implicit Types (m : list (K * V)).

Lemma im_get_map m k : im_get m k = (list_to_map m : gmap K V) !! k.
Proof.
  induction m as [|[k' v] m IH]; [done|]. cbn [im_get list_to_map foldr].
  case_decide; simplify_map_eq; auto.
Qed.

Lemma im_insert_spec m k v :
  (list_to_map (im_insert m k v).1 : gmap K V) = <[k := v]> (list_to_map m) /\
  (im_insert m k v).2 = im_get m k.
Proof.
  induction m as [|[k' v'] m [IH1 IH2]]; [done|]. cbn [im_insert im_get].
  case_decide as E.
  - subst k'. split; [|done]. simpl. by rewrite insert_insert_eq.
  - destruct (im_insert m k v) as [r old]. simpl in *. split; [|done].
    rewrite IH1. by rewrite insert_insert_ne.
Qed.

Lemma im_insert_perm m k v :
  match im_get m k with
  | None => (im_insert m k v).1 = m ++ [(k, v)]
  | Some v' => exists r, m ≡ₚ (k, v') :: r /\ (im_insert m k v).1 ≡ₚ (k, v) :: r
  end.
Proof.
  induction m as [|[k' v'] m IH]; [done|]. cbn [im_insert im_get].
  case_decide as E.
  - subst k'. by exists m.
  - destruct (im_insert m k v) as [r old]. simpl in *.
    destruct (im_get m k) as [w|]; [|by f_equal].
    destruct IH as (r' & E1 & E2). exists ((k', v') :: r'). rewrite E1, E2.
    split; apply Permutation_swap.
Qed.

Lemma im_get_None m k : im_get m k = None <-> k ∉ m.*1.
Proof. rewrite im_get_map. symmetry. apply not_elem_of_list_to_map. Qed.

Lemma im_insert_NoDup m k v : NoDup m.*1 -> NoDup (im_insert m k v).1.*1.
Proof.
  intros Hm. pose proof (im_insert_perm m k v) as P. destruct (im_get m k) eqn:E.
  - destruct P as (r & E1 & E2). rewrite E2. simpl. by rewrite E1 in Hm.
  - rewrite P. rewrite fmap_app. apply NoDup_app. split; [done|]. apply im_get_None in E.
    split; [|simpl; apply NoDup_singleton]. set_solver.
Qed.

Lemma im_swap_remove_index_spec m i :
  (i < length m)%nat ->
  exists e, m !! i = Some e /\ (im_swap_remove_index m i).2 = Some e /\
            m ≡ₚ e :: (im_swap_remove_index m i).1.
Proof.
  intros Hi. destruct (lookup_lt_is_Some_2 m i Hi) as [e He].
  exists e. unfold im_swap_remove_index. rewrite He.
  destruct m as [|x m _] using rev_ind; [simpl in Hi; lia|].
  rewrite last_snoc. split; [done|]. split; [done|]. simpl.
  rewrite length_app in *. simpl in *.
  replace (pred (length m + 1)) with (length m) by lia.
  destruct (decide (i = length m)) as [->|Hne].
  - rewrite lookup_app_r in He by lia. rewrite Nat.sub_diag in He. simplify_eq/=.
    rewrite insert_app_r_alt by lia. rewrite take_app_le by lia.
    rewrite take_ge by lia. rewrite (Permutation_app_comm m). done.
  - rewrite lookup_app_l in He by lia. rewrite insert_app_l by lia.
    rewrite take_app_le by (rewrite length_insert; lia).
    rewrite take_ge by (rewrite length_insert; lia).
    rewrite (Permutation_app_comm m). simpl.
    rewrite insert_take_drop by lia. rewrite <-(take_drop_middle _ _ _ He) at 1.
    rewrite <-!Permutation_middle. apply Permutation_swap.
Qed.

Lemma im_index_spec m k :
  match im_index m k with
  | Some i => exists v, m !! i = Some (k, v) /\ im_get m k = Some v
  | None => im_get m k = None
  end.
Proof.
  induction m as [|[k' v] m IH]; [done|]. cbn [im_index im_get].
  case_decide as E; [subst; by exists v|].
  destruct (im_index m k) as [i|]; simpl; [|done]. destruct IH as [w IH]. by exists w.
Qed.

Lemma im_swap_remove_spec m k :
  match im_get m k with
  | Some v => (im_swap_remove m k).2 = Some v /\ m ≡ₚ (k, v) :: (im_swap_remove m k).1
  | None => im_swap_remove m k = (m, None)
  end.
Proof.
  unfold im_swap_remove. pose proof (im_index_spec m k) as I.
  destruct (im_index m k) as [i|]; [|by rewrite I].
  destruct I as (v & L & ->).
  destruct (im_swap_remove_index_spec m i) as (e & L' & E2 & P); [by eapply lookup_lt_Some|].
  simplify_eq. destruct (im_swap_remove_index m i) as [r o]. simpl in *. by subst.
Qed.

(** An entry removed from a duplicate-free list leaves its map. *)
Lemma perm_cons_map m k v r :
  NoDup m.*1 -> m ≡ₚ (k, v) :: r ->
  NoDup (r.*1) /\ (k ∉ r.*1) /\
  (list_to_map r : gmap K V) = delete k (list_to_map m).
Proof.
  intros Hm P. pose proof Hm as Hm'. rewrite P in Hm'. simpl in Hm'.
  apply NoDup_cons in Hm' as [Hk Hr]. split; [done|]. split; [done|].
  rewrite (list_to_map_proper _ _ Hm P). simpl.
  rewrite delete_insert_eq. symmetry. apply delete_id. by apply not_elem_of_list_to_map.
Qed.

End index_map_facts.

(** * Properties of the cache *)

Section cache_facts.
Context {K V : Type} `{Countable K}.
Context (gen_range : nat -> nat -> nat).
Context (estimate_size : MemMode -> V -> Z).
Context (gen_range_lt : forall i n, (0 < n)%nat -> (gen_range i n < n)%nat).
Context (size_nonneg : forall mode v, 0 <= estimate_size mode v).
Context (policy : CachePolicyInner).
Implicit Types (s : Inner K V).

Definition contents s : gmap K V := list_to_map (entries s).

Definition total_size (m : list (K * V)) : Z :=
  foldr (fun e acc => estimate_size (mem_mode policy) e.2 + acc) 0 m.

(** Distinct keys, and in tracked mode the running size is the sum of the sizes. *)
Definition sized s : Prop :=
  NoDup (entries s).*1 /\
  (tracked policy = true -> tracked_size s = total_size (entries s) /\ tracked_size s < 2 ^ 64).

(** The sizes held in memory, the new item included, fit a [usize]. *)
Definition fits (v : V) s : Prop :=
  tracked policy = true ->
  total_size (entries s) + estimate_size (mem_mode policy) v < 2 ^ 64.

Definition within_bound s : Prop :=
  if tracked policy
  then tracked_size s <= max_size policy \/ Z.of_nat (length (entries s)) <= min_items policy
  else Z.of_nat (length (entries s)) <= max_size policy.

Definition cache_wf s : Prop :=
  sized s /\ within_bound s /\ (max_size policy = 0 -> entries s = []).

Lemma total_size_perm m1 m2 : m1 ≡ₚ m2 -> total_size m1 = total_size m2.
Proof. induction 1; simpl; lia. Qed.

Lemma cache_get_contents k s : cache_get k s = contents s !! k.
Proof. apply im_get_map. Qed.

Lemma total_size_nonneg m : 0 <= total_size m.
Proof. induction m as [|e m IH]; simpl; [done|]. pose proof (size_nonneg (mem_mode policy) e.2). lia. Qed.

Lemma tracked_evict_spec fuel s :
  0 <= min_items policy -> tracked policy = true ->
  sized s -> (length (entries s) <= fuel)%nat ->
  sized (tracked_evict gen_range estimate_size fuel policy s) /\
  within_bound (tracked_evict gen_range estimate_size fuel policy s) /\
  contents (tracked_evict gen_range estimate_size fuel policy s) ⊆ contents s.
Proof.
  intros Hmin Ht. unfold within_bound. rewrite Ht.
  revert s. induction fuel as [|fuel IH]; intros s [Hnd Hsz] Hf; simpl.
  { split; [by split|]. split; [right; lia|done]. }
  destruct (Z.ltb_spec (max_size policy) (tracked_size s)) as [Hl|Hl]; simpl;
    [|split; [by split|split; [lia|done]]].
  destruct (Z.ltb_spec (min_items policy) (Z.of_nat (length (entries s)))); simpl;
    [|split; [by split|split; [lia|done]]].
  destruct (im_swap_remove_index_spec (entries s) (gen_range (draws s) (length (entries s))))
    as ([k v] & _ & E2 & P); [apply gen_range_lt; lia|].
  destruct (im_swap_remove_index _ _) as [r o]. simpl in *. subst o.
  destruct (perm_cons_map _ _ _ _ Hnd P) as (Hr & _ & Em).
  edestruct IH as (S1 & S2 & S3); [| |split; [exact S1|split; [exact S2|]]].
  - split; [done|]. intros _. simpl. apply total_size_perm in P. simpl in P.
    destruct Hsz as [Hsz Hlt]; [done|]. pose proof (total_size_nonneg r).
    pose proof (size_nonneg (mem_mode policy) v). rewrite wsub64_small by lia. lia.
  - simpl. apply Permutation_length in P. simpl in P. lia.
  - etrans; [exact S3|]. unfold contents at 1. simpl. rewrite Em. apply delete_subseteq.
Qed.

Lemma evict_spec s :
  0 <= min_items policy -> tracked policy = true -> sized s ->
  sized (evict gen_range estimate_size policy s) /\
  within_bound (evict gen_range estimate_size policy s) /\
  contents (evict gen_range estimate_size policy s) ⊆ contents s.
Proof. intros. by apply tracked_evict_spec. Qed.

(** Replacing or adding an entry adjusts the sum by the two sizes. *)
Lemma total_size_insert m k v :
  total_size (im_insert m k v).1 =
  total_size m + estimate_size (mem_mode policy) v
  - match im_get m k with Some old => estimate_size (mem_mode policy) old | None => 0 end.
Proof.
  pose proof (im_insert_perm m k v) as P. destruct (im_get m k) as [old|].
  - destruct P as (r & E1 & E2). rewrite (total_size_perm _ _ E2), (total_size_perm _ _ E1).
    simpl. lia.
  - rewrite P. rewrite (total_size_perm _ _ (Permutation_app_comm m [(k, v)])). simpl. lia.
Qed.

Lemma im_get_size m k v : im_get m k = Some v -> estimate_size (mem_mode policy) v <= total_size m.
Proof.
  intros G. pose proof (im_insert_perm m k v) as P. rewrite G in P. destruct P as (r & P & _).
  rewrite (total_size_perm _ _ P). simpl. pose proof (total_size_nonneg r). lia.
Qed.

Lemma length_im_insert (m : list (K * V)) k v :
  length (im_insert m k v).1 = (length m + if im_get m k is Some _ then 0 else 1)%nat.
Proof.
  pose proof (im_insert_perm m k v) as P. destruct (im_get m k) as [old|].
  - destruct P as (r & E1 & E2). apply Permutation_length in E1, E2. simpl in *. lia.
  - rewrite P, length_app. done.
Qed.

Lemma inner_insert_spec k v s :
  0 < max_size policy -> 0 <= min_items policy -> cache_wf s -> fits v s ->
  cache_wf (inner_insert gen_range estimate_size policy k v s) /\
  contents (inner_insert gen_range estimate_size policy k v s) ⊆ <[k := v]> (contents s).
Proof.
  intros Hmax Hmin [[Hnd Hsz] [Hb _]] Hfit. unfold inner_insert, within_bound in *.
  pose proof (total_size_insert (entries s) k v) as T.
  pose proof (im_insert_NoDup (entries s) k v Hnd) as ND.
  pose proof (im_insert_spec (entries s) k v) as [E1 E2].
  destruct (tracked policy) eqn:Ht.
  - destruct (im_insert (entries s) k v) as [m old]. simpl in *.
    edestruct evict_spec as (S1 & S2 & S3); [done|done| |
      split; [split; [exact S1|split; [exact S2|lia]]|]].
    + split; [done|]. intros _. cbn [tracked_size entries].
      destruct Hsz as [Hsz Hlt]; [done|]. specialize (Hfit Ht).
      pose proof (size_nonneg (mem_mode policy) v). pose proof (total_size_nonneg (entries s)).
      pose proof (total_size_nonneg m). subst old. rewrite wadd64_small by lia.
      destruct (im_get (entries s) k) as [w|].
      * pose proof (size_nonneg (mem_mode policy) w). rewrite wsub64_small by lia. lia.
      * lia.
    + etrans; [exact S3|]. unfold contents at 1. simpl. by rewrite E1.
  - destruct (Z.eqb_spec (Z.of_nat (length (entries s))) (max_size policy)) as [He|He]; simpl.
    + destruct (im_swap_remove_index_spec (entries s) (gen_range (draws s) (length (entries s))))
        as ([k' v'] & _ & _ & P); [apply gen_range_lt; lia|].
      destruct (im_swap_remove_index _ _) as [r o]. simpl in *.
      destruct (perm_cons_map _ _ _ _ Hnd P) as (Hr & _ & Em).
      pose proof (im_insert_spec r k v) as [E1' _].
      split; [split; [split|split]|]; simpl; auto; try lia.
      * by apply im_insert_NoDup.
      * by rewrite Ht.
      * unfold within_bound. rewrite Ht. simpl. rewrite length_im_insert.
        apply Permutation_length in P. simpl in P. destruct (im_get r k); lia.
      * unfold contents at 1. simpl. rewrite E1', Em. apply insert_mono, delete_subseteq.
    + split; [split; [split|split]|]; simpl; auto; try lia.
      * by rewrite Ht.
      * unfold within_bound. rewrite Ht. simpl. rewrite length_im_insert.
        destruct (im_get (entries s) k); lia.
      * unfold contents at 1. simpl. by rewrite E1.
Qed.

(** With room to spare in count mode nothing is evicted. *)
Lemma inner_insert_room k v s :
  tracked policy = false -> Z.of_nat (length (entries s)) < max_size policy ->
  contents (inner_insert gen_range estimate_size policy k v s) = <[k := v]> (contents s).
Proof.
  intros Ht Hl. unfold inner_insert. rewrite Ht.
  destruct (Z.eqb_spec (Z.of_nat (length (entries s))) (max_size policy)); [lia|].
  apply im_insert_spec.
Qed.

Lemma cache_insert_spec k v s :
  0 <= max_size policy -> 0 <= min_items policy -> cache_wf s -> fits v s ->
  cache_wf (cache_insert gen_range estimate_size policy k v s) /\
  contents (cache_insert gen_range estimate_size policy k v s) ⊆ <[k := v]> (contents s).
Proof.
  intros Hmax Hmin Hs Hfit. unfold cache_insert. destruct (Z.eqb_spec (max_size policy) 0) as [E|E].
  - split; [done|]. destruct Hs as (_ & _ & Hz). unfold contents. rewrite Hz by done.
    apply map_empty_subseteq.
  - apply inner_insert_spec; auto. lia.
Qed.

Lemma inner_update_spec k op s :
  0 <= min_items policy -> 0 < max_size policy -> cache_wf s ->
  (forall v, contents s !! k = Some v -> fits (op v) s) ->
  cache_wf (inner_update_if_entry_exists gen_range estimate_size policy k op s) /\
  contents (inner_update_if_entry_exists gen_range estimate_size policy k op s)
    ⊆ alter op k (contents s).
Proof.
  intros Hmin Hmax [[Hnd Hsz] [Hb Hz]] Hfit. unfold inner_update_if_entry_exists.
  destruct (im_get (entries s) k) as [v|] eqn:G.
  2:{ split; [done|]. rewrite alter_id; [done|]. intros x Hx.
      rewrite <-cache_get_contents in Hx. unfold cache_get in Hx. congruence. }
  pose proof G as G'. rewrite im_get_map in G'. specialize (Hfit _ G').
  pose proof (total_size_insert (entries s) k (op v)) as T.
  pose proof (im_insert_NoDup (entries s) k (op v) Hnd) as ND.
  pose proof (im_insert_spec (entries s) k (op v)) as [E1 _].
  assert (A : <[k := op v]> (contents s) = alter op k (contents s)).
  { apply map_eq. intros j. fold (contents s) in G'. destruct (decide (j = k)) as [->|];
      by simplify_map_eq. }
  unfold within_bound in *. destruct (tracked policy) eqn:Ht.
  - edestruct evict_spec as (S1 & S2 & S3); [done|done| |
      split; [split; [exact S1|split; [exact S2|lia]]|]].
    + split; [done|]. intros _. cbn [tracked_size entries]. rewrite G in T.
      destruct Hsz as [Hsz Hlt]; [done|]. specialize (Hfit Ht).
      pose proof (total_size_nonneg (im_insert (entries s) k (op v)).1).
      pose proof (size_nonneg (mem_mode policy) v).
      pose proof (size_nonneg (mem_mode policy) (op v)).
      pose proof (im_get_size (entries s) k v G).
      rewrite (wsub64_small (tracked_size s)) by lia. rewrite wadd64_small by lia. lia.
    + etrans; [exact S3|]. rewrite <-A. unfold contents at 1. simpl. by rewrite E1.
  - split; [split; [split|split]|]; simpl; auto; try lia.
    + by rewrite Ht.
    + unfold within_bound. rewrite Ht. simpl. rewrite length_im_insert, G. lia.
    + rewrite <-A. unfold contents at 1. simpl. by rewrite E1.
Qed.

Lemma inner_remove_spec k s :
  0 < max_size policy -> cache_wf s ->
  cache_wf (inner_remove estimate_size policy k s).1 /\
  contents (inner_remove estimate_size policy k s).1 = delete k (contents s) /\
  (inner_remove estimate_size policy k s).2 = contents s !! k.
Proof.
  intros Hmax [[Hnd Hsz] [Hb Hz]]. unfold inner_remove.
  pose proof (im_swap_remove_spec (entries s) k) as R. rewrite im_get_map in R.
  fold (contents s) in R. destruct (contents s !! k) as [v|] eqn:G.
  2:{ rewrite R. simpl. split; [exact (conj (conj Hnd Hsz) (conj Hb Hz))|]. split; [|done].
      symmetry. by apply delete_id. }
  destruct R as [R1 R2]. destruct (im_swap_remove (entries s) k) as [m o]. simpl in *. subst o. simpl.
  destruct (perm_cons_map _ _ _ _ Hnd R2) as (Hr & _ & Em).
  split; [|done]. split; [|split; [|simpl; lia]].
  - split; [done|]. intros Ht. cbn [tracked_size entries]. rewrite Ht.
    destruct Hsz as [Hsz Hlt]; [done|]. apply total_size_perm in R2. simpl in R2.
    pose proof (total_size_nonneg m). pose proof (size_nonneg (mem_mode policy) v).
    rewrite wsub64_small by lia. lia.
  - unfold within_bound in *. cbn [tracked_size entries].
    pose proof (Permutation_length R2) as L. simpl in L.
    destruct (tracked policy) eqn:Ht; [|lia]. destruct Hb as [Hb|Hb]; [|right; lia]. left.
    destruct Hsz as [Hsz Hlt]; [done|]. apply total_size_perm in R2. simpl in R2.
    pose proof (total_size_nonneg m). pose proof (size_nonneg (mem_mode policy) v).
    rewrite wsub64_small by lia. lia.
Qed.

Lemma length_entries s : NoDup (entries s).*1 -> length (entries s) = size (contents s).
Proof. intros. unfold contents. by rewrite map_size_list_to_map. Qed.

Lemma cache_new_wf : 0 <= max_size policy -> cache_wf inner_new.
Proof.
  intros. split; [split; [constructor|done]|]. split; [|done].
  unfold within_bound. destruct (tracked policy); simpl; lia.
Qed.

Lemma cache_remove_spec k s :
  0 <= max_size policy -> cache_wf s ->
  cache_wf (cache_remove estimate_size policy k s).1 /\
  contents (cache_remove estimate_size policy k s).1 = delete k (contents s) /\
  (cache_remove estimate_size policy k s).2 = contents s !! k.
Proof.
  intros Hmax Hs. unfold cache_remove. destruct (Z.eqb_spec (max_size policy) 0) as [E|E].
  - split; [done|]. destruct Hs as (_ & _ & Hz). unfold contents. simpl. rewrite Hz by done. done.
  - apply inner_remove_spec; auto. lia.
Qed.

Lemma cache_remove_all_spec s :
  0 <= max_size policy -> cache_wf s ->
  cache_wf (cache_remove_all policy s) /\ contents (cache_remove_all policy s) = ∅.
Proof.
  intros Hmax Hs. unfold cache_remove_all. destruct (Z.eqb_spec (max_size policy) 0) as [E|E].
  - split; [done|]. destruct Hs as (_ & _ & Hz). unfold contents. by rewrite Hz.
  - split; [|done]. split; [split; [constructor|]|split; [|done]].
    + intros ->. simpl. lia.
    + unfold within_bound. simpl. destruct (tracked policy); simpl; lia.
Qed.

(** One call on the cache. [insert_many] and [remove_many] take the lock once for a
    sequence of these. *)
Inductive cache_step : Inner K V -> Inner K V -> Prop :=
| step_insert k v s :
    fits v s -> cache_step s (cache_insert gen_range estimate_size policy k v s)
| step_update k op s :
    (forall v, contents s !! k = Some v -> fits (op v) s) ->
    cache_step s (cache_update_if_entry_exists gen_range estimate_size policy k op s)
| step_remove k s : cache_step s (cache_remove estimate_size policy k s).1
| step_remove_all s : cache_step s (cache_remove_all policy s).

Lemma cache_step_wf s s' :
  0 <= max_size policy -> 0 <= min_items policy -> cache_wf s -> cache_step s s' -> cache_wf s'.
Proof.
  intros Hmax Hmin Hs. destruct 1.
  - by apply cache_insert_spec.
  - unfold cache_update_if_entry_exists. destruct (Z.eqb_spec (max_size policy) 0); [done|].
    apply inner_update_spec; auto. lia.
  - by apply cache_remove_spec.
  - by apply cache_remove_all_spec.
Qed.

(** Every cache reachable from an empty one by the public operations keeps its
    policy: distinct keys; in [Count] mode at most [max_size] items; in [Tracked]
    mode the running size is exactly the sum of the sizes held and is within
    [max_size] unless at most [min_items] items remain; and an empty policy
    caches nothing. *)
Theorem cache_reachable_wf s :
  0 <= max_size policy -> 0 <= min_items policy ->
  rtc cache_step inner_new s -> cache_wf s.
Proof.
  intros Hmax Hmin. apply (rtc_ind_r (fun s => cache_wf s)); [by apply cache_new_wf|].
  intros y z _ Hyz Hy. by eapply cache_step_wf.
Qed.

End cache_facts.

(** A two-item count cache after three inserts, the first item evicted. *)
Lemma cache_reachable_wf_witness :
  let p := policy_from (Count 2) in
  let ins := cache_insert (fun _ _ => 0%nat) (fun _ _ => 1) p in
  let s := ins 3 30 (ins 2 20 (ins 1 10 inner_new)) in
  cache_wf (fun _ (_ : Z) => 1) p s /\ entries s = [(2, 20); (3, 30)].
Proof.
  split; [|reflexivity].
  apply (cache_reachable_wf (fun _ _ => 0%nat) (fun _ _ => 1)); [lia|lia|simpl; lia|simpl; lia|].
  do 3 (eapply rtc_r; [|apply step_insert; by intros ?]). done.
Defined.
