(* ===== verification/Access.v ===== *)
(** Typed, cached access to the database (database/src/{access,item,key,writer,errors}.rs).

    RocksDB is a parameter: the class [RocksDb] has the calls the code makes and
    [RocksDbLaws] its documented behaviour without I/O errors (a key-value map; a
    [WriteBatch] is applied in order by [write]). [bincode] is the pair
    [serialize]/[deserialize]. Reads go to the cache first and fill it; writes go
    to the cache and to a writer, which is the database itself ([DirectDbWriter])
    or a batch that is written later ([BatchDbWriter]). *)

From S2P Require Import Prelude Cache.

Inductive StoreError :=
| KeyNotFound (key : bytes)
| KeyAlreadyExists (key : bytes)
| HashAlreadyExists (hash : bytes)
| DataInconsistency (what : bytes)
| DbError (code : Z)
| DeserializationError (code : Z).

#[export] Instance StoreError_eq_dec : EqDecision StoreError.
Proof. solve_decision. Defined.

Definition is_key_not_found (e : StoreError) : bool :=
  match e with KeyNotFound _ => true | _ => false end.

Definition is_already_exists (e : StoreError) : bool :=
  match e with KeyAlreadyExists _ | HashAlreadyExists _ => true | _ => false end.

(** [StoreResultExt::optional]. *)
Definition optional {A} (r : result StoreError A) : result StoreError (option A) :=
  match r with
  | Ok a => Ok (Some a)
  | Err e => if is_key_not_found e then Ok None else Err e
  end.

(** * Database and writers *)

Inductive WriteOp := Put (key value : bytes) | Delete (key : bytes).

Abbreviation WriteBatch := (list WriteOp).

Class RocksDb (D : Type) := {
  db_get : D -> bytes -> result StoreError (option bytes);
  db_put : bytes -> bytes -> st D StoreError ();
  db_delete : bytes -> st D StoreError ();
  db_write : WriteBatch -> st D StoreError ();
}.

Definition apply_op (m : gmap bytes bytes) (op : WriteOp) : gmap bytes bytes :=
  match op with
  | Put k v => <[k := v]> m
  | Delete k => delete k m
  end.

Class RocksDbLaws (D : Type) `{RocksDb D} := {
  db_view : D -> gmap bytes bytes;
  db_get_view d k : db_get d k = Ok (db_view d !! k);
  db_put_view d k v : exists d', db_put k v d = (d', Ok tt) /\ db_view d' = <[k := v]> (db_view d);
  db_delete_view d k : exists d', db_delete k d = (d', Ok tt) /\ db_view d' = delete k (db_view d);
  db_write_view d b : exists d', db_write b d = (d', Ok tt) /\ db_view d' = foldl apply_op (db_view d) b;
}.

(** The reference database: a map. *)
#[export] Instance map_db : RocksDb (gmap bytes bytes) := {
  db_get d k := Ok (d !! k);
  db_put k v d := (<[k := v]> d, Ok tt);
  db_delete k d := (delete k d, Ok tt);
  db_write b d := (foldl apply_op d b, Ok tt);
}.

#[export] Program Instance map_db_laws : RocksDbLaws (gmap bytes bytes) := { db_view d := d }.
Next Obligation. done. Qed.
Next Obligation. intros. by eexists. Qed.
Next Obligation. intros. by eexists. Qed.
Next Obligation. intros. by eexists. Qed.

(** [DbWriter] and its two implementations. *)
Class DbWriter (W : Type) := {
  writer_put : bytes -> bytes -> st W StoreError ();
  writer_delete : bytes -> st W StoreError ();
}.

#[export] Instance direct_db_writer {D} `{RocksDb D} : DbWriter D := {
  writer_put := db_put;
  writer_delete := db_delete;
}.

#[export] Instance batch_db_writer : DbWriter WriteBatch := {
  writer_put k v b := (b ++ [Put k v], Ok tt);
  writer_delete k b := (b ++ [Delete k], Ok tt);
}.

(** [DbKey::new]: the store's prefix followed by the key's bytes. *)
Definition DbKey_new (prefix key : bytes) : bytes := prefix ++ key.

(** * CachedDbAccess *)

Section access.
Context {K V : Type} `{Countable K} {D W : Type} `{RocksDb D} `{DbWriter W}.
Context (as_ref : K -> bytes).
Context (serialize : V -> result StoreError bytes).
Context (deserialize : bytes -> result StoreError V).
Context (gen_range : nat -> nat -> nat).
Context (estimate_size : MemMode -> V -> Z).
Context (policy : CachePolicyInner).
Context (prefix : bytes).

Definition db_key (k : K) : bytes := DbKey_new prefix (as_ref k).

(** The cache half and the writer half of the state of a write. *)
Definition on_cache (f : Inner K V -> Inner K V) : st (Inner K V * W) StoreError () :=
  fun '(c, w) => ((f c, w), Ok tt).

Definition on_writer {A} (m : st W StoreError A) : st (Inner K V * W) StoreError A :=
  fun '(c, w) => let '(w', r) := m w in ((c, w'), r).

Definition access_read_from_cache (k : K) (c : Inner K V) : option V := cache_get k c.

Definition access_has (d : D) (k : K) (c : Inner K V) : result StoreError bool :=
  if cache_contains_key k c then Ok true
  else o ← db_get d (db_key k); Ok (bool_decide (is_Some o)).

Definition fill_cache (k : K) (data : V) : st (Inner K V) StoreError V :=
  fun c => (cache_insert gen_range estimate_size policy k data c, Ok data).

Definition access_read (d : D) (k : K) : st (Inner K V) StoreError V :=
  c ← gets id;
  match cache_get k c with
  | Some data => mret data
  | None =>
      o ← lift (db_get d (db_key k));
      match o with
      | Some slice =>
          data ← lift (deserialize slice);
          fill_cache k data
      | None => throw (KeyNotFound (db_key k))
      end
  end.

Definition access_has_with_fallback (d : D) (fallback_prefix : bytes) (k : K) (c : Inner K V) :
    result StoreError bool :=
  if cache_contains_key k c then Ok true
  else
    o ← db_get d (db_key k);
    if bool_decide (is_Some (o : option bytes)) then Ok true
    else o' ← db_get d (DbKey_new fallback_prefix (as_ref k)); Ok (bool_decide (is_Some o')).

(** [deserialize_fallback] is the deserializer of [TFallbackDeser] followed by [into]. *)
Definition access_read_with_fallback (deserialize_fallback : bytes -> result StoreError V)
    (d : D) (fallback_prefix : bytes) (k : K) : st (Inner K V) StoreError V :=
  c ← gets id;
  match cache_get k c with
  | Some data => mret data
  | None =>
      o ← lift (db_get d (db_key k));
      match o with
      | Some slice =>
          data ← lift (deserialize slice);
          fill_cache k data
      | None =>
          let fallback_key := DbKey_new fallback_prefix (as_ref k) in
          o' ← lift (db_get d fallback_key);
          match o' with
          | Some slice =>
              data ← lift (deserialize_fallback slice);
              fill_cache k data
          | None => throw (KeyNotFound fallback_key)
          end
      end
  end.

Definition access_write (k : K) (data : V) : st (Inner K V * W) StoreError () :=
  bin_data ← lift (serialize data);
  _ ← on_cache (cache_insert gen_range estimate_size policy k data);
  on_writer (writer_put (db_key k) bin_data).

Fixpoint put_all (items : list (K * V)) : st (Inner K V * W) StoreError () :=
  match items with
  | [] => mret tt
  | (k, data) :: items' =>
      bin_data ← lift (serialize data);
      _ ← on_writer (writer_put (db_key k) bin_data);
      put_all items'
  end.

Definition access_write_many (items : list (K * V)) : st (Inner K V * W) StoreError () :=
  _ ← on_cache (cache_insert_many gen_range estimate_size policy items);
  put_all items.

Definition access_write_many_without_cache (items : list (K * V)) : st (Inner K V * W) StoreError () :=
  _ ← put_all items;
  on_cache (cache_remove_all policy).

Definition access_delete (k : K) : st (Inner K V * W) StoreError () :=
  _ ← on_cache (fun c => (cache_remove estimate_size policy k c).1);
  on_writer (writer_delete (db_key k)).

Fixpoint delete_all_keys (keys : list K) : st (Inner K V * W) StoreError () :=
  match keys with
  | [] => mret tt
  | k :: keys' => _ ← on_writer (writer_delete (db_key k)); delete_all_keys keys'
  end.

Definition access_delete_many (keys : list K) : st (Inner K V * W) StoreError () :=
  _ ← on_cache (cache_remove_many estimate_size policy keys);
  delete_all_keys keys.

(** * CachedDbItem: a single item under the key [prefix]. *)

Definition on_item_writer {A} (m : st W StoreError A) : st (option V * W) StoreError A :=
  fun '(c, w) => let '(w', r) := m w in ((c, w'), r).

Definition set_item (o : option V) : st (option V * W) StoreError () :=
  fun '(_, w) => ((o, w), Ok tt).

Definition item_read (d : D) : st (option V) StoreError V :=
  fun c =>
    match c with
    | Some item => (c, Ok item)
    | None =>
        match db_get d prefix with
        | Err e => (c, Err e)
        | Ok None => (c, Err (KeyNotFound prefix))
        | Ok (Some slice) =>
            match deserialize slice with
            | Err e => (c, Err e)
            | Ok item => (Some item, Ok item)
            end
        end
    end.

Definition item_write (item : V) : st (option V * W) StoreError () :=
  _ ← set_item (Some item);
  bin_data ← lift (serialize item);
  on_item_writer (writer_put prefix bin_data).

Definition item_remove : st (option V * W) StoreError () :=
  _ ← set_item None;
  on_item_writer (writer_delete prefix).

(** [guard.take()] empties the cached item first, so an error leaves it empty. *)
Definition item_update (d : D) (op : V -> V) : st (option V * W) StoreError V :=
  old ← gets fst;
  _ ← set_item None;
  item ← match old with
         | Some item => mret item
         | None =>
             o ← lift (db_get d prefix);
             match o with
             | Some slice => lift (deserialize slice)
             | None => throw (KeyNotFound prefix)
             end
         end;
  _ ← set_item (Some (op item));
  bin_data ← lift (serialize (op item));
  _ ← on_item_writer (writer_put prefix bin_data);
  mret (op item).

End access.

(** * Refinement of a map *)

Section access_facts.
Context {K V : Type} `{Countable K} {D : Type} `{RocksDbLaws D}.
Context (as_ref : K -> bytes) `{!Inj (=) (=) as_ref}.
Context (serialize : V -> result StoreError bytes).
Context (deserialize : bytes -> result StoreError V).
Context (bincode : forall v, exists bs, serialize v = Ok bs /\ deserialize bs = Ok v).
Context (gen_range : nat -> nat -> nat).
Context (gen_range_lt : forall i n, (0 < n)%nat -> (gen_range i n < n)%nat).
Context (estimate_size : MemMode -> V -> Z).
Context (size_nonneg : forall mode v, 0 <= estimate_size mode v).
Context (policy : CachePolicyInner).
Context (Hmax : 0 <= max_size policy) (Hmin : 0 <= min_items policy).
Context (prefix : bytes).
Implicit Types (c : Inner K V) (d : D) (m : gmap K V).

Local Abbreviation key := (db_key as_ref prefix).
Local Abbreviation read := (access_read as_ref deserialize gen_range estimate_size policy prefix).
Local Abbreviation write W := (access_write (W := W) as_ref serialize gen_range estimate_size policy prefix).
Local Abbreviation remove W := (access_delete (W := W) as_ref estimate_size policy prefix).
Local Abbreviation wf := (cache_wf estimate_size policy).
Local Abbreviation fits := (fits estimate_size policy).

(** The rows [b] of the database under [prefix] decode to [m]. *)
Definition rows (b : gmap bytes bytes) m : Prop :=
  forall k, match m !! k with
            | Some v => exists bs, b !! key k = Some bs /\ deserialize bs = Ok v
            | None => b !! key k = None
            end.

#[local] Instance key_inj : Inj (=) (=) key.
Proof. intros k1 k2 E. unfold db_key, DbKey_new in E. by simplify_list_eq. Qed.

Lemma rows_insert b m k v bs :
  rows b m -> deserialize bs = Ok v -> rows (<[key k := bs]> b) (<[k := v]> m).
Proof.
  intros Hr Hd k'. destruct (decide (k' = k)) as [->|Hne].
  - rewrite !lookup_insert_eq. by exists bs.
  - rewrite lookup_insert_ne by done. specialize (Hr k').
    rewrite lookup_insert_ne; [done|]. by intros ?%(inj key).
Qed.

Lemma rows_delete b m k : rows b m -> rows (delete (key k) b) (delete k m).
Proof.
  intros Hr k'. destruct (decide (k' = k)) as [->|Hne].
  - by rewrite !lookup_delete_eq.
  - rewrite lookup_delete_ne by done. specialize (Hr k').
    rewrite lookup_delete_ne; [done|]. by intros ?%(inj key).
Qed.

(** Write-through: the cache holds a part of what the database holds. *)
Definition direct_rep c d m : Prop := wf c /\ contents c ⊆ m /\ rows (db_view d) m.

(** Batched: the database holds [m0], the pending batch takes it to [m], the cache
    holds a part of [m] and every key it does not hold is still as in [m0]. *)
Definition batch_rep c d (b : WriteBatch) m : Prop :=
  wf c /\ contents c ⊆ m /\ rows (foldl apply_op (db_view d) b) m /\
  exists m0, rows (db_view d) m0 /\ forall k, contents c !! k = None -> m !! k = m0 !! k.

Definition read_result (o : option V) (k : K) : result StoreError V :=
  match o with Some v => Ok v | None => Err (KeyNotFound (key k)) end.

(** What a read does, from what the cache and the database hold for the key. *)
Lemma read_spec c d m0 k :
  rows (db_view d) m0 ->
  match contents c !! k with
  | Some v => read d k c = (c, Ok v)
  | None =>
      match m0 !! k with
      | Some v => read d k c = (cache_insert gen_range estimate_size policy k v c, Ok v)
      | None => read d k c = (c, Err (KeyNotFound (key k)))
      end
  end.
Proof.
  intros Hr. specialize (Hr k). unfold access_read, gets, lift, mbind, st_bind, id.
  rewrite cache_get_contents. destruct (contents c !! k); [done|].
  rewrite db_get_view. destruct (m0 !! k) as [v|].
  - destruct Hr as (bs & -> & ->). done.
  - by rewrite Hr.
Qed.

Lemma write_cache c k v m :
  wf c -> fits v c -> contents c ⊆ m ->
  wf (cache_insert gen_range estimate_size policy k v c) /\
  contents (cache_insert gen_range estimate_size policy k v c) ⊆ <[k := v]> m.
Proof.
  intros Hw Hf Hc. destruct (cache_insert_spec gen_range estimate_size gen_range_lt size_nonneg
    policy k v c) as [W1 W2]; [done..|].
  split; [exact W1|]. etrans; [exact W2|]. by apply insert_mono.
Qed.

Lemma direct_read c d m k :
  direct_rep c d m -> (forall v, m !! k = Some v -> fits v c) ->
  exists c', read d k c = (c', read_result (m !! k) k) /\ direct_rep c' d m.
Proof.
  intros (Hw & Hc & Hr) Hf. pose proof (read_spec c d m k Hr) as R.
  destruct (contents c !! k) as [v|] eqn:G.
  - rewrite (lookup_weaken _ _ _ _ G Hc). by exists c.
  - destruct (m !! k) as [v|] eqn:Hm; [|by exists c].
    eexists. split; [exact R|]. specialize (Hf _ eq_refl).
    destruct (write_cache c k v m) as [W1 W2]; [done..|].
    split; [exact W1|]. split; [|done]. by rewrite (insert_id m k v Hm) in W2.
Qed.

Lemma direct_write c d m k v :
  direct_rep c d m -> fits v c ->
  exists c' d', write D k v (c, d) = ((c', d'), Ok tt) /\ direct_rep c' d' (<[k := v]> m).
Proof.
  intros (Hw & Hc & Hr) Hf. destruct (bincode v) as (bs & Hs & Hd).
  destruct (db_put_view d (key k) bs) as (d' & Hp & Hv).
  unfold access_write, lift, on_cache, on_writer, mbind, st_bind. rewrite Hs. cbn. rewrite Hp.
  do 2 eexists. split; [done|]. destruct (write_cache c k v m) as [W1 W2]; [done..|].
  split; [done|]. split; [done|]. rewrite Hv. by apply rows_insert.
Qed.

Lemma direct_delete c d m k :
  direct_rep c d m ->
  exists c' d', remove D k (c, d) = ((c', d'), Ok tt) /\ direct_rep c' d' (delete k m).
Proof.
  intros (Hw & Hc & Hr). destruct (db_delete_view d (key k)) as (d' & Hp & Hv).
  unfold access_delete, on_cache, on_writer, mbind, st_bind. cbn. rewrite Hp.
  do 2 eexists. split; [done|].
  destruct (cache_remove_spec estimate_size size_nonneg policy k c) as (W1 & W2 & _); [done..|].
  split; [done|]. split; [|rewrite Hv; by apply rows_delete]. rewrite W2. by apply delete_mono.
Qed.

(** Room in a [Count] cache: the next insert evicts nothing. *)
Definition has_room c : Prop :=
  tracked policy = false /\ Z.of_nat (length (entries c)) < max_size policy.

Lemma insert_room c k v :
  wf c -> has_room c ->
  wf (cache_insert gen_range estimate_size policy k v c) /\
  contents (cache_insert gen_range estimate_size policy k v c) = <[k := v]> (contents c).
Proof.
  intros Hw [Ht Hl]. split.
  - apply cache_insert_spec; auto. unfold Cache.fits. by rewrite Ht.
  - unfold cache_insert. destruct (Z.eqb_spec (max_size policy) 0); [lia|].
    by apply inner_insert_room.
Qed.

Lemma batch_read c d b m k :
  batch_rep c d b m -> has_room c ->
  exists c', read d k c = (c', read_result (m !! k) k) /\ batch_rep c' d b m /\
             dom (contents c') ⊆ {[k]} ∪ dom (contents c).
Proof.
  intros (Hw & Hc & Hr & m0 & Hr0 & Hm0) Hroom. pose proof (read_spec c d m0 k Hr0) as R.
  destruct (contents c !! k) as [v|] eqn:G.
  { rewrite (lookup_weaken _ _ _ _ G Hc). exists c. split; [done|].
    split; [|set_solver]. split; [done|]. split; [done|]. split; [done|]. by exists m0. }
  rewrite (Hm0 _ G). destruct (m0 !! k) as [v|] eqn:Hk.
  2:{ exists c. split; [done|].
      split; [|set_solver]. split; [done|]. split; [done|]. split; [done|]. by exists m0. }
  eexists. split; [exact R|]. destruct (insert_room c k v Hw Hroom) as [W1 W2].
  split; [|by rewrite W2, dom_insert]. split; [done|]. rewrite W2. split; [|split; [done|exists m0; split; [done|]]].
  - assert (m !! k = Some v) as Hm by (by rewrite Hm0). rewrite <-(insert_id m k v Hm).
    by apply insert_mono.
  - intros k' Hk'. apply lookup_insert_None in Hk' as [Hk' _]. by apply Hm0.
Qed.

Lemma batch_write c d b m k v :
  batch_rep c d b m -> has_room c ->
  exists c' b', write WriteBatch k v (c, b) = ((c', b'), Ok tt) /\ batch_rep c' d b' (<[k := v]> m) /\
                dom (contents c') ⊆ {[k]} ∪ dom (contents c).
Proof.
  intros (Hw & Hc & Hr & m0 & Hr0 & Hm0) Hroom. destruct (bincode v) as (bs & Hs & Hd).
  unfold access_write, lift, on_cache, on_writer, mbind, st_bind. rewrite Hs. cbn.
  do 2 eexists. split; [done|]. destruct (insert_room c k v Hw Hroom) as [W1 W2].
  split; [|by rewrite W2, dom_insert]. split; [done|]. rewrite W2. split; [by apply insert_mono|]. split.
  - rewrite foldl_app. simpl. by apply rows_insert.
  - exists m0. split; [done|]. intros k' Hk'. apply lookup_insert_None in Hk' as [Hk' Hne].
    rewrite lookup_insert_ne by done. by apply Hm0.
Qed.

Lemma batch_flush c d b m :
  batch_rep c d b m -> exists d', db_write b d = (d', Ok tt) /\ direct_rep c d' m.
Proof.
  intros (Hw & Hc & Hr & _). destruct (db_write_view d b) as (d' & Hd & Hv).
  exists d'. split; [done|]. split; [done|]. split; [done|]. by rewrite Hv.
Qed.

Lemma direct_batch c d m : direct_rep c d m -> batch_rep c d [] m.
Proof. intros (Hw & Hc & Hr). split; [done|]. split; [done|]. split; [done|]. by exists m. Qed.

(** With a [DirectDbWriter], a [CachedDbAccess] is a map, whatever the cache
    evicts: from a state that represents [m], [read] returns [m]'s value or
    [KeyNotFound], [write] and [delete] succeed, and the new states represent [m],
    [m] with the key set, and [m] without the key. *)
Theorem access_direct_refines_map c d m k v :
  direct_rep c d m -> fits v c -> (forall v', m !! k = Some v' -> fits v' c) ->
  (exists c', read d k c = (c', read_result (m !! k) k) /\ direct_rep c' d m) /\
  (exists c' d', write D k v (c, d) = ((c', d'), Ok tt) /\ direct_rep c' d' (<[k := v]> m)) /\
  (exists c' d', remove D k (c, d) = ((c', d'), Ok tt) /\ direct_rep c' d' (delete k m)).
Proof.
  intros. split; [by apply direct_read|]. split; [by apply direct_write|by apply direct_delete].
Qed.

(** With a [BatchDbWriter], reads see the writes pending in the batch as long as
    the [Count] cache has room, and writing the batch makes the database hold
    exactly what the reads showed. *)
Theorem access_batch_reads_own_writes c d b m k v :
  batch_rep c d b m -> has_room c ->
  (exists c', read d k c = (c', read_result (m !! k) k) /\ batch_rep c' d b m) /\
  (exists c' b', write WriteBatch k v (c, b) = ((c', b'), Ok tt) /\ batch_rep c' d b' (<[k := v]> m)) /\
  (exists d', db_write b d = (d', Ok tt) /\ direct_rep c d' m).
Proof.
  intros. split; [|split; [|by apply (batch_flush c)]].
  - destruct (batch_read c d b m k) as (c' & ? & ? & _); eauto.
  - destruct (batch_write c d b m k v) as (c' & b' & ? & ? & _); eauto.
Qed.

End access_facts.

(** * Concrete stores *)

Definition toy_serialize (v : Z) : result StoreError bytes := Ok [v].
Definition toy_deserialize (bs : bytes) : result StoreError Z :=
  match bs with [v] => Ok v | _ => Err (DeserializationError 0) end.

Lemma toy_bincode v : exists bs, toy_serialize v = Ok bs /\ toy_deserialize bs = Ok v.
Proof. by exists [v]. Qed.

#[local] Instance toy_key_inj : Inj (=) (=) (fun k : Z => [k]).
Proof. by intros ?? [=]. Qed.

Abbreviation toy_direct_rep :=
  (direct_rep (fun k : Z => [k]) toy_deserialize (fun _ _ => 1) (policy_from (Count 2)) [7]).
Abbreviation toy_batch_rep :=
  (batch_rep (fun k : Z => [k]) toy_deserialize (fun _ _ => 1) (policy_from (Count 2)) [7]).

Lemma toy_direct : toy_direct_rep inner_new {[ [7; 1] := [10] ]} {[ 1 := 10 ]}.
Proof.
  split; [by apply cache_new_wf|]. split; [apply map_empty_subseteq|].
  intros k. destruct (decide (k = 1)) as [->|Hne].
  - by exists [10].
  - rewrite lookup_singleton_ne by done. simpl.
    rewrite lookup_singleton_ne; [done|]. unfold db_key, DbKey_new. simpl. congruence.
Qed.

Lemma access_direct_refines_map_witness :
  exists c d, access_write (fun k : Z => [k]) toy_serialize (fun _ _ => 0%nat) (fun _ _ => 1)
    (policy_from (Count 2)) [7] 2 20 (inner_new, {[ [7; 1] := [10] ]}) = ((c, d), Ok tt) /\
  toy_direct_rep c d (<[2 := 20]> {[ 1 := 10 ]}).
Proof.
  apply (access_direct_refines_map (fun k : Z => [k]) toy_serialize toy_deserialize toy_bincode
    (fun _ _ => 0%nat) ltac:(simpl; lia) (fun _ _ => 1) ltac:(simpl; lia)
    (policy_from (Count 2)) ltac:(simpl; lia) ltac:(simpl; lia) [7]
    inner_new {[ [7; 1] := [10] ]} {[ 1 := 10 ]} 2 20); [apply toy_direct|done|done].
Defined.

Lemma access_batch_reads_own_writes_witness :
  exists c b, access_write (fun k : Z => [k]) toy_serialize (fun _ _ => 0%nat) (fun _ _ => 1)
    (policy_from (Count 2)) [7] 2 20 (inner_new, []) = ((c, b), Ok tt) /\
  toy_batch_rep c {[ [7; 1] := [10] ]} b (<[2 := 20]> {[ 1 := 10 ]}).
Proof.
  apply (access_batch_reads_own_writes (fun k : Z => [k]) toy_serialize toy_deserialize toy_bincode
    (fun _ _ => 0%nat) ltac:(simpl; lia) (fun _ _ => 1) ltac:(simpl; lia)
    (policy_from (Count 2)) ltac:(simpl; lia) ltac:(simpl; lia) [7]
    inner_new {[ [7; 1] := [10] ]} [] {[ 1 := 10 ]} 2 20); [|done].
  apply direct_batch, toy_direct.
Defined.

(** A full [Count] cache evicts a pending write. After two writes into one batch
    through a cache of one item, reading the first key returns the value of before
    the batch, although the batch holds the new one: a read-modify-write of that key
    in the same batch loses the first write. *)
Theorem access_batch_eviction_stale_read draw :
  (forall i n, (0 < n)%nat -> (draw i n < n)%nat) ->
  let old := {[ [7; 1] := [10] ]} : gmap bytes bytes in
  let wr := access_write (W := WriteBatch) (fun k : Z => [k]) toy_serialize draw
              (fun _ _ => 1) (policy_from (Count 1)) [7] in
  let rd := access_read (fun k : Z => [k]) toy_deserialize draw
              (fun _ _ => 1) (policy_from (Count 1)) [7] old in
  exists c b, (wr 1 11 ≫= fun _ => wr 2 20) (inner_new, []) = ((c, b), Ok tt) /\
    (rd 1 c).2 = Ok 10 /\ (db_write b old).1 !! [7; 1] = Some [11].
Proof.
  intros Hdraw old wr rd. assert (E : draw 0%nat 1%nat = 0%nat) by (specialize (Hdraw 0%nat 1%nat); lia).
  exists {| entries := [(2, 20)]; tracked_size := 0; draws := 1 |}, [Put [7; 1] [11]; Put [7; 2] [20]].
  split; [|by vm_compute]. vm_compute. by rewrite E.
Qed.

Lemma access_batch_eviction_stale_read_witness :
  let old := {[ [7; 1] := [10] ]} : gmap bytes bytes in
  let wr := access_write (W := WriteBatch) (fun k : Z => [k]) toy_serialize (fun _ _ => 0%nat)
              (fun _ _ => 1) (policy_from (Count 1)) [7] in
  let rd := access_read (fun k : Z => [k]) toy_deserialize (fun _ _ => 0%nat)
              (fun _ _ => 1) (policy_from (Count 1)) [7] old in
  exists c b, (wr 1 11 ≫= fun _ => wr 2 20) (inner_new, []) = ((c, b), Ok tt) /\
    (rd 1 c).2 = Ok 10 /\ (db_write b old).1 !! [7; 1] = Some [11].
Proof. apply (access_batch_eviction_stale_read (fun _ _ => 0%nat)). intros; lia. Defined.
