(* ===== verification/Tx.v ===== *)
(** Transactions and the FLASH_V1 payload codec (consensus/core/src/tx.rs,
    consensus/core/src/tx/script_public_key.rs).

    Hashes and scripts are byte strings. SHA3-256 and SHA-256 are the parameters
    [sha3] and [sha256]. The cached transaction id is a field, as in the source;
    [hash_tx] is [hashing::tx::id]. *)

From S2P Require Import Prelude.

Record ScriptPublicKey := { spk_version : Z; spk_script : bytes }.

#[export] Instance ScriptPublicKey_eq_dec : EqDecision ScriptPublicKey.
Proof. solve_decision. Defined.

#[export] Instance ScriptPublicKey_countable : Countable ScriptPublicKey.
Proof.
  apply (inj_countable' (fun s => (spk_version s, spk_script s))
           (fun p => {| spk_version := p.1; spk_script := p.2 |})).
  by intros [].
Defined.

Record RegistryRef := { transaction_id : bytes; index : Z }.

#[export] Instance RegistryRef_eq_dec : EqDecision RegistryRef.
Proof. solve_decision. Defined.

Record TransactionInput := {
  previous_outpoint : RegistryRef;
  signature_script : bytes;
  sequence : Z;
  sig_op_count : Z;
}.

Record TransactionOutput := { value : Z; script_public_key : ScriptPublicKey }.

#[export] Instance TransactionInput_eq_dec : EqDecision TransactionInput.
Proof. solve_decision. Defined.
#[export] Instance TransactionOutput_eq_dec : EqDecision TransactionOutput.
Proof. solve_decision. Defined.

Record Transaction := {
  tx_version : Z;
  inputs : list TransactionInput;
  outputs : list TransactionOutput;
  lock_time : Z;
  subnetwork_id : bytes;
  gas : Z;
  payload : bytes;
  mass : Z;
  tx_id : bytes;
}.

#[export] Instance Transaction_eq_dec : EqDecision Transaction.
Proof. solve_decision. Defined.

(** [SubnetworkId]s: native is all zero, coinbase is [1, 0, ...]. *)
Definition SUBNETWORK_ID_NATIVE : bytes := replicate 20 0.
Definition SUBNETWORK_ID_COINBASE : bytes := 1 :: replicate 19 0.

Definition is_coinbase (tx : Transaction) : bool :=
  bool_decide (subnetwork_id tx = SUBNETWORK_ID_COINBASE).

Definition zero_hash : bytes := replicate 32 0.

Definition new_non_finalized version inputs outputs lock_time subnetwork_id gas payload : Transaction :=
  {| tx_version := version; inputs := inputs; outputs := outputs; lock_time := lock_time;
     subnetwork_id := subnetwork_id; gas := gas; payload := payload; mass := 0; tx_id := zero_hash |}.

Definition finalize (hash_tx : Transaction -> bytes) (tx : Transaction) : Transaction :=
  {| tx_version := tx_version tx; inputs := inputs tx; outputs := outputs tx;
     lock_time := lock_time tx; subnetwork_id := subnetwork_id tx; gas := gas tx;
     payload := payload tx; mass := mass tx; tx_id := hash_tx tx |}.

Definition Transaction_new hash_tx version inputs outputs lock_time subnetwork_id gas payload : Transaction :=
  finalize hash_tx (new_non_finalized version inputs outputs lock_time subnetwork_id gas payload).

(** What [compute_account_tx_sighash] feeds to SHA-256. *)
Definition output_preimage (o : TransactionOutput) : bytes :=
  let script := spk_script (script_public_key o) in
  to_le 8 (value o) ++ to_le 2 (spk_version (script_public_key o)) ++
  to_le 8 (Z.of_nat (length script)) ++ script.

Definition account_tx_preimage (tx : Transaction) (signable_payload : bytes) : bytes :=
  string_bytes "SAHYADRI_ACCOUNT_TX_V1" ++ to_le 2 (tx_version tx) ++
  concat (map output_preimage (outputs tx)) ++
  to_le 8 (lock_time tx) ++ subnetwork_id tx ++ to_le 8 (gas tx) ++
  to_le 8 (Z.of_nat (length signable_payload)) ++ signable_payload.

Definition compute_account_tx_sighash (sha256 : bytes -> bytes) (tx : Transaction)
    (signable_payload : bytes) : bytes :=
  sha256 (account_tx_preimage tx signable_payload).

(** * Flash transactions *)

Record FlashTransaction := {
  flash_version : Z;
  pubkey : bytes;
  recipient : bytes;
  amount : Z;
  fee : Z;
  expiry_daa_score : Z;
  salt : bytes;
  signature : bytes;
}.

#[export] Instance FlashTransaction_eq_dec : EqDecision FlashTransaction.
Proof. solve_decision. Defined.

Definition FLASH_MAGIC : bytes := string_bytes "FLASH_V1".

(** The bytes [flash_id] and [sighash] hash after their tag. *)
Definition flash_preimage (tx : FlashTransaction) : bytes :=
  to_le 2 (flash_version tx) ++ pubkey tx ++ recipient tx ++ to_le 8 (amount tx) ++
  to_le 8 (fee tx) ++ to_le 8 (expiry_daa_score tx) ++ salt tx.

Definition flash_id (sha3 : bytes -> bytes) (tx : FlashTransaction) : bytes :=
  sha3 (string_bytes "SAHYADRI_FLASH_ID_V1" ++ flash_preimage tx).

Definition sighash (sha3 : bytes -> bytes) (tx : FlashTransaction) : bytes :=
  sha3 (string_bytes "SAHYADRI_FLASH_TX_V1" ++ flash_preimage tx).

Definition flash_payload (tx : FlashTransaction) : bytes :=
  FLASH_MAGIC ++ to_le 2 (flash_version tx) ++
  to_le 4 (Z.of_nat (length (pubkey tx))) ++ pubkey tx ++
  to_le 4 (Z.of_nat (length (recipient tx))) ++ recipient tx ++
  to_le 8 (amount tx) ++ to_le 8 (fee tx) ++ to_le 8 (expiry_daa_score tx) ++
  salt tx ++
  to_le 4 (Z.of_nat (length (signature tx))) ++ signature tx.

Definition to_transaction (hash_tx : Transaction -> bytes) (tx : FlashTransaction) : Transaction :=
  Transaction_new hash_tx 0 [] [] 0 (replicate 20 0) 0 (flash_payload tx).

(** [&p[..8] == b"FLASH_V1"] behind its length check. *)
Definition is_flash_payload (p : bytes) : bool :=
  (8 <=? Z.of_nat (length p)) && bool_decide (take 8 p = FLASH_MAGIC).

Definition from_transaction (tx : Transaction) : option FlashTransaction :=
  let p := payload tx in
  if negb (is_flash_payload p) then None
  else
    let off := 8 in
    version ← slice p off 2;
    let off := off + 2 in
    pk_len ← slice p off 4;
    let off := off + 4 in
    let pk_len := from_le pk_len in
    pubkey ← slice p off pk_len;
    let off := off + pk_len in
    rc_len ← slice p off 4;
    let off := off + 4 in
    let rc_len := from_le rc_len in
    recipient ← slice p off rc_len;
    let off := off + rc_len in
    numbers ← slice p off 24;
    let amount := from_le (take 8 numbers) in
    let fee := from_le (take 8 (drop 8 numbers)) in
    let expiry := from_le (take 8 (drop 16 numbers)) in
    let off := off + 24 in
    salt ← slice p off 16;
    let off := off + 16 in
    sig_len ← slice p off 4;
    let off := off + 4 in
    let sig_len := from_le sig_len in
    signature ← slice p off sig_len;
    Some {| flash_version := from_le version; pubkey := pubkey; recipient := recipient;
            amount := amount; fee := fee; expiry_daa_score := expiry;
            salt := salt; signature := signature |}.

(** The ranges of the Rust field types. *)
Definition flash_wf (tx : FlashTransaction) : Prop :=
  0 <= flash_version tx < 2 ^ 16 /\ Z.of_nat (length (pubkey tx)) < 2 ^ 32 /\
  Z.of_nat (length (recipient tx)) < 2 ^ 32 /\ u64_range (amount tx) /\ u64_range (fee tx) /\
  u64_range (expiry_daa_score tx) /\ length (salt tx) = 16%nat /\
  Z.of_nat (length (signature tx)) < 2 ^ 32.

#[export] Instance flash_wf_dec tx : Decision (flash_wf tx).
Proof. unfold flash_wf. apply _. Defined.

(** * The codec *)

Lemma length_flash_magic : length FLASH_MAGIC = 8%nat.
Proof. done. Qed.

Lemma is_flash_payload_spec p :
  is_flash_payload p = true <->
  rest_at p 0 = FLASH_MAGIC ++ rest_at p 8 /\ (8 <= length p)%nat.
Proof.
  unfold is_flash_payload, rest_at. rewrite andb_true_iff, Z.leb_le, bool_decide_eq_true.
  change (Z.to_nat 0) with 0%nat. change (Z.to_nat 8) with 8%nat. rewrite drop_0.
  split.
  - intros [H1 H2]. split; [|lia]. rewrite <-H2. by rewrite take_drop.
  - intros [H1 H2]. split; [lia|]. rewrite H1. rewrite take_app_le by (rewrite length_flash_magic; lia).
    by vm_compute.
Qed.

(** Three little-endian words read from one 24-byte slice. *)
Lemma three_words a b c :
  u64_range a -> u64_range b -> u64_range c ->
  let n := to_le 8 a ++ to_le 8 b ++ to_le 8 c in
  from_le (take 8 n) = a /\ from_le (take 8 (drop 8 n)) = b /\ from_le (take 8 (drop 16 n)) = c.
Proof.
  intros Ha Hb Hc n. unfold n. split_and!.
  - rewrite take_app_length' by (by rewrite length_to_le). by apply from_to_le_small.
  - rewrite drop_app_length' by (by rewrite length_to_le). rewrite take_app_length' by (by rewrite length_to_le).
    by apply from_to_le_small.
  - rewrite app_assoc. rewrite drop_app_length' by (by rewrite length_app, !length_to_le).
    rewrite take_ge by (rewrite length_to_le; lia). by apply from_to_le_small.
Qed.

Lemma three_words_inv n :
  bytes_ok n -> length n = 24%nat ->
  n = to_le 8 (from_le (take 8 n)) ++ to_le 8 (from_le (take 8 (drop 8 n)))
      ++ to_le 8 (from_le (take 8 (drop 16 n))).
Proof.
  intros Hn Hl.
  assert (W : forall k, (k + 8 <= 24)%nat ->
    to_le 8 (from_le (take 8 (drop k n))) = take 8 (drop k n)).
  { intros k Hk. assert (L : length (take 8 (drop k n)) = 8%nat) by (rewrite length_take, length_drop; lia).
    rewrite <-L at 1. apply to_from_le. by apply Forall_take, Forall_drop. }
  pose proof (W 0%nat ltac:(lia)) as W0. rewrite drop_0 in W0. rewrite W0, !W by lia.
  rewrite (take_ge (drop 16 n)) by (rewrite length_drop; lia).
  change (drop 16 n) with (drop (8 + 8) n). rewrite <-drop_drop, take_drop. by rewrite take_drop.
Qed.

(** Read the next slice: [E] is the known tail, [E'] names the tail after it. *)
Ltac read_slice E E' :=
  let L := fresh "L" in let HS := fresh "HS" in
  lazymatch goal with
  | |- mbind _ (slice ?p ?o ?n) = _ =>
      edestruct (slice_at p o n) as (HS & E' & L);
      [lia|exact E|rewrite ?length_to_le; (lia || reflexivity)|]
  end;
  rewrite HS; clear HS; cbn [mbind option_bind].

Lemma from_transaction_complete tx f rest :
  flash_wf f -> payload tx = flash_payload f ++ rest -> from_transaction tx = Some f.
Proof.
  intros (Hv & Hpk & Hrc & Ha & Hf & He & Hs & Hsig) Hp. unfold from_transaction.
  set (p := payload tx) in *.
  assert (R0 : rest_at p 0 = p) by apply drop_0.
  unfold flash_payload in Hp. rewrite <-!app_assoc in Hp. rewrite <-R0 in Hp at 1.
  set (words := to_le 8 (amount f) ++ to_le 8 (fee f) ++ to_le 8 (expiry_daa_score f)) in *.
  pose proof (three_words (amount f) (fee f) (expiry_daa_score f) Ha Hf He) as TW.
  fold words in TW. destruct TW as (W1 & W2 & W3).
  assert (Hp' : rest_at p 0 = FLASH_MAGIC ++ to_le 2 (flash_version f) ++
    to_le 4 (Z.of_nat (length (pubkey f))) ++ pubkey f ++
    to_le 4 (Z.of_nat (length (recipient f))) ++ recipient f ++ words ++ salt f ++
    to_le 4 (Z.of_nat (length (signature f))) ++ signature f ++ rest).
  { rewrite Hp. unfold words. by rewrite <-!app_assoc. }
  clear Hp. rename Hp' into Hp.
  edestruct (slice_at p 0 8) as (S0 & E0 & L0); [lia|exact Hp|done|].
  change (0 + 8) with 8 in *.
  assert (M : is_flash_payload p = true).
  { apply is_flash_payload_spec. split; [by rewrite E0, <-Hp|lia]. }
  rewrite M. cbn [negb].
  assert (U32 : forall n, 0 <= n < 2 ^ 32 -> from_le (to_le 4 n) = n) by (intros; by apply from_to_le_small).
  read_slice E0 E1. read_slice E1 E2. rewrite U32 by lia. read_slice E2 E3.
  read_slice E3 E4. rewrite U32 by lia. read_slice E4 E5.
  assert (Lw : length words = 24%nat) by (unfold words; by rewrite !length_app, !length_to_le).
  read_slice E5 E6. rewrite W1, W2, W3.
  read_slice E6 E7. read_slice E7 E8. rewrite U32 by lia. read_slice E8 E9.
  rewrite (from_to_le_small 2) by (change (256 ^ Z.of_nat 2) with (2 ^ 16); lia).
  by destruct f.
Qed.

(** Take the next slice out of a successful parse: [E'] is the tail it leaves. *)
Ltac take_slice x E L B :=
  lazymatch goal with
  | Hp : bytes_ok ?p |- (mbind _ (slice ?p ?o ?n) = Some _) -> _ =>
      let HS := fresh "HS" in
      destruct (slice p o n) as [x|] eqn:HS; [|intros HS'; discriminate HS'];
      pose proof (bytes_ok_slice _ _ _ _ Hp HS) as B;
      apply slice_next in HS as [E L]; [|lia..]; cbn [mbind option_bind]
  end.

Lemma le_word n x : bytes_ok x -> Z.of_nat (length x) = Z.of_nat n -> x = to_le n (from_le x).
Proof. intros Hx L. apply Nat2Z.inj in L. rewrite <-L. symmetry. by apply to_from_le. Qed.

Lemma from_transaction_sound tx f :
  bytes_ok (payload tx) -> from_transaction tx = Some f ->
  flash_wf f /\ exists rest, payload tx = flash_payload f ++ rest.
Proof.
  intros Hp. unfold from_transaction. set (p := payload tx) in *.
  destruct (is_flash_payload p) eqn:M; [|done]. cbn [negb].
  apply is_flash_payload_spec in M as [E0 L0].
  take_slice version E1 L1 B1. take_slice pkl E2 L2 B2.
  pose proof (from_le_range _ B2) as R2. rewrite L2 in R2.
  take_slice pk E3 L3 B3. take_slice rcl E4 L4 B4.
  pose proof (from_le_range _ B4) as R4. rewrite L4 in R4.
  take_slice rc E5 L5 B5. take_slice words E6 L6 B6. take_slice sl E7 L7 B7.
  take_slice sgl E8 L8 B8. pose proof (from_le_range _ B8) as R8. rewrite L8 in R8.
  take_slice sg E9 L9 B9. intros [= <-].
  pose proof (from_le_range _ B1) as R1. rewrite L1 in R1.
  assert (W : forall k, (k + 8 <= 24)%nat -> u64_range (from_le (take 8 (drop k words)))).
  { intros k Hk. pose proof (from_le_range (take 8 (drop k words))) as R.
    rewrite length_take, length_drop in R. replace (8 `min` (length words - k))%nat with 8%nat in R by lia.
    apply R. by apply Forall_take, Forall_drop. }
  split.
  - unfold flash_wf. cbn. pose proof (W 0%nat) as W0. rewrite drop_0 in W0.
    split_and!; try lia; apply W0 || apply W; lia.
  - exists (rest_at p (8 + 2 + 4 + from_le pkl + 4 + from_le rcl + 24 + 16 + 4 + from_le sgl)).
    change p with (rest_at p 0) at 1. rewrite E0, E1, E2, E3, E4, E5, E6, E7, E8, E9.
    unfold flash_payload.
    cbn [flash_version pubkey recipient amount fee expiry_daa_score salt signature]. rewrite L3, L5, L9. rewrite <-!app_assoc.
    rewrite <-(le_word 2 version), <-(le_word 4 pkl), <-(le_word 4 rcl), <-(le_word 4 sgl) by done.
    rewrite (three_words_inv words) at 1 by (done || lia). by rewrite <-!app_assoc.
Qed.

(** [from_transaction] accepts exactly the payloads that start with the encoding
    of a flash transaction whose fields fit their types, and returns it; bytes after
    the signature are ignored. *)
Theorem flash_codec_exact tx f :
  bytes_ok (payload tx) ->
  from_transaction tx = Some f <-> flash_wf f /\ exists rest, payload tx = flash_payload f ++ rest.
Proof.
  intros Hp. split; [by apply from_transaction_sound|].
  intros (Hf & rest & E). by eapply from_transaction_complete.
Qed.

Definition toy_flash : FlashTransaction :=
  {| flash_version := 1; pubkey := [1; 2; 3]; recipient := replicate 20 9; amount := 1000;
     fee := 2000; expiry_daa_score := 77; salt := replicate 16 5; signature := [8; 8] |}.

Lemma flash_codec_exact_witness :
  from_transaction (to_transaction (fun _ => zero_hash) toy_flash) = Some toy_flash.
Proof.
  apply (flash_codec_exact (to_transaction (fun _ => zero_hash) toy_flash) toy_flash).
  - apply (bool_decide_unpack _). by vm_compute.
  - split; [apply (bool_decide_unpack _); by vm_compute|]. exists []. by rewrite app_nil_r.
Defined.

(** Neither [flash_id] nor [sighash] marks where the public key ends and the
    recipient begins: moving bytes from one to the other changes neither. *)
Theorem flash_id_boundary_ambiguous sha3 tx pk mid rcp :
  pubkey tx = pk ++ mid -> recipient tx = rcp ->
  let tx' := {| flash_version := flash_version tx; pubkey := pk; recipient := mid ++ rcp;
                amount := amount tx; fee := fee tx; expiry_daa_score := expiry_daa_score tx;
                salt := salt tx; signature := signature tx |} in
  flash_id sha3 tx' = flash_id sha3 tx /\ sighash sha3 tx' = sighash sha3 tx.
Proof.
  intros Hpk Hrc tx'. unfold flash_id, sighash, flash_preimage. cbn. rewrite Hpk, Hrc.
  by rewrite <-!app_assoc.
Qed.

Lemma flash_id_boundary_ambiguous_witness :
  let tx' := {| flash_version := 1; pubkey := [1]; recipient := [2; 3] ++ replicate 20 9;
                amount := 1000; fee := 2000; expiry_daa_score := 77; salt := replicate 16 5;
                signature := [8; 8] |} in
  flash_id id tx' = flash_id id toy_flash /\ sighash id tx' = sighash id toy_flash.
Proof. by apply (flash_id_boundary_ambiguous id toy_flash [1] [2; 3] (replicate 20 9)). Defined.
