(* ===== verification/Standard.v ===== *)
(** Standard scripts (crypto/txscript/src/standard.rs, crypto/txscript/src/script_class.rs):
    the script of an address and the address of a script. [None] is an [assert_eq!] that
    fails. *)

From S2P Require Import Prelude Address Tx.

Definition MAX_SCRIPT_PUBLIC_KEY_VERSION : Z := 0.

(** The opcodes of crypto/txscript/src/opcodes/mod.rs that occur in standard scripts. *)
Definition OpData32 : Z := 0x20.
Definition OpData33 : Z := 0x21.
Definition OpEqual : Z := 0x87.
Definition OpBlake2b : Z := 0xaa.
Definition OpCheckSigECDSA : Z := 0xab.
Definition OpCheckSig : Z := 0xac.

Definition pay_to_pub_key (p : bytes) : option bytes :=
  if (length p =? 32)%nat then Some ([OpData32] ++ p ++ [OpCheckSig]) else None.

Definition pay_to_pub_key_ecdsa (p : bytes) : option bytes :=
  if (length p =? 33)%nat then Some ([OpData33] ++ p ++ [OpCheckSigECDSA]) else None.

Definition pay_to_pub_key_dilithium (p : bytes) : option bytes :=
  if (length p =? 20)%nat then Some ([0x14] ++ p ++ [0xac]) else None.

Definition pay_to_script_hash (p : bytes) : option bytes :=
  if (length p =? 32)%nat then Some ([OpBlake2b; OpData32] ++ p ++ [OpEqual]) else None.

Inductive ScriptClass := NonStandard | ClassPubKey | ClassPubKeyECDSA | ClassScriptHash | ClassPubKeyDilithium.

#[export] Instance ScriptClass_eq_dec : EqDecision ScriptClass.
Proof. solve_decision. Defined.

(** [From<Version> for ScriptClass]. *)
Definition class_from_version (v : Version) : ScriptClass :=
  match v with
  | PubKey => ClassPubKey
  | PubKeyECDSA => ClassPubKeyECDSA
  | ScriptHash => ClassScriptHash
  | PubKeyDilithium => ClassPubKeyDilithium
  end.

Definition class_version (c : ScriptClass) : Z :=
  match c with NonStandard => 0 | _ => MAX_SCRIPT_PUBLIC_KEY_VERSION end.

Definition pay_to_address_script (a : Address) : option ScriptPublicKey :=
  let p := addr_payload a in
  script ← match addr_version a with
           | PubKey => pay_to_pub_key p
           | PubKeyECDSA => pay_to_pub_key_ecdsa p
           | ScriptHash => pay_to_script_hash p
           | PubKeyDilithium => pay_to_pub_key_dilithium p
           end;
  Some {| spk_version := class_version (class_from_version (addr_version a)); spk_script := script |}.

(** [script[i] == x], behind a length check. *)
Definition at_is (script : bytes) (i : nat) (x : Z) : bool := bool_decide (script !! i = Some x).

Definition is_pay_to_pubkey (s : bytes) : bool :=
  (length s =? 34)%nat && at_is s 0 OpData32 && at_is s 33 OpCheckSig.

Definition is_pay_to_pubkey_ecdsa (s : bytes) : bool :=
  (length s =? 35)%nat && at_is s 0 OpData33 && at_is s 34 OpCheckSigECDSA.

Definition is_pay_to_script_hash (s : bytes) : bool :=
  (length s =? 35)%nat && at_is s 0 OpBlake2b && at_is s 1 OpData32 && at_is s 34 OpEqual.

Definition is_pay_to_pubkey_dilithium (s : bytes) : bool :=
  (length s =? 22)%nat && at_is s 0 0x14 && at_is s 21 OpCheckSig.

Definition from_script (spk : ScriptPublicKey) : ScriptClass :=
  let s := spk_script spk in
  if spk_version spk =? MAX_SCRIPT_PUBLIC_KEY_VERSION then
    if is_pay_to_pubkey_dilithium s then ClassPubKeyDilithium
    else if is_pay_to_pubkey s then ClassPubKey
    else if is_pay_to_pubkey_ecdsa s then ClassPubKeyECDSA
    else if is_pay_to_script_hash s then ClassScriptHash
    else NonStandard
  else NonStandard.

Inductive ScriptError := PubKeyFormat.

Definition extract_script_pub_key_address (spk : ScriptPublicKey) (prefix : Prefix) :
    result (fault ScriptError) Address :=
  let class := from_script spk in
  if class_version class <? spk_version spk then Err (Error PubKeyFormat)
  else
    let s := spk_script spk in
    match class with
    | NonStandard => Err (Error PubKeyFormat)
    | ClassPubKey => ok_or Panic (Address_new prefix PubKey (take 32 (drop 1 s)))
    | ClassPubKeyECDSA => ok_or Panic (Address_new prefix PubKeyECDSA (take 33 (drop 1 s)))
    | ClassScriptHash => ok_or Panic (Address_new prefix ScriptHash (take 32 (drop 2 s)))
    | ClassPubKeyDilithium => ok_or Panic (Address_new prefix PubKeyDilithium (take 20 (drop 1 s)))
    end.

(** * Scripts and addresses *)

Lemma at_is_app_l (l r : bytes) x : at_is (l ++ [x] ++ r) (length l) x = true.
Proof. unfold at_is. apply bool_decide_eq_true. by rewrite lookup_app_r, Nat.sub_diag by done. Qed.

(** A script between a head and a last opcode. *)
Lemma framed (hd p : bytes) (x : Z) n :
  length p = n ->
  length (hd ++ p ++ [x]) = (length hd + n + 1)%nat /\ at_is (hd ++ p ++ [x]) (length hd + n) x = true /\
  take n (drop (length hd) (hd ++ p ++ [x])) = p.
Proof.
  intros <-. split; [rewrite !length_app; simpl; lia|]. split.
  - rewrite app_assoc, <-length_app. apply (at_is_app_l (hd ++ p) []).
  - by rewrite drop_app_length, take_app_length.
Qed.

Lemma unframe (s hd : bytes) (x : Z) n :
  length s = (length hd + n + 1)%nat -> take (length hd) s = hd -> s !! (length hd + n)%nat = Some x ->
  s = hd ++ take n (drop (length hd) s) ++ [x].
Proof.
  intros L Hh Hx. rewrite <-(take_drop (length hd) s) at 1. rewrite Hh. f_equal.
  rewrite <-(take_drop n (drop (length hd) s)) at 1. f_equal. rewrite drop_drop.
  assert (E : drop (length hd + n) s = x :: drop (length hd + n + 1) s).
  { rewrite (drop_S _ _ _ Hx). by rewrite Nat.add_1_r. }
  rewrite E, drop_ge by lia. done.
Qed.

Lemma head1 (s : bytes) a : s !! 0%nat = Some a -> take 1 s = [a].
Proof. destruct s; simpl; [done|]. by intros [= ->]. Qed.

Lemma head2 (s : bytes) a b : s !! 0%nat = Some a -> s !! 1%nat = Some b -> take 2 s = [a; b].
Proof. destruct s as [|? [|? ?]]; simpl; try done. by intros [= ->] [= ->]. Qed.

Lemma opcode_at (l : bytes) i x : (l !! i = Some x) -> at_is l i x = true.
Proof. intros E. by apply bool_decide_eq_true. Qed.

Lemma opcode_not (l : bytes) i x y : l !! i = Some y -> x <> y -> at_is l i x = false.
Proof. intros E Hne. apply bool_decide_eq_false. congruence. Qed.

(** Opcodes before the payload. *)
Definition head_len (v : Version) : nat := match v with ScriptHash => 2 | _ => 1 end.

(** The four shapes of a standard script. *)
Lemma from_script_shape v p :
  length p = public_key_len v ->
  exists script, pay_to_address_script {| addr_prefix := Mainnet; addr_version := v; addr_payload := p |} =
    Some {| spk_version := 0; spk_script := script |} /\
    from_script {| spk_version := 0; spk_script := script |} = class_from_version v /\
    take (public_key_len v) (drop (head_len v) script) = p.
Proof.
  intros L. unfold pay_to_address_script. cbn [addr_version addr_payload].
  destruct v; cbn [public_key_len] in L.
  - unfold pay_to_pub_key. rewrite L. destruct (framed [OpData32] p OpCheckSig 32 L) as (F1 & F2 & F3).
    cbn [length Nat.add] in F1, F2, F3.
    eexists. split; [done|]. unfold from_script, is_pay_to_pubkey_dilithium, is_pay_to_pubkey. cbn [spk_version spk_script].
    rewrite F1, F2. done.
  - unfold pay_to_pub_key_ecdsa. rewrite L. destruct (framed [OpData33] p OpCheckSigECDSA 33 L) as (F1 & F2 & F3).
    cbn [length Nat.add] in F1, F2, F3.
    eexists. split; [done|]. unfold from_script, is_pay_to_pubkey_dilithium, is_pay_to_pubkey, is_pay_to_pubkey_ecdsa.
    cbn [spk_version spk_script]. rewrite F1, F2. done.
  - unfold pay_to_script_hash. rewrite L. destruct (framed [OpBlake2b; OpData32] p OpEqual 32 L) as (F1 & F2 & F3).
    cbn [length Nat.add] in F1, F2, F3.
    eexists. split; [done|]. unfold from_script, is_pay_to_pubkey_dilithium, is_pay_to_pubkey, is_pay_to_pubkey_ecdsa,
      is_pay_to_script_hash. cbn [spk_version spk_script]. rewrite F1, F2. done.
  - unfold pay_to_pub_key_dilithium. rewrite L. destruct (framed [0x14] p OpCheckSig 20 L) as (F1 & F2 & F3).
    cbn [length Nat.add] in F1, F2, F3.
    eexists. split; [done|]. change [172] with [OpCheckSig].
    unfold from_script, is_pay_to_pubkey_dilithium. cbn [spk_version spk_script]. rewrite F1, F2. done.
Qed.

Lemma from_script_inv spk v :
  from_script spk = class_from_version v ->
  spk_version spk = 0 /\
  let p := take (public_key_len v) (drop (head_len v) (spk_script spk)) in
  length p = public_key_len v /\
  pay_to_address_script {| addr_prefix := Mainnet; addr_version := v; addr_payload := p |} = Some spk.
Proof.
  destruct spk as [ver s]. unfold from_script. cbn [spk_version spk_script].
  destruct (Z.eqb_spec ver MAX_SCRIPT_PUBLIC_KEY_VERSION) as [->|]; [|by destruct v].
  intros E. split; [done|].
  assert (Sh : forall hd x n, length s = (length hd + n + 1)%nat -> take (length hd) s = hd ->
    s !! (length hd + n)%nat = Some x ->
    length (take n (drop (length hd) s)) = n /\ s = hd ++ take n (drop (length hd) s) ++ [x]).
  { intros hd x n L Hh Hx. split; [rewrite length_take, length_drop; lia|by apply unframe]. }
  destruct (is_pay_to_pubkey_dilithium s) eqn:E1; [destruct v; try done|
    destruct (is_pay_to_pubkey s) eqn:E2; [destruct v; try done|
    destruct (is_pay_to_pubkey_ecdsa s) eqn:E3; [destruct v; try done|
    destruct (is_pay_to_script_hash s) eqn:E4; destruct v; try done]]].
  - unfold is_pay_to_pubkey_dilithium, at_is in E1. rewrite !andb_true_iff, !bool_decide_eq_true, Nat.eqb_eq in E1.
    destruct E1 as [[L H0] Hx]. destruct (Sh [0x14] 0xac 20%nat L (head1 _ _ H0) Hx) as [Lp Es].
    cbv zeta. split; [exact Lp|]. unfold pay_to_address_script, pay_to_pub_key_dilithium. cbn [addr_version addr_payload].
    cbn [public_key_len head_len length] in *. rewrite Lp. cbn [Nat.eqb mbind option_bind]. by rewrite <-Es.
  - unfold is_pay_to_pubkey, at_is in E2. rewrite !andb_true_iff, !bool_decide_eq_true, Nat.eqb_eq in E2.
    destruct E2 as [[L H0] Hx]. destruct (Sh [OpData32] OpCheckSig 32%nat L (head1 _ _ H0) Hx) as [Lp Es].
    cbv zeta. split; [exact Lp|]. unfold pay_to_address_script, pay_to_pub_key. cbn [addr_version addr_payload].
    cbn [public_key_len head_len length] in *. rewrite Lp. cbn [Nat.eqb mbind option_bind]. by rewrite <-Es.
  - unfold is_pay_to_pubkey_ecdsa, at_is in E3. rewrite !andb_true_iff, !bool_decide_eq_true, Nat.eqb_eq in E3.
    destruct E3 as [[L H0] Hx]. destruct (Sh [OpData33] OpCheckSigECDSA 33%nat L (head1 _ _ H0) Hx) as [Lp Es].
    cbv zeta. split; [exact Lp|]. unfold pay_to_address_script, pay_to_pub_key_ecdsa. cbn [addr_version addr_payload].
    cbn [public_key_len head_len length] in *. rewrite Lp. cbn [Nat.eqb mbind option_bind]. by rewrite <-Es.
  - unfold is_pay_to_script_hash, at_is in E4. rewrite !andb_true_iff, !bool_decide_eq_true, Nat.eqb_eq in E4.
    destruct E4 as [[[L H0] H1] Hx]. destruct (Sh [OpBlake2b; OpData32] OpEqual 32%nat L (head2 _ _ _ H0 H1) Hx) as [Lp Es].
    cbv zeta. split; [exact Lp|]. unfold pay_to_address_script, pay_to_script_hash. cbn [addr_version addr_payload].
    cbn [public_key_len head_len length] in *. rewrite Lp. cbn [Nat.eqb mbind option_bind]. by rewrite <-Es.
Qed.

(** Standard scripts and addresses correspond: a script public key has the address [a]
    on a network exactly when it is the script that pays to [a]; every address with a
    payload of the right length has such a script, and extraction never panics. *)
Theorem standard_script_address (spk : ScriptPublicKey) (prefix : Prefix) (a : Address) :
  0 <= spk_version spk ->
  (extract_script_pub_key_address spk prefix = Ok a <->
     addr_prefix a = prefix /\ pay_to_address_script a = Some spk) /\
  (is_Some (pay_to_address_script a) <-> length (addr_payload a) = public_key_len (addr_version a)) /\
  extract_script_pub_key_address spk prefix <> Err Panic.
Proof.
  intros Hv. destruct a as [ap av p]. cbn [addr_prefix addr_version addr_payload].
  assert (Hlen : is_Some (pay_to_address_script {| addr_prefix := ap; addr_version := av; addr_payload := p |}) ->
    length p = public_key_len av).
  { unfold pay_to_address_script. cbn [addr_version addr_payload]. intros [s Hs].
    destruct (Nat.eqb_spec (length p) (public_key_len av)) as [|Hne]; [done|]. apply Nat.eqb_neq in Hne.
    destruct av; cbn [public_key_len] in Hne;
      unfold pay_to_pub_key, pay_to_pub_key_ecdsa, pay_to_script_hash, pay_to_pub_key_dilithium in Hs;
      by rewrite Hne in Hs. }
  assert (Hcls : forall v, from_script spk = class_from_version v ->
    extract_script_pub_key_address spk prefix =
      Ok {| addr_prefix := prefix; addr_version := v;
            addr_payload := take (public_key_len v) (drop (head_len v) (spk_script spk)) |}).
  { intros v E. destruct (from_script_inv spk v E) as (Ev & Lp & _). unfold extract_script_pub_key_address.
    rewrite E, Ev. unfold Address_new. destruct v; cbn [class_from_version class_version head_len public_key_len] in *;
      rewrite Lp; done. }
  split; [split|split; [split|]].
  - intros E. destruct (from_script spk) eqn:Ec; [unfold extract_script_pub_key_address in E; rewrite Ec in E; by case_match|..];
      [pose proof (Hcls PubKey eq_refl) as H|pose proof (Hcls PubKeyECDSA eq_refl) as H|pose proof (Hcls ScriptHash eq_refl) as H|
       pose proof (Hcls PubKeyDilithium eq_refl) as H];
      rewrite H in E; injection E as <- <- <-; (split; [done|]).
    + apply (from_script_inv spk PubKey Ec).
    + apply (from_script_inv spk PubKeyECDSA Ec).
    + apply (from_script_inv spk ScriptHash Ec).
    + apply (from_script_inv spk PubKeyDilithium Ec).
  - intros [<- E]. destruct (from_script_shape av p) as (s & Es & Ec & Ep); [by apply Hlen|].
    assert (spk = {| spk_version := 0; spk_script := s |}) as -> by (unfold pay_to_address_script in *; cbn in *; congruence).
    rewrite (Hcls av Ec). cbn [spk_script]. by rewrite Ep.
  - apply Hlen.
  - intros L. destruct (from_script_shape av p L) as (s & Es & _). unfold pay_to_address_script in *.
    cbn [addr_version addr_payload] in *. eauto.
  - destruct (from_script spk) eqn:Ec; [unfold extract_script_pub_key_address; rewrite Ec; by case_match|..].
    + by rewrite (Hcls PubKey eq_refl).
    + by rewrite (Hcls PubKeyECDSA eq_refl).
    + by rewrite (Hcls ScriptHash eq_refl).
    + by rewrite (Hcls PubKeyDilithium eq_refl).
Qed.

Definition toy_p2pkh : ScriptPublicKey := {| spk_version := 0; spk_script := [0x14] ++ replicate 20 3 ++ [0xac] |}.
Definition toy_p2pkh_address : Address :=
  {| addr_prefix := Mainnet; addr_version := PubKeyDilithium; addr_payload := replicate 20 3 |}.

Lemma standard_script_address_witness :
  extract_script_pub_key_address toy_p2pkh Mainnet = Ok toy_p2pkh_address.
Proof. by apply (standard_script_address toy_p2pkh Mainnet toy_p2pkh_address). Defined.
