(* ===== verification/Account.v ===== *)
(** Accounts and flash transactions on the live account store
    (consensus/src/model/stores/account_store.rs,
    consensus/src/pipeline/virtual_processor/flash_tx.rs).

    The store is any type with the two accesses of [AccountAccess], the typed read
    and write of [DbAccountStore::access]; [AccountAccessLaws] says that it behaves
    as a map on the keys it has room for. The instances are the map itself and the
    cached, batched database of Access.v. Every operation is written once, against
    the interface; [simulates] carries its results from the map to any store. *)

From S2P Require Import Prelude Cache Access Tx.

(** * Account state *)

Record FlashEntry := {
  entry_flash_id : bytes;
  entry_expiry_daa_score : Z;
  entry_block_hash : bytes;
}.

#[export] Instance FlashEntry_eq_dec : EqDecision FlashEntry.
Proof. solve_decision. Defined.

Record AccountState := { balance : Z; recent_flashes : list FlashEntry }.

#[export] Instance AccountState_eq_dec : EqDecision AccountState.
Proof. solve_decision. Defined.

Definition AccountState_default : AccountState := {| balance := 0; recent_flashes := [] |}.
Definition AccountState_new (b : Z) : AccountState := {| balance := b; recent_flashes := [] |}.

Definition with_balance (a : AccountState) (b : Z) : AccountState :=
  {| balance := b; recent_flashes := recent_flashes a |}.

(** [sort_by] on [flash_id] is stable: an entry goes before the equal ones that follow it. *)
Fixpoint insert_entry (e : FlashEntry) (l : list FlashEntry) : list FlashEntry :=
  match l with
  | [] => [e]
  | x :: l' => if bytes_leb (entry_flash_id e) (entry_flash_id x) then e :: x :: l'
               else x :: insert_entry e l'
  end.

Definition sort_by_flash_id (l : list FlashEntry) : list FlashEntry := foldr insert_entry [] l.

Definition entry_bytes (e : FlashEntry) : bytes :=
  entry_flash_id e ++ to_le 8 (entry_expiry_daa_score e).

Definition to_canonical_bytes (a : AccountState) : bytes :=
  let flashes := sort_by_flash_id (recent_flashes a) in
  to_le 8 (balance a) ++ to_le 4 (Z.of_nat (length flashes)) ++ concat (map entry_bytes flashes).

Definition content_hash (sha3 : bytes -> bytes) (a : AccountState) : bytes :=
  sha3 (string_bytes "SAHYADRI_ACCOUNT_STATE_V1" ++ to_canonical_bytes a).

Definition is_empty (a : AccountState) : bool :=
  (balance a =? 0) && bool_decide (recent_flashes a = []).

Definition FLASH_EXPIRY_BLOCKS : Z := 100.
Definition FLASH_PRUNE_BUFFER : Z := 50.
Definition FLASH_PRUNE_WINDOW : Z := FLASH_EXPIRY_BLOCKS + FLASH_PRUNE_BUFFER.

Definition is_flash_replay (a : AccountState) (id : bytes) : bool :=
  existsb (fun e => bool_decide (entry_flash_id e = id)) (recent_flashes a).

Definition record_flash (a : AccountState) (id : bytes) (expiry : Z) (block_hash : bytes) : AccountState :=
  {| balance := balance a;
     recent_flashes := recent_flashes a ++
       [{| entry_flash_id := id; entry_expiry_daa_score := expiry; entry_block_hash := block_hash |}] |}.

Definition prune_recent_flashes (a : AccountState) (current_daa_score : Z) : AccountState :=
  let cutoff := saturating_sub current_daa_score FLASH_PRUNE_BUFFER in
  {| balance := balance a;
     recent_flashes := filter (fun e => cutoff < entry_expiry_daa_score e) (recent_flashes a) |}.

Definition reorg_block_flashes (a : AccountState) (block_hash : bytes) : AccountState * bool :=
  let kept := filter (fun e => entry_block_hash e <> block_hash) (recent_flashes a) in
  ({| balance := balance a; recent_flashes := kept |},
   (length kept <? length (recent_flashes a))%nat).

Definition estimate_mem_bytes (a : AccountState) : Z := 16 + Z.of_nat (length (recent_flashes a)) * 40.

(** * The store *)

Definition AccountKey_new (spk : ScriptPublicKey) : bytes := to_le 2 (spk_version spk) ++ spk_script spk.

Class AccountAccess (S : Type) := {
  acc_read : bytes -> st S StoreError AccountState;
  acc_write : bytes -> AccountState -> st S StoreError ();
}.

(** [x as i64] for a 64-bit [x]. *)
Definition as_i64 (x : Z) : Z :=
  let y := wrap 64 x in if y <? 2 ^ 63 then y else y - 2 ^ 64.

Section store.
Context {S : Type} `{AccountAccess S}.

Definition account_get (spk : ScriptPublicKey) : st S StoreError AccountState :=
  fun s =>
    match acc_read (AccountKey_new spk) s with
    | (s', Ok state) => (s', Ok state)
    | (s', Err (KeyNotFound _)) => (s', Ok AccountState_default)
    | (s', Err e) => (s', Err e)
    end.

Definition get_balance (spk : ScriptPublicKey) : st S StoreError Z :=
  state ← account_get spk; mret (balance state).

Definition get_last_tx_id (spk : ScriptPublicKey) : st S StoreError bytes := mret (replicate 32 0).

Definition set_batch (spk : ScriptPublicKey) (state : AccountState) : st S StoreError () :=
  acc_write (AccountKey_new spk) state.

Definition get_or_default (spk : ScriptPublicKey) : st S StoreError AccountState :=
  fun s => match account_get spk s with
           | (s', Ok a) => (s', Ok a)
           | (s', Err _) => (s', Ok AccountState_default)
           end.

(** The balance part of [update_balance_batch]: [change] is an [i64]. *)
Definition adjust_balance (b change : Z) : Z :=
  if 0 <=? change then saturating_add64 b change else saturating_sub b (- change).

Definition update_balance_batch (spk : ScriptPublicKey) (balance_change : Z) : st S StoreError () :=
  state ← get_or_default spk;
  set_batch spk (with_balance state (adjust_balance (balance state) balance_change)).

Definition set_last_tx_id_batch (spk : ScriptPublicKey) (tx_id : bytes) : st S StoreError () := mret tt.

End store.

(** * Flash transactions on the store *)

(** [hash20_to_p2pkh_spk]; [None] is its [assert!]. *)
Definition hash20_to_p2pkh_spk (hash20 : bytes) : option ScriptPublicKey :=
  if (20 <=? length hash20)%nat
  then Some {| spk_version := 0; spk_script := 20 :: take 20 hash20 ++ [172] |} else None.

Section flash.
Context (sha3 : bytes -> bytes).
Context {S : Type} `{AccountAccess S}.

Definition flash_pubkey_to_spk (pubkey : bytes) : ScriptPublicKey :=
  {| spk_version := 0; spk_script := 20 :: take 20 (sha3 pubkey) ++ [172] |}.

Abbreviation io m := (map_err Error m).

Definition apply_flash_tx (tx : FlashTransaction) (block_hash : bytes) : st S (fault StoreError) () :=
  let sender_spk := flash_pubkey_to_spk (pubkey tx) in
  recipient_spk ← or_panic (hash20_to_p2pkh_spk (recipient tx));
  sender ← io (account_get sender_spk);
  let total_debit := saturating_add64 (amount tx) (fee tx) in
  let sender := with_balance sender (saturating_sub (balance sender) total_debit) in
  let sender := record_flash sender (flash_id sha3 tx) (expiry_daa_score tx) block_hash in
  _ ← io (set_batch sender_spk sender);
  rcp ← io (account_get recipient_spk);
  let rcp := with_balance rcp (saturating_add64 (balance rcp) (amount tx)) in
  io (set_batch recipient_spk rcp).

Definition reorg_flash_tx (block_hash : bytes) (tx : FlashTransaction) : st S (fault StoreError) () :=
  let sender_spk := flash_pubkey_to_spk (pubkey tx) in
  recipient_spk ← or_panic (hash20_to_p2pkh_spk (recipient tx));
  sender ← io (account_get sender_spk);
  let '(sender, removed) := reorg_block_flashes sender block_hash in
  if negb removed then mret tt
  else
    let total_credit := saturating_add64 (amount tx) (fee tx) in
    let sender := with_balance sender (saturating_add64 (balance sender) total_credit) in
    _ ← io (set_batch sender_spk sender);
    rcp ← io (account_get recipient_spk);
    let rcp := with_balance rcp (saturating_sub (balance rcp) (amount tx)) in
    io (set_batch recipient_spk rcp).

(** The loop of [reorg_flash_block], one [reorg_flash_tx] per transaction. *)
Fixpoint reorg_flash_block (block_hash : bytes) (txs : list FlashTransaction) :
    st S (fault StoreError) () :=
  match txs with
  | [] => mret tt
  | tx :: txs' => _ ← reorg_flash_tx block_hash tx; reorg_flash_block block_hash txs'
  end.

Fixpoint prune_flashes_for_accounts (accounts : list ScriptPublicKey) (current_daa_score : Z) :
    st S StoreError () :=
  match accounts with
  | [] => mret tt
  | spk :: accounts' =>
      acc ← account_get spk;
      _ ← (if bool_decide (recent_flashes acc = []) then mret tt
           else
             let acc' := prune_recent_flashes acc current_daa_score in
             if (length (recent_flashes acc') =? length (recent_flashes acc))%nat then mret tt
             else set_batch spk acc');
      prune_flashes_for_accounts accounts' current_daa_score
  end.

End flash.

(** * The store as a map *)

Abbreviation accounts := (gmap bytes AccountState).

#[export] Instance map_account_access : AccountAccess accounts := {
  acc_read k m := (m, match m !! k with Some a => Ok a | None => Err (KeyNotFound k) end);
  acc_write k a m := (<[k := a]> m, Ok tt);
}.

Class AccountAccessLaws (S : Type) `{AccountAccess S} := {
  acc_rep : S -> accounts -> Prop;
  acc_key_ok : bytes -> Prop;
  acc_read_law s m k :
    acc_rep s m -> acc_key_ok k ->
    exists s', acc_rep s' m /\
      match m !! k with
      | Some a => acc_read k s = (s', Ok a)
      | None => exists k', acc_read k s = (s', Err (KeyNotFound k'))
      end;
  acc_write_law s m k a :
    acc_rep s m -> acc_key_ok k ->
    exists s', acc_write k a s = (s', Ok tt) /\ acc_rep s' (<[k := a]> m);
}.

#[export] Program Instance map_account_laws : AccountAccessLaws accounts := {
  acc_rep s m := s = m;
  acc_key_ok _ := True;
}.
Next Obligation.
  intros ? s k -> _. exists s. split; [done|]. simpl. destruct (s !! k); eauto.
Qed.
Next Obligation. intros ? s k a -> _. by eexists. Qed.

(** The account an absent key stands for. *)
Definition account_at (m : accounts) (spk : ScriptPublicKey) : AccountState :=
  default AccountState_default (m !! AccountKey_new spk).

Definition set_account (m : accounts) (spk : ScriptPublicKey) (a : AccountState) : accounts :=
  <[AccountKey_new spk := a]> m.

Lemma map_account_get m spk : account_get spk m = (m, Ok (account_at m spk)).
Proof. unfold account_get, account_at. simpl. by destruct (m !! AccountKey_new spk). Qed.

Lemma map_set_batch m spk a : set_batch spk a m = (set_account m spk a, Ok tt).
Proof. done. Qed.

(** [c1] on a store does what [c2] does on the map it represents. *)
Definition simulates {S} `{AccountAccessLaws S} {E A} (c1 : st S E A) (c2 : st accounts E A) : Prop :=
  forall s m, acc_rep s m -> (c1 s).2 = (c2 m).2 /\ acc_rep (c1 s).1 (c2 m).1.

Create HintDb sim.

Section simulation.
Context {S : Type} `{AccountAccessLaws S} (sha3 : bytes -> bytes).

Abbreviation key_ok spk := (acc_key_ok (AccountKey_new spk)).

Lemma sim_ret {E A} (a : A) : simulates (E := E) (mret a) (mret a).
Proof. by intros s m Hr. Qed.

Lemma sim_lift {E A} (r : result E A) : simulates (lift r) (lift r).
Proof. by intros s m Hr. Qed.

Lemma sim_bind {E A B} (c1 : st S E A) c2 (f1 : A -> st S E B) f2 :
  simulates c1 c2 -> (forall a, simulates (f1 a) (f2 a)) -> simulates (c1 ≫= f1) (c2 ≫= f2).
Proof.
  intros Hc Hf s m Hr. specialize (Hc s m Hr) as [E1 R1]. unfold mbind, st_bind.
  destruct (c1 s) as [s1 r1], (c2 m) as [m1 r2]. simpl in *. subst r2.
  destruct r1 as [a|e]; [by apply Hf|done].
Qed.

Lemma sim_map_err {E E' A} (g : E -> E') (c1 : st S E A) c2 :
  simulates c1 c2 -> simulates (map_err g c1) (map_err g c2).
Proof.
  intros Hc s m Hr. specialize (Hc s m Hr) as [E1 R1]. unfold map_err.
  destruct (c1 s) as [s1 r1], (c2 m) as [m1 r2]. simpl in *. subst r2. by destruct r1.
Qed.

Lemma sim_try_catch {E A} (c1 : st S (fault E) A) c2 :
  simulates c1 c2 -> simulates (try_catch c1) (try_catch c2).
Proof.
  intros Hc s m Hr. specialize (Hc s m Hr) as [E1 R1]. unfold try_catch.
  destruct (c1 s) as [s1 r1], (c2 m) as [m1 r2]. simpl in *. subst r2. by destruct r1 as [|[]].
Qed.

Lemma sim_or_panic {E A} (o : option A) :
  simulates (or_panic (E := E) o) (or_panic o).
Proof. apply sim_lift. Qed.

Lemma sim_account_get spk : key_ok spk -> simulates (account_get spk) (account_get spk).
Proof.
  intros Hk s m Hr. rewrite map_account_get. unfold account_get, account_at.
  destruct (acc_read_law s m _ Hr Hk) as (s' & Hr' & Hm).
  destruct (m !! AccountKey_new spk) as [a|]; [by rewrite Hm|].
  destruct Hm as [k' ->]. done.
Qed.

Lemma sim_set_batch spk a : key_ok spk -> simulates (set_batch spk a) (set_batch spk a).
Proof.
  intros Hk s m Hr. destruct (acc_write_law s m _ a Hr Hk) as (s' & E & Hr').
  unfold set_batch. rewrite E. by split.
Qed.

Lemma sim_update_balance spk d :
  key_ok spk -> simulates (update_balance_batch spk d) (update_balance_batch spk d).
Proof.
  intros Hk. apply sim_bind; [|intros; by apply sim_set_batch].
  intros s m Hr. destruct (sim_account_get spk Hk s m Hr) as [E R]. unfold get_or_default.
  destruct (account_get spk s) as [s' r1], (account_get spk m) as [m' r2]. simpl in *.
  subst r2. by destruct r1.
Qed.

#[local] Hint Resolve sim_ret sim_lift sim_or_panic sim_map_err sim_account_get sim_set_batch : sim.

Ltac sim := repeat (first [ apply sim_bind; [solve [eauto with sim]|intros] | progress eauto with sim ]).

(** Both accounts of a flash transaction have room in the store. *)
Definition flash_keys_ok (tx : FlashTransaction) : Prop :=
  key_ok (flash_pubkey_to_spk sha3 (pubkey tx)) /\
  forall spk, hash20_to_p2pkh_spk (recipient tx) = Some spk -> key_ok spk.

Lemma sim_recipient {E B} tx (f1 : ScriptPublicKey -> st S (fault E) B) f2 :
  (forall spk, hash20_to_p2pkh_spk (recipient tx) = Some spk -> simulates (f1 spk) (f2 spk)) ->
  simulates (or_panic (hash20_to_p2pkh_spk (recipient tx)) ≫= f1)
            (or_panic (hash20_to_p2pkh_spk (recipient tx)) ≫= f2).
Proof.
  intros Hf s m Hr. unfold or_panic, lift, mbind, st_bind.
  destruct (hash20_to_p2pkh_spk (recipient tx)); simpl; [by apply Hf|done].
Qed.

Lemma sim_apply_flash_tx tx b :
  flash_keys_ok tx -> simulates (apply_flash_tx sha3 tx b) (apply_flash_tx sha3 tx b).
Proof. intros [Hs Hr]. apply sim_recipient. intros spk Hspk. specialize (Hr _ Hspk). sim. Qed.

Lemma sim_reorg_flash_block b txs :
  Forall flash_keys_ok txs -> simulates (reorg_flash_block sha3 b txs) (reorg_flash_block sha3 b txs).
Proof.
  induction 1 as [|tx txs [Hs Hr] Htxs IH]; [apply sim_ret|].
  apply sim_bind; [|done]. apply sim_recipient. intros spk Hspk. specialize (Hr _ Hspk).
  apply sim_bind; [eauto with sim|]. intros a. destruct (reorg_block_flashes a b) as [a' []]; cbn [negb]; sim.
Qed.

Lemma sim_prune spks d :
  Forall (fun spk => key_ok spk) spks ->
  simulates (prune_flashes_for_accounts spks d) (prune_flashes_for_accounts spks d).
Proof.
  induction 1 as [|spk spks Hk Hspks IH]; [apply sim_ret|].
  apply sim_bind; [eauto with sim|]. intros a. apply sim_bind; [|done].
  destruct (bool_decide _); [eauto with sim|]. cbv zeta. destruct (Nat.eqb _ _); eauto with sim.
Qed.

End simulation.

(** * The cached, batched database as an account store *)

Section cached.
Context {D : Type} `{RocksDbLaws D}.
Context (serialize : AccountState -> result StoreError bytes).
Context (deserialize : bytes -> result StoreError AccountState).
Context (bincode : forall a, exists bs, serialize a = Ok bs /\ deserialize bs = Ok a).
Context (gen_range : nat -> nat -> nat).
Context (gen_range_lt : forall i n, (0 < n)%nat -> (gen_range i n < n)%nat).
Context (cache_size : Z) (prefix : bytes) (d : D).

Definition size_of_account (_ : MemMode) (a : AccountState) : Z := estimate_mem_bytes a.

(** [DbAccountStore]: a [CachePolicy::Count] cache, keys are [AccountKey] bytes. *)
Definition db_account_access : AccountAccess (Inner bytes AccountState * WriteBatch) := {|
  acc_read k := fun '(c, b) =>
    let '(c', r) := access_read id deserialize gen_range size_of_account
                      (policy_from (Count cache_size)) prefix d k c in
    ((c', b), r);
  acc_write := access_write id serialize gen_range size_of_account
                 (policy_from (Count cache_size)) prefix;
|}.

#[local] Existing Instance db_account_access.

Context (U : gset bytes) (U_fits : Z.of_nat (size U) < cache_size).

Definition db_account_rep (s : Inner bytes AccountState * WriteBatch) (m : accounts) : Prop :=
  batch_rep id deserialize size_of_account (policy_from (Count cache_size)) prefix s.1 d s.2 m /\
  dom (contents s.1) ⊆ U.

Lemma size_of_account_nonneg mode a : 0 <= size_of_account mode a.
Proof. unfold size_of_account, estimate_mem_bytes. lia. Qed.

Lemma db_account_room s m :
  db_account_rep s m -> has_room (policy_from (Count cache_size)) s.1.
Proof.
  intros [(Hw & _) Hd]. split; [done|]. destruct Hw as [[Hnd _] _].
  rewrite length_entries by done. rewrite <-size_dom. simpl.
  apply subseteq_size in Hd. lia.
Qed.

Lemma db_account_read s m k :
  db_account_rep s m -> k ∈ U ->
  exists s', db_account_rep s' m /\
    match m !! k with
    | Some a => acc_read k s = (s', Ok a)
    | None => exists k', acc_read k s = (s', Err (KeyNotFound k'))
    end.
Proof.
  intros Hs Hk. pose proof (db_account_room _ _ Hs) as Hroom. destruct s as [c b].
  destruct Hs as [Hb Hd]. pose proof Hroom as [_ Hlt]. simpl in Hlt.
  destruct (batch_read id serialize deserialize bincode gen_range gen_range_lt size_of_account
    size_of_account_nonneg (policy_from (Count cache_size)) ltac:(simpl; lia) ltac:(simpl; lia) prefix c d b m k Hb Hroom)
    as (c' & E & Hb' & Hd').
  exists (c', b). split; [split; [done|set_solver]|].
  cbn [acc_read db_account_access]. rewrite E. destruct (m !! k); simpl; eauto.
Qed.

Lemma db_account_write s m k a :
  db_account_rep s m -> k ∈ U ->
  exists s', acc_write k a s = (s', Ok tt) /\ db_account_rep s' (<[k := a]> m).
Proof.
  intros Hs Hk. pose proof (db_account_room _ _ Hs) as Hroom. destruct s as [c b].
  destruct Hs as [Hb Hd]. pose proof Hroom as [_ Hlt]. simpl in Hlt.
  destruct (batch_write id serialize deserialize bincode gen_range gen_range_lt size_of_account
    size_of_account_nonneg (policy_from (Count cache_size)) ltac:(simpl; lia) ltac:(simpl; lia)
    prefix c d b m k a Hb Hroom) as (c' & b' & E & Hb' & Hd').
  exists (c', b'). split; [exact E|]. split; [done|set_solver].
Qed.

Definition db_account_laws : AccountAccessLaws (Inner bytes AccountState * WriteBatch) := {|
  acc_rep := db_account_rep;
  acc_key_ok k := k ∈ U;
  acc_read_law := db_account_read;
  acc_write_law := db_account_write;
|}.

End cached.

(** * The canonical encoding *)

Definition entry_key (e : FlashEntry) : bytes * Z := (entry_flash_id e, entry_expiry_daa_score e).

(** Field ranges, and one expiry per flash id (the id hashes the expiry). *)
Definition account_wf (a : AccountState) : Prop :=
  u64_range (balance a) /\ Z.of_nat (length (recent_flashes a)) < 2 ^ 32 /\
  Forall (fun e => length (entry_flash_id e) = 32%nat /\ u64_range (entry_expiry_daa_score e))
    (recent_flashes a) /\
  Forall (fun e1 => Forall (fun e2 => entry_flash_id e1 = entry_flash_id e2 ->
      entry_expiry_daa_score e1 = entry_expiry_daa_score e2) (recent_flashes a)) (recent_flashes a).

#[export] Instance account_wf_dec a : Decision (account_wf a).
Proof. unfold account_wf. apply _. Defined.

Lemma insert_entry_perm e l : insert_entry e l ≡ₚ e :: l.
Proof.
  induction l as [|x l IH]; simpl; [done|]. destruct (bytes_leb _ _); [done|].
  rewrite IH. apply Permutation_swap.
Qed.

Lemma sort_by_flash_id_perm l : sort_by_flash_id l ≡ₚ l.
Proof. induction l as [|e l IH]; simpl; [done|]. by rewrite insert_entry_perm, IH. Qed.

Definition id_le (e1 e2 : FlashEntry) : Prop := bytes_le (entry_flash_id e1) (entry_flash_id e2).

Lemma insert_entry_sorted e l : StronglySorted id_le l -> StronglySorted id_le (insert_entry e l).
Proof.
  induction 1 as [|x l Hl IH Hx]; simpl; [by repeat constructor|].
  destruct (bytes_leb _ _) eqn:E.
  - constructor; [by constructor|]. constructor; [exact E|].
    eapply Forall_impl; [exact Hx|]. intros y Hy. by eapply bytes_le_trans.
  - constructor; [done|]. rewrite insert_entry_perm. constructor; [|done].
    destruct (total bytes_le (entry_flash_id e) (entry_flash_id x)) as [H|H]; [|exact H].
    unfold bytes_le in H. congruence.
Qed.

Lemma sort_by_flash_id_sorted l : StronglySorted id_le (sort_by_flash_id l).
Proof. induction l; simpl; [constructor|by apply insert_entry_sorted]. Qed.

Lemma sorted_ids l :
  StronglySorted bytes_le (map entry_flash_id (sort_by_flash_id l)).
Proof.
  pose proof (sort_by_flash_id_sorted l) as H. induction H as [|e s Hs IH He]; constructor; [done|].
  apply Forall_fmap. exact He.
Qed.

(** Lists of pairs in which the first component determines the second. *)
Lemma keys_determined (l1 l2 : list (bytes * Z)) :
  (forall k v1 v2, (k, v1) ∈ l1 -> (k, v2) ∈ l2 -> v1 = v2) -> l1.*1 = l2.*1 -> l1 = l2.
Proof.
  revert l2. induction l1 as [|[k v] l1 IH]; intros [|[k' v'] l2] Hf E; try done.
  simpl in E. injection E as -> E. f_equal.
  - f_equal. apply (Hf k'); left.
  - apply IH; [|done]. intros k v1 v2 H1 H2. apply (Hf k); by right.
Qed.

Lemma sorted_keys_perm l1 l2 :
  (forall e1 e2, e1 ∈ l1 -> e2 ∈ l1 -> entry_flash_id e1 = entry_flash_id e2 ->
     entry_expiry_daa_score e1 = entry_expiry_daa_score e2) ->
  map entry_key l1 ≡ₚ map entry_key l2 ->
  map entry_key (sort_by_flash_id l1) = map entry_key (sort_by_flash_id l2).
Proof.
  intros Hf P. apply keys_determined.
  - intros k v1 v2. rewrite !sort_by_flash_id_perm, <-P. rewrite !list_elem_of_fmap.
    intros (e1 & [= -> ->] & H1) (e2 & [= E ->] & H2). by apply Hf.
  - rewrite <-!list_fmap_compose. change (fst ∘ entry_key) with entry_flash_id.
    apply (StronglySorted_unique bytes_le); [apply sorted_ids|apply sorted_ids|].
    rewrite !sort_by_flash_id_perm.
    apply (fmap_Permutation fst) in P. by rewrite <-!list_fmap_compose in P.
Qed.

Lemma entry_bytes_inj l1 l2 :
  Forall (fun e => length (entry_flash_id e) = 32%nat /\ u64_range (entry_expiry_daa_score e)) l1 ->
  Forall (fun e => length (entry_flash_id e) = 32%nat /\ u64_range (entry_expiry_daa_score e)) l2 ->
  map entry_bytes l1 = map entry_bytes l2 -> map entry_key l1 = map entry_key l2.
Proof.
  intros H1. revert l2. induction H1 as [|e1 l1 [Hl1 Hr1] H1 IH]; intros l2 H2 E;
    destruct H2 as [|e2 l2 [Hl2 Hr2] H2]; try done.
  simpl in E. injection E as E E'. unfold entry_bytes in E.
  apply app_inj_1 in E as [Ei Ee]; [|congruence]. simpl. f_equal; [|by apply IH].
  unfold entry_key. f_equal; [done|]. by apply (to_le_inj 8).
Qed.

(** The canonical encoding of an account, which its content hash and so the block
    commitment cover, determines the balance and the multiset of (flash id, expiry)
    entries, and depends on nothing else: not on the order of the entries, nor on the
    block hashes. *)
Theorem account_canonical_bytes_iff a1 a2 :
  account_wf a1 -> account_wf a2 ->
  to_canonical_bytes a1 = to_canonical_bytes a2 <->
  balance a1 = balance a2 /\
  map entry_key (recent_flashes a1) ≡ₚ map entry_key (recent_flashes a2).
Proof.
  intros (Hb1 & Hl1 & He1 & Hf1) (Hb2 & Hl2 & He2 & _). unfold to_canonical_bytes. split.
  - intros E. apply app_inj_1 in E as [Eb E]; [|by rewrite !length_to_le].
    apply app_inj_1 in E as [_ E]; [|by rewrite !length_to_le].
    split; [by apply (to_le_inj 8)|].
    assert (L : forall l, Forall (fun e => length (entry_flash_id e) = 32%nat /\
        u64_range (entry_expiry_daa_score e)) l ->
        Forall (fun x => length x = 40%nat) (map entry_bytes (sort_by_flash_id l))).
    { intros l Hl. apply Forall_fmap. rewrite sort_by_flash_id_perm. eapply Forall_impl; [exact Hl|].
      intros e [Hi _]. unfold compose, entry_bytes. rewrite length_app, length_to_le. lia. }
    apply (concat_fixed_inj 40) in E; [|lia|by apply L|by apply L].
    apply entry_bytes_inj in E; [|by rewrite sort_by_flash_id_perm..].
    by rewrite <-(sort_by_flash_id_perm (recent_flashes a1)), E, sort_by_flash_id_perm.
  - intros [-> P]. f_equal.
    assert (K : map entry_key (sort_by_flash_id (recent_flashes a1)) =
                map entry_key (sort_by_flash_id (recent_flashes a2))).
    { apply sorted_keys_perm; [|done]. intros e1 e2 I1 I2. rewrite Forall_forall in Hf1.
      specialize (Hf1 e1 I1). rewrite Forall_forall in Hf1. by apply Hf1. }
    assert (B : forall l, map entry_bytes l = map (fun k => k.1 ++ to_le 8 k.2) (map entry_key l)).
    { intros l. by rewrite <-list_fmap_compose. }
    rewrite !B, K. f_equal. apply (f_equal length) in K. rewrite !length_fmap in K. by rewrite K.
Qed.

Definition toy_entry (i x : Z) (b : Z) : FlashEntry :=
  {| entry_flash_id := replicate 32 i; entry_expiry_daa_score := x; entry_block_hash := [b] |}.

Lemma account_canonical_bytes_iff_witness :
  to_canonical_bytes {| balance := 5; recent_flashes := [toy_entry 2 20 0; toy_entry 1 10 0] |} =
  to_canonical_bytes {| balance := 5; recent_flashes := [toy_entry 1 10 7; toy_entry 2 20 8] |}.
Proof.
  apply (account_canonical_bytes_iff
    {| balance := 5; recent_flashes := [toy_entry 2 20 0; toy_entry 1 10 0] |}
    {| balance := 5; recent_flashes := [toy_entry 1 10 7; toy_entry 2 20 8] |}).
  - apply (bool_decide_unpack _). by vm_compute.
  - apply (bool_decide_unpack _). by vm_compute.
  - split; [done|]. apply Permutation_swap.
Defined.

(** * Flash transactions on the map *)

Definition acct (m : accounts) (k : bytes) : AccountState := default AccountState_default (m !! k).

(** The sum of all balances. *)
Definition supply (m : accounts) : Z := map_fold (fun _ a acc => balance a + acc) 0 m.

Lemma supply_insert m k a : supply (<[k := a]> m) = supply m - balance (acct m k) + balance a.
Proof.
  unfold supply, acct.
  assert (C : forall (j1 j2 : bytes) (z1 z2 : AccountState) y,
    balance z1 + (balance z2 + y) = balance z2 + (balance z1 + y)) by (intros; lia).
  destruct (m !! k) as [a0|] eqn:E.
  - rewrite <-insert_delete_eq. rewrite map_fold_insert_L; [|intros; apply (C j1 j2)|apply lookup_delete_eq].
    pose proof (map_fold_delete_L (fun _ a acc => balance a + acc) 0 k a0 m) as D.
    simpl in D. rewrite D; [simpl; lia|intros; apply (C j1 j2)|done].
  - rewrite map_fold_insert_L; [simpl; lia|intros; apply (C j1 j2)|done].
Qed.

Lemma supply_bound m k : (forall j, 0 <= balance (acct m j)) -> balance (acct m k) <= supply m.
Proof.
  intros Hn. assert (P : forall m0 : accounts, (forall j, 0 <= balance (acct m0 j)) -> 0 <= supply m0).
  { intros m0. induction m0 as [|j a m0 Hj IH] using map_ind; [done|]. intros H0.
    rewrite supply_insert. unfold acct at 1. rewrite Hj. simpl.
    pose proof (H0 j) as Ha. unfold acct in Ha. rewrite lookup_insert_eq in Ha. simpl in Ha.
    enough (0 <= supply m0) by lia. apply IH. intros j'. destruct (decide (j' = j)) as [->|Hne].
    - unfold acct. rewrite Hj. done.
    - specialize (H0 j'). unfold acct in *. by rewrite lookup_insert_ne in H0. }
  pose proof (supply_insert m k AccountState_default) as S. simpl in S.
  enough (0 <= supply (<[k := AccountState_default]> m)) by lia. apply P.
  intros j. unfold acct. destruct (decide (j = k)) as [->|Hne].
  - by rewrite lookup_insert_eq.
  - rewrite lookup_insert_ne by done. apply Hn.
Qed.

Lemma acct_insert_eq m k a : acct (<[k := a]> m) k = a.
Proof. unfold acct. by rewrite lookup_insert_eq. Qed.

Lemma acct_insert_ne m k j a : j <> k -> acct (<[k := a]> m) j = acct m j.
Proof. intros. unfold acct. by rewrite lookup_insert_ne. Qed.

Create Rewrite HintDb acct.
#[export] Hint Rewrite acct_insert_eq : acct.
#[export] Hint Rewrite acct_insert_ne using congruence : acct.

Section flash_facts.
Context (sha3 : bytes -> bytes).
Implicit Types (m : accounts) (tx : FlashTransaction).

Definition sender_key tx : bytes := AccountKey_new (flash_pubkey_to_spk sha3 (pubkey tx)).

Definition debited tx (b : bytes) (a : AccountState) : AccountState :=
  record_flash (with_balance a (saturating_sub (balance a) (saturating_add64 (amount tx) (fee tx))))
    (flash_id sha3 tx) (expiry_daa_score tx) b.

Definition credited (v : Z) (a : AccountState) : AccountState :=
  with_balance a (saturating_add64 (balance a) v).

(** The effect of [apply_flash_tx] on the map, [rk] the key of the recipient. *)
Definition flash_effect tx (b rk : bytes) m : accounts :=
  let m1 := <[sender_key tx := debited tx b (acct m (sender_key tx))]> m in
  <[rk := credited (amount tx) (acct m1 rk)]> m1.

Lemma apply_flash_tx_map tx b m r :
  hash20_to_p2pkh_spk (recipient tx) = Some r ->
  apply_flash_tx sha3 tx b m = (flash_effect tx b (AccountKey_new r) m, Ok tt).
Proof.
  intros Hr. unfold apply_flash_tx, or_panic, lift. rewrite Hr. cbn [ok_or].
  unfold mbind, st_bind, map_err.
  repeat (rewrite map_account_get || rewrite map_set_batch; cbv beta iota zeta). done.
Qed.

(** Balances are non-negative and their sum fits a [u64]. *)
Definition supply_ok m : Prop := (forall j, 0 <= balance (acct m j)) /\ supply m < 2 ^ 64.

Definition covered tx m : Prop :=
  0 <= amount tx /\ 0 <= fee tx /\ amount tx + fee tx <= balance (acct m (sender_key tx)).

(** A covered transfer: nothing saturates, so the supply loses the fee and no more. *)
Lemma flash_effect_exact tx (b rk : bytes) m :
  supply_ok m -> covered tx m ->
  let m' := flash_effect tx b rk m in
  supply m' = supply m - fee tx /\ supply_ok m' /\
  forall j, balance (acct m' j) =
    balance (acct m j) - (if decide (j = sender_key tx) then amount tx + fee tx else 0)
    + (if decide (j = rk) then amount tx else 0).
Proof.
  intros [Hn Hs] (Ha & Hf & Hc) m'. set (sk := sender_key tx) in *.
  pose proof (supply_bound m sk Hn) as Bs. pose proof (supply_bound m rk Hn) as Br.
  assert (Hadd : saturating_add64 (amount tx) (fee tx) = amount tx + fee tx).
  { unfold saturating_add64, U64_MAX. lia. }
  set (m1 := <[sk := debited tx b (acct m sk)]> m).
  assert (D : balance (debited tx b (acct m sk)) = balance (acct m sk) - (amount tx + fee tx)).
  { cbn [debited record_flash with_balance balance]. rewrite Hadd. unfold saturating_sub. lia. }
  assert (S1 : supply m1 = supply m - (amount tx + fee tx)) by (unfold m1; rewrite supply_insert, D; lia).
  assert (B1 : forall j, balance (acct m1 j) =
    balance (acct m j) - (if decide (j = sk) then amount tx + fee tx else 0)).
  { intros j. unfold m1. destruct (decide (j = sk)) as [->|]; autorewrite with acct; [by rewrite D|lia]. }
  assert (N1 : forall j, 0 <= balance (acct m1 j)).
  { intros j. rewrite B1. specialize (Hn j). destruct (decide (j = sk)) as [->|]; lia. }
  pose proof (supply_bound m1 rk N1) as Br1.
  assert (Cr : balance (credited (amount tx) (acct m1 rk)) = balance (acct m1 rk) + amount tx).
  { cbn [credited with_balance balance]. unfold saturating_add64, U64_MAX. lia. }
  assert (S2 : supply m' = supply m - fee tx).
  { unfold m', flash_effect. fold sk. fold m1. rewrite supply_insert, Cr, S1. lia. }
  assert (B2 : forall j, balance (acct m' j) =
    balance (acct m j) - (if decide (j = sk) then amount tx + fee tx else 0)
    + (if decide (j = rk) then amount tx else 0)).
  { intros j. unfold m', flash_effect. fold sk. fold m1.
    destruct (decide (j = rk)) as [->|]; autorewrite with acct; rewrite ?Cr, B1; lia. }
  split; [done|]. split; [|done]. split; [|lia].
  intros j. rewrite B2. specialize (N1 j). rewrite B1 in N1. destruct (decide (j = rk)); lia.
Qed.

(** The entry is in the sender's history, the other histories are unchanged. *)
Lemma flash_effect_entries tx (b rk : bytes) m j :
  recent_flashes (acct (flash_effect tx b rk m) j) =
  recent_flashes (acct m j) ++
  (if decide (j = sender_key tx)
   then [{| entry_flash_id := flash_id sha3 tx; entry_expiry_daa_score := expiry_daa_score tx;
            entry_block_hash := b |}] else []).
Proof.
  unfold flash_effect. set (sk := sender_key tx).
  assert (H1 : recent_flashes (acct (<[sk := debited tx b (acct m sk)]> m) j) =
    recent_flashes (acct m j) ++ (if decide (j = sk)
      then [{| entry_flash_id := flash_id sha3 tx; entry_expiry_daa_score := expiry_daa_score tx;
               entry_block_hash := b |}] else [])).
  { destruct (decide (j = sk)) as [->|]; autorewrite with acct; [done|by rewrite app_nil_r]. }
  destruct (decide (j = rk)) as [->|Hr]; autorewrite with acct; exact H1.
Qed.

(** The effect of one turn of [reorg_flash_block] on the map. *)
Definition reorg_effect tx (b rk : bytes) m : accounts :=
  let sk := sender_key tx in
  let '(a, removed) := reorg_block_flashes (acct m sk) b in
  if removed then
    let m1 := <[sk := credited (saturating_add64 (amount tx) (fee tx)) a]> m in
    <[rk := with_balance (acct m1 rk) (saturating_sub (balance (acct m1 rk)) (amount tx))]> m1
  else m.

Lemma reorg_flash_tx_map tx b m r :
  hash20_to_p2pkh_spk (recipient tx) = Some r ->
  reorg_flash_tx sha3 b tx m = (reorg_effect tx b (AccountKey_new r) m, Ok tt).
Proof.
  intros Hr. unfold reorg_flash_tx, or_panic, lift. rewrite Hr. cbn [ok_or].
  unfold mbind, st_bind, map_err. rewrite map_account_get. cbv beta iota zeta.
  unfold reorg_effect. change (acct m (sender_key tx)) with (account_at m (flash_pubkey_to_spk sha3 (pubkey tx))).
  destruct (reorg_block_flashes _ b) as [a []]; cbn [negb]; [|done].
  repeat (rewrite map_account_get || rewrite map_set_batch; cbv beta iota zeta). done.
Qed.

Lemma reorg_block_flashes_app (a : AccountState) es tail b :
  recent_flashes a = es ++ tail -> tail <> [] ->
  Forall (fun e => entry_block_hash e = b) tail -> Forall (fun e => entry_block_hash e <> b) es ->
  reorg_block_flashes a b = ({| balance := balance a; recent_flashes := es |}, true).
Proof.
  intros Ha Hne He Hes. unfold reorg_block_flashes. rewrite Ha, filter_app, (filter_all _ es Hes).
  rewrite (filter_none _ tail) by (eapply Forall_impl; [exact He|]; by intros e -> Hn).
  rewrite app_nil_r. f_equal. apply Nat.ltb_lt. rewrite length_app. destruct tail; [done|simpl; lia].
Qed.

Lemma reorg_block_flashes_none (a : AccountState) b :
  Forall (fun e => entry_block_hash e <> b) (recent_flashes a) -> reorg_block_flashes a b = (a, false).
Proof.
  intros Hes. unfold reorg_block_flashes. rewrite (filter_all _ _ Hes). f_equal; [by destruct a|].
  apply Nat.ltb_irrefl.
Qed.

Lemma AccountState_eq (a1 a2 : AccountState) :
  balance a1 = balance a2 -> recent_flashes a1 = recent_flashes a2 -> a1 = a2.
Proof. destruct a1, a2. simpl. by intros -> ->. Qed.

(** Unwinding a block that carries one flash transaction restores every account,
    balance and flash history, when the transaction was covered and the block had
    left no other entry with the sender. *)
Theorem flash_reorg_undoes_apply tx b m r :
  hash20_to_p2pkh_spk (recipient tx) = Some r ->
  supply_ok m -> supply m < 2 ^ 63 -> covered tx m ->
  Forall (fun e => entry_block_hash e <> b) (recent_flashes (acct m (sender_key tx))) ->
  exists m', (apply_flash_tx sha3 tx b ≫= fun _ => reorg_flash_block sha3 b [tx]) m = (m', Ok tt) /\
             forall k, acct m' k = acct m k.
Proof.
  intros Hr Hok Hs Hc Hes. set (rk := AccountKey_new r). set (m1 := flash_effect tx b rk m).
  exists (reorg_effect tx b rk m1). split.
  { unfold mbind, st_bind. rewrite (apply_flash_tx_map tx b m r Hr). cbn.
    unfold mbind, st_bind. by rewrite (reorg_flash_tx_map tx b _ r Hr). }
  pose proof (flash_effect_exact tx b rk m Hok Hc) as (_ & _ & B). fold m1 in B.
  pose proof (flash_effect_entries tx b rk m) as En. fold m1 in En.
  destruct Hok as [Hn _], Hc as (Ha & Hf & Hc). set (sk := sender_key tx) in *.
  pose proof (supply_bound m sk Hn) as Bs. pose proof (En sk) as Es. rewrite decide_True in Es by done.
  unfold reorg_effect. fold sk. rewrite (reorg_block_flashes_app _ _ _ b Es) by (done || by repeat constructor).
  assert (Hadd : saturating_add64 (amount tx) (fee tx) = amount tx + fee tx).
  { unfold saturating_add64, U64_MAX. lia. }
  rewrite Hadd. set (m2 := <[sk := _]> m1).
  assert (B2 : forall k, balance (acct m2 k) = balance (acct m k) + if decide (k = rk) then amount tx else 0).
  { intros k. specialize (B k). unfold m2. destruct (decide (k = sk)) as [->|]; autorewrite with acct; [|lia].
    cbn [credited with_balance balance]. unfold saturating_add64, U64_MAX. destruct (decide (sk = rk)); lia. }
  intros k. apply AccountState_eq.
  - specialize (B2 k). destruct (decide (k = rk)) as [->|]; autorewrite with acct; [|lia].
    cbn [with_balance balance]. unfold saturating_sub. specialize (Hn rk). lia.
  - assert (E2 : recent_flashes (acct m2 k) = recent_flashes (acct m k)).
    { unfold m2. destruct (decide (k = sk)) as [->|]; autorewrite with acct; [done|].
      rewrite En, decide_False by done. by rewrite app_nil_r. }
    destruct (decide (k = rk)) as [->|]; autorewrite with acct; [exact E2|exact E2].
Qed.

(** Two flash transactions of one sender in a block are not both unwound. The
    first turn of [reorg_flash_block] removes all the entries the block left with the
    sender, so the second finds none and skips its refund: after applying both and
    unwinding the block the sender is short of the second amount and fee. *)
Theorem flash_reorg_same_sender_unrefunded tx1 tx2 b m r1 r2 :
  hash20_to_p2pkh_spk (recipient tx1) = Some r1 -> hash20_to_p2pkh_spk (recipient tx2) = Some r2 ->
  sender_key tx2 = sender_key tx1 ->
  AccountKey_new r1 <> sender_key tx1 -> AccountKey_new r2 <> sender_key tx1 ->
  supply_ok m -> supply m < 2 ^ 63 -> covered tx1 m ->
  0 <= amount tx2 -> 0 <= fee tx2 ->
  amount tx1 + fee tx1 + (amount tx2 + fee tx2) <= balance (acct m (sender_key tx1)) ->
  Forall (fun e => entry_block_hash e <> b) (recent_flashes (acct m (sender_key tx1))) ->
  exists m', (apply_flash_tx sha3 tx1 b ≫= fun _ => apply_flash_tx sha3 tx2 b ≫= fun _ =>
                reorg_flash_block sha3 b [tx1; tx2]) m = (m', Ok tt) /\
    balance (acct m' (sender_key tx1)) =
    balance (acct m (sender_key tx1)) - (amount tx2 + fee tx2).
Proof.
  intros Hr1 Hr2 Hsk Hn1 Hn2 Hok Hs Hc1 Ha2 Hf2 Hcov Hes.
  set (k1 := AccountKey_new r1) in *. set (k2 := AccountKey_new r2) in *.
  set (m1 := flash_effect tx1 b k1 m). set (m2 := flash_effect tx2 b k2 m1).
  exists (reorg_effect tx2 b k2 (reorg_effect tx1 b k1 m2)). split.
  { unfold mbind, st_bind. rewrite (apply_flash_tx_map tx1 b m r1 Hr1). fold k1 m1.
    rewrite (apply_flash_tx_map tx2 b m1 r2 Hr2). fold k2 m2. cbn. unfold mbind, st_bind.
    rewrite (reorg_flash_tx_map tx1 b _ r1 Hr1). by rewrite (reorg_flash_tx_map tx2 b _ r2 Hr2). }
  pose proof (flash_effect_exact tx1 b k1 m Hok Hc1) as (S1 & Hok1 & B1). fold m1 in S1, Hok1, B1.
  set (sk := sender_key tx1) in *. pose proof (B1 sk) as B1s.
  rewrite decide_True, decide_False in B1s by congruence.
  assert (Hc2 : covered tx2 m1) by (split_and!; [done..|rewrite Hsk; lia]).
  pose proof (flash_effect_exact tx2 b k2 m1 Hok1 Hc2) as (_ & _ & B2). fold m2 in B2.
  specialize (B2 sk). rewrite Hsk, decide_True, decide_False in B2 by congruence.
  pose proof (flash_effect_entries tx1 b k1 m sk) as E1. fold m1 in E1.
  pose proof (flash_effect_entries tx2 b k2 m1 sk) as E2. fold m2 in E2.
  rewrite Hsk, decide_True in E2 by done. rewrite decide_True in E1 by done.
  rewrite E1, <-app_assoc in E2. destruct Hok as [Hn _]. pose proof (supply_bound m sk Hn) as Bs.
  assert (R1 : acct (reorg_effect tx1 b k1 m2) sk =
    credited (saturating_add64 (amount tx1) (fee tx1))
      {| balance := balance (acct m2 sk); recent_flashes := recent_flashes (acct m sk) |}).
  { unfold reorg_effect. fold sk. rewrite (reorg_block_flashes_app _ _ _ b E2) by (done || by repeat constructor).
    by autorewrite with acct. }
  unfold reorg_effect at 1. rewrite Hsk. rewrite reorg_block_flashes_none by (by rewrite R1).
  rewrite R1. cbn [credited with_balance balance]. destruct Hc1 as (? & ? & ?).
  unfold saturating_add64, U64_MAX. lia.
Qed.

End flash_facts.

(** * Concrete data *)

Definition toy_sha3 (bs : bytes) : bytes := take 32 (bs ++ replicate 32 0).

Definition toy_accounts : accounts :=
  {[ sender_key toy_sha3 toy_flash := AccountState_new 10000 ]}.

Lemma toy_supply_ok : supply_ok toy_accounts.
Proof.
  split; [|by vm_compute]. intros j. unfold acct, toy_accounts.
  destruct (decide (j = sender_key toy_sha3 toy_flash)) as [->|].
  - by rewrite lookup_singleton_eq.
  - by rewrite lookup_singleton_ne.
Qed.

Lemma flash_reorg_undoes_apply_witness :
  exists m', (apply_flash_tx toy_sha3 toy_flash [7] ≫= fun _ =>
                reorg_flash_block toy_sha3 [7] [toy_flash]) toy_accounts = (m', Ok tt) /\
             forall k, acct m' k = acct toy_accounts k.
Proof.
  eapply (flash_reorg_undoes_apply toy_sha3 toy_flash [7] toy_accounts).
  - reflexivity.
  - apply toy_supply_ok.
  - by vm_compute.
  - by vm_compute.
  - vm_compute. constructor.
Defined.

Lemma flash_reorg_same_sender_unrefunded_witness :
  exists m', (apply_flash_tx toy_sha3 toy_flash [7] ≫= fun _ => apply_flash_tx toy_sha3 toy_flash [7] ≫=
                fun _ => reorg_flash_block toy_sha3 [7] [toy_flash; toy_flash]) toy_accounts = (m', Ok tt) /\
    balance (acct m' (sender_key toy_sha3 toy_flash)) =
    balance (acct toy_accounts (sender_key toy_sha3 toy_flash)) - (1000 + 2000).
Proof.
  eapply (flash_reorg_same_sender_unrefunded toy_sha3 toy_flash toy_flash [7] toy_accounts).
  - reflexivity.
  - reflexivity.
  - reflexivity.
  - by vm_compute.
  - by vm_compute.
  - apply toy_supply_ok.
  - by vm_compute.
  - by vm_compute.
  - by vm_compute.
  - by vm_compute.
  - by vm_compute.
  - vm_compute. constructor.
Defined.
