(* ===== verification/Coinbase.v ===== *)
(** Coinbase payloads, block subsidy and reward split
    (consensus/src/processes/coinbase.rs, consensus/core/src/coinbase.rs, and
    [check_coinbase_blue_score_and_subsidy] of
    consensus/src/pipeline/body_processor/body_validation_in_context.rs).

    [hex_string] stands for [faster_hex::hex_string]. *)

From S2P Require Import Prelude Tx Account.

Record MinerData := { miner_spk : ScriptPublicKey; extra_data : bytes }.

Record CoinbaseData := { cb_blue_score : Z; cb_subsidy : Z; cb_miner_data : MinerData }.

Record BlockRewardData := {
  reward_subsidy : Z;
  total_fees : Z;
  reward_spk : ScriptPublicKey;
}.

Inductive CoinbaseError :=
| PayloadLenBelowMin (len min : Z)
| PayloadLenAboveMax (len max : Z)
| PayloadScriptPublicKeyLenAboveMax (len max : Z)
| PayloadCantContainScriptPublicKey (len min : Z).

#[export] Instance CoinbaseError_eq_dec : EqDecision CoinbaseError.
Proof. solve_decision. Defined.

(** The fields of [CoinbaseManager] that are read; [bps_after] is [_bps_history.after()]. *)
Record CoinbaseManager := {
  coinbase_payload_script_public_key_max_len : Z;
  max_coinbase_payload_len : Z;
  bps_after : Z;
}.

Definition LENGTH_OF_BLUE_SCORE : nat := 8.
Definition LENGTH_OF_SUBSIDY : nat := 8.
Definition LENGTH_OF_SCRIPT_PUB_KEY_VERSION : nat := 2.
Definition LENGTH_OF_SCRIPT_PUB_KEY_LENGTH : nat := 1.
Definition MIN_PAYLOAD_LENGTH : Z :=
  Z.of_nat (LENGTH_OF_BLUE_SCORE + LENGTH_OF_SUBSIDY + LENGTH_OF_SCRIPT_PUB_KEY_VERSION
            + LENGTH_OF_SCRIPT_PUB_KEY_LENGTH).

Section coinbase.
Context (cm : CoinbaseManager).

(** The part both [serialize] and [modify] write after blue score and subsidy. *)
Definition miner_bytes (md : MinerData) : bytes :=
  let script := spk_script (miner_spk md) in
  to_le 2 (spk_version (miner_spk md)) ++ to_le 1 (Z.of_nat (length script)) ++ script ++ extra_data md.

Definition check_spk_len (md : MinerData) : result CoinbaseError () :=
  let len := Z.of_nat (length (spk_script (miner_spk md))) in
  if coinbase_payload_script_public_key_max_len cm <? len
  then Err (PayloadScriptPublicKeyLenAboveMax len (coinbase_payload_script_public_key_max_len cm))
  else Ok tt.

Definition serialize_coinbase_payload (data : CoinbaseData) : result CoinbaseError bytes :=
  _ ← check_spk_len (cb_miner_data data);
  Ok (to_le 8 (cb_blue_score data) ++ to_le 8 (cb_subsidy data) ++ miner_bytes (cb_miner_data data)).

Definition modify_coinbase_payload (payload : bytes) (md : MinerData) : result CoinbaseError bytes :=
  _ ← check_spk_len md;
  Ok (take (LENGTH_OF_BLUE_SCORE + LENGTH_OF_SUBSIDY) payload ++ miner_bytes md).

(** [PayloadParser::take]: [split_at], which panics out of range; here always in range. *)
Definition parser_take (n : nat) (remaining : bytes) : bytes * bytes :=
  (take n remaining, drop n remaining).

Definition deserialize_coinbase_payload (payload : bytes) : result CoinbaseError CoinbaseData :=
  let len := Z.of_nat (length payload) in
  if len <? MIN_PAYLOAD_LENGTH then Err (PayloadLenBelowMin len MIN_PAYLOAD_LENGTH)
  else if max_coinbase_payload_len cm <? len
  then Err (PayloadLenAboveMax len (max_coinbase_payload_len cm))
  else
    let '(blue_score, remaining) := parser_take LENGTH_OF_BLUE_SCORE payload in
    let '(subsidy, remaining) := parser_take LENGTH_OF_SUBSIDY remaining in
    let '(version, remaining) := parser_take LENGTH_OF_SCRIPT_PUB_KEY_VERSION remaining in
    let '(script_len, remaining) := parser_take LENGTH_OF_SCRIPT_PUB_KEY_LENGTH remaining in
    let script_len := from_le script_len in
    if coinbase_payload_script_public_key_max_len cm <? script_len
    then Err (PayloadScriptPublicKeyLenAboveMax script_len (coinbase_payload_script_public_key_max_len cm))
    else if Z.of_nat (length remaining) <? script_len
    then Err (PayloadCantContainScriptPublicKey len (MIN_PAYLOAD_LENGTH + script_len))
    else
      let '(script, extra) := parser_take (Z.to_nat script_len) remaining in
      Ok {| cb_blue_score := from_le blue_score; cb_subsidy := from_le subsidy;
            cb_miner_data := {| miner_spk := {| spk_version := from_le version; spk_script := script |};
                                extra_data := extra |} |}.

(** [halving_interval * bps] wraps like the source's product; [checked_shr] by less
    than 64 is a shift. *)
Definition calc_block_subsidy (blue_score : Z) : Z :=
  let base_reward := 8318123 in
  let halving_interval := wmul64 126230400 (bps_after cm) in
  let halvings := blue_score / halving_interval in
  if 64 <=? halvings then 0 else Z.shiftr base_reward halvings.

(** The header fields and coinbase payload that the body check looks at. The computed
    subsidy is discarded: the comparison is commented out in the source. *)
Inductive SubsidyRuleError :=
| BadCoinbasePayloadBlueScore (got expected : Z)
| BadCoinbasePayload (e : CoinbaseError).

Definition check_coinbase_blue_score_and_subsidy (header_blue_score header_daa_score : Z)
    (coinbase_payload : bytes) : result SubsidyRuleError () :=
  match deserialize_coinbase_payload coinbase_payload with
  | Ok data =>
      if negb (cb_blue_score data =? header_blue_score)
      then Err (BadCoinbasePayloadBlueScore (cb_blue_score data) header_blue_score)
      else
        let _expected_subsidy := calc_block_subsidy header_daa_score in
        Ok tt
  | Err e => Err (BadCoinbasePayload e)
  end.

End coinbase.

(** * Rewards of a mergeset *)

Section rewards.
Context (hex_string : bytes -> bytes).

Definition SAHYADRI_TREASURY_ADDRESS : bytes :=
  string_bytes "csm1sxh5at56p0c6s9gwtj0mumwcly258gexk5zxp0xvj6".

Definition extract_address (spk : ScriptPublicKey) : bytes :=
  hex_string (to_le 2 (spk_version spk) ++ to_le 1 (Z.of_nat (length (spk_script spk))) ++ spk_script spk).

(** [*account_rewards.entry(k).or_insert(0) += v as i64] *)
Definition add_reward (rewards : gmap bytes Z) (k : bytes) (v : Z) : gmap bytes Z :=
  <[k := as_i64 (default 0 (rewards !! k) + as_i64 v)]> rewards.

(** 5% of the subsidy and 10% of the fees to the treasury, the rest to the miner. *)
Definition split_reward (rewards : gmap bytes Z) (miner : ScriptPublicKey) (subsidy fees : Z) :
    gmap bytes Z :=
  let total_reward := wadd64 subsidy fees in
  if 0 <? total_reward then
    let total_dev_fee := wadd64 (subsidy / 20) (fees / 10) in
    let miner_reward := wsub64 total_reward total_dev_fee in
    add_reward (add_reward rewards (extract_address miner) miner_reward)
      SAHYADRI_TREASURY_ADDRESS total_dev_fee
  else rewards.

Definition reward_blue (mergeset_rewards : gmap bytes BlockRewardData) (non_daa : gset bytes)
    (rewards : gmap bytes Z) (blue : bytes) : gmap bytes Z :=
  if bool_decide (blue ∈ non_daa) then rewards
  else match mergeset_rewards !! blue with
       | Some d => split_reward rewards (reward_spk d) (reward_subsidy d) (total_fees d)
       | None => rewards
       end.

Definition sum_red (mergeset_rewards : gmap bytes BlockRewardData) (non_daa : gset bytes)
    (acc : Z * Z) (red : bytes) : Z * Z :=
  match mergeset_rewards !! red with
  | Some d =>
      if bool_decide (red ∈ non_daa) then (acc.1, wadd64 acc.2 (total_fees d))
      else (wadd64 acc.1 (reward_subsidy d), wadd64 acc.2 (total_fees d))
  | None => acc
  end.

Definition expected_coinbase_transaction (md : MinerData) (mergeset_blues mergeset_reds : list bytes)
    (mergeset_rewards : gmap bytes BlockRewardData) (non_daa : gset bytes) : gmap bytes Z :=
  let rewards := foldl (reward_blue mergeset_rewards non_daa) ∅ mergeset_blues in
  let '(red_subsidy, red_fees) := foldl (sum_red mergeset_rewards non_daa) (0, 0) mergeset_reds in
  split_reward rewards (miner_spk md) red_subsidy red_fees.

(** The [account_diff] of [calculate_virtual_state]: the rewards of an empty map. *)
Definition virtual_account_diff (mergeset_blues mergeset_reds : list bytes) (non_daa : gset bytes) : gmap bytes Z :=
  let empty_miner_data := {| miner_spk := {| spk_version := 0; spk_script := [] |}; extra_data := [] |} in
  expected_coinbase_transaction empty_miner_data mergeset_blues mergeset_reds ∅ non_daa.

Lemma virtual_account_diff_empty blues reds non_daa : virtual_account_diff blues reds non_daa = ∅.
Proof.
  assert (B : foldl (reward_blue ∅ non_daa) ∅ blues = ∅).
  { induction blues as [|b blues IH]; [done|]. cbn [foldl]. unfold reward_blue at 2. rewrite lookup_empty.
    by case_bool_decide. }
  assert (R : foldl (sum_red ∅ non_daa) (0, 0) reds = (0, 0)).
  { induction reds as [|r reds IH]; [done|]. cbn [foldl]. unfold sum_red at 2. by rewrite lookup_empty. }
  unfold virtual_account_diff, expected_coinbase_transaction. by rewrite B, R.
Qed.

End rewards.

(** * Payload round trips *)

Definition spk_wf (spk : ScriptPublicKey) : Prop :=
  0 <= spk_version spk < 2 ^ 16 /\ Z.of_nat (length (spk_script spk)) < 256.

Section payload_facts.
Context (cm : CoinbaseManager).

Lemma take_to_le n x r : take n (to_le n x ++ r) = to_le n x.
Proof. by rewrite take_app_length' by (by rewrite length_to_le). Qed.

Lemma drop_to_le n x r : drop n (to_le n x ++ r) = r.
Proof. by rewrite drop_app_length' by (by rewrite length_to_le). Qed.

Lemma deserialize_spec blue_score subsidy md :
  u64_range blue_score -> u64_range subsidy -> spk_wf (miner_spk md) ->
  check_spk_len cm md = Ok tt ->
  let p := to_le 8 blue_score ++ to_le 8 subsidy ++ miner_bytes md in
  Z.of_nat (length p) <= max_coinbase_payload_len cm ->
  deserialize_coinbase_payload cm p =
  Ok {| cb_blue_score := blue_score; cb_subsidy := subsidy; cb_miner_data := md |}.
Proof.
  intros Hb Hs [Hv Hl] Hlen p Hmax. unfold deserialize_coinbase_payload.
  assert (L : MIN_PAYLOAD_LENGTH <= Z.of_nat (length p)).
  { unfold p, miner_bytes. rewrite !length_app, !length_to_le. change MIN_PAYLOAD_LENGTH with 19. lia. }
  destruct (Z.ltb_spec (Z.of_nat (length p)) MIN_PAYLOAD_LENGTH); [lia|].
  destruct (Z.ltb_spec (max_coinbase_payload_len cm) (Z.of_nat (length p))); [lia|].
  unfold parser_take, LENGTH_OF_BLUE_SCORE, LENGTH_OF_SUBSIDY, LENGTH_OF_SCRIPT_PUB_KEY_VERSION,
    LENGTH_OF_SCRIPT_PUB_KEY_LENGTH. unfold p, miner_bytes.
  rewrite !drop_to_le, !take_to_le. rewrite (from_to_le_small 1) by (simpl; lia).
  unfold check_spk_len in Hlen. destruct (coinbase_payload_script_public_key_max_len cm <? _); [done|].
  rewrite length_app. destruct (Z.ltb_spec (Z.of_nat (length (spk_script (miner_spk md)) + length (extra_data md)))
    (Z.of_nat (length (spk_script (miner_spk md))))); [lia|].
  rewrite Nat2Z.id, take_app_length, drop_app_length.
  rewrite !(from_to_le_small 8), (from_to_le_small 2) by done. by destruct md as [[]].
Qed.

(** A payload written by [serialize_coinbase_payload] parses back to its data, and
    [modify_coinbase_payload] replaces the miner data and keeps blue score and subsidy. *)
Theorem coinbase_payload_roundtrip data md p p' :
  u64_range (cb_blue_score data) -> u64_range (cb_subsidy data) ->
  spk_wf (miner_spk (cb_miner_data data)) -> spk_wf (miner_spk md) ->
  serialize_coinbase_payload cm data = Ok p -> modify_coinbase_payload cm p md = Ok p' ->
  Z.of_nat (length p) <= max_coinbase_payload_len cm ->
  Z.of_nat (length p') <= max_coinbase_payload_len cm ->
  deserialize_coinbase_payload cm p = Ok data /\
  deserialize_coinbase_payload cm p' =
    Ok {| cb_blue_score := cb_blue_score data; cb_subsidy := cb_subsidy data; cb_miner_data := md |}.
Proof.
  intros Hb Hs Hw Hw' Hp Hp' Hl Hl'. unfold serialize_coinbase_payload in Hp.
  apply result_bind_ok in Hp as ([] & C & Ep%Ok_inj). unfold modify_coinbase_payload in Hp'.
  apply result_bind_ok in Hp' as ([] & C' & Ep'%Ok_inj). subst p. split.
  - rewrite deserialize_spec by done. by destruct data.
  - assert (T : take (LENGTH_OF_BLUE_SCORE + LENGTH_OF_SUBSIDY)
      (to_le 8 (cb_blue_score data) ++ to_le 8 (cb_subsidy data) ++ miner_bytes (cb_miner_data data))
      = to_le 8 (cb_blue_score data) ++ to_le 8 (cb_subsidy data)).
    { rewrite app_assoc. by rewrite take_app_length' by (by rewrite length_app, !length_to_le). }
    rewrite T, <-app_assoc in Ep'. subst p'. by apply deserialize_spec.
Qed.

(** The body check does not look at the subsidy: whatever value the miner writes
    into the coinbase payload, the block passes [check_coinbase_blue_score_and_subsidy]
    and the payload is read back with that subsidy. *)
Theorem coinbase_subsidy_unchecked data daa_score p :
  u64_range (cb_blue_score data) -> u64_range (cb_subsidy data) ->
  spk_wf (miner_spk (cb_miner_data data)) -> serialize_coinbase_payload cm data = Ok p ->
  Z.of_nat (length p) <= max_coinbase_payload_len cm ->
  check_coinbase_blue_score_and_subsidy cm (cb_blue_score data) daa_score p = Ok tt /\
  (cb_subsidy <$> deserialize_coinbase_payload cm p) = Ok (cb_subsidy data).
Proof.
  intros Hb Hs Hw Hp Hl. unfold serialize_coinbase_payload in Hp.
  apply result_bind_ok in Hp as ([] & C & Ep%Ok_inj). subst p.
  unfold check_coinbase_blue_score_and_subsidy. rewrite deserialize_spec by done. simpl.
  by rewrite Z.eqb_refl.
Qed.

End payload_facts.

Definition toy_manager : CoinbaseManager :=
  {| coinbase_payload_script_public_key_max_len := 150; max_coinbase_payload_len := 204; bps_after := 1 |}.

Definition toy_miner : MinerData :=
  {| miner_spk := {| spk_version := 0; spk_script := [1; 2; 3] |}; extra_data := [9] |}.

Definition toy_coinbase : CoinbaseData :=
  {| cb_blue_score := 5; cb_subsidy := 2 ^ 63; cb_miner_data := toy_miner |}.

Lemma coinbase_payload_roundtrip_witness :
  exists p, serialize_coinbase_payload toy_manager toy_coinbase = Ok p /\
  deserialize_coinbase_payload toy_manager p = Ok toy_coinbase /\
  exists p', modify_coinbase_payload toy_manager p
      {| miner_spk := miner_spk toy_miner; extra_data := [] |} = Ok p' /\
    deserialize_coinbase_payload toy_manager p' =
    Ok {| cb_blue_score := 5; cb_subsidy := 2 ^ 63;
          cb_miner_data := {| miner_spk := miner_spk toy_miner; extra_data := [] |} |}.
Proof.
  eexists. split; [reflexivity|].
  edestruct (coinbase_payload_roundtrip toy_manager toy_coinbase
    {| miner_spk := miner_spk toy_miner; extra_data := [] |}) as [E1 E2];
    [| | | |reflexivity|reflexivity| | |split; [exact E1|eexists; split; [reflexivity|exact E2]]];
    try (vm_compute; by repeat split).
Defined.

Lemma coinbase_subsidy_unchecked_witness :
  exists p, check_coinbase_blue_score_and_subsidy toy_manager 5 5 p = Ok tt /\
    (cb_subsidy <$> deserialize_coinbase_payload toy_manager p) = Ok (2 ^ 63).
Proof.
  eexists. apply (coinbase_subsidy_unchecked toy_manager toy_coinbase 5); [| | |reflexivity|];
    vm_compute; by repeat split.
Defined.

(** * Subsidy *)

(** What blocks at blue scores 0, 1, ..., n-1 may issue, one block each. *)
Fixpoint issued (cm : CoinbaseManager) (n : nat) : Z :=
  match n with
  | O => 0
  | S n' => issued cm n' + calc_block_subsidy cm (Z.of_nat n')
  end.

Definition MAX_KANA : Z := 21000000 * 100000000.

Section subsidy_facts.
Context (cm : CoinbaseManager) (bps : bps_after cm = 1).

Lemma calc_block_subsidy_shift s :
  0 <= s -> calc_block_subsidy cm s = Z.shiftr 8318123 (s / 126230400).
Proof.
  intros Hs. unfold calc_block_subsidy. rewrite bps. rewrite wmul64_small by lia. rewrite Z.mul_1_r.
  destruct (Z.leb_spec 64 (s / 126230400)) as [H|H]; [|done].
  rewrite Z.shiftr_div_pow2 by lia. symmetry. apply Z.div_small. split; [lia|].
  apply (Z.lt_le_trans _ (2 ^ 64)); [lia|]. apply Z.pow_le_mono_r; lia.
Qed.

Lemma shiftr_half q : 0 <= q -> 2 * Z.shiftr 8318123 (q + 1) <= Z.shiftr 8318123 q.
Proof.
  intros Hq. rewrite !Z.shiftr_div_pow2 by lia. rewrite Z.pow_add_r by lia.
  rewrite <-Z.div_div by (pose proof (Z.pow_pos_nonneg 2 q); lia). apply Z.mul_div_le. lia.
Qed.

(** [q] halvings done and [r] blocks into the next period. *)
Lemma issued_bound n :
  let q := Z.of_nat n / 126230400 in
  let r := Z.of_nat n mod 126230400 in
  issued cm n <= 126230400 * (2 * 8318123 - 2 * Z.shiftr 8318123 q) + r * Z.shiftr 8318123 q.
Proof.
  induction n as [|n IH]; [vm_compute; discriminate|].
  cbn [issued]. rewrite calc_block_subsidy_shift by lia. cbv zeta in *.
  set (q := Z.of_nat n / 126230400) in *. set (r := Z.of_nat n mod 126230400) in *.
  assert (D : Z.of_nat n = 126230400 * q + r) by (apply Z.div_mod; lia).
  assert (Hr : 0 <= r < 126230400) by (apply Z.mod_pos_bound; lia).
  assert (Hq : 0 <= q) by (apply Z.div_pos; lia).
  pose proof (shiftr_half q Hq) as H2.
  destruct (decide (r + 1 = 126230400)) as [E|E].
  - assert (Z.of_nat (S n) / 126230400 = q + 1) as -> by (symmetry; apply Z.div_unique with 0; lia).
    assert (Z.of_nat (S n) mod 126230400 = 0) as -> by (symmetry; apply Z.mod_unique with (q + 1); lia).
    nia.
  - assert (Z.of_nat (S n) / 126230400 = q) as -> by (symmetry; apply Z.div_unique with (r + 1); lia).
    assert (Z.of_nat (S n) mod 126230400 = r + 1) as -> by (symmetry; apply Z.mod_unique with q; lia).
    nia.
Qed.

(** At one block per second the subsidy schedule respects the supply cap: however
    long the chain, the subsidies [calc_block_subsidy] allows sum to at most
    [MAX_KANA], 21 million coins. *)
Theorem subsidy_schedule_capped n : issued cm n <= MAX_KANA.
Proof.
  pose proof (issued_bound n) as H. cbv zeta in H.
  set (q := Z.of_nat n / 126230400) in *. set (r := Z.of_nat n mod 126230400) in *.
  assert (Hr : 0 <= r < 126230400) by (apply Z.mod_pos_bound; lia).
  assert (0 <= Z.shiftr 8318123 q) by (apply Z.shiftr_nonneg; lia).
  unfold MAX_KANA. nia.
Qed.

End subsidy_facts.

Lemma subsidy_schedule_capped_witness : issued toy_manager 3 <= MAX_KANA.
Proof. apply (subsidy_schedule_capped toy_manager). reflexivity. Defined.

(** * Reward split *)

Section reward_facts.
Context (hex_string : bytes -> bytes).

Definition sum_values (m : gmap bytes Z) : Z := map_fold (fun _ v acc => v + acc) 0 m.

Lemma sum_values_insert m k v : sum_values (<[k := v]> m) = sum_values m - default 0 (m !! k) + v.
Proof.
  unfold sum_values.
  assert (C : forall (j1 j2 : bytes) (z1 z2 y : Z), z1 + (z2 + y) = z2 + (z1 + y)) by (intros; lia).
  destruct (m !! k) as [v0|] eqn:E.
  - rewrite <-insert_delete_eq. rewrite map_fold_insert_L; [|intros; apply (C j1 j2)|apply lookup_delete_eq].
    pose proof (map_fold_delete_L (fun _ v acc => v + acc) 0 k v0 m) as D.
    simpl in D. rewrite D; [simpl; lia|intros; apply (C j1 j2)|done].
  - rewrite map_fold_insert_L; [simpl; lia|intros; apply (C j1 j2)|done].
Qed.

(** Non-negative rewards with a sum below 2^63. *)
Definition rewards_ok (m : gmap bytes Z) : Prop := map_Forall (fun _ v => 0 <= v) m /\ sum_values m < 2 ^ 63.

Lemma sum_values_nonneg m : map_Forall (fun _ v => 0 <= v) m -> 0 <= sum_values m.
Proof.
  induction m as [|k v m Hk IH] using map_ind; [done|]. intros H.
  apply map_Forall_insert in H as [H1 H2]; [|done]. rewrite sum_values_insert, Hk. simpl.
  specialize (IH H2). lia.
Qed.

Lemma as_i64_small x : 0 <= x < 2 ^ 63 -> as_i64 x = x.
Proof.
  intros H. unfold as_i64. rewrite wrap_small by lia. destruct (Z.ltb_spec x (2 ^ 63)); [done|lia].
Qed.

Lemma add_reward_spec m k v :
  rewards_ok m -> 0 <= v -> sum_values m + v < 2 ^ 63 ->
  rewards_ok (add_reward m k v) /\ sum_values (add_reward m k v) = sum_values m + v.
Proof.
  intros [Hn Hs] Hv Hlt. unfold add_reward.
  assert (Hd : 0 <= default 0 (m !! k) <= sum_values m).
  { pose proof (sum_values_insert m k 0) as E. split.
    - destruct (m !! k) as [w|] eqn:G; [exact (Hn k w G)|done].
    - enough (0 <= sum_values (<[k := 0]> m)) by lia. apply sum_values_nonneg.
      by apply map_Forall_insert_2. }
  pose proof (sum_values_nonneg m Hn).
  rewrite (as_i64_small v) by lia. rewrite as_i64_small by lia.
  rewrite sum_values_insert. split; [|lia]. split; [|rewrite sum_values_insert; lia].
  apply map_Forall_insert_2; [lia|done].
Qed.

Lemma split_reward_spec m spk s f :
  rewards_ok m -> 0 <= s -> 0 <= f -> sum_values m + (s + f) < 2 ^ 63 ->
  rewards_ok (split_reward hex_string m spk s f) /\
  sum_values (split_reward hex_string m spk s f) = sum_values m + (s + f).
Proof.
  intros Hok Hs Hf Hlt. pose proof (sum_values_nonneg m (proj1 Hok)). unfold split_reward.
  rewrite (wadd64_small s f) by lia.
  assert (D1 : 0 <= s / 20 <= s) by (split; [apply Z.div_pos|apply Z.div_le_upper_bound]; lia).
  assert (D2 : 0 <= f / 10 <= f) by (split; [apply Z.div_pos|apply Z.div_le_upper_bound]; lia).
  destruct (Z.ltb_spec 0 (s + f)); [|split; [done|lia]].
  rewrite (wadd64_small (s / 20)) by lia. rewrite wsub64_small by lia.
  destruct (add_reward_spec m (extract_address hex_string spk) (s + f - (s / 20 + f / 10)))
    as [Hok1 E1]; [done|lia|lia|].
  destruct (add_reward_spec (add_reward m (extract_address hex_string spk) (s + f - (s / 20 + f / 10)))
    SAHYADRI_TREASURY_ADDRESS (s / 20 + f / 10)) as [Hok2 E2]; [done|lia|lia|].
  split; [done|]. lia.
Qed.

Section mergeset.
Context (rewards : gmap bytes BlockRewardData) (non_daa : gset bytes).
Context (nonneg : map_Forall (fun _ d => 0 <= reward_subsidy d /\ 0 <= total_fees d) rewards).

(** What a blue block earns: subsidy and fees, nothing when it is outside the
    difficulty window; a red block outside the window still yields its fees. *)
Definition blue_reward (b : bytes) : Z :=
  if bool_decide (b ∈ non_daa) then 0
  else match rewards !! b with Some d => reward_subsidy d + total_fees d | None => 0 end.

Definition red_reward (b : bytes) : Z * Z :=
  match rewards !! b with
  | Some d => (if bool_decide (b ∈ non_daa) then 0 else reward_subsidy d, total_fees d)
  | None => (0, 0)
  end.

Lemma blue_reward_nonneg b : 0 <= blue_reward b.
Proof.
  unfold blue_reward. destruct (bool_decide _); [done|]. destruct (rewards !! b) as [d|] eqn:E; [|done].
  destruct (nonneg b d E). lia.
Qed.

Lemma red_reward_nonneg b : 0 <= (red_reward b).1 /\ 0 <= (red_reward b).2.
Proof.
  unfold red_reward. destruct (rewards !! b) as [d|] eqn:E; [|done].
  destruct (nonneg b d E). by destruct (bool_decide _).
Qed.

Lemma reward_blues_spec blues m :
  rewards_ok m -> sum_values m + sumZ blue_reward blues < 2 ^ 63 ->
  rewards_ok (foldl (reward_blue hex_string rewards non_daa) m blues) /\
  sum_values (foldl (reward_blue hex_string rewards non_daa) m blues) =
  sum_values m + sumZ blue_reward blues.
Proof.
  revert m. induction blues as [|b blues IH]; intros m Hok Hlt; simpl in *; [split; [done|lia]|].
  pose proof (blue_reward_nonneg b). pose proof (sumZ_nonneg blue_reward blues blue_reward_nonneg).
  assert (B : rewards_ok (reward_blue hex_string rewards non_daa m b) /\
    sum_values (reward_blue hex_string rewards non_daa m b) = sum_values m + blue_reward b).
  { unfold reward_blue, blue_reward in *. destruct (bool_decide _); [split; [done|lia]|].
    destruct (rewards !! b) as [d|] eqn:E; [|split; [done|lia]].
    destruct (nonneg b d E). apply split_reward_spec; auto; lia. }
  destruct B as [Hok1 E1]. destruct (IH _ Hok1) as [Hok2 E2]; [lia|]. split; [done|lia].
Qed.

Lemma sum_reds_spec reds s f :
  0 <= s -> 0 <= f -> s + f + sumZ (fun b => (red_reward b).1 + (red_reward b).2) reds < 2 ^ 63 ->
  foldl (sum_red rewards non_daa) (s, f) reds =
  (s + sumZ (fun b => (red_reward b).1) reds, f + sumZ (fun b => (red_reward b).2) reds).
Proof.
  revert s f. induction reds as [|b reds IH]; intros s f Hs Hf Hlt; simpl in *; [f_equal; lia|].
  pose proof (red_reward_nonneg b) as [R1 R2].
  pose proof (sumZ_nonneg (fun b => (red_reward b).1 + (red_reward b).2) reds
    ltac:(intros x; pose proof (red_reward_nonneg x); lia)).
  assert (B : sum_red rewards non_daa (s, f) b = (s + (red_reward b).1, f + (red_reward b).2)).
  { unfold sum_red, red_reward in *. destruct (rewards !! b) as [d|]; [|simpl; f_equal; lia].
    destruct (bool_decide _); simpl in *; f_equal; try lia; apply wadd64_small; lia. }
  rewrite B, IH by lia. f_equal; lia.
Qed.

(** C40: The coinbase split neither creates nor loses value: the rewards credited for a
    mergeset sum to the subsidies and fees of its rewarded blocks, miner and treasury
    shares together, while the totals fit an [i64]. *)
Theorem coinbase_split_conserves md blues reds :
  sumZ blue_reward blues + sumZ (fun b => (red_reward b).1 + (red_reward b).2) reds < 2 ^ 63 ->
  sum_values (expected_coinbase_transaction hex_string md blues reds rewards non_daa) =
  sumZ blue_reward blues + sumZ (fun b => (red_reward b).1 + (red_reward b).2) reds.
Proof.
  intros Hlt. unfold expected_coinbase_transaction.
  pose proof (sumZ_nonneg blue_reward blues blue_reward_nonneg).
  assert (N : forall g : Z * Z -> Z, (forall b, 0 <= g (red_reward b)) ->
    0 <= sumZ (fun b => g (red_reward b)) reds) by (intros; by apply sumZ_nonneg).
  pose proof (N fst (fun b => proj1 (red_reward_nonneg b))).
  pose proof (N snd (fun b => proj2 (red_reward_nonneg b))).
  assert (E : sumZ (fun b => (red_reward b).1 + (red_reward b).2) reds =
    sumZ (fun b => (red_reward b).1) reds + sumZ (fun b => (red_reward b).2) reds).
  { clear. induction reds; simpl; lia. }
  rewrite E in *. change (sum_values ∅) with 0 in *.
  destruct (reward_blues_spec blues ∅) as [Hok Eb]; [by split|change (sum_values ∅) with 0; lia|].
  rewrite sum_reds_spec by (rewrite ?E; lia). change (sum_values ∅) with 0 in Eb.
  destruct (split_reward_spec (foldl (reward_blue hex_string rewards non_daa) ∅ blues) (miner_spk md)
    (0 + sumZ (fun b => (red_reward b).1) reds) (0 + sumZ (fun b => (red_reward b).2) reds))
    as [_ Er]; [done|lia|lia|lia|]. rewrite Er. lia.
Qed.

End mergeset.
End reward_facts.

Lemma coinbase_split_conserves_witness :
  let d := {| reward_subsidy := 1000; total_fees := 55; reward_spk := miner_spk toy_miner |} in
  sum_values (expected_coinbase_transaction id toy_miner [[1]] [[2]] {[ [1] := d; [2] := d ]} {[ [2] ]}) =
  1110.
Proof.
  intros d. etransitivity; [apply (coinbase_split_conserves id {[ [1] := d; [2] := d ]} {[ [2] ]})|].
  - apply map_Forall_insert_2; [done|]. by apply map_Forall_singleton.
  - by vm_compute.
  - by vm_compute.
Defined.
