(* ===== verification/Validator.v ===== *)
(** Transaction validation (consensus/src/processes/transaction_validator/).

    Context-free checks, the lock-time check against the containing header, and the
    checks against the account store with the flash transaction rules. ML-DSA
    verification is the parameter [verify pubkey signature message], the script engine
    run by [check_scripts] the parameter [execute_input]. Error messages keep their
    fixed text only. *)

From S2P Require Import Prelude Cache Access Tx Account Coinbase.

Inductive TxRuleError :=
| NoTxInputs
| TxDuplicateInputs
| TxHasGas
| UnknownTxVersion (version : Z)
| SubnetworksDisabled (id : bytes)
| TooManyInputs (got max : Z)
| TooManyOutputs (got max : Z)
| TooBigSignatureScript (i : nat) (max : Z)
| TooBigScriptPublicKey (i : nat) (max : Z)
| CoinbaseHasInputs (n : nat)
| CoinbaseNonZeroMassCommitment
| CoinbaseTooManyOutputs (got max : Z)
| CoinbaseScriptPublicKeyTooLong (i : nat)
| TxOutZero (i : nat)
| TxOutTooHigh (i : nat)
| OutputsValueOverflow
| TotalTxOutTooHigh
| NotFinalized (i : nat)
| ZeroFee
| InputAmountOverflow
| SpendTooHigh (needed have : Z)
| InvalidPayload
| Unknown
| Message (text : string).

#[export] Instance TxRuleError_eq_dec : EqDecision TxRuleError.
Proof. solve_decision. Defined.

Record TransactionValidator := {
  max_tx_inputs : Z;
  max_tx_outputs : Z;
  max_signature_script_len : Z;
  max_script_public_key_len : Z;
  validator_coinbase_spk_max_len : Z;
}.

Definition TX_VERSION : Z := 0.
Definition LOCK_TIME_THRESHOLD : Z := 500000000000.
Definition PUBKEY_SIZE : nat := 1952.
Definition SIG_SIZE : nat := 3309.

(** [iter().position(p)] *)
Fixpoint position {A} (p : A -> bool) (l : list A) : option nat :=
  match l with
  | [] => None
  | x :: l' => if p x then Some 0%nat else S <$> position p l'
  end.

(** * Checks in isolation *)

Section isolation.
Context (sha256 : bytes -> bytes) (verify : bytes -> bytes -> bytes -> bool).
Context (tv : TransactionValidator).

Abbreviation check := (result TxRuleError ()).

Definition is_did_payload (p : bytes) : bool :=
  (4 <=? Z.of_nat (length p)) &&
  (bool_decide (take 4 p = string_bytes "DCRT") || bool_decide (take 4 p = string_bytes "DUPD")
   || bool_decide (take 4 p = string_bytes "DDEC")).

Definition check_transaction_inputs_count (tx : Transaction) : check :=
  if negb (is_coinbase tx) && bool_decide (inputs tx = []) && bool_decide (payload tx = [])
  then Err NoTxInputs
  else if max_tx_inputs tv <? Z.of_nat (length (inputs tx))
  then Err (TooManyInputs (Z.of_nat (length (inputs tx))) (max_tx_inputs tv))
  else Ok tt.

Definition check_transaction_signature_scripts (tx : Transaction) : check :=
  match position (fun i => max_signature_script_len tv <? Z.of_nat (length (signature_script i))) (inputs tx) with
  | Some i => Err (TooBigSignatureScript i (max_signature_script_len tv))
  | None => Ok tt
  end.

Definition check_transaction_inputs_in_isolation (tx : Transaction) : check :=
  _ ← check_transaction_inputs_count tx;
  check_transaction_signature_scripts tx.

Definition check_transaction_outputs_count (tx : Transaction) : check :=
  if is_coinbase tx then Ok tt
  else if max_tx_outputs tv <? Z.of_nat (length (outputs tx))
  then Err (TooManyOutputs (Z.of_nat (length (outputs tx))) (max_tx_inputs tv))
  else Ok tt.

Definition spk_longer (max : Z) (o : TransactionOutput) : bool :=
  max <? Z.of_nat (length (spk_script (script_public_key o))).

Definition check_transaction_script_public_keys (tx : Transaction) : check :=
  match position (spk_longer (max_script_public_key_len tv)) (outputs tx) with
  | Some i => Err (TooBigScriptPublicKey i (max_script_public_key_len tv))
  | None => Ok tt
  end.

Definition check_transaction_outputs_in_isolation (tx : Transaction) : check :=
  _ ← check_transaction_outputs_count tx;
  check_transaction_script_public_keys tx.

Definition check_coinbase_in_isolation (tx : Transaction) : check :=
  if negb (is_coinbase tx) then Ok tt
  else if negb (bool_decide (inputs tx = [])) then Err (CoinbaseHasInputs (length (inputs tx)))
  else if 0 <? mass tx then Err CoinbaseNonZeroMassCommitment
  else if 100 <? Z.of_nat (length (outputs tx))
  then Err (CoinbaseTooManyOutputs (Z.of_nat (length (outputs tx))) 100)
  else match position (spk_longer (validator_coinbase_spk_max_len tv)) (outputs tx) with
       | Some i => Err (CoinbaseScriptPublicKeyTooLong i)
       | None => Ok tt
       end.

(** The loop of [check_transaction_output_value_ranges] from index [i] with the running total. *)
Fixpoint output_values_loop (i : nat) (total : Z) (os : list TransactionOutput) : check :=
  match os with
  | [] => Ok tt
  | o :: os' =>
      if value o =? 0 then Err (TxOutZero i)
      else if MAX_KANA <? value o then Err (TxOutTooHigh i)
      else match checked_add64 total (value o) with
           | None => Err OutputsValueOverflow
           | Some total' =>
               if MAX_KANA <? total' then Err TotalTxOutTooHigh
               else output_values_loop (S i) total' os'
           end
  end.

Definition check_transaction_output_value_ranges (tx : Transaction) : check :=
  output_values_loop 0 0 (outputs tx).

Fixpoint duplicate_inputs_loop (existing : list RegistryRef) (ins : list TransactionInput) : check :=
  match ins with
  | [] => Ok tt
  | i :: ins' =>
      if bool_decide (previous_outpoint i ∈ existing) then Err TxDuplicateInputs
      else duplicate_inputs_loop (previous_outpoint i :: existing) ins'
  end.

Definition check_duplicate_transaction_inputs (tx : Transaction) : check :=
  duplicate_inputs_loop [] (inputs tx).

Definition check_gas (tx : Transaction) : check := if 0 <? gas tx then Err TxHasGas else Ok tt.

Definition check_transaction_subnetwork (tx : Transaction) : check :=
  if is_coinbase tx || bool_decide (subnetwork_id tx = SUBNETWORK_ID_NATIVE) then Ok tt
  else Err (SubnetworksDisabled (subnetwork_id tx)).

Definition check_transaction_version (tx : Transaction) : check :=
  if tx_version tx =? TX_VERSION then Ok tt else Err (UnknownTxVersion (tx_version tx)).

Definition ACCOUNT_TX_MIN_PAYLOAD : nat := PUBKEY_SIZE + 8 + SIG_SIZE.

Definition verify_account_tx_signature (tx : Transaction) : check :=
  if is_flash_payload (payload tx) then Ok tt
  else if (length (payload tx) <? ACCOUNT_TX_MIN_PAYLOAD)%nat
  then Err (Message "Account tx payload too small")
  else
    let sig_start := (length (payload tx) - SIG_SIZE)%nat in
    let nonce_start := (sig_start - 8)%nat in
    let sender_pubkey := take nonce_start (payload tx) in
    let sig_bytes := drop sig_start (payload tx) in
    if negb (length sender_pubkey =? PUBKEY_SIZE)%nat
    then Err (Message "Account tx sender pubkey invalid")
    else
      let signable_payload := take sig_start (payload tx) in
      let sighash := compute_account_tx_sighash sha256 tx signable_payload in
      if negb (verify sender_pubkey sig_bytes sighash)
      then Err (Message "Account tx Dilithium3 signature verification FAILED")
      else Ok tt.

Definition verify_account_tx_signatures_batch (txs : list Transaction) : list check :=
  map verify_account_tx_signature txs.

Definition validate_tx_in_isolation (tx : Transaction) : check :=
  if is_did_payload (payload tx) then Ok tt
  else if bool_decide (inputs tx = []) && negb (bool_decide (payload tx = [])) && negb (is_coinbase tx)
  then
    _ ← check_transaction_output_value_ranges tx;
    verify_account_tx_signature tx
  else
    _ ← check_transaction_inputs_in_isolation tx;
    _ ← check_transaction_outputs_in_isolation tx;
    _ ← check_coinbase_in_isolation tx;
    _ ← check_transaction_output_value_ranges tx;
    _ ← check_duplicate_transaction_inputs tx;
    _ ← check_gas tx;
    _ ← check_transaction_subnetwork tx;
    check_transaction_version tx.

(** * Lock time against the containing header *)

Inductive LockTimeType := TypeFinalized | TypeDaaScore | TypeTime.
Inductive LockTimeArg := ArgFinalized | ArgDaaScore (s : Z) | ArgMedianTime (t : Z).

Definition get_lock_time_type (tx : Transaction) : LockTimeType :=
  if lock_time tx =? 0 then TypeFinalized
  else if lock_time tx <? LOCK_TIME_THRESHOLD then TypeDaaScore else TypeTime.

Definition check_tx_is_finalized (tx : Transaction) (arg : LockTimeArg) : check :=
  let unlocked bound :=
    if lock_time tx <? bound then Ok tt
    else match position (fun i => negb (sequence i =? U64_MAX)) (inputs tx) with
         | Some i => Err (NotFinalized i)
         | None => Ok tt
         end in
  match arg with
  | ArgFinalized => Ok tt
  | ArgDaaScore s => unlocked s
  | ArgMedianTime t => unlocked t
  end.

Definition validate_tx_in_header_context (tx : Transaction) (arg : LockTimeArg) : check :=
  check_tx_is_finalized tx arg.

Definition validate_tx_in_header_context_with_args (tx : Transaction) (ctx_daa_score ctx_block_time : Z) : check :=
  validate_tx_in_header_context tx
    (match get_lock_time_type tx with
     | TypeFinalized => ArgFinalized
     | TypeDaaScore => ArgDaaScore ctx_daa_score
     | TypeTime => ArgMedianTime ctx_block_time
     end).

End isolation.

(** * Checks against the account store *)

Inductive TxValidationFlags := Full | SkipScriptChecks | SkipMassCheck.

#[export] Instance TxValidationFlags_eq_dec : EqDecision TxValidationFlags.
Proof. solve_decision. Defined.

Definition FLASH_MIN_FEE_KANA : Z := 1000.
Definition MIN_FEE_KANA : Z := 1000.

Section account_context.
Context (sha3 : bytes -> bytes) (verify : bytes -> bytes -> bytes -> bool).
Context (execute_input : Transaction -> nat -> bool).
Context (hash_order : list (ScriptPublicKey * Z) -> list (ScriptPublicKey * Z)).
Context {S : Type} `{AccountAccess S}.

(** The validator's own copy of the address derivation. *)
Definition pubkey_to_p2pkh_spk (pubkey : bytes) : ScriptPublicKey :=
  let hash20 := take 20 (sha3 pubkey) in
  {| spk_version := 0; spk_script := 20 :: hash20 ++ [172] |}.

Definition or_unknown {A} (m : st S StoreError A) : st S TxRuleError A := map_err (fun _ => Unknown) m.

Definition extract_sender (tx : Transaction) : result TxRuleError ScriptPublicKey :=
  if (length (payload tx) <? PUBKEY_SIZE + 8 + SIG_SIZE)%nat then Err InvalidPayload
  else
    let sig_start := (length (payload tx) - SIG_SIZE)%nat in
    let nonce_start := (sig_start - 8)%nat in
    Ok (pubkey_to_p2pkh_spk (take nonce_start (payload tx))).

(** [check_scripts]: the first input whose script fails. *)
Definition check_scripts (tx : Transaction) : result TxRuleError () :=
  if forallb (execute_input tx) (seq 0 (length (inputs tx))) then Ok tt else Err Unknown.

Definition sum_outputs (os : list TransactionOutput) : Z :=
  foldl (fun acc o => wadd64 acc (value o)) 0 os.

Definition validate_populated_transaction_and_get_fee (tx : Transaction) (flags : TxValidationFlags) :
    st S TxRuleError Z :=
  if is_coinbase tx then mret 0
  else if is_flash_payload (payload tx) then mret 0
  else if is_did_payload (payload tx) then mret 0
  else
    sender_spk ← lift (extract_sender tx);
    account_state ← or_unknown (account_get sender_spk);
    let total_out := sum_outputs (outputs tx) in
    if gas tx <? MIN_FEE_KANA then throw ZeroFee
    else
      total_required ← lift (ok_or InputAmountOverflow (checked_add64 total_out (gas tx)));
      if balance account_state <? total_required
      then throw (SpendTooHigh total_out (balance account_state))
      else
        _ ← (if decide (flags = Full) then lift (check_scripts tx) else mret tt);
        mret (gas tx).

Definition validate_flash_transaction (tx : FlashTransaction) (current_daa_score : Z) :
    st S TxRuleError () :=
  if expiry_daa_score tx <? current_daa_score then throw (Message "FlashTx expired")
  else if fee tx <? FLASH_MIN_FEE_KANA then throw ZeroFee
  else
    account_state ← or_unknown (account_get (pubkey_to_p2pkh_spk (pubkey tx)));
    if is_flash_replay account_state (flash_id sha3 tx) then throw (Message "FlashTx replay detected")
    else if negb (verify (pubkey tx) (signature tx) (sighash sha3 tx))
    then throw (Message "FlashTx ML-DSA-65 signature verification FAILED")
    else
      total_required ← lift (ok_or InputAmountOverflow (checked_add64 (amount tx) (fee tx)));
      if balance account_state <? total_required
      then throw (SpendTooHigh (amount tx) (balance account_state))
      else mret tt.

(** Step 1 of [validate_flash_batch]: skip duplicates, expired and replayed transactions. *)
Fixpoint filter_eligible (seen : gset bytes) (txs : list FlashTransaction) (block_daa_score : Z) :
    st S TxRuleError (list FlashTransaction) :=
  match txs with
  | [] => mret []
  | tx :: txs' =>
      let id := flash_id sha3 tx in
      if bool_decide (id ∈ seen) then filter_eligible seen txs' block_daa_score
      else
        let seen := {[ id ]} ∪ seen in
        if expiry_daa_score tx <? block_daa_score then filter_eligible seen txs' block_daa_score
        else
          account ← or_unknown (account_get (pubkey_to_p2pkh_spk (pubkey tx)));
          if is_flash_replay account id then filter_eligible seen txs' block_daa_score
          else
            rest ← filter_eligible seen txs' block_daa_score;
            mret (tx :: rest)
  end.

(** Step 2: aggregate the debits per sender. *)
Fixpoint aggregate_debits (debits : gmap ScriptPublicKey Z) (txs : list FlashTransaction) :
    result TxRuleError (gmap ScriptPublicKey Z) :=
  match txs with
  | [] => Ok debits
  | tx :: txs' =>
      let spk := pubkey_to_p2pkh_spk (pubkey tx) in
      let entry := default 0 (debits !! spk) in
      total ← ok_or InputAmountOverflow (v ← checked_add64 entry (amount tx); checked_add64 v (fee tx));
      aggregate_debits (<[spk := total]> debits) txs'
  end.

(** Step 3: every sender can pay its total; the map is iterated in [hash_order]. *)
Fixpoint check_debits (debits : list (ScriptPublicKey * Z)) : st S TxRuleError () :=
  match debits with
  | [] => mret tt
  | (spk, total_debit) :: debits' =>
      account ← or_unknown (account_get spk);
      if balance account <? total_debit then throw (SpendTooHigh total_debit (balance account))
      else check_debits debits'
  end.

(** Step 4. *)
Fixpoint validate_each (txs : list FlashTransaction) (block_daa_score : Z) : st S TxRuleError () :=
  match txs with
  | [] => mret tt
  | tx :: txs' => _ ← validate_flash_transaction tx block_daa_score; validate_each txs' block_daa_score
  end.

Definition validate_flash_batch (txs : list FlashTransaction) (block_daa_score : Z) :
    st S TxRuleError (list FlashTransaction) :=
  if bool_decide (txs = []) then mret []
  else
    eligible ← filter_eligible ∅ txs block_daa_score;
    if bool_decide (eligible = []) then mret []
    else
      sender_debits ← lift (aggregate_debits ∅ eligible);
      _ ← check_debits (hash_order (map_to_list sender_debits));
      _ ← validate_each eligible block_daa_score;
      mret eligible.

End account_context.

(** * What the flash rules guarantee *)

Section validator_facts.
Context (sha3 : bytes -> bytes) (verify : bytes -> bytes -> bytes -> bool).
Context (hash_order : list (ScriptPublicKey * Z) -> list (ScriptPublicKey * Z)).
Context (hash_order_perm : forall l, hash_order l ≡ₚ l).
Implicit Types (m : accounts) (tx : FlashTransaction).

Abbreviation sender_key := (sender_key sha3).
Abbreviation id_of := (flash_id sha3).

Lemma map_or_unknown m spk : or_unknown (account_get spk) m = (m, Ok (account_at m spk)).
Proof. unfold or_unknown, map_err. by rewrite map_account_get. Qed.

Lemma is_flash_replay_spec (a : AccountState) i :
  is_flash_replay a i = true <-> exists e, e ∈ recent_flashes a /\ entry_flash_id e = i.
Proof.
  unfold is_flash_replay. rewrite existsb_exists. split; intros (e & H1 & H2); exists e.
  - apply list_elem_of_In in H1. by apply bool_decide_eq_true in H2.
  - split; [by apply list_elem_of_In|by apply bool_decide_eq_true].
Qed.

(** The conditions of [validate_flash_transaction]. *)
Definition flash_valid m (daa : Z) tx : Prop :=
  daa <= expiry_daa_score tx /\ FLASH_MIN_FEE_KANA <= fee tx /\
  is_flash_replay (acct m (sender_key tx)) (id_of tx) = false /\
  verify (pubkey tx) (signature tx) (sighash sha3 tx) = true /\
  amount tx + fee tx <= U64_MAX /\ amount tx + fee tx <= balance (acct m (sender_key tx)).

Lemma validate_flash_transaction_map m daa tx :
  (validate_flash_transaction sha3 verify tx daa m).1 = m /\
  ((validate_flash_transaction sha3 verify tx daa m).2 = Ok tt <-> flash_valid m daa tx).
Proof.
  unfold validate_flash_transaction, flash_valid, acct, Account.sender_key.
  destruct (Z.ltb_spec (expiry_daa_score tx) daa); [split; [done|split; [done|lia]]|].
  destruct (Z.ltb_spec (fee tx) FLASH_MIN_FEE_KANA); [split; [done|split; [done|lia]]|].
  unfold mbind, st_bind. rewrite map_or_unknown. unfold account_at.
  change (AccountKey_new (pubkey_to_p2pkh_spk sha3 (pubkey tx))) with (sender_key tx).
  change (AccountKey_new (flash_pubkey_to_spk sha3 (pubkey tx))) with (sender_key tx).
  set (a := default AccountState_default (m !! sender_key tx)).
  destruct (is_flash_replay a (id_of tx)); [split; [done|split; [done|intuition congruence]]|].
  destruct (verify _ _ _); [|split; [done|split; [done|intuition congruence]]]. cbn [negb].
  unfold lift, checked_add64. destruct (Z.leb_spec (amount tx + fee tx) U64_MAX);
    [|split; [done|split; [done|lia]]]. cbn [ok_or].
  destruct (Z.ltb_spec (balance a) (amount tx + fee tx)); (split; [done|split; [done|]]); [lia|].
  by intros.
Qed.

Lemma validate_each_map m daa txs :
  (validate_each sha3 verify txs daa m).1 = m /\
  ((validate_each sha3 verify txs daa m).2 = Ok tt -> Forall (flash_valid m daa) txs).
Proof.
  induction txs as [|tx txs [IH1 IH2]]; [by split|]. cbn [validate_each].
  pose proof (validate_flash_transaction_map m daa tx) as [V1 V2]. unfold mbind, st_bind.
  destruct (validate_flash_transaction sha3 verify tx daa m) as [m1 [[]|e]]; simpl in *; subst m1;
    [|by split]. split; [done|]. intros H. constructor; [by apply V2|by apply IH2].
Qed.

Lemma filter_eligible_map m daa seen txs :
  exists l, filter_eligible sha3 seen txs daa m = (m, Ok l) /\ sublist l txs /\
    NoDup (map id_of l) /\ Forall (fun tx => id_of tx ∉ seen) l.
Proof.
  revert seen. induction txs as [|tx txs IH]; intros seen; cbn [filter_eligible].
  { exists []. split_and!; [done|constructor|constructor|constructor]. }
  assert (Skip : forall seen', seen ⊆ seen' -> exists l,
    filter_eligible sha3 seen' txs daa m = (m, Ok l) /\ sublist l (tx :: txs) /\
    NoDup (map id_of l) /\ Forall (fun tx => id_of tx ∉ seen) l).
  { intros seen' Hs. destruct (IH seen') as (l & E & Hl & Hn & Hf). exists l.
    split_and!; [done|by constructor|done|]. eapply Forall_impl; [exact Hf|]. set_solver. }
  case_bool_decide; [by apply Skip|]. case_match; [apply Skip; set_solver|].
  unfold mbind, st_bind. rewrite map_or_unknown.
  destruct (is_flash_replay _ _); [apply Skip; set_solver|].
  destruct (IH ({[id_of tx]} ∪ seen)) as (l & E & Hl & Hn & Hf). rewrite E.
  exists (tx :: l). split_and!; [done|by constructor| |].
  - cbn. constructor; [|done]. rewrite list_elem_of_fmap. intros (y & Ey & Hy).
    rewrite Forall_forall in Hf. specialize (Hf y Hy). set_solver.
  - constructor; [done|]. eapply Forall_impl; [exact Hf|]. set_solver.
Qed.

(** What the senders with key [k] pay in total. *)
Definition debit_at (k : bytes) (txs : list FlashTransaction) : Z :=
  sumZ (fun tx => if decide (sender_key tx = k) then amount tx + fee tx else 0) txs.

Lemma aggregate_debits_spec d0 txs d :
  aggregate_debits sha3 d0 txs = Ok d ->
  forall spk, default 0 (d0 !! spk) +
    sumZ (fun tx => if decide (pubkey_to_p2pkh_spk sha3 (pubkey tx) = spk) then amount tx + fee tx else 0) txs
    = default 0 (d !! spk).
Proof.
  revert d0. induction txs as [|tx txs IH]; intros d0; cbn [aggregate_debits].
  { intros [= ->] spk. simpl. lia. }
  intros H. apply result_bind_ok in H as (t & Ht & H). intros spk. specialize (IH _ H spk). simpl.
  unfold checked_add64 in Ht. destruct (_ <=? U64_MAX); simpl in Ht; [|done].
  destruct (_ <=? U64_MAX); simpl in Ht; [|done]. injection Ht as <-.
  destruct (decide (pubkey_to_p2pkh_spk sha3 (pubkey tx) = spk)) as [E|Hne].
  - subst spk. rewrite lookup_insert_eq in IH. simpl in IH. lia.
  - rewrite lookup_insert_ne in IH by done. lia.
Qed.

Lemma check_debits_map m ds :
  (check_debits ds m).1 = m /\
  ((check_debits ds m).2 = Ok tt -> Forall (fun p => p.2 <= balance (account_at m p.1)) ds).
Proof.
  induction ds as [|[spk t] ds [IH1 IH2]]; [by split|]. cbn [check_debits].
  unfold mbind, st_bind. rewrite map_or_unknown.
  destruct (Z.ltb_spec (balance (account_at m spk)) t); [by split|].
  split; [done|]. intros Hok. constructor; [done|by apply IH2].
Qed.

Lemma AccountKey_p2pkh_inj p1 p2 :
  AccountKey_new (pubkey_to_p2pkh_spk sha3 p1) = AccountKey_new (pubkey_to_p2pkh_spk sha3 p2) <->
  pubkey_to_p2pkh_spk sha3 p1 = pubkey_to_p2pkh_spk sha3 p2.
Proof.
  split; [|by intros ->]. unfold AccountKey_new. intros E. apply app_inv_head in E.
  unfold pubkey_to_p2pkh_spk in *. cbn [spk_script] in E. by rewrite E.
Qed.

(** The guarantees of [validate_flash_batch]. *)
Record batch_valid m (daa : Z) (txs out : list FlashTransaction) : Prop := {
  bv_sublist : sublist out txs;
  bv_nodup : NoDup (map id_of out);
  bv_each : Forall (flash_valid m daa) out;
  bv_funds : forall k, 0 <= balance (acct m k) -> debit_at k out <= balance (acct m k);
}.

Lemma validate_flash_batch_map m daa txs :
  (validate_flash_batch sha3 verify hash_order txs daa m).1 = m /\
  forall out, (validate_flash_batch sha3 verify hash_order txs daa m).2 = Ok out ->
    batch_valid m daa txs out.
Proof.
  assert (Empty : batch_valid m daa txs []).
  { split; [apply sublist_nil_l|constructor|constructor|by intros]. }
  unfold validate_flash_batch. case_bool_decide; [split; [done|by intros out [= <-]]|].
  destruct (filter_eligible_map m daa ∅ txs) as (l & E & Hl & Hn & _).
  unfold mbind, st_bind. rewrite E. case_bool_decide; [split; [done|by intros out [= <-]]|].
  unfold lift. destruct (aggregate_debits sha3 ∅ l) as [d|e] eqn:A; [|by split].
  pose proof (check_debits_map m (hash_order (map_to_list d))) as [C1 C2].
  destruct (check_debits _ m) as [m1 [[]|e]]; simpl in C1, C2; subst m1; [|by split].
  pose proof (validate_each_map m daa l) as [V1 V2].
  destruct (validate_each sha3 verify l daa m) as [m1 [[]|e]]; simpl in V1, V2; subst m1; [|by split].
  split; [done|]. intros out [= <-]. split; [done|done|by apply V2|]. intros k Hk.
  specialize (C2 eq_refl). rewrite hash_order_perm in C2.
  pose proof (aggregate_debits_spec _ _ _ A) as D.
  destruct (decide (Exists (fun tx => sender_key tx = k) l)) as [Hex|Hno].
  - apply Exists_exists in Hex as (tx & _ & <-). specialize (D (pubkey_to_p2pkh_spk sha3 (pubkey tx))).
    rewrite lookup_empty, Z.add_0_l in D.
    assert (E1 : debit_at (sender_key tx) l = default 0 (d !! pubkey_to_p2pkh_spk sha3 (pubkey tx))).
    { rewrite <-D. unfold debit_at. clear. induction l as [|y l IH]; simpl; [done|]. rewrite IH. f_equal.
      pose proof (AccountKey_p2pkh_inj (pubkey y) (pubkey tx)) as J.
      destruct (decide (sender_key y = sender_key tx)) as [K|K],
        (decide (pubkey_to_p2pkh_spk sha3 (pubkey y) = pubkey_to_p2pkh_spk sha3 (pubkey tx))) as [N|N];
        [done|destruct (N (proj1 J K))|destruct (K (proj2 J N))|done]. }
    rewrite E1. destruct (d !! _) as [t|] eqn:G; [|done]. simpl.
    rewrite Forall_forall in C2. apply elem_of_map_to_list in G. exact (C2 _ G).
  - replace (debit_at k l) with 0; [done|]. apply not_Exists_Forall in Hno; [|solve_decision].
    unfold debit_at. clear -Hno. induction Hno as [|y l Hy _ IH]; simpl; [done|].
    rewrite decide_False by done. lia.
Qed.

(** A batch in which every transaction is valid, and whose totals the senders can pay, is
    returned whole. *)
Lemma filter_eligible_all m daa seen txs :
  NoDup (map id_of txs) -> Forall (fun tx => id_of tx ∉ seen) txs -> Forall (flash_valid m daa) txs ->
  filter_eligible sha3 seen txs daa m = (m, Ok txs).
Proof.
  revert seen. induction txs as [|tx txs IH]; intros seen Hn Hs Hv; [done|]. cbn [filter_eligible].
  apply NoDup_cons in Hn as [Hi Hn]. apply Forall_cons in Hs as [Hs Hss], Hv as [(He & _ & Hr & _) Hv].
  rewrite bool_decide_eq_false_2 by done. destruct (Z.ltb_spec (expiry_daa_score tx) daa); [lia|].
  unfold mbind, st_bind. rewrite map_or_unknown. change (account_at m (pubkey_to_p2pkh_spk sha3 (pubkey tx))) with (acct m (sender_key tx)).
  rewrite Hr, IH; [done|done| |done]. rewrite Forall_forall in *. intros y Hy. specialize (Hss y Hy).
  enough (id_of y <> id_of tx) by set_solver. intros E. apply Hi. rewrite <-E. by apply list_elem_of_fmap_2.
Qed.

Definition spk_debit (spk : ScriptPublicKey) (txs : list FlashTransaction) : Z :=
  sumZ (fun tx => if decide (pubkey_to_p2pkh_spk sha3 (pubkey tx) = spk) then amount tx + fee tx else 0) txs.

Lemma spk_debit_bound spk txs : Forall (fun tx => 0 <= amount tx /\ 0 <= fee tx) txs -> 0 <= spk_debit spk txs <= debit_at (AccountKey_new spk) txs.
Proof.
  induction 1 as [|tx txs [Ha Hf] _ IH]; unfold spk_debit, debit_at in *; simpl; [lia|].
  destruct (decide (_ = spk)) as [<-|]; [rewrite decide_True by done; lia|]. destruct (decide _); lia.
Qed.

Lemma aggregate_debits_all d0 txs :
  Forall (fun tx => 0 <= amount tx /\ 0 <= fee tx) txs -> (forall spk, default 0 (d0 !! spk) + spk_debit spk txs <= U64_MAX) ->
  exists d, aggregate_debits sha3 d0 txs = Ok d.
Proof.
  intros Ha. revert d0. induction Ha as [|tx txs [Ha Hf] Has IH]; intros d0 Hb; [by eexists|]. cbn [aggregate_debits].
  set (spk := pubkey_to_p2pkh_spk sha3 (pubkey tx)). pose proof (Hb spk) as B. unfold spk_debit in B. simpl in B. fold spk in B. rewrite decide_True in B by done.
  pose proof (spk_debit_bound spk txs Has) as [B0 _]. unfold spk_debit in B0.
  assert (E : (v ← checked_add64 (default 0 (d0 !! spk)) (amount tx); checked_add64 v (fee tx)) = Some (default 0 (d0 !! spk) + (amount tx + fee tx))).
  { unfold checked_add64. rewrite (proj2 (Z.leb_le _ _)) by lia. simpl. rewrite (proj2 (Z.leb_le _ _)) by lia. f_equal. lia. }
  rewrite E. cbn [ok_or mbind result_bind]. apply IH. intros j. specialize (Hb j). unfold spk_debit in *. simpl in Hb. fold spk in Hb.
  destruct (decide (spk = j)) as [<-|Hne]; [rewrite lookup_insert_eq; simpl; lia|]. rewrite lookup_insert_ne by done. lia.
Qed.

Lemma check_debits_all m ds : Forall (fun p => p.2 <= balance (account_at m p.1)) ds -> check_debits ds m = (m, Ok tt).
Proof.
  induction 1 as [|[spk t] ds Hd _ IH]; [done|]. cbn [check_debits]. unfold mbind, st_bind. rewrite map_or_unknown. simpl in Hd.
  destruct (Z.ltb_spec (balance (account_at m spk)) t); [lia|done].
Qed.

Lemma validate_each_all m daa txs : Forall (flash_valid m daa) txs -> validate_each sha3 verify txs daa m = (m, Ok tt).
Proof.
  induction 1 as [|tx txs Hv _ IH]; [done|]. cbn [validate_each]. destruct (validate_flash_transaction_map m daa tx) as [V1 V2]. apply V2 in Hv.
  unfold mbind, st_bind. destruct (validate_flash_transaction _ _ _ _ _) as [m1 r]. simpl in V1, Hv. by subst m1 r.
Qed.

Lemma validate_flash_batch_all m daa txs :
  NoDup (map id_of txs) -> Forall (flash_valid m daa) txs -> Forall (fun tx => 0 <= amount tx /\ 0 <= fee tx) txs ->
  (forall k, debit_at k txs <= balance (acct m k) <= U64_MAX) ->
  validate_flash_batch sha3 verify hash_order txs daa m = (m, Ok txs).
Proof.
  intros Hn Hv Ha Hd. unfold validate_flash_batch. case_bool_decide as E; [by rewrite E|].
  rewrite (st_bind_run _ _ _ _ _ (filter_eligible_all m daa ∅ txs Hn ltac:(apply Forall_true; set_solver) Hv)).
  rewrite bool_decide_eq_false_2 by done.
  destruct (aggregate_debits_all ∅ txs Ha) as [d A].
  { intros spk. rewrite lookup_empty. simpl. pose proof (spk_debit_bound spk txs Ha). specialize (Hd (AccountKey_new spk)). lia. }
  assert (C : Forall (fun p => p.2 <= balance (account_at m p.1)) (hash_order (map_to_list d))).
  { rewrite hash_order_perm. apply Forall_forall. intros [spk t] Hin%elem_of_map_to_list. cbn [fst snd].
    pose proof (aggregate_debits_spec _ _ _ A spk) as D. rewrite Hin, lookup_empty in D. simpl in D.
    pose proof (spk_debit_bound spk txs Ha) as [_ B]. specialize (Hd (AccountKey_new spk)). unfold spk_debit in B. change (account_at m spk) with (acct m (AccountKey_new spk)). lia. }
  unfold lift at 1, mbind at 1, st_bind at 1. rewrite A. rewrite (st_bind_run _ _ _ _ _ (check_debits_all m _ C)).
  by rewrite (st_bind_run _ _ _ _ _ (validate_each_all m daa txs Hv)).
Qed.

End validator_facts.
