(* ===== verification/Commit.v ===== *)
(** The account-model part of [VirtualStateProcessor::commit_virtual_state]
    (consensus/src/pipeline/virtual_processor/processor.rs): unwinding the blocks that
    leave the selected chain and executing those that join it, on the live account
    store. The persistence of the state commitment in the same loop is AccountChanges.v
    and Did.v. A store error is logged and the item skipped; a panic stops the node.

    [hex_decode_into src n] is [faster_hex::hex_decode] into a zeroed buffer of [n] bytes. *)

From S2P Require Import Prelude Address Cache Access Tx Standard Account Coinbase Validator.

Section commit.
Context (sha3 sha256 : bytes -> bytes) (verify : bytes -> bytes -> bytes -> bool).
Context (hash_order : list (ScriptPublicKey * Z) -> list (ScriptPublicKey * Z)).
Context (hex_decode_into : bytes -> nat -> option bytes).
Context (cm : CoinbaseManager) (treasury_hex : bytes) (enable_flash_tx : bool).
Context {S : Type} `{AccountAccess S}.

Abbreviation run A := (st S (fault StoreError) A).

(** [if let Err(e) = m { log; }]: whether the call succeeded. *)
Definition attempt {E A} (m : st S E A) : run bool :=
  fun s => match m s with (s', Ok _) => (s', Ok true) | (s', Err _) => (s', Ok false) end.

Fixpoint each {A} (f : A -> run ()) (l : list A) : run () :=
  match l with [] => mret tt | x :: l' => _ ← f x; each f l' end.

(** [-(x as i64)], which wraps for [i64::MIN]. *)
Definition neg_i64 (x : Z) : Z := as_i64 (- as_i64 x).

(** * Unwinding a removed block *)

Definition deduct_output (o : TransactionOutput) : run () :=
  _ ← attempt (update_balance_batch (script_public_key o) (neg_i64 (value o))); mret tt.

Definition unwind_tx (i : nat) (tx : Transaction) : run () :=
  if is_flash_payload (payload tx) then mret tt
  else
    _ ← each deduct_output (outputs tx);
    if (i =? 0)%nat then mret tt
    else if (length (payload tx) <? PUBKEY_SIZE + 8 + SIG_SIZE)%nat then mret tt
    else
      let sig_start := (length (payload tx) - SIG_SIZE)%nat in
      let sender_spk := pubkey_to_p2pkh_spk sha3 (take (sig_start - 8) (payload tx)) in
      last_applied ← map_err Error (get_last_tx_id sender_spk);
      if negb (bool_decide (last_applied = tx_id tx)) then mret tt
      else
        let total_spent := foldl (fun acc o => wadd64 acc (value o)) (gas tx) (outputs tx) in
        ok ← attempt (update_balance_batch sender_spk (as_i64 total_spent));
        if negb ok then mret tt
        else _ ← attempt (set_last_tx_id_batch (S := S) sender_spk (replicate 32 0)); mret tt.

Fixpoint unwind_txs (i : nat) (txs : list Transaction) : run () :=
  match txs with
  | [] => mret tt
  | tx :: txs' => _ ← unwind_tx i tx; unwind_txs (Datatypes.S i) txs'
  end.

Definition flash_txs_of (txs : list Transaction) : list FlashTransaction := omap from_transaction txs.

Definition unwind_block (hash : bytes) (txs : list Transaction) : run () :=
  _ ← unwind_txs 0 txs;
  if enable_flash_tx && negb (bool_decide (flash_txs_of txs = []))
  then _ ← try_catch (reorg_flash_block sha3 hash (flash_txs_of txs)); mret tt
  else mret tt.

(** * Executing an added block *)

Definition reward_miner (tx : Transaction) : run () :=
  match deserialize_coinbase_payload cm (payload tx) with
  | Err _ => mret tt
  | Ok coinbase_data =>
      let total_reward := cb_subsidy coinbase_data in
      if 0 <? total_reward then
        let dev_fee := if bool_decide (treasury_hex = []) then 0 else total_reward / 20 in
        let miner_reward := wsub64 total_reward dev_fee in
        ok ← attempt (update_balance_batch (miner_spk (cb_miner_data coinbase_data)) (as_i64 miner_reward));
        if negb ok then mret tt
        else match hex_decode_into treasury_hex PUBKEY_SIZE with
             | Some bytes =>
                 let treasury_spk := {| spk_version := 0; spk_script := bytes |} in
                 _ ← attempt (update_balance_batch treasury_spk (as_i64 dev_fee)); mret tt
             | None => mret tt
             end
      else mret tt
  end.

Fixpoint credit_outputs (os : list TransactionOutput) : run () :=
  match os with
  | [] => mret tt
  | o :: os' =>
      ok ← attempt (update_balance_batch (script_public_key o) (as_i64 (value o)));
      if negb ok then mret tt else credit_outputs os'
  end.

Definition is_did_tx (p : bytes) : bool := (4 <? Z.of_nat (length p)) && is_did_payload p.

Definition execute_user_tx (tx : Transaction) : run () :=
  let p := payload tx in
  if is_flash_payload p then mret tt
  else if is_did_tx p && (20 <=? length p)%nat then mret tt
  else if (length p <? PUBKEY_SIZE + 8 + SIG_SIZE)%nat then mret tt
  else
    let sig_start := (length p - SIG_SIZE)%nat in
    let sender_pubkey := take (sig_start - 8) p in
    let sender_spk := pubkey_to_p2pkh_spk sha3 sender_pubkey in
    let sighash := compute_account_tx_sighash sha256 tx (take sig_start p) in
    if negb (verify sender_pubkey (drop sig_start p) sighash) then mret tt
    else
      let total_spent := wadd64 (sum_outputs (outputs tx)) (gas tx) in
      (fun s =>
         match get_balance sender_spk s with
         | (s', Err _) => (s', Ok tt)
         | (s', Ok bal) =>
             (if bal <? total_spent then mret tt
              else
                ok ← attempt (update_balance_batch sender_spk (neg_i64 total_spent));
                if negb ok then mret tt
                else
                  _ ← credit_outputs (outputs tx);
                  _ ← attempt (set_last_tx_id_batch (S := S) sender_spk (tx_id tx)); mret tt) s'
         end).

Definition execute_txs (txs : list Transaction) : run () :=
  match txs with
  | [] => mret tt
  | cb :: user => _ ← reward_miner cb; each execute_user_tx user
  end.

(** Apply the validated flash transactions; the accounts touched, for pruning. *)
Fixpoint apply_flash_txs (hash : bytes) (txs : list FlashTransaction) : run (list ScriptPublicKey) :=
  match txs with
  | [] => mret []
  | tx :: txs' =>
      r ← try_catch (apply_flash_tx sha3 tx hash);
      match r with
      | Err _ => apply_flash_txs hash txs'
      | Ok _ =>
          recipient_spk ← or_panic (hash20_to_p2pkh_spk (recipient tx));
          rest ← apply_flash_txs hash txs';
          mret (flash_pubkey_to_spk sha3 (pubkey tx) :: recipient_spk :: rest)
      end
  end.

Definition commit_flash_txs (hash : bytes) (flash_txs : list FlashTransaction) (current_daa : Z) : run () :=
  if bool_decide (flash_txs = []) then mret tt
  else fun s =>
    match validate_flash_batch sha3 verify hash_order flash_txs current_daa s with
    | (s', Err _) => (s', Ok tt)
    | (s', Ok valid) =>
        (affected ← apply_flash_txs hash valid;
         _ ← attempt (prune_flashes_for_accounts affected current_daa);
         mret tt) s'
    end.

Definition execute_block (hash : bytes) (txs : list Transaction) (current_daa : Z) : run () :=
  _ ← execute_txs txs;
  if enable_flash_tx then commit_flash_txs hash (flash_txs_of txs) current_daa else mret tt.

(** The blocks that leave and join the selected chain. *)
Definition commit_chain_path (removed added : list (bytes * list Transaction)) (current_daa : Z) : run () :=
  _ ← each (fun '(hash, txs) => unwind_block hash txs) removed;
  each (fun '(hash, txs) => execute_block hash txs current_daa) added.

(** The loop over [account_diff], in the order the map is iterated. *)
Definition apply_account_diff (account_diff : list (bytes * Z)) : run () :=
  each (fun '(address_str, balance_change) =>
          address ← (match address_try_from address_str with Ok a => mret a | Err _ => throw Panic end);
          script_public_key ← or_panic (pay_to_address_script address);
          _ ← attempt (update_balance_batch script_public_key balance_change); mret tt) account_diff.

(** The account part of [commit_virtual_state]. *)
Definition commit_virtual_state (account_diff : list (bytes * Z))
    (removed added : list (bytes * list Transaction)) (current_daa : Z) : run () :=
  _ ← apply_account_diff account_diff;
  commit_chain_path removed added current_daa.

(** [calculate_virtual_state] leaves the diff empty, so only the chain path counts. *)
Lemma commit_virtual_state_path hex_string blues reds non_daa removed added current_daa s :
  commit_virtual_state (map_to_list (virtual_account_diff hex_string blues reds non_daa)) removed added current_daa s =
  commit_chain_path removed added current_daa s.
Proof. by rewrite virtual_account_diff_empty, map_to_list_empty. Qed.

End commit.
