(* ===== verification/CommitTheorems.v ===== *)
(** What committing flash transactions guarantees: conservation, exact transfers,
    no replay; and the asymmetries between executing and unwinding a block. *)

From S2P Require Import Prelude Cache Access Tx Account Coinbase Validator Commit.

Section flash_commit.
Context (sha3 : bytes -> bytes) (verify : bytes -> bytes -> bytes -> bool).
Context (hash_order : list (ScriptPublicKey * Z) -> list (ScriptPublicKey * Z)).
Context (hash_order_perm : forall l, hash_order l ≡ₚ l).
Implicit Types (m : accounts) (tx : FlashTransaction).

Abbreviation sender_key := (sender_key sha3).
Abbreviation debit_at := (debit_at sha3).
Abbreviation id_of := (flash_id sha3).

Definition recipient_key tx : option bytes := AccountKey_new <$> hash20_to_p2pkh_spk (recipient tx).

(** What accounts with key [k] receive in total. *)
Definition credit_at (k : bytes) (txs : list FlashTransaction) : Z :=
  sumZ (fun tx => if decide (recipient_key tx = Some k) then amount tx else 0) txs.

Definition entry_of (b : bytes) tx : FlashEntry :=
  {| entry_flash_id := id_of tx; entry_expiry_daa_score := expiry_daa_score tx; entry_block_hash := b |}.

(** The recipient is an address hash, as the rest of the code assumes. *)
Definition recipient_ok tx : Prop := is_Some (hash20_to_p2pkh_spk (recipient tx)).

Definition amounts_ok tx : Prop := 0 <= amount tx /\ 0 <= fee tx.

(** The state after applying [out] from [m] in block [b]. *)
Record applied (b : bytes) (out : list FlashTransaction) m m' : Prop := {
  ap_supply : supply m' = supply m - sumZ fee out;
  ap_ok : supply_ok m';
  ap_balance : forall k, balance (acct m' k) = balance (acct m k) - debit_at k out + credit_at k out;
  ap_entries : forall k, recent_flashes (acct m' k) =
    recent_flashes (acct m k) ++ map (entry_of b) (filter (fun tx => sender_key tx = k) out);
}.

Lemma debit_at_nonneg k out : Forall amounts_ok out -> 0 <= debit_at k out.
Proof.
  induction 1 as [|tx out [] _ IH]; unfold Validator.debit_at; simpl; [done|].
  unfold Validator.debit_at in IH. destruct (decide _); lia.
Qed.

Lemma debit_at_member tx out : Forall amounts_ok out -> tx ∈ out -> amount tx + fee tx <= debit_at (sender_key tx) out.
Proof.
  intros Ha Hin. pose proof (debit_at_nonneg (sender_key tx)) as N. unfold Validator.debit_at in *. induction Ha as [|y out [] Hout IH]; [by apply elem_of_nil in Hin|].
  specialize (N out Hout). cbn [sumZ foldr]. fold (sumZ (fun tx' => if decide (sender_key tx' = sender_key tx) then amount tx' + fee tx' else 0) out).
  apply elem_of_cons in Hin as [->|Hin]; [rewrite decide_True by done; lia|]. specialize (IH Hin). destruct (decide _); lia.
Qed.

Lemma apply_flash_txs_map b out m :
  supply_ok m -> Forall recipient_ok out -> Forall amounts_ok out ->
  (forall k, debit_at k out <= balance (acct m k)) ->
  exists m' spks, apply_flash_txs sha3 b out m = (m', Ok spks) /\ applied b out m m' /\
    Forall (fun tx => flash_pubkey_to_spk sha3 (pubkey tx) ∈ spks /\ forall r, hash20_to_p2pkh_spk (recipient tx) = Some r -> r ∈ spks) out.
Proof.
  intros Hok Hr. revert m Hok. induction Hr as [|tx out [r Hrk] Hr IH]; intros m Hok Ha Hd.
  { exists m, []. split; [done|]. split; [|constructor].
    split; simpl; [lia|done|intros; unfold Validator.debit_at, credit_at; simpl; lia|intros; by rewrite app_nil_r]. }
  apply Forall_cons in Ha as [[Ha Hf] Has].
  assert (Hc : covered sha3 tx m).
  { split; [done|]. split; [done|]. specialize (Hd (sender_key tx)). unfold Validator.debit_at in Hd.
    simpl in Hd. rewrite decide_True in Hd by done. pose proof (debit_at_nonneg (sender_key tx) out Has).
    unfold Validator.debit_at in *. lia. }
  set (rk := AccountKey_new r). set (m1 := flash_effect sha3 tx b rk m).
  pose proof (flash_effect_exact sha3 tx b rk m Hok Hc) as (S1 & Hok1 & B1). fold m1 in S1, Hok1, B1.
  assert (Ek : recipient_key tx = Some rk) by (unfold recipient_key; by rewrite Hrk).
  destruct (IH m1 Hok1 Has) as (m' & spks & E & [A1 A2 A3 A4] & Hin).
  { intros k. specialize (Hd k). specialize (B1 k). unfold Validator.debit_at in *. simpl in Hd.
    destruct (decide (sender_key tx = k)), (decide (k = sender_key tx)); try congruence;
      destruct (decide (k = rk)); lia. }
  exists m', (flash_pubkey_to_spk sha3 (pubkey tx) :: r :: spks). split; [|split].
  - cbn [apply_flash_txs]. unfold mbind at 1, st_bind at 1, try_catch.
    rewrite (apply_flash_tx_map sha3 tx b m r Hrk). fold rk m1. cbv beta iota.
    unfold or_panic, lift. rewrite Hrk. cbn [ok_or]. unfold mbind, st_bind. by rewrite E.
  - split; [simpl; lia|done| |].
    + intros k. rewrite A3, B1. unfold Validator.debit_at, credit_at. simpl. rewrite Ek.
      destruct (decide (sender_key tx = k)), (decide (k = sender_key tx)); try congruence;
        destruct (decide (Some rk = Some k)), (decide (k = rk)); try congruence; lia.
    + intros k. rewrite A4. unfold m1. rewrite flash_effect_entries, <-app_assoc. f_equal.
      destruct (decide (k = sender_key tx)) as [->|Hne].
      * by rewrite filter_cons_True.
      * by rewrite filter_cons_False.
  - constructor; [split; [left|intros r' E'; rewrite Hrk in E'; injection E' as <-; right; left]|].
    eapply Forall_impl; [exact Hin|]. intros y [Hy Hy']. split; [by do 2 right|]. intros r' E'. do 2 right. by apply Hy'.
Qed.

(** * Pruning *)

Lemma prune_idem (a : AccountState) d : prune_recent_flashes (prune_recent_flashes a d) d = prune_recent_flashes a d.
Proof.
  unfold prune_recent_flashes. simpl. f_equal. apply filter_all.
  apply Forall_forall. intros e He. by apply list_elem_of_filter in He as [? _].
Qed.

Lemma filter_same_length {A} (P : A -> Prop) `{forall x, Decision (P x)} (l : list A) :
  length (filter P l) = length l -> filter P l = l.
Proof.
  induction l as [|x l IH]; [done|]. destruct (decide (P x)).
  - rewrite filter_cons_True by done. simpl. intros [= E]. f_equal. auto.
  - rewrite filter_cons_False by done. pose proof (length_filter P l). simpl. lia.
Qed.

(** One step of the loop leaves the account pruned, written or not. *)
Lemma prune_step (a : AccountState) d :
  recent_flashes a = [] \/
  length (recent_flashes (prune_recent_flashes a d)) = length (recent_flashes a) ->
  prune_recent_flashes a d = a.
Proof.
  intros Hc. apply AccountState_eq; [done|]. unfold prune_recent_flashes in *. simpl in *.
  destruct Hc as [->|E]; [done|]. by apply filter_same_length.
Qed.

Lemma prune_map spks d m :
  exists m', prune_flashes_for_accounts spks d m = (m', Ok tt) /\ supply m' = supply m /\
    forall k, acct m' k = if decide (k ∈ map AccountKey_new spks)
                          then prune_recent_flashes (acct m k) d else acct m k.
Proof.
  revert m. induction spks as [|spk spks IH]; intros m; cbn [prune_flashes_for_accounts].
  { exists m. split; [done|]. split; [done|]. intros k. by rewrite decide_False by apply not_elem_of_nil. }
  set (key := AccountKey_new spk). set (a := acct m key).
  assert (Step : exists m1, (if bool_decide (recent_flashes a = []) then mret tt
      else if (length (recent_flashes (prune_recent_flashes a d)) =? length (recent_flashes a))%nat
           then mret tt else set_batch spk (prune_recent_flashes a d)) m = (m1, Ok tt) /\
      supply m1 = supply m /\
      forall k, acct m1 k = if decide (k = key) then prune_recent_flashes (acct m k) d else acct m k).
  { case_bool_decide as E1; [|destruct (Nat.eqb_spec (length (recent_flashes (prune_recent_flashes a d)))
      (length (recent_flashes a))) as [E2|E2]].
    - exists m. split; [done|]. split; [done|]. intros k. destruct (decide (k = key)) as [->|]; [|done].
      symmetry. apply prune_step. by left.
    - exists m. split; [done|]. split; [done|]. intros k. destruct (decide (k = key)) as [->|]; [|done].
      symmetry. apply prune_step. by right.
    - exists (<[key := prune_recent_flashes a d]> m). split; [done|]. split.
      + rewrite supply_insert. fold a. simpl. lia.
      + intros k. destruct (decide (k = key)) as [->|]; by autorewrite with acct. }
  destruct Step as (m1 & E1 & S1 & A1). destruct (IH m1) as (m' & E & S' & A').
  exists m'. split; [|split; [by rewrite S'|]].
  - unfold mbind, st_bind. rewrite map_account_get. fold key. change (account_at m spk) with a.
    cbv zeta. by rewrite E1.
  - intros k. rewrite A', A1. cbn [map list_fmap].
    destruct (decide (k = key)) as [->|Hne].
    + rewrite (decide_True (P := key ∈ _ :: _)) by left. destruct (decide _); [apply prune_idem|done].
    + destruct (decide (k ∈ map AccountKey_new spks)) as [Hi|Hi].
      * by rewrite decide_True by (by right).
      * rewrite decide_False; [done|]. intros [->|?]%elem_of_cons; done.
Qed.

Lemma batch_valid_nil m daa txs : batch_valid sha3 verify m daa txs [].
Proof. split; [apply sublist_nil_l|constructor|constructor|by intros]. Qed.

Lemma Forall_sublist {A} (P : A -> Prop) l1 l2 : sublist l1 l2 -> Forall P l2 -> Forall P l1.
Proof. induction 1; rewrite ?Forall_cons; intuition auto. Qed.

(** The transactions a commit applies. *)
Definition flash_out (txs : list FlashTransaction) (daa : Z) m : list FlashTransaction :=
  match (validate_flash_batch sha3 verify hash_order txs daa m).2 with Ok out => out | Err _ => [] end.

(** The state after a commit: the validated transactions applied, then the senders'
    and recipients' histories pruned. *)
Lemma commit_flash_txs_map b daa txs m :
  supply_ok m -> Forall recipient_ok txs -> Forall amounts_ok txs ->
  let out := flash_out txs daa m in
  exists m1 m', commit_flash_txs sha3 verify hash_order b txs daa m = (m', Ok tt) /\
    batch_valid sha3 verify m daa txs out /\ applied b out m m1 /\ supply m' = supply m1 /\
    (forall k, acct m' k = acct m1 k \/ acct m' k = prune_recent_flashes (acct m1 k) daa).
Proof.
  intros Hok Hr Ha.
  assert (Id : applied b [] m m).
  { split; [simpl; lia|done|intros k; unfold Validator.debit_at, credit_at; simpl; lia|].
    intros k. by rewrite app_nil_r. }
  unfold commit_flash_txs, flash_out. case_bool_decide as E0.
  { subst txs. exists m, m. split; [done|]. split; [apply batch_valid_nil|]. split; [done|]. auto. }
  pose proof (validate_flash_batch_map sha3 verify hash_order hash_order_perm m daa txs) as [V1 V2].
  destruct (validate_flash_batch _ _ _ txs daa m) as [m0 [out|e]]; simpl in V1, V2; subst m0.
  2:{ exists m, m. split; [done|]. split; [apply batch_valid_nil|]. split; [done|]. auto. }
  destruct (V2 out eq_refl) as [B1 B2 B3 B4].
  destruct (apply_flash_txs_map b out m) as (m1 & spks & E & A & _);
    [done|by eapply Forall_sublist|by eapply Forall_sublist|intros k; apply B4, Hok|].
  destruct (prune_map spks daa m1) as (m' & Ep & Sp & Ap).
  exists m1, m'. split; [|split; [by split|split; [done|split; [done|]]]].
  - unfold mbind, st_bind. rewrite E. unfold attempt. by rewrite Ep.
  - intros k. rewrite Ap. destruct (decide _); auto.
Qed.

Lemma flash_wf_amounts txs : Forall flash_wf txs -> Forall amounts_ok txs.
Proof. intros H. eapply Forall_impl; [exact H|]. intros tx (_ & _ & _ & ? & ? & _). split; lia. Qed.


(** * No replay *)

(** Among the transactions of [U], ids do not collide. *)
Context (U : FlashTransaction -> Prop) (U_wf : forall tx, U tx -> flash_wf tx).
Context (U_ids : forall tx1 tx2, U tx1 -> U tx2 -> id_of tx1 = id_of tx2 ->
                                 flash_preimage tx1 = flash_preimage tx2).

(** The ledger: accounts, the DAA score of the last commit, and the flash
    transactions ever applied. *)
Record ledger := { l_accounts : accounts; l_now : Z; l_applied : list FlashTransaction }.

Inductive ledger_step : ledger -> ledger -> Prop :=
| step_commit l now b txs m' :
    l_now l <= now -> Forall U txs -> Forall recipient_ok txs ->
    commit_flash_txs sha3 verify hash_order b txs now (l_accounts l) = (m', Ok tt) ->
    ledger_step l {| l_accounts := m'; l_now := now;
                     l_applied := l_applied l ++ flash_out txs now (l_accounts l) |}
| step_balances l m' :
    supply_ok m' ->
    (forall k, recent_flashes (acct m' k) = recent_flashes (acct (l_accounts l) k)) ->
    ledger_step l {| l_accounts := m'; l_now := l_now l; l_applied := l_applied l |}.

(** Still in its sender's history. *)
Definition remembered m tx : Prop :=
  exists e, e ∈ recent_flashes (acct m (sender_key tx)) /\
    entry_flash_id e = id_of tx /\ entry_expiry_daa_score e = expiry_daa_score tx.

Definition flash_key tx : bytes * bytes := (sender_key tx, id_of tx).

(** Every applied transaction is past its expiry or remembered. *)
Definition ledger_inv l : Prop :=
  0 < l_now l /\ supply_ok (l_accounts l) /\ Forall U (l_applied l) /\
  Forall (fun tx => expiry_daa_score tx < l_now l \/ remembered (l_accounts l) tx) (l_applied l) /\
  NoDup (map flash_key (l_applied l)).

Lemma prune_keeps (a : AccountState) now e :
  0 < now -> e ∈ recent_flashes a -> now <= entry_expiry_daa_score e ->
  e ∈ recent_flashes (prune_recent_flashes a now).
Proof.
  intros Hn He Hx. unfold prune_recent_flashes. simpl. apply list_elem_of_filter. split; [|done].
  unfold saturating_sub, FLASH_PRUNE_BUFFER. lia.
Qed.

(** The id commits to the expiry. *)
Lemma id_expiry tx1 tx2 : U tx1 -> U tx2 -> id_of tx1 = id_of tx2 -> expiry_daa_score tx1 = expiry_daa_score tx2.
Proof.
  intros H1 H2 E. pose proof (U_ids _ _ H1 H2 E) as P.
  destruct (U_wf _ H1) as (_ & _ & _ & _ & _ & X1 & S1 & _), (U_wf _ H2) as (_ & _ & _ & _ & _ & X2 & S2 & _).
  unfold flash_preimage in P. rewrite !app_assoc in P.
  apply app_inj_2 in P as [P _]; [|congruence]. apply app_inj_2 in P as [_ P]; [|by rewrite !length_to_le].
  by apply (to_le_inj 8).
Qed.

Lemma remembered_replay m tx : remembered m tx -> is_flash_replay (acct m (sender_key tx)) (id_of tx) = true.
Proof. intros (e & He & Hi & _). apply is_flash_replay_spec. by exists e. Qed.

Lemma commit_remembers l now b txs m' :
  ledger_inv l -> l_now l <= now -> Forall U txs -> Forall recipient_ok txs ->
  commit_flash_txs sha3 verify hash_order b txs now (l_accounts l) = (m', Ok tt) ->
  let out := flash_out txs now (l_accounts l) in
  batch_valid sha3 verify (l_accounts l) now txs out /\ supply_ok m' /\
  forall tx, tx ∈ out \/ remembered (l_accounts l) tx -> now <= expiry_daa_score tx -> remembered m' tx.
Proof.
  intros (Hn & Hok & _) Hle HU Hr E out.
  destruct (commit_flash_txs_map b now txs (l_accounts l) Hok Hr) as (m1 & m2 & E2 & V & [A1 [A2 A2'] A3 A4] & S2 & P).
  { apply flash_wf_amounts. eapply Forall_impl; [exact HU|]. exact U_wf. }
  rewrite E2 in E. injection E as ->. split; [done|]. split.
  { split; [|lia]. intros k. destruct (P k) as [->| ->]; apply A2. }
  intros tx Htx Hx.
  assert (R1 : remembered m1 tx).
  { destruct Htx as [Htx|(e & He & Hi & Hxe)].
    - exists (entry_of b tx). split; [|done]. rewrite A4. apply elem_of_app. right.
      apply list_elem_of_fmap. exists tx. split; [done|]. by apply list_elem_of_filter.
    - exists e. split; [|done]. rewrite A4. apply elem_of_app. by left. }
  destruct R1 as (e & He & Hi & Hxe). exists e. split; [|done].
  destruct (P (sender_key tx)) as [->| ->]; [done|]. apply prune_keeps; [lia|done|lia].
Qed.

Lemma ledger_step_inv l l' : ledger_inv l -> ledger_step l l' -> ledger_inv l'.
Proof.
  intros Hinv Hs. pose proof Hinv as (Hn & Hok & HU & Hh & Hd).
  destruct Hs as [l now b txs m' Hle HUt Hr E|l m' Hok' R].
  2:{ split; [done|]. split; [done|]. split; [done|]. split; [|done].
      eapply Forall_impl; [exact Hh|]. intros tx [?|(e & He & ?)]; [by left|].
      right. exists e. simpl. by rewrite R. }
  destruct (commit_remembers l now b txs m' Hinv Hle HUt Hr E) as ([B1 B2 B3 _] & Hok' & Rem).
  set (out := flash_out txs now (l_accounts l)) in *.
  assert (HUo : Forall U out) by (by eapply Forall_sublist).
  split; [simpl; lia|]. split; [done|]. split; [by apply Forall_app|]. split; simpl.
  - apply Forall_app. rewrite !Forall_forall in *. split; intros tx Htx;
      destruct (Z.lt_ge_cases (expiry_daa_score tx) now); auto.
    destruct (Hh tx Htx) as [?|?]; [left; lia|]. right. auto.
  - rewrite fmap_app. apply NoDup_app. split; [done|]. split.
    + intros ki H1 H2. apply list_elem_of_fmap in H1 as (tx1 & -> & H1).
      apply list_elem_of_fmap in H2 as (tx2 & [Ek Ei]%pair_equal_spec & H2).
      rewrite Forall_forall in B3, Hh, HU, HUo. specialize (B3 tx2 H2) as (Hexp & _ & Hrep & _).
      pose proof (id_expiry tx1 tx2 (HU _ H1) (HUo _ H2) Ei) as Ex.
      destruct (Hh _ H1) as [Hlt|Hm]; [lia|]. apply remembered_replay in Hm.
      rewrite Ek, Ei in Hm. congruence.
    + apply (NoDup_fmap_1 snd). rewrite <-list_fmap_compose. exact B2.
Qed.

(** C37: No flash transaction is applied twice. In every ledger reached from a fresh one at a
    positive DAA score, with a supply below 2^64, by committing blocks at non-decreasing DAA
    scores, with pruning, and by balance changes in between that leave the histories as they are, the
    (sender, flash id) pairs of the applied transactions are distinct, although histories
    are pruned. The transactions submitted have fields within their machine widths and
    recipients of at least 20 bytes, and no two with different preimages have the same id. *)
Theorem flash_no_replay l0 l :
  0 < l_now l0 -> supply_ok (l_accounts l0) -> l_applied l0 = [] ->
  rtc ledger_step l0 l -> NoDup (map flash_key (l_applied l)).
Proof.
  intros Hn Hok He Hs. enough (ledger_inv l) as (_ & _ & _ & _ & H) by done.
  revert Hs. apply (rtc_ind_r (fun l => ledger_inv l)); [|intros; by eapply ledger_step_inv].
  split; [done|]. split; [done|]. rewrite He. repeat constructor.
Qed.

End flash_commit.

(** * Unwinding a block does not undo executing it *)

Section unwind_facts.
Context (sha3 sha256 : bytes -> bytes) (verify : bytes -> bytes -> bytes -> bool).
Implicit Types (m : accounts) (tx : Transaction).

Lemma update_balance_map m spk d :
  update_balance_batch spk d m =
  (let k := AccountKey_new spk in
   <[k := with_balance (acct m k) (adjust_balance (balance (acct m k)) d)]> m, Ok tt).
Proof.
  unfold update_balance_batch, get_or_default, mbind, st_bind. by rewrite map_account_get.
Qed.

Lemma attempt_update m spk d :
  attempt (update_balance_batch spk d) m =
  (<[AccountKey_new spk := with_balance (acct m (AccountKey_new spk))
      (adjust_balance (balance (acct m (AccountKey_new spk))) d)]> m, Ok true).
Proof. unfold attempt. by rewrite update_balance_map. Qed.

Lemma neg_i64_small x : 0 <= x < 2 ^ 63 -> neg_i64 x = - x.
Proof.
  intros H. unfold neg_i64. rewrite (as_i64_small x) by lia. destruct (decide (x = 0)) as [->|]; [done|].
  unfold as_i64, wrap. replace (- x mod 2 ^ 64) with (2 ^ 64 - x) by (apply Z.mod_unique with (-1); lia).
  destruct (Z.ltb_spec (2 ^ 64 - x) (2 ^ 63)); lia.
Qed.

Lemma adjust_neg b x : 0 <= x < 2 ^ 63 -> adjust_balance b (neg_i64 x) = if x =? 0 then saturating_add64 b 0 else saturating_sub b x.
Proof.
  intros H. rewrite neg_i64_small by done. unfold adjust_balance.
  destruct (Z.eqb_spec x 0) as [->|]; [done|]. destruct (Z.leb_spec 0 (- x)); [lia|]. f_equal. lia.
Qed.

(** The refund branch is dead: the store keeps no last transaction id. *)
Lemma unwind_tx_deducts i tx m :
  is_flash_payload (payload tx) = false -> tx_id tx <> replicate 32 0 ->
  unwind_tx sha3 i tx m = each deduct_output (outputs tx) m.
Proof.
  intros Hf Hid. unfold unwind_tx. rewrite Hf. unfold mbind at 1, st_bind at 1.
  destruct (each deduct_output (outputs tx) m) as [m' [[]|e]] eqn:E; [|done].
  destruct (i =? 0)%nat; [done|]. destruct (_ <? _)%nat; [done|].
  unfold mbind, st_bind, map_err, get_last_tx_id, mret, st_ret.
  rewrite bool_decide_eq_false_2 by congruence. done.
Qed.

Lemma deduct_single o m :
  0 < value o < 2 ^ 63 ->
  each deduct_output [o] m =
  (let k := AccountKey_new (script_public_key o) in
   <[k := with_balance (acct m k) (saturating_sub (balance (acct m k)) (value o))]> m, Ok tt).
Proof.
  intros Hv. unfold each, deduct_output, mbind, st_bind. rewrite attempt_update, adjust_neg by lia.
  destruct (Z.eqb_spec (value o) 0); [lia|done].
Qed.

(** A removed block's account transfer is undone on one side only. Executing a
    signed, covered transfer and unwinding it takes the amount back from the receiver
    but never returns it to the sender, since [get_last_tx_id] is constantly zero and
    the refund requires it to be the transaction's id. *)
Theorem reorg_never_refunds_sender i tx o m :
  let p := payload tx in
  let sig_start := (length p - SIG_SIZE)%nat in
  let pk := take (sig_start - 8) p in
  let sk := AccountKey_new (pubkey_to_p2pkh_spk sha3 pk) in
  let rk := AccountKey_new (script_public_key o) in
  (PUBKEY_SIZE + 8 + SIG_SIZE <= length p)%nat -> is_flash_payload p = false -> is_did_tx p = false ->
  verify pk (drop sig_start p) (compute_account_tx_sighash sha256 tx (take sig_start p)) = true ->
  tx_id tx <> replicate 32 0 -> outputs tx = [o] -> rk <> sk ->
  0 < value o -> 0 <= gas tx -> value o + gas tx <= balance (acct m sk) -> balance (acct m sk) < 2 ^ 63 ->
  0 <= balance (acct m rk) -> balance (acct m rk) + value o <= U64_MAX ->
  exists m', (execute_user_tx sha3 sha256 verify tx ≫= fun _ => unwind_tx sha3 (S i) tx) m = (m', Ok tt) /\
    balance (acct m' rk) = balance (acct m rk) /\
    balance (acct m' sk) = balance (acct m sk) - (value o + gas tx).
Proof.
  intros p sig_start pk sk rk Hlen Hf Hdid Hsig Hid Ho Hne Hv Hg Hc Hb Hr Hr'.
  set (m1 := <[sk := with_balance (acct m sk) (saturating_sub (balance (acct m sk)) (value o + gas tx))]> m).
  set (m2 := <[rk := with_balance (acct m1 rk) (saturating_add64 (balance (acct m1 rk)) (value o))]> m1).
  assert (E : execute_user_tx sha3 sha256 verify tx m = (m2, Ok tt)).
  { unfold execute_user_tx. fold p. rewrite Hf, Hdid. cbn [andb].
    destruct (Nat.ltb_spec (length p) (PUBKEY_SIZE + 8 + SIG_SIZE)); [lia|].
    fold sig_start pk. rewrite Hsig. cbn [negb]. rewrite Ho. unfold sum_outputs. cbn [foldl].
    rewrite (wadd64_small 0), Z.add_0_l by lia. rewrite wadd64_small by lia.
    unfold get_balance, mbind at 1, st_bind at 1. rewrite map_account_get. cbv beta iota.
    change (balance (account_at m (pubkey_to_p2pkh_spk sha3 pk))) with (balance (acct m sk)).
    unfold mret at 1, st_ret at 1. destruct (Z.ltb_spec (balance (acct m sk)) (value o + gas tx)); [lia|].
    unfold mbind, st_bind. rewrite attempt_update, adjust_neg by lia.
    destruct (Z.eqb_spec (value o + gas tx) 0); [lia|]. cbn [negb credit_outputs].
    unfold mbind, st_bind. rewrite attempt_update, as_i64_small by lia.
    unfold adjust_balance. destruct (Z.leb_spec 0 (value o)); [done|lia]. }
  unfold mbind, st_bind. rewrite E, unwind_tx_deducts, Ho, deduct_single by (done || lia).
  fold rk. eexists. split; [done|]. cbv zeta. autorewrite with acct. unfold m2.
  autorewrite with acct. unfold m1. autorewrite with acct. cbn [with_balance balance].
  unfold saturating_sub, saturating_add64. lia.
Qed.

(** Unwinding a block with a DID operation takes money from the accounts named in
    its outputs, although executing the block credited nothing: DID transactions skip
    the output checks and the execution, but not the reversal. *)
Theorem reorg_did_debits_outputs i tx o m :
  is_did_tx (payload tx) = true -> (20 <= length (payload tx))%nat -> tx_id tx <> replicate 32 0 ->
  outputs tx = [o] -> 0 < value o < 2 ^ 63 ->
  let k := AccountKey_new (script_public_key o) in
  exists m', (execute_user_tx sha3 sha256 verify tx ≫= fun _ => unwind_tx sha3 (S i) tx) m = (m', Ok tt) /\
    balance (acct m' k) = saturating_sub (balance (acct m k)) (value o).
Proof.
  intros Hdid Hlen Hid Ho Hv k.
  assert (Hf : is_flash_payload (payload tx) = false).
  { apply andb_true_iff in Hdid as [_ Hdid]. unfold is_did_payload in Hdid.
    apply andb_true_iff in Hdid as [_ Hdid]. unfold is_flash_payload.
    rewrite andb_false_iff. right. apply bool_decide_eq_false. intros E.
    assert (E4 : take 4 (payload tx) = take 4 FLASH_MAGIC) by (rewrite <-E, take_take; f_equal; lia).
    rewrite E4 in Hdid. vm_compute in Hdid. done. }
  unfold execute_user_tx, mbind, st_bind. rewrite Hf, Hdid. cbn [andb].
  destruct (Nat.leb_spec 20 (length (payload tx))); [|lia]. unfold mret at 1, st_ret at 1.
  rewrite unwind_tx_deducts, Ho, deduct_single by done. fold k. eexists. split; [done|].
  cbv zeta. by autorewrite with acct.
Qed.

End unwind_facts.

(** * Concrete runs *)


Lemma flash_no_replay_witness :
  exists l, rtc (ledger_step toy_sha3 (fun _ _ _ => true) id (fun tx => tx = toy_flash))
      {| l_accounts := toy_accounts; l_now := 1; l_applied := [] |} l /\
    l_applied l = [toy_flash] /\ NoDup (map (flash_key toy_sha3) (l_applied l)).
Proof.
  assert (Step : exists m', ledger_step toy_sha3 (fun _ _ _ => true) id (fun tx => tx = toy_flash)
      {| l_accounts := toy_accounts; l_now := 1; l_applied := [] |}
      {| l_accounts := m'; l_now := 5;
         l_applied := [] ++ flash_out toy_sha3 (fun _ _ _ => true) id [toy_flash; toy_flash] 5 toy_accounts |}).
  { eexists. apply (step_commit _ _ _ _ {| l_accounts := toy_accounts; l_now := 1; l_applied := [] |} 5 [7]).
    - done.
    - by repeat constructor.
    - repeat constructor; by eexists.
    - vm_compute. reflexivity. }
  destruct Step as [m' Step]. eexists. split; [by apply rtc_once|]. split; [by vm_compute|].
  apply (flash_no_replay toy_sha3 (fun _ _ _ => true) id (fun l => Permutation_refl l)
    (fun tx => tx = toy_flash)) with (l0 := {| l_accounts := toy_accounts; l_now := 1; l_applied := [] |}).
  - intros tx ->. apply (bool_decide_unpack _). by vm_compute.
  - by intros ? ? -> ->.
  - done.
  - apply toy_supply_ok.
  - done.
  - by apply rtc_once.
Defined.

Definition toy_transfer (p : bytes) (v : Z) : Transaction :=
  {| tx_version := 0; inputs := [];
     outputs := [{| value := v; script_public_key := {| spk_version := 0; spk_script := [1] |} |}];
     lock_time := 0; subnetwork_id := SUBNETWORK_ID_NATIVE; gas := 1000; payload := p; mass := 0;
     tx_id := replicate 32 1 |}.

Definition toy_legacy_payload : bytes := replicate (PUBKEY_SIZE + 8 + SIG_SIZE) 0.
Definition toy_legacy_sender : bytes :=
  AccountKey_new (pubkey_to_p2pkh_spk toy_sha3 (replicate PUBKEY_SIZE 0)).

Lemma reorg_never_refunds_sender_witness :
  let m := {[ toy_legacy_sender := AccountState_new 5000 ]} in
  exists m', (execute_user_tx toy_sha3 id (fun _ _ _ => true) (toy_transfer toy_legacy_payload 300) ≫=
      fun _ => unwind_tx toy_sha3 1 (toy_transfer toy_legacy_payload 300)) m = (m', Ok tt) /\
    balance (acct m' [0; 0; 1]) = 0 /\ balance (acct m' toy_legacy_sender) = 3700.
Proof.
  intros m.
  pose proof (reorg_never_refunds_sender toy_sha3 id (fun _ _ _ => true) 0
    (toy_transfer toy_legacy_payload 300)
    {| value := 300; script_public_key := {| spk_version := 0; spk_script := [1] |} |} m) as T.
  cbv zeta in T.
  change (AccountKey_new (pubkey_to_p2pkh_spk toy_sha3 (take (length (payload
    (toy_transfer toy_legacy_payload 300)) - SIG_SIZE - 8) (payload (toy_transfer toy_legacy_payload 300)))))
    with toy_legacy_sender in T.
  destruct T as (m' & E & B1 & B2);
    [by apply Nat.leb_le; vm_compute|by vm_compute..|].
  exists m'. split; [exact E|]. split; [exact B1|]. rewrite B2. by vm_compute.
Defined.

Lemma reorg_did_debits_outputs_witness :
  let p := string_bytes "DDEC" ++ replicate 20 0 in
  exists m', (execute_user_tx toy_sha3 id (fun _ _ _ => true) (toy_transfer p 300) ≫=
      fun _ => unwind_tx toy_sha3 1 (toy_transfer p 300)) {[ [0; 0; 1] := AccountState_new 1000 ]} = (m', Ok tt) /\
    balance (acct m' [0; 0; 1]) = 700.
Proof.
  intros p. destruct (reorg_did_debits_outputs toy_sha3 id (fun _ _ _ => true) 0 (toy_transfer p 300)
    {| value := 300; script_public_key := {| spk_version := 0; spk_script := [1] |} |}
    {[ [0; 0; 1] := AccountState_new 1000 ]}) as (m' & E & B); [by vm_compute|vm_compute; lia|done..|].
  exists m'. split; [exact E|]. etransitivity; [exact B|]. by vm_compute.
Defined.
