(* ===== verification/CommitRefine.v ===== *)
(** Committing blocks on the cached, batched database does what it does on the map of
    accounts, when the accounts a block touches fit the cache: the simulation of
    Account.v carried through Validator.v and Commit.v. *)

From S2P Require Import Prelude Cache Access Tx Account Coinbase Validator Commit.

Section refine.
Context {S : Type} `{AccountAccessLaws S}.
Context (sha3 sha256 : bytes -> bytes) (verify : bytes -> bytes -> bytes -> bool).
Context (hash_order : list (ScriptPublicKey * Z) -> list (ScriptPublicKey * Z)).
Context (hash_order_perm : forall l, hash_order l ≡ₚ l).
Context (hex_decode_into : bytes -> nat -> option bytes).
Context (cm : CoinbaseManager) (treasury_hex : bytes) (enable_flash_tx : bool).

Abbreviation key_ok spk := (acc_key_ok (AccountKey_new spk)).

(** Sequencing where the second part may assume what the first can return. *)
Lemma sim_bind_post {E A B} (Q : A -> Prop) (c1 : st S E A) c2 (f1 : A -> st S E B) f2 :
  simulates c1 c2 -> (forall m a, (c2 m).2 = Ok a -> Q a) ->
  (forall a, Q a -> simulates (f1 a) (f2 a)) -> simulates (c1 ≫= f1) (c2 ≫= f2).
Proof.
  intros Hc HQ Hf s m Hr. specialize (Hc s m Hr) as [E1 R1]. specialize (HQ m).
  unfold mbind, st_bind. destruct (c1 s) as [s1 r1], (c2 m) as [m1 r2]. simpl in *. subst r2.
  destruct r1 as [a|e]; [|done]. apply Hf; auto.
Qed.

Lemma sim_throw {E A} (e : E) : simulates (A := A) (throw e) (throw e).
Proof. by intros s m Hr. Qed.

Lemma sim_or_unknown spk : key_ok spk -> simulates (or_unknown (account_get spk)) (or_unknown (account_get spk)).
Proof. intros. by apply sim_map_err, sim_account_get. Qed.

Lemma sim_attempt {E A} (c1 : st S E A) c2 : simulates c1 c2 -> simulates (attempt c1) (attempt c2).
Proof.
  intros Hc s m Hr. specialize (Hc s m Hr) as [E1 R1]. unfold attempt.
  destruct (c1 s) as [s1 r1], (c2 m) as [m1 r2]. simpl in *. subst r2. by destruct r1.
Qed.

#[local] Hint Resolve sim_ret sim_lift sim_throw sim_or_unknown sim_attempt sim_update_balance
  sim_map_err sim_account_get sim_try_catch sim_or_panic : sim.

(** Break a program into its calls and branches. *)
Ltac sim1 :=
  first
    [ solve [eauto with sim]
    | lazymatch goal with
      | |- simulates (mbind _ _) (mbind _ _) => apply sim_bind; [solve [eauto with sim]|intros]
      | |- simulates (if ?b then _ else _) _ => destruct b
      | |- simulates (match ?x with Ok _ => _ | Err _ => _ end) _ => destruct x
      end ].
Ltac sim := repeat sim1.

(** * Validation *)

Definition senders_ok (txs : list FlashTransaction) : Prop :=
  Forall (fun tx => key_ok (pubkey_to_p2pkh_spk sha3 (pubkey tx))) txs.

Lemma sim_validate_flash_transaction tx daa :
  key_ok (pubkey_to_p2pkh_spk sha3 (pubkey tx)) ->
  simulates (validate_flash_transaction sha3 verify tx daa) (validate_flash_transaction sha3 verify tx daa).
Proof. intros Hk. unfold validate_flash_transaction. sim. Qed.

Lemma sim_filter_eligible seen txs daa :
  senders_ok txs -> simulates (filter_eligible sha3 seen txs daa) (filter_eligible sha3 seen txs daa).
Proof.
  intros Hs. revert seen. induction Hs as [|tx txs Hk Hs IH]; intros seen; cbn [filter_eligible]; [sim|].
  destruct (bool_decide _); [auto|]. destruct (_ <? _); [auto|].
  apply sim_bind; [by apply sim_or_unknown|]. intros a. destruct (is_flash_replay _ _); [auto|].
  apply sim_bind; [auto|]. intros. apply sim_ret.
Qed.

Lemma sim_validate_each txs daa :
  senders_ok txs -> simulates (validate_each sha3 verify txs daa) (validate_each sha3 verify txs daa).
Proof.
  induction 1 as [|tx txs Hk Hs IH]; cbn [validate_each]; [sim|].
  apply sim_bind; [by apply sim_validate_flash_transaction|]. auto.
Qed.

Lemma sim_check_debits ds :
  Forall (fun p => key_ok p.1) ds -> simulates (check_debits ds) (check_debits ds).
Proof.
  induction 1 as [|[spk t] ds Hk Hs IH]; cbn [check_debits]; [sim|].
  apply sim_bind; [by apply sim_or_unknown|]. intros a. sim.
Qed.

Lemma aggregate_debits_keys (P : ScriptPublicKey -> Prop) d0 txs d :
  aggregate_debits sha3 d0 txs = Ok d -> map_Forall (fun k _ => P k) d0 ->
  Forall (fun tx => P (pubkey_to_p2pkh_spk sha3 (pubkey tx))) txs -> map_Forall (fun k _ => P k) d.
Proof.
  intros E Hd Hs. revert d0 E Hd. induction Hs as [|tx txs Hk Hs IH]; intros d0; cbn [aggregate_debits].
  { by intros [= ->]. }
  intros E Hd. apply result_bind_ok in E as (t & _ & E). eapply IH; [exact E|].
  by apply map_Forall_insert_2.
Qed.

Lemma senders_sublist l txs : sublist l txs -> senders_ok txs -> senders_ok l.
Proof. unfold senders_ok. induction 1; rewrite ?Forall_cons; intuition auto. Qed.

Lemma filter_eligible_senders (txs : list FlashTransaction) (daa : Z) (m : accounts) (l : list FlashTransaction) :
  senders_ok txs -> (filter_eligible sha3 ∅ txs daa m).2 = Ok l -> senders_ok l.
Proof.
  intros Hs. destruct (filter_eligible_map sha3 verify hash_order hash_order_perm m daa ∅ txs) as (l' & -> & Hsub & _).
  intros [= ->]. by eapply senders_sublist.
Qed.

Lemma sim_validate_flash_batch txs daa :
  senders_ok txs ->
  simulates (validate_flash_batch sha3 verify hash_order txs daa)
            (validate_flash_batch sha3 verify hash_order txs daa).
Proof.
  intros Hs. unfold validate_flash_batch. destruct (bool_decide (txs = [])); [sim|].
  apply (sim_bind_post senders_ok); [by apply sim_filter_eligible|intros; by eapply filter_eligible_senders|].
  intros l Hl. destruct (bool_decide (l = [])); [sim|].
  apply (sim_bind_post (fun d => map_Forall (fun k _ => key_ok k) d)); [apply sim_lift| |].
  { intros m d E. eapply (aggregate_debits_keys _ ∅ l); [exact E|apply map_Forall_empty|exact Hl]. }
  intros d Hd. apply sim_bind; [|intros; apply sim_bind; [by apply sim_validate_each|sim]].
  apply sim_check_debits. rewrite hash_order_perm. apply Forall_forall.
  intros [k v] Hin. apply elem_of_map_to_list in Hin. exact (Hd k v Hin).
Qed.

(** * Blocks *)

Definition legacy_sender (tx : Transaction) : ScriptPublicKey :=
  pubkey_to_p2pkh_spk sha3 (take (length (payload tx) - SIG_SIZE - 8) (payload tx)).

(** Every account a transaction can touch has room in the store. *)
Definition tx_keys_ok (tx : Transaction) : Prop :=
  Forall (fun o => key_ok (script_public_key o)) (outputs tx) /\ key_ok (legacy_sender tx) /\
  (forall f, from_transaction tx = Some f -> flash_keys_ok sha3 f) /\
  (forall d, deserialize_coinbase_payload cm (payload tx) = Ok d -> key_ok (miner_spk (cb_miner_data d))).

Definition treasury_key_ok : Prop :=
  forall bs, hex_decode_into treasury_hex PUBKEY_SIZE = Some bs -> key_ok {| spk_version := 0; spk_script := bs |}.

Lemma sim_each {A} (P : A -> Prop) (f1 : A -> st S (fault StoreError) ()) (f2 : A -> st accounts (fault StoreError) ()) (l : list A) :
  (forall x, P x -> simulates (f1 x) (f2 x)) -> Forall P l ->
  simulates (each (S := S) f1 l) (each f2 l).
Proof. intros Hf. induction 1; cbn [each]; [sim|]. apply sim_bind; auto. Qed.

Lemma sim_unwind_tx i tx : tx_keys_ok tx -> simulates (unwind_tx sha3 i tx) (unwind_tx sha3 i tx).
Proof.
  intros (Ho & Hs & _). unfold unwind_tx. destruct (is_flash_payload _); [sim|].
  apply sim_bind.
  - eapply sim_each; [|exact Ho]. intros o Hk. unfold deduct_output. sim.
  - intros _. unfold legacy_sender in Hs. sim.
Qed.

Lemma sim_unwind_txs i txs :
  Forall tx_keys_ok txs -> simulates (unwind_txs sha3 i txs) (unwind_txs sha3 i txs).
Proof.
  intros Ht. revert i. induction Ht; intros i; cbn [unwind_txs]; [sim|].
  apply sim_bind; [by apply sim_unwind_tx|auto].
Qed.

Lemma flash_txs_keys txs : Forall tx_keys_ok txs -> Forall (flash_keys_ok sha3) (flash_txs_of txs).
Proof.
  intros Ht. apply Forall_forall. intros f Hf. apply list_elem_of_omap in Hf as (tx & Hin & E).
  rewrite Forall_forall in Ht. destruct (Ht tx Hin) as (_ & _ & Hk & _). by apply Hk.
Qed.

Lemma sim_unwind_block b txs :
  Forall tx_keys_ok txs ->
  simulates (unwind_block sha3 enable_flash_tx b txs) (unwind_block sha3 enable_flash_tx b txs).
Proof.
  intros Ht. unfold unwind_block. apply sim_bind; [by apply sim_unwind_txs|]. intros _.
  destruct (_ && _); [|sim]. apply sim_bind; [|sim].
  by apply sim_try_catch, sim_reorg_flash_block, flash_txs_keys.
Qed.

Lemma sim_reward_miner tx :
  tx_keys_ok tx -> treasury_key_ok ->
  simulates (reward_miner hex_decode_into cm treasury_hex tx) (reward_miner hex_decode_into cm treasury_hex tx).
Proof.
  intros (_ & _ & _ & Hm) Ht. unfold reward_miner.
  destruct (deserialize_coinbase_payload cm (payload tx)) as [d|e]; [|sim].
  specialize (Hm d eq_refl). destruct (0 <? cb_subsidy d); [|sim]. cbv zeta.
  apply sim_bind; [eauto with sim|]. intros ok. destruct (negb ok); [sim|].
  destruct (hex_decode_into treasury_hex PUBKEY_SIZE) as [bs|] eqn:E; [|sim].
  specialize (Ht bs E). sim.
Qed.

Lemma sim_credit_outputs os :
  Forall (fun o => key_ok (script_public_key o)) os ->
  simulates (credit_outputs (S := S) os) (credit_outputs os).
Proof.
  induction 1 as [|o os Hk Hs IH]; cbn [credit_outputs]; [sim|].
  apply sim_bind; [eauto with sim|]. intros ok. destruct (negb ok); [sim|auto].
Qed.

Lemma sim_execute_user_tx tx :
  tx_keys_ok tx ->
  simulates (execute_user_tx sha3 sha256 verify tx) (execute_user_tx sha3 sha256 verify tx).
Proof.
  intros (Ho & Hs & _). unfold execute_user_tx. cbv zeta.
  destruct (is_flash_payload _); [sim|]. destruct (_ && _); [sim|]. destruct (_ <? _)%nat; [sim|].
  destruct (negb (verify _ _ _)); [sim|]. fold (legacy_sender tx).
  intros s m Hr.
  assert (G : simulates (get_balance (legacy_sender tx)) (get_balance (legacy_sender tx)))
    by (unfold get_balance; sim).
  specialize (G s m Hr) as [E1 R1].
  destruct (get_balance (legacy_sender tx) s) as [s1 r1], (get_balance (legacy_sender tx) m) as [m1 r2].
  simpl in *. subst r2. destruct r1 as [bal|e]; [|done].
  revert s1 m1 R1. change (simulates
    (if bal <? wadd64 (sum_outputs (outputs tx)) (gas tx) then mret tt else
       ok ← attempt (update_balance_batch (legacy_sender tx) (neg_i64 (wadd64 (sum_outputs (outputs tx)) (gas tx))));
       if negb ok then mret tt
       else _ ← credit_outputs (S := S) (outputs tx);
            _ ← attempt (set_last_tx_id_batch (S := S) (legacy_sender tx) (tx_id tx)); mret tt)
    (if bal <? wadd64 (sum_outputs (outputs tx)) (gas tx) then mret tt else
       ok ← attempt (update_balance_batch (legacy_sender tx) (neg_i64 (wadd64 (sum_outputs (outputs tx)) (gas tx))));
       if negb ok then mret tt
       else _ ← credit_outputs (outputs tx);
            _ ← attempt (set_last_tx_id_batch (legacy_sender tx) (tx_id tx)); mret tt)).
  destruct (bal <? _); [sim|]. apply sim_bind; [eauto with sim|]. intros ok. destruct (negb ok); [sim|].
  apply sim_bind; [by apply sim_credit_outputs|]. intros _. unfold set_last_tx_id_batch. sim.
Qed.

Lemma sim_apply_flash_txs b txs :
  Forall (flash_keys_ok sha3) txs -> simulates (apply_flash_txs sha3 b txs) (apply_flash_txs sha3 b txs).
Proof.
  induction 1 as [|tx txs Hk Hs IH]; cbn [apply_flash_txs]; [sim|].
  apply sim_bind; [by apply sim_try_catch, sim_apply_flash_tx|]. intros [[]|e]; [|done].
  apply sim_bind; [sim|]. intros r. apply sim_bind; [done|]. intros. apply sim_ret.
Qed.

(** The accounts [apply_flash_txs] reports are those of its transactions. *)
Lemma apply_flash_txs_affected (b : bytes) (txs : list FlashTransaction) (m : accounts) (spks : list ScriptPublicKey) :
  Forall (flash_keys_ok sha3) txs -> (apply_flash_txs sha3 b txs m).2 = Ok spks ->
  Forall (fun spk => key_ok spk) spks.
Proof.
  intros Ht. revert m spks. induction Ht as [|tx txs [Hs Hr] Ht IH]; intros m spks; cbn [apply_flash_txs].
  { intros [= <-]. constructor. }
  unfold mbind at 1, st_bind at 1. destruct (try_catch _ m) as [m1 [[[]|e]|e]]; [| |done].
  2:{ apply IH. }
  unfold mbind, st_bind, or_panic, lift. destruct (hash20_to_p2pkh_spk (recipient tx)) as [r|]; [|done]. simpl.
  specialize (IH m1). destruct (apply_flash_txs sha3 b txs m1) as [m2 [rest|e]]; [|done].
  intros [= <-]. constructor; [done|]. constructor; [by apply Hr|]. by apply IH.
Qed.

Lemma sim_commit_flash_txs b txs daa :
  Forall (flash_keys_ok sha3) txs ->
  simulates (commit_flash_txs sha3 verify hash_order b txs daa)
            (commit_flash_txs sha3 verify hash_order b txs daa).
Proof.
  intros Ht. unfold commit_flash_txs. destruct (bool_decide _); [sim|]. intros s m Hr.
  assert (Hs : senders_ok txs) by (eapply Forall_impl; [exact Ht|]; by intros tx []).
  specialize (sim_validate_flash_batch txs daa Hs s m Hr) as [E1 R1].
  pose proof (validate_flash_batch_map sha3 verify hash_order hash_order_perm m daa txs) as [_ V].
  destruct (validate_flash_batch sha3 verify hash_order txs daa s) as [s1 r1],
    (validate_flash_batch sha3 verify hash_order txs daa m) as [m1 r2].
  simpl in *. subst r2. destruct r1 as [out|e]; [|done].
  destruct (V out eq_refl) as [Hsub _ _ _].
  assert (Hout : Forall (flash_keys_ok sha3) out).
  { clear -Hsub Ht. induction Hsub; rewrite ?Forall_cons in *; intuition auto. }
  apply (sim_bind_post (fun spks => Forall (fun spk => key_ok spk) spks)); [by apply sim_apply_flash_txs| | |done].
  { intros m0 spks. by apply apply_flash_txs_affected. }
  intros spks Hspks. apply sim_bind; [|sim]. by apply sim_attempt, sim_prune.
Qed.

Lemma sim_execute_block b txs daa :
  Forall tx_keys_ok txs -> treasury_key_ok ->
  simulates (execute_block sha3 sha256 verify hash_order hex_decode_into cm treasury_hex enable_flash_tx b txs daa)
            (execute_block sha3 sha256 verify hash_order hex_decode_into cm treasury_hex enable_flash_tx b txs daa).
Proof.
  intros Ht Htr. unfold execute_block. apply sim_bind.
  - destruct Ht as [|cb txs Hcb Ht]; cbn [execute_txs]; [sim|].
    apply sim_bind; [by apply sim_reward_miner|]. intros _.
    eapply sim_each; [|exact Ht]. apply sim_execute_user_tx.
  - intros _. destruct enable_flash_tx; [|sim]. by apply sim_commit_flash_txs, flash_txs_keys.
Qed.

Lemma sim_commit_chain_path removed added daa :
  Forall (fun p => Forall tx_keys_ok p.2) (removed ++ added) -> treasury_key_ok ->
  simulates
    (commit_chain_path sha3 sha256 verify hash_order hex_decode_into cm treasury_hex enable_flash_tx removed added daa)
    (commit_chain_path sha3 sha256 verify hash_order hex_decode_into cm treasury_hex enable_flash_tx removed added daa).
Proof.
  intros [Hrm Had]%Forall_app Htr. unfold commit_chain_path. apply sim_bind.
  - eapply sim_each; [|exact Hrm]. intros [b txs] Hp. by apply sim_unwind_block.
  - intros _. eapply sim_each; [|exact Had]. intros [b txs] Hp. by apply sim_execute_block.
Qed.

End refine.

(** C17: Committing a chain path on the database does what it does on the map of
    accounts. From a cache, batch and database that represent [m], when the accounts
    of the removed and added blocks fit the [Count] cache together with those it
    already holds, the run returns what the run on [m] returns, and writing the batch
    leaves a database that holds exactly the resulting map. *)
Theorem commit_on_database_refines_map {D} `{RocksDbLaws D}
    (serialize : AccountState -> result StoreError bytes)
    (deserialize : bytes -> result StoreError AccountState)
    (bincode : forall a, exists bs, serialize a = Ok bs /\ deserialize bs = Ok a)
    (gen_range : nat -> nat -> nat) (gen_range_lt : forall i n, (0 < n)%nat -> (gen_range i n < n)%nat)
    (cache_size : Z) (prefix : bytes) (d : D) (U : gset bytes) (U_fits : Z.of_nat (size U) < cache_size)
    (sha3 sha256 : bytes -> bytes) (verify : bytes -> bytes -> bytes -> bool)
    (hash_order : list (ScriptPublicKey * Z) -> list (ScriptPublicKey * Z))
    (hash_order_perm : forall l, hash_order l ≡ₚ l)
    (hex_decode_into : bytes -> nat -> option bytes) (cm : CoinbaseManager) (treasury_hex : bytes)
    (enable_flash_tx : bool) (removed added : list (bytes * list Transaction)) (daa : Z)
    (s : Inner bytes AccountState * WriteBatch) (m : accounts) :
  let A := db_account_access serialize deserialize gen_range cache_size prefix d in
  let L := db_account_laws serialize deserialize bincode gen_range gen_range_lt cache_size prefix d U U_fits in
  let run (S : Type) (_ : AccountAccess S) :=
    commit_chain_path (S := S) sha3 sha256 verify hash_order hex_decode_into cm treasury_hex
      enable_flash_tx removed added daa in
  db_account_rep deserialize cache_size prefix d U s m ->
  Forall (fun p => Forall (@tx_keys_ok _ A L sha3 cm) p.2) (removed ++ added) ->
  @treasury_key_ok _ A L hex_decode_into treasury_hex ->
  (run _ A s).2 = (run _ _ m).2 /\
  exists d', db_write (run _ A s).1.2 d = (d', Ok tt) /\
    direct_rep id deserialize size_of_account (policy_from (Count cache_size)) prefix
      (run _ A s).1.1 d' (run _ _ m).1.
Proof.
  intros A L run Hs Hk Ht.
  destruct (@sim_commit_chain_path _ A L sha3 sha256 verify hash_order hash_order_perm hex_decode_into
    cm treasury_hex enable_flash_tx removed added daa Hk Ht s m Hs) as [E1 [R1 _]].
  split; [exact E1|]. by apply batch_flush in R1.
Qed.

(** * A concrete run *)

#[local] Instance FlashEntry_countable : Countable FlashEntry.
Proof.
  apply (inj_countable' (fun e => (entry_flash_id e, entry_expiry_daa_score e, entry_block_hash e))
    (fun '(i, x, b) => {| entry_flash_id := i; entry_expiry_daa_score := x; entry_block_hash := b |})).
  by intros [].
Qed.

#[local] Instance AccountState_countable : Countable AccountState.
Proof.
  apply (inj_countable' (fun a => (balance a, recent_flashes a))
    (fun '(b, l) => {| balance := b; recent_flashes := l |})).
  by intros [].
Qed.

Definition toy_ser (a : AccountState) : result StoreError bytes := Ok [Zpos (encode a)].
Definition toy_de (bs : bytes) : result StoreError AccountState :=
  match bs with
  | [Zpos p] => ok_or (DeserializationError 0) (decode p)
  | _ => Err (DeserializationError 0)
  end.

Lemma toy_account_bincode a : exists bs, toy_ser a = Ok bs /\ toy_de bs = Ok a.
Proof. eexists. split; [done|]. simpl. by rewrite decode_encode. Qed.

Definition toy_cb_tx : Transaction :=
  {| tx_version := 0; inputs := []; outputs := []; lock_time := 0;
     subnetwork_id := SUBNETWORK_ID_COINBASE; gas := 0;
     payload := to_le 8 5 ++ to_le 8 1000 ++ miner_bytes toy_miner; mass := 0; tx_id := replicate 32 1 |}.

Definition toy_keys : gset bytes :=
  {[ AccountKey_new (miner_spk toy_miner); AccountKey_new (legacy_sender toy_sha3 toy_cb_tx) ]}.

Lemma commit_on_database_refines_map_witness :
  exists d', db_write (commit_chain_path
      (H := db_account_access toy_ser toy_de (fun _ _ => 0%nat) 10 [97] (∅ : gmap bytes bytes))
      toy_sha3 id (fun _ _ _ => true) id (fun _ _ => None) toy_manager [1] true
      [] [([7], [toy_cb_tx])] 5 (inner_new, [])).1.2 ∅ = (d', Ok tt) /\
    direct_rep id toy_de size_of_account (policy_from (Count 10)) [97]
      (commit_chain_path
        (H := db_account_access toy_ser toy_de (fun _ _ => 0%nat) 10 [97] (∅ : gmap bytes bytes))
        toy_sha3 id (fun _ _ _ => true) id (fun _ _ => None) toy_manager [1] true
        [] [([7], [toy_cb_tx])] 5 (inner_new, [])).1.1 d'
      (commit_chain_path (S := accounts) toy_sha3 id (fun _ _ _ => true) id (fun _ _ => None)
        toy_manager [1] true [] [([7], [toy_cb_tx])] 5 ∅).1.
Proof.
  assert (Fit : Z.of_nat (size toy_keys) < 10) by (vm_compute; done).
  pose proof (commit_on_database_refines_map (D := gmap bytes bytes) toy_ser toy_de toy_account_bincode
    (fun _ _ => 0%nat) ltac:(simpl; lia) 10 [97] ∅ toy_keys Fit toy_sha3 id (fun _ _ _ => true) id
    (fun l => Permutation_refl l) (fun _ _ => None) toy_manager [1] true [] [([7], [toy_cb_tx])] 5
    (inner_new, []) ∅) as T.
  cbv zeta in T. destruct T as [_ T]; [| | |exact T].
  - split; [|intros k Hk; apply elem_of_dom in Hk as [a Ha]; discriminate Ha].
    split; [by apply cache_new_wf|]. split; [apply map_empty_subseteq|].
    assert (R : rows id toy_de [97] ∅ ∅) by (intros k; by rewrite lookup_empty).
    split; [exact R|]. exists ∅. split; [exact R|]. by intros.
  - constructor; [|constructor]. constructor; [|constructor].
    split; [constructor|]. split; [by apply elem_of_union_r, elem_of_singleton|]. split.
    + intros f Hf. by vm_compute in Hf.
    + intros d Hd. assert (miner_spk (cb_miner_data d) = miner_spk toy_miner) as ->.
      { vm_compute in Hd. by injection Hd as <-. }
      by apply elem_of_union_l, elem_of_singleton.
  - by intros bs.
Defined.
