(* ===== verification/AccountChanges.v ===== *)
(** The account commitment of a block
    (consensus/src/pipeline/virtual_processor/account_changes.rs): the effects of a
    block, their application to the accounts committed by the parent's root, the
    update of the sparse Merkle tree and the proofs for light clients.

    [states_get] is the content-addressed [AccountStatesStoreReader]; [hash_order] is
    the iteration order of the [HashMap] of touched accounts; [hex_decode_into src n]
    is [faster_hex::hex_decode] into a zeroed buffer of [n] bytes. *)

From S2P Require Import Prelude Smt SmtTree SmtCorrect Access Tx Account Coinbase Validator Commit.

Inductive AccountError :=
| SmtErr (e : SmtError)
| StoreErr (e : StoreError).

Definition Hash_default : bytes := replicate 32 0.

(** * Data of a proof (consensus/core/src/model/proof.rs) *)

Record AccountProofFlashEntry := { proof_flash_id : bytes; proof_expiry_daa_score : Z }.

Record AccountProofState := {
  proof_balance : Z;
  proof_recent_flashes : list AccountProofFlashEntry;
}.

Record AccountProof := {
  proof_block_hash : bytes;
  account_root : bytes;
  proof_key : H256;
  proof_payload : Proof_;
  proof_state : option AccountProofState;
  proof_state_hash : H256;
}.

Section changes.
Context (hash_iter : list Z -> felt4) (sha3 : bytes -> bytes).
Context (states_get : bytes -> result StoreError AccountState).

Definition account_key_hash (spk : ScriptPublicKey) : H256 :=
  hash_key hash_iter (to_le 2 (spk_version spk) ++ spk_script spk).

Section with_nodes.
Context {S : Type} `{NodeStore S}.
Context (hash_order : list (ScriptPublicKey * AccountState) -> list (ScriptPublicKey * AccountState)).

Abbreviation touched_map := (gmap ScriptPublicKey AccountState).
Abbreviation run A := (st S (fault AccountError) A).

Definition read_account_state (s : S) (root : H256) (spk : ScriptPublicKey) :
    result AccountError AccountState :=
  match get s root (account_key_hash spk) with
  | Err e => Err (SmtErr e)
  | Ok None => Ok AccountState_default
  | Ok (Some state_hash) =>
      match states_get state_hash with
      | Ok state => Ok state
      | Err (KeyNotFound _) => Ok AccountState_default
      | Err e => Err (StoreErr e)
      end
  end.

(** [if !touched.contains_key(spk) { touched.insert(spk, read_account_state(..)?) }]. *)
Definition touch (parent_root : H256) (spk : ScriptPublicKey) (touched : touched_map) : run touched_map :=
  fun s =>
    match touched !! spk with
    | Some _ => (s, Ok touched)
    | None => match read_account_state s parent_root spk with
              | Ok a => (s, Ok (<[spk := a]> touched))
              | Err e => (s, Err (Error e))
              end
    end.

(** [*touched.get_mut(spk).unwrap()] changed by [f]. *)
Definition modify (spk : ScriptPublicKey) (f : AccountState -> AccountState) (touched : touched_map) :
    run touched_map :=
  a ← or_panic (touched !! spk); mret (<[spk := f a]> touched).

(** One turn of step 1 of [compute_block_account_changes]. *)
Definition apply_flash_change (parent_root : H256) (touched : touched_map) (tx : FlashTransaction) :
    run touched_map :=
  let sender_spk := flash_pubkey_to_spk sha3 (pubkey tx) in
  recipient_spk ← or_panic (hash20_to_p2pkh_spk (recipient tx));
  touched ← touch parent_root sender_spk touched;
  touched ← touch parent_root recipient_spk touched;
  let total_debit := saturating_add64 (amount tx) (fee tx) in
  touched ← modify sender_spk (fun sender =>
    {| balance := saturating_sub (balance sender) total_debit;
       recent_flashes := recent_flashes sender ++
         [{| entry_flash_id := flash_id sha3 tx; entry_expiry_daa_score := expiry_daa_score tx;
             entry_block_hash := Hash_default |}] |}) touched;
  modify recipient_spk (fun rcp => with_balance rcp (saturating_add64 (balance rcp) (amount tx))) touched.

(** One turn of step 2. *)
Definition apply_reward (parent_root : H256) (touched : touched_map) (reward : ScriptPublicKey * Z) :
    run touched_map :=
  let '(miner_spk, amount) := reward in
  touched ← touch parent_root miner_spk touched;
  modify miner_spk (fun miner => with_balance miner (saturating_add64 (balance miner) amount)) touched.

Fixpoint fold_touched {A} (f : touched_map -> A -> run touched_map) (touched : touched_map) (l : list A) :
    run touched_map :=
  match l with
  | [] => mret touched
  | x :: l' => touched' ← f touched x; fold_touched f touched' l'
  end.

(** Step 4. *)
Fixpoint update_leaves (root : H256) (touched : list (ScriptPublicKey * AccountState)) : run H256 :=
  match touched with
  | [] => mret root
  | (spk, state) :: touched' =>
      let key := account_key_hash spk in
      let leaf := if is_empty state then None else Some (content_hash sha3 state) in
      root' ← map_err (fun e => Error (SmtErr e)) (update root key leaf);
      update_leaves root' touched'
  end.

Definition compute_block_account_changes (parent_root : H256) (flash_txs : list FlashTransaction)
    (rewards : list (ScriptPublicKey * Z)) (daa_score : Z) :
    run (H256 * list (ScriptPublicKey * AccountState)) :=
  touched ← fold_touched (apply_flash_change parent_root) ∅ flash_txs;
  touched ← fold_touched (apply_reward parent_root) touched rewards;
  let touched := (fun a => prune_recent_flashes a daa_score) <$> touched in
  let entries := hash_order (map_to_list touched) in
  root ← update_leaves parent_root entries;
  mret (root, entries).

Definition prove_account (s : S) (root : H256) (spk : ScriptPublicKey) : result AccountError AccountProof :=
  let key := account_key_hash spk in
  match prove s root key with
  | Err e => Err (SmtErr e)
  | Ok smt_proof =>
      let '(state, state_hash) :=
        match terminal smt_proof with
        | TermEmpty => (None, replicate 32 0)
        | TermLeaf leaf_key value =>
            if negb (bool_decide (leaf_key = key)) then (None, replicate 32 0)
            else match states_get value with
                 | Ok s => (Some {| proof_balance := balance s;
                                    proof_recent_flashes := map (fun f =>
                                      {| proof_flash_id := entry_flash_id f;
                                         proof_expiry_daa_score := entry_expiry_daa_score f |})
                                      (recent_flashes s) |}, value)
                 | Err _ => (None, value)
                 end
        end in
      Ok {| proof_block_hash := Hash_default; account_root := root; proof_key := key;
            proof_payload := smt_proof; proof_state := state; proof_state_hash := state_hash |}
  end.

End with_nodes.
End changes.

(** * Block effects *)

Section effects.
Context (hex_decode_into : bytes -> nat -> option bytes).

Definition treasury_spk_from_hex (hex : bytes) : option ScriptPublicKey :=
  if bool_decide (hex = []) then None
  else bytes ← hex_decode_into hex 1952; Some {| spk_version := 0; spk_script := bytes |}.

Definition extract_block_effects (txs : list Transaction) (cm : CoinbaseManager) (treasury_hex : bytes) :
    list FlashTransaction * list (ScriptPublicKey * Z) :=
  match txs with
  | [] => ([], [])
  | coinbase :: user =>
      let rewards :=
        match deserialize_coinbase_payload cm (payload coinbase) with
        | Err _ => []
        | Ok cb =>
            let total := cb_subsidy cb in
            if 0 <? total then
              let dev_fee := if bool_decide (treasury_hex = []) then 0 else total / 20 in
              let miner_reward := wsub64 total dev_fee in
              (miner_spk (cb_miner_data cb), miner_reward) ::
              (if 0 <? dev_fee then
                 match treasury_spk_from_hex treasury_hex with
                 | Some spk => [(spk, dev_fee)]
                 | None => []
                 end
               else [])
            else []
        end in
      (omap from_transaction user, rewards)
  end.

End effects.
