(* ===== verification/Commitment.v ===== *)
(** Correctness of the account commitment of AccountChanges.v: the pure reference of a
    block's effect on the committed accounts, the refinement of
    [compute_block_account_changes] to it, its agreement with the live account store of
    Account.v and Commit.v, and the light-client proofs. *)

From S2P Require Import Prelude Smt SmtTree SmtCorrect SmtTheorems Access Tx Account Coinbase Validator Commit CommitTheorems AccountChanges.

(** * The reference *)

Section reference.
Context (sha3 : bytes -> bytes) (view : ScriptPublicKey -> AccountState).
Implicit Types (T : gmap ScriptPublicKey AccountState).

(** The state of an account after the changes [T] to the parent's accounts [view]. *)
Definition cur T (spk : ScriptPublicKey) : AccountState := default (view spk) (T !! spk).

Definition flash_step T (tx : FlashTransaction) : gmap ScriptPublicKey AccountState :=
  match hash20_to_p2pkh_spk (recipient tx) with
  | None => T
  | Some r =>
      let sk := flash_pubkey_to_spk sha3 (pubkey tx) in
      let T1 := <[sk := debited sha3 tx Hash_default (cur T sk)]> T in
      <[r := credited (amount tx) (cur T1 r)]> T1
  end.

Definition reward_step T (reward : ScriptPublicKey * Z) : gmap ScriptPublicKey AccountState :=
  <[reward.1 := credited reward.2 (cur T reward.1)]> T.

Definition block_accounts (flash_txs : list FlashTransaction) (rewards : list (ScriptPublicKey * Z))
    (daa_score : Z) : gmap ScriptPublicKey AccountState :=
  (fun a => prune_recent_flashes a daa_score) <$>
    foldl reward_step (foldl flash_step ∅ flash_txs) rewards.

End reference.

Section refinement.
Context (hash_iter : list Z -> felt4) (sha3 : bytes -> bytes).
Context (states_get : bytes -> result StoreError AccountState).

Definition leaf_change (e : ScriptPublicKey * AccountState) : H256 * option H256 :=
  (account_key_hash hash_iter e.1, if is_empty e.2 then None else Some (content_hash sha3 e.2)).

(** The account that the committed map [M] holds for [spk]. *)
Definition committed (M : gmap H256 H256) (spk : ScriptPublicKey) : AccountState :=
  match M !! account_key_hash hash_iter spk with
  | None => AccountState_default
  | Some h => match states_get h with Ok a => a | Err _ => AccountState_default end
  end.

(** No read of a committed state fails with anything but a missing key. *)
Definition states_readable (M : gmap H256 H256) : Prop :=
  forall k h, M !! k = Some h ->
    match states_get h with Ok _ | Err (KeyNotFound _) => True | Err _ => False end.

(** Every recipient is long enough for [hash20_to_p2pkh_spk]. *)
Definition recipients_ok (txs : list FlashTransaction) : Prop :=
  Forall (fun tx => (20 <= length (recipient tx))%nat) txs.

Context {S : Type} `{Laws : NodeStoreLaws hash_iter S}.
Context (U : Node -> Prop) (HU : collision_free hash_iter U).
Implicit Types (T : gmap ScriptPublicKey AccountState).

Lemma key_hash_ok spk : h256_ok (account_key_hash hash_iter spk).
Proof. apply goldilocks_to_bytes_ok. Qed.

Lemma read_committed s root M spk :
  represents hash_iter U s root M -> states_readable M ->
  read_account_state hash_iter states_get s root spk = Ok (committed M spk).
Proof.
  intros Hr Hs. unfold read_account_state, committed.
  rewrite (represents_get hash_iter U HU s root M) by (done || apply key_hash_ok).
  destruct (M !! _) as [h|] eqn:E; [|done]. specialize (Hs _ _ E).
  destruct (states_get h) as [a|[]]; done.
Qed.

Lemma recipient_some tx :
  (20 <= length (recipient tx))%nat -> exists r, hash20_to_p2pkh_spk (recipient tx) = Some r.
Proof. intros L. unfold hash20_to_p2pkh_spk. rewrite (proj2 (Nat.leb_le _ _) L). eauto. Qed.

Section with_view.
Context (s : S) (root : H256) (view : ScriptPublicKey -> AccountState).
Context (Hview : forall spk, read_account_state hash_iter states_get s root spk = Ok (view spk)).

Lemma touch_run T spk :
  exists T', touch hash_iter states_get root spk T s = (s, Ok T') /\ T' !! spk = Some (cur view T spk) /\
    (forall j, cur view T' j = cur view T j) /\ (forall j, j <> spk -> T' !! j = T !! j).
Proof.
  unfold touch. destruct (T !! spk) as [a|] eqn:E.
  - exists T. unfold cur at 1. by rewrite E.
  - rewrite Hview. eexists. split; [done|]. rewrite lookup_insert_eq. unfold cur.
    split; [by rewrite E|]. split; intros j; [|intros; by rewrite lookup_insert_ne].
    destruct (decide (j = spk)) as [->|]; [by rewrite lookup_insert_eq, E|by rewrite lookup_insert_ne].
Qed.

Lemma modify_run T spk (f : AccountState -> AccountState) a :
  T !! spk = Some a -> modify (S := S) spk f T s = (s, Ok (<[spk := f a]> T)).
Proof. intros E. unfold modify, mbind, st_bind, or_panic, lift. by rewrite E. Qed.

Lemma apply_flash_change_run T tx :
  (20 <= length (recipient tx))%nat ->
  apply_flash_change hash_iter sha3 states_get root T tx s = (s, Ok (flash_step sha3 view T tx)).
Proof.
  intros L. destruct (recipient_some tx L) as [r Hr]. unfold apply_flash_change, flash_step. rewrite Hr.
  set (sk := flash_pubkey_to_spk sha3 (pubkey tx)).
  unfold or_panic at 1, mbind at 1, st_bind at 1. cbn [ok_or lift].
  destruct (touch_run T sk) as (T1 & E1 & S1 & C1 & N1). rewrite (st_bind_run _ _ _ _ _ E1).
  destruct (touch_run T1 r) as (T2 & E2 & S2 & C2 & N2). rewrite (st_bind_run _ _ _ _ _ E2).
  assert (Sk : T2 !! sk = Some (cur view T sk)).
  { destruct (decide (sk = r)) as [<-|]; [by rewrite S2, C1|by rewrite N2]. }
  cbv zeta. rewrite (st_bind_run _ _ _ _ _ (modify_run _ _ _ _ Sk)).
  set (d := {| balance := _; recent_flashes := _ |}).
  change (debited sha3 tx Hash_default (cur view T sk)) with d.
  assert (Sr : <[sk := d]> T2 !! r = Some (cur view (<[sk := d]> T) r)).
  { unfold cur. destruct (decide (r = sk)) as [->|]; [by rewrite !lookup_insert_eq|].
    rewrite !lookup_insert_ne by done. by rewrite S2, C1. }
  rewrite (modify_run _ _ _ _ Sr). unfold credited. do 2 f_equal. apply map_eq. intros j.
  destruct (decide (j = r)) as [->|]; [by rewrite !lookup_insert_eq|]. rewrite !(lookup_insert_ne _ r) by done.
  destruct (decide (j = sk)) as [->|]; [by rewrite !lookup_insert_eq|]. rewrite !lookup_insert_ne by done.
  by rewrite N2, N1.
Qed.

Lemma apply_reward_run T rw :
  apply_reward hash_iter states_get root T rw s = (s, Ok (reward_step view T rw)).
Proof.
  destruct rw as [spk v]. unfold apply_reward, reward_step. cbn [fst snd].
  destruct (touch_run T spk) as (T1 & E1 & S1 & C1 & N1). rewrite (st_bind_run _ _ _ _ _ E1).
  rewrite (modify_run _ _ _ _ S1). unfold credited. do 2 f_equal. apply map_eq. intros j.
  destruct (decide (j = spk)) as [->|]; [by rewrite !lookup_insert_eq|].
  rewrite !lookup_insert_ne by done. by apply N1.
Qed.

Lemma fold_touched_run {A} (f : _ -> A -> st S (fault AccountError) _) g T l :
  (forall T x, x ∈ l -> f T x s = (s, Ok (g T x))) -> fold_touched f T l s = (s, Ok (foldl g T l)).
Proof.
  revert T. induction l as [|x l IH]; intros T Hf; [done|]. cbn [fold_touched foldl].
  rewrite (st_bind_run _ _ _ _ _ (Hf T x (list_elem_of_here _ _))). apply IH.
  intros T' y Hy. apply Hf. by right.
Qed.
End with_view.

Lemma update_leaves_many root l s :
  update_leaves hash_iter sha3 root l s =
  map_err (fun e => Error (SmtErr e)) (update_many root (map leaf_change l)) s.
Proof.
  revert root s. induction l as [|[spk a] l IH]; intros root s; [done|].
  cbn [update_leaves map update_many leaf_change fst snd]. unfold mbind, st_bind, map_err.
  destruct (update root _ _ s) as [s' [root'|e]]; [|done]. rewrite IH. done.
Qed.

Context (sha3_ok : forall bs, h256_ok (sha3 bs)).

Lemma leaf_changes_ok l : Forall change_ok (map leaf_change l).
Proof.
  apply Forall_fmap, Forall_true. intros [spk a]. split; [apply key_hash_ok|].
  unfold compose, leaf_change. simpl. destruct (is_empty a); [done|apply sha3_ok].
Qed.

(** [compute_block_account_changes] is the reference, followed by the tree updates. *)
Lemma compute_run hash_order s root M txs rewards daa :
  represents hash_iter U s root M -> states_readable M -> recipients_ok txs ->
  let entries := hash_order (map_to_list (block_accounts sha3 (committed M) txs rewards daa)) in
  covers_run hash_iter U M (map leaf_change entries) ->
  exists s' root',
    compute_block_account_changes hash_iter sha3 states_get hash_order root txs rewards daa s =
      (s', Ok (root', entries)) /\
    represents hash_iter U s' root' (apply_changes M (map leaf_change entries)).
Proof.
  intros Hr Hs Hrc entries Hcov. unfold compute_block_account_changes.
  assert (Hview : forall spk, read_account_state hash_iter states_get s root spk = Ok (committed M spk)).
  { intros spk. by apply read_committed. }
  erewrite st_bind_run; cycle 1.
  { apply (fold_touched_run s _ (flash_step sha3 (committed M))). intros T tx Htx.
    apply apply_flash_change_run; [done|]. by eapply Forall_forall in Hrc. }
  erewrite st_bind_run; cycle 1.
  { apply (fold_touched_run s _ (reward_step (committed M))). intros T rw _. by apply apply_reward_run. }
  cbv zeta. fold (block_accounts sha3 (committed M) txs rewards daa). fold entries.
  destruct (represents_update_many hash_iter U HU s root M (map leaf_change entries))
    as (s' & root' & E & _ & R); [done|apply leaf_changes_ok|done|].
  exists s', root'. split; [|done]. erewrite st_bind_run; [done|].
  rewrite update_leaves_many. unfold map_err. by rewrite E.
Qed.

End refinement.

(** * The commitment is a function of the block *)

(** The account commitment is well defined: from any two node stores that hold the
    parent's tree, and for any two iteration orders of the map of touched accounts,
    [compute_block_account_changes] succeeds with the same root, and that root represents
    the parent's map with the leaf of every touched account set to the content hash of
    its state in the reference [block_accounts] (deleted where the account is empty).
    The touched accounts must have distinct tree keys, and every recipient at least 20
    bytes. *)
Theorem account_commitment_deterministic (hash_iter : list Z -> felt4) (sha3 : bytes -> bytes)
    (states_get : bytes -> result StoreError AccountState)
    {S1} `{L1 : NodeStoreLaws hash_iter S1} {S2} `{L2 : NodeStoreLaws hash_iter S2}
    (U : Node -> Prop) (s1 : S1) (s2 : S2) (root : H256) (M : gmap H256 H256)
    (txs : list FlashTransaction) (rewards : list (ScriptPublicKey * Z)) (daa : Z)
    (order1 order2 : list (ScriptPublicKey * AccountState) -> list (ScriptPublicKey * AccountState))
    (T := block_accounts sha3 (committed hash_iter states_get M) txs rewards daa)
    (HU : collision_free hash_iter U) (sha3_ok : forall bs, h256_ok (sha3 bs))
    (H1 : represents hash_iter U s1 root M) (H2 : represents hash_iter U s2 root M)
    (Hs : states_readable states_get M) (Hrc : recipients_ok txs)
    (O1 : order1 (map_to_list T) ≡ₚ map_to_list T) (O2 : order2 (map_to_list T) ≡ₚ map_to_list T)
    (Hkeys : NoDup (map (fun e => account_key_hash hash_iter e.1) (map_to_list T)))
    (C1 : covers_run hash_iter U M (map (leaf_change hash_iter sha3) (order1 (map_to_list T))))
    (C2 : covers_run hash_iter U M (map (leaf_change hash_iter sha3) (order2 (map_to_list T)))) :
  exists s1' s2' root',
    compute_block_account_changes hash_iter sha3 states_get order1 root txs rewards daa s1 =
      (s1', Ok (root', order1 (map_to_list T))) /\
    compute_block_account_changes hash_iter sha3 states_get order2 root txs rewards daa s2 =
      (s2', Ok (root', order2 (map_to_list T))) /\
    represents hash_iter U s1' root' (apply_changes M (map (leaf_change hash_iter sha3) (map_to_list T))).
Proof.
  assert (P : forall o, o ≡ₚ map_to_list T ->
    apply_changes M (map (leaf_change hash_iter sha3) (map_to_list T)) =
    apply_changes M (map (leaf_change hash_iter sha3) o)).
  { intros o Ho. apply apply_changes_perm; [by rewrite Ho|]. by rewrite map_map. }
  destruct (compute_run hash_iter sha3 states_get U HU sha3_ok order1 s1 root M txs rewards daa)
    as (s1' & r1 & E1 & R1); [done..|].
  destruct (compute_run hash_iter sha3 states_get U HU sha3_ok order2 s2 root M txs rewards daa)
    as (s2' & r2 & E2 & R2); [done..|].
  fold T in R1, R2. rewrite <-P in R1, R2 by done.
  assert (r1 = r2) as <-.
  { destruct R1 as (_ & t1 & -> & _ & C1' & X1), R2 as (_ & t2 & -> & _ & C2' & X2).
    by rewrite (canon_unique [] t1 t2) by congruence. }
  exists s1', s2', r1. split; [exact E1|]. by split; [exact E2|].
Qed.

(** Concrete data: a digest of 32 bytes, an empty parent state, a block with one flash
    transaction and one reward. *)
Definition toy_digest (bs : bytes) : bytes :=
  let h := foldl (fun acc x => (acc * 257 + x + 1) mod 2 ^ 200) 3 bs in to_le 32 h.

Lemma toy_digest_ok bs : h256_ok (toy_digest bs).
Proof. split; [apply length_to_le|apply to_le_ok]. Qed.

Definition no_states (h : bytes) : result StoreError AccountState := Err (KeyNotFound h).
Definition toy_miner : ScriptPublicKey := {| spk_version := 0; spk_script := [77; 78] |}.
Definition toy_touched : gmap ScriptPublicKey AccountState :=
  block_accounts toy_digest (committed toy_hash no_states ∅) [toy_flash] [(toy_miner, 50)] 60.

Definition toy_changes : list (H256 * option H256) :=
  map (leaf_change toy_hash toy_digest) (map_to_list toy_touched).
Definition toy_changes_rev : list (H256 * option H256) :=
  map (leaf_change toy_hash toy_digest) (reverse (map_to_list toy_touched)).

Definition block_nodes : list Node :=
  remove_dups (concat (map (tnodes toy_hash) (run_trees TEmpty toy_changes ++ run_trees TEmpty toy_changes_rev))).
Definition block_U (n : Node) : Prop := n ∈ block_nodes.

(** Collision freedom of an explicit list of nodes, and its cover of a run. *)
Lemma collision_free_list (l : list Node) :
  forallb (fun n => negb (bool_decide (hash toy_hash n = EMPTY)) &&
    forallb (fun m => bool_decide (n = m) || negb (bool_decide (hash toy_hash n = hash toy_hash m))) l) l = true ->
  collision_free toy_hash (fun n => n ∈ l).
Proof.
  rewrite forallb_forall. intros D. split.
  - intros n m Hn Hm E. apply list_elem_of_In in Hn, Hm. apply D, andb_true_iff in Hn as [_ Hn].
    rewrite forallb_forall in Hn. apply Hn, orb_true_iff in Hm as [Hm|Hm]; [by apply bool_decide_eq_true in Hm|].
    apply negb_true_iff, bool_decide_eq_false in Hm. done.
  - intros n Hn. apply list_elem_of_In in Hn. apply D, andb_true_iff in Hn as [Hn _].
    by apply negb_true_iff, bool_decide_eq_false in Hn.
Qed.

Lemma covers_run_list (l : list Node) t changes :
  canon [] t -> Forall change_ok changes ->
  forallb (fun n => bool_decide (n ∈ l)) (concat (map (tnodes toy_hash) (run_trees t changes))) = true ->
  covers_run toy_hash (fun n => n ∈ l) (tmap t) changes.
Proof.
  intros Hc Hok D. rewrite forallb_forall in D. apply covers_run_intro; [done..|].
  apply Forall_forall. intros t' Ht n Hn. apply (bool_decide_unpack _).
  rewrite (D n); [done|]. apply in_concat. exists (tnodes toy_hash t'). split; [|by apply list_elem_of_In]. apply list_elem_of_In.
  apply list_elem_of_fmap. eauto.
Qed.

#[local] Instance commit_mem : NodeStore MemStore := mem_store toy_hash.
#[local] Instance commit_overlay : NodeStore (OverlayStore MemStore) := overlay_store toy_hash.

Lemma no_nodes_represents (U : Node -> Prop) :
  represents toy_hash U mem_empty EMPTY ∅ /\ represents toy_hash U (overlay_new mem_empty) EMPTY ∅.
Proof. split; (split; [by intros h n|]; exists TEmpty; by split_and!). Qed.

Lemma account_commitment_deterministic_witness :
  exists s1' s2' root',
    compute_block_account_changes toy_hash toy_digest no_states id EMPTY [toy_flash] [(toy_miner, 50)] 60
      mem_empty = (s1', Ok (root', id (map_to_list toy_touched))) /\
    compute_block_account_changes toy_hash toy_digest no_states reverse EMPTY [toy_flash] [(toy_miner, 50)] 60
      (overlay_new mem_empty) = (s2', Ok (root', reverse (map_to_list toy_touched))) /\
    represents toy_hash block_U s1' root'
      (apply_changes ∅ (map (leaf_change toy_hash toy_digest) (map_to_list toy_touched))).
Proof.
  apply (account_commitment_deterministic toy_hash toy_digest no_states block_U).
  - apply collision_free_list. by vm_compute.
  - apply toy_digest_ok.
  - apply no_nodes_represents.
  - apply no_nodes_represents.
  - by intros k h.
  - apply (bool_decide_unpack _). by vm_compute.
  - done.
  - apply reverse_Permutation.
  - apply (bool_decide_unpack _). by vm_compute.
  - change (∅ : gmap H256 H256) with (tmap TEmpty).
    apply covers_run_list; [done|apply leaf_changes_ok, toy_digest_ok|by vm_compute].
  - change (∅ : gmap H256 H256) with (tmap TEmpty).
    apply covers_run_list; [done|apply leaf_changes_ok, toy_digest_ok|by vm_compute].
Defined.

(** * The committed accounts and the live store *)

(** Equal up to the block hashes of the flash entries, which the commitment leaves out. *)
Definition same_account (a1 a2 : AccountState) : Prop :=
  balance a1 = balance a2 /\ map entry_key (recent_flashes a1) = map entry_key (recent_flashes a2).

#[export] Instance same_account_equiv : Equivalence same_account.
Proof.
  split; [by intros a|intros a1 a2 []; by split|].
  intros a1 a2 a3 [E1 E2] [E3 E4]. split; congruence.
Qed.

Definition spk_wf (spk : ScriptPublicKey) : Prop := 0 <= spk_version spk < 2 ^ 16.

Lemma AccountKey_inj spk1 spk2 :
  spk_wf spk1 -> spk_wf spk2 -> AccountKey_new spk1 = AccountKey_new spk2 -> spk1 = spk2.
Proof.
  intros W1 W2 E. unfold AccountKey_new in E. apply app_inj_1 in E as [Ev Es]; [|by rewrite !length_to_le].
  destruct spk1, spk2. simpl in *. subst. f_equal. by apply (to_le_inj 2).
Qed.

Lemma filter_map_key (c : Z) l1 l2 :
  map entry_key l1 = map entry_key l2 ->
  map entry_key (filter (fun e => c < entry_expiry_daa_score e) l1) =
  map entry_key (filter (fun e => c < entry_expiry_daa_score e) l2).
Proof.
  revert l2. induction l1 as [|e1 l1 IH]; intros [|e2 l2] E; try done.
  cbn [map] in E. injection E as E1 E2 E. specialize (IH _ E).
  destruct (decide (c < entry_expiry_daa_score e1)).
  - rewrite !filter_cons_True by congruence. cbn [map]. rewrite IH. f_equal. unfold entry_key. congruence.
  - by rewrite !filter_cons_False by congruence.
Qed.

Lemma same_prune a1 a2 d :
  same_account a1 a2 -> same_account (prune_recent_flashes a1 d) (prune_recent_flashes a2 d).
Proof. intros [Eb Ee]. split; [done|]. by apply filter_map_key. Qed.

Lemma same_credited v a1 a2 : same_account a1 a2 -> same_account (credited v a1) (credited v a2).
Proof. intros [Eb Ee]. split; [|done]. cbn [credited with_balance balance]. by rewrite Eb. Qed.

Lemma same_debited sha3 tx b1 b2 a1 a2 :
  same_account a1 a2 -> same_account (debited sha3 tx b1 a1) (debited sha3 tx b2 a2).
Proof.
  intros [Eb Ee]. split; cbn [debited record_flash with_balance balance recent_flashes]; [by rewrite Eb|].
  rewrite !map_app, Ee. done.
Qed.

(** The sort only looks at the keys. *)
Lemma insert_entry_keys e1 e2 l1 l2 :
  entry_key e1 = entry_key e2 -> map entry_key l1 = map entry_key l2 ->
  map entry_key (insert_entry e1 l1) = map entry_key (insert_entry e2 l2).
Proof.
  intros Ee. revert l2. induction l1 as [|x1 l1 IH]; intros [|x2 l2] E; try done; [cbn; by rewrite Ee|].
  cbn [map] in E. apply (inj2 cons) in E as [Ex E]. specialize (IH _ E). cbn [insert_entry].
  assert (I : entry_flash_id e1 = entry_flash_id e2 /\ entry_flash_id x1 = entry_flash_id x2).
  { unfold entry_key in *. split; congruence. }
  destruct I as [-> ->]. destruct (bytes_leb _ _); cbn [map]; by rewrite ?Ee, Ex, ?E, ?IH.
Qed.

Lemma same_content_hash sha3 a1 a2 :
  same_account a1 a2 -> content_hash sha3 a1 = content_hash sha3 a2 /\ is_empty a1 = is_empty a2.
Proof.
  intros [Eb Ee]. split.
  - assert (K : map entry_key (sort_by_flash_id (recent_flashes a1)) =
                map entry_key (sort_by_flash_id (recent_flashes a2))).
    { revert Ee. generalize (recent_flashes a1), (recent_flashes a2). intros l1.
      induction l1 as [|e1 l1 IH]; intros [|e2 l2] E; try done.
      cbn [map] in E. apply (inj2 cons) in E as [Ex E]. cbn [sort_by_flash_id foldr].
      apply insert_entry_keys; [done|by apply IH]. }
    unfold content_hash, to_canonical_bytes. rewrite Eb.
    assert (B : forall l, map entry_bytes l = map (fun k => k.1 ++ to_le 8 k.2) (map entry_key l)).
    { intros l. by rewrite <-list_fmap_compose. }
    rewrite !B, K. apply (f_equal length) in K. rewrite !length_fmap in K. by rewrite K.
  - unfold is_empty. rewrite Eb. f_equal. apply bool_decide_ext.
    destruct (recent_flashes a1), (recent_flashes a2); done.
Qed.

(** Equal up to entries that pruning at the score [d] drops. *)
Definition same_upto (d : Z) (a1 a2 : AccountState) : Prop := same_account (prune_recent_flashes a1 d) (prune_recent_flashes a2 d).

#[export] Instance same_upto_equiv d : Equivalence (same_upto d).
Proof.
  unfold same_upto. split; [by intros a|intros a1 a2 E; by symmetry|]. intros a1 a2 a3 E1 E2. by rewrite E1.
Qed.

Lemma prune_prune a d1 d2 : d1 <= d2 -> prune_recent_flashes (prune_recent_flashes a d1) d2 = prune_recent_flashes a d2.
Proof.
  intros Hd. unfold prune_recent_flashes. cbn [recent_flashes balance]. f_equal. rewrite list_filter_filter_l; [done|].
  intros e. unfold saturating_sub. lia.
Qed.

Lemma same_upto_mono d1 d2 a1 a2 : d1 <= d2 -> same_upto d1 a1 a2 -> same_upto d2 a1 a2.
Proof. intros Hd E. unfold same_upto. rewrite <-(prune_prune a1 d1 d2), <-(prune_prune a2 d1 d2) by done. by apply same_prune. Qed.

Lemma same_upto_pruned d d' a : d' <= d -> same_upto d (prune_recent_flashes a d') a.
Proof. intros Hd. unfold same_upto. by rewrite prune_prune. Qed.

Lemma same_upto_credited d v a1 a2 : same_upto d a1 a2 -> same_upto d (credited v a1) (credited v a2).
Proof. intros E. exact (same_credited v _ _ E). Qed.

Lemma same_upto_debited sha3 d tx b1 b2 a1 a2 : same_upto d a1 a2 -> same_upto d (debited sha3 tx b1 a1) (debited sha3 tx b2 a2).
Proof.
  intros [Eb Ee]. split; cbn [debited record_flash with_balance prune_recent_flashes balance recent_flashes] in *; [by rewrite Eb|].
  rewrite !filter_app, !map_app, Ee. f_equal. by apply filter_map_key.
Qed.

Section live.
Context (sha3 : bytes -> bytes) (view : ScriptPublicKey -> AccountState).
Context (A : ScriptPublicKey -> Prop) (d : Z).
Implicit Types (T : gmap ScriptPublicKey AccountState) (m : accounts).

(** [T] over [view] and the live map [m] agree on the accounts in [A], up to entries that
    pruning at [d] drops. *)
Definition agree T m : Prop :=
  forall spk, A spk -> spk_wf spk -> same_upto d (cur view T spk) (acct m (AccountKey_new spk)).

Lemma agree_insert T m spk (f : AccountState -> AccountState) (g : AccountState -> AccountState) :
  spk_wf spk -> agree T m ->
  (forall a1 a2, same_upto d a1 a2 -> same_upto d (f a1) (g a2)) ->
  agree (<[spk := f (cur view T spk)]> T) (<[AccountKey_new spk := g (acct m (AccountKey_new spk))]> m).
Proof.
  intros Hw Ha Hfg j Aj Hj. unfold cur at 1. destruct (decide (j = spk)) as [->|Hne].
  - rewrite lookup_insert_eq. autorewrite with acct. by apply Hfg, Ha.
  - rewrite lookup_insert_ne by done. rewrite acct_insert_ne; [by apply Ha|].
    intros E. by apply Hne, AccountKey_inj.
Qed.

Lemma sender_wf tx : spk_wf (flash_pubkey_to_spk sha3 (pubkey tx)).
Proof. done. Qed.

Lemma recipient_wf bs r : hash20_to_p2pkh_spk bs = Some r -> spk_wf r.
Proof. unfold hash20_to_p2pkh_spk. case_match; [|done]. by intros [= <-]. Qed.

(** The flash part of the reference and of the commit, in lockstep. *)
Lemma agree_flash b txs T m :
  recipients_ok txs -> agree T m ->
  exists m1 spks, apply_flash_txs sha3 b txs m = (m1, Ok spks) /\ agree (foldl (flash_step sha3 view) T txs) m1.
Proof.
  intros Hr. revert T m. induction Hr as [|tx txs L Hr IH]; intros T m Ha; [by exists m, []|].
  destruct (recipient_some tx L) as [r Er].
  destruct (IH (flash_step sha3 view T tx) (flash_effect sha3 tx b (AccountKey_new r) m)) as (m1 & spks & E & Ha1).
  { unfold flash_step. rewrite Er. unfold flash_effect.
    apply (agree_insert _ _ r (credited (amount tx)) (credited (amount tx)));
      [by eapply recipient_wf| |intros; by apply same_upto_credited].
    apply (agree_insert _ _ _ (debited sha3 tx Hash_default) (debited sha3 tx b));
      [apply sender_wf|done|intros; by apply same_upto_debited]. }
  eexists m1, _. split; [|exact Ha1]. cbn [apply_flash_txs]. unfold mbind at 1, st_bind at 1, try_catch.
  rewrite (apply_flash_tx_map sha3 tx b m r Er). cbv beta iota.
  unfold or_panic, lift. rewrite Er. cbn [ok_or]. unfold mbind, st_bind. by rewrite E.
Qed.

Definition reward_at (k : bytes) (rewards : list (ScriptPublicKey * Z)) : Z :=
  sumZ (fun rw => if decide (AccountKey_new rw.1 = k) then rw.2 else 0) rewards.

Definition rewards_ok (rewards : list (ScriptPublicKey * Z)) : Prop :=
  Forall (fun rw => spk_wf rw.1 /\ 0 <= rw.2) rewards.

Lemma reward_at_bound k rewards : rewards_ok rewards -> 0 <= reward_at k rewards <= sumZ snd rewards.
Proof.
  induction 1 as [|[spk v] rws [_ Hv] _ IH]; simpl in *; [lia|]. unfold reward_at in *. simpl.
  destruct (decide _); lia.
Qed.

(** One reward, credited to the live store as [reward_miner] does. *)
Lemma credit_map spk v m :
  0 <= v -> supply_ok m -> supply m + v < 2 ^ 63 ->
  exists m1, attempt (update_balance_batch spk (as_i64 v)) m = (m1, Ok true) /\ supply m1 = supply m + v /\ supply_ok m1 /\
    forall k, balance (acct m1 k) = balance (acct m k) + (if decide (AccountKey_new spk = k) then v else 0) /\
              recent_flashes (acct m1 k) = recent_flashes (acct m k).
Proof.
  intros Hv [Hn Hs] Hsum. set (k0 := AccountKey_new spk). pose proof (supply_bound m k0 Hn) as B. pose proof (Hn k0) as B0.
  set (m1 := <[k0 := with_balance (acct m k0) (balance (acct m k0) + v)]> m).
  assert (S1 : supply m1 = supply m + v) by (unfold m1; rewrite supply_insert; simpl; lia).
  assert (A1 : forall k, balance (acct m1 k) = balance (acct m k) + (if decide (k0 = k) then v else 0) /\
                         recent_flashes (acct m1 k) = recent_flashes (acct m k)).
  { intros k. unfold m1. destruct (decide (k0 = k)) as [<-|]; autorewrite with acct; [done|]. split; [lia|done]. }
  exists m1. split; [|split; [done|split; [split; [|lia]|exact A1]]].
  - rewrite attempt_update. fold k0. rewrite as_i64_small by lia. unfold adjust_balance, saturating_add64, U64_MAX. destruct (Z.leb_spec 0 v); [|lia].
    by replace (Z.min _ _) with (balance (acct m k0) + v) by lia.
  - intros j. destruct (A1 j) as [-> _]. specialize (Hn j). destruct (decide _); lia.
Qed.

(** The rewards of the reference, on top of changes [T] that agree with a live map. *)
Lemma reference_rewards rewards T m :
  rewards_ok rewards -> agree T m -> supply_ok m -> supply m + sumZ snd rewards < 2 ^ 63 ->
  forall spk, A spk -> spk_wf spk ->
    balance (cur view (foldl (reward_step view) T rewards) spk) =
      balance (acct m (AccountKey_new spk)) + reward_at (AccountKey_new spk) rewards /\
    map entry_key (recent_flashes (prune_recent_flashes (cur view (foldl (reward_step view) T rewards) spk) d)) =
      map entry_key (recent_flashes (prune_recent_flashes (acct m (AccountKey_new spk)) d)).
Proof.
  intros Hr. revert T m. induction Hr as [|[mspk v] rws [Hw Hv] Hr IH]; intros T m Ha [Hn Hs] Hsum spk As Hspk.
  { destruct (Ha spk As Hspk) as [E1 E2]. cbn [prune_recent_flashes balance] in E1. cbn [foldl]. rewrite E1. unfold reward_at. simpl. split; [lia|done]. }
  simpl in Hsum, Hv. pose proof (reward_at_bound [] rws Hr) as B0.
  set (k0 := AccountKey_new mspk). pose proof (supply_bound m k0 Hn) as B.
  assert (C : balance (credited v (acct m k0)) = balance (acct m k0) + v).
  { cbn [credited with_balance balance]. unfold saturating_add64, U64_MAX. lia. }
  set (m1 := <[k0 := credited v (acct m k0)]> m).
  assert (A1 : forall k, balance (acct m1 k) = balance (acct m k) + (if decide (k0 = k) then v else 0) /\
                         recent_flashes (acct m1 k) = recent_flashes (acct m k)).
  { intros k. unfold m1. destruct (decide (k0 = k)) as [<-|]; autorewrite with acct; [by rewrite C|]. split; [lia|done]. }
  cbn [foldl]. destruct (IH (reward_step view T (mspk, v)) m1) with (spk := spk) as [E1 E2]; [| | |done|done|].
  - apply (agree_insert _ _ mspk (credited v) (credited v)); [done|done|intros; by apply same_upto_credited].
  - split; [|unfold m1; rewrite supply_insert, C; lia].
    intros j. destruct (A1 j) as [-> _]. specialize (Hn j). destruct (decide _); lia.
  - unfold m1. rewrite supply_insert, C. lia.
  - rewrite E1, E2. unfold prune_recent_flashes. cbn [recent_flashes]. destruct (A1 (AccountKey_new spk)) as [-> ->]. unfold reward_at. simpl. fold k0. split; [lia|done].
Qed.

End live.

(** * A block on the live store *)

Section block.
Context (sha3 sha256 : bytes -> bytes) (verify : bytes -> bytes -> bytes -> bool).
Context (hash_order : list (ScriptPublicKey * Z) -> list (ScriptPublicKey * Z)) (hash_order_perm : forall l, hash_order l ≡ₚ l).
Context (hex_decode_into : bytes -> nat -> option bytes) (cm : CoinbaseManager) (treasury_hex : bytes).
Implicit Types (m : accounts).

Abbreviation effects txs := (extract_block_effects hex_decode_into txs cm treasury_hex).

(** A transaction that is not an account transaction: a flash or DID transaction, or one with
    too short a payload. *)
Definition not_account_tx (tx : Transaction) : bool :=
  is_flash_payload (payload tx) || is_did_tx (payload tx) && (20 <=? length (payload tx))%nat ||
  (length (payload tx) <? PUBKEY_SIZE + 8 + SIG_SIZE)%nat.

Lemma execute_user_skip user m : Forall not_account_tx user -> each (execute_user_tx sha3 sha256 verify) user m = (m, Ok tt).
Proof.
  induction 1 as [|tx user Htx _ IH]; [done|]. cbn [each]. erewrite st_bind_run; [exact IH|]. unfold execute_user_tx, not_account_tx in *.
  destruct (is_flash_payload (payload tx)); [done|]. destruct (is_did_tx (payload tx) && _); [done|]. simpl in Htx. by destruct (_ <? _)%nat.
Qed.

Lemma effects_rewards_ok cb user : bytes_ok (payload cb) -> rewards_ok (effects (cb :: user)).2.
Proof.
  intros Hp. unfold extract_block_effects. cbn [snd]. unfold deserialize_coinbase_payload.
  destruct (_ <? MIN_PAYLOAD_LENGTH); [constructor|]. destruct (max_coinbase_payload_len cm <? _); [constructor|]. unfold parser_take. cbv zeta.
  destruct (_ <? from_le _); [constructor|]. destruct (_ <? _); [constructor|]. cbn [cb_subsidy cb_miner_data miner_spk].
  destruct (0 <? _); [|constructor]. constructor.
  - cbn [fst snd]. split; [|unfold wsub64, wrap; apply Z.mod_pos_bound; lia]. unfold spk_wf. cbn [spk_version].
    set (version := take LENGTH_OF_SCRIPT_PUB_KEY_VERSION _). destruct (from_le_range version) as [L1 L2]; [by apply Forall_take, Forall_drop, Forall_drop|].
    split; [done|]. eapply Z.lt_le_trans; [exact L2|]. change (2 ^ 16) with (256 ^ 2). apply Z.pow_le_mono_r; [lia|].
    unfold version. rewrite length_take. change LENGTH_OF_SCRIPT_PUB_KEY_VERSION with 2%nat. lia.
  - match goal with |- context [0 <? ?x] => destruct (Z.ltb_spec 0 x) as [Hpos|]; [|constructor]; revert Hpos; generalize x; intros dev Hpos end. unfold treasury_spk_from_hex.
    case_bool_decide; [constructor|]. destruct (hex_decode_into _ _); [|constructor]. apply Forall_singleton. split; [done|]. cbn [snd]. lia.
Qed.

(** The rewards of a block on the live store. *)
Lemma reward_miner_run cb user m (rewards := (effects (cb :: user)).2) :
  bytes_ok (payload cb) -> supply_ok m -> supply m + sumZ snd rewards < 2 ^ 63 ->
  exists mr, reward_miner hex_decode_into cm treasury_hex cb m = (mr, Ok tt) /\ supply mr = supply m + sumZ snd rewards /\ supply_ok mr /\
    forall k, balance (acct mr k) = balance (acct m k) + reward_at k rewards /\ recent_flashes (acct mr k) = recent_flashes (acct m k).
Proof.
  intros Hp Hok. pose proof (effects_rewards_ok cb user Hp) as Hrw. unfold rewards, extract_block_effects, reward_miner in *. cbn [snd] in *.
  assert (Nil : exists mr, (m, Ok tt) = (mr, Ok tt : result (fault StoreError) ()) /\ supply mr = supply m + 0 /\ supply_ok mr /\
    forall k, balance (acct mr k) = balance (acct m k) + 0 /\ recent_flashes (acct mr k) = recent_flashes (acct m k)).
  { exists m. split; [done|]. split; [lia|]. split; [done|]. intros k. split; [lia|done]. }
  destruct (deserialize_coinbase_payload cm (payload cb)) as [cbd|e]; [|intros _; exact Nil]. cbv zeta in *.
  destruct (Z.ltb_spec 0 (cb_subsidy cbd)); [|intros _; exact Nil]. clear Nil.
  set (dev := if bool_decide (treasury_hex = []) then 0 else cb_subsidy cbd / 20) in *. set (v := wsub64 (cb_subsidy cbd) dev) in *.
  assert (Hdev : 0 <= dev) by (unfold dev; case_bool_decide; [lia|apply Z.div_pos; lia]).
  assert (Et : (if 0 <? dev then match treasury_spk_from_hex hex_decode_into treasury_hex with Some spk => [(spk, dev)] | None => [] end else []) =
    match hex_decode_into treasury_hex PUBKEY_SIZE with Some bs => if 0 <? dev then [({| spk_version := 0; spk_script := bs |}, dev)] else [] | None => [] end).
  { destruct (Z.ltb_spec 0 dev) as [Hpos|]; [|by destruct (hex_decode_into _ _)]. unfold treasury_spk_from_hex. unfold dev in Hpos.
    case_bool_decide; [lia|]. change PUBKEY_SIZE with 1952%nat. by destruct (hex_decode_into _ _). }
  rewrite Et in *. clear Et. apply Forall_cons in Hrw as [[_ Hv] _]. cbn [snd] in Hv. intros Hsum.
  destruct (credit_map (miner_spk (cb_miner_data cbd)) v m Hv Hok) as (m1 & E1 & S1 & Hok1 & A1).
  { destruct (hex_decode_into _ _) as [bs|]; [destruct (Z.ltb_spec 0 dev)|]; cbn [sumZ foldr snd] in Hsum; lia. }
  rewrite (st_bind_run _ _ _ _ _ E1). cbn [negb]. destruct (hex_decode_into treasury_hex PUBKEY_SIZE) as [bs|].
  2: { exists m1. split; [done|]. split; [cbn [sumZ foldr snd]; lia|]. split; [done|]. intros k. destruct (A1 k) as [-> ->]. unfold reward_at. simpl. split; [lia|done]. }
  destruct (credit_map {| spk_version := 0; spk_script := bs |} dev m1 Hdev Hok1) as (m2 & E2 & S2 & Hok2 & A2).
  { destruct (Z.ltb_spec 0 dev); cbn [sumZ foldr snd] in Hsum; lia. }
  exists m2. rewrite (st_bind_run _ _ _ _ _ E2). split; [done|]. split; [destruct (Z.ltb_spec 0 dev); cbn [sumZ foldr snd]; lia|]. split; [done|].
  intros k. destruct (A2 k) as [-> ->], (A1 k) as [-> ->]. split; [|done]. unfold reward_at. destruct (Z.ltb_spec 0 dev); simpl; [lia|]. destruct (decide _), (decide _); lia.
Qed.

(** A block whose flash transactions can all be applied at the score [d] to the accounts [m]
    after the rewards: distinct, alive, signed, not replayed, with the fee, and funded. *)
Record flash_block_ok m (rewards : list (ScriptPublicKey * Z)) (d : Z) (txs : list FlashTransaction) : Prop := {
  fb_ids : NoDup (map (flash_id sha3) txs);
  fb_each : Forall (fun tx => d <= expiry_daa_score tx /\ FLASH_MIN_FEE_KANA <= fee tx /\ 0 <= amount tx /\
    is_flash_replay (acct m (sender_key sha3 tx)) (flash_id sha3 tx) = false /\ verify (pubkey tx) (signature tx) (sighash sha3 tx) = true) txs;
  fb_recipients : recipients_ok txs;
  fb_funds : forall k, debit_at sha3 k txs <= balance (acct m k) + reward_at k rewards;
}.

Lemma flash_block_amounts m rewards d txs : flash_block_ok m rewards d txs -> Forall amounts_ok txs /\ Forall recipient_ok txs.
Proof.
  intros [_ Heach Hrc _]. split.
  - eapply Forall_impl; [exact Heach|]. intros tx (_ & Hf & Ha & _). split; [done|]. unfold FLASH_MIN_FEE_KANA in Hf. lia.
  - eapply Forall_impl; [exact Hrc|]. intros tx L. destruct (recipient_some tx L) as [r Er]. by exists r.
Qed.

Lemma commit_block_run hex_string blues reds non_daa b cb user d m (flash := (effects (cb :: user)).1) (rewards := (effects (cb :: user)).2) :
  bytes_ok (payload cb) -> from_transaction cb = None -> Forall not_account_tx user -> flash_block_ok m rewards d flash ->
  supply_ok m -> supply m + sumZ snd rewards < 2 ^ 63 ->
  exists mr m2 spks m',
    commit_virtual_state sha3 sha256 verify hash_order hex_decode_into cm treasury_hex true
      (map_to_list (virtual_account_diff hex_string blues reds non_daa)) [] [(b, cb :: user)] d m = (m', Ok tt) /\
    (forall k, balance (acct mr k) = balance (acct m k) + reward_at k rewards /\ recent_flashes (acct mr k) = recent_flashes (acct m k)) /\
    applied sha3 b flash mr m2 /\
    (forall k, acct m' k = if decide (k ∈ map AccountKey_new spks) then prune_recent_flashes (acct m2 k) d else acct m2 k) /\
    Forall (fun tx => flash_pubkey_to_spk sha3 (pubkey tx) ∈ spks /\ forall r, hash20_to_p2pkh_spk (recipient tx) = Some r -> r ∈ spks) flash.
Proof.
  intros Hp Hcb Huser Hblk Hok Hsum. destruct (flash_block_amounts _ _ _ _ Hblk) as [Hamt Hro]. destruct Hblk as [Hids Heach Hrc Hfund].
  destruct (reward_miner_run cb user m Hp Hok Hsum) as (mr & Er & _ & Hokr & Ar). fold rewards in Ar. exists mr.
  assert (Hfund' : forall k, debit_at sha3 k flash <= balance (acct mr k) <= U64_MAX).
  { intros k. pose proof (supply_bound mr k (proj1 Hokr)). pose proof (proj2 Hokr). destruct (Ar k) as [E _]. specialize (Hfund k). unfold U64_MAX. lia. }
  assert (Hv : Forall (flash_valid sha3 verify mr d) flash).
  { rewrite !Forall_forall in *. intros tx Htx. destruct (Heach tx Htx) as (Hx & Hf & Ha & Hrep & Hver). specialize (Hfund' (sender_key sha3 tx)).
    assert (D : amount tx + fee tx <= debit_at sha3 (sender_key sha3 tx) flash).
    { apply (debit_at_member sha3); [by apply Forall_forall|done]. }
    split_and!; [done|done| |done|lia|lia]. unfold is_flash_replay. by destruct (Ar (sender_key sha3 tx)) as [_ ->]. }
  destruct (apply_flash_txs_map sha3 b flash mr Hokr Hro Hamt ltac:(intros k; apply Hfund')) as (m2 & spks & Ef & Ha & Hin).
  destruct (prune_map spks d m2) as (m' & Ep & _ & Ap). exists m2, spks, m'. split; [|done].
  rewrite commit_virtual_state_path. unfold commit_chain_path. cbn [each]. unfold mbind at 1, st_bind at 1. cbn [mret st_ret].
  erewrite st_bind_run; [done|]. unfold execute_block, execute_txs.
  erewrite (st_bind_run _ _ m mr tt); [|by rewrite (st_bind_run _ _ _ _ _ Er), execute_user_skip].
  assert (Et : flash_txs_of (cb :: user) = flash) by (unfold flash_txs_of; cbn [omap list_omap]; by rewrite Hcb).
  rewrite Et. unfold commit_flash_txs. case_bool_decide as E0.
  - rewrite E0 in Ef. injection Ef as <- <-. injection Ep as <-. done.
  - rewrite (validate_flash_batch_all sha3 verify hash_order hash_order_perm mr d flash Hids Hv Hamt Hfund').
    rewrite (st_bind_run _ _ _ _ _ Ef). unfold attempt, mbind, st_bind. by rewrite Ep.
Qed.
Lemma flash_block_mono m rewards d txs : rewards_ok rewards -> flash_block_ok m [] d txs -> flash_block_ok m rewards d txs.
Proof.
  intros Hrw [H1 H2 H3 H4]. split; [done..|]. intros k. specialize (H4 k). pose proof (reward_at_bound k rewards Hrw). unfold reward_at in H4 at 1. simpl in H4. lia.
Qed.

(** The sender or the recipient of a transaction. *)
Definition flash_party (txs : list FlashTransaction) (spk : ScriptPublicKey) : Prop :=
  Exists (fun tx => spk = flash_pubkey_to_spk sha3 (pubkey tx) \/ hash20_to_p2pkh_spk (recipient tx) = Some spk) txs.

(** The reference and the live store after a block, for the accounts on which they agreed. *)
Lemma commit_block_agrees view (A : ScriptPublicKey -> Prop) hex_string blues reds non_daa b cb user d m
    (flash := (effects (cb :: user)).1) (rewards := (effects (cb :: user)).2) :
  bytes_ok (payload cb) -> from_transaction cb = None -> Forall not_account_tx user -> flash_block_ok m [] d flash ->
  supply_ok m -> supply m + sumZ snd rewards < 2 ^ 63 -> agree view A d ∅ m ->
  exists m', commit_virtual_state sha3 sha256 verify hash_order hex_decode_into cm treasury_hex true
      (map_to_list (virtual_account_diff hex_string blues reds non_daa)) [] [(b, cb :: user)] d m = (m', Ok tt) /\
    (forall spk, A spk -> spk_wf spk ->
       same_upto d (cur view (foldl (reward_step view) (foldl (flash_step sha3 view) ∅ flash) rewards) spk) (account_at m' spk)) /\
    (forall spk, flash_party flash spk -> prune_recent_flashes (account_at m' spk) d = account_at m' spk).
Proof.
  intros Hp Hcb Huser Hblk Hok Hsum Hagr. pose proof (effects_rewards_ok cb user Hp) as Hrw. fold rewards in Hrw.
  destruct (commit_block_run hex_string blues reds non_daa b cb user d m Hp Hcb Huser (flash_block_mono _ _ _ _ Hrw Hblk) Hok Hsum)
    as (mr & m2 & spks & m' & E & Ar & [_ _ Q3 Q4] & Ap & Hin). fold flash in Q3, Q4, Hin. fold rewards in Ar.
  destruct (flash_block_amounts _ _ _ _ Hblk) as [Hamt Hro]. destruct Hblk as [_ _ Hrc Hfund].
  destruct (agree_flash sha3 view A d b flash ∅ m Hrc Hagr) as (m1 & spks1 & E1 & Ha1).
  destruct (apply_flash_txs_map sha3 b flash m Hok Hro Hamt) as (m1' & s1' & E1' & [P1 P2 P3 P4] & _).
  { intros k. specialize (Hfund k). unfold reward_at in Hfund. simpl in Hfund. lia. }
  rewrite E1 in E1'. injection E1' as <- <-.
  assert (F0 : 0 <= sumZ fee flash) by (clear -Hamt; induction Hamt as [|tx txs [_ Hf] _ IH]; simpl; lia).
  exists m'. split; [exact E|]. split.
  - intros spk As Hw. destruct (reference_rewards view A d rewards _ m1 Hrw Ha1 P2 ltac:(lia) spk As Hw) as [R1 R2].
    transitivity (acct m2 (AccountKey_new spk)).
    + split; cbn [prune_recent_flashes balance] in *; [rewrite R1, P3, Q3; destruct (Ar (AccountKey_new spk)) as [-> _]; lia|].
      rewrite R2. unfold prune_recent_flashes. cbn [recent_flashes]. rewrite P4, Q4. by destruct (Ar (AccountKey_new spk)) as [_ ->].
    + change (account_at m' spk) with (acct m' (AccountKey_new spk)). rewrite Ap. destruct (decide _); [|done]. symmetry. by apply same_upto_pruned.
  - intros spk Hpar. change (account_at m' spk) with (acct m' (AccountKey_new spk)). rewrite Ap. rewrite decide_True; [apply prune_idem|].
    apply list_elem_of_fmap_2. apply Exists_exists in Hpar as (tx & Htx & Hpar). rewrite Forall_forall in Hin. destruct (Hin tx Htx) as [H1 H2].
    destruct Hpar as [->|Hr]; [done|by apply H2].
Qed.
End block.


(** A parent state with one funded account. *)
Definition toy_sender : ScriptPublicKey := flash_pubkey_to_spk toy_digest (pubkey toy_flash).
Definition funded : AccountState := AccountState_new 10000.
Definition funded_hash : bytes := content_hash toy_digest funded.
Definition funded_states (h : bytes) : result StoreError AccountState :=
  if bool_decide (h = funded_hash) then Ok funded else Err (KeyNotFound h).
Definition funded_tree : tree := TLeaf (account_key_hash toy_hash toy_sender) funded_hash.
Definition funded_M : gmap H256 H256 := {[ account_key_hash toy_hash toy_sender := funded_hash ]}.
Definition funded_store : MemStore :=
  (store_put (Leaf (account_key_hash toy_hash toy_sender) funded_hash) mem_empty).1.
Definition funded_root : H256 := root_hash toy_hash funded_tree.
Definition funded_live : accounts := {[ AccountKey_new toy_sender := funded ]}.

Definition funded_changes : list (H256 * option H256) :=
  map (leaf_change toy_hash toy_digest)
    (map_to_list (block_accounts toy_digest (committed toy_hash funded_states funded_M) [toy_flash] [(toy_miner, 50)] 60)).
Definition funded_nodes : list Node :=
  concat (map (tnodes toy_hash) (funded_tree :: run_trees funded_tree funded_changes)).

Lemma funded_canon : canon [] funded_tree.
Proof. split_and!; [apply key_hash_ok|apply toy_digest_ok|apply prefix_nil]. Qed.

Lemma funded_represents : represents toy_hash (fun n => n ∈ funded_nodes) funded_store funded_root funded_M.
Proof.
  split.
  - intros h n Hn. change (nodes funded_store !! h = Some n) in Hn. unfold funded_store in Hn.
    cbn [store_put commit_mem mem_store fst nodes mem_empty] in Hn.
    apply lookup_insert_Some in Hn as [[<- <-]|[_ Hn]]; [|done]. split; [done|]. left.
  - exists funded_tree. split; [done|]. split; [by vm_compute|]. by split; [apply funded_canon|].
Qed.

Lemma singleton_Some (k : H256) (v : H256) j h : ({[ k := v ]} : gmap H256 H256) !! j = Some h -> j = k /\ h = v.
Proof. intros E. by apply lookup_singleton_Some in E as [-> ->]. Qed.

Lemma funded_readable : states_readable funded_states funded_M.
Proof. intros k h E. apply singleton_Some in E as [_ ->]. by vm_compute. Qed.

Lemma funded_supply_ok : supply_ok funded_live.
Proof.
  split; [|by vm_compute]. intros j. unfold acct, funded_live.
  destruct (decide (j = AccountKey_new toy_sender)) as [->|].
  - by rewrite lookup_singleton_eq.
  - by rewrite lookup_singleton_ne.
Qed.

Definition toy_recipient : ScriptPublicKey := {| spk_version := 0; spk_script := 20 :: replicate 20 9 ++ [172] |}.
Definition toy_parties (spk : ScriptPublicKey) : Prop := spk ∈ [toy_sender; toy_recipient; toy_miner].

Lemma funded_agree : agree (committed toy_hash funded_states funded_M) toy_parties 0 ∅ funded_live.
Proof.
  intros spk Hp _. unfold toy_parties in Hp. rewrite !elem_of_cons in Hp.
  destruct Hp as [->|[->|[->|Hp]]]; [split; by vm_compute..|]. by apply not_elem_of_nil in Hp.
Qed.

(** A block with a reward of 50 and one flash transaction. *)
Definition toy_cm : CoinbaseManager :=
  {| coinbase_payload_script_public_key_max_len := 150; max_coinbase_payload_len := 204; bps_after := 1 |}.

Definition toy_coinbase (miner : ScriptPublicKey) (reward : Z) : Transaction :=
  {| tx_version := 0; inputs := []; outputs := []; lock_time := 0; subnetwork_id := SUBNETWORK_ID_COINBASE; gas := 0;
     payload := to_le 8 1 ++ to_le 8 reward ++ to_le 2 (spk_version miner) ++ Z.of_nat (length (spk_script miner)) :: spk_script miner; mass := 0; tx_id := [3] |}.

Definition toy_user : list Transaction := [to_transaction (fun _ => replicate 32 0) toy_flash].

Lemma toy_block_ok : flash_block_ok toy_digest (fun _ _ _ => true) funded_live [] 60 [toy_flash].
Proof.
  split.
  - apply NoDup_singleton.
  - apply Forall_singleton. split_and!; by vm_compute.
  - apply (bool_decide_unpack _). by vm_compute.
  - intros k. unfold debit_at, reward_at, sumZ. cbn [foldr]. destruct (decide (sender_key toy_digest toy_flash = k)) as [<-|].
    + by vm_compute.
    + pose proof (proj1 funded_supply_ok k). lia.
Qed.

Abbreviation toy_effects := (extract_block_effects (fun _ _ => None) (toy_coinbase toy_miner 50 :: toy_user) toy_cm []).

Lemma toy_effects_eval : toy_effects = ([toy_flash], [(toy_miner, 50)]).
Proof. vm_compute. reflexivity. Qed.

Lemma toy_recipient_spk : hash20_to_p2pkh_spk (recipient toy_flash) = Some toy_recipient.
Proof. vm_compute. reflexivity. Qed.

Lemma toy_recipient_wf : spk_wf toy_recipient.
Proof. by apply (recipient_wf (recipient toy_flash)), toy_recipient_spk. Qed.

Lemma toy_recipient_party : toy_parties toy_recipient.
Proof. apply list_elem_of_further, list_elem_of_here. Qed.


(** * Proofs for light clients *)

(** [prove_account] answers every query against a represented root. For a committed
    account the proof passes [verify_inclusion] for the queried key and the leaf, the
    state hash is the leaf, and the state is that of the content-addressed store; for an
    absent account the proof passes [verify_exclusion], with no state and a zero hash. *)
Theorem prove_account_correct (hash_iter : list Z -> felt4)
    (states_get : bytes -> result StoreError AccountState) {S} `{L : NodeStoreLaws hash_iter S}
    (U : Node -> Prop) (s : S) (root : H256) (M : gmap H256 H256) (spk : ScriptPublicKey)
    (HU : collision_free hash_iter U) (Hrep : represents hash_iter U s root M) :
  let key := account_key_hash hash_iter spk in
  exists p, prove_account hash_iter states_get s root spk = Ok p /\ account_root p = root /\ proof_key p = key /\
    match M !! key with
    | Some h =>
        verify_inclusion hash_iter root key h (proof_payload p) = Some true /\ proof_state_hash p = h /\
        proof_balance <$> proof_state p =
          match states_get h with Ok a => Some (balance a) | Err _ => None end
    | None =>
        verify_exclusion hash_iter root key (proof_payload p) = Some true /\
        proof_state p = None /\ proof_state_hash p = EMPTY
    end.
Proof.
  intros key. unfold prove_account. fold key.
  destruct (represents_prove_verifies hash_iter U HU s root M key Hrep) as (q & -> & V); [apply key_hash_ok|].
  destruct (M !! key) as [h|].
  - destruct V as [V Ht]. rewrite Ht. rewrite bool_decide_eq_true_2 by done. cbn [negb].
    destruct (states_get h) as [a|e]; eexists; (split; [done|]); by split_and!.
  - destruct V as [V Ht]. destruct (terminal q) as [|k' v'] eqn:Eq.
    + eexists. split; [done|]. by split_and!.
    + rewrite bool_decide_eq_false_2 by (intros ->; by apply (Ht v')). cbn [negb].
      eexists. split; [done|]. by split_and!.
Qed.

Lemma prove_account_correct_witness :
  exists p, prove_account toy_hash funded_states funded_store funded_root toy_sender = Ok p /\
    account_root p = funded_root /\ proof_key p = account_key_hash toy_hash toy_sender /\
    match funded_M !! account_key_hash toy_hash toy_sender with
    | Some h =>
        verify_inclusion toy_hash funded_root (account_key_hash toy_hash toy_sender) h (proof_payload p) = Some true /\
        proof_state_hash p = h /\
        proof_balance <$> proof_state p =
          match funded_states h with Ok a => Some (balance a) | Err _ => None end
    | None =>
        verify_exclusion toy_hash funded_root (account_key_hash toy_hash toy_sender) (proof_payload p) = Some true /\
        proof_state p = None /\ proof_state_hash p = EMPTY
    end.
Proof.
  apply (prove_account_correct toy_hash funded_states (fun n => n ∈ funded_nodes)).
  - apply collision_free_list. by vm_compute.
  - apply funded_represents.
Defined.
