(* ===== verification/CommitmentGaps.v ===== *)
(** Where the account commitment of AccountChanges.v parts from the live store: flash
    transactions are committed without validation, in another order than they are
    executed; script keys that differ in trailing zeros share a leaf; a short recipient
    panics. Each is a theorem with a concrete instance. *)

From S2P Require Import Prelude Smt SmtTree SmtCorrect SmtTheorems Access Tx Account Coinbase Validator Commit CommitTheorems AccountChanges Commitment.

(** * Flash transactions in the commitment *)

Lemma flash_payload_flash f : is_flash_payload (flash_payload f) = true.
Proof.
  apply is_flash_payload_spec. unfold rest_at. change (Z.to_nat 0) with 0%nat. change (Z.to_nat 8) with 8%nat.
  rewrite drop_0. unfold flash_payload. split.
  - by rewrite (drop_app_length' FLASH_MAGIC).
  - rewrite length_app, length_flash_magic. lia.
Qed.

(** The stateless checks look at none of the fields of a flash transaction. *)
Lemma flash_passes_isolation (sha256 : bytes -> bytes) verify tv hash_tx f :
  validate_tx_in_isolation sha256 verify tv (to_transaction hash_tx f) = Ok tt.
Proof.
  unfold validate_tx_in_isolation. change (payload (to_transaction hash_tx f)) with (flash_payload f).
  assert (D : is_did_payload (flash_payload f) = false).
  { unfold is_did_payload, flash_payload. rewrite take_app_le by (rewrite length_flash_magic; lia).
    change (take 4 FLASH_MAGIC) with (string_bytes "FLAS"). by rewrite andb_false_r. }
  rewrite D. change (inputs (to_transaction hash_tx f)) with ([] : list TransactionInput).
  change (is_coinbase (to_transaction hash_tx f)) with false.
  assert (N : flash_payload f <> []) by done.
  rewrite (bool_decide_eq_false_2 _ N). cbn [negb andb bool_decide decide_rel].
  unfold verify_account_tx_signature. change (payload (to_transaction hash_tx f)) with (flash_payload f).
  by rewrite flash_payload_flash.
Qed.

Section gaps.
Context (hash_iter : list Z -> felt4) (sha3 sha256 : bytes -> bytes).
Context (states_get : bytes -> result StoreError AccountState).
Context {S : Type} `{L : NodeStoreLaws hash_iter S}.
Context (U : Node -> Prop) (HU : collision_free hash_iter U) (sha3_ok : forall bs, h256_ok (sha3 bs)).
Context (order : list (ScriptPublicKey * AccountState) -> list (ScriptPublicKey * AccountState)).
Context (order_perm : forall l, order l ≡ₚ l).

(** The state that the reference commits for an account it touches. *)
Lemma block_accounts_at view txs rewards daa spk a :
  foldl (reward_step view) (foldl (flash_step sha3 view) ∅ txs) rewards !! spk = Some a ->
  (spk, prune_recent_flashes a daa) ∈ order (map_to_list (block_accounts sha3 view txs rewards daa)).
Proof.
  intros E. rewrite order_perm. apply elem_of_map_to_list. unfold block_accounts. by rewrite lookup_fmap, E.
Qed.

(** A flash transaction whose signature does not verify passes the stateless checks and
    is part of the commitment: executing the block leaves the live store as it is, but
    [compute_block_account_changes] commits the recipient's account credited with the
    amount, whatever the sender owns. *)
Theorem unsigned_flash_committed (verify : bytes -> bytes -> bytes -> bool) (tv : TransactionValidator)
    (hash_tx : Transaction -> bytes)
    (horder : list (ScriptPublicKey * Z) -> list (ScriptPublicKey * Z)) (b : bytes)
    (s : S) (root : H256) (M : gmap H256 H256) (m : accounts) (f : FlashTransaction) (r : ScriptPublicKey) (daa : Z)
    (view := committed hash_iter states_get M) :
  (forall l, horder l ≡ₚ l) ->
  represents hash_iter U s root M -> states_readable states_get M ->
  covers_run hash_iter U M
    (map (leaf_change hash_iter sha3) (order (map_to_list (block_accounts sha3 view [f] [] daa)))) ->
  hash20_to_p2pkh_spk (recipient f) = Some r -> r <> flash_pubkey_to_spk sha3 (pubkey f) ->
  balance (view r) + amount f <= U64_MAX ->
  verify (pubkey f) (signature f) (sighash sha3 f) = false ->
  validate_tx_in_isolation sha256 verify tv (to_transaction hash_tx f) = Ok tt /\
  commit_flash_txs sha3 verify horder b [f] daa m = (m, Ok tt) /\
  exists s' root' changes x,
    compute_block_account_changes hash_iter sha3 states_get order root [f] [] daa s =
      (s', Ok (root', changes)) /\ (r, x) ∈ changes /\ balance x = balance (view r) + amount f.
Proof.
  intros Hh Hrep Hs Hcov Hr Hne Hmax Hv. split; [apply flash_passes_isolation|]. split.
  - unfold commit_flash_txs. rewrite bool_decide_eq_false_2 by done.
    destruct (validate_flash_batch_map sha3 verify horder Hh m daa [f]) as [E1 E2].
    destruct (validate_flash_batch sha3 verify horder [f] daa m) as [m1 [out|e]]; simpl in E1; subst m1; [|done].
    destruct (E2 out eq_refl) as [Hsub _ Heach _].
    assert (out = []) as ->; [|done].
    destruct out as [|g out]; [done|]. apply Forall_cons in Heach as [(_ & _ & _ & Hg & _) _].
    assert (Hall : Forall (fun g => g = f) (g :: out)) by (eapply Forall_sublist; [exact Hsub|by repeat constructor]).
    apply Forall_cons in Hall as [-> _]. congruence.
  - destruct (compute_run hash_iter sha3 states_get U HU sha3_ok order s root M [f] [] daa) as (s' & root' & E & _);
      [done|done| |done|].
    { constructor; [|constructor]. unfold hash20_to_p2pkh_spk in Hr. case_match eqn:L20; [|done].
      by apply Nat.leb_le. }
    eexists s', root', _, _. split; [exact E|]. split; [apply block_accounts_at|].
    + cbn [foldl]. unfold flash_step. rewrite Hr. rewrite lookup_insert_eq. done.
    + cbn [prune_recent_flashes balance credited with_balance]. unfold cur. rewrite lookup_insert_ne by done.
      rewrite lookup_empty. simpl. unfold saturating_add64. fold view. lia.
Qed.

(** Rewards and flash transactions are committed in the opposite order to their
    execution. When a miner spends the reward of the same block, the live store pays the
    transaction from the reward, but the commitment debits first, saturates at zero and
    then adds the whole reward: the committed balance exceeds the live one by the part of
    the debit that the parent's balance did not cover. *)
Theorem own_reward_spent_twice (verify : bytes -> bytes -> bytes -> bool) (horder : list (ScriptPublicKey * Z) -> list (ScriptPublicKey * Z)) (Hh : forall l, horder l ≡ₚ l)
    (hex_decode_into : bytes -> nat -> option bytes) (cm : CoinbaseManager) (treasury_hex : bytes) (hex_string : bytes -> bytes) (blues reds : list bytes) (non_daa : gset bytes)
    (b : bytes) (cb : Transaction) (user : list Transaction)
    (s : S) (root : H256) (M : gmap H256 H256) (m : accounts) (f : FlashTransaction) (r : ScriptPublicKey) (reward daa : Z)
    (view := committed hash_iter states_get M) (miner := flash_pubkey_to_spk sha3 (pubkey f)) :
  represents hash_iter U s root M -> states_readable states_get M ->
  covers_run hash_iter U M
    (map (leaf_change hash_iter sha3) (order (map_to_list (block_accounts sha3 view [f] [(miner, reward)] daa)))) ->
  extract_block_effects hex_decode_into (cb :: user) cm treasury_hex = ([f], [(miner, reward)]) ->
  bytes_ok (payload cb) -> from_transaction cb = None -> Forall not_account_tx user ->
  flash_block_ok sha3 verify m [(miner, reward)] daa [f] -> hash20_to_p2pkh_spk (recipient f) = Some r -> r <> miner ->
  balance (account_at m miner) = balance (view miner) -> supply_ok m -> supply m + reward < 2 ^ 63 -> balance (view miner) < amount f + fee f ->
  exists s' root' changes x m',
    compute_block_account_changes hash_iter sha3 states_get order root [f] [(miner, reward)] daa s =
      (s', Ok (root', changes)) /\ (miner, x) ∈ changes /\
    commit_virtual_state sha3 sha256 verify horder hex_decode_into cm treasury_hex true
      (map_to_list (virtual_account_diff hex_string blues reds non_daa)) [] [(b, cb :: user)] daa m = (m', Ok tt) /\
    balance x = balance (account_at m' miner) + (amount f + fee f - balance (view miner)).
Proof.
  intros Hrep Hs Hcov Heff Hp Hcb Huser Hblk Hr Hne Hb Hok Hsum Hc.
  destruct (compute_run hash_iter sha3 states_get U HU sha3_ok order s root M [f] [(miner, reward)] daa) as (s' & root' & E & _);
    [done|done|apply (fb_recipients _ _ _ _ _ _ Hblk)|done|].
  pose proof (effects_rewards_ok hex_decode_into cm treasury_hex cb user Hp) as Hrw. rewrite Heff in Hrw. apply Forall_singleton in Hrw as [_ Hrw]. cbn [snd] in Hrw.
  destruct (commit_block_run sha3 sha256 verify horder Hh hex_decode_into cm treasury_hex hex_string blues reds non_daa b cb user daa m)
    as (mr & m2 & spks & m' & El & Ar & [_ _ Q3 _] & Ap & _); rewrite ?Heff; cbn [fst snd sumZ foldr]; [done..|lia|]. rewrite Heff in Ar, Q3. cbn [fst snd] in Ar, Q3.
  eexists s', root', _, _, m'. split; [exact E|]. split; [apply block_accounts_at|split; [exact El|]].
  { cbn [foldl]. unfold reward_step. cbn [fst snd]. by rewrite lookup_insert_eq. }
  destruct Hblk as [_ Heach _ Hfund]. apply Forall_singleton in Heach as (_ & Hf & Ha & _). unfold FLASH_MIN_FEE_KANA in Hf.
  assert (Ek : recipient_key f <> Some (AccountKey_new miner)).
  { unfold recipient_key. rewrite Hr. intros K%Some_inj%AccountKey_inj; [done|by eapply recipient_wf|done]. }
  assert (Bm : balance (account_at m' miner) = balance (view miner) + reward - (amount f + fee f)).
  { change (account_at m' miner) with (acct m' (AccountKey_new miner)). rewrite Ap.
    specialize (Q3 (AccountKey_new miner)). destruct (Ar (AccountKey_new miner)) as [Am _]. rewrite Am in Q3. unfold reward_at, debit_at, credit_at in Q3. simpl in Q3.
    rewrite (decide_False (P := recipient_key f = _)) in Q3 by done. rewrite !decide_True in Q3 by done.
    change (acct m (AccountKey_new miner)) with (account_at m miner) in Q3. destruct (decide _); simpl; lia. }
  specialize (Hfund (AccountKey_new miner)). unfold debit_at, reward_at in Hfund. simpl in Hfund. rewrite !decide_True in Hfund by done.
  change (acct m (AccountKey_new miner)) with (account_at m miner) in Hfund.
  rewrite Bm. cbn [foldl]. unfold flash_step. rewrite Hr. cbn [prune_recent_flashes balance credited with_balance fst snd]. unfold cur at 1. fold miner.
  rewrite lookup_insert_ne, lookup_insert_eq by done. unfold cur. rewrite lookup_empty. simpl. unfold saturating_add64, saturating_sub, U64_MAX. fold view.
  pose proof (proj1 Hok (AccountKey_new miner)) as Hn. change (acct m (AccountKey_new miner)) with (account_at m miner) in Hn.
  pose proof (supply_bound m (AccountKey_new miner) (proj1 Hok)) as Sb. change (acct m (AccountKey_new miner)) with (account_at m miner) in Sb. rewrite Hb in Sb, Hn, Hfund. lia.
Qed.

(** * Leaf keys *)

Lemma pad_loop_snoc fuel (data : bytes) :
  (length data mod 32 <> 0)%nat -> pad_loop (Datatypes.S fuel) data = pad_loop fuel (data ++ [0]).
Proof. intros Hm. cbn [pad_loop]. by rewrite decide_False. Qed.

Lemma mod32_succ n :
  (n mod 32 <> 0)%nat -> ((n + 1) mod 32 = 0)%nat \/ ((n + 1) mod 32 = n mod 32 + 1)%nat.
Proof.
  intros Hn. pose proof (Nat.mod_upper_bound n 32 ltac:(lia)).
  destruct (decide (n mod 32 = 31)%nat) as [E|E].
  - left. by rewrite Nat.Div0.add_mod, E.
  - right. rewrite Nat.Div0.add_mod. change (1 mod 32)%nat with 1%nat. apply Nat.mod_small. lia.
Qed.

(** Enough rounds pad to a multiple of 32, after which more rounds change nothing. *)
Lemma pad_loop_enough fuel (data : bytes) :
  (length data mod 32 = 0 \/ 32 - length data mod 32 <= fuel)%nat ->
  pad_loop (Datatypes.S fuel) data = pad_loop fuel data.
Proof.
  revert data. induction fuel as [|fuel IH]; intros data Hf.
  - pose proof (Nat.mod_upper_bound (length data) 32 ltac:(lia)). cbn [pad_loop].
    rewrite decide_True by lia. done.
  - destruct (decide (length data mod 32 = 0)%nat) as [E|E].
    + cbn [pad_loop]. by rewrite !decide_True.
    + rewrite (pad_loop_snoc (Datatypes.S fuel) data), (pad_loop_snoc fuel data) by done. apply IH.
      rewrite length_app. change (length [0]) with 1%nat.
      destruct (mod32_succ (length data) E) as [Em|Em]; rewrite Em; lia.
Qed.

Lemma key_padding_snoc (data : bytes) :
  (length data mod 32 <> 0)%nat -> key_padding (data ++ [0]) = key_padding data.
Proof.
  intros Hm. unfold key_padding. change 32%nat with (Datatypes.S 31) at 1.
  rewrite pad_loop_enough; [by rewrite <-pad_loop_snoc|].
  rewrite length_app. change (length [0]) with 1%nat.
  destruct (mod32_succ (length data) Hm) as [Em|Em]; rewrite Em; lia.
Qed.

(** The script key with one more zero byte. *)
Definition zero_extended (spk : ScriptPublicKey) : ScriptPublicKey :=
  {| spk_version := spk_version spk; spk_script := spk_script spk ++ [0] |}.

Lemma account_key_alias spk :
  ((2 + length (spk_script spk)) mod 32 <> 0)%nat ->
  account_key_hash hash_iter (zero_extended spk) = account_key_hash hash_iter spk.
Proof.
  intros Hm. unfold account_key_hash, hash_key. cbn [spk_version spk_script zero_extended].
  rewrite app_assoc, key_padding_snoc; [done|]. by rewrite length_app, length_to_le.
Qed.

Lemma represents_root_inj (s1 s2 : S) root M1 M2 :
  represents hash_iter U s1 root M1 -> represents hash_iter U s2 root M2 -> M1 = M2.
Proof.
  intros (I1 & t1 & E1 & T1 & _ & <-) (I2 & t2 & E2 & T2 & _ & <-).
  rewrite (root_hash_inj hash_iter U t1 t2);
    [done|done|by apply (stored_in_nodes hash_iter U s1)|by apply (stored_in_nodes hash_iter U s2)|congruence].
Qed.

(** The root is not a function of the block when two touched accounts share a leaf.
    [hash_key] pads its input with zeros without recording the length, so a script and
    the script with a zero byte appended have the same key; for a block that rewards both,
    two iteration orders of the map of touched accounts give different roots, so two
    nodes can disagree on the block's commitment. *)
Theorem aliased_accounts_split_root (s : S) (spk : ScriptPublicKey) (v1 v2 daa : Z)
    (order' : list (ScriptPublicKey * AccountState) -> list (ScriptPublicKey * AccountState))
    (spk' := zero_extended spk)
    (h1 := content_hash sha3 (AccountState_new v1)) (h2 := content_hash sha3 (AccountState_new v2)) :
  represents hash_iter U s EMPTY ∅ ->
  ((2 + length (spk_script spk)) mod 32 <> 0)%nat ->
  0 < v1 <= U64_MAX -> 0 < v2 <= U64_MAX -> h1 <> h2 ->
  let T := block_accounts sha3 (committed hash_iter states_get ∅) [] [(spk, v1); (spk', v2)] daa in
  order (map_to_list T) = [(spk, AccountState_new v1); (spk', AccountState_new v2)] ->
  order' (map_to_list T) = [(spk', AccountState_new v2); (spk, AccountState_new v1)] ->
  covers_run hash_iter U ∅ (map (leaf_change hash_iter sha3) (order (map_to_list T))) ->
  covers_run hash_iter U ∅ (map (leaf_change hash_iter sha3) (order' (map_to_list T))) ->
  exists s1 s2 r1 r2,
    compute_block_account_changes hash_iter sha3 states_get order EMPTY [] [(spk, v1); (spk', v2)] daa s =
      (s1, Ok (r1, order (map_to_list T))) /\
    compute_block_account_changes hash_iter sha3 states_get order' EMPTY [] [(spk, v1); (spk', v2)] daa s =
      (s2, Ok (r2, order' (map_to_list T))) /\ r1 <> r2.
Proof.
  intros Hrep Hm Hv1 Hv2 Hne T O1 O2 C1 C2.
  assert (Hr : states_readable states_get ∅) by (by intros k h).
  destruct (compute_run hash_iter sha3 states_get U HU sha3_ok order s EMPTY ∅ [] [(spk, v1); (spk', v2)] daa)
    as (s1 & r1 & E1 & R1); [done|done|constructor|done|].
  destruct (compute_run hash_iter sha3 states_get U HU sha3_ok order' s EMPTY ∅ [] [(spk, v1); (spk', v2)] daa)
    as (s2 & r2 & E2 & R2); [done|done|constructor|done|].
  fold T in R1, R2. rewrite O1 in R1. rewrite O2 in R2.
  exists s1, s2, r1, r2. split; [exact E1|]. split; [exact E2|]. intros <-.
  pose proof (represents_root_inj _ _ _ _ _ R1 R2) as E.
  cbn [map leaf_change fst snd apply_changes] in E.
  assert (N : forall v, 0 < v -> is_empty (AccountState_new v) = false).
  { intros v Hv. unfold is_empty. simpl. destruct (Z.eqb_spec v 0); [lia|done]. }
  rewrite !N in E by lia. unfold spk' in E. rewrite account_key_alias in E by done.
  cbn [mupdate] in E. apply (f_equal (lookup (account_key_hash hash_iter spk))) in E.
  rewrite !lookup_insert_eq in E. apply Some_inj in E. by apply Hne.
Qed.

(** A flash transaction with a recipient of fewer than 20 bytes is well formed for the
    codec, passes the stateless checks and is extracted as an effect of its block; the
    commitment of that block then panics in [hash20_to_p2pkh_spk], whatever the state. *)
Theorem short_recipient_panics verify tv hash_tx hex_decode_into (cb : Transaction) cm treasury_hex
    (f : FlashTransaction) (s : S) (root : H256) rewards daa :
  flash_wf f -> (length (recipient f) < 20)%nat ->
  validate_tx_in_isolation sha256 verify tv (to_transaction hash_tx f) = Ok tt /\
  (extract_block_effects hex_decode_into [cb; to_transaction hash_tx f] cm treasury_hex).1 = [f] /\
  compute_block_account_changes hash_iter sha3 states_get order root [f] rewards daa s = (s, Err Panic).
Proof.
  intros Hwf Hlen. split; [apply flash_passes_isolation|]. split.
  - unfold extract_block_effects. cbn [fst omap list_omap].
    rewrite (from_transaction_complete _ f []); [done|done|]. by rewrite app_nil_r.
  - unfold compute_block_account_changes. cbn [fold_touched].
    unfold apply_flash_change, hash20_to_p2pkh_spk.
    destruct (Nat.leb_spec 20 (length (recipient f))); [lia|]. done.
Qed.

End gaps.

(** * Concrete instances *)

#[local] Instance gaps_mem : NodeStore MemStore := mem_store toy_hash.

Definition toy_tv : TransactionValidator :=
  {| max_tx_inputs := 10; max_tx_outputs := 10; max_signature_script_len := 10;
     max_script_public_key_len := 10; validator_coinbase_spk_max_len := 10 |}.

Lemma run_covered (t : tree) (changes : list (H256 * option H256)) (M : gmap H256 H256) (l : list Node) :
  tmap t = M -> canon [] t -> Forall change_ok changes ->
  forallb (fun n => bool_decide (n ∈ l)) (concat (map (tnodes toy_hash) (run_trees t changes))) = true ->
  covers_run toy_hash (fun n => n ∈ l) M changes.
Proof. intros <-. apply covers_run_list. Qed.

Definition unsigned_changes : list (H256 * option H256) :=
  map (leaf_change toy_hash toy_digest)
    (map_to_list (block_accounts toy_digest (committed toy_hash no_states ∅) [toy_flash] [] 60)).

Lemma unsigned_flash_committed_witness :
  validate_tx_in_isolation toy_digest (fun _ _ _ => false) toy_tv (to_transaction (fun _ => zero_hash) toy_flash) = Ok tt /\
  commit_flash_txs toy_digest (fun _ _ _ => false) id [7] [toy_flash] 60 (∅ : accounts) = (∅, Ok tt) /\
  exists s' root' changes x,
    compute_block_account_changes toy_hash toy_digest no_states id EMPTY [toy_flash] [] 60 mem_empty =
      (s', Ok (root', changes)) /\ (toy_recipient, x) ∈ changes /\
      balance x = balance (committed toy_hash no_states ∅ toy_recipient) + 1000.
Proof.
  apply (unsigned_flash_committed toy_hash toy_digest toy_digest no_states
    (fun n => n ∈ concat (map (tnodes toy_hash) (run_trees TEmpty unsigned_changes)))).
  - apply collision_free_list. by vm_compute.
  - apply toy_digest_ok.
  - done.
  - done.
  - apply no_nodes_represents.
  - by intros k h.
  - apply (run_covered TEmpty); [done|done|apply leaf_changes_ok, toy_digest_ok|by vm_compute].
  - by vm_compute.
  - by vm_compute.
  - by vm_compute.
  - done.
Defined.

Definition spender_changes : list (H256 * option H256) :=
  map (leaf_change toy_hash toy_digest)
    (map_to_list (block_accounts toy_digest (committed toy_hash no_states ∅) [toy_flash] [(toy_sender, 5000)] 60)).

Abbreviation spender_block := (toy_coinbase toy_sender 5000 :: toy_user).

Lemma spender_effects : extract_block_effects (fun _ _ => None) spender_block toy_cm [] = ([toy_flash], [(toy_sender, 5000)]).
Proof. vm_compute. reflexivity. Qed.

Lemma spender_block_ok : flash_block_ok toy_digest (fun _ _ _ => true) (∅ : accounts) [(toy_sender, 5000)] 60 [toy_flash].
Proof.
  split.
  - apply NoDup_singleton.
  - apply Forall_singleton. split_and!; by vm_compute.
  - apply (bool_decide_unpack _). by vm_compute.
  - intros k. unfold debit_at, reward_at, sumZ. cbn [foldr]. change (AccountKey_new (toy_sender, 5000).1) with (sender_key toy_digest toy_flash).
    destruct (decide (sender_key toy_digest toy_flash = k)) as [<-|]; by vm_compute.
Qed.

Lemma own_reward_spent_twice_witness :
  exists s' root' changes x m',
    compute_block_account_changes toy_hash toy_digest no_states id EMPTY [toy_flash] [(toy_sender, 5000)] 60
      mem_empty = (s', Ok (root', changes)) /\ (toy_sender, x) ∈ changes /\
    commit_virtual_state toy_digest toy_digest (fun _ _ _ => true) id (fun _ _ => None) toy_cm [] true
      (map_to_list (virtual_account_diff id [] [] ∅)) [] [([7], spender_block)] 60 ∅ = (m', Ok tt) /\
    balance x = balance (account_at m' toy_sender) +
      (1000 + 2000 - balance (committed toy_hash no_states ∅ toy_sender)).
Proof.
  eapply (own_reward_spent_twice toy_hash toy_digest toy_digest no_states
    (fun n => n ∈ concat (map (tnodes toy_hash) (run_trees TEmpty spender_changes)))
    ltac:(apply collision_free_list; by vm_compute) toy_digest_ok id ltac:(done) (fun _ _ _ => true) id ltac:(done) (fun _ _ => None) toy_cm [] id [] [] ∅ [7] (toy_coinbase toy_sender 5000) toy_user mem_empty EMPTY ∅ ∅ toy_flash).
  - apply no_nodes_represents.
  - by intros k h.
  - apply (run_covered TEmpty); [done|done|apply leaf_changes_ok, toy_digest_ok|by vm_compute].
  - apply spender_effects.
  - apply (bool_decide_unpack _). by vm_compute.
  - by vm_compute.
  - by repeat constructor.
  - apply spender_block_ok.
  - reflexivity.
  - by vm_compute.
  - done.
  - by split; [|vm_compute].
  - by vm_compute.
  - by vm_compute.
Defined.

Definition alias_block : gmap ScriptPublicKey AccountState :=
  block_accounts toy_digest (committed toy_hash no_states ∅) [] [(toy_miner, 5); (zero_extended toy_miner, 6)] 60.
Definition alias_nodes : list Node :=
  remove_dups (concat (map (tnodes toy_hash)
    (run_trees TEmpty (map (leaf_change toy_hash toy_digest) (map_to_list alias_block)) ++
     run_trees TEmpty (map (leaf_change toy_hash toy_digest) (reverse (map_to_list alias_block)))))).

Lemma aliased_accounts_split_root_witness :
  exists s1 s2 r1 r2,
    compute_block_account_changes toy_hash toy_digest no_states reverse EMPTY []
      [(toy_miner, 5); (zero_extended toy_miner, 6)] 60 mem_empty = (s1, Ok (r1, reverse (map_to_list alias_block))) /\
    compute_block_account_changes toy_hash toy_digest no_states id EMPTY []
      [(toy_miner, 5); (zero_extended toy_miner, 6)] 60 mem_empty = (s2, Ok (r2, map_to_list alias_block)) /\
    r1 <> r2.
Proof.
  eapply (aliased_accounts_split_root toy_hash toy_digest no_states (fun n => n ∈ alias_nodes)
    ltac:(apply collision_free_list; by vm_compute) toy_digest_ok reverse mem_empty toy_miner 5 6 60 id).
  - apply no_nodes_represents.
  - by vm_compute.
  - by vm_compute.
  - by vm_compute.
  - by vm_compute.
  - by vm_compute.
  - by vm_compute.
  - apply (run_covered TEmpty); [done|done|apply leaf_changes_ok, toy_digest_ok|by vm_compute].
  - apply (run_covered TEmpty); [done|done|apply leaf_changes_ok, toy_digest_ok|by vm_compute].
Defined.

Definition short_flash : FlashTransaction :=
  {| flash_version := 1; pubkey := [1; 2; 3]; recipient := replicate 19 9; amount := 1000;
     fee := 2000; expiry_daa_score := 77; salt := replicate 16 5; signature := [] |}.

Lemma short_recipient_panics_witness :
  validate_tx_in_isolation toy_digest (fun _ _ _ => false) toy_tv (to_transaction (fun _ => zero_hash) short_flash) = Ok tt /\
  (extract_block_effects (fun _ _ => None) [to_transaction (fun _ => zero_hash) toy_flash;
     to_transaction (fun _ => zero_hash) short_flash] toy_cm []).1 = [short_flash] /\
  compute_block_account_changes toy_hash toy_digest no_states id EMPTY [short_flash] [] 60 mem_empty =
    (mem_empty, Err Panic).
Proof.
  apply (short_recipient_panics toy_hash toy_digest toy_digest no_states id).
  - apply (bool_decide_unpack _). by vm_compute.
  - by apply Nat.ltb_lt.
Defined.
