(* ===== verification/Did.v ===== *)
(** Decentralized identities inside the account tree
    (consensus/src/pipeline/virtual_processor/did_changes.rs, the document of
    consensus/src/model/stores/did_store.rs): payload parsing, signed messages and the
    state transition of a block. Strings are their UTF-8 bytes.

    Parameters: [sha3] is SHA3-256; [hex_string] and [hex_decode_into] are faster_hex;
    [did_states] is the [DidStatesReader]; [verify] the injected signature check;
    [hash_order] the iteration order of the [HashMap] of touched documents. *)

From S2P Require Import Prelude Smt SmtTree SmtCorrect Access Address.

Record DidDocument := {
  did : bytes;
  csm_address : bytes;
  public_key : bytes;
  document : bytes;
  purposes : list bytes;
  services : list bytes;
  active : bool;
  created_at : Z;
  updated_at : Z;
  version : Z;
}.

#[export] Instance DidDocument_eq_dec : EqDecision DidDocument.
Proof. solve_decision. Defined.

Inductive DidError :=
| DidSmt (e : SmtError)
| DidStore (e : StoreError)
| MissingState (did : bytes).

Definition MAX_DID_DOC_BYTES : nat := 16 * 1024.
Definition DID_PREFIX : bytes := string_bytes "did:sahyadri:".
Definition PUBKEY_BYTES : nat := 1952.

(** * Rust strings *)

Definition cont (lo hi b : Z) : bool := (lo <=? b) && (b <=? hi).

(** [String::from_utf8]: the well-formed sequences of the Unicode standard. *)
Fixpoint utf8_valid (l : bytes) : bool :=
  match l with
  | [] => true
  | a :: l1 =>
      if cont 0 0x7f a then utf8_valid l1
      else match l1 with
      | [] => false
      | b :: l2 =>
          if cont 0xc2 0xdf a then cont 0x80 0xbf b && utf8_valid l2
          else match l2 with
          | [] => false
          | c :: l3 =>
              if a =? 0xe0 then cont 0xa0 0xbf b && cont 0x80 0xbf c && utf8_valid l3
              else if cont 0xe1 0xec a || cont 0xee 0xef a
              then cont 0x80 0xbf b && cont 0x80 0xbf c && utf8_valid l3
              else if a =? 0xed then cont 0x80 0x9f b && cont 0x80 0xbf c && utf8_valid l3
              else match l3 with
              | [] => false
              | d :: l4 =>
                  if a =? 0xf0 then cont 0x90 0xbf b && cont 0x80 0xbf c && cont 0x80 0xbf d && utf8_valid l4
                  else if cont 0xf1 0xf3 a
                  then cont 0x80 0xbf b && cont 0x80 0xbf c && cont 0x80 0xbf d && utf8_valid l4
                  else if a =? 0xf4
                  then cont 0x80 0x8f b && cont 0x80 0xbf c && cont 0x80 0xbf d && utf8_valid l4
                  else false
              end
          end
      end
  end.

(** [Display] of a [u64]: at most 20 digits. *)
Fixpoint dec_digits (fuel : nat) (x : Z) (acc : bytes) : bytes :=
  match fuel with
  | O => acc
  | S fuel' =>
      let acc := (48 + x mod 10) :: acc in
      if x / 10 =? 0 then acc else dec_digits fuel' (x / 10) acc
  end.

Definition dec (x : Z) : bytes := dec_digits 20 x [].

(** [sort] on a vector of strings. *)
Fixpoint insert_str (s : bytes) (l : list bytes) : list bytes :=
  match l with
  | [] => [s]
  | x :: l' => if bytes_leb s x then s :: x :: l' else x :: insert_str s l'
  end.

Definition sort_strs (l : list bytes) : list bytes := foldr insert_str [] l.

(** * Hashes *)

Definition put_str (out s : bytes) : bytes := out ++ to_le 4 (Z.of_nat (length s)) ++ s.

Definition did_content_bytes (d : DidDocument) : bytes :=
  let out := put_str [] (did d) in
  let out := put_str out (csm_address d) in
  let out := put_str out (public_key d) in
  let out := put_str out (document d) in
  let out := out ++ [if active d then 1 else 0] in
  let out := out ++ to_le 8 (version d) in
  let out := out ++ to_le 8 (created_at d) in
  let out := out ++ to_le 8 (updated_at d) in
  let purposes := sort_strs (purposes d) in
  let out := out ++ to_le 4 (Z.of_nat (length purposes)) in
  let out := foldl put_str out purposes in
  let services := sort_strs (services d) in
  let out := out ++ to_le 4 (Z.of_nat (length services)) in
  foldl put_str out services.

Definition did_binding_bytes (did csm_address public_key_hex document : bytes) (version : Z) : bytes :=
  let out := put_str [] did in
  let out := put_str out csm_address in
  let out := put_str out public_key_hex in
  let out := put_str out document in
  out ++ to_le 8 version.

Section hashes.
Context (sha3 : bytes -> bytes).

Definition did_content_hash (d : DidDocument) : bytes :=
  sha3 (string_bytes "SAHYADRI_DID_STATE_V1" ++ did_content_bytes d).

Definition did_binding_hash (did csm_address public_key_hex document : bytes) (version : Z) : bytes :=
  sha3 (string_bytes "SAHYADRI_DID_BIND_V1" ++ did_binding_bytes did csm_address public_key_hex document version).

(** [None] is a panic of [Address::new]. *)
Definition derive_csm_address (pubkey : bytes) (prefix : Prefix) : option bytes :=
  let hash20 := take 20 (sha3 pubkey) in
  a ← Address_new prefix PubKeyDilithium hash20; address_to_string a.

End hashes.

Definition did_key_hash (hash_iter : list Z -> felt4) (did : bytes) : H256 :=
  hash_key hash_iter (string_bytes "DID1" ++ did).

(** * Payload parsing *)

Inductive DidOp :=
| Create (pubkey did csm_address document : bytes) (timestamp : Z) (sig : bytes)
| Update (did document : bytes) (timestamp : Z) (sig : bytes)
| Deactivate (did : bytes) (timestamp : Z) (sig : bytes).

(** The readers return the value and the advanced offset. *)
Definition rd_bytes (p : bytes) (o n : Z) : option (bytes * Z) :=
  b ← slice p o n; Some (b, o + n).

Definition rd_u32 (p : bytes) (o : Z) : option (Z * Z) :=
  '(b, o) ← rd_bytes p o 4; Some (from_le b, o).

Definition rd_str (p : bytes) (o : Z) : option (bytes * Z) :=
  '(n, o) ← rd_u32 p o;
  '(b, o) ← rd_bytes p o n;
  if utf8_valid b then Some (b, o) else None.

Definition last_u64 (body : bytes) (min_start : Z) : option Z :=
  start ← checked_sub (Z.of_nat (length body)) 8;
  if start <? min_start then None else Some (from_le (drop (Z.to_nat start) body)).

Definition parse_did_op (payload : bytes) (sig_size : nat) : option DidOp :=
  if (length payload <? 4 + sig_size)%nat then None
  else
    let body := take (length payload - sig_size) payload in
    let sig := drop (length payload - sig_size) payload in
    let o := 4 in
    if bool_decide (take 4 body = string_bytes "DCRT") then
      '(did, o) ← rd_str body o;
      '(pubkey, o) ← rd_bytes body o (Z.of_nat PUBKEY_BYTES);
      '(csm_address, o) ← rd_str body o;
      '(document, o) ← rd_str body o;
      '(ts, o) ← rd_bytes body o 8;
      Some (Create pubkey did csm_address document (from_le ts) sig)
    else if bool_decide (take 4 body = string_bytes "DUPD") then
      '(did, o) ← rd_str body o;
      '(document, o) ← rd_str body o;
      timestamp ← last_u64 body o;
      Some (Update did document timestamp sig)
    else if bool_decide (take 4 body = string_bytes "DDEC") then
      '(did, o) ← rd_str body o;
      timestamp ← last_u64 body o;
      Some (Deactivate did timestamp sig)
    else None.

(** * State transition *)

Section transition.
Context (hash_iter : list Z -> felt4) (sha3 : bytes -> bytes).
Context (hex_string : bytes -> bytes) (hex_decode_into : bytes -> nat -> option bytes).
Context (did_states : bytes -> result StoreError (option DidDocument)).
Context (verify : bytes -> bytes -> bytes -> bool) (prefix : Prefix).
Context (hash_order : list (bytes * DidDocument) -> list (bytes * DidDocument)).

Definition hex_to_bytes (s : bytes) : option bytes :=
  if negb (length s mod 2 =? 0)%nat then None else hex_decode_into s (length s / 2).

(** The messages that the three operations sign. *)
Definition create_msg (pubkey did csm_address document : bytes) : bytes :=
  let pubkey_hex := hex_string pubkey in
  let binding := did_binding_hash sha3 did csm_address pubkey_hex document 1 in
  string_bytes "did:create:" ++ csm_address ++ string_bytes ":1:" ++ hex_string binding.

Definition update_msg (cur : DidDocument) (document : bytes) : bytes :=
  let new_version := wadd64 (version cur) 1 in
  let binding := did_binding_hash sha3 (did cur) (csm_address cur) (public_key cur) document new_version in
  string_bytes "did:update:" ++ csm_address cur ++ string_bytes ":" ++ dec new_version ++ string_bytes ":" ++ hex_string binding.

Definition deactivate_msg (cur : DidDocument) : bytes :=
  let new_version := wadd64 (version cur) 1 in
  string_bytes "did:deactivate:" ++ csm_address cur ++ string_bytes ":" ++ dec new_version.

(** The documents that the three operations store. *)
Definition created (pubkey did_ csm_address_ document_ : bytes) (daa_score : Z) : DidDocument :=
  {| did := did_; csm_address := csm_address_; public_key := hex_string pubkey; document := document_;
     purposes := [string_bytes "authentication"]; services := []; active := true;
     created_at := daa_score; updated_at := daa_score; version := 1 |}.

Definition updated (cur : DidDocument) (document_ : bytes) (daa_score : Z) : DidDocument :=
  {| did := did cur; csm_address := csm_address cur; public_key := public_key cur; document := document_;
     purposes := purposes cur; services := services cur; active := active cur;
     created_at := created_at cur; updated_at := daa_score; version := wadd64 (version cur) 1 |}.

Definition deactivated (cur : DidDocument) (daa_score : Z) : DidDocument :=
  {| did := did cur; csm_address := csm_address cur; public_key := public_key cur; document := document cur;
     purposes := purposes cur; services := services cur; active := false;
     created_at := created_at cur; updated_at := daa_score; version := wadd64 (version cur) 1 |}.

Context {S : Type} `{NodeStore S}.
Abbreviation docs := (gmap bytes DidDocument).
Abbreviation run A := (st S (fault DidError) A).

Definition lookup_did (root : H256) (touched : docs) (d : bytes) : run (option DidDocument) :=
  fun s =>
    match touched !! d with
    | Some doc => (s, Ok (Some doc))
    | None =>
        match get s root (did_key_hash hash_iter d) with
        | Err e => (s, Err (Error (DidSmt e)))
        | Ok None => (s, Ok None)
        | Ok (Some h) =>
            match did_states h with
            | Err e => (s, Err (Error (DidStore e)))
            | Ok (Some doc) => (s, Ok (Some doc))
            | Ok None => (s, Err (Error (MissingState d)))
            end
        end
    end.

(** One turn of the loop of [compute_block_did_changes]; a [continue] keeps [touched]. *)
Definition apply_did_op (root : H256) (daa_score : Z) (touched : docs) (op : DidOp) : run docs :=
  match op with
  | Create pubkey did csm_address document _ sig =>
      if (MAX_DID_DOC_BYTES <? length document)%nat || negb (bool_decide (did = DID_PREFIX ++ csm_address))
      then mret touched
      else
        derived ← or_panic (derive_csm_address sha3 pubkey prefix);
        if negb (bool_decide (derived = csm_address)) then mret touched
        else
          found ← lookup_did root touched did;
          match found with
          | Some _ => mret touched
          | None =>
              if negb (verify pubkey sig (create_msg pubkey did csm_address document)) then mret touched
              else mret (<[did := created pubkey did csm_address document daa_score]> touched)
          end
  | Update did document _ sig =>
      if (MAX_DID_DOC_BYTES <? length document)%nat then mret touched
      else
        found ← lookup_did root touched did;
        match found with
        | None => mret touched
        | Some cur =>
            if negb (active cur) then mret touched
            else match hex_to_bytes (public_key cur) with
            | None => mret touched
            | Some pk =>
                if negb (verify pk sig (update_msg cur document)) then mret touched
                else mret (<[did := updated cur document daa_score]> touched)
            end
        end
  | Deactivate did _ sig =>
      found ← lookup_did root touched did;
      match found with
      | None => mret touched
      | Some cur =>
          if negb (active cur) then mret touched
          else match hex_to_bytes (public_key cur) with
          | None => mret touched
          | Some pk =>
              if negb (verify pk sig (deactivate_msg cur)) then mret touched
              else mret (<[did := deactivated cur daa_score]> touched)
          end
      end
  end.

Fixpoint apply_did_ops (root : H256) (daa_score : Z) (touched : docs) (ops : list DidOp) : run docs :=
  match ops with
  | [] => mret touched
  | op :: ops' => touched' ← apply_did_op root daa_score touched op; apply_did_ops root daa_score touched' ops'
  end.

Fixpoint update_did_leaves (new_root : H256) (touched : list (bytes * DidDocument)) : run H256 :=
  match touched with
  | [] => mret new_root
  | (d, doc) :: touched' =>
      r ← map_err (fun e => Error (DidSmt e))
            (update new_root (did_key_hash hash_iter d) (Some (did_content_hash sha3 doc)));
      update_did_leaves r touched'
  end.

Definition compute_block_did_changes (root : H256) (ops : list DidOp) (daa_score : Z) :
    run (H256 * list DidDocument) :=
  touched ← apply_did_ops root daa_score ∅ ops;
  let entries := hash_order (map_to_list touched) in
  new_root ← update_did_leaves root entries;
  mret (new_root, entries.*2).

End transition.
