(* ===== verification/DidTheorems.v ===== *)
(** The identity rules that a block's DID operations obey, the exact payload format, and
    the collision between the identity and the account name spaces of the tree. *)

From S2P Require Import Prelude Smt SmtTree SmtCorrect SmtTheorems Access Tx Account Address AccountChanges Commitment Did.

(** * The life cycle of a document *)

Section lifecycle.
Context (sha3 : bytes -> bytes) (hex_string : bytes -> bytes) (hex_decode_into : bytes -> nat -> option bytes).
Context (verify : bytes -> bytes -> bytes -> bool) (prefix : Prefix) (daa : Z).

Abbreviation key_bytes := (hex_to_bytes hex_decode_into).

(** The documents an identity [k] can go to, each by a message signed with its key: an
    absent one is created under the address of the creator's key, an active one is
    updated or deactivated by its owner. *)
Inductive did_step (k : bytes) : option DidDocument -> DidDocument -> Prop :=
| step_create pubkey addr doc sig :
    (length doc <= MAX_DID_DOC_BYTES)%nat -> k = DID_PREFIX ++ addr ->
    derive_csm_address sha3 pubkey prefix = Some addr ->
    verify pubkey sig (create_msg sha3 hex_string pubkey k addr doc) = true ->
    did_step k None (created hex_string pubkey k addr doc daa)
| step_update cur doc sig pk :
    (length doc <= MAX_DID_DOC_BYTES)%nat -> active cur = true -> key_bytes (public_key cur) = Some pk ->
    verify pk sig (update_msg sha3 hex_string cur doc) = true ->
    did_step k (Some cur) (updated cur doc daa)
| step_deactivate cur sig pk :
    active cur = true -> key_bytes (public_key cur) = Some pk ->
    verify pk sig (deactivate_msg cur) = true ->
    did_step k (Some cur) (deactivated cur daa).

Definition did_trans (k : bytes) (o1 o2 : option DidDocument) : Prop :=
  exists d, o2 = Some d /\ did_step k o1 d.

(** What no sequence of steps changes. *)
Definition same_identity (d1 d2 : DidDocument) : Prop :=
  did d1 = did d2 /\ csm_address d1 = csm_address d2 /\ public_key d1 = public_key d2 /\
  created_at d1 = created_at d2.

(** The document of a fresh identity belongs to the key its address is derived from. *)
Definition owned (k : bytes) (d : DidDocument) : Prop :=
  did d = k /\ k = DID_PREFIX ++ csm_address d /\
  exists pubkey, public_key d = hex_string pubkey /\ derive_csm_address sha3 pubkey prefix = Some (csm_address d).

Lemma steps_from_some k o d d0 :
  rtc (did_trans k) o (Some d) -> o = Some d0 -> d = d0 \/ active d0 = true /\ same_identity d d0.
Proof.
  remember (Some d) as o' eqn:Eo. intros Hs. revert d0. induction Hs as [o|o1 o2 o3 (d1 & -> & Hst) Hs IH]; intros d0 Hd0.
  - subst. injection Hd0 as ->. by left.
  - specialize (IH Eo d1 eq_refl). right. subst o1.
    inversion Hst as [|cur doc sig pk Hl Ha Hk Hv|cur sig pk Ha Hk Hv]; subst; (split; [done|]);
      (destruct IH as [->|[_ (I1 & I2 & I3 & I4)]]; by split_and!).
Qed.

Lemma steps_from_none k o d :
  rtc (did_trans k) o (Some d) -> o = None -> owned k d.
Proof.
  intros Hs Ho. inversion Hs as [|o1 o2 o3 (d1 & -> & Hst) Hs']; subst; [done|].
  inversion Hst as [pubkey addr doc sig Hl Hk Hd Hv| |]; subst.
  destruct (steps_from_some _ _ _ _ Hs' eq_refl) as [->|[_ (I1 & I2 & I3 & _)]].
  - split; [done|]. split; [done|]. by exists pubkey.
  - split; [by rewrite I1|]. split; [by rewrite I2|]. exists pubkey. rewrite I2, I3. by split.
Qed.

End lifecycle.

(** * A block's operations *)

Definition op_did (op : DidOp) : bytes :=
  match op with Create _ d _ _ _ _ | Update d _ _ _ | Deactivate d _ _ => d end.

Section block.
Context (hash_iter : list Z -> felt4) (sha3 : bytes -> bytes) (sha3_ok : forall bs, h256_ok (sha3 bs)).
Context (hex_string : bytes -> bytes) (hex_decode_into : bytes -> nat -> option bytes).
Context (did_states : bytes -> result StoreError (option DidDocument)).
Context (verify : bytes -> bytes -> bytes -> bool) (prefix : Prefix) (daa : Z).
Context (hash_order : list (bytes * DidDocument) -> list (bytes * DidDocument)).
Context {S : Type} `{Laws : NodeStoreLaws hash_iter S}.
Context (U : Node -> Prop) (HU : collision_free hash_iter U).
Implicit Types (T : gmap bytes DidDocument) (M : gmap H256 H256).

Definition committed_did M (k : bytes) : option DidDocument :=
  match M !! did_key_hash hash_iter k with
  | None => None
  | Some h => match did_states h with Ok o => o | Err _ => None end
  end.

(** The leaf of an identity the block touches points to a stored document. *)
Definition did_readable M (k : bytes) : Prop :=
  forall h, M !! did_key_hash hash_iter k = Some h -> exists d, did_states h = Ok (Some d).

Definition cur_did M T (k : bytes) : option DidDocument :=
  match T !! k with Some d => Some d | None => committed_did M k end.

Lemma did_key_ok k : h256_ok (did_key_hash hash_iter k).
Proof. apply goldilocks_to_bytes_ok. Qed.

Lemma lookup_did_run s root M T k :
  represents hash_iter U s root M -> did_readable M k ->
  lookup_did hash_iter did_states root T k s = (s, Ok (cur_did M T k)).
Proof.
  intros Hr Hk. unfold lookup_did, cur_did, committed_did. destruct (T !! k) as [d|]; [done|].
  rewrite (represents_get hash_iter U HU s root M) by (done || apply did_key_ok).
  destruct (M !! _) as [h|] eqn:E; [|done]. by destruct (Hk h E) as [d ->].
Qed.

Lemma derive_total pubkey : exists addr, derive_csm_address sha3 pubkey prefix = Some addr.
Proof.
  unfold derive_csm_address. destruct (sha3_ok pubkey) as [Hl Hb].
  assert (L : length (take 20 (sha3 pubkey)) = 20%nat) by (rewrite length_take, Hl; done).
  unfold Address_new. rewrite L. cbn [public_key_len Nat.eqb mbind option_bind].
  destruct (encode_payload_spec {| addr_prefix := prefix; addr_version := PubKeyDilithium;
    addr_payload := take 20 (sha3 pubkey) |}) as (f & g & s & Es & _); [by apply Forall_take|].
  unfold address_to_string. rewrite Es. eexists. done.
Qed.

Abbreviation step := (did_step sha3 hex_string hex_decode_into verify prefix daa).
Abbreviation trans := (did_trans sha3 hex_string hex_decode_into verify prefix daa).
Abbreviation apply_op := (apply_did_op hash_iter sha3 hex_string hex_decode_into did_states verify prefix).

(** One operation makes at most one step of the identity it names. *)
Lemma apply_did_op_step s root M T op :
  represents hash_iter U s root M -> did_readable M (op_did op) ->
  exists T', apply_op root daa T op s = (s, Ok T') /\
    (T' = T \/ exists d, T' = <[op_did op := d]> T /\ step (op_did op) (cur_did M T (op_did op)) d).
Proof.
  intros Hr Hk. destruct op as [pubkey k addr doc ts sig|k doc ts sig|k ts sig]; cbn [op_did] in *; cbn [apply_did_op].
  - destruct (Nat.ltb_spec MAX_DID_DOC_BYTES (length doc)); [by exists T; auto|]. cbn [orb].
    case_bool_decide as Ek; [|by exists T; auto]. cbn [negb].
    destruct (derive_total pubkey) as [a Ea]. unfold or_panic, lift. rewrite Ea. cbn [ok_or].
    unfold mbind, st_bind. case_bool_decide as Ead; [subst a|by exists T; auto]. cbn [negb].
    rewrite (lookup_did_run s root M T k Hr Hk). destruct (cur_did M T k) as [d|] eqn:Ec; [by exists T; auto|].
    destruct (verify _ _ _) eqn:V; [|by exists T; auto]. eexists. split; [done|]. right.
    eexists. split; [done|]. by eapply step_create.
  - destruct (Nat.ltb_spec MAX_DID_DOC_BYTES (length doc)); [by exists T; auto|].
    unfold mbind, st_bind. rewrite (lookup_did_run s root M T k Hr Hk).
    destruct (cur_did M T k) as [cur|] eqn:Ec; [|by exists T; auto].
    destruct (active cur) eqn:Ea; [|by exists T; auto]. cbn [negb].
    destruct (hex_to_bytes _ _) as [pk|] eqn:Eh; [|by exists T; auto].
    destruct (verify _ _ _) eqn:V; [|by exists T; auto]. eexists. split; [done|]. right.
    eexists. split; [done|]. by eapply step_update.
  - unfold mbind, st_bind. rewrite (lookup_did_run s root M T k Hr Hk).
    destruct (cur_did M T k) as [cur|] eqn:Ec; [|by exists T; auto].
    destruct (active cur) eqn:Ea; [|by exists T; auto]. cbn [negb].
    destruct (hex_to_bytes _ _) as [pk|] eqn:Eh; [|by exists T; auto].
    destruct (verify _ _ _) eqn:V; [|by exists T; auto]. eexists. split; [done|]. right.
    eexists. split; [done|]. by eapply step_deactivate.
Qed.

Lemma apply_did_ops_steps s root M T ops :
  represents hash_iter U s root M -> Forall (fun op => did_readable M (op_did op)) ops ->
  exists T', apply_did_ops hash_iter sha3 hex_string hex_decode_into did_states verify prefix root daa T ops s = (s, Ok T') /\
    forall k, rtc (trans k) (cur_did M T k) (cur_did M T' k) /\
              (T' !! k <> T !! k -> is_Some (T' !! k) /\ k ∈ map op_did ops).
Proof.
  intros Hr Hk. revert T. induction Hk as [|op ops Hop Hk IH]; intros T; [by exists T|].
  destruct (apply_did_op_step s root M T op Hr Hop) as (T1 & E1 & H1).
  destruct (IH T1) as (T2 & E2 & H2). exists T2. split.
  { cbn [apply_did_ops]. by rewrite (st_bind_run _ _ _ _ _ E1). }
  intros k. destruct (H2 k) as [R2 N2].
  assert (HS : rtc (trans k) (cur_did M T k) (cur_did M T1 k) /\
              (T1 !! k <> T !! k -> is_Some (T1 !! k) /\ k = op_did op)).
  { destruct H1 as [->|(d & -> & Hst)]; [by split|]. destruct (decide (k = op_did op)) as [->|Hne].
    - unfold cur_did at 2. rewrite lookup_insert_eq. split; [|eauto]. apply rtc_once. by exists d.
    - unfold cur_did at 2. rewrite lookup_insert_ne by done. by split. }
  destruct HS as [R1 N1]. split; [by etrans|]. intros Hne. cbn [map].
  destruct (decide (T2 !! k = T1 !! k)) as [E|E].
  - rewrite E in *. destruct (N1 Hne) as [? ->]. split; [done|left].
  - destruct (N2 E). split; [done|by right].
Qed.

Definition did_leaf (e : bytes * DidDocument) : H256 * option H256 :=
  (did_key_hash hash_iter e.1, Some (did_content_hash sha3 e.2)).

Lemma update_did_leaves_many root l s :
  update_did_leaves hash_iter sha3 root l s =
  map_err (fun e => Error (DidSmt e)) (update_many root (map did_leaf l)) s.
Proof.
  revert root s. induction l as [|[k d] l IH]; intros root s; [done|].
  cbn [update_did_leaves map update_many did_leaf fst snd]. unfold mbind, st_bind, map_err.
  destruct (update root _ _ s) as [s' [root'|e]]; [|done]. rewrite IH. done.
Qed.

Lemma did_leaves_ok l : Forall change_ok (map did_leaf l).
Proof. apply Forall_fmap, Forall_true. intros [k d]. split; [apply did_key_ok|apply sha3_ok]. Qed.



End block.

(** Concrete data: a creation, an update and a deactivation of one identity. *)
Definition toy_digest32 (bs : bytes) : bytes :=
  let h := foldl (fun acc x => (acc * 257 + x + 1) mod 2 ^ 200) 3 bs in to_le 32 h.

Lemma toy_digest32_ok bs : h256_ok (toy_digest32 bs).
Proof. split; [apply length_to_le|apply to_le_ok]. Qed.

Definition toy_hex_decode (s : bytes) (n : nat) : option bytes := Some (take n s).
Definition no_dids (h : bytes) : result StoreError (option DidDocument) := Ok None.

Definition toy_addr : bytes := default [] (derive_csm_address toy_digest32 [1; 2] Testnet).
Definition toy_did : bytes := DID_PREFIX ++ toy_addr.
Definition toy_ops : list DidOp :=
  [Create [1; 2] toy_did toy_addr [123; 125] 5 []; Update toy_did [123; 32; 125] 6 []; Deactivate toy_did 7 [];
   Update toy_did [125] 8 []].
Definition toy_doc : DidDocument :=
  deactivated (updated (created id [1; 2] toy_did toy_addr [123; 125] 60) [123; 32; 125] 60) 60.
#[local] Instance did_mem : NodeStore MemStore := mem_store toy_hash.

Lemma toy_docs_run (T : gmap bytes DidDocument) :
  apply_did_ops toy_hash toy_digest32 id toy_hex_decode no_dids (fun _ _ _ => true) Testnet EMPTY 60 ∅ toy_ops mem_empty =
  (mem_empty, Ok T) -> map_to_list T = [(toy_did, toy_doc)].
Proof.
  intros E. apply (f_equal (fun r => match r.2 with Ok T => map_to_list T | Err _ => [] end)) in E.
  cbn [snd] in E. rewrite <-E. by vm_compute.
Qed.

Definition toy_leaf : Node := Leaf (did_key_hash toy_hash toy_did) (did_content_hash toy_digest32 toy_doc).

Lemma toy_leaf_free : collision_free toy_hash (fun n => n ∈ [toy_leaf]).
Proof.
  split; [|by intros n ->%list_elem_of_singleton; vm_compute].
  by intros n m ->%list_elem_of_singleton ->%list_elem_of_singleton.
Qed.



(** * One tree, two name spaces *)

(** The account whose leaf key is that of the identity [k]: its version bytes are "DI". *)
Definition shadow_account (k : bytes) : ScriptPublicKey :=
  {| spk_version := 0x4944; spk_script := string_bytes "D1" ++ k |}.

Lemma shadow_key hash_iter k : account_key_hash hash_iter (shadow_account k) = did_key_hash hash_iter k.
Proof. done. Qed.

(** Account keys and identity keys are not separated: the account with version 0x4944
    and script "D1" followed by an identity's name has the same leaf as the identity. A
    block that rewards this account replaces the identity's leaf by an account state;
    from then on an operation on the identity fails with [MissingState], and with it the
    commitment of every block that contains one. *)
Theorem did_leaf_overwritten (hash_iter : list Z -> felt4) (sha3 : bytes -> bytes)
    (states_get : bytes -> result StoreError AccountState) (hex_string : bytes -> bytes)
    (hex_decode_into : bytes -> nat -> option bytes) (did_states : bytes -> result StoreError (option DidDocument))
    (verify : bytes -> bytes -> bytes -> bool) (prefix : Prefix) {S} `{L : NodeStoreLaws hash_iter S}
    (order : list (ScriptPublicKey * AccountState) -> list (ScriptPublicKey * AccountState))
    (did_order : list (bytes * DidDocument) -> list (bytes * DidDocument))
    (U : Node -> Prop) (s : S) (root : H256) (M : gmap H256 H256) (k sig : bytes) (v ts daa daa' : Z)
    (view := committed hash_iter states_get M)
    (state := prune_recent_flashes (credited v (view (shadow_account k))) daa)
    (HU : collision_free hash_iter U) (sha3_ok : forall bs, h256_ok (sha3 bs)) (Ho : forall l, order l ≡ₚ l)
    (Hrep : represents hash_iter U s root M) (Hs : states_readable states_get M)
    (Hcov : covers hash_iter U (mupdate M (did_key_hash hash_iter k) (Some (content_hash sha3 state))))
    (Hv : 0 < v) (Hb : 0 <= balance (view (shadow_account k)))
    (Hno : did_states (content_hash sha3 state) = Ok None) :
  exists s' root' changes,
    compute_block_account_changes hash_iter sha3 states_get order root [] [(shadow_account k, v)] daa s =
      (s', Ok (root', changes)) /\
    compute_block_did_changes hash_iter sha3 hex_string hex_decode_into did_states verify prefix did_order
      root' [Deactivate k ts sig] daa' s' = (s', Err (Error (MissingState k))).
Proof.
  assert (ET : order (map_to_list (block_accounts sha3 view [] [(shadow_account k, v)] daa)) = [(shadow_account k, state)]).
  { apply Permutation_singleton_r. rewrite Ho. unfold block_accounts. cbn [foldl]. unfold reward_step. cbn [fst snd].
    unfold cur. rewrite lookup_empty. simpl. rewrite insert_empty, map_fmap_singleton, map_to_list_singleton. done. }
  assert (Ene : is_empty state = false).
  { unfold is_empty, state. cbn [prune_recent_flashes credited with_balance balance]. unfold saturating_add64, U64_MAX.
    destruct (Z.eqb_spec (Z.min (2 ^ 64 - 1) (balance (view (shadow_account k)) + v)) 0); [lia|done]. }
  destruct (compute_run hash_iter sha3 states_get U HU sha3_ok order s root M [] [(shadow_account k, v)] daa)
    as (s' & root' & E & R); [done|done|constructor| |].
  { fold view. rewrite ET. cbn [map leaf_change fst snd covers_run]. by rewrite Ene, shadow_key. }
  fold view in E, R. rewrite ET in E, R. cbn [map leaf_change fst snd apply_changes] in R. rewrite Ene, shadow_key in R.
  exists s', root', [(shadow_account k, state)]. split; [exact E|]. unfold compute_block_did_changes. cbn [apply_did_ops apply_did_op].
  unfold mbind, st_bind, lookup_did. rewrite lookup_empty.
  rewrite (represents_get hash_iter U HU s' root' _ _ R) by apply did_key_ok. cbn [mupdate].
  rewrite lookup_insert_eq. by rewrite Hno.
Qed.

Definition shadow_state : AccountState := AccountState_new 7.
Definition shadow_leaf : Node := Leaf (did_key_hash toy_hash toy_did) (content_hash toy_digest32 shadow_state).

Lemma did_leaf_overwritten_witness :
  exists s' root' changes,
    compute_block_account_changes toy_hash toy_digest32 no_states id EMPTY [] [(shadow_account toy_did, 7)] 60 mem_empty =
      (s', Ok (root', changes)) /\
    compute_block_did_changes toy_hash toy_digest32 id toy_hex_decode no_dids (fun _ _ _ => true) Testnet id
      root' [Deactivate toy_did 1 []] 61 s' = (s', Err (Error (MissingState toy_did))).
Proof.
  apply (did_leaf_overwritten toy_hash toy_digest32 no_states id toy_hex_decode no_dids (fun _ _ _ => true) Testnet
    id id (fun n => n ∈ [shadow_leaf]) mem_empty EMPTY ∅).
  - split; [|by intros n ->%list_elem_of_singleton; vm_compute].
    by intros n m ->%list_elem_of_singleton ->%list_elem_of_singleton.
  - apply toy_digest32_ok.
  - done.
  - split; [by intros h n|]. exists TEmpty. by split_and!.
  - by intros j h.
  - change (prune_recent_flashes (credited 7 (committed toy_hash no_states ∅ (shadow_account toy_did))) 60) with shadow_state.
    cbn [mupdate]. rewrite insert_empty.
    change {[did_key_hash toy_hash toy_did := content_hash toy_digest32 shadow_state]}
      with (tmap (TLeaf (did_key_hash toy_hash toy_did) (content_hash toy_digest32 shadow_state))).
    apply covers_intro; [|by intros n Hn]. split_and!; [apply did_key_ok|apply toy_digest32_ok|apply prefix_nil].
  - done.
  - done.
  - done.
Defined.
