(* ===== verification/DidCodec.v ===== *)
(** The exact payload format of DID operations that [parse_did_op] of Did.v accepts. *)

From S2P Require Import Prelude Address Did.

Definition str_wire (s : bytes) : bytes := to_le 4 (Z.of_nat (length s)) ++ s.

(** The payload of an operation; [slack] are the bytes the parser skips: after the
    timestamp of a creation, before the timestamp of the others. *)
Definition did_wire (slack : bytes) (op : DidOp) : bytes :=
  match op with
  | Create pubkey did csm_address document timestamp sig =>
      string_bytes "DCRT" ++ str_wire did ++ pubkey ++ str_wire csm_address ++ str_wire document ++
      to_le 8 timestamp ++ slack ++ sig
  | Update did document timestamp sig =>
      string_bytes "DUPD" ++ str_wire did ++ str_wire document ++ slack ++ to_le 8 timestamp ++ sig
  | Deactivate did timestamp sig =>
      string_bytes "DDEC" ++ str_wire did ++ slack ++ to_le 8 timestamp ++ sig
  end.

Definition str_wf (s : bytes) : Prop := utf8_valid s = true /\ Z.of_nat (length s) < 2 ^ 32.

Definition op_wf (sig_size : nat) (op : DidOp) : Prop :=
  match op with
  | Create pubkey did csm_address document timestamp sig =>
      length pubkey = PUBKEY_BYTES /\ str_wf did /\ str_wf csm_address /\ str_wf document /\
      u64_range timestamp /\ length sig = sig_size
  | Update did document timestamp sig =>
      str_wf did /\ str_wf document /\ u64_range timestamp /\ length sig = sig_size
  | Deactivate did timestamp sig => str_wf did /\ u64_range timestamp /\ length sig = sig_size
  end.

(** An offset inside [p] with [r] after it. *)
Definition at_rest (p : bytes) (o : Z) (r : bytes) : Prop := 0 <= o <= Z.of_nat (length p) /\ rest_at p o = r.

Lemma rd_bytes_at p o n b r :
  at_rest p o (b ++ r) -> n = Z.of_nat (length b) ->
  exists o', rd_bytes p o n = Some (b, o') /\ at_rest p o' r.
Proof.
  intros [Ho E] ->. destruct (slice_at p o _ b r Ho E eq_refl) as (Es & Er & L).
  exists (o + Z.of_nat (length b)). unfold rd_bytes. rewrite Es. split; [done|]. split; [lia|done].
Qed.

Lemma rd_str_at p o s r :
  at_rest p o (str_wire s ++ r) -> str_wf s -> exists o', rd_str p o = Some (s, o') /\ at_rest p o' r.
Proof.
  intros H [Hu Hl]. unfold str_wire in H. rewrite <-app_assoc in H. unfold rd_str, rd_u32.
  destruct (rd_bytes_at p o 4 _ _ H) as (o1 & E1 & H1); [by rewrite length_to_le|]. rewrite E1. cbn [mbind option_bind].
  rewrite (from_to_le_small 4) by (change (256 ^ Z.of_nat 4) with (2 ^ 32); lia).
  destruct (rd_bytes_at p o1 _ s r H1 eq_refl) as (o2 & E2 & H2). rewrite E2. cbn [mbind option_bind].
  rewrite Hu. eauto.
Qed.

Lemma last_u64_at p o slack t :
  at_rest p o (slack ++ to_le 8 t) -> u64_range t -> last_u64 p o = Some t.
Proof.
  intros [Ho E] Ht. unfold last_u64, checked_sub. unfold rest_at in E.
  assert (L : length (drop (Z.to_nat o) p) = (length slack + 8)%nat) by (rewrite E, length_app, length_to_le; done).
  rewrite length_drop in L. destruct (Z.leb_spec 8 (Z.of_nat (length p))); [|lia]. cbn [mbind option_bind].
  destruct (Z.ltb_spec (Z.of_nat (length p) - 8) o); [lia|]. f_equal.
  replace (Z.to_nat (Z.of_nat (length p) - 8)) with (Z.to_nat o + length slack)%nat by lia.
  rewrite <-drop_drop, E, drop_app_length. by apply from_to_le_small.
Qed.

(** The same readings backwards. *)
Lemma rd_bytes_inv p o n b o' :
  0 <= o -> 0 <= n -> rd_bytes p o n = Some (b, o') ->
  rest_at p o = b ++ rest_at p o' /\ Z.of_nat (length b) = n /\ o' = o + n /\ o' <= Z.of_nat (length p).
Proof.
  unfold rd_bytes. intros Ho Hn. destruct (slice p o n) as [x|] eqn:E; [|done].
  intros Eb. apply (inj Some) in Eb. apply pair_equal_spec in Eb as [<- <-].
  destruct (slice_next p o n x Ho Hn E) as [E1 E2]. split; [done|]. split; [done|]. split; [done|].
  unfold slice in E. by destruct (Z.leb_spec (o + n) (Z.of_nat (length p))).
Qed.

Lemma rd_str_inv p o s o' :
  bytes_ok p -> 0 <= o -> rd_str p o = Some (s, o') ->
  rest_at p o = str_wire s ++ rest_at p o' /\ str_wf s /\ 0 <= o' <= Z.of_nat (length p).
Proof.
  intros Hp Ho. unfold rd_str, rd_u32. destruct (rd_bytes p o 4) as [[b o1]|] eqn:E1; [|done]. cbn [mbind option_bind].
  assert (Bb : bytes_ok b).
  { unfold rd_bytes in E1. destruct (slice p o 4) as [x|] eqn:Es; [|done]. apply bytes_ok_slice in Es; [|done].
    apply (inj Some) in E1. by apply pair_equal_spec in E1 as [<- _]. }
  destruct (rd_bytes_inv p o 4 b o1 Ho ltac:(lia) E1) as (R1 & L1 & -> & _).
  pose proof (from_le_range b Bb) as Rg. rewrite L1 in Rg.
  destruct (rd_bytes p (o + 4) (from_le b)) as [[x o2]|] eqn:E2; [|done]. cbn [mbind option_bind].
  destruct (rd_bytes_inv p (o + 4) (from_le b) x o2 ltac:(lia) ltac:(lia) E2) as (R2 & L2 & -> & L3).
  destruct (utf8_valid x) eqn:V; [|done]. intros Es. apply (inj Some) in Es. apply pair_equal_spec in Es as [<- <-].
  split; [|split; [split; [done|lia]|lia]]. rewrite R1, R2. unfold str_wire. rewrite L2, <-app_assoc. f_equal.
  replace 4%nat with (length b) by lia. symmetry. by apply to_from_le.
Qed.

Lemma last_u64_inv p o t :
  bytes_ok p -> 0 <= o <= Z.of_nat (length p) -> last_u64 p o = Some t ->
  u64_range t /\ exists slack, rest_at p o = slack ++ to_le 8 t.
Proof.
  intros Hp Ho. unfold last_u64, checked_sub. destruct (Z.leb_spec 8 (Z.of_nat (length p))) as [H8|]; [|done].
  cbn [mbind option_bind]. destruct (Z.ltb_spec (Z.of_nat (length p) - 8) o) as [|Hs]; [done|].
  intros Et. apply (inj Some) in Et. subst t. set (k := Z.to_nat (Z.of_nat (length p) - 8)).
  assert (Bk : bytes_ok (drop k p)) by (by apply Forall_drop).
  assert (Lk : length (drop k p) = 8%nat) by (rewrite length_drop; lia).
  split; [pose proof (from_le_range _ Bk) as R; by rewrite Lk in R|].
  exists (take (k - Z.to_nat o) (drop (Z.to_nat o) p)). rewrite <-Lk at 1. rewrite to_from_le by done. unfold rest_at.
  rewrite <-(take_drop (k - Z.to_nat o) (drop (Z.to_nat o) p)) at 1. f_equal. rewrite drop_drop. f_equal. lia.
Qed.

(** * The parser on a split payload *)

Definition parse_body (body sig : bytes) : option DidOp :=
  if bool_decide (take 4 body = string_bytes "DCRT") then
    '(did, o) ← rd_str body 4;
    '(pubkey, o) ← rd_bytes body o (Z.of_nat PUBKEY_BYTES);
    '(csm_address, o) ← rd_str body o;
    '(document, o) ← rd_str body o;
    '(ts, o) ← rd_bytes body o 8;
    Some (Create pubkey did csm_address document (from_le ts) sig)
  else if bool_decide (take 4 body = string_bytes "DUPD") then
    '(did, o) ← rd_str body 4;
    '(document, o) ← rd_str body o;
    timestamp ← last_u64 body o;
    Some (Update did document timestamp sig)
  else if bool_decide (take 4 body = string_bytes "DDEC") then
    '(did, o) ← rd_str body 4;
    timestamp ← last_u64 body o;
    Some (Deactivate did timestamp sig)
  else None.

Lemma parse_split body sig :
  (4 <= length body)%nat -> parse_did_op (body ++ sig) (length sig) = parse_body body sig.
Proof.
  intros L. unfold parse_did_op. rewrite length_app.
  destruct (Nat.ltb_spec (length body + length sig) (4 + length sig)); [lia|].
  replace (length body + length sig - length sig)%nat with (length body) by lia.
  by rewrite take_app_length, drop_app_length.
Qed.

Lemma at_rest_tag (tag rest : bytes) : length tag = 4%nat -> at_rest (tag ++ rest) 4 rest.
Proof.
  intros L. split; [rewrite length_app; lia|]. unfold rest_at. change (Z.to_nat 4) with 4%nat. rewrite <-L. apply drop_app_length.
Qed.

Lemma parse_body_complete op n slack :
  op_wf n op -> exists body sig, did_wire slack op = body ++ sig /\ length sig = n /\ (4 <= length body)%nat /\
    parse_body body sig = Some op.
Proof.
  destruct op as [pk d a doc ts sig|d doc ts sig|d ts sig]; cbn [op_wf did_wire].
  - intros (Hpk & Hd & Ha & Hdoc & Hts & Hsig).
    exists (string_bytes "DCRT" ++ str_wire d ++ pk ++ str_wire a ++ str_wire doc ++ to_le 8 ts ++ slack), sig.
    split; [by rewrite <-!app_assoc|]. split; [done|]. split; [rewrite length_app; simpl; lia|]. unfold parse_body.
    rewrite bool_decide_eq_true_2 by done.
    pose proof (at_rest_tag (string_bytes "DCRT") (str_wire d ++ pk ++ str_wire a ++ str_wire doc ++ to_le 8 ts ++ slack) eq_refl) as H0.
    destruct (rd_str_at _ _ _ _ H0 Hd) as (o1 & -> & H1). cbn [mbind option_bind].
    destruct (rd_bytes_at _ _ (Z.of_nat PUBKEY_BYTES) _ _ H1) as (o2 & -> & H2); [by rewrite Hpk|]. cbn [mbind option_bind].
    destruct (rd_str_at _ _ _ _ H2 Ha) as (o3 & -> & H3). cbn [mbind option_bind].
    destruct (rd_str_at _ _ _ _ H3 Hdoc) as (o4 & -> & H4). cbn [mbind option_bind].
    destruct (rd_bytes_at _ _ 8 _ _ H4) as (o5 & -> & H5); [by rewrite length_to_le|]. cbn [mbind option_bind].
    by rewrite (from_to_le_small 8).
  - intros (Hd & Hdoc & Hts & Hsig).
    exists (string_bytes "DUPD" ++ str_wire d ++ str_wire doc ++ slack ++ to_le 8 ts), sig.
    split; [by rewrite <-!app_assoc|]. split; [done|]. split; [rewrite length_app; simpl; lia|]. unfold parse_body.
    rewrite bool_decide_eq_false_2, bool_decide_eq_true_2 by done.
    pose proof (at_rest_tag (string_bytes "DUPD") (str_wire d ++ str_wire doc ++ slack ++ to_le 8 ts) eq_refl) as H0.
    destruct (rd_str_at _ _ _ _ H0 Hd) as (o1 & -> & H1). cbn [mbind option_bind].
    destruct (rd_str_at _ _ _ _ H1 Hdoc) as (o2 & -> & H2). cbn [mbind option_bind].
    by rewrite (last_u64_at _ _ _ _ H2 Hts).
  - intros (Hd & Hts & Hsig).
    exists (string_bytes "DDEC" ++ str_wire d ++ slack ++ to_le 8 ts), sig.
    split; [by rewrite <-!app_assoc|]. split; [done|]. split; [rewrite length_app; simpl; lia|]. unfold parse_body.
    rewrite !bool_decide_eq_false_2, bool_decide_eq_true_2 by done.
    pose proof (at_rest_tag (string_bytes "DDEC") (str_wire d ++ slack ++ to_le 8 ts) eq_refl) as H0.
    destruct (rd_str_at _ _ _ _ H0 Hd) as (o1 & -> & H1). cbn [mbind option_bind].
    by rewrite (last_u64_at _ _ _ _ H1 Hts).
Qed.

Lemma tagged (body tag : bytes) : take 4 body = tag -> body = tag ++ rest_at body 4.
Proof. intros <-. unfold rest_at. symmetry. apply take_drop. Qed.

Lemma parse_body_sound body sig op :
  bytes_ok body -> parse_body body sig = Some op ->
  op_wf (length sig) op /\ exists slack, body ++ sig = did_wire slack op.
Proof.
  intros Hb. unfold parse_body. case_bool_decide as E0; [|case_bool_decide as E1; [|case_bool_decide as E2; [|done]]].
  - destruct (rd_str body 4) as [[d o1]|] eqn:R1; [|done]. cbn [mbind option_bind].
    apply rd_str_inv in R1 as (W1 & F1 & L1); [|done|lia].
    destruct (rd_bytes body o1 _) as [[pk o2]|] eqn:R2; [|done]. cbn [mbind option_bind].
    apply rd_bytes_inv in R2 as (W2 & F2 & -> & L2); [|lia|lia].
    destruct (rd_str body _) as [[a o3]|] eqn:R3; [|done]. cbn [mbind option_bind].
    apply rd_str_inv in R3 as (W3 & F3 & L3); [|done|lia].
    destruct (rd_str body o3) as [[doc o4]|] eqn:R4; [|done]. cbn [mbind option_bind].
    apply rd_str_inv in R4 as (W4 & F4 & L4); [|done|lia].
    destruct (rd_bytes body o4 8) as [[ts o5]|] eqn:R5; [|done]. cbn [mbind option_bind].
    apply rd_bytes_inv in R5 as (W5 & F5 & -> & L5); [|lia|lia]. intros Eo. apply (inj Some) in Eo. subst op.
    assert (Bt : bytes_ok ts).
    { assert (Br : bytes_ok (rest_at body o4)) by (by apply Forall_drop). rewrite W5 in Br. by apply Forall_app in Br as [? _]. }
    pose proof (from_le_range ts Bt) as Rt. rewrite F5 in Rt.
    split; [cbn [op_wf]; split_and!; try done; lia|].
    exists (rest_at body (o4 + 8)). cbn [did_wire]. rewrite (tagged body _ E0) at 1.
    rewrite W1, W2, W3, W4, W5, <-!app_assoc. do 5 f_equal.
    replace 8%nat with (length ts) by lia. by rewrite to_from_le.
  - destruct (rd_str body 4) as [[d o1]|] eqn:R1; [|done]. cbn [mbind option_bind].
    apply rd_str_inv in R1 as (W1 & F1 & L1); [|done|lia].
    destruct (rd_str body o1) as [[doc o2]|] eqn:R2; [|done]. cbn [mbind option_bind].
    apply rd_str_inv in R2 as (W2 & F2 & L2); [|done|lia].
    destruct (last_u64 body o2) as [t|] eqn:R3; [|done]. cbn [mbind option_bind].
    apply last_u64_inv in R3 as (F3 & slack & W3); [|done|done]. intros Eo. apply (inj Some) in Eo. subst op.
    split; [exact (conj F1 (conj F2 (conj F3 eq_refl)))|]. exists slack. cbn [did_wire]. rewrite (tagged body _ E1) at 1.
    by rewrite W1, W2, W3, <-!app_assoc.
  - destruct (rd_str body 4) as [[d o1]|] eqn:R1; [|done]. cbn [mbind option_bind].
    apply rd_str_inv in R1 as (W1 & F1 & L1); [|done|lia].
    destruct (last_u64 body o1) as [t|] eqn:R3; [|done]. cbn [mbind option_bind].
    apply last_u64_inv in R3 as (F3 & slack & W3); [|done|done]. intros Eo. apply (inj Some) in Eo. subst op.
    split; [exact (conj F1 (conj F3 eq_refl))|]. exists slack. cbn [did_wire]. rewrite (tagged body _ E2) at 1.
    by rewrite W1, W3, <-!app_assoc.
Qed.

(** [parse_did_op] accepts exactly the payloads of well-formed operations: the tag, the
    length-prefixed UTF-8 strings, the key and timestamp, and the signature in the last
    [sig_size] bytes, with skipped bytes only after the timestamp of a creation and before
    that of the others. *)
Theorem did_codec_exact (payload : bytes) (sig_size : nat) (op : DidOp) :
  bytes_ok payload ->
  parse_did_op payload sig_size = Some op <-> op_wf sig_size op /\ exists slack, payload = did_wire slack op.
Proof.
  intros Hp. split.
  - intros E. assert (L : (4 + sig_size <= length payload)%nat).
    { unfold parse_did_op in E. destruct (Nat.ltb_spec (length payload) (4 + sig_size)); [done|lia]. }
    set (k := (length payload - sig_size)%nat).
    assert (Ls : length (drop k payload) = sig_size) by (rewrite length_drop; lia).
    rewrite <-(take_drop k payload), <-Ls, parse_split in E by (rewrite length_take; lia).
    apply parse_body_sound in E; [|by apply Forall_take]. by rewrite take_drop, Ls in E.
  - intros [Hw [slack ->]]. destruct (parse_body_complete op sig_size slack Hw) as (body & sig & -> & <- & L & E).
    by rewrite parse_split.
Qed.

Lemma did_codec_exact_witness :
  parse_did_op (string_bytes "DDEC" ++ [3; 0; 0; 0; 97; 98; 99] ++ [42] ++ to_le 8 9 ++ [5; 6]) 2 =
    Some (Deactivate (string_bytes "abc") 9 [5; 6]).
Proof.
  apply (did_codec_exact (string_bytes "DDEC" ++ [3; 0; 0; 0; 97; 98; 99] ++ [42] ++ to_le 8 9 ++ [5; 6]) 2).
  - apply (bool_decide_unpack _). by vm_compute.
  - split; [by repeat split|]. by exists [42].
Defined.
