(* ===== verification/StateStores.v ===== *)
(** The content-addressed stores behind the state commitment
    (consensus/src/model/stores/{smt_nodes,account_states,did_states,account_roots}.rs).

    Each is a [CachedDbAccess] with keys of 32 bytes. The class [Table] is what they use
    of it and [TableLaws] that it is a map; the instances are a map and the cached
    database of Access.v. A read may fill the cache, which later results do not show, so
    [table_read] is a function of the state. *)

From S2P Require Import Prelude Smt SmtTree SmtCorrect Cache Access Tx Account Did.

(** * Tables *)

Class Table (D V : Type) := {
  table_read : D -> bytes -> result StoreError V;
  (** [access.write] with a [DirectDbWriter] *)
  table_write : bytes -> V -> st D StoreError ();
  (** [access.write] (with a value) and [access.delete] with a [BatchDbWriter] on a fresh
      batch, then [db.write] of the batch *)
  table_batch : list (bytes * option V) -> st D StoreError ();
}.

Definition apply_change {V} (m : gmap bytes V) (e : bytes * option V) : gmap bytes V :=
  match e.2 with Some v => <[e.1 := v]> m | None => delete e.1 m end.

Class TableLaws (D V : Type) `{Table D V} := {
  table_rep : D -> gmap bytes V -> Prop;
  table_read_law d m k : table_rep d m ->
    match m !! k with
    | Some v => table_read d k = Ok v
    | None => exists k', table_read d k = Err (KeyNotFound k')
    end;
  table_write_law d m k v : table_rep d m ->
    exists d', table_write k v d = (d', Ok tt) /\ table_rep d' (<[k := v]> m);
  table_batch_law d m es : table_rep d m ->
    exists d', table_batch es d = (d', Ok tt) /\ table_rep d' (foldl apply_change m es);
}.

#[export] Instance map_table {V} : Table (gmap bytes V) V := {
  table_read m k := match m !! k with Some v => Ok v | None => Err (KeyNotFound k) end;
  table_write k v m := (<[k := v]> m, Ok tt);
  table_batch es m := (foldl apply_change m es, Ok tt);
}.

#[export] Program Instance map_table_laws {V} : TableLaws (gmap bytes V) V := {
  table_rep d m := d = m;
}.
Next Obligation. intros V d m k ->. simpl. destruct (m !! k); eauto. Qed.
Next Obligation. intros V d m k v ->. by eexists. Qed.
Next Obligation. intros V d m es ->. by eexists. Qed.

(** ** The cached database is a table *)

Section cached.
Context {V D : Type} `{RocksDbLaws D}.
Context (serialize : V -> result StoreError bytes) (deserialize : bytes -> result StoreError V).
Context (bincode : forall v, exists bs, serialize v = Ok bs /\ deserialize bs = Ok v).
Context (gen_range : nat -> nat -> nat).
Context (gen_range_lt : forall i n, (0 < n)%nat -> (gen_range i n < n)%nat).
Context (estimate_size : MemMode -> V -> Z) (size_nonneg : forall mode v, 0 <= estimate_size mode v).
Context (cache_size : Z) (cache_size_pos : 0 <= cache_size) (prefix : bytes).

Abbreviation policy := (policy_from (Count cache_size)).
Abbreviation cached := (Inner bytes V * D)%type.

Definition batch_change (e : bytes * option V) : st (Inner bytes V * WriteBatch) StoreError () :=
  match e.2 with
  | Some v => access_write id serialize gen_range estimate_size policy prefix e.1 v
  | None => access_delete id estimate_size policy prefix e.1
  end.

Fixpoint batch_changes (es : list (bytes * option V)) : st (Inner bytes V * WriteBatch) StoreError () :=
  match es with [] => mret tt | e :: es' => _ ← batch_change e; batch_changes es' end.

Definition cached_table : Table cached V := {|
  table_read s k := (access_read id deserialize gen_range estimate_size policy prefix s.2 k s.1).2;
  table_write := access_write id serialize gen_range estimate_size policy prefix;
  table_batch es := fun '(c, d) =>
    match batch_changes es (c, []) with
    | ((c', b), Ok _) => let '(d', r) := db_write b d in ((c', d'), r)
    | ((c', _), Err e) => ((c', d), Err e)
    end;
|}.

Definition cached_rep (s : cached) (m : gmap bytes V) : Prop :=
  direct_rep id deserialize estimate_size policy prefix s.1 s.2 m.

Lemma count_fits v (c : Inner bytes V) : fits estimate_size policy v c.
Proof. done. Qed.

Lemma cached_read s m k :
  cached_rep s m ->
  match m !! k with
  | Some v => table_read (Table := cached_table) s k = Ok v
  | None => exists k', table_read (Table := cached_table) s k = Err (KeyNotFound k')
  end.
Proof.
  intros Hr. destruct (direct_read id deserialize gen_range gen_range_lt estimate_size size_nonneg
    policy cache_size_pos (Z.le_refl 0) prefix s.1 s.2 m k Hr) as (c' & E & _); [done|].
  cbn [table_read cached_table]. rewrite E. destruct (m !! k); simpl; eauto.
Qed.

Lemma cached_write s m k v :
  cached_rep s m -> exists s', table_write (Table := cached_table) k v s = (s', Ok tt) /\ cached_rep s' (<[k := v]> m).
Proof.
  intros Hr. destruct s as [c d].
  destruct (direct_write id serialize deserialize bincode gen_range gen_range_lt estimate_size size_nonneg
    policy cache_size_pos (Z.le_refl 0) prefix c d m k v Hr) as (c' & d' & E & R); [done|]. by exists (c', d').
Qed.

(** A batch of changes in progress: the cache holds a part of [m], to which the batch
    takes the database. *)
Definition staged (d : D) (s : Inner bytes V * WriteBatch) (m : gmap bytes V) : Prop :=
  cache_wf estimate_size policy s.1 /\ contents s.1 ⊆ m /\
  rows id deserialize prefix (foldl apply_op (db_view d) s.2) m.

Lemma batch_change_staged d s m e :
  staged d s m -> exists s', batch_change e s = (s', Ok tt) /\ staged d s' (apply_change m e).
Proof.
  intros (Hw & Hc & Hr). destruct s as [c b], e as [k [v|]]; simpl in *.
  - destruct (bincode v) as (bs & Hs & Hd). unfold batch_change, access_write, lift, on_cache, on_writer, mbind, st_bind.
    cbn [fst snd]. rewrite Hs. cbn. eexists. split; [done|].
    destruct (write_cache gen_range gen_range_lt estimate_size size_nonneg policy cache_size_pos (Z.le_refl 0) c k v m)
      as [W1 W2]; [done..|].
    split; [done|]. split; [done|]. cbn [snd]. rewrite foldl_app. cbn [foldl apply_op]. by apply (rows_insert id deserialize).
  - unfold batch_change, access_delete, on_cache, on_writer, mbind, st_bind. cbn [fst snd].
    destruct (cache_remove_spec estimate_size size_nonneg policy k c) as (W1 & W2 & _); [done..|].
    eexists. split; [reflexivity|]. split; [exact W1|]. cbn [fst snd]. split; [rewrite W2; by apply delete_mono|]. rewrite foldl_app. cbn [foldl apply_op]. by apply (rows_delete id deserialize).
Qed.

Lemma batch_changes_staged d s m es :
  staged d s m -> exists s', batch_changes es s = (s', Ok tt) /\ staged d s' (foldl apply_change m es).
Proof.
  revert s m. induction es as [|e es IH]; intros s m Hs; [by exists s|]. cbn [batch_changes foldl].
  destruct (batch_change_staged d s m e Hs) as (s1 & E1 & H1). rewrite (st_bind_run _ _ _ _ _ E1). by apply IH.
Qed.

Lemma cached_batch s m es :
  cached_rep s m ->
  exists s', table_batch (Table := cached_table) es s = (s', Ok tt) /\ cached_rep s' (foldl apply_change m es).
Proof.
  destruct s as [c d]. intros (Hw & Hc & Hr).
  destruct (batch_changes_staged d (c, []) m es) as ([c' b] & E & (Hw' & Hc' & Hr')); [by split_and!|].
  destruct (db_write_view d b) as (d' & Ed & Hv). cbn [table_batch cached_table]. rewrite E, Ed.
  exists (c', d'). split; [done|]. split; [done|]. split; [done|]. cbn [snd]. by rewrite Hv.
Qed.

Definition cached_table_laws : TableLaws cached V (H := cached_table) :=
  {| table_rep := cached_rep; table_read_law := cached_read; table_write_law := cached_write;
     table_batch_law := cached_batch |}.

End cached.

(** * smt_nodes.rs *)

Section nodes.
Context (hash_iter : list Z -> felt4) {D : Type} `{Table D bytes}.

Record DbSmtNodeStore := { mem_pool : gmap H256 Node; node_table : D }.

Definition mem_put (hash : H256) (node : Node) (s : DbSmtNodeStore) : DbSmtNodeStore :=
  {| mem_pool := <[hash := node]> (mem_pool s); node_table := node_table s |}.
Definition mem_get (s : DbSmtNodeStore) (hash : H256) : option Node := mem_pool s !! hash.
Definition mem_clear (s : DbSmtNodeStore) : DbSmtNodeStore := {| mem_pool := ∅; node_table := node_table s |}.
Definition mem_len (s : DbSmtNodeStore) : nat := size (mem_pool s).

Definition insert_sync (hash : H256) (node : Node) : st DbSmtNodeStore StoreError () :=
  fun s =>
    let s := mem_put hash node s in
    let '(t, r) := table_write hash (encode node) (node_table s) in
    ({| mem_pool := mem_pool s; node_table := t |}, r).

Fixpoint insert_sync_many (nodes : list (H256 * Node)) : st DbSmtNodeStore StoreError () :=
  match nodes with
  | [] => mret tt
  | (h, n) :: nodes' => _ ← insert_sync h n; insert_sync_many nodes'
  end.

(** [DbSmtNodeStore::delete_many_sync]. *)
Definition delete_nodes_sync (hashes : list H256) : st DbSmtNodeStore StoreError () :=
  fun s =>
    if bool_decide (hashes = []) then (s, Ok tt)
    else match table_batch (map (fun h => (h, None)) hashes) (node_table s) with
         | (t, Err e) => ({| mem_pool := mem_pool s; node_table := t |}, Err e)
         | (t, Ok _) => ({| mem_pool := foldl (fun p h => delete h p) (mem_pool s) hashes; node_table := t |}, Ok tt)
         end.

(** [SmtNodeStoreReader::get]. *)
Definition smt_nodes_get (s : DbSmtNodeStore) (hash : H256) : result StoreError (option Node) :=
  match mem_get s hash with
  | Some n => Ok (Some n)
  | None => match table_read (node_table s) hash with
            | Ok bytes => Ok (decode bytes)
            | Err (KeyNotFound _) => Ok None
            | Err e => Err e
            end
  end.

(** [DbSmtNodeStoreBase::get]. *)
Definition base_get (s : DbSmtNodeStore) (hash : H256) : option Node :=
  match mem_get s hash with
  | Some n => Some n
  | None => match smt_nodes_get s hash with Ok o => o | Err _ => None end
  end.

(** [DbSmtNodeStoreBase] as a [NodeStore]. Its [put] is [unreachable!]: an [OverlayStore]
    over it keeps every node to itself and never calls it. *)
#[export] Instance db_smt_node_base : NodeStore DbSmtNodeStore := {
  store_get := base_get;
  store_put n s := (s, hash hash_iter n);
}.

End nodes.
Arguments DbSmtNodeStore : clear implicits.

(** * account_states.rs, did_states.rs, account_roots.rs *)

Section snapshots.
Context {D V : Type} `{Table D V}.

(** [insert_sync] of [DbAccountStatesStore] and [DbDidStatesStore]. *)
Definition snapshot_insert_sync (state_hash : bytes) (state : V) : st D StoreError () :=
  table_batch [(state_hash, Some state)].

(** [delete_many_sync] of the three stores. *)
Definition delete_many_sync (hashes : list bytes) : st D StoreError () :=
  if bool_decide (hashes = []) then mret tt else table_batch (map (fun h => (h, None)) hashes).

(** [DbAccountStatesStore::get], [DbDidStatesStore::get]. *)
Definition snapshot_get (d : D) (state_hash : bytes) : result StoreError V := table_read d state_hash.

End snapshots.

Definition get_did_state {D} `{Table D DidDocument} (d : D) (hash : bytes) : result StoreError (option DidDocument) :=
  match snapshot_get d hash with
  | Ok doc => Ok (Some doc)
  | Err (KeyNotFound _) => Ok None
  | Err e => Err e
  end.

Definition root_insert_sync {D} `{Table D bytes} (block_hash : bytes) (root : H256) : st D StoreError () :=
  table_write block_hash root.

(** [DbAccountRootsStore::get]; [try_into] to 32 bytes panics on another length. *)
Definition root_get {D} `{Table D bytes} (d : D) (block_hash : bytes) : result (fault StoreError) H256 :=
  match table_read d block_hash with
  | Err e => Err (Error e)
  | Ok bs => if decide (length bs = 32%nat) then Ok bs else Err Panic
  end.
