(* ===== verification/Uint.v ===== *)
(** Fixed-width large integers (math/src/uint.rs, the macro [construct_uint]):
    little-endian arrays of 64-bit limbs with carry propagation, shifts, schoolbook
    multiplication and bitwise long division; and what each routine computes on the
    integer [val] the limbs stand for. An instance with [n] words is a list of [n]
    limbs ([Uint192], [Uint256] and [Uint320] of math/src/lib.rs have 3, 4 and 5). *)

From S2P Require Import Prelude.

Abbreviation limbs := (list Z).
Abbreviation limbs_ok := (Forall (fun x => u64_range x)).

(** The number the limbs stand for. *)
Fixpoint val (x : limbs) : Z :=
  match x with [] => 0 | d :: x' => d + 2 ^ 64 * val x' end.

(** [u64] operations with their carries. *)
Definition overflowing_add_u (a b : Z) : Z * bool := (wadd64 a b, 2 ^ 64 <=? a + b).
Definition overflowing_sub_u (a b : Z) : Z * bool := (wsub64 a b, a <? b).
Definition shl64 (a s : Z) : Z := wrap 64 (Z.shiftl a s).

Definition uint_zero (n : nat) : limbs := replicate n 0.
Definition uint_max (n : nat) : limbs := replicate n U64_MAX.
Definition uint_from_u64 (n : nat) (x : Z) : limbs := x :: replicate (n - 1) 0.
Definition uint_as_u64 (x : limbs) : Z := x !!! 0%nat.
Definition uint_is_zero (x : limbs) : bool := forallb (fun a => a =? 0) x.

(** [u64::leading_zeros] *)
Definition leading_zeros64 (w : Z) : Z := if w =? 0 then 64 else 63 - Z.log2 w.

(** The search from the most significant limb; [bits_from i x] has [i] limbs below [x]. *)
Fixpoint bits_from (i : Z) (x : limbs) : Z :=
  match x with
  | [] => 0
  | word :: x' =>
      let above := bits_from (i + 1) x' in
      if negb (above =? 0) then above
      else if negb (word =? 0) then 64 * (i + 1) - leading_zeros64 word
      else 0
  end.

Definition uint_bits (x : limbs) : Z := bits_from 0 x.

Definition overflowing_shl (x : limbs) (s : Z) : limbs * bool :=
  let n := length x in
  let BITS := 64 * Z.of_nat n in
  let overflows := BITS <=? s in
  let s := s mod BITS in
  let left_words := Z.to_nat (s / 64) in
  let left_shifts := s mod 64 in
  let word i :=
    if (i <? left_words)%nat then 0
    else
      let w := shl64 (x !!! (i - left_words)%nat) left_shifts in
      if (0 <? left_shifts) && (left_words + 1 <=? i)%nat
      then Z.lor w (Z.shiftr (x !!! (i - 1 - left_words)%nat) (64 - left_shifts))
      else w in
  (map word (seq 0 n), overflows).

Definition overflowing_shr (x : limbs) (s : Z) : limbs * bool :=
  let n := length x in
  let BITS := 64 * Z.of_nat n in
  let overflows := BITS <=? s in
  let s := s mod BITS in
  let left_words := Z.to_nat (s / 64) in
  let left_shifts := s mod 64 in
  let word i :=
    if (n <=? i + left_words)%nat then 0
    else
      let w := Z.shiftr (x !!! (i + left_words)%nat) left_shifts in
      if (0 <? left_shifts) && (i + left_words + 1 <? n)%nat
      then Z.lor w (shl64 (x !!! (i + left_words + 1)%nat) (64 - left_shifts))
      else w in
  (map word (seq 0 n), overflows).

(** [carrying_add_u64] and [borrowing_sub_u64] *)
Definition carrying_add_u64 (lhs rhs : Z) (carry : bool) : Z * bool :=
  let '(a, b) := overflowing_add_u lhs rhs in
  let '(c, d) := overflowing_add_u a (Z.b2z carry) in
  (c, xorb b d).

Definition borrowing_sub_u64 (lhs rhs : Z) (borrow : bool) : Z * bool :=
  let '(a, b) := overflowing_sub_u lhs rhs in
  let '(c, d) := overflowing_sub_u a (Z.b2z borrow) in
  (c, xorb b d).

Fixpoint limb_loop (f : Z -> Z -> bool -> Z * bool) (x y : limbs) (carry : bool) : limbs * bool :=
  match x, y with
  | a :: x', b :: y' =>
      let '(c, carry_out) := f a b carry in
      let '(r, carry') := limb_loop f x' y' carry_out in
      (c :: r, carry')
  | _, _ => ([], carry)
  end.

Definition overflowing_add (x y : limbs) : limbs * bool := limb_loop carrying_add_u64 x y false.
Definition overflowing_sub (x y : limbs) : limbs * bool := limb_loop borrowing_sub_u64 x y false.

(** The loop of [overflowing_add_u64] after the first limb. *)
Fixpoint propagate_carry (x : limbs) (carry : bool) : limbs * bool :=
  match x with
  | [] => ([], carry)
  | a :: x' =>
      if carry then
        let '(c, carry') := overflowing_add_u a 1 in
        let '(r, carry'') := propagate_carry x' carry' in
        (c :: r, carry'')
      else (x, false)
  end.

Definition overflowing_add_u64 (x : limbs) (other : Z) : limbs * bool :=
  match x with
  | [] => ([], false)
  | a :: x' =>
      let '(c, carry) := overflowing_add_u a other in
      let '(r, carry') := propagate_carry x' carry in
      (c :: r, carry')
  end.

Definition uint_saturating_sub (x y : limbs) : limbs :=
  let '(sum, carry) := overflowing_sub x y in if carry : bool then uint_zero (length x) else sum.
Definition uint_saturating_add (x y : limbs) : limbs :=
  let '(sum, carry) := overflowing_add x y in if carry : bool then uint_max (length x) else sum.

(** The [u128] [carry] is kept below [2 ^ 64] by the mask. *)
Fixpoint carrying_mul_loop (x : limbs) (other carry : Z) : limbs * Z :=
  match x with
  | [] => ([], wrap 64 carry)
  | a :: x' =>
      let n := wrap 128 (carry + other * a) in
      let '(r, carry') := carrying_mul_loop x' other (Z.land (Z.shiftr n 64) U64_MAX) in
      (wrap 64 n :: r, carry')
  end.

Definition carrying_mul_u64 (x : limbs) (other : Z) : limbs * Z := carrying_mul_loop x other 0.

Definition overflowing_mul_u64 (x : limbs) (other : Z) : limbs * bool :=
  let '(this, carry) := carrying_mul_u64 x other in (this, negb (carry =? 0)).

(** One row of the schoolbook multiplication: [result] are the limbs from [j] on. *)
Fixpoint mul_row (x : limbs) (y : Z) (result : limbs) (carry : Z) : limbs * Z :=
  match x, result with
  | a :: x', r :: result' =>
      let n := wrap 128 (a * y + r + carry) in
      let '(row, carry') := mul_row x' y result' (wrap 64 (Z.shiftr n 64)) in
      (wrap 64 n :: row, carry')
  | _, _ => ([], carry)
  end.

(** The rows [j], [j + 1], ... of [y]. *)
Fixpoint mul_rows (x y : limbs) (result : limbs) (carry_out : bool) : limbs * bool :=
  match y with
  | [] => (result, carry_out)
  | b :: y' =>
      let '(row, carry) := mul_row x b result 0 in
      let carry_out := carry_out || negb (carry =? 0) in
      match row with
      | [] => ([], carry_out)
      | r :: row' => let '(rest, co) := mul_rows x y' row' carry_out in (r :: rest, co)
      end
  end.

Definition overflowing_mul (x y : limbs) : limbs * bool := mul_rows x y (uint_zero (length x)) false.

(** From the most significant limb down; returns the quotient limbs and the remainder. *)
Fixpoint div_rem_limbs (x : limbs) (other : Z) : limbs * Z :=
  match x with
  | [] => ([], 0)
  | d :: x' =>
      let '(q, rem) := div_rem_limbs x' other in
      let n := Z.lor (Z.shiftl rem 64) d in
      (wrap 64 (n / other) :: q, wrap 64 (n mod other))
  end.

(** [None] is the panic on a division by zero. *)
Definition div_rem_u64 (x : limbs) (other : Z) : option (limbs * Z) :=
  if other =? 0 then None else Some (div_rem_limbs x other).

(** [Iterator::cmp] over the limbs from the most significant one. *)
Fixpoint uint_cmp (x y : limbs) : comparison :=
  match x, y with
  | a :: x', b :: y' =>
      match uint_cmp x' y' with Eq => Z.compare a b | c => c end
  | [], [] => Eq
  | [], _ :: _ => Lt
  | _ :: _, [] => Gt
  end.

Definition uint_leb (x y : limbs) : bool := match uint_cmp x y with Gt => false | _ => true end.

(** The operators: overflow is only checked by a debug assertion. *)
Definition uint_add (x y : limbs) : limbs := (overflowing_add x y).1.
Definition uint_add_u64 (x : limbs) (y : Z) : limbs := (overflowing_add_u64 x y).1.
Definition uint_sub (x y : limbs) : limbs := (overflowing_sub x y).1.
Definition uint_mul (x y : limbs) : limbs := (overflowing_mul x y).1.
Definition uint_mul_u64 (x : limbs) (y : Z) : limbs := (overflowing_mul_u64 x y).1.
Definition uint_shl (x : limbs) (s : Z) : limbs := (overflowing_shl x s).1.
Definition uint_shr (x : limbs) (s : Z) : limbs := (overflowing_shr x s).1.
Definition uint_not (x : limbs) : limbs := map (fun a => U64_MAX - a) x.
Definition uint_sum (n : nat) (l : list limbs) : limbs :=
  match l with [] => uint_zero n | first :: l' => foldl uint_add first l' end.

(** The loop of [div_rem]; [shift] counts down to 0. *)
Fixpoint div_loop (shift : nat) (sub_copy shift_copy ret : limbs) : limbs * limbs :=
  let '(sub_copy, ret) :=
    if uint_leb shift_copy sub_copy then
      let shift_index := (shift / 64)%nat in
      let shift_val := Z.of_nat (shift mod 64) in
      (uint_sub sub_copy shift_copy, alter (fun w => Z.lor w (shl64 1 shift_val)) shift_index ret)
    else (sub_copy, ret) in
  let shift_copy := uint_shr shift_copy 1 in
  match shift with
  | O => (ret, sub_copy)
  | S shift' => div_loop shift' sub_copy shift_copy ret
  end.

(** [None] is the panic on a division by zero. *)
Definition div_rem (x y : limbs) : option (limbs * limbs) :=
  let my_bits := uint_bits x in
  let your_bits := uint_bits y in
  if your_bits =? 0 then None
  else if my_bits <? your_bits then Some (uint_zero (length x), x)
  else
    let shift := my_bits - your_bits in
    Some (div_loop (Z.to_nat shift) x (uint_shl y shift) (uint_zero (length x))).

Definition uint_div (x y : limbs) : option limbs := fst <$> div_rem x y.
Definition uint_div_u64 (x : limbs) (y : Z) : option limbs := fst <$> div_rem_u64 x y.

(** Byte strings. *)
Definition uint_from_le_bytes (bs : bytes) : limbs := map from_le (chunks 8 bs).
Definition uint_to_le_bytes (x : limbs) : bytes := concat (map (to_le 8) x).
Definition uint_from_be_bytes (bs : bytes) : limbs := reverse (map from_be (chunks 8 bs)).
Definition uint_to_be_bytes (x : limbs) : bytes := concat (map (fun w => reverse (to_le 8 w)) (reverse x)).

(** Without the leading zeros. *)
Fixpoint skip_zeros (bs : bytes) : bytes :=
  match bs with
  | [] => []
  | b :: bs' => if b =? 0 then skip_zeros bs' else bs
  end.

Definition uint_to_be_bytes_var (x : limbs) : bytes := skip_zeros (uint_to_be_bytes x).

(** [None] is the error on a string of more than [8 * n] bytes. *)
Definition uint_from_be_bytes_var (n : nat) (bs : bytes) : option limbs :=
  if bool_decide (8 * n < length bs)%nat then None
  else Some (uint_from_be_bytes (replicate (8 * n - length bs) 0 ++ bs)).
