(* ===== verification/UintCorrect.v ===== *)
(** What the routines of Uint.v compute on the integers the limbs stand for: addition
    and subtraction modulo [2 ^ BITS] with an exact carry, products, shifts, bit length,
    order, and quotient and remainder of the bitwise long division. *)

From S2P Require Import Prelude Uint.

(** * The value of limbs *)

Abbreviation base n := (2 ^ (64 * Z.of_nat n)).

Lemma base_S n : base (S n) = 2 ^ 64 * base n.
Proof. replace (64 * Z.of_nat (S n)) with (64 + 64 * Z.of_nat n) by lia. apply Z.pow_add_r; lia. Qed.

Lemma base_pos n : 0 < base n.
Proof. apply Z.pow_pos_nonneg; lia. Qed.

Lemma base_add n m : base (n + m) = base n * base m.
Proof. rewrite <- Z.pow_add_r by lia. f_equal. lia. Qed.

Lemma val_range x : limbs_ok x -> 0 <= val x < base (length x).
Proof.
  induction 1 as [|d x Hd Hx IH]; [simpl; lia|]. cbn [val length]. rewrite base_S. nia.
Qed.

Lemma val_app x y : val (x ++ y) = val x + base (length x) * val y.
Proof.
  induction x as [|d x IH]; [change (base (length [])) with 1; simpl; lia|].
  cbn [app val length]. rewrite IH, base_S. ring.
Qed.

Lemma val_zero n : val (uint_zero n) = 0.
Proof. induction n as [|n IH]; [done|]. unfold uint_zero in *. cbn [replicate val]. rewrite IH. lia. Qed.

Lemma uint_zero_ok n : limbs_ok (uint_zero n).
Proof. apply Forall_replicate. lia. Qed.

Lemma val_from_u64 n x : (0 < n)%nat -> val (uint_from_u64 n x) = x.
Proof. intros _. unfold uint_from_u64. cbn [val]. fold (uint_zero (n - 1)). rewrite val_zero. lia. Qed.

Lemma val_inj x y : limbs_ok x -> limbs_ok y -> length x = length y -> val x = val y -> x = y.
Proof.
  intros Hx. revert y. induction Hx as [|a x Ha Hx IH]; intros [|b y] Hy Hl; try done.
  apply Forall_cons in Hy as [Hb Hy]. cbn [val]. intros E. injection Hl as Hl.
  assert (val x = val y) as E' by lia. f_equal; [lia|]. by apply IH.
Qed.

(** The bits of the value are those of the limbs. *)
Lemma testbit_val x i : limbs_ok x -> 0 <= i ->
  Z.testbit (val x) i = Z.testbit (default 0 (x !! Z.to_nat (i / 64))) (i mod 64).
Proof.
  intros Hx. revert i. induction Hx as [|d x Hd Hx IH]; intros i Hi.
  { rewrite lookup_nil. by rewrite !Z.testbit_0_l. }
  cbn [val]. pose proof (val_range x Hx) as [Hv _]. destruct (Z.lt_ge_cases i 64) as [Hlt|Hge].
  - rewrite Z.div_small, Z.mod_small by lia. simpl.
    rewrite <- (Z.mod_pow2_bits_low (d + _) 64) by lia. by rewrite (Z.mul_comm (2 ^ 64)), Z.mod_add, Z.mod_small by lia.
  - replace (i / 64) with ((i - 64) / 64 + 1).
    2:{ replace i with ((i - 64) + 1 * 64) at 2 by lia. rewrite Z.div_add by lia. done. }
    replace (i mod 64) with ((i - 64) mod 64).
    2:{ replace i with ((i - 64) + 1 * 64) at 2 by lia. by rewrite Z.mod_add by lia. }
    assert (0 <= (i - 64) / 64) by (apply Z.div_pos; lia).
    replace (Z.to_nat ((i - 64) / 64 + 1)) with (S (Z.to_nat ((i - 64) / 64))) by lia.
    change ((d :: x) !! S ?k) with (x !! k). rewrite <- IH by lia. replace i with ((i - 64) + 64) at 1 by lia.
    rewrite <- Z.div_pow2_bits by lia. by rewrite (Z.mul_comm (2 ^ 64)), Z.div_add, (Z.div_small d) by lia.
Qed.

Lemma testbit_u64 w i : u64_range w -> 64 <= i -> Z.testbit w i = false.
Proof.
  intros Hw Hi. destruct (decide (w = 0)) as [->|]; [apply Z.testbit_0_l|].
  apply Z.bits_above_log2; [lia|]. apply Z.lt_le_trans with 64; [|done]. apply Z.log2_lt_pow2; lia.
Qed.

Lemma u64_bits w : 0 <= w -> (forall i, 64 <= i -> Z.testbit w i = false) -> u64_range w.
Proof.
  intros H0 Hw. split; [done|]. destruct (decide (w = 0)) as [->|]; [lia|].
  apply Z.log2_lt_pow2; [lia|]. destruct (Z.lt_ge_cases (Z.log2 w) 64) as [|Hge]; [done|].
  specialize (Hw _ Hge). rewrite Z.bit_log2 in Hw by lia. done.
Qed.

(** * Addition and subtraction *)

Lemma carrying_add_u64_spec a b c : u64_range a -> u64_range b ->
  u64_range (carrying_add_u64 a b c).1 /\
  (carrying_add_u64 a b c).1 + 2 ^ 64 * Z.b2z (carrying_add_u64 a b c).2 = a + b + Z.b2z c.
Proof.
  intros Ha Hb. unfold carrying_add_u64, overflowing_add_u. cbn [fst snd]. unfold wadd64.
  pose proof (wrap_range 64 (a + b) ltac:(lia)) as H1. pose proof (wrap_range 64 (wrap 64 (a + b) + Z.b2z c) ltac:(lia)) as H2.
  split; [done|].
  assert (E1 : wrap 64 (a + b) = a + b - 2 ^ 64 * Z.b2z (2 ^ 64 <=? a + b)).
  { destruct (Z.leb_spec (2 ^ 64) (a + b)); cbn [Z.b2z].
    - unfold wrap. symmetry. apply (Z.mod_unique _ _ 1); lia.
    - rewrite wrap_small; lia. }
  set (a' := wrap 64 (a + b)) in *.
  assert (E2 : wrap 64 (a' + Z.b2z c) = a' + Z.b2z c - 2 ^ 64 * Z.b2z (2 ^ 64 <=? a' + Z.b2z c)).
  { assert (0 <= Z.b2z c <= 1) by (destruct c; simpl; lia). destruct (Z.leb_spec (2 ^ 64) (a' + Z.b2z c)); cbn [Z.b2z].
    - unfold wrap. symmetry. apply (Z.mod_unique _ _ 1); lia.
    - rewrite wrap_small; lia. }
  assert (0 <= Z.b2z c <= 1) by (destruct c; simpl; lia).
  destruct (Z.leb_spec (2 ^ 64) (a + b)), (Z.leb_spec (2 ^ 64) (a' + Z.b2z c)); cbn [Z.b2z xorb] in *; lia.
Qed.

Lemma borrowing_sub_u64_spec a b c : u64_range a -> u64_range b ->
  u64_range (borrowing_sub_u64 a b c).1 /\
  (borrowing_sub_u64 a b c).1 - 2 ^ 64 * Z.b2z (borrowing_sub_u64 a b c).2 = a - b - Z.b2z c.
Proof.
  intros Ha Hb. unfold borrowing_sub_u64, overflowing_sub_u. cbn [fst snd]. unfold wsub64.
  pose proof (wrap_range 64 (a - b) ltac:(lia)) as H1. pose proof (wrap_range 64 (wrap 64 (a - b) - Z.b2z c) ltac:(lia)) as H2.
  split; [done|].
  assert (E1 : wrap 64 (a - b) = a - b + 2 ^ 64 * Z.b2z (a <? b)).
  { destruct (Z.ltb_spec a b); cbn [Z.b2z].
    - unfold wrap. symmetry. apply (Z.mod_unique _ _ (-1)); lia.
    - rewrite wrap_small; lia. }
  set (a' := wrap 64 (a - b)) in *. assert (0 <= Z.b2z c <= 1) by (destruct c; simpl; lia).
  assert (E2 : wrap 64 (a' - Z.b2z c) = a' - Z.b2z c + 2 ^ 64 * Z.b2z (a' <? Z.b2z c)).
  { destruct (Z.ltb_spec a' (Z.b2z c)); cbn [Z.b2z].
    - unfold wrap. symmetry. apply (Z.mod_unique _ _ (-1)); lia.
    - rewrite wrap_small; lia. }
  destruct (Z.ltb_spec a b), (Z.ltb_spec a' (Z.b2z c)); cbn [Z.b2z xorb] in *; lia.
Qed.

(** A loop whose step computes [a + sg * (b + carry)] with a signed carry computes the
    same on the values. *)
Lemma limb_loop_spec (sg : Z) f :
  (forall a b c, u64_range a -> u64_range b -> u64_range (f a b c).1 /\
     (f a b c).1 + sg * 2 ^ 64 * Z.b2z (f a b c).2 = a + sg * (b + Z.b2z c)) ->
  forall x y c, limbs_ok x -> limbs_ok y -> length x = length y ->
  limbs_ok (limb_loop f x y c).1 /\ length (limb_loop f x y c).1 = length x /\
  val (limb_loop f x y c).1 + sg * base (length x) * Z.b2z (limb_loop f x y c).2 = val x + sg * (val y + Z.b2z c).
Proof.
  intros Hf x y c Hx. revert y c. induction Hx as [|a x Ha Hx IH]; intros [|b y] c Hy Hl; try done.
  { split; [constructor|]. split; [done|]. simpl. change (base 0) with 1. lia. }
  apply Forall_cons in Hy as [Hb Hy]. injection Hl as Hl. cbn [limb_loop].
  destruct (Hf a b c Ha Hb) as [Hr E]. destruct (f a b c) as [r c1]. cbn [fst snd] in *.
  destruct (IH y c1 Hy Hl) as (Hok & Hlen & E'). destruct (limb_loop f x y c1) as [rs c2]. cbn [fst snd] in *.
  split; [by constructor|]. split; [simpl; lia|]. cbn [val length]. rewrite base_S. nia.
Qed.

Lemma overflowing_add_spec x y : limbs_ok x -> limbs_ok y -> length x = length y ->
  limbs_ok (overflowing_add x y).1 /\ length (overflowing_add x y).1 = length x /\
  val (overflowing_add x y).1 = (val x + val y) mod base (length x) /\
  (overflowing_add x y).2 = (base (length x) <=? val x + val y).
Proof.
  intros Hx Hy Hl. destruct (limb_loop_spec 1 carrying_add_u64) with (x := x) (y := y) (c := false) as (Hok & Hlen & E); try done.
  { intros a b c Ha Hb. destruct (carrying_add_u64_spec a b c Ha Hb) as [? E]. split; [done|]. lia. }
  fold (overflowing_add x y) in *. destruct (overflowing_add x y) as [r c]. cbn [fst snd] in *.
  pose proof (val_range _ Hok) as Hr. pose proof (val_range _ Hx). pose proof (val_range _ Hy). rewrite Hlen, <-Hl in *.
  split_and!; [done..| |].
  - apply (Z.mod_unique _ _ (Z.b2z c)); [left; lia|]. cbn [Z.b2z] in E. lia.
  - cbn [Z.b2z] in E. destruct c; cbn [Z.b2z] in E; symmetry; [apply Z.leb_le|apply Z.leb_gt]; lia.
Qed.

Lemma overflowing_sub_spec x y : limbs_ok x -> limbs_ok y -> length x = length y ->
  limbs_ok (overflowing_sub x y).1 /\ length (overflowing_sub x y).1 = length x /\
  val (overflowing_sub x y).1 = (val x - val y) mod base (length x) /\
  (overflowing_sub x y).2 = (val x <? val y).
Proof.
  intros Hx Hy Hl. destruct (limb_loop_spec (-1) borrowing_sub_u64) with (x := x) (y := y) (c := false) as (Hok & Hlen & E); try done.
  { intros a b c Ha Hb. destruct (borrowing_sub_u64_spec a b c Ha Hb) as [? E]. split; [done|]. lia. }
  fold (overflowing_sub x y) in *. destruct (overflowing_sub x y) as [r c]. cbn [fst snd] in *.
  pose proof (val_range _ Hok) as Hr. pose proof (val_range _ Hx). pose proof (val_range _ Hy). rewrite Hlen, <-Hl in *.
  split_and!; [done..| |].
  - apply (Z.mod_unique _ _ (- Z.b2z c)); [left; lia|]. cbn [Z.b2z] in E. lia.
  - cbn [Z.b2z] in E. destruct c; cbn [Z.b2z] in E; symmetry; [apply Z.ltb_lt|apply Z.ltb_ge]; lia.
Qed.

Lemma overflowing_add_u_spec a b : u64_range a -> u64_range b ->
  u64_range (overflowing_add_u a b).1 /\ (overflowing_add_u a b).1 + 2 ^ 64 * Z.b2z (overflowing_add_u a b).2 = a + b.
Proof.
  intros Ha Hb. unfold overflowing_add_u, wadd64. cbn [fst snd]. split; [apply wrap_range; lia|].
  destruct (Z.leb_spec (2 ^ 64) (a + b)); cbn [Z.b2z].
  - unfold wrap. rewrite <- (Z.mod_unique (a + b) (2 ^ 64) 1 (a + b - 2 ^ 64)); lia.
  - rewrite wrap_small; lia.
Qed.

Lemma propagate_carry_spec x c : limbs_ok x ->
  limbs_ok (propagate_carry x c).1 /\ length (propagate_carry x c).1 = length x /\
  val (propagate_carry x c).1 + base (length x) * Z.b2z (propagate_carry x c).2 = val x + Z.b2z c.
Proof.
  intros Hx. revert c. induction Hx as [|a x Ha Hx IH]; intros c.
  { simpl. change (base 0) with 1. split; [constructor|]. split; [done|lia]. }
  cbn [propagate_carry]. destruct c.
  - destruct (overflowing_add_u_spec a 1 Ha ltac:(lia)) as [Hr E]. destruct (overflowing_add_u a 1) as [r c1]. cbn [fst snd] in *.
    destruct (IH c1) as (Hok & Hlen & E'). destruct (propagate_carry x c1) as [rs c2]. cbn [fst snd] in *.
    split; [by constructor|]. split; [simpl; lia|]. cbn [val length Z.b2z]. rewrite base_S. nia.
  - cbn [fst snd Z.b2z]. split; [by constructor|]. split; [done|lia].
Qed.

Lemma overflowing_add_u64_spec x b : limbs_ok x -> u64_range b -> x <> [] ->
  limbs_ok (overflowing_add_u64 x b).1 /\ length (overflowing_add_u64 x b).1 = length x /\
  val (overflowing_add_u64 x b).1 = (val x + b) mod base (length x) /\
  (overflowing_add_u64 x b).2 = (base (length x) <=? val x + b).
Proof.
  intros Hx Hb Hne. destruct x as [|a x]; [done|]. apply Forall_cons in Hx as [Ha Hx]. unfold overflowing_add_u64.
  destruct (overflowing_add_u_spec a b Ha Hb) as [Hr E]. destruct (overflowing_add_u a b) as [r c1]. cbn [fst snd] in *.
  destruct (propagate_carry_spec x c1 Hx) as (Hok & Hlen & E'). destruct (propagate_carry x c1) as [rs c2]. cbn [fst snd] in *.
  pose proof (val_range _ Hok) as Hv. pose proof (val_range _ Hx) as Hv'. rewrite Hlen in Hv. cbn [val length]. rewrite base_S.
  assert (EE : r + 2 ^ 64 * val rs + 2 ^ 64 * base (length x) * Z.b2z c2 = a + 2 ^ 64 * val x + b) by nia.
  split; [by constructor|]. split; [simpl; lia|]. split.
  - apply (Z.mod_unique _ _ (Z.b2z c2)); [left; nia|lia].
  - destruct c2; cbn [Z.b2z] in EE; symmetry; [apply Z.leb_le|apply Z.leb_gt]; nia.
Qed.

(** * Multiplication *)

Lemma land_mask n : Z.land n U64_MAX = n mod 2 ^ 64.
Proof. unfold U64_MAX. replace (2 ^ 64 - 1) with (Z.ones 64) by done. apply Z.land_ones. lia. Qed.

(** A digit of a product: the low half and the carry. *)
Lemma mul_digit a y r c : u64_range a -> u64_range y -> u64_range r -> u64_range c ->
  let n := wrap 128 (a * y + r + c) in
  u64_range (wrap 64 n) /\ u64_range (wrap 64 (Z.shiftr n 64)) /\ wrap 64 n + 2 ^ 64 * wrap 64 (Z.shiftr n 64) = a * y + r + c.
Proof.
  intros Ha Hy Hr Hc n. assert (0 <= a * y + r + c < 2 ^ 128) as Hn by nia. unfold n. rewrite (wrap_small 128) by lia.
  split; [apply wrap_range; lia|]. split; [apply wrap_range; lia|]. rewrite Z.shiftr_div_pow2 by lia.
  rewrite (wrap_small 64 (_ / _)). 2:{ split; [apply Z.div_pos; lia|]. apply Z.div_lt_upper_bound; lia. }
  unfold wrap. pose proof (Z.div_mod (a * y + r + c) (2 ^ 64) ltac:(lia)). lia.
Qed.

Lemma carrying_mul_loop_spec x y c : limbs_ok x -> u64_range y -> u64_range c ->
  limbs_ok (carrying_mul_loop x y c).1 /\ length (carrying_mul_loop x y c).1 = length x /\
  u64_range (carrying_mul_loop x y c).2 /\
  val (carrying_mul_loop x y c).1 + base (length x) * (carrying_mul_loop x y c).2 = val x * y + c.
Proof.
  intros Hx Hy. revert c. induction Hx as [|a x Ha Hx IH]; intros c Hc.
  { cbn. change (base 0) with 1. rewrite wrap_small by done. split; [constructor|]. split; [done|]. split; [done|lia]. }
  cbn [carrying_mul_loop]. replace (c + y * a) with (a * y + 0 + c) by lia.
  destruct (mul_digit a y 0 c Ha Hy ltac:(lia) Hc) as (H1 & H2 & H3). set (n := wrap 128 _) in *.
  replace (Z.land (Z.shiftr n 64) U64_MAX) with (wrap 64 (Z.shiftr n 64)) by (unfold wrap; by rewrite land_mask).
  destruct (IH _ H2) as (Hok & Hlen & Hr & E). destruct (carrying_mul_loop x y _) as [rs c2]. cbn [fst snd] in *.
  split; [by constructor|]. split; [simpl; lia|]. split; [done|]. cbn [val length]. rewrite base_S. nia.
Qed.

Lemma overflowing_mul_u64_spec x y : limbs_ok x -> u64_range y ->
  limbs_ok (overflowing_mul_u64 x y).1 /\ length (overflowing_mul_u64 x y).1 = length x /\
  val (overflowing_mul_u64 x y).1 = (val x * y) mod base (length x) /\
  (overflowing_mul_u64 x y).2 = (base (length x) <=? val x * y).
Proof.
  intros Hx Hy. destruct (carrying_mul_loop_spec x y 0 Hx Hy ltac:(lia)) as (Hok & Hlen & Hr & E).
  unfold overflowing_mul_u64, carrying_mul_u64. destruct (carrying_mul_loop x y 0) as [rs c]. cbn [fst snd] in *.
  pose proof (val_range _ Hok) as Hv. rewrite Hlen in Hv. split_and!; [done..| |].
  - apply (Z.mod_unique _ _ c); [left; lia|lia].
  - destruct (Z.eqb_spec c 0); symmetry; [apply Z.leb_gt|apply Z.leb_le]; nia.
Qed.

Lemma mul_row_spec x y res c : limbs_ok x -> u64_range y -> limbs_ok res -> u64_range c -> (length res <= length x)%nat ->
  limbs_ok (mul_row x y res c).1 /\ length (mul_row x y res c).1 = length res /\
  val (mul_row x y res c).1 + base (length res) * (mul_row x y res c).2 = val (take (length res) x) * y + val res + c.
Proof.
  intros Hx Hy Hres. revert x c Hx. induction Hres as [|r res Hr Hres IH]; intros x c Hx Hc Hl.
  { destruct x as [|a x]; cbn; change (base 0) with 1; (split; [constructor|]); (split; [done|lia]). }
  destruct x as [|a x]; [simpl in Hl; lia|]. apply Forall_cons in Hx as [Ha Hx]. cbn [mul_row].
  destruct (mul_digit a y r c Ha Hy Hr Hc) as (H1 & H2 & H3). set (n := wrap 128 _) in *.
  destruct (IH x _ Hx H2 ltac:(simpl in Hl; lia)) as (Hok & Hlen & E). destruct (mul_row x y res _) as [rs c2]. cbn [fst snd] in *.
  split; [by constructor|]. split; [simpl; lia|]. cbn [length take]. cbn [val]. rewrite base_S. nia.
Qed.

Lemma val_take_mod n x : limbs_ok x -> (n <= length x)%nat -> val (take n x) = val x mod base n.
Proof.
  intros Hx Hn. apply (Z.mod_unique _ _ (val (drop n x))).
  - left. pose proof (val_range (take n x) (Forall_take _ _ _ Hx)) as H. rewrite length_take_le in H by done. done.
  - rewrite <- (take_drop n x) at 1. rewrite val_app, length_take_le by done. lia.
Qed.

Lemma mul_rows_spec x y res co : limbs_ok x -> limbs_ok y -> limbs_ok res -> length y = length res -> (length res <= length x)%nat ->
  limbs_ok (mul_rows x y res co).1 /\ length (mul_rows x y res co).1 = length res /\
  val (mul_rows x y res co).1 = (val x * val y + val res) mod base (length res).
Proof.
  intros Hx Hy. revert res co. induction Hy as [|b y Hb Hy IH]; intros res co Hres Hl Hle.
  { destruct res; [|done]. split; [done|]. split; [done|]. cbn [mul_rows fst length val]. change (base 0) with 1. by rewrite Z.mod_1_r. }
  cbn [mul_rows]. destruct (mul_row_spec x b res 0 Hx Hb Hres ltac:(lia) Hle) as (Hok & Hlen & E).
  destruct (mul_row x b res 0) as [row c]. cbn [fst snd] in *. destruct row as [|r row]; [simpl in *; lia|].
  apply Forall_cons in Hok as [Hr Hrow]. destruct res as [|r0 res]; [done|]. simpl in Hlen. injection Hlen as Hlen. simpl in Hl. injection Hl as Hl.
  destruct (IH row (co || negb (c =? 0)) Hrow ltac:(lia) ltac:(simpl in Hle; lia)) as (Hok' & Hlen' & E').
  destruct (mul_rows x y row _) as [rest co']. cbn [fst snd] in *.
  split; [by constructor|]. split; [simpl; lia|]. rewrite (val_take_mod _ x Hx Hle) in E. cbn [val length] in *. rewrite base_S in *.
  rewrite E', Hlen. set (Bn := base (length res)) in *. assert (0 < Bn) by apply base_pos.
  pose proof (Z.div_mod (val x * val y + val row) Bn ltac:(lia)) as D1. pose proof (Z.mod_pos_bound (val x * val y + val row) Bn ltac:(lia)).
  pose proof (Z.div_mod (val x) (2 ^ 64 * Bn) ltac:(lia)) as D2.
  set (q1 := _ / Bn) in *. set (q2 := _ / (2 ^ 64 * Bn)) in *. set (m1 := _ mod Bn) in *. set (m2 := _ mod (2 ^ 64 * Bn)) in *.
  apply (Z.mod_unique _ _ (q1 + q2 * b + c)); [left; nia|].
  replace (val x * (b + 2 ^ 64 * val y) + (r0 + 2 ^ 64 * val res)) with (2 ^ 64 * Bn * q2 * b + (m2 * b + (r0 + 2 ^ 64 * val res)) + 2 ^ 64 * (val x * val y)).
  2:{ assert (D3 : val x * b = 2 ^ 64 * Bn * q2 * b + m2 * b) by (rewrite D2 at 1; ring).
      transitivity (val x * b + 2 ^ 64 * (val x * val y) + (r0 + 2 ^ 64 * val res)); [rewrite D3; ring|ring]. }
  replace (m2 * b + (r0 + 2 ^ 64 * val res)) with (r + 2 ^ 64 * val row + 2 ^ 64 * Bn * c) by lia.
  replace (val x * val y) with (Bn * q1 + m1 - val row) by lia. ring.
Qed.

Lemma overflowing_mul_spec x y : limbs_ok x -> limbs_ok y -> length x = length y ->
  limbs_ok (overflowing_mul x y).1 /\ length (overflowing_mul x y).1 = length x /\
  val (overflowing_mul x y).1 = (val x * val y) mod base (length x).
Proof.
  intros Hx Hy Hl. unfold overflowing_mul.
  destruct (mul_rows_spec x y (uint_zero (length x)) false Hx Hy (uint_zero_ok _)) as (H1 & H2 & H3);
    [by unfold uint_zero; rewrite length_replicate..|unfold uint_zero; by rewrite length_replicate|].
  unfold uint_zero in H2, H3. rewrite length_replicate in H2, H3. fold (uint_zero (length x)) in *. rewrite val_zero, Z.add_0_r in H3.
  done.
Qed.

(** * Order and bit length *)

Lemma uint_cmp_spec x y : limbs_ok x -> limbs_ok y -> length x = length y -> uint_cmp x y = Z.compare (val x) (val y).
Proof.
  intros Hx. revert y. induction Hx as [|a x Ha Hx IH]; intros [|b y] Hy Hl; try done.
  apply Forall_cons in Hy as [Hb Hy]. injection Hl as Hl. cbn [uint_cmp val]. rewrite (IH y Hy Hl).
  pose proof (val_range x Hx). pose proof (val_range y Hy).
  destruct (Z.compare_spec (val x) (val y)) as [->|?|?]; symmetry.
  - destruct (Z.compare_spec a b); [apply Z.compare_eq_iff|apply Z.compare_lt_iff|apply Z.compare_gt_iff]; lia.
  - apply Z.compare_lt_iff. nia.
  - apply Z.compare_gt_iff. nia.
Qed.

Lemma uint_leb_spec x y : limbs_ok x -> limbs_ok y -> length x = length y -> uint_leb x y = (val x <=? val y).
Proof. intros Hx Hy Hl. unfold uint_leb. rewrite (uint_cmp_spec x y Hx Hy Hl). reflexivity. Qed.

(** The least number of bits of a number. *)
Definition bit_length (z : Z) : Z := if z =? 0 then 0 else Z.log2 z + 1.

Lemma log2_limbs d v : u64_range d -> 0 < v -> Z.log2 (d + 2 ^ 64 * v) = 64 + Z.log2 v.
Proof.
  intros Hd Hv. pose proof (Z.log2_spec v Hv) as [H1 H2]. pose proof (Z.log2_nonneg v). apply Z.log2_unique; [lia|].
  replace (Z.succ (64 + Z.log2 v)) with (64 + Z.succ (Z.log2 v)) by lia. rewrite !Z.pow_add_r by lia. nia.
Qed.

Lemma bits_from_spec i x : 0 <= i -> limbs_ok x ->
  bits_from i x = if val x =? 0 then 0 else 64 * i + Z.log2 (val x) + 1.
Proof.
  intros Hi Hx. revert i Hi. induction Hx as [|d x Hd Hx IH]; intros i Hi; [done|].
  cbn [bits_from val]. rewrite IH by lia. pose proof (val_range x Hx). unfold leading_zeros64.
  destruct (Z.eqb_spec (val x) 0) as [E|E].
  - rewrite E, Z.mul_0_r, Z.add_0_r. rewrite (proj2 (Z.eqb_eq 0 0)) by done. cbn [negb].
    destruct (Z.eqb_spec d 0); cbn [negb]; lia.
  - pose proof (Z.log2_nonneg (val x)). rewrite log2_limbs by lia.
    rewrite (proj2 (Z.eqb_neq (64 * (i + 1) + Z.log2 (val x) + 1) 0)) by lia. cbn [negb].
    rewrite (proj2 (Z.eqb_neq (d + 2 ^ 64 * val x) 0)) by lia. lia.
Qed.

Lemma uint_bits_spec x : limbs_ok x -> uint_bits x = bit_length (val x).
Proof. intros Hx. unfold uint_bits, bit_length. rewrite bits_from_spec by done || lia. done. Qed.

Lemma bit_length_bound z : 0 <= z -> z < 2 ^ bit_length z.
Proof.
  intros Hz. unfold bit_length. destruct (Z.eqb_spec z 0) as [->|]; [done|]. apply Z.log2_spec. lia.
Qed.

Lemma bit_length_low z : 0 < z -> 2 ^ (bit_length z - 1) <= z /\ 0 < bit_length z.
Proof.
  intros Hz. unfold bit_length. destruct (Z.eqb_spec z 0) as [->|]; [lia|]. pose proof (Z.log2_nonneg z).
  split; [|lia]. replace (Z.log2 z + 1 - 1) with (Z.log2 z) by lia. apply Z.log2_spec. lia.
Qed.

Lemma bit_length_le z n : 0 <= n -> 0 <= z < 2 ^ n -> bit_length z <= n.
Proof.
  intros Hn Hz. unfold bit_length. destruct (Z.eqb_spec z 0); [lia|]. pose proof (Z.log2_lt_pow2 z n). lia.
Qed.

(** * Shifts *)

Lemma val_words n (w : nat -> Z) : (forall i, (i < n)%nat -> u64_range (w i)) ->
  limbs_ok (map w (seq 0 n)) /\ length (map w (seq 0 n)) = n /\
  forall j, 0 <= j -> Z.testbit (val (map w (seq 0 n))) j =
    if (Z.to_nat (j / 64) <? n)%nat then Z.testbit (w (Z.to_nat (j / 64))) (j mod 64) else false.
Proof.
  intros Hw. assert (Hok : limbs_ok (map w (seq 0 n))).
  { apply Forall_map, Forall_seq. intros i Hi. apply Hw. lia. }
  split; [done|]. split; [by rewrite length_map, length_seq|]. intros j Hj. rewrite testbit_val by done.
  destruct (Nat.ltb_spec (Z.to_nat (j / 64)) n) as [Hlt|Hge].
  - assert (E : map w (seq 0 n) !! Z.to_nat (j / 64) = Some (w (Z.to_nat (j / 64)))).
    { change (map w) with (fmap (M := list) w). rewrite list_lookup_fmap, lookup_seq_lt by done. done. }
    by rewrite E.
  - rewrite lookup_ge_None_2 by (rewrite length_map, length_seq; done). apply Z.testbit_0_l.
Qed.

Lemma lookup_total_ok x i : limbs_ok x -> (i < length x)%nat -> u64_range (x !!! i) /\ x !! i = Some (x !!! i).
Proof.
  intros Hx Hi. destruct (lookup_lt_is_Some_2 x i Hi) as [d Hd]. rewrite (list_lookup_total_correct _ _ _ Hd).
  split; [|done]. by eapply (Forall_lookup_1 _ _ _ _ Hx).
Qed.

Lemma shl64_range a s : u64_range (shl64 a s).
Proof. apply wrap_range. lia. Qed.

Lemma shl64_bit a s i : 0 <= s -> 0 <= i -> Z.testbit (shl64 a s) i = (i <? 64) && Z.testbit a (i - s).
Proof.
  intros Hs Hi. unfold shl64, wrap. destruct (Z.ltb_spec i 64).
  - rewrite Z.mod_pow2_bits_low by done. by rewrite Z.shiftl_spec.
  - by rewrite Z.mod_pow2_bits_high by lia.
Qed.

Lemma lor_range a b : u64_range a -> u64_range b -> u64_range (Z.lor a b).
Proof.
  intros Ha Hb. apply u64_bits; [apply Z.lor_nonneg; lia|]. intros i Hi. rewrite Z.lor_spec.
  by rewrite !testbit_u64 by done.
Qed.

Lemma shiftr_range a s : u64_range a -> 0 <= s -> u64_range (Z.shiftr a s).
Proof.
  intros Ha Hs. apply u64_bits; [apply Z.shiftr_nonneg; lia|]. intros i Hi. rewrite Z.shiftr_spec by lia.
  apply testbit_u64; [done|lia].
Qed.

(** Index arithmetic of a shifted bit. *)
Lemma shift_index j s : 0 <= s <= j ->
  (j - s) / 64 = (if j mod 64 <? s mod 64 then j / 64 - s / 64 - 1 else j / 64 - s / 64) /\
  (j - s) mod 64 = (if j mod 64 <? s mod 64 then j mod 64 - s mod 64 + 64 else j mod 64 - s mod 64).
Proof.
  intros Hs. pose proof (Z.div_mod j 64 ltac:(lia)). pose proof (Z.div_mod s 64 ltac:(lia)).
  pose proof (Z.mod_pos_bound j 64 ltac:(lia)). pose proof (Z.mod_pos_bound s 64 ltac:(lia)).
  destruct (Z.ltb_spec (j mod 64) (s mod 64)); split; symmetry.
  - apply (Z.div_unique _ _ _ (j mod 64 - s mod 64 + 64)); lia.
  - apply (Z.mod_unique _ _ (j / 64 - s / 64 - 1)); lia.
  - apply (Z.div_unique _ _ _ (j mod 64 - s mod 64)); lia.
  - apply (Z.mod_unique _ _ (j / 64 - s / 64)); lia.
Qed.

Lemma uint_shl_spec x s : limbs_ok x -> 0 <= s < 64 * Z.of_nat (length x) ->
  limbs_ok (uint_shl x s) /\ length (uint_shl x s) = length x /\ val (uint_shl x s) = (val x * 2 ^ s) mod base (length x).
Proof.
  intros Hx Hs. unfold uint_shl, overflowing_shl. cbn [fst]. rewrite (Z.mod_small s) by lia.
  pose proof (Z.mod_pos_bound s 64 ltac:(lia)) as Hsm. pose proof (Z.div_mod s 64 ltac:(lia)) as Hsd.
  assert (0 <= s / 64) as Hsq by (apply Z.div_pos; lia). set (lw := Z.to_nat (s / 64)). set (ls := s mod 64) in *.
  match goal with |- limbs_ok (map ?f _) /\ _ => set (w := f) end.
  destruct (val_words (length x) w) as (Hok & Hlen & Hbit).
  { intros i Hi. unfold w. destruct (Nat.ltb_spec i lw); [lia|]. destruct (_ && _) eqn:E; [|apply shl64_range].
    apply andb_true_iff in E as [E1%Z.ltb_lt E2%Nat.leb_le]. apply lor_range; [apply shl64_range|].
    apply shiftr_range; [|lia]. apply lookup_total_ok; [done|lia]. }
  split; [done|]. split; [done|]. apply Z.bits_inj'. intros j Hj. rewrite Hbit by done.
  pose proof (Z.mod_pos_bound j 64 ltac:(lia)) as Hjm. pose proof (Z.div_mod j 64 ltac:(lia)) as Hjd.
  assert (0 <= j / 64) as Hjq by (apply Z.div_pos; lia).
  destruct (Nat.ltb_spec (Z.to_nat (j / 64)) (length x)) as [Hlt|Hge]; [|rewrite Z.mod_pow2_bits_high by lia; done].
  rewrite Z.mod_pow2_bits_low by lia. rewrite <- Z.shiftl_mul_pow2 by lia. rewrite Z.shiftl_spec by lia.
  unfold w. destruct (Nat.ltb_spec (Z.to_nat (j / 64)) lw) as [Hw|Hw].
  { rewrite Z.testbit_0_l, Z.testbit_neg_r by lia. done. }
  destruct (Z.lt_ge_cases j s) as [Hjs|Hjs].
  { rewrite (Z.testbit_neg_r _ (j - s)) by lia. assert (j / 64 = s / 64) as Eq by lia. assert (j mod 64 < ls) as Elt by lia.
    rewrite (proj2 (Nat.leb_gt _ _)) by lia. rewrite andb_false_r, shl64_bit by lia.
    rewrite (Z.testbit_neg_r _ (_ - ls)) by lia. by rewrite andb_false_r. }
  destruct (shift_index j s ltac:(lia)) as [Eq Em]. fold ls in Eq, Em. rewrite testbit_val by (done || lia). rewrite Eq, Em.
  destruct (Z.ltb_spec (j mod 64) ls) as [Hc|Hc].
  - assert (1 <= j / 64 - s / 64) by lia. rewrite (proj2 (Nat.leb_le _ _)), (proj2 (Z.ltb_lt 0 ls)) by lia. cbn [andb].
    rewrite Z.lor_spec, shl64_bit by lia. rewrite (Z.testbit_neg_r _ (j mod 64 - ls)) by lia. rewrite andb_false_r, orb_false_l.
    rewrite Z.shiftr_spec by lia. replace (Z.to_nat (j / 64 - s / 64 - 1)) with (Z.to_nat (j / 64) - 1 - lw)%nat by lia.
    destruct (lookup_total_ok x (Z.to_nat (j / 64) - 1 - lw) Hx ltac:(lia)) as [_ ->]. simpl. f_equal. lia.
  - replace (Z.to_nat (j / 64 - s / 64)) with (Z.to_nat (j / 64) - lw)%nat by lia.
    destruct (lookup_total_ok x (Z.to_nat (j / 64) - lw) Hx ltac:(lia)) as [_ ->]. simpl.
    destruct (_ && _) eqn:E.
    + apply andb_true_iff in E as [E1%Z.ltb_lt E2%Nat.leb_le]. rewrite Z.lor_spec, shl64_bit, (proj2 (Z.ltb_lt _ 64)) by lia. cbn [andb].
      rewrite Z.shiftr_spec by lia. rewrite (testbit_u64 _ (_ + _)); [by rewrite orb_false_r| |lia].
      apply lookup_total_ok; [done|lia].
    + rewrite shl64_bit, (proj2 (Z.ltb_lt _ 64)) by lia. done.
Qed.

Lemma uint_shr_spec x s : limbs_ok x -> 0 <= s < 64 * Z.of_nat (length x) ->
  limbs_ok (uint_shr x s) /\ length (uint_shr x s) = length x /\ val (uint_shr x s) = val x / 2 ^ s.
Proof.
  intros Hx Hs. unfold uint_shr, overflowing_shr. cbn [fst]. rewrite (Z.mod_small s) by lia.
  pose proof (Z.mod_pos_bound s 64 ltac:(lia)) as Hsm. pose proof (Z.div_mod s 64 ltac:(lia)) as Hsd.
  assert (0 <= s / 64) as Hsq by (apply Z.div_pos; lia). set (lw := Z.to_nat (s / 64)). set (ls := s mod 64) in *.
  match goal with |- limbs_ok (map ?f _) /\ _ => set (w := f) end.
  destruct (val_words (length x) w) as (Hok & Hlen & Hbit).
  { intros i Hi. unfold w. destruct (Nat.leb_spec (length x) (i + lw)); [lia|].
    pose proof (lookup_total_ok x (i + lw) Hx ltac:(lia)) as [H1 _].
    destruct (_ && _) eqn:E; [apply lor_range; [|apply shl64_range]|]; apply shiftr_range; done || lia. }
  split; [done|]. split; [done|]. apply Z.bits_inj'. intros j Hj. rewrite Hbit by done.
  pose proof (Z.mod_pos_bound j 64 ltac:(lia)) as Hjm. pose proof (Z.div_mod j 64 ltac:(lia)) as Hjd.
  assert (0 <= j / 64) as Hjq by (apply Z.div_pos; lia).
  rewrite <- Z.shiftr_div_pow2, Z.shiftr_spec by lia. rewrite testbit_val by (done || lia).
  assert ((j + s) / 64 = (if 64 <=? j mod 64 + ls then j / 64 + s / 64 + 1 else j / 64 + s / 64) /\
          (j + s) mod 64 = (if 64 <=? j mod 64 + ls then j mod 64 + ls - 64 else j mod 64 + ls)) as [-> ->].
  { destruct (Z.leb_spec 64 (j mod 64 + ls)); split; symmetry;
      [apply (Z.div_unique _ _ _ (j mod 64 + ls - 64))|apply (Z.mod_unique _ _ (j / 64 + s / 64 + 1))
      |apply (Z.div_unique _ _ _ (j mod 64 + ls))|apply (Z.mod_unique _ _ (j / 64 + s / 64))]; lia. }
  assert (Hnone : forall k, (length x <= k)%nat -> default 0 (x !! k) = 0) by (intros k Hk; by rewrite lookup_ge_None_2).
  destruct (Nat.ltb_spec (Z.to_nat (j / 64)) (length x)) as [Hlt|Hge].
  2:{ rewrite Hnone by (destruct (Z.leb_spec 64 (j mod 64 + ls)); lia). by rewrite Z.testbit_0_l. }
  unfold w. destruct (Nat.leb_spec (length x) (Z.to_nat (j / 64) + lw)) as [Hw|Hw].
  { rewrite Hnone by (destruct (Z.leb_spec 64 (j mod 64 + ls)); lia). by rewrite !Z.testbit_0_l. }
  destruct (lookup_total_ok x (Z.to_nat (j / 64) + lw) Hx ltac:(lia)) as [H1 E1].
  destruct (Z.leb_spec 64 (j mod 64 + ls)) as [Hc|Hc].
  - replace (Z.to_nat (j / 64 + s / 64 + 1)) with (Z.to_nat (j / 64) + lw + 1)%nat by lia. rewrite (proj2 (Z.ltb_lt 0 ls)) by lia. cbn [andb].
    destruct (Nat.ltb_spec (Z.to_nat (j / 64) + lw + 1) (length x)) as [Hin|Hout].
    + destruct (lookup_total_ok x _ Hx Hin) as [H2 ->]. simpl. rewrite Z.lor_spec, Z.shiftr_spec, shl64_bit by lia.
      rewrite (testbit_u64 _ (_ + _)) by (done || lia). rewrite (proj2 (Z.ltb_lt _ 64)) by lia. cbn [orb andb]. f_equal. lia.
    + rewrite Hnone by done. rewrite Z.testbit_0_l, Z.shiftr_spec by lia. apply testbit_u64; [done|lia].
  - replace (Z.to_nat (j / 64 + s / 64)) with (Z.to_nat (j / 64) + lw)%nat by lia. rewrite E1. simpl.
    destruct (_ && _) eqn:E; [|by rewrite Z.shiftr_spec by lia].
    rewrite Z.lor_spec, Z.shiftr_spec, shl64_bit by lia. rewrite (Z.testbit_neg_r _ (_ - _)) by lia.
    by rewrite andb_false_r, orb_false_r.
Qed.

(** * Division *)

Lemma uint_sub_spec x y : limbs_ok x -> limbs_ok y -> length x = length y -> val y <= val x ->
  limbs_ok (uint_sub x y) /\ length (uint_sub x y) = length x /\ val (uint_sub x y) = val x - val y.
Proof.
  intros Hx Hy Hl Hle. destruct (overflowing_sub_spec x y Hx Hy Hl) as (H1 & H2 & H3 & _). unfold uint_sub. split_and!; [done..|].
  pose proof (val_range x Hx). pose proof (val_range y Hy). rewrite H3. apply Z.mod_small. lia.
Qed.

Lemma val_alter x i f : (i < length x)%nat -> val (alter f i x) = val x + base i * (f (x !!! i) - x !!! i).
Proof.
  revert i. induction x as [|d x IH]; intros i Hi; [simpl in Hi; lia|]. destruct i as [|i].
  { change (base 0) with 1. cbn. lia. }
  change (alter f (S i) (d :: x)) with (d :: alter f i x). cbn [val]. rewrite IH by (simpl in Hi; lia).
  change ((d :: x) !!! S i) with (x !!! i). rewrite base_S. ring.
Qed.

Lemma length_alter_limbs x i (f : Z -> Z) : length (alter f i x) = length x.
Proof. apply length_alter. Qed.

(** Setting a clear bit adds its weight. *)
Lemma uint_set_bit_spec x k : limbs_ok x -> (k < 64 * length x)%nat -> Z.testbit (val x) (Z.of_nat k) = false ->
  let x' := alter (fun w => Z.lor w (shl64 1 (Z.of_nat (k mod 64)))) (k / 64)%nat x in
  limbs_ok x' /\ length x' = length x /\ val x' = val x + 2 ^ Z.of_nat k.
Proof.
  intros Hx Hk Hbit x'. assert ((k / 64 < length x)%nat) as Hi by (apply Nat.Div0.div_lt_upper_bound; lia).
  pose proof (Nat.mod_upper_bound k 64 ltac:(lia)) as Hm. pose proof (Nat.div_mod_eq k 64) as Hd.
  destruct (lookup_total_ok x _ Hx Hi) as [Hw Ew]. set (v := Z.of_nat (k mod 64)) in *.
  assert (Hshl : shl64 1 v = 2 ^ v).
  { unfold shl64. rewrite Z.shiftl_1_l. apply wrap_small. split; [apply Z.pow_nonneg; lia|]. apply Z.pow_lt_mono_r; lia. }
  assert (Hlor : Z.lor (x !!! (k / 64)%nat) (2 ^ v) = x !!! (k / 64)%nat + 2 ^ v).
  { assert (Hland : Z.land (x !!! (k / 64)%nat) (2 ^ v) = 0).
    { apply Z.bits_inj'. intros j Hj. rewrite Z.land_spec, Z.testbit_0_l, Z.pow2_bits_eqb by lia.
      destruct (Z.eqb_spec v j) as [<-|]; [|apply andb_false_r]. rewrite andb_true_r.
      rewrite testbit_val in Hbit by (done || lia). change 64 with (Z.of_nat 64) in Hbit.
      rewrite <- Nat2Z.inj_div, <- Nat2Z.inj_mod, Nat2Z.id, Ew in Hbit. done. }
    by rewrite <- Z.lxor_lor, Z.add_nocarry_lxor. }
  unfold x'. split; [|split; [apply length_alter|]].
  - apply Forall_alter; [done|]. intros w Hxw _. rewrite Ew in Hxw. injection Hxw as <-. apply lor_range; [done|apply shl64_range].
  - rewrite val_alter by done. rewrite Hshl, Hlor. replace (x !!! (k / 64)%nat + 2 ^ v - x !!! (k / 64)%nat) with (2 ^ v) by lia.
    rewrite <- Z.pow_add_r by lia. do 2 f_equal. lia.
Qed.

(** One step: the bit of the quotient at [shift]. *)
Lemma div_step X Y shift sub sc ret : 0 < Y -> limbs_ok sub -> limbs_ok sc -> limbs_ok ret ->
  length sc = length sub -> length ret = length sub -> (shift < 64 * length sub)%nat ->
  val sc = Y * 2 ^ Z.of_nat shift -> X = val ret * Y + val sub -> val ret mod 2 ^ (Z.of_nat shift + 1) = 0 ->
  val sub < 2 * val sc ->
  exists sub' ret',
    (if uint_leb sc sub then
       (uint_sub sub sc, alter (fun w => Z.lor w (shl64 1 (Z.of_nat (shift mod 64)))) (shift / 64)%nat ret)
     else (sub, ret)) = (sub', ret') /\
    limbs_ok sub' /\ limbs_ok ret' /\ length sub' = length sub /\ length ret' = length sub /\
    X = val ret' * Y + val sub' /\ val ret' mod 2 ^ Z.of_nat shift = 0 /\ val sub' < val sc.
Proof.
  intros HY Hsub Hsc Hret Hl1 Hl2 Hsh Esc EX Hmod Hlt. rewrite uint_leb_spec by done.
  pose proof (Z.pow_pos_nonneg 2 (Z.of_nat shift) ltac:(lia) ltac:(lia)) as Hp.
  assert (Hdiv : exists c, val ret = 2 * 2 ^ Z.of_nat shift * c).
  { apply Z.mod_divide in Hmod as [c Hc]; [|rewrite Z.pow_add_r by lia; lia]. exists c. rewrite Hc, Z.pow_add_r by lia. ring. }
  destruct Hdiv as [c Hc]. destruct (Z.leb_spec (val sc) (val sub)) as [Hle|Hgt].
  - destruct (uint_sub_spec sub sc Hsub Hsc (eq_sym Hl1) Hle) as (H1 & H2 & H3).
    destruct (uint_set_bit_spec ret shift Hret) as (H4 & H5 & H6); [lia| |].
    { rewrite Hc. replace (2 * 2 ^ Z.of_nat shift * c) with ((2 * c) * 2 ^ Z.of_nat shift) by ring.
      rewrite <- Z.shiftl_mul_pow2, Z.shiftl_spec by lia. rewrite Z.sub_diag. apply Z.testbit_even_0. }
    eexists _, _. split; [done|]. split_and!; [done..|lia|lia| | |lia].
    + rewrite H6, H3, Esc, EX. ring.
    + rewrite H6, Hc. apply Z.mod_divide; [lia|]. exists (2 * c + 1). ring.
  - exists sub, ret. split; [done|]. split_and!; try done. rewrite Hc. apply Z.mod_divide; [lia|]. exists (2 * c). ring.
Qed.

(** The invariant of the long division: [sub] is what is left of [X], [ret] the part of
    the quotient above [shift]. *)
Lemma div_loop_spec X Y shift sub sc ret : 0 < Y -> limbs_ok sub -> limbs_ok sc -> limbs_ok ret ->
  length sc = length sub -> length ret = length sub -> (shift < 64 * length sub)%nat ->
  val sc = Y * 2 ^ Z.of_nat shift -> X = val ret * Y + val sub -> val ret mod 2 ^ (Z.of_nat shift + 1) = 0 ->
  val sub < 2 * val sc ->
  let r := div_loop shift sub sc ret in
  limbs_ok r.1 /\ limbs_ok r.2 /\ length r.1 = length sub /\ length r.2 = length sub /\ X = val r.1 * Y + val r.2 /\ val r.2 < Y.
Proof.
  intros HY. revert sub sc ret. induction shift as [|shift IH]; intros sub sc ret Hsub Hsc Hret Hl1 Hl2 Hsh Esc EX Hmod Hlt.
  all: destruct (div_step X Y _ sub sc ret HY Hsub Hsc Hret Hl1 Hl2 Hsh Esc EX Hmod Hlt)
         as (sub' & ret' & E & Hs' & Hr' & Hls' & Hlr' & EX' & Hmod' & Hlt').
  - cbn zeta. cbn [div_loop]. rewrite E. cbn [fst snd]. split_and!; try done. lia.
  - cbn zeta. cbn [div_loop]. rewrite E.
    destruct (uint_shr_spec sc 1 Hsc ltac:(lia)) as (H1 & H2 & H3).
    assert (Esc' : val (uint_shr sc 1) = Y * 2 ^ Z.of_nat shift).
    { rewrite H3, Esc. replace (Z.of_nat (S shift)) with (Z.of_nat shift + 1) by lia. rewrite Z.pow_add_r by lia.
      rewrite Z.mul_assoc. apply Z.div_mul. lia. }
    rewrite <- Hls'. apply (IH sub' (uint_shr sc 1) ret'); [done|done|done|lia|lia|lia|done|done| |].
    + by replace (Z.of_nat shift + 1) with (Z.of_nat (S shift)) by lia.
    + rewrite Esc', Esc in *. replace (Z.of_nat (S shift)) with (Z.of_nat shift + 1) in Hlt' by lia. rewrite Z.pow_add_r in Hlt' by lia. lia.
Qed.

Lemma div_rem_spec x y : limbs_ok x -> limbs_ok y -> length x = length y ->
  match div_rem x y with
  | None => val y = 0
  | Some (q, r) => val y <> 0 /\ limbs_ok q /\ limbs_ok r /\ length q = length x /\ length r = length x /\
      val q = val x / val y /\ val r = val x mod val y
  end.
Proof.
  intros Hx Hy Hl. pose proof (val_range x Hx) as Hvx. pose proof (val_range y Hy) as Hvy. unfold div_rem.
  rewrite !uint_bits_spec by done. destruct (Z.eqb_spec (bit_length (val y)) 0) as [E0|E0].
  { unfold bit_length in E0. destruct (Z.eqb_spec (val y) 0); [done|]. pose proof (Z.log2_nonneg (val y)). lia. }
  assert (0 < val y) as Hpos. { destruct (Z.eq_dec (val y) 0) as [E|]; [|lia]. by rewrite E in E0. }
  pose proof (bit_length_bound (val x) ltac:(lia)) as Hbx. destruct (bit_length_low (val y) Hpos) as [Hby Hby0].
  destruct (Z.ltb_spec (bit_length (val x)) (bit_length (val y))) as [Hb|Hb].
  - split; [lia|]. split_and!; [apply uint_zero_ok|done|by apply length_replicate|done| |].
    + rewrite val_zero, Z.div_small; [done|]. pose proof (Z.pow_le_mono_r 2 (bit_length (val x)) (bit_length (val y) - 1)). lia.
    + rewrite Z.mod_small; [done|]. pose proof (Z.pow_le_mono_r 2 (bit_length (val x)) (bit_length (val y) - 1)). lia.
  - pose proof (bit_length_le (val x) (64 * Z.of_nat (length x)) ltac:(lia) Hvx) as Hbn.
    set (shift := bit_length (val x) - bit_length (val y)) in *.
    destruct (uint_shl_spec y shift Hy ltac:(lia)) as (H1 & H2 & H3).
    assert (Hup : val y * 2 ^ shift < 2 ^ bit_length (val x)).
    { replace (bit_length (val x)) with (bit_length (val y) + shift) by lia. rewrite Z.pow_add_r by lia.
      apply Z.mul_lt_mono_pos_r; [apply Z.pow_pos_nonneg; lia|]. apply bit_length_bound. lia. }
    rewrite Z.mod_small in H3.
    2:{ split; [apply Z.mul_nonneg_nonneg; [lia|apply Z.pow_nonneg; lia]|]. rewrite <- Hl.
        pose proof (Z.pow_le_mono_r 2 (bit_length (val x)) (64 * Z.of_nat (length x))). lia. }
    assert (Hlow : val x < 2 * (val y * 2 ^ shift)).
    { apply Z.lt_le_trans with (1 := Hbx). replace (bit_length (val x)) with (1 + (bit_length (val y) - 1) + shift) by lia.
      rewrite !Z.pow_add_r by lia. pose proof (Z.pow_pos_nonneg 2 shift). nia. }
    destruct (div_loop_spec (val x) (val y) (Z.to_nat shift) x (uint_shl y shift) (uint_zero (length x))) as (A1 & A2 & A3 & A4 & A5 & A6);
      try done; try lia; [apply uint_zero_ok|by apply length_replicate|rewrite Z2Nat.id by lia; done|rewrite val_zero; lia|by rewrite val_zero|].
    destruct (div_loop _ _ _ _) as [q r]. cbn [fst snd] in *. pose proof (val_range r A2). split_and!; [lia|done..| |].
    + apply (Z.div_unique _ _ _ (val r)); [left; lia|lia].
    + apply (Z.mod_unique _ _ (val q)); [left; lia|lia].
Qed.

Lemma div_rem_limbs_spec x y : limbs_ok x -> u64_range y -> y <> 0 ->
  limbs_ok (div_rem_limbs x y).1 /\ length (div_rem_limbs x y).1 = length x /\
  val (div_rem_limbs x y).1 = val x / y /\ (div_rem_limbs x y).2 = val x mod y.
Proof.
  intros Hx Hy Hne. induction Hx as [|d x Hd Hx IH]; [by rewrite Z.div_0_l, Z.mod_0_l by done|].
  cbn [div_rem_limbs]. destruct (div_rem_limbs x y) as [q r]. cbn [fst snd] in *. destruct IH as (Hok & Hlen & Eq & Er).
  pose proof (Z.mod_pos_bound (val x) y ltac:(lia)) as Hr. rewrite <- Er in Hr.
  assert (En : Z.lor (Z.shiftl r 64) d = r * 2 ^ 64 + d).
  { rewrite <- Z.lxor_lor, <- Z.add_nocarry_lxor, Z.shiftl_mul_pow2 by (lia || (apply Z.bits_inj'; intros j Hj;
      rewrite Z.land_spec, Z.testbit_0_l, Z.shiftl_spec by lia; destruct (Z.lt_ge_cases j 64);
      [by rewrite Z.testbit_neg_r by lia|by rewrite (testbit_u64 d j), andb_false_r])). done. }
  rewrite En. set (n := r * 2 ^ 64 + d) in *. pose proof (Z.div_mod n y Hne) as Dn. pose proof (Z.mod_pos_bound n y ltac:(lia)) as Mn.
  assert (0 <= n / y < 2 ^ 64) as Hq. { split; [apply Z.div_pos; lia|]. apply Z.div_lt_upper_bound; nia. }
  rewrite (wrap_small 64 (n / y)), (wrap_small 64 (n mod y)) by lia.
  pose proof (Z.div_mod (val x) y Hne) as Dx. rewrite <- Eq, <- Er in Dx.
  split; [by constructor|]. split; [simpl; lia|]. cbn [val]. split.
  - apply (Z.div_unique _ _ _ (n mod y)); [left; lia|]. nia.
  - apply (Z.mod_unique _ _ (n / y + 2 ^ 64 * val q)); [left; lia|]. nia.
Qed.

(** * The operators, where they do not overflow *)

Lemma uint_add_spec x y : limbs_ok x -> limbs_ok y -> length x = length y -> val x + val y < base (length x) ->
  limbs_ok (uint_add x y) /\ length (uint_add x y) = length x /\ val (uint_add x y) = val x + val y.
Proof.
  intros Hx Hy Hl Hb. destruct (overflowing_add_spec x y Hx Hy Hl) as (H1 & H2 & H3 & _). split_and!; [done..|].
  pose proof (val_range x Hx). pose proof (val_range y Hy). unfold uint_add. rewrite H3. apply Z.mod_small. lia.
Qed.

Lemma uint_add_u64_spec x y : limbs_ok x -> u64_range y -> x <> [] -> val x + y < base (length x) ->
  limbs_ok (uint_add_u64 x y) /\ length (uint_add_u64 x y) = length x /\ val (uint_add_u64 x y) = val x + y.
Proof.
  intros Hx Hy Hne Hb. destruct (overflowing_add_u64_spec x y Hx Hy Hne) as (H1 & H2 & H3 & _). split_and!; [done..|].
  pose proof (val_range x Hx). unfold uint_add_u64. rewrite H3. apply Z.mod_small. lia.
Qed.

Lemma uint_mul_u64_spec x y : limbs_ok x -> u64_range y -> val x * y < base (length x) ->
  limbs_ok (uint_mul_u64 x y) /\ length (uint_mul_u64 x y) = length x /\ val (uint_mul_u64 x y) = val x * y.
Proof.
  intros Hx Hy Hb. destruct (overflowing_mul_u64_spec x y Hx Hy) as (H1 & H2 & H3 & _). split_and!; [done..|].
  pose proof (val_range x Hx). unfold uint_mul_u64. rewrite H3. apply Z.mod_small. nia.
Qed.

Lemma uint_not_spec x : limbs_ok x ->
  limbs_ok (uint_not x) /\ length (uint_not x) = length x /\ val (uint_not x) = base (length x) - 1 - val x.
Proof.
  intros Hx. unfold uint_not. split; [|split; [apply length_map|]].
  - apply Forall_map. eapply Forall_impl; [exact Hx|]. unfold U64_MAX. intros a Ha. simpl. lia.
  - induction Hx as [|d x Hd Hx IH]; [done|]. cbn [map val length]. rewrite IH, base_S. unfold U64_MAX. ring.
Qed.

Lemma foldl_uint_add n l acc : Forall (fun x => limbs_ok x /\ length x = n) l -> limbs_ok acc -> length acc = n ->
  val acc + sumZ val l < base n ->
  limbs_ok (foldl uint_add acc l) /\ length (foldl uint_add acc l) = n /\ val (foldl uint_add acc l) = val acc + sumZ val l.
Proof.
  intros Hl. revert acc. induction Hl as [|x l [Hx Hlx] Hl IH]; intros acc Ha Hla Hb; cbn [foldl sumZ foldr].
  { split_and!; [done..|lia]. }
  cbn [sumZ foldr] in Hb. fold (sumZ val l) in *.
  assert (0 <= sumZ val l). { clear -Hl. induction Hl as [|y l [Hy _] _ IH]; simpl; [lia|]. pose proof (val_range y Hy). fold (sumZ val l). lia. }
  destruct (uint_add_spec acc x Ha Hx ltac:(congruence)) as (H1 & H2 & H3). { rewrite Hla. lia. }
  destruct (IH (uint_add acc x) H1 ltac:(congruence)) as (H4 & H5 & H6). { lia. }
  split_and!; [done..|lia].
Qed.

Lemma uint_sum_spec n l : Forall (fun x => limbs_ok x /\ length x = n) l -> sumZ val l < base n ->
  limbs_ok (uint_sum n l) /\ length (uint_sum n l) = n /\ val (uint_sum n l) = sumZ val l.
Proof.
  intros Hl Hb. unfold uint_sum. destruct Hl as [|x l [Hx Hlx] Hl].
  - split_and!; [apply uint_zero_ok|by apply length_replicate|apply val_zero].
  - by apply foldl_uint_add.
Qed.

(** * Bytes *)

Lemma chunks_concat8 (l : list bytes) : Forall (fun c => length c = 8%nat) l -> chunks 8 (concat l) = l.
Proof.
  intros Hl. unfold chunks. assert (Hf : forall fuel, (length (concat l) <= fuel)%nat -> chunks_fuel fuel 8 (concat l) = l).
  { induction Hl as [|c l Hc Hl IH]; intros fuel Hf; [by destruct fuel|]. cbn [concat] in *. rewrite length_app in Hf.
    destruct fuel as [|fuel]; [lia|]. destruct c as [|b c]; [done|]. cbn [chunks_fuel app].
    change (b :: c ++ concat l) with ((b :: c) ++ concat l). rewrite take_app_length', drop_app_length' by done. f_equal.
    apply IH. lia. }
  by apply Hf.
Qed.

Lemma from_le_snoc l b : from_le (l ++ [b]) = from_le l + 256 ^ Z.of_nat (length l) * b.
Proof.
  induction l as [|a l IH]; [simpl; lia|]. cbn [app from_le length]. rewrite IH, pow256_S. ring.
Qed.

Lemma from_be_reverse l : from_be (reverse l) = from_le l.
Proof.
  induction l as [|b l IH] using rev_ind; [done|]. rewrite reverse_snoc. cbn [from_be].
  rewrite IH, length_reverse, from_le_snoc. ring.
Qed.

Lemma uint_le_bytes_roundtrip x : limbs_ok x -> uint_from_le_bytes (uint_to_le_bytes x) = x.
Proof.
  intros Hx. unfold uint_from_le_bytes, uint_to_le_bytes. rewrite chunks_concat8.
  - rewrite map_map. induction Hx as [|d x Hd Hx IH]; [done|]. cbn [map]. by rewrite IH, from_to_le_small.
  - apply Forall_map, Forall_forall. intros w _. apply length_to_le.
Qed.

Lemma uint_be_bytes_roundtrip x : limbs_ok x -> uint_from_be_bytes (uint_to_be_bytes x) = x.
Proof.
  intros Hx. unfold uint_from_be_bytes, uint_to_be_bytes. rewrite chunks_concat8.
  - rewrite map_map. rewrite (map_ext_in _ (fun w => w)); [by rewrite map_id, reverse_involutive|].
    intros w Hw. rewrite from_be_reverse. apply from_to_le_small. apply list_elem_of_In in Hw.
    rewrite elem_of_reverse in Hw. by eapply Forall_forall in Hx.
  - apply Forall_map, Forall_forall. intros w _. by rewrite length_reverse, length_to_le.
Qed.

Lemma skip_zeros_replicate bs : bs = replicate (length bs - length (skip_zeros bs)) 0 ++ skip_zeros bs.
Proof.
  assert (H : forall bs, (length (skip_zeros bs) <= length bs)%nat) by (clear; induction bs as [|b bs IH]; cbn; [lia|]; case_match; cbn; lia).
  induction bs as [|b bs IH]; [done|]. cbn [skip_zeros]. destruct (Z.eqb_spec b 0) as [->|Hb].
  - pose proof (H bs). cbn [length]. replace (S (length bs) - length (skip_zeros bs))%nat with (S (length bs - length (skip_zeros bs))) by lia.
    cbn [replicate app]. by rewrite <-IH.
  - by rewrite Nat.sub_diag.
Qed.

Lemma length_to_be_bytes x : length (uint_to_be_bytes x) = (8 * length x)%nat.
Proof.
  unfold uint_to_be_bytes. rewrite <-(length_reverse x). induction (reverse x) as [|w l IH]; [done|].
  cbn [map concat length]. rewrite length_app, IH, length_reverse, length_to_le. lia.
Qed.

Lemma uint_be_bytes_var_roundtrip x : limbs_ok x -> uint_from_be_bytes_var (length x) (uint_to_be_bytes_var x) = Some x.
Proof.
  intros Hx. unfold uint_from_be_bytes_var, uint_to_be_bytes_var.
  pose proof (skip_zeros_replicate (uint_to_be_bytes x)) as E. rewrite length_to_be_bytes in E.
  assert (length (skip_zeros (uint_to_be_bytes x)) <= 8 * length x)%nat.
  { rewrite <-length_to_be_bytes. rewrite (skip_zeros_replicate (uint_to_be_bytes x)) at 2. rewrite length_app. lia. }
  rewrite bool_decide_false by lia. rewrite <-E. by rewrite uint_be_bytes_roundtrip.
Qed.
