(* ===== verification/Header.v ===== *)
(** Block headers (consensus/core/src/header.rs, consensus/core/src/hashing/{mod,header}.rs
    and utils/src/iter.rs): the run-length encoding of the parents by level, the header
    and the bytes its hash is taken of.

    [None] is a panic. The hash function [BlockHash] is a parameter. *)

From S2P Require Import Prelude Uint.

(** * Run lengths (utils/src/iter.rs) *)

Section rle.
Context {A : Type} `{EqDecision A}.

(** [Itertools::dedup_with_count] *)
Fixpoint dedup_with_count (l : list A) : list (Z * A) :=
  match l with
  | [] => []
  | x :: l' =>
      match dedup_with_count l' with
      | (count, y) :: r => if decide (x = y) then (count + 1, y) :: r else (1, x) :: (count, y) :: r
      | [] => [(1, x)]
      end
  end.

Fixpoint cumulate (cumulative : Z) (l : list (Z * A)) : list (Z * A) :=
  match l with
  | [] => []
  | (count, value) :: l' => (cumulative + count, value) :: cumulate (cumulative + count) l'
  end.

Definition rle_cumulative (l : list A) : list (Z * A) := cumulate 0 (dedup_with_count l).

(** The cumulative counts must be strictly increasing, from [prev]. *)
Fixpoint expand_from (prev : Z) (l : list (Z * A)) : option (list A) :=
  match l with
  | [] => Some []
  | (cum, item) :: l' =>
      if cum <=? prev then None
      else rest ← expand_from cum l'; Some (replicate (Z.to_nat (cum - prev)) item ++ rest)
  end.

Definition expand_rle (l : list (Z * A)) : option (list A) := expand_from 0 l.
End rle.

(** * CompressedParents *)

Abbreviation CompressedParents := (list (Z * list bytes)).

Inductive CompressedParentsError := LevelsExceeded | LevelsNotStrictlyIncreasing | NotFullyCompressed.

Definition expanded_len (c : CompressedParents) : Z :=
  match last c with Some (cum, _) => cum | None => 0 end.

(** [partition_point]: the first run that is not before the index. *)
Fixpoint run_of (index : Z) (c : CompressedParents) : option (list bytes) :=
  match c with
  | [] => None
  | (cum, parents) :: c' => if wsub64 cum 1 <? index then run_of index c' else Some parents
  end.

Definition parents_get (c : CompressedParents) (index : Z) : option (list bytes) :=
  if expanded_len c <=? index then None
  else if index =? 0 then snd <$> head c
  else run_of index c.

Definition expanded_iter (c : CompressedParents) : option (list (list bytes)) := expand_rle c.

(** A new level extends the last run or starts one. *)
Definition parents_push (c : CompressedParents) (parents_at_level : list bytes) : option CompressedParents :=
  match last c with
  | Some (count, last_parents) =>
      if 255 <? count + 1 then None
      else if bool_decide (last_parents = parents_at_level) then Some (take (length c - 1) c ++ [(count + 1, last_parents)])
      else Some (c ++ [(count + 1, parents_at_level)])
  | None => Some [(1, parents_at_level)]
  end.

Definition try_from_levels (parents : list (list bytes)) : result CompressedParentsError CompressedParents :=
  if bool_decide (255 < Z.of_nat (length parents)) then Err LevelsExceeded else Ok (rle_cumulative parents).

Fixpoint check_runs (c : CompressedParents) : result CompressedParentsError () :=
  match c with
  | (last_cumulative_level, last_parents) :: ((cumulative_level, parents) :: _) as c' =>
      if cumulative_level <=? last_cumulative_level then Err LevelsNotStrictlyIncreasing
      else if bool_decide (last_parents = parents) then Err NotFullyCompressed
      else check_runs c'
  | _ => Ok tt
  end.

Definition try_from_runs (c : CompressedParents) : result CompressedParentsError CompressedParents :=
  _ ← check_runs c; Ok c.

Definition set_direct_parents (c : CompressedParents) (direct_parents : list bytes) : option CompressedParents :=
  if bool_decide (c = []) then Some [(1, direct_parents)]
  else
    parents ← expanded_iter c;
    if bool_decide (parents = []) then None
    else match try_from_levels (<[0%nat := direct_parents]> parents) with Ok c' => Some c' | Err _ => None end.

(** * Header *)

Record Header := mk_header {
  header_hash : bytes;
  header_version : Z;
  parents_by_level : CompressedParents;
  hash_merkle_root : bytes;
  accepted_id_merkle_root : bytes;
  account_commitment : bytes;
  header_timestamp : Z;
  header_bits : Z;
  header_nonce : Z;
  header_daa_score : Z;
  header_blue_work : limbs;
  header_blue_score : Z;
  header_pruning_point : bytes;
}.

#[export] Instance Header_eq_dec : EqDecision Header.
Proof. solve_decision. Defined.

Definition direct_parents (header : Header) : list bytes := default [] (parents_get (parents_by_level header) 0).

(** * Hashing: the bytes fed to the hasher *)

Definition write_len (len : nat) : bytes := to_le 8 (Z.of_nat len).
Definition write_var_bytes (bs : bytes) : bytes := write_len (length bs) ++ bs.
Definition write_var_array (arr : list bytes) : bytes := write_len (length arr) ++ concat arr.
Definition write_blue_work (work : limbs) : bytes := write_var_bytes (skip_zeros (uint_to_be_bytes work)).

Definition header_preimage (header : Header) (nonce timestamp : Z) : option bytes :=
  levels ← expanded_iter (parents_by_level header);
  Some (to_le 2 (header_version header) ++ to_le 8 (expanded_len (parents_by_level header)) ++
        concat (map write_var_array levels) ++
        hash_merkle_root header ++ accepted_id_merkle_root header ++ account_commitment header ++
        to_le 8 timestamp ++ to_le 4 (header_bits header) ++ to_le 8 nonce ++ to_le 8 (header_daa_score header) ++
        to_le 8 (header_blue_score header) ++ write_blue_work (header_blue_work header) ++ header_pruning_point header).

Section hashing.
Context (BlockHash : bytes -> bytes).

Definition hash_override_nonce_time (header : Header) (nonce timestamp : Z) : option bytes :=
  BlockHash <$> header_preimage header nonce timestamp.

Definition hash_header (header : Header) : option bytes :=
  hash_override_nonce_time header (header_nonce header) (header_timestamp header).

Definition with_hash (header : Header) (h : bytes) : Header :=
  mk_header h (header_version header) (parents_by_level header) (hash_merkle_root header) (accepted_id_merkle_root header)
    (account_commitment header) (header_timestamp header) (header_bits header) (header_nonce header) (header_daa_score header)
    (header_blue_work header) (header_blue_score header) (header_pruning_point header).

Definition finalize (header : Header) : option Header :=
  h ← hash_header header; Some (with_hash header h).

Definition new_finalized (version : Z) (parents : CompressedParents) (merkle_root accepted_root commitment : bytes)
    (timestamp bits nonce daa_score : Z) (work : limbs) (score : Z) (pruning_point : bytes) : option Header :=
  finalize (mk_header (replicate 32 0) version parents merkle_root accepted_root commitment timestamp bits nonce daa_score
              work score pruning_point).
End hashing.
