(* ===== verification/HeaderCodec.v ===== *)
(** What the encodings of a header guarantee: the run-length encoding of the parents is
    exact and canonical, the hashed bytes determine the header, and a header survives the
    wire (protocol/p2p/src/convert/{header,hash,option}.rs) in both formats. The check
    of received runs leaves out one case, in which the expansion panics. *)

From S2P Require Import Prelude Uint UintCorrect Header.

(** * The wire format *)

Record BlockLevelParents := mk_level { parent_hashes : list bytes; cumulative_level : Z }.

Record BlockHeader := mk_wire {
  wire_version : Z;
  wire_parents : list BlockLevelParents;
  wire_hash_merkle_root : option bytes;
  wire_accepted_id_merkle_root : option bytes;
  wire_account_commitment : option bytes;
  wire_timestamp : Z;
  wire_bits : Z;
  wire_nonce : Z;
  wire_daa_score : Z;
  wire_blue_work : bytes;
  wire_blue_score : Z;
  wire_pruning_point : option bytes;
}.

Inductive ConversionError :=
| NoneValue
| ArrayBytesSizeError
| UintBytesSizeError
| IntCastingError
| CompressedParentsErr (e : CompressedParentsError).

Inductive HeaderFormat := Legacy | Compressed.

Definition format_of_version (version : Z) : HeaderFormat := if 9 <=? version then Compressed else Legacy.

Definition header_to_wire (format : HeaderFormat) (item : Header) : option BlockHeader :=
  parents ← match format with
            | Legacy => levels ← expanded_iter (parents_by_level item); Some (map (fun l => mk_level l 0) levels)
            | Compressed => Some (map (fun '(cum, hashes) => mk_level hashes cum) (parents_by_level item))
            end;
  if 2 ^ 63 <=? header_timestamp item then None
  else
    Some (mk_wire (header_version item) parents (Some (hash_merkle_root item)) (Some (accepted_id_merkle_root item))
            (Some (account_commitment item)) (header_timestamp item) (header_bits item) (header_nonce item)
            (header_daa_score item) (uint_to_be_bytes_var (header_blue_work item)) (header_blue_score item)
            (Some (header_pruning_point item))).

Section wire.
Abbreviation conv := (result (fault ConversionError)).

Definition hash_try_from (bs : bytes) : conv bytes :=
  if bool_decide (length bs = 32%nat) then Ok bs else Err (Error ArrayBytesSizeError).

Definition try_into_ex (o : option bytes) : conv bytes :=
  match o with Some bs => hash_try_from bs | None => Err (Error NoneValue) end.

Definition uint_cast (max x : Z) : conv Z := if (0 <=? x) && (x <=? max) then Ok x else Err (Error IntCastingError).

Fixpoint try_collect {A B} (f : A -> conv B) (l : list A) : conv (list B) :=
  match l with
  | [] => Ok []
  | x :: l' => y ← f x; ys ← try_collect f l'; Ok (y :: ys)
  end.

Definition parents_error {A} (r : result CompressedParentsError A) : conv A :=
  match r with Ok a => Ok a | Err e => Err (Error (CompressedParentsErr e)) end.

Definition run_from_wire (p : BlockLevelParents) : conv (Z * list bytes) :=
  cum ← uint_cast 255 (cumulative_level p);
  parents ← try_collect hash_try_from (parent_hashes p);
  Ok (cum, parents).

Definition parents_from_wire (format : HeaderFormat) (parents : list BlockLevelParents) : conv CompressedParents :=
  match format with
  | Compressed => runs ← try_collect run_from_wire parents; parents_error (try_from_runs runs)
  | Legacy =>
      levels ← try_collect (fun p => try_collect hash_try_from (parent_hashes p)) parents;
      parents_error (try_from_levels levels)
  end.

Context (BlockHash : bytes -> bytes).

Definition header_from_wire (format : HeaderFormat) (item : BlockHeader) : conv Header :=
  parents ← parents_from_wire format (wire_parents item);
  version ← uint_cast 65535 (wire_version item);
  merkle_root ← try_into_ex (wire_hash_merkle_root item);
  accepted_root ← try_into_ex (wire_accepted_id_merkle_root item);
  commitment ← try_into_ex (wire_account_commitment item);
  timestamp ← uint_cast U64_MAX (wire_timestamp item);
  work ← ok_or (Error UintBytesSizeError) (uint_from_be_bytes_var 3 (wire_blue_work item));
  pruning_point ← try_into_ex (wire_pruning_point item);
  ok_or Panic (new_finalized BlockHash version parents merkle_root accepted_root commitment timestamp (wire_bits item)
    (wire_nonce item) (wire_daa_score item) work (wire_blue_score item) pruning_point).
End wire.

(** * The run-length encoding *)

(** Strictly increasing from [prev], at most 255, and no run repeats the one before. *)
Fixpoint runs_ok (prev : Z) (c : CompressedParents) : Prop :=
  match c with
  | [] => True
  | (cum, parents) :: c' =>
      prev < cum <= 255 /\ match c' with (_, parents') :: _ => parents <> parents' | [] => True end /\ runs_ok cum c'
  end.

Definition header_parents_ok (c : CompressedParents) : Prop := runs_ok 0 c.

(** The same on counts. *)
Fixpoint counts_ok (l : list (Z * list bytes)) : Prop :=
  match l with
  | [] => True
  | (count, v) :: l' => 1 <= count /\ match l' with (_, v') :: _ => v <> v' | [] => True end /\ counts_ok l'
  end.

Definition expand_counts (l : list (Z * list bytes)) : list (list bytes) :=
  concat (map (fun '(count, v) => replicate (Z.to_nat count) v) l).

Lemma dedup_spec levels : counts_ok (dedup_with_count levels) /\ expand_counts (dedup_with_count levels) = levels.
Proof.
  unfold expand_counts. induction levels as [|x levels [IH1 IH2]]; [done|]. cbn [dedup_with_count].
  destruct (dedup_with_count levels) as [|[n y] r] eqn:E; [cbn in *; split; [lia|by rewrite <-IH2]|]. cbn in IH1, IH2. destruct IH1 as (Hn & Hd & Hr).
  case_decide as Hxy; cbn; (split; [repeat split; (lia || done)|]).
  - subst x. rewrite <-IH2. replace (Z.to_nat (n + 1)) with (S (Z.to_nat n)) by lia. done.
  - by rewrite <-IH2.
Qed.

Lemma cumulate_spec l prev : 0 <= prev -> counts_ok l -> prev + Z.of_nat (length (expand_counts l)) <= 255 ->
  runs_ok prev (cumulate prev l) /\ expand_from prev (cumulate prev l) = Some (expand_counts l).
Proof.
  revert prev. induction l as [|[n v] l IH]; intros prev Hp Hl Hb; [done|]. destruct Hl as (Hn & Hd & Hl).
  unfold expand_counts in Hb. cbn [map concat] in Hb. rewrite length_app, length_replicate in Hb. fold (expand_counts l) in Hb.
  destruct (IH (prev + n)) as [H1 H2]; [lia|done|lia|]. cbn [cumulate]. split.
  - cbn [runs_ok]. split; [lia|]. split; [|done]. destruct l as [|[] ?]; [done|]. done.
  - cbn [expand_from]. rewrite (proj2 (Z.leb_gt _ _)) by lia. rewrite H2. cbn. by replace (prev + n - prev) with n by lia.
Qed.

Lemma try_from_levels_spec levels : Z.of_nat (length levels) <= 255 ->
  exists c, try_from_levels levels = Ok c /\ header_parents_ok c /\ expanded_iter c = Some levels.
Proof.
  intros Hl. unfold try_from_levels. rewrite bool_decide_false by lia. eexists. split; [done|].
  destruct (dedup_spec levels) as [H1 H2]. destruct (cumulate_spec (dedup_with_count levels) 0) as [H3 H4]; [lia|done|by rewrite H2|].
  rewrite H2 in H4. done.
Qed.

(** An expansion starts with its first run. *)
Lemma expand_some prev c : runs_ok prev c -> exists levels, expand_from prev c = Some levels.
Proof.
  revert prev. induction c as [|[cum v] c IH]; intros prev; [by eexists|]. intros (Hc & _ & H). cbn.
  rewrite (proj2 (Z.leb_gt _ _)) by lia. destruct (IH cum H) as [levels ->]. by eexists.
Qed.

Lemma expand_head prev cum (v : list bytes) (c : CompressedParents) levels : expand_from prev ((cum, v) :: c) = Some levels -> exists rest,
  prev < cum /\ expand_from cum c = Some rest /\ levels = replicate (Z.to_nat (cum - prev)) v ++ rest.
Proof.
  cbn. destruct (Z.leb_spec cum prev); [done|]. destruct (expand_from cum c) as [rest|]; [|done]. cbn. intros [= <-]. by exists rest.
Qed.

Lemma dedup_replicate n (v : list bytes) rest : (0 < n)%nat -> head rest <> Some v ->
  dedup_with_count (replicate n v ++ rest) = (Z.of_nat n, v) :: dedup_with_count rest.
Proof.
  intros Hn Hr. induction n as [|n IH]; [lia|]. cbn [replicate app dedup_with_count]. destruct n as [|n].
  - cbn [replicate app]. destruct rest as [|y rest]; [done|].
    destruct (dedup_with_count (y :: rest)) as [|[m z] r] eqn:E; [done|]. rewrite decide_False; [done|].
    intros ->. apply Hr. cbn in E |- *. destruct (dedup_with_count rest) as [|[] ?]; [congruence|]. case_decide; congruence.
  - rewrite IH by lia. rewrite decide_True by done. f_equal. f_equal. lia.
Qed.

(** Runs that pass the check are the encoding of their expansion. *)
Lemma runs_canonical prev c levels : 0 <= prev -> runs_ok prev c -> expand_from prev c = Some levels -> cumulate prev (dedup_with_count levels) = c.
Proof.
  revert prev levels. induction c as [|[cum v] c IH]; intros prev levels Hp Hc E; [by injection E as <-|].
  destruct Hc as (Hcum & Hd & Hc). apply expand_head in E as (rest & _ & E & ->). rewrite dedup_replicate.
  - cbn [cumulate]. rewrite Z2Nat.id by lia. replace (prev + (cum - prev)) with cum by lia. f_equal. apply IH; [lia|done..].
  - lia.
  - destruct c as [|[cum' v'] c]; [by injection E as <-|]. destruct Hc as (Hcum' & _). apply expand_head in E as (rest' & _ & _ & ->).
    destruct (Z.to_nat (cum' - cum)) eqn:En; [lia|]. cbn. congruence.
Qed.

Lemma expand_length prev c levels : 0 <= prev -> runs_ok prev c -> expand_from prev c = Some levels ->
  match last c with Some (cum, _) => cum = prev + Z.of_nat (length levels) | None => levels = [] end.
Proof.
  revert prev levels. induction c as [|[cum v] c IH]; intros prev levels Hp Hc E; [by injection E as <-|].
  destruct Hc as (Hcum & _ & Hc). apply expand_head in E as (rest & _ & E & ->). specialize (IH cum rest ltac:(lia) Hc E).
  rewrite length_app, length_replicate. destruct c as [|p c]; [injection E as <-; cbn; lia|].
  change (last ((cum, v) :: p :: c)) with (last (p :: c)). destruct (last (p :: c)) as [[]|] eqn:El; [lia|]. by apply last_None in El.
Qed.

Lemma expanded_len_spec c levels : header_parents_ok c -> expanded_iter c = Some levels -> expanded_len c = Z.of_nat (length levels).
Proof.
  intros Hc E. pose proof (expand_length 0 c levels ltac:(lia) Hc E) as H. unfold expanded_len.
  destruct (last c) as [[]|]; [lia|]. by subst.
Qed.

Lemma run_of_spec prev c levels index : 0 <= prev -> runs_ok prev c -> expand_from prev c = Some levels -> prev <= index ->
  run_of index c = levels !! Z.to_nat (index - prev).
Proof.
  revert prev levels. induction c as [|[cum v] c IH]; intros prev levels Hp Hc E Hi; [by injection E as <-|].
  destruct Hc as (Hcum & _ & Hc). apply expand_head in E as (rest & _ & E & ->). cbn [run_of]. rewrite wsub64_small by lia.
  destruct (Z.ltb_spec (cum - 1) index) as [H|H].
  - rewrite lookup_app_r by (rewrite length_replicate; lia). rewrite length_replicate, (IH cum rest) by (done || lia). f_equal. lia.
  - rewrite lookup_app_l by (rewrite length_replicate; lia). symmetry. apply lookup_replicate. split; [done|lia].
Qed.

Lemma parents_get_spec c levels index : header_parents_ok c -> expanded_iter c = Some levels -> 0 <= index ->
  parents_get c index = levels !! Z.to_nat index.
Proof.
  intros Hc E Hi. unfold parents_get. rewrite (expanded_len_spec c levels) by done.
  destruct (Z.leb_spec (Z.of_nat (length levels)) index); [symmetry; apply lookup_ge_None; lia|].
  destruct (Z.eqb_spec index 0) as [->|Hn]; [|rewrite (run_of_spec 0 c levels) by (done || lia); f_equal; lia].
  destruct c as [|[cum v] c]; [by injection E as <-|]. apply expand_head in E as (rest & Hcum & _ & ->).
  destruct (Z.to_nat (cum - 0)) eqn:En; [lia|]. done.
Qed.

(** * Growing *)

Definition run_end (prev : Z) (c : CompressedParents) : Z := match last c with Some (cum, _) => cum | None => prev end.

Lemma run_end_cons prev cum v c : run_end prev ((cum, v) :: c) = run_end cum c.
Proof. unfold run_end. destruct c as [|p c]; [done|]. change (last ((cum, v) :: p :: c)) with (last (p :: c)). by destruct (last (p :: c)) eqn:E; [|apply last_None in E]. Qed.

Lemma runs_snoc prev c cum v :
  runs_ok prev (c ++ [(cum, v)]) <-> runs_ok prev c /\ run_end prev c < cum <= 255 /\ (snd <$> last c) <> Some v.
Proof.
  revert prev. induction c as [|[cum' v'] c IH]; intros prev; [cbn; naive_solver|].
  rewrite run_end_cons. cbn [app runs_ok]. rewrite IH. destruct c as [|[cum2 v2] c]; [cbn; naive_solver|].
  change (last ((cum', v') :: (cum2, v2) :: c)) with (last ((cum2, v2) :: c)). cbn [app]. tauto.
Qed.

Lemma expand_snoc prev c levels cum v : 0 <= prev -> runs_ok prev c -> expand_from prev c = Some levels -> run_end prev c < cum ->
  expand_from prev (c ++ [(cum, v)]) = Some (levels ++ replicate (Z.to_nat (cum - run_end prev c)) v).
Proof.
  revert prev levels. induction c as [|[cum' v'] c IH]; intros prev levels Hp Hc E Hcum.
  - injection E as <-. cbn in *. rewrite (proj2 (Z.leb_gt _ _)) by lia. cbn. by rewrite app_nil_r.
  - rewrite run_end_cons in *. destruct Hc as (Hc1 & _ & Hc). apply expand_head in E as (rest & _ & E & ->). cbn [app expand_from].
    rewrite (proj2 (Z.leb_gt _ _)) by lia. rewrite (IH cum' rest) by (done || lia). cbn. by rewrite app_assoc.
Qed.

Lemma take_snoc {A} (l : list A) x : take (length (l ++ [x]) - 1) (l ++ [x]) = l.
Proof. rewrite length_app. cbn. rewrite Nat.add_sub. apply take_app_length. Qed.

Lemma parents_push_spec c levels l : header_parents_ok c -> expanded_iter c = Some levels ->
  if bool_decide (Z.of_nat (length levels) < 255)
  then exists c', parents_push c l = Some c' /\ header_parents_ok c' /\ expanded_iter c' = Some (levels ++ [l])
  else parents_push c l = None.
Proof.
  unfold header_parents_ok, expanded_iter, expand_rle. intros Hc E. unfold parents_push.
  pose proof (expand_length 0 c levels ltac:(lia) Hc E) as Hlen. destruct (last c) as [[count lp]|] eqn:El.
  2:{ subst levels. apply last_None in El as ->. rewrite bool_decide_true by (cbn; lia). eexists. split; [done|]. cbn. split; [lia|done]. }
  destruct c as [|p c0 _] using rev_ind; [done|]. rewrite last_snoc in El. injection El as ->. cbn in Hlen.
  apply runs_snoc in Hc as (Hc & Hcum & Hne). destruct (expand_some 0 c0 Hc) as [l0 E0].
  rewrite (expand_snoc 0 c0 l0) in E by (done || lia). injection E as <-.
  case_bool_decide as Hb; [rewrite (proj2 (Z.ltb_ge _ _)) by lia|by rewrite (proj2 (Z.ltb_lt _ _)) by lia].
  case_bool_decide as Hl; eexists; (split; [done|]).
  - subst l. rewrite take_snoc. split; [apply runs_snoc; split_and!; [done|lia|lia|done]|].
    rewrite (expand_snoc 0 c0 l0) by (done || lia). rewrite <-app_assoc. f_equal. f_equal.
    replace (Z.to_nat (count + 1 - run_end 0 c0)) with (Z.to_nat (count - run_end 0 c0) + 1)%nat by lia. by rewrite replicate_add.
  - split; [apply runs_snoc; unfold run_end; rewrite last_snoc; split_and!; [by apply runs_snoc|lia|lia|cbn; congruence]|].
    rewrite (expand_snoc 0 _ (l0 ++ replicate (Z.to_nat (count - run_end 0 c0)) lp)).
    + unfold run_end at 2. rewrite last_snoc. by replace (Z.to_nat (count + 1 - count)) with 1%nat by lia.
    + lia.
    + by apply runs_snoc.
    + by apply expand_snoc; [lia|..|lia].
    + unfold run_end. rewrite last_snoc. lia.
Qed.

(** The check of received runs is the invariant without the bound on the first run. *)
Lemma check_runs_spec c : Forall (fun p => 0 <= p.1 <= 255) c -> check_runs c = Ok tt <-> runs_ok (-1) c.
Proof.
  intros Hc. assert (H : forall prev, Forall (fun p => prev < p.1) (take 1 c) -> check_runs c = Ok tt <-> runs_ok prev c).
  2:{ apply H. destruct Hc; repeat constructor. lia. }
  induction Hc as [|[cum v] c Hcum Hc IH]; intros prev Hprev; [done|]. cbn in Hcum. inversion_clear Hprev as [|? ? Hp _]. cbn in Hp.
  destruct c as [|[cum' v'] c]; [cbn; split; [lia|done]|].
  change (runs_ok prev ((cum, v) :: (cum', v') :: c)) with (prev < cum <= 255 /\ v <> v' /\ runs_ok cum ((cum', v') :: c)).
  change (check_runs ((cum, v) :: (cum', v') :: c)) with (if cum' <=? cum then Err LevelsNotStrictlyIncreasing
      else if bool_decide (v = v') then Err NotFullyCompressed else check_runs ((cum', v') :: c)).
  destruct (Z.leb_spec cum' cum); [split; [done|]; intros (_ & _ & ? & _); lia|].
  case_bool_decide as Hv; [split; [done|]; intros (_ & ? & _); done|]. rewrite (IH cum) by (repeat constructor; cbn; lia).
  split; [intros ?; split_and!; (done || lia)|tauto].
Qed.

Lemma runs_weaken prev prev' c : runs_ok prev c -> Forall (fun p => prev' < p.1) (take 1 c) -> runs_ok prev' c.
Proof. destruct c as [|[cum v] c]; [done|]. cbn. intros (H1 & H2 & H3) H. inversion_clear H as [|? ? Hp _]. cbn in Hp. split_and!; (done || lia). Qed.

Lemma runs_range prev c : 0 <= prev -> runs_ok prev c -> Forall (fun p => 0 < p.1 <= 255) c.
Proof.
  revert prev. induction c as [|[cum v] c IH]; intros prev Hp; [constructor|]. intros (Hcum & _ & Hc). constructor; [cbn; lia|].
  apply (IH cum); [lia|done].
Qed.

Lemma runs_checked c : Forall (fun p => 0 < p.1 <= 255) c -> try_from_runs c = Ok c <-> header_parents_ok c.
Proof.
  intros Hr. unfold try_from_runs. pose proof (check_runs_spec c ltac:(eapply Forall_impl; [exact Hr|cbn; lia])) as Hs. split.
  - destruct (check_runs c) as [[]|] eqn:Ec; [|done]. intros _. eapply runs_weaken; [by apply Hs|]. destruct Hr; repeat constructor. lia.
  - intros Hok. rewrite (proj2 Hs); [done|]. eapply runs_weaken; [exact Hok|]. destruct Hr; repeat constructor. lia.
Qed.

(** * The hashed bytes determine the header *)

Definition hash_ok (h : bytes) : Prop := length h = 32%nat.

Record header_ok (header : Header) : Prop := {
  ho_version : 0 <= header_version header < 2 ^ 16;
  ho_runs : header_parents_ok (parents_by_level header);
  ho_hashes : Forall (fun p => Forall hash_ok p.2 /\ Z.of_nat (length p.2) < 2 ^ 64) (parents_by_level header);
  ho_merkle : hash_ok (hash_merkle_root header);
  ho_accepted : hash_ok (accepted_id_merkle_root header);
  ho_commitment : hash_ok (account_commitment header);
  ho_timestamp : u64_range (header_timestamp header);
  ho_bits : 0 <= header_bits header < 2 ^ 32;
  ho_nonce : u64_range (header_nonce header);
  ho_daa : u64_range (header_daa_score header);
  ho_work : limbs_ok (header_blue_work header) /\ length (header_blue_work header) = 3%nat;
  ho_score : u64_range (header_blue_score header);
  ho_pruning : hash_ok (header_pruning_point header);
}.

Definition level_ok (l : list bytes) : Prop := Forall hash_ok l /\ Z.of_nat (length l) < 2 ^ 64.

Lemma expand_levels_ok prev c levels : Forall (fun p => level_ok p.2) c -> expand_from prev c = Some levels -> Forall level_ok levels.
Proof.
  intros Hc. revert prev levels. induction Hc as [|[cum v] c Hv Hc IH]; intros prev levels E; [by injection E as <-|].
  apply expand_head in E as (rest & _ & E & ->). apply Forall_app. split; [by apply Forall_replicate|by eapply IH].
Qed.

Lemma app_split {A} n (a b c d : list A) : length a = n -> length c = n -> a ++ b = c ++ d -> a = c /\ b = d.
Proof. intros H1 H2. apply app_inj_1. congruence. Qed.

Lemma to_le_split n x y a b : 0 <= x < 256 ^ Z.of_nat n -> 0 <= y < 256 ^ Z.of_nat n -> to_le n x ++ a = to_le n y ++ b -> x = y /\ a = b.
Proof.
  intros Hx Hy [E1 E2]%(app_split n); [|apply length_to_le..]. split; [|done]. by apply (to_le_inj n).
Qed.

Lemma concat_split (l l' : list bytes) a b : Forall hash_ok l -> Forall hash_ok l' -> length l = length l' ->
  concat l ++ a = concat l' ++ b -> l = l' /\ a = b.
Proof.
  intros Hl. revert l'. induction Hl as [|x l Hx Hl IH]; intros [|y l'] Hl' Hlen; try done. cbn. rewrite <-!app_assoc.
  apply Forall_cons in Hl' as [Hy Hl']. intros [-> E]%(app_split 32); [|done..].
  destruct (IH l' Hl' ltac:(by injection Hlen) E) as [-> ->]. done.
Qed.

Lemma var_array_split l l' a b : level_ok l -> level_ok l' -> write_var_array l ++ a = write_var_array l' ++ b -> l = l' /\ a = b.
Proof.
  unfold write_var_array, write_len. intros [Hl Hn] [Hl' Hn']. rewrite <-!app_assoc. intros [Hlen E]%to_le_split.
  - apply concat_split in E; [done..|lia].
  - change (256 ^ Z.of_nat 8) with (2 ^ 64). lia.
  - change (256 ^ Z.of_nat 8) with (2 ^ 64). lia.
Qed.

Lemma levels_split ls ls' a b : Forall level_ok ls -> Forall level_ok ls' -> length ls = length ls' ->
  concat (map write_var_array ls) ++ a = concat (map write_var_array ls') ++ b -> ls = ls' /\ a = b.
Proof.
  intros Hl. revert ls'. induction Hl as [|x l Hx Hl IH]; intros [|y l'] Hl' Hlen; try done. cbn [map concat]. rewrite <-!app_assoc.
  apply Forall_cons in Hl' as [Hy Hl']. intros [-> E]%var_array_split; [|done..].
  destruct (IH l' Hl' ltac:(by injection Hlen) E) as [-> ->]. done.
Qed.

Lemma skip_zeros_length bs : (length (skip_zeros bs) <= length bs)%nat.
Proof. rewrite (skip_zeros_replicate bs) at 2. rewrite length_app. lia. Qed.

Lemma blue_work_split w w' a b : limbs_ok w -> limbs_ok w' -> length w = 3%nat -> length w' = 3%nat ->
  write_blue_work w ++ a = write_blue_work w' ++ b -> w = w' /\ a = b.
Proof.
  unfold write_blue_work, write_var_bytes, write_len. intros Hw Hw' Hl Hl'. rewrite <-!app_assoc.
  pose proof (skip_zeros_length (uint_to_be_bytes w)) as B1. pose proof (skip_zeros_length (uint_to_be_bytes w')) as B2.
  rewrite length_to_be_bytes in B1, B2. intros [Hn E]%to_le_split.
  - apply app_inj_1 in E as [E ->]; [|lia]. split; [|done].
    pose proof (uint_be_bytes_var_roundtrip w Hw) as R1. pose proof (uint_be_bytes_var_roundtrip w' Hw') as R2.
    unfold uint_to_be_bytes_var in *. rewrite E in R1. rewrite Hl, <-Hl' in R1. congruence.
  - change (256 ^ Z.of_nat 8) with (2 ^ 64). lia.
  - change (256 ^ Z.of_nat 8) with (2 ^ 64). lia.
Qed.

Lemma parents_determined c c' levels : header_parents_ok c -> header_parents_ok c' -> expanded_iter c = Some levels ->
  expanded_iter c' = Some levels -> c = c'.
Proof. intros Hc Hc' E E'. by rewrite <-(runs_canonical 0 c levels), <-(runs_canonical 0 c' levels). Qed.

Lemma header_levels header : header_ok header -> exists levels, expanded_iter (parents_by_level header) = Some levels /\
  Forall level_ok levels /\ expanded_len (parents_by_level header) = Z.of_nat (length levels) /\ Z.of_nat (length levels) <= 255.
Proof.
  intros H. pose proof (ho_runs _ H) as Hr. destruct (expand_some 0 _ Hr) as [levels E]. exists levels.
  split_and!; [done|by eapply expand_levels_ok; [apply H|]|by apply expanded_len_spec|].
  rewrite <-(expanded_len_spec _ _ Hr E). unfold expanded_len. destruct (last _) as [[cum v]|] eqn:El; [|lia].
  destruct (parents_by_level header) as [|p c _] using rev_ind; [done|]. rewrite last_snoc in El. injection El as ->.
  apply runs_snoc in Hr. lia.
Qed.

Ltac split_le := match goal with
  | E : to_le _ _ ++ _ = to_le _ _ ++ _ |- _ => apply to_le_split in E as [? E]; [|done..]
  end.

Lemma preimage_injective h1 h2 n1 n2 t1 t2 : header_ok h1 -> header_ok h2 -> u64_range n1 -> u64_range n2 -> u64_range t1 -> u64_range t2 ->
  header_preimage h1 n1 t1 = header_preimage h2 n2 t2 ->
  n1 = n2 /\ t1 = t2 /\ with_hash h1 [] = with_hash (mk_header [] (header_version h2) (parents_by_level h2) (hash_merkle_root h2)
    (accepted_id_merkle_root h2) (account_commitment h2) (header_timestamp h1) (header_bits h2) (header_nonce h1) (header_daa_score h2)
    (header_blue_work h2) (header_blue_score h2) (header_pruning_point h2)) [].
Proof.
  intros H1 H2 Hn1 Hn2 Ht1 Ht2. unfold header_preimage.
  destruct (header_levels h1 H1) as (ls1 & E1 & Ho1 & Hl1 & Hb1). destruct (header_levels h2 H2) as (ls2 & E2 & Ho2 & Hl2 & Hb2).
  rewrite E1, E2. cbn [mbind option_bind]. rewrite Hl1, Hl2. intros E%(inj Some). destruct H1 as [], H2 as [].
  apply to_le_split in E as [Ev E]; [|done..]. apply to_le_split in E as [El E]; [|change (256 ^ Z.of_nat 8) with (2 ^ 64); lia..].
  apply levels_split in E as [-> E]; [|done|done|lia].
  do 3 (apply (app_split 32) in E as [? E]; [|done..]). do 5 split_le.
  destruct ho_work0, ho_work1. apply blue_work_split in E as [Ew Ep]; [|done..].
  assert (parents_by_level h1 = parents_by_level h2) as Epar by (by eapply parents_determined).
  split_and!; [done..|]. unfold with_hash. cbn. congruence.
Qed.

(** * The wire *)

Lemma try_collect_hashes l : Forall hash_ok l -> try_collect hash_try_from l = Ok l.
Proof. induction 1 as [|x l Hx Hl IH]; [done|]. cbn. rewrite IH. unfold hash_try_from. by rewrite bool_decide_true. Qed.

Lemma try_collect_map {A B C} (f : A -> result (fault ConversionError) B) (g : C -> A) (k : C -> B) l :
  Forall (fun x => f (g x) = Ok (k x)) l -> try_collect f (map g l) = Ok (map k l).
Proof. induction 1 as [|x l Hx Hl IH]; [done|]. cbn. rewrite Hx. cbn. by rewrite IH. Qed.

Lemma try_collect_forall {A B} (f : A -> result (fault ConversionError) B) (P : B -> Prop) l l' :
  (forall x y, f x = Ok y -> P y) -> try_collect f l = Ok l' -> Forall P l'.
Proof.
  intros Hf. revert l'. induction l as [|x l IH]; intros l'; cbn; [by intros [= <-]|].
  intros (y & Hy & H)%result_bind_ok. apply result_bind_ok in H as (ys & Hys & [= <-]). constructor; eauto.
Qed.

(** Converting parents never panics. *)
Lemma try_collect_total {A B} (f : A -> result (fault ConversionError) B) l :
  (forall x, f x <> Err Panic) -> try_collect f l <> Err Panic.
Proof.
  intros Hf. induction l as [|x l IH]; [done|]. cbn. specialize (Hf x). destruct (f x) as [y|e]; cbn; [|congruence].
  destruct (try_collect f l); cbn; congruence.
Qed.

Lemma hash_total bs : hash_try_from bs <> Err Panic.
Proof. unfold hash_try_from. by case_bool_decide. Qed.

Lemma parents_from_wire_total format parents : parents_from_wire format parents <> Err Panic.
Proof.
  destruct format; cbn.
  - assert (H : try_collect (fun p => try_collect hash_try_from (parent_hashes p)) parents <> Err Panic).
    { apply try_collect_total. intros x. apply try_collect_total, hash_total. }
    destruct (try_collect _ parents) as [levels|e]; cbn; [|congruence]. by destruct (try_from_levels levels).
  - assert (H : try_collect run_from_wire parents <> Err Panic).
    { apply try_collect_total. intros x. unfold run_from_wire, uint_cast. case_match; cbn; [|done].
      pose proof (try_collect_total hash_try_from (parent_hashes x) hash_total). destruct (try_collect _ _); cbn; congruence. }
    destruct (try_collect run_from_wire parents) as [runs|e]; cbn; [|congruence]. by destruct (try_from_runs runs).
Qed.

(** The runs a received header may have. *)
Lemma parents_from_wire_runs format parents c : parents_from_wire format parents = Ok c ->
  match format with Legacy => runs_ok 0 c | Compressed => runs_ok (-1) c end.
Proof.
  destruct format; cbn; intros (l & Hl & H)%result_bind_ok.
  - destruct (decide (Z.of_nat (length l) <= 255)) as [Hb|Hb].
    + destruct (try_from_levels_spec l Hb) as (c' & E & Hc & _). rewrite E in H. by injection H as <-.
    + unfold try_from_levels in H. by rewrite bool_decide_true in H by lia.
  - unfold try_from_runs in H. destruct (check_runs l) as [[]|] eqn:E; [|done]. injection H as <-. apply check_runs_spec; [|done].
    eapply try_collect_forall; [|exact Hl]. intros p [cum v]. unfold run_from_wire, uint_cast.
    case_match eqn:Ec; [|done]. cbn. intros (? & _ & [= <- _])%result_bind_ok. apply andb_true_iff in Ec. cbn. lia.
Qed.

Lemma expand_panics c : runs_ok (-1) c -> expanded_iter c = None <-> exists v c', c = (0, v) :: c'.
Proof.
  intros Hc. split.
  - intros E. destruct c as [|[cum v] c]; [done|]. destruct (decide (cum = 0)) as [->|Hn]; [by eexists _, _|].
    assert (H : runs_ok 0 ((cum, v) :: c)) by (eapply runs_weaken; [exact Hc|]; destruct Hc; repeat constructor; cbn; lia).
    apply expand_some in H as [levels H]. unfold expanded_iter, expand_rle in E. congruence.
  - by intros (v & c' & ->).
Qed.

Definition without_parents (item : BlockHeader) : BlockHeader :=
  mk_wire (wire_version item) [] (wire_hash_merkle_root item) (wire_accepted_id_merkle_root item) (wire_account_commitment item)
    (wire_timestamp item) (wire_bits item) (wire_nonce item) (wire_daa_score item) (wire_blue_work item) (wire_blue_score item)
    (wire_pruning_point item).

Section theorems.
Context (BlockHash : bytes -> bytes).

Lemma new_finalized_some version parents merkle accepted commitment timestamp bits nonce daa work score pruning :
  (exists header, new_finalized BlockHash version parents merkle accepted commitment timestamp bits nonce daa work score pruning = Some header) <->
  expanded_iter parents <> None.
Proof.
  unfold new_finalized, finalize, hash_header, hash_override_nonce_time, header_preimage. cbn [parents_by_level].
  destruct (expanded_iter parents); cbn [mbind option_bind]; [split; [done|intros _; by eexists]|]. split; [by intros [? ?]|done].
Qed.

(** The conversions after the parents do not depend on them. *)
Lemma from_wire_panic format item : header_from_wire BlockHash format item = Err Panic <->
  (exists header, header_from_wire BlockHash format (without_parents item) = Ok header) /\
  exists c, parents_from_wire format (wire_parents item) = Ok c /\ expanded_iter c = None.
Proof.
  unfold header_from_wire. replace (parents_from_wire format (wire_parents (without_parents item))) with (Ok (E := fault ConversionError) ([] : CompressedParents))
    by (by destruct format). cbn [mbind result_bind without_parents wire_version wire_hash_merkle_root wire_accepted_id_merkle_root
      wire_account_commitment wire_timestamp wire_bits wire_nonce wire_daa_score wire_blue_work wire_blue_score wire_pruning_point].
  pose proof (parents_from_wire_total format (wire_parents item)) as Ht.
  destruct (parents_from_wire format (wire_parents item)) as [c|e]; [|split; [cbn; congruence|by intros (_ & ? & ? & _)]].
  assert (Hx : (exists c', (Ok c : result (fault ConversionError) CompressedParents) = Ok c' /\ expanded_iter c' = None) <-> expanded_iter c = None).
  { split; [by intros (? & [= <-] & ?)|by exists c]. }
  rewrite Hx. clear Hx Ht. unfold uint_cast, try_into_ex, hash_try_from, ok_or, mbind, result_bind.
  repeat (match goal with |- context [if ?b then _ else _] => destruct b | |- context [match ?o with Some _ => _ | None => _ end] =>
    lazymatch o with new_finalized _ _ _ _ _ _ _ _ _ _ _ _ _ => fail | _ => destruct o end end; try (split; [done|by intros ((? & ?) & _)])).
  match goal with |- context [new_finalized BlockHash ?v c ?m ?a ?cm ?t ?b ?n ?d ?w ?s ?p] =>
    pose proof (new_finalized_some v c m a cm t b n d w s p) as Hc; pose proof (proj2 (new_finalized_some v [] m a cm t b n d w s p) ltac:(done)) as [h ->] end.
  destruct (new_finalized BlockHash _ c) as [h'|]; split; [done| | |done].
  - intros [_ E]. by destruct (proj1 Hc ltac:(by eexists)).
  - intros _. split; [by eexists|]. destruct (expanded_iter c); [|done]. by destruct (proj2 Hc ltac:(done)).
Qed.
End theorems.

Lemma legacy_parents c levels : header_parents_ok c -> Forall level_ok levels -> expanded_iter c = Some levels -> Z.of_nat (length levels) <= 255 ->
  parents_from_wire Legacy (map (fun l => mk_level l 0) levels) = Ok c.
Proof.
  intros Hc Hl E Hb. cbn. rewrite (try_collect_map _ _ id).
  - rewrite map_id. cbn [mbind result_bind]. destruct (try_from_levels_spec levels Hb) as (c' & -> & Hc' & E').
    by rewrite (parents_determined c c' levels).
  - eapply Forall_impl; [exact Hl|]. intros l [H _]. by apply try_collect_hashes.
Qed.

Lemma compressed_parents c : header_parents_ok c -> Forall (fun p => level_ok p.2) c ->
  parents_from_wire Compressed (map (fun '(cum, hashes) => mk_level hashes cum) c) = Ok c.
Proof.
  intros Hc Hl. pose proof (runs_range 0 c ltac:(lia) Hc) as Hr.
  cbn. rewrite (try_collect_map run_from_wire (fun '(cum, hashes) => mk_level hashes cum) id).
  - rewrite map_id. cbn [mbind result_bind]. by rewrite (proj2 (runs_checked c Hr)).
  - apply Forall_forall. intros [cum v] Hin. rewrite Forall_forall in Hl, Hr. specialize (Hl _ Hin) as [Hl _]. specialize (Hr _ Hin). cbn in Hl, Hr.
    unfold run_from_wire, uint_cast. cbn [cumulative_level parent_hashes]. rewrite (proj2 (Z.leb_le _ _)), (proj2 (Z.leb_le _ _)) by lia. cbn [andb mbind result_bind].
    by rewrite try_collect_hashes.
Qed.

(** C21: The run-length encoding of the parents by level is exact: up to 255 levels encode,
    decode to themselves, are read at every index, and grow by [push], which panics on
    the 256th level; encodings of the same levels are equal, and the encoding passes the
    check of received runs. *)
Theorem compressed_parents_exact (levels : list (list bytes)) :
  if bool_decide (Z.of_nat (length levels) <= 255)
  then exists c, try_from_levels levels = Ok c /\ expanded_iter c = Some levels /\ expanded_len c = Z.of_nat (length levels) /\
    (forall index, 0 <= index -> parents_get c index = levels !! Z.to_nat index) /\ try_from_runs c = Ok c /\
    (forall c', try_from_runs c' = Ok c' -> Forall (fun p => 0 < p.1 <= 255) c' -> expanded_iter c' = Some levels -> c' = c) /\
    (forall level, parents_push c level =
       match try_from_levels (levels ++ [level]) with Ok c' => Some c' | Err _ => None end)
  else try_from_levels levels = Err LevelsExceeded.
Proof.
  case_bool_decide as Hb; [|unfold try_from_levels; by rewrite bool_decide_true by lia].
  destruct (try_from_levels_spec levels Hb) as (c & E & Hc & El). exists c.
  split_and!; [done|done|by apply expanded_len_spec|intros index Hi; by apply parents_get_spec| | |].
  - apply runs_checked; [by eapply runs_range|done].
  - intros c' Hr Hf E'. apply (parents_determined c' c levels); [by apply runs_checked|done..].
  - intros level. pose proof (parents_push_spec c levels level Hc El) as Hp. case_bool_decide as Hb'.
    + destruct Hp as (c' & -> & Hc' & E'). destruct (try_from_levels_spec (levels ++ [level])) as (c2 & -> & Hc2 & E2); [rewrite length_app; cbn; lia|].
      f_equal. by apply (parents_determined c' c2 (levels ++ [level])).
    + rewrite Hp. unfold try_from_levels. rewrite bool_decide_true; [done|]. rewrite length_app. cbn. lia.
Qed.

(** C22: The hash of a header binds all of it: two headers with the same hash have the same
    fields, parents of every level included, or their encodings are a collision of the hash function. *)
Theorem header_hash_binds (BlockHash : bytes -> bytes) (h1 h2 : Header) (H1 : header_ok h1) (H2 : header_ok h2)
    (E : hash_header BlockHash h1 = hash_header BlockHash h2) :
  with_hash h1 [] = with_hash h2 [] \/ exists p1 p2, header_preimage h1 (header_nonce h1) (header_timestamp h1) = Some p1 /\
    header_preimage h2 (header_nonce h2) (header_timestamp h2) = Some p2 /\ p1 <> p2 /\ BlockHash p1 = BlockHash p2.
Proof.
  unfold hash_header, hash_override_nonce_time in E.
  destruct (header_preimage h1 _ _) as [p1|] eqn:E1.
  2:{ unfold header_preimage in E1. destruct (header_levels h1 H1) as (? & Hl & _). by rewrite Hl in E1. }
  destruct (header_preimage h2 _ _) as [p2|] eqn:E2; [|done]. injection E as E.
  destruct (decide (p1 = p2)) as [->|Hne]; [left|by right; exists p1, p2].
  destruct (preimage_injective h1 h2 (header_nonce h1) (header_nonce h2) (header_timestamp h1) (header_timestamp h2)) as (En & Et & ->);
    [done|done|apply H1|apply H2|apply H1|apply H2|congruence|]. unfold with_hash. cbn. congruence.
Qed.

(** C25: A header survives the wire: in the compressed and in the legacy format, what a peer
    reads of a sent header is the header, when its hash is the hash of its content and its
    timestamp is below 2^63. *)
Theorem header_wire_roundtrip (BlockHash : bytes -> bytes) (format : HeaderFormat) (h : Header) (Hok : header_ok h)
    (Hts : header_timestamp h < 2 ^ 63) (Hfin : finalize BlockHash h = Some h) :
  exists w, header_to_wire format h = Some w /\ header_from_wire BlockHash format w = Ok h.
Proof.
  destruct (header_levels h Hok) as (levels & El & Hlv & _ & Hb). pose proof Hok as [].
  assert (Hps : exists ps, match format with
      | Legacy => levels ← expanded_iter (parents_by_level h); Some (map (fun l => mk_level l 0) levels)
      | Compressed => Some (map (fun '(cum, hashes) => mk_level hashes cum) (parents_by_level h)) end = Some ps /\
      parents_from_wire format ps = Ok (parents_by_level h)).
  { destruct format; [rewrite El; eexists; split; [done|]; by apply legacy_parents|]. eexists. split; [done|]. by apply compressed_parents. }
  destruct Hps as (ps & Eps & Hps). unfold header_to_wire. rewrite Eps. cbn [mbind option_bind]. rewrite (proj2 (Z.leb_gt _ _)) by lia.
  eexists. split; [done|]. unfold header_from_wire. cbn [wire_version wire_parents wire_hash_merkle_root wire_accepted_id_merkle_root
    wire_account_commitment wire_timestamp wire_bits wire_nonce wire_daa_score wire_blue_work wire_blue_score wire_pruning_point].
  rewrite Hps. unfold uint_cast, try_into_ex, hash_try_from. rewrite !bool_decide_true by done.
  rewrite (proj2 (Z.leb_le 0 (header_version h))), (proj2 (Z.leb_le (header_version h) 65535)),
    (proj2 (Z.leb_le 0 (header_timestamp h))), (proj2 (Z.leb_le (header_timestamp h) U64_MAX)) by (unfold U64_MAX; lia).
  destruct ho_work0 as [Hw1 Hw2]. pose proof (uint_be_bytes_var_roundtrip _ Hw1) as Hw. rewrite Hw2 in Hw. rewrite Hw.
  cbn [andb mbind result_bind ok_or]. unfold new_finalized. destruct h. unfold finalize, hash_header, with_hash in *. cbn in *. by rewrite Hfin.
Qed.

(** A received header of three levels, whose first run ends at level 0. *)
Definition zero_run_header : BlockHeader :=
  mk_wire 1 [mk_level [replicate 32 1] 0; mk_level [replicate 32 2] 3] (Some (replicate 32 0)) (Some (replicate 32 0)) (Some (replicate 32 0))
    0 0 0 0 [] 0 (Some (replicate 32 0)).

(** C24: Converting a received header panics in exactly one case: the compressed format,
    all fields well formed, and a first run with cumulative level 0, which the check of
    the runs accepts and the expansion for the hash does not. A peer can send such a
    header. *)
Theorem wire_header_panics_exactly (BlockHash : bytes -> bytes) :
  (forall format item, header_from_wire BlockHash format item = Err Panic <->
     format = Compressed /\ (exists header, header_from_wire BlockHash format (without_parents item) = Ok header) /\
     exists v c, parents_from_wire format (wire_parents item) = Ok ((0, v) :: c)) /\
  header_from_wire BlockHash (format_of_version 9) zero_run_header = Err Panic.
Proof.
  split; [|done]. intros format item. rewrite from_wire_panic.
  assert (H : (exists c, parents_from_wire format (wire_parents item) = Ok c /\ expanded_iter c = None) <->
    format = Compressed /\ exists v c, parents_from_wire format (wire_parents item) = Ok ((0, v) :: c)); [|rewrite H; tauto].
  split.
  - intros (c & Hc & E). pose proof (parents_from_wire_runs format _ c Hc) as Hr. destruct format.
    + apply expand_some in Hr as [levels Hl]. unfold expanded_iter, expand_rle in E. congruence.
    + split; [done|]. apply (expand_panics c Hr) in E as (v & c' & ->). eauto.
  - intros (-> & v & c & Hc). exists ((0, v) :: c). split; [done|]. done.
Qed.

(** * A concrete header *)

Definition demo_block_hash (bs : bytes) : bytes := to_le 32 (from_le (take 200 bs)).

Definition demo_block_header : Header :=
  mk_header (demo_block_hash []) 1 [(2, [replicate 32 1; replicate 32 2]); (3, [replicate 32 1])] (replicate 32 3) (replicate 32 4) (replicate 32 5)
    1700000000000 505806847 42 7 [51; 1; 0] 6 (replicate 32 1).

Definition demo_finalized : Header := default demo_block_header (finalize demo_block_hash demo_block_header).

Lemma demo_header_ok h : header_ok (with_hash demo_block_header h).
Proof.
  split; cbn; try (split; done); try done.
  - repeat constructor.
  - split; [|done]. repeat (constructor; [lia|]). constructor.
Qed.

Lemma header_hash_binds_witness :
  with_hash (with_hash demo_block_header [1]) [] = with_hash (with_hash demo_block_header [2]) [].
Proof.
  destruct (header_hash_binds demo_block_hash (with_hash demo_block_header [1]) (with_hash demo_block_header [2])) as [H|(p1 & p2 & E1 & E2 & Hne & _)];
    [apply demo_header_ok|apply demo_header_ok|reflexivity|exact H|]. destruct Hne.
  assert (E : Some p1 = Some p2) by (rewrite <-E1, <-E2; reflexivity). by injection E.
Defined.

Lemma header_wire_roundtrip_witness : exists w,
  header_to_wire Compressed demo_finalized = Some w /\ header_from_wire demo_block_hash Compressed w = Ok demo_finalized.
Proof.
  apply (header_wire_roundtrip demo_block_hash Compressed demo_finalized); [apply (demo_header_ok (header_hash demo_finalized))|by vm_compute|by vm_compute].
Defined.
