(* ===== verification/Merkle.v ===== *)
(** The transactions a header commits to: the bytes a transaction is hashed from
    (consensus/core/src/hashing/tx.rs), the Merkle root over the hashes
    (crypto/merkle/src/lib.rs, consensus/core/src/merkle.rs), and what the root binds.

    [None] is a panic. The hash functions [TransactionHash], [TransactionID] and
    [MerkleBranchHash] are parameters. *)

From S2P Require Import Prelude Tx Header HeaderCodec.

(** * hashing/tx.rs *)

Definition FULL : Z := 0.
Definition EXCLUDE_SIGNATURE_SCRIPT : Z := 1.
Definition EXCLUDE_MASS_COMMIT : Z := 2.
Definition flags_contain (flags flag : Z) : bool := Z.land flags flag =? flag.

Definition write_outpoint (o : RegistryRef) : bytes := transaction_id o ++ to_le 4 (index o).

Definition write_input (flags : Z) (i : TransactionInput) : bytes :=
  write_outpoint (previous_outpoint i) ++
  (if negb (flags_contain flags EXCLUDE_SIGNATURE_SCRIPT) then write_var_bytes (signature_script i) ++ [sig_op_count i]
   else write_var_bytes []) ++
  to_le 8 (sequence i).

Definition write_output (o : TransactionOutput) : bytes :=
  to_le 8 (value o) ++ to_le 2 (spk_version (script_public_key o)) ++ write_var_bytes (spk_script (script_public_key o)).

Definition write_transaction (flags : Z) (tx : Transaction) : bytes :=
  to_le 2 (tx_version tx) ++ write_len (length (inputs tx)) ++ concat (map (write_input flags) (inputs tx)) ++
  write_len (length (outputs tx)) ++ concat (map write_output (outputs tx)) ++
  to_le 8 (lock_time tx) ++ subnetwork_id tx ++ to_le 8 (gas tx) ++ write_var_bytes (payload tx) ++
  (if negb (flags_contain flags EXCLUDE_MASS_COMMIT) then if 0 <? mass tx then to_le 8 (mass tx) else [] else []).

Section tx_hash.
Context (TransactionHash TransactionID : bytes -> bytes).

Definition tx_hash (tx : Transaction) : bytes := TransactionHash (write_transaction FULL tx).
Definition tx_hash_pre_raigad (tx : Transaction) : bytes := TransactionHash (write_transaction EXCLUDE_MASS_COMMIT tx).

Definition compute_tx_id (tx : Transaction) : bytes :=
  let flags := if is_coinbase tx then FULL else Z.lor EXCLUDE_SIGNATURE_SCRIPT EXCLUDE_MASS_COMMIT in
  TransactionID (write_transaction flags tx).
End tx_hash.

(** * crypto/merkle/src/lib.rs *)

Definition next_power_of_two (n : nat) : nat := 2 ^ Nat.log2_up n.

Section merkle.
Context (MerkleBranchHash : bytes -> bytes).

Definition merkle_hash (l r : bytes) : bytes := MerkleBranchHash (l ++ r).

(** One write of the loop: the value at [offset] from the two at [i]. *)
Definition merkle_parent (l r : option bytes) : option bytes :=
  match l with Some a => Some (merkle_hash a (default zero_hash r)) | None => None end.

Fixpoint merkle_loop (steps i offset : nat) (merkles : list (option bytes)) : option (list (option bytes)) :=
  match steps with
  | O => Some merkles
  | S steps' =>
      l ← merkles !! i;
      v ← (match l with None => Some None | Some _ => r ← merkles !! S i; Some (merkle_parent l r) end);
      if (offset <? length merkles)%nat then merkle_loop steps' (S (S i)) (S offset) (<[offset := v]> merkles) else None
  end.

Definition calc_merkle_root (hashes : list bytes) : option bytes :=
  if (length hashes =? 0)%nat then Some zero_hash
  else
    let next_pot := next_power_of_two (length hashes) in
    let vec_len := (2 * next_pot - 1)%nat in
    let merkles := map Some hashes ++ replicate (vec_len - length hashes) None in
    merkles ← merkle_loop (vec_len / 2) 0 next_pot merkles;
    v ← last merkles; v.

Definition calc_hash_merkle_root (TransactionHash : bytes -> bytes) (txs : list Transaction) : option bytes :=
  calc_merkle_root (map (tx_hash TransactionHash) txs).

Definition calc_hash_merkle_root_pre_raigad (TransactionHash : bytes -> bytes) (txs : list Transaction) : option bytes :=
  calc_merkle_root (map (tx_hash_pre_raigad TransactionHash) txs).
End merkle.

(** * The root as a tree *)

Section reference.
Context (MerkleBranchHash : bytes -> bytes).
Abbreviation parent := (merkle_parent MerkleBranchHash).
Abbreviation mhash := (merkle_hash MerkleBranchHash).

(** The tree of [2 ^ depth] leaves, those of [hashes] and then absent ones. *)
Fixpoint merkle_tree (depth : nat) (hashes : list bytes) : option bytes :=
  match depth with
  | O => head hashes
  | S d => parent (merkle_tree d (take (2 ^ d) hashes)) (merkle_tree d (drop (2 ^ d) hashes))
  end.

(** The pairs that are hashed in it. *)
Fixpoint branches (depth : nat) (hashes : list bytes) : list (bytes * bytes) :=
  match depth with
  | O => []
  | S d =>
      let l := take (2 ^ d) hashes in let r := drop (2 ^ d) hashes in
      match merkle_tree d l with
      | Some a => (a, default zero_hash (merkle_tree d r)) :: branches d l ++ branches d r
      | None => []
      end
  end.

(** ** The array of the loop *)

(** The level above a level, and all levels one after the other. *)
Fixpoint level_up (l : list (option bytes)) : list (option bytes) :=
  match l with a :: b :: l' => parent a b :: level_up l' | _ => [] end.

Fixpoint levels_of (depth : nat) (l : list (option bytes)) : list (option bytes) :=
  match depth with O => l | S d => l ++ levels_of d (level_up l) end.

Lemma level_up_lookup n l i : length l = (2 * n)%nat -> (i < n)%nat ->
  exists a b, l !! (2 * i)%nat = Some a /\ l !! S (2 * i) = Some b /\ level_up l !! i = Some (parent a b).
Proof.
  revert l i. induction n as [|n IH]; intros l i Hl Hi; [lia|]. destruct l as [|a [|b l]]; [cbn in Hl; lia..|].
  destruct i as [|i]; [by exists a, b|]. replace (2 * S i)%nat with (S (S (2 * i))) by lia. cbn [lookup list_lookup level_up]. apply IH; [cbn in Hl; lia|lia].
Qed.

Lemma level_up_length n l : length l = (2 * n)%nat -> length (level_up l) = n.
Proof. revert l. induction n as [|n IH]; intros [|a [|b l]] Hl; cbn [length level_up] in *; try lia. rewrite IH; lia. Qed.

Lemma levels_length d l : length l = (2 ^ d)%nat -> length (levels_of d l) = (2 * 2 ^ d - 1)%nat.
Proof.
  revert l. induction d as [|d IH]; intros l Hl; cbn [levels_of]; [cbn in *; lia|]. rewrite length_app, IH; [|by apply level_up_length].
  rewrite Hl. pose proof (Nat.pow_nonzero 2 d). cbn [Nat.pow]. lia.
Qed.

(** Every entry past the first level is the parent of two before it. *)
Lemma levels_lookup d l i : length l = (2 ^ d)%nat -> (S i < 2 ^ d)%nat -> exists a b,
  levels_of d l !! (2 * i)%nat = Some a /\ levels_of d l !! S (2 * i) = Some b /\ levels_of d l !! (2 ^ d + i)%nat = Some (parent a b).
Proof.
  revert l i. induction d as [|d IH]; intros l i Hl Hi; [cbn in Hi; lia|]. cbn [levels_of].
  pose proof (level_up_length (2 ^ d) l Hl) as Hu. assert (Hp : (2 ^ S d = 2 * 2 ^ d)%nat) by done.
  rewrite (lookup_app_r l _ (2 ^ S d + i)) by lia. rewrite Hl. replace (2 ^ S d + i - 2 ^ S d)%nat with i by lia. destruct (decide (i < 2 ^ d)%nat) as [Hlt|Hge].
  - destruct (level_up_lookup (2 ^ d) l i Hl Hlt) as (a & b & Ha & Hb & Hab). exists a, b. rewrite !lookup_app_l by lia.
    split; [done|]. split; [done|]. destruct d as [|d]; [done|]. cbn [levels_of]. rewrite lookup_app_l by (rewrite Hu; done). done.
  - set (j := (i - 2 ^ d)%nat). destruct (IH (level_up l) j Hu ltac:(lia)) as (a & b & Ha & Hb & Hab). exists a, b.
    rewrite !(lookup_app_r l) by lia. rewrite Hl. replace (2 * i - 2 ^ S d)%nat with (2 * j)%nat by lia. replace (S (2 * i) - 2 ^ S d)%nat with (S (2 * j)) by lia.
    replace i with (2 ^ d + j)%nat at 1 by lia. done.
Qed.

Lemma merkle_loop_run d l : length l = (2 ^ d)%nat -> forall steps j merkles, (steps + S j = 2 ^ d)%nat -> length merkles = (2 * 2 ^ d - 1)%nat ->
  (forall x, (x < 2 ^ d + j)%nat -> merkles !! x = levels_of d l !! x) ->
  merkle_loop MerkleBranchHash steps (2 * j) (2 ^ d + j) merkles = Some (levels_of d l).
Proof.
  intros Hl. induction steps as [|steps IH]; intros j merkles Hj Hlen Hin; cbn [merkle_loop].
  - f_equal. apply list_eq_same_length with (2 * 2 ^ d - 1)%nat; [by apply levels_length|done|]. intros i x y Hi. rewrite Hin by lia. congruence.
  - destruct (levels_lookup d l j Hl ltac:(lia)) as (a & b & Ha & Hb & Hab). rewrite (Hin (2 * j)%nat), (Hin (S (2 * j))), Ha, Hb by lia. cbn [mbind option_bind].
    assert (Hv : (match a with Some _ => Some (parent a b) | None => Some None end) = Some (parent a b)) by (by destruct a).
    rewrite Hv. rewrite (proj2 (Nat.ltb_lt _ _)) by lia. replace (S (S (2 * j))) with (2 * S j)%nat by lia. replace (S (2 ^ d + j)) with (2 ^ d + S j)%nat by lia.
    apply IH; [lia|by rewrite length_insert|]. intros x Hx. destruct (decide (x = 2 ^ d + j)%nat) as [->|Hne]; [rewrite list_lookup_insert_eq by lia; done|].
    rewrite list_lookup_insert_ne by done. apply Hin. lia.
Qed.

(** ** The last entry of the array *)

Fixpoint padded_tree (depth : nat) (l : list (option bytes)) : option bytes :=
  match depth with O => mjoin (head l) | S d => parent (padded_tree d (take (2 ^ d) l)) (padded_tree d (drop (2 ^ d) l)) end.

Lemma level_up_app n l l' : length l = (2 * n)%nat -> level_up (l ++ l') = level_up l ++ level_up l'.
Proof. revert l. induction n as [|n IH]; intros [|a [|b l]] Hl; cbn [length] in Hl; try lia; [done|]. cbn [app level_up]. rewrite IH by lia. done. Qed.

Lemma padded_up d l : length l = (2 ^ S d)%nat -> padded_tree (S d) l = padded_tree d (level_up l).
Proof.
  revert l. induction d as [|d IH]; intros l Hl; [by destruct l as [|a [|b [|]]]|].
  assert (Hp : (2 ^ S (S d) = 2 ^ S d + 2 ^ S d)%nat /\ (2 ^ S d = 2 * 2 ^ d)%nat) by (cbn; lia).
  assert (H1 : length (take (2 ^ S d) l) = (2 ^ S d)%nat) by (rewrite length_take; lia).
  assert (H2 : length (drop (2 ^ S d) l) = (2 ^ S d)%nat) by (rewrite length_drop; lia).
  change (padded_tree (S (S d)) l) with (parent (padded_tree (S d) (take (2 ^ S d) l)) (padded_tree (S d) (drop (2 ^ S d) l))).
  rewrite !IH by done. rewrite <-(take_drop (2 ^ S d) l) at 3. rewrite (level_up_app (2 ^ d)) by lia. cbn [padded_tree].
  pose proof (level_up_length (2 ^ d) (take (2 ^ S d) l) ltac:(lia)) as Hu. by rewrite take_app_length', drop_app_length' by done.
Qed.

Lemma levels_last d l : length l = (2 ^ d)%nat -> last (levels_of d l) = Some (padded_tree d l).
Proof.
  revert l. induction d as [|d IH]; intros l Hl; [by destruct l as [|a [|]]|]. cbn [levels_of].
  pose proof (level_up_length (2 ^ d) l Hl) as Hu. rewrite last_app, IH by done. by rewrite padded_up.
Qed.

Lemma padded_spec d hashes k : (length hashes + k = 2 ^ d)%nat -> padded_tree d (map Some hashes ++ replicate k None) = merkle_tree d hashes.
Proof.
  revert hashes k. induction d as [|d IH]; intros hashes k Hk; [destruct hashes as [|h hashes]; [by destruct k|done]|].
  cbn [padded_tree merkle_tree]. rewrite take_app, drop_app, length_map, take_replicate, drop_replicate. change (map Some) with (fmap (M := list) (Some (A := bytes))).
  rewrite <-fmap_take, <-fmap_drop. cbn [Nat.pow] in Hk. f_equal; apply IH; rewrite ?length_take, ?length_drop; lia.
Qed.

Lemma calc_merkle_root_run hashes : hashes <> [] -> calc_merkle_root MerkleBranchHash hashes = merkle_tree (Nat.log2_up (length hashes)) hashes.
Proof.
  intros Hne. unfold calc_merkle_root. destruct hashes as [|h0 hs]; [done|]. set (hashes := h0 :: hs). change (length hashes =? 0)%nat with false. cbv iota zeta.
  unfold next_power_of_two. set (d := Nat.log2_up (length hashes)). assert (Hd : (length hashes <= 2 ^ d)%nat) by (apply Nat.log2_up_le_pow2; [cbn; lia|done]).
  set (k := (2 ^ d - length hashes)%nat). pose proof (Nat.pow_nonzero 2 d ltac:(done)) as Hpos. set (l := map Some hashes ++ replicate k None).
  assert (Hl : length l = (2 ^ d)%nat) by (unfold l, k; rewrite length_app, length_map, length_replicate; lia).
  replace ((2 * 2 ^ d - 1) / 2)%nat with (2 ^ d - 1)%nat.
  2: { apply (Nat.div_unique _ _ _ 1); lia. }
  assert (E : map Some hashes ++ replicate (2 * 2 ^ d - 1 - length hashes) None = l ++ replicate (2 ^ d - 1) None).
  { unfold l. rewrite <-app_assoc, <-replicate_add. do 2 f_equal. unfold k. lia. }
  rewrite E. pose proof (merkle_loop_run d l Hl (2 ^ d - 1) 0 (l ++ replicate (2 ^ d - 1) None)) as Hr. rewrite Nat.mul_0_r, Nat.add_0_r in Hr.
  rewrite Hr; [|lia|rewrite length_app, length_replicate; lia|].
  - cbn [mbind option_bind]. rewrite levels_last by done. unfold l. cbn [mbind option_bind]. apply padded_spec. unfold k. lia.
  - intros x Hx. rewrite lookup_app_l by lia. destruct d; [done|]. cbn [levels_of]. by rewrite lookup_app_l by lia.
Qed.

(** ** What the root binds *)

Definition leaf_or_branch (hashes : list bytes) (bs : list (bytes * bytes)) (v : bytes) : Prop :=
  v ∈ hashes \/ exists p, p ∈ bs /\ v = mhash p.1 p.2.

Lemma tree_none d hashes : merkle_tree d hashes = None <-> hashes = [].
Proof.
  revert hashes. induction d as [|d IH]; intros hashes; [by destruct hashes|]. cbn [merkle_tree]. unfold merkle_parent.
  destruct (merkle_tree d (take (2 ^ d) hashes)) eqn:E.
  - split; [done|]. intros ->. rewrite take_nil in E. by rewrite (proj2 (IH [])) in E.
  - split; [intros _|done]. apply IH in E. destruct hashes as [|h hs]; [done|]. pose proof (Nat.pow_nonzero 2 d ltac:(done)). by destruct (2 ^ d)%nat.
Qed.

(** A value of the tree is a leaf at depth 0 and a branch above. *)
Lemma tree_value d hashes v : merkle_tree d hashes = Some v -> leaf_or_branch hashes (branches d hashes) v.
Proof.
  destruct d as [|d]; [destruct hashes; [done|]; intros [= ->]; left; by left|]. cbn [merkle_tree branches]. unfold merkle_parent.
  destruct (merkle_tree d (take _ hashes)) as [a|]; [|done]. intros [= <-]. right. eexists. split; [by left|done].
Qed.

(** The hypotheses on the hash function, for the leaves and the pairs that occur. *)
Record separated (hashes : list bytes) (bs : list (bytes * bytes)) : Prop := {
  sep_collision : forall p q, p ∈ bs -> q ∈ bs -> mhash p.1 p.2 = mhash q.1 q.2 -> p = q;
  sep_leaf : forall p, p ∈ bs -> mhash p.1 p.2 ∉ hashes;
  sep_zero : ~ leaf_or_branch hashes bs zero_hash;
}.

Lemma separated_incl hashes bs hashes' bs' : separated hashes bs -> (forall x, x ∈ hashes' -> x ∈ hashes) -> (forall p, p ∈ bs' -> p ∈ bs) -> separated hashes' bs'.
Proof.
  intros [H1 H2 H3] Hh Hb. split; [intros p q Hp Hq; apply H1; auto|intros p Hp Hin; apply (H2 p); auto|].
  intros [Hz|(p & Hp & E)]; apply H3; [left; auto|right; exists p; auto].
Qed.

Lemma branch_root d hashes v : merkle_tree (S d) hashes = Some v -> exists p, p ∈ branches (S d) hashes /\ v = mhash p.1 p.2.
Proof.
  cbn [merkle_tree branches]. unfold merkle_parent. destruct (merkle_tree d (take _ hashes)) as [a|]; [|done]. intros [= <-]. eexists. split; [by left|done].
Qed.

Lemma take_nonempty d (l : list bytes) : l <> [] -> take (2 ^ d) l <> [].
Proof. pose proof (Nat.pow_nonzero 2 d ltac:(done)). destruct (2 ^ d)%nat; [done|]. by destruct l. Qed.

Lemma elem_of_take_list n (l : list bytes) x : x ∈ take n l -> x ∈ l.
Proof. intros H. rewrite <-(take_drop n l). apply elem_of_app. auto. Qed.

Lemma elem_of_drop_list n (l : list bytes) x : x ∈ drop n l -> x ∈ l.
Proof. intros H. rewrite <-(take_drop n l). apply elem_of_app. auto. Qed.

Lemma tree_halves d l : (length l <= 2 ^ S d)%nat -> l <> [] -> exists a, merkle_tree d (take (2 ^ d) l) = Some a /\
  merkle_tree (S d) l = Some (mhash a (default zero_hash (merkle_tree d (drop (2 ^ d) l)))) /\
  branches (S d) l = (a, default zero_hash (merkle_tree d (drop (2 ^ d) l))) :: branches d (take (2 ^ d) l) ++ branches d (drop (2 ^ d) l).
Proof.
  intros Hl Hne. destruct (merkle_tree d (take (2 ^ d) l)) as [a|] eqn:E; [|apply tree_none in E; by apply (take_nonempty d) in Hne].
  exists a. cbn [merkle_tree branches]. by rewrite E.
Qed.

(** The right halves: both absent, or both present. *)
Lemma rest_binds d l l' : separated (l ++ l') (branches d l ++ branches d l') -> default zero_hash (merkle_tree d l) = default zero_hash (merkle_tree d l') ->
  (l <> [] -> l' <> [] -> merkle_tree d l = merkle_tree d l' -> l = l') -> l = l'.
Proof.
  intros Hsep E Hboth. destruct (merkle_tree d l) as [v|] eqn:E1, (merkle_tree d l') as [v'|] eqn:E2; cbn in E.
  - apply Hboth; [intros ->; by rewrite (proj2 (tree_none d [])) in E1|intros ->; by rewrite (proj2 (tree_none d [])) in E2|congruence].
  - subst v. apply tree_value in E1 as [H|(p & Hp & E)]; destruct (sep_zero _ _ Hsep); [left|right; exists p]; set_solver.
  - subst v'. apply tree_value in E2 as [H|(p & Hp & E)]; destruct (sep_zero _ _ Hsep); [left|right; exists p]; set_solver.
  - apply tree_none in E1, E2. congruence.
Qed.

Lemma tree_binds d d' l l' : (length l <= 2 ^ d)%nat -> (length l' <= 2 ^ d')%nat -> l <> [] -> l' <> [] ->
  separated (l ++ l') (branches d l ++ branches d' l') -> merkle_tree d l = merkle_tree d' l' -> d = d' /\ l = l'.
Proof.
  revert d' l l'. induction d as [|d IH]; intros [|d'] l l' Hl Hl' Hne Hne' Hsep E.
  - destruct l as [|x [|]], l' as [|y [|]]; cbn in *; try lia; try done. split; [done|congruence].
  - exfalso. destruct l as [|x l]; [done|]. cbn [merkle_tree head] in E. symmetry in E. destruct (branch_root d' l' x E) as (p & Hp & ->).
    apply (sep_leaf _ _ Hsep p); [apply elem_of_app; auto|apply elem_of_app; left; by left].
  - exfalso. destruct l' as [|x l']; [done|]. cbn [merkle_tree head] in E. destruct (branch_root d l x E) as (p & Hp & ->).
    apply (sep_leaf _ _ Hsep p); [apply elem_of_app; auto|apply elem_of_app; right; by left].
  - destruct (tree_halves d l Hl Hne) as (a & Ea & Et & Hbs). destruct (tree_halves d' l' Hl' Hne') as (a' & Ea' & Et' & Hbs').
    rewrite Et, Et' in E. injection E as E. apply (sep_collision _ _ Hsep (_, _) (_, _)) in E; [|rewrite Hbs, Hbs'; set_solver..]. injection E as -> Eb.
    assert (Hpart : forall x y bx by', (forall h, h ∈ x -> h ∈ l) -> (forall h, h ∈ y -> h ∈ l') -> (forall p, p ∈ bx -> p ∈ branches (S d) l) ->
      (forall p, p ∈ by' -> p ∈ branches (S d') l') -> separated (x ++ y) (bx ++ by')).
    { intros x y bx by' H1 H2 H3 H4. eapply separated_incl; [exact Hsep|intros h|intros p]; rewrite !elem_of_app; intros [?|?]; auto. }
    destruct (IH d' (take (2 ^ d) l) (take (2 ^ d') l')) as [<- Etake]; [rewrite length_take; lia..|by apply take_nonempty|by apply take_nonempty| |congruence|].
    { apply Hpart; [intros h; apply elem_of_take_list|intros h; apply elem_of_take_list|rewrite Hbs; set_solver|rewrite Hbs'; set_solver]. }
    split; [done|]. rewrite <-(take_drop (2 ^ d) l), <-(take_drop (2 ^ d) l'), Etake. f_equal.
    assert (Hz : separated (drop (2 ^ d) l ++ drop (2 ^ d) l') (branches d (drop (2 ^ d) l) ++ branches d (drop (2 ^ d) l'))).
    { apply Hpart; [intros h; apply elem_of_drop_list|intros h; apply elem_of_drop_list|rewrite Hbs; set_solver|rewrite Hbs'; set_solver]. }
    cbn [Nat.pow] in Hl, Hl'. apply (rest_binds d _ _ Hz Eb). intros H1 H2 E. apply (IH d); [rewrite length_drop; lia..|done|done|done|done].
Qed.
End reference.

(** * The encoding of a transaction *)

Definition len_ok (bs : bytes) : Prop := Z.of_nat (length bs) < 2 ^ 64.

Record input_ok (i : TransactionInput) : Prop := {
  io_id : length (transaction_id (previous_outpoint i)) = 32%nat;
  io_index : 0 <= index (previous_outpoint i) < 2 ^ 32;
  io_script : len_ok (signature_script i);
  io_sequence : u64_range (sequence i);
}.

Record output_ok (o : TransactionOutput) : Prop := {
  oo_value : u64_range (value o);
  oo_version : 0 <= spk_version (script_public_key o) < 2 ^ 16;
  oo_script : len_ok (spk_script (script_public_key o));
}.

(** The ranges of the fields, which their types guarantee. *)
Record tx_ok (tx : Transaction) : Prop := {
  to_version : 0 <= tx_version tx < 2 ^ 16;
  to_inputs : Forall input_ok (inputs tx) /\ Z.of_nat (length (inputs tx)) < 2 ^ 64;
  to_outputs : Forall output_ok (outputs tx) /\ Z.of_nat (length (outputs tx)) < 2 ^ 64;
  to_lock_time : u64_range (lock_time tx);
  to_subnetwork : length (subnetwork_id tx) = 20%nat;
  to_gas : u64_range (gas tx);
  to_payload : len_ok (payload tx);
  to_mass : u64_range (mass tx);
}.

(** The transaction without its cached id. *)
Definition uncached (tx : Transaction) : Transaction :=
  {| tx_version := tx_version tx; inputs := inputs tx; outputs := outputs tx; lock_time := lock_time tx; subnetwork_id := subnetwork_id tx;
     gas := gas tx; payload := payload tx; mass := mass tx; tx_id := [] |}.

Lemma len_split n m (a b : bytes) : Z.of_nat n < 2 ^ 64 -> Z.of_nat m < 2 ^ 64 -> write_len n ++ a = write_len m ++ b -> n = m /\ a = b.
Proof. intros Hn Hm H. apply to_le_split in H as [H ->]; [|lia..]. split; [lia|done]. Qed.

Lemma var_bytes_split x y a b : len_ok x -> len_ok y -> write_var_bytes x ++ a = write_var_bytes y ++ b -> x = y /\ a = b.
Proof. unfold write_var_bytes. rewrite <-!app_assoc. intros Hx Hy H. apply len_split in H as [Hl H]; [|done..]. by apply (app_split (length x)). Qed.

Lemma concat_map_split {A} (f : A -> bytes) (P : A -> Prop) : (forall x y a b, P x -> P y -> f x ++ a = f y ++ b -> x = y /\ a = b) ->
  forall l l' a b, Forall P l -> Forall P l' -> length l = length l' -> concat (map f l) ++ a = concat (map f l') ++ b -> l = l' /\ a = b.
Proof.
  intros Hf. induction l as [|x l IH]; intros [|y l'] a b Hl Hl' Hn H; try done. cbn [map concat] in H. rewrite <-!app_assoc in H.
  apply Forall_cons in Hl as [Hx Hl], Hl' as [Hy Hl']. apply Hf in H as [-> H]; [|done..]. apply IH in H as [-> ->]; [done..|]. cbn in Hn. lia.
Qed.

Lemma input_split x y a b : input_ok x -> input_ok y -> write_input FULL x ++ a = write_input FULL y ++ b -> x = y /\ a = b.
Proof.
  intros [] []. unfold write_input, write_outpoint. change (negb _) with true. cbv iota. rewrite <-!app_assoc. intros H.
  apply (app_split 32) in H as [H1 H]; [|done..]. apply to_le_split in H as [H2 H]; [|lia..]. apply var_bytes_split in H as [H3 H]; [|done..].
  apply (app_split 1) in H as [H4 H]; [|done..]. injection H4 as H4. apply to_le_split in H as [H5 ->]; [|lia..].
  split; [|done]. destruct x as [[] ? ? ?], y as [[] ? ? ?]. cbn in *. congruence.
Qed.

Lemma output_split x y a b : output_ok x -> output_ok y -> write_output x ++ a = write_output y ++ b -> x = y /\ a = b.
Proof.
  intros [] []. unfold write_output. rewrite <-!app_assoc. intros H. apply to_le_split in H as [H1 H]; [|lia..].
  apply to_le_split in H as [H2 H]; [|lia..]. apply var_bytes_split in H as [H3 ->]; [|done..]. split; [|done].
  destruct x as [? []], y as [? []]. cbn in *. congruence.
Qed.

(** The mass is written only when it is not zero, at the end. *)
Lemma mass_split x y : u64_range x -> u64_range y -> (if 0 <? x then to_le 8 x else []) = (if 0 <? y then to_le 8 y else []) -> x = y.
Proof.
  intros Hx Hy. destruct (Z.ltb_spec 0 x), (Z.ltb_spec 0 y); intros E; try lia; [by apply (to_le_inj 8) in E; [|lia..]|..];
    apply (f_equal length) in E; rewrite length_to_le in E; done.
Qed.

Lemma transaction_injective tx tx' : tx_ok tx -> tx_ok tx' -> write_transaction FULL tx = write_transaction FULL tx' -> uncached tx = uncached tx'.
Proof.
  intros [H1 [H2 H2'] [H3 H3'] H4 H5 H6 H7 H8] [K1 [K2 K2'] [K3 K3'] K4 K5 K6 K7 K8] H. unfold write_transaction in H.
  apply to_le_split in H as [E1 H]; [|lia..]. apply len_split in H as [L2 H]; [|done..].
  apply (concat_map_split _ _ input_split) in H as [E2 H]; [|done..]. apply len_split in H as [L3 H]; [|done..].
  apply (concat_map_split _ _ output_split) in H as [E3 H]; [|done..]. apply to_le_split in H as [E4 H]; [|lia..].
  apply (app_split 20) in H as [E5 H]; [|done..]. apply to_le_split in H as [E6 H]; [|lia..]. apply var_bytes_split in H as [E7 H]; [|done..].
  apply mass_split in H; [|done..]. unfold uncached. congruence.
Qed.

(** The hash functions have no collision on what the two bodies hash. *)
Record bodies_separated (MerkleBranchHash TransactionHash : bytes -> bytes) (txs txs' : list Transaction) : Prop := {
  bs_transactions : forall tx tx', tx ∈ txs -> tx' ∈ txs' -> tx_hash TransactionHash tx = tx_hash TransactionHash tx' ->
    write_transaction FULL tx = write_transaction FULL tx';
  bs_branches : let leaves l := map (tx_hash TransactionHash) l in let pairs l := branches MerkleBranchHash (Nat.log2_up (length (leaves l))) (leaves l) in
    separated MerkleBranchHash (leaves txs ++ leaves txs') (pairs txs ++ pairs txs');
}.

Lemma root_nonzero MerkleBranchHash l bs : l <> [] -> calc_merkle_root MerkleBranchHash l = Some zero_hash ->
  (forall x, x ∈ l -> x ∈ bs.1) -> (forall p, p ∈ branches MerkleBranchHash (Nat.log2_up (length l)) l -> p ∈ bs.2) -> separated MerkleBranchHash bs.1 bs.2 -> False.
Proof.
  intros Hne E Hl Hb Hsep. rewrite calc_merkle_root_run in E by done. apply tree_value in E as [H|(p & Hp & Ez)]; apply (sep_zero _ _ _ Hsep); [left|right; exists p]; auto.
Qed.

(** C13: The Merkle root of a header binds the body: two lists of transactions with the same
    root are the same, up to the cached ids, in number, order and every field, signatures and
    mass commitments included; when the hash functions have no collision among the
    encodings and the pairs that are hashed, and no hash is the zero hash of the padding. *)
Theorem merkle_root_binds_body MerkleBranchHash TransactionHash txs txs' : Forall tx_ok txs -> Forall tx_ok txs' ->
  bodies_separated MerkleBranchHash TransactionHash txs txs' ->
  calc_hash_merkle_root MerkleBranchHash TransactionHash txs = calc_hash_merkle_root MerkleBranchHash TransactionHash txs' ->
  map uncached txs = map uncached txs' /\ is_Some (calc_hash_merkle_root MerkleBranchHash TransactionHash txs).
Proof.
  intros Hok Hok' [Htx Hsep] E. cbv zeta in Hsep. unfold calc_hash_merkle_root in *. set (l := map (tx_hash TransactionHash) txs) in *. set (l' := map (tx_hash TransactionHash) txs') in *.
  assert (El : l = l' /\ is_Some (calc_merkle_root MerkleBranchHash l)).
  { destruct (decide (l = [])) as [El|Hne], (decide (l' = [])) as [El'|Hne'].
    - rewrite El, El'. split; [done|by eexists].
    - exfalso. rewrite El in E. symmetry in E. eapply (root_nonzero _ l' (_, _) Hne' E); [| |exact Hsep]; cbn; intros; apply elem_of_app; auto.
    - exfalso. rewrite El' in E. eapply (root_nonzero _ l (_, _) Hne E); [| |exact Hsep]; cbn; intros; apply elem_of_app; auto.
    - rewrite (calc_merkle_root_run _ l), (calc_merkle_root_run _ l') in E by done. rewrite calc_merkle_root_run by done.
      assert (Hn : forall k : list bytes, k <> [] -> (length k <= 2 ^ Nat.log2_up (length k))%nat) by (intros k Hk; apply Nat.log2_up_le_pow2; [destruct k; [done|cbn; lia]|done]).
      split; [by apply (tree_binds MerkleBranchHash _ _ l l' (Hn l Hne) (Hn l' Hne') Hne Hne' Hsep E)|]. destruct (merkle_tree _ _ l) eqn:En; [by eexists|]. destruct Hne. by apply tree_none in En. }
  destruct El as [El Hsome]. split; [|done]. assert (Hlen : length txs = length txs') by (rewrite <-(length_map (tx_hash TransactionHash) txs); fold l; rewrite El; apply length_map).
  apply list_eq_Forall2, Forall2_fmap, Forall2_same_length_lookup_2; [done|]. intros i x y Hx Hy. apply transaction_injective; [by apply (Forall_lookup_1 _ _ _ _ Hok Hx)|by apply (Forall_lookup_1 _ _ _ _ Hok' Hy)|].
  apply Htx; [by eapply list_elem_of_lookup_2..|]. assert (Hi : l !! i = l' !! i) by (by rewrite El). unfold l, l' in Hi. rewrite !list_lookup_fmap, Hx, Hy in Hi. by injection Hi.
Qed.

(** A coinbase and a transfer, with two cached ids. *)
Definition demo_tx (n : Z) (id : bytes) : Transaction :=
  {| tx_version := 0; inputs := []; outputs := [{| value := n; script_public_key := {| spk_version := 0; spk_script := [1; 2] |} |}]; lock_time := 0;
     subnetwork_id := SUBNETWORK_ID_NATIVE; gas := 0; payload := [n]; mass := n; tx_id := id |}.

Lemma demo_tx_ok n id : 0 <= n < 2 ^ 64 -> tx_ok (demo_tx n id).
Proof. intros Hn. split; cbn; try done; (split; [|done]); repeat constructor; cbn; try done; lia. Qed.

Lemma merkle_root_binds_body_witness : map uncached [demo_tx 3 []; demo_tx 4 []] = map uncached [demo_tx 3 [1]; demo_tx 4 [2]] /\
  is_Some (calc_hash_merkle_root (cons 2) (cons 1) [demo_tx 3 []; demo_tx 4 []]).
Proof.
  apply (merkle_root_binds_body (cons 2) (cons 1) [demo_tx 3 []; demo_tx 4 []] [demo_tx 3 [1]; demo_tx 4 [2]]).
  - by repeat apply Forall_cons_2; [apply demo_tx_ok..|].
  - by repeat apply Forall_cons_2; [apply demo_tx_ok..|].
  - split; [intros tx tx' _ _ E; apply (f_equal tail) in E; exact E|]. cbv zeta. split.
    + intros p q. cbn -[write_transaction zero_hash]. rewrite !elem_of_cons, !elem_of_nil. intros [->|[->|[]]] [->|[->|[]]] _; done.
    + intros p Hp Hin. cbn -[write_transaction] in Hin. rewrite !elem_of_cons, !elem_of_nil in Hin. unfold merkle_hash, tx_hash in Hin. naive_solver.
    + intros [Hz|(p & _ & Hz)]; [|done]. cbn -[write_transaction] in Hz. rewrite !elem_of_cons, !elem_of_nil in Hz. unfold tx_hash in Hz. naive_solver.
  - reflexivity.
Defined.
