(* ===== verification/BlockState.v ===== *)
(** The state commitment of a block through its life: computed for a template
    ([build_block_template_from_virtual_state]), checked and persisted when the block is
    verified ([verify_block_state]), and persisted again when it joins the selected chain
    ([commit_virtual_state]); all in
    consensus/src/pipeline/virtual_processor/{processor,block_validation}.rs.

    [get_header], [get_daa_score] and [block_transactions] are the stores of headers and
    bodies; [acc_order], [did_order] and [node_order] the iteration orders of the three
    hash maps. A failed write to a store is logged and otherwise ignored. *)

From S2P Require Import Prelude Smt SmtTree SmtCorrect Cache Access Tx Account Address Coinbase Validator AccountChanges Did StateStores Header.

Inductive CommitmentRuleError :=
| AccountCommitmentComputeFailed
| BadAccountCommitment (block_hash committed calculated : bytes).

Record StateStores (Dn Ds Dd Dr : Type) := {
  smt_nodes_store : DbSmtNodeStore Dn;
  account_states_store : Ds;
  did_states_store : Dd;
  account_roots_store : Dr;
}.
Arguments smt_nodes_store {Dn Ds Dd Dr}.
Arguments account_states_store {Dn Ds Dd Dr}.
Arguments did_states_store {Dn Ds Dd Dr}.
Arguments account_roots_store {Dn Ds Dd Dr}.

(** A loop of calls whose errors are logged. *)
Definition log_each {S E A} (f : A -> st S E ()) (l : list A) (s : S) : S := foldl (fun s x => (f x s).1) s l.

Section block_state.
Context (hash_iter : list Z -> felt4) (sha3 : bytes -> bytes) (hash_tx : Transaction -> bytes).
Context (hex_string : bytes -> bytes) (hex_decode_into : bytes -> nat -> option bytes).
Context (dilithium_verify : bytes -> bytes -> bytes -> bool) (network_prefix : Prefix) (genesis_hash : bytes).
Context (cm : CoinbaseManager) (treasury_hex : bytes).
Context (get_header : bytes -> result StoreError Header).
Context (block_transactions : bytes -> result StoreError (list Transaction)).
Context (acc_order : list (ScriptPublicKey * AccountState) -> list (ScriptPublicKey * AccountState)).
Context (did_order : list (bytes * DidDocument) -> list (bytes * DidDocument)).
Context (node_order : list (H256 * Node) -> list (H256 * Node)).
Context {Dn Ds Dd Dr : Type} `{Table Dn bytes} `{Table Ds AccountState} `{Table Dd DidDocument} `{Table Dr bytes}.

Abbreviation stores := (StateStores Dn Ds Dd Dr).
Abbreviation overlay := (OverlayStore (DbSmtNodeStore Dn)).
#[local] Instance nodes_base : NodeStore (DbSmtNodeStore Dn) := db_smt_node_base hash_iter.
#[local] Instance nodes_overlay : NodeStore overlay := overlay_store hash_iter.

Definition parent_account_root (parent_hash : bytes) (parent_header : Header) : H256 :=
  if bool_decide (parent_hash = genesis_hash) then EMPTY else account_commitment parent_header.

(** The closure [did_verify]. *)
Definition did_verify (pk sig msg : bytes) : bool :=
  if negb (length sig =? SIG_SIZE)%nat then false else dilithium_verify pk sig msg.

Definition did_ops_of (txs : list Transaction) : list DidOp :=
  omap (fun tx => parse_did_op (payload tx) SIG_SIZE) (drop 1 txs).

(** The two computations of all three paths, on an overlay over the node store. *)
Definition account_changes_of (s : stores) (parent_root : H256) (txs : list Transaction) (daa_score : Z) :
    st overlay (fault AccountError) (H256 * list (ScriptPublicKey * AccountState)) :=
  let '(flash_txs, rewards) := extract_block_effects hex_decode_into txs cm treasury_hex in
  compute_block_account_changes hash_iter sha3 (snapshot_get (account_states_store s)) acc_order
    parent_root flash_txs rewards daa_score.

Definition did_changes_of (s : stores) (accounts_root : H256) (txs : list Transaction) (daa_score : Z) :
    st overlay (fault DidError) (H256 * list DidDocument) :=
  compute_block_did_changes hash_iter sha3 hex_string hex_decode_into (get_did_state (did_states_store s))
    did_verify network_prefix did_order accounts_root (did_ops_of txs) daa_score.

Definition into_pending (o : overlay) : list (H256 * Node) := node_order (map_to_list (pending o)).

(** ** verify_block_state: the commitment check *)

(** The synchronous writes of nodes, account states and documents. *)
Definition persist_sync (o : overlay) (changes : list (ScriptPublicKey * AccountState)) (did_docs : list DidDocument)
    (s : stores) : stores :=
  {| smt_nodes_store := (insert_sync_many (into_pending o) (smt_nodes_store s)).1;
     account_states_store :=
       log_each (fun e => snapshot_insert_sync (content_hash sha3 e.2) e.2) changes (account_states_store s);
     did_states_store :=
       log_each (fun doc => snapshot_insert_sync (did_content_hash sha3 doc) doc) did_docs (did_states_store s);
     account_roots_store := account_roots_store s |}.

Definition verify_account_commitment (parent_hash : bytes) (header : Header) : st stores (fault CommitmentRuleError) () :=
  fun s =>
    match get_header parent_hash, block_transactions (header_hash header) with
    | Err _, _ | Ok _, Err _ => (s, Err (Error AccountCommitmentComputeFailed))
    | Ok parent_header, Ok txs =>
        let parent_root := parent_account_root parent_hash parent_header in
        match account_changes_of s parent_root txs (header_daa_score header) (overlay_new (smt_nodes_store s)) with
        | (_, Err Panic) => (s, Err Panic)
        | (_, Err (Error _)) => (s, Err (Error AccountCommitmentComputeFailed))
        | (o, Ok (accounts_root, changes)) =>
            match did_changes_of s accounts_root txs (header_daa_score header) o with
            | (_, Err Panic) => (s, Err Panic)
            | (_, Err (Error _)) => (s, Err (Error AccountCommitmentComputeFailed))
            | (o', Ok (my_root, did_docs)) =>
                (persist_sync o' changes did_docs s,
                 if bool_decide (my_root = account_commitment header) then Ok tt
                 else Err (Error (BadAccountCommitment (header_hash header) (account_commitment header) my_root)))
            end
        end
    end.

(** ** build_block_template_from_virtual_state: the coinbase and the commitment *)

(** [p.resize(32, 0)]. *)
Definition resize32 (p : bytes) : bytes := take 32 p ++ replicate (32 - length p) 0.

Definition template_payload (blue_score : Z) (miner_data : MinerData) : bytes :=
  match serialize_coinbase_payload cm {| cb_blue_score := blue_score; cb_subsidy := calc_block_subsidy cm blue_score;
                                         cb_miner_data := miner_data |} with
  | Ok p => p
  | Err _ => resize32 (to_le 8 blue_score)
  end.

Definition template_txs (blue_score : Z) (miner_data : MinerData) (txs : list Transaction) : list Transaction :=
  Transaction_new hash_tx 0 [] [] 0 SUBNETWORK_ID_COINBASE 0 (template_payload blue_score miner_data) :: txs.

Definition mem_put_all (nodes : list (H256 * Node)) (s : stores) : stores :=
  {| smt_nodes_store := foldl (fun ns e => mem_put e.1 e.2 ns) (smt_nodes_store s) nodes;
     account_states_store := account_states_store s; did_states_store := did_states_store s;
     account_roots_store := account_roots_store s |}.

(** The [account_commitment] of the template's header. *)
Definition template_commitment (selected_parent : bytes) (txs : list Transaction) (daa_score : Z) :
    st stores (fault CommitmentRuleError) bytes :=
  fun s =>
    match get_header selected_parent with
    | Err _ => (s, Err (Error AccountCommitmentComputeFailed))
    | Ok parent_header =>
        let parent_root := parent_account_root selected_parent parent_header in
        let '(o, r) := account_changes_of s parent_root txs daa_score (overlay_new (smt_nodes_store s)) in
        match (match r with Ok (root, _) => Ok root | Err (Error _) => Ok EMPTY | Err Panic => Err Panic end) with
        | Err e => (s, Err e)
        | Ok accounts_root =>
            match did_changes_of s accounts_root txs daa_score o with
            | (_, Err Panic) => (s, Err Panic)
            | (_, Err (Error _)) => (s, Ok accounts_root)
            | (o', Ok (final_root, _)) => (mem_put_all (into_pending o') s, Ok final_root)
            end
        end
    end.

(** ** commit_virtual_state: persisting the commitment of an added block *)

Context (get_daa_score : bytes -> result StoreError Z).

(** The entries of the commit's batch; readers see them through the caches at once. *)
Definition persist_commit (hash : bytes) (final_root : H256) (o : overlay)
    (changes : list (ScriptPublicKey * AccountState)) (did_docs : list DidDocument) (s : stores) : stores :=
  {| smt_nodes_store := (insert_sync_many (into_pending o) (smt_nodes_store s)).1;
     account_states_store :=
       log_each (fun e => snapshot_insert_sync (content_hash sha3 e.2) e.2) changes (account_states_store s);
     did_states_store :=
       log_each (fun doc => snapshot_insert_sync (did_content_hash sha3 doc) doc) did_docs (did_states_store s);
     account_roots_store := (table_batch [(hash, Some final_root)] (account_roots_store s)).1 |}.

(** [selected_parent] is the result of [sahyadri_consensus_store.get_data(hash)]. *)
Definition commit_block_commitment (hash : bytes) (selected_parent : option bytes) (txs : list Transaction) :
    st stores (fault CommitmentRuleError) () :=
  fun s =>
    let parent_root :=
      match selected_parent with
      | None => EMPTY
      | Some sp => match get_header sp with Ok h => parent_account_root sp h | Err _ => EMPTY end
      end in
    let daa := match get_daa_score hash with Ok d => d | Err _ => 0 end in
    match account_changes_of s parent_root txs daa (overlay_new (smt_nodes_store s)) with
    | (_, Err Panic) => (s, Err Panic)
    | (_, Err (Error _)) => (s, Ok tt)
    | (o, Ok (accounts_root, changes)) =>
        match did_changes_of s accounts_root txs daa o with
        | (_, Err Panic) => (s, Err Panic)
        | (_, Err (Error _)) => (s, Ok tt)
        | (o', Ok (final_root, did_docs)) => (persist_commit hash final_root o' changes did_docs s, Ok tt)
        end
    end.

End block_state.
