(* ===== verification/BlockStateTheorems.v ===== *)
(** What the commitment paths of BlockState.v guarantee: a template's commitment is the
    one every verifier computes, and a verified block leaves behind everything a later
    block needs to be verified on top of it. *)

From S2P Require Import Prelude Smt SmtTree SmtCorrect SmtTheorems Address Cache Access Tx Account Coinbase Validator AccountChanges Commitment Did DidTheorems DidCodec StateStores Header BlockState.

Section mono.
Context (hash_iter : list Z -> felt4) {B : Type} `{NB : NodeStore B} (b1 b2 : B).
Context (base_extends : forall h n, store_get b2 h = Some n -> store_get b1 h = Some n).
#[local] Instance mono_overlay : NodeStore (OverlayStore B) := overlay_store hash_iter.
Implicit Types (o : OverlayStore B).

Definition same_pending o1 o2 : Prop := base o1 = b1 /\ base o2 = b2 /\ pending o1 = pending o2.

Definition mono {E A} (m : st (OverlayStore B) E A) : Prop :=
  forall o1 o2 o2' a, same_pending o1 o2 -> m o2 = (o2', Ok a) -> exists o1', m o1 = (o1', Ok a) /\ same_pending o1' o2'.

Lemma same_pending_new : same_pending (overlay_new b1) (overlay_new b2).
Proof. done. Qed.

Lemma same_pending_get o1 o2 h n : same_pending o1 o2 -> store_get o2 h = Some n -> store_get o1 h = Some n.
Proof.
  intros (E1 & E2 & Ep). cbn [store_get mono_overlay overlay_store]. rewrite Ep.
  destruct (pending o2 !! h); [done|]. rewrite E1, E2. apply base_extends.
Qed.

Lemma mono_bind {E A C} (m : st (OverlayStore B) E A) (f : A -> st _ E C) :
  mono m -> (forall a, mono (f a)) -> mono (m ≫= f).
Proof.
  intros Hm Hf o1 o2 o2' c Hs E0. apply st_bind_ok in E0 as (o & a & E1 & E2).
  destruct (Hm _ _ _ _ Hs E1) as (o1' & E1' & Hs'). rewrite (st_bind_run _ _ _ _ _ E1'). by eapply Hf.
Qed.

Lemma mono_lift {E A} (r : result E A) : mono (lift r).
Proof. intros o1 o2 o2' a Hs [= <- ->]. by exists o1. Qed.
Lemma mono_ret {E A} (a : A) : mono (E := E) (mret a).
Proof. apply (mono_lift (Ok a)). Qed.
Lemma mono_throw {E A} (e : E) : mono (throw (A := A) e).
Proof. by intros o1 o2 o2' a Hs. Qed.
Lemma mono_or_panic {E A} (x : option A) : mono (E := fault E) (or_panic x).
Proof. apply mono_lift. Qed.

Lemma mono_map_err {E E' A} (f : E -> E') (m : st (OverlayStore B) E A) : mono m -> mono (map_err f m).
Proof.
  intros Hm o1 o2 o2' a Hs. unfold map_err. destruct (m o2) as [o [a'|e]] eqn:E0; [|done]. intros [= -> ->].
  destruct (Hm _ _ _ _ Hs E0) as (o1' & -> & Hs'). by exists o1'.
Qed.

Lemma mono_put n : mono (put n).
Proof.
  intros o1 o2 o2' a (E1 & E2 & Ep) [= <- <-]. eexists. split; [done|]. split_and!; [done|done|].
  cbn [pending]. by rewrite Ep.
Qed.

Lemma mono_get_node h : mono (get_node h).
Proof.
  intros o1 o2 o2' n Hs. unfold get_node. destruct (store_get o2 h) as [n'|] eqn:E0; [|done]. intros [= <- <-].
  rewrite (same_pending_get _ _ _ _ Hs E0). by exists o1.
Qed.

Create HintDb mono.
#[local] Hint Resolve mono_lift mono_ret mono_throw mono_or_panic mono_map_err mono_put mono_get_node : mono.
#[local] Hint Extern 2 (mono (_ ≫= _)) => apply mono_bind : mono.

Lemma mono_split fuel d ka va kb vb : mono (split fuel d ka va kb vb).
Proof.
  revert d. induction fuel as [|fuel IH]; intros d; simpl; case_decide; auto with mono.
  destruct (negb _); repeat (apply mono_bind; [auto with mono|]; intros ?); destruct (_ =? 0); auto with mono.
Qed.

Lemma mono_normalize l r : mono (normalize l r).
Proof.
  unfold normalize, is_leaf. destruct (bool_decide _), (bool_decide _); auto with mono;
    (apply mono_bind; [auto with mono|]; intros []; auto with mono).
Qed.

Lemma mono_update_at fuel h d k value : mono (update_at fuel h d k value).
Proof.
  revert h d. induction fuel as [|fuel IH]; intros h d; simpl;
    (case_decide; [destruct value; auto with mono|]);
    (apply mono_bind; [auto with mono|]; intros n; repeat case_match;
     auto using mono_split, mono_normalize with mono).
Qed.

Lemma get_mono o1 o2 root k v : same_pending o1 o2 -> get o2 root k = Ok v -> get o1 root k = Ok v.
Proof.
  intros Hs. unfold get. generalize TREE_DEPTH as fuel, 0%nat as d. intros fuel. revert root.
  induction fuel as [|fuel IH]; intros cur d; cbn [get_loop]; (case_decide; [done|]);
    (destruct (store_get o2 cur) as [n|] eqn:E0; [|done]); rewrite (same_pending_get _ _ _ _ Hs E0);
    (destruct n; [done|]); case_decide; auto.
Qed.

(** ** Accounts *)

Section accounts.
Context (sha3 : bytes -> bytes) (states_get : bytes -> result StoreError AccountState).

Lemma mono_touch root spk T : mono (touch hash_iter states_get root spk T).
Proof.
  intros o1 o2 o2' a Hs. unfold touch, read_account_state. destruct (T !! spk); [intros [= <- <-]; by exists o1|].
  destruct (get o2 root _) as [v|] eqn:G; [|done]. rewrite (get_mono _ _ _ _ _ Hs G).
  repeat case_match; try done; intros [= <- <-]; by exists o1.
Qed.

Lemma mono_modify spk f T : mono (modify spk f T).
Proof. unfold modify. auto with mono. Qed.

Lemma mono_apply_flash_change root T tx : mono (apply_flash_change hash_iter sha3 states_get root T tx).
Proof.
  unfold apply_flash_change. apply mono_bind; [apply mono_or_panic|intros r].
  do 2 (apply mono_bind; [apply mono_touch|intros ?]). apply mono_bind; [apply mono_modify|intros ?]. apply mono_modify.
Qed.

Lemma mono_apply_reward root T rw : mono (apply_reward hash_iter states_get root T rw).
Proof. destruct rw. unfold apply_reward. apply mono_bind; [apply mono_touch|intros ?; apply mono_modify]. Qed.

Lemma mono_fold_touched {A} f T (l : list A) : (forall T x, mono (f T x)) -> mono (fold_touched (S := OverlayStore B) f T l).
Proof. intros Hf. revert T. induction l; intros T; cbn [fold_touched]; auto with mono. Qed.

Lemma mono_update_leaves root l : mono (update_leaves hash_iter sha3 root l).
Proof.
  revert root. induction l as [|[spk a] l IH]; intros root; cbn [update_leaves]; [auto with mono|].
  apply mono_bind; [|auto]. apply mono_map_err, mono_update_at.
Qed.

Lemma mono_compute_accounts order root txs rewards daa :
  mono (compute_block_account_changes hash_iter sha3 states_get order root txs rewards daa).
Proof.
  unfold compute_block_account_changes.
  apply mono_bind; [apply mono_fold_touched, mono_apply_flash_change|intros T1].
  apply mono_bind; [apply mono_fold_touched, mono_apply_reward|intros T2].
  apply mono_bind; [apply mono_update_leaves|intros r; apply mono_ret].
Qed.
End accounts.

(** ** Identities *)

Section identities.
Context (sha3 : bytes -> bytes) (hex_string : bytes -> bytes) (hex_decode_into : bytes -> nat -> option bytes).
Context (did_states : bytes -> result StoreError (option DidDocument)).
Context (verify : bytes -> bytes -> bytes -> bool) (prefix : Prefix).

Lemma mono_lookup_did root T k : mono (lookup_did hash_iter did_states root T k).
Proof.
  intros o1 o2 o2' a Hs. unfold lookup_did. destruct (T !! k); [intros [= <- <-]; by exists o1|].
  destruct (get o2 root _) as [v|] eqn:G; [|done]. rewrite (get_mono _ _ _ _ _ Hs G).
  repeat case_match; try done; intros [= <- <-]; by exists o1.
Qed.

Lemma mono_apply_did_op root daa T op :
  mono (apply_did_op hash_iter sha3 hex_string hex_decode_into did_states verify prefix root daa T op).
Proof.
  destruct op; cbn [apply_did_op]; repeat first
    [ apply mono_ret
    | apply mono_bind; [first [apply mono_lookup_did|apply mono_or_panic]|intros ?]
    | case_match ].
Qed.

Lemma mono_compute_dids order root ops daa :
  mono (compute_block_did_changes hash_iter sha3 hex_string hex_decode_into did_states verify prefix order root ops daa).
Proof.
  unfold compute_block_did_changes. apply mono_bind; [|intros T; apply mono_bind; [|intros r; apply mono_ret]].
  - generalize (∅ : gmap bytes DidDocument). induction ops as [|op ops IH]; intros T; cbn [apply_did_ops]; [apply mono_ret|].
    apply mono_bind; [apply mono_apply_did_op|auto].
  - generalize root. induction (order (map_to_list T)) as [|[k d] l IH]; intros r; cbn [update_did_leaves]; [apply mono_ret|].
    apply mono_bind; [apply mono_map_err, mono_update_at|auto].
Qed.
End identities.

End mono.

(** * The documents after a block *)

Section did_reference.
Context (sha3 : bytes -> bytes) (sha3_ok : forall bs, h256_ok (sha3 bs)).
Context (hex_string : bytes -> bytes) (hex_decode_into : bytes -> nat -> option bytes).
Context (verify : bytes -> bytes -> bytes -> bool) (prefix : Prefix) (daa : Z).
Implicit Types (T : gmap bytes DidDocument) (look : bytes -> option DidDocument).

Definition look_did look T (k : bytes) : option DidDocument :=
  match T !! k with Some d => Some d | None => look k end.

(** The document an operation leaves, given the current one; [None] where it is skipped. *)
Definition did_result (op : DidOp) (cur : option DidDocument) : option DidDocument :=
  match op, cur with
  | Create pubkey k addr doc _ sig, None =>
      if (MAX_DID_DOC_BYTES <? length doc)%nat || negb (bool_decide (k = DID_PREFIX ++ addr)) then None
      else if negb (bool_decide (derive_csm_address sha3 pubkey prefix = Some addr)) then None
      else if verify pubkey sig (create_msg sha3 hex_string pubkey k addr doc)
           then Some (created hex_string pubkey k addr doc daa) else None
  | Update k doc _ sig, Some d =>
      if (MAX_DID_DOC_BYTES <? length doc)%nat || negb (active d) then None
      else pk ← hex_to_bytes hex_decode_into (public_key d);
           if verify pk sig (update_msg sha3 hex_string d doc) then Some (updated d doc daa) else None
  | Deactivate k _ sig, Some d =>
      if negb (active d) then None
      else pk ← hex_to_bytes hex_decode_into (public_key d);
           if verify pk sig (deactivate_msg d) then Some (deactivated d daa) else None
  | _, _ => None
  end.

Definition did_apply look T (op : DidOp) : gmap bytes DidDocument :=
  match did_result op (look_did look T (op_did op)) with
  | Some d => <[op_did op := d]> T
  | None => T
  end.

Definition block_documents look (ops : list DidOp) : gmap bytes DidDocument := foldl (did_apply look) ∅ ops.

Context (hash_iter : list Z -> felt4) (did_states : bytes -> result StoreError (option DidDocument)).
Context {S : Type} `{Laws : NodeStoreLaws hash_iter S} (U : Node -> Prop) (HU : collision_free hash_iter U).

Lemma apply_did_op_run s root M T op :
  represents hash_iter U s root M -> did_readable hash_iter did_states M (op_did op) ->
  apply_did_op hash_iter sha3 hex_string hex_decode_into did_states verify prefix root daa T op s =
  (s, Ok (did_apply (committed_did hash_iter did_states M) T op)).
Proof.
  intros Hr Hk. pose proof (lookup_did_run hash_iter did_states U HU s root M T (op_did op) Hr Hk) as L.
  unfold did_apply. change (look_did _ T (op_did op)) with (cur_did hash_iter did_states M T (op_did op)).
  destruct op as [pubkey k addr doc ts sig|k doc ts sig|k ts sig]; cbn [op_did apply_did_op] in *;
    unfold did_result; unfold mbind, st_bind.
  - destruct (derive_total sha3 sha3_ok prefix pubkey) as [a Ea]. rewrite Ea. cbn [or_panic ok_or lift].
    destruct (cur_did _ _ _ _ _) as [d|]; destruct (_ || _); rewrite ?L; try done;
      (destruct (decide (a = addr)) as [->|Hne];
       [rewrite !bool_decide_eq_true_2 by done|rewrite !bool_decide_eq_false_2 by congruence]);
      cbn [negb]; rewrite ?L; try done. by destruct (verify _ _ _).
  - destruct (_ <? _)%nat; [by destruct (cur_did _ _ _ _ _)|]. rewrite L. destruct (cur_did _ _ _ _ _) as [d|]; [|done].
    cbn [orb]. destruct (negb _); [done|]. destruct (hex_to_bytes _ _); [|done]. simpl. by destruct (verify _ _ _).
  - rewrite L. destruct (cur_did _ _ _ _ _) as [d|]; [|done].
    destruct (negb _); [done|]. destruct (hex_to_bytes _ _); [|done]. simpl. by destruct (verify _ _ _).
Qed.

Lemma apply_did_ops_run s root M ops :
  represents hash_iter U s root M -> Forall (fun op => did_readable hash_iter did_states M (op_did op)) ops ->
  apply_did_ops hash_iter sha3 hex_string hex_decode_into did_states verify prefix root daa ∅ ops s =
  (s, Ok (block_documents (committed_did hash_iter did_states M) ops)).
Proof.
  intros Hr Hk. unfold block_documents. generalize (∅ : gmap bytes DidDocument).
  induction Hk as [|op ops Hop Hk IH]; intros T; [done|]. cbn [apply_did_ops foldl].
  by rewrite (st_bind_run _ _ _ _ _ (apply_did_op_run s root M T op Hr Hop)).
Qed.

Lemma compute_dids_run order s root M ops :
  represents hash_iter U s root M -> Forall (fun op => did_readable hash_iter did_states M (op_did op)) ops ->
  let entries := order (map_to_list (block_documents (committed_did hash_iter did_states M) ops)) in
  covers_run hash_iter U M (map (did_leaf hash_iter sha3) entries) ->
  exists s' root',
    compute_block_did_changes hash_iter sha3 hex_string hex_decode_into did_states verify prefix order root ops daa s =
      (s', Ok (root', entries.*2)) /\
    represents hash_iter U s' root' (apply_changes M (map (did_leaf hash_iter sha3) entries)).
Proof.
  intros Hr Hk entries Hcov. unfold compute_block_did_changes.
  rewrite (st_bind_run _ _ _ _ _ (apply_did_ops_run s root M ops Hr Hk)). cbv zeta. fold entries.
  destruct (represents_update_many hash_iter U HU s root M (map (did_leaf hash_iter sha3) entries))
    as (s' & root' & Eu & _ & R); [done|by apply did_leaves_ok|done|].
  exists s', root'. split; [|done]. erewrite st_bind_run; [done|].
  rewrite update_did_leaves_many. unfold map_err. by rewrite Eu.
Qed.

End did_reference.

Lemma block_documents_ext sha3 hex_string hex_decode verify prefix daa look1 look2 ops :
  (forall k, look1 k = look2 k) ->
  block_documents sha3 hex_string hex_decode verify prefix daa look1 ops =
  block_documents sha3 hex_string hex_decode verify prefix daa look2 ops.
Proof.
  intros Hl. unfold block_documents. generalize (∅ : gmap bytes DidDocument).
  induction ops as [|op ops IH]; intros T; [done|]. cbn [foldl]. unfold did_apply at 2 4, look_did. rewrite Hl. apply IH.
Qed.

(** * One block on one node *)

Section node.
Context (hash_iter : list Z -> felt4) (sha3 : bytes -> bytes) (sha3_ok : forall bs, h256_ok (sha3 bs)).
Context (hex_string : bytes -> bytes) (hex_decode_into : bytes -> nat -> option bytes).
Context (dilithium_verify : bytes -> bytes -> bytes -> bool) (network_prefix : Prefix) (genesis_hash : bytes).
Context (cm : CoinbaseManager) (treasury_hex : bytes).
Context (get_header : bytes -> result StoreError Header).
Context (block_transactions : bytes -> result StoreError (list Transaction)).
Context (get_daa_score : bytes -> result StoreError Z).
Context (U : Node -> Prop) (HU : collision_free hash_iter U).
Context {Dn Ds Dd Dr : Type} `{TableLaws Dn bytes} `{TableLaws Ds AccountState} `{TableLaws Dd DidDocument}
  `{TableLaws Dr bytes}.
Implicit Types (M : gmap H256 H256) (txs : list Transaction).

Abbreviation stores := (StateStores Dn Ds Dd Dr).
Abbreviation overlay := (OverlayStore (DbSmtNodeStore Dn)).
#[local] Instance node_base : NodeStore (DbSmtNodeStore Dn) := db_smt_node_base hash_iter.
#[local] Instance node_overlay : NodeStore overlay := overlay_store hash_iter.

Abbreviation effects txs := (extract_block_effects hex_decode_into txs cm treasury_hex).
Abbreviation view s := (committed hash_iter (snapshot_get (account_states_store s))).
Abbreviation did_view s := (committed_did hash_iter (get_did_state (did_states_store s))).

(** The accounts and documents the block changes, and the maps its two steps commit to. *)
Definition block_changes (s : stores) M txs (daa : Z) : gmap ScriptPublicKey AccountState :=
  block_accounts sha3 (view s M) (effects txs).1 (effects txs).2 daa.
Definition account_leaves (s : stores) M txs (daa : Z) : list (H256 * option H256) :=
  map (leaf_change hash_iter sha3) (map_to_list (block_changes s M txs daa)).
Definition after_accounts (s : stores) M txs (daa : Z) : gmap H256 H256 :=
  apply_changes M (account_leaves s M txs daa).

Definition did_changes (s : stores) M txs (daa : Z) : gmap bytes DidDocument :=
  block_documents sha3 hex_string hex_decode_into (did_verify dilithium_verify) network_prefix daa
    (did_view s (after_accounts s M txs daa)) (did_ops_of txs).
Definition document_leaves (s : stores) M txs (daa : Z) : list (H256 * option H256) :=
  map (did_leaf hash_iter sha3) (map_to_list (did_changes s M txs daa)).
Definition after_block (s : stores) M txs (daa : Z) : gmap H256 H256 :=
  apply_changes (after_accounts s M txs daa) (document_leaves s M txs daa).

Context (acc_order : list (ScriptPublicKey * AccountState) -> list (ScriptPublicKey * AccountState)).
Context (did_order : list (bytes * DidDocument) -> list (bytes * DidDocument)).
Context (node_order : list (H256 * Node) -> list (H256 * Node)).

(** The block can be executed on the state [M]: recipients are long enough, the state
    reads do not fail, the touched accounts and the touched documents have distinct tree
    keys, and the trees on the way have their nodes in [U]. *)
Record executable (s : stores) M txs (daa : Z) : Prop := {
  ex_recipients : recipients_ok (effects txs).1;
  ex_states : states_readable (snapshot_get (account_states_store s)) M;
  ex_dids : Forall (fun op => did_readable hash_iter (get_did_state (did_states_store s))
                                (after_accounts s M txs daa) (op_did op)) (did_ops_of txs);
  ex_acc_order : acc_order (map_to_list (block_changes s M txs daa)) ≡ₚ map_to_list (block_changes s M txs daa);
  ex_did_order : did_order (map_to_list (did_changes s M txs daa)) ≡ₚ map_to_list (did_changes s M txs daa);
  ex_acc_keys : NoDup (map fst (account_leaves s M txs daa));
  ex_did_keys : NoDup (map fst (document_leaves s M txs daa));
  ex_acc_covers : covers_run hash_iter U M
    (map (leaf_change hash_iter sha3) (acc_order (map_to_list (block_changes s M txs daa))));
  ex_did_covers : covers_run hash_iter U (after_accounts s M txs daa)
    (map (did_leaf hash_iter sha3) (did_order (map_to_list (did_changes s M txs daa))));
}.

Abbreviation accounts_of := (account_changes_of hash_iter sha3 hex_decode_into cm treasury_hex acc_order).
Abbreviation dids_of := (did_changes_of hash_iter sha3 hex_string hex_decode_into dilithium_verify network_prefix did_order).

Lemma accounts_of_effects (s : stores) root txs daa :
  accounts_of s root txs daa =
  compute_block_account_changes hash_iter sha3 (snapshot_get (account_states_store s)) acc_order root
    (effects txs).1 (effects txs).2 daa.
Proof. unfold account_changes_of. by destruct (effects txs). Qed.

Lemma transition_run (s : stores) (o : overlay) root M txs daa :
  represents hash_iter U o root M -> executable s M txs daa ->
  exists o1 o2 r1 r2,
    accounts_of s root txs daa o = (o1, Ok (r1, acc_order (map_to_list (block_changes s M txs daa)))) /\
    dids_of s r1 txs daa o1 = (o2, Ok (r2, (did_order (map_to_list (did_changes s M txs daa))).*2)) /\
    represents hash_iter U o2 r2 (after_block s M txs daa).
Proof.
  intros Hr [X1 X2 X3 X4 X5 X6 X7 X8 X9]. rewrite accounts_of_effects.
  destruct (compute_run hash_iter sha3 (snapshot_get (account_states_store s)) U HU sha3_ok acc_order o root M
    (effects txs).1 (effects txs).2 daa) as (o1 & r1 & E1 & R1); [done..|].
  change (block_accounts _ _ _ _ _) with (block_changes s M txs daa) in E1, R1.
  rewrite <-(apply_changes_perm M (account_leaves s M txs daa)) in R1; [|by unfold account_leaves; rewrite X4|done].
  destruct (compute_dids_run sha3 sha3_ok hex_string hex_decode_into (did_verify dilithium_verify) network_prefix daa
    hash_iter (get_did_state (did_states_store s)) U HU did_order o1 r1 _ (did_ops_of txs) R1 X3)
    as (o2 & r2 & E2 & R2); [exact X9|].
  exists o1, o2, r1, r2. split; [exact E1|]. split; [exact E2|]. unfold after_block.
  rewrite (apply_changes_perm _ _ (map (did_leaf hash_iter sha3) (did_order (map_to_list (did_changes s M txs daa)))));
    [exact R2|by unfold document_leaves; rewrite X5|done].
Qed.

Lemma overlay_new_represents ns root M :
  represents hash_iter U (S := DbSmtNodeStore Dn) ns root M ->
  represents hash_iter U (S := overlay) (overlay_new ns) root M.
Proof.
  assert (G : forall h, store_get (S := overlay) (overlay_new ns) h = store_get ns h) by done.
  intros (Hi & t & Hroot & Hst & Hc & Hm). split; [intros h n; rewrite G; apply Hi|].
  exists t. split_and!; try done. clear -Hst G. induction t; cbn [stored] in *; rewrite ?G; naive_solver.
Qed.

End node.

(** * Miner and verifier *)

Lemma block_accounts_ext sha3 view1 view2 txs rewards daa :
  (forall spk, view1 spk = view2 spk) ->
  block_accounts sha3 view1 txs rewards daa = block_accounts sha3 view2 txs rewards daa.
Proof.
  intros Hv. unfold block_accounts. f_equal.
  assert (F : forall T, foldl (flash_step sha3 view1) T txs = foldl (flash_step sha3 view2) T txs).
  { induction txs as [|tx txs IH]; intros T; [done|]. cbn [foldl]. rewrite <-IH. f_equal.
    unfold flash_step, cur. destruct (hash20_to_p2pkh_spk _); by rewrite ?Hv. }
  rewrite F. generalize (foldl (flash_step sha3 view2) ∅ txs). clear F.
  induction rewards as [|rw rws IH]; intros T; [done|]. cbn [foldl]. rewrite <-IH. f_equal.
  unfold reward_step, cur. by rewrite Hv.
Qed.

Section agreement.
Context (hash_iter : list Z -> felt4) (sha3 : bytes -> bytes) (sha3_ok : forall bs, h256_ok (sha3 bs)).
Context (hex_string : bytes -> bytes) (hex_decode_into : bytes -> nat -> option bytes).
Context (dilithium_verify : bytes -> bytes -> bytes -> bool) (network_prefix : Prefix) (genesis_hash : bytes).
Context (cm : CoinbaseManager) (treasury_hex : bytes).
Context {Dn Ds Dd Dr : Type} `{TableLaws Dn bytes} `{TableLaws Ds AccountState} `{TableLaws Dd DidDocument}
  `{TableLaws Dr bytes}.
Context (U : Node -> Prop) (HU : collision_free hash_iter U).
Abbreviation stores := (StateStores Dn Ds Dd Dr).
#[local] Instance agree_base : NodeStore (DbSmtNodeStore Dn) := db_smt_node_base hash_iter.
#[local] Instance agree_overlay : NodeStore (OverlayStore (DbSmtNodeStore Dn)) := overlay_store hash_iter.

Abbreviation exec := (executable hash_iter sha3 hex_string hex_decode_into dilithium_verify network_prefix cm treasury_hex U).
Abbreviation accounts_after := (after_accounts hash_iter sha3 hex_decode_into cm treasury_hex).
Abbreviation block_after := (after_block hash_iter sha3 hex_string hex_decode_into dilithium_verify network_prefix cm treasury_hex).

(** The two nodes read the same parent state. *)
Definition same_reads (s1 s2 : stores) (M : gmap H256 H256) (txs : list Transaction) (daa : Z) : Prop :=
  (forall spk, committed hash_iter (snapshot_get (account_states_store s1)) M spk =
               committed hash_iter (snapshot_get (account_states_store s2)) M spk) /\
  (forall k, committed_did hash_iter (get_did_state (did_states_store s1)) (accounts_after s1 M txs daa) k =
             committed_did hash_iter (get_did_state (did_states_store s2)) (accounts_after s1 M txs daa) k).

Lemma after_block_same (s1 s2 : stores) M txs daa :
  same_reads s1 s2 M txs daa -> block_after s1 M txs daa = block_after s2 M txs daa.
Proof.
  intros [Ha Hd].
  assert (Ea : accounts_after s1 M txs daa = accounts_after s2 M txs daa).
  { unfold after_accounts, account_leaves, block_changes.
    by rewrite (block_accounts_ext _ _ _ _ _ _ Ha). }
  unfold after_block, document_leaves, did_changes. rewrite <-Ea.
  by rewrite (block_documents_ext _ _ _ _ _ _ _ _ _ Hd).
Qed.

(** C14: Miner and verifier agree. Two nodes hold the tree of the parent's root and read the
    same parent state; each iterates its hash maps in its own order. For a block that is
    executable on that state, [template_commitment] on the first node returns a root
    [c], and on the second node the commitment check of [verify_block_state] accepts
    every header with that body, DAA score and [account_commitment = c]; when the block
    joins the selected chain, the root recorded for it is [c] too. *)
Theorem template_commitment_verifies (get_header : bytes -> result StoreError Header)
    (block_transactions : bytes -> result StoreError (list Transaction)) (get_daa_score : bytes -> result StoreError Z)
    (ao1 ao2 : list (ScriptPublicKey * AccountState) -> list (ScriptPublicKey * AccountState))
    (do1 do2 : list (bytes * DidDocument) -> list (bytes * DidDocument))
    (no1 no2 : list (H256 * Node) -> list (H256 * Node))
    (s1 s2 : stores) (mr : gmap bytes bytes) (parent : bytes) (parent_header header : Header) (M : gmap H256 H256)
    (txs : list Transaction) (daa : Z) (root := parent_account_root genesis_hash parent parent_header) :
  get_header parent = Ok parent_header -> block_transactions (header_hash header) = Ok txs ->
  header_daa_score header = daa -> get_daa_score (header_hash header) = Ok daa -> table_rep (account_roots_store s2) mr ->
  represents hash_iter U (smt_nodes_store s1) root M -> represents hash_iter U (smt_nodes_store s2) root M ->
  same_reads s1 s2 M txs daa -> exec ao1 do1 s1 M txs daa -> exec ao2 do2 s2 M txs daa ->
  exists s1' c,
    template_commitment hash_iter sha3 hex_string hex_decode_into dilithium_verify network_prefix genesis_hash
      cm treasury_hex get_header ao1 do1 no1 parent txs daa s1 = (s1', Ok c) /\
    (account_commitment header = c ->
     (exists s2', verify_account_commitment hash_iter sha3 hex_string hex_decode_into dilithium_verify network_prefix
        genesis_hash cm treasury_hex get_header block_transactions ao2 do2 no2 parent header s2 = (s2', Ok tt)) /\
     (exists s2', commit_block_commitment hash_iter sha3 hex_string hex_decode_into dilithium_verify network_prefix
        genesis_hash cm treasury_hex get_header ao2 do2 no2 get_daa_score (header_hash header) (Some parent) txs s2 =
        (s2', Ok tt) /\ root_get (account_roots_store s2') (header_hash header) = Ok c)).
Proof.
  intros Eh Et Ed Eg Hmr R1 R2 Hsame X1 X2.
  destruct (transition_run hash_iter sha3 sha3_ok hex_string hex_decode_into dilithium_verify network_prefix cm
    treasury_hex U HU ao1 do1 s1 _ root M txs daa (overlay_new_represents hash_iter U _ _ _ R1) X1)
    as (o1 & o1' & r1 & c1 & A1 & D1 & P1).
  destruct (transition_run hash_iter sha3 sha3_ok hex_string hex_decode_into dilithium_verify network_prefix cm
    treasury_hex U HU ao2 do2 s2 _ root M txs daa (overlay_new_represents hash_iter U _ _ _ R2) X2)
    as (o2 & o2' & r2 & c2 & A2 & D2 & P2).
  assert (c1 = c2) as <-.
  { rewrite (after_block_same s1 s2) in P1 by done.
    destruct P1 as (_ & t1 & -> & _ & C1 & T1), P2 as (_ & t2 & -> & _ & C2 & T2).
    by rewrite (canon_unique [] t1 t2) by congruence. }
  eexists _, c1. split; [unfold template_commitment; rewrite Eh; fold root; by rewrite A1, D1|]. intros Ec. split.
  - eexists. unfold verify_account_commitment. rewrite Eh, Et, Ed. fold root. rewrite A2, D2.
    by rewrite bool_decide_eq_true_2.
  - unfold commit_block_commitment. rewrite Eh, Eg. fold root. rewrite A2, D2. eexists. split; [done|].
    unfold persist_commit, root_get. cbn [account_roots_store].
    destruct (table_batch_law (account_roots_store s2) mr [(header_hash header, Some c1)] Hmr) as (d & -> & Hd).
    cbn [fst foldl apply_change snd] in *. pose proof (table_read_law d _ (header_hash header) Hd) as L.
    rewrite lookup_insert_eq in L. rewrite L, decide_True; [done|].
    destruct P2 as (_ & t & -> & _). destruct t; [done|apply goldilocks_to_bytes_ok..].
Qed.

End agreement.

(** * What a verified block leaves behind *)

Definition node_ok (n : Node) : Prop :=
  match n with Leaf a b | Branch a b => h256_ok a /\ h256_ok b end.

#[export] Instance node_ok_dec n : Decision (node_ok n).
Proof. destruct n; apply _. Defined.

Lemma foldl_insert_list {K V W} `{Countable K} (f : V -> W) (m : gmap K W) (l : list (K * V)) :
  NoDup l.*1 -> foldl (fun m e => <[e.1 := f e.2]> m) m l = (f <$> list_to_map l) ∪ m.
Proof.
  revert m. induction l as [|[k v] l IH]; intros m Hnd; [by cbn; rewrite fmap_empty, map_empty_union|].
  apply NoDup_cons in Hnd as [Hk Hnd]. cbn [foldl fst snd list_to_map foldr]. rewrite IH by done.
  cbn. rewrite fmap_insert, <-insert_union_l, insert_union_r; [done|].
  rewrite lookup_fmap. by rewrite not_elem_of_list_to_map_1.
Qed.

Lemma apply_changes_lookup (m : gmap H256 H256) cs k h :
  apply_changes m cs !! k = Some h -> m !! k = Some h \/ (k, Some h) ∈ cs.
Proof.
  revert m. induction cs as [|[k' v] cs IH]; intros m; [by left|]. cbn [apply_changes]. intros E0.
  apply IH in E0 as [E0|E0]; [|right; by right]. destruct v as [v|]; cbn [mupdate] in E0.
  - apply lookup_insert_Some in E0 as [[-> ->]|[_ E0]]; [right; left|by left].
  - apply lookup_delete_Some in E0 as [_ E0]. by left.
Qed.

Lemma represents_ext hash_iter U {S1 S2} `{NodeStore S1, NodeStore S2} (s1 : S1) (s2 : S2) root M :
  (forall h, store_get s1 h = store_get s2 h) -> represents hash_iter U s1 root M -> represents hash_iter U s2 root M.
Proof.
  intros G (Hi & t & Hroot & Hst & Hc & Hm). split; [intros h n; rewrite <-G; apply Hi|].
  exists t. split_and!; try done. clear -Hst G. induction t; cbn [stored] in *; rewrite <-?G; naive_solver.
Qed.

Section snapshots.
Context {D V A : Type} `{TableLaws D V} (P : bytes -> V -> Prop) (key : A -> bytes) (val : A -> V).

Lemma log_each_snapshots (l : list A) d m :
  table_rep d m -> map_Forall P m -> (forall x, P (key x) (val x)) ->
  exists m', table_rep (log_each (fun x => snapshot_insert_sync (key x) (val x)) l d) m' /\ map_Forall P m' /\
    (forall h, is_Some (m !! h) -> is_Some (m' !! h)) /\ Forall (fun x => is_Some (m' !! key x)) l.
Proof.
  intros Hr HP Hx. revert d m Hr HP. induction l as [|x l IH]; intros d m Hr HP; [by exists m|].
  destruct (table_batch_law d m [(key x, Some (val x))] Hr) as (d1 & E1 & R1). cbn [foldl apply_change fst snd] in R1.
  destruct (IH d1 _ R1) as (m' & R' & P' & K' & L'); [by apply map_Forall_insert_2|].
  exists m'. unfold log_each in *. cbn [foldl]. unfold snapshot_insert_sync in *. rewrite E1. split; [exact R'|].
  split; [done|]. split; [|constructor; [|done]].
  - intros h Hh. apply K'. destruct (decide (h = key x)) as [->|]; [by rewrite lookup_insert_eq|by rewrite lookup_insert_ne].
  - apply K'. by rewrite lookup_insert_eq.
Qed.

Lemma snapshot_present d m h : table_rep d m -> map_Forall P m -> is_Some (m !! h) -> exists v, snapshot_get d h = Ok v /\ P h v.
Proof.
  intros Hr HP [v Hv]. pose proof (table_read_law d m h Hr) as L. rewrite Hv in L. exists v. split; [exact L|]. by apply HP.
Qed.

Lemma snapshot_read_present d m h v : table_rep d m -> snapshot_get d h = Ok v -> is_Some (m !! h).
Proof.
  intros Hr E. pose proof (table_read_law d m h Hr) as L. unfold snapshot_get in E.
  destruct (m !! h); [done|]. destruct L as [k' L]. congruence.
Qed.
End snapshots.

(** ** The node table *)

Section node_table.
Context (hash_iter : list Z -> felt4) {Dn : Type} `{TableLaws Dn bytes}.
Implicit Types (ns : DbSmtNodeStore Dn).

Lemma base_get_spec ns (mn : gmap bytes bytes) h :
  table_rep (node_table ns) mn ->
  base_get ns h = match mem_pool ns !! h with Some n => Some n | None => mn !! h ≫= decode end.
Proof.
  intros Hr. unfold base_get, smt_nodes_get, mem_get. destruct (mem_pool ns !! h); [done|].
  pose proof (table_read_law _ mn h Hr) as L. destruct (mn !! h) as [bs|]; [by rewrite L|]. by destruct L as [k' ->].
Qed.

Lemma insert_sync_many_run ns (mn : gmap bytes bytes) l :
  table_rep (node_table ns) mn ->
  exists ns', insert_sync_many l ns = (ns', Ok tt) /\
    mem_pool ns' = foldl (fun m e => <[e.1 := e.2]> m) (mem_pool ns) l /\
    table_rep (node_table ns') (foldl (fun m e => <[e.1 := encode e.2]> m) mn l).
Proof.
  revert ns mn. induction l as [|[h n] l IH]; intros ns mn Hr; [by exists ns|]. cbn [insert_sync_many foldl fst snd].
  destruct (table_write_law (node_table ns) mn h (encode n) Hr) as (t & E & R).
  erewrite st_bind_run; cycle 1.
  { unfold insert_sync. cbn [mem_put node_table]. by rewrite E. }
  apply IH. exact R.
Qed.

(** After [insert_sync_many] the pool and the table show the inserted nodes first. *)
Lemma insert_pending_get ns (mn : gmap bytes bytes) (p : gmap H256 Node) (l : list (H256 * Node)) :
  table_rep (node_table ns) mn -> l ≡ₚ map_to_list p -> (forall h n, p !! h = Some n -> node_ok n) ->
  exists ns' mn', insert_sync_many l ns = (ns', Ok tt) /\ table_rep (node_table ns') mn' /\
    forall h, base_get ns' h = match p !! h with Some n => Some n | None => base_get ns h end /\
              base_get (mem_clear ns') h = match p !! h with Some n => Some n | None => base_get (mem_clear ns) h end.
Proof.
  intros Hr Hl Hok. destruct (insert_sync_many_run ns mn l Hr) as (ns' & E & Em & Rt).
  assert (Hnd : NoDup l.*1) by (rewrite Hl; apply NoDup_fst_map_to_list).
  assert (Ep : list_to_map l = p).
  { rewrite <-(list_to_map_to_list p). by apply list_to_map_proper. }
  rewrite (foldl_insert_list encode), Ep in Rt by done.
  pose proof (foldl_insert_list id (mem_pool ns) l Hnd) as Em'. rewrite Ep, map_fmap_id in Em'.
  eexists ns', _. split; [done|]. split; [exact Rt|]. intros h.
  rewrite (base_get_spec ns' _ h Rt), (base_get_spec (mem_clear ns') _ h Rt), (base_get_spec ns mn h Hr),
    (base_get_spec (mem_clear ns) mn h Hr), Em.
  change (foldl _ (mem_pool ns) l) with (foldl (fun m e => <[e.1 := id e.2]> m) (mem_pool ns) l). rewrite Em'.
  cbn [mem_clear mem_pool]. rewrite lookup_empty, !lookup_union, lookup_fmap.
  destruct (p !! h) as [n|] eqn:Eh; simpl.
  - rewrite !union_Some_l. cbn [option_bind mbind]. rewrite decode_encode_node; [done|]. exact (Hok h n Eh).
  - by rewrite !(left_id_L None _).
Qed.

End node_table.

Section persistence.
Context (hash_iter : list Z -> felt4) (sha3 : bytes -> bytes) (sha3_ok : forall bs, h256_ok (sha3 bs)).
Context (hex_string : bytes -> bytes) (hex_decode_into : bytes -> nat -> option bytes).
Context (dilithium_verify : bytes -> bytes -> bytes -> bool) (network_prefix : Prefix) (genesis_hash : bytes).
Context (cm : CoinbaseManager) (treasury_hex : bytes).
Context {Dn Ds Dd Dr : Type} `{TableLaws Dn bytes} `{TableLaws Ds AccountState} `{TableLaws Dd DidDocument}
  `{TableLaws Dr bytes}.
Context (U : Node -> Prop) (HU : collision_free hash_iter U) (U_ok : forall n, U n -> node_ok n).
Context (acc_order : list (ScriptPublicKey * AccountState) -> list (ScriptPublicKey * AccountState)).
Context (did_order : list (bytes * DidDocument) -> list (bytes * DidDocument)).
Context (node_order : list (H256 * Node) -> list (H256 * Node)) (node_order_perm : forall l, node_order l ≡ₚ l).
Implicit Types (M : gmap H256 H256) (txs : list Transaction).
Abbreviation stores := (StateStores Dn Ds Dd Dr).
Abbreviation overlay := (OverlayStore (DbSmtNodeStore Dn)).
#[local] Instance persist_base : NodeStore (DbSmtNodeStore Dn) := db_smt_node_base hash_iter.
#[local] Instance persist_overlay : NodeStore overlay := overlay_store hash_iter.

Abbreviation executable := (executable hash_iter sha3 hex_string hex_decode_into dilithium_verify network_prefix cm
  treasury_hex U acc_order did_order).
Abbreviation after_block := (after_block hash_iter sha3 hex_string hex_decode_into dilithium_verify network_prefix cm treasury_hex).
Abbreviation changes_of := (block_changes hash_iter sha3 hex_decode_into cm treasury_hex).
Abbreviation docs_of := (did_changes hash_iter sha3 hex_string hex_decode_into dilithium_verify network_prefix cm treasury_hex).

(** Every snapshot is stored under its own hash, every node under its own. *)
Record node_wf (s : stores) : Prop := {
  wf_nodes : exists mn, table_rep (node_table (smt_nodes_store s)) mn;
  wf_states : exists ms, table_rep (account_states_store s) ms /\ map_Forall (fun h a => content_hash sha3 a = h) ms;
  wf_dids : exists md, table_rep (did_states_store s) md /\ map_Forall (fun h d => did_content_hash sha3 d = h) md;
  wf_inv : store_inv hash_iter U (smt_nodes_store s);
}.

(** The value of every leaf is the hash of a stored account or document. *)
Definition available (s : stores) M : Prop :=
  forall k h, M !! k = Some h ->
    (exists a, snapshot_get (account_states_store s) h = Ok a /\ content_hash sha3 a = h) \/
    (exists d, snapshot_get (did_states_store s) h = Ok d /\ did_content_hash sha3 d = h).

(** The database alone, without the memory pool, holds the state of [root]. *)
Definition holds (s : stores) (root : H256) M : Prop :=
  represents hash_iter U (mem_clear (smt_nodes_store s)) root M /\ available s M.

Lemma pool_extends ns :
  store_inv hash_iter U ns -> store_inv hash_iter U (mem_clear ns) ->
  forall h n, store_get (mem_clear ns) h = Some n -> store_get ns h = Some n.
Proof.
  intros Hi Hc h n E. pose proof (Hc h n E) as [Eh Hn]. cbn [store_get persist_base db_smt_node_base] in *.
  unfold base_get, smt_nodes_get, mem_get in *. cbn [mem_clear mem_pool node_table] in E. rewrite lookup_empty in E.
  destruct (mem_pool ns !! h) as [n'|] eqn:Ep; [|exact E].
  destruct (Hi h n') as [Eh' Hn']. { cbn [store_get persist_base db_smt_node_base]. unfold base_get, mem_get. by rewrite Ep. }
  f_equal. apply (cf_inj _ _ HU); congruence.
Qed.

(** Both computations, with the nodes they leave pending, over the pool and over the
    database alone. *)
Lemma transition_pending (s : stores) root M txs daa :
  store_inv hash_iter U (smt_nodes_store s) -> represents hash_iter U (mem_clear (smt_nodes_store s)) root M ->
  executable s M txs daa ->
  exists o1 o2 r1 r2,
    account_changes_of hash_iter sha3 hex_decode_into cm treasury_hex acc_order s root txs daa
      (overlay_new (smt_nodes_store s)) = (o1, Ok (r1, acc_order (map_to_list (changes_of s M txs daa)))) /\
    did_changes_of hash_iter sha3 hex_string hex_decode_into dilithium_verify network_prefix did_order s r1 txs daa o1 =
      (o2, Ok (r2, (did_order (map_to_list (docs_of s M txs daa))).*2)) /\
    represents hash_iter U {| base := mem_clear (smt_nodes_store s); pending := pending o2 |} r2 (after_block s M txs daa).
Proof.
  intros Hi Hr Hx. destruct (transition_run hash_iter sha3 sha3_ok hex_string hex_decode_into dilithium_verify
    network_prefix cm treasury_hex U HU acc_order did_order s _ root M txs daa (overlay_new_represents hash_iter U _ _ _ Hr) Hx)
    as (d1 & d2 & r1 & r2 & A & D & P).
  pose proof (pool_extends _ Hi (proj1 Hr)) as Hext. rewrite accounts_of_effects in A.
  destruct (mono_compute_accounts hash_iter (smt_nodes_store s) (mem_clear (smt_nodes_store s)) Hext sha3
    (snapshot_get (account_states_store s)) acc_order root _ _ daa _ _ _ _ (same_pending_new _ _) A)
    as (o1 & A' & S1).
  destruct (mono_compute_dids hash_iter (smt_nodes_store s) (mem_clear (smt_nodes_store s)) Hext sha3 hex_string
    hex_decode_into (get_did_state (did_states_store s)) (did_verify dilithium_verify) network_prefix did_order r1
    (did_ops_of txs) daa o1 _ _ _ S1 D) as (o2 & D' & (B1 & B2 & Ep)).
  exists o1, o2, r1, r2. split; [rewrite accounts_of_effects; exact A'|]. split; [exact D'|].
  rewrite Ep, <-B2. by destruct d2.
Qed.

Lemma persist_nodes (ns : DbSmtNodeStore Dn) (mn : gmap bytes bytes) (p : gmap H256 Node) r2 M2 :
  table_rep (node_table ns) mn -> store_inv hash_iter U ns ->
  represents hash_iter U (S := overlay) {| base := mem_clear ns; pending := p |} r2 M2 ->
  let ns' := (insert_sync_many (node_order (map_to_list p)) ns).1 in
  (exists mn', table_rep (node_table ns') mn') /\ store_inv hash_iter U ns' /\
  represents hash_iter U (mem_clear ns') r2 M2 /\
  (forall root0 M0, represents hash_iter U (mem_clear ns) root0 M0 -> represents hash_iter U (mem_clear ns') root0 M0).
Proof.
  intros Hr Hi Hrep. pose proof (proj1 Hrep) as Ho.
  assert (Hp : forall h n, p !! h = Some n -> h = hash hash_iter n /\ U n).
  { intros h n E. apply Ho. cbn [store_get persist_overlay overlay_store pending]. by rewrite E. }
  destruct (insert_pending_get ns mn p (node_order (map_to_list p)) Hr (node_order_perm _)) as (ns' & mn' & E & R & G).
  { intros h n En. apply U_ok. by eapply Hp. }
  cbv zeta. rewrite E. cbn [fst].
  assert (Hi' : store_inv hash_iter U (mem_clear ns')).
  { intros h n En. apply Ho. cbn [store_get persist_base db_smt_node_base] in En. by rewrite (proj2 (G h)) in En. }
  split; [by exists mn'|]. split; [|split].
  - intros h n En. cbn [store_get persist_base db_smt_node_base] in En. rewrite (proj1 (G h)) in En.
    destruct (p !! h) as [n'|] eqn:Eh; [injection En as <-; by apply Hp|by apply Hi].
  - eapply (represents_ext hash_iter U); [|exact Hrep]. intros h. symmetry. apply (proj2 (G h)).
  - intros root0 M0 (Hi0 & t & -> & Hst & Hc & Hm). split; [done|]. exists t. split_and!; try done.
    eapply (stored_extends hash_iter); [|exact Hst]. intros h n En. cbn [store_get persist_base db_smt_node_base] in *.
    rewrite (proj2 (G h)). destruct (p !! h) as [n'|] eqn:Eh; [|done].
    destruct (Hp _ _ Eh) as [E1 U1], (Hi0 h n En) as [E2 U2]. f_equal. apply (cf_inj _ _ HU); congruence.
Qed.

Lemma available_leaves (s s' : stores) M txs daa :
  executable s M txs daa ->
  (forall a, a ∈ (map_to_list (changes_of s M txs daa)).*2 ->
     exists a', snapshot_get (account_states_store s') (content_hash sha3 a) = Ok a' /\ content_hash sha3 a' = content_hash sha3 a) ->
  (forall d, d ∈ (map_to_list (docs_of s M txs daa)).*2 ->
     exists d', snapshot_get (did_states_store s') (did_content_hash sha3 d) = Ok d' /\ did_content_hash sha3 d' = did_content_hash sha3 d) ->
  available s' M -> available s' (after_block s M txs daa).
Proof.
  intros Hx Ha Hd HM k h E. apply apply_changes_lookup in E as [E|E].
  - apply apply_changes_lookup in E as [E|E]; [by eapply HM|]. left.
    apply list_elem_of_fmap in E as ([spk a] & Ek & Hin). unfold leaf_change in Ek. cbn [fst snd] in Ek.
    destruct (is_empty a); [done|]. injection Ek as -> ->. apply Ha. apply list_elem_of_fmap. by exists (spk, a).
  - right. apply list_elem_of_fmap in E as ([i d] & Ek & Hin). injection Ek as -> ->. apply Hd.
    apply list_elem_of_fmap. by exists (i, d).
Qed.

Lemma persist_sync_holds (s : stores) (o : overlay) root r2 M txs daa :
  node_wf s -> holds s root M -> executable s M txs daa ->
  represents hash_iter U {| base := mem_clear (smt_nodes_store s); pending := pending o |} r2 (after_block s M txs daa) ->
  let s' := persist_sync sha3 node_order o (acc_order (map_to_list (changes_of s M txs daa)))
              (did_order (map_to_list (docs_of s M txs daa))).*2 s in
  node_wf s' /\ holds s' r2 (after_block s M txs daa) /\
  (forall root0 M0, holds s root0 M0 -> holds s' root0 M0).
Proof.
  intros [[mn Hn] (ms & Hs & Ps) (md & Hd & Pd) Hi] [Hr HM] Hx Hrep s'.
  destruct (persist_nodes (smt_nodes_store s) mn (pending o) r2 _ Hn Hi Hrep) as (Hn' & Hi' & Hr' & Hold).
  destruct (log_each_snapshots (fun h a => content_hash sha3 a = h) (fun e => content_hash sha3 e.2) snd
    (acc_order (map_to_list (changes_of s M txs daa))) (account_states_store s) ms Hs Ps ltac:(done)) as (ms' & Hs' & Ps' & Ks & Ls).
  destruct (log_each_snapshots (fun h d => did_content_hash sha3 d = h) (did_content_hash sha3) id
    (did_order (map_to_list (docs_of s M txs daa))).*2 (did_states_store s) md Hd Pd ltac:(done)) as (md' & Hd' & Pd' & Kd & Ld).
  assert (Hav : forall M0, available s M0 -> available s' M0).
  { intros M0 H0' k h E. destruct (H0' k h E) as [(a & Ea & _)|(d & Ed & _)]; [left|right].
    - eapply (snapshot_present (fun h a => content_hash sha3 a = h)); [exact Hs'|done|]. apply Ks. by eapply snapshot_read_present.
    - eapply (snapshot_present (fun h d => did_content_hash sha3 d = h)); [exact Hd'|done|]. apply Kd. by eapply snapshot_read_present. }
  split; [split; eauto|]. split; [split; [exact Hr'|]|intros root0 M0 [Hr0 HM0]; split; auto].
  apply available_leaves; [done| | |by apply Hav].
  - intros a Ha. rewrite <-(ex_acc_order _ _ _ _ _ _ _ _ _ _ _ _ _ _ _ Hx) in Ha.
    apply list_elem_of_fmap in Ha as (e & -> & He). rewrite Forall_forall in Ls.
    by apply (snapshot_present (fun h a => content_hash sha3 a = h) _ ms'), (Ls e).
  - intros d Hdd. rewrite <-(ex_did_order _ _ _ _ _ _ _ _ _ _ _ _ _ _ _ Hx) in Hdd. rewrite Forall_forall in Ld.
    by apply (snapshot_present (fun h d => did_content_hash sha3 d = h) _ md'), (Ld d).
Qed.

(** C12: Verification keeps the state available. From a node whose database alone, without
    the memory pool, holds the parent's state, verifying an executable block always
    reaches the comparison of roots; whether the header's commitment matches or not, the
    database alone then holds the complete state of the computed root (every node of its
    tree, and behind every leaf an account or document with that hash), and every state
    it held before. The check succeeds exactly when the header commits to that root. *)
Theorem verified_block_persists (get_header : bytes -> result StoreError Header)
    (block_transactions : bytes -> result StoreError (list Transaction))
    (s : stores) (parent : bytes) (parent_header header : Header) M txs
    (root := parent_account_root genesis_hash parent parent_header) (daa := header_daa_score header) :
  get_header parent = Ok parent_header -> block_transactions (header_hash header) = Ok txs ->
  node_wf s -> holds s root M -> executable s M txs daa ->
  exists s' root' r,
    verify_account_commitment hash_iter sha3 hex_string hex_decode_into dilithium_verify network_prefix genesis_hash
      cm treasury_hex get_header block_transactions acc_order did_order node_order parent header s = (s', r) /\
    node_wf s' /\ holds s' root' (after_block s M txs daa) /\
    (forall root0 M0, holds s root0 M0 -> holds s' root0 M0) /\
    (r = Ok tt <-> account_commitment header = root').
Proof.
  intros Eh Et Hw Hh Hx.
  destruct (transition_pending s root M txs daa) as (o1 & o2 & r1 & r2 & A & D & P); [apply Hw|apply Hh|done|].
  destruct (persist_sync_holds s o2 root r2 M txs daa Hw Hh Hx P) as (W' & H' & Old).
  eexists _, r2, _. split; [unfold verify_account_commitment; rewrite Eh, Et; fold root daa; by rewrite A, D|].
  split; [exact W'|]. split; [exact H'|]. split; [exact Old|]. case_bool_decide; naive_solver.
Qed.

End persistence.

(** * A concrete block: a reward, a flash transaction and a new identity on genesis *)

Fixpoint tree_changes (t : tree) (cs : list (H256 * option H256)) : tree :=
  match cs with [] => t | (k, value) :: cs' => tree_changes (tupdate t 0 k value) cs' end.

Lemma tree_changes_spec t cs :
  canon [] t -> Forall change_ok cs ->
  canon [] (tree_changes t cs) /\ tmap (tree_changes t cs) = apply_changes (tmap t) cs.
Proof.
  intros Hc Hok. revert t Hc. induction Hok as [|[k value] cs [Hk Hv] Hcs IH]; intros t Hc; [done|].
  cbn [tree_changes apply_changes]. destruct (tupdate_spec [] t k value) as [Hc' Hm]; auto using prefix_nil.
  { intros v ->. exact Hv. }
  cbn [length] in *. rewrite <-Hm. by apply IH.
Qed.

Definition demo_digest (bs : bytes) : bytes :=
  to_le 32 (foldl (fun acc x => (acc * 257 + x + 1) mod 1000000007) 3 bs).

Lemma demo_digest_ok bs : h256_ok (demo_digest bs).
Proof. split; [apply length_to_le|apply to_le_ok]. Qed.

Definition demo_pubkey : bytes := replicate PUBKEY_BYTES 1.
Definition demo_addr : bytes := default [] (derive_csm_address demo_digest demo_pubkey Testnet).
Definition demo_create : DidOp :=
  Create demo_pubkey (DID_PREFIX ++ demo_addr) demo_addr [123; 125] 5 (replicate SIG_SIZE 7).
Definition demo_no_hash (_ : Transaction) : bytes := zero_hash.
Definition demo_txs : list Transaction :=
  template_txs demo_no_hash toy_manager 5 Coinbase.toy_miner
    [to_transaction demo_no_hash toy_flash;
     Transaction_new demo_no_hash 0 [] [] 0 SUBNETWORK_ID_NATIVE 0 (did_wire [] demo_create)].

Abbreviation demo_stores :=
  (StateStores (gmap bytes bytes) (gmap bytes AccountState) (gmap bytes DidDocument) (gmap bytes bytes)).
Definition demo_node : demo_stores :=
  {| smt_nodes_store := {| mem_pool := ∅; node_table := ∅ |}; account_states_store := ∅; did_states_store := ∅;
     account_roots_store := ∅ |}.

Abbreviation demo_verify := (fun _ _ _ : bytes => true).
Abbreviation demo_changes :=
  (block_changes toy_hash demo_digest toy_hex_decode toy_manager [] demo_node ∅ demo_txs 60).
Abbreviation demo_docs :=
  (did_changes toy_hash demo_digest id toy_hex_decode demo_verify Testnet toy_manager [] demo_node ∅ demo_txs 60).

Definition acc_cs (order : list (ScriptPublicKey * AccountState) -> list (ScriptPublicKey * AccountState)) :
    list (H256 * option H256) := map (leaf_change toy_hash demo_digest) (order (map_to_list demo_changes)).
Definition did_cs : list (H256 * option H256) := map (did_leaf toy_hash demo_digest) (map_to_list demo_docs).
Definition demo_tree : tree := tree_changes TEmpty (acc_cs id).

Definition demo_nodes : list Node :=
  remove_dups (concat (map (tnodes toy_hash)
    (run_trees TEmpty (acc_cs id) ++ run_trees TEmpty (acc_cs reverse) ++ run_trees demo_tree did_cs))).
Definition demo_U (n : Node) : Prop := n ∈ demo_nodes.

Lemma demo_free : collision_free toy_hash demo_U.
Proof. apply collision_free_list. by vm_compute. Qed.

Lemma demo_acc_ok order : Forall change_ok (acc_cs order).
Proof. apply leaf_changes_ok, demo_digest_ok. Qed.

Lemma demo_tree_spec :
  canon [] demo_tree /\
  after_accounts toy_hash demo_digest toy_hex_decode toy_manager [] demo_node ∅ demo_txs 60 = tmap demo_tree.
Proof. destruct (tree_changes_spec TEmpty (acc_cs id)) as [Hc Hm]; [exact I|apply demo_acc_ok|]. split; [exact Hc|]. symmetry. exact Hm. Qed.

Lemma demo_nodes_cover :
  forallb (fun n => bool_decide (n ∈ demo_nodes)) (concat (map (tnodes toy_hash) (run_trees TEmpty (acc_cs id)))) &&
  forallb (fun n => bool_decide (n ∈ demo_nodes)) (concat (map (tnodes toy_hash) (run_trees TEmpty (acc_cs reverse)))) &&
  forallb (fun n => bool_decide (n ∈ demo_nodes)) (concat (map (tnodes toy_hash) (run_trees demo_tree did_cs))) = true.
Proof. by vm_compute. Qed.

Lemma demo_acc_cover order : order = id \/ order = reverse -> covers_run toy_hash demo_U (tmap TEmpty) (acc_cs order).
Proof.
  intros Ho. pose proof demo_nodes_cover as [[N1 N2]%andb_true_iff _]%andb_true_iff.
  apply covers_run_list; [exact I|apply demo_acc_ok|]. destruct Ho as [->| ->]; [exact N1|exact N2].
Qed.

Lemma demo_did_cover : covers_run toy_hash demo_U (tmap demo_tree) did_cs.
Proof.
  pose proof demo_nodes_cover as [_ N3]%andb_true_iff.
  apply covers_run_list; [apply demo_tree_spec|apply did_leaves_ok, demo_digest_ok|exact N3].
Qed.

Lemma demo_did_ops : map op_did (did_ops_of demo_txs) = [op_did demo_create].
Proof. by vm_compute. Qed.

Lemma demo_did_absent : tmap demo_tree !! did_key_hash toy_hash (op_did demo_create) = None.
Proof. by vm_compute. Qed.

Lemma demo_keys :
  bool_decide (NoDup (map fst (acc_cs id))) && bool_decide (NoDup (map fst did_cs)) = true.
Proof. by vm_compute. Qed.

Lemma demo_recipients : recipients_ok (extract_block_effects toy_hex_decode demo_txs toy_manager []).1.
Proof. apply (bool_decide_unpack _). by vm_compute. Qed.

Lemma nothing_readable {D} `{Table D AccountState} (d : D) : states_readable (snapshot_get d) ∅.
Proof. intros k h E. rewrite lookup_empty in E. discriminate. Qed.

(** The documents that a list of operations names are readable if none is committed. *)
Lemma absent_readable hash_iter did_states M k ops :
  map op_did ops = [k] -> M !! did_key_hash hash_iter k = None ->
  Forall (fun op => did_readable hash_iter did_states M (op_did op)) ops.
Proof.
  intros E Hk. destruct ops as [|op [|]]; try discriminate. injection E as E. constructor; [|constructor].
  intros h Hh. rewrite E, Hk in Hh. discriminate.
Qed.

Lemma demo_executable order :
  order = id \/ order = reverse ->
  executable toy_hash demo_digest id toy_hex_decode demo_verify Testnet toy_manager [] demo_U order id demo_node ∅ demo_txs 60.
Proof.
  intros Ho. pose proof demo_keys as [K1%bool_decide_eq_true K2%bool_decide_eq_true]%andb_true_iff.
  destruct demo_tree_spec as [Tc Tm]. split.
  - apply demo_recipients.
  - apply nothing_readable.
  - rewrite Tm. exact (absent_readable _ _ _ _ _ demo_did_ops demo_did_absent).
  - destruct Ho as [->| ->]; [apply Permutation_refl|apply reverse_Permutation].
  - apply Permutation_refl.
  - exact K1.
  - exact K2.
  - exact (demo_acc_cover order Ho).
  - rewrite Tm. exact demo_did_cover.
Qed.

#[local] Instance demo_base : NodeStore (DbSmtNodeStore (gmap bytes bytes)) := db_smt_node_base toy_hash.

Lemma demo_represents : represents toy_hash demo_U (smt_nodes_store demo_node) EMPTY ∅.
Proof. split; [intros h n E; discriminate|]. exists TEmpty. split; [reflexivity|]. split; [exact I|]. by split. Qed.

Definition demo_genesis : Header := mk_header [0] 1 [] [] [] [9] 0 0 0 0 [0; 0; 0] 0 [].
Definition demo_header : Header := mk_header [1] 1 [] [] [] [9] 0 0 0 60 [0; 0; 0] 0 [].
Definition demo_get_header (h : bytes) : result StoreError Header := Ok demo_genesis.
Definition demo_bodies (h : bytes) : result StoreError (list Transaction) := Ok demo_txs.
Definition demo_scores (h : bytes) : result StoreError Z := Ok 60.

Lemma template_commitment_verifies_witness :
  exists s1' c,
    template_commitment toy_hash demo_digest id toy_hex_decode demo_verify Testnet [0] toy_manager [] demo_get_header
      id id id [0] demo_txs 60 demo_node = (s1', Ok c) /\
    (account_commitment demo_header = c ->
     (exists s2', verify_account_commitment toy_hash demo_digest id toy_hex_decode demo_verify Testnet [0] toy_manager []
        demo_get_header demo_bodies reverse id id [0] demo_header demo_node = (s2', Ok tt)) /\
     (exists s2', commit_block_commitment toy_hash demo_digest id toy_hex_decode demo_verify Testnet [0] toy_manager []
        demo_get_header reverse id id demo_scores [1] (Some [0]) demo_txs demo_node = (s2', Ok tt) /\
        root_get (account_roots_store s2') [1] = Ok c)).
Proof.
  apply (template_commitment_verifies toy_hash demo_digest demo_digest_ok id toy_hex_decode demo_verify Testnet [0]
    toy_manager [] demo_U demo_free demo_get_header demo_bodies demo_scores id reverse id id id id demo_node demo_node ∅
    [0] demo_genesis demo_header ∅ demo_txs 60).
  - reflexivity.
  - reflexivity.
  - reflexivity.
  - reflexivity.
  - reflexivity.
  - exact demo_represents.
  - exact demo_represents.
  - split; reflexivity.
  - apply demo_executable. by left.
  - apply demo_executable. by right.
Defined.

Lemma demo_wf : node_wf toy_hash demo_digest demo_U demo_node.
Proof.
  split; [by exists ∅|exists ∅; split; [reflexivity|apply map_Forall_empty]..|].
  apply (proj1 demo_represents).
Qed.

Lemma verified_block_persists_witness :
  exists s' root' r,
    verify_account_commitment toy_hash demo_digest id toy_hex_decode demo_verify Testnet [0] toy_manager []
      demo_get_header demo_bodies id id id [0] demo_header demo_node = (s', r) /\
    node_wf toy_hash demo_digest demo_U s' /\
    holds toy_hash demo_digest demo_U s' root'
      (after_block toy_hash demo_digest id toy_hex_decode demo_verify Testnet toy_manager [] demo_node ∅ demo_txs 60) /\
    (forall root0 M0, holds toy_hash demo_digest demo_U demo_node root0 M0 -> holds toy_hash demo_digest demo_U s' root0 M0) /\
    (r = Ok tt <-> account_commitment demo_header = root').
Proof.
  apply (verified_block_persists toy_hash demo_digest demo_digest_ok id toy_hex_decode demo_verify Testnet [0]
    toy_manager [] demo_U demo_free) with (parent_header := demo_genesis).
  - intros n Hn. unfold demo_U in Hn. revert n Hn. apply Forall_forall.
    apply (bool_decide_unpack _). by vm_compute.
  - reflexivity.
  - reflexivity.
  - reflexivity.
  - exact demo_wf.
  - split; [exact demo_represents|]. intros k h E. discriminate.
  - apply demo_executable. by left.
Defined.
