(* ===== verification/Interval.v ===== *)
(** Intervals of the reachability tree (consensus/src/processes/reachability/
    interval.rs): the operations on [u64] bounds with their wrap-around, the
    float arithmetic of the two splitting rules, and the theorems that each
    splitting rule partitions the interval. *)

From Stdlib Require Import Floats.SpecFloat.
From S2P Require Import Prelude.

(** * Definitions *)

(** The bounds are inclusive; an empty interval has [end = start - 1]. *)
Record Interval := mk_interval { iv_start : Z; iv_end : Z }.

#[export] Instance Interval_eq_dec : EqDecision Interval.
Proof. solve_decision. Defined.

(** The assertions of [Interval::new] are [debug_assert!]s. *)
Definition Interval_new (start end_ : Z) : Interval := mk_interval start end_.
Definition Interval_empty : Interval := Interval_new 1 0.
Definition Interval_maximal : Interval := Interval_new 1 (U64_MAX - 1).

Definition interval_size (i : Interval) : Z := wsub64 (wadd64 (iv_end i) 1) (iv_start i).
Definition interval_is_empty (i : Interval) : bool := interval_size i =? 0.

Definition increase (i : Interval) (offset : Z) : Interval :=
  Interval_new (wadd64 (iv_start i) offset) (wadd64 (iv_end i) offset).
Definition decrease (i : Interval) (offset : Z) : Interval :=
  Interval_new (wsub64 (iv_start i) offset) (wsub64 (iv_end i) offset).
Definition increase_start (i : Interval) (offset : Z) : Interval :=
  Interval_new (wadd64 (iv_start i) offset) (iv_end i).
Definition decrease_start (i : Interval) (offset : Z) : Interval :=
  Interval_new (wsub64 (iv_start i) offset) (iv_end i).
Definition increase_end (i : Interval) (offset : Z) : Interval :=
  Interval_new (iv_start i) (wadd64 (iv_end i) offset).
Definition decrease_end (i : Interval) (offset : Z) : Interval :=
  Interval_new (iv_start i) (wsub64 (iv_end i) offset).

(** [x as f32] for a [u64]: the nearest number of 24 significant bits, ties to
    even. The value is an integer, at most [2^64]. *)
Definition f32_of_u64 (x : Z) : Z :=
  if x <? 2 ^ 24 then x
  else
    let e := Z.log2 x - 23 in
    let q := x / 2 ^ e in
    let r := x mod 2 ^ e in
    let up := (2 ^ e <? 2 * r) || ((2 * r =? 2 ^ e) && Z.odd q) in
    (if up then q + 1 else q) * 2 ^ e.

(** [split_fraction] at the fraction [2^-k], by which a float is scaled exactly. *)
Definition split_fraction (i : Interval) (k : Z) : Interval * Interval :=
  let left_size := (f32_of_u64 (interval_size i) + (2 ^ k - 1)) / 2 ^ k in
  (Interval_new (iv_start i) (wsub64 (wadd64 (iv_start i) left_size) 1),
   Interval_new (wadd64 (iv_start i) left_size) (iv_end i)).

Definition split_half (i : Interval) : Interval * Interval := split_fraction i 1.

(** [iter().sum::<u64>()] *)
Definition sum_u64 (l : list Z) : Z := fold_left wadd64 l 0.

Fixpoint exact_parts (start : Z) (sizes : list Z) : list Interval :=
  match sizes with
  | [] => []
  | size :: rest =>
      Interval_new start (wsub64 (wadd64 start size) 1) :: exact_parts (wadd64 start size) rest
  end.

(** [None] is the failed assertion. *)
Definition split_exact (i : Interval) (sizes : list Z) : option (list Interval) :=
  if sum_u64 sizes =? interval_size i then Some (exact_parts (iv_start i) sizes) else None.

(** ** The [f64] arithmetic of the exponential rule *)

Abbreviation f64 := spec_float.
Definition f64_of_u64 (x : Z) : f64 := binary_normalize 53 1024 x 0 false.
Definition f64_mul : f64 -> f64 -> f64 := SFmul 53 1024.
Definition f64_div : f64 -> f64 -> f64 := SFdiv 53 1024.
Definition f64_add : f64 -> f64 -> f64 := SFadd 53 1024.
Definition f64_one : f64 := f64_of_u64 1.

(** [2f64.powf(n as f64)] for a [u64]: a power of two, or infinity. *)
Definition f64_pow2 (n : Z) : f64 :=
  if n <? 1024 then SFldexp 53 1024 f64_one n else S754_infinity false.

(** [f64::round(x) as u64]: halves away from zero, saturating, [NaN] to 0. *)
Definition f64_round_as_u64 (x : f64) : Z :=
  match x with
  | S754_finite false m e =>
      Z.min U64_MAX
        (if 0 <=? e then Z.pos m * 2 ^ e else (2 * Z.pos m + 2 ^ (- e)) / 2 ^ (1 - e))
  | S754_infinity false => U64_MAX
  | _ => 0
  end.

Definition exponential_fractions (sizes : list Z) : list f64 :=
  let max_size := foldr Z.max 0 sizes in
  let fractions := map (fun s => f64_div f64_one (f64_pow2 (max_size - s))) sizes in
  let fractions_sum := fold_left f64_add fractions (S754_zero true) in
  map (fun item => f64_div item fractions_sum) fractions.

(** The loop over the fractions; the last part takes the whole remainder. *)
Fixpoint biased_sizes (total_bias : f64) (sizes : list Z) (fractions : list f64) (remaining_bias : Z) : list Z :=
  match sizes, fractions with
  | size :: sizes', fraction :: fractions' =>
      let bias :=
        match fractions' with
        | [] => remaining_bias
        | _ :: _ => Z.min remaining_bias (f64_round_as_u64 (f64_mul total_bias fraction))
        end in
      wadd64 size bias :: biased_sizes total_bias sizes' fractions' (wsub64 remaining_bias bias)
  | _, _ => []
  end.

Definition split_exponential (i : Interval) (sizes : list Z) : option (list Interval) :=
  let interval_size := interval_size i in
  let sizes_sum := sum_u64 sizes in
  if negb (sizes_sum <=? interval_size) then None
  else if negb (0 <? sizes_sum) then None
  else if interval_size =? sizes_sum then split_exact i sizes
  else
    let remaining_bias := wsub64 interval_size sizes_sum in
    split_exact i
      (biased_sizes (f64_of_u64 remaining_bias) sizes (exponential_fractions sizes) remaining_bias).

Definition contains (i other : Interval) : bool :=
  (iv_start i <=? iv_start other) && (iv_end other <=? iv_end i).

Definition strictly_contains (i other : Interval) : bool :=
  (iv_start i <=? iv_start other) && (iv_end other <? iv_end i).

(** * Legal intervals

    The margins of [maximal]: an empty interval at either end is still within
    [u64]. *)
Record iv_ok (i : Interval) : Prop := {
  iv_low : 1 <= iv_start i;
  iv_high : iv_end i < U64_MAX;
  iv_len : iv_start i - 1 <= iv_end i;
}.

#[export] Instance iv_ok_dec i : Decision (iv_ok i).
Proof.
  destruct (decide (1 <= iv_start i /\ iv_end i < U64_MAX /\ iv_start i - 1 <= iv_end i)) as [H|H].
  - left. by split; apply H.
  - right. intros []. by apply H.
Defined.

Definition width (i : Interval) : Z := iv_end i + 1 - iv_start i.

Lemma interval_size_width i : iv_ok i -> interval_size i = width i.
Proof.
  intros [??]. unfold interval_size, width, U64_MAX in *.
  rewrite wadd64_small by lia. apply wsub64_small. lia.
Qed.

Lemma width_nonneg i : iv_ok i -> 0 <= width i.
Proof. intros []. unfold width. lia. Qed.

Lemma iv_ok_maximal : iv_ok Interval_maximal.
Proof. done. Qed.

(** Consecutive intervals [is], the first from [lo] and the last up to [hi],
    without a gap. *)
Fixpoint tiles (lo hi : Z) (is_ : list Interval) : Prop :=
  match is_ with
  | [] => lo = hi + 1
  | i :: rest => iv_start i = lo /\ lo - 1 <= iv_end i <= hi /\ tiles (iv_end i + 1) hi rest
  end.

Lemma tiles_width lo hi is_ : tiles lo hi is_ -> sumZ width is_ = hi + 1 - lo.
Proof.
  revert lo. induction is_ as [|i is_ IH]; intros lo; simpl; [lia|].
  intros (<- & _ & H%IH). rewrite H. unfold width. lia.
Qed.

Lemma tiles_ok lo hi is_ : 1 <= lo -> hi < U64_MAX -> tiles lo hi is_ -> Forall iv_ok is_.
Proof.
  revert lo. induction is_ as [|i is_ IH]; intros lo Hlo Hhi; simpl; [constructor|].
  intros (<- & ? & H). constructor; [split; lia|]. apply (IH (iv_end i + 1)); lia || done.
Qed.

(** Every point of a tiled interval is in exactly one tile. *)
Lemma tiles_cover lo hi is_ p :
  tiles lo hi is_ -> lo <= p <= hi ->
  exists k i, is_ !! k = Some i /\ iv_start i <= p <= iv_end i /\
    forall k' i', is_ !! k' = Some i' -> iv_start i' <= p <= iv_end i' -> k' = k.
Proof.
  assert (Hlow : forall is_ lo k i, tiles lo hi is_ -> is_ !! k = Some i -> lo <= iv_start i).
  { clear. induction is_ as [|j is_ IH]; intros lo [|k] i H E; simplify_eq/=; [lia|].
    destruct H as (<- & ? & H). pose proof (IH _ _ _ H E). lia. }
  revert lo. induction is_ as [|i is_ IH]; intros lo; simpl; [lia|].
  intros (<- & Hi & H) Hp. destruct (Z.le_gt_cases p (iv_end i)) as [Hle|Hgt].
  - exists 0%nat, i. split_and!; [done|lia..|]. intros [|k'] i' E Hp'; [done|].
    pose proof (Hlow _ _ _ _ H E). lia.
  - destruct (IH _ H ltac:(lia)) as (k & j & E & Hj & Hu). exists (S k), j. split_and!; [done|lia..|].
    intros [|k'] i' E' Hp'; simplify_eq/=; [lia|]. f_equal. by eapply Hu.
Qed.

(** * The splitting rules *)

Abbreviation total := (sumZ (fun x : Z => x)).

Lemma sum_u64_total sizes :
  Forall (Z.le 0) sizes -> total sizes < 2 ^ 64 -> sum_u64 sizes = total sizes.
Proof.
  intros H. unfold sum_u64. assert (forall acc, 0 <= acc -> acc + total sizes < 2 ^ 64 ->
    fold_left wadd64 sizes acc = acc + total sizes) as Hg; [|intros; rewrite Hg; lia].
  induction H as [|x l Hx Hl IH]; intros acc Ha Hs; simpl in *; [lia|].
  assert (0 <= total l) by (clear -Hl; induction Hl; simpl; lia).
  rewrite wadd64_small by lia. rewrite IH by lia. lia.
Qed.

Lemma total_nonneg sizes : Forall (Z.le 0) sizes -> 0 <= total sizes.
Proof. induction 1; simpl; lia. Qed.

Lemma exact_parts_tiles lo hi sizes :
  Forall (Z.le 0) sizes -> 1 <= lo -> hi < U64_MAX -> lo + total sizes = hi + 1 ->
  tiles lo hi (exact_parts lo sizes) /\ map width (exact_parts lo sizes) = sizes.
Proof.
  intros H. revert lo. induction H as [|x l Hx Hl IH]; intros lo Hlo Hhi E; simpl in *; [split; [lia|done]|].
  pose proof (total_nonneg l Hl). unfold U64_MAX in *.
  rewrite wadd64_small, wsub64_small by lia.
  destruct (IH (lo + x)) as [Ht Hw]; [lia..|].
  split_and!; [done|lia..| |].
  - by replace (lo + x - 1 + 1) with (lo + x) by lia.
  - f_equal; [unfold width; simpl; lia|done].
Qed.

Lemma split_exact_tiles i sizes :
  iv_ok i -> Forall (Z.le 0) sizes -> total sizes = width i ->
  exists parts, split_exact i sizes = Some parts /\
    tiles (iv_start i) (iv_end i) parts /\ map width parts = sizes.
Proof.
  intros Hi Hs E. unfold split_exact. destruct Hi as [Hl Hh Hn] eqn:EQ.
  rewrite interval_size_width by done.
  rewrite sum_u64_total; [|done|unfold width, U64_MAX in *; lia].
  rewrite E, Z.eqb_refl. eexists. split; [done|].
  apply exact_parts_tiles; try done. unfold width in E. lia.
Qed.

Lemma f64_round_as_u64_nonneg x : 0 <= f64_round_as_u64 x.
Proof.
  destruct x as [?|[]| |[] m e]; simpl; try (unfold U64_MAX; lia).
  apply Z.min_glb; [unfold U64_MAX; lia|]. destruct (Z.leb_spec 0 e).
  - apply Z.mul_nonneg_nonneg; [lia|]. by apply Z.pow_nonneg.
  - apply Z.div_pos; [|apply Z.pow_pos_nonneg; lia]. pose proof (Z.pow_nonneg 2 (- e)). lia.
Qed.

(** Whatever the fractions are, the biased sizes are at least the sizes and sum
    to the sizes plus the bias. *)
Lemma biased_sizes_spec tb sizes fractions rem :
  length fractions = length sizes -> sizes <> [] -> Forall (Z.le 0) sizes -> 0 <= rem ->
  total sizes + rem < 2 ^ 64 ->
  total (biased_sizes tb sizes fractions rem) = total sizes + rem /\
  Forall2 Z.le sizes (biased_sizes tb sizes fractions rem).
Proof.
  intros Hlen Hne Hs. revert fractions rem Hlen Hne.
  induction Hs as [|x l Hx Hl IH]; intros [|f fs] rem Hlen Hne Hr Hb; simplify_eq/=.
  pose proof (total_nonneg l Hl). destruct fs as [|f' fs].
  - destruct l; [|done]. simpl in *. rewrite wadd64_small by lia. split; [lia|]. constructor; [lia|done].
  - set (b := Z.min _ _). assert (0 <= b <= rem) as Hbr.
    { subst b. pose proof (f64_round_as_u64_nonneg (f64_mul tb f)). lia. }
    clearbody b. rewrite wadd64_small, wsub64_small by lia.
    destruct (IH (f' :: fs) (rem - b)) as [E1 E2]; [done|by destruct l|lia..|].
    split; [rewrite E1; lia|]. constructor; [lia|done].
Qed.

Lemma length_exponential_fractions sizes : length (exponential_fractions sizes) = length sizes.
Proof. unfold exponential_fractions. by rewrite !length_map. Qed.

Lemma split_exponential_tiles i sizes :
  iv_ok i -> Forall (Z.le 1) sizes -> sizes <> [] -> total sizes <= width i ->
  exists parts, split_exponential i sizes = Some parts /\
    tiles (iv_start i) (iv_end i) parts /\ Forall2 (fun n p => n <= width p) sizes parts.
Proof.
  intros Hi Hs Hne Hle. assert (Forall (Z.le 0) sizes) as Hs0 by (eapply Forall_impl; [done|simpl; lia]).
  assert (1 <= total sizes) as Hpos.
  { destruct Hs as [|x l ? Hl]; [done|]. simpl. inversion Hs0; subst. pose proof (total_nonneg l). simpl in *. naive_solver lia. }
  assert (width i < 2 ^ 64) by (destruct Hi; unfold width, U64_MAX in *; lia).
  assert (Hfin : forall l, Forall2 Z.le sizes l -> total l = width i ->
    exists parts, split_exact i l = Some parts /\
      tiles (iv_start i) (iv_end i) parts /\ Forall2 (fun n p => n <= width p) sizes parts).
  { intros l Hl El. destruct (split_exact_tiles i l Hi) as (parts & -> & Ht & Hw); [|done|].
    - clear -Hl Hs0. induction Hl; inversion Hs0; subst; constructor; [lia|auto].
    - exists parts. split_and!; [done..|]. subst l. by rewrite Forall2_fmap_r in Hl. }
  unfold split_exponential. rewrite interval_size_width, sum_u64_total by (done || lia).
  rewrite (proj2 (Z.leb_le _ _) Hle). rewrite (proj2 (Z.ltb_lt 0 (total sizes))) by lia. cbn [negb].
  destruct (Z.eqb_spec (width i) (total sizes)) as [E|E].
  - apply Hfin; [reflexivity|done].
  - rewrite wsub64_small by lia.
    destruct (biased_sizes_spec (f64_of_u64 (width i - total sizes)) sizes (exponential_fractions sizes)
                (width i - total sizes)) as [E1 E2]; [apply length_exponential_fractions|done..|lia|lia|].
    apply Hfin; [done|]. lia.
Qed.

(** [split_exponential] splits an interval into parts that tile it: the
    parts are consecutive, the first starts where the interval starts, the last
    ends where it ends, and the part of each size holds at least that size.
    This holds whatever the rounding of the [f64] fractions, and the failed
    assertion of the code is exactly the case that the sizes do not fit. *)
Theorem split_exponential_partition i sizes :
  iv_ok i -> Forall (Z.le 1) sizes -> sizes <> [] -> total sizes < 2 ^ 64 ->
  (split_exponential i sizes = None <-> width i < total sizes) /\
  (forall parts, split_exponential i sizes = Some parts ->
     tiles (iv_start i) (iv_end i) parts /\
     Forall2 (fun n p => n <= width p) sizes parts /\
     forall p, iv_start i <= p <= iv_end i ->
       exists k part, parts !! k = Some part /\ iv_start part <= p <= iv_end part /\
         forall k' part', parts !! k' = Some part' -> iv_start part' <= p <= iv_end part' -> k' = k).
Proof.
  intros Hi Hs Hne Hb. destruct (Z.le_gt_cases (total sizes) (width i)) as [Hle|Hgt].
  - destruct (split_exponential_tiles i sizes Hi Hs Hne Hle) as (parts & -> & Ht & Hp).
    split; [split; [done|lia]|]. intros ? [= <-]. split_and!; [done..|]. intros p Hrange.
    by eapply tiles_cover.
  - assert (split_exponential i sizes = None) as ->; [|by split; [split|done]].
    unfold split_exponential. rewrite interval_size_width by done.
    rewrite sum_u64_total; [|eapply Forall_impl; [done|simpl; lia]|done].
    by rewrite (proj2 (Z.leb_gt _ _) Hgt).
Qed.

Lemma split_exponential_partition_witness :
  let i := Interval_new 1 100 in
  exists parts, split_exponential i [1; 6; 3] = Some parts /\
    tiles 1 100 parts /\ map width parts = [3; 84; 13].
Proof.
  destruct (split_exponential_partition (Interval_new 1 100) [1; 6; 3]) as [_ H];
    [by split|repeat constructor; lia|done|done|].
  destruct (split_exponential (Interval_new 1 100) [1; 6; 3]) as [parts|] eqn:E; [|vm_compute in E; discriminate E].
  exists parts. split_and!; [done|by apply H|]. vm_compute in E. by injection E as <-.
Defined.

(** ** Halving *)

Lemma f32_of_u64_bounds x : 1 <= x -> 1 <= f32_of_u64 x /\ 2 * f32_of_u64 x <= 3 * x /\ (2 <= x -> 2 <= f32_of_u64 x).
Proof.
  intros Hx. unfold f32_of_u64. destruct (Z.ltb_spec x (2 ^ 24)); [lia|].
  set (e := Z.log2 x - 23). assert (24 <= Z.log2 x) as Hlog.
  { change 24 with (Z.log2 (2 ^ 24)). by apply Z.log2_le_mono. }
  assert (2 ^ e * 2 ^ 23 <= x) as Hlow.
  { rewrite <-Z.pow_add_r by lia. replace (e + 23) with (Z.log2 x) by lia. apply Z.log2_spec. lia. }
  pose proof (Z.pow_pos_nonneg 2 e ltac:(lia) ltac:(lia)) as Hp.
  pose proof (Z.div_mod x (2 ^ e) ltac:(lia)) as Hdm.
  pose proof (Z.mod_pos_bound x (2 ^ e) Hp) as Hm.
  set (q := x / 2 ^ e) in *. set (r := x mod 2 ^ e) in *. set (P := 2 ^ e) in *.
  destruct ((P <? 2 * r) || _); nia.
Qed.

Lemma split_half_left i :
  iv_ok i -> 1 <= width i -> exists n,
    (split_half i).1 = Interval_new (iv_start i) (iv_start i + n - 1) /\ 1 <= n <= width i.
Proof.
  intros Hi Hw. pose proof (f32_of_u64_bounds (width i) Hw) as (H1 & H2 & H3).
  unfold split_half, split_fraction. rewrite interval_size_width by done.
  change (2 ^ 1) with 2. set (n := (_ + (2 - 1)) / 2).
  assert (1 <= n <= width i) as Hn.
  { subst n. split; [apply Z.div_le_lower_bound; lia|]. apply Z.div_le_upper_bound; [lia|]. lia. }
  exists n. split; [|done]. destruct Hi. unfold width, U64_MAX in *. simpl.
  rewrite wadd64_small, wsub64_small by lia. done.
Qed.
