(* ===== verification/Reach.v ===== *)
(** Reachability (consensus/src/processes/reachability/{inquirer,tree,reindex,
    extensions}.rs): the store interface, the queries, the insertion and
    deletion of blocks, the reindexing and the move of the reindex root.

    The algorithms are written against the class [ReachabilityStore], as the
    code is against the trait. Loops take a bound [fuel] on their iterations;
    running out of it is the outcome [Diverges], distinct from a panic and from
    a returned error, and excluded by the theorems. *)

From S2P Require Import Prelude Access Interval.

Abbreviation hash := bytes.

Definition NONE : hash := replicate 32 0.
Definition ORIGIN : hash := replicate 32 254.

Inductive ReachabilityError :=
| StoreErr (e : StoreError)
| DataOverflow
| Inconsistency
| BadQuery.

#[export] Instance ReachabilityError_eq_dec : EqDecision ReachabilityError.
Proof. solve_decision. Defined.

Inductive stop :=
| Diverges
| Crashed
| Failed (e : ReachabilityError).

#[export] Instance stop_eq_dec : EqDecision stop.
Proof. solve_decision. Defined.

(** * The store traits

    [Vec::insert] and [Vec::splice] panic on an index out of range, and the
    database store unwraps the data of the members when it orders a set it reads:
    hence the [fault]s of the methods on sets. *)

Class ReachabilityStore (T : Type) := {
  rs_has : T -> hash -> result StoreError bool;
  rs_get_interval : T -> hash -> result StoreError Interval;
  rs_get_parent : T -> hash -> result StoreError hash;
  rs_get_children : T -> hash -> result (fault StoreError) (list hash);
  rs_get_future_covering_set : T -> hash -> result (fault StoreError) (list hash);
  rs_get_height : T -> hash -> result StoreError Z;
  rs_get_reindex_root : T -> result StoreError hash;
  rs_init : hash -> Interval -> st T StoreError ();
  rs_insert : hash -> hash -> Interval -> Z -> st T StoreError ();
  rs_set_interval : hash -> Interval -> st T StoreError ();
  rs_append_child : hash -> hash -> st T (fault StoreError) ();
  rs_insert_future_covering_item : hash -> hash -> nat -> st T (fault StoreError) ();
  rs_set_parent : hash -> hash -> st T StoreError ();
  rs_replace_child : hash -> hash -> nat -> list hash -> st T (fault StoreError) ();
  rs_replace_future_covering_item : hash -> hash -> nat -> list hash -> st T (fault StoreError) ();
  rs_delete : hash -> st T StoreError ();
  rs_set_reindex_root : hash -> st T StoreError ();
}.

(** [?] on a store result, on a store update and on one that can panic. *)
Definition stored {A} (r : result StoreError A) : result stop A :=
  match r with Ok a => Ok a | Err e => Err (Failed (StoreErr e)) end.

Definition stored_set {A} (r : result (fault StoreError) A) : result stop A :=
  match r with Ok a => Ok a | Err Panic => Err Crashed | Err (Error e) => Err (Failed (StoreErr e)) end.

Definition unwrapped {A} (r : result StoreError A) : result stop A :=
  match r with Ok a => Ok a | Err _ => Err Crashed end.

Definition update {T A} (m : st T StoreError A) : st T stop A :=
  map_err (fun e => Failed (StoreErr e)) m.

Definition update_set {T A} (m : st T (fault StoreError) A) : st T stop A :=
  map_err (fun f => match f with Panic => Crashed | Error e => Failed (StoreErr e) end) m.

Definition query {T A} (f : T -> result stop A) : st T stop A := fun s => (s, f s).

Definition assert_some {A} (o : option A) : result stop A := ok_or Crashed o.

(** [for x in l { f(x)?; }] *)
Fixpoint for_each {T A} (f : A -> st T stop ()) (l : list A) : st T stop () :=
  match l with
  | [] => mret tt
  | x :: l' => _ ← f x; for_each f l'
  end.

Fixpoint collect {A B} (f : A -> result stop B) (l : list A) : result stop (list B) :=
  match l with
  | [] => Ok []
  | x :: l' => y ← f x; ys ← collect f l'; Ok (y :: ys)
  end.

Section algorithms.
Context {T : Type} `{ReachabilityStore T}.

(** * extensions.rs *)

Definition interval_children_capacity (s : T) (block : hash) : result stop Interval :=
  i ← stored (rs_get_interval s block);
  Ok (decrease_end i 1).

Definition interval_remaining_before (s : T) (block : hash) : result stop Interval :=
  alloc_capacity ← interval_children_capacity s block;
  children ← stored_set (rs_get_children s block);
  match head children with
  | Some first_child =>
      first_alloc ← stored (rs_get_interval s first_child);
      Ok (Interval_new (iv_start alloc_capacity) (wsub64 (iv_start first_alloc) 1))
  | None => Ok alloc_capacity
  end.

Definition interval_remaining_after (s : T) (block : hash) : result stop Interval :=
  alloc_capacity ← interval_children_capacity s block;
  children ← stored_set (rs_get_children s block);
  match last children with
  | Some last_child =>
      last_alloc ← stored (rs_get_interval s last_child);
      Ok (Interval_new (wadd64 (iv_end last_alloc) 1) (iv_end alloc_capacity))
  | None => Ok alloc_capacity
  end.

(** * inquirer.rs: queries *)

Definition is_strict_chain_ancestor_of (s : T) (this queried : hash) : result stop bool :=
  i ← stored (rs_get_interval s this);
  j ← stored (rs_get_interval s queried);
  Ok (strictly_contains i j).

Definition is_chain_ancestor_of (s : T) (this queried : hash) : result stop bool :=
  i ← stored (rs_get_interval s this);
  j ← stored (rs_get_interval s queried);
  Ok (contains i j).

Inductive SearchOutput :=
| NotFound (i : nat)
| Found (h : hash) (i : nat).

(** [slice::binary_search_by_key] of the standard library; [inl] is its [Ok]. *)
Fixpoint search_loop (fuel : nat) (key : nat -> result stop Z) (point : Z) (base size : nat) : result stop nat :=
  if (size <=? 1)%nat then Ok base
  else
    match fuel with
    | O => Err Diverges
    | S fuel' =>
        let half := (size / 2)%nat in
        let mid := (base + half)%nat in
        k ← key mid;
        search_loop fuel' key point (if point <? k then base else mid) (size - half)
    end.

Definition binary_search_by_key (l : list hash) (point : Z) (key : hash -> result stop Z) : result stop (nat + nat) :=
  let at_ n := h ← assert_some (l !! n); key h in
  if (length l =? 0)%nat then Ok (inr 0%nat)
  else
    base ← search_loop (length l) at_ point 0 (length l);
    k ← at_ base;
    if k =? point then Ok (inl base) else Ok (inr (if k <? point then S base else base)).

Definition binary_search_descendant (s : T) (ordered_hashes : list hash) (descendant : hash) : result stop SearchOutput :=
  i ← stored (rs_get_interval s descendant);
  let point := iv_end i in
  found ← binary_search_by_key ordered_hashes point
            (fun c => j ← unwrapped (rs_get_interval s c); Ok (iv_start j));
  match found with
  | inl k => h ← assert_some (ordered_hashes !! k); Ok (Found h k)
  | inr O => Ok (NotFound 0)
  | inr (S k) =>
      h ← assert_some (ordered_hashes !! k);
      b ← is_chain_ancestor_of s h descendant;
      Ok (if b : bool then Found h k else NotFound (S k))
  end.

Definition is_dag_ancestor_of (s : T) (this queried : hash) : result stop bool :=
  b ← is_chain_ancestor_of s this queried;
  if b : bool then Ok true
  else
    fcs ← stored_set (rs_get_future_covering_set s this);
    out ← binary_search_descendant s fcs queried;
    match out with
    | Found _ _ => Ok true
    | NotFound _ => Ok false
    end.

Definition get_next_chain_ancestor_unchecked (s : T) (descendant ancestor : hash) : result stop hash :=
  children ← stored_set (rs_get_children s ancestor);
  out ← binary_search_descendant s children descendant;
  match out with
  | Found h _ => Ok h
  | NotFound _ => Err (Failed BadQuery)
  end.

Definition get_next_chain_ancestor (s : T) (descendant ancestor : hash) : result stop hash :=
  if bool_decide (descendant = ancestor) then Err (Failed BadQuery)
  else
    b ← is_strict_chain_ancestor_of s ancestor descendant;
    if b : bool then get_next_chain_ancestor_unchecked s descendant ancestor
    else Err (Failed BadQuery).

(** * reindex.rs *)

(** [ReindexOperationContext]; the store is borrowed by it for the operation. *)
Record ReindexOperationContext := mk_ctx {
  cx_store : T;
  cx_sizes : gmap hash Z;
  cx_slack : Z;
}.

Definition ctx_new (s : T) (slack : Z) : ReindexOperationContext := mk_ctx s ∅ slack.

Abbreviation op := (st ReindexOperationContext stop).

Definition on_store {A} (m : st T stop A) : op A :=
  fun c => let '(s, r) := m (cx_store c) in (mk_ctx s (cx_sizes c) (cx_slack c), r).

Definition ask {A} (f : T -> result stop A) : op A := on_store (query f).

Definition set_size (h : hash) (n : Z) : op () :=
  fun c => (mk_ctx (cx_store c) (<[h := n]> (cx_sizes c)) (cx_slack c), Ok tt).

(** [self.subtree_sizes[&h]], which panics on a missing key. *)
Definition size_of (h : hash) : op Z := fun c => (c, assert_some (cx_sizes c !! h)).

Definition sizes_of (l : list hash) : op (list Z) :=
  fun c => (c, collect (fun h => assert_some (cx_sizes c !! h)) l).

Definition store_get_parent (h : hash) : op hash := ask (fun s => stored (rs_get_parent s h)).
Definition store_get_children (h : hash) : op (list hash) := ask (fun s => stored_set (rs_get_children s h)).
Definition store_get_interval (h : hash) : op Interval := ask (fun s => stored (rs_get_interval s h)).
Definition store_set_interval (h : hash) (i : Interval) : op () := on_store (update (rs_set_interval h i)).

(** The inner loop of [count_subtrees]; its outer loop is [count_loop], where
    [walk] bounds the blocks taken from the queue. *)
Fixpoint push_up (fuel : nat) (block current : hash) (counts : gmap hash Z) : op (gmap hash Z) :=
  if bool_decide (current = block) then mret counts
  else
    match fuel with
    | O => throw Diverges
    | S fuel' =>
        current ← store_get_parent current;
        children ← store_get_children current;
        let count := wadd64 (default 0 (counts !! current)) 1 in
        let counts := <[current := count]> counts in
        if count <? Z.of_nat (length children) then mret counts
        else
          sizes ← sizes_of children;
          _ ← set_size current (wadd64 (sum_u64 sizes) 1);
          push_up fuel' block current counts
    end.

Fixpoint count_loop (walk fuel : nat) (block : hash) (queue : list hash) (counts : gmap hash Z) : op () :=
  match queue with
  | [] => mret tt
  | current :: queue =>
      match walk with
      | O => throw Diverges
      | S walk' =>
          children ← store_get_children current;
          known ← gets (fun c => bool_decide (is_Some (cx_sizes c !! current)));
          if bool_decide (children = []) then
            _ ← set_size current 1;
            counts ← push_up fuel block current counts;
            count_loop walk' fuel block queue counts
          else if negb known then
            count_loop walk' fuel block (queue ++ children) counts
          else
            counts ← push_up fuel block current counts;
            count_loop walk' fuel block queue counts
      end
  end.

Definition count_subtrees (fuel : nat) (block : hash) : op () :=
  known ← gets (fun c => bool_decide (is_Some (cx_sizes c !! block)));
  if known : bool then mret tt
  else count_loop fuel fuel block [block] ∅.

Fixpoint propagate_loop (fuel : nat) (queue : list hash) : op () :=
  match queue with
  | [] => mret tt
  | current :: queue =>
      match fuel with
      | O => throw Diverges
      | S fuel' =>
          children ← store_get_children current;
          if bool_decide (children = []) then propagate_loop fuel' queue
          else
            sizes ← sizes_of children;
            interval ← ask (fun s => interval_children_capacity s current);
            intervals ← lift (assert_some (split_exponential interval sizes));
            _ ← for_each (fun '(c, ci) => store_set_interval c ci) (zip children intervals);
            propagate_loop fuel' (queue ++ children)
      end
  end.

Definition propagate_interval (fuel : nat) (block : hash) : op () :=
  _ ← count_subtrees fuel block;
  propagate_loop fuel [block].

Definition apply_interval_op (block : hash) (offset : Z) (f : Interval -> Z -> Interval) : op () :=
  i ← store_get_interval block;
  store_set_interval block (f i offset).

Definition apply_interval_op_and_propagate (fuel : nat) (block : hash) (offset : Z)
    (f : Interval -> Z -> Interval) : op () :=
  i ← store_get_interval block;
  _ ← store_set_interval block (f i offset);
  propagate_interval fuel block.

Fixpoint position (l : list hash) (pivot : hash) : option nat :=
  match l with
  | [] => None
  | x :: l' => if bool_decide (x = pivot) then Some 0%nat else S <$> position l' pivot
  end.

Definition split_children (children : list hash) (pivot : hash) : result stop (list hash * list hash) :=
  match position children pivot with
  | Some index => Ok (take index children, drop (S index) children)
  | None => Err (Failed Inconsistency)
  end.

(** The loop of [offset_siblings_before]/[after] over the siblings, with the
    operation for the allocation block and the one for the others. *)
Fixpoint offset_loop (fuel : nat) (allocation_block : hash) (offset : Z)
    (f_block f_other : Interval -> Z -> Interval) (siblings : list hash) : op () :=
  match siblings with
  | [] => mret tt
  | sibling :: rest =>
      if bool_decide (sibling = allocation_block)
      then apply_interval_op_and_propagate fuel allocation_block offset f_block
      else
        _ ← apply_interval_op_and_propagate fuel sibling offset f_other;
        offset_loop fuel allocation_block offset f_block f_other rest
  end.

Definition offset_siblings_before (fuel : nat) (allocation_block current : hash) (offset : Z) : op () :=
  parent ← store_get_parent current;
  children ← store_get_children parent;
  '(siblings_before, _) ← lift (split_children children current);
  offset_loop fuel allocation_block offset increase_end increase (reverse siblings_before).

Definition offset_siblings_after (fuel : nat) (allocation_block current : hash) (offset : Z) : op () :=
  parent ← store_get_parent current;
  children ← store_get_children parent;
  '(_, siblings_after) ← lift (split_children children current);
  offset_loop fuel allocation_block offset decrease_start decrease siblings_after.

(** The walk of [reclaim_interval_before] towards the reindex root; returns the
    block where it stopped and [path_slack_alloc]. [walk] bounds the steps of a
    walk, [fuel] the loops of each step. *)
Fixpoint reclaim_up_before (walk fuel : nat) (allocation_block reindex_root : hash) (required_allocation : Z)
    (current : hash) (slack_sum path_len : Z) : op (hash * Z) :=
  slack ← gets cx_slack;
  if bool_decide (current = reindex_root) then
    let offset := wsub64 (wadd64 required_allocation (wmul64 slack path_len)) slack_sum in
    _ ← apply_interval_op_and_propagate fuel current offset increase_start;
    _ ← offset_siblings_before fuel allocation_block current offset;
    mret (current, slack)
  else
    match walk with
    | O => throw Diverges
    | S walk' =>
        remaining ← ask (fun s => interval_remaining_before s current);
        let slack_before_current := interval_size remaining in
        let slack_sum := wadd64 slack_sum slack_before_current in
        if required_allocation <=? slack_sum then
          let offset := wsub64 slack_before_current (wsub64 slack_sum required_allocation) in
          _ ← apply_interval_op current offset increase_start;
          _ ← offset_siblings_before fuel allocation_block current offset;
          mret (current, 0)
        else
          next ← ask (fun s => get_next_chain_ancestor_unchecked s reindex_root current);
          reclaim_up_before walk' fuel allocation_block reindex_root required_allocation next slack_sum
            (wadd64 path_len 1)
    end.

Fixpoint reclaim_down_before (walk fuel : nat) (allocation_block common_ancestor : hash) (path_slack_alloc : Z)
    (current : hash) : op () :=
  match walk with
  | O => throw Diverges
  | S walk' =>
      current ← store_get_parent current;
      if bool_decide (current = common_ancestor) then mret tt
      else
        remaining ← ask (fun s => interval_remaining_before s current);
        let offset := wsub64 (interval_size remaining) path_slack_alloc in
        _ ← apply_interval_op current offset increase_start;
        _ ← offset_siblings_before fuel allocation_block current offset;
        reclaim_down_before walk' fuel allocation_block common_ancestor path_slack_alloc current
  end.

Definition reclaim_interval_before (fuel : nat) (allocation_block common_ancestor chosen_child reindex_root : hash)
    (required_allocation : Z) : op () :=
  '(current, path_slack_alloc) ←
    reclaim_up_before fuel fuel allocation_block reindex_root required_allocation chosen_child 0 0;
  reclaim_down_before fuel fuel allocation_block common_ancestor path_slack_alloc current.

Fixpoint reclaim_up_after (walk fuel : nat) (allocation_block reindex_root : hash) (required_allocation : Z)
    (current : hash) (slack_sum path_len : Z) : op (hash * Z) :=
  slack ← gets cx_slack;
  if bool_decide (current = reindex_root) then
    let offset := wsub64 (wadd64 required_allocation (wmul64 slack path_len)) slack_sum in
    _ ← apply_interval_op_and_propagate fuel current offset decrease_end;
    _ ← offset_siblings_after fuel allocation_block current offset;
    mret (current, slack)
  else
    match walk with
    | O => throw Diverges
    | S walk' =>
        remaining ← ask (fun s => interval_remaining_after s current);
        let slack_after_current := interval_size remaining in
        let slack_sum := wadd64 slack_sum slack_after_current in
        if required_allocation <=? slack_sum then
          let offset := wsub64 slack_after_current (wsub64 slack_sum required_allocation) in
          _ ← apply_interval_op current offset decrease_end;
          _ ← offset_siblings_after fuel allocation_block current offset;
          mret (current, 0)
        else
          next ← ask (fun s => get_next_chain_ancestor_unchecked s reindex_root current);
          reclaim_up_after walk' fuel allocation_block reindex_root required_allocation next slack_sum
            (wadd64 path_len 1)
    end.

Fixpoint reclaim_down_after (walk fuel : nat) (allocation_block common_ancestor : hash) (path_slack_alloc : Z)
    (current : hash) : op () :=
  match walk with
  | O => throw Diverges
  | S walk' =>
      current ← store_get_parent current;
      if bool_decide (current = common_ancestor) then mret tt
      else
        remaining ← ask (fun s => interval_remaining_after s current);
        let offset := wsub64 (interval_size remaining) path_slack_alloc in
        _ ← apply_interval_op current offset decrease_end;
        _ ← offset_siblings_after fuel allocation_block current offset;
        reclaim_down_after walk' fuel allocation_block common_ancestor path_slack_alloc current
  end.

Definition reclaim_interval_after (fuel : nat) (allocation_block common_ancestor chosen_child reindex_root : hash)
    (required_allocation : Z) : op () :=
  '(current, path_slack_alloc) ←
    reclaim_up_after fuel fuel allocation_block reindex_root required_allocation chosen_child 0 0;
  reclaim_down_after fuel fuel allocation_block common_ancestor path_slack_alloc current.

Definition reindex_intervals_earlier_than_root (fuel : nat) (allocation_block reindex_root common_ancestor : hash)
    (required_allocation : Z) : op () :=
  chosen_child ← ask (fun s => get_next_chain_ancestor_unchecked s reindex_root common_ancestor);
  block_interval ← store_get_interval allocation_block;
  chosen_interval ← store_get_interval chosen_child;
  if iv_start block_interval <? iv_start chosen_interval
  then reclaim_interval_before fuel allocation_block common_ancestor chosen_child reindex_root required_allocation
  else reclaim_interval_after fuel allocation_block common_ancestor chosen_child reindex_root required_allocation.

Fixpoint reindex_loop (walk fuel : nat) (current reindex_root : hash) : op () :=
  match walk with
  | O => throw Diverges
  | S walk' =>
      current_interval ← store_get_interval current;
      _ ← count_subtrees fuel current;
      size ← size_of current;
      if size <=? interval_size current_interval then propagate_interval fuel current
      else
        parent ← store_get_parent current;
        if bool_decide (parent = NONE) then throw (Failed DataOverflow)
        else if bool_decide (current = reindex_root) then throw (Failed DataOverflow)
        else
          earlier ← ask (fun s => is_strict_chain_ancestor_of s parent reindex_root);
          if earlier : bool
          then reindex_intervals_earlier_than_root fuel current reindex_root parent size
          else reindex_loop walk' fuel parent reindex_root
  end.

Definition reindex_intervals (fuel : nat) (new_child reindex_root : hash) : op () :=
  reindex_loop fuel fuel new_child reindex_root.

(** [map(|block| { self.count_subtrees(block)?; Ok(self.subtree_sizes[&block]) }).collect()] *)
Fixpoint count_all (fuel : nat) (l : list hash) : op (list Z) :=
  match l with
  | [] => mret []
  | block :: rest =>
      _ ← count_subtrees fuel block;
      n ← size_of block;
      ns ← count_all fuel rest;
      mret (n :: ns)
  end.

Definition assign_and_propagate (fuel : nat) (l : list (hash * Interval)) : op () :=
  for_each (fun '(c, ci) => _ ← store_set_interval c ci; propagate_interval fuel c) l.

Definition tighten_intervals_before (fuel : nat) (parent : hash) (children_before : list hash) : op Z :=
  sizes ← count_all fuel children_before;
  let sum := sum_u64 sizes in
  interval ← store_get_interval parent;
  slack ← gets cx_slack;
  let interval_before := Interval_new (wadd64 (iv_start interval) slack)
                           (wsub64 (wadd64 (wadd64 (iv_start interval) slack) sum) 1) in
  intervals ← lift (assert_some (split_exact interval_before sizes));
  _ ← assign_and_propagate fuel (zip children_before intervals);
  mret sum.

Definition tighten_intervals_after (fuel : nat) (parent : hash) (children_after : list hash) : op Z :=
  sizes ← count_all fuel children_after;
  let sum := sum_u64 sizes in
  interval ← store_get_interval parent;
  slack ← gets cx_slack;
  let interval_after := Interval_new (wsub64 (wsub64 (iv_end interval) slack) sum)
                          (wsub64 (wsub64 (iv_end interval) slack) 1) in
  intervals ← lift (assert_some (split_exact interval_after sizes));
  _ ← assign_and_propagate fuel (zip children_after intervals);
  mret sum.

Definition expand_interval_to_chosen (fuel : nat) (parent child : hash)
    (siblings_before_subtrees_sum siblings_after_subtrees_sum : Z) (is_final_reindex_root : bool) : op () :=
  interval ← store_get_interval parent;
  slack ← gets cx_slack;
  let allocation :=
    Interval_new (wadd64 (wadd64 (iv_start interval) siblings_before_subtrees_sum) slack)
      (wsub64 (wsub64 (wsub64 (iv_end interval) siblings_after_subtrees_sum) slack) 1) in
  current ← store_get_interval child;
  _ ← (if is_final_reindex_root && negb (contains allocation current) then
         let narrowed := Interval_new (wadd64 (iv_start allocation) slack) (wsub64 (iv_end allocation) slack) in
         _ ← store_set_interval child narrowed;
         propagate_interval fuel child
       else mret tt);
  store_set_interval child allocation.

Definition concentrate_interval (fuel : nat) (parent child : hash) (is_final_reindex_root : bool) : op () :=
  children ← store_get_children parent;
  '(siblings_before, siblings_after) ← lift (split_children children child);
  siblings_before_subtrees_sum ← tighten_intervals_before fuel parent siblings_before;
  siblings_after_subtrees_sum ← tighten_intervals_after fuel parent siblings_after;
  expand_interval_to_chosen fuel parent child siblings_before_subtrees_sum siblings_after_subtrees_sum
    is_final_reindex_root.

(** * tree.rs *)

(** A reindex operation on the store. *)
Definition reindexing {A} (slack : Z) (m : op A) : st T stop A :=
  fun s => let '(c, r) := m (ctx_new s slack) in (cx_store c, r).

Definition add_tree_block (fuel : nat) (new_block parent : hash) (reindex_depth reindex_slack : Z) : st T stop () :=
  remaining ← query (fun s => interval_remaining_after s parent);
  _ ← update_set (rs_append_child parent new_block);
  parent_height ← query (fun s => stored (rs_get_height s parent));
  if interval_is_empty remaining then
    _ ← update (rs_insert new_block parent remaining (wadd64 parent_height 1));
    reindex_root ← query (fun s => stored (rs_get_reindex_root s));
    reindexing reindex_slack (reindex_intervals fuel new_block reindex_root)
  else
    update (rs_insert new_block parent (split_half remaining).1 (wadd64 parent_height 1)).

Fixpoint find_common_tree_ancestor (fuel : nat) (s : T) (block reindex_root : hash) : result stop hash :=
  match fuel with
  | O => Err Diverges
  | S fuel' =>
      b ← is_chain_ancestor_of s block reindex_root;
      if b : bool then Ok block
      else
        parent ← stored (rs_get_parent s block);
        find_common_tree_ancestor fuel' s parent reindex_root
  end.

Fixpoint next_root_loop (fuel : nat) (s : T) (hint : hash) (hint_height reindex_depth : Z) (next : hash) :
    result stop hash :=
  match fuel with
  | O => Err Diverges
  | S fuel' =>
      child ← get_next_chain_ancestor_unchecked s hint next;
      child_height ← stored (rs_get_height s child);
      if hint_height <? child_height then Err (Failed Inconsistency)
      else if hint_height - child_height <? reindex_depth then Ok next
      else next_root_loop fuel' s hint hint_height reindex_depth child
  end.

Definition find_next_reindex_root (fuel : nat) (s : T) (current hint : hash) (reindex_depth reindex_slack : Z) :
    result stop (hash * hash) :=
  hint_height ← stored (rs_get_height s hint);
  b ← is_chain_ancestor_of s current hint;
  start ← (if b : bool then Ok (Some current)
           else
             current_height ← stored (rs_get_height s current);
             if (hint_height <? current_height) || (hint_height - current_height <? reindex_slack) then Ok None
             else Some <$> find_common_tree_ancestor fuel s hint current);
  match start with
  | None => Ok (current, current)
  | Some ancestor =>
      next ← next_root_loop fuel s hint hint_height reindex_depth ancestor;
      Ok (ancestor, next)
  end.

Fixpoint concentrate_loop (walk fuel : nat) (reindex_slack : Z) (ancestor next : hash) : st T stop () :=
  if bool_decide (ancestor = next) then mret tt
  else
    match walk with
    | O => throw Diverges
    | S walk' =>
        child ← query (fun s => get_next_chain_ancestor_unchecked s next ancestor);
        _ ← reindexing reindex_slack (concentrate_interval fuel ancestor child (bool_decide (child = next)));
        concentrate_loop walk' fuel reindex_slack child next
    end.

Definition try_advancing_reindex_root (fuel : nat) (hint : hash) (reindex_depth reindex_slack : Z) : st T stop () :=
  current ← query (fun s => stored (rs_get_reindex_root s));
  '(ancestor, next) ← query (fun s => find_next_reindex_root fuel s current hint reindex_depth reindex_slack);
  if bool_decide (current = next) then mret tt
  else
    _ ← concentrate_loop fuel fuel reindex_slack ancestor next;
    update (rs_set_reindex_root next).

(** * inquirer.rs: updates *)

Definition DEFAULT_REINDEX_DEPTH : Z := 100.
Definition DEFAULT_REINDEX_SLACK : Z := 2 ^ 14.

Definition init_with_params (origin : hash) (capacity : Interval) : st T stop () :=
  b ← query (fun s => stored (rs_has s origin));
  if b : bool then mret tt else update (rs_init origin capacity).

Definition init : st T stop () := init_with_params ORIGIN Interval_maximal.

Definition insert_to_future_covering_set (merged_block new_block : hash) : st T stop () :=
  out ← query (fun s =>
    fcs ← stored_set (rs_get_future_covering_set s merged_block);
    binary_search_descendant s fcs new_block);
  match out with
  | Found _ _ => throw (Failed Inconsistency)
  | NotFound i => update_set (rs_insert_future_covering_item merged_block new_block i)
  end.

Definition add_dag_block (new_block : hash) (mergeset : list hash) : st T stop () :=
  for_each (fun merged_block => insert_to_future_covering_set merged_block new_block) mergeset.

Definition add_block_with_params (fuel : nat) (new_block selected_parent : hash) (mergeset : list hash)
    (reindex_depth reindex_slack : option Z) : st T stop () :=
  _ ← add_tree_block fuel new_block selected_parent
        (default DEFAULT_REINDEX_DEPTH reindex_depth) (default DEFAULT_REINDEX_SLACK reindex_slack);
  add_dag_block new_block mergeset.

Definition add_block (fuel : nat) (new_block selected_parent : hash) (mergeset : list hash) : st T stop () :=
  add_block_with_params fuel new_block selected_parent mergeset None None.

Definition hint_virtual_selected_parent (fuel : nat) (hint : hash) : st T stop () :=
  try_advancing_reindex_root fuel hint DEFAULT_REINDEX_DEPTH DEFAULT_REINDEX_SLACK.

Definition replace_in_future_covering_set (block : hash) (children : list hash) (merged_block : hash) : st T stop () :=
  out ← query (fun s =>
    fcs ← stored_set (rs_get_future_covering_set s merged_block);
    binary_search_descendant s fcs block);
  match out with
  | NotFound _ => throw (Failed Inconsistency)
  | Found _ i => update_set (rs_replace_future_covering_item merged_block block i children)
  end.

(** The capacity of a deleted block goes to its left sibling or its children. *)
Definition give_capacity (interval : Interval) (parent : hash) (block_index : nat) (children : list hash) : st T stop () :=
  match children with
  | [] =>
      match block_index with
      | O => mret tt
      | S k =>
          sibling ← query (fun s => siblings ← stored_set (rs_get_children s parent); assert_some (siblings !! k));
          sibling_interval ← query (fun s => stored (rs_get_interval s sibling));
          update (rs_set_interval sibling (Interval_new (iv_start sibling_interval) (iv_end interval)))
      end
  | [child] => update (rs_set_interval child interval)
  | first_child :: _ =>
      first_interval ← query (fun s => stored (rs_get_interval s first_child));
      _ ← update (rs_set_interval first_child (Interval_new (iv_start interval) (iv_end first_interval)));
      last_child ← lift (assert_some (last children));
      last_interval ← query (fun s => stored (rs_get_interval s last_child));
      update (rs_set_interval last_child (Interval_new (iv_start last_interval) (iv_end interval)))
  end.

Definition delete_block (block : hash) (mergeset : list hash) : st T stop () :=
  interval ← query (fun s => stored (rs_get_interval s block));
  parent ← query (fun s => stored (rs_get_parent s block));
  children ← query (fun s => stored_set (rs_get_children s block));
  out ← query (fun s =>
    siblings ← stored_set (rs_get_children s parent);
    binary_search_descendant s siblings block);
  match out with
  | NotFound _ => throw (Failed Inconsistency)
  | Found _ block_index =>
      _ ← update_set (rs_replace_child parent block block_index children);
      _ ← for_each (fun child => update (rs_set_parent child parent)) children;
      _ ← for_each (replace_in_future_covering_set block children) mergeset;
      _ ← give_capacity interval parent block_index children;
      update (rs_delete block)
  end.

End algorithms.

Arguments ReindexOperationContext T : clear implicits.
