(* ===== verification/ReachTree.v ===== *)
(** The reachability tree as an abstract rose tree: when a store represents a
    tree, when its intervals are nested, and what nesting says about ancestors.

    [shape m p t] says that the map [m] holds the tree [t] below the parent [p];
    [nested m t] that every block of [t] has a legal interval that strictly
    contains the ordered, disjoint intervals of its children. *)

From S2P Require Import Prelude Access Interval Reach.

(** * The data of a block *)

Record MemoryReachabilityData := mk_data {
  rd_children : list hash;
  rd_parent : hash;
  rd_interval : Interval;
  rd_height : Z;
  rd_fcs : list hash;
}.

Definition data_new (parent : hash) (interval : Interval) (height : Z) : MemoryReachabilityData :=
  mk_data [] parent interval height [].

Definition with_children (d : MemoryReachabilityData) c :=
  mk_data c (rd_parent d) (rd_interval d) (rd_height d) (rd_fcs d).
Definition with_parent (d : MemoryReachabilityData) p :=
  mk_data (rd_children d) p (rd_interval d) (rd_height d) (rd_fcs d).
Definition with_interval (d : MemoryReachabilityData) i :=
  mk_data (rd_children d) (rd_parent d) i (rd_height d) (rd_fcs d).
Definition with_fcs (d : MemoryReachabilityData) f :=
  mk_data (rd_children d) (rd_parent d) (rd_interval d) (rd_height d) f.

Abbreviation blocks := (gmap hash MemoryReachabilityData).

Definition ivl (m : blocks) (h : hash) : Interval :=
  match m !! h with Some d => rd_interval d | None => Interval_empty end.
Definition chl (m : blocks) (h : hash) : list hash :=
  match m !! h with Some d => rd_children d | None => [] end.

(** * Rose trees *)

#[warnings="-register-all"] Inductive rtree := Node (h : hash) (ts : list rtree).

Section rtree_ind.
Variable P : rtree -> Prop.
Hypothesis step : forall h ts, Forall P ts -> P (Node h ts).

Fixpoint rtree_ind' (t : rtree) : P t :=
  match t with
  | Node h ts => step h ts ((fix go ts := match ts return Forall P ts with
                                          | [] => Forall_nil_2 P
                                          | t :: ts' => Forall_cons_2 P t ts' (rtree_ind' t) (go ts')
                                          end) ts)
  end.
End rtree_ind.

Definition label (t : rtree) : hash := match t with Node h _ => h end.
Definition kids (t : rtree) : list rtree := match t with Node _ ts => ts end.

Fixpoint nodes (t : rtree) : list hash :=
  match t with Node h ts => h :: concat (map nodes ts) end.

Fixpoint subtrees (t : rtree) : list rtree :=
  match t with Node h ts => t :: concat (map subtrees ts) end.

Definition tsize (t : rtree) : nat := length (nodes t).

(** [a] is [b] or an ancestor of it; [a] and [b] are in two children of one
    block, [a] in the earlier. *)
Definition anc (t : rtree) (a b : hash) : Prop :=
  exists ta, ta ∈ subtrees t /\ label ta = a /\ b ∈ nodes ta.

Definition left_of (t : rtree) (a b : hash) : Prop :=
  exists ta l1 t1 l2 t2 l3, ta ∈ subtrees t /\ kids ta = l1 ++ t1 :: l2 ++ t2 :: l3 /\
    a ∈ nodes t1 /\ b ∈ nodes t2.

Fixpoint shape (m : blocks) (p : hash) (t : rtree) : Prop :=
  match t with
  | Node h ts =>
      (exists d, m !! h = Some d /\ rd_parent d = p /\ rd_children d = map label ts) /\
      (fix go ts := match ts with [] => True | t :: ts' => shape m h t /\ go ts' end) ts
  end.

Lemma shape_node m p h ts :
  shape m p (Node h ts) <->
  (exists d, m !! h = Some d /\ rd_parent d = p /\ rd_children d = map label ts) /\ Forall (shape m h) ts.
Proof.
  simpl. split; intros [H1 H2]; (split; [done|]); clear H1; induction ts; try done.
  - constructor; naive_solver.
  - inversion H2; subst. naive_solver.
Qed.

(** The intervals [is] are within [lo, hi], in order and disjoint (a new block
    may still be empty). *)
Fixpoint inside (lo hi : Z) (is_ : list Interval) : Prop :=
  match is_ with
  | [] => True
  | i :: rest => lo <= iv_start i <= iv_end i + 1 /\ iv_end i <= hi /\ inside (iv_end i + 1) hi rest
  end.

Record local_ok (m : blocks) (h : hash) : Prop := {
  local_iv : iv_ok (ivl m h);
  local_pos : 1 <= width (ivl m h);
  local_inside : inside (iv_start (ivl m h)) (iv_end (ivl m h) - 1) (map (ivl m) (chl m h));
}.

Definition nested (m : blocks) (t : rtree) : Prop := forall h, h ∈ nodes t -> local_ok m h.

(** * Subtrees *)

Lemma subtrees_self t : t ∈ subtrees t.
Proof. destruct t. simpl. by left. Qed.

Lemma nodes_self t : label t ∈ nodes t.
Proof. destruct t. simpl. by left. Qed.

Lemma elem_concat_map {A B} (f : A -> list B) (l : list A) x : x ∈ concat (map f l) <-> exists y, y ∈ l /\ x ∈ f y.
Proof.
  rewrite list_elem_of_In, in_concat. split.
  - intros (z & (y & <- & Hy)%in_map_iff & Hx). exists y. by rewrite !list_elem_of_In.
  - intros (y & Hy & Hx). exists (f y). rewrite <-!list_elem_of_In. split; [|done].
    rewrite list_elem_of_In. apply in_map. by apply list_elem_of_In.
Qed.

Lemma nodes_node h ts x : x ∈ nodes (Node h ts) <-> x = h \/ exists t, t ∈ ts /\ x ∈ nodes t.
Proof. simpl. by rewrite elem_of_cons, elem_concat_map. Qed.

Lemma subtrees_node h ts x :
  x ∈ subtrees (Node h ts) <-> x = Node h ts \/ exists t, t ∈ ts /\ x ∈ subtrees t.
Proof. simpl. by rewrite elem_of_cons, elem_concat_map. Qed.

Lemma subtrees_trans a b c : a ∈ subtrees b -> b ∈ subtrees c -> a ∈ subtrees c.
Proof.
  intros Hab. induction c as [h ts IH] using rtree_ind'. rewrite !subtrees_node.
  intros [->|(t & Ht & Hb)]; [by apply subtrees_node|].
  right. exists t. split; [done|]. rewrite Forall_forall in IH. by apply IH.
Qed.

Lemma nodes_subtree t x : x ∈ nodes t <-> exists t', t' ∈ subtrees t /\ label t' = x.
Proof.
  induction t as [h ts IH] using rtree_ind'. rewrite nodes_node. rewrite Forall_forall in IH. split.
  - intros [->|(t & Ht & Hx)]; [exists (Node h ts); split; [apply subtrees_self|done]|].
    apply IH in Hx as (t' & Ht' & <-); [|done]. exists t'. split; [|done]. apply subtrees_node. eauto.
  - intros (t' & [->|(t & Ht & Ht')]%subtrees_node & <-); [by left|].
    right. exists t. split; [done|]. apply IH; eauto.
Qed.

Lemma nodes_sub t t' x : t' ∈ subtrees t -> x ∈ nodes t' -> x ∈ nodes t.
Proof.
  rewrite (nodes_subtree t' x), (nodes_subtree t x). intros Ht (t'' & H & <-).
  exists t''. split; [|done]. by eapply subtrees_trans.
Qed.

Lemma subtrees_kid t t' : t' ∈ kids t -> t' ∈ subtrees t.
Proof.
  destruct t as [h ts]. simpl. intros H. right. apply elem_concat_map. exists t'. split; [done|apply subtrees_self].
Qed.

Lemma subtrees_kid_of t ta tc : ta ∈ subtrees t -> tc ∈ kids ta -> tc ∈ subtrees t.
Proof. intros Ha Hc%subtrees_kid. by eapply subtrees_trans. Qed.

Lemma nodes_kid t t' x : t' ∈ kids t -> x ∈ nodes t' -> x ∈ nodes t.
Proof. intros H%subtrees_kid. by apply nodes_sub. Qed.

Lemma tsize_node h ts : tsize (Node h ts) = S (sum_list_with tsize ts).
Proof.
  unfold tsize. simpl. f_equal. induction ts as [|t ts IH]; simpl; [done|]. by rewrite length_app, IH.
Qed.

Lemma tsize_pos t : (1 <= tsize t)%nat.
Proof. destruct t. rewrite tsize_node. lia. Qed.

Lemma anc_refl t a : a ∈ nodes t -> anc t a a.
Proof. intros (ta & Hta & <-)%nodes_subtree. exists ta. split_and!; [done..|apply nodes_self]. Qed.

Lemma anc_nodes t a b : anc t a b -> a ∈ nodes t /\ b ∈ nodes t.
Proof. intros (ta & Hta & <- & Hb). split; eapply nodes_sub; try done. apply nodes_self. Qed.

Lemma anc_sub t t' a b : t' ∈ subtrees t -> anc t' a b -> anc t a b.
Proof. intros H (ta & Hta & Ha & Hb). exists ta. split_and!; try done. by eapply subtrees_trans. Qed.

Lemma left_of_sub t t' a b : t' ∈ subtrees t -> left_of t' a b -> left_of t a b.
Proof.
  intros H (ta & l1 & t1 & l2 & t2 & l3 & Hta & E & Ha & Hb).
  exists ta, l1, t1, l2, t2, l3. split_and!; try done. by eapply subtrees_trans.
Qed.

(** Two blocks of a tree are related by ancestry or lie side by side. *)
Lemma tree_trichotomy t a b :
  a ∈ nodes t -> b ∈ nodes t -> anc t a b \/ anc t b a \/ left_of t a b \/ left_of t b a.
Proof.
  induction t as [h ts IH] using rtree_ind'. intros Ha Hb. pose proof Ha as Ha0. pose proof Hb as Hb0.
  apply nodes_node in Ha as [->|(ta & Hta & Ha)].
  { left. exists (Node h ts). split_and!; [apply subtrees_self|done..]. }
  apply nodes_node in Hb as [->|(tb & Htb & Hb)].
  { right. left. exists (Node h ts). split_and!; [apply subtrees_self|done..]. }
  apply list_elem_of_lookup in Hta as [i Hi]. apply list_elem_of_lookup in Htb as [j Hj].
  destruct (Nat.lt_total i j) as [Hij|[<-|Hij]].
  - right; right; left. pose proof (list_elem_of_split_length _ _ _ Hi) as (l1 & l2 & -> & ->).
    rewrite lookup_app_r in Hj by lia. destruct (j - length l1)%nat as [|k] eqn:E; [lia|].
    simpl in Hj. pose proof (list_elem_of_split_length _ _ _ Hj) as (l3 & l4 & -> & _).
    exists (Node h (l1 ++ ta :: l3 ++ tb :: l4)), l1, ta, l3, tb, l4. split_and!; [apply subtrees_self|done..].
  - rewrite Hi in Hj. injection Hj as <-. rewrite Forall_lookup in IH.
    assert (ta ∈ subtrees (Node h ts)) as Hs by (apply subtrees_kid; by eapply list_elem_of_lookup_2).
    destruct (IH i ta Hi Ha Hb) as [?|[?|[?|?]]]; eauto using anc_sub, left_of_sub.
  - right; right; right. pose proof (list_elem_of_split_length _ _ _ Hj) as (l1 & l2 & -> & ->).
    rewrite lookup_app_r in Hi by lia. destruct (i - length l1)%nat as [|k] eqn:E; [lia|].
    simpl in Hi. pose proof (list_elem_of_split_length _ _ _ Hi) as (l3 & l4 & -> & _).
    exists (Node h (l1 ++ tb :: l3 ++ ta :: l4)), l1, tb, l3, ta, l4. split_and!; [apply subtrees_self|done..].
Qed.

(** * Shapes and nested intervals *)

Lemma shape_root m p t : shape m p t ->
  exists d, m !! label t = Some d /\ rd_parent d = p /\ rd_children d = map label (kids t).
Proof. destruct t. by intros [? _]%shape_node. Qed.

Lemma shape_kids m p t t' : shape m p t -> t' ∈ kids t -> shape m (label t) t'.
Proof. destruct t as [h ts]. intros [_ H]%shape_node. rewrite Forall_forall in H. apply H. Qed.

Lemma shape_sub m p t t' : shape m p t -> t' ∈ subtrees t -> exists p', shape m p' t'.
Proof.
  revert p. induction t as [h ts IH] using rtree_ind'. intros p H [->|(t & Ht & Ht')]%subtrees_node; [eauto|].
  rewrite Forall_forall in IH. eapply IH; try done. by eapply (shape_kids _ _ (Node h ts)).
Qed.

Lemma shape_chl m p t : shape m p t -> chl m (label t) = map label (kids t).
Proof. intros (d & E & _ & Hc)%shape_root. unfold chl. by rewrite E. Qed.

Lemma shape_lookup m p t x : shape m p t -> x ∈ nodes t -> is_Some (m !! x).
Proof.
  intros H (t' & Ht' & <-)%nodes_subtree. destruct (shape_sub _ _ _ _ H Ht') as [p' H'].
  apply shape_root in H' as (d & E & _). eauto.
Qed.

Lemma nested_sub m t t' : nested m t -> t' ∈ subtrees t -> nested m t'.
Proof. intros H Ht x Hx. apply H. by eapply nodes_sub. Qed.

Lemma nested_kid m t t' : nested m t -> t' ∈ kids t -> nested m t'.
Proof. intros H Ht. eapply nested_sub; [done|]. by apply subtrees_kid. Qed.

Lemma inside_lookup lo hi is_ k i :
  inside lo hi is_ -> is_ !! k = Some i -> lo <= iv_start i <= iv_end i + 1 /\ iv_end i <= hi.
Proof.
  revert lo k. induction is_ as [|j is_ IH]; intros lo [|k] H E; simplify_eq/=; [lia|].
  destruct H as (? & ? & H). destruct (IH _ _ H E). lia.
Qed.

Lemma inside_order lo hi is_ j k i i' :
  inside lo hi is_ -> is_ !! j = Some i -> is_ !! k = Some i' -> (j < k)%nat -> iv_end i < iv_start i'.
Proof.
  revert lo j k. induction is_ as [|x is_ IH]; intros lo [|j] [|k] H Ej Ek Hjk; simplify_eq/=; try lia.
  - destruct H as (? & ? & H). destruct (inside_lookup _ _ _ _ _ H Ek). lia.
  - destruct H as (? & ? & H). eapply IH; try done. lia.
Qed.

Lemma inside_app lo hi l1 l2 :
  inside lo hi (l1 ++ l2) <->
  inside lo hi l1 /\ inside (match last l1 with Some i => iv_end i + 1 | None => lo end) hi l2.
Proof.
  revert lo. induction l1 as [|i l1 IH]; intros lo; simpl; [naive_solver|].
  rewrite IH. destruct l1 as [|j l1]; simpl; [naive_solver|].
  change (last (i :: j :: l1)) with (last (j :: l1)).
  destruct (last (j :: l1)) eqn:E; [naive_solver|]. by apply last_None in E.
Qed.

Lemma inside_mono lo lo' hi hi' is_ : inside lo hi is_ -> lo' <= lo -> hi <= hi' -> inside lo' hi' is_.
Proof.
  revert lo lo'. induction is_ as [|i is_ IH]; intros lo lo' H Hlo Hhi; simpl in *; [done|].
  destruct H as (? & ? & H). split_and!; [lia..|]. by eapply IH.
Qed.

Lemma tiles_inside lo hi is_ : tiles lo hi is_ -> inside lo hi is_.
Proof.
  revert lo. induction is_ as [|i is_ IH]; intros lo H; simpl in *; [done|].
  destruct H as (<- & ? & H). split_and!; [lia..|]. by apply IH.
Qed.

(** The order of the intervals alone; blocks may be empty. *)
Definition spread (m : blocks) (t : rtree) : Prop :=
  forall h, h ∈ nodes t -> inside (iv_start (ivl m h)) (iv_end (ivl m h) - 1) (map (ivl m) (chl m h)).

Lemma nested_spread m t : nested m t -> spread m t.
Proof. intros H h Hh. by apply H. Qed.

Lemma spread_sub m t t' : spread m t -> t' ∈ subtrees t -> spread m t'.
Proof. intros H Ht x Hx. apply H. by eapply nodes_sub. Qed.

Lemma spread_kid_bounds m p t t' :
  shape m p t -> spread m t -> t' ∈ kids t ->
  iv_start (ivl m (label t)) <= iv_start (ivl m (label t')) /\
  iv_end (ivl m (label t')) < iv_end (ivl m (label t)).
Proof.
  intros Hs Hn [k Hk]%list_elem_of_lookup. pose proof (Hn _ (nodes_self t)) as Hin.
  rewrite (shape_chl _ _ _ Hs), map_map in Hin.
  destruct (inside_lookup _ _ _ k (ivl m (label t')) Hin); [|lia].
  rewrite list_lookup_fmap, Hk. done.
Qed.

Lemma spread_bounds m p t b :
  shape m p t -> spread m t -> b ∈ nodes t ->
  iv_start (ivl m (label t)) <= iv_start (ivl m b) /\ iv_end (ivl m b) <= iv_end (ivl m (label t)) /\
  (b <> label t -> iv_end (ivl m b) < iv_end (ivl m (label t))).
Proof.
  revert p. induction t as [h ts IH] using rtree_ind'. intros p Hs Hn Hb. rewrite Forall_forall in IH.
  apply nodes_node in Hb as [->|(t & Ht & Hb)]; [simpl; split_and!; [lia..|done]|].
  pose proof (spread_kid_bounds _ _ (Node h ts) t Hs Hn Ht) as HB.
  destruct (IH t Ht h) as (?&?&?); [by eapply shape_kids in Hs|by eapply spread_sub; [|apply subtrees_kid]|done|].
  simpl in *. lia.
Qed.

Lemma spread_anc_bounds m p t a b :
  shape m p t -> spread m t -> anc t a b ->
  iv_start (ivl m a) <= iv_start (ivl m b) /\ iv_end (ivl m b) <= iv_end (ivl m a) /\
  (b <> a -> iv_end (ivl m b) < iv_end (ivl m a)).
Proof.
  intros Hs Hn (ta & Hta & <- & Hb). destruct (shape_sub _ _ _ _ Hs Hta) as [p' Hs'].
  eapply spread_bounds; try done. by eapply spread_sub.
Qed.

Lemma spread_left_bounds m p t a b :
  shape m p t -> spread m t -> left_of t a b -> iv_end (ivl m a) < iv_start (ivl m b).
Proof.
  intros Hs Hn (ta & l1 & t1 & l2 & t2 & l3 & Hta & E & Ha & Hb).
  destruct (shape_sub _ _ _ _ Hs Hta) as [p' Hs']. pose proof (spread_sub _ _ _ Hn Hta) as Hn'.
  pose proof (Hn' _ (nodes_self ta)) as Hin. rewrite (shape_chl _ _ _ Hs'), map_map in Hin.
  assert (t1 ∈ kids ta /\ t2 ∈ kids ta) as [H1 H2] by (rewrite E; set_solver).
  destruct (spread_bounds m (label ta) t1 a) as (_&?&_); [by eapply shape_kids|by eapply spread_sub; [|apply subtrees_kid]|done|].
  destruct (spread_bounds m (label ta) t2 b) as (?&_&_); [by eapply shape_kids|by eapply spread_sub; [|apply subtrees_kid]|done|].
  assert (iv_end (ivl m (label t1)) < iv_start (ivl m (label t2))); [|lia].
  eapply (inside_order _ _ _ (length l1) (length l1 + S (length l2)) _ _ Hin); [| |lia];
    rewrite list_lookup_fmap, E.
  - by rewrite list_lookup_middle.
  - rewrite lookup_app_r by lia. replace (length l1 + S (length l2) - length l1)%nat with (S (length l2)) by lia.
    simpl. by rewrite list_lookup_middle.
Qed.

(** The interval test decides ancestry for a block with an interval. *)
Lemma spread_contains_anc m p t a b :
  shape m p t -> spread m t -> a ∈ nodes t -> b ∈ nodes t -> 1 <= width (ivl m b) ->
  contains (ivl m a) (ivl m b) = true <-> anc t a b.
Proof.
  unfold width. intros Hs Hn Ha Hb Hpos. unfold contains. rewrite andb_true_iff, !Z.leb_le. split.
  - intros [H1 H2]. destruct (tree_trichotomy t a b Ha Hb) as [?|[H|[H|H]]]; [done|..].
    + destruct (decide (a = b)) as [->|Hne]; [done|].
      destruct (spread_anc_bounds _ _ _ _ _ Hs Hn H) as (_&_&H'). specialize (H' Hne). lia.
    + pose proof (spread_left_bounds _ _ _ _ _ Hs Hn H). lia.
    + pose proof (spread_left_bounds _ _ _ _ _ Hs Hn H). lia.
  - intros H. destruct (spread_anc_bounds _ _ _ _ _ Hs Hn H). lia.
Qed.

Lemma nested_pos m t b : nested m t -> b ∈ nodes t -> iv_start (ivl m b) <= iv_end (ivl m b).
Proof. intros Hn Hb. destruct (Hn b Hb) as [_ Hw _]. unfold width in Hw. lia. Qed.

Lemma nested_kid_bounds m p t t' :
  shape m p t -> nested m t -> t' ∈ kids t ->
  iv_start (ivl m (label t)) <= iv_start (ivl m (label t')) <= iv_end (ivl m (label t')) /\
  iv_end (ivl m (label t')) < iv_end (ivl m (label t)).
Proof.
  intros Hs Hn Ht. pose proof (spread_kid_bounds _ _ _ _ Hs (nested_spread _ _ Hn) Ht).
  pose proof (nested_pos m t (label t') Hn (nodes_kid _ _ _ Ht (nodes_self t'))). lia.
Qed.

Lemma nested_bounds m p t b :
  shape m p t -> nested m t -> b ∈ nodes t ->
  iv_start (ivl m (label t)) <= iv_start (ivl m b) <= iv_end (ivl m b) /\
  iv_end (ivl m b) <= iv_end (ivl m (label t)) /\
  (b <> label t -> iv_end (ivl m b) < iv_end (ivl m (label t))).
Proof.
  intros Hs Hn Hb. pose proof (spread_bounds _ _ _ _ Hs (nested_spread _ _ Hn) Hb) as (?&?&?).
  pose proof (nested_pos m t b Hn Hb). split_and!; [lia..|done].
Qed.

Lemma anc_bounds m p t a b :
  shape m p t -> nested m t -> anc t a b ->
  iv_start (ivl m a) <= iv_start (ivl m b) <= iv_end (ivl m b) /\
  iv_end (ivl m b) <= iv_end (ivl m a) /\ (b <> a -> iv_end (ivl m b) < iv_end (ivl m a)).
Proof.
  intros Hs Hn Ha. pose proof (spread_anc_bounds _ _ _ _ _ Hs (nested_spread _ _ Hn) Ha) as (?&?&?).
  pose proof (nested_pos m t b Hn (proj2 (anc_nodes _ _ _ Ha))). split_and!; [lia..|done].
Qed.

Lemma left_bounds m p t a b :
  shape m p t -> nested m t -> left_of t a b -> iv_end (ivl m a) < iv_start (ivl m b).
Proof. intros Hs Hn. eapply spread_left_bounds; [done|by apply nested_spread]. Qed.

Lemma contains_anc m p t a b :
  shape m p t -> nested m t -> a ∈ nodes t -> b ∈ nodes t ->
  contains (ivl m a) (ivl m b) = true <-> anc t a b.
Proof. intros Hs Hn Ha Hb. eapply spread_contains_anc; [done|by apply nested_spread|done..|by apply Hn]. Qed.

Lemma strictly_contains_anc m p t a b :
  shape m p t -> nested m t -> a ∈ nodes t -> b ∈ nodes t ->
  strictly_contains (ivl m a) (ivl m b) = true <-> anc t a b /\ a <> b.
Proof.
  intros Hs Hn Ha Hb. unfold strictly_contains. rewrite andb_true_iff, Z.leb_le, Z.ltb_lt. split.
  - intros [H1 H2]. split; [|intros ->; lia]. apply (contains_anc _ _ _ _ _ Hs Hn Ha Hb).
    unfold contains. rewrite andb_true_iff, !Z.leb_le. lia.
  - intros [H Hne]. destruct (anc_bounds _ _ _ _ _ Hs Hn H) as (?&?&H'). specialize (H' (not_eq_sym Hne)). lia.
Qed.

Lemma anc_antisym m p t a b : shape m p t -> nested m t -> anc t a b -> anc t b a -> a = b.
Proof.
  intros Hs Hn H1 H2. destruct (decide (a = b)) as [|Hne]; [done|].
  destruct (anc_bounds _ _ _ _ _ Hs Hn H1) as (?&?&H3), (anc_bounds _ _ _ _ _ Hs Hn H2) as (?&?&H4).
  specialize (H3 (not_eq_sym Hne)). specialize (H4 Hne). lia.
Qed.

Lemma left_not_anc m p t a b : shape m p t -> nested m t -> left_of t a b -> ~ anc t a b /\ ~ anc t b a.
Proof.
  intros Hs Hn H. pose proof (left_bounds _ _ _ _ _ Hs Hn H).
  split; intros H'; destruct (anc_bounds _ _ _ _ _ Hs Hn H'); lia.
Qed.

(** * Distinct blocks *)

Lemma labels_subtrees t : map label (subtrees t) = nodes t.
Proof.
  induction t as [h ts IH] using rtree_ind'. simpl. f_equal.
  induction IH as [|t ts E _ IH]; simpl; [done|]. by rewrite map_app, E, IH.
Qed.

Lemma label_inj t a b : NoDup (nodes t) -> a ∈ subtrees t -> b ∈ subtrees t -> label a = label b -> a = b.
Proof.
  rewrite <-labels_subtrees. intros Hnd [i Ha]%list_elem_of_lookup [j Hb]%list_elem_of_lookup E.
  assert (i = j) as ->; [|congruence].
  eapply NoDup_lookup; [done|..]; rewrite list_lookup_fmap; [rewrite Ha|rewrite Hb]; simpl; [done|by rewrite E].
Qed.

Lemma NoDup_concat_elem {A} (ls : list (list A)) l : NoDup (concat ls) -> l ∈ ls -> NoDup l.
Proof.
  induction ls as [|x ls IH]; [by intros _ ?%elem_of_nil|]. simpl. rewrite NoDup_app.
  intros (H1 & _ & H2) [->|H]%elem_of_cons; auto.
Qed.

Lemma NoDup_sub t t' : NoDup (nodes t) -> t' ∈ subtrees t -> NoDup (nodes t').
Proof.
  induction t as [h ts IH] using rtree_ind'. intros Hnd [->|(t1 & H1 & H2)]%subtrees_node; [done|].
  rewrite Forall_forall in IH. apply (IH t1 H1); [|done].
  simpl in Hnd. apply NoDup_cons in Hnd as [_ Hnd]. eapply NoDup_concat_elem; [done|].
  apply list_elem_of_In, in_map. by apply list_elem_of_In.
Qed.

Lemma NoDup_kids t : NoDup (nodes t) -> NoDup (map label (kids t)).
Proof.
  destruct t as [h ts]. simpl. intros [_ Hnd]%NoDup_cons. induction ts as [|t ts IH]; [constructor|].
  simpl in *. apply NoDup_app in Hnd as (_ & H1 & H2). apply NoDup_cons. split; [|auto].
  intros (t' & E & Ht')%list_elem_of_In%in_map_iff. apply (H1 (label t)); [apply nodes_self|].
  rewrite <-E. apply elem_concat_map. exists t'. split; [by apply list_elem_of_In|apply nodes_self].
Qed.

Lemma sum_list_with_elem {A} (f : A -> nat) l x : x ∈ l -> (f x <= sum_list_with f l)%nat.
Proof. induction l; [by intros ?%elem_of_nil|]. intros [->|H]%elem_of_cons; simpl; [lia|]. specialize (IHl H). lia. Qed.

Lemma tsize_kid t t' : t' ∈ kids t -> (tsize t' < tsize t)%nat.
Proof. destruct t as [h ts]. intros H%(sum_list_with_elem tsize). rewrite tsize_node. simpl in *. lia. Qed.

Lemma tsize_sub t t' : t' ∈ subtrees t -> (tsize t' <= tsize t)%nat.
Proof.
  induction t as [h ts IH] using rtree_ind'. intros [->|(t1 & H1 & H2)]%subtrees_node; [done|].
  rewrite Forall_forall in IH. specialize (IH t1 H1 H2). pose proof (tsize_kid (Node h ts) t1 H1). lia.
Qed.

Lemma shape_parent m p t ta tc :
  shape m p t -> ta ∈ subtrees t -> tc ∈ kids ta ->
  exists d, m !! label tc = Some d /\ rd_parent d = label ta.
Proof.
  intros Hs Hta Htc. destruct (shape_sub _ _ _ _ Hs Hta) as [p' Hs'].
  pose proof (shape_kids _ _ _ _ Hs' Htc) as (d & E & Hp & _)%shape_root. eauto.
Qed.

Lemma parent_unique m p t y y' k :
  NoDup (nodes t) -> shape m p t -> y ∈ subtrees t -> y' ∈ subtrees t -> k ∈ kids y -> k ∈ kids y' -> y = y'.
Proof.
  intros Hnd Hs Hy Hy' Hk Hk'. destruct (shape_parent _ _ _ _ _ Hs Hy Hk) as (d & E & Hp).
  destruct (shape_parent _ _ _ _ _ Hs Hy' Hk') as (d' & E' & Hp'). eapply label_inj; try done. congruence.
Qed.

(** A subtree is the whole tree or has a parent in it. *)
Lemma subtree_parent t ta : ta ∈ subtrees t -> ta = t \/ exists y, y ∈ subtrees t /\ ta ∈ kids y.
Proof.
  induction t as [h ts IH] using rtree_ind'. intros [->|(t1 & H1 & H2)]%subtrees_node; [by left|right].
  rewrite Forall_forall in IH. destruct (IH t1 H1 H2) as [->|(y & Hy & Hk)].
  - exists (Node h ts). split; [apply subtrees_self|done].
  - exists y. split; [|done]. apply subtrees_node. eauto.
Qed.

Lemma inside_width lo hi is_ : lo <= hi + 1 -> inside lo hi is_ -> sumZ width is_ <= hi + 1 - lo.
Proof.
  revert lo. induction is_ as [|i is_ IH]; intros lo Hlo; simpl; [lia|].
  intros (? & ? & H). specialize (IH (iv_end i + 1) ltac:(lia) H). unfold width in *. lia.
Qed.

(** A nested tree fits into the interval of its root. *)
Lemma nested_capacity m p t : shape m p t -> nested m t -> Z.of_nat (tsize t) <= width (ivl m (label t)).
Proof.
  revert p. induction t as [h ts IH] using rtree_ind'. intros p Hs Hn. rewrite tsize_node.
  destruct (Hn _ (nodes_self _)) as [_ Hw Hin]. rewrite (shape_chl _ _ _ Hs), map_map in Hin. simpl in *.
  assert (Z.of_nat (sum_list_with tsize ts) <= sumZ width (map (fun x => ivl m (label x)) ts)).
  { clear Hin Hw. rewrite Forall_forall in IH.
    assert (Hk : forall t, t ∈ ts -> Z.of_nat (tsize t) <= width (ivl m (label t))).
    { intros t Ht. apply (IH t Ht h); [exact (shape_kids _ _ (Node h ts) t Hs Ht)|exact (nested_kid _ (Node h ts) t Hn Ht)]. }
    clear IH Hs Hn. induction ts as [|t ts IH]; simpl; [lia|].
    pose proof (Hk t ltac:(by left)). assert (forall t, t ∈ ts -> Z.of_nat (tsize t) <= width (ivl m (label t))) as Hk'.
    { intros t' Ht'. apply Hk. by right. }
    specialize (IH Hk'). lia. }
  apply inside_width in Hin; [|unfold width in Hw; lia]. unfold width in *. lia.
Qed.

Lemma nested_NoDup m p t : shape m p t -> nested m t -> NoDup (nodes t).
Proof.
  revert p. induction t as [h ts IH] using rtree_ind'. intros p Hs Hn. rewrite Forall_forall in IH.
  simpl. apply NoDup_cons. split.
  - intros (t & Ht & Hh)%elem_concat_map. pose proof (nested_kid_bounds _ _ (Node h ts) t Hs Hn Ht).
    destruct (nested_bounds m h t h) as (?&?&_); [exact (shape_kids _ _ (Node h ts) t Hs Ht)|exact (nested_kid _ (Node h ts) t Hn Ht)|done|].
    simpl in *. lia.
  - assert (Hside : forall i j t1 t2 x, ts !! i = Some t1 -> ts !! j = Some t2 -> (i < j)%nat ->
      x ∈ nodes t1 -> x ∈ nodes t2 -> False).
    { intros i j t1 t2 x H1 H2 Hij Hx1 Hx2.
      pose proof (list_elem_of_split_length _ _ _ H1) as (l1 & l2 & E & ->).
      rewrite E, lookup_app_r in H2 by lia. destruct (j - length l1)%nat as [|k] eqn:Ek; [lia|]. simpl in H2.
      pose proof (list_elem_of_split_length _ _ _ H2) as (l3 & l4 & -> & _).
      assert (left_of (Node h ts) x x) as Hleft.
      { exists (Node h ts), l1, t1, l3, t2, l4. split_and!; [apply subtrees_self|done..]. }
      apply (left_not_anc _ _ _ _ _ Hs Hn) in Hleft as [Hno _]. apply Hno, anc_refl.
      apply (nodes_kid (Node h ts) t1); [|done]. by eapply list_elem_of_lookup_2. }
    assert (Hnd : forall t, t ∈ ts -> NoDup (nodes t)).
    { intros t Ht. apply (IH t Ht h); [exact (shape_kids _ _ (Node h ts) t Hs Ht)|exact (nested_kid _ (Node h ts) t Hn Ht)]. }
    clear IH Hs Hn. induction ts as [|t ts IH]; simpl; [constructor|]. apply NoDup_app. split_and!.
    + apply Hnd. by left.
    + intros x Hx (t' & Ht' & Hx')%elem_concat_map. apply list_elem_of_lookup in Ht' as [j Hj].
      by eapply (Hside 0%nat (S j)); [done|exact Hj|lia|..].
    + apply IH; [|by intros; apply Hnd; right]. intros i j t1 t2 x H1 H2 Hij.
      by eapply (Hside (S i) (S j)); [done|done|lia].
Qed.
