(* ===== verification/ReachStores.v ===== *)
(** The implementations of the reachability store
    (consensus/src/model/stores/reachability.rs): the memory store, the database
    store with its cached ordered sets, and the staging store that collects the
    changes of a block and commits them to the database store.

    The tables of the database store are modelled by maps from hashes: the
    cached access to such a table is the subject of the access layer. A set is
    on disk a bucket of hashes, iterated in the order of their bytes; the cache
    holds some of the sets as ordered vectors. *)

From stdpp Require Import sorting.
From S2P Require Import Prelude Access Interval Reach ReachTree.

(** * Vectors *)

(** [Vec::insert] and [Vec::splice] on the range of one index. *)
Definition vec_insert {E} (l : list hash) (i : nat) (x : hash) : result (fault E) (list hash) :=
  if bool_decide (i <= length l)%nat then Ok (take i l ++ x :: drop i l) else Err Panic.

Definition vec_splice_one {E} (l : list hash) (i : nat) (xs : list hash) : result (fault E) (list hash) :=
  if bool_decide (i < length l)%nat then Ok (take i l ++ xs ++ drop (S i) l) else Err Panic.

(** * Keys of the errors *)

Definition REACHABILITY : bytes := [15].
Definition REACHABILITY_REINDEX_ROOT : bytes := [16].
Definition REACHABILITY_TREE_CHILDREN : bytes := [30].
Definition REACHABILITY_FUTURE_COVERING_SET : bytes := [31].

(** * The memory store *)

Record MemoryReachabilityStore := mk_memory {
  mem_map : gmap hash MemoryReachabilityData;
  mem_reindex_root : option hash;
}.

Definition mem_new : MemoryReachabilityStore := mk_memory ∅ None.

Definition mem_get_data (s : MemoryReachabilityStore) (h : hash) : result StoreError MemoryReachabilityData :=
  ok_or (KeyNotFound (DbKey_new REACHABILITY h)) (mem_map s !! h).

(** [get_data_mut] followed by a change of the data. *)
Definition mem_modify {E} (wrap : StoreError -> E) (h : hash)
    (f : MemoryReachabilityData -> result E MemoryReachabilityData) : st MemoryReachabilityStore E () :=
  fun s =>
    match mem_get_data s h with
    | Err e => (s, Err (wrap e))
    | Ok d =>
        match f d with
        | Ok d' => (mk_memory (<[h := d']> (mem_map s)) (mem_reindex_root s), Ok tt)
        | Err e => (s, Err e)
        end
    end.

Definition mem_insert (h parent : hash) (interval : Interval) (height : Z) : st MemoryReachabilityStore StoreError () :=
  fun s =>
    match mem_map s !! h with
    | None => (mk_memory (<[h := data_new parent interval height]> (mem_map s)) (mem_reindex_root s), Ok tt)
    | Some _ => (s, Err (HashAlreadyExists h))
    end.

Definition mem_set_reindex_root (root : hash) : st MemoryReachabilityStore StoreError () :=
  fun s => (mk_memory (mem_map s) (Some root), Ok tt).

Definition mem_init (origin : hash) (capacity : Interval) : st MemoryReachabilityStore StoreError () :=
  _ ← mem_insert origin NONE capacity 0;
  mem_set_reindex_root origin.

Definition mem_set_interval (h : hash) (interval : Interval) : st MemoryReachabilityStore StoreError () :=
  mem_modify id h (fun d => Ok (with_interval d interval)).

Definition mem_append_child (h child : hash) : st MemoryReachabilityStore (fault StoreError) () :=
  mem_modify Error h (fun d => Ok (with_children d (rd_children d ++ [child]))).

Definition mem_insert_future_covering_item (h fci : hash) (insertion_index : nat) :
    st MemoryReachabilityStore (fault StoreError) () :=
  mem_modify Error h (fun d => l ← vec_insert (rd_fcs d) insertion_index fci; Ok (with_fcs d l)).

Definition mem_set_parent (h new_parent : hash) : st MemoryReachabilityStore StoreError () :=
  mem_modify id h (fun d => Ok (with_parent d new_parent)).

Definition mem_replace_child (h replaced_hash : hash) (replaced_index : nat) (replace_with : list hash) :
    st MemoryReachabilityStore (fault StoreError) () :=
  mem_modify Error h (fun d => l ← vec_splice_one (rd_children d) replaced_index replace_with; Ok (with_children d l)).

Definition mem_replace_future_covering_item (h replaced_hash : hash) (replaced_index : nat) (replace_with : list hash) :
    st MemoryReachabilityStore (fault StoreError) () :=
  mem_modify Error h (fun d => l ← vec_splice_one (rd_fcs d) replaced_index replace_with; Ok (with_fcs d l)).

Definition mem_delete (h : hash) : st MemoryReachabilityStore StoreError () :=
  fun s => (mk_memory (delete h (mem_map s)) (mem_reindex_root s), Ok tt).

Definition mem_get_reindex_root (s : MemoryReachabilityStore) : result StoreError hash :=
  ok_or (KeyNotFound REACHABILITY_REINDEX_ROOT) (mem_reindex_root s).

Definition mem_has (s : MemoryReachabilityStore) (h : hash) : result StoreError bool :=
  Ok (bool_decide (is_Some (mem_map s !! h))).

Definition mem_get_interval s h := d ← mem_get_data s h; Ok (rd_interval d).
Definition mem_get_parent s h := d ← mem_get_data s h; Ok (rd_parent d).
Definition mem_get_height s h := d ← mem_get_data s h; Ok (rd_height d).

(** A store error of a read. *)
Definition as_fault {A} (r : result StoreError A) : result (fault StoreError) A :=
  match r with Ok a => Ok a | Err e => Err (Error e) end.

Definition mem_get_children s h := d ← as_fault (mem_get_data s h); Ok (rd_children d).
Definition mem_get_future_covering_set s h := d ← as_fault (mem_get_data s h); Ok (rd_fcs d).

Definition mem_count (s : MemoryReachabilityStore) : nat := size (mem_map s).

#[export] Instance memory_store : ReachabilityStore MemoryReachabilityStore := {|
  rs_has := mem_has;
  rs_get_interval := mem_get_interval;
  rs_get_parent := mem_get_parent;
  rs_get_children := mem_get_children;
  rs_get_future_covering_set := mem_get_future_covering_set;
  rs_get_height := mem_get_height;
  rs_get_reindex_root := mem_get_reindex_root;
  rs_init := mem_init;
  rs_insert := mem_insert;
  rs_set_interval := mem_set_interval;
  rs_append_child := mem_append_child;
  rs_insert_future_covering_item := mem_insert_future_covering_item;
  rs_set_parent := mem_set_parent;
  rs_replace_child := mem_replace_child;
  rs_replace_future_covering_item := mem_replace_future_covering_item;
  rs_delete := mem_delete;
  rs_set_reindex_root := mem_set_reindex_root;
|}.

(** * The database store *)

Record ReachabilityData := mk_rdata {
  rp_parent : hash;
  rp_interval : Interval;
  rp_height : Z;
}.

(** [DbReachabilitySet]: the buckets on disk and the cached vectors. *)
Record DbReachabilitySet := mk_set {
  set_disk : gmap hash (gset hash);
  set_cache : gmap hash (list hash);
}.

Definition bucket (a : DbReachabilitySet) (h : hash) : gset hash := default ∅ (set_disk a !! h).

(** [DbSetAccess::write] and [delete] of one element. *)
Definition set_write (h element : hash) (a : DbReachabilitySet) : DbReachabilitySet :=
  mk_set (<[h := {[element]} ∪ bucket a h]> (set_disk a)) (set_cache a).
Definition set_remove (h element : hash) (a : DbReachabilitySet) : DbReachabilitySet :=
  mk_set (<[h := bucket a h ∖ {[element]}]> (set_disk a)) (set_cache a).

(** The cached vector changed, when there is one. *)
Definition set_update_cache {E} (h : hash) (f : list hash -> result E (list hash)) : st DbReachabilitySet E () :=
  fun a =>
    match set_cache a !! h with
    | None => (a, Ok tt)
    | Some entry =>
        match f entry with
        | Ok entry' => (mk_set (set_disk a) (<[h := entry']> (set_cache a)), Ok tt)
        | Err e => (a, Err e)
        end
    end.

Definition set_modify {E} (f : DbReachabilitySet -> DbReachabilitySet) : st DbReachabilitySet E () :=
  fun a => (f a, Ok tt).

Definition set_append (h element : hash) : st DbReachabilitySet (fault StoreError) () :=
  _ ← set_update_cache h (fun entry => Ok (entry ++ [element]));
  set_modify (set_write h element).

Definition set_insert (h element : hash) (insertion_index : nat) : st DbReachabilitySet (fault StoreError) () :=
  _ ← set_update_cache h (fun entry => vec_insert entry insertion_index element);
  set_modify (set_write h element).

Definition set_replace (h replaced_hash : hash) (replaced_index : nat) (replace_with : list hash) :
    st DbReachabilitySet (fault StoreError) () :=
  _ ← set_update_cache h (fun entry => vec_splice_one entry replaced_index replace_with);
  set_modify (fun a => foldl (fun a added => set_write h added a) (set_remove h replaced_hash a) replace_with).

Definition set_delete (h : hash) (a : DbReachabilitySet) : DbReachabilitySet :=
  mk_set (delete h (set_disk a)) (delete h (set_cache a)).

(** The derived order of the hashes' bytes and of [Interval]. *)
Fixpoint bytes_le (x y : bytes) : bool :=
  match x, y with
  | [], _ => true
  | _ :: _, [] => false
  | a :: x', b :: y' => if a <? b then true else if a =? b then bytes_le x' y' else false
  end.

Definition interval_le (i j : Interval) : bool :=
  (iv_start i <? iv_start j) || ((iv_start i =? iv_start j) && (iv_end i <=? iv_end j)).

Definition key_le (x y : Interval * hash) : bool := interval_le (x.1) (y.1).

(** [sort_by_cached_key]: all keys first, then a stable sort. *)
Fixpoint with_keys {E} (key : hash -> result E Interval) (l : list hash) : result E (list (Interval * hash)) :=
  match l with
  | [] => Ok []
  | h :: l' => k ← key h; r ← with_keys key l'; Ok ((k, h) :: r)
  end.

Definition sort_by_cached_key {E} (key : hash -> result E Interval) (l : list hash) : result E (list hash) :=
  keyed ← with_keys key l;
  Ok (map snd (merge_sort (fun x y => key_le x y) keyed)).

(** The elements of a bucket in the order of the iterator. *)
Definition bucket_iterator (a : DbReachabilitySet) (h : hash) : list hash :=
  merge_sort (fun x y => bytes_le x y) (elements (bucket a h)).

(** [read]: the vector and the set with the vector cached. *)
Definition set_read (a : DbReachabilitySet) (h : hash) (key : hash -> result (fault StoreError) Interval) :
    result (fault StoreError) (list hash * DbReachabilitySet) :=
  match set_cache a !! h with
  | Some entry => Ok (entry, a)
  | None =>
      l ← sort_by_cached_key key (bucket_iterator a h);
      Ok (l, mk_set (set_disk a) (<[h := l]> (set_cache a)))
  end.

Record DbReachabilityStore := mk_dbstore {
  db_access : gmap hash ReachabilityData;
  db_children : DbReachabilitySet;
  db_fcs : DbReachabilitySet;
  db_reindex_root : option hash;
  db_prefix_tail : bytes;
}.

(** [CachedDbAccess::read] of the main table. *)
Definition db_read (db : DbReachabilityStore) (h : hash) : result StoreError ReachabilityData :=
  ok_or (KeyNotFound (DbKey_new (REACHABILITY ++ db_prefix_tail db) h)) (db_access db !! h).

(** [|&h| self.access.read(h).unwrap().interval] *)
Definition db_interval_key (db : DbReachabilityStore) (h : hash) : result (fault StoreError) Interval :=
  d ← ok_or Panic (db_access db !! h); Ok (rp_interval d).

Definition with_access (db : DbReachabilityStore) a :=
  mk_dbstore a (db_children db) (db_fcs db) (db_reindex_root db) (db_prefix_tail db).
Definition with_children_access (db : DbReachabilityStore) c :=
  mk_dbstore (db_access db) c (db_fcs db) (db_reindex_root db) (db_prefix_tail db).
Definition with_fcs_access (db : DbReachabilityStore) f :=
  mk_dbstore (db_access db) (db_children db) f (db_reindex_root db) (db_prefix_tail db).
Definition with_reindex_root (db : DbReachabilityStore) r :=
  mk_dbstore (db_access db) (db_children db) (db_fcs db) r (db_prefix_tail db).

Definition db_with_prefix_tail (prefix_tail : bytes) : DbReachabilityStore :=
  mk_dbstore ∅ (mk_set ∅ ∅) (mk_set ∅ ∅) None prefix_tail.

Definition db_new : DbReachabilityStore := db_with_prefix_tail [255].

Definition db_with_block_level {E} (level : Z) : result (fault E) DbReachabilityStore :=
  if level =? 255 then Err Panic else Ok (db_with_prefix_tail [level]).

Definition db_with_block_level_retry {E} (level retry : Z) : result (fault E) DbReachabilityStore :=
  if (level =? 255) || (retry =? 255) then Err Panic else Ok (db_with_prefix_tail [level; retry]).

(** The same tables with empty caches. *)
Definition db_clone_with_new_cache (db : DbReachabilityStore) : DbReachabilityStore :=
  mk_dbstore (db_access db) (mk_set (set_disk (db_children db)) ∅) (mk_set (set_disk (db_fcs db)) ∅)
    (db_reindex_root db) (db_prefix_tail db).

Definition db_has (db : DbReachabilityStore) (h : hash) : result StoreError bool :=
  Ok (bool_decide (is_Some (db_access db !! h))).

Definition db_get_interval db h := d ← db_read db h; Ok (rp_interval d).
Definition db_get_parent db h := d ← db_read db h; Ok (rp_parent d).
Definition db_get_height db h := d ← db_read db h; Ok (rp_height d).

(** Reading a set fills the cache behind the shared reference. *)
Definition db_read_children (db : DbReachabilityStore) (h : hash) : result (fault StoreError) (list hash * DbReachabilityStore) :=
  '(l, a) ← set_read (db_children db) h (db_interval_key db); Ok (l, with_children_access db a).
Definition db_read_future_covering_set (db : DbReachabilityStore) (h : hash) :
    result (fault StoreError) (list hash * DbReachabilityStore) :=
  '(l, a) ← set_read (db_fcs db) h (db_interval_key db); Ok (l, with_fcs_access db a).

Definition db_get_children (db : DbReachabilityStore) (h : hash) : result (fault StoreError) (list hash) :=
  '(l, _) ← db_read_children db h; Ok l.
Definition db_get_future_covering_set (db : DbReachabilityStore) (h : hash) : result (fault StoreError) (list hash) :=
  '(l, _) ← db_read_future_covering_set db h; Ok l.

Definition db_get_reindex_root (db : DbReachabilityStore) : result StoreError hash :=
  ok_or (KeyNotFound (REACHABILITY_REINDEX_ROOT ++ db_prefix_tail db)) (db_reindex_root db).

Definition db_count (db : DbReachabilityStore) : nat := size (db_access db).

Definition db_init (origin : hash) (capacity : Interval) : st DbReachabilityStore (fault StoreError) () :=
  fun db =>
    if bool_decide (is_Some (db_access db !! origin)) then (db, Err Panic)
    else (with_reindex_root (with_access db (<[origin := mk_rdata NONE capacity 0]> (db_access db))) (Some origin), Ok tt).

Definition db_insert (h parent : hash) (interval : Interval) (height : Z) : st DbReachabilityStore StoreError () :=
  fun db =>
    if bool_decide (is_Some (db_access db !! h)) then (db, Err (HashAlreadyExists h))
    else (with_access db (<[h := mk_rdata parent interval height]> (db_access db)), Ok tt).

Definition db_set_interval (h : hash) (interval : Interval) : st DbReachabilityStore StoreError () :=
  fun db =>
    match db_read db h with
    | Err e => (db, Err e)
    | Ok d => (with_access db (<[h := mk_rdata (rp_parent d) interval (rp_height d)]> (db_access db)), Ok tt)
    end.

Definition db_set_parent (h new_parent : hash) : st DbReachabilityStore StoreError () :=
  fun db =>
    match db_read db h with
    | Err e => (db, Err e)
    | Ok d => (with_access db (<[h := mk_rdata new_parent (rp_interval d) (rp_height d)]> (db_access db)), Ok tt)
    end.

Definition on_children (m : st DbReachabilitySet (fault StoreError) ()) : st DbReachabilityStore (fault StoreError) () :=
  fun db => let '(a, r) := m (db_children db) in (with_children_access db a, r).
Definition on_fcs (m : st DbReachabilitySet (fault StoreError) ()) : st DbReachabilityStore (fault StoreError) () :=
  fun db => let '(a, r) := m (db_fcs db) in (with_fcs_access db a, r).

Definition db_append_child (h child : hash) := on_children (set_append h child).
Definition db_insert_future_covering_item (h fci : hash) (insertion_index : nat) := on_fcs (set_insert h fci insertion_index).
Definition db_replace_child (h replaced_hash : hash) (replaced_index : nat) (replace_with : list hash) :=
  on_children (set_replace h replaced_hash replaced_index replace_with).
Definition db_replace_future_covering_item (h replaced_hash : hash) (replaced_index : nat) (replace_with : list hash) :=
  on_fcs (set_replace h replaced_hash replaced_index replace_with).

Definition db_delete (h : hash) : st DbReachabilityStore StoreError () :=
  fun db => (with_access db (delete h (db_access db)), Ok tt).

Definition db_set_reindex_root (root : hash) : st DbReachabilityStore StoreError () :=
  fun db => (with_reindex_root db (Some root), Ok tt).

(** * The staging store *)

Record StagingSetEntry := mk_entry {
  en_set : list hash;
  additions : gset hash;
  deletions : gset hash;
}.

Definition entry_new (cached_set : list hash) : StagingSetEntry := mk_entry cached_set ∅ ∅.

Definition mark_addition (e : StagingSetEntry) (addition : hash) : StagingSetEntry :=
  if bool_decide (addition ∈ deletions e) then mk_entry (en_set e) (additions e) (deletions e ∖ {[addition]})
  else mk_entry (en_set e) ({[addition]} ∪ additions e) (deletions e).

Definition mark_deletion (e : StagingSetEntry) (deletion : hash) : StagingSetEntry :=
  if bool_decide (deletion ∈ additions e) then mk_entry (en_set e) (additions e ∖ {[deletion]}) (deletions e)
  else mk_entry (en_set e) (additions e) ({[deletion]} ∪ deletions e).

Definition with_set (e : StagingSetEntry) (l : list hash) : StagingSetEntry := mk_entry l (additions e) (deletions e).

Definition entry_append (e : StagingSetEntry) (element : hash) : StagingSetEntry :=
  mark_addition (with_set e (en_set e ++ [element])) element.

Definition entry_insert {E} (e : StagingSetEntry) (element : hash) (insertion_index : nat) : result (fault E) StagingSetEntry :=
  l ← vec_insert (en_set e) insertion_index element;
  Ok (mark_addition (with_set e l) element).

Definition entry_replace {E} (e : StagingSetEntry) (replaced_hash : hash) (replaced_index : nat) (replace_with : list hash) :
    result (fault E) StagingSetEntry :=
  l ← vec_splice_one (en_set e) replaced_index replace_with;
  Ok (foldl mark_addition (mark_deletion (with_set e l) replaced_hash) replace_with).

Record StagingReachabilityStore := mk_staging {
  store_read : DbReachabilityStore;
  staging_writes : gmap hash ReachabilityData;
  staging_children : gmap hash StagingSetEntry;
  staging_fcs : gmap hash StagingSetEntry;
  staging_deletions : gset hash;
  staging_reindex_root : option hash;
}.

Definition staging_new (db : DbReachabilityStore) : StagingReachabilityStore := mk_staging db ∅ ∅ ∅ ∅ None.

Definition with_writes (s : StagingReachabilityStore) w :=
  mk_staging (store_read s) w (staging_children s) (staging_fcs s) (staging_deletions s) (staging_reindex_root s).
Definition with_staged_children (s : StagingReachabilityStore) c :=
  mk_staging (store_read s) (staging_writes s) c (staging_fcs s) (staging_deletions s) (staging_reindex_root s).
Definition with_staged_fcs (s : StagingReachabilityStore) f :=
  mk_staging (store_read s) (staging_writes s) (staging_children s) f (staging_deletions s) (staging_reindex_root s).

Definition check_not_in_deletions (s : StagingReachabilityStore) (h : hash) : result StoreError () :=
  if bool_decide (h ∈ staging_deletions s) then Err (KeyNotFound (DbKey_new REACHABILITY h)) else Ok tt.

Definition stg_insert (h parent : hash) (interval : Interval) (height : Z) : st StagingReachabilityStore StoreError () :=
  fun s =>
    match db_has (store_read s) h with
    | Err e => (s, Err e)
    | Ok true => (s, Err (HashAlreadyExists h))
    | Ok false =>
        match staging_writes s !! h with
        | None => (with_writes s (<[h := mk_rdata parent interval height]> (staging_writes s)), Ok tt)
        | Some _ => (s, Err (HashAlreadyExists h))
        end
    end.

Definition stg_set_reindex_root (root : hash) : st StagingReachabilityStore StoreError () :=
  fun s =>
    (mk_staging (store_read s) (staging_writes s) (staging_children s) (staging_fcs s) (staging_deletions s) (Some root), Ok tt).

Definition stg_init (origin : hash) (capacity : Interval) : st StagingReachabilityStore StoreError () :=
  _ ← stg_insert origin NONE capacity 0;
  stg_set_reindex_root origin.

(** The staged data, or the data of the database store. *)
Definition stg_read (s : StagingReachabilityStore) (h : hash) : result StoreError ReachabilityData :=
  match staging_writes s !! h with
  | Some d => Ok d
  | None => db_read (store_read s) h
  end.

(** Changes the staged data, copying the data of the database store first. *)
Definition stg_modify (h : hash) (f : ReachabilityData -> ReachabilityData) : st StagingReachabilityStore StoreError () :=
  fun s =>
    match stg_read s h with
    | Err e => (s, Err e)
    | Ok d => (with_writes s (<[h := f d]> (staging_writes s)), Ok tt)
    end.

Definition stg_set_interval (h : hash) (interval : Interval) : st StagingReachabilityStore StoreError () :=
  stg_modify h (fun d => mk_rdata (rp_parent d) interval (rp_height d)).

Definition stg_set_parent (h new_parent : hash) : st StagingReachabilityStore StoreError () :=
  stg_modify h (fun d => mk_rdata new_parent (rp_interval d) (rp_height d)).

(** The staged entry of a set, or a new one around the set of the database store. *)
Definition staged_entry (staged : gmap hash StagingSetEntry) (read : result (fault StoreError) (list hash)) (h : hash) :
    result (fault StoreError) StagingSetEntry :=
  match staged !! h with
  | Some e => Ok e
  | None => l ← read; Ok (entry_new l)
  end.

Definition stg_update_children (h : hash) (f : StagingSetEntry -> result (fault StoreError) StagingSetEntry) :
    st StagingReachabilityStore (fault StoreError) () :=
  fun s =>
    match e ← staged_entry (staging_children s) (db_get_children (store_read s) h) h; f e with
    | Ok e => (with_staged_children s (<[h := e]> (staging_children s)), Ok tt)
    | Err x => (s, Err x)
    end.

Definition stg_update_fcs (h : hash) (f : StagingSetEntry -> result (fault StoreError) StagingSetEntry) :
    st StagingReachabilityStore (fault StoreError) () :=
  fun s =>
    match e ← staged_entry (staging_fcs s) (db_get_future_covering_set (store_read s) h) h; f e with
    | Ok e => (with_staged_fcs s (<[h := e]> (staging_fcs s)), Ok tt)
    | Err x => (s, Err x)
    end.

Definition stg_append_child (h child : hash) := stg_update_children h (fun e => Ok (entry_append e child)).
Definition stg_insert_future_covering_item (h fci : hash) (insertion_index : nat) :=
  stg_update_fcs h (fun e => entry_insert e fci insertion_index).
Definition stg_replace_child (h replaced_hash : hash) (replaced_index : nat) (replace_with : list hash) :=
  stg_update_children h (fun e => entry_replace e replaced_hash replaced_index replace_with).
Definition stg_replace_future_covering_item (h replaced_hash : hash) (replaced_index : nat) (replace_with : list hash) :=
  stg_update_fcs h (fun e => entry_replace e replaced_hash replaced_index replace_with).

Definition stg_delete (h : hash) : st StagingReachabilityStore StoreError () :=
  fun s =>
    (mk_staging (store_read s) (delete h (staging_writes s)) (staging_children s) (staging_fcs s)
       ({[h]} ∪ staging_deletions s) (staging_reindex_root s), Ok tt).

Definition stg_get {A} (s : StagingReachabilityStore) (h : hash) (f : ReachabilityData -> A) : result StoreError A :=
  _ ← check_not_in_deletions s h;
  d ← stg_read s h;
  Ok (f d).

Definition stg_get_height s h := stg_get s h rp_height.
Definition stg_get_interval s h := stg_get s h rp_interval.
Definition stg_get_parent s h := stg_get s h rp_parent.

Definition stg_get_reindex_root (s : StagingReachabilityStore) : result StoreError hash :=
  match staging_reindex_root s with
  | Some root => Ok root
  | None => db_get_reindex_root (store_read s)
  end.

Definition stg_has (s : StagingReachabilityStore) (h : hash) : result StoreError bool :=
  if bool_decide (h ∈ staging_deletions s) then Ok false
  else if bool_decide (is_Some (staging_writes s !! h)) then Ok true else db_has (store_read s) h.

Definition stg_get_children (s : StagingReachabilityStore) (h : hash) : result (fault StoreError) (list hash) :=
  _ ← as_fault (check_not_in_deletions s h);
  match staging_children s !! h with
  | Some e => Ok (en_set e)
  | None => db_get_children (store_read s) h
  end.

Definition stg_get_future_covering_set (s : StagingReachabilityStore) (h : hash) : result (fault StoreError) (list hash) :=
  _ ← as_fault (check_not_in_deletions s h);
  match staging_fcs s !! h with
  | Some e => Ok (en_set e)
  | None => db_get_future_covering_set (store_read s) h
  end.

Definition stg_count (s : StagingReachabilityStore) : nat :=
  size ((dom (db_access (store_read s)) ∪ dom (staging_writes s)) ∖ staging_deletions s : gset hash).

#[export] Instance staging_store : ReachabilityStore StagingReachabilityStore := {|
  rs_has := stg_has;
  rs_get_interval := stg_get_interval;
  rs_get_parent := stg_get_parent;
  rs_get_children := stg_get_children;
  rs_get_future_covering_set := stg_get_future_covering_set;
  rs_get_height := stg_get_height;
  rs_get_reindex_root := stg_get_reindex_root;
  rs_init := stg_init;
  rs_insert := stg_insert;
  rs_set_interval := stg_set_interval;
  rs_append_child := stg_append_child;
  rs_insert_future_covering_item := stg_insert_future_covering_item;
  rs_set_parent := stg_set_parent;
  rs_replace_child := stg_replace_child;
  rs_replace_future_covering_item := stg_replace_future_covering_item;
  rs_delete := stg_delete;
  rs_set_reindex_root := stg_set_reindex_root;
|}.

(** * Committing *)

Definition commit_staging_entry (h : hash) (e : StagingSetEntry) (a : DbReachabilitySet) : DbReachabilitySet :=
  let a := mk_set (set_disk a) (<[h := en_set e]> (set_cache a)) in
  let a := foldl (fun a removed => set_remove h removed a) a (elements (deletions e)) in
  foldl (fun a added => set_write h added a) a (elements (additions e)).

(** [for (k, v) in map { f(k, v) }] *)
Definition for_each_entry {V S} (f : hash -> V -> S -> S) (m : gmap hash V) (s : S) : S :=
  foldl (fun s '(k, v) => f k v s) s (map_to_list m).

(** The database store once the batch of the commit is written. *)
Definition commit (s : StagingReachabilityStore) : DbReachabilityStore :=
  let db := store_read s in
  let access := for_each_entry (fun k v acc => <[k := v]> acc) (staging_writes s) (db_access db) in
  let children := for_each_entry commit_staging_entry (staging_children s) (db_children db) in
  let fcs := for_each_entry commit_staging_entry (staging_fcs s) (db_fcs db) in
  let access := foldl (fun acc k => delete k acc) access (elements (staging_deletions s)) in
  let children := foldl (fun a k => set_delete k a) children (elements (staging_deletions s)) in
  let fcs := foldl (fun a k => set_delete k a) fcs (elements (staging_deletions s)) in
  let root := match staging_reindex_root s with Some root => Some root | None => db_reindex_root db end in
  mk_dbstore access children fcs root (db_prefix_tail db).
