(* ===== verification/ReachQueries.v ===== *)
(** What a reachability store promises ([ReachabilityStoreLaws]), and the
    queries on a store that represents a tree: the binary search over ordered
    blocks, chain ancestry, the next chain ancestor. *)

From S2P Require Import Prelude Access Interval Reach ReachTree.

(** * The store's contract

    [view] is the content as one map, [fresh] says that a block was never
    stored. Only the calls on stored blocks are specified. *)

Class ReachabilityStoreLaws (T : Type) `{ReachabilityStore T} := {
  view : T -> blocks;
  root_of : T -> option hash;
  store_ok : T -> Prop;
  fresh : T -> hash -> Prop;
  (** the state after a successful update of a stored block *)
  updated (s s' : T) (m : blocks) : Prop :=
    store_ok s' /\ view s' = m /\ root_of s' = root_of s /\ forall x, fresh s x -> fresh s' x;
  law_fresh s h : store_ok s -> fresh s h -> view s !! h = None;
  law_has s h : store_ok s -> is_Some (view s !! h) -> rs_has s h = Ok true;
  law_absent s h : store_ok s -> fresh s h -> rs_has s h = Ok false;
  law_init s h i : store_ok s -> fresh s h ->
    exists s', rs_init h i s = (s', Ok tt) /\ store_ok s' /\ view s' = <[h := data_new NONE i 0]> (view s) /\
      root_of s' = Some h /\ forall x, x <> h -> fresh s x -> fresh s' x;
  law_interval s h d : store_ok s -> view s !! h = Some d -> rs_get_interval s h = Ok (rd_interval d);
  law_parent s h d : store_ok s -> view s !! h = Some d -> rs_get_parent s h = Ok (rd_parent d);
  law_children s h d : store_ok s -> view s !! h = Some d -> rs_get_children s h = Ok (rd_children d);
  law_fcs s h d : store_ok s -> view s !! h = Some d -> rs_get_future_covering_set s h = Ok (rd_fcs d);
  law_height s h d : store_ok s -> view s !! h = Some d -> rs_get_height s h = Ok (rd_height d);
  law_root s h : store_ok s -> root_of s = Some h -> rs_get_reindex_root s = Ok h;
  law_insert s h p i n : store_ok s -> fresh s h ->
    exists s', rs_insert h p i n s = (s', Ok tt) /\ store_ok s' /\ view s' = <[h := data_new p i n]> (view s) /\
      root_of s' = root_of s /\ forall x, x <> h -> fresh s x -> fresh s' x;
  law_set_interval s h d i : store_ok s -> view s !! h = Some d ->
    exists s', rs_set_interval h i s = (s', Ok tt) /\ updated s s' (<[h := with_interval d i]> (view s));
  law_append_child s h d c : store_ok s -> view s !! h = Some d -> c ∉ rd_children d ->
    exists s', rs_append_child h c s = (s', Ok tt) /\
      updated s s' (<[h := with_children d (rd_children d ++ [c])]> (view s));
  law_insert_fci s h d c k : store_ok s -> view s !! h = Some d -> (k <= length (rd_fcs d))%nat -> c ∉ rd_fcs d ->
    exists s', rs_insert_future_covering_item h c k s = (s', Ok tt) /\
      updated s s' (<[h := with_fcs d (take k (rd_fcs d) ++ c :: drop k (rd_fcs d))]> (view s));
  law_set_parent s h d p : store_ok s -> view s !! h = Some d ->
    exists s', rs_set_parent h p s = (s', Ok tt) /\ updated s s' (<[h := with_parent d p]> (view s));
  law_replace_child s h d c k cs : store_ok s -> view s !! h = Some d -> rd_children d !! k = Some c ->
    NoDup (take k (rd_children d) ++ cs ++ drop (S k) (rd_children d)) ->
    exists s', rs_replace_child h c k cs s = (s', Ok tt) /\
      updated s s' (<[h := with_children d (take k (rd_children d) ++ cs ++ drop (S k) (rd_children d))]> (view s));
  law_replace_fci s h d c k cs : store_ok s -> view s !! h = Some d -> rd_fcs d !! k = Some c ->
    NoDup (take k (rd_fcs d) ++ cs ++ drop (S k) (rd_fcs d)) ->
    exists s', rs_replace_future_covering_item h c k cs s = (s', Ok tt) /\
      updated s s' (<[h := with_fcs d (take k (rd_fcs d) ++ cs ++ drop (S k) (rd_fcs d))]> (view s));
  law_delete s h d : store_ok s -> view s !! h = Some d ->
    exists s', rs_delete h s = (s', Ok tt) /\ updated s s' (delete h (view s));
  law_set_root s h : store_ok s ->
    exists s', rs_set_reindex_root h s = (s', Ok tt) /\ store_ok s' /\ view s' = view s /\
      root_of s' = Some h /\ forall x, fresh s x -> fresh s' x;
}.

(** * Binary search *)

Section search.
Variables (key : nat -> result stop Z) (k : nat -> Z) (n : nat) (point : Z).
Hypothesis key_ok : forall j, (j < n)%nat -> key j = Ok (k j).
Hypothesis sorted : forall i j, (i < j < n)%nat -> k i < k j.

Lemma search_loop_spec fuel base size :
  (size <= S fuel)%nat -> (1 <= size)%nat -> (base + size <= n)%nat ->
  (base = 0%nat \/ k base <= point) ->
  (forall j, (base + size <= j < n)%nat -> point < k j) ->
  exists b, search_loop fuel key point base size = Ok b /\ (b < n)%nat /\
    (b = 0%nat \/ k b <= point) /\ (forall j, (b < j < n)%nat -> point < k j).
Proof.
  revert base size. induction fuel as [|fuel IH]; intros base size Hf Hs Hn Hlo Hhi; cbn [search_loop].
  - rewrite (proj2 (Nat.leb_le size 1)) by lia. exists base. split_and!; [done|lia|done|]. intros; apply Hhi; lia.
  - destruct (Nat.leb_spec size 1).
    { exists base. split_and!; [done|lia|done|]. intros; apply Hhi; lia. }
    assert (1 <= size / 2 < size)%nat as Hh.
    { split; [by apply Nat.div_le_lower_bound; lia|apply Nat.div_lt; lia]. }
    pose proof (Nat.Div0.mul_div_le size 2). set (half := (size / 2)%nat) in *. clearbody half. rewrite key_ok by lia. cbn.
    destruct (Z.ltb_spec point (k (base + half))) as [Hlt|Hge].
    + apply IH; try lia. intros j Hj.
      assert (j = base + half \/ (base + half < j))%nat as [->|Hj'] by lia; [done|].
      pose proof (sorted (base + half) j). lia.
    + apply IH; try lia. intros j Hj. apply Hhi. lia.
Qed.
End search.

(** The blocks of [l] are stored and their intervals start in increasing order. *)
Definition starts_sorted (m : blocks) (l : list hash) : Prop :=
  forall i j a b, l !! i = Some a -> l !! j = Some b -> (i < j)%nat -> iv_start (ivl m a) < iv_start (ivl m b).

Lemma binary_search_by_key_spec m l point key :
  (forall h, h ∈ l -> key h = Ok (iv_start (ivl m h))) -> starts_sorted m l ->
  (exists i h, binary_search_by_key l point key = Ok (inl i) /\ l !! i = Some h /\ iv_start (ivl m h) = point) \/
  (exists i, binary_search_by_key l point key = Ok (inr i) /\ (i <= length l)%nat /\
     (forall j h, l !! j = Some h -> (j < i)%nat -> iv_start (ivl m h) < point) /\
     (forall j h, l !! j = Some h -> (i <= j)%nat -> point < iv_start (ivl m h))).
Proof.
  intros Hkey Hsort. unfold binary_search_by_key. destruct (Nat.eqb_spec (length l) 0) as [E|E].
  { right. exists 0%nat. apply nil_length_inv in E as ->. split_and!; [done|simpl; lia|done..]. }
  set (at_ := fun n : nat => h ← assert_some (l !! n); key h).
  set (k := fun n => iv_start (ivl m (nth n l []))).
  assert (Hnth : forall j h, l !! j = Some h -> nth j l [] = h).
  { intros j h Hj. rewrite nth_lookup, Hj. done. }
  assert (Hat : forall j, (j < length l)%nat -> at_ j = Ok (k j)).
  { intros j Hj. apply lookup_lt_is_Some in Hj as [h Hh]. unfold at_, k. rewrite Hh. simpl.
    rewrite (Hnth _ _ Hh). apply Hkey. by eapply list_elem_of_lookup_2. }
  assert (Hinc : forall i j, (i < j < length l)%nat -> k i < k j).
  { intros i j [Hij Hj]. destruct (lookup_lt_is_Some_2 l i ltac:(lia)) as [a Ha].
    destruct (lookup_lt_is_Some_2 l j Hj) as [b Hb]. subst k. simpl.
    rewrite (Hnth _ _ Ha), (Hnth _ _ Hb). by eapply Hsort. }
  destruct (search_loop_spec at_ k (length l) point Hat Hinc (length l) 0 (length l)) as (b & -> & Hb & Hlo & Hhi);
    [lia..|by left|lia|].
  cbn [mbind result_bind]. fold (at_ b). rewrite (Hat b Hb). simpl. destruct (lookup_lt_is_Some_2 l b Hb) as [h Hh].
  assert (k b = iv_start (ivl m h)) as Ek by (subst k; simpl; by rewrite (Hnth _ _ Hh)).
  assert (Hk : forall j h, l !! j = Some h -> iv_start (ivl m h) = k j) by (intros ?? Hj; subst k; simpl; by rewrite (Hnth _ _ Hj)).
  destruct (Z.eqb_spec (k b) point) as [E1|E1].
  { left. exists b, h. split_and!; [done..|]. lia. }
  right. destruct (Z.ltb_spec (k b) point) as [Hlt|Hge].
  - exists (S b). split_and!; [done|lia|..].
    + intros j x Hj Hjb. rewrite (Hk _ _ Hj). assert (j = b \/ j < b)%nat as [->|?] by lia; [lia|].
      pose proof (Hinc j b). lia.
    + intros j x Hj Hjb. rewrite (Hk _ _ Hj). apply Hhi. apply lookup_lt_Some in Hj. lia.
  - destruct Hlo as [->|Hlo]; [|lia]. exists 0%nat. split_and!; [done|lia|lia|].
    intros j x Hj _. rewrite (Hk _ _ Hj). assert (j = 0 \/ 0 < j)%nat as [->|?] by lia; [lia|].
    apply lookup_lt_Some in Hj. apply Hhi. lia.
Qed.

(** * Queries on a represented tree *)

(** The blocks of [l] lie side by side in the tree, in order. *)
Definition side_by_side (t : rtree) (l : list hash) : Prop :=
  forall i j a b, l !! i = Some a -> l !! j = Some b -> (i < j)%nat -> left_of t a b.

Lemma kids_side_by_side t ta : ta ∈ subtrees t -> side_by_side t (map label (kids ta)).
Proof.
  intros Hta i j a b Ha Hb Hij. rewrite list_lookup_fmap in Ha, Hb.
  destruct (kids ta !! i) as [t1|] eqn:E1; [|done]. destruct (kids ta !! j) as [t2|] eqn:E2; [|done]. simplify_eq/=.
  pose proof (list_elem_of_split_length _ _ _ E1) as (l1 & l2 & E & ->).
  rewrite E, lookup_app_r in E2 by lia. destruct (j - length l1)%nat as [|k] eqn:Ek; [lia|]. simpl in E2.
  pose proof (list_elem_of_split_length _ _ _ E2) as (l3 & l4 & -> & _).
  exists ta, l1, t1, l3, t2, l4. split_and!; [done..| |]; apply nodes_self.
Qed.

Lemma side_by_side_NoDup m p t l : shape m p t -> nested m t -> Forall (fun h => h ∈ nodes t) l -> side_by_side t l -> NoDup l.
Proof.
  intros Hs Hn Hl Ho. apply NoDup_alt. intros i j x Hi Hj. rewrite Forall_forall in Hl.
  assert (Hx : x ∈ nodes t) by (eapply Hl, list_elem_of_lookup_2; done).
  destruct (Nat.lt_trichotomy i j) as [Hlt|[->|Hgt]]; [exfalso|done|exfalso].
  - by apply (proj1 (left_not_anc _ _ _ _ _ Hs Hn (Ho i j x x Hi Hj Hlt))), anc_refl.
  - by apply (proj1 (left_not_anc _ _ _ _ _ Hs Hn (Ho j i x x Hj Hi Hgt))), anc_refl.
Qed.

Section queries.
Context {T : Type} `{RS : ReachabilityStore T, RL : !ReachabilityStoreLaws T}.

Record represents_tree (s : T) (p : hash) (t : rtree) : Prop := {
  rt_ok : store_ok s;
  rt_shape : shape (view s) p t;
  rt_nested : nested (view s) t;
}.

Section reads.
Context (s : T) (Hok : store_ok s).

Lemma get_interval_ivl h : is_Some (view s !! h) -> rs_get_interval s h = Ok (ivl (view s) h).
Proof. intros [d E]. rewrite (law_interval s h d Hok E). unfold ivl. by rewrite E. Qed.

Lemma get_children_chl h : is_Some (view s !! h) -> rs_get_children s h = Ok (chl (view s) h).
Proof. intros [d E]. rewrite (law_children s h d Hok E). unfold chl. by rewrite E. Qed.
End reads.

Section on_tree.
Context (s : T) (p : hash) (t : rtree) (Hrep : represents_tree s p t).
Implicit Types h a b d : hash.

Lemma node_stored a : a ∈ nodes t -> is_Some (view s !! a).
Proof. by eapply shape_lookup, rt_shape. Qed.

Lemma node_interval a : a ∈ nodes t -> rs_get_interval s a = Ok (ivl (view s) a).
Proof. intros H. apply get_interval_ivl; [apply Hrep|by apply node_stored]. Qed.

Lemma node_children ta : ta ∈ subtrees t -> rs_get_children s (label ta) = Ok (map label (kids ta)).
Proof.
  intros H. destruct (shape_sub _ _ _ _ (rt_shape _ _ _ Hrep) H) as [p' Hs].
  rewrite get_children_chl, (shape_chl _ _ _ Hs); [done|apply Hrep|]. apply node_stored, nodes_subtree. eauto.
Qed.

Lemma is_chain_ancestor_of_run a b :
  a ∈ nodes t -> b ∈ nodes t ->
  exists r, is_chain_ancestor_of s a b = Ok r /\ (r = true <-> anc t a b).
Proof.
  intros Ha Hb. exists (contains (ivl (view s) a) (ivl (view s) b)). split.
  - unfold is_chain_ancestor_of. by rewrite (node_interval a Ha), (node_interval b Hb).
  - eapply contains_anc; [apply Hrep..|done|done].
Qed.

Lemma is_strict_chain_ancestor_of_run a b :
  a ∈ nodes t -> b ∈ nodes t ->
  exists r, is_strict_chain_ancestor_of s a b = Ok r /\ (r = true <-> anc t a b /\ a <> b).
Proof.
  intros Ha Hb. exists (strictly_contains (ivl (view s) a) (ivl (view s) b)). split.
  - unfold is_strict_chain_ancestor_of. by rewrite (node_interval a Ha), (node_interval b Hb).
  - eapply strictly_contains_anc; [apply Hrep..|done|done].
Qed.

Lemma side_by_side_bounds l i j a b :
  side_by_side t l -> l !! i = Some a -> l !! j = Some b -> (i < j)%nat ->
  iv_end (ivl (view s) a) < iv_start (ivl (view s) b).
Proof. intros Hl Ha Hb Hij. eapply left_bounds; [apply Hrep..|]. by eapply Hl. Qed.

Lemma node_pos a : a ∈ nodes t -> iv_start (ivl (view s) a) <= iv_end (ivl (view s) a).
Proof. intros Ha. destruct (rt_nested _ _ _ Hrep a Ha) as [_ Hw _]. unfold width in Hw. lia. Qed.

Lemma side_by_side_sorted l : Forall (fun h => h ∈ nodes t) l -> side_by_side t l -> starts_sorted (view s) l.
Proof.
  intros Hl Hs i j a b Ha Hb Hij. pose proof (side_by_side_bounds l i j a b Hs Ha Hb Hij).
  pose proof (node_pos a). rewrite Forall_lookup in Hl. specialize (Hl i a Ha). naive_solver lia.
Qed.

(** A block that starts at the last point of [d] contains it. *)
Lemma start_at_end_anc h d :
  h ∈ nodes t -> d ∈ nodes t -> iv_start (ivl (view s) h) = iv_end (ivl (view s) d) -> anc t h d.
Proof.
  intros Hh Hd E. pose proof (node_pos h Hh). pose proof (node_pos d Hd).
  pose proof (rt_shape _ _ _ Hrep) as Hsh. pose proof (rt_nested _ _ _ Hrep) as Hn.
  destruct (tree_trichotomy t h d Hh Hd) as [?|[H'|[H'|H']]]; [done|..].
  - destruct (decide (h = d)) as [->|Hne]; [done|].
    destruct (anc_bounds _ _ _ _ _ Hsh Hn H') as (_&_&H''). specialize (H'' Hne). lia.
  - pose proof (left_bounds _ _ _ _ _ Hsh Hn H'). lia.
  - pose proof (left_bounds _ _ _ _ _ Hsh Hn H'). lia.
Qed.

Lemma binary_search_descendant_run l d :
  Forall (fun h => h ∈ nodes t) l -> side_by_side t l -> d ∈ nodes t ->
  (exists h i, binary_search_descendant s l d = Ok (Found h i) /\ l !! i = Some h /\ anc t h d) \/
  (exists i, binary_search_descendant s l d = Ok (NotFound i) /\ (i <= length l)%nat /\
     (forall h, h ∈ l -> ~ anc t h d) /\
     (forall j h, l !! j = Some h -> (j < i)%nat -> iv_start (ivl (view s) h) < iv_end (ivl (view s) d)) /\
     (forall j h, l !! j = Some h -> (i <= j)%nat -> iv_end (ivl (view s) d) < iv_start (ivl (view s) h))).
Proof.
  intros Hl Hside Hd. pose proof (side_by_side_sorted l Hl Hside) as Hsort. rewrite Forall_forall in Hl.
  unfold binary_search_descendant. rewrite (node_interval d Hd). cbn [stored stored_set mbind result_bind].
  destruct (binary_search_by_key_spec (view s) l (iv_end (ivl (view s) d))
     (fun c => j ← unwrapped (rs_get_interval s c); Ok (iv_start j))) as [(i & h & -> & Hi & E)|(i & -> & Hi & Hlo & Hhi)].
  { intros h Hh. by rewrite (node_interval h (Hl h Hh)). }
  { done. }
  { left. exists h, i. simpl. rewrite Hi. split_and!; [done..|].
    apply start_at_end_anc; [|done..]. apply Hl. by eapply list_elem_of_lookup_2. }
  assert (Hanc : forall j h, l !! j = Some h -> anc t h d -> S j = i).
  { intros j h Hj Ha. destruct (anc_bounds _ _ _ _ _ (rt_shape _ _ _ Hrep) (rt_nested _ _ _ Hrep) Ha) as (?&?&_).
    destruct (Nat.lt_trichotomy (S j) i) as [Hlt|[?|Hgt]]; [|done|].
    - destruct (lookup_lt_is_Some_2 l (S j) ltac:(lia)) as [x Hx]. pose proof (Hlo _ _ Hx Hlt).
      pose proof (side_by_side_bounds l j (S j) h x Hside Hj Hx ltac:(lia)). lia.
    - pose proof (Hhi _ _ Hj ltac:(lia)). pose proof (node_pos d Hd). lia. }
  destruct i as [|k]; cbn [mbind result_bind].
  - right. exists 0%nat. split_and!; [done..| |done|done].
    intros h [j Hj]%list_elem_of_lookup Ha. by specialize (Hanc j h Hj Ha).
  - destruct (lookup_lt_is_Some_2 l k ltac:(lia)) as [h Hh]. rewrite Hh. cbn [assert_some ok_or mbind result_bind].
    assert (h ∈ nodes t) as Hn by (apply Hl; by eapply list_elem_of_lookup_2).
    destruct (is_chain_ancestor_of_run h d Hn Hd) as ([] & -> & Hr); cbn [mbind result_bind].
    + left. exists h, k. split_and!; [done..|]. by apply Hr.
    + right. exists (S k). split_and!; [done|done| |done|done].
      intros h' [j Hj]%list_elem_of_lookup Ha. specialize (Hanc j h' Hj Ha). injection Hanc as ->.
      rewrite Hh in Hj. injection Hj as ->. apply Hr in Ha. done.
Qed.

(** The child of [a] on the way to a strict descendant. *)
Lemma get_next_chain_ancestor_unchecked_run ta tc d :
  ta ∈ subtrees t -> tc ∈ kids ta -> d ∈ nodes tc ->
  get_next_chain_ancestor_unchecked s d (label ta) = Ok (label tc).
Proof.
  intros Hta Htc Hd. unfold get_next_chain_ancestor_unchecked. rewrite (node_children ta Hta). simpl.
  assert (Hin : forall t', t' ∈ kids ta -> label t' ∈ nodes t).
  { intros t' Ht'. apply nodes_subtree. exists t'. split; [|done]. by eapply subtrees_kid_of. }
  assert (anc t (label tc) d) as Ha.
  { exists tc. split_and!; [|done..]. by eapply subtrees_kid_of. }
  assert (d ∈ nodes t) as Hdt by (by apply (anc_nodes _ _ _ Ha)).
  destruct (binary_search_descendant_run (map label (kids ta)) d) as [(h & i & -> & Hi & Hh)|(i & _ & _ & Hno & _)].
  - rewrite Forall_map, Forall_forall. done.
  - by apply kids_side_by_side.
  - done.
  - simpl. f_equal. pose proof (kids_side_by_side t ta Hta) as Hside.
    assert (label tc ∈ map label (kids ta)) as [j Hj]%list_elem_of_lookup.
    { rewrite list_elem_of_In. apply in_map. by apply list_elem_of_In. }
    destruct (anc_bounds _ _ _ _ _ (rt_shape _ _ _ Hrep) (rt_nested _ _ _ Hrep) Ha) as (?&?&_).
    destruct (anc_bounds _ _ _ _ _ (rt_shape _ _ _ Hrep) (rt_nested _ _ _ Hrep) Hh) as (?&?&_).
    destruct (Nat.lt_trichotomy i j) as [Hlt|[->|Hgt]]; [|congruence|].
    + pose proof (side_by_side_bounds _ _ _ _ _ Hside Hi Hj Hlt). lia.
    + pose proof (side_by_side_bounds _ _ _ _ _ Hside Hj Hi Hgt). lia.
  - exfalso. apply (Hno (label tc)); [|done]. rewrite list_elem_of_In. apply in_map. by apply list_elem_of_In.
Qed.
End on_tree.
End queries.
