(* ===== verification/ReachLaws.v ===== *)
(** The memory and the staging store satisfy the laws of the reachability store,
    so the theorems on the algorithms hold for both; and what the staging store
    commits is what it showed, also when it is read back with empty caches. *)

From stdpp Require Import sorting.
From S2P Require Import Prelude Access Interval Reach ReachTree ReachStores ReachQueries.

(** * The memory store *)

Lemma vec_insert_ok {E} l i x : (i <= length l)%nat -> vec_insert (E := E) l i x = Ok (take i l ++ x :: drop i l).
Proof. intros. unfold vec_insert. by rewrite bool_decide_true. Qed.

Lemma vec_splice_ok {E} l i x xs : l !! i = Some x -> vec_splice_one (E := E) l i xs = Ok (take i l ++ xs ++ drop (S i) l).
Proof. intros H%lookup_lt_Some. unfold vec_splice_one. by rewrite bool_decide_true. Qed.

Lemma mem_get_data_ok s h d : mem_map s !! h = Some d -> mem_get_data s h = Ok d.
Proof. intros E. unfold mem_get_data. by rewrite E. Qed.

Lemma mem_updated {X} (wrap : StoreError -> X) h f s d d' :
  mem_map s !! h = Some d -> f d = Ok d' ->
  exists s', mem_modify wrap h f s = (s', Ok tt) /\ True /\ mem_map s' = <[h := d']> (mem_map s) /\
    mem_reindex_root s' = mem_reindex_root s /\ forall x, mem_map s !! x = None -> mem_map s' !! x = None.
Proof.
  intros E Ef. unfold mem_modify. rewrite (mem_get_data_ok _ _ _ E), Ef. eexists. split_and!; [done..|].
  intros x Hx. cbn. rewrite lookup_insert_ne; [done|]. intros ->. congruence.
Qed.

#[export] Program Instance memory_laws : ReachabilityStoreLaws MemoryReachabilityStore := {|
  view := mem_map;
  root_of := mem_reindex_root;
  store_ok _ := True;
  fresh s h := mem_map s !! h = None;
|}.
Solve All Obligations with
  try done; try (intros s h d _ E; simpl; unfold mem_get_interval, mem_get_parent, mem_get_children, mem_get_future_covering_set,
    mem_get_height; by rewrite (mem_get_data_ok _ _ _ E)).
Next Obligation. intros s h _ E. simpl. unfold mem_has. by rewrite bool_decide_true. Qed.
Next Obligation. intros s h _ E. simpl in *. unfold mem_has. rewrite E. by rewrite bool_decide_false by (by intros []). Qed.
Next Obligation.
  intros s h i _ E. simpl in *. unfold mem_init. erewrite st_bind_run by (unfold mem_insert; by rewrite E).
  eexists. split_and!; [done..|]. intros x Hx E'. simpl. by rewrite lookup_insert_ne.
Qed.
Next Obligation. intros s h _ E. simpl in *. unfold mem_get_reindex_root. by rewrite E. Qed.
Next Obligation.
  intros s h p i n _ E. simpl in *. unfold mem_insert. rewrite E. eexists. split_and!; [done..|].
  intros x Hx E'. simpl. by rewrite lookup_insert_ne.
Qed.
Next Obligation. intros s h d i _ E. by eapply mem_updated. Qed.
Next Obligation. intros s h d c _ E _. by eapply mem_updated. Qed.
Next Obligation. intros s h d c k _ E Hk _. eapply mem_updated; [done|]. by rewrite vec_insert_ok. Qed.
Next Obligation. intros s h d q _ E. by eapply mem_updated. Qed.
Next Obligation. intros s h d c k cs _ E Hk _. eapply mem_updated; [done|]. by erewrite vec_splice_ok. Qed.
Next Obligation. intros s h d c k cs _ E Hk _. eapply mem_updated; [done|]. by erewrite vec_splice_ok. Qed.
Next Obligation.
  intros s h d _ E. eexists. split_and!; [done..|]. intros x Hx. cbn. apply lookup_delete_None. auto.
Qed.
Next Obligation. intros s h _. by eexists. Qed.

(** * The entries of the staging store *)

(** The entry holds the changes from the bucket [B] to its vector. *)
Record entry_ok (B : gset hash) (e : StagingSetEntry) : Prop := {
  eo_nodup : NoDup (en_set e);
  eo_del : deletions e ⊆ B;
  eo_add : additions e ## B;
  eo_set : list_to_set (en_set e) = (B ∖ deletions e) ∪ additions e;
}.

Lemma entry_new_ok l : NoDup l -> entry_ok (list_to_set l) (entry_new l).
Proof. intros. split; set_solver. Qed.

(** Without the constraint that the vector has the elements it should have. *)
Definition diff_ok (B X : gset hash) (e : StagingSetEntry) : Prop :=
  deletions e ⊆ B /\ additions e ## B /\ X = (B ∖ deletions e) ∪ additions e.

Lemma entry_ok_diff B e : entry_ok B e <-> NoDup (en_set e) /\ diff_ok B (list_to_set (en_set e)) e.
Proof. split; [intros [????]; by split_and!|intros (? & ? & ? & ?); by split]. Qed.

Lemma mark_addition_ok B X e x : diff_ok B X e -> x ∉ X -> diff_ok B ({[x]} ∪ X) (mark_addition e x).
Proof.
  intros (H1 & H2 & ->) Hx. unfold mark_addition. case_bool_decide as Hd; unfold diff_ok; cbn [additions deletions].
  - split_and!; [set_solver..|]. apply set_eq. intros y. destruct (decide (y = x)) as [->|]; set_solver.
  - split_and!; set_solver.
Qed.

Lemma mark_deletion_ok B X e x : diff_ok B X e -> x ∈ X -> diff_ok B (X ∖ {[x]}) (mark_deletion e x).
Proof.
  intros (H1 & H2 & ->) Hx. unfold mark_deletion. case_bool_decide as Hd; unfold diff_ok; cbn [additions deletions].
  - split_and!; set_solver.
  - split_and!; set_solver.
Qed.

Lemma mark_addition_set e x : en_set (mark_addition e x) = en_set e.
Proof. unfold mark_addition. by case_bool_decide. Qed.

Lemma mark_deletion_set e x : en_set (mark_deletion e x) = en_set e.
Proof. unfold mark_deletion. by case_bool_decide. Qed.

Lemma mark_additions_set e l : en_set (foldl mark_addition e l) = en_set e.
Proof. revert e. induction l as [|x l IH]; intros e; simpl; [done|]. by rewrite IH, mark_addition_set. Qed.

Lemma mark_additions_ok B X e l :
  diff_ok B X e -> NoDup l -> (forall x, x ∈ l -> x ∉ X) -> diff_ok B (list_to_set l ∪ X) (foldl mark_addition e l).
Proof.
  revert X e. induction l as [|x l IH]; intros X e He Hnd Hx; simpl.
  - by rewrite (left_id_L ∅ (∪)).
  - apply NoDup_cons in Hnd as [Hxl Hnd].
    replace ({[x]} ∪ list_to_set l ∪ X) with (list_to_set l ∪ ({[x]} ∪ X)) by set_solver.
    apply IH; [|done|set_solver]. apply mark_addition_ok; [done|]. apply Hx. by left.
Qed.

Lemma entry_append_ok B e x : entry_ok B e -> x ∉ en_set e ->
  entry_ok B (entry_append e x) /\ en_set (entry_append e x) = en_set e ++ [x].
Proof.
  rewrite !entry_ok_diff. intros [Hnd Hd] Hx. unfold entry_append. rewrite mark_addition_set. cbn [en_set with_set]. split_and!; [|..|done].
  - apply NoDup_app. split_and!; [done|set_solver|apply NoDup_singleton].
  - replace (list_to_set (en_set e ++ [x])) with ({[x]} ∪ list_to_set (en_set e) : gset hash) by (rewrite list_to_set_app_L; set_solver).
    apply mark_addition_ok; [done|set_solver].
Qed.

Lemma entry_insert_ok B e x k : entry_ok B e -> x ∉ en_set e -> (k <= length (en_set e))%nat ->
  exists e', entry_insert (E := StoreError) e x k = Ok e' /\ entry_ok B e' /\ en_set e' = take k (en_set e) ++ x :: drop k (en_set e).
Proof.
  rewrite !entry_ok_diff. intros [Hnd Hd] Hx Hk. unfold entry_insert. rewrite vec_insert_ok by done. eexists. split; [done|].
  rewrite entry_ok_diff, mark_addition_set. cbn [en_set with_set]. rewrite <-(take_drop k (en_set e)) in Hnd, Hd, Hx.
  split_and!; [|..|done].
  - apply NoDup_app in Hnd as (? & ? & ?). rewrite NoDup_app, NoDup_cons. split_and!; [done|set_solver..|done].
  - replace (list_to_set (take k (en_set e) ++ x :: drop k (en_set e))) with
      ({[x]} ∪ list_to_set (take k (en_set e) ++ drop k (en_set e)) : gset hash) by (rewrite !list_to_set_app_L; set_solver).
    apply mark_addition_ok; [done|set_solver].
Qed.

Lemma entry_replace_ok B e x k l :
  entry_ok B e -> en_set e !! k = Some x -> NoDup (take k (en_set e) ++ l ++ drop (S k) (en_set e)) ->
  exists e', entry_replace (E := StoreError) e x k l = Ok e' /\ entry_ok B e' /\
    en_set e' = take k (en_set e) ++ l ++ drop (S k) (en_set e).
Proof.
  rewrite !entry_ok_diff. intros [Hnd Hd] Hk Hnd'. unfold entry_replace. erewrite vec_splice_ok by done. eexists. split; [done|].
  rewrite entry_ok_diff, mark_additions_set, mark_deletion_set. cbn [en_set with_set]. split_and!; [done| |done].
  assert (list_to_set (en_set e) ∖ {[x]} = (list_to_set (take k (en_set e)) ∪ list_to_set (drop (S k) (en_set e)) : gset hash)) as Hx.
  { rewrite <-(take_drop_middle _ _ _ Hk) in Hnd. rewrite <-(take_drop_middle _ _ _ Hk) at 1. rewrite list_to_set_app_L.
    apply NoDup_app in Hnd as (_ & H1 & [H2 _]%NoDup_cons). set_solver. }
  apply NoDup_app in Hnd' as (_ & H1 & (H2 & H3 & _)%NoDup_app).
  replace (list_to_set (take k (en_set e) ++ l ++ drop (S k) (en_set e))) with
    (list_to_set l ∪ (list_to_set (en_set e) ∖ {[x]}) : gset hash) by (rewrite Hx, !list_to_set_app_L; set_solver).
  apply mark_additions_ok; [|done|rewrite Hx; set_solver].
  apply mark_deletion_ok; [done|]. rewrite elem_of_list_to_set. by eapply list_elem_of_lookup_2.
Qed.

(** * The staging store *)

Definition ok_list (r : result (fault StoreError) (list hash)) : list hash :=
  match r with Ok l => l | Err _ => [] end.

Definition base_children (db : DbReachabilityStore) (h : hash) : list hash := ok_list (db_get_children db h).
Definition base_fcs (db : DbReachabilityStore) (h : hash) : list hash := ok_list (db_get_future_covering_set db h).

(** Reading a set succeeds with the elements of its bucket. *)
Record set_ok (r : result (fault StoreError) (list hash)) (B : gset hash) : Prop := {
  so_read : r = Ok (ok_list r);
  so_nodup : NoDup (ok_list r);
  so_bucket : list_to_set (ok_list r) = B;
}.

Record db_ok (db : DbReachabilityStore) : Prop := {
  dk_children : forall h, set_ok (db_get_children db h) (bucket (db_children db) h);
  dk_fcs : forall h, set_ok (db_get_future_covering_set db h) (bucket (db_fcs db) h);
  dk_orphan : forall h, db_access db !! h = None -> bucket (db_children db) h = ∅ /\ bucket (db_fcs db) h = ∅;
}.

Definition stg_children (s : StagingReachabilityStore) (h : hash) : list hash :=
  match staging_children s !! h with Some e => en_set e | None => base_children (store_read s) h end.
Definition stg_fcs (s : StagingReachabilityStore) (h : hash) : list hash :=
  match staging_fcs s !! h with Some e => en_set e | None => base_fcs (store_read s) h end.
Definition stg_data (s : StagingReachabilityStore) (h : hash) : option ReachabilityData :=
  match staging_writes s !! h with Some d => Some d | None => db_access (store_read s) !! h end.

Definition stg_block (s : StagingReachabilityStore) (h : hash) (d : ReachabilityData) : MemoryReachabilityData :=
  mk_data (stg_children s h) (rp_parent d) (rp_interval d) (rp_height d) (stg_fcs s h).

Definition stg_view (s : StagingReachabilityStore) : blocks :=
  map_imap (fun h d => if bool_decide (h ∈ staging_deletions s) then None else Some (stg_block s h d))
    (staging_writes s ∪ db_access (store_read s)).

Record stg_ok (s : StagingReachabilityStore) : Prop := {
  sk_db : db_ok (store_read s);
  sk_children : forall h e, staging_children s !! h = Some e -> entry_ok (bucket (db_children (store_read s)) h) e;
  sk_fcs : forall h e, staging_fcs s !! h = Some e -> entry_ok (bucket (db_fcs (store_read s)) h) e;
  sk_staged : forall h, is_Some (staging_children s !! h) \/ is_Some (staging_fcs s !! h) ->
    is_Some (stg_data s h) \/ h ∈ staging_deletions s;
}.

Definition stg_fresh (s : StagingReachabilityStore) (h : hash) : Prop :=
  stg_data s h = None /\ (h ∉ staging_deletions s) /\ stg_children s h = [] /\ stg_fcs s h = [].

Definition stg_root (s : StagingReachabilityStore) : option hash :=
  match staging_reindex_root s with Some r => Some r | None => db_reindex_root (store_read s) end.

Lemma stg_view_lookup s h :
  stg_view s !! h = if bool_decide (h ∈ staging_deletions s) then None else stg_block s h <$> stg_data s h.
Proof.
  unfold stg_view, stg_data. rewrite map_lookup_imap, lookup_union.
  destruct (staging_writes s !! h), (db_access (store_read s) !! h); simpl; by case_bool_decide.
Qed.

Lemma stg_view_Some s h d : stg_view s !! h = Some d ->
  (h ∉ staging_deletions s) /\ exists r, stg_data s h = Some r /\ d = stg_block s h r.
Proof.
  rewrite stg_view_lookup. case_bool_decide; [done|]. destruct (stg_data s h) as [r|]; [|done]. intros. simplify_eq/=. eauto.
Qed.

Lemma stg_read_ok s h r : stg_data s h = Some r -> stg_read s h = Ok r.
Proof. unfold stg_data, stg_read, db_read. destruct (staging_writes s !! h); [congruence|]. by intros ->. Qed.

Lemma stg_get_ok {A} s h d (f : ReachabilityData -> A) : stg_view s !! h = Some d ->
  exists r, d = stg_block s h r /\ stg_get s h f = Ok (f r).
Proof.
  intros (Hd & r & Hr & ->)%stg_view_Some. exists r. split; [done|]. unfold stg_get, check_not_in_deletions.
  rewrite bool_decide_false by done. cbn [mbind result_bind]. by rewrite (stg_read_ok s h r Hr).
Qed.

(** A change of the data of one block. *)
Lemma stg_updated_data s h d r f :
  stg_ok s -> stg_view s !! h = Some d -> stg_data s h = Some r ->
  exists s', stg_modify h f s = (s', Ok tt) /\ stg_ok s' /\ stg_view s' = <[h := stg_block s h (f r)]> (stg_view s) /\
    stg_root s' = stg_root s /\ forall x, stg_fresh s x -> stg_fresh s' x.
Proof.
  intros [H1 H2 H3 H4] E Hr. unfold stg_modify. rewrite (stg_read_ok s h r Hr). eexists. split_and!; [done|split; [done..|]| |done|].
  - intros x [?|?]%H4; [left|auto]. unfold stg_data in *. cbn. destruct (decide (x = h)) as [->|Hne].
    + rewrite lookup_insert_eq. eauto.
    + by rewrite lookup_insert_ne.
  - apply map_eq. intros x. rewrite stg_view_lookup. cbn [staging_deletions with_writes]. apply stg_view_Some in E as (Hd & _).
    unfold stg_data. cbn [staging_writes with_writes store_read]. destruct (decide (x = h)) as [->|Hne].
    + by rewrite bool_decide_false, !lookup_insert_eq.
    + by rewrite !lookup_insert_ne, stg_view_lookup.
  - intros x (Hx & ?). split; [|done]. unfold stg_data in *. cbn [staging_writes with_writes store_read].
    rewrite lookup_insert_ne; [done|]. intros ->. congruence.
Qed.

Lemma staged_children_ok s h : stg_ok s ->
  exists e, staged_entry (staging_children s) (db_get_children (store_read s) h) h = Ok e /\
    entry_ok (bucket (db_children (store_read s)) h) e /\ en_set e = stg_children s h.
Proof.
  intros [Hdb Hc _ _]. unfold staged_entry, stg_children. destruct (staging_children s !! h) as [e|] eqn:E; [eauto|].
  destruct (dk_children _ Hdb h) as [Hr Hnd Hb]. rewrite Hr. eexists. split_and!; [done| |done]. rewrite <-Hb. by apply entry_new_ok.
Qed.

Lemma staged_fcs_ok s h : stg_ok s ->
  exists e, staged_entry (staging_fcs s) (db_get_future_covering_set (store_read s) h) h = Ok e /\
    entry_ok (bucket (db_fcs (store_read s)) h) e /\ en_set e = stg_fcs s h.
Proof.
  intros [Hdb _ Hc _]. unfold staged_entry, stg_fcs. destruct (staging_fcs s !! h) as [e|] eqn:E; [eauto|].
  destruct (dk_fcs _ Hdb h) as [Hr Hnd Hb]. rewrite Hr. eexists. split_and!; [done| |done]. rewrite <-Hb. by apply entry_new_ok.
Qed.

Lemma stg_updated_children s h d f l :
  stg_ok s -> stg_view s !! h = Some d ->
  (forall e, entry_ok (bucket (db_children (store_read s)) h) e -> en_set e = rd_children d ->
     exists e', f e = Ok e' /\ entry_ok (bucket (db_children (store_read s)) h) e' /\ en_set e' = l) ->
  exists s', stg_update_children h f s = (s', Ok tt) /\ stg_ok s' /\ stg_view s' = <[h := with_children d l]> (stg_view s) /\
    stg_root s' = stg_root s /\ forall x, stg_fresh s x -> stg_fresh s' x.
Proof.
  intros Hok E Hf. pose proof E as (Hd & r & Hr & ->)%stg_view_Some. destruct (staged_children_ok s h Hok) as (e & He & Heo & Hes).
  destruct (Hf e Heo Hes) as (e' & Hfe & Heo' & <-). unfold stg_update_children. rewrite He. cbn [mbind result_bind]. rewrite Hfe.
  eexists. split_and!; [done| | |done|].
  - destruct Hok as [H1 H2 H3 H4]. split; [done| |done|]; cbn; intros x; destruct (decide (x = h)) as [->|Hne].
    + intros ex. rewrite lookup_insert_eq. intros [= <-]. done.
    + rewrite lookup_insert_ne by done. apply H2.
    + intros _. left. unfold stg_data in *. cbn. eauto.
    + rewrite lookup_insert_ne by done. apply H4.
  - apply map_eq. intros x. rewrite stg_view_lookup. cbn [staging_deletions with_staged_children].
    assert (Hdata : forall y, stg_data (with_staged_children s (<[h:=e']> (staging_children s))) y = stg_data s y) by done.
    rewrite Hdata. unfold stg_block, stg_children. cbn [staging_children with_staged_children store_read].
    destruct (decide (x = h)) as [->|Hne].
    + by rewrite bool_decide_false, !lookup_insert_eq, Hr.
    + by rewrite !lookup_insert_ne, stg_view_lookup.
  - intros x (Hx & Hxd & Hxc & Hxf). split_and!; [done..| |done]. unfold stg_children. cbn.
    rewrite lookup_insert_ne; [done|]. intros ->. congruence.
Qed.

Lemma stg_updated_fcs s h d f l :
  stg_ok s -> stg_view s !! h = Some d ->
  (forall e, entry_ok (bucket (db_fcs (store_read s)) h) e -> en_set e = rd_fcs d ->
     exists e', f e = Ok e' /\ entry_ok (bucket (db_fcs (store_read s)) h) e' /\ en_set e' = l) ->
  exists s', stg_update_fcs h f s = (s', Ok tt) /\ stg_ok s' /\ stg_view s' = <[h := with_fcs d l]> (stg_view s) /\
    stg_root s' = stg_root s /\ forall x, stg_fresh s x -> stg_fresh s' x.
Proof.
  intros Hok E Hf. pose proof E as (Hd & r & Hr & ->)%stg_view_Some. destruct (staged_fcs_ok s h Hok) as (e & He & Heo & Hes).
  destruct (Hf e Heo Hes) as (e' & Hfe & Heo' & <-). unfold stg_update_fcs. rewrite He. cbn [mbind result_bind]. rewrite Hfe.
  eexists. split_and!; [done| | |done|].
  - destruct Hok as [H1 H2 H3 H4]. split; [done|done|..]; cbn; intros x; destruct (decide (x = h)) as [->|Hne].
    + intros ex. rewrite lookup_insert_eq. intros [= <-]. done.
    + rewrite lookup_insert_ne by done. apply H3.
    + intros _. left. unfold stg_data in *. cbn. eauto.
    + rewrite lookup_insert_ne by done. apply H4.
  - apply map_eq. intros x. rewrite stg_view_lookup. cbn [staging_deletions with_staged_fcs].
    assert (Hdata : forall y, stg_data (with_staged_fcs s (<[h:=e']> (staging_fcs s))) y = stg_data s y) by done.
    rewrite Hdata. unfold stg_block, stg_fcs. cbn [staging_fcs with_staged_fcs store_read].
    destruct (decide (x = h)) as [->|Hne].
    + by rewrite bool_decide_false, !lookup_insert_eq, Hr.
    + by rewrite !lookup_insert_ne, stg_view_lookup.
  - intros x (Hx & Hxd & Hxc & Hxf). split_and!; [done..|]. unfold stg_fcs. cbn.
    rewrite lookup_insert_ne; [done|]. intros ->. congruence.
Qed.

Lemma stg_inserted s h p i n :
  stg_ok s -> stg_fresh s h ->
  exists s', stg_insert h p i n s = (s', Ok tt) /\ stg_ok s' /\ stg_view s' = <[h := data_new p i n]> (stg_view s) /\
    stg_root s' = stg_root s /\ forall x, x <> h -> stg_fresh s x -> stg_fresh s' x.
Proof.
  intros [H1 H2 H3 H4] (Hx & Hd & Hc & Hf). unfold stg_data in Hx. unfold stg_insert, db_has.
  destruct (staging_writes s !! h) eqn:Ew; [done|]. rewrite Hx, bool_decide_false by (by intros []).
  eexists. split_and!; [done|split; [done..|]| |done|].
  - intros x [?|?]%H4; [left|auto]. unfold stg_data in *. cbn. destruct (decide (x = h)) as [->|Hne].
    + rewrite lookup_insert_eq. eauto.
    + by rewrite lookup_insert_ne.
  - apply map_eq. intros x. rewrite stg_view_lookup. cbn [staging_deletions with_writes]. unfold stg_data.
    cbn [staging_writes with_writes store_read]. destruct (decide (x = h)) as [->|Hne].
    + rewrite bool_decide_false, !lookup_insert_eq by done. cbn. unfold stg_block, data_new. cbn. f_equal. f_equal.
      * exact Hc.
      * exact Hf.
    + by rewrite !lookup_insert_ne, stg_view_lookup.
  - intros x Hne (Hx' & ?). split; [|done]. unfold stg_data in *. cbn. by rewrite lookup_insert_ne.
Qed.

#[export] Program Instance staging_laws : ReachabilityStoreLaws StagingReachabilityStore := {|
  view := stg_view;
  root_of := stg_root;
  store_ok := stg_ok;
  fresh := stg_fresh;
|}.
Next Obligation. intros s h _ (Hd & _). rewrite stg_view_lookup, Hd. by case_bool_decide. Qed.
Next Obligation.
  intros s h _ [d (Hd & r & Hr & _)%stg_view_Some]. simpl. unfold stg_has. rewrite bool_decide_false by done.
  unfold stg_data in Hr. destruct (staging_writes s !! h); [done|]. rewrite bool_decide_false by (by intros []).
  unfold db_has. by rewrite Hr, bool_decide_true.
Qed.
Next Obligation.
  intros s h _ (Hx & Hd & _). simpl. unfold stg_has. rewrite bool_decide_false by done. unfold stg_data in Hx.
  destruct (staging_writes s !! h); [done|]. rewrite bool_decide_false by (by intros []). unfold db_has.
  by rewrite Hx, bool_decide_false by (by intros []).
Qed.
Next Obligation.
  intros s h i Hok Hf. destruct (stg_inserted s h NONE i 0 Hok Hf) as (s1 & Hr & [H1 H2 H3 H4] & Hv & _ & Hf1).
  simpl. unfold stg_init. erewrite st_bind_run by exact Hr. eexists. by split_and!.
Qed.
Next Obligation. intros s h d _ E. destruct (stg_get_ok s h d rp_interval E) as (r & -> & H). exact H. Qed.
Next Obligation. intros s h d _ E. destruct (stg_get_ok s h d rp_parent E) as (r & -> & H). exact H. Qed.
Next Obligation.
  intros s h d Hok (Hd & r & Hr & ->)%stg_view_Some. simpl. unfold stg_get_children, check_not_in_deletions.
  rewrite bool_decide_false by done. simpl. unfold stg_children. destruct (staging_children s !! h); [done|].
  apply (so_read _ _ (dk_children _ (sk_db _ Hok) h)).
Qed.
Next Obligation.
  intros s h d Hok (Hd & r & Hr & ->)%stg_view_Some. simpl. unfold stg_get_future_covering_set, check_not_in_deletions.
  rewrite bool_decide_false by done. simpl. unfold stg_fcs. destruct (staging_fcs s !! h); [done|].
  apply (so_read _ _ (dk_fcs _ (sk_db _ Hok) h)).
Qed.
Next Obligation. intros s h d _ E. destruct (stg_get_ok s h d rp_height E) as (r & -> & H). exact H. Qed.
Next Obligation.
  intros s h _ E. simpl. unfold stg_root in E. unfold stg_get_reindex_root, db_get_reindex_root.
  destruct (staging_reindex_root s); [congruence|]. by rewrite E.
Qed.
Next Obligation. intros s h p i n Hok Hf. by apply stg_inserted. Qed.
Next Obligation.
  intros s h d i Hok E. pose proof E as (Hd & r & Hr & ->)%stg_view_Some.
  exact (stg_updated_data s h _ r (fun d => mk_rdata (rp_parent d) i (rp_height d)) Hok E Hr).
Qed.
Next Obligation.
  intros s h d c Hok E Hc. apply stg_updated_children; [done..|]. intros e He Hs. eexists. split; [done|].
  rewrite <-Hs. apply entry_append_ok; [done|by rewrite Hs].
Qed.
Next Obligation.
  intros s h d c k Hok E Hk Hc. apply stg_updated_fcs; [done..|]. intros e He Hs. rewrite <-Hs in *. by apply entry_insert_ok.
Qed.
Next Obligation.
  intros s h d q Hok E. pose proof E as (Hd & r & Hr & ->)%stg_view_Some.
  exact (stg_updated_data s h _ r (fun d => mk_rdata q (rp_interval d) (rp_height d)) Hok E Hr).
Qed.
Next Obligation.
  intros s h d c k cs Hok E Hk Hnd. apply stg_updated_children; [done..|]. intros e He Hs. rewrite <-Hs in *.
  by apply entry_replace_ok.
Qed.
Next Obligation.
  intros s h d c k cs Hok E Hk Hnd. apply stg_updated_fcs; [done..|]. intros e He Hs. rewrite <-Hs in *.
  by apply entry_replace_ok.
Qed.
Next Obligation.
  intros s h d [H1 H2 H3 H4] (Hd & r & Hr & ->)%stg_view_Some. eexists. split_and!; [done|split; [done..|]| |done|].
  - intros x Hx. destruct (decide (x = h)) as [->|Hne]; [right; set_solver|].
    apply H4 in Hx as [?|?]; [left|right; set_solver]. unfold stg_data in *. cbn. by rewrite lookup_delete_ne.
  - apply map_eq. intros x. rewrite stg_view_lookup. cbn [staging_deletions]. destruct (decide (x = h)) as [->|Hne].
    + rewrite lookup_delete_eq. by rewrite bool_decide_true by set_solver.
    + rewrite lookup_delete_ne, stg_view_lookup by done. unfold stg_data, stg_block, stg_children, stg_fcs. cbn.
      rewrite lookup_delete_ne by done. by rewrite (bool_decide_ext (x ∈ {[h]} ∪ staging_deletions s) (x ∈ staging_deletions s)) by set_solver.
  - intros x (Hx & Hxd & Hxc & Hxf). assert (x <> h) by (intros ->; congruence). split_and!; [|set_solver|done..].
    unfold stg_data in *. cbn. by rewrite lookup_delete_ne.
Qed.
Next Obligation. intros s h [H1 H2 H3 H4]. eexists. by split_and!. Qed.
