(* ===== verification/ReachCount.v ===== *)
(** [count_subtrees]: the breadth-first count of all subtrees below a block
    terminates and computes the size of every subtree, as the recursive
    definition in the comment of the code does. *)

From S2P Require Import Prelude Access Interval Reach ReachTree ReachQueries.

(** * The cache of sizes

    Every cached size below the root of [t] is right, and a cached block has
    its children cached. *)
Definition sizes_ok (t : rtree) (sz : gmap hash Z) : Prop :=
  forall ta, ta ∈ subtrees t -> is_Some (sz !! label ta) ->
    sz !! label ta = Some (Z.of_nat (tsize ta)) /\ forall k, k ∈ kids ta -> is_Some (sz !! label k).

Lemma sizes_ok_empty t : sizes_ok t ∅.
Proof. intros ta _ [? H]. by rewrite lookup_empty in H. Qed.

(** A cached block has all sizes below it cached. *)
Lemma sizes_ok_below t sz tb ta :
  sizes_ok t sz -> tb ∈ subtrees t -> is_Some (sz !! label tb) -> ta ∈ subtrees tb ->
  sz !! label ta = Some (Z.of_nat (tsize ta)).
Proof.
  intros Hok. induction tb as [h ts IH] using rtree_ind'. intros Hb Hk Hin.
  apply subtrees_node in Hin as [->|(t1 & H1 & H2)].
  - by apply Hok.
  - rewrite Forall_forall in IH. apply (IH t1 H1); [|by apply (Hok _ Hb Hk)|done].
    by eapply subtrees_kid_of.
Qed.

(** Kids that are counted: cached and not pending. *)
Definition counted (sz : gmap hash Z) (pend : list hash) (k : rtree) : Prop :=
  (label k ∉ pend) /\ is_Some (sz !! label k).

#[export] Instance counted_dec sz pend k : Decision (counted sz pend k).
Proof. unfold counted. apply _. Defined.

Lemma filter_ext_in {A} (P P' : A -> Prop) `{forall x, Decision (P x), forall x, Decision (P' x)} (l : list A) :
  (forall x, x ∈ l -> P x <-> P' x) -> filter P l = filter P' l.
Proof.
  induction l as [|x l IH]; [done|]. intros Heq. rewrite !filter_cons, IH by (intros; apply Heq; by right).
  specialize (Heq x ltac:(by left)). do 2 destruct (decide _); tauto || done.
Qed.

Lemma filter_length_all {A} (P : A -> Prop) `{forall x, Decision (P x)} (l : list A) :
  (length l <= length (filter P l))%nat -> forall x, x ∈ l -> P x.
Proof.
  induction l as [|y l IH]; [by intros _ ? ?%elem_of_nil|]. rewrite filter_cons. destruct (decide (P y)); simpl.
  - intros Hl x [->|Hx]%elem_of_cons; [done|]. apply IH; [lia|done].
  - pose proof (length_filter P l). lia.
Qed.

Lemma filter_length_add (P P' : rtree -> Prop) `{forall x, Decision (P x), forall x, Decision (P' x)} l x :
  NoDup (map label l) -> x ∈ l -> P' x -> ~ P x ->
  (forall z, z ∈ l -> label z <> label x -> (P z <-> P' z)) ->
  length (filter P' l) = S (length (filter P l)).
Proof.
  induction l as [|y l IH]; [by intros _ ?%elem_of_nil|]. intros [Hy Hnd]%NoDup_cons Hx HP' HP Heq.
  assert (forall z, z ∈ l -> label z <> label y) as Hne.
  { intros z Hz E. apply Hy. rewrite <-E. apply list_elem_of_In, in_map. by apply list_elem_of_In. }
  apply elem_of_cons in Hx as [<-|Hx].
  - rewrite (filter_cons_True P'), (filter_cons_False P) by done. simpl. f_equal. f_equal.
    apply filter_ext_in. intros z Hz. symmetry. apply Heq; [by right|auto].
  - assert (label y <> label x) as Hyx by (by apply not_eq_sym, Hne).
    specialize (IH Hnd Hx HP' HP ltac:(intros; apply Heq; [by right|done])).
    destruct (decide (P y)) as [Hd|Hd].
    + rewrite (filter_cons_True P), (filter_cons_True P') by (done || (apply Heq; [by left|done|done])). simpl. by f_equal.
    + rewrite (filter_cons_False P), (filter_cons_False P'); [done| |done]. intros HP1. apply Hd, Heq; [by left|done..].
Qed.

Lemma counted_insert sz l n pend k :
  counted (<[l := n]> sz) (l :: pend) k <-> label k <> l /\ counted sz pend k.
Proof.
  unfold counted. rewrite elem_of_cons. destruct (decide (label k = l)) as [->|Hne].
  - split; [intros [H _]; exfalso; apply H; by left|naive_solver].
  - rewrite lookup_insert_ne by done. naive_solver.
Qed.

Section count.
Context {T : Type} `{RS : ReachabilityStore T, RL : !ReachabilityStoreLaws T}.
Context (s : T) (p : hash) (t tb : rtree) (slack : Z).
Hypothesis Hok : store_ok s.
Hypothesis Hshape : shape (view s) p t.
Hypothesis Hnd : NoDup (nodes t).
Hypothesis Hbound : Z.of_nat (tsize t) < 2 ^ 64.
Hypothesis Htb : tb ∈ subtrees t.

(** [Q] is the queue, [E] the blocks whose children were enqueued, [pend] the
    blocks whose size is not yet pushed up. *)
Record count_inv (Q E : list rtree) (pend : list hash) (sz counts : gmap hash Z) : Prop := {
  ci_sub : forall x, x ∈ Q \/ x ∈ E -> x ∈ subtrees tb;
  ci_nodup : NoDup (map label Q);
  ci_disj : forall x, x ∈ Q -> x ∉ E;
  ci_kids : forall x, x ∈ E -> kids x <> [];
  ci_cover : forall x k, x ∈ E -> k ∈ kids x -> k ∈ Q \/ k ∈ E \/ is_Some (sz !! label k);
  ci_parent : forall x, x ∈ Q \/ x ∈ E -> x = tb \/ exists y, y ∈ E /\ x ∈ kids y;
  ci_count : forall x, x ∈ E -> sz !! label x = None ->
    default 0 (counts !! label x) = Z.of_nat (length (filter (counted sz pend) (kids x))) /\
    (length (filter (counted sz pend) (kids x)) < length (kids x))%nat;
  ci_known : forall x k, x ∈ E -> is_Some (sz !! label x) -> k ∈ kids x -> counted sz pend k;
  ci_unseen : forall x, x ∈ subtrees tb -> x ∉ E -> counts !! label x = None;
  ci_root : tb ∈ Q \/ tb ∈ E \/ is_Some (sz !! label tb);
  ci_sizes : sizes_ok t sz;
}.

Lemma sub_tb x : x ∈ subtrees tb -> x ∈ subtrees t.
Proof. intros H. by eapply subtrees_trans. Qed.

Lemma tb_not_kid y : y ∈ subtrees tb -> tb ∉ kids y.
Proof. intros Hy Hk%tsize_kid. pose proof (tsize_sub _ _ Hy). lia. Qed.

Lemma tb_label_inj x y : x ∈ subtrees tb -> y ∈ subtrees tb -> label x = label y -> x = y.
Proof. intros Hx Hy. eapply label_inj; [exact Hnd|by apply sub_tb..]. Qed.

Lemma tb_parent_unique y y' k : y ∈ subtrees tb -> y' ∈ subtrees tb -> k ∈ kids y -> k ∈ kids y' -> y = y'.
Proof. intros Hy Hy'. eapply parent_unique; [exact Hnd|exact Hshape|by apply sub_tb..]. Qed.

Lemma tb_kid x y : y ∈ subtrees tb -> x ∈ kids y -> x ∈ subtrees tb.
Proof. apply subtrees_kid_of. Qed.

Lemma tb_kids_nodup y : y ∈ subtrees tb -> NoDup (map label (kids y)).
Proof. intros Hy. eapply NoDup_kids, NoDup_sub; [exact Hnd|by apply sub_tb]. Qed.

Lemma kids_bound y : y ∈ subtrees tb -> Z.of_nat (length (kids y)) < 2 ^ 64.
Proof.
  intros Hy%sub_tb%tsize_sub. enough (length (kids y) <= tsize y)%nat by lia.
  destruct y as [h ts]. rewrite tsize_node. simpl. clear. induction ts as [|x ts IH]; simpl; [lia|].
  pose proof (tsize_pos x). lia.
Qed.

(** Setting the size of a pending leaf. *)
Lemma count_inv_leaf x Q E sz counts :
  kids x = [] -> count_inv (x :: Q) E (label x :: map label Q) sz counts ->
  count_inv (x :: Q) E (label x :: map label Q) (<[label x := 1]> sz) counts.
Proof.
  intros Hx [Hsub Hn Hdisj Hkids Hcov Hpar Hcnt Hkn Hun Hroot Hsz].
  assert (Hc : forall k, counted (<[label x := 1]> sz) (label x :: map label Q) k <->
                         counted sz (label x :: map label Q) k).
  { intros k. rewrite counted_insert. unfold counted. rewrite not_elem_of_cons. naive_solver. }
  assert (Hne : forall y, y ∈ E -> label y <> label x).
  { intros y Hy E0. apply (Hdisj x); [by left|]. replace x with y; [done|].
    apply tb_label_inj; [apply Hsub; by right|apply Hsub; left; by left|done]. }
  assert (Hmono : forall l, is_Some (sz !! l) -> is_Some (<[label x := 1]> sz !! l)).
  { intros l. rewrite lookup_insert_is_Some'. by right. }
  split; try done.
  - intros y k Hy Hk. destruct (Hcov y k Hy Hk) as [?|[?|?]]; eauto.
  - intros y Hy Hs. rewrite lookup_insert_ne in Hs by (by apply not_eq_sym, Hne).
    rewrite (filter_ext_in _ _ (kids y) (fun k _ => Hc k)). by apply Hcnt.
  - intros y k Hy Hs Hk. rewrite lookup_insert_ne in Hs by (by apply not_eq_sym, Hne). apply Hc. by eapply Hkn.
  - destruct Hroot as [?|[?|?]]; eauto.
  - intros y Hy Hs. destruct (decide (label y = label x)) as [Exy|Hxy].
    + assert (y = x) as -> by (eapply label_inj; [exact Hnd|done|apply sub_tb, Hsub; left; by left|done]).
      rewrite lookup_insert_eq, Hx. split; [|by intros ? ?%elem_of_nil].
      destruct x as [h ts]. simpl in Hx. subst ts. done.
    + rewrite lookup_insert_ne in Hs |- * by done. destruct (Hsz y Hy Hs) as [H1 H2].
      split; [done|]. intros k Hk. by apply Hmono, H2.
Qed.

(** Taking a cached block from the queue makes it the pending one. *)
Lemma count_inv_pop x Q E sz counts :
  is_Some (sz !! label x) -> count_inv (x :: Q) E (label x :: map label Q) sz counts ->
  count_inv Q E (label x :: map label Q) sz counts.
Proof.
  intros Hx [Hsub Hn Hdisj Hkids Hcov Hpar Hcnt Hkn Hun Hroot Hsz]. split; try done.
  - intros y [?|?]; apply Hsub; [left; by right|by right].
  - by apply NoDup_cons in Hn as [_ ?].
  - intros y Hy. apply Hdisj. by right.
  - intros y k Hy Hk. destruct (Hcov y k Hy Hk) as [[->|?]%elem_of_cons|?]; auto.
  - intros y [?|?]; apply Hpar; [left; by right|by right].
  - destruct Hroot as [[->|?]%elem_of_cons|?]; auto.
Qed.

(** Expanding an internal block that is not cached. *)
(** Expanding [x]: its children are new to the walk ... *)
Lemma expand_kids_new x Q E pend sz counts :
  count_inv (x :: Q) E pend sz counts -> (forall y k, y ∈ E -> k ∈ kids y -> k ∉ kids x) /\
  forall k, k ∈ kids x -> (k ∉ Q) /\ (k ∉ E).
Proof.
  intros [Hsub _ Hdisj _ _ Hpar _ _ _ _ _]. assert (x ∉ E) as HxE by (apply Hdisj; by left).
  assert (HkE : forall y k, y ∈ E -> k ∈ kids y -> k ∉ kids x).
  { intros y k Hy Hk Hk'. apply HxE. replace x with y; [done|].
    eapply tb_parent_unique; [apply Hsub; by right|apply Hsub; left; by left|done..]. }
  split; [done|]. intros k Hk. assert (~ (k ∈ x :: Q \/ k ∈ E)) as Hno.
  { intros H. destruct (Hpar k H) as [->|(y & Hy & Hky)]; [|by eapply HkE].
    eapply tb_not_kid; [apply (Hsub x); left; by left|done]. }
  split; intros H; apply Hno; [left; by right|by right].
Qed.

Lemma expand_pending x Q E pend sz counts k :
  count_inv (x :: Q) E pend sz counts -> k ∈ subtrees tb -> label k ∈ map label (Q ++ kids x) <-> k ∈ Q \/ k ∈ kids x.
Proof.
  intros [Hsub _ _ _ _ _ _ _ _ _ _] Hk. rewrite list_elem_of_In, in_map_iff. split.
  - intros (k' & El & Hk'%list_elem_of_In%elem_of_app). replace k with k'; [done|].
    apply tb_label_inj; [|done|done]. destruct Hk' as [?|?]; [apply Hsub; left; by right|].
    apply (tb_kid _ x); [apply Hsub; left; by left|done].
  - intros H. exists k. split; [done|]. by apply list_elem_of_In, elem_of_app.
Qed.

(** ... and the counts of the blocks above do not change. *)
Lemma expand_counted x Q E pend sz counts y k :
  sz !! label x = None -> count_inv (x :: Q) E pend sz counts -> y ∈ E -> k ∈ kids y ->
  counted sz (label x :: map label Q) k <-> counted sz (map label (Q ++ kids x)) k.
Proof.
  intros Hs Hinv Hy Hk. destruct (expand_kids_new _ _ _ _ _ _ Hinv) as [HkE _]. pose proof (ci_sub _ _ _ _ _ Hinv) as Hsub.
  assert (k ∈ subtrees tb) as Hks by (apply (tb_kid k y); [apply Hsub; by right|done]).
  unfold counted. rewrite not_elem_of_cons, (expand_pending _ _ _ _ _ _ k Hinv Hks). split.
  - intros [[_ H1] H2]. split; [|done]. intros [H|H]; [|by eapply HkE].
    apply H1, list_elem_of_In, in_map. by apply list_elem_of_In.
  - intros [H1 H2]. split_and!; [|..|done].
    + intros El. rewrite El, Hs in H2. by destruct H2.
    + intros (k' & El & Hk')%list_elem_of_In%in_map_iff. apply H1. left.
      apply list_elem_of_In in Hk'. replace k with k'; [done|].
      apply tb_label_inj; [apply Hsub; left; by right|done|done].
Qed.

Lemma count_inv_expand x Q E sz counts :
  kids x <> [] -> sz !! label x = None -> count_inv (x :: Q) E (label x :: map label Q) sz counts ->
  count_inv (Q ++ kids x) (x :: E) (map label (Q ++ kids x)) sz counts.
Proof.
  intros Hx Hs Hinv. destruct (expand_kids_new _ _ _ _ _ _ Hinv) as [HkE HkQ].
  pose proof (fun k Hk => expand_pending _ _ _ _ _ _ k Hinv Hk) as Hlab.
  pose proof (fun y k Hy Hk => expand_counted _ _ _ _ _ _ y k Hs Hinv Hy Hk) as Hc.
  destruct Hinv as [Hsub Hn Hdisj Hkids Hcov Hpar Hcnt Hkn Hun Hroot Hsz].
  assert (x ∈ subtrees tb) as Hxs by (apply Hsub; left; by left). assert (x ∉ E) as HxE by (apply Hdisj; by left).
  split.
  - intros y [[?|?]%elem_of_app|[->|?]%elem_of_cons]; [apply Hsub; left; by right|by apply (tb_kid _ x)|done|apply Hsub; by right].
  - rewrite map_app. apply NoDup_app. split_and!; [by apply NoDup_cons in Hn as [_ ?]| |by apply tb_kids_nodup].
    intros l (z & <- & Hz)%list_elem_of_In%in_map_iff (k & El & Hk)%list_elem_of_In%in_map_iff.
    apply list_elem_of_In in Hz, Hk. apply (proj1 (HkQ k Hk)). replace k with z; [done|].
    apply tb_label_inj; [apply Hsub; left; by right|by apply (tb_kid _ x)|done].
  - intros y [Hy|Hy]%elem_of_app [->|HE]%elem_of_cons.
    + apply NoDup_cons in Hn as [Hn _]. apply Hn, list_elem_of_In, in_map. by apply list_elem_of_In.
    + eapply Hdisj; [by right|done].
    + apply tsize_kid in Hy. lia.
    + by apply (proj2 (HkQ y Hy)).
  - intros y [->|?]%elem_of_cons; auto.
  - intros y k [->|Hy]%elem_of_cons Hk; [left; apply elem_of_app; by right|].
    destruct (Hcov y k Hy Hk) as [[->|?]%elem_of_cons|[?|?]]; [right; left; by left| |right; left; by right|by right; right].
    left. apply elem_of_app. by left.
  - intros y Hy. assert (y ∈ x :: Q \/ y ∈ E \/ y ∈ kids x) as [H|[H|H]].
    { destruct Hy as [[?|?]%elem_of_app|[->|?]%elem_of_cons]; [left; by right|by right; right|left; by left|by right; left]. }
    + destruct (Hpar y (or_introl H)) as [?|(z & ? & ?)]; [by left|right]. exists z. split; [by right|done].
    + destruct (Hpar y (or_intror H)) as [?|(z & ? & ?)]; [by left|right]. exists z. split; [by right|done].
    + right. exists x. split; [by left|done].
  - intros y [->|Hy]%elem_of_cons Hsy.
    + rewrite (Hun x Hxs HxE). assert (filter (counted sz (map label (Q ++ kids x))) (kids x) = []) as ->.
      { apply filter_none, Forall_forall. intros k Hk [H _]. apply H. apply Hlab; [by apply (tb_kid _ x)|by right]. }
      split; [done|]. destruct (kids x); [done|simpl; lia].
    + destruct (Hcnt y Hy Hsy) as [H1 H2].
      by rewrite <-(filter_ext_in _ _ (kids y) (fun k Hk => Hc y k Hy Hk)).
  - intros y k [->|Hy]%elem_of_cons Hsy Hk; [rewrite Hs in Hsy; by destruct Hsy|].
    apply (Hc y k Hy Hk). by eapply Hkn.
  - intros y Hy HyE. apply Hun; [done|]. intros H. apply HyE. by right.
  - destruct Hroot as [[->|?]%elem_of_cons|[?|?]]; [right; left; by left| |right; left; by right|by right; right].
    left. apply elem_of_app. by left.
  - done.
Qed.

(** The parent [y] of the pending block [x] counts it. *)
Lemma counted_bump x y Q E sz counts :
  count_inv Q E (label x :: map label Q) sz counts -> x ∈ subtrees tb -> x ∉ Q -> is_Some (sz !! label x) ->
  y ∈ E -> x ∈ kids y ->
  sz !! label y = None /\
  length (filter (counted sz (map label Q)) (kids y)) =
    S (length (filter (counted sz (label x :: map label Q)) (kids y))).
Proof.
  intros Hinv Hx HxQ Hsx Hy Hk. assert (label x ∉ map label Q) as HlQ.
  { intros (z & El & Hz)%list_elem_of_In%in_map_iff. apply list_elem_of_In in Hz. apply HxQ.
    replace x with z; [done|]. apply tb_label_inj; [apply (ci_sub _ _ _ _ _ Hinv); by left|done|done]. }
  split.
  - destruct (sz !! label y) eqn:Es; [|done]. exfalso.
    destruct (ci_known _ _ _ _ _ Hinv y x Hy ltac:(by rewrite Es) Hk) as [H _]. apply H. by left.
  - apply (filter_length_add _ _ _ x); [|done|done|..].
    + apply tb_kids_nodup, (ci_sub _ _ _ _ _ Hinv). by right.
    + intros [H _]. apply H. by left.
    + intros z Hz Hne. unfold counted. rewrite not_elem_of_cons. naive_solver.
Qed.

(** No other block of [E] has [x] as a child. *)
Lemma counted_other x y z Q E sz counts :
  count_inv Q E (label x :: map label Q) sz counts -> x ∈ subtrees tb -> y ∈ E -> x ∈ kids y -> z ∈ E -> z <> y ->
  forall k, k ∈ kids z -> counted sz (label x :: map label Q) k <-> counted sz (map label Q) k.
Proof.
  intros Hinv Hx Hy Hxy Hz Hzy k Hk. unfold counted. rewrite not_elem_of_cons. split; [tauto|].
  intros [H1 H2]. split_and!; try done. intros El. apply Hzy.
  assert (y ∈ subtrees tb /\ z ∈ subtrees tb) as [Hys Hzs] by (split; apply (ci_sub _ _ _ _ _ Hinv); by right).
  assert (k = x) as -> by (apply tb_label_inj; [by apply (tb_kid k z)|done|done]).
  by eapply tb_parent_unique.
Qed.

(** [y] counted the pending [x] and has other children left. *)
Lemma count_inv_bump x y Q E sz counts n :
  count_inv Q E (label x :: map label Q) sz counts -> x ∈ subtrees tb -> x ∉ Q -> is_Some (sz !! label x) ->
  y ∈ E -> x ∈ kids y -> n = length (filter (counted sz (map label Q)) (kids y)) -> (n < length (kids y))%nat ->
  count_inv Q E (map label Q) sz (<[label y := Z.of_nat n]> counts).
Proof.
  intros Hinv Hx HxQ Hsx Hy Hk Hn Hlt.
  destruct (counted_bump x y Q E sz counts Hinv Hx HxQ Hsx Hy Hk) as [Hsy Hlen].
  assert (Hl : forall z, z ∈ subtrees tb -> z <> y -> label y <> label z).
  { intros z Hz Hzy El. apply Hzy. apply tb_label_inj; [done|apply (ci_sub _ _ _ _ _ Hinv); by right|done]. }
  pose proof Hinv as [Hsub Hnq Hdisj Hkids Hcov Hpar Hcnt Hkn Hun Hroot Hsz]. split; try done.
  - intros z Hz Hsz'. destruct (decide (label z = label y)) as [El|Hne].
    + assert (z = y) as -> by (apply tb_label_inj; [apply Hsub; by right..|done]).
      rewrite lookup_insert_eq. simpl. lia.
    + rewrite lookup_insert_ne by (by apply not_eq_sym). destruct (Hcnt z Hz Hsz') as [H1 H2].
      rewrite <-(filter_ext_in (counted sz (label x :: map label Q)) (counted sz (map label Q)) (kids z)); [done|].
      apply (counted_other x y z Q E sz counts); try done. by intros ->.
  - intros z k Hz Hs Hkz. assert (z <> y) as Hzy by (intros ->; rewrite Hsy in Hs; by destruct Hs).
    apply (counted_other x y z Q E sz counts); try done. by eapply Hkn.
  - intros z Hz HzE. rewrite lookup_insert_ne; [by apply Hun|]. apply Hl; [done|by intros ->].
Qed.

(** [y] counted its last child: its size is known and it is the pending block. *)
Lemma count_inv_complete x y Q E sz counts n :
  count_inv Q E (label x :: map label Q) sz counts -> x ∈ subtrees tb -> x ∉ Q -> is_Some (sz !! label x) ->
  y ∈ E -> x ∈ kids y -> n = length (filter (counted sz (map label Q)) (kids y)) -> (length (kids y) <= n)%nat ->
  (forall k, k ∈ kids y -> counted sz (map label Q) k) /\
  count_inv Q E (label y :: map label Q) (<[label y := Z.of_nat (tsize y)]> sz) (<[label y := Z.of_nat n]> counts).
Proof.
  intros Hinv Hx HxQ Hsx Hy Hk Hn Hle.
  destruct (counted_bump x y Q E sz counts Hinv Hx HxQ Hsx Hy Hk) as [Hsy Hlen].
  assert (Hall : forall k, k ∈ kids y -> counted sz (map label Q) k) by (apply (filter_length_all (counted sz (map label Q))); lia).
  split; [done|]. pose proof Hinv as [Hsub Hnq Hdisj Hkids Hcov Hpar Hcnt Hkn Hun Hroot Hsz].
  assert (y ∈ subtrees tb) as Hys by (apply Hsub; by right).
  assert (Hl : forall z, z ∈ subtrees tb -> z <> y -> label z <> label y).
  { intros z Hz Hzy El. apply Hzy. by apply tb_label_inj. }
  assert (Hc : forall k, counted sz (map label Q) k <->
    counted (<[label y := Z.of_nat (tsize y)]> sz) (label y :: map label Q) k).
  { intros k. rewrite counted_insert. split; [|tauto]. intros H. split; [|done].
    intros El. destruct H as [_ H]. rewrite El, Hsy in H. by destruct H. }
  assert (Hmono : forall l, is_Some (sz !! l) -> is_Some (<[label y := Z.of_nat (tsize y)]> sz !! l)).
  { intros l. rewrite lookup_insert_is_Some'. by right. }
  split; try done.
  - intros z k Hz Hkz. destruct (Hcov z k Hz Hkz) as [?|[?|?]]; eauto.
  - intros z Hz Hsz'. assert (z <> y) as Hzy by (intros ->; by rewrite lookup_insert_eq in Hsz').
    assert (label z <> label y) as Hne by (apply Hl; [apply Hsub; by right|done]).
    rewrite lookup_insert_ne in Hsz' |- * by (by apply not_eq_sym). destruct (Hcnt z Hz Hsz') as [H1 H2].
    rewrite <-(filter_ext_in (counted sz (label x :: map label Q)) _ (kids z)); [done|].
    intros k Hkz. rewrite <-Hc. by apply (counted_other x y z Q E sz counts).
  - intros z k Hz Hs Hkz. apply Hc. destruct (decide (label z = label y)) as [El|Hne].
    { assert (z = y) as -> by (apply tb_label_inj; [apply Hsub; by right|done..]). by apply Hall. }
    assert (z <> y) as Hzy by (by intros ->). rewrite lookup_insert_ne in Hs by (by apply not_eq_sym).
    apply (counted_other x y z Q E sz counts); try done. by eapply Hkn.
  - intros z Hz HzE. rewrite lookup_insert_ne; [by apply Hun|].
    apply not_eq_sym, Hl; [done|by intros ->].
  - destruct Hroot as [?|[?|?]]; eauto.
  - intros z Hz Hs. destruct (decide (label z = label y)) as [El|Hne].
    + assert (z = y) as -> by (eapply label_inj; [exact Hnd|done|by apply sub_tb|done]).
      rewrite lookup_insert_eq. split; [done|]. intros k Hkz. by apply Hmono, Hall.
    + rewrite lookup_insert_ne in Hs |- * by (by apply not_eq_sym). destruct (Hsz z Hz Hs) as [H1 H2].
      split; [done|]. intros k Hkz. by apply Hmono, H2.
Qed.

Abbreviation ctx sz := (mk_ctx s sz slack).

Lemma get_children_run sz ta : ta ∈ subtrees t ->
  store_get_children (label ta) (ctx sz) = (ctx sz, Ok (map label (kids ta))).
Proof.
  intros Hta. destruct (shape_sub _ _ _ _ Hshape Hta) as [p' Hs].
  pose proof (shape_root _ _ _ Hs) as (d & E & _ & Hc).
  unfold store_get_children, ask, on_store, query. cbn [cx_store cx_sizes cx_slack].
  by rewrite (law_children s _ d Hok E), Hc.
Qed.

Lemma get_parent_run sz y k : y ∈ subtrees t -> k ∈ kids y ->
  store_get_parent (label k) (ctx sz) = (ctx sz, Ok (label y)).
Proof.
  intros Hy Hk. destruct (shape_parent _ _ _ _ _ Hshape Hy Hk) as (d & E & Hp).
  unfold store_get_parent, ask, on_store, query. cbn [cx_store cx_sizes cx_slack].
  by rewrite (law_parent s _ d Hok E), Hp.
Qed.

Lemma sum_sizes ts : Z.of_nat (sum_list_with tsize ts) < 2 ^ 64 ->
  sum_u64 (map (fun k => Z.of_nat (tsize k)) ts) = Z.of_nat (sum_list_with tsize ts).
Proof.
  intros H. assert (total (map (fun k => Z.of_nat (tsize k)) ts) = Z.of_nat (sum_list_with tsize ts)) as E.
  { clear. induction ts; simpl; [done|]. lia. }
  rewrite sum_u64_total, E; [done| |lia]. apply Forall_forall.
  intros z (k & <- & _)%list_elem_of_In%in_map_iff. lia.
Qed.

(** The sizes of the children of a block, from the cache. *)
Lemma sizes_of_run sz ta :
  sizes_ok t sz -> ta ∈ subtrees t -> (forall k, k ∈ kids ta -> is_Some (sz !! label k)) ->
  sizes_of (map label (kids ta)) (ctx sz) = (ctx sz, Ok (map (fun k => Z.of_nat (tsize k)) (kids ta))).
Proof.
  intros Hsz Hta Hk. unfold sizes_of. cbn [cx_sizes]. f_equal.
  assert (forall ks, (forall k, k ∈ ks -> k ∈ kids ta) ->
    collect (fun h => assert_some (sz !! h)) (map label ks) = Ok (map (fun k => Z.of_nat (tsize k)) ks)) as H.
  { induction ks as [|k ks IH]; [done|]. intros Hks. simpl.
    assert (k ∈ kids ta) as Hkt by (apply Hks; by left).
    destruct (Hsz k (subtrees_kid_of _ _ _ Hta Hkt) (Hk k Hkt)) as [-> _]. simpl.
    rewrite IH; [done|]. intros; apply Hks; by right. }
  by apply H.
Qed.

Lemma push_up_stop Q E sz counts x :
  label x = label tb -> x ∈ subtrees tb -> count_inv Q E (label x :: map label Q) sz counts -> is_Some (sz !! label x) ->
  exists sz' counts', (mret counts : st _ stop _) (ctx sz) = (ctx sz', Ok counts') /\
    count_inv Q E (map label Q) sz' counts' /\ (forall l, is_Some (sz !! l) -> is_Some (sz' !! l)).
Proof.
  intros El Hx Hinv Hs. assert (x = tb) as -> by (apply tb_label_inj; [done|apply subtrees_self|done]).
  exists sz, counts. split_and!; [done| |done].
  assert (Hc : forall y k, y ∈ E -> k ∈ kids y -> counted sz (label tb :: map label Q) k <-> counted sz (map label Q) k).
  { intros y k Hy Hk. unfold counted. rewrite not_elem_of_cons. split; [tauto|]. intros [H1 H2]. split_and!; try done.
    intros Ek. assert (y ∈ subtrees tb) as Hys by (apply (ci_sub _ _ _ _ _ Hinv); by right).
    apply (tb_not_kid y Hys). replace tb with k; [done|].
    apply tb_label_inj; [by apply (tb_kid k y)|apply subtrees_self|done]. }
  destruct Hinv as [Hsub Hn Hdisj Hkids Hcov Hpar Hcnt Hkn Hun Hroot Hsz]. split; try done.
  - intros y Hy Hsy. rewrite <-(filter_ext_in _ _ (kids y) (fun k Hk => Hc y k Hy Hk)). by apply Hcnt.
  - intros y k Hy Hsy Hk. apply (Hc y k Hy Hk). by eapply Hkn.
Qed.

(** With an empty queue no block is left uncounted. *)
Lemma count_inv_end E sz counts : count_inv [] E [] sz counts -> is_Some (sz !! label tb).
Proof.
  intros Hinv. assert (forall x, x ∈ E -> is_Some (sz !! label x)) as HE.
  { induction x as [h ts IH] using rtree_ind'. intros Hx. rewrite Forall_forall in IH.
    destruct (sz !! h) eqn:Es; [simpl; by rewrite Es|]. exfalso.
    destruct (ci_count _ _ _ _ _ Hinv _ Hx Es) as [_ Hlt]. simpl in Hlt.
    enough (filter (counted sz []) ts = ts) as Hall by (rewrite Hall in Hlt; lia).
    apply filter_all, Forall_forall. intros k Hk. split; [by apply not_elem_of_nil|].
    destruct (ci_cover _ _ _ _ _ Hinv _ k Hx Hk) as [H|[H|H]]; [by apply elem_of_nil in H|by apply IH|done]. }
  destruct (ci_root _ _ _ _ _ Hinv) as [H|[H|H]]; [by apply elem_of_nil in H|by apply HE|done].
Qed.

Lemma push_up_run fuel x Q E sz counts :
  (tsize tb <= tsize x + fuel)%nat ->
  count_inv Q E (label x :: map label Q) sz counts -> x ∈ subtrees tb -> x ∉ Q -> is_Some (sz !! label x) ->
  (x = tb \/ exists y, y ∈ E /\ x ∈ kids y) ->
  exists sz' counts', push_up fuel (label tb) (label x) counts (ctx sz) = (ctx sz', Ok counts') /\
    count_inv Q E (map label Q) sz' counts' /\ (forall l, is_Some (sz !! l) -> is_Some (sz' !! l)).
Proof.
  revert x sz counts. induction fuel as [|fuel IH]; intros x sz counts Hf Hinv Hx HxQ Hsx Hpar; cbn [push_up].
  - case_bool_decide as Ex; [by apply (push_up_stop Q E sz counts x)|]. destruct Hpar as [->|(y & Hy & Hk)]; [done|].
    pose proof (tsize_kid _ _ Hk). pose proof (tsize_sub tb y (ci_sub _ _ _ _ _ Hinv y (or_intror Hy))). lia.
  - case_bool_decide as Ex; [by apply (push_up_stop Q E sz counts x)|]. destruct Hpar as [->|(y & Hy & Hk)]; [done|].
    assert (y ∈ subtrees tb) as Hys by (apply (ci_sub _ _ _ _ _ Hinv); by right).
    pose proof (sub_tb y Hys) as Hyt. pose proof (tsize_kid _ _ Hk) as Hlt.
    destruct (counted_bump x y Q E sz counts Hinv Hx HxQ Hsx Hy Hk) as [Hsy Hlen].
    destruct (ci_count _ _ _ _ _ Hinv y Hy Hsy) as [Hc Hcl]. pose proof (kids_bound y Hys).
    erewrite st_bind_run by (by apply get_parent_run). erewrite st_bind_run by (by apply get_children_run).
    cbv zeta. rewrite Hc, wadd64_small by lia. rewrite length_map.
    set (n := length (filter (counted sz (map label Q)) (kids y))) in *.
    replace (Z.of_nat _ + 1) with (Z.of_nat n) by lia.
    destruct (Z.ltb_spec (Z.of_nat n) (Z.of_nat (length (kids y)))).
    + exists sz, (<[label y := Z.of_nat n]> counts). split_and!; [done| |done].
      eapply (count_inv_bump x y); try done. lia.
    + destruct (count_inv_complete x y Q E sz counts n Hinv Hx HxQ Hsx Hy Hk eq_refl ltac:(lia)) as [Hall Hinv'].
      assert (Z.of_nat (S (sum_list_with tsize (kids y))) = Z.of_nat (tsize y)) as Esz
        by (destruct y as [h ts]; by rewrite tsize_node).
      pose proof (tsize_sub t y Hyt).
      erewrite st_bind_run by (apply sizes_of_run; [apply (ci_sizes _ _ _ _ _ Hinv)|done|by apply Hall]).
      rewrite sum_sizes, wadd64_small by lia.
      replace (_ + 1) with (Z.of_nat (tsize y)) by lia.
      erewrite st_bind_run by done. cbn [cx_store cx_sizes cx_slack].
      destruct (IH y _ _ ltac:(lia) Hinv' Hys) as (sz' & counts' & -> & Hi & Hm).
      * intros HyQ. by apply (ci_disj _ _ _ _ _ Hinv) in HyQ.
      * by rewrite lookup_insert_eq.
      * apply (ci_parent _ _ _ _ _ Hinv). by right.
      * exists sz', counts'. split_and!; [done..|]. intros l Hl. apply Hm. rewrite lookup_insert_is_Some'. by right.
Qed.

(** The loop over the queue ends with every subtree of [tb] counted. *)
Lemma count_loop_run walk fuel Q E sz counts :
  (sum_list_with tsize Q <= walk)%nat -> (tsize tb <= fuel)%nat ->
  count_inv Q E (map label Q) sz counts ->
  exists sz', count_loop walk fuel (label tb) (map label Q) counts (ctx sz) = (ctx sz', Ok tt) /\
    sizes_ok t sz' /\ is_Some (sz' !! label tb) /\ (forall l, is_Some (sz !! l) -> is_Some (sz' !! l)).
Proof.
  revert Q E sz counts. induction walk as [|walk IH]; intros [|x Q] E sz counts Hw Hf Hinv; cbn [count_loop map].
  1, 3: exists sz; split_and!; [done|apply Hinv|by eapply count_inv_end|done].
  { simpl in Hw. pose proof (tsize_pos x). lia. }
  assert (x ∈ subtrees tb) as Hx by (apply (ci_sub _ _ _ _ _ Hinv); left; by left).
  assert (x ∉ Q) as HxQ.
  { intros H. pose proof (ci_nodup _ _ _ _ _ Hinv) as [Hn _]%NoDup_cons. apply Hn, list_elem_of_In, in_map. by apply list_elem_of_In. }
  assert (x = tb \/ exists y, y ∈ E /\ x ∈ kids y) as Hpar by (apply (ci_parent _ _ _ _ _ Hinv); left; by left).
  simpl in Hw. pose proof (tsize_pos x).
  erewrite st_bind_run by (apply get_children_run, sub_tb, Hx). cbn [gets].
  assert (Hpop : forall sz1, is_Some (sz1 !! label x) -> (forall l, is_Some (sz !! l) -> is_Some (sz1 !! l)) ->
    count_inv (x :: Q) E (label x :: map label Q) sz1 counts ->
    exists sz', (counts ← push_up fuel (label tb) (label x) counts;
                 count_loop walk fuel (label tb) (map label Q) counts) (ctx sz1) = (ctx sz', Ok tt) /\
    sizes_ok t sz' /\ is_Some (sz' !! label tb) /\ (forall l, is_Some (sz !! l) -> is_Some (sz' !! l))).
  { intros sz1 Hs1 Hm1 Hi1. destruct (push_up_run fuel x Q E sz1 counts ltac:(lia)
      (count_inv_pop _ _ _ _ _ Hs1 Hi1) Hx HxQ Hs1 Hpar) as (sz2 & counts2 & Hr & Hi2 & Hm2).
    erewrite st_bind_run by done. destruct (IH Q E sz2 counts2 ltac:(lia) Hf Hi2) as (sz' & -> & ? & ? & Hm').
    exists sz'. split_and!; eauto. }
  unfold mbind at 1, st_bind at 1. cbn [gets cx_sizes].
  case_bool_decide as Ek.
  - apply map_eq_nil in Ek. erewrite st_bind_run by done. cbn [cx_store cx_sizes cx_slack].
    apply Hpop; [by rewrite lookup_insert_eq|by intros; rewrite lookup_insert_is_Some'; right|by apply count_inv_leaf].
  - assert (kids x <> []) as Hkx by (by intros E0; rewrite E0 in Ek).
    case_bool_decide as Es; cbn [negb].
    + by apply Hpop.
    + rewrite <-map_app. apply (IH _ (x :: E)); [|done|].
      * rewrite sum_list_with_app. destruct x as [h ts]. rewrite tsize_node in Hw. simpl in *. lia.
      * apply count_inv_expand; [done| |done]. by apply eq_None_not_Some.
Qed.

Lemma count_inv_init sz : sizes_ok t sz -> sz !! label tb = None -> count_inv [tb] [] [label tb] sz ∅.
Proof.
  intros Hsz Hs. split; try by intros ? ?%elem_of_nil.
  - intros x [->%list_elem_of_singleton|H%elem_of_nil]; [apply subtrees_self|done].
  - simpl. apply NoDup_singleton.
  - intros x _ H. by apply elem_of_nil in H.
  - intros x k H. by apply elem_of_nil in H.
  - intros x [->%list_elem_of_singleton|H%elem_of_nil]; [by left|done].
  - intros x k H. by apply elem_of_nil in H.
  - intros. apply lookup_empty.
  - left. by left.
  - done.
Qed.

Lemma count_subtrees_run fuel sz :
  (tsize tb <= fuel)%nat -> sizes_ok t sz ->
  exists sz', count_subtrees fuel (label tb) (ctx sz) = (ctx sz', Ok tt) /\
    sizes_ok t sz' /\ is_Some (sz' !! label tb) /\ (forall l, is_Some (sz !! l) -> is_Some (sz' !! l)).
Proof.
  intros Hf Hsz. unfold count_subtrees, mbind, st_bind. cbn [gets cx_sizes]. case_bool_decide as Es.
  - exists sz. done.
  - apply (count_loop_run fuel fuel [tb] [] sz ∅); [simpl; lia|done|].
    apply count_inv_init; [done|]. by apply eq_None_not_Some.
Qed.
End count.
