(* ===== verification/ReachPropagate.v ===== *)
(** [propagate_interval]: reallocating the intervals below a block whose
    interval is large enough for its subtree makes the subtree nested, and
    changes no other interval and no edge of the tree. *)

From S2P Require Import Prelude Access Interval Reach ReachTree ReachQueries ReachCount.

(** * Maps that differ in intervals only *)

Definition erase (d : MemoryReachabilityData) : MemoryReachabilityData := with_interval d Interval_empty.

Definition same_blocks (m m' : blocks) : Prop := forall h, erase <$> m !! h = erase <$> m' !! h.

#[export] Instance same_blocks_equiv : Equivalence same_blocks.
Proof.
  split.
  - done.
  - intros m m' H h. by rewrite H.
  - intros m1 m2 m3 H1 H2 h. by rewrite H1, H2.
Qed.

Lemma same_blocks_lookup m m' h d :
  same_blocks m m' -> m !! h = Some d -> exists d', m' !! h = Some d' /\ rd_parent d' = rd_parent d /\
    rd_children d' = rd_children d /\ rd_fcs d' = rd_fcs d /\ rd_height d' = rd_height d.
Proof.
  intros H E. specialize (H h). rewrite E in H. simpl in H.
  destruct (m' !! h) as [d'|] eqn:E'; [|done]. exists d'. unfold erase, with_interval in H. simpl in H.
  injection H as H1 H2 H3 H4. auto.
Qed.

Lemma same_blocks_is_Some m m' h : same_blocks m m' -> is_Some (m !! h) <-> is_Some (m' !! h).
Proof.
  intros H. split; intros [d E].
  - destruct (same_blocks_lookup _ _ _ _ H E) as (d' & ? & _). eauto.
  - symmetry in H. destruct (same_blocks_lookup _ _ _ _ H E) as (d' & ? & _). eauto.
Qed.

Lemma same_blocks_chl m m' h : same_blocks m m' -> chl m' h = chl m h.
Proof.
  intros H. unfold chl. destruct (m !! h) as [d|] eqn:E.
  - destruct (same_blocks_lookup _ _ _ _ H E) as (d' & -> & _ & Hc & _). done.
  - destruct (m' !! h) eqn:E'; [|done]. assert (is_Some (m !! h)) as [? ?] by (by apply (same_blocks_is_Some m m'); eauto). congruence.
Qed.

Lemma same_blocks_shape m m' p t : same_blocks m m' -> shape m p t -> shape m' p t.
Proof.
  intros H. revert p. induction t as [h ts IH] using rtree_ind'. intros p. rewrite !shape_node.
  intros [(d & E & Hp & Hc) Hs]. split.
  - destruct (same_blocks_lookup _ _ _ _ H E) as (d' & E' & ? & ? & _). exists d'. split_and!; [done|congruence..].
  - rewrite Forall_forall in *. auto.
Qed.

Lemma same_blocks_set_interval m h d i : m !! h = Some d -> same_blocks m (<[h := with_interval d i]> m).
Proof.
  intros E x. destruct (decide (x = h)) as [->|Hne].
  - by rewrite lookup_insert_eq, E.
  - by rewrite lookup_insert_ne.
Qed.

Lemma ivl_set_interval m h d i x : ivl (<[h := with_interval d i]> m) x = if decide (x = h) then i else ivl m x.
Proof.
  unfold ivl. destruct (decide (x = h)) as [->|Hne].
  - by rewrite lookup_insert_eq.
  - by rewrite lookup_insert_ne by (by apply not_eq_sym).
Qed.

(** [local_ok] depends on the intervals of the block and of its children. *)
Lemma local_ok_frame m m' h :
  same_blocks m m' -> ivl m' h = ivl m h -> (forall k, k ∈ chl m h -> ivl m' k = ivl m k) ->
  local_ok m h -> local_ok m' h.
Proof.
  intros Hs Hh Hk [H1 H2 H3]. split; rewrite ?Hh; [done..|]. rewrite (same_blocks_chl _ _ _ Hs).
  enough (map (ivl m') (chl m h) = map (ivl m) (chl m h)) as -> by done.
  apply map_ext_in. intros k Hk'. apply Hk. by apply list_elem_of_In.
Qed.

Lemma nested_frame m m' p t :
  same_blocks m m' -> shape m p t -> (forall h, h ∈ nodes t -> ivl m' h = ivl m h) -> nested m t -> nested m' t.
Proof.
  intros Hs Hsh Hi Hn h Hh. eapply local_ok_frame; [done|by apply Hi| |by apply Hn].
  intros k Hk. apply Hi. apply nodes_subtree in Hh as (th & Hth & <-).
  destruct (shape_sub _ _ _ _ Hsh Hth) as [p' Hs']. rewrite (shape_chl _ _ _ Hs') in Hk.
  apply list_elem_of_In, in_map_iff in Hk as (tk & <- & Hk%list_elem_of_In).
  apply nodes_subtree. exists tk. split; [|done]. by eapply subtrees_kid_of.
Qed.

Lemma nested_node m h ts :
  local_ok m h -> Forall (nested m) ts -> nested m (Node h ts).
Proof.
  intros Hh Hts x [->|(t & Ht & Hx)]%nodes_node; [done|]. rewrite Forall_forall in Hts. by apply (Hts t).
Qed.

Section propagate.
Context {T : Type} `{RS : ReachabilityStore T, RL : !ReachabilityStoreLaws T}.

(** The store after changes of intervals. *)
Record reindexed (s s' : T) : Prop := {
  ri_ok : store_ok s';
  ri_same : same_blocks (view s) (view s');
  ri_root : root_of s' = root_of s;
  ri_fresh : forall x, fresh s x -> fresh s' x;
}.

Lemma reindexed_refl s : store_ok s -> reindexed s s.
Proof. intros. by split. Qed.

Lemma reindexed_trans s1 s2 s3 : reindexed s1 s2 -> reindexed s2 s3 -> reindexed s1 s3.
Proof.
  intros [] []. split; [done| |congruence|auto]. by transitivity (view s2).
Qed.

Lemma reindexed_shape s s' p t : reindexed s s' -> shape (view s) p t -> shape (view s') p t.
Proof. intros H. apply same_blocks_shape, H. Qed.

Lemma set_interval_run s sz slack h i :
  store_ok s -> is_Some (view s !! h) ->
  exists s', store_set_interval h i (mk_ctx s sz slack) = (mk_ctx s' sz slack, Ok tt) /\ reindexed s s' /\
    forall x, ivl (view s') x = if decide (x = h) then i else ivl (view s) x.
Proof.
  intros Hok [d E]. destruct (law_set_interval s h d i Hok E) as (s' & Hr & Hok' & Hv & Hroot & Hf).
  exists s'. split_and!.
  - unfold store_set_interval, on_store, update, map_err. cbn [cx_store cx_sizes cx_slack]. by rewrite Hr.
  - split; [done| |done|done]. rewrite Hv. by apply same_blocks_set_interval.
  - intros x. rewrite Hv. apply ivl_set_interval.
Qed.

Lemma get_interval_run s sz slack h : store_ok s -> is_Some (view s !! h) ->
  store_get_interval h (mk_ctx s sz slack) = (mk_ctx s sz slack, Ok (ivl (view s) h)).
Proof.
  intros Hok Hh. unfold store_get_interval, ask, on_store, query. cbn [cx_store cx_sizes cx_slack].
  by rewrite get_interval_ivl.
Qed.

(** The assignment of intervals to a list of blocks. *)
Lemma assign_run s sz slack (l : list (hash * Interval)) :
  store_ok s -> NoDup l.*1 -> (forall h, h ∈ l.*1 -> is_Some (view s !! h)) ->
  exists s', for_each (fun '(c, ci) => store_set_interval c ci) l (mk_ctx s sz slack) = (mk_ctx s' sz slack, Ok tt) /\
    reindexed s s' /\ (forall h i, (h, i) ∈ l -> ivl (view s') h = i) /\
    (forall h, h ∉ l.*1 -> ivl (view s') h = ivl (view s) h).
Proof.
  revert s. induction l as [|[h i] l IH]; intros s Hok Hnd Hl.
  { exists s. split_and!; [done|by apply reindexed_refl| |done]. by intros ?? ?%elem_of_nil. }
  apply NoDup_cons in Hnd as [Hh Hnd]. cbn [for_each fst].
  destruct (set_interval_run s sz slack h i Hok (Hl h ltac:(by left))) as (s1 & Hr & Hs1 & Hi1).
  erewrite st_bind_run by exact Hr.
  destruct (IH s1 (ri_ok _ _ Hs1) Hnd) as (s' & Hr' & Hs' & Hin & Hout).
  { intros x Hx. apply (same_blocks_is_Some _ _ _ (ri_same _ _ Hs1)). apply Hl. by right. }
  exists s'. split_and!; [done|by eapply reindexed_trans|..].
  - intros x j [[= -> ->]|Hx]%elem_of_cons; [|by apply Hin]. rewrite Hout by done. rewrite Hi1. by rewrite decide_True.
  - intros x Hx. simpl in Hx. apply not_elem_of_cons in Hx as [Hne Hx].
    rewrite Hout by done. rewrite Hi1. by rewrite decide_False.
Qed.

(** Room for the children of a block with enough capacity. *)
Lemma children_capacity i n :
  iv_ok i -> 1 <= n -> n + 1 <= width i ->
  iv_ok (decrease_end i 1) /\ width (decrease_end i 1) = width i - 1 /\
  iv_start (decrease_end i 1) = iv_start i /\ iv_end (decrease_end i 1) = iv_end i - 1.
Proof.
  intros [H1 H2 H3] Hn Hw. unfold decrease_end, width, U64_MAX in *. simpl. rewrite wsub64_small by lia.
  split_and!; [|lia..]. split; simpl; unfold U64_MAX; lia.
Qed.

Section loop.
Context (p : hash) (t : rtree) (sz : gmap hash Z) (slack : Z).
Hypothesis Hbound : Z.of_nat (tsize t) < 2 ^ 64.
Hypothesis Hsz : sizes_ok t sz.

Abbreviation forest_nodes F := (concat (map nodes F)).

(** A forest to be reallocated: disjoint subtrees with counted sizes, each with
    a root interval of sufficient capacity. *)
Record forest_ok (s : T) (F : list rtree) : Prop := {
  fo_sub : forall x, x ∈ F -> x ∈ subtrees t;
  fo_nodup : NoDup (forest_nodes F);
  fo_sizes : forall x, x ∈ F -> is_Some (sz !! label x);
  fo_iv : forall x, x ∈ F -> iv_ok (ivl (view s) (label x));
  fo_cap : forall x, x ∈ F -> Z.of_nat (tsize x) <= width (ivl (view s) (label x));
}.

(** Blocks that are not strictly below a root of the forest. *)
Definition untouched (F : list rtree) (h : hash) : Prop := forall x, x ∈ F -> h ∈ nodes x -> h = label x.

Lemma forest_disjoint x F y h :
  NoDup (forest_nodes (x :: F)) -> y ∈ F -> h ∈ nodes x -> h ∈ nodes y -> False.
Proof.
  simpl. intros (_ & H & _)%NoDup_app Hy Hx Hhy. apply (H h Hx). apply elem_concat_map. eauto.
Qed.

Lemma forest_step_nodup h ts F :
  NoDup (forest_nodes (Node h ts :: F)) -> NoDup (forest_nodes (F ++ ts)) /\ h ∉ forest_nodes (F ++ ts).
Proof.
  simpl. intros [Hh Hnd]%NoDup_cons. rewrite map_app, concat_app. split.
  - by rewrite Permutation_app_comm.
  - intros Hin. apply Hh. set_solver.
Qed.

Lemma forest_untouched_root F x : NoDup (forest_nodes F) -> x ∈ F -> untouched F (label x).
Proof.
  intros Hnd Hx y Hy Hl. apply list_elem_of_lookup in Hx as [i Hi]. apply list_elem_of_lookup in Hy as [j Hj].
  assert (forall F i j x y h, NoDup (forest_nodes F) -> F !! i = Some x -> F !! j = Some y -> (i < j)%nat ->
    h ∈ nodes x -> h ∈ nodes y -> False) as Hd.
  { clear. induction F as [|z F IH]; intros i j x y h Hnd Hi Hj Hij Hx Hy; [by rewrite lookup_nil in Hi|].
    destruct i as [|i], j as [|j]; simplify_eq/=; try lia.
    - eapply (forest_disjoint x F y h); [done|by eapply list_elem_of_lookup_2|done..].
    - apply (IH i j x y h); [|done|done|lia|done|done]. by apply NoDup_app in Hnd as (_ & _ & ?). }
  destruct (Nat.lt_trichotomy i j) as [Hij|[<-|Hij]].
  - exfalso. eapply (Hd F i j); [done..|apply nodes_self|done].
  - congruence.
  - exfalso. eapply (Hd F j i); [done|done|done|done|exact Hl|apply nodes_self].
Qed.

(** The parts allocated to the children of a block. *)
Lemma allocate_parts i ts :
  iv_ok i -> ts <> [] -> Z.of_nat (S (sum_list_with tsize ts)) <= width i ->
  exists parts, split_exponential (decrease_end i 1) (map (fun k => Z.of_nat (tsize k)) ts) = Some parts /\
    inside (iv_start i) (iv_end i - 1) parts /\ Forall iv_ok parts /\
    Forall2 (fun k part => Z.of_nat (tsize k) <= width part) ts parts.
Proof.
  intros Hi Hne Hcap. assert (1 <= Z.of_nat (sum_list_with tsize ts)) as Hpos.
  { destruct ts as [|k ts]; [done|]. simpl. pose proof (tsize_pos k). lia. }
  destruct (children_capacity i _ Hi Hpos ltac:(lia)) as (Hc1 & Hc2 & Hc3 & Hc4).
  set (sizes := map (fun k => Z.of_nat (tsize k)) ts).
  assert (total sizes = Z.of_nat (sum_list_with tsize ts)) as Htot.
  { subst sizes. clear. induction ts; simpl; [done|]. lia. }
  destruct (split_exponential_tiles _ sizes Hc1) as (parts & Hsplit & Htiles & Hparts).
  { apply Forall_forall. intros n (k & <- & _)%list_elem_of_In%in_map_iff. pose proof (tsize_pos k). lia. }
  { subst sizes. by destruct ts. }
  { lia. }
  exists parts. subst sizes. rewrite Forall2_fmap_l in Hparts. rewrite Hc3, Hc4 in Htiles. split_and!; [done| | |done].
  - by apply tiles_inside.
  - destruct Hi as [H1 H2 H3]. apply (tiles_ok (iv_start i) (iv_end i - 1)); [done|lia|done].
Qed.

Lemma forest_ok_step s s' h ts F parts :
  forest_ok s (Node h ts :: F) -> Forall iv_ok parts ->
  Forall2 (fun k part => Z.of_nat (tsize k) <= width part) ts parts ->
  (forall x, x ∉ forest_nodes ts -> ivl (view s') x = ivl (view s) x) ->
  (forall j tk part, ts !! j = Some tk -> parts !! j = Some part -> ivl (view s') (label tk) = part) ->
  forest_ok s' (F ++ ts).
Proof.
  intros [Hsub Hnd Hs Hiv Hcap] Hpok Hparts Hsame Hkid. destruct (forest_step_nodup h ts F Hnd) as [Hnd' Hh'].
  assert (Node h ts ∈ subtrees t) as Hx by (apply Hsub; by left).
  assert (Hold : forall x, x ∈ F -> ivl (view s') (label x) = ivl (view s) (label x)).
  { intros x HxF. apply Hsame. intros (tk & Htk & Hl)%elem_concat_map.
    eapply (forest_disjoint (Node h ts) F x); [done|done| |apply nodes_self].
    by apply (nodes_kid (Node h ts) tk). }
  assert (Hnew : forall x, x ∈ ts -> exists part, part ∈ parts /\ ivl (view s') (label x) = part /\ Z.of_nat (tsize x) <= width part).
  { intros x [j Hj]%list_elem_of_lookup. destruct (Forall2_lookup_l _ _ _ _ _ Hparts Hj) as (part & Hp & Hc).
    exists part. split_and!; [by eapply list_elem_of_lookup_2|by eapply Hkid|done]. }
  rewrite Forall_forall in Hpok. split; [|done|..]; intros x [HxF|Hxt]%elem_of_app.
  - apply Hsub. by right.
  - by apply (subtrees_kid_of _ (Node h ts)).
  - apply Hs. by right.
  - by apply (Hsz (Node h ts) Hx (Hs _ ltac:(by left))).
  - rewrite Hold by done. apply Hiv. by right.
  - destruct (Hnew x Hxt) as (part & ? & -> & _). auto.
  - rewrite Hold by done. apply Hcap. by right.
  - destruct (Hnew x Hxt) as (part & _ & -> & ?). done.
Qed.

(** Allocating the intervals of the children of one block. *)
Lemma allocate_run s h ts F :
  store_ok s -> shape (view s) p t -> ts <> [] -> forest_ok s (Node h ts :: F) ->
  exists s',
    (sizes ← sizes_of (map label ts);
     interval ← ask (fun s => interval_children_capacity s h);
     intervals ← lift (assert_some (split_exponential interval sizes));
     for_each (fun '(c, ci) => store_set_interval c ci) (zip (map label ts) intervals))
      (mk_ctx s sz slack) = (mk_ctx s' sz slack, Ok tt) /\
    reindexed s s' /\ forest_ok s' (F ++ ts) /\ local_ok (view s') h /\
    (forall x, x ∉ map label ts -> ivl (view s') x = ivl (view s) x).
Proof.
  intros Hok Hsh Hne [Hsub Hnd Hs Hiv Hcap].
  assert (Node h ts ∈ subtrees t) as Hx by (apply Hsub; by left).
  pose proof (Hiv (Node h ts) ltac:(by left)) as Hih. pose proof (Hcap (Node h ts) ltac:(by left)) as Hch.
  rewrite tsize_node in Hch. cbn [label] in Hih, Hch.
  destruct (allocate_parts _ ts Hih Hne Hch) as (parts & Hsplit & Hin & Hpok & Hparts).
  pose proof (proj2 (Hsz (Node h ts) Hx (Hs _ ltac:(by left)))) as Hks.
  erewrite st_bind_run by exact (sizes_of_run s t slack sz (Node h ts) Hsz Hx Hks).
  erewrite st_bind_run.
  2:{ unfold ask, on_store, query, interval_children_capacity. cbn [cx_store cx_sizes cx_slack].
      rewrite get_interval_ivl; [reflexivity|done|]. eapply shape_lookup; [done|]. apply nodes_subtree. by exists (Node h ts). }
  erewrite st_bind_run. 2:{ unfold lift. cbn [kids]. rewrite Hsplit. reflexivity. }
  pose proof (Forall2_length _ _ _ Hparts) as Hlen.
  assert ((zip (map label ts) parts).*1 = map label ts) as Hfst by (apply fst_zip; rewrite length_map; lia).
  destruct (forest_step_nodup h ts F Hnd) as [Hnd' Hh'].
  assert (NoDup (map label ts)) as Hndl.
  { apply (NoDup_kids (Node h ts)). by eapply NoDup_concat_elem; [exact Hnd|left]. }
  destruct (assign_run s sz slack (zip (map label ts) parts)) as (s' & Hr & Hri & Hget & Hout); [done|by rewrite Hfst|..].
  { rewrite Hfst. intros k (tk & <- & Hk%list_elem_of_In)%list_elem_of_In%in_map_iff.
    eapply shape_lookup; [done|]. apply nodes_subtree. exists tk. split; [|done].
    by apply (subtrees_kid_of _ (Node h ts)). }
  rewrite Hfst in Hout.
  assert (Hsame : forall x, x ∉ forest_nodes ts -> ivl (view s') x = ivl (view s) x).
  { intros x Hx'. apply Hout. intros (tk & <- & Hk%list_elem_of_In)%list_elem_of_In%in_map_iff. apply Hx'.
    apply elem_concat_map. exists tk. split; [done|apply nodes_self]. }
  assert (Hkid : forall j tk part, ts !! j = Some tk -> parts !! j = Some part -> ivl (view s') (label tk) = part).
  { intros j tk part Htk Hpart. apply Hget. apply list_elem_of_lookup. exists j.
    rewrite lookup_zip_with, list_lookup_fmap, Htk, Hpart. done. }
  exists s'. split_and!; [exact Hr|done| | |done].
  - by eapply (forest_ok_step s s' h ts F parts).
  - split; rewrite ?(Hsame h) by (intros H; apply Hh'; rewrite map_app, concat_app; set_solver).
    + done.
    + lia.
    + rewrite (same_blocks_chl _ _ _ (ri_same _ _ Hri)).
      destruct (shape_sub _ _ _ _ Hsh Hx) as [p' Hsx]. pose proof (shape_chl _ _ _ Hsx) as Hch'. cbn [kids label] in Hch'. rewrite Hch'.
      enough (map (ivl (view s')) (map label ts) = parts) as -> by done.
      apply list_eq_same_length with (n := length ts); rewrite ?length_map; [done|done|].
      intros j part1 part2 Hj E1 E2. rewrite !list_lookup_fmap in E1.
      destruct (ts !! j) as [tk|] eqn:Htk; [|done]. injection E1 as <-. by eapply Hkid.
Qed.

Lemma forest_ok_tail s x F : forest_ok s (x :: F) -> forest_ok s F.
Proof.
  intros [H1 H2 H3 H4 H5]. split; try (intros y Hy; first [apply H1|apply H3|apply H4|apply H5]; by right).
  simpl in H2. by apply NoDup_app in H2 as (_ & _ & ?).
Qed.

Lemma leaf_local_ok s F h : shape (view s) p t -> forest_ok s (Node h [] :: F) -> local_ok (view s) h.
Proof.
  intros Hsh HF. pose proof (fo_sub _ _ HF (Node h []) ltac:(by left)) as Hx.
  pose proof (fo_cap _ _ HF (Node h []) ltac:(by left)) as Hc.
  destruct (shape_sub _ _ _ _ Hsh Hx) as [p' Hsx]. pose proof (shape_chl _ _ _ Hsx) as Hch. cbn [label kids map] in *.
  split; [apply (fo_iv _ _ HF (Node h [])); by left| |by rewrite Hch].
  rewrite tsize_node in Hc. simpl in Hc. lia.
Qed.

(** One turn of the loop for a block with children. *)
Lemma propagate_step fuel queue h children c c' :
  (sizes ← sizes_of children;
   interval ← ask (fun s => interval_children_capacity s h);
   intervals ← lift (assert_some (split_exponential interval sizes));
   for_each (fun '(c, ci) => store_set_interval c ci) (zip children intervals)) c = (c', Ok tt) ->
  (sizes ← sizes_of children;
   interval ← ask (fun s => interval_children_capacity s h);
   intervals ← lift (assert_some (split_exponential interval sizes));
   _ ← for_each (fun '(c, ci) => store_set_interval c ci) (zip children intervals);
   propagate_loop fuel (queue ++ children)) c = propagate_loop fuel (queue ++ children) c'.
Proof.
  intros (c1 & sizes & H1 & (c2 & i & H2 & (c3 & is_ & H3 & H4)%st_bind_ok)%st_bind_ok)%st_bind_ok.
  erewrite st_bind_run by exact H1. erewrite st_bind_run by exact H2.
  erewrite st_bind_run by exact H3. by erewrite st_bind_run by exact H4.
Qed.

Lemma propagate_loop_run fuel F s :
  (sum_list_with tsize F <= fuel)%nat -> store_ok s -> shape (view s) p t -> forest_ok s F ->
  exists s', propagate_loop fuel (map label F) (mk_ctx s sz slack) = (mk_ctx s' sz slack, Ok tt) /\
    reindexed s s' /\ (forall x, x ∈ F -> nested (view s') x) /\
    (forall h, untouched F h -> ivl (view s') h = ivl (view s) h).
Proof.
  revert F s. induction fuel as [|fuel IH]; intros [|[h ts] F] s Hf Hok Hsh HF; cbn [propagate_loop map].
  1, 3: exists s; split_and!; [done|by apply reindexed_refl|by intros ? ?%elem_of_nil|done].
  { simpl in Hf. pose proof (tsize_pos (Node h ts)). lia. }
  cbn [sum_list_with] in Hf. rewrite tsize_node in Hf.
  pose proof (fo_sub _ _ HF (Node h ts) ltac:(by left)) as Hx.
  erewrite st_bind_run by exact (get_children_run s p t slack Hok Hsh sz (Node h ts) Hx).
  destruct (forest_step_nodup h ts F (fo_nodup _ _ HF)) as [Hnd' Hh'].
  case_bool_decide as Ets.
  - apply map_eq_nil in Ets. cbn [kids] in Ets. subst ts. rewrite app_nil_r in Hnd', Hh'.
    destruct (IH F s) as (s' & Hr & Hri & Hn & Hu); [lia|done|done|by eapply forest_ok_tail|].
    exists s'. split_and!; [done..| |].
    + intros x [->|Hxf]%elem_of_cons; [|by apply Hn]. apply nested_node; [|constructor].
      apply (local_ok_frame (view s)); [apply Hri|..].
      * apply Hu. intros y Hy Hhy. exfalso. apply Hh', elem_concat_map. eauto.
      * intros k Hk. exfalso. destruct (shape_sub _ _ _ _ Hsh Hx) as [p' Hsx].
        pose proof (shape_chl _ _ _ Hsx) as Hc. simpl in Hc. rewrite Hc in Hk. by apply elem_of_nil in Hk.
      * by apply (leaf_local_ok s F).
    + intros x Hux. apply Hu. intros y Hy. apply Hux. by right.
  - assert (ts <> []) as Hne by (by intros ->).
    destruct (allocate_run s h ts F Hok Hsh Hne HF) as (s1 & Hr1 & Hri1 & HF1 & Hl1 & Ho1).
    change (kids (Node h ts)) with ts in *. rewrite (propagate_step _ _ _ _ _ _ Hr1), <-map_app.
    destruct (IH (F ++ ts) s1) as (s' & -> & Hri & Hn & Hu);
      [rewrite sum_list_with_app; lia|apply Hri1|by eapply reindexed_shape|done|].
    assert (untouched (F ++ ts) h) as Hhu by (intros y Hy Hhy; exfalso; apply Hh', elem_concat_map; eauto).
    exists s'. split_and!; [done|by eapply reindexed_trans|..].
    + intros x [->|Hxf]%elem_of_cons; [|apply Hn, elem_of_app; by left].
      apply nested_node; [|apply Forall_forall; intros y Hy; apply Hn, elem_of_app; by right].
      apply (local_ok_frame (view s1)); [apply Hri|by apply Hu| |done].
      intros k Hk. rewrite (same_blocks_chl _ _ _ (ri_same _ _ Hri1)) in Hk.
      destruct (shape_sub _ _ _ _ Hsh Hx) as [p' Hsx].
      pose proof (shape_chl _ _ _ Hsx) as Hc. cbn [kids label] in Hc. rewrite Hc in Hk.
      apply list_elem_of_In, in_map_iff in Hk as (tk & <- & Hk%list_elem_of_In).
      apply Hu, forest_untouched_root; [done|]. apply elem_of_app. by right.
    + intros x Hux. assert (forall y, y ∈ ts -> x ∉ nodes y) as Hno.
      { intros y Hy Hxy. assert (x = h) as -> by (apply (Hux (Node h ts)); [by left|by apply (nodes_kid (Node h ts) y)]).
        apply Hh', elem_concat_map. exists y. split; [apply elem_of_app; by right|done]. }
      rewrite Hu.
      * apply Ho1. intros (tk & <- & Hk%list_elem_of_In)%list_elem_of_In%in_map_iff. by apply (Hno tk), nodes_self.
      * intros y [Hy|Hy]%elem_of_app Hxy; [apply Hux; [by right|done]|by apply (Hno y) in Hxy].
Qed.
End loop.

Section whole.
Context (p : hash) (t : rtree) (slack : Z) (fuel : nat).
Hypothesis Hbound : Z.of_nat (tsize t) < 2 ^ 64.
Hypothesis Hnd : NoDup (nodes t).
Hypothesis Hfuel : (tsize t <= fuel)%nat.

(** The state of a reindex operation: the store holds the tree and the cached
    sizes are right. *)
Record reindexing_state (s : T) (sz : gmap hash Z) : Prop := {
  rx_ok : store_ok s;
  rx_shape : shape (view s) p t;
  rx_sizes : sizes_ok t sz;
}.

Lemma reindexing_state_step s s' sz sz' :
  reindexing_state s sz -> reindexed s s' -> sizes_ok t sz' -> reindexing_state s' sz'.
Proof. intros [] Hri Hsz. split; [apply Hri|by eapply reindexed_shape|done]. Qed.

Lemma propagate_interval_run tb s sz :
  reindexing_state s sz -> tb ∈ subtrees t -> iv_ok (ivl (view s) (label tb)) ->
  Z.of_nat (tsize tb) <= width (ivl (view s) (label tb)) ->
  exists s' sz', propagate_interval fuel (label tb) (mk_ctx s sz slack) = (mk_ctx s' sz' slack, Ok tt) /\
    reindexed s s' /\ sizes_ok t sz' /\ nested (view s') tb /\
    (forall h, (h ∈ nodes tb -> h = label tb) -> ivl (view s') h = ivl (view s) h).
Proof.
  intros [Hok Hsh Hsz] Htb Hiv Hcap. pose proof (tsize_sub _ _ Htb).
  destruct (count_subtrees_run s p t tb slack Hok Hsh Hnd Hbound Htb fuel sz ltac:(lia) Hsz) as (sz' & Hr & Hsz' & Hk & _).
  unfold propagate_interval. erewrite st_bind_run by exact Hr.
  destruct (propagate_loop_run p t sz' slack Hbound Hsz' fuel [tb] s) as (s' & Hr' & Hri & Hn & Hu); [simpl; lia|done|done|..].
  - split; try (intros x ->%list_elem_of_singleton; done). simpl. rewrite app_nil_r. by eapply NoDup_sub.
  - exists s', sz'. split_and!; [done..| |].
    + apply Hn. by left.
    + intros h Hh. apply Hu. intros x ->%list_elem_of_singleton. done.
Qed.

(** Giving a block a new interval and reallocating the subtree below it. *)
Lemma set_and_propagate tb s sz i :
  reindexing_state s sz -> tb ∈ subtrees t -> iv_ok i -> Z.of_nat (tsize tb) <= width i ->
  exists s' sz',
    (_ ← store_set_interval (label tb) i; propagate_interval fuel (label tb)) (mk_ctx s sz slack) =
      (mk_ctx s' sz' slack, Ok tt) /\
    reindexed s s' /\ sizes_ok t sz' /\ nested (view s') tb /\ ivl (view s') (label tb) = i /\
    (forall h, h ∉ nodes tb -> ivl (view s') h = ivl (view s) h).
Proof.
  intros Hrx Htb Hiv Hcap. destruct (set_interval_run s sz slack (label tb) i) as (s1 & Hr1 & Hri1 & Hi1); [apply Hrx| |].
  { eapply shape_lookup; [apply Hrx|]. apply nodes_subtree. eauto. }
  erewrite st_bind_run by exact Hr1.
  destruct (propagate_interval_run tb s1 sz) as (s' & sz' & Hr & Hri & Hsz' & Hn & Hu).
  - eapply reindexing_state_step; [done..|apply Hrx].
  - done.
  - by rewrite Hi1, decide_True.
  - by rewrite Hi1, decide_True.
  - exists s', sz'. split_and!; [done|by eapply reindexed_trans|done|done|..].
    + rewrite Hu by done. by rewrite Hi1, decide_True.
    + intros h Hh. rewrite Hu by done. rewrite Hi1, decide_False; [done|]. intros ->. by apply Hh, nodes_self.
Qed.

Lemma apply_interval_op_and_propagate_run tb s sz o f :
  reindexing_state s sz -> tb ∈ subtrees t -> iv_ok (f (ivl (view s) (label tb)) o) ->
  Z.of_nat (tsize tb) <= width (f (ivl (view s) (label tb)) o) ->
  exists s' sz',
    apply_interval_op_and_propagate fuel (label tb) o f (mk_ctx s sz slack) = (mk_ctx s' sz' slack, Ok tt) /\
    reindexed s s' /\ sizes_ok t sz' /\ nested (view s') tb /\
    ivl (view s') (label tb) = f (ivl (view s) (label tb)) o /\
    (forall h, h ∉ nodes tb -> ivl (view s') h = ivl (view s) h).
Proof.
  intros Hrx Htb Hiv Hcap. unfold apply_interval_op_and_propagate. erewrite st_bind_run.
  2:{ apply get_interval_run; [apply Hrx|]. eapply shape_lookup; [apply Hrx|]. apply nodes_subtree. eauto. }
  by apply set_and_propagate.
Qed.

Lemma apply_interval_op_run tb s sz o f :
  reindexing_state s sz -> tb ∈ subtrees t ->
  exists s', apply_interval_op (label tb) o f (mk_ctx s sz slack) = (mk_ctx s' sz slack, Ok tt) /\
    reindexed s s' /\ forall h, ivl (view s') h = if decide (h = label tb) then f (ivl (view s) (label tb)) o else ivl (view s) h.
Proof.
  intros Hrx Htb. assert (is_Some (view s !! label tb)) as Hs.
  { eapply shape_lookup; [apply Hrx|]. apply nodes_subtree. eauto. }
  unfold apply_interval_op. erewrite st_bind_run by (apply get_interval_run; [apply Hrx|done]).
  apply set_interval_run; [apply Hrx|done].
Qed.
End whole.
End propagate.
