(* ===== verification/ReachSides.v ===== *)
(** The two mirrored halves of the slack reclaiming code ([.._before] and
    [.._after] of reindex.rs) as one development over a direction: the interval
    arithmetic of shrinking a block, moving its siblings and measuring slack. *)

From S2P Require Import Prelude Access Interval Reach ReachTree.

Inductive dir := Before | After.

(** The siblings of a block on the side of [d], nearest first, and the others. *)
Definition near {A} (d : dir) (b a : list A) : list A := match d with Before => reverse b | After => a end.
Definition far {A} (d : dir) (b a : list A) : list A := match d with Before => a | After => b end.

Definition arr {A} (d : dir) (ns : list A) (x : A) (fs : list A) : list A :=
  match d with Before => reverse ns ++ x :: fs | After => fs ++ x :: ns end.

Definition shrink (d : dir) : Interval -> Z -> Interval := match d with Before => increase_start | After => decrease_end end.
Definition extend (d : dir) : Interval -> Z -> Interval := match d with Before => increase_end | After => decrease_start end.
Definition move (d : dir) : Interval -> Z -> Interval := match d with Before => increase | After => decrease end.

Definition slack_of (d : dir) (i : Interval) (cs : list Interval) : Z :=
  match d with
  | Before => match head cs with Some c => iv_start c - iv_start i | None => 0 end
  | After => match last cs with Some c => iv_end i - 1 - iv_end c | None => 0 end
  end.

(** How far a block is from the side's end of the [u64] range. *)
Definition pos (d : dir) (i : Interval) : Z := match d with Before => iv_start i | After => U64_MAX - iv_end i end.

Definition shifted (z : Z) (i : Interval) : Interval := mk_interval (iv_start i + z) (iv_end i + z).
Definition sign (d : dir) (o : Z) : Z := match d with Before => o | After => - o end.

Lemma arr_near_far {A} d (b a : list A) x : arr d (near d b a) x (far d b a) = b ++ x :: a.
Proof. destruct d; simpl; [by rewrite reverse_involutive|done]. Qed.

Lemma map_arr {A B} (f : A -> B) d ns x fs : map f (arr d ns x fs) = arr d (map f ns) (f x) (map f fs).
Proof.
  destruct d; simpl; rewrite map_app; simpl; [|done]. f_equal.
  change (f <$> reverse ns = reverse (f <$> ns)). by rewrite fmap_reverse.
Qed.

Lemma elem_arr {A} d (ns : list A) x fs y : y ∈ arr d ns x fs <-> y ∈ ns \/ y = x \/ y ∈ fs.
Proof. destruct d; simpl; rewrite elem_of_app, elem_of_cons, ?elem_of_reverse; tauto. Qed.

(** ** Lists of intervals *)

Lemma inside_shift_up l lo hi x fs o :
  inside lo hi (l ++ x :: fs) -> 0 <= o <= width x ->
  inside (lo + o) hi (map (shifted o) l ++ mk_interval (iv_start x + o) (iv_end x) :: fs).
Proof.
  unfold width. revert lo. induction l as [|i l IH]; intros lo; simpl.
  - intros (? & ? & H) Ho. split_and!; [lia..|done].
  - intros (? & ? & H) Ho. specialize (IH _ H Ho).
    assert (iv_end i + o <= hi).
    { clear IH. apply inside_app in H as [Hl Hx]. simpl in Hx.
      assert (iv_end i + 1 <= match last l with Some i0 => iv_end i0 + 1 | None => iv_end i + 1 end); [|lia].
      destruct (last l) as [j|] eqn:E; [|lia]. rewrite last_lookup in E.
      destruct (inside_lookup _ _ _ _ _ Hl E). lia. }
    split_and!; [lia..|]. by replace (iv_end i + o + 1) with (iv_end i + 1 + o) by lia.
Qed.

Lemma inside_shift_down l lo hi n o :
  inside lo hi (l ++ n) -> 0 <= o -> inside (lo - o) hi (map (shifted (- o)) l ++ n).
Proof.
  revert lo. induction l as [|i l IH]; intros lo; simpl.
  - intros H Ho. eapply inside_mono; [done|lia..].
  - intros (? & ? & H) Ho. split_and!; [lia..|].
    replace (iv_end i + - o + 1) with (iv_end i + 1 - o) by lia. by apply IH.
Qed.

Lemma inside_tail lo hi l1 l2 : inside lo hi (l1 ++ l2) -> lo <= hi + 1 ->
  exists lo', lo <= lo' <= hi + 1 /\ inside lo' hi l2 /\ forall l2', inside lo' hi l2' -> inside lo hi (l1 ++ l2').
Proof.
  intros [H1 H2]%inside_app Hlo. eexists. split_and!; [| |exact H2|].
  3: intros l2' H'; by apply inside_app.
  all: destruct (last l1) as [j|] eqn:E; [|lia]; rewrite last_lookup in E; destruct (inside_lookup _ _ _ _ _ H1 E); lia.
Qed.

Lemma inside_hi lo hi hi' l : inside lo hi l -> (forall i, i ∈ l -> iv_end i <= hi') -> inside lo hi' l.
Proof.
  revert lo. induction l as [|i l IH]; intros lo H Hl; simpl in *; [done|]. destruct H as (? & ? & H).
  split_and!; [lia..|apply Hl; by left|]. apply IH; [done|]. intros; apply Hl; by right.
Qed.

Lemma inside_last lo hi l c x : inside lo hi l -> last l = Some c -> x ∈ l -> iv_end x <= iv_end c.
Proof.
  intros H Hc [k Hk]%list_elem_of_lookup. rewrite last_lookup in Hc. pose proof (lookup_lt_Some _ _ _ Hk).
  assert (k = pred (length l) \/ k < pred (length l))%nat as [->|Hlt] by lia; [simplify_eq; lia|].
  pose proof (inside_order _ _ _ _ _ _ _ H Hk Hc Hlt). destruct (inside_lookup _ _ _ _ _ H Hc). lia.
Qed.

Lemma inside_extend_down l lo hi a n o :
  inside lo hi (l ++ a :: n) -> 0 <= o ->
  inside (lo - o) hi (map (shifted (- o)) l ++ mk_interval (iv_start a - o) (iv_end a) :: n).
Proof.
  revert lo. induction l as [|i l IH]; intros lo; simpl.
  - intros (? & ? & H) Ho. split_and!; [lia..|done].
  - intros (? & ? & H) Ho. split_and!; [lia..|].
    replace (iv_end i + - o + 1) with (iv_end i + 1 - o) by lia. by apply IH.
Qed.

Lemma arr_middle d lo hi ns x fs :
  inside lo hi (arr d ns x fs) -> lo <= iv_start x <= iv_end x + 1 /\ iv_end x <= hi.
Proof.
  intros H. destruct d; eapply inside_lookup in H; try done; by apply list_lookup_middle.
Qed.

Lemma arr_order d lo hi ns x fs i :
  inside lo hi (arr d ns x fs) -> i ∈ ns ->
  lo <= iv_start i <= iv_end i + 1 /\ iv_end i <= hi /\ lo <= iv_start x <= iv_end x + 1 /\ iv_end x <= hi /\
  match d with Before => iv_end i < iv_start x | After => iv_end x < iv_start i end.
Proof.
  intros H Hi. destruct d; simpl in H.
  - assert (i ∈ reverse ns) as [k Hk]%list_elem_of_lookup by (by rewrite elem_of_reverse).
    pose proof (lookup_lt_Some _ _ _ Hk). pose proof (lookup_app_l_Some _ (x :: fs) _ _ Hk) as Hk'.
    pose proof (list_lookup_middle (reverse ns) fs x (length (reverse ns)) eq_refl) as Hx.
    pose proof (inside_lookup _ _ _ _ _ H Hk'). pose proof (inside_lookup _ _ _ _ _ H Hx).
    pose proof (inside_order _ _ _ _ _ _ _ H Hk' Hx ltac:(lia)). lia.
  - apply list_elem_of_lookup in Hi as [k Hk].
    assert ((fs ++ x :: ns) !! (length fs + S k)%nat = Some i) as Hk'.
    { rewrite lookup_app_r by lia. by replace (length fs + S k - length fs)%nat with (S k) by lia. }
    pose proof (list_lookup_middle fs ns x (length fs) eq_refl) as Hx.
    pose proof (inside_lookup _ _ _ _ _ H Hk'). pose proof (inside_lookup _ _ _ _ _ H Hx).
    pose proof (inside_order _ _ _ _ _ _ _ H Hx Hk' ltac:(lia)). lia.
Qed.

Section laws.
Context (d : dir) (o : Z).

Lemma shrink_ok i :
  iv_ok i -> 0 <= o <= width i ->
  iv_ok (shrink d i o) /\ width (shrink d i o) = width i - o /\
  shrink d i o = match d with Before => mk_interval (iv_start i + o) (iv_end i)
                         | After => mk_interval (iv_start i) (iv_end i - o) end.
Proof.
  intros [] Ho. unfold shrink, increase_start, decrease_end, Interval_new, width, U64_MAX in *. destruct d.
  - rewrite wadd64_small by lia. split_and!; [split; simpl; unfold U64_MAX; lia|simpl; lia|done].
  - rewrite wsub64_small by lia. split_and!; [split; simpl; unfold U64_MAX; lia|simpl; lia|done].
Qed.

(** A block can give up its slack. *)
Lemma shrink_inside i cs :
  iv_ok i -> cs <> [] -> inside (iv_start i) (iv_end i - 1) cs -> 0 <= o <= slack_of d i cs ->
  o <= width i - 1 /\ inside (iv_start (shrink d i o)) (iv_end (shrink d i o) - 1) cs.
Proof.
  intros Hi Hne Hin Ho. assert (o <= width i - 1) as Hw.
  { destruct d; unfold slack_of in Ho.
    - destruct (head cs) as [c|] eqn:E; [|by destruct cs]. rewrite head_lookup in E.
      destruct (inside_lookup _ _ _ _ _ Hin E). unfold width. lia.
    - destruct (last cs) as [c|] eqn:E; [|by apply last_None in E]. rewrite last_lookup in E.
      destruct (inside_lookup _ _ _ _ _ Hin E). unfold width. lia. }
  split; [done|]. destruct (shrink_ok i Hi ltac:(lia)) as (_ & _ & ->). destruct d; simpl in *.
  - destruct cs as [|c cs]; [done|]. simpl in *. destruct Hin as (?&?&?). split_and!; [lia..|done].
  - destruct (last cs) as [c|] eqn:E; [|by apply last_None in E].
    apply (inside_hi _ (iv_end i - 1)); [done|]. intros x Hx. pose proof (inside_last _ _ _ _ _ Hin E Hx). lia.
Qed.

(** The siblings of a block that shrinks can be moved by the same offset. *)
Section moving.
Context (lo hi : Z) (x : Interval) (fs : list Interval).
Hypothesis Hlo : 1 <= lo.
Hypothesis Hhi : hi < U64_MAX.
Hypothesis Hx : iv_ok x.
Hypothesis Ho : 0 <= o <= width x.

Lemma move_shifted ns i :
  inside lo hi (arr d ns x fs) -> i ∈ ns ->
  move d i o = shifted (sign d o) i /\ iv_ok (move d i o) /\ width (move d i o) = width i /\
  extend d i o = (match d with Before => mk_interval (iv_start i) (iv_end i + o)
                          | After => mk_interval (iv_start i - o) (iv_end i) end) /\
  iv_ok (extend d i o) /\ width (extend d i o) = width i + o.
Proof.
  intros H Hi. destruct (arr_order _ _ _ _ _ _ _ H Hi) as (?&?&?&?&Hd). destruct Hx.
  unfold move, extend, shifted, sign, increase, decrease, increase_end, decrease_start, Interval_new, width, U64_MAX in *.
  destruct d.
  - rewrite !wadd64_small by lia. split_and!; try done; try (split; simpl; unfold U64_MAX; lia); simpl; lia.
  - rewrite !wsub64_small by lia. split_and!; try done; try (split; simpl; unfold U64_MAX; lia); simpl; lia.
Qed.

Lemma map_move_shifted ns l :
  inside lo hi (arr d ns x fs) -> (forall i, i ∈ l -> i ∈ ns) ->
  map (fun i => move d i o) l = map (shifted (sign d o)) l.
Proof. intros H Hl. apply map_ext_in. intros i Hi. apply (move_shifted ns); [done|]. apply Hl. by apply list_elem_of_In. Qed.

Lemma inside_moved n1 n2 :
  inside lo hi (arr d (n1 ++ n2) x fs) ->
  inside lo hi (arr d (map (fun i => move d i o) n1 ++ n2) (shrink d x o) fs).
Proof.
  intros H. rewrite (map_move_shifted _ _ H) by set_solver. destruct (shrink_ok x Hx Ho) as (_ & _ & ->).
  pose proof (arr_middle _ _ _ _ _ _ H).
  destruct d; simpl in *.
  - rewrite reverse_app, <-!app_assoc in H |- *.
    destruct (inside_tail _ _ _ _ H ltac:(lia)) as (lo' & ? & Hin & Hrep). apply Hrep.
    change (map (shifted o) n1) with (shifted o <$> n1). rewrite <-fmap_reverse.
    apply (inside_mono (lo' + o) _ hi); [by apply inside_shift_up|lia|lia].
  - destruct (inside_tail _ _ _ _ H ltac:(lia)) as (lo' & ? & (? & ? & Hin) & Hrep). apply Hrep. simpl.
    unfold width in Ho. split_and!; [lia..|]. replace (iv_end x - o + 1) with (iv_end x + 1 - o) by lia.
    apply inside_shift_down; [done|lia].
Qed.

Lemma inside_extended n1 a n2 :
  inside lo hi (arr d (n1 ++ a :: n2) x fs) ->
  inside lo hi (arr d (map (fun i => move d i o) n1 ++ extend d a o :: n2) (shrink d x o) fs).
Proof.
  intros H. rewrite (map_move_shifted _ _ H) by set_solver. destruct (shrink_ok x Hx Ho) as (_ & _ & ->).
  destruct (move_shifted (n1 ++ a :: n2) a H ltac:(set_solver)) as (_&_&_&->&[Hext1 Hext2 Hext3]&_).
  destruct (arr_order _ _ _ _ _ _ a H ltac:(set_solver)) as (?&?&?&?&Hd). unfold width in Ho.
  destruct d; simpl in *.
  - rewrite reverse_app, reverse_cons, <-!app_assoc in H |- *. simpl in *.
    destruct (inside_tail _ _ _ _ H ltac:(lia)) as (lo' & ? & (? & ? & Hin) & Hrep). apply Hrep. simpl.
    change (map (shifted o) n1) with (shifted o <$> n1). rewrite <-fmap_reverse. split_and!; [lia..|].
    replace (iv_end a + o + 1) with (iv_end a + 1 + o) by lia. apply inside_shift_up; [done|unfold width; lia].
  - destruct (inside_tail _ _ _ _ H ltac:(lia)) as (lo' & ? & (? & ? & Hin) & Hrep). apply Hrep. simpl.
    split_and!; [lia..|]. replace (iv_end x - o + 1) with (iv_end x + 1 - o) by lia.
    apply inside_extend_down; [done|lia].
Qed.

(** The slack of the parent grows by the offset. *)
Lemma slack_moved ip ns :
  inside lo hi (arr d ns x fs) ->
  slack_of d ip (arr d (map (fun i => move d i o) ns) (shrink d x o) fs) = slack_of d ip (arr d ns x fs) + o.
Proof.
  intros H. rewrite (map_move_shifted _ _ H) by done. destruct (shrink_ok x Hx Ho) as (_ & _ & ->).
  destruct d; simpl in *.
  - change (map (shifted o) ns) with (shifted o <$> ns). rewrite <-fmap_reverse.
    destruct (reverse ns); simpl; lia.
  - clear H. destruct ns as [|n ns _] using rev_ind; [simpl; rewrite !last_snoc; simpl; lia|].
    rewrite map_app. cbn [map]. rewrite !app_comm_cons, !app_assoc, !last_snoc. simpl. lia.
Qed.
End moving.
End laws.

Lemma slack_nonneg d i cs : inside (iv_start i) (iv_end i - 1) cs -> 0 <= slack_of d i cs.
Proof.
  intros H. destruct d; simpl.
  - destruct (head cs) eqn:E; [|done]. rewrite head_lookup in E. destruct (inside_lookup _ _ _ _ _ H E). lia.
  - destruct (last cs) eqn:E; [|done]. rewrite last_lookup in E. destruct (inside_lookup _ _ _ _ _ H E). lia.
Qed.

(** The slacks of the blocks of a chain are disjoint. *)
Lemma pos_slack d i cs c :
  iv_ok i -> inside (iv_start i) (iv_end i - 1) cs -> c ∈ cs ->
  0 <= pos d i /\ pos d i + slack_of d i cs <= pos d c /\ pos d i + slack_of d i cs < 2 ^ 64.
Proof.
  intros [] H Hc. unfold pos, U64_MAX in *. pose proof Hc as [k Hk]%list_elem_of_lookup.
  pose proof (inside_lookup _ _ _ _ _ H Hk). destruct d; simpl.
  - destruct (head cs) as [c0|] eqn:E; [|destruct cs; [by apply elem_of_nil in Hc|done]].
    rewrite head_lookup in E. pose proof (inside_lookup _ _ _ _ _ H E).
    assert (iv_start c0 <= iv_start c); [|lia]. destruct k as [|k]; [simplify_eq; lia|].
    pose proof (inside_order _ _ _ 0%nat (S k) _ _ H E Hk ltac:(lia)). lia.
  - destruct (last cs) as [c0|] eqn:E; [|apply last_None in E; subst; by apply elem_of_nil in Hc].
    pose proof (inside_last _ _ _ _ _ H E Hc). rewrite last_lookup in E. pose proof (inside_lookup _ _ _ _ _ H E). lia.
Qed.
