(* ===== verification/ReachReclaim.v ===== *)
(** Reclaiming slack for a block outside the subtree of the reindex root
    ([reclaim_interval_before]/[after] of reindex.rs): shrinking the blocks of
    the chain towards the reindex root and moving their siblings gives the
    allocation block the required capacity and keeps all intervals nested. *)

From S2P Require Import Prelude Access Interval Reach ReachTree ReachQueries ReachCount ReachPropagate ReachSides.

Lemma position_middle l1 (x : hash) l2 : x ∉ l1 -> position (l1 ++ x :: l2) x = Some (length l1).
Proof.
  induction l1 as [|y l1 IH]; intros Hx; simpl; [by rewrite bool_decide_true|].
  apply not_elem_of_cons in Hx as [Hne Hx]. rewrite bool_decide_false by done. by rewrite (IH Hx).
Qed.

Lemma split_children_middle l1 (x : hash) l2 : x ∉ l1 -> split_children (l1 ++ x :: l2) x = Ok (l1, l2).
Proof.
  intros Hx. unfold split_children. rewrite position_middle by done. rewrite take_app_length.
  rewrite drop_app_ge by lia. by replace (S (length l1) - length l1)%nat with 1%nat by lia.
Qed.

Section generic.
Context {T : Type} `{RS : ReachabilityStore T}.

Definition remaining (d : dir) : T -> hash -> result stop Interval :=
  match d with Before => interval_remaining_before | After => interval_remaining_after end.

Definition offset_siblings (d : dir) (fuel : nat) (allocation_block current : hash) (offset : Z) :
    st (ReindexOperationContext T) stop () :=
  parent ← store_get_parent current;
  children ← store_get_children parent;
  '(b, a) ← lift (split_children children current);
  offset_loop fuel allocation_block offset (extend d) (move d) (near d b a).

Lemma offset_siblings_before_eq : offset_siblings_before = offset_siblings Before.
Proof. reflexivity. Qed.

Lemma offset_siblings_after_eq : offset_siblings_after = offset_siblings After.
Proof. reflexivity. Qed.

Section fix_dir.
Context (d : dir).

Fixpoint reclaim_up (walk fuel : nat) (allocation_block reindex_root : hash) (required_allocation : Z)
    (current : hash) (slack_sum path_len : Z) : st (ReindexOperationContext T) stop (hash * Z) :=
  slack ← gets cx_slack;
  if bool_decide (current = reindex_root) then
    let offset := wsub64 (wadd64 required_allocation (wmul64 slack path_len)) slack_sum in
    _ ← apply_interval_op_and_propagate fuel current offset (shrink d);
    _ ← offset_siblings d fuel allocation_block current offset;
    mret (current, slack)
  else
    match walk with
    | O => throw Diverges
    | S walk' =>
        r ← ask (fun s => remaining d s current);
        let slack_here := interval_size r in
        let slack_sum := wadd64 slack_sum slack_here in
        if required_allocation <=? slack_sum then
          let offset := wsub64 slack_here (wsub64 slack_sum required_allocation) in
          _ ← apply_interval_op current offset (shrink d);
          _ ← offset_siblings d fuel allocation_block current offset;
          mret (current, 0)
        else
          next ← ask (fun s => get_next_chain_ancestor_unchecked s reindex_root current);
          reclaim_up walk' fuel allocation_block reindex_root required_allocation next slack_sum
            (wadd64 path_len 1)
    end.

Fixpoint reclaim_down (walk fuel : nat) (allocation_block common_ancestor : hash) (path_slack_alloc : Z)
    (current : hash) : st (ReindexOperationContext T) stop () :=
  match walk with
  | O => throw Diverges
  | S walk' =>
      current ← store_get_parent current;
      if bool_decide (current = common_ancestor) then mret tt
      else
        r ← ask (fun s => remaining d s current);
        let offset := wsub64 (interval_size r) path_slack_alloc in
        _ ← apply_interval_op current offset (shrink d);
        _ ← offset_siblings d fuel allocation_block current offset;
        reclaim_down walk' fuel allocation_block common_ancestor path_slack_alloc current
  end.
End fix_dir.

Definition reclaim (d : dir) (fuel : nat) (allocation_block common_ancestor chosen_child reindex_root : hash)
    (required_allocation : Z) : st (ReindexOperationContext T) stop () :=
  '(current, path_slack_alloc) ←
    reclaim_up d fuel fuel allocation_block reindex_root required_allocation chosen_child 0 0;
  reclaim_down d fuel fuel allocation_block common_ancestor path_slack_alloc current.

Lemma reclaim_before_eq : reclaim_interval_before = reclaim Before.
Proof. reflexivity. Qed.

Lemma reclaim_after_eq : reclaim_interval_after = reclaim After.
Proof. reflexivity. Qed.

Lemma offset_loop_app fuel A o f g l1 l2 c c' :
  A ∉ l1 -> offset_loop (T := T) fuel A o f g l1 c = (c', Ok tt) ->
  offset_loop fuel A o f g (l1 ++ l2) c = offset_loop fuel A o f g l2 c'.
Proof.
  revert c. induction l1 as [|x l1 IH]; intros c HA; cbn [offset_loop app].
  - by intros [= ->].
  - apply not_elem_of_cons in HA as [Hne HA]. rewrite !bool_decide_false by done.
    intros (c1 & [] & H1 & H2)%st_bind_ok. erewrite st_bind_run by exact H1. by apply IH.
Qed.
End generic.

Section reclaim.
Context {T : Type} `{RS : ReachabilityStore T, RL : !ReachabilityStoreLaws T}.
Context (p : hash) (t : rtree) (slack : Z) (fuel : nat) (d : dir) (tA : rtree).
Hypothesis Hbound : Z.of_nat (tsize t) < 2 ^ 64.
Hypothesis Hnd : NoDup (nodes t).
Hypothesis Hfuel : (tsize t <= fuel)%nat.
Hypothesis HtA : tA ∈ subtrees t.

Abbreviation rstate := (reindexing_state p t).
Abbreviation iv s x := (ivl (view s) (label x)).

(** Everything outside the subtree of the allocation block is nested. *)
Definition good (s : T) : Prop := forall h, h ∈ nodes t -> h ∉ nodes tA -> local_ok (view s) h.

(** A change inside the subtree of [S], a child of [P], leaves all other blocks
    as they are. *)
Lemma frame_update s s1 sz P S h :
  rstate s sz -> reindexed s s1 -> P ∈ subtrees t -> S ∈ kids P ->
  (forall x, x ∉ nodes S -> ivl (view s1) x = ivl (view s) x) ->
  h ∈ nodes t -> h ∉ nodes S -> h <> label P -> local_ok (view s) h -> local_ok (view s1) h.
Proof.
  intros Hrx Hri HP HS Hsame Hh HhS HhP. apply local_ok_frame; [apply Hri|by apply Hsame|].
  intros k Hk. apply Hsame. intros HkS. apply nodes_subtree in Hh as (th & Hth & <-).
  destruct (shape_sub _ _ _ _ (rx_shape _ _ _ _ Hrx) Hth) as [ph Hph]. rewrite (shape_chl _ _ _ Hph) in Hk.
  apply list_elem_of_In, in_map_iff in Hk as (tk & <- & Hk%list_elem_of_In).
  assert (S ∈ subtrees t) as HSt by exact (subtrees_kid_of _ _ _ HP HS).
  apply nodes_subtree in HkS as (tk' & Htk' & El).
  assert (tk' = tk) as ->.
  { eapply label_inj; [exact Hnd|exact (subtrees_trans _ _ _ Htk' HSt)|exact (subtrees_kid_of _ _ _ Hth Hk)|done]. }
  destruct (subtree_parent _ _ Htk') as [->|(y & Hy & Hky)].
  - apply HhP. f_equal. exact (parent_unique (view s) _ _ _ _ _ Hnd (rx_shape _ _ _ _ Hrx) Hth HP Hk HS).
  - apply HhS. assert (y = th) as ->.
    { eapply (parent_unique (view s)); [exact Hnd|apply Hrx|exact (subtrees_trans _ _ _ Hy HSt)|done..]. }
    apply nodes_subtree. eauto.
Qed.

Lemma rstate_chl s sz P : rstate s sz -> P ∈ subtrees t -> chl (view s) (label P) = map label (kids P).
Proof. intros Hrx HP. destruct (shape_sub _ _ _ _ (rx_shape _ _ _ _ Hrx) HP) as [p' Hs]. by eapply shape_chl. Qed.

(** Siblings have disjoint subtrees, and none contains the parent. *)
Lemma kids_disjoint P S S' h : P ∈ subtrees t -> S ∈ kids P -> S' ∈ kids P -> h ∈ nodes S -> h ∈ nodes S' -> S = S'.
Proof.
  intros HP HS HS' Hh Hh'. pose proof (NoDup_sub _ _ Hnd HP) as HndP. destruct P as [l ts]. simpl in *.
  apply NoDup_cons in HndP as [_ HndP]. apply list_elem_of_lookup in HS as [i Hi].
  apply list_elem_of_lookup in HS' as [j Hj]. assert (i = j) as ->; [|congruence].
  revert i j Hi Hj. clear HP. induction ts as [|x ts IH]; intros i j Hi Hj; [by rewrite lookup_nil in Hi|].
  simpl in HndP. apply NoDup_app in HndP as (_ & H1 & H2).
  destruct i as [|i], j as [|j]; simplify_eq/=; [done| | |f_equal; by apply IH]; exfalso; eapply H1; try done;
    apply elem_concat_map; eexists; (split; [by eapply list_elem_of_lookup_2|done]).
Qed.

Lemma parent_not_below P S : P ∈ subtrees t -> S ∈ kids P -> label P ∉ nodes S.
Proof.
  intros HP HS. pose proof (NoDup_sub _ _ Hnd HP) as HndP. destruct P as [l ts]. simpl in *.
  apply NoDup_cons in HndP as [H _]. intros Hl. apply H, elem_concat_map. eauto.
Qed.

Lemma good_nested s S : good s -> S ∈ subtrees t -> (forall h, h ∈ nodes S -> h ∉ nodes tA) -> nested (view s) S.
Proof. intros Hg HS Hdis h Hh. apply Hg; [by eapply nodes_sub|by apply Hdis]. Qed.

Lemma map_eq_elem {A B} (f g : A -> B) l x : map f l = map g l -> x ∈ l -> f x = g x.
Proof. induction l as [|y l IH]; [by intros _ ?%elem_of_nil|]. intros [= Hy Hl] [->|Hx]%elem_of_cons; auto. Qed.

Lemma arr_perm {A} d' (ns : list A) x fs : arr d' ns x fs ≡ₚ ns ++ x :: fs.
Proof. destruct d'; simpl; [by rewrite reverse_Permutation|]. by rewrite <-(Permutation_middle fs), <-(Permutation_middle ns), (Permutation_app_comm fs). Qed.

Lemma arr_labels_ne d' n1 S n2 X fs y :
  NoDup (map label (arr d' (n1 ++ S :: n2) X fs)) -> y ∈ n1 \/ y ∈ n2 \/ y = X \/ y ∈ fs -> label y <> label S.
Proof.
  intros Hl Hy E. rewrite (Permutation_map label (arr_perm d' (n1 ++ S :: n2) X fs)) in Hl.
  rewrite <-app_assoc in Hl. simpl in Hl. rewrite <-Permutation_middle in Hl. simpl in Hl.
  apply NoDup_cons in Hl as [Hl _]. apply Hl. rewrite <-E. apply list_elem_of_In, in_map, list_elem_of_In. set_solver.
Qed.

Section siblings.
Context (P X : rtree) (fs : list rtree) (x : Interval) (o : Z).
Hypothesis HP : P ∈ subtrees t.
Hypothesis HPA : label P ∉ nodes tA.
Hypothesis Hx : iv_ok x.
Hypothesis Ho : 0 <= o <= width x.

(** The siblings [n1] are moved, [n2] are not; [x] shrank to [shrink d x o]. *)
Record moving (n1 n2 : list rtree) (N1 : list Interval) (s : T) : Prop := {
  mv_kids : kids P = arr d (n1 ++ n2) X fs;
  mv_good : good s;
  mv_done : map (fun k => iv s k) n1 = map (fun i => move d i o) N1;
  mv_x : iv s X = shrink d x o;
  mv_inside : inside (iv_start (iv s P)) (iv_end (iv s P) - 1)
                (arr d (N1 ++ map (fun k => iv s k) n2) x (map (fun k => iv s k) fs));
}.

Lemma moving_local n1 n2 N1 s : moving n1 n2 N1 s -> 1 <= iv_start (iv s P) /\ iv_end (iv s P) - 1 < U64_MAX.
Proof.
  intros Hm. destruct (mv_good _ _ _ _ Hm (label P)) as [[Hl Hh _] _ _]; [|done|lia].
  apply nodes_subtree. eauto.
Qed.

Lemma children_map s sz : rstate s sz -> map (ivl (view s)) (chl (view s) (label P)) = map (fun k => iv s k) (kids P).
Proof. intros Hrx. by rewrite (rstate_chl s sz P Hrx HP), map_map. Qed.

(** Moving one sibling. *)
Lemma move_sibling n1 S n2 N1 s sz :
  rstate s sz -> moving n1 (S :: n2) N1 s -> (forall h, h ∈ nodes S -> h ∉ nodes tA) ->
  exists s' sz',
    apply_interval_op_and_propagate fuel (label S) o (move d) (mk_ctx s sz slack) = (mk_ctx s' sz' slack, Ok tt) /\
    reindexed s s' /\ sizes_ok t sz' /\ moving (n1 ++ [S]) n2 (N1 ++ [iv s S]) s' /\
    (forall h, h ∉ nodes S -> ivl (view s') h = ivl (view s) h).
Proof.
  intros Hrx Hm Hdis. destruct (moving_local _ _ _ _ Hm) as [Hlo Hhi].
  pose proof Hm as [Hk Hg Hd Hxs Hin]. cbn [map] in Hin.
  assert (HS : S ∈ kids P) by (rewrite Hk; apply elem_arr; left; set_solver).
  assert (HSt : S ∈ subtrees t) by exact (subtrees_kid_of _ _ _ HP HS).
  destruct (move_shifted d o _ _ x _ Hlo Hhi Hx Ho _ (iv s S) Hin ltac:(set_solver)) as (_ & Hok & Hw & _).
  destruct (shape_sub _ _ _ _ (rx_shape _ _ _ _ Hrx) HSt) as [pS HpS].
  pose proof (nested_capacity _ _ _ HpS (good_nested s S Hg HSt Hdis)) as Hcap.
  destruct (apply_interval_op_and_propagate_run p t slack fuel Hbound Hnd Hfuel S s sz o (move d) Hrx HSt Hok
              ltac:(lia)) as (s' & sz' & Hr & Hri & Hsz' & Hn & HivS & Hsame).
  assert (Hother : forall y, y ∈ kids P -> label y <> label S -> iv s' y = iv s y).
  { intros y Hy Hne. apply Hsame. intros Hin'. apply Hne. f_equal. eapply kids_disjoint; [exact HP|done|exact HS| |exact Hin'].
    apply nodes_self. }
  assert (Heq : forall y, y ∈ n1 \/ y ∈ n2 \/ y = X \/ y ∈ fs -> iv s' y = iv s y).
  { intros y Hy. apply Hother; [rewrite Hk; apply elem_arr; set_solver|].
    apply (arr_labels_ne d n1 S n2 X fs); [|done]. rewrite <-Hk. apply NoDup_kids. by eapply NoDup_sub. }
  assert (Hmap : forall l, (forall y, y ∈ l -> y ∈ n1 \/ y ∈ n2 \/ y = X \/ y ∈ fs) ->
    map (fun k => iv s' k) l = map (fun k => iv s k) l).
  { intros l Hl. apply map_ext_in. intros y Hy%list_elem_of_In. by apply Heq, Hl. }
  assert (HivP : iv s' P = iv s P) by (apply Hsame; by apply parent_not_below).
  assert (Hm' : map (fun k => iv s' k) (n1 ++ [S]) = map (fun i => move d i o) (N1 ++ [iv s S])).
  { rewrite !map_app, (Hmap n1), Hd by auto. cbn [map]. by rewrite HivS. }
  exists s', sz'. split_and!; [done..| |done]. split.
  - by rewrite Hk, <-app_assoc.
  - intros h Hh HhA. destruct (decide (h ∈ nodes S)) as [HhS|HhS]; [by apply Hn|].
    destruct (decide (h = label P)) as [->|HhP].
    + destruct (Hg (label P) Hh HhA) as [Hl1 Hl2 _]. split; rewrite ?HivP; [done..|].
      rewrite (children_map s' sz') by (eapply reindexing_state_step; [done..]).
      rewrite Hk, map_arr, Heq, Hxs by auto. rewrite (Hmap fs) by auto.
      replace (n1 ++ S :: n2) with ((n1 ++ [S]) ++ n2) by (by rewrite <-app_assoc).
      rewrite map_app, Hm', (Hmap n2) by auto.
      apply inside_moved; [done..|]. by rewrite <-app_assoc.
    + eapply (frame_update s s' sz P S); try done. by apply Hg.
  - done.
  - rewrite Heq by auto. done.
  - rewrite HivP, (Hmap n2), (Hmap fs) by auto. by rewrite <-app_assoc.
Qed.

(** Moving all siblings of a list without the allocation block. *)
Lemma move_siblings n2 rest n1 N1 s sz :
  rstate s sz -> moving n1 (n2 ++ rest) N1 s -> (forall S h, S ∈ n2 -> h ∈ nodes S -> h ∉ nodes tA) ->
  exists s' sz',
    offset_loop fuel (label tA) o (extend d) (move d) (map label n2) (mk_ctx s sz slack) = (mk_ctx s' sz' slack, Ok tt) /\
    reindexed s s' /\ sizes_ok t sz' /\ moving (n1 ++ n2) rest (N1 ++ map (fun k => iv s k) n2) s' /\
    (forall h, (forall S, S ∈ n2 -> h ∉ nodes S) -> ivl (view s') h = ivl (view s) h).
Proof.
  revert n1 N1 s sz. induction n2 as [|S n2 IH]; intros n1 N1 s sz Hrx Hm Hdis; cbn [offset_loop map].
  { exists s, sz. rewrite !app_nil_r. split_and!; [done|apply reindexed_refl, Hrx|apply Hrx|done..]. }
  rewrite bool_decide_false.
  2:{ intros E. apply (Hdis S (label S)); [by left|apply nodes_self|]. rewrite E. apply nodes_self. }
  destruct (move_sibling n1 S (n2 ++ rest) N1 s sz Hrx Hm) as (s1 & sz1 & Hr1 & Hri1 & Hsz1 & Hm1 & Hs1).
  { intros h. apply Hdis. by left. }
  erewrite st_bind_run by exact Hr1.
  assert (map (fun k => iv s1 k) n2 = map (fun k => iv s k) n2) as Hmap.
  { apply map_ext_in. intros y Hy%list_elem_of_In. apply Hs1. intros HyS.
    pose proof (mv_kids _ _ _ _ Hm) as Hk. cbn [app] in Hk.
    assert (HS : S ∈ kids P) by (rewrite Hk; apply elem_arr; left; set_solver).
    assert (Hy' : y ∈ kids P) by (rewrite Hk; apply elem_arr; left; set_solver).
    pose proof (kids_disjoint P y S _ HP Hy' HS (nodes_self y) HyS) as ->.
    apply (arr_labels_ne d n1 S (n2 ++ rest) X fs S); [rewrite <-Hk; apply NoDup_kids; by eapply NoDup_sub|set_solver|done]. }
  destruct (IH (n1 ++ [S]) (N1 ++ [iv s S]) s1 sz1) as (s' & sz' & Hr & Hri & Hsz' & Hm' & Hs').
  - by eapply reindexing_state_step.
  - done.
  - intros S' h HS'. apply Hdis. by right.
  - exists s', sz'. split_and!; [done|by eapply reindexed_trans|done|..].
    + rewrite <-!app_assoc, Hmap in Hm'. done.
    + intros h Hh. rewrite Hs' by (intros S' HS'; apply Hh; by right). apply Hs1, Hh. by left.
Qed.

(** Extending the allocation block completes the operation. *)
Lemma extend_allocation n1 n2 N1 s sz :
  rstate s sz -> moving n1 (tA :: n2) N1 s -> Z.of_nat (tsize tA) <= width (iv s tA) + o ->
  exists s' sz',
    apply_interval_op_and_propagate fuel (label tA) o (extend d) (mk_ctx s sz slack) = (mk_ctx s' sz' slack, Ok tt) /\
    reindexed s s' /\ sizes_ok t sz' /\ nested (view s') t /\
    (forall h, h ∉ nodes tA -> ivl (view s') h = ivl (view s) h).
Proof.
  intros Hrx Hm Hcap. destruct (moving_local _ _ _ _ Hm) as [Hlo Hhi].
  pose proof Hm as [Hk Hg Hd Hxs Hin]. cbn [map] in Hin.
  assert (HS : tA ∈ kids P) by (rewrite Hk; apply elem_arr; left; set_solver).
  destruct (move_shifted d o _ _ x _ Hlo Hhi Hx Ho _ (iv s tA) Hin ltac:(set_solver)) as (_ & _ & _ & _ & Hok & Hw).
  destruct (apply_interval_op_and_propagate_run p t slack fuel Hbound Hnd Hfuel tA s sz o (extend d) Hrx HtA Hok
              ltac:(lia)) as (s' & sz' & Hr & Hri & Hsz' & Hn & HivA & Hsame).
  assert (Heq : forall y, y ∈ n1 \/ y ∈ n2 \/ y = X \/ y ∈ fs -> iv s' y = iv s y).
  { intros y Hy. apply Hsame. intros HyA.
    assert (Hy' : y ∈ kids P) by (rewrite Hk; apply elem_arr; set_solver).
    pose proof (kids_disjoint P y tA _ HP Hy' HS (nodes_self y) HyA) as ->.
    by apply (arr_labels_ne d n1 tA n2 X fs tA); [rewrite <-Hk; apply NoDup_kids; by eapply NoDup_sub|..]. }
  assert (Hmap : forall l, (forall y, y ∈ l -> y ∈ n1 \/ y ∈ n2 \/ y = X \/ y ∈ fs) ->
    map (fun k => iv s' k) l = map (fun k => iv s k) l).
  { intros l Hl. apply map_ext_in. intros y Hy%list_elem_of_In. by apply Heq, Hl. }
  assert (HivP : iv s' P = iv s P) by by apply Hsame.
  exists s', sz'. split_and!; [done..| |done]. intros h Hh.
  destruct (decide (h ∈ nodes tA)) as [HhS|HhS]; [by apply Hn|].
  destruct (decide (h = label P)) as [->|HhP].
  - destruct (Hg (label P) Hh HhS) as [Hl1 Hl2 _]. split; rewrite ?HivP; [done..|].
    rewrite (children_map s' sz') by (eapply reindexing_state_step; [done..]).
    rewrite Hk, map_arr, Heq, Hxs by auto. rewrite (Hmap fs), map_app by auto. cbn [map].
    rewrite (Hmap n1), (Hmap n2), Hd, HivA by auto. by apply inside_extended.
  - eapply (frame_update s s' sz P tA); try done. by apply Hg.
Qed.
End siblings.

(** The call is the loop over the near siblings. *)
Lemma offset_siblings_unfold P X b a A o s sz :
  rstate s sz -> P ∈ subtrees t -> kids P = b ++ X :: a ->
  offset_siblings d fuel A (label X) o (mk_ctx s sz slack) =
  offset_loop fuel A o (extend d) (move d) (map label (near d b a)) (mk_ctx s sz slack).
Proof.
  intros Hrx HP Hk. assert (HX : X ∈ kids P) by (rewrite Hk; set_solver). unfold offset_siblings.
  erewrite st_bind_run by exact (get_parent_run s p t slack (rx_ok _ _ _ _ Hrx) (rx_shape _ _ _ _ Hrx) sz P X HP HX).
  erewrite st_bind_run by exact (get_children_run s p t slack (rx_ok _ _ _ _ Hrx) (rx_shape _ _ _ _ Hrx) sz P HP).
  erewrite st_bind_run.
  2:{ unfold lift. rewrite Hk, map_app. cbn [map]. rewrite split_children_middle; [reflexivity|].
      pose proof (NoDup_kids P (NoDup_sub _ _ Hnd HP)) as Hl. rewrite Hk, map_app in Hl.
      apply NoDup_app in Hl as (_ & H & _). intros Hin. apply (H _ Hin). by left. }
  cbn. f_equal. destruct d; simpl; [|done]. change (map label (reverse b)) with (label <$> reverse b).
  by rewrite fmap_reverse.
Qed.

(** ** One step of the chain *)

(** The slack of a block on the side of [d]. *)
Abbreviation sl s Z := (slack_of d (iv s Z) (map (fun k => iv s k) (kids Z))).

Lemma remaining_run s sz Z :
  rstate s sz -> Z ∈ subtrees t -> kids Z <> [] -> local_ok (view s) (label Z) ->
  exists r, ask (fun s => remaining d s (label Z)) (mk_ctx s sz slack) = (mk_ctx s sz slack, Ok r) /\ interval_size r = sl s Z.
Proof.
  intros Hrx HZ Hne [[Hl Hh _] Hpos Hin]. rewrite (rstate_chl s sz Z Hrx HZ), map_map in Hin.
  assert (Hst : forall k, k ∈ kids Z -> rs_get_interval s (label k) = Ok (iv s k)).
  { intros k Hk. apply get_interval_ivl; [apply Hrx|]. eapply shape_lookup; [apply Hrx|].
    apply nodes_subtree. exists k. split; [exact (subtrees_kid_of _ _ _ HZ Hk)|done]. }
  assert (Hcap : interval_children_capacity s (label Z) = Ok (mk_interval (iv_start (iv s Z)) (iv_end (iv s Z) - 1))).
  { unfold interval_children_capacity. rewrite get_interval_ivl; [|apply Hrx|].
    - cbn. unfold decrease_end, Interval_new. unfold width, U64_MAX in *. by rewrite wsub64_small by lia.
    - eapply shape_lookup; [apply Hrx|]. apply nodes_subtree. eauto. }
  assert (Hch : rs_get_children s (label Z) = Ok (map label (kids Z))).
  { rewrite get_children_chl, (rstate_chl s sz Z Hrx HZ); [done|apply Hrx|].
    eapply shape_lookup; [apply Hrx|]. apply nodes_subtree. eauto. }
  unfold ask, on_store, query. cbn [cx_store cx_sizes cx_slack].
  assert (exists r, remaining d s (label Z) = Ok r /\ interval_size r = sl s Z) as (r & -> & Hr); [|eauto].
  unfold width, U64_MAX in *. unfold remaining, interval_remaining_before, interval_remaining_after. destruct d.
  - rewrite Hcap, Hch. cbn [mbind result_bind stored stored_set slack_of]. destruct (kids Z) as [|k ks]; [done|]. cbn [map head].
    rewrite Hst by (by left). cbn [mbind result_bind stored stored_set]. eexists. split; [done|].
    simpl in Hin. unfold interval_size, Interval_new. cbn [iv_start iv_end].
    rewrite (wsub64_small (iv_start (iv s k))) by lia. rewrite wadd64_small by lia. rewrite wsub64_small by lia. lia.
  - rewrite Hcap, Hch. cbn [mbind result_bind stored stored_set slack_of].
    destruct (kids Z) as [|k ks _] using rev_ind; [done|]. rewrite !map_app in *. cbn [map] in *. rewrite !last_snoc.
    rewrite Hst by set_solver. cbn [mbind result_bind stored stored_set]. eexists. split; [done|].
    apply inside_app in Hin as [Hks Hk]. simpl in Hk.
    assert (iv_start (iv s Z) <= iv_end (iv s k) + 1 /\ iv_end (iv s k) + 1 <= iv_end (iv s Z)).
    { destruct (last (map _ ks)) as [j|] eqn:E; [|lia]. rewrite last_lookup in E. destruct (inside_lookup _ _ _ _ _ Hks E). lia. }
    unfold interval_size, Interval_new. cbn [iv_start iv_end].
    rewrite !wadd64_small by lia. rewrite wsub64_small by lia. lia.
Qed.

(** After the block [X] shrank by [o], its siblings can be moved. *)
Lemma start_moving s s1 sz P X b a o :
  rstate s sz -> reindexed s s1 -> good s -> P ∈ subtrees t -> kids P = b ++ X :: a -> label P ∉ nodes tA ->
  iv_ok (iv s X) -> 0 <= o <= width (iv s X) ->
  (forall h, h ∉ nodes X -> ivl (view s1) h = ivl (view s) h) -> iv s1 X = shrink d (iv s X) o -> nested (view s1) X ->
  moving P X (far d b a) (iv s X) o [] (near d b a) [] s1 /\
  map (fun k => iv s1 k) (near d b a) = map (fun k => iv s k) (near d b a) /\
  map (fun k => iv s1 k) (far d b a) = map (fun k => iv s k) (far d b a) /\ iv s1 P = iv s P.
Proof.
  intros Hrx Hri Hg HP Hk HPA Hx Ho Hsame Hx1 Hn1. rewrite <-(arr_near_far d b a X) in Hk.
  assert (HX : X ∈ kids P) by (rewrite Hk; apply elem_arr; auto).
  assert (Heq : forall y, y ∈ near d b a \/ y ∈ far d b a -> iv s1 y = iv s y).
  { intros y Hy. apply Hsame. intros HyX.
    assert (Hy' : y ∈ kids P) by (rewrite Hk; apply elem_arr; tauto).
    pose proof (kids_disjoint P y X _ HP Hy' HX (nodes_self y) HyX) as ->.
    pose proof (NoDup_kids P (NoDup_sub _ _ Hnd HP)) as Hl. rewrite Hk in Hl.
    rewrite (Permutation_map label (arr_perm d _ X _)), <-Permutation_middle in Hl. cbn [map] in Hl.
    apply NoDup_cons in Hl as [Hl _]. apply Hl, list_elem_of_In, in_map, list_elem_of_In, elem_of_app. done. }
  assert (Hmap : forall l, (forall y, y ∈ l -> y ∈ near d b a \/ y ∈ far d b a) ->
    map (fun k => iv s1 k) l = map (fun k => iv s k) l).
  { intros l Hl. apply map_ext_in. intros y Hy%list_elem_of_In. by apply Heq, Hl. }
  assert (HivP : iv s1 P = iv s P) by (apply Hsame; by apply parent_not_below).
  assert (HPn : label P ∈ nodes t) by (apply nodes_subtree; eauto).
  destruct (Hg _ HPn HPA) as [Hl1 Hl2 Hin]. rewrite (children_map P HP s sz Hrx), Hk, map_arr in Hin.
  assert (Hrx1 : rstate s1 sz) by (eapply reindexing_state_step; [done..|apply Hrx]).
  split_and!; [|by apply Hmap; auto..|done]. split; [done| |done|done|].
  - intros h Hh HhA. destruct (decide (h ∈ nodes X)) as [HhX|HhX]; [by apply Hn1|].
    destruct (decide (h = label P)) as [->|HhP]; [|eapply (frame_update s s1 sz P X); try done; by apply Hg].
    split; rewrite ?HivP; [done..|]. rewrite (children_map P HP s1 sz Hrx1), Hk, map_arr, Hx1.
    rewrite (Hmap (near d b a)), (Hmap (far d b a)) by auto.
    destruct Hl1 as [H1 H2 _]. apply (inside_moved d o _ _ (iv s X)) with (n1 := []); [done|lia|done..].
  - rewrite HivP, (Hmap (near d b a)), (Hmap (far d b a)) by auto. done.
Qed.

(** A chain block gives up part of its slack. *)
Lemma shrink_block_run s sz X o :
  rstate s sz -> X ∈ subtrees t -> nested (view s) X -> kids X <> [] -> 0 <= o <= sl s X ->
  exists s1, apply_interval_op (label X) o (shrink d) (mk_ctx s sz slack) = (mk_ctx s1 sz slack, Ok tt) /\
    reindexed s s1 /\ (forall h, h <> label X -> ivl (view s1) h = ivl (view s) h) /\
    iv s1 X = shrink d (iv s X) o /\ nested (view s1) X /\ 0 <= o <= width (iv s X).
Proof.
  intros Hrx HX Hn Hne Ho. destruct (apply_interval_op_run p t slack X s sz o (shrink d) Hrx HX) as (s1 & Hr & Hri & Hi).
  destruct (Hn _ (nodes_self X)) as [Hl1 Hl2 Hin]. rewrite (rstate_chl s sz X Hrx HX), map_map in Hin.
  destruct (shrink_inside d o (iv s X) (map (fun k => iv s k) (kids X)) Hl1) as [Hw Hin1]; [by destruct (kids X)|done|done|].
  destruct (shrink_ok d o (iv s X) Hl1 ltac:(lia)) as (Hs1 & Hs2 & _).
  assert (Hother : forall h, h <> label X -> ivl (view s1) h = ivl (view s) h) by (intros h Hh; by rewrite Hi, decide_False).
  assert (HivX : iv s1 X = shrink d (iv s X) o) by (by rewrite Hi, decide_True).
  assert (Hkid : forall k, k ∈ kids X -> label X ∉ nodes k) by (intros k Hk; by apply parent_not_below).
  exists s1. split_and!; [done|done|done|done| |lia|lia].
  - intros h Hh. destruct (decide (h = label X)) as [->|HhX].
    + split; rewrite ?HivX; [done|lia|]. rewrite (same_blocks_chl _ _ _ (ri_same _ _ Hri)), (rstate_chl s sz X Hrx HX), map_map.
      erewrite map_ext_in; [exact Hin1|]. intros k Hk%list_elem_of_In. apply Hother. intros E.
      apply (Hkid k Hk). rewrite <-E. apply nodes_self.
    + apply (local_ok_frame (view s)); [apply Hri|by apply Hother| |by apply Hn].
      intros k Hk. apply Hother. intros ->. destruct X as [l ts]. apply nodes_node in Hh as [->|(c & Hc & Hh)]; [done|].
      destruct (shape_sub _ _ _ _ (rx_shape _ _ _ _ Hrx) HX) as [pX HpX].
      pose proof (shape_kids _ _ _ c HpX Hc) as Hpc. apply nodes_subtree in Hh as (th & Hth & <-).
      destruct (shape_sub _ _ _ _ Hpc Hth) as [ph Hph]. rewrite (shape_chl _ _ _ Hph) in Hk.
      apply list_elem_of_In, in_map_iff in Hk as (tk & El & Hk%list_elem_of_In). apply (Hkid c Hc). cbn [label] in *.
      rewrite <-El. apply nodes_subtree. exists tk. split; [exact (subtrees_kid_of _ _ _ Hth Hk)|done].
Qed.

(** The siblings of a chain block do not contain its descendants. *)
Lemma near_apart P X b a : P ∈ subtrees t -> kids P = b ++ X :: a -> forall S, S ∈ near d b a -> forall h, h ∈ nodes X -> h ∉ nodes S.
Proof.
  intros HP Hk S HS h Hh HhS. rewrite <-(arr_near_far d b a X) in Hk.
  assert (HS' : S ∈ kids P) by (rewrite Hk; apply elem_arr; auto). assert (HX : X ∈ kids P) by (rewrite Hk; apply elem_arr; auto).
  pose proof (kids_disjoint P S X h HP HS' HX HhS Hh) as ->.
  pose proof (NoDup_kids P (NoDup_sub _ _ Hnd HP)) as Hl. rewrite Hk, (Permutation_map label (arr_perm d _ X _)), map_app in Hl.
  apply NoDup_app in Hl as (_ & Hl & _). apply (Hl (label X)); [apply list_elem_of_In, in_map, list_elem_of_In; done|by left].
Qed.

(** Moving the siblings of a chain block that has shrunk, below the common
    ancestor: the slack of its parent grows. *)
Lemma chain_step s s1 sz sz1 P X o :
  rstate s sz -> reindexed s s1 -> sizes_ok t sz1 -> good s -> P ∈ subtrees t -> X ∈ kids P ->
  (forall h, h ∈ nodes P -> h ∉ nodes tA) ->
  iv_ok (iv s X) -> 0 <= o <= width (iv s X) ->
  (forall h, h ∉ nodes X -> ivl (view s1) h = ivl (view s) h) -> iv s1 X = shrink d (iv s X) o -> nested (view s1) X ->
  exists s2 sz2, offset_siblings d fuel (label tA) (label X) o (mk_ctx s1 sz1 slack) = (mk_ctx s2 sz2 slack, Ok tt) /\
    reindexed s s2 /\ sizes_ok t sz2 /\ good s2 /\ sl s2 P = sl s P + o /\
    (forall h, h ∉ nodes P \/ h = label P -> ivl (view s2) h = ivl (view s) h) /\
    (forall h, h ∈ nodes X -> ivl (view s2) h = ivl (view s1) h).
Proof.
  intros Hrx Hri Hsz1 Hg HP HX Hdis Hx Ho Hsame Hx1 Hn1. apply list_elem_of_split in HX as (b & a & Hk).
  assert (HPA : label P ∉ nodes tA) by (apply Hdis, nodes_self).
  destruct (start_moving s s1 sz P X b a o Hrx Hri Hg HP Hk HPA Hx Ho Hsame Hx1 Hn1) as (Hm & En & Ef & EP).
  assert (Hrx1 : rstate s1 sz1) by by eapply reindexing_state_step.
  rewrite (offset_siblings_unfold P X b a _ o s1 sz1 Hrx1 HP Hk).
  rewrite <-(app_nil_r (near d b a)) in Hm. pose proof Hk as Hk'. rewrite <-(arr_near_far d b a X) in Hk'.
  assert (Hnk : forall S, S ∈ near d b a -> S ∈ kids P) by (intros S HS; rewrite Hk'; apply elem_arr; auto).
  destruct (move_siblings P X (far d b a) (iv s X) o HP HPA Hx Ho (near d b a) [] [] [] s1 sz1 Hrx1 Hm)
    as (s2 & sz2 & Hr & Hri2 & Hsz2 & Hm2 & Hs2).
  { intros S h HS Hh. apply Hdis. exact (nodes_kid P S h (Hnk S HS) Hh). }
  assert (HivP : iv s2 P = iv s P).
  { rewrite Hs2, EP; [done|]. intros S HS. apply parent_not_below; auto. }
  exists s2, sz2. split_and!; [done|by eapply reindexed_trans|done|apply Hm2|..].
  - pose proof (mv_inside _ _ _ _ _ _ _ _ _ Hm2) as Hin. pose proof (mv_done _ _ _ _ _ _ _ _ _ Hm2) as Hd.
    assert (Hfar : map (fun k => iv s2 k) (far d b a) = map (fun k => iv s k) (far d b a)).
    { rewrite <-Ef. apply map_ext_in. intros y Hy%list_elem_of_In. apply Hs2. intros S HS HyS.
      assert (Hy' : y ∈ kids P) by (rewrite Hk'; apply elem_arr; auto).
      pose proof (kids_disjoint P y S _ HP Hy' (Hnk S HS) (nodes_self y) HyS) as ->.
      pose proof (NoDup_kids P (NoDup_sub _ _ Hnd HP)) as Hl. rewrite Hk', (Permutation_map label (arr_perm d _ X _)), map_app in Hl.
      apply NoDup_app in Hl as (_ & Hl & _). apply (Hl (label S)); [apply list_elem_of_In, in_map, list_elem_of_In; done|].
      right. apply list_elem_of_In, in_map, list_elem_of_In. done. }
    cbn [app] in *. rewrite app_nil_r, Hfar, En, HivP in Hin. rewrite En in Hd.
    rewrite HivP, Hk', !map_arr, Hd, Hfar, (mv_x _ _ _ _ _ _ _ _ _ Hm2).
    destruct (moving_local _ _ _ _ _ HP HPA _ _ _ _ Hm2) as [Hlo Hhi]. rewrite HivP in Hlo, Hhi.
    by apply (slack_moved d o (iv_start (iv s P)) (iv_end (iv s P) - 1)).
  - intros h [Hh| ->]; [|done]. rewrite Hs2, Hsame; [done| |].
    + intros HhX. apply Hh. apply (nodes_kid P X h); [rewrite Hk; set_solver|done].
    + intros S HS HhS. apply Hh. exact (nodes_kid P S h (Hnk S HS) HhS).
  - intros h Hh. apply Hs2. intros S HS. by apply (near_apart P X b a HP Hk S HS).
Qed.

(** At the common ancestor the allocation block gets the offset. *)
Lemma chain_final s s1 sz sz1 P X o :
  rstate s sz -> reindexed s s1 -> sizes_ok t sz1 -> good s -> P ∈ subtrees t ->
  (exists b a, kids P = b ++ X :: a /\ tA ∈ near d b a) ->
  Z.of_nat (tsize tA) <= width (iv s tA) + o ->
  iv_ok (iv s X) -> 0 <= o <= width (iv s X) ->
  (forall h, h ∉ nodes X -> ivl (view s1) h = ivl (view s) h) -> iv s1 X = shrink d (iv s X) o -> nested (view s1) X ->
  exists s2 sz2, offset_siblings d fuel (label tA) (label X) o (mk_ctx s1 sz1 slack) = (mk_ctx s2 sz2 slack, Ok tt) /\
    reindexed s s2 /\ sizes_ok t sz2 /\ nested (view s2) t /\ (forall h, h ∈ nodes X -> ivl (view s2) h = ivl (view s1) h).
Proof.
  intros Hrx Hri Hsz1 Hg HP (b & a & Hk & HA) Hcap Hx Ho Hsame Hx1 Hn1.
  pose proof Hk as Hk'. rewrite <-(arr_near_far d b a X) in Hk'.
  assert (Hnk : forall S, S ∈ near d b a -> S ∈ kids P) by (intros S HS; rewrite Hk'; apply elem_arr; auto).
  assert (HPA : label P ∉ nodes tA) by (apply parent_not_below; auto).
  pose proof (near_apart P X b a HP Hk) as Hapart. pose proof (Hapart tA HA) as HapA.
  destruct (start_moving s s1 sz P X b a o Hrx Hri Hg HP Hk HPA Hx Ho Hsame Hx1 Hn1) as (Hm & En & Ef & EP).
  assert (Hrx1 : rstate s1 sz1) by by eapply reindexing_state_step.
  rewrite (offset_siblings_unfold P X b a _ o s1 sz1 Hrx1 HP Hk).
  pose proof (NoDup_kids P (NoDup_sub _ _ Hnd HP)) as Hl. rewrite Hk', (Permutation_map label (arr_perm d _ X _)), map_app in Hl.
  apply NoDup_app in Hl as (Hl & _). apply list_elem_of_split in HA as (n1 & n2 & EA). rewrite EA in Hm, Hl, Hnk, En, Hapart |- *.
  rewrite map_app in Hl. cbn [map] in Hl. apply NoDup_app in Hl as (_ & Hl & _).
  assert (Hdis : forall S h, S ∈ n1 -> h ∈ nodes S -> h ∉ nodes tA).
  { intros S h HS Hh HhA. pose proof (kids_disjoint P S tA h HP (Hnk S ltac:(set_solver)) (Hnk tA ltac:(set_solver)) Hh HhA) as ->.
    apply (Hl (label tA)); [apply list_elem_of_In, in_map, list_elem_of_In; done|by left]. }
  destruct (move_siblings P X (far d b a) (iv s X) o HP HPA Hx Ho n1 (tA :: n2) [] [] s1 sz1 Hrx1 Hm Hdis)
    as (s2 & sz2 & Hr & Hri2 & Hsz2 & Hm2 & Hs2).
  rewrite map_app. cbn [map]. rewrite (offset_loop_app _ _ _ _ _ _ _ _ _ ltac:(intros H; by apply (Hl _ H); left) Hr).
  cbn [offset_loop]. rewrite bool_decide_true by done.
  assert (Hrx2 : rstate s2 sz2) by by eapply reindexing_state_step.
  destruct (extend_allocation P X (far d b a) (iv s X) o HP HPA Hx Ho _ n2 _ s2 sz2 Hrx2 Hm2) as (s3 & sz3 & Hr3 & Hri3 & Hsz3 & Hn3 & Hs3).
  - assert (iv s2 tA = iv s tA) as ->; [|done].
    rewrite Hs2; [|by intros S HS HhA; apply (Hdis S _ HS HhA), nodes_self].
    exact (map_eq_elem _ _ _ tA En ltac:(set_solver)).
  - exists s3, sz3. split_and!; [done| |done|done|]; [by eapply reindexed_trans; [|eapply reindexed_trans]|].
    intros h Hh. rewrite Hs3 by auto. apply Hs2. intros S HS. apply (Hapart S); [set_solver|done].
Qed.

(** ** The walk along the chain *)

Section walk.
Context (C K tR : rtree) (req : Z) (iA : Interval).
Hypothesis HC : C ∈ subtrees t.
Hypothesis HKA : exists b a, kids C = b ++ K :: a /\ tA ∈ near d b a.
Hypothesis HR : tR ∈ subtrees K.
Hypothesis Hreq : 1 <= req < 2 ^ 64.
Hypothesis HiA : Z.of_nat (tsize tA) <= width iA + req.

(** [st] is the chain from [X] (exclusive) back to [K]. *)
Fixpoint chain (st : list rtree) (X : rtree) : Prop :=
  match st with
  | [] => X = K
  | Y :: st' => X ∈ kids Y /\ chain st' Y
  end.

Lemma K_kid : K ∈ kids C.
Proof. destruct HKA as (b & a & -> & _). set_solver. Qed.

Lemma A_kid : tA ∈ kids C.
Proof. destruct HKA as (b & a & Hk & HA). rewrite <-(arr_near_far d b a K) in Hk. rewrite Hk. apply elem_arr. auto. Qed.

Lemma K_disjoint h : h ∈ nodes K -> h ∉ nodes tA.
Proof.
  intros Hh HhA. pose proof (kids_disjoint C K tA h HC K_kid A_kid Hh HhA) as E.
  destruct HKA as (b & a & Hk & HA). rewrite <-(arr_near_far d b a K) in Hk.
  pose proof (NoDup_kids C (NoDup_sub _ _ Hnd HC)) as Hl. rewrite Hk, (Permutation_map label (arr_perm d _ K _)), map_app in Hl.
  apply NoDup_app in Hl as (_ & Hl & _). apply (Hl (label tA)); [apply list_elem_of_In, in_map, list_elem_of_In; done|].
  rewrite <-E. by left.
Qed.

Lemma chain_sub st X : chain st X -> X ∈ subtrees K.
Proof.
  revert X. induction st as [|Y st IH]; intros X; simpl; [intros ->; apply subtrees_self|].
  intros [HX HY%IH]. exact (subtrees_kid_of _ _ _ HY HX).
Qed.

Lemma K_sub : K ∈ subtrees t.
Proof. exact (subtrees_kid_of _ _ _ HC K_kid). Qed.

Lemma chain_facts st X : chain st X -> X ∈ subtrees t /\ (forall h, h ∈ nodes X -> h ∉ nodes tA) /\ label X <> label C.
Proof.
  intros H%chain_sub. split_and!.
  - exact (subtrees_trans _ _ _ H K_sub).
  - intros h Hh. apply K_disjoint. exact (nodes_sub _ _ _ H Hh).
  - intros E. apply (parent_not_below C K HC K_kid). rewrite <-E. apply nodes_subtree. eauto.
Qed.

Lemma chain_length st X : chain st X -> (length st + tsize X <= tsize K)%nat.
Proof.
  revert X. induction st as [|Y st IH]; intros X; simpl; [intros ->; lia|].
  intros [HX%tsize_kid HY%IH]. lia.
Qed.

Lemma sumZ_cons {A} (f : A -> Z) x l : sumZ f (x :: l) = f x + sumZ f l.
Proof. done. Qed.

Abbreviation sum_sl s st := (sumZ (fun Z => sl s Z) st).

(** Blocks above [P] keep their slack when only the inside of [P] changes. *)
Lemma slack_above s s' sz P Z :
  rstate s sz -> (forall h, h ∉ nodes P \/ h = label P -> ivl (view s') h = ivl (view s) h) ->
  Z ∈ subtrees t -> P ∈ subtrees t -> (tsize P < tsize Z)%nat -> sl s' Z = sl s Z.
Proof.
  intros Hrx Hsame HZ HP Hlt.
  assert (Hsub : forall y, y ∈ subtrees P -> y <> Z) by (intros y Hy%tsize_sub ->; lia).
  rewrite Hsame.
  - f_equal. apply map_ext_in. intros k Hk%list_elem_of_In. apply Hsame.
    destruct (decide (label k ∈ nodes P)) as [Hin|]; [right|by left].
    apply nodes_subtree in Hin as (k' & Hk' & El).
    assert (k' = k) as ->.
    { eapply label_inj; [exact Hnd|exact (subtrees_trans _ _ _ Hk' HP)|exact (subtrees_kid_of _ _ _ HZ Hk)|done]. }
    destruct (subtree_parent _ _ Hk') as [->|(y & Hy & Hky)]; [done|]. exfalso. apply (Hsub y Hy).
    exact (parent_unique (view s) _ _ _ _ _ Hnd (rx_shape _ _ _ _ Hrx) (subtrees_trans _ _ _ Hy HP) HZ Hky Hk).
  - left. intros (z & Hz & El)%nodes_subtree. apply (Hsub z Hz).
    eapply label_inj; [exact Hnd|exact (subtrees_trans _ _ _ Hz HP)|done|done].
Qed.

Lemma chain_above st P Z : chain st P -> Z ∈ st -> Z ∈ subtrees t /\ (tsize P < tsize Z)%nat.
Proof.
  revert P. induction st as [|Y st IH]; intros P Hch; [by intros ?%elem_of_nil|].
  destruct Hch as [HPY HY]. intros [->|HZ]%elem_of_cons.
  - split; [apply (chain_facts _ _ HY)|by apply tsize_kid].
  - destruct (IH Y HY HZ). split; [done|]. apply tsize_kid in HPY. lia.
Qed.

Lemma sum_above s s' sz P st :
  rstate s sz -> (forall h, h ∉ nodes P \/ h = label P -> ivl (view s') h = ivl (view s) h) ->
  chain st P -> sum_sl s' st = sum_sl s st.
Proof.
  intros Hrx Hsame Hch. assert (P ∈ subtrees t) as HP by apply (chain_facts _ _ Hch).
  assert (Hst : forall Z, Z ∈ st -> Z ∈ subtrees t /\ (tsize P < tsize Z)%nat) by (intros Z; by apply chain_above).
  clear Hch. induction st as [|Y st IH]; [done|]. rewrite !sumZ_cons.
  rewrite (slack_above s s' sz P Y) by (done || apply Hst; by left). f_equal. apply IH. intros Z HZ. apply Hst. by right.
Qed.

(** The blocks between the stop and the common ancestor: each gives up its slack
    but [ps], and [required] reaches the allocation block. *)
Definition down_ready (ps : Z) (st : list rtree) (s : T) : Prop :=
  match st with
  | [] => nested (view s) t
  | Y :: st' => good s /\ iv s tA = iA /\ sum_sl s st - ps * Z.of_nat (length st) = req /\ sum_sl s st' <= req
  end.

Lemma sum_sl_nonneg s sz st X : rstate s sz -> good s -> chain st X -> 0 <= sum_sl s st.
Proof.
  intros Hrx Hg. revert X. induction st as [|Y st IH]; intros X; [simpl; lia|]. intros [_ HY]. rewrite sumZ_cons.
  destruct (chain_facts _ _ HY) as (HYt & Hdis & _). specialize (IH Y HY).
  pose proof (good_nested s Y Hg HYt Hdis _ (nodes_self Y)) as [_ _ Hin].
  rewrite (rstate_chl s sz Y Hrx HYt), map_map in Hin. pose proof (slack_nonneg d _ _ Hin). lia.
Qed.

(** Shrinking [X] and moving its siblings, wherever [X] is in the chain. *)
Lemma step_down ps st X s s1 sz sz1 o :
  rstate s sz -> good s -> iv s tA = iA -> chain st X -> 0 <= ps ->
  reindexed s s1 -> sizes_ok t sz1 -> iv_ok (iv s X) -> 0 <= o <= width (iv s X) ->
  (forall h, h ∉ nodes X -> ivl (view s1) h = ivl (view s) h) -> iv s1 X = shrink d (iv s X) o -> nested (view s1) X ->
  sum_sl s st + o - ps * Z.of_nat (length st) = req -> sum_sl s st <= req ->
  exists s2 sz2, offset_siblings d fuel (label tA) (label X) o (mk_ctx s1 sz1 slack) = (mk_ctx s2 sz2 slack, Ok tt) /\
    reindexed s s2 /\ rstate s2 sz2 /\ down_ready ps st s2 /\ (forall h, h ∈ nodes X -> ivl (view s2) h = ivl (view s1) h).
Proof.
  intros Hrx Hg HA Hch Hps Hri Hsz1 Hx Ho Hsame Hx1 Hn1 Hsum Hle. destruct st as [|P st].
  - simpl in Hch. subst X. simpl in Hsum.
    destruct (chain_final s s1 sz sz1 C K o) as (s2 & sz2 & Hr & Hri2 & Hsz2 & Hn2 & Hin2); try done.
    { rewrite HA. lia. }
    exists s2, sz2. split_and!; [done..|by eapply reindexing_state_step|done|done].
  - destruct Hch as [HXP HP]. destruct (chain_facts _ _ HP) as (HPt & Hdis & _).
    destruct (chain_step s s1 sz sz1 P X o) as (s2 & sz2 & Hr & Hri2 & Hsz2 & Hg2 & Hsl & Hs2 & Hin2); try done.
    exists s2, sz2. split_and!; [done..|by eapply reindexing_state_step| |done].
    pose proof (sum_above s s2 sz P st Hrx Hs2 HP) as Hab. rewrite sumZ_cons in Hsum, Hle.
    pose proof (good_nested s P Hg HPt Hdis _ (nodes_self P)) as [_ _ Hin].
    rewrite (rstate_chl s sz P Hrx HPt), map_map in Hin. pose proof (slack_nonneg d _ _ Hin).
    split_and!; [done| |rewrite sumZ_cons; lia|lia].
    rewrite Hs2; [done|]. left. intros HAP. apply (Hdis _ HAP), nodes_self.
Qed.

Lemma reclaim_down_run walk st X s sz ps :
  (length st < walk)%nat -> 0 <= ps -> chain st X -> rstate s sz -> down_ready ps st s ->
  exists s' sz', reclaim_down d walk fuel (label tA) (label C) ps (label X) (mk_ctx s sz slack) = (mk_ctx s' sz' slack, Ok tt) /\
    reindexed s s' /\ nested (view s') t /\ (forall h, h ∈ nodes X -> ivl (view s') h = ivl (view s) h).
Proof.
  revert st X s sz. induction walk as [|walk IH]; intros st X s sz Hw Hps Hch Hrx Hready; [lia|]. cbn [reclaim_down].
  destruct st as [|Y st].
  - simpl in Hch. subst X.
    erewrite st_bind_run by exact (get_parent_run s p t slack (rx_ok _ _ _ _ Hrx) (rx_shape _ _ _ _ Hrx) sz C K HC K_kid).
    rewrite bool_decide_true by done. exists s, sz. split_and!; [done|apply reindexed_refl, Hrx|done|done].
  - destruct Hch as [HXY HY]. destruct (chain_facts _ _ HY) as (HYt & Hdis & HneC).
    destruct Hready as (Hg & HA & Hsum & Hle). rewrite sumZ_cons in Hsum. cbn [length] in Hsum.
    erewrite st_bind_run by exact (get_parent_run s p t slack (rx_ok _ _ _ _ Hrx) (rx_shape _ _ _ _ Hrx) sz Y X HYt HXY).
    rewrite bool_decide_false by done.
    assert (kids Y <> []) as Hne by (intros E; rewrite E in HXY; by apply elem_of_nil in HXY).
    pose proof (good_nested s Y Hg HYt Hdis) as HnY.
    destruct (remaining_run s sz Y Hrx HYt Hne (HnY _ (nodes_self Y))) as (r & Hr & Hsize).
    erewrite st_bind_run by exact Hr. cbv zeta. rewrite Hsize.
    destruct (HnY _ (nodes_self Y)) as [HivY _ Hin]. rewrite (rstate_chl s sz Y Hrx HYt), map_map in Hin.
    destruct (pos_slack d _ _ (iv s X) HivY Hin) as (Hp1 & _ & Hp2).
    { apply list_elem_of_In, (in_map (fun k => iv s k)), list_elem_of_In. done. }
    pose proof (sum_sl_nonneg s sz st Y Hrx Hg HY) as Hst. pose proof (slack_nonneg d _ _ Hin).
    rewrite wsub64_small by nia. set (o := sl s Y - ps).
    destruct (shrink_block_run s sz Y o Hrx HYt HnY Hne ltac:(unfold o; nia)) as (s1 & Hr1 & Hri1 & Hsame & Hx1 & Hn1 & Ho).
    erewrite st_bind_run by exact Hr1.
    destruct (step_down ps st Y s s1 sz sz o) as (s2 & sz2 & Hr2 & Hri2 & Hrx2 & Hready2 & Hin2); try done;
      [apply Hrx|by intros h Hh; apply Hsame; intros ->; apply Hh, nodes_self|unfold o; nia|].
    erewrite st_bind_run by exact Hr2.
    destruct (IH st Y s2 sz2) as (s' & sz' & Hr' & Hri' & Hn' & Hin'); try done; [simpl in Hw; lia|].
    exists s', sz'. split_and!; [done|by eapply reindexed_trans|done|]. intros h Hh. pose proof (nodes_kid Y X h HXY Hh) as HhY.
    rewrite Hin', Hin2 by done. apply Hsame. intros ->. by apply (parent_not_below Y X HYt HXY).
Qed.

Hypothesis Hslack : 0 <= slack.

(** The reindex root can give the required allocation and a slack for every
    block of the chain. *)
Definition root_capacity (s : T) : Prop :=
  Z.of_nat (tsize tR) + req + slack * Z.of_nat (tsize t) <= width (iv s tR).

(** The walk stops at [X] with the blocks of [st] behind it. *)
Definition up_result (s : T) (run : ReindexOperationContext T * result stop (hash * Z)) : Prop :=
  exists st X s' sz' ps, run = (mk_ctx s' sz' slack, Ok (label X, ps)) /\ 0 <= ps /\ chain st X /\
    reindexed s s' /\ rstate s' sz' /\ down_ready ps st s' /\ label tR ∈ nodes X /\
    width (iv s tR) - (req + slack * Z.of_nat (tsize t)) <= width (iv s' tR).

Lemma up_at_root st s sz :
  rstate s sz -> good s -> iv s tA = iA -> chain st tR -> sum_sl s st < req -> root_capacity s ->
  up_result s
    ((let offset := wsub64 (wadd64 req (wmul64 slack (Z.of_nat (length st)))) (sum_sl s st) in
      _ ← apply_interval_op_and_propagate fuel (label tR) offset (shrink d);
      _ ← offset_siblings d fuel (label tA) (label tR) offset;
      mret (label tR, slack)) (mk_ctx s sz slack)).
Proof.
  intros Hrx Hg HA Hch Hsum Hcap. destruct (chain_facts _ _ Hch) as (HRt & Hdis & _).
  destruct (good_nested s tR Hg HRt Hdis _ (nodes_self tR)) as [HivR _ _].
  pose proof (sum_sl_nonneg s sz st tR Hrx Hg Hch) as Hnn. pose proof (chain_length _ _ Hch) as Hlen.
  pose proof (tsize_sub _ _ K_sub). unfold root_capacity in Hcap.
  assert (slack * Z.of_nat (length st) <= slack * Z.of_nat (tsize t)) by nia.
  assert (width (iv s tR) < 2 ^ 64) by (destruct HivR; unfold width, U64_MAX in *; lia).
  cbv zeta. rewrite wmul64_small, wadd64_small, wsub64_small by nia.
  set (o := req + slack * Z.of_nat (length st) - sum_sl s st).
  assert (0 <= o <= width (iv s tR)) as Ho by (unfold o; nia).
  destruct (shrink_ok d o _ HivR Ho) as (Hs1 & Hs2 & Hs3).
  destruct (apply_interval_op_and_propagate_run p t slack fuel Hbound Hnd Hfuel tR s sz o (shrink d) Hrx HRt Hs1)
    as (s1 & sz1 & Hr1 & Hri1 & Hsz1 & Hn1 & Hx1 & Hsame); [unfold o in *; nia|].
  erewrite st_bind_run by exact Hr1.
  destruct (step_down slack st tR s s1 sz sz1 o) as (s2 & sz2 & Hr2 & Hri2 & Hrx2 & Hready & Hin2); try done; [unfold o; lia|lia|].
  erewrite st_bind_run by exact Hr2. exists st, tR, s2, sz2, slack. split_and!; try done; [apply nodes_self|].
  rewrite Hin2, Hx1, Hs2 by apply nodes_self. unfold o. lia.
Qed.

Lemma up_at_slack st X s sz :
  rstate s sz -> good s -> iv s tA = iA -> chain st X -> kids X <> [] -> label tR ∈ nodes X -> label X <> label tR -> sum_sl s st < req ->
  sum_sl s st <= pos d (iv s X) -> req <= sum_sl s st + sl s X ->
  up_result s
    ((let offset := wsub64 (sl s X) (wsub64 (sum_sl s st + sl s X) req) in
      _ ← apply_interval_op (label X) offset (shrink d);
      _ ← offset_siblings d fuel (label tA) (label X) offset;
      mret (label X, 0)) (mk_ctx s sz slack)).
Proof.
  intros Hrx Hg HA Hch Hne HRX HneR Hsum Hpos Hstop. destruct (chain_facts _ _ Hch) as (HXt & Hdis & _).
  pose proof (good_nested s X Hg HXt Hdis) as HnX. destruct (HnX _ (nodes_self X)) as [HivX _ Hin].
  rewrite (rstate_chl s sz X Hrx HXt), map_map in Hin.
  pose proof (sum_sl_nonneg s sz st X Hrx Hg Hch) as Hnn. pose proof (slack_nonneg d _ _ Hin) as Hsl.
  destruct (kids X) as [|k ks] eqn:Ek; [done|].
  destruct (pos_slack d _ _ (iv s k) HivX Hin) as (Hp1 & _ & Hp2); [by left|]. rewrite <-Ek in *.
  cbv zeta. rewrite (wsub64_small (_ + _) req), wsub64_small by lia. set (o := sl s X - (sum_sl s st + sl s X - req)).
  destruct (shrink_block_run s sz X o Hrx HXt HnX ltac:(by rewrite Ek) ltac:(unfold o; lia))
    as (s1 & Hr1 & Hri1 & Hsame & Hx1 & Hn1 & Ho).
  erewrite st_bind_run by exact Hr1.
  destruct (step_down 0 st X s s1 sz sz o) as (s2 & sz2 & Hr2 & Hri2 & Hrx2 & Hready & Hin2);
    try done; [apply Hrx|by intros h Hh; apply Hsame; intros ->; apply Hh, nodes_self|unfold o; lia|lia|].
  erewrite st_bind_run by exact Hr2. exists st, X, s2, sz2, 0. split_and!; try done.
  rewrite Hin2, Hsame by (done || congruence). nia.
Qed.

Lemma reclaim_up_run walk st X s sz :
  (tsize X <= walk)%nat -> chain st X -> tR ∈ subtrees X -> rstate s sz -> good s -> iv s tA = iA ->
  sum_sl s st < req -> sum_sl s st <= pos d (iv s X) -> root_capacity s ->
  up_result s (reclaim_up d walk fuel (label tA) (label tR) req (label X) (sum_sl s st) (Z.of_nat (length st)) (mk_ctx s sz slack)).
Proof.
  revert st X. induction walk as [|walk IH]; intros st X Hw Hch HRX Hrx Hg HA Hsum Hpos Hcap.
  { pose proof (tsize_pos X). lia. }
  cbn [reclaim_up]. erewrite st_bind_run by reflexivity. cbn [cx_slack].
  destruct (chain_facts _ _ Hch) as (HXt & Hdis & _).
  case_bool_decide as EX.
  - assert (X = tR) as ->; [|by apply up_at_root].
    eapply label_inj; [exact Hnd|done|exact (subtrees_trans _ _ _ HRX HXt)|done].
  - assert (exists k, k ∈ kids X /\ tR ∈ subtrees k) as (k & Hk & HRk).
    { destruct X as [l ts]. apply subtrees_node in HRX as [->|?]; done. }
    assert (kids X <> []) as Hne by (intros E; rewrite E in Hk; by apply elem_of_nil in Hk).
    pose proof (good_nested s X Hg HXt Hdis) as HnX. destruct (HnX _ (nodes_self X)) as [HivX _ Hin].
    destruct (remaining_run s sz X Hrx HXt Hne (HnX _ (nodes_self X))) as (r & Hr & Hsize).
    erewrite st_bind_run by exact Hr. cbv zeta. rewrite Hsize.
    rewrite (rstate_chl s sz X Hrx HXt), map_map in Hin.
    destruct (pos_slack d _ _ (iv s k) HivX Hin) as (Hp1 & Hp2 & Hp3).
    { apply list_elem_of_In, (in_map (fun k => iv s k)), list_elem_of_In. done. }
    pose proof (sum_sl_nonneg s sz st X Hrx Hg Hch) as Hnn. pose proof (slack_nonneg d _ _ Hin) as Hsl.
    rewrite wadd64_small by lia. destruct (Z.leb_spec req (sum_sl s st + sl s X)) as [Hstop|Hgo].
    + apply (up_at_slack st X s sz); try done. apply nodes_subtree. eauto.
    + destruct (shape_sub _ _ _ _ (rx_shape _ _ _ _ Hrx) HXt) as [pX HpX].
      assert (represents_tree s pX X) as Hrep by (split; [apply Hrx|done|done]).
      erewrite st_bind_run.
      2:{ unfold ask, on_store, query. cbn [cx_store cx_sizes cx_slack].
          rewrite (get_next_chain_ancestor_unchecked_run s pX X Hrep X k (label tR) (subtrees_self X) Hk); [reflexivity|].
          apply nodes_subtree. eauto. }
      pose proof (chain_length _ _ Hch) as Hlen. pose proof (tsize_sub _ _ K_sub). pose proof (tsize_pos X).
      rewrite wadd64_small by lia.
      replace (sum_sl s st + sl s X) with (sum_sl s (X :: st)) in * by (rewrite sumZ_cons; lia).
      replace (Z.of_nat (length st) + 1) with (Z.of_nat (length (X :: st))) by (cbn [length]; lia).
      apply IH; try done; [apply tsize_kid in Hk; lia|rewrite sumZ_cons; lia].
Qed.

Lemma reclaim_run s sz :
  rstate s sz -> good s -> iv s tA = iA -> root_capacity s ->
  exists s' sz', reclaim d fuel (label tA) (label C) (label K) (label tR) req (mk_ctx s sz slack) = (mk_ctx s' sz' slack, Ok tt) /\
    reindexed s s' /\ nested (view s') t /\ width (iv s tR) - (req + slack * Z.of_nat (tsize t)) <= width (iv s' tR).
Proof.
  intros Hrx Hg HA Hcap. pose proof (tsize_sub _ _ K_sub) as HKs.
  destruct (chain_facts [] K eq_refl) as (HKt & Hdis & _).
  destruct (good_nested s K Hg HKt Hdis _ (nodes_self K)) as [[Hl Hh _] _ _].
  destruct (reclaim_up_run fuel [] K s sz) as (st & X & s1 & sz1 & ps & Hr & Hps & Hch & Hri & Hrx1 & Hready & HRX & Hw);
    try done; [lia|simpl; lia|simpl; destruct d; simpl; lia|].
  unfold reclaim. erewrite st_bind_run by exact Hr.
  destruct (reclaim_down_run fuel st X s1 sz1 ps) as (s' & sz' & Hr' & Hri' & Hn & Hin); try done.
  { pose proof (chain_length _ _ Hch). pose proof (tsize_pos X). lia. }
  exists s', sz'. split_and!; [done|by eapply reindexed_trans|done|]. by rewrite Hin.
Qed.
End walk.
End reclaim.
