(* ===== verification/ReachInsert.v ===== *)
(** [add_tree_block]: inserting a block below its selected parent, with the
    reindexing it may trigger, keeps the intervals nested and grafts the block
    to the abstract tree. *)

From S2P Require Import Prelude Access Interval Reach ReachTree ReachQueries ReachCount ReachPropagate ReachSides ReachReclaim.

(** * Grafting a leaf *)

Fixpoint graft (q n : hash) (t : rtree) : rtree :=
  match t with
  | Node h ts => Node h (map (graft q n) ts ++ (if bool_decide (h = q) then [Node n []] else []))
  end.

Lemma label_graft q n t : label (graft q n t) = label t.
Proof. by destruct t. Qed.

Lemma nodes_graft q n t x : x ∈ nodes (graft q n t) <-> x ∈ nodes t \/ (x = n /\ q ∈ nodes t).
Proof.
  induction t as [h ts IH] using rtree_ind'. cbn [graft]. rewrite !nodes_node. rewrite Forall_forall in IH. split.
  - intros [->|(t & [(t0 & <- & Ht0%list_elem_of_In)%list_elem_of_In%in_map_iff|Ht]%elem_of_app & Hx)]; [auto| |].
    + apply (IH t0 Ht0) in Hx as [?|[-> ?]]; eauto 6.
    + case_bool_decide; [|by apply elem_of_nil in Ht]. apply list_elem_of_singleton in Ht as ->.
      apply nodes_node in Hx as [->|(? & ?%elem_of_nil & _)]; [subst; eauto|done].
  - assert (Hg : forall t, t ∈ ts -> graft q n t ∈ map (graft q n) ts).
    { intros t Ht. apply list_elem_of_In, in_map, list_elem_of_In. done. }
    intros [[->|(t & Ht & Hx)]|[-> [->|(t & Ht & Hx)]]].
    + by left.
    + right. exists (graft q n t). split; [apply elem_of_app; auto|]. apply IH; auto.
    + right. exists (Node n []). rewrite bool_decide_true by done. split; [apply elem_of_app; right; by left|by left].
    + right. exists (graft q n t). split; [apply elem_of_app; auto|]. apply IH; auto.
Qed.

Lemma tsize_graft q n t : NoDup (nodes t) -> (tsize (graft q n t) <= tsize t + (if bool_decide (q ∈ nodes t) then 1 else 0))%nat.
Proof.
  induction t as [h ts IH] using rtree_ind'. intros Hnd. cbn [graft]. rewrite !tsize_node, sum_list_with_app.
  cbn [nodes] in Hnd. apply NoDup_cons in Hnd as [Hh Hnd].
  assert (sum_list_with tsize (map (graft q n) ts) <= sum_list_with tsize ts + (if bool_decide (q ∈ concat (map nodes ts)) then 1 else 0))%nat as Hsum.
  { clear Hh. induction IH as [|t ts Ht _ IH]; [simpl; lia|]. cbn [map concat sum_list_with] in *.
    apply NoDup_app in Hnd as (H1 & H2 & H3). specialize (Ht H1). specialize (IH H3).
    repeat case_bool_decide; try lia; exfalso; set_solver. }
  destruct (decide (h = q)) as [->|E1].
  - rewrite (bool_decide_false (q ∈ concat _)) in Hsum by done. rewrite !bool_decide_true by (done || by left).
    simpl. lia.
  - rewrite (bool_decide_false (h = q)) by done. simpl. destruct (decide (q ∈ concat (map nodes ts))) as [Hq|Hq].
    + rewrite bool_decide_true in Hsum by done. rewrite bool_decide_true by (by right). lia.
    + rewrite bool_decide_false in Hsum by done. rewrite bool_decide_false by (by intros [?|?]%elem_of_cons). lia.
Qed.

Lemma graft_sub q n t ta : ta ∈ subtrees t -> graft q n ta ∈ subtrees (graft q n t).
Proof.
  induction t as [h ts IH] using rtree_ind'. rewrite Forall_forall in IH.
  intros [->|(t & Ht & Hta)]%subtrees_node; [apply subtrees_self|]. cbn [graft]. apply subtrees_node. right.
  exists (graft q n t). split; [apply elem_of_app; left; apply list_elem_of_In, in_map, list_elem_of_In; done|by apply IH].
Qed.

Lemma graft_sub_inv q n t tb :
  tb ∈ subtrees (graft q n t) -> tb = Node n [] \/ exists ta, ta ∈ subtrees t /\ tb = graft q n ta.
Proof.
  induction t as [h ts IH] using rtree_ind'. rewrite Forall_forall in IH. cbn [graft].
  intros [->|(t & [(t0 & <- & Ht0%list_elem_of_In)%list_elem_of_In%in_map_iff|Ht]%elem_of_app & Htb)]%subtrees_node.
  - right. exists (Node h ts). split; [apply subtrees_self|done].
  - destruct (IH t0 Ht0 Htb) as [?|(ta & Hta & ->)]; [by left|right]. exists ta. split; [|done].
    apply subtrees_node. eauto.
  - case_bool_decide; [|by apply elem_of_nil in Ht]. apply list_elem_of_singleton in Ht as ->.
    apply subtrees_node in Htb as [->|(? & ?%elem_of_nil & _)]; [by left|done].
Qed.

(** Ancestry after the insertion. *)
Lemma anc_graft q n t a b :
  n ∉ nodes t -> q ∈ nodes t ->
  anc (graft q n t) a b <-> anc t a b \/ (b = n /\ (a = n \/ anc t a q)).
Proof.
  intros Hn Hq. split.
  - intros (tb & Htb & <- & Hb). destruct (graft_sub_inv _ _ _ _ Htb) as [->|(ta & Hta & ->)].
    + apply nodes_node in Hb as [->|(? & ?%elem_of_nil & _)]; [|done]. right. auto.
    + rewrite label_graft. apply nodes_graft in Hb as [Hb|[-> Hb]].
      * left. exists ta. done.
      * right. split; [done|]. right. exists ta. done.
  - intros [(ta & Hta & <- & Hb)|[-> [->|(ta & Hta & <- & Hb)]]].
    + exists (graft q n ta). split_and!; [by apply graft_sub|apply label_graft|]. apply nodes_graft. auto.
    + apply anc_refl, nodes_graft. auto.
    + exists (graft q n ta). split_and!; [by apply graft_sub|apply label_graft|]. apply nodes_graft. auto.
Qed.

Lemma left_of_graft q n t a b : left_of t a b -> left_of (graft q n t) a b.
Proof.
  intros ([h ts] & l1 & t1 & l2 & t2 & l3 & Hta & E & Ha & Hb). simpl in E. subst ts.
  exists (graft q n (Node h (l1 ++ t1 :: l2 ++ t2 :: l3))), (map (graft q n) l1), (graft q n t1), (map (graft q n) l2),
    (graft q n t2), (map (graft q n) l3 ++ (if bool_decide (h = q) then [Node n []] else [])).
  split_and!; [by apply graft_sub| |apply nodes_graft; auto..].
  simpl. rewrite !map_app. simpl. rewrite map_app. simpl. by rewrite <-!app_assoc, <-!app_comm_cons, <-app_assoc.
Qed.

Lemma NoDup_graft q n t : NoDup (nodes t) -> n ∉ nodes t -> NoDup (nodes (graft q n t)).
Proof.
  induction t as [h ts IH] using rtree_ind'. intros Hnd Hn. cbn [graft nodes] in *.
  apply NoDup_cons in Hnd as [Hh Hnd]. apply not_elem_of_cons in Hn as [Hne Hn]. rewrite map_app, concat_app.
  assert (Hin : forall x, x ∈ concat (map nodes (map (graft q n) ts)) -> x ∈ concat (map nodes ts) \/ (x = n /\ q ∈ concat (map nodes ts))).
  { intros x (t' & (t0 & <- & Ht%list_elem_of_In)%list_elem_of_In%in_map_iff & Hx)%elem_concat_map.
    apply nodes_graft in Hx as [?|[-> ?]]; rewrite !elem_concat_map; eauto 6. }
  assert (NoDup (concat (map nodes (map (graft q n) ts)))) as Hnd'.
  { clear Hh Hin. induction IH as [|t ts Ht _ IH]; [constructor|]. cbn [map concat] in *.
    apply NoDup_app in Hnd as (H1 & H2 & H3). apply NoDup_app. split_and!; [apply Ht; [done|set_solver]| |apply IH; [done|set_solver]].
    intros x Hx (t' & (t0 & <- & Ht0%list_elem_of_In)%list_elem_of_In%in_map_iff & Hx')%elem_concat_map.
    assert (forall y, y ∈ nodes t -> y ∉ nodes t0) as Hdis.
    { intros y Hy Hy'. apply (H2 y Hy), elem_concat_map. eauto. }
    assert ((n ∉ nodes t) /\ (n ∉ nodes t0)) as [Hn1 Hn2].
    { split; intros Hy; apply Hn, elem_of_app; [by left|right]. apply elem_concat_map. eauto. }
    apply nodes_graft in Hx as [Hx|[-> Hq]], Hx' as [Hx'|[E Hq']]; subst; try done; by eapply Hdis. }
  apply NoDup_cons. split.
  - intros [Hx|Hx]%elem_of_app; [apply Hin in Hx as [?|[-> ?]]; done|].
    case_bool_decide; simpl in Hx; [|by apply elem_of_nil in Hx]. apply list_elem_of_singleton in Hx. done.
  - apply NoDup_app. split_and!; [done| |case_bool_decide; simpl; [apply NoDup_singleton|constructor]].
    intros x Hx Hx2. case_bool_decide; simpl in Hx2; [|by apply elem_of_nil in Hx2].
    apply list_elem_of_singleton in Hx2 as ->. apply Hin in Hx as [?|[_ ?]]; [done|]. by subst.
Qed.

(** * The store after the new block was linked *)

Section linked.
Context (m : blocks) (q n : hash) (d : MemoryReachabilityData) (i : Interval) (hgt : Z).
Hypothesis Hq : m !! q = Some d.
Hypothesis Hn : m !! n = None.

Definition linked : blocks := <[n := data_new q i hgt]> (<[q := with_children d (rd_children d ++ [n])]> m).

Lemma linked_ne : n <> q.
Proof. intros ->. congruence. Qed.

Lemma linked_ivl h : ivl linked h = if decide (h = n) then i else ivl m h.
Proof.
  unfold linked, ivl. destruct (decide (h = n)) as [->|Hne]; [by rewrite lookup_insert_eq|].
  rewrite lookup_insert_ne by done. destruct (decide (h = q)) as [->|Hne'].
  - by rewrite lookup_insert_eq, Hq.
  - by rewrite lookup_insert_ne.
Qed.

Lemma linked_chl h : chl linked h = if decide (h = n) then [] else if decide (h = q) then chl m q ++ [n] else chl m h.
Proof.
  unfold linked, chl. destruct (decide (h = n)) as [->|Hne]; [by rewrite lookup_insert_eq|].
  rewrite lookup_insert_ne by done. destruct (decide (h = q)) as [->|Hne'].
  - by rewrite lookup_insert_eq, Hq.
  - by rewrite lookup_insert_ne.
Qed.

Lemma linked_shape p t : shape m p t -> shape linked p (graft q n t).
Proof.
  pose proof linked_ne as Hnq.
  revert p. induction t as [h ts IH] using rtree_ind'. intros p [(dh & E & Hp & Hc) Hts]%shape_node.
  cbn [graft]. apply shape_node. rewrite Forall_forall in IH, Hts. assert (h <> n) as Hhn by congruence.
  split.
  - unfold linked. rewrite lookup_insert_ne by done. rewrite map_app, map_map.
    rewrite (map_ext _ label) by (intros; apply label_graft). case_bool_decide as Ehq.
    + subst h. rewrite lookup_insert_eq. eexists. split; [done|]. assert (dh = d) as -> by congruence. simpl. by rewrite Hc.
    + rewrite lookup_insert_ne by done. exists dh. cbn [map]. by rewrite app_nil_r.
  - apply Forall_app. split.
    + apply Forall_forall. intros t' (t0 & <- & Ht%list_elem_of_In)%list_elem_of_In%in_map_iff. by apply IH, Hts.
    + case_bool_decide as Ehq; [|constructor]. subst h. constructor; [|constructor]. apply shape_node.
      split; [|constructor]. exists (data_new q i hgt). unfold linked. by rewrite lookup_insert_eq.
Qed.

(** The interval still free for children of [q]. *)
Definition free_start (m : blocks) (q : hash) : Z :=
  match last (map (ivl m) (chl m q)) with Some c => iv_end c + 1 | None => iv_start (ivl m q) end.

Lemma linked_local t :
  (exists p, shape m p t) -> nested m t -> n ∉ nodes t ->
  iv_start i = free_start m q -> free_start m q <= iv_end i + 1 -> iv_end i <= iv_end (ivl m q) - 1 ->
  forall h, h ∈ nodes t -> local_ok linked h.
Proof.
  intros [p Hs] Hnest Hnt Hi1 Hi2 Hi3 h Hh. destruct (Hnest h Hh) as [H1 H2 H3].
  assert (h <> n) as Hhn by (by intros ->).
  assert (Hch : forall k, k ∈ chl m h -> k <> n).
  { intros k Hk ->. apply Hnt. apply nodes_subtree in Hh as (th & Hth & <-).
    destruct (shape_sub _ _ _ _ Hs Hth) as [ph Hph]. rewrite (shape_chl _ _ _ Hph) in Hk.
    apply list_elem_of_In, in_map_iff in Hk as (tk & <- & Hk%list_elem_of_In).
    apply nodes_subtree. exists tk. split; [exact (subtrees_kid_of _ _ _ Hth Hk)|done]. }
  assert (Hmap : map (ivl linked) (chl m h) = map (ivl m) (chl m h)).
  { apply map_ext_in. intros k Hk%list_elem_of_In. rewrite linked_ivl, decide_False; [done|by apply Hch]. }
  split; rewrite linked_ivl, decide_False by done; [done..|].
  rewrite linked_chl, decide_False by done. destruct (decide (h = q)) as [->|Hne]; [|by rewrite Hmap].
  rewrite map_app, Hmap. apply inside_app. split; [done|]. cbn [map inside]. rewrite linked_ivl, decide_True by done.
  unfold free_start in *. destruct (last (map (ivl m) (chl m q))); split_and!; lia || done.
Qed.
End linked.

Lemma spread_strictly_contains_anc m p t a b :
  shape m p t -> spread m t -> a ∈ nodes t -> b ∈ nodes t -> 1 <= width (ivl m b) ->
  strictly_contains (ivl m a) (ivl m b) = true <-> anc t a b /\ a <> b.
Proof.
  intros Hs Hn Ha Hb Hpos. unfold strictly_contains. rewrite andb_true_iff, Z.leb_le, Z.ltb_lt. split.
  - intros [H1 H2]. split; [|intros ->; lia]. apply (spread_contains_anc _ _ _ _ _ Hs Hn Ha Hb Hpos).
    unfold contains. rewrite andb_true_iff, !Z.leb_le. lia.
  - intros [H Hne]. destruct (spread_anc_bounds _ _ _ _ _ Hs Hn H) as (?&?&H'). specialize (H' (not_eq_sym Hne)). lia.
Qed.

(** A child in a subtree has its parent there, or is its root. *)
Lemma child_in_label m p t cur h k :
  NoDup (nodes t) -> shape m p t -> cur ∈ subtrees t -> h ∈ nodes t -> h ∉ nodes cur -> k ∈ chl m h -> k ∈ nodes cur ->
  k = label cur.
Proof.
  intros Hnd Hs Hcur Hh Hhc Hk Hkc. apply nodes_subtree in Hh as (th & Hth & <-).
  destruct (shape_sub _ _ _ _ Hs Hth) as [ph Hph]. rewrite (shape_chl _ _ _ Hph) in Hk.
  apply list_elem_of_In, in_map_iff in Hk as (tk & <- & Hk%list_elem_of_In).
  apply nodes_subtree in Hkc as (tk' & Htk' & El).
  assert (tk' = tk) as ->.
  { eapply label_inj; [exact Hnd|exact (subtrees_trans _ _ _ Htk' Hcur)|exact (subtrees_kid_of _ _ _ Hth Hk)|done]. }
  destruct (subtree_parent _ _ Htk') as [->|(y & Hy & Hky)]; [done|]. exfalso. apply Hhc.
  rewrite <-(parent_unique m _ _ _ _ _ Hnd Hs (subtrees_trans _ _ _ Hy Hcur) Hth Hky Hk). apply nodes_subtree. eauto.
Qed.

Section reindex.
Context {T : Type} `{RS : ReachabilityStore T, RL : !ReachabilityStoreLaws T}.

(** The search finds the block that contains the searched one. *)
Lemma search_hit s l k h d :
  store_ok s -> (forall x, x ∈ l -> is_Some (view s !! x)) -> is_Some (view s !! d) -> starts_sorted (view s) l ->
  l !! k = Some h -> contains (ivl (view s) h) (ivl (view s) d) = true ->
  1 <= width (ivl (view s) d) ->
  (forall j x, l !! j = Some x -> (k < j)%nat -> iv_end (ivl (view s) h) < iv_start (ivl (view s) x)) ->
  binary_search_descendant s l d = Ok (Found h k).
Proof.
  intros Hok Hl Hd Hsort Hk Hc Hpos Hafter. pose proof Hc as Hc'. unfold contains in Hc'.
  rewrite andb_true_iff, !Z.leb_le in Hc'. destruct Hc' as [Hc1 Hc2]. unfold width in Hpos.
  unfold binary_search_descendant. rewrite (get_interval_ivl s Hok d Hd). cbn [stored stored_set mbind result_bind].
  destruct (binary_search_by_key_spec (view s) l (iv_end (ivl (view s) d))
     (fun c => j ← unwrapped (rs_get_interval s c); Ok (iv_start j))) as [(i & x & -> & Hi & E)|(i & -> & Hi & Hlo & Hhi)].
  { intros x Hx. by rewrite (get_interval_ivl s Hok x (Hl x Hx)). }
  { done. }
  - destruct (Nat.lt_trichotomy i k) as [Hlt|[->|Hgt]].
    + pose proof (Hsort i k x h Hi Hk Hlt). lia.
    + cbn. rewrite Hk. cbn. done.
    + pose proof (Hafter _ _ Hi Hgt). lia.
  - assert (i = S k) as ->.
    { destruct (Nat.lt_trichotomy i (S k)) as [Hlt|[?|Hgt]]; [|done|].
      - pose proof (Hhi _ _ Hk ltac:(lia)). lia.
      - destruct (lookup_lt_is_Some_2 l (S k) ltac:(lia)) as [x Hx]. pose proof (Hlo _ _ Hx Hgt).
        pose proof (Hafter _ _ Hx ltac:(lia)). lia. }
    cbn [mbind result_bind]. rewrite Hk. cbn [assert_some ok_or mbind result_bind].
    unfold is_chain_ancestor_of. rewrite (get_interval_ivl s Hok d Hd), (get_interval_ivl s Hok h (Hl h ltac:(by eapply list_elem_of_lookup_2))).
    cbn [stored stored_set mbind result_bind]. by rewrite Hc.
Qed.

Section tree.
Context (p : hash) (t : rtree) (n : hash) (slack : Z) (fuel : nat) (tR : rtree) (s : T).
Hypothesis Hbound : Z.of_nat (tsize t) < 2 ^ 64.
Hypothesis Hnd : NoDup (nodes t).
Hypothesis Hfuel : (tsize t <= fuel)%nat.
Hypothesis Hslack : 0 <= slack.
Hypothesis Hok : store_ok s.
Hypothesis Hshape : shape (view s) NONE t.
Hypothesis Hnone : NONE ∉ nodes t.
Hypothesis HR : tR ∈ subtrees t.
(** Every block but the new leaf [n] has its interval. *)
Hypothesis Hn : Node n [] ∈ subtrees t.
Hypothesis Hlocal : forall h, h ∈ nodes t -> h <> n -> local_ok (view s) h.
Hypothesis Hnew : iv_ok (ivl (view s) n).
(** The new leaf is the last child of its parent. *)
Hypothesis Hlast : forall C i, C ∈ subtrees t -> kids C !! i = Some (Node n []) -> S i = length (kids C).
Hypothesis HRn : label tR <> n.
Hypothesis Hcap : Z.of_nat (tsize tR) + Z.of_nat (tsize t) + slack * Z.of_nat (tsize t) <= width (ivl (view s) (label tR)).

Abbreviation iv x := (ivl (view s) (label x)).

Lemma n_leaf ta : ta ∈ subtrees t -> label ta = n -> ta = Node n [].
Proof. intros Hta E. by eapply label_inj. Qed.

Lemma tree_spread : spread (view s) t.
Proof.
  intros h Hh. destruct (decide (h = n)) as [->|Hne]; [|by apply Hlocal].
  destruct (shape_sub _ _ _ _ Hshape Hn) as [pn Hpn]. pose proof (shape_chl _ _ _ Hpn) as Hc. simpl in Hc. by rewrite Hc.
Qed.

Lemma label_in ta : ta ∈ subtrees t -> label ta ∈ nodes t.
Proof. intros. apply nodes_subtree. eauto. Qed.

Lemma R_pos : 1 <= width (iv tR).
Proof. apply Hlocal; [by apply label_in|done]. Qed.

(** The child of [C] towards the reindex root. *)
Lemma chosen_child_run C K :
  C ∈ subtrees t -> K ∈ kids C -> tR ∈ subtrees K ->
  get_next_chain_ancestor_unchecked s (label tR) (label C) = Ok (label K).
Proof.
  intros HC HK HRK. unfold get_next_chain_ancestor_unchecked.
  assert (Hst : forall x, x ∈ nodes t -> is_Some (view s !! x)) by (intros x; by eapply shape_lookup).
  destruct (shape_sub _ _ _ _ Hshape HC) as [pC HpC].
  rewrite (get_children_chl s Hok) by (by apply Hst, label_in). cbn [stored stored_set mbind result_bind]. rewrite (shape_chl _ _ _ HpC).
  apply list_elem_of_lookup in HK as [k Hk]. assert (HK : K ∈ kids C) by (by eapply list_elem_of_lookup_2).
  assert (HKt : K ∈ subtrees t) by exact (subtrees_kid_of _ _ _ HC HK).
  assert (Hkin : forall x, x ∈ map label (kids C) -> x ∈ nodes t).
  { intros x (k' & <- & Hk'%list_elem_of_In)%list_elem_of_In%in_map_iff. apply label_in. exact (subtrees_kid_of _ _ _ HC Hk'). }
  pose proof (tree_spread _ (label_in _ HC)) as Hin. rewrite (shape_chl _ _ _ HpC), map_map in Hin.
  assert (Hlk : forall j x, map label (kids C) !! j = Some x ->
    map (fun k => iv k) (kids C) !! j = Some (ivl (view s) x)).
  { intros j x Hj. apply list_lookup_fmap_Some in Hj as (y & -> & Hy). by rewrite list_lookup_fmap, Hy. }
  rewrite (search_hit s (map label (kids C)) k (label K) (label tR)); [done|done|..].
  - intros x Hx. by apply Hst, Hkin.
  - by apply Hst, label_in.
  - intros i j a b Ha Hb Hij. pose proof (inside_order _ _ _ _ _ _ _ Hin (Hlk _ _ Ha) (Hlk _ _ Hb) Hij) as Hlt.
    destruct (decide (a = n)) as [->|Hne].
    + apply list_lookup_fmap_Some in Ha as (y & E & Hy).
      assert (y = Node n []) as -> by (apply n_leaf; [exact (subtrees_kid_of _ _ _ HC (list_elem_of_lookup_2 _ _ _ Hy))|done]).
      apply lookup_lt_Some in Hb. rewrite length_map in Hb. pose proof (Hlast C i HC Hy). lia.
    + destruct (Hlocal a (Hkin a ltac:(by eapply list_elem_of_lookup_2)) Hne) as [_ Hp _]. unfold width in Hp. lia.
  - by rewrite list_lookup_fmap, Hk.
  - apply (spread_contains_anc _ _ _ _ _ Hshape tree_spread); [by apply label_in..|apply R_pos|].
    exists K. split_and!; [done..|]. apply nodes_subtree. eauto.
  - apply R_pos.
  - intros j x Hj Hkj. eapply (inside_order _ _ _ k j _ _ Hin); [|by apply Hlk|done]. by rewrite list_lookup_fmap, Hk.
Qed.

Abbreviation rstate := (reindexing_state NONE t).

Lemma good_outside tA : n ∈ nodes tA -> good t tA s.
Proof. intros HnA h Hh HhA. apply Hlocal; [done|]. by intros ->. Qed.

Lemma iv_legal ta : ta ∈ subtrees t -> iv_ok (iv ta).
Proof.
  intros Hta. destruct (decide (label ta = n)) as [->|Hne]; [done|]. apply Hlocal; [by apply label_in|done].
Qed.

Lemma earlier_run C tA K sz :
  rstate s sz -> C ∈ subtrees t -> tA ∈ kids C -> K ∈ kids C -> tR ∈ subtrees K -> tA <> K -> n ∈ nodes tA ->
  exists s' sz', reindex_intervals_earlier_than_root fuel (label tA) (label tR) (label C) (Z.of_nat (tsize tA))
      (mk_ctx s sz slack) = (mk_ctx s' sz' slack, Ok tt) /\ reindexed s s' /\ nested (view s') t /\
    width (iv tR) - (slack + 1) * Z.of_nat (tsize t) <= width (ivl (view s') (label tR)).
Proof.
  intros Hrx HC HA HK HRK Hne HnA. unfold reindex_intervals_earlier_than_root.
  assert (HAt : tA ∈ subtrees t) by exact (subtrees_kid_of _ _ _ HC HA).
  assert (HKt : K ∈ subtrees t) by exact (subtrees_kid_of _ _ _ HC HK).
  assert (Hst : forall ta, ta ∈ subtrees t -> is_Some (view s !! label ta)).
  { intros ta Hta. eapply shape_lookup; [exact Hshape|by apply label_in]. }
  erewrite st_bind_run.
  2:{ unfold ask, on_store, query. cbn [cx_store cx_sizes cx_slack]. rewrite (chosen_child_run C K HC HK HRK). reflexivity. }
  erewrite st_bind_run by exact (get_interval_run s sz slack _ Hok (Hst tA HAt)).
  erewrite st_bind_run by exact (get_interval_run s sz slack _ Hok (Hst K HKt)).
  assert (Hrun : forall d, (exists b a, kids C = b ++ K :: a /\ tA ∈ near d b a) ->
    exists s' sz', reclaim d fuel (label tA) (label C) (label K) (label tR) (Z.of_nat (tsize tA)) (mk_ctx s sz slack) =
      (mk_ctx s' sz' slack, Ok tt) /\ reindexed s s' /\ nested (view s') t /\ width (iv tR) - (slack + 1) * Z.of_nat (tsize t) <= width (ivl (view s') (label tR))).
  { intros d Hd. pose proof (tsize_pos tA). pose proof (tsize_sub _ _ HAt). pose proof (width_nonneg _ (iv_legal tA HAt)).
    assert (Hq1 : 1 <= Z.of_nat (tsize tA) < 2 ^ 64) by lia. assert (Hq2 : Z.of_nat (tsize tA) <= width (iv tA) + Z.of_nat (tsize tA)) by lia.
    destruct (reclaim_run NONE t slack fuel d tA Hbound Hnd Hfuel HAt C K tR (Z.of_nat (tsize tA)) (iv tA) HC Hd HRK Hq1 Hq2 Hslack s sz)
      as (s' & sz' & Hr & Hri & Hn' & Hw); [done|by apply good_outside|done|unfold root_capacity; lia|].
    exists s', sz'. split_and!; try done. lia. }
  rewrite reclaim_before_eq, reclaim_after_eq.
  apply list_elem_of_split in HK as (b & a & Hk). rewrite Hk in HA.
  destruct (shape_sub _ _ _ _ Hshape HC) as [pC HpC].
  pose proof (tree_spread _ (label_in _ HC)) as Hin. rewrite (shape_chl _ _ _ HpC), map_map, Hk in Hin.
  apply elem_of_app in HA as [HA|[->|HA]%elem_of_cons]; [|done|].
  - rewrite (proj2 (Z.ltb_lt _ _)); [apply Hrun; exists b, a; split; [done|by apply elem_of_reverse]|].
    assert (inside (iv_start (iv C)) (iv_end (iv C) - 1) (arr Before (reverse (map (fun k => iv k) b)) (iv K) (map (fun k => iv k) a))) as Hin'.
    { simpl. rewrite reverse_involutive. by rewrite map_app in Hin. }
    destruct (arr_order _ _ _ _ _ _ (iv tA) Hin') as (_ & _ & _ & _ & Hlt).
    { rewrite elem_of_reverse. apply list_elem_of_In, (in_map (fun k => iv k)), list_elem_of_In. done. }
    destruct (decide (label tA = n)) as [E|Hn']; [exfalso|destruct (Hlocal _ (label_in _ HAt) Hn') as [_ Hp _]; unfold width in Hp; lia].
    apply n_leaf in E as ->; [|done]. apply list_elem_of_lookup in HA as [j Hj].
    pose proof (lookup_lt_Some _ _ _ Hj). pose proof (Hlast C j HC) as Hl. rewrite Hk in Hl.
    rewrite lookup_app_l in Hl by done. specialize (Hl Hj). rewrite length_app in Hl. simpl in Hl. lia.
  - rewrite (proj2 (Z.ltb_ge _ _)); [apply Hrun; exists b, a; done|].
    assert (inside (iv_start (iv C)) (iv_end (iv C) - 1) (arr After (map (fun k => iv k) a) (iv K) (map (fun k => iv k) b))) as Hin'.
    { simpl. by rewrite map_app in Hin. }
    destruct (arr_order _ _ _ _ _ _ (iv tA) Hin') as (_ & _ & ? & _ & Hlt).
    { apply list_elem_of_In, (in_map (fun k => iv k)), list_elem_of_In. done. }
    lia.
Qed.

(** Climbing from the new leaf. *)
(** A subtree with enough room is reallocated within it. *)
Lemma propagate_enough cur sz :
  rstate s sz -> cur ∈ subtrees t -> n ∈ nodes cur -> Z.of_nat (tsize cur) <= width (iv cur) ->
  exists s' sz', propagate_interval fuel (label cur) (mk_ctx s sz slack) = (mk_ctx s' sz' slack, Ok tt) /\
    reindexed s s' /\ nested (view s') t /\ ((tR ∈ subtrees cur -> cur = tR) -> ivl (view s') (label tR) = ivl (view s) (label tR)).
Proof.
  intros Hrx Hcur Hncur Henough.
  destruct (propagate_interval_run NONE t slack fuel Hbound Hnd Hfuel cur s sz Hrx Hcur (iv_legal cur Hcur) Henough)
    as (s' & sz' & Hr & Hri & _ & Hn' & Hsame).
  exists s', sz'. split_and!; [done..| |].
  - intros h Hh. destruct (decide (h ∈ nodes cur)) as [Hhc|Hhc]; [by apply Hn'|].
    apply (local_ok_frame (view s)); [apply Hri|by apply Hsame| |].
    + intros k Hk. apply Hsame. intros Hkc. by eapply (child_in_label (view s) NONE t).
    + apply Hlocal; [done|]. by intros ->.
  - intros HRc. apply Hsame. intros (y & Hy & El)%nodes_subtree.
    assert (y = tR) as -> by (by eapply label_inj; [exact Hnd|exact (subtrees_trans _ _ _ Hy Hcur)|..]).
    by rewrite (HRc Hy).
Qed.

Lemma reindex_loop_run walk cur sz :
  (tsize t < tsize cur + walk)%nat -> cur ∈ subtrees t -> n ∈ nodes cur -> (tR ∈ subtrees cur -> cur = tR) ->
  rstate s sz ->
  exists s' sz', reindex_loop walk fuel (label cur) (label tR) (mk_ctx s sz slack) = (mk_ctx s' sz' slack, Ok tt) /\
    reindexed s s' /\ nested (view s') t /\ width (iv tR) - (slack + 1) * Z.of_nat (tsize t) <= width (ivl (view s') (label tR)) /\
    (tR = t -> ivl (view s') (label t) = ivl (view s) (label t)).
Proof.
  revert cur sz. induction walk as [|walk IH]; intros cur sz Hw Hcur Hncur HRcur Hrx.
  { pose proof (tsize_sub _ _ Hcur). lia. }
  cbn [reindex_loop]. pose proof (tsize_sub _ _ Hcur) as Hts.
  assert (Hst : is_Some (view s !! label cur)) by (eapply shape_lookup; [exact Hshape|by apply label_in]).
  erewrite st_bind_run by exact (get_interval_run s sz slack _ Hok Hst).
  destruct (count_subtrees_run s NONE t cur slack Hok Hshape Hnd Hbound Hcur fuel sz ltac:(lia) (rx_sizes _ _ _ _ Hrx))
    as (sz1 & Hr1 & Hsz1 & Hk1 & _).
  erewrite st_bind_run by exact Hr1. assert (Hrx1 : rstate s sz1) by by split.
  erewrite st_bind_run.
  2:{ unfold size_of. cbn [cx_sizes]. rewrite (proj1 (Hsz1 cur Hcur Hk1)). reflexivity. }
  rewrite interval_size_width by by apply iv_legal.
  destruct (Z.leb_spec (Z.of_nat (tsize cur)) (width (iv cur))) as [Henough|Hshort].
  { destruct (propagate_enough cur sz1 Hrx1 Hcur Hncur Henough) as (s' & sz' & Hr & Hri & Hn' & HivR). specialize (HivR HRcur).
    exists s', sz'. split_and!; try done; [rewrite HivR; nia|]. by intros <-. }
  assert (cur <> tR) as HneR by (intros ->; nia).
  destruct (subtree_parent _ _ Hcur) as [->|(P & HP & HcP)]; [by specialize (HRcur HR)|].
  erewrite st_bind_run by exact (get_parent_run s NONE t slack Hok Hshape sz1 P cur HP HcP).
  rewrite bool_decide_false by (intros E; apply Hnone; rewrite <-E; by apply label_in).
  rewrite bool_decide_false by (intros E; apply HneR; by eapply label_inj).
  erewrite st_bind_run.
  2:{ unfold ask, on_store, query, is_strict_chain_ancestor_of. cbn [cx_store cx_sizes cx_slack].
      rewrite !(get_interval_ivl s Hok); [reflexivity|eapply shape_lookup; [exact Hshape|by apply label_in]..]. }
  destruct (strictly_contains (iv P) (iv tR)) eqn:Estrict.
  - apply (spread_strictly_contains_anc _ _ _ _ _ Hshape tree_spread) in Estrict as [Hanc HneP];
      [|by apply label_in..|apply R_pos].
    destruct Hanc as (P' & HP' & El & HRP). assert (P' = P) as -> by (by eapply label_inj).
    assert (tR ∈ subtrees P) as HRsub.
    { apply nodes_subtree in HRP as (y & Hy & El'). replace tR with y; [done|].
      eapply label_inj; [exact Hnd|exact (subtrees_trans _ _ _ Hy HP)|done|done]. }
    assert (exists K, K ∈ kids P /\ tR ∈ subtrees K) as (K & HK & HRK).
    { destruct P as [l ts]. apply subtrees_node in HRsub as [->|?]; done. }
    destruct (earlier_run P cur K sz1) as (s' & sz' & Hr & Hri & Hn' & Hw'); try done; [intros ->; by apply HneR, HRcur|].
    exists s', sz'. split_and!; [done..|]. intros E. exfalso. apply tsize_kid in HK. apply tsize_sub in HRK, HP. rewrite E in HRK. lia.
  - apply (IH P); try done.
    + apply tsize_kid in HcP. lia.
    + exact (nodes_kid P cur n HcP Hncur).
    + intros HRP. destruct (decide (label P = label tR)) as [E|Hne]; [by eapply label_inj|]. exfalso.
      assert (strictly_contains (iv P) (iv tR) = true) as E; [|congruence].
      apply (spread_strictly_contains_anc _ _ _ _ _ Hshape tree_spread); [by apply label_in..|apply R_pos|].
      split; [|done]. exists P. split_and!; [done..|]. apply nodes_subtree. eauto.
Qed.
End tree.

(** * The insertion *)

Lemma free_range m p t q : shape m p t -> nested m t -> q ∈ nodes t ->
  iv_start (ivl m q) <= free_start m q <= iv_end (ivl m q).
Proof.
  intros Hs Hn Hq. destruct (Hn q Hq) as [_ Hw Hin]. unfold free_start, width in *.
  destruct (last (map (ivl m) (chl m q))) as [c|] eqn:E; [|lia]. rewrite last_lookup in E.
  destruct (inside_lookup _ _ _ _ _ Hin E). lia.
Qed.

Lemma remaining_after_free s p t q :
  represents_tree s p t -> q ∈ nodes t ->
  interval_remaining_after s q = Ok (mk_interval (free_start (view s) q) (iv_end (ivl (view s) q) - 1)).
Proof.
  intros [Hok Hs Hn] Hq. pose proof (free_range _ _ _ _ Hs Hn Hq) as Hfree.
  destruct (Hn q Hq) as [[Hl Hh _] Hw Hin]. unfold width, U64_MAX in *.
  assert (is_Some (view s !! q)) as Hsome by by eapply shape_lookup.
  unfold interval_remaining_after, interval_children_capacity.
  rewrite (get_interval_ivl s Hok q Hsome), (get_children_chl s Hok q Hsome).
  cbn [stored stored_set mbind result_bind decrease_end Interval_new iv_start iv_end]. unfold free_start in *.
  apply nodes_subtree in Hq as (tq & Htq & <-). destruct (shape_sub _ _ _ _ Hs Htq) as [pq Hpq].
  assert (Hk : forall k, k ∈ chl (view s) (label tq) -> is_Some (view s !! k)).
  { intros k Hk. rewrite (shape_chl _ _ _ Hpq) in Hk.
    apply list_elem_of_In, in_map_iff in Hk as (tk & <- & Hk%list_elem_of_In). eapply shape_lookup; [exact Hs|].
    apply nodes_subtree. exists tk. split; [exact (subtrees_kid_of _ _ _ Htq Hk)|done]. }
  change (map (ivl (view s)) ?l) with (ivl (view s) <$> l) in *. rewrite fmap_last in *.
  destruct (last (chl (view s) (label tq))) as [c|] eqn:E; simpl in *.
  - rewrite (get_interval_ivl s Hok c); [|apply Hk; by apply last_Some_elem_of].
    cbn [stored stored_set mbind result_bind]. rewrite wadd64_small by lia. unfold Interval_new. by rewrite wsub64_small by lia.
  - unfold decrease_end, Interval_new. by rewrite wsub64_small by lia.
Qed.

(** Linking the new block: the two store calls of both branches. *)
Lemma link_run s p t q n d i hgt :
  represents_tree s p t -> q ∈ nodes t -> view s !! q = Some d -> fresh s n ->
  exists s1 s2, rs_append_child q n s = (s1, Ok tt) /\ rs_get_height s1 q = Ok (rd_height d) /\
    rs_insert n q i hgt s1 = (s2, Ok tt) /\ store_ok s2 /\ view s2 = linked (view s) q n d i hgt /\
    root_of s2 = root_of s /\ (forall x, x <> n -> fresh s x -> fresh s2 x).
Proof.
  intros [Hok Hs Hn] Hqt Hq Hf.
  assert (Hnc : n ∉ rd_children d).
  { apply nodes_subtree in Hqt as (tq & Htq & <-). destruct (shape_sub _ _ _ _ Hs Htq) as [pq Hsq].
    destruct (shape_root _ _ _ Hsq) as (d' & E & _ & Hc). assert (d' = d) as -> by congruence. rewrite Hc.
    intros (k & Ek & Hk%list_elem_of_In)%list_elem_of_In%in_map_iff.
    destruct (shape_lookup _ _ _ _ (shape_kids _ _ _ _ Hsq Hk) (nodes_self k)) as [dk Edk].
    rewrite Ek, (law_fresh s n Hok Hf) in Edk. done. }
  destruct (law_append_child s q d n Hok Hq Hnc) as (s1 & Hr1 & Hok1 & Hv1 & Hroot1 & Hf1).
  destruct (law_insert s1 n q i hgt Hok1 (Hf1 _ Hf)) as (s2 & Hr2 & Hok2 & Hv2 & Hroot2 & Hf2).
  exists s1, s2. split_and!; [done| |done|done| |congruence|auto].
  - rewrite (law_height s1 q (with_children d (rd_children d ++ [n])) Hok1); [done|]. by rewrite Hv1, lookup_insert_eq.
  - by rewrite Hv2, Hv1.
Qed.

(** The state the insertion leaves: the grafted tree, and the other data of the
    blocks as before. *)
Record inserted (s s' : T) (t : rtree) (q n : hash) : Prop := {
  in_tree : represents_tree s' NONE (graft q n t);
  in_root : root_of s' = root_of s;
  in_fresh : forall x, x <> n -> fresh s x -> fresh s' x;
  in_fcs : forall h, h <> n -> rd_fcs <$> view s' !! h = rd_fcs <$> view s !! h;
  in_new : exists d, view s' !! n = Some d /\ rd_fcs d = [];
  in_top : root_of s = Some (label t) -> ivl (view s') (label t) = ivl (view s) (label t);
  in_height : forall h, h <> n -> rd_height <$> view s' !! h = rd_height <$> view s !! h;
  in_new_height : exists d dq, view s' !! n = Some d /\ view s !! q = Some dq /\ rd_height d = wadd64 (rd_height dq) 1;
}.

Lemma linked_fcs m q n d i hgt m' :
  m !! q = Some d -> m !! n = None -> same_blocks (linked m q n d i hgt) m' ->
  (forall h, h <> n -> rd_fcs <$> m' !! h = rd_fcs <$> m !! h) /\
  (exists dn, m' !! n = Some dn /\ rd_fcs dn = []) /\
  (forall h, h <> n -> rd_height <$> m' !! h = rd_height <$> m !! h) /\
  (exists dn dq, m' !! n = Some dn /\ m !! q = Some dq /\ rd_height dn = hgt).
Proof.
  intros Hq Hn Hsame. assert (Hf : forall A (f : MemoryReachabilityData -> A) h, (forall x, f (erase x) = f x) ->
    f <$> m' !! h = f <$> linked m q n d i hgt !! h).
  { intros A f h Hf. specialize (Hsame h). destruct (m' !! h) as [x|], (linked m q n d i hgt !! h) as [y|]; [|done..].
    apply (inj Some) in Hsame. change (Some (f x) = Some (f y)). by rewrite <-(Hf x), <-(Hf y), Hsame. }
  assert (Hkeep : forall A (f : MemoryReachabilityData -> A), (forall x, f (erase x) = f x) -> (forall x l, f (with_children x l) = f x) ->
    forall h, h <> n -> f <$> m' !! h = f <$> m !! h).
  { intros A f Hf1 Hf2 h Hne. rewrite Hf by done. unfold linked. rewrite lookup_insert_ne by done. destruct (decide (h = q)) as [->|Hne'].
    - rewrite lookup_insert_eq, Hq. cbn. by rewrite Hf2.
    - by rewrite lookup_insert_ne. }
  assert (Hln : linked m q n d i hgt !! n = Some (data_new q i hgt)) by (unfold linked; by rewrite lookup_insert_eq).
  pose proof (Hf _ rd_fcs n ltac:(done)) as F1. pose proof (Hf _ rd_height n ltac:(done)) as F2. rewrite Hln in F1, F2.
  destruct (m' !! n) as [dn|] eqn:Edn; [|done]. injection F1 as F1. injection F2 as F2.
  split_and!; [by apply Hkeep|by exists dn|by apply Hkeep|by exists dn, d].
Qed.

Lemma graft_leaf q n t : q ∈ nodes t -> Node n [] ∈ subtrees (graft q n t).
Proof.
  induction t as [h ts IH] using rtree_ind'. rewrite Forall_forall in IH. cbn [graft].
  intros [->|(t & Ht & Hq)]%nodes_node; apply subtrees_node; right.
  - exists (Node n []). split; [|apply subtrees_self]. apply elem_of_app. right. rewrite bool_decide_true by done. by left.
  - exists (graft q n t). split; [|by apply IH]. apply elem_of_app. left. apply list_elem_of_In, in_map, list_elem_of_In. done.
Qed.

Lemma graft_last q n t C i :
  n ∉ nodes t -> C ∈ subtrees (graft q n t) -> kids C !! i = Some (Node n []) -> S i = length (kids C).
Proof.
  intros Hn HC Hi. destruct (graft_sub_inv _ _ _ _ HC) as [->|([h ts] & Hta & ->)]; [by destruct i|].
  cbn [graft kids] in *. destruct (decide (i < length ts)%nat) as [Hlt|Hge].
  - exfalso. rewrite lookup_app_l in Hi by (by rewrite length_map). apply list_lookup_fmap_Some in Hi as (t0 & E & Ht0).
    apply Hn. replace n with (label t0) by (rewrite <-(label_graft q n t0), <-E; done).
    apply nodes_subtree. exists t0. split; [|done]. apply (subtrees_kid_of _ (Node h ts)); [done|]. by eapply list_elem_of_lookup_2.
  - pose proof (lookup_lt_Some _ _ _ Hi) as Hlen. rewrite length_app, length_map in *.
    case_bool_decide; simpl in *; lia.
Qed.

(** The reindex root has room for its subtree, a subtree of any size and the
    slack of a chain of any length in the tree. *)
Definition reindex_capacity (s : T) (slack : Z) (t : rtree) (R : hash) : Prop :=
  (slack + 2) * Z.of_nat (tsize t + 1) <= width (ivl (view s) R).

Section insertion.
Context (s : T) (t : rtree) (q n R : hash) (slack : Z) (fuel : nat).
Hypothesis Hrep : represents_tree s NONE t.
Hypothesis Hnone : NONE ∉ nodes t.
Hypothesis Hq : q ∈ nodes t.
Hypothesis Hfresh : fresh s n.
Hypothesis HnN : n <> NONE.
Hypothesis HR : R ∈ nodes t.
Hypothesis Hroot : root_of s = Some R.
Hypothesis Hslack : 0 <= slack.
Hypothesis Hcap : reindex_capacity s slack t R.
Hypothesis Hfuel : (tsize t + 1 <= fuel)%nat.

Lemma new_not_in : n ∉ nodes t.
Proof.
  intros H. pose proof (law_fresh s n (rt_ok _ _ _ Hrep) Hfresh) as E.
  destruct (shape_lookup _ _ _ _ (rt_shape _ _ _ Hrep) H) as [? ?]. congruence.
Qed.

Lemma tree_nodup : NoDup (nodes t).
Proof. eapply nested_NoDup; apply Hrep. Qed.

Lemma insert_with_room d i hgt s2 :
  view s !! q = Some d -> store_ok s2 -> view s2 = linked (view s) q n d i hgt ->
  iv_start i = free_start (view s) q -> iv_start i <= iv_end i -> iv_end i <= iv_end (ivl (view s) q) - 1 ->
  represents_tree s2 NONE (graft q n t).
Proof.
  intros Hd Hok2 Hv2 Hi1 Hi2 Hi3. pose proof (law_fresh s n (rt_ok _ _ _ Hrep) Hfresh) as Hn.
  split; [done|rewrite Hv2; apply linked_shape; [done..|apply Hrep]|].
  rewrite Hv2. intros h [Hh|[-> _]]%nodes_graft.
  - apply (linked_local _ _ _ _ _ _ Hd Hn t); [eexists; apply Hrep|apply Hrep|apply new_not_in|done|lia|done|done].
  - pose proof (free_range _ _ _ _ (rt_shape _ _ _ Hrep) (rt_nested _ _ _ Hrep) Hq).
    destruct (rt_nested _ _ _ Hrep q Hq) as [[] _ _]. unfold U64_MAX in *.
    split; rewrite linked_ivl, decide_True by done.
    + split; unfold U64_MAX; lia.
    + unfold width. lia.
    + rewrite linked_chl, decide_True by done. done.
Qed.

Lemma insert_and_reindex d i hgt s2 :
  view s !! q = Some d -> store_ok s2 -> view s2 = linked (view s) q n d i hgt ->
  iv_start i = free_start (view s) q -> iv_start i = iv_end i + 1 -> iv_end i = iv_end (ivl (view s) q) - 1 ->
  exists s' sz', reindex_intervals fuel n R (mk_ctx s2 ∅ slack) = (mk_ctx s' sz' slack, Ok tt) /\
    reindexed s2 s' /\ nested (view s') (graft q n t) /\
    width (ivl (view s) R) - (slack + 1) * Z.of_nat (tsize t + 1) <= width (ivl (view s') R) /\
    (R = label t -> ivl (view s') R = ivl (view s) R).
Proof.
  intros Hd Hok2 Hv2 Hi1 Hi2 Hi3. pose proof (law_fresh s n (rt_ok _ _ _ Hrep) Hfresh) as Hn.
  pose proof new_not_in as Hnt. pose proof tree_nodup as Hnd. set (t' := graft q n t).
  assert (Hsh : shape (view s2) NONE t') by (rewrite Hv2; apply linked_shape; [done..|apply Hrep]).
  assert (Hiv : forall h, ivl (view s2) h = if decide (h = n) then i else ivl (view s) h) by (intros; rewrite Hv2; by apply linked_ivl).
  assert (HRn : R <> n) by (by intros ->).
  apply nodes_subtree in HR as (tR & HtR & ER). unfold reindex_capacity in Hcap.
  pose proof (tsize_graft q n t Hnd) as Hsz. rewrite bool_decide_true in Hsz by done.
  pose proof (tsize_graft q n tR (NoDup_sub _ _ Hnd HtR)) as HszR. pose proof (tsize_sub _ _ HtR) as HsubR.
  assert (width (ivl (view s) R) < 2 ^ 64).
  { destruct (rt_nested _ _ _ Hrep R) as [[] _ _]; [rewrite <-ER; apply nodes_subtree; eauto|]. unfold width, U64_MAX in *. lia. }
  assert (0 <= slack * Z.of_nat (tsize t + 1)) by (apply Z.mul_nonneg_nonneg; lia).
  assert (slack * Z.of_nat (tsize t') <= slack * Z.of_nat (tsize t + 1)) by (apply Z.mul_le_mono_nonneg_l; subst t'; lia).
  assert ((slack + 2) * Z.of_nat (tsize t + 1) = slack * Z.of_nat (tsize t + 1) + 2 * Z.of_nat (tsize t + 1)) as Emul by lia.
  rewrite Emul in Hcap. fold t' in Hsz.
  unfold reindex_intervals. change n with (label (Node n [])) at 1. rewrite <-ER, <-(label_graft q n tR).
  assert (Hleaf : Node n [] ∈ subtrees t') by by apply graft_leaf.
  destruct (reindex_loop_run t' n slack fuel (graft q n tR) s2) with (walk := fuel) (cur := Node n []) (sz := (∅ : gmap hash Z))
    as (s' & sz' & Hr & Hri & Hn' & Hw & HivR); try done.
  - lia.
  - by apply NoDup_graft.
  - lia.
  - intros [?|[E _]]%nodes_graft; [done|]. by symmetry in E.
  - by apply graft_sub.
  - intros h [Hh|[-> _]]%nodes_graft Hne; [|done]. rewrite Hv2.
    apply (linked_local _ _ _ _ _ _ Hd Hn t); [eexists; apply Hrep|apply Hrep|done|done|lia|lia|done].
  - pose proof (free_range _ _ _ _ (rt_shape _ _ _ Hrep) (rt_nested _ _ _ Hrep) Hq).
    destruct (rt_nested _ _ _ Hrep q Hq) as [[] _ _]. rewrite Hiv, decide_True by done. unfold U64_MAX in *. split; unfold U64_MAX; lia.
  - intros C j. by apply graft_last.
  - rewrite label_graft, ER. done.
  - rewrite label_graft, ER, Hiv, decide_False by done. destruct (bool_decide (q ∈ nodes tR)); lia.
  - rewrite tsize_node. simpl. lia.
  - by left.
  - intros HRleaf. apply subtrees_node in HRleaf as [<-|(? & ?%elem_of_nil & _)]; done.
  - split; [done..|apply sizes_ok_empty].
  - exists s', sz'. split_and!; [done..| |].
    { rewrite label_graft, ER in Hw. rewrite label_graft, ER. rewrite Hiv, decide_False in Hw by done.
      assert ((slack + 1) * Z.of_nat (tsize t') <= (slack + 1) * Z.of_nat (tsize t + 1)) by (apply Z.mul_le_mono_nonneg_l; lia). lia. }
    intros E. rewrite label_graft in E |- *.
    assert (tR = t) as -> by (eapply label_inj; [exact Hnd|done|apply subtrees_self|done]).
    specialize (HivR eq_refl). unfold t' in HivR. rewrite label_graft, Hiv, decide_False in HivR by (by rewrite ER). exact HivR.
Qed.

(** The insertion succeeds and grafts the block. *)
Lemma add_tree_block_run depth :
  exists s', add_tree_block fuel n q depth slack s = (s', Ok tt) /\ inserted s s' t q n /\
    width (ivl (view s) R) - (slack + 1) * Z.of_nat (tsize t + 1) <= width (ivl (view s') R).
Proof.
  pose proof (law_fresh s n (rt_ok _ _ _ Hrep) Hfresh) as Hn.
  destruct (shape_lookup _ _ _ _ (rt_shape _ _ _ Hrep) Hq) as [d Hd].
  pose proof (free_range _ _ _ _ (rt_shape _ _ _ Hrep) (rt_nested _ _ _ Hrep) Hq) as Hfree.
  destruct (rt_nested _ _ _ Hrep q Hq) as [[Hl Hh _] _ _]. unfold U64_MAX in *.
  unfold add_tree_block. erewrite st_bind_run by (unfold query; by rewrite (remaining_after_free s NONE t q Hrep Hq)).
  set (rem := mk_interval _ _).
  assert (iv_ok rem) as Hrem by (split; simpl; unfold U64_MAX; lia).
  unfold interval_is_empty. rewrite (interval_size_width rem Hrem).
  destruct (Z.eqb_spec (width rem) 0) as [E|E]; unfold width, rem in E; simpl in E.
  - destruct (link_run s NONE t q n d rem (wadd64 (rd_height d) 1) Hrep Hq Hd Hfresh) as (s1 & s2 & Hr1 & Hh1 & Hr2 & Hok2 & Hv2 & Hroot2 & Hf2).
    erewrite st_bind_run by (unfold update_set, map_err; by rewrite Hr1).
    erewrite st_bind_run by (unfold query; by rewrite Hh1).
    erewrite st_bind_run by (unfold update, map_err; by rewrite Hr2).
    erewrite st_bind_run by (unfold query; rewrite (law_root s2 R Hok2) by congruence; reflexivity).
    destruct (insert_and_reindex d rem _ s2 Hd Hok2 Hv2) as (s' & sz' & Hr & Hri & Hn' & Hloss & Htop); [done|simpl; lia|done|].
    exists s'. unfold reindexing, ctx_new. rewrite Hr. split; [done|]. split; [|done].
    destruct (linked_fcs (view s) q n d rem (wadd64 (rd_height d) 1) (view s') Hd Hn) as (Hfcs & Hnew & Hht & dn & dq & Hdn & Hdq & Hnh).
    { rewrite <-Hv2. apply Hri. }
    split; [split; [apply Hri| |done]|rewrite (ri_root _ _ Hri); done| |done|done| |done|].
    + eapply reindexed_shape; [exact Hri|]. rewrite Hv2. apply linked_shape; [done..|apply Hrep].
    + intros x Hx Hfx. by apply Hri, Hf2.
    + intros E1. rewrite Hroot in E1. injection E1 as E1. rewrite <-E1. by apply Htop.
    + exists dn, dq. split_and!; [done..|]. congruence.
  - assert (1 <= width rem) as Hw by (unfold width, rem; simpl; lia).
    destruct (split_half_left rem Hrem Hw) as (k & Ei & Hk). rewrite Ei. unfold rem, Interval_new, width in *. simpl in *.
    set (i := mk_interval _ _) at 1.
    destruct (link_run s NONE t q n d i (wadd64 (rd_height d) 1) Hrep Hq Hd Hfresh) as (s1 & s2 & Hr1 & Hh1 & Hr2 & Hok2 & Hv2 & Hroot2 & Hf2).
    erewrite st_bind_run by (unfold update_set, map_err; by rewrite Hr1).
    erewrite st_bind_run by (unfold query; by rewrite Hh1).
    exists s2. split; [unfold update, map_err; by rewrite Hr2|].
    destruct (linked_fcs (view s) q n d i (wadd64 (rd_height d) 1) (view s2) Hd Hn) as (Hfcs & Hnew & Hht & dn & dq & Hdn & Hdq & Hnh); [by rewrite Hv2|].
    split.
    2:{ rewrite Hv2, linked_ivl, decide_False; [|by intros ->; apply new_not_in|done]. assert (0 <= (slack + 1) * Z.of_nat (tsize t + 1)) by nia. lia. }
    split; [|done..| |done|].
    + eapply (insert_with_room d i); [done..|simpl; lia|simpl; lia].
    + intros _. rewrite Hv2, linked_ivl, decide_False; [done| |done]. intros E1. apply new_not_in. rewrite <-E1. apply nodes_self.
    + exists dn, dq. split_and!; [done..|]. congruence.
Qed.
End insertion.
End reindex.
