(* ===== verification/ReachConcentrate.v ===== *)
(** Moving the reindex root: [concentrate_interval] packs the subtrees beside the
    chosen child, each as tightly as its size allows, and gives the rest of the
    interval to the chosen child. *)

From S2P Require Import Prelude Access Interval Reach ReachTree ReachQueries ReachCount ReachPropagate ReachSides ReachReclaim ReachInsert.

Definition sizes (ts : list rtree) : list Z := map (fun x => Z.of_nat (tsize x)) ts.

Lemma sizes_nonneg ts : Forall (Z.le 0) (sizes ts).
Proof. apply Forall_forall. intros z (x & -> & _)%list_elem_of_fmap. lia. Qed.

(** The interval of the root of a nested tree may grow. *)
Lemma nested_extend m m' q K i :
  same_blocks m m' -> shape m q K -> NoDup (nodes K) -> nested m K ->
  (forall h, ivl m' h = if decide (h = label K) then i else ivl m h) -> iv_ok i -> contains i (ivl m (label K)) = true ->
  nested m' K.
Proof.
  intros Hs Hsh HndK Hn Hi Hok Hc. unfold contains in Hc. rewrite andb_true_iff, !Z.leb_le in Hc.
  destruct K as [k us]. cbn [label] in *. apply NoDup_cons in HndK as [Hk _].
  assert (Hkids : forall x, x ∈ us -> forall h, h ∈ nodes x -> ivl m' h = ivl m h).
  { intros x Hx h Hh. rewrite Hi, decide_False; [done|]. intros ->. apply Hk, elem_concat_map. eauto. }
  apply nested_node.
  - destruct (Hn k (nodes_self (Node k us))) as [[Hl Hh Hw] Hp Hin]. unfold width in Hp.
    split; rewrite (Hi k), decide_True by done; [done|unfold width; lia|].
    pose proof (shape_chl _ _ _ Hsh) as Hch. cbn [label kids] in Hch. rewrite (same_blocks_chl _ _ _ Hs), Hch, map_map.
    rewrite Hch, map_map in Hin.
    erewrite map_ext_in; [eapply inside_mono; [exact Hin|lia..]|]. intros x Hx%list_elem_of_In. apply (Hkids x Hx), nodes_self.
  - apply Forall_forall. intros x Hx. eapply nested_frame; [done|exact (shape_kids _ _ (Node k us) x Hsh Hx)|by apply Hkids|].
    exact (nested_kid _ (Node k us) x Hn Hx).
Qed.

Lemma inside_join lo mid hi l1 l2 :
  inside lo mid l1 -> inside (mid + 1) hi l2 -> lo <= mid + 1 -> mid <= hi -> inside lo hi (l1 ++ l2).
Proof.
  revert lo. induction l1 as [|i l1 IH]; intros lo H1 H2 Hlo Hhi; simpl in *.
  - eapply inside_mono; [done|lia..].
  - destruct H1 as (? & ? & H1). split_and!; [lia..|]. apply IH; [done..|lia|lia].
Qed.

Lemma total_sizes ts : total (sizes ts) = Z.of_nat (sum_list_with tsize ts).
Proof. unfold sizes. induction ts as [|x ts IH]; simpl in *; [done|]. rewrite IH. lia. Qed.

Lemma tsize_middle tA T1 K T2 : kids tA = T1 ++ K :: T2 ->
  Z.of_nat (tsize tA) = 1 + total (sizes T1) + Z.of_nat (tsize K) + total (sizes T2).
Proof.
  destruct tA as [a us]. cbn [kids]. intros ->. rewrite tsize_node, sum_list_with_app, !total_sizes. simpl. lia.
Qed.

Section concentrate.
Context {T : Type} `{RS : ReachabilityStore T, RL : !ReachabilityStoreLaws T}.
Context (p : hash) (t : rtree) (slack : Z) (fuel : nat).
Hypothesis Hbound : Z.of_nat (tsize t) < 2 ^ 64.
Hypothesis Hnd : NoDup (nodes t).
Hypothesis Hfuel : (tsize t <= fuel)%nat.
Hypothesis Hslack : 0 <= slack.
Abbreviation rstate := (reindexing_state p t).

Lemma count_all_run ts s sz :
  rstate s sz -> (forall x, x ∈ ts -> x ∈ subtrees t) ->
  exists sz', count_all fuel (map label ts) (mk_ctx s sz slack) = (mk_ctx s sz' slack, Ok (sizes ts)) /\ rstate s sz'.
Proof.
  revert sz. induction ts as [|x ts IH]; intros sz Hrx Hts; cbn [map count_all].
  { exists sz. done. }
  assert (Hx : x ∈ subtrees t) by (apply Hts; by left). pose proof (tsize_sub _ _ Hx).
  destruct Hrx as [Hok Hsh Hsz].
  destruct (count_subtrees_run s p t x slack Hok Hsh Hnd Hbound Hx fuel sz ltac:(lia) Hsz) as (sz1 & Hr & Hsz1 & Hk & _).
  erewrite st_bind_run by exact Hr. destruct (Hsz1 x Hx Hk) as [E _].
  erewrite st_bind_run by (unfold size_of; cbn [cx_sizes]; by rewrite E).
  destruct (IH sz1) as (sz2 & Hr2 & Hrx2); [by split|intros; apply Hts; by right|].
  erewrite st_bind_run by exact Hr2. exists sz2. done.
Qed.

(** The parts of a tiling given to disjoint subtrees. *)
Lemma assign_and_propagate_run ts parts s sz :
  rstate s sz -> (forall x, x ∈ ts -> x ∈ subtrees t) -> NoDup (concat (map nodes ts)) ->
  Forall iv_ok parts -> map width parts = sizes ts ->
  exists s' sz', assign_and_propagate fuel (zip (map label ts) parts) (mk_ctx s sz slack) = (mk_ctx s' sz' slack, Ok tt) /\
    reindexed s s' /\ sizes_ok t sz' /\ map (fun x => ivl (view s') (label x)) ts = parts /\
    (forall x, x ∈ ts -> nested (view s') x) /\
    (forall h, h ∉ concat (map nodes ts) -> ivl (view s') h = ivl (view s) h).
Proof.
  revert parts s sz. induction ts as [|x ts IH]; intros parts s sz Hrx Hts Hn Hp Hw; destruct parts as [|i parts]; try done.
  { exists s, sz. split_and!; try done; [apply reindexed_refl, Hrx|apply Hrx|by intros ? ?%elem_of_nil]. }
  cbn [map sizes zip concat] in *. apply Forall_cons in Hp as [Hi Hp]. injection Hw as Hwi Hw.
  apply NoDup_app in Hn as (_ & Hdis & Hn). assert (Hx : x ∈ subtrees t) by (apply Hts; by left).
  destruct (set_and_propagate p t slack fuel Hbound Hnd Hfuel x s sz i Hrx Hx Hi ltac:(lia)) as (s1 & sz1 & Hr1 & Hri1 & Hsz1 & Hn1 & Hi1 & Hu1).
  destruct (IH parts s1 sz1) as (s2 & sz2 & Hr2 & Hri2 & Hsz2 & Hp2 & Hn2 & Hu2); try done.
  { by eapply reindexing_state_step. }
  { intros; apply Hts; by right. }
  exists s2, sz2. unfold assign_and_propagate in *. cbn [for_each zip zip_with]. erewrite st_bind_run by exact Hr1.
  assert (Hkeep : forall h, h ∈ nodes x -> ivl (view s2) h = ivl (view s1) h) by (intros h Hh; apply Hu2; by apply Hdis).
  split_and!; [done|by eapply reindexed_trans|done|..].
  - rewrite Hkeep by apply nodes_self. by rewrite Hi1, Hp2.
  - intros y [->|Hy]%elem_of_cons; [|by apply Hn2]. destruct (shape_sub _ _ _ _ (rx_shape _ _ _ _ Hrx) Hx) as [px Hsx].
    eapply nested_frame; [apply Hri2|eapply reindexed_shape; [exact Hri1|exact Hsx]|exact Hkeep|done].
  - intros h [Hh1 Hh2]%not_elem_of_app. rewrite Hu2 by done. by apply Hu1.
Qed.

(** The subtrees [ts] packed into an interval of their total size. *)
Lemma pack_run ts i s sz :
  rstate s sz -> (forall x, x ∈ ts -> x ∈ subtrees t) -> NoDup (concat (map nodes ts)) -> iv_ok i -> width i = total (sizes ts) ->
  exists s' sz' parts, split_exact i (sizes ts) = Some parts /\
    assign_and_propagate fuel (zip (map label ts) parts) (mk_ctx s sz slack) = (mk_ctx s' sz' slack, Ok tt) /\
    reindexed s s' /\ sizes_ok t sz' /\ inside (iv_start i) (iv_end i) (map (fun x => ivl (view s') (label x)) ts) /\
    (forall x, x ∈ ts -> nested (view s') x) /\
    (forall h, h ∉ concat (map nodes ts) -> ivl (view s') h = ivl (view s) h).
Proof.
  intros Hrx Hts Hn Hi Hw. destruct (split_exact_tiles i (sizes ts) Hi (sizes_nonneg ts) (eq_sym Hw)) as (parts & Hs & Ht & Hp).
  destruct (assign_and_propagate_run ts parts s sz Hrx Hts Hn) as (s' & sz' & Hr & Hri & Hsz & Hparts & Hne & Hu); [|done|].
  { destruct Hi. by apply (tiles_ok (iv_start i) (iv_end i)). }
  exists s', sz', parts. split_and!; try done. rewrite Hparts. by apply tiles_inside.
Qed.

Lemma tighten_intervals_before_run tA ts s sz :
  rstate s sz -> tA ∈ subtrees t -> (forall x, x ∈ ts -> x ∈ subtrees t) -> NoDup (concat (map nodes ts)) ->
  iv_ok (ivl (view s) (label tA)) -> slack + total (sizes ts) <= width (ivl (view s) (label tA)) ->
  exists s' sz', tighten_intervals_before fuel (label tA) (map label ts) (mk_ctx s sz slack) =
      (mk_ctx s' sz' slack, Ok (total (sizes ts))) /\
    reindexed s s' /\ sizes_ok t sz' /\
    inside (iv_start (ivl (view s) (label tA)) + slack) (iv_start (ivl (view s) (label tA)) + slack + total (sizes ts) - 1)
       (map (fun x => ivl (view s') (label x)) ts) /\
    (forall x, x ∈ ts -> nested (view s') x) /\
    (forall h, h ∉ concat (map nodes ts) -> ivl (view s') h = ivl (view s) h).
Proof.
  intros Hrx HA Hts Hn [Hl Hh Hw] Hcap. unfold width, U64_MAX in *.
  destruct (count_all_run ts s sz Hrx Hts) as (sz1 & Hr1 & Hrx1). pose proof (total_nonneg _ (sizes_nonneg ts)).
  unfold tighten_intervals_before. erewrite st_bind_run by exact Hr1. rewrite sum_u64_total by (apply sizes_nonneg || lia).
  erewrite st_bind_run.
  2:{ apply get_interval_run; [apply Hrx|]. eapply shape_lookup; [apply Hrx|]. apply nodes_subtree. eauto. }
  erewrite st_bind_run by reflexivity. cbn [cx_slack]. set (iA := ivl (view s) (label tA)) in *.
  rewrite (wadd64_small (iv_start iA) slack), wadd64_small, wsub64_small by lia.
  destruct (pack_run ts (mk_interval (iv_start iA + slack) (iv_start iA + slack + total (sizes ts) - 1)) s sz1)
    as (s' & sz' & parts & Hsp & Hr & Hri & Hsz' & Hin & Hne & Hu); try done.
  { split; unfold U64_MAX; cbn [iv_start iv_end]; lia. }
  { unfold width. cbn [iv_start iv_end]. lia. }
  unfold Interval_new. rewrite Hsp. erewrite st_bind_run by reflexivity. erewrite st_bind_run by exact Hr.
  exists s', sz'. by split_and!.
Qed.

Lemma tighten_intervals_after_run tA ts s sz :
  rstate s sz -> tA ∈ subtrees t -> (forall x, x ∈ ts -> x ∈ subtrees t) -> NoDup (concat (map nodes ts)) ->
  iv_ok (ivl (view s) (label tA)) -> slack + total (sizes ts) < width (ivl (view s) (label tA)) ->
  exists s' sz', tighten_intervals_after fuel (label tA) (map label ts) (mk_ctx s sz slack) =
      (mk_ctx s' sz' slack, Ok (total (sizes ts))) /\
    reindexed s s' /\ sizes_ok t sz' /\
    inside (iv_end (ivl (view s) (label tA)) - slack - total (sizes ts)) (iv_end (ivl (view s) (label tA)) - slack - 1)
       (map (fun x => ivl (view s') (label x)) ts) /\
    (forall x, x ∈ ts -> nested (view s') x) /\
    (forall h, h ∉ concat (map nodes ts) -> ivl (view s') h = ivl (view s) h).
Proof.
  intros Hrx HA Hts Hn [Hl Hh Hw] Hcap. unfold width, U64_MAX in *.
  destruct (count_all_run ts s sz Hrx Hts) as (sz1 & Hr1 & Hrx1). pose proof (total_nonneg _ (sizes_nonneg ts)).
  unfold tighten_intervals_after. erewrite st_bind_run by exact Hr1. rewrite sum_u64_total by (apply sizes_nonneg || lia).
  erewrite st_bind_run.
  2:{ apply get_interval_run; [apply Hrx|]. eapply shape_lookup; [apply Hrx|]. apply nodes_subtree. eauto. }
  erewrite st_bind_run by reflexivity. cbn [cx_slack]. set (iA := ivl (view s) (label tA)) in *.
  rewrite !(wsub64_small (iv_end iA) slack), !wsub64_small by lia.
  destruct (pack_run ts (mk_interval (iv_end iA - slack - total (sizes ts)) (iv_end iA - slack - 1)) s sz1)
    as (s' & sz' & parts & Hsp & Hr & Hri & Hsz' & Hin & Hne & Hu); try done.
  { split; unfold U64_MAX; cbn [iv_start iv_end]; lia. }
  { unfold width. cbn [iv_start iv_end]. lia. }
  unfold Interval_new. rewrite Hsp. erewrite st_bind_run by reflexivity. erewrite st_bind_run by exact Hr.
  exists s', sz'. by split_and!.
Qed.

Lemma narrow_run K alloc final s sz :
  rstate s sz -> K ∈ subtrees t -> iv_ok alloc -> nested (view s) K -> 2 * slack + Z.of_nat (tsize K) <= width alloc ->
  exists s' sz',
    (if final && negb (contains alloc (ivl (view s) (label K)))
     then _ ← store_set_interval (label K) (Interval_new (wadd64 (iv_start alloc) slack) (wsub64 (iv_end alloc) slack));
          propagate_interval fuel (label K)
     else mret tt) (mk_ctx s sz slack) = (mk_ctx s' sz' slack, Ok tt) /\
    reindexed s s' /\ sizes_ok t sz' /\ nested (view s') K /\
    (final = true -> contains alloc (ivl (view s') (label K)) = true) /\
    (forall h, h ∉ nodes K \/ final = false -> ivl (view s') h = ivl (view s) h).
Proof.
  intros Hrx HK [Hl Hh Hw] Hn Hcap. pose proof (tsize_pos K). unfold width, U64_MAX in *.
  destruct (final && negb (contains alloc (ivl (view s) (label K)))) eqn:E.
  - apply andb_true_iff in E as [-> E]. rewrite wadd64_small, wsub64_small by lia.
    destruct (set_and_propagate p t slack fuel Hbound Hnd Hfuel K s sz (mk_interval (iv_start alloc + slack) (iv_end alloc - slack)))
      as (s' & sz' & Hr & Hri & Hsz & Hn' & Hi & Hu); try done.
    { split; unfold U64_MAX; cbn [iv_start iv_end]; lia. }
    { unfold width. cbn [iv_start iv_end]. lia. }
    exists s', sz'. split_and!; try done.
    + intros _. rewrite Hi. unfold contains. cbn [iv_start iv_end]. rewrite andb_true_iff, !Z.leb_le. lia.
    + intros h [Hh'|?]; [by apply Hu|done].
  - exists s, sz. split_and!; try done; [apply reindexed_refl, Hrx|apply Hrx|].
    intros ->. by apply negb_false_iff in E.
Qed.

(** [alloc] goes to the chosen child; with [final], its subtree is reallocated
    unless its interval lies within [alloc]. *)
Lemma expand_interval_to_chosen_run tA K sb sa final s sz :
  rstate s sz -> tA ∈ subtrees t -> K ∈ kids tA -> iv_ok (ivl (view s) (label tA)) -> nested (view s) K -> 0 <= sb -> 0 <= sa ->
  sb + sa + 4 * slack + Z.of_nat (tsize K) + 1 <= width (ivl (view s) (label tA)) ->
  exists s' sz', expand_interval_to_chosen fuel (label tA) (label K) sb sa final (mk_ctx s sz slack) = (mk_ctx s' sz' slack, Ok tt) /\
    reindexed s s' /\ sizes_ok t sz' /\ ivl (view s') (label K) =
      mk_interval (iv_start (ivl (view s) (label tA)) + sb + slack) (iv_end (ivl (view s) (label tA)) - sa - slack - 1) /\
    (forall h, h ∉ nodes K -> ivl (view s') h = ivl (view s) h) /\
    (if final : bool then nested (view s') K else forall h, h <> label K -> ivl (view s') h = ivl (view s) h).
Proof.
  intros Hrx HA HK [Hl Hh Hw] Hn Hsb Hsa Hcap. pose proof (tsize_pos K) as HKpos. set (a := ivl (view s) (label tA)) in *.
  set (alloc := mk_interval (iv_start a + sb + slack) (iv_end a - sa - slack - 1)).
  assert (HKt : K ∈ subtrees t) by exact (subtrees_kid_of _ _ _ HA HK).
  assert (Hst : forall x, x ∈ subtrees t -> is_Some (view s !! label x)).
  { intros x Hx. eapply shape_lookup; [apply Hrx|]. apply nodes_subtree. eauto. }
  assert (Halloc : Interval_new (wadd64 (wadd64 (iv_start a) sb) slack) (wsub64 (wsub64 (wsub64 (iv_end a) sa) slack) 1) = alloc).
  { unfold Interval_new, alloc, a, width, U64_MAX in *.
    rewrite (wadd64_small _ sb), wadd64_small, (wsub64_small _ sa), (wsub64_small _ slack), wsub64_small by lia. done. }
  unfold expand_interval_to_chosen. erewrite st_bind_run by (apply get_interval_run; [apply Hrx|by apply Hst]).
  erewrite st_bind_run by reflexivity. cbn [cx_slack]. fold a. rewrite Halloc.
  erewrite st_bind_run by (apply get_interval_run; [apply Hrx|by apply Hst]).
  assert (Hok : iv_ok alloc) by (unfold alloc, a, width, U64_MAX in *; split; unfold U64_MAX; cbn [iv_start iv_end]; lia).
  destruct (narrow_run K alloc final s sz Hrx HKt Hok Hn) as (s1 & sz1 & Hr1 & Hri1 & Hsz1 & Hn1 & Hcon & Hu1).
  { unfold alloc, a, width in *. cbn [iv_start iv_end]. lia. }
  erewrite st_bind_run by exact Hr1.
  destruct (set_interval_run s1 sz1 slack (label K) alloc (ri_ok _ _ Hri1)) as (s2 & Hr2 & Hri2 & Hi2).
  { apply (same_blocks_is_Some _ _ _ (ri_same _ _ Hri1)). by apply Hst. }
  exists s2, sz1. split_and!; [done|by eapply reindexed_trans|done|by rewrite Hi2, decide_True| |].
  - intros h Hh'. rewrite Hi2, decide_False by (intros ->; by apply Hh', nodes_self). apply Hu1. auto.
  - destruct final.
    + destruct (shape_sub _ _ _ _ (rx_shape _ _ _ _ Hrx) HKt) as [pK HsK].
      eapply (nested_extend (view s1)); [apply Hri2|by eapply reindexed_shape|by eapply NoDup_sub|done|done|done|auto].
    + intros h Hne. rewrite Hi2, decide_False by done. apply Hu1. auto.
Qed.

Record disjoint_siblings (tA : rtree) (T1 : list rtree) (K : rtree) (T2 : list rtree) : Prop := {
  ds_before : NoDup (concat (map nodes T1));
  ds_after : NoDup (concat (map nodes T2));
  ds_label : label K ∉ map label T1;
  ds_chosen_before h : h ∈ nodes K -> h ∉ concat (map nodes T1);
  ds_chosen_after h : h ∈ nodes K -> h ∉ concat (map nodes T2);
  ds_sides h : h ∈ concat (map nodes T1) -> h ∉ concat (map nodes T2);
  ds_parent : label tA ∉ concat (map nodes (T1 ++ K :: T2));
}.

Lemma siblings_disjoint tA T1 K T2 : tA ∈ subtrees t -> kids tA = T1 ++ K :: T2 -> disjoint_siblings tA T1 K T2.
Proof.
  intros HA Hk. pose proof (NoDup_sub _ _ Hnd HA) as HndA. destruct tA as [a us]. cbn [kids label nodes] in *. subst us.
  apply NoDup_cons in HndA as [Ha HndA]. split; [..|done]; rewrite map_app, concat_app in HndA; cbn [map concat] in HndA;
    apply NoDup_app in HndA as (H1 & H12 & (HK & HK2 & H2)%NoDup_app); try done.
  - intros (x & E & Hx%list_elem_of_In)%list_elem_of_In%in_map_iff. apply (H12 (label K)); [|apply elem_of_app; left; apply nodes_self].
    rewrite <-E. apply elem_concat_map. exists x. split; [done|apply nodes_self].
  - intros h Hh Hh1. by apply (H12 h Hh1), elem_of_app; left.
  - intros h Hh1 Hh2. by apply (H12 h Hh1), elem_of_app; right.
Qed.

(** The state of the walk at [tA]: everything but the interval of [tA] is in
    order, and the children of [tA] are. *)
Record walking (s : T) (tA : rtree) : Prop := {
  wk_local : forall h, h ∈ nodes t -> h <> label tA -> local_ok (view s) h;
  wk_iv : iv_ok (ivl (view s) (label tA));
  wk_order : exists lo hi, inside lo hi (map (fun x => ivl (view s) (label x)) (kids tA));
}.

Lemma walking_kid s tA K : walking s tA -> tA ∈ subtrees t -> K ∈ kids tA -> nested (view s) K.
Proof.
  intros Hw HA HK h Hh. apply (wk_local _ _ Hw).
  - eapply nodes_sub; [exact (subtrees_kid_of _ _ _ HA HK)|done].
  - intros ->. pose proof (NoDup_sub _ _ Hnd HA) as HndA. destruct tA as [a us]. cbn [nodes kids label] in *.
    apply NoDup_cons in HndA as [Ha _]. apply Ha, elem_concat_map. eauto.
Qed.

(** The three phases of [concentrate_interval]. *)
Record concentrated (s s' : T) (tA : rtree) (T1 : list rtree) (K : rtree) (T2 : list rtree) (final : bool) : Prop := {
  cc_reindexed : reindexed s s';
  cc_out : forall h, h ∉ concat (map nodes (T1 ++ K :: T2)) -> ivl (view s') h = ivl (view s) h;
  cc_before : inside (iv_start (ivl (view s) (label tA)) + slack) (iv_start (ivl (view s) (label tA)) + slack + total (sizes T1) - 1)
                (map (fun x => ivl (view s') (label x)) T1);
  cc_after : inside (iv_end (ivl (view s) (label tA)) - slack - total (sizes T2)) (iv_end (ivl (view s) (label tA)) - slack - 1)
               (map (fun x => ivl (view s') (label x)) T2);
  cc_chosen : ivl (view s') (label K) =
    mk_interval (iv_start (ivl (view s) (label tA)) + total (sizes T1) + slack)
                (iv_end (ivl (view s) (label tA)) - total (sizes T2) - slack - 1);
  cc_nested : forall x, x ∈ T1 ++ T2 -> nested (view s') x;
  cc_final : if final then nested (view s') K else forall h, h ∈ nodes K -> h <> label K -> ivl (view s') h = ivl (view s) h;
}.

Lemma concentrate_phases tA T1 K T2 final s :
  store_ok s -> shape (view s) p t -> tA ∈ subtrees t -> kids tA = T1 ++ K :: T2 -> walking s tA ->
  total (sizes T1) + total (sizes T2) + 4 * slack + Z.of_nat (tsize K) + 1 <= width (ivl (view s) (label tA)) ->
  exists s', reindexing slack (concentrate_interval fuel (label tA) (label K) final) s = (s', Ok tt) /\
    concentrated s s' tA T1 K T2 final.
Proof.
  intros Hok Hsh HA Hk Hwk Hcap. pose proof (siblings_disjoint tA T1 K T2 HA Hk) as Hd.
  assert (Hkid : forall x, x ∈ T1 ++ K :: T2 -> x ∈ subtrees t) by (intros x Hx; apply (subtrees_kid_of _ _ _ HA); by rewrite Hk).
  pose proof (total_nonneg _ (sizes_nonneg T1)) as Hs1. pose proof (total_nonneg _ (sizes_nonneg T2)) as Hs2.
  assert (HKA : K ∈ kids tA) by (rewrite Hk; set_solver). pose proof (ds_parent _ _ _ _ Hd) as HpA.
  rewrite map_app, concat_app in HpA. cbn [map concat] in HpA. rewrite !not_elem_of_app in HpA. destruct HpA as (HA1 & HAK & HA2).
  assert (Hrx0 : rstate s ∅) by (split; [done..|apply sizes_ok_empty]).
  destruct (tighten_intervals_before_run tA T1 s ∅ Hrx0 HA) as (s1 & sz1 & Hr1 & Hri1 & Hsz1 & Hin1 & Hne1 & Hu1);
    [intros; apply Hkid; set_solver|exact (ds_before _ _ _ _ Hd)|exact (wk_iv _ _ Hwk)|lia|].
  assert (Hrx1 : rstate s1 sz1) by (by eapply reindexing_state_step).
  destruct (tighten_intervals_after_run tA T2 s1 sz1 Hrx1 HA) as (s2 & sz2 & Hr2 & Hri2 & Hsz2 & Hin2 & Hne2 & Hu2);
    [intros; apply Hkid; set_solver|exact (ds_after _ _ _ _ Hd)|rewrite Hu1 by done; exact (wk_iv _ _ Hwk)|rewrite Hu1 by done; lia|].
  assert (Hrx2 : rstate s2 sz2) by (by eapply reindexing_state_step).
  assert (Hs12 : reindexed s s2) by (by eapply reindexed_trans).
  assert (HnK : nested (view s2) K).
  { destruct (shape_sub _ _ _ _ Hsh (Hkid K ltac:(set_solver))) as [pK HsK].
    eapply nested_frame; [apply Hs12|exact HsK| |by eapply walking_kid]. intros h Hh.
    rewrite Hu2 by (by apply (ds_chosen_after _ _ _ _ Hd)). by apply Hu1, (ds_chosen_before _ _ _ _ Hd). }
  rewrite Hu1 in Hin2 by done. assert (EA : ivl (view s2) (label tA) = ivl (view s) (label tA)) by (by rewrite Hu2, Hu1).
  destruct (expand_interval_to_chosen_run tA K (total (sizes T1)) (total (sizes T2)) final s2 sz2 Hrx2 HA HKA)
    as (s3 & sz3 & Hr3 & Hri3 & Hsz3 & HiK & Hu3 & Hfin); rewrite ?EA in *; [exact (wk_iv _ _ Hwk)|done..|lia|].
  exists s3. split.
  - unfold reindexing, concentrate_interval. erewrite st_bind_run by exact (get_children_run s p t slack Hok Hsh ∅ tA HA).
    rewrite Hk, map_app. cbn [map]. rewrite split_children_middle by exact (ds_label _ _ _ _ Hd). erewrite st_bind_run by reflexivity. cbv beta iota.
    erewrite st_bind_run by exact Hr1. erewrite st_bind_run by exact Hr2. by rewrite Hr3.
  - assert (Hout : forall h, h ∉ concat (map nodes (T1 ++ K :: T2)) -> ivl (view s3) h = ivl (view s) h).
    { intros h. rewrite map_app, concat_app. cbn [map concat]. rewrite !not_elem_of_app. intros (H1 & HK & H2).
      by rewrite Hu3, Hu2, Hu1. }
    assert (Hk1 : forall h, h ∈ concat (map nodes T1) -> ivl (view s3) h = ivl (view s1) h).
    { intros h Hh. rewrite Hu3, Hu2; [done|by apply (ds_sides _ _ _ _ Hd)|]. intros HK. by apply (ds_chosen_before _ _ _ _ Hd h). }
    assert (Hk2 : forall h, h ∈ concat (map nodes T2) -> ivl (view s3) h = ivl (view s2) h).
    { intros h Hh. rewrite Hu3; [done|]. intros HK. by apply (ds_chosen_after _ _ _ _ Hd h). }
    assert (Hin : forall x ts, x ∈ ts -> forall h, h ∈ nodes x -> h ∈ concat (map nodes ts)) by (intros; apply elem_concat_map; eauto).
    split; [by eapply reindexed_trans|done|..].
    + erewrite map_ext_in; [exact Hin1|]. intros x Hx%list_elem_of_In. by apply Hk1, (Hin x), nodes_self.
    + erewrite map_ext_in; [exact Hin2|]. intros x Hx%list_elem_of_In. by apply Hk2, (Hin x), nodes_self.
    + done.
    + intros x Hx. destruct (shape_sub _ _ _ _ Hsh (Hkid x ltac:(set_solver))) as [px Hsx].
      apply elem_of_app in Hx as [Hx|Hx].
      * eapply nested_frame; [|exact (reindexed_shape _ _ _ _ Hri1 Hsx)|intros h Hh; by apply Hk1, (Hin x)|by apply Hne1].
        etrans; [apply Hri2|apply Hri3].
      * eapply nested_frame; [apply Hri3|exact (reindexed_shape _ _ _ _ Hs12 Hsx)|intros h Hh; by apply Hk2, (Hin x)|by apply Hne2].
    + destruct final; [done|]. intros h Hh Hne. rewrite Hfin by done. rewrite Hu2 by (by apply (ds_chosen_after _ _ _ _ Hd)).
      by apply Hu1, (ds_chosen_before _ _ _ _ Hd).
Qed.

Section after.
Context (tA : rtree) (T1 : list rtree) (K : rtree) (T2 : list rtree) (final : bool) (s s' : T).
Hypothesis Hsh : shape (view s) p t.
Hypothesis HA : tA ∈ subtrees t.
Hypothesis Hk : kids tA = T1 ++ K :: T2.
Hypothesis Hwk : walking s tA.
Hypothesis Hcap : total (sizes T1) + total (sizes T2) + 4 * slack + Z.of_nat (tsize K) + 1 <= width (ivl (view s) (label tA)).
Hypothesis Hcc : concentrated s s' tA T1 K T2 final.

Lemma concentrated_parent : ivl (view s') (label tA) = ivl (view s) (label tA) /\ local_ok (view s') (label tA).
Proof.
  pose proof (ds_parent _ _ _ _ (siblings_disjoint tA T1 K T2 HA Hk)) as HpA.
  assert (EA : ivl (view s') (label tA) = ivl (view s) (label tA)) by (by apply (cc_out _ _ _ _ _ _ _ Hcc)).
  split; [done|]. pose proof (wk_iv _ _ Hwk) as Hiv. pose proof (tsize_pos K). unfold width in Hcap.
  pose proof (total_nonneg _ (sizes_nonneg T1)). pose proof (total_nonneg _ (sizes_nonneg T2)).
  destruct (shape_sub _ _ _ _ Hsh HA) as [pA HsA]. split; rewrite EA; [done|unfold width; lia|].
  rewrite (same_blocks_chl _ _ _ (ri_same _ _ (cc_reindexed _ _ _ _ _ _ _ Hcc))), (shape_chl _ _ _ HsA), map_map, Hk, map_app.
  cbn [map]. rewrite (cc_chosen _ _ _ _ _ _ _ Hcc). set (a := ivl (view s) (label tA)) in *.
  eapply (inside_join _ (iv_start a + slack + total (sizes T1) - 1)); [|split_and!| |].
  - eapply inside_mono; [apply (cc_before _ _ _ _ _ _ _ Hcc)|unfold a; lia..].
  - cbn [iv_start iv_end]. lia.
  - cbn [iv_start iv_end]. lia.
  - cbn [iv_start iv_end]. lia.
  - cbn [iv_end]. eapply inside_mono; [apply (cc_after _ _ _ _ _ _ _ Hcc)|unfold a; lia..].
  - lia.
  - lia.
Qed.

Lemma concentrated_outside h : h ∈ nodes t -> h ∉ nodes K -> local_ok (view s') h.
Proof.
  intros Hh HhK. pose proof (siblings_disjoint tA T1 K T2 HA Hk) as Hd. destruct (decide (h ∈ nodes tA)) as [HhA|HhA].
  - destruct (decide (h = label tA)) as [->|Hne]; [apply concentrated_parent|].
    assert (exists x, x ∈ kids tA /\ h ∈ nodes x) as (x & Hx & Hhx).
    { destruct tA as [a us]. apply nodes_node in HhA as [->|?]; done. }
    apply (cc_nested _ _ _ _ _ _ _ Hcc x); [|done]. rewrite Hk in Hx. apply elem_of_app in Hx as [?|[->|?]%elem_of_cons]; set_solver.
  - assert (Hmono : forall k, k ∉ nodes tA \/ k = label tA -> ivl (view s') k = ivl (view s) k).
    { intros k [Hk'| ->]; apply (cc_out _ _ _ _ _ _ _ Hcc); [|exact (ds_parent _ _ _ _ Hd)]. intros (x & Hx & Hkx)%elem_concat_map.
      apply Hk'. rewrite <-Hk in Hx. by eapply nodes_kid. }
    eapply local_ok_frame; [apply (cc_reindexed _ _ _ _ _ _ _ Hcc)|apply Hmono; by left| |].
    + intros k Hkh. apply Hmono. destruct (decide (k ∈ nodes tA)) as [HkA|]; [right|by left]. by eapply child_in_label.
    + apply (wk_local _ _ Hwk); [done|]. intros ->. apply HhA, nodes_self.
Qed.

Lemma concentrated_walking : final = false -> walking s' K.
Proof.
  intros Hfin. pose proof (cc_final _ _ _ _ _ _ _ Hcc) as Hu. rewrite Hfin in Hu. assert (HKA : K ∈ kids tA) by (rewrite Hk; set_solver).
  assert (HKt : K ∈ subtrees t) by exact (subtrees_kid_of _ _ _ HA HKA).
  pose proof (walking_kid s tA K Hwk HA HKA) as HnK.
  assert (Hbelow : forall h k, h ∈ nodes K -> k ∈ chl (view s) h -> k ∈ nodes K /\ k <> label K).
  { intros h k (th & Hth & <-)%nodes_subtree Hkh. destruct (shape_sub _ _ _ _ Hsh (subtrees_trans _ _ _ Hth HKt)) as [ph Hsh'].
    rewrite (shape_chl _ _ _ Hsh') in Hkh. apply list_elem_of_In, in_map_iff in Hkh as (tk & <- & Hkh%list_elem_of_In).
    pose proof (subtrees_kid_of _ _ _ Hth Hkh) as Htk. split; [apply nodes_subtree; eauto|]. intros E.
    assert (tk = K) as -> by (eapply label_inj; [exact Hnd|exact (subtrees_trans _ _ _ Htk HKt)|done..]).
    pose proof (tsize_kid _ _ Hkh). pose proof (tsize_sub _ _ Hth). lia. }
  split.
  - intros h Hh Hne. destruct (decide (h ∈ nodes K)) as [HhK|]; [|by apply concentrated_outside].
    eapply local_ok_frame; [apply (cc_reindexed _ _ _ _ _ _ _ Hcc)|by apply Hu| |by apply HnK].
    intros k Hkh. destruct (Hbelow h k HhK Hkh). by apply Hu.
  - rewrite (cc_chosen _ _ _ _ _ _ _ Hcc). destruct (wk_iv _ _ Hwk) as [Hl Hh Hw]. unfold width in Hcap.
    pose proof (total_nonneg _ (sizes_nonneg T1)). pose proof (total_nonneg _ (sizes_nonneg T2)). pose proof (tsize_pos K).
    split; cbn [iv_start iv_end]; lia.
  - destruct (HnK _ (nodes_self K)) as [_ _ Hin]. do 2 eexists. destruct (shape_sub _ _ _ _ Hsh HKt) as [pK HsK].
    rewrite (shape_chl _ _ _ HsK), map_map in Hin. erewrite map_ext_in; [exact Hin|]. intros x Hx%list_elem_of_In.
    assert (label x ∈ chl (view s) (label K)) as Hx'.
    { rewrite (shape_chl _ _ _ HsK). apply list_elem_of_In, in_map. by apply list_elem_of_In. }
    destruct (Hbelow (label K) (label x) (nodes_self K) Hx'). by apply Hu.
Qed.
End after.

(** ** The walk *)

(** The child towards a block below, while the interval of [tA] is not yet in
    order. *)
Lemma next_child_run s tA K next :
  store_ok s -> shape (view s) p t -> tA ∈ subtrees t -> K ∈ kids tA -> next ∈ nodes K -> walking s tA ->
  get_next_chain_ancestor_unchecked s next (label tA) = Ok (label K).
Proof.
  intros Hok Hsh HA HK Hnext Hwk. assert (HKt : K ∈ subtrees t) by exact (subtrees_kid_of _ _ _ HA HK).
  assert (Hst : forall x, x ∈ nodes t -> is_Some (view s !! x)) by (intros x; by eapply shape_lookup).
  assert (Hkt : forall k, k ∈ kids tA -> label k ∈ nodes t /\ 1 <= width (ivl (view s) (label k))).
  { intros k Hk. pose proof (walking_kid s tA k Hwk HA Hk _ (nodes_self k)) as [_ Hp _]. split; [|done].
    apply nodes_subtree. exists k. split; [exact (subtrees_kid_of _ _ _ HA Hk)|done]. }
  pose proof (walking_kid s tA K Hwk HA HK) as HnK. destruct (shape_sub _ _ _ _ Hsh HKt) as [pK HsK].
  destruct (shape_sub _ _ _ _ Hsh HA) as [pA HsA]. destruct (wk_order _ _ Hwk) as (lo & hi & Hin).
  destruct (anc_bounds _ _ _ (label K) next HsK HnK) as (? & ? & _); [exists K; split_and!; [apply subtrees_self|done..]|].
  assert (Hlk : forall j x, map label (kids tA) !! j = Some x ->
    map (fun k => ivl (view s) (label k)) (kids tA) !! j = Some (ivl (view s) x) /\ x ∈ nodes t /\ 1 <= width (ivl (view s) x)).
  { intros j x Hj. apply list_lookup_fmap_Some in Hj as (y & -> & Hy). rewrite list_lookup_fmap, Hy.
    split; [done|]. apply Hkt. by eapply list_elem_of_lookup_2. }
  unfold get_next_chain_ancestor_unchecked. rewrite (get_children_chl s Hok) by (apply Hst, nodes_subtree; eauto).
  cbn [stored stored_set mbind result_bind]. rewrite (shape_chl _ _ _ HsA). pose proof HK as [k Hk]%list_elem_of_lookup.
  rewrite (search_hit s (map label (kids tA)) k (label K) next); [done|done|..].
  - intros x (y & -> & Hy)%list_elem_of_fmap. by apply Hst, Hkt.
  - apply Hst. by eapply nodes_sub.
  - intros i j x y Hi Hj Hij. destruct (Hlk i x Hi) as (Hi' & _ & Hp), (Hlk j y Hj) as (Hj' & _ & _).
    pose proof (inside_order _ _ _ _ _ _ _ Hin Hi' Hj' Hij). unfold width in Hp. lia.
  - by rewrite list_lookup_fmap, Hk.
  - unfold contains. rewrite andb_true_iff, !Z.leb_le. lia.
  - unfold width. lia.
  - intros j x Hj Hkj. destruct (Hlk j x Hj) as (Hj' & _). eapply (inside_order _ _ _ k j _ _ Hin); [|done..].
    by rewrite list_lookup_fmap, Hk.
Qed.

Lemma walking_nested s K : K ∈ subtrees t -> shape (view s) p t ->
  (forall h, h ∈ nodes t -> h ∉ nodes K -> local_ok (view s) h) -> nested (view s) K -> walking s K.
Proof.
  intros HK Hsh Hout Hn. destruct (Hn _ (nodes_self K)) as [Hiv Hp Hin]. split; [|done|].
  - intros h Hh _. destruct (decide (h ∈ nodes K)); auto.
  - destruct (shape_sub _ _ _ _ Hsh HK) as [pK HsK]. rewrite (shape_chl _ _ _ HsK), map_map in Hin. eauto.
Qed.

(** The space a block on the way needs so that all the moves below it fit and
    [X] is left. *)
Definition move_capacity (s : T) (x : rtree) (X : Z) : Prop :=
  (4 * slack + 2) * Z.of_nat (tsize x) + X <= width (ivl (view s) (label x)).

Lemma concentrate_loop_run X walk tA tN s :
  0 <= X -> store_ok s -> shape (view s) p t -> tA ∈ subtrees t -> tN ∈ subtrees tA -> walking s tA ->
  (tA = tN -> local_ok (view s) (label tA)) -> move_capacity s tA X -> (tsize tA <= walk)%nat ->
  exists s', concentrate_loop walk fuel slack (label tA) (label tN) s = (s', Ok tt) /\ reindexed s s' /\
    nested (view s') t /\ move_capacity s' tN X.
Proof.
  intros HX. revert tA s. induction walk as [|walk IH]; intros tA s Hok Hsh HA HN Hwk Hlast Hcap Hw.
  { pose proof (tsize_pos tA). lia. }
  cbn [concentrate_loop]. case_bool_decide as E.
  - assert (tA = tN) as <- by (eapply label_inj; [exact Hnd|done|exact (subtrees_trans _ _ _ HN HA)|done]).
    exists s. split_and!; [done|by apply reindexed_refl| |done]. intros h Hh.
    destruct (decide (h = label tA)) as [->|]; [by apply Hlast|by apply (wk_local _ _ Hwk)].
  - assert (exists K, K ∈ kids tA /\ tN ∈ subtrees K) as (K & HK & HNK).
    { destruct tA as [a us]. apply subtrees_node in HN as [->|?]; done. }
    assert (HKt : K ∈ subtrees t) by exact (subtrees_kid_of _ _ _ HA HK).
    erewrite st_bind_run.
    2:{ unfold query. rewrite (next_child_run s tA K (label tN)); [done..| |done]. apply nodes_subtree. eauto. }
    pose proof HK as (T1 & T2 & Hk)%list_elem_of_split. pose proof (tsize_middle tA T1 K T2 Hk) as Hsz.
    pose proof (total_nonneg _ (sizes_nonneg T1)). pose proof (total_nonneg _ (sizes_nonneg T2)). unfold move_capacity in Hcap.
    assert (Hstep : total (sizes T1) + total (sizes T2) + 4 * slack + Z.of_nat (tsize K) + 1 <= width (ivl (view s) (label tA))) by nia.
    destruct (concentrate_phases tA T1 K T2 (bool_decide (label K = label tN)) s Hok Hsh HA Hk Hwk Hstep) as (s1 & Hr1 & Hcc).
    erewrite st_bind_run by exact Hr1. pose proof (cc_reindexed _ _ _ _ _ _ _ Hcc) as Hri.
    assert (Hsh1 : shape (view s1) p t) by (by eapply reindexed_shape).
    assert (walking s1 K /\ (K = tN -> local_ok (view s1) (label K))) as [HwK HlK].
    { destruct (bool_decide (label K = label tN)) eqn:Eb.
      - pose proof (cc_final _ _ _ _ _ _ _ Hcc) as HnK. cbn in HnK. split; [|intros _; apply HnK, nodes_self].
        apply walking_nested; [done..| |done]. exact (concentrated_outside tA T1 K T2 _ s s1 Hsh HA Hk Hwk Hstep Hcc).
      - split; [exact (concentrated_walking tA T1 K T2 _ s s1 Hsh HA Hk Hwk Hstep Hcc eq_refl)|]. intros ->. by apply bool_decide_eq_false in Eb. }
    destruct (IH K s1) as (s' & Hr' & Hri' & Hn' & Hcap'); try done; [apply Hri| |pose proof (tsize_kid _ _ HK); lia|].
    + unfold move_capacity. rewrite (cc_chosen _ _ _ _ _ _ _ Hcc). unfold width in *. cbn [iv_start iv_end]. nia.
    + exists s'. split_and!; [done|by eapply reindexed_trans|done..].
Qed.
End concentrate.
