(* ===== verification/ReachDag.v ===== *)
(** DAG reachability: the future covering sets, [is_dag_ancestor_of] and
    [add_block]. A store represents the relation "is [x] or in its future"; adding a
    block with its selected parent and its mergeset extends the relation by the
    new block. *)

From S2P Require Import Prelude Access Interval Reach ReachTree ReachQueries ReachCount ReachPropagate ReachSides ReachReclaim ReachInsert.

Definition fcs (m : blocks) (h : hash) : list hash :=
  match m !! h with Some d => rd_fcs d | None => [] end.

Definition hgt (m : blocks) (h : hash) : Z := match m !! h with Some d => rd_height d | None => 0 end.

(** * Changing a future covering set *)

Lemma with_fcs_hgt m h d l x : m !! h = Some d -> hgt (<[h := with_fcs d l]> m) x = hgt m x.
Proof.
  intros E. unfold hgt. destruct (decide (x = h)) as [->|Hne].
  - by rewrite lookup_insert_eq, E.
  - by rewrite lookup_insert_ne.
Qed.

Lemma with_fcs_ivl m h d l x : m !! h = Some d -> ivl (<[h := with_fcs d l]> m) x = ivl m x.
Proof.
  intros E. unfold ivl. destruct (decide (x = h)) as [->|Hne].
  - by rewrite lookup_insert_eq, E.
  - by rewrite lookup_insert_ne.
Qed.

Lemma with_fcs_chl m h d l x : m !! h = Some d -> chl (<[h := with_fcs d l]> m) x = chl m x.
Proof.
  intros E. unfold chl. destruct (decide (x = h)) as [->|Hne].
  - by rewrite lookup_insert_eq, E.
  - by rewrite lookup_insert_ne.
Qed.

Lemma with_fcs_fcs m h d l x : fcs (<[h := with_fcs d l]> m) x = if decide (x = h) then l else fcs m x.
Proof.
  unfold fcs. destruct (decide (x = h)) as [->|Hne].
  - by rewrite lookup_insert_eq.
  - by rewrite lookup_insert_ne.
Qed.

Lemma with_fcs_shape m h d l p t : m !! h = Some d -> shape m p t -> shape (<[h := with_fcs d l]> m) p t.
Proof.
  intros E. revert p. induction t as [x ts IH] using rtree_ind'. intros p. rewrite !shape_node.
  intros [(dx & Ex & Hp & Hc) Hs]. split.
  - destruct (decide (x = h)) as [->|Hne].
    + rewrite lookup_insert_eq. eexists. split; [done|]. assert (dx = d) as -> by congruence. done.
    + rewrite lookup_insert_ne by done. eauto.
  - rewrite Forall_forall in *. auto.
Qed.

Lemma with_fcs_nested m h d l t : m !! h = Some d -> nested m t -> nested (<[h := with_fcs d l]> m) t.
Proof.
  intros E Hn x Hx. destruct (Hn x Hx) as [H1 H2 H3]. split; rewrite ?with_fcs_ivl, ?with_fcs_chl by done; [done..|].
  erewrite map_ext; [done|]. intros. by rewrite with_fcs_ivl.
Qed.

(** Inserting into an ordered list of blocks. *)
Lemma side_by_side_insert t l i n :
  side_by_side t l -> (i <= length l)%nat ->
  (forall j a, l !! j = Some a -> (j < i)%nat -> left_of t a n) ->
  (forall j a, l !! j = Some a -> (i <= j)%nat -> left_of t n a) ->
  side_by_side t (take i l ++ n :: drop i l).
Proof.
  intros Hs Hi Hb Ha.
  assert (Hlk : forall j x, (take i l ++ n :: drop i l) !! j = Some x ->
    ((j < i)%nat /\ l !! j = Some x) \/ (j = i /\ x = n) \/ ((i < j)%nat /\ l !! pred j = Some x)).
  { intros j x Hj. destruct (Nat.lt_trichotomy j i) as [Hlt|[->|Hgt]].
    - rewrite lookup_app_l in Hj by (rewrite length_take; lia). rewrite lookup_take_lt in Hj by done. auto.
    - rewrite lookup_app_r in Hj by (rewrite length_take; lia).
      rewrite length_take, Nat.min_l, Nat.sub_diag in Hj by done. simpl in Hj. right; left. split; congruence.
    - rewrite lookup_app_r in Hj by (rewrite length_take; lia).
      rewrite length_take, Nat.min_l in Hj by done. destruct (j - i)%nat as [|k] eqn:E; [lia|]. simpl in Hj.
      rewrite lookup_drop in Hj. right; right. split; [done|]. by replace (pred j) with (i + k)%nat by lia. }
  intros j k a b Hj Hk Hjk. apply Hlk in Hj as [[? Hj]|[[-> ->]|[? Hj]]], Hk as [[? Hk]|[[-> ->]|[? Hk]]]; try lia.
  - eapply (Hs j k); [done..|lia].
  - by eapply Hb.
  - eapply (Hs j (pred k)); [done..|lia].
  - eapply Ha; [done|lia].
  - eapply (Hs (pred j) (pred k)); [done..|lia].
Qed.

Section dag.
Context {T : Type} `{RS : ReachabilityStore T, RL : !ReachabilityStoreLaws T}.

(** [D x y]: [x] is [y] or an ancestor of it in the DAG. *)
Record represents_dag (s : T) (t : rtree) (D : hash -> hash -> Prop) : Prop := {
  rg_tree : represents_tree s NONE t;
  rg_none : NONE ∉ nodes t;
  rg_fcs_in : forall x, Forall (fun f => f ∈ nodes t) (fcs (view s) x);
  rg_dom : forall x, is_Some (view s !! x) -> x ∈ nodes t;
  rg_fcs_order : forall x, side_by_side t (fcs (view s) x);
  rg_fcs_apart : forall x f, f ∈ fcs (view s) x -> ~ anc t x f /\ ~ anc t f x;
  rg_rel : forall x y, D x y <-> anc t x y \/ exists f, f ∈ fcs (view s) x /\ anc t f y;
}.

Lemma get_fcs_run s h : store_ok s -> is_Some (view s !! h) -> rs_get_future_covering_set s h = Ok (fcs (view s) h).
Proof. intros Hok [d E]. rewrite (law_fcs s h d Hok E). unfold fcs. by rewrite E. Qed.

Lemma rg_fcs_dom s t D : represents_dag s t D -> forall x, x ∉ nodes t -> fcs (view s) x = [].
Proof.
  intros Hg x Hx. unfold fcs. destruct (view s !! x) eqn:E; [|done]. destruct Hx. apply (rg_dom _ _ _ Hg). eauto.
Qed.

Lemma dag_nodes s t D x y : represents_dag s t D -> D x y -> x ∈ nodes t /\ y ∈ nodes t.
Proof.
  intros Hg [H|(f & Hf & H)]%(rg_rel _ _ _ Hg); [by apply anc_nodes|].
  split; [|apply (anc_nodes _ _ _ H)]. destruct (decide (x ∈ nodes t)) as [|Hx]; [done|].
  rewrite (rg_fcs_dom _ _ _ Hg x Hx) in Hf. by apply elem_of_nil in Hf.
Qed.

Lemma fcs_nodes s t D x f : represents_dag s t D -> f ∈ fcs (view s) x -> x ∈ nodes t /\ f ∈ nodes t.
Proof.
  intros Hg Hf. pose proof (rg_fcs_in _ _ _ Hg x) as H0. rewrite Forall_forall in H0. split; [|auto].
  destruct (decide (x ∈ nodes t)) as [|Hx]; [done|]. rewrite (rg_fcs_dom _ _ _ Hg x Hx) in Hf. by apply elem_of_nil in Hf.
Qed.

Lemma is_dag_ancestor_of_run s t D x y :
  represents_dag s t D -> x ∈ nodes t -> y ∈ nodes t ->
  exists r, is_dag_ancestor_of s x y = Ok r /\ (r = true <-> D x y).
Proof.
  intros Hg Hx Hy. pose proof (rg_tree _ _ _ Hg) as Hrep. unfold is_dag_ancestor_of.
  destruct (is_chain_ancestor_of_run s NONE t Hrep x y Hx Hy) as ([] & -> & Hr); cbn [mbind result_bind].
  { exists true. split; [done|]. split; [|done]. intros _. apply (rg_rel _ _ _ Hg). left. by apply Hr. }
  rewrite (get_fcs_run s x (rt_ok _ _ _ Hrep) (node_stored s NONE t Hrep x Hx)). cbn [stored stored_set mbind result_bind].
  destruct (binary_search_descendant_run s NONE t Hrep (fcs (view s) x) y (rg_fcs_in _ _ _ Hg x) (rg_fcs_order _ _ _ Hg x) Hy)
    as [(f & i & -> & Hi & Hf)|(i & -> & _ & Hno & _)]; cbn [mbind result_bind].
  - exists true. split; [done|]. split; [|done]. intros _. apply (rg_rel _ _ _ Hg). right. exists f.
    split; [by eapply list_elem_of_lookup_2|done].
  - exists false. split; [done|]. split; [done|]. intros [Ha|(f & Hf & Ha)]%(rg_rel _ _ _ Hg).
    + apply Hr in Ha. done.
    + by apply (Hno f) in Hf.
Qed.

(** * [add_block] *)

Section add.
Context (t : rtree) (n : hash) (fcs0 : hash -> list hash) (q : hash).
Abbreviation t' := (graft q n t).
Hypothesis Hn : n ∉ nodes t.
Hypothesis Hq : q ∈ nodes t.
Hypothesis Hin0 : forall x, Forall (fun f => f ∈ nodes t) (fcs0 x).

(** The blocks of [done] have the new block in their future covering set. *)
Record covering (done : list hash) (s s' : T) : Prop := {
  cv_tree : represents_tree s' NONE t';
  cv_root : root_of s' = root_of s;
  cv_ivl : forall x, ivl (view s') x = ivl (view s) x;
  cv_height : forall x, hgt (view s') x = hgt (view s) x;
  cv_fresh : forall x, fresh s x -> fresh s' x;
  cv_dom : forall x, is_Some (view s' !! x) <-> is_Some (view s !! x);
  cv_order : forall x, side_by_side t' (fcs (view s') x);
  cv_elem : forall x f, f ∈ fcs (view s') x <-> f ∈ fcs0 x \/ (f = n /\ x ∈ done);
}.

Lemma leaf_anc f : anc t' n f -> f = n.
Proof. intros [H|[-> _]]%anc_graft; [|done..]. by apply anc_nodes in H as [? _]. Qed.

(** A block put where the search did not find it. *)
Lemma insert_keeps_order s' l i :
  represents_tree s' NONE t' -> side_by_side t' l -> Forall (fun f => f ∈ nodes t') l -> (i <= length l)%nat ->
  (forall f, f ∈ l -> ~ anc t' f n /\ ~ anc t' n f) ->
  (forall j h, l !! j = Some h -> (j < i)%nat -> iv_start (ivl (view s') h) < iv_end (ivl (view s') n)) ->
  (forall j h, l !! j = Some h -> (i <= j)%nat -> iv_end (ivl (view s') n) < iv_start (ivl (view s') h)) ->
  side_by_side t' (take i l ++ n :: drop i l).
Proof.
  intros [_ Hs Hnn] Ho Hl Hi Hno Hlo Hhi. rewrite Forall_forall in Hl.
  assert (Hn' : n ∈ nodes t') by (apply nodes_graft; auto).
  apply side_by_side_insert; [done..| |]; intros j a Ha Hj; pose proof (list_elem_of_lookup_2 _ _ _ Ha) as Hel;
    destruct (Hno a Hel) as [H1 H2]; (destruct (tree_trichotomy t' a n) as [?|[?|[H|H]]]; [by apply Hl|done..| |]); try done;
    pose proof (left_bounds _ _ _ _ _ Hs Hnn H).
  - pose proof (Hlo _ _ Ha Hj). lia.
  - pose proof (Hhi _ _ Ha Hj). pose proof (nested_pos _ _ a Hnn (Hl a Hel)). pose proof (nested_pos _ _ n Hnn Hn'). lia.
Qed.

Lemma insert_to_future_covering_set_run done m s s' :
  covering done s s' -> m ∈ nodes t -> m ∉ done -> (forall f, f ∈ fcs0 m -> ~ anc t f q) ->
  exists s'', insert_to_future_covering_set m n s' = (s'', Ok tt) /\ covering (done ++ [m]) s s''.
Proof.
  intros Hc Hm Hd Hno. pose proof (cv_tree _ _ _ Hc) as Hrep.
  assert (Hm' : m ∈ nodes t') by (apply nodes_graft; auto). assert (Hn' : n ∈ nodes t') by (apply nodes_graft; auto).
  destruct (node_stored s' NONE t' Hrep m Hm') as [d Hdm]. pose proof (rt_ok _ _ _ Hrep) as Hok.
  assert (Hf0 : forall f, f ∈ fcs (view s') m -> f ∈ fcs0 m) by (intros f [?|[_ ?]]%(cv_elem _ _ _ Hc); done).
  assert (Hft : forall f, f ∈ fcs (view s') m -> f ∈ nodes t).
  { intros f Hf. pose proof (Hin0 m) as H0. rewrite Forall_forall in H0. by apply H0, Hf0. }
  assert (Hfs : Forall (fun f => f ∈ nodes t') (fcs (view s') m)).
  { apply Forall_forall. intros f Hf. apply nodes_graft. auto. }
  assert (Hnoanc : forall f, f ∈ fcs (view s') m -> ~ anc t' f n /\ ~ anc t' n f).
  { intros f Hf. split.
    - intros H. apply (anc_graft q n t f n Hn Hq) in H as [H|[_ [->|H]]].
      + by apply anc_nodes in H as [_ ?].
      + by apply Hn, Hft.
      + by apply (Hno f); [apply Hf0|].
    - intros ->%leaf_anc. by apply Hn, Hft. }
  unfold insert_to_future_covering_set.
  destruct (binary_search_descendant_run s' NONE t' Hrep (fcs (view s') m) n Hfs (cv_order _ _ _ Hc m) Hn')
    as [(f & i & _ & Hi & Hf)|(i & Hr & Hi & _ & Hlo & Hhi)].
  { exfalso. apply list_elem_of_lookup_2 in Hi. by apply (proj1 (Hnoanc f Hi)). }
  erewrite st_bind_run.
  2:{ unfold query. rewrite (get_fcs_run s' m Hok) by eauto. cbn [stored stored_set mbind result_bind]. by rewrite Hr. }
  assert (Ed : fcs (view s') m = rd_fcs d) by (unfold fcs; by rewrite Hdm).
  destruct (law_insert_fci s' m d n i Hok Hdm) as (s'' & Hr'' & Hok'' & Hv & Hroot & Hf); [by rewrite <-Ed|rewrite <-Ed; by intros ?%Hft|].
  exists s''. split; [unfold update_set, map_err; by rewrite Hr''|].
  assert (Hside : side_by_side t' (take i (rd_fcs d) ++ n :: drop i (rd_fcs d))).
  { rewrite <-Ed. apply (insert_keeps_order s'); [done|apply Hc|done..]. }
  split.
  - split; [done|rewrite Hv; apply with_fcs_shape; [done|apply Hrep]|rewrite Hv; apply with_fcs_nested; [done|apply Hrep]].
  - rewrite Hroot. apply Hc.
  - intros x. rewrite Hv, with_fcs_ivl by done. apply Hc.
  - intros x. rewrite Hv, with_fcs_hgt by done. apply Hc.
  - intros x Hx. by apply Hf, Hc.
  - intros x. rewrite Hv, <-(cv_dom _ _ _ Hc). destruct (decide (x = m)) as [->|Hne].
    + rewrite lookup_insert_eq, Hdm. by split; eauto.
    + by rewrite lookup_insert_ne.
  - intros x. rewrite Hv, with_fcs_fcs. destruct (decide (x = m)) as [->|Hne]; [done|apply Hc].
  - intros x f. rewrite Hv, with_fcs_fcs, elem_of_app, list_elem_of_singleton. destruct (decide (x = m)) as [->|Hne].
    + assert (f ∈ take i (rd_fcs d) ++ n :: drop i (rd_fcs d) <-> f = n \/ f ∈ rd_fcs d) as ->.
      { rewrite <-(take_drop i (rd_fcs d)) at 3. rewrite !elem_of_app, elem_of_cons. tauto. }
      rewrite <-Ed, (cv_elem _ _ _ Hc). tauto.
    + rewrite (cv_elem _ _ _ Hc). tauto.
Qed.

Lemma add_dag_block_run M done s s' :
  covering done s s' -> (forall m, m ∈ M -> m ∈ nodes t) -> NoDup (done ++ M) ->
  (forall m f, m ∈ M -> f ∈ fcs0 m -> ~ anc t f q) ->
  exists s'', add_dag_block n M s' = (s'', Ok tt) /\ covering (done ++ M) s s''.
Proof.
  unfold add_dag_block. revert done s'. induction M as [|m M IH]; intros done s' Hc HM Hnd Hno; cbn [for_each].
  { exists s'. by rewrite app_nil_r. }
  destruct (insert_to_future_covering_set_run done m s s' Hc) as (s1 & Hr & Hc1).
  { apply HM. by left. }
  { apply NoDup_app in Hnd as (_ & H & _). intros Hm. apply (H m Hm). by left. }
  { intros f. apply Hno. by left. }
  erewrite st_bind_run by exact Hr. rewrite cons_middle, app_assoc in Hnd |- *.
  apply IH; [done|intros; apply HM; by right|done|intros m' f Hm'; apply Hno; by right].
Qed.
Lemma covering_relation done s s' : covering done s s' -> forall x y,
  (exists f, f ∈ fcs (view s') x /\ anc t' f y) <->
  (exists f, f ∈ fcs0 x /\ anc t f y) \/ (y = n /\ ((exists f, f ∈ fcs0 x /\ anc t f q) \/ x ∈ done)).
Proof.
  intros Hc x y. split.
  - intros (f & Hf2 & Ha). apply (anc_graft q n t f y Hn Hq) in Ha.
    apply (cv_elem _ _ _ Hc) in Hf2 as [Hfx|[-> HxM]]; destruct Ha as [Ha|[-> [E|Ha]]]; eauto 6.
    + exfalso. subst f. apply Hn. pose proof (Hin0 x) as H0. rewrite Forall_forall in H0. auto.
    + exfalso. by apply anc_nodes in Ha as [? _].
  - intros [(f & Hfx & Ha)|[-> [(f & Hfx & Ha)|HxM]]].
    + exists f. rewrite (cv_elem _ _ _ Hc), anc_graft by done. auto.
    + exists f. rewrite (cv_elem _ _ _ Hc), anc_graft by done. auto.
    + exists n. rewrite (cv_elem _ _ _ Hc), anc_graft by done. auto.
Qed.
End add.

(** The relation with a new block [n] that has [n] in the future of exactly the
    blocks [x] with [P x]. *)
Definition extended (D : hash -> hash -> Prop) (n : hash) (P : hash -> Prop) (x y : hash) : Prop :=
  D x y \/ (y = n /\ (x = n \/ P x)).

Lemma add_block_run fuel s t D n q M R depth slack :
  represents_dag s t D -> q ∈ nodes t -> fresh s n -> n <> NONE ->
  NoDup M -> (forall m, m ∈ M -> m ∈ nodes t /\ ~ D m q) ->
  root_of s = Some R -> R ∈ nodes t -> 0 <= default DEFAULT_REINDEX_SLACK slack ->
  reindex_capacity s (default DEFAULT_REINDEX_SLACK slack) t R -> (tsize t + 1 <= fuel)%nat ->
  exists s', add_block_with_params fuel n q M depth slack s = (s', Ok tt) /\
    represents_dag s' (graft q n t) (extended D n (fun x => D x q \/ x ∈ M)) /\ root_of s' = Some R /\
    (forall x, x <> n -> fresh s x -> fresh s' x) /\ (R = label t -> ivl (view s') R = ivl (view s) R) /\
    width (ivl (view s) R) - (default DEFAULT_REINDEX_SLACK slack + 1) * Z.of_nat (tsize t + 1) <= width (ivl (view s') R) /\
    (forall x, x <> n -> hgt (view s') x = hgt (view s) x) /\ hgt (view s') n = wadd64 (hgt (view s) q) 1.
Proof.
  intros Hg Hq Hf HnN HndM HM Hroot HR Hsl Hcap Hfuel. pose proof (rg_tree _ _ _ Hg) as Hrep.
  destruct (add_tree_block_run s t q n R _ fuel Hrep (rg_none _ _ _ Hg) Hq Hf HnN HR Hroot Hsl Hcap Hfuel
              (default DEFAULT_REINDEX_DEPTH depth)) as (s1 & Hr1 & Hins & Hloss).
  pose proof (new_not_in s t n Hrep Hf) as Hnt.
  assert (Hf1 : forall x, fcs (view s1) x = fcs (view s) x).
  { intros x. destruct (decide (x = n)) as [->|Hne].
    - destruct (in_new _ _ _ _ _ Hins) as (dn & E & Efcs). rewrite (rg_fcs_dom _ _ _ Hg n Hnt). unfold fcs. by rewrite E.
    - pose proof (in_fcs _ _ _ _ _ Hins x Hne) as E. unfold fcs. by destruct (view s1 !! x), (view s !! x); simplify_eq/=. }
  assert (Hc : covering t n (fcs (view s)) q [] s1 s1).
  { split; [apply Hins|done..| |].
    - intros x i j a b Ha Hb Hij. rewrite Hf1 in Ha, Hb. apply left_of_graft. by eapply (rg_fcs_order _ _ _ Hg).
    - intros x f. rewrite Hf1. split; [auto|]. intros [?|[_ ?%elem_of_nil]]; done. }
  destruct (add_dag_block_run t n (fcs (view s)) q Hnt Hq (rg_fcs_in _ _ _ Hg) M [] s1 s1 Hc) as (s2 & Hr2 & Hc2).
  { intros m Hm. by apply HM. }
  { done. }
  { intros m f Hm Hfm Ha. apply (proj2 (HM m Hm)), (rg_rel _ _ _ Hg). eauto. }
  exists s2. split_and!.
  - unfold add_block_with_params. erewrite st_bind_run by exact Hr1. exact Hr2.
  - split.
    + apply Hc2.
    + intros [?|[E _]]%nodes_graft; [by apply (rg_none _ _ _ Hg)|done].
    + intros x. apply Forall_forall. intros f [Hfx|[-> _]]%(cv_elem _ _ _ _ _ _ _ Hc2); apply nodes_graft; [left|auto].
      pose proof (rg_fcs_in _ _ _ Hg x) as H0. rewrite Forall_forall in H0. auto.
    + intros x [d' E'] . apply nodes_graft. destruct (decide (x = n)) as [->|Hne]; [auto|left]. apply (rg_dom _ _ _ Hg).
      assert (is_Some (view s1 !! x)) as [d1 E1] by (apply (cv_dom _ _ _ _ _ _ _ Hc2); eauto).
      pose proof (in_fcs _ _ _ _ _ Hins x Hne) as E2. rewrite E1 in E2. destruct (view s !! x); [eauto|done].
    + apply Hc2.
    + intros x f Hfx. rewrite !(anc_graft q n t) by done.
      apply (cv_elem _ _ _ _ _ _ _ Hc2) in Hfx as [Hfx|[-> HxM]].
      * pose proof (rg_fcs_apart _ _ _ Hg x f Hfx). pose proof (fcs_nodes _ _ _ _ _ Hg Hfx) as [? ?].
        split; intros [?|[-> _]]; tauto.
      * destruct (HM x HxM) as [Hx HxD]. split.
        -- intros [[_ ?]%anc_nodes|[_ [->|Ha]]]; [done..|]. apply HxD, (rg_rel _ _ _ Hg). by left.
        -- intros [[? _]%anc_nodes|[-> _]]; done.
    + intros x y. unfold extended. rewrite (anc_graft q n t x y Hnt Hq).
      rewrite (covering_relation t n (fcs (view s)) q Hnt Hq (rg_fcs_in _ _ _ Hg) M s1 s2 Hc2 x y), !(rg_rel _ _ _ Hg). tauto.
  - rewrite (cv_root _ _ _ _ _ _ _ Hc2), (in_root _ _ _ _ _ Hins). done.
  - intros x Hx Hfx. apply (cv_fresh _ _ _ _ _ _ _ Hc2). by apply (in_fresh _ _ _ _ _ Hins).
  - intros ->. rewrite (cv_ivl _ _ _ _ _ _ _ Hc2). by apply (in_top _ _ _ _ _ Hins).
  - by rewrite (cv_ivl _ _ _ _ _ _ _ Hc2).
  - intros x Hx. rewrite (cv_height _ _ _ _ _ _ _ Hc2). pose proof (in_height _ _ _ _ _ Hins x Hx) as E. unfold hgt.
    by destruct (view s1 !! x), (view s !! x); simplify_eq/=.
  - rewrite (cv_height _ _ _ _ _ _ _ Hc2). destruct (in_new_height _ _ _ _ _ Hins) as (d & dq & E1 & E2 & E3). unfold hgt. by rewrite E1, E2.
Qed.
End dag.
