(* ===== verification/ReachService.v ===== *)
(** The reachability service and its chain iterators
    (consensus/src/model/services/reachability.rs). *)

From S2P Require Import Prelude Access Interval Reach ReachTree ReachQueries ReachCount ReachInsert ReachDag.

Section service.
Context {T : Type} `{RS : ReachabilityStore T}.

(** [Result::unwrap] *)
Definition unwrap {A} (r : result stop A) : result stop A :=
  match r with Ok a => Ok a | Err _ => Err Crashed end.

Definition svc_is_chain_ancestor_of (s : T) (this queried : hash) := unwrap (is_chain_ancestor_of s this queried).
Definition svc_is_dag_ancestor_of (s : T) (this queried : hash) := unwrap (is_dag_ancestor_of s this queried).

(** [queried.any(..)], which stops at the first hit. *)
Fixpoint is_dag_ancestor_of_any (s : T) (this : hash) (queried : list hash) : result stop bool :=
  match queried with
  | [] => Ok false
  | h :: rest =>
      b ← unwrap (is_dag_ancestor_of s this h);
      if b : bool then Ok true else is_dag_ancestor_of_any s this rest
  end.

Fixpoint try_is_any_dag_ancestor (s : T) (l : list hash) (queried : hash) : result stop bool :=
  match l with
  | [] => Ok false
  | h :: rest =>
      b ← is_dag_ancestor_of s h queried;
      if b : bool then Ok true else try_is_any_dag_ancestor s rest queried
  end.

Definition is_any_dag_ancestor (s : T) (l : list hash) (queried : hash) := unwrap (try_is_any_dag_ancestor s l queried).

Definition svc_get_next_chain_ancestor (s : T) (descendant ancestor : hash) :=
  unwrap (get_next_chain_ancestor s descendant ancestor).

Definition get_chain_parent (s : T) (this : hash) : result stop hash := unwrapped (rs_get_parent s this).
Definition has_reachability_data (s : T) (this : hash) : result stop bool := unwrapped (rs_has s this).

(** Both iterators: the block to yield next and the block to stop at. *)
Record ChainIterator := mk_iterator {
  it_current : option hash;
  it_end : hash;
  it_inclusive : bool;
}.

Definition BackwardChainIterator_new (from_descendant to_ancestor : hash) (inclusive : bool) : ChainIterator :=
  mk_iterator (Some from_descendant) to_ancestor inclusive.

Definition ForwardChainIterator_new (from_ancestor to_descendant : hash) (inclusive : bool) : ChainIterator :=
  mk_iterator (Some from_ancestor) to_descendant inclusive.

Definition backward_next (s : T) (it : ChainIterator) : result stop (option hash * ChainIterator) :=
  match it_current it with
  | Some current =>
      if bool_decide (current = it_end it) then
        Ok (if it_inclusive it then Some current else None, mk_iterator None (it_end it) (it_inclusive it))
      else
        next ← unwrapped (rs_get_parent s current);
        Ok (Some current, mk_iterator (Some next) (it_end it) (it_inclusive it))
  | None => Ok (None, it)
  end.

Definition forward_next (s : T) (it : ChainIterator) : result stop (option hash * ChainIterator) :=
  match it_current it with
  | Some current =>
      if bool_decide (current = it_end it) then
        Ok (if it_inclusive it then Some current else None, mk_iterator None (it_end it) (it_inclusive it))
      else
        next ← unwrap (get_next_chain_ancestor s (it_end it) current);
        Ok (Some current, mk_iterator (Some next) (it_end it) (it_inclusive it))
  | None => Ok (None, it)
  end.

(** The blocks an iterator yields. *)
Fixpoint yields (next : ChainIterator -> result stop (option hash * ChainIterator)) (fuel : nat) (it : ChainIterator) :
    result stop (list hash) :=
  match fuel with
  | O => Err Diverges
  | S fuel' =>
      '(o, it') ← next it;
      match o with
      | None => Ok []
      | Some h => l ← yields next fuel' it'; Ok (h :: l)
      end
  end.

Definition forward_chain_iterator (fuel : nat) (s : T) (from_ancestor to_descendant : hash) (inclusive : bool) :=
  yields (forward_next s) fuel (ForwardChainIterator_new from_ancestor to_descendant inclusive).
Definition backward_chain_iterator (fuel : nat) (s : T) (from_descendant to_ancestor : hash) (inclusive : bool) :=
  yields (backward_next s) fuel (BackwardChainIterator_new from_descendant to_ancestor inclusive).
Definition default_backward_chain_iterator (fuel : nat) (s : T) (from : hash) :=
  backward_chain_iterator fuel s from ORIGIN false.
End service.

(** * The path from the root of a tree to a block *)

Fixpoint path (t : rtree) (d : hash) : list hash :=
  match t with
  | Node h ts => h :: (if bool_decide (h = d) then [] else concat (map (fun k => if bool_decide (d ∈ nodes k) then path k d else []) ts))
  end.

Lemma path_kid h ts k d : NoDup (nodes (Node h ts)) -> k ∈ ts -> d ∈ nodes k -> path (Node h ts) d = h :: path k d.
Proof.
  intros Hnd Hk Hd. cbn [path nodes] in *. apply NoDup_cons in Hnd as [Hh Hnd]. f_equal.
  rewrite bool_decide_false by (intros ->; apply Hh, elem_concat_map; eauto).
  clear Hh. induction ts as [|x ts IH]; [by apply elem_of_nil in Hk|]. cbn [map concat] in *.
  apply NoDup_app in Hnd as (_ & Hdis & Hnd). apply elem_of_cons in Hk as [->|Hk].
  - rewrite bool_decide_true by done. replace (concat _) with (@nil hash); [by rewrite app_nil_r|].
    assert (forall y, y ∈ ts -> d ∉ nodes y) as Hno by (intros y Hy Hdy; apply (Hdis d Hd), elem_concat_map; eauto).
    clear -Hno. induction ts as [|y ts IH]; [done|]. cbn. rewrite bool_decide_false by (apply Hno; by left).
    apply IH. intros z Hz. apply Hno. by right.
  - rewrite bool_decide_false; [by apply IH|]. intros Hdx. apply (Hdis d Hdx), elem_concat_map. eauto.
Qed.

Lemma path_self t : path t (label t) = [label t].
Proof. destruct t as [h ts]. cbn. by rewrite bool_decide_true. Qed.

Lemma path_length t d : (length (path t d) <= tsize t)%nat.
Proof.
  induction t as [h ts IH] using rtree_ind'. rewrite tsize_node. cbn [path length]. apply le_n_S.
  case_bool_decide; [simpl; lia|]. induction IH as [|k ts Hk _ IH]; [done|]. cbn. rewrite length_app.
  case_bool_decide; simpl; lia.
Qed.

(** The path holds the blocks between the two. *)
Lemma path_elem t d x : NoDup (nodes t) -> d ∈ nodes t -> x ∈ path t d <-> anc t x d.
Proof.
  induction t as [h ts IH] using rtree_ind'. intros Hnd Hd. rewrite Forall_forall in IH.
  assert (Hroot : anc (Node h ts) h d) by (exists (Node h ts); split_and!; [apply subtrees_self|done..]).
  pose proof Hd as [->|(k & Hk & Hdk)]%nodes_node.
  - rewrite (path_self (Node h ts) : path (Node h ts) h = [h]), list_elem_of_singleton. split; [by intros ->|].
    intros (tx & Htx & <- & Hx). apply subtrees_node in Htx as [->|(k & Hk & Htx)]; [done|]. exfalso.
    cbn [nodes] in Hnd. apply NoDup_cons in Hnd as [Hh _]. apply Hh, elem_concat_map. exists k. split; [done|by eapply nodes_sub].
  - assert (Hkid : forall y, y ∈ ts -> NoDup (nodes y)) by (intros y Hy; apply (NoDup_sub _ _ Hnd), subtrees_kid, Hy).
    split.
    + rewrite (path_kid h ts k d Hnd Hk Hdk). intros [->|Hx]%elem_of_cons; [done|].
      apply (IH k Hk (Hkid k Hk) Hdk) in Hx. exact (anc_sub _ k _ _ (subtrees_kid (Node h ts) k Hk) Hx).
    + intros (tx & Htx & <- & Hx). apply subtrees_node in Htx as [->|(k' & Hk' & Htx)]; [by left|].
      pose proof (nodes_sub _ _ _ Htx Hx) as Hdk'. rewrite (path_kid h ts k' d Hnd Hk' Hdk'). right.
      apply (IH k' Hk' (Hkid k' Hk') Hdk'). exists tx. done.
Qed.

Section iterators.
Context {T : Type} `{RS : ReachabilityStore T, RL : !ReachabilityStoreLaws T}.
Context (s : T) (t : rtree).
Hypothesis Hrep : represents_tree s NONE t.

Lemma iter_nodup tA : tA ∈ subtrees t -> NoDup (nodes tA).
Proof. intros HA. eapply NoDup_sub; [|exact HA]. eapply nested_NoDup; apply Hrep. Qed.

Lemma get_next_chain_ancestor_run tA K d :
  tA ∈ subtrees t -> K ∈ kids tA -> d ∈ nodes K -> get_next_chain_ancestor s d (label tA) = Ok (label K).
Proof.
  intros HA HK Hd. assert (Ha : anc t (label tA) d) by (exists tA; split_and!; [done..|by eapply nodes_kid]).
  assert (Hne : d <> label tA).
  { intros ->. pose proof (iter_nodup tA HA) as Hnd. destruct tA as [h ts]. cbn [nodes label kids] in *.
    apply NoDup_cons in Hnd as [Hh _]. apply Hh, elem_concat_map. eauto. }
  destruct (anc_nodes _ _ _ Ha) as [HAn Hdn]. unfold get_next_chain_ancestor. rewrite bool_decide_false by done.
  destruct (is_strict_chain_ancestor_of_run s NONE t Hrep (label tA) d HAn Hdn) as ([] & -> & Hr); cbn [mbind result_bind].
  - exact (get_next_chain_ancestor_unchecked_run s NONE t Hrep tA K d HA HK Hd).
  - exfalso. assert (false = true); [|done]. by apply Hr.
Qed.

Lemma forward_run fuel tA d inclusive :
  tA ∈ subtrees t -> d ∈ nodes tA -> (tsize tA < fuel)%nat ->
  yields (forward_next s) fuel (mk_iterator (Some (label tA)) d inclusive) =
    Ok (if inclusive then path tA d else removelast (path tA d)).
Proof.
  revert tA. induction fuel as [|fuel IH]; intros tA HA Hd Hf; [lia|]. cbn [yields]. unfold forward_next. cbn [it_current it_end it_inclusive].
  pose proof (tsize_pos tA). case_bool_decide as E.
  - subst d. cbn [mbind result_bind]. rewrite path_self. destruct inclusive; [|done]. destruct fuel as [|fuel]; [lia|done].
  - assert (exists K, K ∈ kids tA /\ d ∈ nodes K) as (K & HK & HdK).
    { destruct tA as [h ts]. apply nodes_node in Hd as [->|?]; done. }
    rewrite (get_next_chain_ancestor_run tA K d HA HK HdK). cbn [unwrap mbind result_bind].
    rewrite IH; [|exact (subtrees_kid_of _ _ _ HA HK)|done|pose proof (tsize_kid _ _ HK); lia]. cbn [mbind result_bind]. f_equal.
    destruct tA as [h ts]. cbn [label]. rewrite (path_kid h ts K d (iter_nodup _ HA) HK HdK). destruct inclusive; [done|].
    destruct K as [k us]. done.
Qed.

(** Up to the parent of [K], when the iteration does not end on the way. *)
Lemma backward_up K d e inclusive fuel :
  K ∈ subtrees t -> d ∈ nodes K -> e ∉ nodes K -> forall q, shape (view s) q K ->
  yields (backward_next s) (length (path K d) + fuel)%nat (mk_iterator (Some d) e inclusive) =
    (l ← yields (backward_next s) fuel (mk_iterator (Some q) e inclusive); Ok (rev (path K d) ++ l)).
Proof.
  revert fuel. induction K as [h ts IH] using rtree_ind'. intros fuel HK Hd He q Hs. rewrite Forall_forall in IH.
  destruct (shape_root _ _ _ Hs) as (dd & E & Hp & _). cbn [label] in E.
  assert (Hstep : forall f, yields (backward_next s) (S f) (mk_iterator (Some h) e inclusive) =
    (l ← yields (backward_next s) f (mk_iterator (Some q) e inclusive); Ok (h :: l))).
  { intros f. cbn [yields].
    assert (backward_next s (mk_iterator (Some h) e inclusive) = Ok (Some h, mk_iterator (Some q) e inclusive)) as ->; [|done].
    unfold backward_next. cbn [it_current it_end it_inclusive].
    rewrite bool_decide_false by (intros ->; apply He, (nodes_self (Node e ts))).
    rewrite (law_parent s h dd (rt_ok _ _ _ Hrep) E). cbn [unwrapped mbind result_bind]. by rewrite Hp. }
  apply nodes_node in Hd as [->|(k & Hk & Hd)].
  - rewrite (path_self (Node h ts) : path (Node h ts) h = [h]). cbn [length label Nat.add rev app]. apply Hstep.
  - rewrite (path_kid h ts k d (iter_nodup _ HK) Hk Hd). cbn [length rev].
    replace (S (length (path k d)) + fuel)%nat with (length (path k d) + S fuel)%nat by lia.
    rewrite (IH k Hk (S fuel) (subtrees_kid_of _ (Node h ts) _ HK Hk) Hd) with (q := h).
    + rewrite Hstep. destruct (yields _ fuel _); [|done]. cbn. by rewrite <-app_assoc.
    + intros Hek. apply He, nodes_node. right. eauto.
    + exact (shape_kids _ _ (Node h ts) k Hs Hk).
Qed.

Lemma backward_run fuel tA d inclusive :
  tA ∈ subtrees t -> d ∈ nodes tA -> (tsize tA < fuel)%nat ->
  yields (backward_next s) fuel (mk_iterator (Some d) (label tA) inclusive) =
    Ok (rev (if inclusive then path tA d else tail (path tA d))).
Proof.
  intros HA Hd Hf. assert (Hend : forall f, yields (backward_next s) (S (S f)) (mk_iterator (Some (label tA)) (label tA) inclusive) =
    Ok (if inclusive then [label tA] else [])).
  { intros f. cbn. rewrite bool_decide_true by done. by destruct inclusive. }
  pose proof (iter_nodup tA HA) as Hnd. pose proof (tsize_pos tA). destruct tA as [h ts]. cbn [label] in *.
  apply nodes_node in Hd as [->|(k & Hk & Hd)].
  - destruct fuel as [|[|fuel]]; [lia|lia|]. rewrite Hend, (path_self (Node h ts) : path (Node h ts) h = [h]). by destruct inclusive.
  - pose proof (path_length k d) as Hl. pose proof (tsize_kid (Node h ts) k Hk).
    replace fuel with (length (path k d) + S (S (fuel - length (path k d) - 2)))%nat by lia.
    destruct (shape_sub _ _ _ _ (rt_shape _ _ _ Hrep) HA) as [q Hs].
    rewrite (backward_up k d h inclusive _ (subtrees_kid_of _ (Node h ts) _ HA Hk) Hd) with (q := h).
    + rewrite Hend, (path_kid h ts k d Hnd Hk Hd). cbn [mbind result_bind rev tail]. f_equal.
      destruct inclusive; [done|by rewrite app_nil_r].
    + cbn [nodes] in Hnd. apply NoDup_cons in Hnd as [Hh _]. intros Hhk. apply Hh, elem_concat_map. eauto.
    + exact (shape_kids _ _ (Node h ts) k Hs Hk).
Qed.
End iterators.
