(* ===== verification/ReachHistory.v ===== *)
(** Histories of a block DAG: the blocks in the order of their insertion, each with
    its selected parent and its parents. The reachability store built from a
    history answers every query as the walk over the parents does. *)

From S2P Require Import Prelude Access Interval Reach ReachTree ReachQueries ReachCount ReachPropagate ReachSides ReachReclaim ReachInsert ReachDag.

Record insertion := mk_insertion {
  in_block : hash;
  in_selected_parent : hash;
  in_parents : list hash;
  in_mergeset : list hash;
}.

(** Histories hold the newest block first. *)
Fixpoint known (G : list insertion) : list hash :=
  match G with [] => [ORIGIN] | b :: G' => in_block b :: known G' end.

(** [x] is [y] or reached from it over the parents. *)
Fixpoint reaches (G : list insertion) (x y : hash) : bool :=
  match G with
  | [] => bool_decide (x = ORIGIN) && bool_decide (y = ORIGIN)
  | b :: G' =>
      if bool_decide (y = in_block b) then bool_decide (x = in_block b) || existsb (reaches G' x) (in_parents b)
      else reaches G' x y
  end.

(** The same over the selected parents. *)
Fixpoint on_chain (G : list insertion) (x y : hash) : bool :=
  match G with
  | [] => bool_decide (x = ORIGIN) && bool_decide (y = ORIGIN)
  | b :: G' =>
      if bool_decide (y = in_block b) then bool_decide (x = in_block b) || on_chain G' x (in_selected_parent b)
      else on_chain G' x y
  end.

(** A new block over the known ones; its mergeset is what its parents reach and
    its selected parent does not. *)
Record valid_insertion (G : list insertion) (b : insertion) : Prop := {
  vi_new : in_block b ∉ known G;
  vi_none : in_block b <> NONE;
  vi_parents : forall q, q ∈ in_parents b -> q ∈ known G;
  vi_selected : in_selected_parent b ∈ in_parents b;
  vi_nodup : NoDup (in_mergeset b);
  vi_mergeset : forall x, x ∈ in_mergeset b <->
    x ∈ known G /\ existsb (reaches G x) (in_parents b) = true /\ reaches G x (in_selected_parent b) = false;
}.

Fixpoint valid_history (G : list insertion) : Prop :=
  match G with [] => True | b :: G' => valid_insertion G' b /\ valid_history G' end.

Lemma reaches_known G x y : valid_history G -> reaches G x y = true -> x ∈ known G /\ y ∈ known G.
Proof.
  revert x y. induction G as [|b G IH]; intros x y; cbn [known reaches].
  - rewrite andb_true_iff, !bool_decide_eq_true. intros _ [-> ->]. set_solver.
  - intros [Hv HG]. case_bool_decide as Ey.
    + rewrite orb_true_iff, bool_decide_eq_true, existsb_exists. intros [->|(q & Hq & Hr)]; [set_solver|].
      apply (IH _ _ HG) in Hr. set_solver.
    + intros Hr%(IH _ _ HG). set_solver.
Qed.

Lemma for_each_app {S A} (f : A -> st S stop ()) l l' s : for_each f (l ++ l') s = (_ ← for_each f l; for_each f l') s.
Proof.
  revert s. induction l as [|x l IH]; intros s; [done|]. cbn [for_each app]. unfold mbind, st_bind in *.
  destruct (f x s) as [s1 [[]|e]]; [apply IH|done].
Qed.

Section build.
Context {T : Type} `{RS : ReachabilityStore T, RL : !ReachabilityStoreLaws T}.

Lemma represents_dag_ext s t D D' : (forall x y, D x y <-> D' x y) -> represents_dag s t D -> represents_dag s t D'.
Proof. intros HD [H1 H2 H3 H4 H5 H6 H7]. split; try done. intros x y. by rewrite <-HD. Qed.

(** [init], then the insertions from the oldest one. *)
Definition build (fuel : nat) (G : list insertion) : st T stop () :=
  _ ← init;
  for_each (fun b => add_block fuel (in_block b) (in_selected_parent b) (in_mergeset b)) (rev G).

Record built (s : T) (G : list insertion) (t : rtree) : Prop := {
  bt_dag : represents_dag s t (fun x y => reaches G x y = true);
  bt_known : forall x, x ∈ nodes t <-> x ∈ known G;
  bt_chain : forall x y, anc t x y <-> on_chain G x y = true;
  bt_root : root_of s = Some ORIGIN;
  bt_label : label t = ORIGIN;
  bt_ivl : ivl (view s) ORIGIN = Interval_maximal;
  bt_size : (tsize t <= S (length G))%nat;
  bt_fresh : forall x, x ∉ known G -> fresh s x;
}.

Lemma anc_single h x y : anc (Node h []) x y <-> x = h /\ y = h.
Proof.
  split.
  - intros (ta & Hta & <- & Hy). apply subtrees_node in Hta as [->|(? & ?%elem_of_nil & _)]; [|done].
    apply nodes_node in Hy as [->|(? & ?%elem_of_nil & _)]; done.
  - intros [-> ->]. apply anc_refl. cbn. set_solver.
Qed.

Lemma origin_ne_none : ORIGIN <> NONE.
Proof. done. Qed.

Lemma build_init s : store_ok s -> (forall h, fresh s h) -> exists s', init s = (s', Ok tt) /\ built s' [] (Node ORIGIN []).
Proof.
  intros Hok Hf. destruct (law_init s ORIGIN Interval_maximal Hok (Hf _)) as (s' & Hr & Hok' & Hv & Hroot & Hf').
  assert (Hv' : forall x, view s' !! x = if decide (x = ORIGIN) then Some (data_new NONE Interval_maximal 0) else None).
  { intros x. rewrite Hv. destruct (decide (x = ORIGIN)) as [->|Hne]; [apply lookup_insert_eq|].
    rewrite lookup_insert_ne by done. by apply law_fresh. }
  assert (Hi : ivl (view s') ORIGIN = Interval_maximal) by (unfold ivl; by rewrite Hv').
  exists s'. split.
  { unfold init, init_with_params. erewrite st_bind_run by (unfold query; by rewrite (law_absent s _ Hok (Hf _))).
    cbv beta iota. unfold update, map_err. by rewrite Hr. }
  assert (Hfcs : forall x, fcs (view s') x = []) by (intros x; unfold fcs; rewrite Hv'; by destruct (decide (x = ORIGIN))).
  split; try done.
  - split; [split; [done|..]|..].
    + apply shape_node. split; [|done]. exists (data_new NONE Interval_maximal 0). rewrite Hv', decide_True by done. done.
    + intros h [->|?%elem_of_nil]%elem_of_cons; [|done]. split; rewrite Hi; [by split|done|]. unfold chl. by rewrite Hv'.
    + cbn. intros [E|?%elem_of_nil]%elem_of_cons; [by apply origin_ne_none|done].
    + intros x. by rewrite Hfcs.
    + intros x. rewrite Hv'. destruct (decide (x = ORIGIN)) as [->|]; [set_solver|by intros []].
    + intros x. rewrite Hfcs. by intros ? ? ? ? ?.
    + intros x f. rewrite Hfcs. by intros ?%elem_of_nil.
    + intros x y. rewrite Hfcs, anc_single. cbn. rewrite andb_true_iff, !bool_decide_eq_true.
      split; [auto|]. intros [?|(f & ?%elem_of_nil & _)]; done.
  - cbn. intros x y. rewrite anc_single, andb_true_iff, !bool_decide_eq_true. done.
  - intros x Hx. apply Hf'; [set_solver|done].
Qed.

(** What the insertion of a block makes of the tree and of the relation. *)
Lemma grown_history s' G t b :
  valid_history G -> valid_insertion G b -> (forall x, x ∈ nodes t <-> x ∈ known G) -> (forall x y, anc t x y <-> on_chain G x y = true) ->
  represents_dag s' (graft (in_selected_parent b) (in_block b) t)
    (extended (fun x y => reaches G x y = true) (in_block b) (fun x => reaches G x (in_selected_parent b) = true \/ x ∈ in_mergeset b)) ->
  represents_dag s' (graft (in_selected_parent b) (in_block b) t) (fun x y => reaches (b :: G) x y = true) /\
  (forall x, x ∈ nodes (graft (in_selected_parent b) (in_block b) t) <-> x ∈ known (b :: G)) /\
  (forall x y, anc (graft (in_selected_parent b) (in_block b) t) x y <-> on_chain (b :: G) x y = true).
Proof.
  intros HG [Hnew Hnone Hps Hsel Hnd HM] Hk Hc Hg'. assert (Hq : in_selected_parent b ∈ known G) by auto.
  assert (Hbn : in_block b ∉ nodes t) by (by rewrite Hk). assert (Hqn : in_selected_parent b ∈ nodes t) by (by rewrite Hk).
  split_and!.
  - eapply represents_dag_ext; [|exact Hg']. intros x y. unfold extended. cbn [reaches]. case_bool_decide as Ey.
    + subst y. rewrite orb_true_iff, bool_decide_eq_true. split.
      * intros [Hr'|[_ [?|[Hr'|Hx%HM]]]]; [by apply (reaches_known _ _ _ HG) in Hr' as [_ ?]|auto|right|right; apply Hx].
        apply existsb_exists. exists (in_selected_parent b). split; [by apply list_elem_of_In|done].
      * intros [->|Hr']; [auto|]. right. split; [done|]. right. destruct (reaches G x (in_selected_parent b)) eqn:E; [auto|].
        right. apply HM. split_and!; [|done..]. apply existsb_exists in Hr' as (q & _ & Hr'). exact (proj1 (reaches_known _ _ _ HG Hr')).
    + split; [|auto]. intros [?|[? _]]; done.
  - intros x. rewrite nodes_graft, Hk. cbn [known]. rewrite elem_of_cons. tauto.
  - intros x y. rewrite (anc_graft _ _ t x y Hbn Hqn), !Hc. cbn [on_chain]. case_bool_decide as Ey.
    + subst y. rewrite orb_true_iff, bool_decide_eq_true. split; [|tauto]. intros [Ha|[_ ?]]; [|done].
      exfalso. apply Hbn. apply Hc in Ha. apply (anc_nodes _ _ _ Ha).
    + tauto.
Qed.

Lemma graft_size s t D q n (G : list insertion) : represents_dag s t D -> (tsize t <= S (length G))%nat -> (tsize (graft q n t) <= S (S (length G)))%nat.
Proof.
  intros Hg Hsz. pose proof (tsize_graft q n t (nested_NoDup _ _ _ (rt_shape _ _ _ (rg_tree _ _ _ Hg)) (rt_nested _ _ _ (rg_tree _ _ _ Hg)))) as Hts.
  case_bool_decide; lia.
Qed.

(** The capacity of the tree holds [2 ^ 49] blocks with the default slack. *)
Lemma build_step fuel s G t b :
  built s G t -> valid_history G -> valid_insertion G b -> Z.of_nat (length G) < 2 ^ 49 -> (length G + 2 <= fuel)%nat ->
  exists s' t', add_block fuel (in_block b) (in_selected_parent b) (in_mergeset b) s = (s', Ok tt) /\ built s' (b :: G) t'.
Proof.
  intros Hb HG Hv Hlen Hfuel. destruct Hb as [Hg Hk Hc Hroot Hlab Hi Hsz Hf]. pose proof Hv as [Hnew Hnone Hps Hsel Hnd HM].
  destruct (add_block_run fuel s t _ (in_block b) (in_selected_parent b) (in_mergeset b) ORIGIN None None Hg)
    as (s' & Hr & Hg' & Hroot' & Hf' & Hi' & _); try done.
  - by apply Hk, Hps.
  - by apply Hf.
  - intros m (Hm & _ & Hno)%HM. split; [by apply Hk|]. by rewrite Hno.
  - rewrite <-Hlab. apply nodes_self.
  - unfold reindex_capacity. rewrite Hi. cbn [default]. unfold DEFAULT_REINDEX_SLACK, width, Interval_maximal, U64_MAX. cbn. lia.
  - lia.
  - destruct (grown_history s' G t b HG Hv Hk Hc Hg') as (H1 & H2 & H3).
    exists s', (graft (in_selected_parent b) (in_block b) t). split; [exact Hr|]. split; try done.
    + by rewrite label_graft.
    + rewrite Hi' by done. done.
    + by eapply graft_size.
    + cbn [known]. intros x [Hx1 Hx2]%not_elem_of_cons. by apply Hf', Hf.
Qed.

Lemma build_run fuel G s :
  store_ok s -> (forall h, fresh s h) -> valid_history G -> Z.of_nat (length G) <= 2 ^ 49 -> (length G + 1 <= fuel)%nat ->
  exists s' t, build fuel G s = (s', Ok tt) /\ built s' G t.
Proof.
  intros Hok Hf. induction G as [|b G IH]; intros HG Hlen Hfuel.
  - destruct (build_init s Hok Hf) as (s' & Hr & Hb). exists s', (Node ORIGIN []). split; [|done].
    unfold build. by erewrite st_bind_run by exact Hr.
  - destruct HG as [Hv HG]. cbn [length] in *. destruct (IH HG ltac:(lia) ltac:(lia)) as (s1 & t1 & Hr1 & Hb1).
    destruct (build_step fuel s1 G t1 b Hb1 HG Hv ltac:(lia) ltac:(lia)) as (s2 & t2 & Hr2 & Hb2).
    exists s2, t2. split; [|done]. unfold build in *. cbn [rev]. destruct (build_init s Hok Hf) as (s0 & Hr0 & _).
    erewrite st_bind_run in Hr1 |- * by exact Hr0. rewrite for_each_app. erewrite st_bind_run by exact Hr1.
    cbn [for_each]. by erewrite st_bind_run by exact Hr2.
Qed.
End build.
