(* ===== verification/ReachRoot.v ===== *)
(** Moving the reindex root ([hint_virtual_selected_parent]): the new root is on
    the chain of the hint, the intervals stay nested, and all queries keep their
    answers. *)

From S2P Require Import Prelude Access Interval Reach ReachTree ReachQueries ReachCount ReachPropagate ReachSides ReachReclaim ReachInsert ReachConcentrate ReachDag.

(** The stored heights grow from every block to its children. *)
Definition heights_ok (m : blocks) (t : rtree) : Prop :=
  forall ta k, ta ∈ subtrees t -> k ∈ kids ta -> hgt m (label ta) < hgt m (label k).

Lemma heights_anc m t a b : heights_ok m t -> anc t a b -> hgt m a <= hgt m b /\ (a <> b -> hgt m a < hgt m b).
Proof.
  intros Hh (ta & Hta & <- & Hb). revert Hta Hb. induction ta as [l us IH] using rtree_ind'. intros Hta Hb.
  rewrite Forall_forall in IH. apply nodes_node in Hb as [->|(k & Hk & Hb)]; [split; [done|by intros ?]|].
  pose proof (Hh (Node l us) k Hta Hk) as Hlt. cbn [label] in *.
  destruct (IH k Hk (subtrees_kid_of _ (Node l us) _ Hta Hk) Hb) as [Hle _]. split; [lia|intros; lia].
Qed.

Lemma same_blocks_hgt m m' h : same_blocks m m' -> hgt m' h = hgt m h.
Proof. intros Hs. specialize (Hs h). unfold hgt. destruct (m !! h), (m' !! h); simplify_eq/=; congruence. Qed.

Section root.
Context {T : Type} `{RS : ReachabilityStore T, RL : !ReachabilityStoreLaws T}.
Context (s : T) (t : rtree).
Hypothesis Hrep : represents_tree s NONE t.
Hypothesis Hh : heights_ok (view s) t.

Lemma root_nodup : NoDup (nodes t).
Proof. eapply nested_NoDup; apply Hrep. Qed.

Lemma get_height_run h : h ∈ nodes t -> rs_get_height s h = Ok (hgt (view s) h).
Proof.
  intros Hn. destruct (node_stored s NONE t Hrep h Hn) as [d E]. unfold hgt. rewrite E. by apply law_height; [apply Hrep|].
Qed.

Lemma find_common_tree_ancestor_run fuel tx R :
  tx ∈ subtrees t -> R ∈ nodes t -> (tsize t - tsize tx < fuel)%nat ->
  exists c, find_common_tree_ancestor fuel s (label tx) R = Ok c /\ anc t c (label tx) /\ anc t c R.
Proof.
  revert tx. induction fuel as [|fuel IH]; intros tx Hx HR Hf; [lia|]. cbn [find_common_tree_ancestor].
  assert (Hxn : label tx ∈ nodes t) by (apply nodes_subtree; eauto).
  destruct (is_chain_ancestor_of_run s NONE t Hrep (label tx) R Hxn HR) as ([] & -> & Hr); cbn [mbind result_bind].
  { exists (label tx). split_and!; [done|by apply anc_refl|by apply Hr]. }
  destruct (subtree_parent t tx Hx) as [->|(y & Hy & Hk)].
  { exfalso. assert (anc t (label t) R) as Ha by (exists t; split_and!; [apply subtrees_self|done..]). by apply Hr in Ha. }
  destruct (shape_parent _ _ _ _ _ (rt_shape _ _ _ Hrep) Hy Hk) as (d & E & Hp).
  rewrite (law_parent s _ d (rt_ok _ _ _ Hrep) E). cbn [stored mbind result_bind]. rewrite Hp.
  pose proof (tsize_kid _ _ Hk). pose proof (tsize_sub _ _ Hy).
  destruct (IH y Hy HR ltac:(lia)) as (c & -> & (tc & Htc & <- & Hcy) & HcR). exists (label tc). split_and!; [done| |done].
  exists tc. split_and!; [done..|]. apply nodes_subtree in Hcy as (y' & Hy' & Ey).
  rewrite (label_inj _ _ _ root_nodup (subtrees_trans _ _ _ Hy' Htc) Hy Ey) in Hy'. apply nodes_subtree. exists tx.
  split; [exact (subtrees_kid_of _ _ _ Hy' Hk)|done].
Qed.

Lemma next_root_loop_run fuel depth tN hint :
  0 < depth -> tN ∈ subtrees t -> hint ∈ nodes tN -> hint <> label tN -> (tsize tN <= fuel)%nat ->
  exists tN', next_root_loop fuel s hint (hgt (view s) hint) depth (label tN) = Ok (label tN') /\
    tN' ∈ subtrees tN /\ hint ∈ nodes tN'.
Proof.
  intros Hd. revert tN. induction fuel as [|fuel IH]; intros tN HN Hhint Hne Hf; [pose proof (tsize_pos tN); lia|].
  assert (exists K, K ∈ kids tN /\ hint ∈ nodes K) as (K & HK & HhK).
  { destruct tN as [l us]. apply nodes_node in Hhint as [->|?]; done. }
  assert (HKt : K ∈ subtrees t) by exact (subtrees_kid_of _ _ _ HN HK). cbn [next_root_loop].
  assert (Ha : anc t (label K) hint) by (exists K; done).
  rewrite (get_next_chain_ancestor_unchecked_run s NONE t Hrep tN K hint HN HK HhK). cbn [mbind result_bind].
  rewrite get_height_run by (apply nodes_subtree; eauto). cbn [stored mbind result_bind].
  destruct (heights_anc _ _ _ _ Hh Ha) as [Hle Hlt].
  rewrite (proj2 (Z.ltb_ge _ _)) by lia. destruct (Z.ltb_spec (hgt (view s) hint - hgt (view s) (label K)) depth) as [Hb|Hb].
  - exists tN. split_and!; [done|apply subtrees_self|done].
  - destruct (IH K HKt HhK) as (tN' & -> & HN' & Hh').
    + intros E. rewrite E in Hb. lia.
    + pose proof (tsize_kid _ _ HK). lia.
    + exists tN'. split_and!; [done| |done]. exact (subtrees_trans _ _ _ HN' (subtrees_kid _ _ HK)).
Qed.

(** The move starts at a common ancestor of the root and the hint and ends on
    the chain of the hint, or there is none. *)
Lemma find_next_reindex_root_run fuel R hint depth slack :
  0 < depth -> R ∈ nodes t -> hint ∈ nodes t -> hint <> R -> (tsize t < fuel)%nat ->
  exists a n, find_next_reindex_root fuel s R hint depth slack = Ok (a, n) /\
    ((a = R /\ n = R /\ ~ anc t R hint) \/
     exists tA tN, a = label tA /\ n = label tN /\ tA ∈ subtrees t /\ tN ∈ subtrees tA /\ hint ∈ nodes tN /\ anc t (label tA) R).
Proof.
  intros Hd HR Hhint Hne Hf. unfold find_next_reindex_root. rewrite (get_height_run hint Hhint). cbn [stored mbind result_bind].
  assert (Hgo : forall tA, tA ∈ subtrees t -> hint ∈ nodes tA -> hint <> label tA -> anc t (label tA) R ->
    exists tN, (next ← next_root_loop fuel s hint (hgt (view s) hint) depth (label tA); Ok (label tA, next)) =
      Ok (label tA, label tN) /\ tN ∈ subtrees tA /\ hint ∈ nodes tN).
  { intros tA HA HhA HneA HaR. pose proof (tsize_sub _ _ HA).
    destruct (next_root_loop_run fuel depth tA hint Hd HA HhA HneA ltac:(lia)) as (tN & -> & HN & HhN). by exists tN. }
  destruct (is_chain_ancestor_of_run s NONE t Hrep R hint HR Hhint) as ([] & -> & Hr); cbn [mbind result_bind].
  { destruct (proj1 Hr eq_refl) as (tA & HA & <- & HhA).
    destruct (Hgo tA HA HhA Hne) as (tN & -> & HN & HhN); [by apply anc_refl|].
    do 2 eexists. split; [done|]. right. exists tA, tN. split_and!; try done. by apply anc_refl. }
  rewrite (get_height_run R HR). cbn [stored mbind result_bind].
  destruct (_ || _) eqn:Eg; cbn [mbind result_bind].
  { do 2 eexists. split; [done|]. left. split_and!; [done..|by intros ?%Hr]. }
  apply orb_false_iff in Eg as [Eg _]. apply Z.ltb_ge in Eg.
  apply nodes_subtree in Hhint as (th & Hth & <-). pose proof (tsize_pos th).
  destruct (find_common_tree_ancestor_run fuel th R Hth HR ltac:(lia)) as (c & -> & (tA & HA & <- & HhA) & HcR).
  cbn [fmap result_fmap mbind result_bind].
  destruct (Hgo tA HA HhA) as (tN & -> & HN & HhN); [|done|].
  - intros E. destruct (heights_anc _ _ _ _ Hh HcR) as [_ Hlt]. rewrite <-E in Hlt. specialize (Hlt Hne). lia.
  - do 2 eexists. split; [done|]. right. exists tA, tN. by split_and!.
Qed.
End root.

(** A change of intervals keeps the DAG. *)
Lemma same_blocks_fcs m m' h : same_blocks m m' -> fcs m' h = fcs m h.
Proof. intros Hs. specialize (Hs h). unfold fcs. destruct (m !! h), (m' !! h); simplify_eq/=; congruence. Qed.

Section advance.
Context {T : Type} `{RS : ReachabilityStore T, RL : !ReachabilityStoreLaws T}.

Lemma reindexed_dag s s' t D : represents_dag s t D -> reindexed s s' -> nested (view s') t -> represents_dag s' t D.
Proof.
  intros [[Hok Hs Hn] H1 H2 H3 H4 H5 H6] Hri Hn'. pose proof (ri_same _ _ Hri) as Hsb.
  assert (Hf : forall x, fcs (view s') x = fcs (view s) x) by (intros x; by apply same_blocks_fcs).
  split; [split; [apply Hri|by eapply reindexed_shape|done]|done|..]; try (intros x; rewrite Hf; auto).
  - intros x Hx. apply H3. by apply (same_blocks_is_Some _ _ _ Hsb).
Qed.

Lemma try_advancing_reindex_root_run fuel s t D R hint depth slack X :
  represents_dag s t D -> heights_ok (view s) t -> root_of s = Some R -> R ∈ nodes t -> hint ∈ nodes t -> hint <> R ->
  0 < depth -> 0 <= slack -> 0 <= X -> (tsize t < fuel)%nat ->
  (forall x, x ∈ subtrees t -> anc t (label x) R -> anc t (label x) hint -> move_capacity slack s x X) ->
  exists s' R', try_advancing_reindex_root fuel hint depth slack s = (s', Ok tt) /\
    represents_dag s' t D /\ heights_ok (view s') t /\ root_of s' = Some R' /\ (forall x, fresh s x -> fresh s' x) /\
    (R' = R \/ anc t R' hint) /\ (anc t R hint -> exists x, x ∈ subtrees t /\ label x = R' /\ move_capacity slack s' x X) /\
    (forall x, hgt (view s') x = hgt (view s) x) /\
    ((R' = R /\ view s' = view s) \/ exists x, x ∈ subtrees t /\ label x = R' /\ move_capacity slack s' x X).
Proof.
  intros Hg Hh Hroot HR Hhint Hne Hd Hsl HX Hf Hcap. pose proof (rg_tree _ _ _ Hg) as Hrep.
  unfold try_advancing_reindex_root. erewrite st_bind_run by (unfold query; by rewrite (law_root s R (rt_ok _ _ _ Hrep) Hroot)).
  destruct (find_next_reindex_root_run s t Hrep Hh fuel R hint depth slack Hd HR Hhint Hne Hf) as (a & n & Hr & Hcase).
  erewrite st_bind_run by (unfold query; by rewrite Hr). cbv beta iota. case_bool_decide as E.
  { exists s, R. split_and!; try done; [by left| |by left]. intros HaR. destruct HaR as (tR & HtR & <- & HhR). exists tR. split_and!; try done.
    apply Hcap; [done|by apply anc_refl|by exists tR]. }
  destruct Hcase as [(_ & -> & _)|(tA & tN & -> & -> & HA & HN & HhN & HaR)]; [done|].
  assert (HaA : anc t (label tA) hint) by (exists tA; split_and!; [done..|by eapply nodes_sub]).
  pose proof (rt_shape _ _ _ Hrep) as Hs. pose proof (rt_nested _ _ _ Hrep) as Hn. pose proof (nested_NoDup _ _ _ Hs Hn) as Hnd.
  assert (Hbound : Z.of_nat (tsize t) < 2 ^ 64).
  { pose proof (nested_capacity _ _ _ Hs Hn). destruct (Hn _ (nodes_self t)) as [[Hl Hu _] _ _]. unfold width, U64_MAX in *. lia. }
  pose proof (tsize_sub _ _ HA).
  destruct (concentrate_loop_run NONE t slack fuel Hbound Hnd ltac:(lia) Hsl X fuel tA tN s HX (rt_ok _ _ _ Hrep) Hs HA HN)
    as (s1 & Hr1 & Hri & Hn1 & Hcap1); [|intros _; apply Hn, nodes_subtree; eauto|by apply Hcap|lia|].
  { apply (walking_nested NONE); [done..|intros; by apply Hn|by eapply nested_sub]. }
  erewrite st_bind_run by exact Hr1.
  destruct (law_set_root s1 (label tN) (ri_ok _ _ Hri)) as (s2 & Hr2 & Hok2 & Hv2 & Hroot2 & Hf2).
  exists s2, (label tN). split_and!; [unfold update, map_err; by rewrite Hr2|..].
  - pose proof (reindexed_dag s s1 t D Hg Hri Hn1) as [[_ H1 H2] H3 H4 H5 H6 H7 H8].
    split; [split; [done|..]|..]; rewrite ?Hv2; done.
  - intros ta k Hta Hk. rewrite Hv2, !(same_blocks_hgt _ _ _ (ri_same _ _ Hri)). by apply Hh.
  - done.
  - intros x Hx. by apply Hf2, Hri.
  - right. exists tN. split_and!; [exact (subtrees_trans _ _ _ HN HA)|done..].
  - intros _. exists tN. split_and!; [exact (subtrees_trans _ _ _ HN HA)|done|]. unfold move_capacity. by rewrite Hv2.
  - intros x. by rewrite Hv2, (same_blocks_hgt _ _ _ (ri_same _ _ Hri)).
  - right. exists tN. split_and!; [exact (subtrees_trans _ _ _ HN HA)|done|]. unfold move_capacity. by rewrite Hv2.
Qed.
End advance.
