(* ===== verification/ReachLedger.v ===== *)
(** A reachability store through a sequence of insertions and moves of the reindex root,
    as the header processor makes them: both always succeed while the loss of width at
    the root, which each insertion and each move bounds by the number of blocks, leaves
    room for the next. *)

From S2P Require Import Prelude Access Interval Reach ReachTree ReachQueries ReachCount ReachPropagate ReachSides ReachReclaim ReachInsert ReachConcentrate ReachDag ReachHistory ReachRoot.

(** Every block is one higher than its tree parent, from the origin at 0. *)
Definition heights_exact (m : blocks) (t : rtree) : Prop :=
  hgt m (label t) = 0 /\ forall ta k, ta ∈ subtrees t -> k ∈ kids ta -> hgt m (label k) = hgt m (label ta) + 1.

Lemma heights_exact_ok m t : heights_exact m t -> heights_ok m t.
Proof. intros [_ H] ta k Hta Hk. rewrite (H ta k Hta Hk). lia. Qed.

Lemma heights_bound m t x : heights_exact m t -> x ∈ subtrees t -> 0 <= hgt m (label x) /\ hgt m (label x) + Z.of_nat (tsize x) <= Z.of_nat (tsize t).
Proof.
  intros [H0 H] Hx. remember (tsize t - tsize x)%nat as k eqn:Ek. revert x Hx Ek. induction k as [k IH] using lt_wf_ind. intros x Hx Ek.
  destruct (subtree_parent _ _ Hx) as [->|(y & Hy & Hk)]; [lia|].
  pose proof (tsize_kid _ _ Hk). pose proof (tsize_sub _ _ Hy). destruct (IH (tsize t - tsize y)%nat ltac:(lia) y Hy eq_refl) as [IH1 IH2].
  rewrite (H y x Hy Hk). lia.
Qed.

(** The subtrees of a grafted tree. *)
Lemma graft_kids q n t ta k : ta ∈ subtrees (graft q n t) -> k ∈ kids ta ->
  (exists t1, t1 ∈ subtrees t /\ label t1 = label ta /\ exists k1, k1 ∈ kids t1 /\ label k = label k1) \/
  (label ta = q /\ label k = n).
Proof.
  intros Hta Hk. destruct (graft_sub_inv _ _ _ _ Hta) as [->|([h ts] & Ht1 & ->)]; [by apply elem_of_nil in Hk|].
  cbn [graft kids label] in *. apply elem_of_app in Hk as [Hk|Hk].
  - apply list_elem_of_fmap in Hk as (k1 & -> & Hk1). left. exists (Node h ts). split_and!; [done..|]. exists k1. by rewrite label_graft.
  - case_bool_decide as E; [|by apply elem_of_nil in Hk]. apply list_elem_of_singleton in Hk as ->. by right.
Qed.

Section ledger.
Context {T : Type} `{RS : ReachabilityStore T, RL : !ReachabilityStoreLaws T}.

(** The store holds the history, with its reindex root at [R] and at most [W] of the
    width lost there. *)
Record tracked (s : T) (G : list insertion) (t : rtree) (R : hash) (W : Z) : Prop := {
  tk_dag : represents_dag s t (fun x y => reaches G x y = true);
  tk_known : forall x, x ∈ nodes t <-> x ∈ known G;
  tk_chain : forall x y, anc t x y <-> on_chain G x y = true;
  tk_root : root_of s = Some R;
  tk_in : R ∈ nodes t;
  tk_label : label t = ORIGIN;
  tk_size : (tsize t <= S (length G))%nat;
  tk_fresh : forall x, x ∉ known G -> fresh s x;
  tk_heights : heights_exact (view s) t;
  tk_width : 2 ^ 64 - 2 <= width (ivl (view s) R) + W;
}.

Lemma tracked_weaken s G t R W W' : W <= W' -> tracked s G t R W -> tracked s G t R W'.
Proof. intros HW []. split; try done. lia. Qed.

Lemma tracked_init s : store_ok s -> (forall h, fresh s h) -> exists s', init s = (s', Ok tt) /\ tracked s' [] (Node ORIGIN []) ORIGIN 0.
Proof.
  intros Hok Hf. destruct (build_init s Hok Hf) as (s' & Hr & Hb). exists s'. split; [done|]. destruct Hb as [B1 B2 B3 B4 B5 Hi B7 B8].
  assert (Hh : hgt (view s') ORIGIN = 0).
  { destruct (law_init s ORIGIN Interval_maximal Hok (Hf _)) as (s2 & Hr2 & _ & Hv & _ & _). unfold init, init_with_params in Hr.
    erewrite st_bind_run in Hr by (unfold query; by rewrite (law_absent s _ Hok (Hf _))). cbv beta iota in Hr.
    unfold update, map_err in Hr. rewrite Hr2 in Hr. injection Hr as ->. unfold hgt. by rewrite Hv, lookup_insert_eq. }
  split; try done.
  - cbn. set_solver.
  - split; [done|]. intros ta k Hta Hk. apply subtrees_node in Hta as [->|(? & ?%elem_of_nil & _)]; [|done]. by apply elem_of_nil in Hk.
  - rewrite Hi. unfold width, Interval_maximal, U64_MAX. cbn. lia.
Qed.

Definition insertion_loss (G : list insertion) : Z := (DEFAULT_REINDEX_SLACK + 2) * (Z.of_nat (length G) + 2).

Lemma tracked_add fuel s G t R W b :
  tracked s G t R W -> valid_history G -> valid_insertion G b -> W + insertion_loss G <= 2 ^ 64 - 2 -> (length G + 2 <= fuel)%nat ->
  exists s' t', add_block fuel (in_block b) (in_selected_parent b) (in_mergeset b) s = (s', Ok tt) /\
    tracked s' (b :: G) t' R (W + insertion_loss G).
Proof.
  unfold insertion_loss, DEFAULT_REINDEX_SLACK. intros [Hg Hk Hc Hroot Hin Hlab Hsz Hf Hh Hw] HG Hv HW Hfuel. pose proof Hv as [Hnew Hnone Hps Hsel Hnd HM].
  assert (Hbn : in_block b ∉ nodes t) by (by rewrite Hk). assert (Hqn : in_selected_parent b ∈ nodes t) by (by apply Hk, Hps).
  destruct (add_block_run fuel s t _ (in_block b) (in_selected_parent b) (in_mergeset b) R None None Hg)
    as (s' & Hr & Hg' & Hroot' & Hf' & _ & Hloss & Hh1 & Hh2); try done.
  - by apply Hf.
  - intros m (Hm & _ & Hno)%HM. split; [by apply Hk|]. by rewrite Hno.
  - unfold reindex_capacity. cbn [default]. unfold DEFAULT_REINDEX_SLACK. lia.
  - lia.
  - destruct (grown_history s' G t b HG Hv Hk Hc Hg') as (H1 & H2 & H3). cbn [default] in Hloss. unfold DEFAULT_REINDEX_SLACK in Hloss.
    exists s', (graft (in_selected_parent b) (in_block b) t). split; [exact Hr|]. split; try done.
    + apply nodes_graft. by left.
    + by rewrite label_graft.
    + by eapply graft_size.
    + cbn [known]. intros x [Hx1 Hx2]%not_elem_of_cons. by apply Hf', Hf.
    + assert (Hold : forall x, x ∈ nodes t -> hgt (view s') x = hgt (view s) x) by (intros x Hx; apply Hh1; by intros ->).
      split; [rewrite label_graft, Hold by apply nodes_self; apply Hh|].
      intros ta k Hta Hkk. destruct (graft_kids _ _ _ _ _ Hta Hkk) as [(t1 & Ht1 & El & k1 & Hk1 & ->)|[-> ->]].
      * rewrite <-El, !Hold; [by apply Hh| |]; apply nodes_subtree; eauto using subtrees_kid_of.
      * rewrite Hh2, Hold by done. apply nodes_subtree in Hqn as (q & Hq & <-). destruct (heights_bound _ _ _ Hh Hq). pose proof (tsize_pos q).
        apply wadd64_small. split; [lia|].
        pose proof (nested_capacity _ _ _ (rt_shape _ _ _ (rg_tree _ _ _ Hg)) (rt_nested _ _ _ (rg_tree _ _ _ Hg))).
        destruct (rt_nested _ _ _ (rg_tree _ _ _ Hg) _ (nodes_self t)) as [[Hl Hu _] _ _]. unfold width, U64_MAX in *. lia.
    + lia.
Qed.

Definition move_loss (G : list insertion) : Z := (4 * DEFAULT_REINDEX_SLACK + 2) * (Z.of_nat (length G) + 1).

(** Ancestors are wider. *)
Lemma anc_width s p t a b : represents_tree s p t -> anc t a b -> width (ivl (view s) b) <= width (ivl (view s) a).
Proof.
  intros [_ Hs Hn] Ha. destruct (anc_nodes _ _ _ Ha) as [Hna Hnb]. apply (contains_anc _ _ _ _ _ Hs Hn Hna Hnb) in Ha.
  unfold contains in Ha. apply andb_true_iff in Ha. unfold width. lia.
Qed.

Lemma tracked_hint fuel s G t R W hint :
  tracked s G t R W -> hint ∈ known G -> hint <> R -> W + move_loss G <= 2 ^ 64 - 2 -> (length G + 1 < fuel)%nat ->
  exists s' R', hint_virtual_selected_parent fuel hint s = (s', Ok tt) /\ tracked s' G t R' (W + move_loss G).
Proof.
  unfold move_loss, DEFAULT_REINDEX_SLACK. intros [Hg Hk Hc Hroot Hin Hlab Hsz Hf Hh Hw] Hhint Hne HW Hfuel.
  set (X := width (ivl (view s) R) - (4 * 2 ^ 14 + 2) * (Z.of_nat (length G) + 1)).
  destruct (try_advancing_reindex_root_run fuel s t _ R hint DEFAULT_REINDEX_DEPTH DEFAULT_REINDEX_SLACK X Hg (heights_exact_ok _ _ Hh) Hroot Hin)
    as (s' & R' & Hr & Hg' & _ & Hroot' & Hf' & HR' & _ & Hhs & Hcase); try done.
  - by apply Hk.
  - unfold X. lia.
  - lia.
  - intros x Hx Ha _. unfold move_capacity, X, DEFAULT_REINDEX_SLACK. pose proof (anc_width s NONE t _ _ (rg_tree _ _ _ Hg) Ha).
    pose proof (tsize_sub _ _ Hx). lia.
  - exists s', R'. split; [exact Hr|]. split; try done.
    + destruct HR' as [->|Ha]; [done|]. exact (proj1 (anc_nodes _ _ _ Ha)).
    + intros x Hx. by apply Hf', Hf.
    + split; [rewrite Hhs; apply Hh|]. intros ta k Hta Hkk. rewrite !Hhs. by apply Hh.
    + destruct Hcase as [[-> ->]|(x & Hx & <- & Hcap)]; [lia|]. unfold move_capacity, X, DEFAULT_REINDEX_SLACK in Hcap. lia.
Qed.

(** What the queries answer. *)
Lemma tracked_ancestor s G t R W x y : tracked s G t R W -> x ∈ known G -> y ∈ known G -> is_dag_ancestor_of s x y = Ok (reaches G x y).
Proof.
  intros Htk Hx%(tk_known _ _ _ _ _ Htk) Hy%(tk_known _ _ _ _ _ Htk). destruct (is_dag_ancestor_of_run s t _ x y (tk_dag _ _ _ _ _ Htk) Hx Hy) as (r & -> & Hr).
  f_equal. destruct r, (reaches G x y); naive_solver.
Qed.

Lemma tracked_chain_ancestor s G t R W x y : tracked s G t R W -> x ∈ known G -> y ∈ known G -> is_chain_ancestor_of s x y = Ok (on_chain G x y).
Proof.
  intros Htk Hx%(tk_known _ _ _ _ _ Htk) Hy%(tk_known _ _ _ _ _ Htk).
  destruct (is_chain_ancestor_of_run s NONE t (rg_tree _ _ _ (tk_dag _ _ _ _ _ Htk)) x y Hx Hy) as (r & -> & Hr).
  rewrite (tk_chain _ _ _ _ _ Htk) in Hr. f_equal. destruct r, (on_chain G x y); naive_solver.
Qed.
End ledger.
