(* ===== verification/ReachCommit.v ===== *)
(** Committing a staging store: the database store then shows what the staging
    store showed, also when it is read back with empty caches, where every set
    is rebuilt from its unordered bucket by sorting it by interval. *)

From stdpp Require Import sorting.
From S2P Require Import Prelude Access Interval Reach ReachTree ReachStores ReachQueries ReachLaws ReachCount ReachPropagate ReachSides ReachReclaim ReachInsert ReachDag.

(** * Loops over entries and keys *)

Section loops.
Context {V S X : Type} (get : S -> hash -> X).

Lemma foldl_entries_get (f : hash -> V -> S -> S) (g : hash -> V -> X -> X) l s h :
  (forall k v s h, get (f k v s) h = if decide (h = k) then g k v (get s h) else get s h) -> NoDup (l.*1) ->
  get (foldl (fun s '(k, v) => f k v s) s l) h =
  match (list_to_map l : gmap hash V) !! h with Some v => g h v (get s h) | None => get s h end.
Proof.
  intros Hf. revert s. induction l as [|[k v] l IH]; intros s Hnd; simpl; [by rewrite lookup_empty|].
  simpl in Hnd. apply NoDup_cons in Hnd as [Hk Hnd]. rewrite IH by done. destruct (decide (h = k)) as [->|Hne].
  - rewrite lookup_insert_eq. apply not_elem_of_list_to_map in Hk as ->. rewrite Hf. by destruct (decide (k = k)).
  - rewrite lookup_insert_ne, Hf by done. by destruct (decide (h = k)).
Qed.

Lemma for_each_entry_get (f : hash -> V -> S -> S) (g : hash -> V -> X -> X) (m : gmap hash V) s h :
  (forall k v s h, get (f k v s) h = if decide (h = k) then g k v (get s h) else get s h) ->
  get (for_each_entry f m s) h = match m !! h with Some v => g h v (get s h) | None => get s h end.
Proof.
  intros Hf. unfold for_each_entry. rewrite (foldl_entries_get f g) by (done || apply NoDup_fst_map_to_list).
  by rewrite list_to_map_to_list.
Qed.

Lemma foldl_keys_get (f : hash -> S -> S) (c : X) l s h :
  (forall k s h, get (f k s) h = if decide (h = k) then c else get s h) ->
  get (foldl (fun s k => f k s) s l) h = if decide (h ∈ l) then c else get s h.
Proof.
  intros Hf. revert s. induction l as [|k l IH]; intros s; simpl; [done|]. rewrite IH, Hf.
  repeat case_decide; set_solver.
Qed.
End loops.

(** * Sets *)

Lemma bucket_write h e a x : bucket (set_write h e a) x = if decide (x = h) then {[e]} ∪ bucket a h else bucket a x.
Proof.
  unfold bucket at 1, set_write. cbn. destruct (decide (x = h)) as [->|]; [by rewrite lookup_insert_eq|by rewrite lookup_insert_ne].
Qed.

Lemma bucket_remove h e a x : bucket (set_remove h e a) x = if decide (x = h) then bucket a h ∖ {[e]} else bucket a x.
Proof.
  unfold bucket at 1, set_remove. cbn. destruct (decide (x = h)) as [->|]; [by rewrite lookup_insert_eq|by rewrite lookup_insert_ne].
Qed.

Lemma bucket_writes h l a x :
  bucket (foldl (fun a added => set_write h added a) a l) x = if decide (x = h) then bucket a h ∪ list_to_set l else bucket a x.
Proof.
  revert a. induction l as [|e l IH]; intros a; simpl.
  - case_decide; [subst; set_solver|done].
  - rewrite IH, !bucket_write. repeat case_decide; [set_solver|done..].
Qed.

Lemma bucket_removes h l a x :
  bucket (foldl (fun a removed => set_remove h removed a) a l) x = if decide (x = h) then bucket a h ∖ list_to_set l else bucket a x.
Proof.
  revert a. induction l as [|e l IH]; intros a; simpl.
  - case_decide; [subst; set_solver|done].
  - rewrite IH, !bucket_remove. repeat case_decide; [set_solver|done..].
Qed.

Lemma bucket_commit h e a x :
  bucket (commit_staging_entry h e a) x = if decide (x = h) then (bucket a x ∖ deletions e) ∪ additions e else bucket a x.
Proof.
  unfold commit_staging_entry. rewrite bucket_writes, !bucket_removes. case_decide as E; [|done]. subst x.
  rewrite decide_True by done. by rewrite !list_to_set_elements_L.
Qed.

Lemma bucket_delete h a x : bucket (set_delete h a) x = if decide (x = h) then ∅ else bucket a x.
Proof.
  unfold bucket, set_delete. cbn. destruct (decide (x = h)) as [->|]; [by rewrite lookup_delete_eq|by rewrite lookup_delete_ne].
Qed.

(** The bucket of a set after the commit. *)
Lemma bucket_committed (staged : gmap hash StagingSetEntry) (del : gset hash) (a : DbReachabilitySet) (h : hash) :
  bucket (foldl (fun a k => set_delete k a) (for_each_entry commit_staging_entry staged a) (elements del)) h =
  if decide (h ∈ del) then ∅
  else match staged !! h with Some e => (bucket a h ∖ deletions e) ∪ additions e | None => bucket a h end.
Proof.
  rewrite (foldl_keys_get bucket set_delete ∅) by (intros; apply bucket_delete).
  rewrite (for_each_entry_get bucket commit_staging_entry (fun _ e B => (B ∖ deletions e) ∪ additions e))
    by (intros; apply bucket_commit). by rewrite (decide_ext (h ∈ elements del) (h ∈ del)) by set_solver.
Qed.

Lemma writes_cache h l a : set_cache (foldl (fun a added => set_write h added a) a l) = set_cache a.
Proof. revert a. induction l as [|e l IH]; intros a; simpl; [done|]. by rewrite IH. Qed.

Lemma removes_cache h l a : set_cache (foldl (fun a removed => set_remove h removed a) a l) = set_cache a.
Proof. revert a. induction l as [|e l IH]; intros a; simpl; [done|]. by rewrite IH. Qed.

Lemma cache_committed (staged : gmap hash StagingSetEntry) (del : gset hash) (a : DbReachabilitySet) (h : hash) :
  set_cache (foldl (fun a k => set_delete k a) (for_each_entry commit_staging_entry staged a) (elements del)) !! h =
  if decide (h ∈ del) then None
  else match staged !! h with Some e => Some (en_set e) | None => set_cache a !! h end.
Proof.
  set (get a h := set_cache a !! h).
  change (get (foldl (fun a k => set_delete k a) (for_each_entry commit_staging_entry staged a) (elements del)) h =
    if decide (h ∈ del) then None else match staged !! h with Some e => Some (en_set e) | None => get a h end).
  rewrite (foldl_keys_get get set_delete None).
  2:{ intros k x y. unfold get. cbn. destruct (decide (y = k)) as [->|]; [apply lookup_delete_eq|by apply lookup_delete_ne]. }
  rewrite (for_each_entry_get get commit_staging_entry (fun _ e _ => Some (en_set e))).
  2:{ intros k e x y. unfold get, commit_staging_entry. rewrite writes_cache, removes_cache. cbn.
      destruct (decide (y = k)) as [->|]; [apply lookup_insert_eq|by apply lookup_insert_ne]. }
  by rewrite (decide_ext (h ∈ elements del) (h ∈ del)) by set_solver.
Qed.

(** * Ordering a bucket *)

Lemma with_keys_ok {E} (key : hash -> result E Interval) iv l :
  (forall h, h ∈ l -> key h = Ok (iv h)) -> with_keys key l = Ok (map (fun h => (iv h, h)) l).
Proof.
  induction l as [|h l IH]; intros Hk; simpl; [done|]. rewrite Hk by (by left). cbn [mbind result_bind].
  rewrite IH by (intros; apply Hk; by right). done.
Qed.

Lemma interval_le_spec i j : interval_le i j <-> iv_start i < iv_start j \/ (iv_start i = iv_start j /\ iv_end i <= iv_end j).
Proof. unfold interval_le. rewrite Is_true_true, orb_true_iff, andb_true_iff, Z.ltb_lt, Z.eqb_eq, Z.leb_le. done. Qed.

Lemma StronglySorted_lookup {A} (R : relation A) l :
  (forall i j x y, l !! i = Some x -> l !! j = Some y -> (i < j)%nat -> R x y) -> StronglySorted R l.
Proof.
  induction l as [|a l IH]; intros Ho; [constructor|]. constructor.
  - apply IH. intros i j x y Hi Hj Hij. by apply (Ho (S i) (S j)); [..|lia].
  - apply Forall_forall. intros x [i Hi]%list_elem_of_lookup. by apply (Ho 0%nat (S i)); [..|lia].
Qed.

(** Sorting gives the vector whose blocks start in increasing order. *)
Lemma sort_by_interval {E} (key : hash -> result E Interval) iv l l' :
  l ≡ₚ l' -> (forall h, h ∈ l -> key h = Ok (iv h)) ->
  (forall i j a b, l' !! i = Some a -> l' !! j = Some b -> (i < j)%nat -> iv_start (iv a) < iv_start (iv b)) ->
  sort_by_cached_key key l = Ok l'.
Proof.
  intros Hp Hk Ho. unfold sort_by_cached_key. rewrite (with_keys_ok key iv l Hk). cbn [mbind result_bind]. f_equal.
  set (pair h := (iv h, h)). enough (merge_sort (fun x y => key_le x y) (map pair l) = map pair l') as ->.
  { rewrite map_map. by rewrite map_id. }
  assert (Htr : Transitive (fun x y : Interval * hash => Is_true (key_le x y))).
  { intros x y z. unfold key_le. rewrite !interval_le_spec. lia. }
  assert (Hto : Total (fun x y : Interval * hash => Is_true (key_le x y))).
  { intros x y. unfold key_le. rewrite !interval_le_spec. lia. }
  eapply (StronglySorted_unique_strong (fun x y => Is_true (key_le x y))).
  - intros x y Hx Hy. rewrite merge_sort_Permutation, Hp in Hx.
    apply list_elem_of_lookup in Hx as [i Hi], Hy as [j Hj].
    apply list_lookup_fmap_Some in Hi as (a & -> & Ha), Hj as (b & -> & Hb). unfold key_le, pair. cbn [fst].
    rewrite !interval_le_spec. destruct (Nat.lt_trichotomy i j) as [H|[->|H]]; [|by simplify_eq|].
    + pose proof (Ho i j a b Ha Hb H). lia.
    + pose proof (Ho j i b a Hb Ha H). lia.
  - apply Sorted_StronglySorted, Sorted_merge_sort; done.
  - apply StronglySorted_lookup. intros i j x y Hi Hj Hij.
    apply list_lookup_fmap_Some in Hi as (a & -> & Ha), Hj as (b & -> & Hb). unfold key_le, pair. cbn [fst].
    rewrite interval_le_spec. left. by apply (Ho i j).
  - by rewrite merge_sort_Permutation, Hp.
Qed.

(** * What a commit leaves *)

Section commit.
Context (s : StagingReachabilityStore) (t : rtree) (D : hash -> hash -> Prop).
Hypothesis Hg : represents_dag s t D.
Abbreviation m := (stg_view s).
Abbreviation del := (staging_deletions s).
Context (c1 c2 : gmap hash (list hash)).
Hypothesis Hc1 : c1 ⊆ set_cache (db_children (commit s)).
Hypothesis Hc2 : c2 ⊆ set_cache (db_fcs (commit s)).
(** The committed tables under what is left of the caches. *)
Definition evicted (db : DbReachabilityStore) : DbReachabilityStore :=
  mk_dbstore (db_access db) (mk_set (set_disk (db_children db)) c1) (mk_set (set_disk (db_fcs db)) c2)
    (db_reindex_root db) (db_prefix_tail db).
Abbreviation cold := (evicted (commit s)).

Lemma commit_ok : stg_ok s.
Proof. exact (rt_ok _ _ _ (rg_tree _ _ _ Hg)). Qed.

Lemma cold_access h : db_access cold !! h = if decide (h ∈ del) then None else stg_data s h.
Proof.
  cbn. rewrite (foldl_keys_get (fun (m : gmap hash ReachabilityData) h => m !! h) (fun k acc => delete k acc) None).
  2:{ intros k acc x. destruct (decide (x = k)) as [->|]; [apply lookup_delete_eq|by apply lookup_delete_ne]. }
  rewrite (for_each_entry_get (fun (m : gmap hash ReachabilityData) h => m !! h) (fun k v acc => <[k := v]> acc) (fun _ v _ => Some v)).
  2:{ intros k v acc x. destruct (decide (x = k)) as [->|]; [apply lookup_insert_eq|by apply lookup_insert_ne]. }
  rewrite (decide_ext (h ∈ elements del) (h ∈ del)) by set_solver. unfold stg_data. by destruct (staging_writes s !! h).
Qed.

Lemma cold_stored h : stg_block s h <$> db_access cold !! h = m !! h.
Proof. rewrite cold_access, stg_view_lookup. by case_decide; case_bool_decide. Qed.

Lemma cold_bucket_children h :
  bucket (db_children cold) h = if decide (h ∈ del) then ∅ else list_to_set (stg_children s h).
Proof.
  unfold bucket at 1. cbn. fold (bucket (foldl (fun a k => set_delete k a)
    (for_each_entry commit_staging_entry (staging_children s) (db_children (store_read s))) (elements del)) h).
  rewrite bucket_committed. case_decide; [done|]. unfold stg_children. destruct commit_ok as [Hdb Hc _ _].
  destruct (staging_children s !! h) as [e|] eqn:E; [by rewrite (eo_set _ _ (Hc h e E))|].
  by rewrite <-(so_bucket _ _ (dk_children _ Hdb h)).
Qed.

Lemma cold_bucket_fcs h :
  bucket (db_fcs cold) h = if decide (h ∈ del) then ∅ else list_to_set (stg_fcs s h).
Proof.
  unfold bucket at 1. cbn. fold (bucket (foldl (fun a k => set_delete k a)
    (for_each_entry commit_staging_entry (staging_fcs s) (db_fcs (store_read s))) (elements del)) h).
  rewrite bucket_committed. case_decide; [done|]. unfold stg_fcs. destruct commit_ok as [Hdb _ Hc _].
  destruct (staging_fcs s !! h) as [e|] eqn:E; [by rewrite (eo_set _ _ (Hc h e E))|].
  by rewrite <-(so_bucket _ _ (dk_fcs _ Hdb h)).
Qed.

Lemma cold_interval h : h ∈ nodes t -> db_interval_key cold h = Ok (ivl m h).
Proof.
  intros Hh. destruct (shape_lookup _ _ _ _ (rt_shape _ _ _ (rg_tree _ _ _ Hg)) Hh) as [d E]. cbn [view staging_laws] in E.
  pose proof (cold_stored h) as Hc. rewrite E in Hc. unfold db_interval_key, ivl. rewrite E.
  destruct (db_access cold !! h) as [r|]; [|done]. by simplify_eq/=.
Qed.

(** A set read from its bucket. *)
Lemma cold_read a h l :
  set_cache a !! h = None \/ set_cache a !! h = Some l -> bucket a h = list_to_set l -> Forall (fun x => x ∈ nodes t) l -> side_by_side t l ->
  exists a', set_read a h (db_interval_key cold) = Ok (l, a').
Proof.
  intros Hc Hb Hl Ho. unfold set_read. destruct Hc as [Hc|Hc]; rewrite Hc; [|eauto]. pose proof (rg_tree _ _ _ Hg) as [_ Hs Hn]. cbn [view staging_laws] in *.
  pose proof (side_by_side_NoDup _ _ _ _ Hs Hn Hl Ho) as Hnd.
  assert (Hp : bucket_iterator a h ≡ₚ l).
  { unfold bucket_iterator. rewrite merge_sort_Permutation, Hb. by rewrite elements_list_to_set. }
  rewrite (sort_by_interval (db_interval_key cold) (ivl m) _ l Hp); [cbn; eauto|..].
  - intros x Hx. apply cold_interval. rewrite Hp in Hx. rewrite Forall_forall in Hl. auto.
  - intros i j x y Hi Hj Hij. pose proof (left_bounds _ _ _ _ _ Hs Hn (Ho i j x y Hi Hj Hij)).
    rewrite Forall_forall in Hl. pose proof (nested_pos _ _ x Hn (Hl x ltac:(by eapply list_elem_of_lookup_2))). lia.
Qed.

Lemma cold_orphan h : m !! h = None -> h ∉ del -> stg_children s h = [] /\ stg_fcs s h = [] /\ stg_data s h = None.
Proof.
  rewrite stg_view_lookup. intros E Hd. rewrite bool_decide_false in E by done. apply fmap_None in E.
  destruct commit_ok as [Hdb _ _ Hst]. destruct (dk_orphan _ Hdb h) as [Hc Hf].
  { unfold stg_data in E. by destruct (staging_writes s !! h). }
  assert (forall (r : result (fault StoreError) (list hash)), set_ok r ∅ -> ok_list r = []) as Hnil.
  { intros r [_ _ Hb]. destruct (ok_list r); [done|]. set_solver. }
  assert (staging_children s !! h = None /\ staging_fcs s !! h = None) as [E1 E2].
  { destruct (staging_children s !! h) eqn:E1, (staging_fcs s !! h) eqn:E2; try done;
      (destruct (Hst h) as [[? ?]|?]; [rewrite ?E1, ?E2; eauto|congruence|done]). }
  unfold stg_children, stg_fcs. rewrite E1, E2. split_and!; [| |done]; apply Hnil.
  - rewrite <-Hc. apply (dk_children _ Hdb).
  - rewrite <-Hf. apply (dk_fcs _ Hdb).
Qed.

Lemma cold_buckets h : bucket (db_children cold) h = list_to_set (chl m h) /\ bucket (db_fcs cold) h = list_to_set (fcs m h).
Proof.
  rewrite cold_bucket_children, cold_bucket_fcs. unfold chl, fcs. destruct (m !! h) as [d|] eqn:E.
  - apply stg_view_Some in E as (Hd & r & _ & ->). by rewrite !decide_False by done.
  - case_decide as Hd; [done|]. by destruct (cold_orphan h E Hd) as (-> & -> & _).
Qed.

Lemma cached_children h : c1 !! h = None \/ c1 !! h = Some (chl m h).
Proof.
  destruct (c1 !! h) as [l|] eqn:E; [right|auto]. pose proof (lookup_weaken _ _ _ _ E Hc1) as Hl. cbn in Hl.
  rewrite cache_committed in Hl. case_decide as Hd; [done|]. f_equal.
  assert (l = stg_children s h) as ->.
  { unfold stg_children. destruct (staging_children s !! h); [congruence|].
    unfold base_children, db_get_children, db_read_children, set_read. by rewrite Hl. }
  unfold chl. destruct (m !! h) as [d|] eqn:Em; [by apply stg_view_Some in Em as (_ & r & _ & ->)|].
  by destruct (cold_orphan h Em Hd) as (-> & _).
Qed.

Lemma cached_fcs h : c2 !! h = None \/ c2 !! h = Some (fcs m h).
Proof.
  destruct (c2 !! h) as [l|] eqn:E; [right|auto]. pose proof (lookup_weaken _ _ _ _ E Hc2) as Hl. cbn in Hl.
  rewrite cache_committed in Hl. case_decide as Hd; [done|]. f_equal.
  assert (l = stg_fcs s h) as ->.
  { unfold stg_fcs. destruct (staging_fcs s !! h); [congruence|].
    unfold base_fcs, db_get_future_covering_set, db_read_future_covering_set, set_read. by rewrite Hl. }
  unfold fcs. destruct (m !! h) as [d|] eqn:Em; [by apply stg_view_Some in Em as (_ & r & _ & ->)|].
  by destruct (cold_orphan h Em Hd) as (_ & -> & _).
Qed.

Lemma ordered_sets h :
  (Forall (fun x => x ∈ nodes t) (chl m h) /\ side_by_side t (chl m h)) /\
  (Forall (fun x => x ∈ nodes t) (fcs m h) /\ side_by_side t (fcs m h)).
Proof.
  split; [|split; [apply (rg_fcs_in _ _ _ Hg h)|apply (rg_fcs_order _ _ _ Hg h)]].
  destruct (m !! h) as [d|] eqn:E; [|unfold chl; rewrite E; split; [done|by intros ? ? ? ? ?]].
  assert (h ∈ nodes t) as (th & Hth & <-)%nodes_subtree by (apply (rg_dom _ _ _ Hg); cbn; eauto).
  destruct (shape_sub _ _ _ _ (rt_shape _ _ _ (rg_tree _ _ _ Hg)) Hth) as [ph Hs]. cbn [view staging_laws] in Hs.
  rewrite (shape_chl _ _ _ Hs). split; [|by apply kids_side_by_side]. apply Forall_forall.
  intros x (k & <- & Hk%list_elem_of_In)%list_elem_of_In%in_map_iff. apply nodes_subtree. exists k.
  split; [exact (subtrees_kid_of _ _ _ Hth Hk)|done].
Qed.

Lemma cold_sets h : db_get_children cold h = Ok (chl m h) /\ db_get_future_covering_set cold h = Ok (fcs m h).
Proof.
  destruct (cold_buckets h) as [Hc Hf]. destruct (ordered_sets h) as [[H1 H2] [H3 H4]].
  unfold db_get_children, db_read_children, db_get_future_covering_set, db_read_future_covering_set.
  destruct (cold_read (db_children cold) h (chl m h) (cached_children h) Hc H1 H2) as [a1 ->].
  destruct (cold_read (db_fcs cold) h (fcs m h) (cached_fcs h) Hf H3 H4) as [a2 ->]. done.
Qed.

Lemma cold_ok : db_ok cold.
Proof.
  pose proof (rg_tree _ _ _ Hg) as [_ Hs Hn]. cbn [view staging_laws] in Hs, Hn. split.
  - intros h. destruct (cold_sets h) as [Hr _]. destruct (ordered_sets h) as [[H1 H2] _]. rewrite Hr. cbn [ok_list].
    split; [done|by eapply side_by_side_NoDup|]. symmetry. apply cold_buckets.
  - intros h. destruct (cold_sets h) as [_ Hr]. destruct (ordered_sets h) as [_ [H1 H2]]. rewrite Hr. cbn [ok_list].
    split; [done|by eapply side_by_side_NoDup|]. symmetry. apply cold_buckets.
  - intros h E. destruct (cold_buckets h) as [-> ->]. pose proof (cold_stored h) as Hm. rewrite E in Hm. cbn in Hm.
    unfold chl, fcs. by rewrite <-Hm.
Qed.

Lemma cold_view : stg_view (staging_new cold) = m.
Proof.
  apply map_eq. intros h. rewrite stg_view_lookup. cbn [staging_new staging_deletions]. rewrite bool_decide_false by set_solver.
  unfold stg_data. cbn [staging_new staging_writes store_read]. rewrite lookup_empty. pose proof (cold_stored h) as Hm.
  rewrite <-Hm. destruct (db_access cold !! h) as [r|]; [|done]. cbn in Hm |- *. f_equal. symmetry in Hm.
  unfold stg_block, stg_children, stg_fcs. cbn [staging_new staging_children staging_fcs store_read].
  rewrite !lookup_empty. unfold base_children, base_fcs. destruct (cold_sets h) as [-> ->]. cbn [ok_list].
  unfold chl, fcs. rewrite Hm. done.
Qed.

Lemma commit_represents : represents_dag (staging_new cold) t D /\ stg_root (staging_new cold) = stg_root s.
Proof.
  pose proof cold_view as Hv. split; [|done].
  assert (store_ok (staging_new cold)) as Hok.
  { split; [apply cold_ok|..]; cbn; intros h; rewrite ?lookup_empty; try done. intros [[? [=]]|[? [=]]]. }
  destruct Hg as [[_ Hs Hn] H1 H2 H3 H4 H5 H6]. cbn [view staging_laws] in *.
  split; [split; [done|..]|..]; cbn [view staging_laws]; by rewrite ?Hv.
Qed.
End commit.
