(* ===== verification/ReachCut.v ===== *)
(** Removing a block from the tree: [contract b t] hands the children of [b] to
    its parent, the intervals of the blocks at its ends grow over its capacity,
    and the result is again a tree with nested intervals and the same order of
    the other blocks. *)

From S2P Require Import Prelude Access Interval Reach ReachTree ReachQueries ReachCount ReachPropagate ReachSides ReachReclaim ReachInsert ReachDag.

(** * The tree without a block *)

(** [b] replaced by [ks]. *)
Definition subst_block (b : hash) (ks l : list hash) : list hash :=
  concat (map (fun c => if bool_decide (c = b) then ks else [c]) l).

Fixpoint contract (b : hash) (t : rtree) : rtree :=
  match t with
  | Node h ts => Node h (concat (map (fun c => if bool_decide (label c = b) then kids c else [contract b c]) ts))
  end.

Lemma subst_block_id b ks l : b ∉ l -> subst_block b ks l = l.
Proof.
  induction l as [|x l IH]; [done|]. intros [Hne Hl]%not_elem_of_cons. unfold subst_block in *. simpl.
  rewrite bool_decide_false by done. simpl. by rewrite IH.
Qed.

Lemma subst_block_middle b ks l1 l2 : b ∉ l1 -> b ∉ l2 -> subst_block b ks (l1 ++ b :: l2) = l1 ++ ks ++ l2.
Proof.
  intros H1 H2. unfold subst_block. rewrite map_app, concat_app. cbn [map concat]. rewrite bool_decide_true by done.
  fold (subst_block b ks l1) (subst_block b ks l2). by rewrite !subst_block_id.
Qed.

Lemma elem_subst_block b ks l x : x ∈ subst_block b ks l <-> (x ∈ l /\ x <> b) \/ (b ∈ l /\ x ∈ ks).
Proof.
  unfold subst_block. rewrite elem_concat_map. split.
  - intros (y & Hy & Hx). case_bool_decide; [subst; auto|]. apply list_elem_of_singleton in Hx as ->. auto.
  - intros [[Hx Hne]|[Hb Hx]].
    + exists x. split; [done|]. rewrite bool_decide_false by done. by left.
    + exists b. split; [done|]. by rewrite bool_decide_true.
Qed.

Lemma label_contract b t : label (contract b t) = label t.
Proof. by destruct t. Qed.

Lemma contract_id b t : b ∉ nodes t -> contract b t = t.
Proof.
  induction t as [h ts IH] using rtree_ind'. intros Hb. cbn [contract]. f_equal.
  cbn [nodes] in Hb. apply not_elem_of_cons in Hb as [_ Hb].
  induction IH as [|t ts Ht _ IH]; [done|]. cbn [map concat] in *. rewrite bool_decide_false.
  - rewrite Ht by set_solver. cbn [app]. f_equal. apply IH. set_solver.
  - intros <-. apply Hb, elem_of_app. left. apply nodes_self.
Qed.

Lemma elem_contract_kids b ts x :
  x ∈ concat (map (fun c => if bool_decide (label c = b) then kids c else [contract b c]) ts) <->
  exists c, c ∈ ts /\ ((label c = b /\ x ∈ kids c) \/ (label c <> b /\ x = contract b c)).
Proof.
  rewrite elem_concat_map. split.
  - intros (c & Hc & Hx). exists c. split; [done|]. case_bool_decide; [auto|]. apply list_elem_of_singleton in Hx. auto.
  - intros (c & Hc & [[E Hx]|[E ->]]); exists c; (split; [done|]).
    + by rewrite bool_decide_true.
    + rewrite bool_decide_false by done. by left.
Qed.

Section contract.
Context (b : hash).

Lemma nodes_contract t x :
  NoDup (nodes t) -> label t <> b -> x ∈ nodes (contract b t) <-> x ∈ nodes t /\ x <> b.
Proof.
  induction t as [h ts IH] using rtree_ind'. intros Hnd Hh. rewrite Forall_forall in IH. cbn [contract].
  rewrite !nodes_node. cbn [label] in Hh. cbn [nodes] in Hnd. apply NoDup_cons in Hnd as [_ Hnd].
  assert (HndT : forall c, c ∈ ts -> NoDup (nodes c)).
  { intros c Hc. eapply NoDup_concat_elem; [exact Hnd|]. apply list_elem_of_In, in_map, list_elem_of_In. done. }
  split.
  - intros [->|(c & (c0 & Hc0 & [[E Hc]|[E ->]])%elem_contract_kids & Hx)]; [auto| |].
    + split; [right; exists c0; split; [done|by eapply nodes_kid]|]. intros ->.
      destruct c0 as [l ks]. cbn [label kids] in *. subst l. pose proof (HndT _ Hc0) as H0. cbn [nodes] in H0.
      apply NoDup_cons in H0 as [H0 _]. apply H0, elem_concat_map. eauto.
    + apply IH in Hx as [Hx Hne]; [|done|by apply HndT|done]. eauto 6.
  - intros [[->|(c & Hc & Hx)] Hne]; [auto|right]. destruct (decide (label c = b)) as [E|E].
    + destruct c as [l ks]. cbn [label] in E. subst l. apply nodes_node in Hx as [->|(k & Hk & Hx)]; [done|].
      exists k. split; [|done]. apply elem_contract_kids. exists (Node b ks). auto.
    + exists (contract b c). split; [apply elem_contract_kids; eauto|]. by apply IH; [|apply HndT|..].
Qed.

Lemma contract_sub t ta :
  NoDup (nodes t) -> label t <> b -> ta ∈ subtrees t -> label ta <> b -> contract b ta ∈ subtrees (contract b t).
Proof.
  induction t as [h ts IH] using rtree_ind'. intros Hnd Hh Hta Ha. rewrite Forall_forall in IH.
  apply subtrees_node in Hta as [->|(c & Hc & Hta)]; [apply subtrees_self|].
  pose proof (NoDup_sub _ c Hnd (subtrees_kid (Node h ts) c Hc)) as Hndc.
  cbn [contract]. apply subtrees_node. right. destruct (decide (label c = b)) as [E|E].
  - destruct c as [l ks]. cbn [label] in E. subst l. apply subtrees_node in Hta as [->|(k & Hk & Hta)]; [done|].
    exists k. split; [apply elem_contract_kids; exists (Node b ks); auto|]. rewrite contract_id; [done|].
    intros Hb. cbn [nodes] in Hndc. apply NoDup_cons in Hndc as [H0 _]. apply H0, elem_concat_map. exists k. split; [done|].
    by eapply nodes_sub.
  - exists (contract b c). split; [apply elem_contract_kids; eauto|]. by apply IH.
Qed.

Lemma contract_sub_inv t tb :
  NoDup (nodes t) -> label t <> b -> tb ∈ subtrees (contract b t) ->
  exists ta, ta ∈ subtrees t /\ label ta <> b /\ tb = contract b ta.
Proof.
  induction t as [h ts IH] using rtree_ind'. intros Hnd Hh Hb. rewrite Forall_forall in IH. cbn [contract] in Hb.
  apply subtrees_node in Hb as [->|(c & (c0 & Hc0 & [[E Hc]|[E ->]])%elem_contract_kids & Hb)].
  - exists (Node h ts). split_and!; [apply subtrees_self|done..].
  - assert (Hsub : c0 ∈ subtrees (Node h ts)) by by apply subtrees_kid.
    pose proof (NoDup_sub _ _ Hnd Hsub) as Hnd0. destruct c0 as [l ks]. cbn [label kids] in *. subst l.
    assert (b ∉ nodes tb) as Hbn.
    { intros Hin. cbn [nodes] in Hnd0. apply NoDup_cons in Hnd0 as [H0 _]. apply H0, elem_concat_map. exists c.
      split; [done|by eapply nodes_sub]. }
    exists tb. split_and!.
    + eapply subtrees_trans; [exact Hb|]. exact (subtrees_kid_of _ _ _ Hsub Hc).
    + intros E. apply Hbn. rewrite <-E. apply nodes_self.
    + by rewrite contract_id.
  - pose proof (NoDup_sub _ c0 Hnd (subtrees_kid (Node h ts) c0 Hc0)) as Hndc.
    destruct (IH c0 Hc0 Hndc E Hb) as (ta & Hta & Ha & ->). exists ta. split_and!; [|done..].
    apply subtrees_node. eauto.
Qed.

Lemma anc_contract t x y :
  NoDup (nodes t) -> label t <> b -> anc (contract b t) x y <-> anc t x y /\ x <> b /\ y <> b.
Proof.
  intros Hnd Hh. split.
  - intros (tb & Htb & <- & Hy). destruct (contract_sub_inv t tb Hnd Hh Htb) as (ta & Hta & Ha & ->).
    apply nodes_contract in Hy as [Hy Hne]; [|by eapply NoDup_sub|done]. rewrite label_contract.
    split_and!; [exists ta; done|done..].
  - intros ((ta & Hta & <- & Hy) & Hx & Hne). exists (contract b ta). split_and!; [by apply contract_sub|apply label_contract|].
    apply nodes_contract; [by eapply NoDup_sub|done..].
Qed.
End contract.

(** * Ordered lists of blocks *)

Lemma inside_intro lo hi l :
  (forall i, i ∈ l -> lo <= iv_start i <= iv_end i + 1 /\ iv_end i <= hi) ->
  (forall j k i i', l !! j = Some i -> l !! k = Some i' -> (j < k)%nat -> iv_end i < iv_start i') ->
  inside lo hi l.
Proof.
  revert lo. induction l as [|x l IH]; intros lo Hb Ho; simpl; [done|].
  destruct (Hb x) as [? ?]; [by left|]. split_and!; [lia..|]. apply IH.
  - intros i Hi. destruct (Hb i) as [? ?]; [by right|]. apply list_elem_of_lookup in Hi as [k Hk].
    pose proof (Ho 0%nat (S k) x i eq_refl Hk ltac:(lia)). lia.
  - intros j k i i' Hj Hk Hjk. by apply (Ho (S j) (S k)); [..|lia].
Qed.

Lemma side_by_side_app t l1 l2 :
  side_by_side t (l1 ++ l2) <->
  side_by_side t l1 /\ side_by_side t l2 /\ forall a c, a ∈ l1 -> c ∈ l2 -> left_of t a c.
Proof.
  split.
  - intros H. split_and!.
    + intros i j a c Ha Hc. apply (H i j); by apply lookup_app_l_Some.
    + intros i j a c Ha Hc Hij. apply (H (length l1 + i)%nat (length l1 + j)%nat); [..|lia];
        (rewrite lookup_app_r by lia); by rewrite Nat.add_comm, Nat.add_sub.
    + intros a c [i Hi]%list_elem_of_lookup [j Hj]%list_elem_of_lookup. apply (H i (length l1 + j)%nat).
      * by apply lookup_app_l_Some.
      * rewrite lookup_app_r by lia. by rewrite Nat.add_comm, Nat.add_sub.
      * apply lookup_lt_Some in Hi. lia.
  - intros (H1 & H2 & H12) i j a c Ha Hc Hij. apply lookup_app_Some in Ha, Hc.
    destruct Ha as [Ha|[? Ha]], Hc as [Hc|[? Hc]].
    + by eapply (H1 i j).
    + apply H12; by eapply list_elem_of_lookup_2.
    + apply lookup_lt_Some in Hc. lia.
    + eapply H2; [done..|lia].
Qed.

Lemma left_of_below t a b c : left_of t a b -> anc t b c -> NoDup (nodes t) -> left_of t a c.
Proof.
  intros (ta & l1 & t1 & l2 & t2 & l3 & Hta & Hk & Ha & Hb) (tb & Htb & <- & Hc) Hnd.
  exists ta, l1, t1, l2, t2, l3. split_and!; [done..|]. apply nodes_subtree in Hb as (tb' & Htb' & E).
  assert (Ht2 : t2 ∈ subtrees t) by (apply (subtrees_kid_of _ _ _ Hta); rewrite Hk; set_solver).
  rewrite (label_inj _ _ _ Hnd (subtrees_trans _ _ _ Htb' Ht2) Htb E) in Htb'. by eapply nodes_sub.
Qed.

Lemma left_of_below_l t a b c : left_of t b a -> anc t b c -> NoDup (nodes t) -> left_of t c a.
Proof.
  intros (ta & l1 & t1 & l2 & t2 & l3 & Hta & Hk & Hb & Ha) (tb & Htb & <- & Hc) Hnd.
  exists ta, l1, t1, l2, t2, l3. split_and!; [done..| |done]. apply nodes_subtree in Hb as (tb' & Htb' & E).
  assert (Ht1 : t1 ∈ subtrees t) by (apply (subtrees_kid_of _ _ _ Hta); rewrite Hk; set_solver).
  rewrite (label_inj _ _ _ Hnd (subtrees_trans _ _ _ Htb' Ht1) Htb E) in Htb'. by eapply nodes_sub.
Qed.

Lemma side_by_side_splice t l1 b ks l2 :
  NoDup (nodes t) -> side_by_side t (l1 ++ b :: l2) -> side_by_side t ks -> (forall k, k ∈ ks -> anc t b k) ->
  side_by_side t (l1 ++ ks ++ l2).
Proof.
  intros Hnd (H1 & H2 & H12)%side_by_side_app Hks Ha.
  apply (side_by_side_app t [b] l2) in H2 as (_ & H2 & Hb2). apply side_by_side_app. split_and!; [done|apply side_by_side_app; split_and!; [done..|]|].
  - intros k c Hk Hc. eapply left_of_below_l; [|by apply Ha|done]. apply Hb2; [by left|done].
  - intros a c Hl [Hk|Hc]%elem_of_app.
    + eapply left_of_below; [|by apply Ha|done]. apply H12; [done|by left].
    + apply H12; [done|by right].
Qed.

(** * The blocks without a block *)

Section cut.
Context (m : blocks) (p : hash) (t tP tb : rtree) (T1 T2 : list rtree).
Hypothesis Hshape : shape m p t.
Hypothesis Hnested : nested m t.
Hypothesis HP : tP ∈ subtrees t.
Hypothesis Hkids : kids tP = T1 ++ tb :: T2.
Abbreviation b := (label tb).
Abbreviation ks := (map label (kids tb)).
Abbreviation l1 := (map label T1).
Abbreviation l2 := (map label T2).

(** The capacity of the deleted block goes to the blocks at its two ends. *)
Definition given (h : hash) : Interval :=
  mk_interval (if bool_decide (head ks = Some h) then iv_start (ivl m b) else iv_start (ivl m h))
              (if bool_decide (last (l1 ++ ks) = Some h) then iv_end (ivl m b) else iv_end (ivl m h)).

(** A block after the deletion. *)
Definition cut_data (iv : Interval) (d : MemoryReachabilityData) : MemoryReachabilityData :=
  mk_data (subst_block b ks (rd_children d)) (if bool_decide (rd_parent d = b) then label tP else rd_parent d)
    iv (rd_height d) (subst_block b ks (rd_fcs d)).

Lemma cut_nodup : NoDup (nodes t).
Proof. by eapply nested_NoDup. Qed.

Lemma cut_kid : tb ∈ kids tP.
Proof. rewrite Hkids. set_solver. Qed.

Lemma cut_sub : tb ∈ subtrees t.
Proof. exact (subtrees_kid_of _ _ _ HP cut_kid). Qed.

Lemma cut_siblings_order : side_by_side t (l1 ++ b :: l2).
Proof. pose proof (kids_side_by_side t tP HP) as H. by rewrite Hkids, map_app in H. Qed.

Lemma cut_anc k : k ∈ ks -> anc t b k.
Proof.
  intros (y & <- & Hy%list_elem_of_In)%list_elem_of_In%in_map_iff. exists tb. split_and!; [apply cut_sub|done|].
  eapply nodes_kid; [done|apply nodes_self].
Qed.

Lemma cut_order : side_by_side t (l1 ++ ks ++ l2).
Proof.
  eapply side_by_side_splice; [apply cut_nodup|apply cut_siblings_order|apply kids_side_by_side, cut_sub|apply cut_anc].
Qed.

Lemma cut_members h : h ∈ l1 ++ ks ++ l2 -> h ∈ nodes t.
Proof.
  rewrite !elem_of_app. intros H.
  assert (exists y z, h = label y /\ y ∈ kids z /\ z ∈ subtrees t) as (y & z & -> & Hy & Hz).
  { pose proof cut_sub. destruct H as [H|[H|H]]; apply list_elem_of_In, in_map_iff in H as (y & <- & Hy%list_elem_of_In).
    - exists y, tP. rewrite Hkids. set_solver.
    - eauto.
    - exists y, tP. rewrite Hkids. set_solver. }
  apply nodes_subtree. exists y. split; [exact (subtrees_kid_of _ _ _ Hz Hy)|done].
Qed.

Lemma cut_list_nodup : NoDup (l1 ++ ks ++ l2).
Proof.
  eapply side_by_side_NoDup; [done..| |apply cut_order]. apply Forall_forall. intros. by apply cut_members.
Qed.

Lemma cut_not_self : (b ∉ l1) /\ (b ∉ l2) /\ (b ∉ ks).
Proof.
  assert (NoDup (l1 ++ b :: l2)) as H.
  { pose proof (NoDup_kids tP (NoDup_sub _ _ cut_nodup HP)) as H. by rewrite Hkids, map_app in H. }
  apply NoDup_app in H as (_ & H1 & [H2 _]%NoDup_cons). split_and!; [|done|].
  - intros Hb. apply (H1 _ Hb). by left.
  - intros (y & E & Hy%list_elem_of_In)%list_elem_of_In%in_map_iff. pose proof (NoDup_sub _ _ cut_nodup cut_sub) as Hnd.
    destruct tb as [l us]. cbn [nodes kids label] in *. apply NoDup_cons in Hnd as [Hn _]. apply Hn, elem_concat_map.
    exists y. split; [done|]. rewrite <-E. apply nodes_self.
Qed.

Lemma given_plain h : h ∉ l1 ++ ks -> given h = ivl m h.
Proof.
  intros Hh. unfold given. rewrite !bool_decide_false; [by destruct (ivl m h)|..].
  - intros E. apply Hh. by apply last_Some_elem_of.
  - intros E. apply Hh, elem_of_app. right. by apply head_Some_elem_of.
Qed.

Lemma cut_bounds h : h ∈ l1 ++ ks ->
  iv_end (ivl m h) <= iv_end (ivl m b) /\ (h ∈ ks -> iv_start (ivl m b) <= iv_start (ivl m h)).
Proof.
  intros Hh. pose proof cut_siblings_order as Ho. apply side_by_side_app in Ho as (_ & _ & Hl).
  pose proof (nested_pos _ _ b Hnested (nodes_sub _ _ _ cut_sub (nodes_self tb))).
  assert (Hin : h ∈ ks -> iv_start (ivl m b) <= iv_start (ivl m h) /\ iv_end (ivl m h) <= iv_end (ivl m b)).
  { intros Hk. destruct (anc_bounds _ _ _ _ _ Hshape Hnested (cut_anc h Hk)) as (? & ? & _). lia. }
  apply elem_of_app in Hh as [H1|Hk]; [|destruct (Hin Hk); auto]. split; [|intros; by apply Hin].
  pose proof (left_bounds _ _ _ _ _ Hshape Hnested (Hl h b H1 ltac:(by left))). lia.
Qed.

Lemma given_ext h : h ∈ nodes t -> iv_start (given h) <= iv_start (ivl m h) /\ iv_end (ivl m h) <= iv_end (given h).
Proof.
  intros Hh. unfold given. cbn [iv_start iv_end]. split; case_bool_decide as E; try lia; apply cut_bounds.
  - apply elem_of_app. right. by apply head_Some_elem_of.
  - by apply head_Some_elem_of.
  - by apply last_Some_elem_of.
Qed.

Lemma given_bounds lo hi h :
  lo <= iv_start (ivl m h) -> iv_end (ivl m h) <= hi -> lo <= iv_start (ivl m b) -> iv_end (ivl m b) <= hi ->
  lo <= iv_start (given h) /\ iv_end (given h) <= hi.
Proof. intros. unfold given. cbn. split; case_bool_decide; lia. Qed.

Lemma given_order j k a c :
  (l1 ++ ks ++ l2) !! j = Some a -> (l1 ++ ks ++ l2) !! k = Some c -> (j < k)%nat -> iv_end (given a) < iv_start (given c).
Proof.
  intros Ha Hc Hjk. pose proof (left_bounds _ _ _ _ _ Hshape Hnested (cut_order j k a c Ha Hc Hjk)) as Hac.
  pose proof cut_siblings_order as Ho. apply side_by_side_app in Ho as (_ & Ho2 & H1b).
  apply (side_by_side_app t [b] l2) in Ho2 as (_ & _ & Hb2). pose proof cut_list_nodup as Hnd.
  assert (Hat : forall i x y, (l1 ++ ks ++ l2) !! i = Some x -> (l1 ++ ks ++ l2) !! y = Some x -> i = y).
  { intros i x y Hi Hy. by eapply NoDup_lookup. }
  unfold given. cbn [iv_start iv_end].
  assert (Hlast : last (l1 ++ ks) = Some a -> (length (l1 ++ ks) <= k)%nat).
  { intros E. rewrite last_lookup in E. assert (j = pred (length (l1 ++ ks))) as ->; [|lia]. apply (Hat _ a); [done|].
    rewrite app_assoc. by apply lookup_app_l_Some. }
  assert (Hhead : head ks = Some c -> k = length l1).
  { intros E. apply (Hat _ c); [done|]. rewrite lookup_app_r by lia. rewrite Nat.sub_diag.
    destruct ks; [done|]. by simplify_eq/=. }
  case_bool_decide as E1; case_bool_decide as E2; [| | |done].
  - specialize (Hlast E1). specialize (Hhead E2). rewrite length_app in Hlast. destruct ks; [done|]. simpl in *. lia.
  - rewrite app_assoc, lookup_app_r in Hc by auto. apply list_elem_of_lookup_2 in Hc.
    eapply left_bounds; [done..|]. apply Hb2; [by left|done].
  - specialize (Hhead E2) as ->. rewrite lookup_app_l in Ha by done. apply list_elem_of_lookup_2 in Ha.
    eapply left_bounds; [done..|]. apply H1b; [done|by left].
Qed.

Lemma cut_below h : h = b \/ h ∈ l1 ++ ks ++ l2 -> exists k, k ∈ kids tP /\ h ∈ nodes k.
Proof.
  rewrite !elem_of_app. intros [->|H]; [exists tb; split; [apply cut_kid|apply nodes_self]|].
  destruct H as [H|[H|H]]; apply list_elem_of_In, in_map_iff in H as (y & <- & Hy%list_elem_of_In).
  - exists y. rewrite Hkids. split; [set_solver|apply nodes_self].
  - exists tb. split; [apply cut_kid|]. eapply nodes_kid; [done|apply nodes_self].
  - exists y. rewrite Hkids. split; [set_solver|apply nodes_self].
Qed.

Lemma cut_above h : h = b \/ h ∈ l1 ++ ks ++ l2 -> anc t (label tP) h /\ h <> label tP.
Proof.
  intros (k & Hk & Hh)%cut_below. split; [exists tP; split_and!; [done..|by eapply nodes_kid]|]. intros ->.
  pose proof (NoDup_sub _ _ cut_nodup HP) as Hnd. destruct tP as [l us]. cbn [nodes kids label] in *.
  apply NoDup_cons in Hnd as [H _]. apply H, elem_concat_map. eauto.
Qed.

Lemma given_parent : given (label tP) = ivl m (label tP).
Proof. apply given_plain. intros H. apply (proj2 (cut_above (label tP) ltac:(right; set_solver))). done. Qed.

Lemma given_inside : inside (iv_start (ivl m (label tP))) (iv_end (ivl m (label tP)) - 1) (map given (l1 ++ ks ++ l2)).
Proof.
  assert (Hb : forall h, h = b \/ h ∈ l1 ++ ks ++ l2 ->
    iv_start (ivl m (label tP)) <= iv_start (ivl m h) /\ iv_end (ivl m h) <= iv_end (ivl m (label tP)) - 1).
  { intros h [Ha Hne]%cut_above. destruct (anc_bounds _ _ _ _ _ Hshape Hnested Ha) as (? & ? & Hlt).
    specialize (Hlt Hne). lia. }
  apply inside_intro.
  - intros i (h & -> & Hh)%list_elem_of_fmap. pose proof (cut_members h Hh) as Ht.
    pose proof (given_ext h Ht). pose proof (nested_pos _ _ h Hnested Ht).
    destruct (Hb h) as [? ?]; [auto|]. destruct (Hb b) as [? ?]; [auto|].
    destruct (given_bounds (iv_start (ivl m (label tP))) (iv_end (ivl m (label tP)) - 1) h); lia.
  - intros j k i i' Hi Hk Hjk. apply list_lookup_fmap_Some in Hi as (a & -> & Ha), Hk as (c & -> & Hc).
    by eapply given_order.
Qed.

Lemma cut_child_of y c : y ∈ subtrees t -> c ∈ map label (kids y) ->
  (c = b -> y = tP) /\ (c ∈ l1 ++ ks -> y = tP \/ y = tb).
Proof.
  intros Hy (z & <- & Hz%list_elem_of_In)%list_elem_of_In%in_map_iff.
  assert (Hsame : forall z' y', label z = label z' -> z' ∈ kids y' -> y' ∈ subtrees t -> y = y').
  { intros z' y' E Hz' Hy'. assert (z = z') as ->.
    { eapply label_inj; [apply cut_nodup|exact (subtrees_kid_of _ _ _ Hy Hz)|exact (subtrees_kid_of _ _ _ Hy' Hz')|done]. }
    exact (parent_unique _ _ _ _ _ _ cut_nodup Hshape Hy Hy' Hz Hz'). }
  split; [intros E; exact (Hsame _ _ E cut_kid HP)|].
  intros [H|H]%elem_of_app; apply list_elem_of_In, in_map_iff in H as (y' & E & Hy'%list_elem_of_In).
  - left. eapply (Hsame y'); [done| |done]. rewrite Hkids. set_solver.
  - right. exact (Hsame _ _ (eq_sym E) Hy' cut_sub).
Qed.

Lemma cut_not_root : label t <> b.
Proof.
  intros E. destruct (cut_above b (or_introl eq_refl)) as [Ha Hne]. apply Hne.
  eapply anc_antisym; [done..| |done]. rewrite <-E. exists t. split_and!; [apply subtrees_self|done|].
  eapply nodes_sub; [exact HP|apply nodes_self].
Qed.

(** [m'] is [m] without the block. *)
Context (m' : blocks).
Hypothesis Hcut : forall h, h ∈ nodes t -> h <> b -> m' !! h = (fun d => cut_data (given h) d) <$> m !! h.

Lemma cut_chl h : h <> b -> h ∈ nodes t -> chl m' h = subst_block b ks (chl m h).
Proof. intros Hh Ht. unfold chl. rewrite (Hcut h Ht Hh). by destruct (m !! h). Qed.

Lemma cut_ivl h : h <> b -> h ∈ nodes t -> ivl m' h = given h.
Proof.
  intros Hh Ht. destruct (shape_lookup _ _ _ _ Hshape Ht) as [d E]. unfold ivl at 1. by rewrite (Hcut h Ht Hh), E.
Qed.

Lemma cut_local h : h ∈ nodes t -> h <> b -> local_ok m' h.
Proof.
  intros Hh Hne. destruct (Hnested h Hh) as [[Hl Hu Hw] Hp Hin]. pose proof (given_ext h Hh) as [He1 He2].
  assert (Hbt : b ∈ nodes t) by (eapply nodes_sub; [apply cut_sub|apply nodes_self]).
  destruct (Hnested b Hbt) as [[Hl' Hu' _] _ _]. unfold width in Hp.
  destruct (given_bounds 1 (U64_MAX - 1) h) as [??]; [lia..|].
  split; rewrite ?cut_ivl, ?cut_chl by done; [split; lia|unfold width; lia|].
  apply nodes_subtree in Hh as (y & Hy & <-). destruct (shape_sub _ _ _ _ Hshape Hy) as [py Hsy].
  rewrite (shape_chl _ _ _ Hsy) in *. destruct (decide (label y = label tP)) as [E|HyP].
  - assert (y = tP) as -> by (eapply label_inj; [apply cut_nodup|done..]).
    rewrite Hkids, map_app. cbn [map]. destruct cut_not_self as (H1 & H2 & H3). rewrite subst_block_middle by done.
    rewrite given_parent. erewrite map_ext_in; [apply given_inside|].
    intros a Ha%list_elem_of_In. apply cut_ivl; [|by apply cut_members]. intros ->. set_solver.
  - rewrite subst_block_id by (intros Hb; apply HyP; f_equal; by apply (cut_child_of y b Hy Hb)).
    erewrite map_ext_in; [eapply inside_mono; [exact Hin|lia..]|].
    intros a Ha%list_elem_of_In. destruct (cut_child_of y a Hy Ha) as [Ha1 Ha2]. rewrite cut_ivl.
    + apply given_plain. intros [?|?]%Ha2; by subst y.
    + intros ?%Ha1. by subst y.
    + apply list_elem_of_In, in_map_iff in Ha as (z & <- & Hz%list_elem_of_In).
      apply nodes_subtree. exists z. split; [exact (subtrees_kid_of _ _ _ Hy Hz)|done].
Qed.

Lemma cut_shape_below p0 u : shape m p0 u -> u ∈ subtrees t -> b ∉ nodes u ->
  shape m' (if bool_decide (p0 = b) then label tP else p0) u.
Proof.
  revert p0. induction u as [h ts IH] using rtree_ind'. intros p0. rewrite !shape_node, Forall_forall in *.
  intros [(d & E & Hp & Hc) Hs] Hu Hb. cbn [nodes] in Hb. apply not_elem_of_cons in Hb as [Hbh Hb]. split.
  - exists (cut_data (given h) d). rewrite Hcut, E by (done || exact (nodes_sub _ _ _ Hu (nodes_self (Node h ts)))). split_and!; [done|by rewrite <-Hp|]. cbn. rewrite Hc.
    apply subst_block_id. intros (z & Ez & Hz%list_elem_of_In)%list_elem_of_In%in_map_iff. apply Hb, elem_concat_map.
    exists z. split; [done|]. rewrite <-Ez. apply nodes_self.
  - apply Forall_forall. intros z Hz. assert (shape m' (if bool_decide (h = b) then label tP else h) z) as H.
    { apply (IH z Hz h); [by apply Hs|exact (subtrees_kid_of _ (Node h ts) _ Hu Hz)|]. intros Hn. apply Hb, elem_concat_map. eauto. }
    by rewrite bool_decide_false in H.
Qed.

Lemma cut_shape p0 u : shape m p0 u -> u ∈ subtrees t -> label u <> b -> p0 <> b -> shape m' p0 (contract b u).
Proof.
  revert p0. induction u as [h ts IH] using rtree_ind'. intros p0. cbn [contract label]. rewrite !shape_node, Forall_forall in *.
  intros [(d & E & Hp & Hc) Hs] Hu Hh Hp0. split.
  - exists (cut_data (given h) d). rewrite Hcut, E by (done || exact (nodes_sub _ _ _ Hu (nodes_self (Node h ts)))). split_and!; [done|cbn; rewrite Hp; by rewrite bool_decide_false|].
    cbn. rewrite Hc. unfold subst_block. rewrite concat_map, !map_map. f_equal. apply map_ext_in. intros c Hc'%list_elem_of_In.
    case_bool_decide as Ec; [|cbn; by rewrite label_contract].
    assert (c = tb) as ->; [|done]. eapply label_inj; [apply cut_nodup|exact (subtrees_kid_of _ (Node h ts) _ Hu Hc')|apply cut_sub|done].
  - apply Forall_forall. intros z (c & Hc' & [[Ec Hz]|[Ec ->]])%elem_contract_kids.
    + assert (Hct : c ∈ subtrees t) by exact (subtrees_kid_of _ (Node h ts) _ Hu Hc').
      assert (c = tb) as -> by (eapply label_inj; [apply cut_nodup|done|apply cut_sub|done]).
      assert (EP : Node h ts = tP) by (apply (parent_unique _ _ _ _ _ tb cut_nodup Hshape Hu HP Hc' cut_kid)).
      pose proof (cut_shape_below b z (shape_kids _ _ _ _ (Hs _ Hc') Hz) (subtrees_kid_of _ _ _ cut_sub Hz)) as Hz2. rewrite bool_decide_true in Hz2 by done.
      rewrite <-EP in Hz2. apply Hz2. intros Hb. pose proof (NoDup_sub _ _ cut_nodup cut_sub) as Hnd. destruct tb as [l us]. cbn [nodes kids label] in *.
      apply NoDup_cons in Hnd as [Hn _]. apply Hn, elem_concat_map. eauto.
    + apply IH; [done|by apply Hs|exact (subtrees_kid_of _ (Node h ts) _ Hu Hc')|done..].
Qed.

Lemma cut_nested : nested m' (contract b t).
Proof. intros h [Hh Hne]%nodes_contract; [|apply cut_nodup|apply cut_not_root]. by apply cut_local. Qed.

(** The order of two other blocks is kept. *)
Lemma cut_left_of x y : p <> b -> left_of t x y -> x <> b -> y <> b -> left_of (contract b t) x y.
Proof.
  intros Hp Hxy Hx Hy. destruct (left_not_anc _ _ _ _ _ Hshape Hnested Hxy) as [H1 H2].
  assert (Hin : x ∈ nodes t /\ y ∈ nodes t).
  { destruct Hxy as (ta & u1 & t1 & u2 & t2 & u3 & Hta & Hk & Ha & Hb).
    split; (eapply nodes_sub; [exact Hta|]; eapply nodes_kid; [|done]); rewrite Hk; set_solver. }
  pose proof (left_bounds _ _ _ _ _ Hshape Hnested Hxy). destruct Hin as [Hxt Hyt].
  pose proof (nested_pos _ _ x Hnested Hxt). pose proof (nested_pos _ _ y Hnested Hyt).
  pose proof (given_ext x Hxt). pose proof (given_ext y Hyt).
  destruct (tree_trichotomy (contract b t) x y) as [Ha|[Ha|[?|Ha]]]; [..|done|].
  - apply nodes_contract; [apply cut_nodup|apply cut_not_root|done].
  - apply nodes_contract; [apply cut_nodup|apply cut_not_root|done].
  - apply anc_contract in Ha as (? & _); [done|apply cut_nodup|apply cut_not_root].
  - apply anc_contract in Ha as (? & _); [done|apply cut_nodup|apply cut_not_root].
  - apply (left_bounds m' p) in Ha; [|apply cut_shape; [done|apply subtrees_self|apply cut_not_root|done]|apply cut_nested].
    rewrite !cut_ivl in Ha by done. lia.
Qed.
End cut.
