(* ===== verification/ReachDelete.v ===== *)
(** [delete_block]: removing a block hands its children to its parent in the
    tree and in the future covering sets; all queries between the other blocks
    keep their answers, as the comment of the code claims. *)

From S2P Require Import Prelude Access Interval Reach ReachTree ReachQueries ReachCount ReachPropagate ReachSides ReachReclaim ReachInsert ReachDag ReachCut.

Lemma splice_middle {A} (l1 cs l2 : list A) x :
  take (length l1) (l1 ++ x :: l2) ++ cs ++ drop (S (length l1)) (l1 ++ x :: l2) = l1 ++ cs ++ l2.
Proof.
  rewrite take_app_length. do 2 f_equal. rewrite cons_middle, app_assoc.
  replace (S (length l1)) with (length (l1 ++ [x])) by (rewrite length_app; simpl; lia). apply drop_app_length.
Qed.

Lemma rev_case {A} (l : list A) : l = [] \/ exists x l', l = l' ++ [x].
Proof. destruct l as [|x l] using rev_ind; eauto. Qed.

Lemma anc_trans t a c e : NoDup (nodes t) -> anc t a c -> anc t c e -> anc t a e.
Proof.
  intros Hnd (ta & Hta & <- & Hc) (tc & Htc & <- & He). exists ta. split_and!; [done..|].
  apply nodes_subtree in Hc as (tc' & Htc' & E).
  rewrite (label_inj _ _ _ Hnd (subtrees_trans _ _ _ Htc' Hta) Htc E) in Htc'. by eapply nodes_sub.
Qed.

Lemma side_by_side_anc m p t l a c :
  shape m p t -> nested m t -> side_by_side t l -> a ∈ l -> c ∈ l -> anc t a c -> a = c.
Proof.
  intros Hs Hn Ho [i Hi]%list_elem_of_lookup [j Hj]%list_elem_of_lookup Ha.
  destruct (Nat.lt_trichotomy i j) as [Hlt|[->|Hgt]]; [exfalso|congruence|exfalso].
  - by apply (proj1 (left_not_anc _ _ _ _ _ Hs Hn (Ho i j a c Hi Hj Hlt))).
  - by apply (proj2 (left_not_anc _ _ _ _ _ Hs Hn (Ho j i c a Hj Hi Hgt))).
Qed.

Lemma anc_of_child m p t tP tb x :
  shape m p t -> NoDup (nodes t) -> tP ∈ subtrees t -> tb ∈ kids tP -> anc t x (label tb) -> x <> label tb -> anc t x (label tP).
Proof.
  intros Hs Hnd HP Hb (tx & Htx & <- & Hx) Hne. exists tx. split_and!; [done..|].
  apply nodes_subtree in Hx as (tb' & Htb' & E).
  assert (tb' = tb) as ->.
  { eapply label_inj; [done|exact (subtrees_trans _ _ _ Htb' Htx)|exact (subtrees_kid_of _ _ _ HP Hb)|done]. }
  destruct (subtree_parent tx tb Htb') as [->|(y & Hy & Hk)]; [done|].
  rewrite (parent_unique _ _ _ tP y tb Hnd Hs HP (subtrees_trans _ _ _ Hy Htx) Hb Hk).
  eapply nodes_sub; [exact Hy|apply nodes_self].
Qed.

Lemma anc_below t tb y :
  NoDup (nodes t) -> tb ∈ subtrees t -> anc t (label tb) y -> y <> label tb -> exists k, k ∈ kids tb /\ anc t (label k) y.
Proof.
  intros Hnd Hb (tb' & Htb' & E & Hy) Hne. rewrite (label_inj _ _ _ Hnd Htb' Hb E) in Hy.
  destruct tb as [l us]. apply nodes_node in Hy as [->|(k & Hk & Hy)]; [done|]. exists k. split; [done|].
  exists k. split_and!; [exact (subtrees_kid_of _ (Node l us) _ Hb Hk)|done..].
Qed.

Section delete.
Context {T : Type} `{RS : ReachabilityStore T, RL : !ReachabilityStoreLaws T}.
Context (s : T) (t tP tb : rtree) (T1 T2 : list rtree) (D : hash -> hash -> Prop).
Hypothesis Hg : represents_dag s t D.
Hypothesis HP : tP ∈ subtrees t.
Hypothesis Hkids : kids tP = T1 ++ tb :: T2.
Abbreviation b := (label tb).
Abbreviation ks := (map label (kids tb)).
Abbreviation l1 := (map label T1).
Abbreviation l2 := (map label T2).
Abbreviation m := (view s).

Lemma del_shape : shape m NONE t.
Proof. apply Hg. Qed.

Lemma del_nested : nested m t.
Proof. apply Hg. Qed.

Lemma del_nodup : NoDup (nodes t).
Proof. eapply nested_NoDup; [apply del_shape|apply del_nested]. Qed.

Lemma del_sub : tb ∈ subtrees t.
Proof. exact (cut_sub m NONE t tP tb T1 T2 del_shape del_nested HP Hkids). Qed.

Lemma del_in : b ∈ nodes t.
Proof. eapply nodes_sub; [apply del_sub|apply nodes_self]. Qed.

Lemma del_stored h : h ∈ nodes t -> is_Some (m !! h).
Proof. apply shape_lookup with NONE, del_shape. Qed.

(** A block while the deletion is under way: the new parent is set for the
    children [ps] and the future covering sets of [M] are updated. *)
Definition stage (ps M : list hash) (iv : hash -> Interval) (h : hash) (d : MemoryReachabilityData) : MemoryReachabilityData :=
  mk_data (if bool_decide (h = label tP) then l1 ++ ks ++ l2 else rd_children d)
          (if bool_decide (h ∈ ps) then label tP else rd_parent d) (iv h) (rd_height d)
          (if bool_decide (h ∈ M) then subst_block b ks (rd_fcs d) else rd_fcs d).

Record at_stage (ps M : list hash) (iv : hash -> Interval) (s' : T) : Prop := {
  sg_ok : store_ok s';
  sg_root : root_of s' = root_of s;
  sg_fresh : forall x, fresh s x -> fresh s' x;
  sg_view : forall h, view s' !! h = stage ps M iv h <$> m !! h;
}.

Lemma sg_step ps M iv ps' M' iv' s' s'' h d d' :
  at_stage ps M iv s' -> m !! h = Some d -> updated s' s'' (<[h := d']> (view s')) ->
  d' = stage ps' M' iv' h d ->
  (forall x y, x <> h -> stage ps M iv x y = stage ps' M' iv' x y) ->
  at_stage ps' M' iv' s''.
Proof.
  intros [Hok Hr Hf Hv] E (Hok' & Hv' & Hr' & Hf') -> Hx. split; [done|congruence|auto|].
  intros x. rewrite Hv'. destruct (decide (x = h)) as [->|Hne].
  - by rewrite lookup_insert_eq, E.
  - rewrite lookup_insert_ne, Hv by done. destruct (m !! x); [|done]. cbn. by rewrite Hx.
Qed.

Lemma sg_lookup ps M iv s' h d : at_stage ps M iv s' -> m !! h = Some d -> view s' !! h = Some (stage ps M iv h d).
Proof. intros H E. by rewrite (sg_view _ _ _ _ H), E. Qed.

Lemma sg_ivl ps M iv s' h : at_stage ps M iv s' -> is_Some (m !! h) -> ivl (view s') h = iv h.
Proof. intros H [d E]. unfold ivl. by rewrite (sg_lookup _ _ _ _ _ _ H E). Qed.

Lemma sg_iv_ext ps M iv iv' s' : (forall h, is_Some (m !! h) -> iv h = iv' h) -> at_stage ps M iv s' -> at_stage ps M iv' s'.
Proof.
  intros Hiv [Hok Hr Hf Hv]. split; [done..|]. intros h. rewrite Hv. destruct (m !! h) eqn:E; [|done]. cbn.
  unfold stage. by rewrite Hiv by eauto.
Qed.

(** Searching the block among ordered blocks before any interval changes. *)
Lemma search_self s' l k :
  store_ok s' -> (forall h, h ∈ nodes t -> is_Some (view s' !! h) /\ ivl (view s') h = ivl m h) -> Forall (fun h => h ∈ nodes t) l -> side_by_side t l -> l !! k = Some b ->
  binary_search_descendant s' l b = Ok (Found b k).
Proof.
  intros Hs Hiv' Hl Ho Hk. rewrite Forall_forall in Hl.
  assert (Hiv : forall h, h ∈ nodes t -> ivl (view s') h = ivl m h) by (intros; by apply Hiv').
  assert (Hst : forall h, h ∈ nodes t -> is_Some (view s' !! h)) by (intros; by apply Hiv').
  pose proof (nested_pos _ _ b del_nested del_in) as Hpos.
  assert (Hlt : forall i j x y, l !! i = Some x -> l !! j = Some y -> (i < j)%nat -> iv_end (ivl m x) < iv_start (ivl m y)).
  { intros i j x y Hi Hj Hij. eapply left_bounds; [apply del_shape|apply del_nested|by apply (Ho i j)]. }
  apply search_hit; [done|auto|apply Hst, del_in| |done|..]; rewrite ?Hiv by apply del_in.
  - intros i j x y Hi Hj Hij. pose proof (list_elem_of_lookup_2 _ _ _ Hi) as Hx. pose proof (list_elem_of_lookup_2 _ _ _ Hj) as Hy.
    rewrite !Hiv by auto. pose proof (Hlt i j x y Hi Hj Hij). pose proof (nested_pos _ _ x del_nested (Hl x Hx)). lia.
  - unfold contains. rewrite andb_true_iff, !Z.leb_le. lia.
  - unfold width. lia.
  - intros j x Hj Hkj. rewrite (Hiv x) by (eapply Hl, list_elem_of_lookup_2; done). by apply (Hlt k j).
Qed.

Lemma sg_same ps M s' :
  at_stage ps M (ivl m) s' -> forall h, h ∈ nodes t -> is_Some (view s' !! h) /\ ivl (view s') h = ivl m h.
Proof.
  intros Hs h [d E]%del_stored. rewrite (sg_lookup _ _ _ _ _ _ Hs E). split; [eauto|]. apply (sg_ivl _ _ _ _ _ Hs). eauto.
Qed.

Lemma set_parents_run ps cs s' :
  at_stage ps [] (ivl m) s' -> (forall c, c ∈ cs -> c ∈ nodes t) ->
  exists s'', for_each (fun child => update (rs_set_parent child (label tP))) cs s' = (s'', Ok tt) /\
    at_stage (ps ++ cs) [] (ivl m) s''.
Proof.
  revert ps s'. induction cs as [|c cs IH]; intros ps s' Hs Hcs; cbn [for_each].
  { exists s'. by rewrite app_nil_r. }
  destruct (del_stored c) as [d E]; [apply Hcs; by left|].
  destruct (law_set_parent s' c _ (label tP) (sg_ok _ _ _ _ Hs) (sg_lookup _ _ _ _ _ _ Hs E)) as (s1 & Hr & Hu).
  erewrite st_bind_run by (unfold update, map_err; by rewrite Hr).
  rewrite cons_middle, app_assoc. apply IH; [|intros; apply Hcs; by right].
  eapply sg_step; [exact Hs|exact E|exact Hu|..].
  - unfold stage, with_parent. cbn. rewrite (bool_decide_true (c ∈ ps ++ [c])) by set_solver. done.
  - intros x y Hx. unfold stage. f_equal. by rewrite (bool_decide_ext (x ∈ ps ++ [c]) (x ∈ ps)) by set_solver.
Qed.

Lemma fcs_splice x f1 f2 :
  fcs m x = f1 ++ b :: f2 ->
  subst_block b ks (fcs m x) = f1 ++ ks ++ f2 /\ side_by_side t (f1 ++ ks ++ f2) /\ NoDup (f1 ++ ks ++ f2).
Proof.
  intros Hf. pose proof (rg_fcs_order _ _ _ Hg x) as Ho. pose proof (rg_fcs_in _ _ _ Hg x) as Hin. rewrite Hf in *.
  assert (NoDup (f1 ++ b :: f2)) as (_ & H1 & [H2 _]%NoDup_cons)%NoDup_app.
  { eapply side_by_side_NoDup; [apply del_shape|apply del_nested|done..]. }
  assert (Hks : forall k, k ∈ ks -> anc t b k) by (apply (cut_anc m NONE t tP tb T1 T2 del_shape del_nested HP Hkids)).
  assert (side_by_side t (f1 ++ ks ++ f2)).
  { eapply side_by_side_splice; [apply del_nodup|done|apply kids_side_by_side, del_sub|done]. }
  split_and!; [apply subst_block_middle; [intros H'; apply (H1 _ H'); by left|done]|done|].
  eapply side_by_side_NoDup; [apply del_shape|apply del_nested| |done]. apply Forall_forall.
  intros h [Hh|[Hh|Hh]%elem_of_app]%elem_of_app; rewrite Forall_forall in Hin.
  - apply Hin. set_solver.
  - exact (proj2 (anc_nodes _ _ _ (Hks h Hh))).
  - apply Hin. set_solver.
Qed.

Lemma replace_fcs_run ps M0 M s' :
  at_stage ps M0 (ivl m) s' -> NoDup (M0 ++ M) -> (forall x, x ∈ M -> b ∈ fcs m x) ->
  exists s'', for_each (replace_in_future_covering_set b ks) M s' = (s'', Ok tt) /\
    at_stage ps (M0 ++ M) (ivl m) s''.
Proof.
  revert M0 s'. induction M as [|x M IH]; intros M0 s' Hs Hnd HM; cbn [for_each].
  { exists s'. by rewrite app_nil_r. }
  assert (Hbx : b ∈ fcs m x) by (apply HM; by left). destruct (fcs_nodes _ _ _ _ _ Hg Hbx) as [Hx _].
  destruct (del_stored x Hx) as [d E]. pose proof (sg_lookup _ _ _ _ _ _ Hs E) as Es.
  assert (HxM0 : x ∉ M0). { apply NoDup_app in Hnd as (_ & H & _). intros H0. apply (H x H0). by left. }
  assert (Ef : fcs m x = rd_fcs d) by (unfold fcs; by rewrite E). rewrite Ef in Hbx.
  pose proof (rg_fcs_order _ _ _ Hg x) as Ho. pose proof (rg_fcs_in _ _ _ Hg x) as Hin. rewrite Ef in Ho, Hin.
  apply list_elem_of_split in Hbx as (f1 & f2 & Hf).
  assert (Hk : rd_fcs d !! length f1 = Some b) by (by rewrite Hf, list_lookup_middle).
  destruct (law_replace_fci s' x _ b (length f1) ks (sg_ok _ _ _ _ Hs) Es) as (s1 & Hr & Hu).
  { cbn. by rewrite bool_decide_false. }
  { cbn. rewrite bool_decide_false by done. rewrite Hf, splice_middle. apply (fcs_splice x). by rewrite Ef. }
  assert (Hrun : replace_in_future_covering_set b ks x s' = (s1, Ok tt)).
  { unfold replace_in_future_covering_set. erewrite st_bind_run.
    2:{ unfold query. rewrite (law_fcs _ _ _ (sg_ok _ _ _ _ Hs) Es). cbn. rewrite bool_decide_false by done.
        by rewrite (search_self s' _ _ (sg_ok _ _ _ _ Hs) (sg_same _ _ _ Hs) Hin Ho Hk). }
    unfold update_set, map_err. by rewrite Hr. }
  erewrite st_bind_run by exact Hrun.
  rewrite cons_middle, app_assoc in Hnd |- *. apply IH; [|done|intros; apply HM; by right].
  eapply sg_step; [exact Hs|exact E|exact Hu|..].
  - unfold stage, with_fcs. cbn. rewrite (bool_decide_false (x ∈ M0)), (bool_decide_true (x ∈ M0 ++ [x])) by set_solver.
    destruct (fcs_splice x f1 f2) as [Hsp _]; [by rewrite Ef|]. f_equal. rewrite <-Ef, Hsp, Ef, Hf. apply splice_middle.
  - intros y z Hy. unfold stage. f_equal. by rewrite (bool_decide_ext (y ∈ M0 ++ [x]) (y ∈ M0)) by set_solver.
Qed.

Lemma stage_start s' d :
  m !! label tP = Some d -> updated s s' (<[label tP := with_children d (l1 ++ ks ++ l2)]> m) -> at_stage [] [] (ivl m) s'.
Proof.
  intros E (Hok & Hv & Hr & Hf). split; [done..|]. intros h. rewrite Hv. destruct (decide (h = label tP)) as [->|Hne].
  - rewrite lookup_insert_eq, E. unfold stage, with_children. cbn. rewrite bool_decide_true by done. unfold ivl. by rewrite E.
  - rewrite lookup_insert_ne by done. destruct (m !! h) as [d'|] eqn:E'; [|done]. unfold stage. cbn.
    rewrite bool_decide_false by done. unfold ivl. rewrite E'. by destruct d'.
Qed.

Lemma give_run ps M iv s' h i :
  at_stage ps M iv s' -> h ∈ nodes t ->
  exists s'', update (rs_set_interval h i) s' = (s'', Ok tt) /\ at_stage ps M (fun x => if bool_decide (x = h) then i else iv x) s''.
Proof.
  intros Hs [d E]%del_stored.
  destruct (law_set_interval s' h _ i (sg_ok _ _ _ _ Hs) (sg_lookup _ _ _ _ _ _ Hs E)) as (s1 & Hr & Hu).
  exists s1. split; [unfold update, map_err; by rewrite Hr|]. eapply sg_step; [exact Hs|exact E|exact Hu|..].
  - unfold stage, with_interval. cbn. by rewrite (bool_decide_true (h = h)).
  - intros x y Hx. unfold stage. by rewrite (bool_decide_false (x = h)).
Qed.

Lemma read_interval ps M iv s' h :
  at_stage ps M iv s' -> h ∈ nodes t -> query (fun s => stored (rs_get_interval s h)) s' = (s', Ok (iv h)).
Proof.
  intros Hs Hh. unfold query. destruct (del_stored h Hh) as [d E].
  by rewrite (law_interval _ _ _ (sg_ok _ _ _ _ Hs) (sg_lookup _ _ _ _ _ _ Hs E)).
Qed.

Lemma give_to_sibling ps M s' :
  at_stage ps M (ivl m) s' -> ks = [] ->
  exists s'', give_capacity (ivl m b) (label tP) (length l1) [] s' = (s'', Ok tt) /\ at_stage ps M (given m tb T1) s''.
Proof.
  intros Hs Eks. pose proof (cut_members m NONE t tP tb T1 T2 del_shape del_nested HP Hkids) as Hin.
  unfold given. rewrite Eks in *. rewrite app_nil_r. cbn [head]. destruct (rev_case T1) as [E1|(u & U1 & E1)].
  - rewrite E1. exists s'. split; [done|]. eapply sg_iv_ext; [|exact Hs]. intros h _. cbn. by destruct (ivl m h).
  - assert (El : l1 = map label U1 ++ [label u]) by (by rewrite E1, map_app). rewrite El in *.
    assert (Hu : label u ∈ nodes t) by (apply Hin; set_solver). rewrite length_app, Nat.add_comm. cbn [length Nat.add give_capacity].
    destruct (del_stored (label tP)) as [d Ed]; [eapply nodes_sub; [exact HP|apply nodes_self]|].
    erewrite st_bind_run.
    2:{ unfold query. rewrite (law_children _ _ _ (sg_ok _ _ _ _ Hs) (sg_lookup _ _ _ _ _ _ Hs Ed)).
        cbn [stored stored_set mbind result_bind stage rd_children]. rewrite bool_decide_true by done. rewrite El, Eks, <-app_assoc.
        cbn [app]. by rewrite list_lookup_middle by done. }
    erewrite st_bind_run by exact (read_interval _ _ _ _ _ Hs Hu).
    destruct (give_run _ _ _ _ (label u) (Interval_new (iv_start (ivl m (label u))) (iv_end (ivl m b))) Hs Hu) as (s'' & Hr & Hs'').
    exists s''. split; [done|]. eapply sg_iv_ext; [|exact Hs'']. intros h _. cbn. rewrite last_snoc.
    repeat case_bool_decide; simplify_eq; try done; by destruct (ivl m h).
Qed.

Lemma give_capacity_run ps M s' :
  at_stage ps M (ivl m) s' ->
  exists s'', give_capacity (ivl m b) (label tP) (length l1) ks s' = (s'', Ok tt) /\ at_stage ps M (given m tb T1) s''.
Proof.
  intros Hs. destruct (rev_case ks) as [Eks|(c & cs & Eks)]; [rewrite Eks; by apply give_to_sibling|].
  pose proof (cut_members m NONE t tP tb T1 T2 del_shape del_nested HP Hkids) as Hin.
  pose proof (cut_list_nodup m NONE t tP tb T1 T2 del_shape del_nested HP Hkids) as Hnd.
  unfold given. rewrite Eks in *. assert (Hc : c ∈ nodes t) by (apply Hin; set_solver).
  rewrite app_assoc, last_snoc. destruct cs as [|c0 cs].
  - cbn [app give_capacity head].
    destruct (give_run _ _ _ _ c (ivl m b) Hs Hc) as (s'' & Hr & Hs''). exists s''. split; [done|].
    eapply sg_iv_ext; [|exact Hs'']. intros h _. cbn. repeat case_bool_decide; simplify_eq; (first [done|by destruct (ivl m b)|by destruct (ivl m h)]).
  - assert (Hc0 : c0 ∈ nodes t) by (apply Hin; set_solver).
    assert (Hne : c0 <> c).
    { apply NoDup_app in Hnd as (_ & _ & Hnd). rewrite <-app_assoc in Hnd. cbn [app] in Hnd.
      apply NoDup_cons in Hnd as [Hn _]. intros ->. apply Hn. set_solver. }
    assert (Egive : forall k, give_capacity (ivl m b) (label tP) k ((c0 :: cs) ++ [c]) =
      (first_interval ← query (fun s => stored (rs_get_interval s c0));
       _ ← update (rs_set_interval c0 (Interval_new (iv_start (ivl m b)) (iv_end first_interval)));
       last_child ← lift (assert_some (last ((c0 :: cs) ++ [c])));
       last_interval ← query (fun s => stored (rs_get_interval s last_child));
       update (rs_set_interval last_child (Interval_new (iv_start last_interval) (iv_end (ivl m b)))))).
    { intros k. by destruct cs. }
    rewrite Egive, last_snoc.
    erewrite st_bind_run by exact (read_interval _ _ _ _ _ Hs Hc0).
    destruct (give_run _ _ _ _ c0 (Interval_new (iv_start (ivl m b)) (iv_end (ivl m c0))) Hs Hc0) as (s1 & Hr1 & Hs1).
    erewrite st_bind_run by exact Hr1. erewrite st_bind_run by reflexivity.
    erewrite st_bind_run by exact (read_interval _ _ _ _ _ Hs1 Hc). rewrite bool_decide_false by done.
    destruct (give_run _ _ _ _ c (Interval_new (iv_start (ivl m c)) (iv_end (ivl m b))) Hs1 Hc) as (s2 & Hr2 & Hs2).
    exists s2. split; [done|]. eapply sg_iv_ext; [|exact Hs2]. intros h _. cbn.
    repeat case_bool_decide; simplify_eq; try done; by destruct (ivl m h).
Qed.

Lemma del_ne_none : NONE <> b.
Proof. intros E. apply (rg_none _ _ _ Hg). rewrite E. apply del_in. Qed.

Lemma anc_of_deleted x : anc t x b -> x <> b -> anc t x (label tP).
Proof. apply (anc_of_child m NONE); [apply del_shape|apply del_nodup|done|rewrite Hkids; set_solver]. Qed.

Lemma anc_parent_deleted : anc t (label tP) b /\ b <> label tP.
Proof. apply (cut_above m NONE t tP tb T1 T2 del_shape del_nested HP Hkids). auto. Qed.

(** The blocks with the deleted block in their future covering set are its
    mergeset. *)
Lemma covered_by_deleted x : b ∈ fcs m x <-> x <> b /\ D x b /\ ~ D x (label tP).
Proof.
  destruct anc_parent_deleted as [HaP HneP]. split.
  - intros Hb. destruct (rg_fcs_apart _ _ _ Hg x b Hb) as [H1 H2]. split_and!.
    + intros ->. apply H1, anc_refl, del_in.
    + apply (rg_rel _ _ _ Hg). right. exists b. split; [done|apply anc_refl, del_in].
    + intros [Ha|(f & Hf & Ha)]%(rg_rel _ _ _ Hg).
      * apply H1. eapply anc_trans; [apply del_nodup|exact Ha|exact HaP].
      * assert (f = b) as ->.
        { eapply side_by_side_anc; [apply del_shape|apply del_nested|apply (rg_fcs_order _ _ _ Hg x)|done..|].
          eapply anc_trans; [apply del_nodup|exact Ha|exact HaP]. }
        apply HneP. eapply anc_antisym; [apply del_shape|apply del_nested|done..].
  - intros (Hne & [Ha|(f & Hf & Ha)]%(rg_rel _ _ _ Hg) & Hno).
    + exfalso. apply Hno, (rg_rel _ _ _ Hg). left. by apply anc_of_deleted.
    + destruct (decide (f = b)) as [->|Hfb]; [done|]. exfalso. apply Hno, (rg_rel _ _ _ Hg). right. exists f.
      split; [done|]. by apply anc_of_deleted.
Qed.

Lemma deleted_parent h d : h ∈ nodes t -> m !! h = Some d -> rd_parent d = b <-> h ∈ ks.
Proof.
  intros (y & Hy & <-)%nodes_subtree E. split.
  - intros Hp. destruct (subtree_parent t y Hy) as [->|(z & Hz & Hk)].
    + destruct (shape_root _ _ _ del_shape) as (d' & E' & Hp' & _). exfalso. apply del_ne_none. congruence.
    + destruct (shape_parent _ _ _ _ _ del_shape Hz Hk) as (d' & E' & Hp').
      assert (z = tb) as -> by (eapply label_inj; [apply del_nodup|done|apply del_sub|congruence]).
      by apply list_elem_of_In, in_map, list_elem_of_In.
  - intros (z & Ez & Hz%list_elem_of_In)%list_elem_of_In%in_map_iff.
    destruct (shape_parent _ _ _ _ _ del_shape del_sub Hz) as (d' & E' & Hp'). congruence.
Qed.

Lemma stage_end M h d :
  (forall x, x ∈ M <-> b ∈ fcs m x) -> h ∈ nodes t -> m !! h = Some d ->
  stage ks M (given m tb T1) h d = cut_data tP tb (given m tb T1 h) d.
Proof.
  intros HM Hh E. unfold stage, cut_data. pose proof (cut_not_self m NONE t tP tb T1 T2 del_shape del_nested HP Hkids) as (H1 & H2 & _).
  f_equal.
  - apply nodes_subtree in Hh as (y & Hy & <-). destruct (shape_sub _ _ _ _ del_shape Hy) as [py Hsy].
    destruct (shape_root _ _ _ Hsy) as (d' & E' & _ & Hc). assert (d' = d) as -> by congruence. rewrite Hc. case_bool_decide as EP.
    + assert (y = tP) as -> by (eapply label_inj; [apply del_nodup|done..]). rewrite Hkids, map_app. cbn [map].
      by rewrite subst_block_middle.
    + rewrite subst_block_id; [done|]. intros Hb. apply EP. f_equal.
      by apply (cut_child_of m NONE t tP tb T1 T2 del_shape del_nested HP Hkids y b Hy Hb).
  - erewrite bool_decide_ext; [reflexivity|]. by rewrite (deleted_parent h d Hh E).
  - case_bool_decide as Hd; [done|]. rewrite subst_block_id; [done|]. rewrite HM in Hd. unfold fcs in Hd. by rewrite E in Hd.
Qed.

Lemma cut_fcs s' x :
  (forall h, h ∈ nodes t -> h <> b -> view s' !! h = (fun d => cut_data tP tb (given m tb T1 h) d) <$> m !! h) ->
  x ∈ nodes t -> x <> b -> fcs (view s') x = subst_block b ks (fcs m x).
Proof. intros Hcut Hx Hne. unfold fcs. rewrite (Hcut x Hx Hne). by destruct (m !! x). Qed.

Lemma cut_relation (F : hash -> list hash) :
  (forall x, x ∈ nodes t -> x <> b -> F x = subst_block b ks (fcs m x)) -> (forall x, x ∉ nodes t \/ x = b -> F x = []) ->
  forall x y, (D x y /\ x <> b /\ y <> b) <-> anc (contract b t) x y \/ exists f, f ∈ F x /\ anc (contract b t) f y.
Proof.
  intros HF H0 x y. pose proof (cut_not_root m NONE t tP tb T1 T2 del_shape del_nested HP Hkids) as Hroot.
  pose proof (cut_anc m NONE t tP tb T1 T2 del_shape del_nested HP Hkids) as Hks.
  assert (Hin : forall f, f ∈ F x -> x ∈ nodes t /\ x <> b).
  { intros f Hf. destruct (decide (x ∈ nodes t)), (decide (x = b)); [|done|..]; rewrite H0 in Hf by auto; by apply elem_of_nil in Hf. }
  split.
  - intros ([Ha|(f & Hf & Ha)]%(rg_rel _ _ _ Hg) & Hx & Hy); [left; by apply anc_contract; [apply del_nodup|..]|right].
    destruct (fcs_nodes _ _ _ _ _ Hg Hf) as [Hxt _]. rewrite HF by done. destruct (decide (f = b)) as [->|Hfb].
    + destruct (anc_below t tb y del_nodup del_sub Ha Hy) as (k & Hk & Hky). exists (label k).
      assert (label k ∈ ks) as Hkl by (by apply list_elem_of_In, in_map, list_elem_of_In).
      rewrite elem_subst_block, anc_contract by (apply del_nodup || done). split; [auto|split_and!; [done| |done]].
      intros E. by apply (cut_not_self m NONE t tP tb T1 T2 del_shape del_nested HP Hkids); rewrite <-E.
    + exists f. rewrite elem_subst_block, anc_contract by (apply del_nodup || done). auto.
  - intros [(Ha & Hx & Hy)%anc_contract|(f & Hf & (Ha & Hfb & Hy)%anc_contract)]; try (apply del_nodup || done).
    + split_and!; [|done..]. apply (rg_rel _ _ _ Hg). auto.
    + destruct (Hin f Hf) as [Hxt Hx]. split_and!; [|done..]. rewrite HF in Hf by done. apply (rg_rel _ _ _ Hg). right.
      apply elem_subst_block in Hf as [[Hf _]|[Hb Hf]]; [eauto|]. exists b. split; [done|].
      eapply anc_trans; [apply del_nodup|by apply Hks|done].
Qed.

Lemma cut_fcs_order s' x :
  (forall h, h ∈ nodes t -> h <> b -> view s' !! h = (fun d => cut_data tP tb (given m tb T1 h) d) <$> m !! h) ->
  x ∈ nodes t -> x <> b -> side_by_side (contract b t) (fcs (view s') x).
Proof.
  intros Hcut Hx Hne. rewrite (cut_fcs s' x Hcut Hx Hne). pose proof (rg_fcs_order _ _ _ Hg x) as Ho.
  pose proof (cut_not_self m NONE t tP tb T1 T2 del_shape del_nested HP Hkids) as (_ & _ & Hbk).
  assert (side_by_side t (subst_block b ks (fcs m x)) /\ b ∉ subst_block b ks (fcs m x)) as [Ht Hb].
  { split; [|rewrite elem_subst_block; naive_solver]. destruct (decide (b ∈ fcs m x)) as [Hb|Hb]; [|by rewrite subst_block_id].
    apply list_elem_of_split in Hb as (f1 & f2 & Hf). destruct (fcs_splice x f1 f2 Hf) as (-> & ? & _). done. }
  intros i j a c Ha Hc Hij. apply (cut_left_of m NONE t tP tb T1 T2 del_shape del_nested HP Hkids (view s') Hcut);
    [apply del_ne_none|by apply (Ht i j)|..].
  - intros ->. by apply Hb, (list_elem_of_lookup_2 _ i).
  - intros ->. by apply Hb, (list_elem_of_lookup_2 _ j).
Qed.

Lemma cut_represents s' :
  store_ok s' ->
  (forall h, h ∈ nodes t -> h <> b -> view s' !! h = (fun d => cut_data tP tb (given m tb T1 h) d) <$> m !! h) ->
  (forall x, is_Some (view s' !! x) -> x ∈ nodes t /\ x <> b) ->
  represents_dag s' (contract b t) (fun x y => D x y /\ x <> b /\ y <> b).
Proof.
  intros Hok Hcut Hdom. pose proof (cut_not_root m NONE t tP tb T1 T2 del_shape del_nested HP Hkids) as Hroot.
  assert (H0 : forall x, x ∉ nodes t \/ x = b -> fcs (view s') x = []).
  { intros x Hx. unfold fcs. destruct (view s' !! x) eqn:E; [|done]. destruct (Hdom x); [eauto|]. naive_solver. }
  pose proof del_nodup as Hnd. pose proof del_ne_none as HN.
  assert (Hf : forall x f, f ∈ fcs (view s') x -> x ∈ nodes t /\ x <> b /\ f ∈ subst_block b ks (fcs m x)).
  { intros x f Hf. destruct (decide (x ∈ nodes t)), (decide (x = b)); [|rewrite <-cut_fcs with s' x; auto|..];
      rewrite H0 in Hf by auto; by apply elem_of_nil in Hf. }
  assert (Hks : forall k, k ∈ ks -> anc t b k /\ k <> b).
  { intros k Hk. split; [by apply (cut_anc m NONE t tP tb T1 T2 del_shape del_nested HP Hkids)|]. intros ->.
    by apply (cut_not_self m NONE t tP tb T1 T2 del_shape del_nested HP Hkids). }
  split.
  - split; [done| |exact (cut_nested m NONE t tP tb T1 T2 del_shape del_nested HP Hkids (view s') Hcut)].
    apply (cut_shape m NONE t tP tb T1 T2 del_shape del_nested HP Hkids (view s') Hcut);
      [apply del_shape|apply subtrees_self|done..].
  - intros [? _]%nodes_contract; [|done..]. by apply (rg_none _ _ _ Hg).
  - intros x. apply Forall_forall. intros f (_ & _ & Hf')%Hf. apply nodes_contract; [done..|].
    apply elem_subst_block in Hf' as [[Hf' ?]|[_ Hk]]; [split; [exact (proj2 (fcs_nodes _ _ _ _ _ Hg Hf'))|done]|].
    destruct (Hks f Hk) as [Ha ?]. split; [exact (proj2 (anc_nodes _ _ _ Ha))|done].
  - intros x Hx. apply nodes_contract; [done..|]. by apply Hdom.
  - intros x. destruct (decide (x ∈ nodes t)) as [Hx|Hx]; [|rewrite H0 by auto; by intros ? ? ? ? ?].
    destruct (decide (x = b)) as [->|Hxb]; [rewrite H0 by auto; by intros ? ? ? ? ?|]. by apply cut_fcs_order.
  - intros x f (Hx & Hxb & Hf')%Hf. rewrite !anc_contract by done.
    apply elem_subst_block in Hf' as [[Hf' ?]|[Hb Hk]].
    + pose proof (rg_fcs_apart _ _ _ Hg x f Hf'). tauto.
    + destruct (Hks f Hk) as [Ha ?]. destruct (rg_fcs_apart _ _ _ Hg x b Hb) as [H1 H2]. split; intros (Ha' & _).
      * pose proof Hk as (z & Ez & Hz%list_elem_of_In)%list_elem_of_In%in_map_iff. subst f. destruct (decide (x = label z)) as [->|Hxz].
        -- by apply H2.
        -- by apply H1, (anc_of_child m NONE t tb z x del_shape Hnd del_sub Hz).
      * apply H2. by eapply anc_trans.
  - apply cut_relation; [|done]. intros. by apply cut_fcs.
Qed.

Lemma siblings_search_run dP :
  m !! label tP = Some dP -> rd_children dP = l1 ++ b :: l2 ->
  query (fun s => siblings ← stored_set (rs_get_children s (label tP)); binary_search_descendant s siblings b) s =
  (s, Ok (Found b (length l1))).
Proof.
  intros EP HcP. pose proof (rt_ok _ _ _ (rg_tree _ _ _ Hg)) as Hok. unfold query. f_equal.
  rewrite (law_children _ _ _ Hok EP). cbn [stored stored_set mbind result_bind]. rewrite HcP.
  apply search_self; [done|intros h Hh; split; [by apply del_stored|done]| | |by rewrite list_lookup_middle].
  - apply Forall_forall. intros h [Hh|[->|Hh]%elem_of_cons]%elem_of_app; [|apply del_in|];
      apply (cut_members m NONE t tP tb T1 T2 del_shape del_nested HP Hkids); set_solver.
  - apply (cut_siblings_order t tP tb T1 T2 HP Hkids).
Qed.

Lemma delete_block_run M :
  NoDup M -> (forall x, x ∈ M <-> x <> b /\ D x b /\ ~ D x (label tP)) ->
  exists s', delete_block b M s = (s', Ok tt) /\
    represents_dag s' (contract b t) (fun x y => D x y /\ x <> b /\ y <> b) /\ root_of s' = root_of s /\
    (forall x, fresh s x -> fresh s' x) /\ (forall h, h ∈ nodes t -> h <> b -> ivl (view s') h = given m tb T1 h).
Proof.
  intros HndM HM. assert (HM' : forall x, x ∈ M <-> b ∈ fcs m x) by (intros x; by rewrite HM, covered_by_deleted).
  pose proof (rt_ok _ _ _ (rg_tree _ _ _ Hg)) as Hok. destruct (del_stored b del_in) as [db Eb].
  destruct (del_stored (label tP)) as [dP EP]; [eapply nodes_sub; [exact HP|apply nodes_self]|].
  destruct (shape_sub _ _ _ _ del_shape HP) as [pP HsP].
  assert (HcP : rd_children dP = l1 ++ b :: l2).
  { pose proof (shape_chl _ _ _ HsP) as Hc. unfold chl in Hc. by rewrite EP, Hkids, map_app in Hc. }
  destruct (shape_sub _ _ _ _ del_shape del_sub) as [pb Hsb]. destruct (shape_root _ _ _ Hsb) as (db' & Eb' & _ & Hcb).
  assert (db' = db) as -> by congruence. clear Eb'.
  assert (HpP : rd_parent db = label tP).
  { destruct (shape_parent _ _ _ _ tb del_shape HP) as (d' & E' & Hp'); [rewrite Hkids; set_solver|]. congruence. }
  destruct (law_replace_child s (label tP) dP b (length l1) ks Hok EP) as (s1 & Hr1 & Hu1);
    [by rewrite HcP, list_lookup_middle|rewrite HcP, splice_middle; apply (cut_list_nodup m NONE t tP tb T1 T2 del_shape del_nested HP Hkids)|].
  rewrite HcP, splice_middle in Hu1. pose proof (stage_start s1 dP EP Hu1) as Hs1.
  destruct (set_parents_run [] ks s1 Hs1) as (s2 & Hr2 & Hs2).
  { intros c Hc. by apply (anc_nodes t b), (cut_anc m NONE t tP tb T1 T2 del_shape del_nested HP Hkids). }
  destruct (replace_fcs_run _ [] M s2 Hs2 HndM) as (s3 & Hr3 & Hs3); [intros; by apply HM'|].
  destruct (give_capacity_run _ _ _ Hs3) as (s4 & Hr4 & Hs4). cbn [app] in Hs4.
  destruct (law_delete s4 b _ (sg_ok _ _ _ _ Hs4) (sg_lookup _ _ _ _ _ _ Hs4 Eb)) as (s5 & Hr5 & Hok5 & Hv5 & Hroot5 & Hf5).
  assert (Hcut : forall h, h ∈ nodes t -> h <> b ->
    view s5 !! h = (fun d => cut_data tP tb (given m tb T1 h) d) <$> m !! h).
  { intros h Hh Hne. rewrite Hv5, lookup_delete_ne, (sg_view _ _ _ _ Hs4) by done. destruct (m !! h) as [d|] eqn:E; [|done].
    cbn. by rewrite (stage_end M h d HM' Hh E). }
  exists s5. split_and!.
  - assert (Ei : ivl m b = rd_interval db) by (unfold ivl; by rewrite Eb).
    unfold delete_block. erewrite st_bind_run by (unfold query; by rewrite (law_interval _ _ _ Hok Eb)).
    erewrite st_bind_run by (unfold query; by rewrite (law_parent _ _ _ Hok Eb)).
    erewrite st_bind_run by (unfold query; by rewrite (law_children _ _ _ Hok Eb)). rewrite Hcb, HpP.
    erewrite st_bind_run by exact (siblings_search_run dP EP HcP). cbv beta iota.
    erewrite st_bind_run by (unfold update_set, map_err; by rewrite Hr1).
    erewrite st_bind_run by exact Hr2. erewrite st_bind_run by exact Hr3. rewrite <-Ei.
    erewrite st_bind_run by exact Hr4. unfold update, map_err. by rewrite Hr5.
  - apply cut_represents; [done..|]. intros x [d' E']. rewrite Hv5 in E'. apply lookup_delete_Some in E' as [Hne E'].
    split; [|done]. rewrite (sg_view _ _ _ _ Hs4) in E'. apply (rg_dom _ _ _ Hg). destruct (m !! x); [eauto|done].
  - rewrite Hroot5. apply Hs4.
  - intros x Hx. by apply Hf5, Hs4.
  - intros h Hh Hne. by apply (cut_ivl m NONE t tP tb T1 del_shape (view s5) Hcut).
Qed.
End delete.
