(* ===== verification/ReachTheorems.v ===== *)
(** The theorems of the reachability component, with instances on the memory and
    the staging store. *)

From S2P Require Import Prelude Access Interval Reach ReachTree ReachStores ReachQueries ReachLaws ReachCount ReachPropagate ReachSides ReachReclaim ReachInsert ReachConcentrate ReachDag ReachService ReachHistory ReachRoot ReachCommit ReachCut ReachDelete.

(** * Checking histories *)

Definition valid_insertionb (G : list insertion) (b : insertion) : bool :=
  bool_decide (in_block b ∉ known G) && bool_decide (in_block b <> NONE) &&
  forallb (fun q => bool_decide (q ∈ known G)) (in_parents b) &&
  bool_decide (in_selected_parent b ∈ in_parents b) && bool_decide (NoDup (in_mergeset b)) &&
  forallb (fun x => bool_decide (x ∈ known G)) (in_mergeset b) &&
  forallb (fun x => eqb (bool_decide (x ∈ in_mergeset b))
    (existsb (reaches G x) (in_parents b) && negb (reaches G x (in_selected_parent b)))) (known G).

Fixpoint valid_historyb (G : list insertion) : bool :=
  match G with [] => true | b :: G' => valid_insertionb G' b && valid_historyb G' end.

Lemma valid_insertionb_sound G b : valid_insertionb G b = true -> valid_insertion G b.
Proof.
  unfold valid_insertionb. rewrite !andb_true_iff, !bool_decide_eq_true, !forallb_forall.
  intros ((((((H1 & H2) & H3) & H4) & H5) & H6) & H7). split; try done.
  - intros q Hq%list_elem_of_In. by apply H3, bool_decide_eq_true in Hq.
  - intros x. split.
    + intros Hx. assert (Hk : x ∈ known G) by (pose proof (H6 x ltac:(by apply list_elem_of_In)) as E; by apply bool_decide_eq_true in E).
      specialize (H7 x ltac:(by apply list_elem_of_In)). rewrite (bool_decide_true _ Hx) in H7.
      apply eqb_prop in H7. symmetry in H7. rewrite andb_true_iff, negb_true_iff in H7. done.
    + intros (Hk & He & Hr). specialize (H7 x ltac:(by apply list_elem_of_In)). rewrite He, Hr in H7.
      by apply eqb_prop, bool_decide_eq_true in H7.
Qed.

Lemma valid_historyb_sound G : valid_historyb G = true -> valid_history G.
Proof.
  induction G as [|b G IH]; [done|]. cbn. rewrite andb_true_iff. intros [Hb HG]. split; [by apply valid_insertionb_sound|auto].
Qed.

(** The mergeset of a block of a history. *)
Lemma mergeset_check G b q M :
  valid_history G -> forallb (fun x => bool_decide (x ∈ known G)) M = true ->
  forallb (fun x => eqb (bool_decide (x ∈ M)) (negb (bool_decide (x = b)) && reaches G x b && negb (reaches G x q))) (known G) = true ->
  forall x, x ∈ M <-> x <> b /\ reaches G x b = true /\ ~ reaches G x q = true.
Proof.
  intros HG. rewrite !forallb_forall. intros HM Hk x.
  assert (Hx : x ∈ known G -> (x ∈ M <-> x <> b /\ reaches G x b = true /\ ~ reaches G x q = true)).
  { intros Hx%list_elem_of_In. specialize (Hk x Hx). apply eqb_prop in Hk. rewrite <-(bool_decide_eq_true (x ∈ M)), Hk.
    rewrite !andb_true_iff, !negb_true_iff, bool_decide_eq_false, not_true_iff_false. tauto. }
  split.
  - intros Hin. apply Hx; [|done]. apply (bool_decide_eq_true (x ∈ known G)), HM. by apply list_elem_of_In.
  - intros H. apply Hx; [|done]. exact (proj1 (reaches_known _ _ _ HG (proj1 (proj2 H)))).
Qed.

(** A block on the origin, two on it, and one that merges both. *)
Definition demo_block (n : Z) : hash := replicate 31 0 ++ [n].

Definition demo_history : list insertion :=
  [ mk_insertion (demo_block 4) (demo_block 2) [demo_block 2; demo_block 3] [demo_block 3];
    mk_insertion (demo_block 3) (demo_block 1) [demo_block 1] [];
    mk_insertion (demo_block 2) (demo_block 1) [demo_block 1] [];
    mk_insertion (demo_block 1) ORIGIN [ORIGIN] [] ].

Lemma demo_valid : valid_history demo_history.
Proof. apply valid_historyb_sound. vm_compute. reflexivity. Qed.

Lemma mem_ok s : store_ok (T := MemoryReachabilityStore) s.
Proof. cbn [store_ok memory_laws]. done. Qed.

Lemma mem_fresh h : fresh mem_new h.
Proof. cbn [fresh memory_laws]. apply lookup_empty. Qed.

(** * Queries on any history *)

Lemma bool_ok_eq (r r' : bool) : (r = true <-> r' = true) -> r = r'.
Proof. destruct r, r'; naive_solver. Qed.

(** C7: From an empty store of any implementation that satisfies the store laws, [init] followed by [add_block] for every block
    of any valid history of up to 2^49 blocks succeeds: no insertion diverges,
    panics, runs out of interval capacity or reports an inconsistency, whatever reindexing it needs. On
    the store it leaves, [is_dag_ancestor_of] decides exactly whether one block is reached
    from another over parents, and [is_chain_ancestor_of] whether it is reached over selected
    parents. *)
Theorem reachability_history_exact {T : Type} `{RS : ReachabilityStore T, RL : !ReachabilityStoreLaws T} fuel G (s : T) :
  store_ok s -> (forall h, fresh s h) -> valid_history G -> Z.of_nat (length G) <= 2 ^ 49 -> (length G + 1 <= fuel)%nat ->
  exists s', build fuel G s = (s', Ok tt) /\
    forall x y, x ∈ known G -> y ∈ known G ->
      is_dag_ancestor_of s' x y = Ok (reaches G x y) /\ is_chain_ancestor_of s' x y = Ok (on_chain G x y).
Proof.
  intros Hok Hf HG Hlen Hfuel. destruct (build_run fuel G s Hok Hf HG Hlen Hfuel) as (s' & t & Hr & Hb).
  exists s'. split; [done|]. intros x y Hx Hy. apply (bt_known _ _ _ Hb) in Hx, Hy.
  destruct (is_dag_ancestor_of_run s' t _ x y (bt_dag _ _ _ Hb) Hx Hy) as (r & -> & Hr1).
  destruct (is_chain_ancestor_of_run s' NONE t (rg_tree _ _ _ (bt_dag _ _ _ Hb)) x y Hx Hy) as (r' & -> & Hr2).
  rewrite (bt_chain _ _ _ Hb) in Hr2. split; f_equal; by apply bool_ok_eq.
Qed.

Lemma reachability_history_exact_witness :
  exists s', build 5 demo_history mem_new = (s', Ok tt) /\
    is_dag_ancestor_of s' (demo_block 3) (demo_block 4) = Ok true /\ is_chain_ancestor_of s' (demo_block 3) (demo_block 4) = Ok false.
Proof.
  destruct (reachability_history_exact 5 demo_history mem_new (mem_ok _) mem_fresh demo_valid) as (s' & Hr & Hq);
    [vm_compute; discriminate|apply Nat.leb_le; reflexivity|].
  exists s'. split; [exact Hr|]. destruct (Hq (demo_block 3) (demo_block 4)) as [H1 H2].
  - apply (bool_decide_unpack _). vm_compute. exact I.
  - apply (bool_decide_unpack _). vm_compute. exact I.
  - assert (E1 : reaches demo_history (demo_block 3) (demo_block 4) = true) by (vm_compute; reflexivity).
    assert (E2 : on_chain demo_history (demo_block 3) (demo_block 4) = false) by (vm_compute; reflexivity).
    rewrite E1 in H1. rewrite E2 in H2. split; [exact H1|exact H2].
Defined.

Definition demo_store : MemoryReachabilityStore := (build 5 demo_history mem_new).1.

Lemma demo_built : exists t, built demo_store demo_history t.
Proof.
  destruct (build_run 5 demo_history mem_new (mem_ok _) mem_fresh demo_valid) as (s' & t & Hr & Hb);
    [vm_compute; discriminate|apply Nat.leb_le; reflexivity|].
  exists t. unfold demo_store. by rewrite Hr.
Qed.

Ltac decide_closed := apply (bool_decide_unpack _); vm_compute; exact I.

(** * Insertion *)

(** C11: On any store that represents a block DAG - after any insertions, deletions and moves of the reindex root -
    [add_block_with_params] of a fresh block over a stored selected parent succeeds when
    the reindex root has the capacity for the reindexing, and the new store represents the old DAG with the new
    block in the future of exactly itself, of the past of its selected parent and of its mergeset. *)
Theorem add_block_extends_dag {T : Type} `{RS : ReachabilityStore T, RL : !ReachabilityStoreLaws T}
    fuel (s : T) t D n q M R depth slack :
  represents_dag s t D -> q ∈ nodes t -> fresh s n -> n <> NONE -> NoDup M -> (forall m, m ∈ M -> m ∈ nodes t /\ ~ D m q) ->
  root_of s = Some R -> R ∈ nodes t -> 0 <= default DEFAULT_REINDEX_SLACK slack ->
  reindex_capacity s (default DEFAULT_REINDEX_SLACK slack) t R -> (tsize t + 1 <= fuel)%nat ->
  exists s', add_block_with_params fuel n q M depth slack s = (s', Ok tt) /\
    represents_dag s' (graft q n t) (extended D n (fun x => D x q \/ x ∈ M)) /\
    forall x y, x ∈ n :: nodes t -> y ∈ n :: nodes t ->
      exists r, is_dag_ancestor_of s' x y = Ok r /\ (r = true <-> D x y \/ (y = n /\ (x = n \/ D x q \/ x ∈ M))).
Proof.
  intros Hg Hq Hf Hn Hnd HM Hroot HR Hsl Hcap Hfuel.
  destruct (add_block_run fuel s t D n q M R depth slack Hg Hq Hf Hn Hnd HM Hroot HR Hsl Hcap Hfuel) as (s' & Hr & Hg' & _).
  exists s'. split_and!; [done..|]. intros x y Hx Hy.
  apply (is_dag_ancestor_of_run s' _ _ x y Hg'); apply nodes_graft; apply elem_of_cons in Hx, Hy; naive_solver.
Qed.

Lemma add_block_extends_dag_witness :
  exists s', add_block_with_params 9 (demo_block 5) (demo_block 3) [demo_block 2] None None demo_store = (s', Ok tt) /\
    exists r, is_dag_ancestor_of s' (demo_block 2) (demo_block 5) = Ok r /\ r = true.
Proof.
  destruct demo_built as (t & [Hg Hk Hc Hroot Hlab Hi Hsz Hf]).
  assert (Hin : forall x, bool_decide (x ∈ known demo_history) = true -> x ∈ nodes t).
  { intros x Hx. apply Hk. by apply bool_decide_eq_true in Hx. }
  assert (H2 : demo_block 2 ∈ nodes t) by (apply Hin; vm_compute; reflexivity).
  destruct (add_block_extends_dag 9 demo_store t _ (demo_block 5) (demo_block 3) [demo_block 2] ORIGIN None None Hg)
    as (s' & Hr & _ & Hq).
  - apply Hin. vm_compute. reflexivity.
  - apply Hf. decide_closed.
  - decide_closed.
  - apply NoDup_singleton.
  - intros m ->%list_elem_of_singleton. split; [exact H2|]. vm_compute. discriminate.
  - exact Hroot.
  - rewrite <-Hlab. apply nodes_self.
  - cbn. unfold DEFAULT_REINDEX_SLACK. lia.
  - unfold reindex_capacity. rewrite Hi. cbn [default length demo_history] in *. unfold DEFAULT_REINDEX_SLACK, width, Interval_maximal, U64_MAX. cbn. lia.
  - cbn [length demo_history] in Hsz. lia.
  - exists s'. split; [exact Hr|]. destruct (Hq (demo_block 2) (demo_block 5)) as (r & Hr' & Hiff).
    + right. exact H2.
    + left.
    + exists r. split; [exact Hr'|]. apply Hiff. right. split; [reflexivity|]. right. right. left.
Defined.

(** * Deletion *)

Lemma stored_child {T : Type} `{RS : ReachabilityStore T, RL : !ReachabilityStoreLaws T} (s : T) t b q :
  represents_tree s NONE t -> b ∈ nodes t -> b <> label t -> rs_get_parent s b = Ok q ->
  exists tP T1 tb T2, tP ∈ subtrees t /\ kids tP = T1 ++ tb :: T2 /\ label tP = q /\ label tb = b.
Proof.
  intros Hrep (tb & Htb & <-)%nodes_subtree Hne Hp. destruct (subtree_parent t tb Htb) as [->|(y & Hy & Hk)]; [done|].
  destruct (shape_parent _ _ _ _ _ (rt_shape _ _ _ Hrep) Hy Hk) as (d & E & Hpd).
  rewrite (law_parent s _ d (rt_ok _ _ _ Hrep) E) in Hp. apply list_elem_of_split in Hk as (T1 & T2 & Hk).
  exists y, T1, tb, T2. split_and!; congruence.
Qed.

(** C9: Deleting a block other than the tree root, with its mergeset (what it reaches and its
    tree parent does not), succeeds, and every DAG and chain query between the other blocks keeps its
    answer, as the comment of [delete_block] guarantees. The store then represents the tree in which the block's children hang
    from its parent. *)
Theorem delete_block_keeps_queries {T : Type} `{RS : ReachabilityStore T, RL : !ReachabilityStoreLaws T} (s : T) t D b q M :
  represents_dag s t D -> b ∈ nodes t -> b <> label t -> rs_get_parent s b = Ok q ->
  NoDup M -> (forall x, x ∈ M <-> x <> b /\ D x b /\ ~ D x q) ->
  exists s', delete_block b M s = (s', Ok tt) /\
    represents_dag s' (contract b t) (fun x y => D x y /\ x <> b /\ y <> b) /\
    forall x y, x ∈ nodes t -> y ∈ nodes t -> x <> b -> y <> b ->
      is_dag_ancestor_of s' x y = is_dag_ancestor_of s x y /\ is_chain_ancestor_of s' x y = is_chain_ancestor_of s x y.
Proof.
  intros Hg Hb Hne Hp Hnd HM. destruct (stored_child s t b q (rg_tree _ _ _ Hg) Hb Hne Hp) as (tP & T1 & tb & T2 & HP & Hk & <- & <-).
  destruct (delete_block_run s t tP tb T1 T2 D Hg HP Hk M Hnd HM) as (s' & Hr & Hg' & _). exists s'. split_and!; [done..|].
  intros x y Hx Hy Hxb Hyb. pose proof (del_nodup s t D Hg) as Hndt.
  assert (Hx' : x ∈ nodes (contract (label tb) t)) by (apply nodes_contract; auto).
  assert (Hy' : y ∈ nodes (contract (label tb) t)) by (apply nodes_contract; auto).
  destruct (is_dag_ancestor_of_run s t D x y Hg Hx Hy) as (r1 & -> & H1).
  destruct (is_dag_ancestor_of_run s' _ _ x y Hg' Hx' Hy') as (r2 & -> & H2).
  destruct (is_chain_ancestor_of_run s NONE t (rg_tree _ _ _ Hg) x y Hx Hy) as (r3 & -> & H3).
  destruct (is_chain_ancestor_of_run s' NONE _ (rg_tree _ _ _ Hg') x y Hx' Hy') as (r4 & -> & H4).
  rewrite anc_contract in H4 by auto. split; f_equal; apply bool_ok_eq; tauto.
Qed.

Lemma delete_block_keeps_queries_witness :
  exists s', delete_block (demo_block 4) [demo_block 3] demo_store = (s', Ok tt) /\
    is_dag_ancestor_of s' (demo_block 1) (demo_block 3) = is_dag_ancestor_of demo_store (demo_block 1) (demo_block 3).
Proof.
  destruct demo_built as (t & [Hg Hk Hc Hroot Hlab Hi Hsz Hf]).
  assert (Hin : forall x, bool_decide (x ∈ known demo_history) = true -> x ∈ nodes t).
  { intros x Hx. apply Hk. by apply bool_decide_eq_true in Hx. }
  destruct (delete_block_keeps_queries demo_store t _ (demo_block 4) (demo_block 2) [demo_block 3] Hg) as (s' & Hr & _ & Hq).
  - apply Hin. vm_compute. reflexivity.
  - rewrite Hlab. decide_closed.
  - vm_compute. reflexivity.
  - apply NoDup_singleton.
  - apply mergeset_check; [exact demo_valid|vm_compute; reflexivity|vm_compute; reflexivity].
  - exists s'. split; [exact Hr|]. apply Hq; [apply Hin; vm_compute; reflexivity..|decide_closed|decide_closed].
Defined.

(** * Moving the reindex root *)

Lemma heights_check m p t :
  shape m p t -> map_Forall (fun h d => hgt m (rd_parent d) < rd_height d \/ rd_parent d = NONE) m -> NONE ∉ nodes t ->
  heights_ok m t.
Proof.
  intros Hs Hm Hn ta k Hta Hk. destruct (shape_parent _ _ _ _ _ Hs Hta Hk) as (d & E & Hp).
  destruct (Hm _ _ E) as [H|H]; rewrite Hp in H.
  - unfold hgt at 2. by rewrite E.
  - destruct Hn. rewrite <-H. apply nodes_subtree. eauto.
Qed.

(** C18: Moving the reindex root towards a hint other than itself succeeds on any store that represents a block DAG,
    when every tree ancestor common to the root and the hint has the room for the slack the moves reserve: the search
    for the new root and the walk that concentrates the intervals terminate without an error, the new root is the
    old one or a chain ancestor of the hint, and every query keeps its answer. *)
Theorem reindex_root_move_keeps_queries {T : Type} `{RS : ReachabilityStore T, RL : !ReachabilityStoreLaws T}
    fuel (s : T) t D R hint depth slack X :
  represents_dag s t D -> heights_ok (view s) t -> root_of s = Some R -> R ∈ nodes t -> hint ∈ nodes t -> hint <> R ->
  0 < depth -> 0 <= slack -> 0 <= X -> (tsize t < fuel)%nat ->
  (forall x, x ∈ subtrees t -> anc t (label x) R -> anc t (label x) hint -> move_capacity slack s x X) ->
  exists s' R', try_advancing_reindex_root fuel hint depth slack s = (s', Ok tt) /\ represents_dag s' t D /\
    root_of s' = Some R' /\ (R' = R \/ anc t R' hint) /\
    forall x y, x ∈ nodes t -> y ∈ nodes t ->
      is_dag_ancestor_of s' x y = is_dag_ancestor_of s x y /\ is_chain_ancestor_of s' x y = is_chain_ancestor_of s x y.
Proof.
  intros Hg Hh Hroot HR Hhint Hne Hd Hsl HX Hf Hcap.
  destruct (try_advancing_reindex_root_run fuel s t D R hint depth slack X Hg Hh Hroot HR Hhint Hne Hd Hsl HX Hf Hcap)
    as (s' & R' & Hr & Hg' & _ & Hroot' & _ & HR' & _).
  exists s', R'. split_and!; [done..|]. intros x y Hx Hy.
  destruct (is_dag_ancestor_of_run s t D x y Hg Hx Hy) as (r1 & -> & H1).
  destruct (is_dag_ancestor_of_run s' t D x y Hg' Hx Hy) as (r2 & -> & H2).
  destruct (is_chain_ancestor_of_run s NONE t (rg_tree _ _ _ Hg) x y Hx Hy) as (r3 & -> & H3).
  destruct (is_chain_ancestor_of_run s' NONE t (rg_tree _ _ _ Hg') x y Hx Hy) as (r4 & -> & H4).
  split; f_equal; apply bool_ok_eq; tauto.
Qed.

Lemma demo_heights t : built demo_store demo_history t -> heights_ok (view demo_store) t.
Proof.
  intros Hb. pose proof (bt_dag _ _ _ Hb) as Hg.
  refine (heights_check _ _ _ (rt_shape _ _ _ (rg_tree _ _ _ Hg)) _ (rg_none _ _ _ Hg)). decide_closed.
Qed.

Lemma reindex_root_move_keeps_queries_witness :
  exists s' R', try_advancing_reindex_root 9 (demo_block 4) 1 1 demo_store = (s', Ok tt) /\ root_of s' = Some R' /\
    is_dag_ancestor_of s' (demo_block 3) (demo_block 4) = is_dag_ancestor_of demo_store (demo_block 3) (demo_block 4).
Proof.
  destruct demo_built as (t & Hb). pose proof (demo_heights t Hb) as Hh. destruct Hb as [Hg Hk Hc Hroot Hlab Hi Hsz Hf].
  assert (Hin : forall x, bool_decide (x ∈ known demo_history) = true -> x ∈ nodes t).
  { intros x Hx. apply Hk. by apply bool_decide_eq_true in Hx. }
  cbn [length demo_history] in Hsz.
  destruct (reindex_root_move_keeps_queries 9 demo_store t _ ORIGIN (demo_block 4) 1 1 0 Hg Hh Hroot)
    as (s' & R' & Hr & _ & Hr' & _ & Hq).
  - rewrite <-Hlab. apply nodes_self.
  - apply Hin. vm_compute. reflexivity.
  - decide_closed.
  - lia.
  - lia.
  - lia.
  - lia.
  - intros x Hx HxR _. unfold move_capacity.
    assert (label x = ORIGIN) as ->.
    { refine (anc_antisym _ _ _ _ _ (rt_shape _ _ _ (rg_tree _ _ _ Hg)) (rt_nested _ _ _ (rg_tree _ _ _ Hg)) HxR _).
      exists t. split; [apply subtrees_self|]. split; [exact Hlab|]. apply nodes_subtree. exists x. split; [exact Hx|reflexivity]. }
    rewrite Hi. pose proof (tsize_sub _ _ Hx). change (width Interval_maximal) with 18446744073709551614. lia.
  - exists s', R'. split; [exact Hr|]. split; [exact Hr'|]. apply Hq; apply Hin; vm_compute; reflexivity.
Defined.

(** * Committing a staging store *)

Lemma staging_new_ok : store_ok (staging_new db_new) /\ forall h, fresh (staging_new db_new) h.
Proof.
  cbn [store_ok fresh staging_laws].
  assert (Hset : forall h, set_ok (Ok []) (bucket (mk_set ∅ ∅) h)).
  { intros h. split; [done|constructor|]. unfold bucket. cbn. by rewrite lookup_empty. }
  split.
  - split.
    + split; [intros h; exact (Hset h)|intros h; exact (Hset h)|]. intros h _. unfold bucket. cbn. by rewrite lookup_empty.
    + cbn. intros h e. by rewrite lookup_empty.
    + cbn. intros h e. by rewrite lookup_empty.
    + cbn. intros h. rewrite !lookup_empty. by intros [[]|[]].
  - intros h. split_and!; [done|cbn; set_solver|done|done].
Qed.

(** C20: After a commit, the database store shows a new staging store exactly the blocks, children lists, future covering sets, intervals and reindex root
    the committed staging store showed, and so represents the same DAG. This holds for whatever part of the cached sets is still in the caches: a
    set that was evicted is rebuilt from its unordered bucket by sorting it by interval, and comes out in the order that the binary searches rely on. *)
Theorem commit_survives_eviction (s : StagingReachabilityStore) t D c1 c2 :
  represents_dag s t D -> c1 ⊆ set_cache (db_children (commit s)) -> c2 ⊆ set_cache (db_fcs (commit s)) ->
  let s' := staging_new (evicted c1 c2 (commit s)) in
  represents_dag s' t D /\ view s' = view s /\ root_of s' = root_of s.
Proof.
  intros Hg H1 H2 s'. destruct (commit_represents s t D Hg c1 c2 H1 H2) as [Hg' Hroot].
  split_and!; [done|cbn [view staging_laws]; exact (cold_view s t D Hg c1 c2 H1 H2)|done].
Qed.

Lemma commit_survives_eviction_witness :
  exists s t, build 5 demo_history (staging_new db_new) = (s, Ok tt) /\
    represents_dag (staging_new (evicted ∅ ∅ (commit s))) t (fun x y => reaches demo_history x y = true).
Proof.
  destruct staging_new_ok as [Hok Hf].
  destruct (build_run 5 demo_history (staging_new db_new) Hok Hf demo_valid) as (s' & t & Hr & Hb);
    [vm_compute; discriminate|apply Nat.leb_le; reflexivity|].
  exists s', t. split; [exact Hr|].
  exact (proj1 (commit_survives_eviction s' t _ ∅ ∅ (bt_dag _ _ _ Hb) (map_empty_subseteq _) (map_empty_subseteq _))).
Defined.

(** * Well-formedness *)

(** Every block of a built store has a well-formed interval - 1 <= start <= end < 2^64 - 1, so no later
    computation on it wraps - and the intervals of its tree children are non-empty, in order, disjoint, and within its own interval without its last point. *)
Theorem built_store_well_formed {T : Type} `{RS : ReachabilityStore T, RL : !ReachabilityStoreLaws T} fuel G (s s' : T) h :
  store_ok s -> (forall h, fresh s h) -> valid_history G -> Z.of_nat (length G) <= 2 ^ 49 -> (length G + 1 <= fuel)%nat ->
  build fuel G s = (s', Ok tt) -> h ∈ known G ->
  exists i cs, rs_get_interval s' h = Ok i /\ rs_get_children s' h = Ok cs /\
    1 <= iv_start i <= iv_end i /\ iv_end i < 2 ^ 64 - 1 /\
    Forall (fun c => exists j, rs_get_interval s' c = Ok j /\
      iv_start i <= iv_start j <= iv_end j /\ iv_end j < iv_end i) cs /\
    forall k c c' j j', cs !! k = Some c -> cs !! S k = Some c' -> rs_get_interval s' c = Ok j -> rs_get_interval s' c' = Ok j' ->
      iv_end j < iv_start j'.
Proof.
  intros Hok Hf HG Hlen Hfuel Hrun Hh. destruct (build_run fuel G s Hok Hf HG Hlen Hfuel) as (s1 & t & Hr & Hb).
  assert (s1 = s') as -> by congruence. apply (bt_known _ _ _ Hb) in Hh. apply nodes_subtree in Hh as (th & Hth & <-).
  pose proof (rg_tree _ _ _ (bt_dag _ _ _ Hb)) as Hrep. pose proof (rt_nested _ _ _ Hrep) as Hn.
  assert (Hin : label th ∈ nodes t) by (apply nodes_subtree; eauto).
  destruct (Hn _ Hin) as [[Hl Hu _] Hp Hins]. unfold width, U64_MAX in *.
  exists (ivl (view s') (label th)), (map label (kids th)). split_and!.
  - by apply (node_interval s' NONE t Hrep).
  - by apply (node_children s' NONE t Hrep).
  - done.
  - lia.
  - done.
  - apply Forall_map, Forall_forall. intros k Hk. assert (Hkn : label k ∈ nodes t).
    { apply nodes_subtree. exists k. split; [exact (subtrees_kid_of _ _ _ Hth Hk)|done]. }
    exists (ivl (view s') (label k)). split; [by apply (node_interval s' NONE t Hrep)|].
    destruct (shape_sub _ _ _ _ (rt_shape _ _ _ Hrep) Hth) as [q Hs]. pose proof (nested_sub _ _ _ Hn Hth) as Hn'.
    pose proof (nested_kid_bounds _ _ _ _ Hs Hn' Hk). lia.
  - intros k c c' j j' Hc Hc' Hj Hj'.
    assert (Hcn : forall k c, map label (kids th) !! k = Some c -> c ∈ nodes t).
    { intros i x (y & -> & Hy)%list_lookup_fmap_Some. apply nodes_subtree. exists y.
      split; [exact (subtrees_kid_of _ _ _ Hth (list_elem_of_lookup_2 _ _ _ Hy))|done]. }
    rewrite (node_interval s' NONE t Hrep) in Hj, Hj' by eauto. simplify_eq.
    eapply left_bounds; [apply Hrep|exact Hn|]. by apply (kids_side_by_side t th Hth k (S k)); [..|lia].
Qed.

Lemma built_store_well_formed_witness :
  exists i cs, rs_get_interval demo_store (demo_block 1) = Ok i /\ rs_get_children demo_store (demo_block 1) = Ok cs /\ iv_end i < 2 ^ 64 - 1.
Proof.
  destruct (built_store_well_formed 5 demo_history mem_new demo_store (demo_block 1) (mem_ok _) mem_fresh demo_valid)
    as (i & cs & H1 & H2 & _ & H3 & _).
  - vm_compute. discriminate.
  - apply Nat.leb_le. reflexivity.
  - unfold demo_store. destruct (build_run 5 demo_history mem_new (mem_ok _) mem_fresh demo_valid) as (s' & t & Hr & _);
      [vm_compute; discriminate|apply Nat.leb_le; reflexivity|]. by rewrite Hr.
  - decide_closed.
  - exists i, cs. split; [exact H1|]. split; [exact H2|exact H3].
Defined.

(** * Subtree sizes *)

Lemma sizes_below t tb sz x :
  sizes_ok t sz -> tb ∈ subtrees t -> is_Some (sz !! label tb) -> x ∈ subtrees tb -> sz !! label x = Some (Z.of_nat (tsize x)).
Proof.
  intros Hsz. induction tb as [h ts IH] using rtree_ind'. rewrite Forall_forall in IH. intros Hb Hs Hx.
  destruct (Hsz _ Hb Hs) as [E Hk]. apply subtrees_node in Hx as [->|(k & Hin & Hx)]; [done|].
  apply (IH k Hin (subtrees_kid_of _ (Node h ts) _ Hb Hin)); [by apply Hk|done].
Qed.

(** [count_subtrees], a breadth-first walk down followed by pushes of the counts up the tree, terminates
    within as many iterations as the subtree has blocks, without an error, and leaves the exact subtree size of every
    block of the subtree. *)
Theorem count_subtrees_exact {T : Type} `{RS : ReachabilityStore T, RL : !ReachabilityStoreLaws T} fuel (s : T) p t tb slack :
  represents_tree s p t -> tb ∈ subtrees t -> (tsize tb <= fuel)%nat ->
  exists sz, count_subtrees fuel (label tb) (ctx_new s slack) = (mk_ctx s sz slack, Ok tt) /\
    forall x, x ∈ subtrees tb -> sz !! label x = Some (Z.of_nat (tsize x)).
Proof.
  intros [Hok Hs Hn] Hb Hf. pose proof (nested_NoDup _ _ _ Hs Hn) as Hnd.
  assert (Hbound : Z.of_nat (tsize t) < 2 ^ 64).
  { pose proof (nested_capacity _ _ _ Hs Hn). destruct (Hn _ (nodes_self t)) as [[Hl Hu _] _ _]. unfold width, U64_MAX in *. lia. }
  destruct (count_subtrees_run s p t tb slack Hok Hs Hnd Hbound Hb fuel ∅ Hf (sizes_ok_empty t)) as (sz & Hr & Hsz & Hsome & _).
  exists sz. split; [exact Hr|]. intros x Hx. by eapply sizes_below.
Qed.

Lemma count_subtrees_exact_witness :
  exists sz n, count_subtrees 5 ORIGIN (ctx_new demo_store 0) = (mk_ctx demo_store sz 0, Ok tt) /\ sz !! ORIGIN = Some n.
Proof.
  destruct demo_built as (t & Hb). pose proof (bt_size _ _ _ Hb) as Hsz. cbn [length demo_history] in Hsz.
  destruct (count_subtrees_exact 5 demo_store NONE t t 0 (rg_tree _ _ _ (bt_dag _ _ _ Hb)) (subtrees_self t) Hsz) as (sz & Hr & Hx).
  exists sz, (Z.of_nat (tsize t)). rewrite <-(bt_label _ _ _ Hb). split; [exact Hr|]. exact (Hx t (subtrees_self t)).
Defined.

(** * Chain iterators *)

(** Between a chain ancestor and a descendant, the forward iterator (which searches the next child by intervals) and the backward iterator
    (which follows the parents) both end; the inclusive ones yield the same list of blocks in opposite orders, namely every block of the chain
    between the two and no other, and the exclusive ones leave out only the block the iteration ends at. *)
Theorem chain_iterators_agree {T : Type} `{RS : ReachabilityStore T, RL : !ReachabilityStoreLaws T} fuel (s : T) t a d :
  represents_tree s NONE t -> anc t a d -> (tsize t < fuel)%nat ->
  exists l, forward_chain_iterator fuel s a d true = Ok l /\ backward_chain_iterator fuel s d a true = Ok (rev l) /\
    forward_chain_iterator fuel s a d false = Ok (removelast l) /\ backward_chain_iterator fuel s d a false = Ok (rev (tail l)) /\
    forall x, x ∈ l <-> anc t a x /\ anc t x d.
Proof.
  intros Hrep (tA & HA & <- & Hd) Hf. pose proof (tsize_sub _ _ HA). pose proof (iter_nodup s t Hrep tA HA) as Hnd.
  assert (Hf' : (tsize tA < fuel)%nat) by lia. exists (path tA d).
  split_and!; [exact (forward_run s t Hrep fuel tA d true HA Hd Hf')|exact (backward_run s t Hrep fuel tA d true HA Hd Hf')|
    exact (forward_run s t Hrep fuel tA d false HA Hd Hf')|exact (backward_run s t Hrep fuel tA d false HA Hd Hf')|].
  intros x. rewrite (path_elem tA d x Hnd Hd). split.
  - intros Ha. split; [|by eapply anc_sub]. exists tA. split_and!; [done..|]. exact (proj1 (anc_nodes _ _ _ Ha)).
  - intros [(tA' & HA' & E & Hx) Ha]. pose proof (iter_nodup s t Hrep t (subtrees_self t)) as Hndt.
    rewrite (label_inj _ _ _ Hndt HA' HA E) in Hx. apply nodes_subtree in Hx as (tx & Htx & <-).
    destruct Ha as (tx' & Htx' & E' & Hdx). exists tx. split_and!; [done..|].
    by rewrite <-(label_inj _ _ _ Hndt Htx' (subtrees_trans _ _ _ Htx HA) E').
Qed.

Lemma chain_iterators_agree_witness :
  exists l, forward_chain_iterator 9 demo_store ORIGIN (demo_block 4) true = Ok l /\
    backward_chain_iterator 9 demo_store (demo_block 4) ORIGIN true = Ok (rev l).
Proof.
  destruct demo_built as (t & Hb). pose proof (bt_size _ _ _ Hb) as Hsz. cbn [length demo_history] in Hsz.
  destruct (chain_iterators_agree 9 demo_store t ORIGIN (demo_block 4) (rg_tree _ _ _ (bt_dag _ _ _ Hb))) as (l & H1 & H2 & _).
  - apply (bt_chain _ _ _ Hb). vm_compute. reflexivity.
  - lia.
  - exists l. split; [exact H1|exact H2].
Defined.
