(* ===== verification/Work.v ===== *)
(** Proof-of-work targets (math/src/lib.rs) and the work of a block
    (consensus/src/processes/difficulty.rs): the compact encoding of a 256-bit target
    in 32 bits, the conversions between the widths, [calc_work] and [level_work];
    and what they compute. *)

From S2P Require Import Prelude Uint UintCorrect.

Definition from_compact_target_bits (bits : Z) : limbs :=
  let unshifted_expt := Z.shiftr bits 24 in
  let '(mant, expt) :=
    if unshifted_expt <=? 3
    then (Z.shiftr (Z.land bits 16777215) (8 * (3 - unshifted_expt)), 0)
    else (Z.land bits 16777215, 8 * (Z.shiftr bits 24 - 3)) in
  if 8388607 <? mant then uint_zero 4 else uint_shl (uint_from_u64 4 mant) expt.

Definition div_ceil (a b : Z) : Z := (a + b - 1) / b.

Definition compact_target_bits (x : limbs) : Z :=
  let size := div_ceil (uint_bits x) 8 in
  let compact :=
    if size <=? 3 then wrap 32 (shl64 (uint_as_u64 x) (8 * (3 - size)))
    else wrap 32 (uint_as_u64 (uint_shr x (8 * (size - 3)))) in
  let '(compact, size) :=
    if negb (Z.land compact 8388608 =? 0) then (Z.shiftr compact 8, size + 1) else (compact, size) in
  Z.lor compact (wrap 32 (Z.shiftl size 24)).

(** [Uint320::from], and [try_from] of the narrower types. *)
Definition uint320_from (u : limbs) : limbs := u ++ [0].
Definition uint256_try_from (x : limbs) : option limbs :=
  if x !!! 4%nat =? 0 then Some (take 4 x) else None.
Definition uint192_try_from (x : limbs) : option limbs :=
  if x !!! 3%nat =? 0 then Some (take 3 x) else None.

(** [None] is the panic of the [expect], or of the division. *)
Definition calc_work (bits : Z) : option limbs :=
  let target := from_compact_target_bits bits in
  q ← uint_div (uint_not target) (uint_add_u64 target 1);
  uint192_try_from (uint_add_u64 q 1).

Definition MAX_WORK_LEVEL : Z := 128.

Definition level_work (level max_block_level : Z) : limbs :=
  if level =? 0 then uint_from_u64 3 0
  else
    let exp := level + 256 - max_block_level in
    uint_shl (uint_from_u64 3 1) (Z.min exp MAX_WORK_LEVEL).

(** * What they compute *)

Abbreviation u32_range x := (0 <= x < 2 ^ 32).

Lemma lor_shiftl_add a b n : 0 <= n -> 0 <= a < 2 ^ n -> 0 <= b -> Z.lor a (Z.shiftl b n) = a + b * 2 ^ n.
Proof.
  intros Hn Ha Hb. assert (Z.land a (Z.shiftl b n) = 0) as E.
  { apply Z.bits_inj'. intros i Hi. rewrite Z.land_spec, Z.bits_0. destruct (Z.lt_ge_cases i n).
    - rewrite Z.shiftl_spec_low by done. apply andb_false_r.
    - destruct (decide (a = 0)) as [->|]; [by rewrite Z.testbit_0_l|].
      rewrite (Z.bits_above_log2 a i); [done|lia|]. apply Z.lt_le_trans with n; [|done]. apply Z.log2_lt_pow2; lia. }
  rewrite <-Z.lxor_lor, <-Z.add_nocarry_lxor by done. by rewrite Z.shiftl_mul_pow2.
Qed.

Lemma bit23_spec m : 0 <= m < 2 ^ 24 -> negb (Z.land m 8388608 =? 0) = (2 ^ 23 <=? m).
Proof.
  intros Hm. change 8388608 with (2 ^ 23).
  assert (Z.testbit m 23 = (2 ^ 23 <=? m)) as E.
  { destruct (Z.leb_spec (2 ^ 23) m) as [Hle|Hlt].
    - apply Z.testbit_true; [lia|]. by rewrite <-(Z.div_unique m (2 ^ 23) 1 (m - 2 ^ 23)) by lia.
    - apply Z.testbit_false; [lia|]. by rewrite Z.div_small by lia. }
  rewrite <-E. destruct (Z.testbit m 23) eqn:Hb; destruct (Z.eqb_spec (Z.land m (2 ^ 23)) 0) as [H0|H0]; try done; exfalso.
  - assert (Z.testbit (Z.land m (2 ^ 23)) 23 = true) by (by rewrite Z.land_spec, Hb, Z.pow2_bits_eqb). by rewrite H0 in *.
  - apply H0, Z.bits_inj'. intros i Hi. rewrite Z.land_spec, Z.bits_0, Z.pow2_bits_eqb by lia.
    destruct (Z.eqb_spec 23 i) as [<-|]; [by rewrite Hb|apply andb_false_r].
Qed.

Lemma from_u64_ok n x : u64_range x -> limbs_ok (uint_from_u64 n x).
Proof. intros Hx. constructor; [done|apply uint_zero_ok]. Qed.

Lemma as_u64_val x : limbs_ok x -> x <> [] -> uint_as_u64 x = val x mod 2 ^ 64.
Proof.
  intros Hx Hne. destruct Hx as [|d x Hd Hx]; [done|]. cbn [val]. unfold uint_as_u64.
  change ((d :: x) !!! 0%nat) with d. rewrite (Z.mul_comm (2 ^ 64)), Z.mod_add, Z.mod_small by lia. done.
Qed.

Lemma land24 bits : 0 <= bits -> Z.land bits 16777215 = bits mod 2 ^ 24.
Proof. intros. change 16777215 with (Z.ones 24). apply Z.land_ones. lia. Qed.

(** Decoding: a mantissa below [2 ^ 23] times a power of 256. *)
Lemma from_compact_value m e : 0 <= m < 2 ^ 23 -> 3 <= e < 35 ->
  let x := from_compact_target_bits (m + e * 2 ^ 24) in
  limbs_ok x /\ length x = 4%nat /\ val x = (m * 256 ^ (e - 3)) mod 2 ^ 256.
Proof.
  intros Hm He x. unfold x, from_compact_target_bits. rewrite land24, Z.shiftr_div_pow2 by lia.
  rewrite Z.div_add, Z.div_small, Z.mod_add, Z.mod_small, Z.add_0_l by lia.
  replace (256 ^ (e - 3)) with (2 ^ (8 * (e - 3))) by (by rewrite Z.pow_mul_r by lia).
  assert ((8388607 <? m) = false) as Hm' by lia.
  destruct (Z.leb_spec e 3) as [H3|H3].
  - replace e with 3 by lia. change (8 * (3 - 3)) with 0. rewrite Z.shiftr_0_r, Hm'.
    destruct (uint_shl_spec (uint_from_u64 4 m) 0) as (H1 & H2 & H3'); [apply from_u64_ok; lia|cbn; lia|].
    rewrite H3', val_from_u64 by lia. split_and!; [done..|by rewrite Z.mul_1_r].
  - rewrite Hm'. destruct (uint_shl_spec (uint_from_u64 4 m) (8 * (e - 3))) as (H1 & H2 & H3'); [apply from_u64_ok; lia|cbn; lia|].
    rewrite H3', val_from_u64 by lia. done.
Qed.

Lemma pack_spec m size : 0 <= m < 2 ^ 24 -> 0 <= size <= 32 ->
  (let '(compact, size) := if negb (Z.land m 8388608 =? 0) then (Z.shiftr m 8, size + 1) else (m, size) in
   Z.lor compact (wrap 32 (Z.shiftl size 24))) =
  if 2 ^ 23 <=? m then m / 256 + (size + 1) * 2 ^ 24 else m + size * 2 ^ 24.
Proof.
  intros Hm Hs. rewrite bit23_spec by done. destruct (2 ^ 23 <=? m) eqn:E.
  - rewrite wrap_small by (rewrite Z.shiftl_mul_pow2; lia). rewrite Z.shiftr_div_pow2 by lia. change (2 ^ 8) with 256.
    apply lor_shiftl_add; [lia|..|lia]. split; [apply Z.div_pos; lia|apply Z.div_lt_upper_bound; lia].
  - rewrite wrap_small by (rewrite Z.shiftl_mul_pow2; lia). apply lor_shiftl_add; lia.
Qed.

(** The bytes of a number, from its bits. *)
Lemma size_spec v : 0 < v < 2 ^ 256 ->
  let size := div_ceil (bit_length v) 8 in 1 <= size <= 32 /\ 256 ^ (size - 1) <= v < 256 ^ size.
Proof.
  intros Hv size. pose proof (bit_length_low v ltac:(lia)) as [Hl Hp]. pose proof (bit_length_bound v ltac:(lia)) as Hb.
  pose proof (bit_length_le v 256 ltac:(lia) ltac:(lia)) as H256.
  assert (8 * size - 7 <= bit_length v <= 8 * size) as Hs.
  { unfold size, div_ceil. pose proof (Z.div_mod (bit_length v + 8 - 1) 8 ltac:(lia)).
    pose proof (Z.mod_pos_bound (bit_length v + 8 - 1) 8 ltac:(lia)). lia. }
  split; [lia|]. change 256 with (2 ^ 8). rewrite <-!Z.pow_mul_r by lia. split.
  - etrans; [|exact Hl]. apply Z.pow_le_mono_r; lia.
  - eapply Z.lt_le_trans; [exact Hb|]. apply Z.pow_le_mono_r; lia.
Qed.

(** Encoding: the mantissa keeps the three leading bytes, or two when the first
    bit of the first one is set. *)
Lemma compact_form x : limbs_ok x -> length x = 4%nat -> 2 ^ 15 <= val x ->
  exists k, 0 <= k <= 30 /\ compact_target_bits x = val x / 256 ^ k + (k + 3) * 2 ^ 24 /\ 2 ^ 15 <= val x / 256 ^ k < 2 ^ 23.
Proof.
  intros Hx Hl Hv. pose proof (val_range x Hx) as Hr. rewrite Hl in Hr. change (base 4) with (2 ^ 256) in Hr.
  pose proof (size_spec (val x) ltac:(lia)) as [Hs [Hlo Hhi]]. unfold compact_target_bits. rewrite uint_bits_spec by done.
  set (size := div_ceil (bit_length (val x)) 8) in *. set (v := val x) in *.
  assert (Hx0 : x <> []) by (by intros ->). destruct (Z.leb_spec size 3) as [H3|H3].
  - rewrite as_u64_val by done. fold v. assert (v < 2 ^ 24).
    { eapply Z.lt_le_trans; [exact Hhi|]. change (2 ^ 24) with (256 ^ 3). apply Z.pow_le_mono_r; lia. }
    assert (size = 2 \/ size = 3) as [E|E].
    { assert (size <> 1); [|lia]. intros E. rewrite E in Hhi. change (256 ^ 1) with 256 in Hhi. lia. }
    + rewrite E in *. change (256 ^ 2) with (2 ^ 16) in Hhi. change (8 * (3 - 2)) with 8.
      unfold shl64. rewrite (Z.mod_small v), Z.shiftl_mul_pow2, (wrap_small 64), (wrap_small 32) by lia.
      rewrite pack_spec by lia. rewrite (proj2 (Z.leb_le _ _)) by lia. exists 0. change (2 ^ 8) with 256. change (256 ^ 0) with 1.
      rewrite Z.div_mul, Z.div_1_r by lia. lia.
    + rewrite E in *. change (256 ^ (3 - 1)) with (2 ^ 16) in Hlo. change (8 * (3 - 3)) with 0.
      unfold shl64. rewrite (Z.mod_small v), Z.shiftl_0_r, (wrap_small 64), (wrap_small 32) by lia.
      rewrite pack_spec by lia. destruct (Z.leb_spec (2 ^ 23) v); [exists 1|exists 0; rewrite Z.div_1_r; lia].
      change (256 ^ 1) with 256. pose proof (Z.div_mod v 256 ltac:(lia)). pose proof (Z.mod_pos_bound v 256 ltac:(lia)). lia.
  - destruct (uint_shr_spec x (8 * (size - 3)) Hx) as (Ho & Hl' & Hv'); [rewrite Hl; lia|].
    rewrite as_u64_val, Hv' by (done || by intros E; rewrite E, Hl in Hl').
    replace (2 ^ (8 * (size - 3))) with (256 ^ (size - 3)) by (by rewrite Z.pow_mul_r by lia). fold v.
    assert (2 ^ 16 <= v / 256 ^ (size - 3) < 2 ^ 24) as Hm.
    { pose proof (Z.pow_pos_nonneg 256 (size - 3) ltac:(lia) ltac:(lia)). split.
      - apply Z.div_le_lower_bound; [lia|]. etrans; [|exact Hlo]. change (2 ^ 16) with (256 ^ 2). rewrite <-Z.pow_add_r by lia.
        apply Z.pow_le_mono_r; lia.
      - apply Z.div_lt_upper_bound; [lia|]. eapply Z.lt_le_trans; [exact Hhi|]. change (2 ^ 24) with (256 ^ 3).
        rewrite <-Z.pow_add_r by lia. apply Z.pow_le_mono_r; lia. }
    set (m := v / 256 ^ (size - 3)) in *. rewrite (Z.mod_small m), (wrap_small 32) by lia. rewrite pack_spec by lia.
    destruct (Z.leb_spec (2 ^ 23) m).
    + exists (size - 2). replace (size - 2) with (size - 3 + 1) by lia. rewrite Z.pow_add_r, <-Z.div_div by lia.
      fold m. change (256 ^ 1) with 256. pose proof (Z.div_mod m 256 ltac:(lia)). pose proof (Z.mod_pos_bound m 256 ltac:(lia)). lia.
    + exists (size - 3). fold m. lia.
Qed.

Lemma from_compact_low m e : 0 <= m < 2 ^ 24 -> 0 <= e <= 3 -> m / 2 ^ (8 * (3 - e)) < 2 ^ 23 ->
  let x := from_compact_target_bits (m + e * 2 ^ 24) in
  limbs_ok x /\ length x = 4%nat /\ val x = m / 2 ^ (8 * (3 - e)).
Proof.
  intros Hm He Hlt x. unfold x, from_compact_target_bits. rewrite land24, Z.shiftr_div_pow2 by lia.
  rewrite Z.div_add, Z.div_small, Z.mod_add, Z.mod_small, Z.add_0_l by lia.
  rewrite (proj2 (Z.leb_le e 3)) by lia. rewrite Z.shiftr_div_pow2 by lia.
  assert (0 <= m / 2 ^ (8 * (3 - e))) by (apply Z.div_pos; [lia|apply Z.pow_pos_nonneg; lia]).
  rewrite (proj2 (Z.ltb_ge _ _)) by lia. set (w := m / 2 ^ (8 * (3 - e))) in *.
  destruct (uint_shl_spec (uint_from_u64 4 w) 0) as (H1 & H2 & H3); [apply from_u64_ok; lia|cbn; lia|].
  rewrite H3, val_from_u64, Z.mul_1_r by lia. split_and!; [done..|]. apply Z.mod_small. cbn. lia.
Qed.

Lemma compact_small x : limbs_ok x -> length x = 4%nat -> val x < 2 ^ 15 ->
  exists m e, compact_target_bits x = m + e * 2 ^ 24 /\ 0 <= m < 2 ^ 23 /\ 0 <= e <= 2 /\ m / 2 ^ (8 * (3 - e)) = val x.
Proof.
  intros Hx Hl Hv. pose proof (val_range x Hx) as Hr. unfold compact_target_bits. rewrite uint_bits_spec by done.
  assert (Hx0 : x <> []) by (by intros ->). rewrite as_u64_val by done. set (v := val x) in *.
  destruct (decide (v = 0)) as [E0|Hne].
  { rewrite E0. change (div_ceil (bit_length 0) 8) with 0. exists 0, 0. done. }
  pose proof (size_spec v ltac:(lia)) as [Hs [Hlo Hhi]]. set (size := div_ceil (bit_length v) 8) in *.
  assert (size = 1 \/ size = 2) as [E|E].
  { assert (size < 3); [|lia]. apply Z.lt_nge. intros H3. assert (256 ^ 2 <= 256 ^ (size - 1)) by (apply Z.pow_le_mono_r; lia). lia. }
  - rewrite E in *. change (256 ^ 1) with 256 in Hhi. rewrite (proj2 (Z.leb_le 1 3)) by lia. change (8 * (3 - 1)) with 16.
    unfold shl64. rewrite (Z.mod_small v), Z.shiftl_mul_pow2, (wrap_small 64), (wrap_small 32) by lia. rewrite pack_spec by lia.
    destruct (Z.leb_spec (2 ^ 23) (v * 2 ^ 16)).
    + exists (v * 256), 2. replace (v * 2 ^ 16) with (v * 256 * 256) by lia. rewrite Z.div_mul by lia. split_and!; try lia.
      by rewrite Z.div_mul.
    + exists (v * 2 ^ 16), 1. split_and!; try lia. by rewrite Z.div_mul.
  - rewrite E in *. rewrite (proj2 (Z.leb_le 2 3)) by lia. change (8 * (3 - 2)) with 8.
    unfold shl64. rewrite (Z.mod_small v), Z.shiftl_mul_pow2, (wrap_small 64), (wrap_small 32) by lia. rewrite pack_spec by lia.
    rewrite (proj2 (Z.leb_gt _ _)) by lia. exists (v * 2 ^ 8), 2. split_and!; try lia. by rewrite Z.div_mul.
Qed.

(** Decoding an encoded target truncates it to its leading bytes. *)
Lemma compact_truncates x : limbs_ok x -> length x = 4%nat ->
  let y := from_compact_target_bits (compact_target_bits x) in
  limbs_ok y /\ length y = 4%nat /\
  exists k, 0 <= k /\ val y = val x / 256 ^ k * 256 ^ k /\ (k = 0 \/ 2 ^ 15 <= val x / 256 ^ k).
Proof.
  intros Hx Hl y. unfold y. pose proof (val_range x Hx) as Hr. rewrite Hl in Hr. change (base 4) with (2 ^ 256) in Hr.
  destruct (Z.lt_ge_cases (val x) (2 ^ 15)) as [Hlt|Hge].
  - destruct (compact_small x Hx Hl Hlt) as (m & e & -> & Hm & He & Hv).
    destruct (from_compact_low m e) as (H1 & H2 & H3); [lia..|]. split_and!; [done..|]. exists 0.
    rewrite H3, Hv, Z.div_1_r. lia.
  - destruct (compact_form x Hx Hl Hge) as (k & Hk & -> & Hm).
    destruct (from_compact_value (val x / 256 ^ k) (k + 3)) as (H1 & H2 & H3); [lia..|]. split_and!; [done..|].
    exists k. rewrite H3. replace (k + 3 - 3) with k by lia. split_and!; [lia| |lia]. apply Z.mod_small.
    pose proof (Z.pow_pos_nonneg 256 k ltac:(lia) ltac:(lia)). pose proof (Z.mul_div_le (val x) (256 ^ k) ltac:(lia)). nia.
Qed.

(** The targets that have an encoding of their own. *)
Definition representable (g : Z) : Prop := exists m j, 0 <= m < 2 ^ 23 /\ 0 <= j /\ g = m * 256 ^ j.

Lemma truncate_floor v k g : 0 <= k -> 0 <= v -> k = 0 \/ 2 ^ 15 <= v / 256 ^ k -> representable g -> g <= v ->
  g <= v / 256 ^ k * 256 ^ k.
Proof.
  intros Hk Hv Hm (m & j & Hm' & Hj & ->) Hle. pose proof (Z.pow_pos_nonneg 256 k ltac:(lia) ltac:(lia)).
  destruct (Z.le_gt_cases k j) as [Hkj|Hkj].
  - replace j with (j - k + k) in * by lia. rewrite Z.pow_add_r in * by lia. rewrite Z.mul_assoc in *.
    apply Z.mul_le_mono_nonneg_r; [lia|]. apply Z.div_le_lower_bound; [lia|]. lia.
  - destruct Hm as [->|Hm]; [lia|]. assert (256 ^ j * 256 <= 256 ^ k) as Hp.
    { change 256 with (256 ^ 1) at 2. rewrite <-Z.pow_add_r by lia. apply Z.pow_le_mono_r; lia. }
    pose proof (Z.pow_pos_nonneg 256 j ltac:(lia) ltac:(lia)). nia.
Qed.

(** Every word decodes to a representable target or wraps around. *)
(** Every target is a short mantissa times a power of 256. *)
Lemma from_compact_shape bits : u32_range bits ->
  limbs_ok (from_compact_target_bits bits) /\ length (from_compact_target_bits bits) = 4%nat /\
  exists m j, 0 <= m < 2 ^ 23 /\ 0 <= j < 32 /\ val (from_compact_target_bits bits) = m * 256 ^ j.
Proof.
  intros Hb. set (e := bits / 2 ^ 24). set (m := bits mod 2 ^ 24).
  assert (0 <= e < 256) as He by (unfold e; split; [apply Z.div_pos; lia|apply Z.div_lt_upper_bound; lia]).
  assert (0 <= m < 2 ^ 24) as Hm by (apply Z.mod_pos_bound; lia).
  unfold from_compact_target_bits. rewrite land24, Z.shiftr_div_pow2 by lia. fold e m.
  assert (Hz : limbs_ok (uint_zero 4) /\ length (uint_zero 4) = 4%nat /\ exists m j, 0 <= m < 2 ^ 23 /\ 0 <= j < 32 /\ val (uint_zero 4) = m * 256 ^ j).
  { split_and!; [apply uint_zero_ok|done|exists 0, 0; rewrite val_zero; lia]. }
  destruct (Z.leb_spec e 3).
  - rewrite Z.shiftr_div_pow2 by lia. set (w := m / 2 ^ (8 * (3 - e))). destruct (Z.ltb_spec 8388607 w); [done|].
    assert (0 <= w) by (apply Z.div_pos; [lia|apply Z.pow_pos_nonneg; lia]).
    destruct (uint_shl_spec (uint_from_u64 4 w) 0) as (R1 & R2 & R3); [apply from_u64_ok; lia|cbn; lia|].
    split_and!; [done..|]. exists w, 0. rewrite R3, val_from_u64, Z.mul_1_r by lia. rewrite Z.mod_small; cbn; lia.
  - destruct (Z.ltb_spec 8388607 m); [done|]. set (s := 8 * (e - 3)) in *.
    replace (uint_shl (uint_from_u64 4 m) s) with (uint_shl (uint_from_u64 4 m) (8 * ((e - 3) mod 32))).
    2: { unfold uint_shl, overflowing_shl. cbn [fst]. change (64 * Z.of_nat (length (uint_from_u64 4 m))) with 256.
         unfold s. change 256 with (8 * 32). rewrite !Z.mul_mod_distr_l, Z.mod_mod by lia. done. }
    pose proof (Z.mod_pos_bound (e - 3) 32 ltac:(lia)) as Hj. set (j := (e - 3) mod 32) in *.
    destruct (uint_shl_spec (uint_from_u64 4 m) (8 * j)) as (R1 & R2 & R3); [apply from_u64_ok; lia|cbn; lia|].
    split_and!; [done..|]. exists (m mod 256 ^ (32 - j)), j. pose proof (Z.pow_pos_nonneg 256 (32 - j) ltac:(lia) ltac:(lia)).
    split_and!; [pose proof (Z.mod_pos_bound m (256 ^ (32 - j)) ltac:(lia)); lia|pose proof (Z.mod_le m (256 ^ (32 - j)) ltac:(lia) ltac:(lia)); lia|lia|lia|].
    rewrite R3, val_from_u64 by lia. change (base (length (uint_from_u64 4 m))) with (256 ^ 32). replace (2 ^ (8 * j)) with (256 ^ j) by (by rewrite Z.pow_mul_r by lia).
    replace 32 with (32 - j + j) at 1 by lia. rewrite Z.pow_add_r by lia. apply Z.mul_mod_distr_r; [lia|]. apply Z.pow_nonzero; lia.
Qed.

Lemma from_compact_ok bits : u32_range bits ->
  limbs_ok (from_compact_target_bits bits) /\ length (from_compact_target_bits bits) = 4%nat /\
  (val (from_compact_target_bits bits) < 2 ^ 23 \/ val (from_compact_target_bits bits) mod 2 = 0).
Proof.
  intros Hb. destruct (from_compact_shape bits Hb) as (H1 & H2 & m & j & Hm & Hj & ->). split_and!; [done..|].
  destruct (decide (j = 0)) as [->|Hne]; [left; lia|right]. replace j with (j - 1 + 1) by lia. rewrite Z.pow_add_r by lia.
  replace (m * (256 ^ (j - 1) * 256 ^ 1)) with (m * 256 ^ (j - 1) * 128 * 2) by lia. apply Z.mod_mul. lia.
Qed.

Lemma limbs_lt x : limbs_ok x -> length x = 4%nat -> (val x < 2 ^ 23 \/ val x mod 2 = 0) -> val x <= 2 ^ 256 - 2.
Proof.
  intros Hx Hl Hp. pose proof (val_range x Hx) as Hr. rewrite Hl in Hr. change (base 4) with (2 ^ 256) in Hr.
  destruct Hp as [?|Hp]; [lia|]. assert (val x <> 2 ^ 256 - 1); [|lia]. intros E. rewrite E in Hp. vm_compute in Hp. done.
Qed.

Lemma not_div t : 0 <= t < 2 ^ 256 - 1 -> (2 ^ 256 - 1 - t) / (t + 1) + 1 = 2 ^ 256 / (t + 1).
Proof. intros Ht. rewrite <-Z.div_add by lia. f_equal. lia. Qed.

Lemma take3_spec x : limbs_ok x -> length x = 4%nat ->
  if x !!! 3%nat =? 0 then val (take 3 x) = val x /\ val x < 2 ^ 192 else 2 ^ 192 <= val x.
Proof.
  intros Hx Hl. destruct x as [|a [|b [|c [|d [|]]]]]; try done. change ([a; b; c; d] !!! 3%nat) with d.
  repeat (apply Forall_cons in Hx as [? Hx]). destruct (Z.eqb_spec d 0) as [->|]; cbn [take val]; lia.
Qed.

Lemma work_step q : limbs_ok q -> length q = 4%nat -> val q + 1 < 2 ^ 256 ->
  if val q + 1 <? 2 ^ 192
  then exists w, uint192_try_from (uint_add_u64 q 1) = Some w /\ limbs_ok w /\ length w = 3%nat /\ val w = val q + 1
  else uint192_try_from (uint_add_u64 q 1) = None.
Proof.
  intros Hq Hl Hv. assert (q <> []) by (by intros ->).
  destruct (uint_add_u64_spec q 1) as (B1 & B2 & B3); [done|lia|done|rewrite Hl; change (base 4) with (2 ^ 256); lia|].
  pose proof (take3_spec (uint_add_u64 q 1) B1 ltac:(congruence)) as H3. unfold uint192_try_from. rewrite B3 in H3.
  destruct (_ =? 0).
  - rewrite (proj2 (Z.ltb_lt _ _)) by lia. exists (take 3 (uint_add_u64 q 1)).
    split_and!; [done|by apply Forall_take|rewrite length_take; lia|lia].
  - by rewrite (proj2 (Z.ltb_ge _ _)) by lia.
Qed.

Lemma work_quotient x : limbs_ok x -> length x = 4%nat -> 0 < val x <= 2 ^ 256 - 2 ->
  exists q, uint_div (uint_not x) (uint_add_u64 x 1) = Some q /\ limbs_ok q /\ length q = 4%nat /\
    val q + 1 = 2 ^ 256 / (val x + 1).
Proof.
  intros Hx Hl Hle. assert (x <> []) by (by intros ->).
  destruct (uint_add_u64_spec x 1) as (A1 & A2 & A3); [done|lia|done|rewrite Hl; change (base 4) with (2 ^ 256); lia|].
  destruct (uint_not_spec x Hx) as (N1 & N2 & N3). rewrite Hl in *. change (base 4) with (2 ^ 256) in *.
  unfold uint_div. pose proof (div_rem_spec (uint_not x) (uint_add_u64 x 1) N1 A1 ltac:(congruence)) as Hd.
  destruct (div_rem _ _) as [[q r]|]; [|lia]. destruct Hd as (_ & Hq & _ & Hql & _ & Hqv & _). exists q.
  split_and!; [done|done|congruence|]. rewrite Hqv, N3, A3. apply not_div. lia.
Qed.

(** [calc_work]: [2 ^ 256 / (target + 1)], the panic when it does not fit, and the
    target 0, whose [2 ^ 256] wraps to no work at all. *)
Lemma calc_work_spec bits : u32_range bits ->
  let t := val (from_compact_target_bits bits) in
  if t =? 0 then calc_work bits = Some (uint_zero 3)
  else if 2 ^ 64 <=? t
  then exists w, calc_work bits = Some w /\ limbs_ok w /\ length w = 3%nat /\ val w = 2 ^ 256 / (t + 1) /\ 1 <= val w < 2 ^ 192
  else calc_work bits = None.
Proof.
  intros Hb. destruct (from_compact_ok bits Hb) as (Hx & Hl & Hp). pose proof (limbs_lt _ Hx Hl Hp) as Hle.
  unfold calc_work. generalize dependent (from_compact_target_bits bits). intros x Hx Hl _ Hle. cbv zeta.
  pose proof (val_range x Hx) as Hr. destruct (Z.eqb_spec (val x) 0) as [E0|Hn0].
  { assert (x = uint_zero 4) as -> by (apply val_inj; [done|apply uint_zero_ok|done|by rewrite val_zero]). by vm_compute. }
  destruct (work_quotient x Hx Hl ltac:(lia)) as (q & -> & Hq & Hql & Hqv). cbn [mbind option_bind].
  assert (1 <= 2 ^ 256 / (val x + 1)) by (apply Z.div_le_lower_bound; lia).
  assert (2 ^ 256 / (val x + 1) < 2 ^ 256) by (apply Z.div_lt; lia).
  pose proof (work_step q Hq Hql ltac:(lia)) as Hs. rewrite Hqv in Hs. destruct (Z.leb_spec (2 ^ 64) (val x)) as [Hge|Hlt].
  - assert (2 ^ 256 / (val x + 1) < 2 ^ 192) by (apply Z.div_lt_upper_bound; lia).
    rewrite (proj2 (Z.ltb_lt _ _)) in Hs by lia. destruct Hs as (w & -> & Hw & Hwl & Hwv). exists w. rewrite Hwv. split_and!; done || lia.
  - assert (2 ^ 192 <= 2 ^ 256 / (val x + 1)) by (apply Z.div_le_lower_bound; lia).
    by rewrite (proj2 (Z.ltb_ge _ _)) in Hs by lia.
Qed.

(** The work of a level: a power of two that grows with the level up to
    [MAX_WORK_LEVEL]. *)
Lemma level_work_spec level max_block_level : 0 <= level < 256 -> 0 <= max_block_level < 256 ->
  limbs_ok (level_work level max_block_level) /\ length (level_work level max_block_level) = 3%nat /\
  val (level_work level max_block_level) =
    if level =? 0 then 0 else 2 ^ Z.min (level + 256 - max_block_level) MAX_WORK_LEVEL.
Proof.
  intros Hl Hm. unfold level_work, MAX_WORK_LEVEL. destruct (level =? 0) eqn:E.
  { split_and!; [apply from_u64_ok; lia|done..]. }
  destruct (uint_shl_spec (uint_from_u64 3 1) (Z.min (level + 256 - max_block_level) 128)) as (H1 & H2 & H3);
    [apply from_u64_ok; lia|cbn; lia|]. split_and!; [done..|]. rewrite H3, val_from_u64, Z.mul_1_l by lia.
  apply Z.mod_small. split; [apply Z.pow_nonneg; lia|]. apply Z.pow_lt_mono_r; cbn; lia.
Qed.

(** * Theorems *)

(** the compact encoding of a target loses less than one part in [2 ^ 15] and never
    rounds up; and it is the best one: no target with an encoding of its own lies
    strictly between the decoded target and the original. *)
Theorem compact_target_precision x : limbs_ok x -> length x = 4%nat ->
  let y := val (from_compact_target_bits (compact_target_bits x)) in
  y <= val x /\ (val x - y) * 2 ^ 15 <= val x /\ forall g, representable g -> g <= val x -> g <= y.
Proof.
  intros Hx Hl y. unfold y. destruct (compact_truncates x Hx Hl) as (_ & _ & k & Hk & -> & Hm). pose proof (val_range x Hx).
  pose proof (Z.pow_pos_nonneg 256 k ltac:(lia) ltac:(lia)). pose proof (Z.div_mod (val x) (256 ^ k) ltac:(lia)).
  pose proof (Z.mod_pos_bound (val x) (256 ^ k) ltac:(lia)). split_and!; [lia| |].
  - destruct Hm as [->|Hm]; [rewrite Z.div_1_r; lia|]. nia.
  - intros g. apply truncate_floor; [done|lia|done].
Qed.

Lemma compact_target_precision_witness :
  exists x, let y := val (from_compact_target_bits (compact_target_bits x)) in
  y <= val x /\ (val x - y) * 2 ^ 15 <= val x /\ forall g, representable g -> g <= val x -> g <= y.
Proof.
  exists [1; 2; 3; 5 * 2 ^ 56 + 4]. apply compact_target_precision; [|done]. repeat constructor; lia.
Defined.

(** the words a node writes are fixed points: a mantissa with at least 16 bits and
    a clear sign bit decodes to a target that encodes to the same word. *)
Theorem compact_bits_roundtrip m e : 2 ^ 15 <= m < 2 ^ 23 -> 3 <= e < 35 -> m * 256 ^ (e - 3) < 2 ^ 256 ->
  compact_target_bits (from_compact_target_bits (m + e * 2 ^ 24)) = m + e * 2 ^ 24.
Proof.
  intros Hm He Hfit. destruct (from_compact_value m e ltac:(lia) He) as (Hx & Hl & Hv).
  set (x := from_compact_target_bits _) in *. pose proof (Z.pow_pos_nonneg 256 (e - 3) ltac:(lia) ltac:(lia)).
  rewrite Z.mod_small in Hv by nia. destruct (compact_form x Hx Hl) as (k & Hk & -> & Hmk); [nia|].
  assert (k = e - 3) as ->; [|rewrite Hv, Z.div_mul by lia; f_equal; lia].
  pose proof (Z.pow_pos_nonneg 256 k ltac:(lia) ltac:(lia)). pose proof (Z.div_mod (val x) (256 ^ k) ltac:(lia)) as Hdm.
  pose proof (Z.mod_pos_bound (val x) (256 ^ k) ltac:(lia)).
  destruct (Z.lt_trichotomy k (e - 3)) as [Hlt|[|Hlt]]; [exfalso|done|exfalso].
  - assert (256 ^ k * 256 <= 256 ^ (e - 3)); [|nia]. change 256 with (256 ^ 1) at 2. rewrite <-Z.pow_add_r by lia. apply Z.pow_le_mono_r; lia.
  - assert (256 ^ (e - 3) * 256 <= 256 ^ k); [|nia]. change 256 with (256 ^ 1) at 2. rewrite <-Z.pow_add_r by lia. apply Z.pow_le_mono_r; lia.
Qed.

Lemma compact_bits_roundtrip_witness :
  compact_target_bits (from_compact_target_bits (327680 + 32 * 2 ^ 24)) = 327680 + 32 * 2 ^ 24.
Proof. apply compact_bits_roundtrip; lia. Defined.

(** C28: the long division of the wide integers, bit by bit over limbs of 64 bits, is the division
    of the numbers they stand for, at every width: it panics exactly on the divisor zero, and
    otherwise returns the quotient and the remainder in as many limbs. *)
Theorem uint_division_exact (x y : limbs) : limbs_ok x -> limbs_ok y -> length x = length y ->
  (div_rem x y = None <-> val y = 0) /\
  forall q r, div_rem x y = Some (q, r) -> limbs_ok q /\ limbs_ok r /\ length q = length x /\ length r = length x /\
    val q = val x / val y /\ val r = val x mod val y.
Proof.
  intros Hx Hy Hl. pose proof (div_rem_spec x y Hx Hy Hl) as H. destruct (div_rem x y) as [[q r]|] eqn:E.
  - destruct H as (Hn & H). split; [done|]. by intros q' r' [= <- <-].
  - split; [done|]. discriminate.
Qed.

(** Concrete limbs are in range. *)
Ltac limbs_bounds := repeat (apply Forall_cons; split; [vm_compute; split; [discriminate|reflexivity]|]); constructor.

Lemma uint_division_exact_witness : exists q r, div_rem [5; 7; 0; 9] [3; 1; 0; 0] = Some (q, r) /\ val q = val [5; 7; 0; 9] / val [3; 1; 0; 0].
Proof.
  eexists _, _. split; [vm_compute; reflexivity|].
  refine (proj1 (proj2 (proj2 (proj2 (proj2 (proj2 (uint_division_exact [5; 7; 0; 9] [3; 1; 0; 0] _ _ _) _ _ _)))))); [limbs_bounds|limbs_bounds|reflexivity|vm_compute; reflexivity].
Defined.

(** C29: the work of a difficulty word is the expected number of hashes, [2 ^ 256 / (target + 1)]
    rounded down, for every target of at least [2 ^ 64]; a smaller target panics, since its
    work has more than 192 bits, except the target 0, whose work is 0. *)
Theorem calc_work_exact (bits : Z) : u32_range bits ->
  let t := val (from_compact_target_bits bits) in
  (calc_work bits = None <-> 0 < t < 2 ^ 64) /\
  forall w, calc_work bits = Some w -> limbs_ok w /\ length w = 3%nat /\ val w = (if t =? 0 then 0 else 2 ^ 256 / (t + 1)).
Proof.
  intros Hb t. pose proof (calc_work_spec bits Hb) as H. cbv zeta in H. fold t in H. destruct (from_compact_ok bits Hb) as (Hx & _). pose proof (val_range _ Hx) as [Hr _]. fold t in Hr.
  destruct (Z.eqb_spec t 0) as [E|E]; [rewrite H; split; [split; [done|lia]|intros w [= <-]; split; [apply uint_zero_ok|done]]|].
  destruct (Z.leb_spec (2 ^ 64) t) as [Ht|Ht].
  - destruct H as (w & -> & H1 & H2 & H3 & _). split; [split; [done|lia]|]. by intros w' [= <-].
  - rewrite H. split; [split; [lia|done]|]. discriminate.
Qed.

Lemma calc_work_exact_witness : calc_work 16842753 = None /\ exists w, calc_work 537198592 = Some w /\ val w = 2 ^ 256 / (val (from_compact_target_bits 537198592) + 1).
Proof.
  split; [refine (proj2 (proj1 (calc_work_exact 16842753 _)) _); vm_compute; split; (reflexivity || discriminate)|].
  eexists. split; [vm_compute; reflexivity|]. refine (proj2 (proj2 (proj2 (calc_work_exact 537198592 _) _ _))); [vm_compute; split; (reflexivity || discriminate)|vm_compute; reflexivity].
Defined.
