(* ===== verification/Relations.v ===== *)
(** The relations of the block DAG (consensus/src/model/stores/{relations,children}.rs
    and consensus/src/processes/relations.rs): the store interface with its memory and
    database implementations, the insertion of a block, the replacement of a parent, and
    the deletion of a block that keeps the order of the others.

    As for the reachability stores, a database table is a map from hashes, and a batch
    is applied by the operation that writes it. The iteration over a hash set is over
    its elements in some order. *)

From S2P Require Import Prelude Access Interval Reach ReachStores ReachService.

Class RelationsStore (S : Type) := {
  rl_get_parents : S -> hash -> result StoreError (list hash);
  rl_get_children : S -> hash -> result StoreError (gset hash);
  rl_has : S -> hash -> result StoreError bool;
  rl_set_parents : hash -> list hash -> st S StoreError ();
  rl_delete_entries : hash -> st S StoreError ();
  rl_insert_child : hash -> hash -> st S StoreError ();
  rl_delete_child : hash -> hash -> st S StoreError ();
}.

Definition RELATIONS_PARENTS : bytes := [18].
Definition RELATIONS_CHILDREN : bytes := [19].

(** [Iterator::position] *)
Definition position (x : hash) (l : list hash) : option nat := fst <$> list_find (fun y => y = x) l.

(** [Vec::swap_remove]; [None] is the panic on an index out of range. *)
Definition swap_remove {A} (i : nat) (l : list A) : option (list A) :=
  z ← last l;
  if bool_decide (i < length l)%nat then Some (take (length l - 1) (<[i := z]> l)) else None.

(** [block_unique]: the first occurrences. *)
Fixpoint block_unique_from (seen : gset hash) (l : list hash) : list hash :=
  match l with
  | [] => []
  | x :: l' => if bool_decide (x ∈ seen) then block_unique_from seen l' else x :: block_unique_from ({[x]} ∪ seen) l'
  end.

Definition block_unique (l : list hash) : list hash := block_unique_from ∅ l.

Lemma collect_map {A B} (f : A -> result stop B) (h : A -> B) l : (forall x, x ∈ l -> f x = Ok (h x)) -> collect f l = Ok (map h l).
Proof.
  induction l as [|x l IH]; intros Hl; [done|]. cbn. rewrite Hl by set_solver. cbn. rewrite IH by set_solver. done.
Qed.

(** [Result::unwrap] of an update. *)
Definition unwrap_update {S A} (m : st S stop A) : st S stop A := map_err (fun _ => Crashed) m.

Section extensions.
Context {S : Type} `{RelationsStore S}.

(** * processes/relations.rs, [RelationsStoreExtensions] *)

Definition relations_insert (h : hash) (parents : list hash) : st S stop () :=
  exists_ ← query (fun s => stored (rl_has s h));
  if exists_ : bool then throw (Failed (StoreErr (HashAlreadyExists h)))
  else
    let parents :=
      if bool_decide (length parents = length (block_unique parents)) then parents else block_unique parents in
    _ ← update (rl_set_parents h parents);
    for_each (fun parent => update (rl_insert_child parent h)) parents.

Definition relations_delete (h : hash) : st S stop () :=
  parents ← query (fun s => stored (rl_get_parents s h));
  _ ← update (rl_delete_entries h);
  for_each (fun parent => update (rl_delete_child parent h)) parents.

Definition replace_parent (h replaced_parent : hash) (replace_with : list hash) : st S stop () :=
  parents ← query (fun s => stored (rl_get_parents s h));
  replaced_index ← lift (assert_some (position replaced_parent parents));
  parents ← lift (assert_some (swap_remove replaced_index parents));
  _ ← update (rl_set_parents h (parents ++ replace_with));
  for_each (fun parent => update (rl_insert_child parent h)) replace_with.

Definition relations_init : st S stop () :=
  has ← query (fun s => unwrapped (rl_has s ORIGIN));
  if has : bool then mret tt else unwrap_update (relations_insert ORIGIN []).

(** [delete_level_relations] *)
Definition delete_level_relations (h : hash) : st S stop () :=
  children ← query (fun s => stored (rl_get_children s h));
  _ ← for_each (fun child =>
        child_parents ← query (fun s => unwrapped (rl_get_parents s child));
        let replace_with := if bool_decide (child_parents = [h]) then [ORIGIN] else [] in
        unwrap_update (replace_parent child h replace_with)) (elements children);
  unwrap_update (relations_delete h).

End extensions.

(** * The memory store *)

Record MemoryRelationsStore := mk_memory_relations {
  mr_parents_map : gmap hash (list hash);
  mr_children_map : gmap hash (list hash);
}.

Definition mr_new : MemoryRelationsStore := mk_memory_relations ∅ ∅.

Definition mr_get_parents (s : MemoryRelationsStore) (h : hash) : result StoreError (list hash) :=
  ok_or (KeyNotFound (DbKey_new RELATIONS_PARENTS h)) (mr_parents_map s !! h).

Definition mr_has (s : MemoryRelationsStore) (h : hash) : result StoreError bool :=
  Ok (bool_decide (is_Some (mr_parents_map s !! h))).

Definition mr_get_children (s : MemoryRelationsStore) (h : hash) : result StoreError (gset hash) :=
  has ← mr_has s h;
  if has : bool then Ok (list_to_set (default [] (mr_children_map s !! h)))
  else Err (KeyNotFound (DbKey_new RELATIONS_CHILDREN h)).

Definition mr_insert_child (parent child : hash) : st MemoryRelationsStore StoreError () :=
  fun s =>
    let children := default [] (mr_children_map s !! parent) in
    (mk_memory_relations (mr_parents_map s) (<[parent := children ++ [child]]> (mr_children_map s)), Ok tt).

Definition mr_delete_child (parent child : hash) : st MemoryRelationsStore StoreError () :=
  fun s =>
    let children := default [] (mr_children_map s !! parent) in
    match position child children with
    | None => (s, Ok tt)
    | Some i =>
        (mk_memory_relations (mr_parents_map s) (<[parent := delete i children]> (mr_children_map s)), Ok tt)
    end.

Definition mr_set_parents (h : hash) (parents : list hash) : st MemoryRelationsStore StoreError () :=
  fun s => (mk_memory_relations (<[h := parents]> (mr_parents_map s)) (mr_children_map s), Ok tt).

Definition mr_delete_entries (h : hash) : st MemoryRelationsStore StoreError () :=
  fun s => (mk_memory_relations (delete h (mr_parents_map s)) (delete h (mr_children_map s)), Ok tt).

#[export] Instance memory_relations : RelationsStore MemoryRelationsStore := {
  rl_get_parents := mr_get_parents;
  rl_get_children := mr_get_children;
  rl_has := mr_has;
  rl_set_parents := mr_set_parents;
  rl_delete_entries := mr_delete_entries;
  rl_insert_child := mr_insert_child;
  rl_delete_child := mr_delete_child;
}.

(** * The database store: the table of the parents and the buckets of the children. *)

Record DbRelationsStore := mk_db_relations {
  dr_parents_access : gmap hash (list hash);
  dr_children_store : gmap hash (gset hash);
}.

Definition dr_new : DbRelationsStore := mk_db_relations ∅ ∅.

Definition dr_bucket (s : DbRelationsStore) (h : hash) : gset hash := default ∅ (dr_children_store s !! h).

Definition dr_get_parents (s : DbRelationsStore) (h : hash) : result StoreError (list hash) :=
  ok_or (KeyNotFound (DbKey_new RELATIONS_PARENTS h)) (dr_parents_access s !! h).

Definition dr_has (s : DbRelationsStore) (h : hash) : result StoreError bool :=
  Ok (bool_decide (is_Some (dr_parents_access s !! h))).

Definition dr_get_children (s : DbRelationsStore) (h : hash) : result StoreError (gset hash) :=
  if bool_decide (is_Some (dr_parents_access s !! h)) then Ok (dr_bucket s h)
  else Err (KeyNotFound (DbKey_new RELATIONS_CHILDREN h)).

Definition dr_insert_child (parent child : hash) : st DbRelationsStore StoreError () :=
  fun s => (mk_db_relations (dr_parents_access s) (<[parent := {[child]} ∪ dr_bucket s parent]> (dr_children_store s)), Ok tt).

Definition dr_delete_child (parent child : hash) : st DbRelationsStore StoreError () :=
  fun s => (mk_db_relations (dr_parents_access s) (<[parent := dr_bucket s parent ∖ {[child]}]> (dr_children_store s)), Ok tt).

Definition dr_set_parents (h : hash) (parents : list hash) : st DbRelationsStore StoreError () :=
  fun s => (mk_db_relations (<[h := parents]> (dr_parents_access s)) (dr_children_store s), Ok tt).

Definition dr_delete_entries (h : hash) : st DbRelationsStore StoreError () :=
  fun s => (mk_db_relations (delete h (dr_parents_access s)) (delete h (dr_children_store s)), Ok tt).

#[export] Instance db_relations : RelationsStore DbRelationsStore := {
  rl_get_parents := dr_get_parents;
  rl_get_children := dr_get_children;
  rl_has := dr_has;
  rl_set_parents := dr_set_parents;
  rl_delete_entries := dr_delete_entries;
  rl_insert_child := dr_insert_child;
  rl_delete_child := dr_delete_child;
}.
