(* ===== verification/Ghostdag.v ===== *)
(** The block ordering protocol (consensus/src/processes/sahyadri_consensus/{protocol,
    mergeset,ordering}.rs) and its stores (consensus/src/model/stores/
    sahyadri_consensus.rs): the data of a block, the selected parent, the mergeset and
    its order, and the colouring of the mergeset in blue and red blocks.

    A panic is the outcome [Crashed]. The loops take a bound [fuel] on their
    iterations; running out of it is [Diverges]. *)

From stdpp Require Import sorting.
From S2P Require Import Prelude Access Interval Reach ReachStores ReachService Relations Uint Work.

(** * SahyadriConsensusData *)

Record SahyadriConsensusData := mk_data {
  blue_score : Z;
  blue_work : limbs;
  selected_parent : hash;
  mergeset_blues : list hash;
  mergeset_reds : list hash;
  blues_anticone_sizes : gmap hash Z;
}.

Record CompactSahyadriConsensusData := mk_compact {
  compact_blue_score : Z;
  compact_blue_work : limbs;
  compact_selected_parent : hash;
}.

Definition to_compact (d : SahyadriConsensusData) : CompactSahyadriConsensusData :=
  mk_compact (blue_score d) (blue_work d) (selected_parent d).

Definition new_with_selected_parent (parent : hash) : SahyadriConsensusData :=
  mk_data 0 (uint_zero 3) parent [parent] [] {[ parent := 0 ]}.

Definition mergeset_size (d : SahyadriConsensusData) : nat := (length (mergeset_blues d) + length (mergeset_reds d))%nat.

(** The new entries overwrite the old ones. *)
Definition add_blue (d : SahyadriConsensusData) (block : hash) (blue_anticone_size : Z)
    (block_blues_anticone_sizes : gmap hash Z) : SahyadriConsensusData :=
  mk_data (blue_score d) (blue_work d) (selected_parent d) (mergeset_blues d ++ [block]) (mergeset_reds d)
    (((fun size => wrap 16 (size + 1)) <$> block_blues_anticone_sizes) ∪
     <[block := blue_anticone_size]> (blues_anticone_sizes d)).

Definition add_red (d : SahyadriConsensusData) (block : hash) : SahyadriConsensusData :=
  mk_data (blue_score d) (blue_work d) (selected_parent d) (mergeset_blues d) (mergeset_reds d ++ [block])
    (blues_anticone_sizes d).

Definition finalize_score_and_work (d : SahyadriConsensusData) (score : Z) (work : limbs) : SahyadriConsensusData :=
  mk_data score work (selected_parent d) (mergeset_blues d) (mergeset_reds d) (blues_anticone_sizes d).

Definition unordered_mergeset (d : SahyadriConsensusData) : list hash := mergeset_blues d ++ mergeset_reds d.
Definition data_unordered_mergeset_without_selected_parent (d : SahyadriConsensusData) : list hash :=
  drop 1 (mergeset_blues d) ++ mergeset_reds d.

(** * Store traits *)

Class SahyadriConsensusStore (T : Type) := {
  gs_get_blue_score : T -> hash -> result StoreError Z;
  gs_get_blue_work : T -> hash -> result StoreError limbs;
  gs_get_selected_parent : T -> hash -> result StoreError hash;
  gs_get_mergeset_blues : T -> hash -> result StoreError (list hash);
  gs_get_mergeset_reds : T -> hash -> result StoreError (list hash);
  gs_get_blues_anticone_sizes : T -> hash -> result StoreError (gmap hash Z);
  gs_get_data : T -> hash -> result (fault StoreError) SahyadriConsensusData;
  gs_get_compact_data : T -> hash -> result (fault StoreError) CompactSahyadriConsensusData;
  gs_has : T -> hash -> result StoreError bool;
  gs_insert : hash -> SahyadriConsensusData -> st T StoreError ();
  gs_delete : hash -> st T StoreError ();
}.

(** What the protocol reads of the headers and of the reachability. *)
Class HeaderBits (V : Type) := get_bits : V -> hash -> result StoreError Z.
Class ReachabilityService (U : Type) := rv_is_dag_ancestor_of : U -> hash -> hash -> result stop bool.

#[export] Instance store_service {U} `{ReachabilityStore U} : ReachabilityService U := svc_is_dag_ancestor_of.

Definition unwrapped_fault {A} (r : result (fault StoreError) A) : result stop A :=
  match r with Ok a => Ok a | Err _ => Err Crashed end.

(** * ordering.rs *)

Record SortableBlock := mk_sortable { sb_hash : hash; sb_blue_work : limbs }.

Definition bytes_compare (a b : bytes) : comparison :=
  if bytes_ltb a b then Lt else if bytes_ltb b a then Gt else Eq.

Definition sortable_cmp (a b : SortableBlock) : comparison :=
  match uint_cmp (sb_blue_work a) (sb_blue_work b) with
  | Eq => bytes_compare (sb_hash a) (sb_hash b)
  | c => c
  end.

Definition sortable_le (a b : SortableBlock) : Prop := sortable_cmp a b <> Gt.

#[export] Instance sortable_le_dec a b : Decision (sortable_le a b).
Proof. unfold sortable_le. destruct (sortable_cmp a b); [left|left|right]; congruence. Defined.

(** [Iterator::max]: of equal elements the last. *)
Fixpoint max_from (best : SortableBlock) (l : list SortableBlock) : SortableBlock :=
  match l with
  | [] => best
  | x :: l' => max_from (match sortable_cmp best x with Gt => best | _ => x end) l'
  end.

Definition sortable_max (l : list SortableBlock) : option SortableBlock :=
  match l with [] => None | x :: l' => Some (max_from x l') end.

Section ordering.
Context {T : Type} `{SahyadriConsensusStore T}.

Definition sortable (s : T) (h : hash) : result stop SortableBlock :=
  w ← unwrapped (gs_get_blue_work s h);
  Ok (mk_sortable h w).

(** [sort_by_cached_key] computes every key first. *)
Definition sort_blocks (s : T) (blocks : list hash) : result stop (list hash) :=
  keys ← collect (sortable s) blocks;
  Ok (map sb_hash (merge_sort sortable_le keys)).

Definition find_selected_parent (s : T) (parents : list hash) : result stop hash :=
  keys ← collect (sortable s) parents;
  best ← assert_some (sortable_max keys);
  Ok (sb_hash best).

(** [merge_join_by] of two lists, where [cmp] never finds equal elements. *)
Fixpoint merge_join (cmp : SortableBlock -> SortableBlock -> comparison) (l1 : list SortableBlock) :
    list SortableBlock -> result stop (list SortableBlock) :=
  fix go l2 :=
    match l1, l2 with
    | [], _ => Ok l2
    | _, [] => Ok l1
    | a :: l1', b :: l2' =>
        match cmp a b with
        | Lt => r ← merge_join cmp l1' l2; Ok (a :: r)
        | Gt => r ← go l2'; Ok (b :: r)
        | Eq => Err Crashed
        end
    end.

Definition ascending_mergeset_without_selected_parent (s : T) (d : SahyadriConsensusData) : result stop (list SortableBlock) :=
  blues ← collect (sortable s) (drop 1 (mergeset_blues d));
  reds ← collect (sortable s) (mergeset_reds d);
  merge_join sortable_cmp blues reds.

Definition descending_mergeset_without_selected_parent (s : T) (d : SahyadriConsensusData) : result stop (list SortableBlock) :=
  blues ← collect (sortable s) (reverse (drop 1 (mergeset_blues d)));
  reds ← collect (sortable s) (reverse (mergeset_reds d));
  merge_join (fun a b => sortable_cmp b a) blues reds.

Definition consensus_ordered_mergeset_without_selected_parent (s : T) (d : SahyadriConsensusData) : result stop (list hash) :=
  l ← ascending_mergeset_without_selected_parent s d;
  Ok (map sb_hash l).

Definition consensus_ordered_mergeset (s : T) (d : SahyadriConsensusData) : result stop (list hash) :=
  l ← consensus_ordered_mergeset_without_selected_parent s d;
  Ok (selected_parent d :: l).

End ordering.

(** * mergeset.rs *)

Section mergeset.
Context {S U : Type} `{RelationsStore S, ReachabilityService U}.

Record frontier := mk_frontier {
  fr_queue : list hash;
  fr_mergeset : gset hash;
  fr_past : gset hash;
}.

(** The loop over the parents of the current block. *)
Fixpoint visit_parents (reachability : U) (sp : hash) (current_parents : list hash) (f : frontier) : result stop frontier :=
  match current_parents with
  | [] => Ok f
  | parent :: rest =>
      if bool_decide (parent ∈ fr_mergeset f) || bool_decide (parent ∈ fr_past f) then visit_parents reachability sp rest f
      else
        b ← rv_is_dag_ancestor_of reachability parent sp;
        if b : bool then
          visit_parents reachability sp rest (mk_frontier (fr_queue f) (fr_mergeset f) ({[parent]} ∪ fr_past f))
        else
          visit_parents reachability sp rest
            (mk_frontier (fr_queue f ++ [parent]) ({[parent]} ∪ fr_mergeset f) (fr_past f))
  end.

Fixpoint mergeset_loop (fuel : nat) (relations : S) (reachability : U) (sp : hash) (f : frontier) : result stop (gset hash) :=
  match fr_queue f with
  | [] => Ok (fr_mergeset f)
  | current :: queue =>
      match fuel with
      | O => Err Diverges
      | Datatypes.S fuel' =>
          current_parents ← unwrapped (rl_get_parents relations current);
          f' ← visit_parents reachability sp current_parents (mk_frontier queue (fr_mergeset f) (fr_past f));
          mergeset_loop fuel' relations reachability sp f'
      end
  end.

Definition unordered_mergeset_without_selected_parent (fuel : nat) (relations : S) (reachability : U) (sp : hash)
    (parents : list hash) : result stop (gset hash) :=
  let queue := filter (fun p => p <> sp) parents in
  mergeset_loop fuel relations reachability sp (mk_frontier queue (list_to_set queue) ∅).
End mergeset.

(** * protocol.rs *)

Record SahyadriConsensusManager (T S U V : Type) := mk_manager {
  m_genesis_hash : hash;
  m_k : Z;
  m_store : T;
  m_relations : S;
  m_headers : V;
  m_reachability : U;
  m_level_work : limbs;
}.
Arguments mk_manager {T S U V}.
Arguments m_genesis_hash {T S U V}.
Arguments m_k {T S U V}.
Arguments m_store {T S U V}.
Arguments m_relations {T S U V}.
Arguments m_headers {T S U V}.
Arguments m_reachability {T S U V}.
Arguments m_level_work {T S U V}.

(** [SahyadriConsensusManager::new] and [with_level] *)
Definition manager_new {T S U V} (genesis_hash : hash) (k : Z) (store : T) (relations : S) (headers : V) (reachability : U) :=
  mk_manager genesis_hash k store relations headers reachability (uint_from_u64 3 0).

Definition manager_with_level {T S U V} (genesis_hash : hash) (k : Z) (store : T) (relations : S) (headers : V)
    (reachability : U) (level max_block_level : Z) :=
  mk_manager genesis_hash k store relations headers reachability (level_work level max_block_level).

Definition genesis_sahyadri_consensus_data : SahyadriConsensusData := mk_data 0 (uint_zero 3) ORIGIN [] [] ∅.
Definition origin_sahyadri_consensus_data : SahyadriConsensusData := mk_data 0 (uint_zero 3) NONE [] [] ∅.

Inductive ColoringState := StateBlue | StateRed | StatePending.

Inductive ColoringOutput :=
| Blue (size : Z) (sizes : gmap hash Z)
| Red.

Section protocol.
Context {T S U V : Type} `{SahyadriConsensusStore T, RelationsStore S, ReachabilityService U, HeaderBits V}.

Abbreviation manager := (SahyadriConsensusManager T S U V).

(** The walk of [blue_anticone_size]. *)
Fixpoint anticone_size_loop (fuel : nat) (m : manager) (block : hash) (sizes : gmap hash Z) (parent : hash) : result stop Z :=
  match sizes !! block with
  | Some size => Ok size
  | None =>
      if bool_decide (parent = m_genesis_hash m) || bool_decide (parent = ORIGIN) then Err Crashed
      else
        match fuel with
        | O => Err Diverges
        | Datatypes.S fuel' =>
            sizes' ← unwrapped (gs_get_blues_anticone_sizes (m_store m) parent);
            parent' ← unwrapped (gs_get_selected_parent (m_store m) parent);
            anticone_size_loop fuel' m block sizes' parent'
        end
  end.

Definition blue_anticone_size (fuel : nat) (m : manager) (block : hash) (context : SahyadriConsensusData) : result stop Z :=
  anticone_size_loop fuel m block (blues_anticone_sizes context) (selected_parent context).

(** The loop over the blue peers of a chain block; [sizes] and [size] are the two
    mutable arguments of the candidate. *)
Fixpoint check_peers (fuel : nat) (m : manager) (new_block_data : SahyadriConsensusData) (candidate : hash)
    (peers : list hash) (sizes : gmap hash Z) (size : Z) : result stop (ColoringState * gmap hash Z * Z) :=
  match peers with
  | [] => Ok (StatePending, sizes, size)
  | peer :: rest =>
      b ← rv_is_dag_ancestor_of (m_reachability m) peer candidate;
      if b : bool then check_peers fuel m new_block_data candidate rest sizes size
      else
        peer_blue_anticone_size ← blue_anticone_size fuel m peer new_block_data;
        let sizes := <[peer := peer_blue_anticone_size]> sizes in
        let size := wrap 16 (size + 1) in
        if m_k m <? size then Ok (StateRed, sizes, size)
        else if peer_blue_anticone_size =? m_k m then Ok (StateRed, sizes, size)
        else if m_k m <? peer_blue_anticone_size then Err Crashed
        else check_peers fuel m new_block_data candidate rest sizes size
  end.

(** [chain_hash] is [None] for the new block. *)
Definition check_blue_candidate_with_chain_block (fuel : nat) (m : manager) (new_block_data : SahyadriConsensusData)
    (chain_hash : option hash) (chain_data : SahyadriConsensusData) (candidate : hash) (sizes : gmap hash Z) (size : Z) :
    result stop (ColoringState * gmap hash Z * Z) :=
  below ← match chain_hash with
          | Some h => rv_is_dag_ancestor_of (m_reachability m) h candidate
          | None => Ok false
          end;
  if below : bool then Ok (StateBlue, sizes, size)
  else check_peers fuel m new_block_data candidate (mergeset_blues chain_data) sizes size.

(** The loop of [check_blue_candidate] over the chain blocks, at most [steps] of them. *)
Fixpoint candidate_loop (steps fuel : nat) (m : manager) (new_block_data : SahyadriConsensusData) (candidate : hash)
    (chain_hash : option hash) (chain_data : SahyadriConsensusData) (sizes : gmap hash Z) (size : Z) : result stop ColoringOutput :=
  match steps with
  | O => Err Diverges
  | Datatypes.S steps' =>
      r ← check_blue_candidate_with_chain_block fuel m new_block_data chain_hash chain_data candidate sizes size;
      let '(state, sizes, size) := r in
      match state with
      | StateBlue => Ok (Blue size sizes)
      | StateRed => Ok Red
      | StatePending =>
          let parent := selected_parent chain_data in
          data ← unwrapped_fault (gs_get_data (m_store m) parent);
          candidate_loop steps' fuel m new_block_data candidate (Some parent) data sizes size
      end
  end.

Definition check_blue_candidate (fuel : nat) (m : manager) (new_block_data : SahyadriConsensusData) (candidate : hash) :
    result stop ColoringOutput :=
  if wrap 16 (Z.of_nat (length (mergeset_blues new_block_data))) =? wrap 16 (m_k m + 1) then Ok Red
  else candidate_loop fuel fuel m new_block_data candidate None new_block_data ∅ 0.

(** The loop over the mergeset. *)
Fixpoint color_mergeset (fuel : nat) (m : manager) (ordered_mergeset : list hash) (d : SahyadriConsensusData) :
    result stop SahyadriConsensusData :=
  match ordered_mergeset with
  | [] => Ok d
  | candidate :: rest =>
      coloring ← check_blue_candidate fuel m d candidate;
      color_mergeset fuel m rest
        (match coloring with
         | Blue size sizes => add_blue d candidate size sizes
         | Red => add_red d candidate
         end)
  end.

Definition ordered_mergeset_without_selected_parent (fuel : nat) (m : manager) (sp : hash) (parents : list hash) :
    result stop (list hash) :=
  mergeset ← unordered_mergeset_without_selected_parent fuel (m_relations m) (m_reachability m) sp parents;
  sort_blocks (m_store m) (elements mergeset).

(** [calc_work(bits).max(level_work)] *)
Definition block_work (m : manager) (h : hash) : result stop limbs :=
  bits ← unwrapped (get_bits (m_headers m) h);
  w ← assert_some (calc_work bits);
  Ok (match uint_cmp w (m_level_work m) with Gt => w | _ => m_level_work m end).

Definition sahyadri_consensus (fuel : nat) (m : manager) (parents : list hash) : result stop SahyadriConsensusData :=
  if bool_decide (parents = []) then Err Crashed
  else
    sp ← find_selected_parent (m_store m) parents;
    if bool_decide (sp = ORIGIN) then Ok (new_with_selected_parent sp)
    else
      ordered_mergeset ← ordered_mergeset_without_selected_parent fuel m sp parents;
      d ← color_mergeset fuel m ordered_mergeset (new_with_selected_parent sp);
      sp_score ← unwrapped (gs_get_blue_score (m_store m) sp);
      let score := wadd64 sp_score (Z.of_nat (length (mergeset_blues d))) in
      works ← collect (block_work m) (mergeset_blues d);
      sp_work ← unwrapped (gs_get_blue_work (m_store m) sp);
      Ok (finalize_score_and_work d score (uint_add sp_work (uint_sum 3 works))).
End protocol.
