(* ===== verification/GhostdagStores.v ===== *)
(** The stores of the ordering data (consensus/src/model/stores/sahyadri_consensus.rs):
    the memory store with a map per field and the database store with its full and its
    compact table; and the laws of the interface, which both satisfy.

    The scores, the work and the selected parent are read from the full data when the
    cache of the full table holds the block, and from the compact table otherwise: the
    model keeps the set of the blocks the cache holds, which any operation may shrink. *)

From S2P Require Import Prelude Access Interval Reach ReachStores Relations Uint Work Ghostdag.

Definition SAHYADRI_CONSENSUS : bytes := [5].
Definition SAHYADRI_CONSENSUS_COMPACT : bytes := [6].

(** What the protocol relies on: the store is a map that gains and loses entries. *)
Class SahyadriConsensusStoreLaws (T : Type) `{SahyadriConsensusStore T} := {
  gs_ok : T -> Prop;
  gs_view : T -> gmap hash SahyadriConsensusData;
  law_blue_score : forall s h d, gs_ok s -> gs_view s !! h = Some d -> gs_get_blue_score s h = Ok (blue_score d);
  law_blue_work : forall s h d, gs_ok s -> gs_view s !! h = Some d -> gs_get_blue_work s h = Ok (blue_work d);
  law_selected_parent : forall s h d, gs_ok s -> gs_view s !! h = Some d -> gs_get_selected_parent s h = Ok (selected_parent d);
  law_mergeset_blues : forall s h d, gs_ok s -> gs_view s !! h = Some d -> gs_get_mergeset_blues s h = Ok (mergeset_blues d);
  law_mergeset_reds : forall s h d, gs_ok s -> gs_view s !! h = Some d -> gs_get_mergeset_reds s h = Ok (mergeset_reds d);
  law_sizes : forall s h d, gs_ok s -> gs_view s !! h = Some d -> gs_get_blues_anticone_sizes s h = Ok (blues_anticone_sizes d);
  law_data : forall s h d, gs_ok s -> gs_view s !! h = Some d -> gs_get_data s h = Ok d;
  law_compact : forall s h d, gs_ok s -> gs_view s !! h = Some d -> gs_get_compact_data s h = Ok (to_compact d);
  law_has : forall s h, gs_ok s -> gs_has s h = Ok (bool_decide (is_Some (gs_view s !! h)));
  law_insert_data : forall s h d, gs_ok s -> gs_view s !! h = None ->
    exists s', gs_insert h d s = (s', Ok tt) /\ gs_ok s' /\ gs_view s' = <[h := d]> (gs_view s);
  law_insert_twice : forall s h d d', gs_ok s -> gs_view s !! h = Some d' -> gs_insert h d s = (s, Err (HashAlreadyExists h));
  law_delete_data : forall s h, gs_ok s ->
    exists s', gs_delete h s = (s', Ok tt) /\ gs_ok s' /\ gs_view s' = delete h (gs_view s);
}.

(** * The memory store *)

Record MemorySahyadriConsensusStore := mk_memory_gd {
  mg_blue_score_map : gmap hash Z;
  mg_blue_work_map : gmap hash limbs;
  mg_selected_parent_map : gmap hash hash;
  mg_mergeset_blues_map : gmap hash (list hash);
  mg_mergeset_reds_map : gmap hash (list hash);
  mg_blues_anticone_sizes_map : gmap hash (gmap hash Z);
}.

Definition mg_new : MemorySahyadriConsensusStore := mk_memory_gd ∅ ∅ ∅ ∅ ∅ ∅.

Definition key_not_found_error (h : hash) : StoreError := KeyNotFound (DbKey_new SAHYADRI_CONSENSUS h).

Definition mg_has (s : MemorySahyadriConsensusStore) (h : hash) : result StoreError bool :=
  Ok (bool_decide (is_Some (mg_blue_score_map s !! h))).

Definition mg_insert (h : hash) (d : SahyadriConsensusData) : st MemorySahyadriConsensusStore StoreError () :=
  has ← (fun s => (s, mg_has s h));
  if has : bool then throw (HashAlreadyExists h)
  else fun s =>
    (mk_memory_gd (<[h := blue_score d]> (mg_blue_score_map s)) (<[h := blue_work d]> (mg_blue_work_map s))
       (<[h := selected_parent d]> (mg_selected_parent_map s)) (<[h := mergeset_blues d]> (mg_mergeset_blues_map s))
       (<[h := mergeset_reds d]> (mg_mergeset_reds_map s))
       (<[h := blues_anticone_sizes d]> (mg_blues_anticone_sizes_map s)), Ok tt).

Definition mg_delete (h : hash) : st MemorySahyadriConsensusStore StoreError () :=
  fun s =>
    (mk_memory_gd (delete h (mg_blue_score_map s)) (delete h (mg_blue_work_map s)) (delete h (mg_selected_parent_map s))
       (delete h (mg_mergeset_blues_map s)) (delete h (mg_mergeset_reds_map s))
       (delete h (mg_blues_anticone_sizes_map s)), Ok tt).

Definition mg_read {A} (m : gmap hash A) (h : hash) : result StoreError A := ok_or (key_not_found_error h) (m !! h).

(** Indexing a map panics on a missing key. *)
Definition mg_index {A} (m : gmap hash A) (h : hash) : result (fault StoreError) A := ok_or Panic (m !! h).

Definition mg_get_data (s : MemorySahyadriConsensusStore) (h : hash) : result (fault StoreError) SahyadriConsensusData :=
  has ← as_fault (mg_has s h);
  if negb has then Err (Error (key_not_found_error h))
  else
    score ← mg_index (mg_blue_score_map s) h;
    work ← mg_index (mg_blue_work_map s) h;
    parent ← mg_index (mg_selected_parent_map s) h;
    blues ← mg_index (mg_mergeset_blues_map s) h;
    reds ← mg_index (mg_mergeset_reds_map s) h;
    sizes ← mg_index (mg_blues_anticone_sizes_map s) h;
    Ok (mk_data score work parent blues reds sizes).

Definition mg_get_compact_data (s : MemorySahyadriConsensusStore) (h : hash) : result (fault StoreError) CompactSahyadriConsensusData :=
  d ← mg_get_data s h;
  Ok (to_compact d).

#[export] Instance memory_gd : SahyadriConsensusStore MemorySahyadriConsensusStore := {
  gs_get_blue_score s h := mg_read (mg_blue_score_map s) h;
  gs_get_blue_work s h := mg_read (mg_blue_work_map s) h;
  gs_get_selected_parent s h := mg_read (mg_selected_parent_map s) h;
  gs_get_mergeset_blues s h := mg_read (mg_mergeset_blues_map s) h;
  gs_get_mergeset_reds s h := mg_read (mg_mergeset_reds_map s) h;
  gs_get_blues_anticone_sizes s h := mg_read (mg_blues_anticone_sizes_map s) h;
  gs_get_data := mg_get_data;
  gs_get_compact_data := mg_get_compact_data;
  gs_has := mg_has;
  gs_insert := mg_insert;
  gs_delete := mg_delete;
}.

(** * The database store *)

Record DbSahyadriConsensusStore := mk_db_gd {
  dg_access : gmap hash SahyadriConsensusData;
  dg_compact_access : gmap hash CompactSahyadriConsensusData;
  dg_cached : gset hash;
}.

Definition dg_new : DbSahyadriConsensusStore := mk_db_gd ∅ ∅ ∅.

(** [read_from_cache] and [read] of the full table, [read] of the compact one. *)
Definition dg_read_from_cache (s : DbSahyadriConsensusStore) (h : hash) : option SahyadriConsensusData :=
  if bool_decide (h ∈ dg_cached s) then dg_access s !! h else None.

Definition dg_get_data (s : DbSahyadriConsensusStore) (h : hash) : result StoreError SahyadriConsensusData :=
  ok_or (KeyNotFound (DbKey_new SAHYADRI_CONSENSUS h)) (dg_access s !! h).

Definition dg_get_compact_data (s : DbSahyadriConsensusStore) (h : hash) : result StoreError CompactSahyadriConsensusData :=
  ok_or (KeyNotFound (DbKey_new SAHYADRI_CONSENSUS_COMPACT h)) (dg_compact_access s !! h).

Definition dg_get_blue_score (s : DbSahyadriConsensusStore) (h : hash) : result StoreError Z :=
  match dg_read_from_cache s h with
  | Some d => Ok (blue_score d)
  | None => c ← dg_get_compact_data s h; Ok (compact_blue_score c)
  end.

Definition dg_get_blue_work (s : DbSahyadriConsensusStore) (h : hash) : result StoreError limbs :=
  match dg_read_from_cache s h with
  | Some d => Ok (blue_work d)
  | None => c ← dg_get_compact_data s h; Ok (compact_blue_work c)
  end.

Definition dg_get_selected_parent (s : DbSahyadriConsensusStore) (h : hash) : result StoreError hash :=
  match dg_read_from_cache s h with
  | Some d => Ok (selected_parent d)
  | None => c ← dg_get_compact_data s h; Ok (compact_selected_parent c)
  end.

Definition dg_get_mergeset_blues s h := d ← dg_get_data s h; Ok (mergeset_blues d).
Definition dg_get_mergeset_reds s h := d ← dg_get_data s h; Ok (mergeset_reds d).
Definition dg_get_blues_anticone_sizes s h := d ← dg_get_data s h; Ok (blues_anticone_sizes d).

Definition dg_has (s : DbSahyadriConsensusStore) (h : hash) : result StoreError bool :=
  Ok (bool_decide (is_Some (dg_access s !! h))).

(** [update_batch], and the writes of the two insertions. *)
Definition dg_update_batch (h : hash) (d : SahyadriConsensusData) : st DbSahyadriConsensusStore StoreError () :=
  fun s => (mk_db_gd (<[h := d]> (dg_access s)) (<[h := to_compact d]> (dg_compact_access s)) ({[h]} ∪ dg_cached s), Ok tt).

Definition dg_insert_batch (h : hash) (d : SahyadriConsensusData) : st DbSahyadriConsensusStore StoreError () :=
  has ← (fun s => (s, dg_has s h));
  if has : bool then throw (HashAlreadyExists h) else dg_update_batch h d.

Definition dg_insert (h : hash) (d : SahyadriConsensusData) : st DbSahyadriConsensusStore StoreError () :=
  has ← (fun s => (s, dg_has s h));
  if has : bool then throw (HashAlreadyExists h)
  else
    compact ← gets (fun s => bool_decide (is_Some (dg_compact_access s !! h)));
    if compact : bool then throw (DataInconsistency h) else dg_update_batch h d.

(** [delete_batch] and [delete] *)
Definition dg_delete (h : hash) : st DbSahyadriConsensusStore StoreError () :=
  fun s => (mk_db_gd (delete h (dg_access s)) (delete h (dg_compact_access s)) (dg_cached s ∖ {[h]}), Ok tt).

#[export] Instance db_gd : SahyadriConsensusStore DbSahyadriConsensusStore := {
  gs_get_blue_score := dg_get_blue_score;
  gs_get_blue_work := dg_get_blue_work;
  gs_get_selected_parent := dg_get_selected_parent;
  gs_get_mergeset_blues := dg_get_mergeset_blues;
  gs_get_mergeset_reds := dg_get_mergeset_reds;
  gs_get_blues_anticone_sizes := dg_get_blues_anticone_sizes;
  gs_get_data s h := as_fault (dg_get_data s h);
  gs_get_compact_data s h := as_fault (dg_get_compact_data s h);
  gs_has := dg_has;
  gs_insert := dg_insert;
  gs_delete := dg_delete;
}.

(** * Both satisfy the laws *)

Definition mg_view (s : MemorySahyadriConsensusStore) : gmap hash SahyadriConsensusData :=
  map_imap (fun h _ => match mg_get_data s h with Ok d => Some d | Err _ => None end) (mg_blue_score_map s).

(** The six maps have the same keys. *)
Definition mg_ok (s : MemorySahyadriConsensusStore) : Prop :=
  dom (mg_blue_work_map s) = dom (mg_blue_score_map s) /\ dom (mg_selected_parent_map s) = dom (mg_blue_score_map s) /\
  dom (mg_mergeset_blues_map s) = dom (mg_blue_score_map s) /\ dom (mg_mergeset_reds_map s) = dom (mg_blue_score_map s) /\
  dom (mg_blues_anticone_sizes_map s) = dom (mg_blue_score_map s).

Lemma mg_view_lookup s h : mg_view s !! h = match mg_get_data s h with Ok d => Some d | Err _ => None end.
Proof.
  unfold mg_view. rewrite map_lookup_imap. destruct (mg_blue_score_map s !! h) eqn:E; [done|]. cbn.
  unfold mg_get_data, mg_has. rewrite E. done.
Qed.

Lemma mg_view_some s h d : mg_view s !! h = Some d ->
  mg_blue_score_map s !! h = Some (blue_score d) /\ mg_blue_work_map s !! h = Some (blue_work d) /\
  mg_selected_parent_map s !! h = Some (selected_parent d) /\ mg_mergeset_blues_map s !! h = Some (mergeset_blues d) /\
  mg_mergeset_reds_map s !! h = Some (mergeset_reds d) /\ mg_blues_anticone_sizes_map s !! h = Some (blues_anticone_sizes d).
Proof.
  rewrite mg_view_lookup. unfold mg_get_data, mg_has, mg_index, as_fault. cbn.
  destruct (mg_blue_score_map s !! h); cbn; [|done]. destruct (mg_blue_work_map s !! h); cbn; [|done].
  destruct (mg_selected_parent_map s !! h); cbn; [|done]. destruct (mg_mergeset_blues_map s !! h); cbn; [|done].
  destruct (mg_mergeset_reds_map s !! h); cbn; [|done]. destruct (mg_blues_anticone_sizes_map s !! h); cbn; [|done].
  by intros [= <-].
Qed.

Lemma mg_view_none s h : mg_ok s -> mg_view s !! h = None <-> mg_blue_score_map s !! h = None.
Proof.
  intros (H1 & H2 & H3 & H4 & H5). rewrite mg_view_lookup. unfold mg_get_data, mg_has, mg_index, as_fault. cbn.
  destruct (mg_blue_score_map s !! h) as [v|] eqn:E; cbn; [|done]. assert (Hd : h ∈ dom (mg_blue_score_map s)) by (by apply elem_of_dom_2 in E).
  rewrite <-H1 in Hd at 1. apply elem_of_dom in Hd as [? ->]. assert (Hd : h ∈ dom (mg_blue_score_map s)) by (by apply elem_of_dom_2 in E).
  rewrite <-H2 in Hd at 1. apply elem_of_dom in Hd as [? ->]. assert (Hd : h ∈ dom (mg_blue_score_map s)) by (by apply elem_of_dom_2 in E).
  rewrite <-H3 in Hd at 1. apply elem_of_dom in Hd as [? ->]. assert (Hd : h ∈ dom (mg_blue_score_map s)) by (by apply elem_of_dom_2 in E).
  rewrite <-H4 in Hd at 1. apply elem_of_dom in Hd as [? ->]. assert (Hd : h ∈ dom (mg_blue_score_map s)) by (by apply elem_of_dom_2 in E).
  rewrite <-H5 in Hd at 1. apply elem_of_dom in Hd as [? ->]. done.
Qed.

#[export] Program Instance memory_gd_laws : SahyadriConsensusStoreLaws MemorySahyadriConsensusStore := {
  gs_ok := mg_ok;
  gs_view := mg_view;
}.
Next Obligation. intros s h d _ (H & _)%mg_view_some. cbn. unfold mg_read. by rewrite H. Qed.
Next Obligation. intros s h d _ (_ & H & _)%mg_view_some. cbn. unfold mg_read. by rewrite H. Qed.
Next Obligation. intros s h d _ (_ & _ & H & _)%mg_view_some. cbn. unfold mg_read. by rewrite H. Qed.
Next Obligation. intros s h d _ (_ & _ & _ & H & _)%mg_view_some. cbn. unfold mg_read. by rewrite H. Qed.
Next Obligation. intros s h d _ (_ & _ & _ & _ & H & _)%mg_view_some. cbn. unfold mg_read. by rewrite H. Qed.
Next Obligation. intros s h d _ (_ & _ & _ & _ & _ & H)%mg_view_some. cbn. unfold mg_read. by rewrite H. Qed.
Next Obligation. intros s h d _ E. rewrite mg_view_lookup in E. change (mg_get_data s h = Ok d). destruct (mg_get_data s h); congruence. Qed.
Next Obligation.
  intros s h d _ E. rewrite mg_view_lookup in E. change (mg_get_compact_data s h = Ok (to_compact d)).
  unfold mg_get_compact_data. destruct (mg_get_data s h); [|done]. by injection E as ->.
Qed.
Next Obligation.
  intros s h Hok. cbn. unfold mg_has. f_equal. apply bool_decide_ext.
  rewrite <-!not_eq_None_Some. by rewrite (mg_view_none s h Hok).
Qed.
Next Obligation.
  intros s h d Hok Hn. pose proof (proj1 (mg_view_none s h Hok) Hn) as Hs. cbn. unfold mg_insert. unfold mbind, st_bind, mg_has.
  rewrite Hs. cbn. eexists. split; [done|]. destruct Hok as (H1 & H2 & H3 & H4 & H5). split.
  - unfold mg_ok. cbn. rewrite !dom_insert_L. by rewrite H1, H2, H3, H4, H5.
  - apply map_eq. intros x. rewrite mg_view_lookup. unfold mg_get_data, mg_has, mg_index, as_fault. cbn.
    destruct (decide (x = h)) as [->|Hne].
    + rewrite !lookup_insert_eq. by destruct d.
    + rewrite !lookup_insert_ne by done. rewrite mg_view_lookup. done.
Qed.
Next Obligation.
  intros s h d d' Hok (Hs & _)%mg_view_some. cbn. unfold mg_insert, mbind, st_bind, mg_has. by rewrite Hs.
Qed.
Next Obligation.
  intros s h (H1 & H2 & H3 & H4 & H5). cbn. unfold mg_delete. eexists. split; [done|]. split.
  - unfold mg_ok. cbn. rewrite !dom_delete_L. by rewrite H1, H2, H3, H4, H5.
  - apply map_eq. intros x. rewrite mg_view_lookup. unfold mg_get_data, mg_has, mg_index, as_fault. cbn.
    destruct (decide (x = h)) as [->|Hne].
    + by rewrite !lookup_delete_eq.
    + rewrite !lookup_delete_ne by done. rewrite mg_view_lookup. done.
Qed.

(** The compact table is the image of the full one. *)
Definition dg_ok (s : DbSahyadriConsensusStore) : Prop := dg_compact_access s = to_compact <$> dg_access s.

Lemma dg_read_either {A} s h d (f : SahyadriConsensusData -> A) (g : CompactSahyadriConsensusData -> A) :
  (forall d, g (to_compact d) = f d) -> dg_ok s -> dg_access s !! h = Some d ->
  match dg_read_from_cache s h with Some d => Ok (f d) | None => c ← dg_get_compact_data s h; Ok (g c) end = Ok (f d).
Proof.
  intros Hfg Hok Hd. unfold dg_read_from_cache, dg_get_compact_data. rewrite Hok, lookup_fmap, Hd.
  case_bool_decide; [done|]. cbn. by rewrite Hfg.
Qed.

#[export] Program Instance db_gd_laws : SahyadriConsensusStoreLaws DbSahyadriConsensusStore := {
  gs_ok := dg_ok;
  gs_view := dg_access;
}.
Next Obligation. intros s h d Hok Hd. by apply dg_read_either. Qed.
Next Obligation. intros s h d Hok Hd. by apply dg_read_either. Qed.
Next Obligation. intros s h d Hok Hd. by apply dg_read_either. Qed.
Next Obligation. intros s h d _ Hd. cbn. unfold dg_get_mergeset_blues, dg_get_data. by rewrite Hd. Qed.
Next Obligation. intros s h d _ Hd. cbn. unfold dg_get_mergeset_reds, dg_get_data. by rewrite Hd. Qed.
Next Obligation. intros s h d _ Hd. cbn. unfold dg_get_blues_anticone_sizes, dg_get_data. by rewrite Hd. Qed.
Next Obligation. intros s h d _ Hd. cbn. unfold dg_get_data. by rewrite Hd. Qed.
Next Obligation. intros s h d Hok Hd. cbn. unfold dg_get_compact_data. by rewrite Hok, lookup_fmap, Hd. Qed.
Next Obligation. done. Qed.
Next Obligation.
  intros s h d Hok Hd. cbn. unfold dg_insert, mbind, st_bind, dg_has. rewrite Hd. cbn. unfold gets. rewrite Hok, lookup_fmap, Hd. cbn.
  eexists. split; [done|]. split; [|done]. unfold dg_ok. cbn. by rewrite fmap_insert, Hok.
Qed.
Next Obligation. intros s h d d' _ Hd. cbn. unfold dg_insert, mbind, st_bind, dg_has. by rewrite Hd. Qed.
Next Obligation.
  intros s h Hok. cbn. eexists. split; [done|]. split; [|done]. unfold dg_ok. cbn. by rewrite fmap_delete, Hok.
Qed.

(** Reads do not depend on what the cache holds. *)
Lemma dg_cache_irrelevant s c : gs_ok s -> gs_ok (mk_db_gd (dg_access s) (dg_compact_access s) c) /\
  gs_view (mk_db_gd (dg_access s) (dg_compact_access s) c) = gs_view s.
Proof. done. Qed.
