(* ===== verification/HeaderStores.v ===== *)
(** The stores of the header processor besides the DAG ones
    (consensus/src/model/stores/{headers,daa,depth,statuses,headers_selected_tip}.rs and
    consensus/core/src/blockstatus.rs).

    A table is a map from hashes. The headers store has three tables: the full headers,
    their compact data, and the full headers of older versions under another prefix, which
    are read when the first has no entry. The cache of the full table is a map of its own:
    a read fills it, also from the older prefix, and the compact data of a block is
    answered from it. *)

From S2P Require Import Prelude Access Interval Reach ReachStores Relations Uint Work Ghostdag Header.

Definition NON_DAA_MERGESET : bytes := [3].
Definition BLOCK_DEPTH : bytes := [4].
Definition HEADERS_SELECTED_TIP : bytes := [7].
Definition HEADERS : bytes := [8].
Definition HEADERS_COMPACT : bytes := [9].
Definition STATUSES : bytes := [23].

(** * Tables *)

Section table.
Context {V : Type} (prefix : bytes).

Definition table_read (t : gmap hash V) (h : hash) : result StoreError V := ok_or (KeyNotFound (DbKey_new prefix h)) (t !! h).
Definition table_has (t : gmap hash V) (h : hash) : result StoreError bool := Ok (bool_decide (is_Some (t !! h))).

(** An append-only table refuses a second entry. *)
Definition table_insert (h : hash) (v : V) : st (gmap hash V) StoreError () :=
  has ← (fun t => (t, table_has t h));
  if has : bool then throw (HashAlreadyExists h) else fun t => (<[h := v]> t, Ok tt).

Definition table_set (h : hash) (v : V) : st (gmap hash V) StoreError () := fun t => (<[h := v]> t, Ok tt).
Definition table_delete (h : hash) : st (gmap hash V) StoreError () := fun t => (delete h t, Ok tt).
End table.

Abbreviation DbDaaStore := (gmap hash (gset hash)).
Definition get_mergeset_non_daa (s : DbDaaStore) (h : hash) : result StoreError (gset hash) := table_read NON_DAA_MERGESET s h.
Definition daa_insert (h : hash) (mergeset_non_daa : gset hash) : st DbDaaStore StoreError () := table_insert h mergeset_non_daa.
Definition daa_delete (h : hash) : st DbDaaStore StoreError () := table_delete h.

Record BlockDepthInfo := mk_depth_info { info_merge_depth_root : hash; info_finality_point : hash }.

Abbreviation DbDepthStore := (gmap hash BlockDepthInfo).
Definition merge_depth_root (s : DbDepthStore) (h : hash) : result StoreError hash :=
  info ← table_read BLOCK_DEPTH s h; Ok (info_merge_depth_root info).
Definition finality_point (s : DbDepthStore) (h : hash) : result StoreError hash :=
  info ← table_read BLOCK_DEPTH s h; Ok (info_finality_point info).
Definition depth_insert (h merge_depth_root finality_point : hash) : st DbDepthStore StoreError () :=
  table_insert h (mk_depth_info merge_depth_root finality_point).
Definition depth_delete (h : hash) : st DbDepthStore StoreError () := table_delete h.

(** * Statuses *)

Inductive BlockStatus :=
| StatusInvalid
| StatusStateValid
| StatusStatePendingVerification
| StatusDisqualifiedFromChain
| StatusHeaderOnly.

#[export] Instance BlockStatus_eq_dec : EqDecision BlockStatus.
Proof. solve_decision. Defined.

Definition has_block_header (s : BlockStatus) : bool :=
  match s with StatusHeaderOnly | StatusStateValid | StatusStatePendingVerification | StatusDisqualifiedFromChain => true | StatusInvalid => false end.
Definition has_block_body (s : BlockStatus) : bool :=
  match s with StatusStateValid | StatusStatePendingVerification | StatusDisqualifiedFromChain => true | _ => false end.
Definition is_header_only (s : BlockStatus) : bool := bool_decide (s = StatusHeaderOnly).
Definition is_state_valid_or_pending (s : BlockStatus) : bool :=
  match s with StatusStateValid | StatusStatePendingVerification => true | _ => false end.
Definition status_is_valid (s : BlockStatus) : bool := negb (bool_decide (s = StatusInvalid)).

Abbreviation DbStatusesStore := (gmap hash BlockStatus).
Definition statuses_get (s : DbStatusesStore) (h : hash) : result StoreError BlockStatus := table_read STATUSES s h.
Definition statuses_has (s : DbStatusesStore) (h : hash) : result StoreError bool := table_has s h.
Definition statuses_set (h : hash) (status : BlockStatus) : st DbStatusesStore StoreError () := table_set h status.
Definition statuses_delete (h : hash) : st DbStatusesStore StoreError () := table_delete h.

(** * The selected tip of the headers *)

Abbreviation DbHeadersSelectedTipStore := (option SortableBlock).
Definition hst_get (s : DbHeadersSelectedTipStore) : result StoreError SortableBlock := ok_or (KeyNotFound HEADERS_SELECTED_TIP) s.
Definition hst_set (block : SortableBlock) : st DbHeadersSelectedTipStore StoreError () := fun _ => (Some block, Ok tt).

(** * Headers *)

Record HeaderWithBlockLevel := mk_leveled { lv_header : Header; lv_block_level : Z }.

(** A header of an older version keeps its parents level by level. *)
Record Header2 := mk_header2 { h2_levels : list (list bytes); h2_rest : Header }.
Record HeaderWithBlockLevel2 := mk_leveled2 { lv2_header : Header2; lv2_block_level : Z }.

(** [From]: more than 255 levels panic. *)
Definition from_leveled2 (v : HeaderWithBlockLevel2) : result (fault StoreError) HeaderWithBlockLevel :=
  let h := h2_rest (lv2_header v) in
  match try_from_levels (h2_levels (lv2_header v)) with
  | Ok parents =>
      Ok (mk_leveled (mk_header (header_hash h) (header_version h) parents (hash_merkle_root h) (accepted_id_merkle_root h)
        (account_commitment h) (header_timestamp h) (header_bits h) (header_nonce h) (header_daa_score h) (header_blue_work h)
        (header_blue_score h) (header_pruning_point h)) (lv2_block_level v))
  | Err _ => Err Panic
  end.

Record CompactHeaderData := mk_compact_header {
  ch_daa_score : Z;
  ch_timestamp : Z;
  ch_bits : Z;
  ch_blue_score : Z;
}.

Definition compact_of (h : Header) : CompactHeaderData :=
  mk_compact_header (header_daa_score h) (header_timestamp h) (header_bits h) (header_blue_score h).

Record DbHeadersStore := mk_headers {
  compact_headers_access : gmap hash CompactHeaderData;
  headers_access : gmap hash HeaderWithBlockLevel;
  fallback_headers : gmap hash HeaderWithBlockLevel2;
  headers_cache : gmap hash HeaderWithBlockLevel;
}.

Definition headers_new : DbHeadersStore := mk_headers ∅ ∅ ∅ ∅.

Definition headers_has (s : DbHeadersStore) (h : hash) : result StoreError bool :=
  Ok (bool_decide (is_Some (headers_cache s !! h)) || bool_decide (is_Some (headers_access s !! h)) || bool_decide (is_Some (fallback_headers s !! h))).

Definition read_headers_cache (s : DbHeadersStore) (h : hash) : option HeaderWithBlockLevel := headers_cache s !! h.

Definition headers_cache_insert (h : hash) (v : HeaderWithBlockLevel) (s : DbHeadersStore) : DbHeadersStore :=
  mk_headers (compact_headers_access s) (headers_access s) (fallback_headers s) (<[h := v]> (headers_cache s)).

(** The scores, the timestamp and the bits are read from the cached header or from the
    compact table. *)
Definition get_compact_header_data (s : DbHeadersStore) (h : hash) : result StoreError CompactHeaderData :=
  match read_headers_cache s h with
  | Some v => Ok (compact_of (lv_header v))
  | None => table_read HEADERS_COMPACT (compact_headers_access s) h
  end.

Definition get_daa_score (s : DbHeadersStore) (h : hash) : result StoreError Z := c ← get_compact_header_data s h; Ok (ch_daa_score c).
Definition get_header_blue_score (s : DbHeadersStore) (h : hash) : result StoreError Z := c ← get_compact_header_data s h; Ok (ch_blue_score c).
Definition get_timestamp (s : DbHeadersStore) (h : hash) : result StoreError Z := c ← get_compact_header_data s h; Ok (ch_timestamp c).
Definition get_header_bits (s : DbHeadersStore) (h : hash) : result StoreError Z := c ← get_compact_header_data s h; Ok (ch_bits c).

#[export] Instance headers_bits : HeaderBits DbHeadersStore := get_header_bits.

(** [read_with_fallback]: what is read is left in the cache. *)
Definition get_header_with_block_level (h : hash) : st DbHeadersStore (fault StoreError) HeaderWithBlockLevel :=
  fun s =>
    match headers_cache s !! h with
    | Some v => (s, Ok v)
    | None =>
        match headers_access s !! h with
        | Some v => (headers_cache_insert h v s, Ok v)
        | None =>
            match fallback_headers s !! h with
            | Some v => match from_leveled2 v with Ok w => (headers_cache_insert h w s, Ok w) | Err e => (s, Err e) end
            | None => (s, Err (Error (KeyNotFound (DbKey_new HEADERS h))))
            end
        end
    end.

Definition get_header (h : hash) : st DbHeadersStore (fault StoreError) Header :=
  v ← get_header_with_block_level h; mret (lv_header v).

(** What the two reads return. *)
Definition header_with_level (s : DbHeadersStore) (h : hash) : result (fault StoreError) HeaderWithBlockLevel := (get_header_with_block_level h s).2.
Definition header_value (s : DbHeadersStore) (h : hash) : result (fault StoreError) Header := (get_header h s).2.

Definition headers_write (h : hash) (header : Header) (block_level : Z) : st DbHeadersStore StoreError () :=
  fun s => (mk_headers (<[h := compact_of header]> (compact_headers_access s)) (<[h := mk_leveled header block_level]> (headers_access s))
              (fallback_headers s) (<[h := mk_leveled header block_level]> (headers_cache s)), Ok tt).

Definition headers_insert_batch (h : hash) (header : Header) (block_level : Z) : st DbHeadersStore StoreError () :=
  has ← (fun s => (s, headers_has s h));
  if has : bool then throw (HashAlreadyExists h) else headers_write h header block_level.

Definition headers_insert (h : hash) (header : Header) (block_level : Z) : st DbHeadersStore StoreError () :=
  has ← (fun s => (s, headers_has s h));
  if has : bool then throw (HashAlreadyExists h)
  else
    compact ← (fun s => (s, table_has (compact_headers_access s) h));
    if compact : bool then throw (DataInconsistency h) else headers_write h header block_level.

Definition headers_delete (h : hash) : st DbHeadersStore StoreError () :=
  fun s => (mk_headers (delete h (compact_headers_access s)) (delete h (headers_access s)) (fallback_headers s) (delete h (headers_cache s)), Ok tt).

(** * What the store shows *)

(** The header of a block in the tables. *)
Definition stored_value (s : DbHeadersStore) (h : hash) : option HeaderWithBlockLevel :=
  match headers_access s !! h with
  | Some v => Some v
  | None => v ← fallback_headers s !! h; match from_leveled2 v with Ok w => Some w | Err _ => None end
  end.

(** The compact table is the image of the full ones, and the cache has their entries. *)
Record headers_ok (s : DbHeadersStore) : Prop := {
  ho_compact : forall h v, stored_value s h = Some v -> compact_headers_access s !! h = Some (compact_of (lv_header v));
  ho_cache : forall h v, headers_cache s !! h = Some v -> stored_value s h = Some v;
}.

Lemma headers_new_ok : headers_ok headers_new.
Proof. split; intros h v; unfold stored_value; cbn; by rewrite lookup_empty. Qed.

Lemma read_stored s h v : headers_ok s -> header_with_level s h = Ok v <-> stored_value s h = Some v.
Proof.
  intros [_ Hc]. unfold header_with_level, get_header_with_block_level. destruct (headers_cache s !! h) as [w|] eqn:E.
  - rewrite (Hc _ _ E). cbn. split; congruence.
  - unfold stored_value. destruct (headers_access s !! h) as [w|]; [cbn; split; congruence|]. destruct (fallback_headers s !! h) as [w|]; [|done].
    cbn. destruct (from_leveled2 w); cbn; split; congruence.
Qed.

Lemma compact_read s h v : headers_ok s -> header_with_level s h = Ok v -> get_compact_header_data s h = Ok (compact_of (lv_header v)).
Proof.
  intros Hok Hv. apply read_stored in Hv as Hs; [|done]. unfold get_compact_header_data, read_headers_cache, table_read.
  destruct (headers_cache s !! h) as [w|] eqn:E; [|by rewrite (ho_compact _ Hok h v Hs)].
  rewrite (ho_cache _ Hok _ _ E) in Hs. by injection Hs as ->.
Qed.

(** The entry a read leaves in the cache changes no later answer. *)
Lemma read_keeps_answers s h : headers_ok s -> let s' := (get_header_with_block_level h s).1 in
  headers_ok s' /\ (forall x, header_with_level s' x = header_with_level s x) /\ (forall x, get_compact_header_data s' x = get_compact_header_data s x) /\
  (forall x, headers_has s' x = headers_has s x).
Proof.
  intros Hok. cbv zeta. assert (Hcase : (get_header_with_block_level h s).1 = s \/ exists v, stored_value s h = Some v /\ headers_cache s !! h = None /\ (get_header_with_block_level h s).1 = headers_cache_insert h v s).
  { unfold get_header_with_block_level, stored_value. destruct (headers_cache s !! h); [by left|]. destruct (headers_access s !! h) as [v|]; [right; by exists v|].
    destruct (fallback_headers s !! h) as [v|]; [|by left]. cbn. destruct (from_leveled2 v) as [w|]; [right; by exists w|by left]. }
  destruct Hcase as [->|(v & Hv & Hn & ->)]; [done|]. assert (Hok' : headers_ok (headers_cache_insert h v s)).
  { split; [apply (ho_compact _ Hok)|]. intros x w. cbn. destruct (decide (x = h)) as [->|Hne]; [rewrite lookup_insert_eq; by intros [= <-]|].
    rewrite lookup_insert_ne by done. apply (ho_cache _ Hok). }
  pose proof (proj2 (read_stored s h v Hok) Hv) as Hr. pose proof (proj2 (read_stored _ h v Hok') Hv) as Hr'. split_and!; [done|..]; intros x; (destruct (decide (x = h)) as [->|Hne]).
  - by rewrite Hr, Hr'.
  - unfold header_with_level, get_header_with_block_level, headers_cache_insert. cbn. rewrite lookup_insert_ne by done. destruct (headers_cache s !! x); [done|].
    destruct (headers_access s !! x); [done|]. destruct (fallback_headers s !! x) as [w|]; [|done]. by destruct (from_leveled2 w).
  - by rewrite (compact_read _ _ _ Hok Hr), (compact_read _ _ _ Hok' Hr').
  - unfold get_compact_header_data, read_headers_cache. cbn. by rewrite lookup_insert_ne.
  - unfold headers_has. cbn. rewrite lookup_insert_eq, Hn. cbn. unfold stored_value in Hv. destruct (headers_access s !! h); [done|]. by destruct (fallback_headers s !! h).
  - unfold headers_has. cbn. by rewrite lookup_insert_ne.
Qed.

Lemma headers_insert_run s h header level : headers_ok s -> headers_access s !! h = None -> fallback_headers s !! h = None ->
  exists s', headers_insert_batch h header level s = (s', Ok tt) /\ headers_ok s' /\
    header_with_level s' h = Ok (mk_leveled header level) /\
    (forall x, x <> h -> header_with_level s' x = header_with_level s x) /\
    (forall x, x <> h -> get_compact_header_data s' x = get_compact_header_data s x) /\
    headers_access s' = <[h := mk_leveled header level]> (headers_access s) /\ fallback_headers s' = fallback_headers s.
Proof.
  intros Hok H1 H2. assert (H3 : headers_cache s !! h = None).
  { destruct (headers_cache s !! h) as [v|] eqn:E; [|done]. apply (ho_cache _ Hok) in E. unfold stored_value in E. by rewrite H1, H2 in E. }
  unfold headers_insert_batch, mbind, st_bind, headers_has. rewrite H1, H2, H3. cbn. eexists. split; [done|]. split_and!; try done.
  - split; intros x v; unfold stored_value; cbn; (destruct (decide (x = h)) as [->|Hne]; [rewrite !lookup_insert_eq|rewrite !lookup_insert_ne by done]).
    + by intros [= <-].
    + apply (ho_compact _ Hok).
    + done.
    + apply (ho_cache _ Hok).
  - unfold header_with_level, get_header_with_block_level. cbn. by rewrite lookup_insert_eq.
  - intros x Hne. unfold header_with_level, get_header_with_block_level. cbn. rewrite !lookup_insert_ne by done. destruct (headers_cache s !! x); [done|].
    destruct (headers_access s !! x); [done|]. destruct (fallback_headers s !! x) as [w|]; [|done]. by destruct (from_leveled2 w).
  - intros x Hne. unfold get_compact_header_data, read_headers_cache, table_read. cbn. by rewrite !lookup_insert_ne.
Qed.

(** C31: Deleting a block does not delete a header kept under the older prefix: it is still
    found, its compact data is gone, and inserting the header again is refused. The deleted
    header is also still read, and since the read leaves it in the cache, the
    compact data is answered again while it is there. *)
Theorem deleted_legacy_header_remains (s s' : DbHeadersStore) (h : hash) (v : HeaderWithBlockLevel2) (w : HeaderWithBlockLevel) (header : Header) (level : Z)
    (Hold : headers_access s !! h = None) (Hv : fallback_headers s !! h = Some v) (Hw : from_leveled2 v = Ok w)
    (Hdel : headers_delete h s = (s', Ok tt)) :
  headers_has s' h = Ok true /\ get_compact_header_data s' h = Err (KeyNotFound (DbKey_new HEADERS_COMPACT h)) /\
  headers_insert_batch h header level s' = (s', Err (HashAlreadyExists h)) /\
  exists s'', get_header h s' = (s'', Ok (lv_header w)) /\ get_compact_header_data s'' h = Ok (compact_of (lv_header w)).
Proof.
  unfold headers_delete in Hdel. injection Hdel as <-.
  unfold headers_insert_batch, mbind, st_bind, headers_has, get_header, get_header_with_block_level, get_compact_header_data, read_headers_cache, table_read, mbind, st_bind.
  cbn. rewrite !lookup_delete_eq, Hv. cbn. rewrite Hw. split_and!; [done..|]. eexists. split; [done|]. cbn. by rewrite lookup_insert_eq.
Qed.

Definition demo_legacy_header : Header := mk_header (replicate 32 7) 1 [] (replicate 32 0) (replicate 32 0) (replicate 32 0) 1000 537198592 0 0 [0; 0; 0] 0 (replicate 32 0).

Definition demo_legacy : HeaderWithBlockLevel2 := mk_leveled2 (mk_header2 [[replicate 32 1]; [replicate 32 1]] demo_legacy_header) 2.

Definition demo_legacy_store : DbHeadersStore := mk_headers ∅ ∅ (<[replicate 32 7 := demo_legacy]> ∅) ∅.

Lemma deleted_legacy_header_remains_witness : exists s' s'' w, headers_delete (replicate 32 7) demo_legacy_store = (s', Ok tt) /\
  get_header (replicate 32 7) s' = (s'', Ok (lv_header w)) /\ get_compact_header_data s'' (replicate 32 7) = Ok (compact_of (lv_header w)).
Proof.
  destruct (from_leveled2 demo_legacy) as [w|e] eqn:Ew; [|exfalso; vm_compute in Ew; discriminate].
  destruct (deleted_legacy_header_remains demo_legacy_store (headers_delete (replicate 32 7) demo_legacy_store).1 (replicate 32 7) demo_legacy w demo_legacy_header 0)
    as (_ & _ & _ & s'' & H1 & H2); [vm_compute; reflexivity|vm_compute; reflexivity|exact Ew|reflexivity|].
  eexists _, s'', w. split; [reflexivity|]. split; [exact H1|exact H2].
Defined.
