(* ===== verification/Difficulty.v ===== *)
(** The difficulty of the next block (consensus/src/processes/difficulty.rs) and the past
    median time (consensus/src/processes/past_median_time.rs), from a window of blocks.

    A window is a binary heap; its iteration order is not specified by the standard
    library, and the model keeps it as a list in some order. A panic is [Crashed]. *)

From stdpp Require Import sorting.
From S2P Require Import Prelude Access Interval Reach ReachStores Relations Uint UintCorrect Work Ghostdag Header HeaderStores.

Abbreviation BlockWindowHeap := (list SortableBlock).

Record DifficultyBlock := mk_difficulty_block {
  db_timestamp : Z;
  db_bits : Z;
  db_sortable_block : SortableBlock;
}.

Definition difficulty_block_cmp (a b : DifficultyBlock) : comparison :=
  match Z.compare (db_timestamp a) (db_timestamp b) with
  | Eq => sortable_cmp (db_sortable_block a) (db_sortable_block b)
  | c => c
  end.

(** [Itertools::position_minmax]: the first minimum and the last maximum. *)
Fixpoint minmax_from (i : nat) (lo hi : nat * DifficultyBlock) (l : list DifficultyBlock) : nat * nat :=
  match l with
  | [] => (lo.1, hi.1)
  | x :: l' =>
      minmax_from (S i) (match difficulty_block_cmp x lo.2 with Lt => (i, x) | _ => lo end)
        (match difficulty_block_cmp x hi.2 with Lt => hi | _ => (i, x) end) l'
  end.

Definition position_minmax (l : list DifficultyBlock) : option (nat * nat) :=
  match l with [] => None | x :: l' => Some (minmax_from 1 (0%nat, x) (0%nat, x) l') end.

Inductive DifficultyError :=
| UnderMinWindowSizeAllowed (window_size min : nat)
| EmptyTimestampRange.

Record SampledDifficultyManager := mk_difficulty_manager {
  dm_headers_store : DbHeadersStore;
  dm_genesis_hash : hash;
  dm_genesis_bits : Z;
  dm_max_difficulty_target : limbs;
  dm_difficulty_window_size : Z;
  dm_min_difficulty_window_size : Z;
  dm_difficulty_sample_rate : Z;
  dm_target_time_per_block : Z;
}.

(** [new]; [None] is the failed assertion on the sizes. *)
Definition difficulty_manager_new (headers : DbHeadersStore) (genesis_hash : hash) (genesis_bits : Z) (max_difficulty_target : limbs)
    (difficulty_window_size min_difficulty_window_size difficulty_sample_rate target_time_per_block : Z) : option SampledDifficultyManager :=
  if min_difficulty_window_size <=? difficulty_window_size
  then Some (mk_difficulty_manager headers genesis_hash genesis_bits (uint320_from max_difficulty_target) difficulty_window_size
    min_difficulty_window_size difficulty_sample_rate target_time_per_block)
  else None.

Section manager.
Context (m : SampledDifficultyManager).

Definition internal_calc_daa_score (d : SahyadriConsensusData) (mergeset_non_daa : gset hash) : result stop Z :=
  sp_daa_score ← unwrapped (get_daa_score (dm_headers_store m) (selected_parent d));
  Ok (wadd64 sp_daa_score (wsub64 (Z.of_nat (mergeset_size d)) (Z.of_nat (size mergeset_non_daa)))).

Definition get_difficulty_blocks (window : BlockWindowHeap) : result stop (list DifficultyBlock) :=
  collect (fun item =>
    data ← unwrapped (get_compact_header_data (dm_headers_store m) (sb_hash item));
    Ok (mk_difficulty_block (ch_timestamp data) (ch_bits data) item)) window.

Definition MIN_WINDOW_SIZE : nat := 1000.

Definition minmax_by {A} (le : A -> A -> bool) (l : list A) : option (A * A) :=
  match l with
  | [] => None
  | x :: l' => Some (foldl (fun '(lo, hi) y => (if le lo y then lo else y, if le hi y then y else hi)) (x, x) l')
  end.

Definition internal_estimate_network_hashes_per_second (window : BlockWindowHeap) : result stop (result DifficultyError Z) :=
  let window_size := length window in
  if bool_decide (window_size < MIN_WINDOW_SIZE)%nat then Ok (Err (UnderMinWindowSizeAllowed window_size MIN_WINDOW_SIZE))
  else
    difficulty_blocks ← get_difficulty_blocks window;
    ts ← assert_some (minmax_by Z.leb (map db_timestamp difficulty_blocks));
    let '(min_ts, max_ts) := ts in
    if min_ts =? max_ts then Ok (Err EmptyTimestampRange)
    else
      let window_duration := wsub64 max_ts min_ts / 1000 in
      if window_duration =? 0 then Ok (Ok 0)
      else
        works ← assert_some (minmax_by uint_leb (map (fun b => sb_blue_work (db_sortable_block b)) difficulty_blocks));
        let '(min_blue_work, max_blue_work) := works in
        q ← assert_some (uint_div_u64 (uint_sub max_blue_work min_blue_work) window_duration);
        Ok (Ok (uint_as_u64 q)).

Definition difficulty_full_window_size : Z := wmul64 (dm_difficulty_window_size m) (dm_difficulty_sample_rate m).

Definition lowest_daa_blue_score (d : SahyadriConsensusData) : Z :=
  wsub64 (Z.max (blue_score d) difficulty_full_window_size) difficulty_full_window_size.

Definition calc_daa_score (d : SahyadriConsensusData) (mergeset_non_daa : gset hash) : result stop Z :=
  internal_calc_daa_score d mergeset_non_daa.

Definition calc_daa_score_and_mergeset_non_daa_blocks {T} `{SahyadriConsensusStore T} (d : SahyadriConsensusData) (store : T) :
    result stop (Z * gset hash) :=
  let lowest := lowest_daa_blue_score d in
  scores ← collect (fun h => score ← unwrapped (gs_get_blue_score store h); Ok (h, score)) (unordered_mergeset d);
  let mergeset_non_daa : gset hash := list_to_set (map fst (filter (fun p => p.2 < lowest) scores)) in
  daa_score ← internal_calc_daa_score d mergeset_non_daa;
  Ok (daa_score, mergeset_non_daa).

(** [Ord::max] and [Ord::min] *)
Definition uint_max2 (a b : limbs) : limbs := if uint_leb a b then b else a.
Definition uint_min2 (a b : limbs) : limbs := if uint_leb a b then a else b.

Definition calculate_difficulty_bits (window : BlockWindowHeap) (d : SahyadriConsensusData) : result stop Z :=
  difficulty_blocks ← get_difficulty_blocks window;
  if Z.of_nat (length difficulty_blocks) <? dm_min_difficulty_window_size m then
    if bool_decide (selected_parent d = dm_genesis_hash m) then Ok (dm_genesis_bits m)
    else unwrapped (get_header_bits (dm_headers_store m) (selected_parent d))
  else
    ix ← assert_some (position_minmax difficulty_blocks);
    let '(min_ts_index, max_ts_index) := ix in
    min_block ← assert_some (difficulty_blocks !! min_ts_index);
    max_block ← assert_some (difficulty_blocks !! max_ts_index);
    difficulty_blocks ← assert_some (swap_remove min_ts_index difficulty_blocks);
    let difficulty_blocks_len := Z.of_nat (length difficulty_blocks) in
    let targets_sum := uint_sum 5 (map (fun b => uint320_from (from_compact_target_bits (db_bits b))) difficulty_blocks) in
    average_target ← assert_some (uint_div_u64 targets_sum difficulty_blocks_len);
    let measured_duration := Z.max (wsub64 (db_timestamp max_block) (db_timestamp min_block)) 1 in
    let expected_duration := wmul64 (wmul64 (dm_target_time_per_block m) (dm_difficulty_sample_rate m)) difficulty_blocks_len in
    new_target ← assert_some (uint_div_u64 (uint_mul_u64 average_target measured_duration) expected_duration);
    let genesis_target := uint320_from (from_compact_target_bits (dm_genesis_bits m)) in
    let capped_target := uint_max2 new_target genesis_target in
    target ← assert_some (uint256_try_from (uint_min2 capped_target (dm_max_difficulty_target m)));
    Ok (compact_target_bits target).
End manager.

(** * The past median time *)

Definition AVERAGE_FRAME_SIZE : nat := 11.

Definition calc_past_median_time (headers : DbHeadersStore) (window : BlockWindowHeap) (selected_parent : hash) : result stop Z :=
  if bool_decide (window = []) then unwrapped (get_timestamp headers selected_parent)
  else
    window_timestamps ← collect (fun item => unwrapped (get_timestamp headers (sb_hash item))) window;
    let window_timestamps := merge_sort Z.le window_timestamps in
    let avg_frame_size := Nat.min (length window_timestamps) AVERAGE_FRAME_SIZE in
    let ending_index := Nat.div (length window_timestamps + avg_frame_size + 1) 2 in
    let frame := take avg_frame_size (drop (ending_index - avg_frame_size) window_timestamps) in
    let sum := foldl wadd64 0 frame in
    Ok (wadd64 sum (Z.of_nat avg_frame_size / 2) / Z.of_nat avg_frame_size).
