(* ===== verification/Window.v ===== *)
(** Sampled block windows (consensus/src/processes/window.rs and
    consensus/src/model/stores/block_window_cache.rs): the bounded heap, the sampling of the
    mergesets down the selected chain, and the caches of the windows of earlier blocks.

    The caches are the maps of what they hold at the time. The iterators of a mergeset are
    read before they are iterated. Rule errors are in [halt], beside panics and the bound
    [fuel] on the walk. *)

From S2P Require Import Prelude Tx Coinbase Validator Access Interval Reach ReachStores Relations Uint Work Ghostdag Header HeaderStores Difficulty.

(** * consensus/core/src/errors/block.rs, the errors of the header and body pipelines

    The two errors of the coinbase payload are those of Coinbase.v. *)

Inductive RuleError :=
| WrongBlockVersion (version : Z)
| TimeTooFarIntoTheFuture (timestamp max : Z)
| NoParents
| TooManyParents (num max : nat)
| OriginParent
| InvalidPoW
| InvalidParent (parent : hash)
| MissingParents (parents : list hash)
| InvalidParentsRelation (a b : hash)
| PruningViolation (pruning_point : hash)
| UnexpectedHeaderDaaScore (expected actual : Z)
| UnexpectedDifficulty (block : hash) (actual expected : Z)
| UnexpectedHeaderBlueScore (expected actual : Z)
| UnexpectedHeaderBlueWork (expected actual : limbs)
| TimeTooOld (timestamp median : Z)
| MergeSetTooBig (mergeset_size limit : Z)
| ViolatingBoundedMergeDepth
| UnexpectedIndirectParents (expected actual : list (list hash))
| InsufficientDaaWindowSize (size : nat)
| KnownInvalid
| BadMerkleRoot (header calculated : bytes)
| NoTransactions
| FirstTxNotCoinbase
| MultipleCoinbases (i : nat)
| CoinbasePayloadRule (e : SubsidyRuleError)
| TxInIsolationValidationFailed (id : bytes) (e : TxRuleError)
| ExceedsComputeMassLimit (total max : Z)
| ExceedsTransientMassLimit (total max : Z)
| ExceedsStorageMassLimit (total max : Z)
| DoubleSpendInSameBlock (outpoint : RegistryRef)
| ChainedTransaction (outpoint : RegistryRef)
| TxInContextFailed (id : bytes) (e : TxRuleError)
| DuplicateTransactions (id : bytes)
| PrunedBlock.

Inductive halt := Stop (s : stop) | Rule (e : RuleError).

Definition run_ {A} (r : result stop A) : result halt A := match r with Ok a => Ok a | Err s => Err (Stop s) end.

(** * The bounded heap *)

#[export] Instance SortableBlock_eq_dec : EqDecision SortableBlock.
Proof. solve_decision. Defined.

(** The heap is of reversed blocks: its top is the least one. *)
Fixpoint min_from (best : SortableBlock) (l : list SortableBlock) : SortableBlock :=
  match l with
  | [] => best
  | x :: l' => min_from (match sortable_cmp x best with Lt => x | _ => best end) l'
  end.

Definition heap_peek (l : BlockWindowHeap) : option SortableBlock :=
  match l with [] => None | x :: l' => Some (min_from x l') end.

Fixpoint remove_first (x : SortableBlock) (l : list SortableBlock) : list SortableBlock :=
  match l with [] => [] | y :: l' => if decide (y = x) then l' else y :: remove_first x l' end.

Definition heap_pop (l : BlockWindowHeap) : BlockWindowHeap :=
  match heap_peek l with Some x => remove_first x l | None => [] end.

Record BoundedSizeBlockHeap := mk_bounded { binary_heap : BlockWindowHeap; size_bound : nat }.

Definition bounded_new (size_bound : nat) : BoundedSizeBlockHeap := mk_bounded [] size_bound.
Definition from_binary_heap (size_bound : nat) (heap : BlockWindowHeap) : BoundedSizeBlockHeap := mk_bounded heap size_bound.

Definition reached_size_bound (h : BoundedSizeBlockHeap) : bool := (length (binary_heap h) =? size_bound h)%nat.

(** [None] is the panic on an empty heap of bound 0. *)
Definition can_push (h : BoundedSizeBlockHeap) (block : SortableBlock) : option bool :=
  if reached_size_bound h then
    max ← heap_peek (binary_heap h);
    Some (match sortable_cmp block max with Lt => false | _ => true end)
  else Some true.

Definition try_push (h : BoundedSizeBlockHeap) (block : SortableBlock) : BoundedSizeBlockHeap * bool :=
  if reached_size_bound h then
    match heap_peek (binary_heap h) with
    | Some max =>
        match sortable_cmp block max with
        | Lt => (h, false)
        | _ => (mk_bounded (block :: heap_pop (binary_heap h)) (size_bound h), true)
        end
    | None => (mk_bounded (block :: heap_pop (binary_heap h)) (size_bound h), true)
    end
  else (mk_bounded (block :: binary_heap h) (size_bound h), true).

Definition merge_ancestor_heap (h : BoundedSizeBlockHeap) (ancestor_heap : BlockWindowHeap) : BoundedSizeBlockHeap :=
  let blocks := binary_heap h ++ ancestor_heap in
  mk_bounded (Nat.iter (length blocks - size_bound h) heap_pop blocks) (size_bound h).

(** * The window manager *)

Inductive WindowType := DifficultyWindow | MedianTimeWindow | VaryingWindow (size : nat).

Inductive SampledBlock := Sampled (block : SortableBlock) | NonDaa (h : hash).

Abbreviation BlockWindowCacheStore := (gmap hash BlockWindowHeap).

Record SampledWindowManager (T : Type) := mk_window_manager {
  wm_genesis_hash : hash;
  wm_store : T;
  wm_headers_store : DbHeadersStore;
  wm_cache_for_difficulty : BlockWindowCacheStore;
  wm_cache_for_past_median_time : BlockWindowCacheStore;
  wm_difficulty_window_size : nat;
  wm_difficulty_sample_rate : Z;
  wm_past_median_time_window_size : nat;
  wm_past_median_time_sample_rate : Z;
  wm_difficulty_manager : SampledDifficultyManager;
}.
Arguments mk_window_manager {T}.
Arguments wm_genesis_hash {T}.
Arguments wm_store {T}.
Arguments wm_headers_store {T}.
Arguments wm_cache_for_difficulty {T}.
Arguments wm_cache_for_past_median_time {T}.
Arguments wm_difficulty_window_size {T}.
Arguments wm_difficulty_sample_rate {T}.
Arguments wm_past_median_time_window_size {T}.
Arguments wm_past_median_time_sample_rate {T}.
Arguments wm_difficulty_manager {T}.

Record DaaWindow := mk_daa_window {
  daa_window : BlockWindowHeap;
  daa_score : Z;
  mergeset_non_daa : gset hash;
}.

Section window.
Context {T : Type} `{SahyadriConsensusStore T} (m : SampledWindowManager T).

Definition window_size (window_type : WindowType) : nat :=
  match window_type with
  | DifficultyWindow => wm_difficulty_window_size m
  | MedianTimeWindow => wm_past_median_time_window_size m
  | VaryingWindow size => size
  end.

Definition sample_rate (window_type : WindowType) : Z :=
  match window_type with
  | DifficultyWindow => wm_difficulty_sample_rate m
  | MedianTimeWindow => wm_past_median_time_sample_rate m
  | VaryingWindow _ => 1
  end.

Definition cache_of (window_type : WindowType) : BlockWindowCacheStore :=
  match window_type with
  | DifficultyWindow => wm_cache_for_difficulty m
  | MedianTimeWindow => wm_cache_for_past_median_time m
  | VaryingWindow _ => ∅
  end.

(** [u64::is_multiple_of] *)
Definition is_multiple_of (a b : Z) : bool := if b =? 0 then a =? 0 else a mod b =? 0.

(** The filter of the iterator; [index] counts the blocks inside the DAA window. *)
Fixpoint sample (rate sp_daa_score threshold index : Z) (blocks : list SortableBlock) : result stop (list SampledBlock) :=
  match blocks with
  | [] => Ok []
  | block :: rest =>
      blue_score ← unwrapped (gs_get_blue_score (wm_store m) (sb_hash block));
      if blue_score <? threshold then
        l ← sample rate sp_daa_score threshold index rest;
        Ok (NonDaa (sb_hash block) :: l)
      else
        let index := wadd64 index 1 in
        l ← sample rate sp_daa_score threshold index rest;
        Ok (if is_multiple_of (wadd64 sp_daa_score index) rate then Sampled block :: l else l)
  end.

Definition sampled_mergeset_iterator (rate : Z) (d : SahyadriConsensusData) (selected_parent_blue_work : limbs) :
    result stop (list SampledBlock) :=
  selected_parent_daa_score ← unwrapped (get_daa_score (wm_headers_store m) (selected_parent d));
  let threshold := lowest_daa_blue_score (wm_difficulty_manager m) d in
  mergeset ← descending_mergeset_without_selected_parent (wm_store m) d;
  sample rate selected_parent_daa_score threshold 0 (mk_sortable (selected_parent d) selected_parent_blue_work :: mergeset).

(** With an inserter the whole mergeset is visited. *)
Fixpoint push_all (blocks : list SampledBlock) (heap : BoundedSizeBlockHeap) (non_daa : gset hash) : BoundedSizeBlockHeap * gset hash :=
  match blocks with
  | [] => (heap, non_daa)
  | Sampled block :: rest => push_all rest (try_push heap block).1 non_daa
  | NonDaa h :: rest => push_all rest heap ({[h]} ∪ non_daa)
  end.

(** Without one the visit ends at the first block that cannot be pushed. *)
Fixpoint push_until_full (blocks : list SampledBlock) (heap : BoundedSizeBlockHeap) : BoundedSizeBlockHeap :=
  match blocks with
  | [] => heap
  | Sampled block :: rest => let '(heap', pushed) := try_push heap block in if pushed then push_until_full rest heap' else heap'
  | NonDaa _ :: rest => push_until_full rest heap
  end.

(** The two calls of [push_mergeset]; the first one collects the blocks outside the DAA window. *)
Definition push_mergeset_with_inserter (heap : BoundedSizeBlockHeap) (rate : Z) (d : SahyadriConsensusData) (selected_parent_blue_work : limbs) :
    result stop (BoundedSizeBlockHeap * gset hash) :=
  blocks ← sampled_mergeset_iterator rate d selected_parent_blue_work;
  Ok (push_all blocks heap ∅).

Definition push_mergeset (heap : BoundedSizeBlockHeap) (rate : Z) (d : SahyadriConsensusData) (selected_parent_blue_work : limbs) :
    result stop BoundedSizeBlockHeap :=
  blocks ← sampled_mergeset_iterator rate d selected_parent_blue_work;
  Ok (push_until_full blocks heap).

Definition try_init_from_cache (size : nat) (rate : Z) (cache : BlockWindowCacheStore) (d : SahyadriConsensusData)
    (selected_parent_blue_work : limbs) : result stop (option (BlockWindowHeap * gset hash)) :=
  match cache !! selected_parent d with
  | Some selected_parent_window =>
      r ← push_mergeset_with_inserter (from_binary_heap size selected_parent_window) rate d selected_parent_blue_work;
      Ok (Some (binary_heap r.1, r.2))
  | None => Ok None
  end.

Definition try_merge_with_selected_parent_cache (heap : BoundedSizeBlockHeap) (cache : BlockWindowCacheStore) (sp : hash) :
    BoundedSizeBlockHeap * bool :=
  match cache !! sp with
  | Some selected_parent_window => (merge_ancestor_heap heap selected_parent_window, true)
  | None => (heap, false)
  end.

(** The walk down the chain; [current] is the data of the last chain block reached. *)
Fixpoint window_loop (fuel : nat) (rate : Z) (cache : BlockWindowCacheStore) (current : SahyadriConsensusData) (heap : BoundedSizeBlockHeap) :
    result halt BoundedSizeBlockHeap :=
  match fuel with
  | O => Err (Stop Diverges)
  | S fuel' =>
      if bool_decide (selected_parent current = ORIGIN) then
        if reached_size_bound heap then Ok heap else Err (Rule (InsufficientDaaWindowSize (length (binary_heap heap))))
      else if bool_decide (selected_parent current = wm_genesis_hash m) then Ok heap
      else
        parent_data ← run_ (unwrapped_fault (gs_get_data (wm_store m) (selected_parent current)));
        can ← run_ (assert_some (can_push heap (mk_sortable (selected_parent current) (blue_work parent_data))));
        if negb can then Ok heap
        else
          heap ← run_ (push_mergeset heap rate current (blue_work parent_data));
          let '(heap, merged) := try_merge_with_selected_parent_cache heap cache (selected_parent current) in
          if merged then Ok heap else window_loop fuel' rate cache parent_data heap
  end.

(** The window with the blocks of the mergeset outside of it. *)
Definition build_block_window (fuel : nat) (d : SahyadriConsensusData) (window_type : WindowType) : result halt (BlockWindowHeap * gset hash) :=
  let size := window_size window_type in
  let rate := sample_rate window_type in
  if (size =? 0)%nat then Ok ([], ∅)
  else if bool_decide (selected_parent d = wm_genesis_hash m) then Ok ([], {[wm_genesis_hash m]})
  else if bool_decide (selected_parent d = ORIGIN) then Err (Rule (InsufficientDaaWindowSize 0))
  else
    let cache := cache_of window_type in
    selected_parent_blue_work ← run_ (unwrapped (gs_get_blue_work (wm_store m) (selected_parent d)));
    cached ← run_ (try_init_from_cache size rate cache d selected_parent_blue_work);
    match cached with
    | Some res => Ok res
    | None =>
        r ← run_ (push_mergeset_with_inserter (bounded_new size) rate d selected_parent_blue_work);
        let '(heap, non_daa) := r in
        current ← run_ (unwrapped_fault (gs_get_data (wm_store m) (selected_parent d)));
        heap ← window_loop fuel rate cache current heap;
        Ok (binary_heap heap, non_daa)
    end.

Definition block_window (fuel : nat) (d : SahyadriConsensusData) (window_type : WindowType) : result halt BlockWindowHeap :=
  r ← build_block_window fuel d window_type; Ok r.1.

Definition calc_daa_window (d : SahyadriConsensusData) (window : BlockWindowHeap) : result stop DaaWindow :=
  r ← calc_daa_score_and_mergeset_non_daa_blocks (wm_difficulty_manager m) d (wm_store m);
  Ok (mk_daa_window window r.1 r.2).

Definition block_daa_window (fuel : nat) (d : SahyadriConsensusData) : result halt DaaWindow :=
  r ← build_block_window fuel d DifficultyWindow;
  score ← run_ (calc_daa_score (wm_difficulty_manager m) d r.2);
  Ok (mk_daa_window r.1 score r.2).

Definition window_difficulty_bits (d : SahyadriConsensusData) (w : DaaWindow) : result stop Z :=
  calculate_difficulty_bits (wm_difficulty_manager m) (daa_window w) d.

Definition window_past_median_time (fuel : nat) (d : SahyadriConsensusData) : result halt (Z * BlockWindowHeap) :=
  window ← block_window fuel d MedianTimeWindow;
  t ← run_ (calc_past_median_time (wm_headers_store m) window (selected_parent d));
  Ok (t, window).

(** The median of a known block, with the cache it leaves. *)
Definition calc_past_median_time_for_known_hash (fuel : nat) (h : hash) : result halt (Z * BlockWindowCacheStore) :=
  match wm_cache_for_past_median_time m !! h with
  | Some window =>
      sp ← run_ (unwrapped (gs_get_selected_parent (wm_store m) h));
      t ← run_ (calc_past_median_time (wm_headers_store m) window sp);
      Ok (t, wm_cache_for_past_median_time m)
  | None =>
      d ← run_ (unwrapped_fault (gs_get_data (wm_store m) h));
      r ← window_past_median_time fuel d;
      Ok (r.1, <[h := r.2]> (wm_cache_for_past_median_time m))
  end.

(** The loop of [consecutive_cover_for_window] over one mergeset. *)
Fixpoint cover_mergeset (l : list hash) (unvisited cover : gset hash) : result stop (gset hash * gset hash) :=
  match l with
  | [] => Ok (unvisited, cover)
  | merged :: rest =>
      if bool_decide (merged ∈ unvisited) then
        sp ← unwrapped (gs_get_selected_parent (wm_store m) merged);
        cover_mergeset rest (unvisited ∖ {[merged]}) ({[sp]} ∪ ({[merged]} ∪ cover))
      else cover_mergeset rest unvisited ({[merged]} ∪ cover)
  end.

Fixpoint cover_loop (fuel : nat) (d : SahyadriConsensusData) (unvisited cover : gset hash) : result stop (gset hash) :=
  if bool_decide (unvisited = ∅) then Ok cover
  else
    match fuel with
    | O => Err Diverges
    | S fuel' =>
        if bool_decide (selected_parent d = ORIGIN) then Err Crashed
        else
          r ← cover_mergeset (unordered_mergeset d) unvisited cover;
          let '(unvisited, cover) := r in
          if bool_decide (unvisited = ∅) then Ok cover
          else
            d' ← unwrapped_fault (gs_get_data (wm_store m) (selected_parent d));
            cover_loop fuel' d' unvisited cover
    end.

Definition consecutive_cover_for_window (fuel : nat) (d : SahyadriConsensusData) (window : BlockWindowHeap) : result stop (list hash) :=
  cover ← cover_loop fuel d (list_to_set (map sb_hash window)) ∅;
  Ok (elements (cover ∖ {[ORIGIN]})).
End window.
