(* ===== verification/BlockDepth.v ===== *)
(** The merge depth root and the finality point of a block
    (consensus/src/processes/block_depth.rs). The walk up the chain takes a bound [fuel]. *)

From S2P Require Import Prelude Access Interval Reach ReachStores ReachService Relations Uint Work Ghostdag Header HeaderStores.

Inductive BlockDepthType := MergeRoot | Finality.

Record BlockDepthManager (U T : Type) := mk_depth_manager {
  dp_merge_depth : Z;
  dp_finality_depth : Z;
  dp_genesis_hash : hash;
  dp_depth_store : DbDepthStore;
  dp_reachability : U;
  dp_store : T;
}.
Arguments mk_depth_manager {U T}.
Arguments dp_merge_depth {U T}.
Arguments dp_finality_depth {U T}.
Arguments dp_genesis_hash {U T}.
Arguments dp_depth_store {U T}.
Arguments dp_reachability {U T}.
Arguments dp_store {U T}.

Section depth.
Context {U T : Type} `{ReachabilityStore U, SahyadriConsensusStore T} (m : BlockDepthManager U T).

(** The walk ends at the last block whose score is below the required one. *)
Fixpoint depth_walk (fuel : nat) (it : ChainIterator) (required_blue_score : Z) (current : hash) : result stop hash :=
  match fuel with
  | O => Err Diverges
  | S fuel' =>
      '(next, it') ← forward_next (dp_reachability m) it;
      match next with
      | None => Ok current
      | Some chain_block =>
          score ← unwrapped (gs_get_blue_score (dp_store m) chain_block);
          if required_blue_score <=? score then Ok current else depth_walk fuel' it' required_blue_score chain_block
      end
  end.

Definition calculate_block_at_depth (fuel : nat) (d : SahyadriConsensusData) (depth_type : BlockDepthType) (pruning_point : hash) : result stop hash :=
  if bool_decide (selected_parent d = ORIGIN) then Ok ORIGIN
  else
    let depth := match depth_type with MergeRoot => dp_merge_depth m | Finality => dp_finality_depth m end in
    if blue_score d <? depth then Ok (dp_genesis_hash m)
    else
      pp_bs ← unwrapped (gs_get_blue_score (dp_store m) pruning_point);
      if blue_score d <? wadd64 pp_bs depth then Ok ORIGIN
      else
        on_chain ← svc_is_chain_ancestor_of (dp_reachability m) pruning_point (selected_parent d);
        if negb on_chain then Ok ORIGIN
        else
          current ← unwrapped (match depth_type with
            | MergeRoot => merge_depth_root (dp_depth_store m) (selected_parent d)
            | Finality => finality_point (dp_depth_store m) (selected_parent d)
            end);
          let current := if bool_decide (current = ORIGIN) then pruning_point else current in
          let required_blue_score := wsub64 (blue_score d) depth in
          depth_walk fuel (ForwardChainIterator_new current (selected_parent d) true) required_blue_score current.

Definition calc_merge_depth_root (fuel : nat) (d : SahyadriConsensusData) (pruning_point : hash) : result stop hash :=
  calculate_block_at_depth fuel d MergeRoot pruning_point.

Definition calc_finality_point (fuel : nat) (d : SahyadriConsensusData) (pruning_point : hash) : result stop hash :=
  calculate_block_at_depth fuel d Finality pruning_point.

(** The filter, read to its end. *)
Fixpoint blues_above (root : hash) (blues : list hash) : result stop (list hash) :=
  match blues with
  | [] => Ok []
  | blue :: rest =>
      above ← svc_is_chain_ancestor_of (dp_reachability m) root blue;
      l ← blues_above root rest;
      Ok (if above : bool then blue :: l else l)
  end.

Definition kosherizing_blues (d : SahyadriConsensusData) (merge_depth_root : hash) : result stop (list hash) :=
  blues_above merge_depth_root (mergeset_blues d).
End depth.
