(* ===== verification/ParentsBuilder.v ===== *)
(** The parents of a block at every level (consensus/src/processes/parents_builder.rs,
    [ParentsManager]). The hash map of the candidates is a finite map: the order of its
    iteration, which the source leaves to the hasher, is that of [map_to_list]. The headers are read by
    value; what the reads leave in the cache shows in no answer ([read_keeps_answers]). *)

From S2P Require Import Prelude Access Interval Reach ReachStores ReachService Relations Uint Work Ghostdag Header HeaderStores.

Record ParentsManager (U R : Type) := mk_parents_manager {
  pm_max_block_level : nat;
  pm_genesis_hash : hash;
  pm_headers_store : DbHeadersStore;
  pm_reachability : U;
  pm_relations : R;
}.
Arguments mk_parents_manager {U R}.
Arguments pm_max_block_level {U R}.
Arguments pm_genesis_hash {U R}.
Arguments pm_headers_store {U R}.
Arguments pm_reachability {U R}.
Arguments pm_relations {U R}.

(** [Vec::swap] with the first element. *)
Definition swap_first {A} (i : nat) (l : list A) : option (list A) :=
  x ← l !! 0%nat;
  y ← l !! i;
  Some (<[0%nat := y]> (<[i := x]> l)).

Section parents.
Context {U R : Type} `{ReachabilityStore U, RelationsStore R} (m : ParentsManager U R).

Definition parents_at_level (header : Header) (level : nat) : list hash :=
  match parents_get (parents_by_level header) (Z.of_nat level) with
  | Some l => l
  | None => if bool_decide (parents_by_level header = []) then [] else [pm_genesis_hash m]
  end.

(** [Iterator::position] of the first parent above the pruning point. *)
Fixpoint position_above (pruning_point : hash) (parents : list hash) (i : nat) : result stop (option nat) :=
  match parents with
  | [] => Ok None
  | parent :: rest =>
      above ← svc_is_dag_ancestor_of (pm_reachability m) pruning_point parent;
      if above : bool then Ok (Some i) else position_above pruning_point rest (i + 1)%nat
  end.

Definition header_at (h : hash) : result stop Header :=
  match header_value (pm_headers_store m) h with Ok v => Ok v | Err _ => Err Crashed end.

(** The headers of the children of the origin, read the first time they are needed. *)
Definition origin_children (cached : option (list Header)) : result stop (list Header) :=
  match cached with
  | Some l => Ok l
  | None => children ← unwrapped (rl_get_children (pm_relations m) ORIGIN); collect header_at (elements children)
  end.

(** [HashMap::retain] with the candidates below the block removed. *)
Fixpoint retain_not_below (parent : hash) (candidates : list (hash * list hash)) : result stop (list (hash * list hash)) :=
  match candidates with
  | [] => Ok []
  | (h, refs) :: rest =>
      below ← is_any_dag_ancestor (pm_reachability m) refs parent;
      l ← retain_not_below parent rest;
      Ok (if below : bool then l else (h, refs) :: l)
  end.

Fixpoint below_any_candidate (parent : hash) (candidates : list (hash * list hash)) : result stop bool :=
  match candidates with
  | [] => Ok false
  | (_, refs) :: rest =>
      below ← is_dag_ancestor_of_any (pm_reachability m) parent refs;
      if below : bool then Ok true else below_any_candidate parent rest
  end.

Abbreviation candidates_map := (gmap hash (list hash)).

(** One grandparent; the state is the candidates and the headers read of the children of the origin. *)
Definition visit_grandparent (level marker i : nat) (parent : hash) (candidates : candidates_map) (cached : option (list Header)) :
    result stop (candidates_map * option (list Header)) :=
  has ← has_reachability_data (pm_reachability m) parent;
  r ← (if has : bool then Ok ([parent], cached)
       else
         children ← origin_children cached;
         Ok (map header_hash (filter (fun h => parent ∈ parents_at_level h level) children), Some children));
  let '(reference_blocks, cached) := r in
  if (i <? marker)%nat then Ok (<[parent := reference_blocks]> candidates, cached)
  else if negb has then Ok (candidates, cached)
  else
    kept ← retain_not_below parent (map_to_list candidates);
    let is_any_candidate_ancestor_of := (length kept <? size candidates)%nat in
    add ← (if is_any_candidate_ancestor_of then Ok true
           else below ← below_any_candidate parent kept; Ok (negb below));
    let candidates : candidates_map := list_to_map kept in
    Ok (if add : bool then <[parent := reference_blocks]> candidates else candidates, cached).

Fixpoint visit_grandparents (level marker i : nat) (grandparents : list hash) (candidates : candidates_map) (cached : option (list Header)) :
    result stop (candidates_map * option (list Header)) :=
  match grandparents with
  | [] => Ok (candidates, cached)
  | parent :: rest =>
      r ← visit_grandparent level marker i parent candidates cached;
      visit_grandparents level marker (i + 1)%nat rest r.1 r.2
  end.

(** One level: the parents at the level. *)
Definition level_parents (level : nat) (headers : list HeaderWithBlockLevel) (cached : option (list Header)) :
    result stop (list hash * option (list Header)) :=
  let at_level := filter (fun h => Z.of_nat level <= lv_block_level h) headers in
  let candidates : candidates_map :=
    foldl (fun acc h => <[header_hash (lv_header h) := [header_hash (lv_header h)]]> acc) ∅ at_level in
  let level_parents_of h := parents_at_level (lv_header h) level in
  if bool_decide (candidates = ∅) then
    first ← assert_some (headers !! 0%nat);
    let first_parents := block_unique (level_parents_of first) in
    let marker := length first_parents in
    let grandparents := block_unique (first_parents ++ concat (map level_parents_of (drop 1 headers))) in
    if (marker =? length grandparents)%nat then Ok (grandparents, cached)
    else
      r ← visit_grandparents level marker 0 grandparents candidates cached;
      Ok (map fst (map_to_list r.1), r.2)
  else
    let grandparents := block_unique (concat (map level_parents_of (filter (fun h => lv_block_level h < Z.of_nat level) headers))) in
    r ← visit_grandparents level 0 0 grandparents candidates cached;
    Ok (map fst (map_to_list r.1), r.2).

(** The levels from [level] up, at most [count] of them; a push of more than 255 levels panics. *)
Fixpoint build_levels (count level : nat) (headers : list HeaderWithBlockLevel) (cached : option (list Header)) (parents : CompressedParents) :
    result stop CompressedParents :=
  match count with
  | O => Ok parents
  | S count' =>
      r ← level_parents level headers cached;
      let '(at_level, cached) := r in
      if (0 <? level)%nat && bool_decide (at_level = [pm_genesis_hash m]) then Ok parents
      else
        parents ← assert_some (parents_push parents at_level);
        build_levels count' (level + 1)%nat headers cached parents
  end.

Definition calc_block_parents (current_pruning_point : hash) (direct_parents : list hash) : result stop CompressedParents :=
  headers ← collect (fun parent => unwrapped_fault (header_with_level (pm_headers_store m) parent)) direct_parents;
  first ← position_above current_pruning_point direct_parents 0;
  first ← assert_some first;
  headers ← assert_some (swap_first first headers);
  build_levels (pm_max_block_level m + 1)%nat 0 headers None [].
End parents.
