(* ===== verification/Pow.v ===== *)
(** Proof of work (consensus/pow/src/{lib,matrix,memory_loop,xoshiro}.rs and
    crypto/hashes/src/pow_hashers.rs): the generator, the memory loop, the matrix with its
    rank in double precision, the heavy hash and the check against the target.

    BLAKE3, the permutation of Poseidon2 and the hash of headers are arguments. Arrays are
    lists; reading one out of range is the panic [Crashed]. *)

From Stdlib Require Import Floats.SpecFloat.
From S2P Require Import Prelude Access Interval Reach Relations Uint UintCorrect Work Header.

(** * xoshiro.rs *)

Definition rotate_left (w x n : Z) : Z := Z.lor (wrap w (Z.shiftl x n)) (Z.shiftr x (w - n)).

Record XoShiRo256PlusPlus := mk_xoshiro { x_s0 : Z; x_s1 : Z; x_s2 : Z; x_s3 : Z }.

(** [Hash::to_le_u64] *)
Definition to_le_u64 (h : bytes) : list Z := map from_le (chunks 8 h).

Definition xoshiro_new (h : bytes) : XoShiRo256PlusPlus :=
  let words := to_le_u64 h in mk_xoshiro (nth 0 words 0) (nth 1 words 0) (nth 2 words 0) (nth 3 words 0).

Definition xoshiro_u64 (g : XoShiRo256PlusPlus) : Z * XoShiRo256PlusPlus :=
  let res := wadd64 (x_s0 g) (rotate_left 64 (wadd64 (x_s0 g) (x_s3 g)) 23) in
  let t := wrap 64 (Z.shiftl (x_s1 g) 17) in
  let s2 := Z.lxor (x_s2 g) (x_s0 g) in
  let s3 := Z.lxor (x_s3 g) (x_s1 g) in
  let s1 := Z.lxor (x_s1 g) s2 in
  let s0 := Z.lxor (x_s0 g) s3 in
  (res, mk_xoshiro s0 s1 (Z.lxor s2 t) (rotate_left 64 s3 45)).

(** The next [n] outputs. *)
Fixpoint xoshiro_take (n : nat) (g : XoShiRo256PlusPlus) : list Z * XoShiRo256PlusPlus :=
  match n with
  | O => ([], g)
  | S n' => let '(x, g1) := xoshiro_u64 g in let '(l, g2) := xoshiro_take n' g1 in (x :: l, g2)
  end.

(** * memory_loop.rs *)

Definition MEMORY_SIZE : Z := 16 * 1024 * 1024.
Definition MEMORY_ROUNDS : nat := 256.

Definition memory_loop_new (pre_pow_hash : bytes) : bytes :=
  concat (map (to_le 8) (xoshiro_take (Z.to_nat (MEMORY_SIZE / 8)) (xoshiro_new pre_pow_hash)).1).

Definition xor_at (state : bytes) (i : nat) (x : Z) : option bytes :=
  y ← state !! i; Some (<[i := Z.lxor y x]> state).

(** The loop over [i] of a round, from [i] on. *)
Fixpoint mix_bytes (buffer : bytes) (pos off i : nat) (count : nat) (state : bytes) : option bytes :=
  match count with
  | O => Some state
  | S count' =>
      a ← buffer !! (pos + i)%nat;
      b ← buffer !! (pos + 32 + i)%nat;
      let at_ := ((i + off) mod 32)%nat in
      state ← xor_at state at_ a;
      state ← xor_at state at_ b;
      mix_bytes buffer pos off (i + 1)%nat count' state
  end.

Definition arx (state : bytes) : bytes :=
  let a := from_le (take 8 state) in
  let b := from_le (take 8 (drop 8 state)) in
  let c := from_le (take 8 (drop 16 state)) in
  let d := from_le (take 8 (drop 24 state)) in
  let a := rotate_left 64 (wadd64 a b) 13 in
  let c := rotate_left 64 (wadd64 c d) 17 in
  let b := Z.lxor b (rotate_left 64 a 7) in
  let d := Z.lxor d (rotate_left 64 c 11) in
  to_le 8 a ++ to_le 8 b ++ to_le 8 c ++ to_le 8 d.

Definition memory_round (size : Z) (buffer : bytes) (round : nat) (state : bytes) : option bytes :=
  let pos := Z.to_nat (from_le (take 8 state) mod (size - 64)) in
  state ← mix_bytes buffer pos (round mod 32)%nat 0 32 state;
  Some (arx state).

Fixpoint memory_rounds (size : Z) (buffer : bytes) (round count : nat) (state : bytes) : option bytes :=
  match count with
  | O => Some state
  | S count' => state ← memory_round size buffer round state; memory_rounds size buffer (round + 1)%nat count' state
  end.

Definition memory_loop_process (buffer : bytes) (input : bytes) : option bytes :=
  memory_rounds MEMORY_SIZE buffer 0 MEMORY_ROUNDS input.

(** * matrix.rs *)

Abbreviation Matrix := (list (list Z)).
Abbreviation f64 := spec_float.

Definition f64_of (x : Z) : f64 := binary_normalize 53 1024 x 0 false.
Definition f64_sub := SFsub 53 1024.
Definition f64_mul := SFmul 53 1024.
Definition f64_div := SFdiv 53 1024.

(** 1e-9 *)
Definition EPS : f64 := S754_finite false 4835703278458517 (-82).
Definition above_eps (x : f64) : bool := SFltb EPS (SFabs x).

(** A word gives sixteen entries of four bits. *)
Definition nibbles (val : Z) : list Z := map (fun shift => Z.land (Z.shiftr val (4 * Z.of_nat shift)) 15) (seq 0 16).

Fixpoint rand_rows (n : nat) (g : XoShiRo256PlusPlus) : Matrix * XoShiRo256PlusPlus :=
  match n with
  | O => ([], g)
  | S n' =>
      let '(words, g1) := xoshiro_take 4 g in
      let '(rows, g2) := rand_rows n' g1 in
      (concat (map nibbles words) :: rows, g2)
  end.

Definition rand_matrix_no_rank_check (g : XoShiRo256PlusPlus) : Matrix * XoShiRo256PlusPlus := rand_rows 64 g.

Definition convert_to_float (m : Matrix) : list (list f64) := map (map f64_of) m.

Definition entry (m : list (list f64)) (row column : nat) : f64 := nth column (nth row m []) S754_nan.

(** The first row not yet selected with an entry in the column. *)
Definition pivot_row (m : list (list f64)) (selected : list bool) (i : nat) : option nat :=
  fst <$> list_find (fun j => negb (nth j selected true) && above_eps (entry m j i)) (seq 0 64).

(** One column of the elimination. *)
Definition eliminate (m : list (list f64)) (i j : nat) : list (list f64) :=
  let pivot := entry m j i in
  let row_j := imap (fun p x => if (i <? p)%nat then f64_div x pivot else x) (nth j m []) in
  let m := <[j := row_j]> m in
  imap (fun k row =>
    let factor := nth i row S754_nan in
    if negb (k =? j)%nat && above_eps factor then
      imap (fun p x => if (i <? p)%nat then f64_sub x (f64_mul (nth p row_j S754_nan) factor) else x) row
    else row) m.

Fixpoint rank_loop (columns : list nat) (m : list (list f64)) (selected : list bool) (rank : nat) : nat :=
  match columns with
  | [] => rank
  | i :: rest =>
      match pivot_row m selected i with
      | Some j => rank_loop rest (eliminate m i j) (<[j := true]> selected) (rank + 1)%nat
      | None => rank_loop rest m selected rank
      end
  end.

Definition compute_rank (m : Matrix) : nat := rank_loop (seq 0 64) (convert_to_float m) (replicate 64 false) 0.

Fixpoint generate_loop (fuel : nat) (g : XoShiRo256PlusPlus) : result stop Matrix :=
  match fuel with
  | O => Err Diverges
  | S fuel' =>
      let '(mat, g') := rand_matrix_no_rank_check g in
      if (compute_rank mat =? 64)%nat then Ok mat else generate_loop fuel' g'
  end.

Definition generate (fuel : nat) (h : bytes) : result stop Matrix := generate_loop fuel (xoshiro_new h).

Definition hash_nibbles (h : bytes) : list Z := concat (map (fun e => [Z.shiftr e 4; Z.land e 15]) h).

(** The sums are of sixteen bits. *)
Definition row_sum (row v : list Z) : Z := foldl (fun acc p => wrap 16 (acc + wrap 16 (p.1 * p.2))) 0 (zip row v).

Definition product_byte (m : Matrix) (v : list Z) (i : nat) : Z :=
  let sum1 := row_sum (nth (2 * i)%nat m []) v in
  let sum2 := row_sum (nth (2 * i + 1)%nat m []) v in
  Z.lor (wrap 8 (wrap 16 (Z.shiftl (Z.shiftr sum1 10) 4))) (wrap 8 (Z.shiftr sum2 10)).

Definition heavy_product (m : Matrix) (h : bytes) : bytes :=
  zip_with Z.lxor (map (product_byte m (hash_nibbles h)) (seq 0 32)) h.

(** * pow_hashers.rs *)

Section hashers.
Context (blake3 : bytes -> bytes) (poseidon2_permute : list Z -> list Z).

Definition GOLDILOCKS : Z := 2 ^ 64 - 2 ^ 32 + 1.

(** The elements of the permutation are canonical, in and out. *)
Definition poseidon2_output (buffer state : bytes) : bytes :=
  let tail := drop (length buffer - 64) buffer in
  let inputs := map (fun c => from_le c mod GOLDILOCKS) (chunks 8 tail ++ chunks 8 state) in
  let out := poseidon2_permute inputs in
  concat (map (fun i => zip_with Z.lxor (to_le 8 (nth i out 0)) (to_le 8 (nth (i + 4)%nat out 0))) (seq 0 4)).

Definition WINDOWS : Z := 524288.

(** Stage A: the chain of hashes. *)
Fixpoint fill_windows (n : nat) (current : bytes) : list bytes :=
  match n with O => [] | S n' => current :: fill_windows n' (blake3 current) end.

(** Stage B: each round reads the window its state points at. *)
Fixpoint mixing_rounds (count : nat) (size : Z) (windows : list bytes) (state : bytes) : option bytes :=
  match count with
  | O => Some state
  | S count' =>
      let raw_index := from_le (take 4 state) in
      window ← windows !! Z.to_nat (raw_index mod size);
      mixing_rounds count' size windows (blake3 (state ++ window))
  end.

Definition sahyadri_x (data : bytes) : option bytes :=
  let windows := fill_windows (Z.to_nat WINDOWS) (blake3 data) in
  state ← mixing_rounds 1024 WINDOWS windows (blake3 data);
  Some (poseidon2_output (concat windows) state).

Definition heavy_hash (m : Matrix) (h : bytes) : option bytes := sahyadri_x (heavy_product m h).

Record PowHash := mk_pow_hash { ph_pre_pow_hash : bytes; ph_timestamp : Z }.

Definition finalize_with_nonce (p : PowHash) (nonce : Z) : option bytes :=
  sahyadri_x (ph_pre_pow_hash p ++ to_le 8 (ph_timestamp p) ++ to_le 8 nonce).

(** * lib.rs *)

Record State := mk_state { st_matrix : Matrix; st_target : limbs; st_hasher : PowHash; st_memory_loop : bytes }.

Context (BlockHash : bytes -> bytes).

Definition state_new (fuel : nat) (header : Header) : result stop State :=
  pre_pow_hash ← assert_some (hash_override_nonce_time BlockHash header 0 0);
  matrix ← generate fuel pre_pow_hash;
  Ok (mk_state matrix (from_compact_target_bits (header_bits header)) (mk_pow_hash pre_pow_hash (header_timestamp header))
        (memory_loop_new pre_pow_hash)).

Definition calculate_pow (s : State) (nonce : Z) : result stop limbs :=
  h ← assert_some (finalize_with_nonce (st_hasher s) nonce);
  h ← assert_some (memory_loop_process (st_memory_loop s) h);
  h ← assert_some (heavy_hash (st_matrix s) h);
  Ok (uint_from_le_bytes h).

Definition check_pow (s : State) (nonce : Z) : result stop (bool * limbs) :=
  pow ← calculate_pow s nonce;
  Ok (uint_leb pow (st_target s), pow).

(** [max_block_level] is a [u8]; so is the result. *)
Definition calc_level_from_pow (pow : limbs) (max_block_level : Z) : Z := wrap 8 (Z.max (max_block_level - uint_bits pow) 0).

Definition calc_block_level_check_pow (fuel : nat) (header : Header) (max_block_level : Z) : result stop (Z * bool) :=
  if bool_decide (parents_by_level header = []) then Ok (max_block_level, true)
  else
    state ← state_new fuel header;
    r ← check_pow state (header_nonce header);
    Ok (calc_level_from_pow r.2 max_block_level, r.1).

Definition calc_block_level (fuel : nat) (header : Header) (max_block_level : Z) : result stop Z :=
  r ← calc_block_level_check_pow fuel header max_block_level; Ok r.1.
End hashers.
