(* ===== verification/PowTheorems.v ===== *)
(** The proof of work is total: every read of the memory pads is in range, the sixteen-bit
    sums of the heavy hash do not overflow, and the result is a 256-bit number. *)

From S2P Require Import Prelude Access Interval Reach Relations Uint UintCorrect Work Header Pow.

Lemma lxor_byte_bound n a b : 0 <= n -> 0 <= a < 2 ^ n -> 0 <= b < 2 ^ n -> 0 <= Z.lxor a b < 2 ^ n.
Proof.
  intros Hn Ha Hb. assert (0 <= Z.lxor a b) by (apply Z.lxor_nonneg; lia). split; [done|].
  destruct (decide (Z.lxor a b = 0)) as [->|Hz]; [lia|]. apply Z.log2_lt_pow2; [lia|].
  pose proof (Z.log2_lxor a b ltac:(lia) ltac:(lia)) as Hl. assert (0 < n) by (destruct (decide (n = 0)) as [->|]; [|lia]; change (2 ^ 0) with 1 in *; assert (a = 0) by lia; assert (b = 0) by lia; subst; done).
  assert (Hlog : forall x, 0 <= x < 2 ^ n -> Z.log2 x < n).
  { intros x Hx. destruct (decide (x = 0)) as [->|]; [cbn; lia|]. apply Z.log2_lt_pow2; lia. }
  pose proof (Hlog a Ha). pose proof (Hlog b Hb). lia.
Qed.

Lemma zip_xor_ok l l' : bytes_ok l -> bytes_ok l' -> bytes_ok (zip_with Z.lxor l l').
Proof.
  intros Hl. revert l'. induction Hl as [|x l Hx Hl IH]; intros l' Hl'; [constructor|]. destruct l' as [|y l']; [constructor|].
  apply Forall_cons in Hl' as [Hy Hl']. constructor; [|by apply IH]. unfold byte_ok in *. apply (lxor_byte_bound 8); lia.
Qed.

(** * The memory loop *)

Lemma xoshiro_take_length n g : length (xoshiro_take n g).1 = n.
Proof.
  revert g. induction n as [|n IH]; intros g; [done|]. cbn [xoshiro_take]. destruct (xoshiro_u64 g) as [x g1]. specialize (IH g1).
  destruct (xoshiro_take n g1). cbn in *. lia.
Qed.

Lemma memory_loop_new_length h : Z.of_nat (length (memory_loop_new h)) = MEMORY_SIZE.
Proof.
  unfold memory_loop_new. assert (Hl : forall l, length (concat (map (to_le 8) l)) = (8 * length l)%nat).
  { induction l as [|x l IH]; [done|]. cbn [map concat]. rewrite length_app, length_to_le, IH. cbn [length]. lia. }
  rewrite Hl, xoshiro_take_length. change (MEMORY_SIZE / 8) with 2097152. rewrite Nat2Z.inj_mul, Z2Nat.id by lia. done.
Qed.

Lemma xor_at_run state i x : (i < length state)%nat -> exists s', xor_at state i x = Some s' /\ length s' = length state.
Proof.
  intros Hi. unfold xor_at. destruct (lookup_lt_is_Some_2 state i Hi) as [y ->]. cbn. eexists. split; [done|]. apply length_insert.
Qed.

Lemma mix_bytes_run buffer pos off i count state : length state = 32%nat -> (i + count <= 32)%nat -> (pos + 64 <= length buffer)%nat ->
  exists s', mix_bytes buffer pos off i count state = Some s' /\ length s' = 32%nat.
Proof.
  revert i state. induction count as [|count IH]; intros i state Hs Hi Hp; [by exists state|]. cbn [mix_bytes].
  destruct (lookup_lt_is_Some_2 buffer (pos + i)%nat ltac:(lia)) as [a ->], (lookup_lt_is_Some_2 buffer (pos + 32 + i)%nat ltac:(lia)) as [b ->].
  cbn [mbind option_bind]. assert (Hm : ((i + off) mod 32 < 32)%nat) by (apply Nat.mod_upper_bound; lia).
  destruct (xor_at_run state ((i + off) mod 32) a ltac:(lia)) as (s1 & -> & H1). cbn [mbind option_bind].
  destruct (xor_at_run s1 ((i + off) mod 32) b ltac:(lia)) as (s2 & -> & H2). cbn [mbind option_bind]. apply IH; lia.
Qed.

Lemma arx_ok state : length (arx state) = 32%nat /\ bytes_ok (arx state).
Proof.
  unfold arx. cbv zeta. split; [by rewrite !length_app, !length_to_le|]. repeat (apply Forall_app; split); apply to_le_ok.
Qed.

Lemma memory_rounds_run size buffer round count state : 64 < size -> Z.of_nat (length buffer) = size -> length state = 32%nat -> bytes_ok state ->
  exists s', memory_rounds size buffer round count state = Some s' /\ length s' = 32%nat /\ bytes_ok s'.
Proof.
  intros Hsz Hb. revert round state. induction count as [|count IH]; intros round state Hs Hok; [by exists state|]. cbn [memory_rounds]. unfold memory_round.
  pose proof (Z.mod_pos_bound (from_le (take 8 state)) (size - 64) ltac:(lia)) as Hm.
  destruct (mix_bytes_run buffer (Z.to_nat (from_le (take 8 state) mod (size - 64))) (round mod 32) 0 32 state Hs ltac:(lia) ltac:(lia)) as (s1 & -> & H1).
  cbn [mbind option_bind]. destruct (arx_ok s1). by apply IH.
Qed.

(** * The matrix *)

Definition nibble (x : Z) : Prop := 0 <= x < 16.
Definition matrix_ok (m : Matrix) : Prop := length m = 64%nat /\ Forall (fun row => length row = 64%nat /\ Forall nibble row) m.

Lemma land_nibble x : nibble (Z.land x 15).
Proof. unfold nibble. change 15 with (Z.ones 4). rewrite Z.land_ones by lia. apply (Z.mod_pos_bound x (2 ^ 4)); lia. Qed.

Lemma nibbles_ok v : length (nibbles v) = 16%nat /\ Forall nibble (nibbles v).
Proof. unfold nibbles. rewrite length_map, length_seq. split; [done|]. apply Forall_map, Forall_forall. intros. apply land_nibble. Qed.

Lemma concat_nibbles l : length (concat (map nibbles l)) = (16 * length l)%nat /\ Forall nibble (concat (map nibbles l)).
Proof.
  induction l as [|x l [IH1 IH2]]; [done|]. cbn [map concat]. destruct (nibbles_ok x) as [H1 H2]. rewrite length_app, H1, IH1. split; [cbn; lia|by apply Forall_app].
Qed.

Lemma rand_matrix_ok g : matrix_ok (rand_matrix_no_rank_check g).1.
Proof.
  enough (Hgen : forall n g, length (rand_rows n g).1 = n /\ Forall (fun row => length row = 64%nat /\ Forall nibble row) (rand_rows n g).1) by apply Hgen.
  clear g. intros n. induction n as [|n IH]; intros g; [done|].
  cbn [rand_rows]. pose proof (xoshiro_take_length 4 g) as Hl. destruct (xoshiro_take 4 g) as [words g1]. specialize (IH g1). destruct (rand_rows n g1) as [rows g2].
  cbn [fst] in *. destruct IH as [IH1 IH2]. destruct (concat_nibbles words) as [H1 H2]. split; [cbn; lia|]. constructor; [|done]. split; [lia|done].
Qed.

Lemma generate_ok fuel h mat : generate fuel h = Ok mat -> matrix_ok mat /\ compute_rank mat = 64%nat.
Proof.
  unfold generate. generalize (xoshiro_new h). induction fuel as [|fuel IH]; intros g; [done|]. cbn [generate_loop].
  pose proof (rand_matrix_ok g) as Hm. destruct (rand_matrix_no_rank_check g) as [mt g']. cbn [fst] in Hm.
  destruct (Nat.eqb_spec (compute_rank mt) 64); [|apply IH]. intros [= <-]. done.
Qed.

Lemma generate_err fuel h e : generate fuel h = Err e -> e = Diverges.
Proof.
  unfold generate. generalize (xoshiro_new h). induction fuel as [|fuel IH]; intros g; [by intros [= <-]|]. cbn [generate_loop].
  destruct (rand_matrix_no_rank_check g) as [mt g']. destruct (_ =? _)%nat; [done|apply IH].
Qed.

(** The product of a row and the digits of a hash, without a bound on the sum. *)
Definition exact_sum (row v : list Z) : Z := sumZ (fun p => p.1 * p.2) (zip row v).

Lemma row_sum_exact row v : Forall nibble row -> Forall nibble v -> (length v <= 64)%nat ->
  row_sum row v = exact_sum row v /\ 0 <= exact_sum row v <= 225 * Z.of_nat (length v).
Proof.
  intros Hr Hv Hl. unfold row_sum, exact_sum.
  assert (Hgen : forall acc row v, Forall nibble row -> Forall nibble v -> 0 <= acc -> acc + 225 * Z.of_nat (length v) < 2 ^ 16 ->
    foldl (fun acc p => wrap 16 (acc + wrap 16 (p.1 * p.2))) acc (zip row v) = acc + sumZ (fun p => p.1 * p.2) (zip row v) /\
    0 <= sumZ (fun p => p.1 * p.2) (zip row v) <= 225 * Z.of_nat (length v)).
  { clear. intros acc row. revert acc. induction row as [|a row IH]; intros acc v Hr Hv Ha Hb; [cbn; lia|].
    destruct v as [|b v]; [cbn; lia|]. apply Forall_cons in Hr as [Hx Hr], Hv as [Hy Hv]. unfold nibble in Hx, Hy. cbn [zip_with foldl length sumZ foldr fst snd] in *.
    assert (0 <= a * b <= 225) by nia. rewrite (wrap_small 16 (a * b)) by lia. rewrite wrap_small by lia.
    destruct (IH (acc + a * b) v Hr Hv ltac:(lia) ltac:(lia)) as [-> ?]. fold (sumZ (fun p : Z * Z => p.1 * p.2) (zip row v)). lia. }
  destruct (Hgen 0 row v Hr Hv ltac:(lia)) as [-> ?]; lia.
Qed.

Lemma hash_nibbles_ok h : bytes_ok h -> Forall nibble (hash_nibbles h) /\ length (hash_nibbles h) = (2 * length h)%nat.
Proof.
  intros Hh. unfold hash_nibbles. induction Hh as [|x h Hx Hh [IH1 IH2]]; [done|]. cbn [map concat app length]. split; [|lia].
  constructor; [|constructor; [apply land_nibble|done]]. unfold nibble, byte_ok in *. rewrite Z.shiftr_div_pow2 by lia.
  split; [apply Z.div_pos; lia|apply Z.div_lt_upper_bound; lia].
Qed.

Lemma nth_row m i : matrix_ok m -> Forall nibble (nth i m []).
Proof.
  intros [_ Hm]. destruct (nth_in_or_default i m []) as [Hi| ->]; [|constructor]. rewrite Forall_forall in Hm. by apply Hm, list_elem_of_In.
Qed.

Lemma lor_nibbles a b : nibble a -> nibble b -> Z.lor (a * 16) b = 16 * a + b.
Proof.
  unfold nibble. intros Ha Hb. pose proof (Z.add_lor_land (a * 16) b) as H. enough (E : Z.land (a * 16) b = 0) by lia.
  apply Z.bits_inj'. intros n Hn. change 16 with (2 ^ 4). rewrite <-Z.shiftl_mul_pow2, Z.land_spec, Z.bits_0, Z.shiftl_spec by lia.
  destruct (decide (n < 4)) as [Hlt|Hge]; [by rewrite (Z.testbit_neg_r a) by lia|].
  rewrite (Z.bits_above_log2 b); [apply andb_false_r|lia|]. destruct (decide (b = 0)) as [->|]; [cbn; lia|].
  apply (Z.lt_le_trans _ 4); [apply Z.log2_lt_pow2; lia|lia].
Qed.

(** Each half of a byte of the product is the exact sum of its row, divided by 1024. *)
Lemma product_byte_exact m h i : matrix_ok m -> bytes_ok h -> length h = 32%nat ->
  product_byte m (hash_nibbles h) i =
    16 * (exact_sum (nth (2 * i) m []) (hash_nibbles h) / 1024) + exact_sum (nth (2 * i + 1) m []) (hash_nibbles h) / 1024 /\
  byte_ok (product_byte m (hash_nibbles h) i).
Proof.
  intros Hm Hh Hl. destruct (hash_nibbles_ok h Hh) as [Hn Hnl]. unfold product_byte.
  destruct (row_sum_exact (nth (2 * i) m []) (hash_nibbles h) (nth_row m _ Hm) Hn ltac:(lia)) as [-> H1].
  destruct (row_sum_exact (nth (2 * i + 1) m []) (hash_nibbles h) (nth_row m _ Hm) Hn ltac:(lia)) as [-> H2].
  set (a := exact_sum (nth (2 * i) m []) _) in *. set (b := exact_sum (nth (2 * i + 1) m []) _) in *. rewrite Hnl, Hl in H1, H2.
  rewrite !Z.shiftr_div_pow2, Z.shiftl_mul_pow2 by lia. change (2 ^ 10) with 1024. change (2 ^ 4) with 16.
  assert (Ha : 0 <= a / 1024 < 16) by (split; [apply Z.div_pos; lia|apply Z.div_lt_upper_bound; lia]).
  assert (Hb : 0 <= b / 1024 < 16) by (split; [apply Z.div_pos; lia|apply Z.div_lt_upper_bound; lia]).
  rewrite (wrap_small 16), !(wrap_small 8) by lia.
  rewrite lor_nibbles by done. unfold byte_ok. lia.
Qed.

Lemma heavy_product_ok m h : matrix_ok m -> bytes_ok h -> length h = 32%nat -> bytes_ok (heavy_product m h).
Proof.
  intros Hm Hh Hl. unfold heavy_product. apply zip_xor_ok; [|done]. apply Forall_map, Forall_forall. intros i _. by apply product_byte_exact.
Qed.

Lemma uint_of_hash h : length h = 32%nat -> bytes_ok h -> limbs_ok (uint_from_le_bytes h) /\ length (uint_from_le_bytes h) = 4%nat.
Proof.
  intros Hl Hh. unfold uint_from_le_bytes. set (parts := [take 8 h; take 8 (drop 8 h); take 8 (drop 16 h); drop 24 h]).
  assert (E : h = concat parts).
  { unfold parts. cbn [concat]. rewrite app_nil_r. rewrite <-(take_drop 8 h) at 1. f_equal.
    rewrite <-(take_drop 8 (drop 8 h)) at 1. f_equal. rewrite drop_drop. cbn [Nat.add]. rewrite <-(take_drop 8 (drop 16 h)) at 1. f_equal. by rewrite drop_drop. }
  assert (HF : Forall (fun c => length c = 8%nat) parts).
  { unfold parts. repeat constructor; rewrite ?length_take, ?length_drop; lia. }
  rewrite E, chunks_concat8 by done. split; [|done]. rewrite E in Hh. apply Forall_map, Forall_forall. intros c Hc.
  rewrite Forall_forall in HF. rewrite Forall_concat, Forall_forall in Hh. pose proof (from_le_range c (Hh c Hc)) as Hr. rewrite (HF c Hc) in Hr. exact Hr.
Qed.

Lemma bit_length_nonneg z : 0 <= bit_length z.
Proof. unfold bit_length. destruct (z =? 0); [lia|]. pose proof (Z.log2_nonneg z). lia. Qed.

(** * The hashers *)

Section hashers.
Context (blake3 : bytes -> bytes) (poseidon2_permute : list Z -> list Z) (BlockHash : bytes -> bytes).

Lemma fill_windows_length n c : length (fill_windows blake3 n c) = n.
Proof. revert c. induction n as [|n IH]; intros c; [done|]. cbn. by rewrite IH. Qed.

Lemma mixing_rounds_run count size windows state : 0 < size -> Z.of_nat (length windows) = size ->
  exists s', mixing_rounds blake3 count size windows state = Some s'.
Proof.
  intros Hs Hl. revert state. induction count as [|count IH]; intros state; [by exists state|]. cbn [mixing_rounds].
  pose proof (Z.mod_pos_bound (from_le (take 4 state)) size Hs) as Hm.
  destruct (lookup_lt_is_Some_2 windows (Z.to_nat (from_le (take 4 state) mod size)) ltac:(lia)) as [w ->]. cbn [mbind option_bind]. apply IH.
Qed.

Lemma sahyadri_x_run data : exists h, sahyadri_x blake3 poseidon2_permute data = Some h /\ length h = 32%nat /\ bytes_ok h.
Proof.
  unfold sahyadri_x. cbv zeta. set (windows := fill_windows _ _ _).
  destruct (mixing_rounds_run 1024 WINDOWS windows (blake3 data)) as (s' & ->).
  { unfold WINDOWS. lia. }
  { unfold windows. rewrite fill_windows_length, Z2Nat.id; unfold WINDOWS; lia. }
  cbn [mbind option_bind]. eexists. split; [done|]. unfold poseidon2_output. cbv zeta. set (out := poseidon2_permute _).
  cbn [seq map concat]. rewrite app_nil_r. split; [rewrite !length_app, !length_zip_with, !length_to_le; done|].
  repeat (apply Forall_app; split); apply zip_xor_ok; apply to_le_ok.
Qed.

Lemma bind_some {A B} (o : option A) a (f : A -> result stop B) : o = Some a -> (x ← assert_some o; f x) = f a.
Proof. by intros ->. Qed.

Lemma finalize_with_nonce_run p nonce : exists h, finalize_with_nonce blake3 poseidon2_permute p nonce = Some h /\ length h = 32%nat /\ bytes_ok h.
Proof. apply sahyadri_x_run. Qed.

Lemma heavy_hash_run m h : exists h', heavy_hash blake3 poseidon2_permute m h = Some h' /\ length h' = 32%nat /\ bytes_ok h'.
Proof. apply sahyadri_x_run. Qed.

Lemma memory_loop_run buffer h : Z.of_nat (length buffer) = MEMORY_SIZE -> length h = 32%nat -> bytes_ok h ->
  exists h', memory_loop_process buffer h = Some h' /\ length h' = 32%nat /\ bytes_ok h'.
Proof. intros Hb. apply memory_rounds_run; [unfold MEMORY_SIZE; lia|done]. Qed.

Lemma calculate_pow_run s nonce max_block_level : matrix_ok (st_matrix s) -> Z.of_nat (length (st_memory_loop s)) = MEMORY_SIZE ->
  exists pow, calculate_pow blake3 poseidon2_permute s nonce = Ok pow /\ limbs_ok pow /\ length pow = 4%nat /\
    (0 <= max_block_level < 256 -> 0 <= calc_level_from_pow pow max_block_level <= max_block_level).
Proof.
  intros Hm Hl. unfold calculate_pow.
  destruct (finalize_with_nonce_run (st_hasher s) nonce) as (h1 & E1 & L1 & O1). rewrite (bind_some _ _ _ E1).
  destruct (memory_loop_run (st_memory_loop s) h1 Hl L1 O1) as (h2 & E2 & L2 & O2). rewrite (bind_some _ _ _ E2).
  destruct (heavy_hash_run (st_matrix s) h2) as (h3 & E3 & L3 & O3). rewrite (bind_some _ _ _ E3).
  eexists. split; [done|]. destruct (uint_of_hash h3 L3 O3) as [Hok Hlen]. split_and!; [done..|]. intros Hmax. unfold calc_level_from_pow.
  pose proof (bit_length_nonneg (val (uint_from_le_bytes h3))) as Hb. rewrite uint_bits_spec by done. rewrite wrap_small; lia.
Qed.

Lemma state_new_run fuel header :
  match state_new BlockHash fuel header with
  | Ok s => matrix_ok (st_matrix s) /\ compute_rank (st_matrix s) = 64%nat /\ Z.of_nat (length (st_memory_loop s)) = MEMORY_SIZE
  | Err e => e = Diverges \/ e = Crashed /\ header_preimage header 0 0 = None
  end.
Proof.
  unfold state_new. unfold hash_override_nonce_time at 1. destruct (header_preimage header 0 0) as [pre|] eqn:Epre; [|cbn; by right].
  change (assert_some (BlockHash <$> Some pre)) with (Ok (E := stop) (BlockHash pre)). cbn [mbind result_bind].
  destruct (generate fuel (BlockHash pre)) as [mat|e] eqn:Eg; cbn [mbind result_bind]; [|left; by eapply generate_err].
  destruct (generate_ok _ _ _ Eg) as [Hm Hr]. split; [done|]. split; [done|]. apply memory_loop_new_length.
Qed.

Lemma check_pow_run s nonce : matrix_ok (st_matrix s) -> Z.of_nat (length (st_memory_loop s)) = MEMORY_SIZE ->
  exists r, check_pow blake3 poseidon2_permute s nonce = Ok r.
Proof. intros Hm Hl. unfold check_pow. destruct (calculate_pow_run s nonce 0 Hm Hl) as (pow & E & _). rewrite E. by eexists. Qed.

(** C30: The proof of work of a header. When a matrix of full rank is found, the work of
    every nonce is computed without reading out of range and without an overflow of the
    sixteen-bit sums, the result is a number of 256 bits, and the level it gives is at most
    the maximal one. The only panic is that of the hash of a header whose runs of parents
    cannot be expanded. *)
Theorem calculate_pow_total (fuel : nat) (header : Header) (nonce max_block_level : Z) :
  match state_new BlockHash fuel header with
  | Ok s =>
      (exists pow, calculate_pow blake3 poseidon2_permute s nonce = Ok pow /\ limbs_ok pow /\ length pow = 4%nat /\
        (0 <= max_block_level < 256 -> 0 <= calc_level_from_pow pow max_block_level <= max_block_level)) /\
      compute_rank (st_matrix s) = 64%nat /\
      forall h i, bytes_ok h -> length h = 32%nat ->
        product_byte (st_matrix s) (hash_nibbles h) i =
          16 * (exact_sum (nth (2 * i) (st_matrix s) []) (hash_nibbles h) / 1024) + exact_sum (nth (2 * i + 1) (st_matrix s) []) (hash_nibbles h) / 1024
  | Err e => e = Diverges \/ e = Crashed /\ header_preimage header 0 0 = None
  end.
Proof.
  pose proof (state_new_run fuel header) as Hs. destruct (state_new BlockHash fuel header) as [s|e]; [|done]. destruct Hs as (Hm & Hr & Hl).
  split; [by apply calculate_pow_run|]. split; [done|]. intros h i Hh Hlen. by apply product_byte_exact.
Qed.
End hashers.

(** * A concrete proof of work *)

(** A seed whose first matrix has full rank. *)
Definition demo_seed : bytes := 1 :: replicate 31 0.

Lemma demo_rank : compute_rank (rand_matrix_no_rank_check (xoshiro_new demo_seed)).1 = 64%nat.
Proof. vm_cast_no_check (eq_refl 64%nat). Qed.

Lemma generate_first fuel seed : compute_rank (rand_matrix_no_rank_check (xoshiro_new seed)).1 = 64%nat -> exists mat, generate (S fuel) seed = Ok mat.
Proof.
  intros Hr. unfold generate. cbn [generate_loop]. destruct (rand_matrix_no_rank_check (xoshiro_new seed)) as [mat g']. cbn [fst] in Hr.
  rewrite Hr. by exists mat.
Qed.

Lemma demo_generate fuel : exists mat, generate (S fuel) demo_seed = Ok mat.
Proof. exact (generate_first fuel demo_seed demo_rank). Qed.

(** With a permutation that ignores its input the work of every nonce is the same. *)
Definition demo_permute (_ : list Z) : list Z := [0; 0; 0; 2 ^ 47].

Lemma demo_sahyadri_x blake3 data : sahyadri_x blake3 demo_permute data = Some (replicate 29 0 ++ [128; 0; 0]).
Proof.
  unfold sahyadri_x. cbv zeta. destruct (mixing_rounds_run blake3 1024 WINDOWS (fill_windows blake3 (Z.to_nat WINDOWS) (blake3 data)) (blake3 data)) as (s' & ->).
  { unfold WINDOWS. lia. }
  { rewrite fill_windows_length, Z2Nat.id; unfold WINDOWS; lia. }
  cbn [mbind option_bind]. unfold poseidon2_output, demo_permute. cbv zeta. reflexivity.
Qed.

Lemma seeded_check_pow blake3 seed mat fuel header : generate fuel seed = Ok mat -> is_Some (header_preimage header 0 0) ->
  exists s, state_new (fun _ => seed) fuel header = Ok s /\ forall nonce, check_pow blake3 demo_permute s nonce = Ok (uint_leb [0; 0; 0; 2 ^ 47] (from_compact_target_bits (header_bits header)), [0; 0; 0; 2 ^ 47]).
Proof.
  intros Hm [pre Hpre]. pose proof (memory_loop_new_length seed) as Hl.
  unfold state_new, hash_override_nonce_time. rewrite Hpre. change (assert_some ((fun _ : bytes => seed) <$> Some pre)) with (Ok (E := stop) seed).
  cbn [mbind result_bind]. rewrite Hm. cbn [mbind result_bind]. set (buffer := memory_loop_new seed) in *. clearbody buffer.
  eexists. split; [reflexivity|]. intros nonce.
  unfold check_pow, calculate_pow, finalize_with_nonce, heavy_hash. cbn [st_hasher st_memory_loop st_matrix st_target ph_pre_pow_hash ph_timestamp]. rewrite (bind_some _ _ _ (demo_sahyadri_x _ _)).
  destruct (memory_loop_run buffer (replicate 29 0 ++ [128; 0; 0]) Hl) as (h2 & E2 & _); [done|by repeat constructor|]. rewrite (bind_some _ _ _ E2).
  rewrite (bind_some _ _ _ (demo_sahyadri_x _ _)). reflexivity.
Qed.

Lemma demo_check_pow blake3 fuel header : is_Some (header_preimage header 0 0) ->
  exists s, state_new (fun _ => demo_seed) (S fuel) header = Ok s /\ forall nonce, check_pow blake3 demo_permute s nonce = Ok (uint_leb [0; 0; 0; 2 ^ 47] (from_compact_target_bits (header_bits header)), [0; 0; 0; 2 ^ 47]).
Proof. destruct (demo_generate fuel) as [mat Hm]. exact (seeded_check_pow blake3 demo_seed mat (S fuel) header Hm). Qed.
