(* ===== verification/HeaderProcessor.v ===== *)
(** The header processor (consensus/src/pipeline/header_processor/*.rs) with the
    initialization of its stores (consensus/src/consensus/storage.rs, mod.rs).

    The state is the stores the processor shares; a handler is a state transformer with the
    outcomes of [halt]: a panic or a bound on a walk, and the rule errors. The managers of
    the services read the stores as they are at the call. The reachability service reads
    the database store, as a staging store with nothing staged. The batch of a commit is
    applied as its operations are issued, and its final write always succeeds.

    The hash functions, and the clock [now] in milliseconds, are arguments; [fuel] bounds
    every walk. *)

From S2P Require Import Prelude Access Interval Reach ReachStores ReachService Uint Work Relations Ghostdag GhostdagStores Header HeaderStores Difficulty Window BlockDepth ParentsBuilder Pow.

(** * Configuration and stores *)

(** consensus/core/src/config/genesis.rs, [GenesisBlock] *)
Record GenesisBlock := mk_genesis {
  gen_hash : hash;
  gen_version : Z;
  gen_hash_merkle_root : bytes;
  gen_account_commitment : bytes;
  gen_timestamp : Z;
  gen_bits : Z;
  gen_nonce : Z;
  gen_daa_score : Z;
  gen_coinbase_payload : bytes;
}.

Record Config := mk_config {
  hc_genesis : GenesisBlock;
  hc_timestamp_deviation_tolerance : Z;
  hc_max_block_parents : nat;
  hc_mergeset_size_limit : Z;
  hc_skip_proof_of_work : bool;
  hc_max_block_level : nat;
  hc_k : Z;
  hc_merge_depth : Z;
  hc_finality_depth : Z;
  hc_max_difficulty_target : limbs;
  hc_difficulty_window_size : nat;
  hc_min_difficulty_window_size : nat;
  hc_difficulty_sample_rate : Z;
  hc_target_time_per_block : Z;
  hc_past_median_time_window_size : nat;
  hc_past_median_time_sample_rate : Z;
}.

Record Stores := mk_stores {
  relations_store : DbRelationsStore;
  reachability_relations_store : DbRelationsStore;
  reachability_store : DbReachabilityStore;
  consensus_store : DbSahyadriConsensusStore;
  statuses_store : DbStatusesStore;
  pruning_point_store : option hash;
  cache_for_difficulty : BlockWindowCacheStore;
  cache_for_past_median_time : BlockWindowCacheStore;
  daa_excluded_store : DbDaaStore;
  headers_store : DbHeadersStore;
  headers_selected_tip_store : DbHeadersSelectedTipStore;
  depth_store : DbDepthStore;
}.

Definition stores_new : Stores :=
  mk_stores dr_new dr_new db_new dg_new ∅ None ∅ ∅ ∅ headers_new None ∅.

(** * An operation on one of the stores *)

Section on_store.
Context {T E A : Type} (get : Stores -> T) (put : T -> Stores -> Stores).

Definition on_store (m : st T E A) : st Stores E A :=
  fun s => let '(t, r) := m (get s) in (put t s, r).

(** [unwrap] of an operation. *)
Definition must (m : st T E A) : st Stores halt A := map_err (fun _ => Stop Crashed) (on_store m).
End on_store.

Definition put_relations t s := mk_stores t (reachability_relations_store s) (reachability_store s) (consensus_store s) (statuses_store s) (pruning_point_store s) (cache_for_difficulty s) (cache_for_past_median_time s) (daa_excluded_store s) (headers_store s) (headers_selected_tip_store s) (depth_store s).
Definition put_reachability_relations t s := mk_stores (relations_store s) t (reachability_store s) (consensus_store s) (statuses_store s) (pruning_point_store s) (cache_for_difficulty s) (cache_for_past_median_time s) (daa_excluded_store s) (headers_store s) (headers_selected_tip_store s) (depth_store s).
Definition put_reachability t s := mk_stores (relations_store s) (reachability_relations_store s) t (consensus_store s) (statuses_store s) (pruning_point_store s) (cache_for_difficulty s) (cache_for_past_median_time s) (daa_excluded_store s) (headers_store s) (headers_selected_tip_store s) (depth_store s).
Definition put_consensus t s := mk_stores (relations_store s) (reachability_relations_store s) (reachability_store s) t (statuses_store s) (pruning_point_store s) (cache_for_difficulty s) (cache_for_past_median_time s) (daa_excluded_store s) (headers_store s) (headers_selected_tip_store s) (depth_store s).
Definition put_statuses t s := mk_stores (relations_store s) (reachability_relations_store s) (reachability_store s) (consensus_store s) t (pruning_point_store s) (cache_for_difficulty s) (cache_for_past_median_time s) (daa_excluded_store s) (headers_store s) (headers_selected_tip_store s) (depth_store s).
Definition put_pruning_point t s := mk_stores (relations_store s) (reachability_relations_store s) (reachability_store s) (consensus_store s) (statuses_store s) t (cache_for_difficulty s) (cache_for_past_median_time s) (daa_excluded_store s) (headers_store s) (headers_selected_tip_store s) (depth_store s).
Definition put_caches t u s := mk_stores (relations_store s) (reachability_relations_store s) (reachability_store s) (consensus_store s) (statuses_store s) (pruning_point_store s) t u (daa_excluded_store s) (headers_store s) (headers_selected_tip_store s) (depth_store s).
Definition put_daa_excluded t s := mk_stores (relations_store s) (reachability_relations_store s) (reachability_store s) (consensus_store s) (statuses_store s) (pruning_point_store s) (cache_for_difficulty s) (cache_for_past_median_time s) t (headers_store s) (headers_selected_tip_store s) (depth_store s).
Definition put_headers t s := mk_stores (relations_store s) (reachability_relations_store s) (reachability_store s) (consensus_store s) (statuses_store s) (pruning_point_store s) (cache_for_difficulty s) (cache_for_past_median_time s) (daa_excluded_store s) t (headers_selected_tip_store s) (depth_store s).
Definition put_tip t s := mk_stores (relations_store s) (reachability_relations_store s) (reachability_store s) (consensus_store s) (statuses_store s) (pruning_point_store s) (cache_for_difficulty s) (cache_for_past_median_time s) (daa_excluded_store s) (headers_store s) t (depth_store s).
Definition put_depth t s := mk_stores (relations_store s) (reachability_relations_store s) (reachability_store s) (consensus_store s) (statuses_store s) (pruning_point_store s) (cache_for_difficulty s) (cache_for_past_median_time s) (daa_excluded_store s) (headers_store s) (headers_selected_tip_store s) t.

(** A read of the stores that may stop. *)
Definition ask {A} (f : Stores -> result halt A) : st Stores halt A := fun s => (s, f s).

(** [optional].unwrap(): a missing key is [None], another error panics. *)
Definition optional {A} (r : result StoreError A) : result stop (option A) :=
  match r with Ok a => Ok (Some a) | Err (KeyNotFound _) => Ok None | Err _ => Err Crashed end.

(** [idempotent]: an entry that already exists is no error. *)
Definition idempotent {S} (m : st S StoreError ()) : st S StoreError () :=
  fun s => match m s with (s', Err (HashAlreadyExists _)) => (s', Ok tt) | r => r end.

(** * Managers *)

Section processor.
Context (blake3 : bytes -> bytes) (poseidon2_permute : list Z -> list Z) (BlockHash : bytes -> bytes).
Context (c : Config) (fuel : nat) (now : Z).

Abbreviation genesis_hash := (gen_hash (hc_genesis c)).

Definition reachability_service (s : Stores) : StagingReachabilityStore := staging_new (reachability_store s).

Definition consensus_manager (s : Stores) : SahyadriConsensusManager DbSahyadriConsensusStore DbRelationsStore StagingReachabilityStore DbHeadersStore :=
  manager_new genesis_hash (hc_k c) (consensus_store s) (relations_store s) (headers_store s) (reachability_service s).

Definition difficulty_manager (s : Stores) : SampledDifficultyManager :=
  mk_difficulty_manager (headers_store s) genesis_hash (gen_bits (hc_genesis c)) (uint320_from (hc_max_difficulty_target c))
    (Z.of_nat (hc_difficulty_window_size c)) (Z.of_nat (hc_min_difficulty_window_size c)) (hc_difficulty_sample_rate c) (hc_target_time_per_block c).

Definition window_manager (s : Stores) : SampledWindowManager DbSahyadriConsensusStore :=
  mk_window_manager genesis_hash (consensus_store s) (headers_store s) (cache_for_difficulty s) (cache_for_past_median_time s)
    (hc_difficulty_window_size c) (hc_difficulty_sample_rate c) (hc_past_median_time_window_size c) (hc_past_median_time_sample_rate c)
    (difficulty_manager s).

Definition depth_manager (s : Stores) : BlockDepthManager StagingReachabilityStore DbSahyadriConsensusStore :=
  mk_depth_manager (hc_merge_depth c) (hc_finality_depth c) genesis_hash (depth_store s) (reachability_service s) (consensus_store s).

Definition parents_manager (s : Stores) : ParentsManager StagingReachabilityStore DbRelationsStore :=
  mk_parents_manager (hc_max_block_level c) genesis_hash (headers_store s) (reachability_service s) (relations_store s).

(** * The processing context *)

Record HeaderProcessingContext := mk_ctx {
  ctx_hash : hash;
  ctx_header : Header;
  ctx_pruning_point : hash;
  ctx_block_level : Z;
  ctx_known_direct_parents : list hash;
  ctx_data : option SahyadriConsensusData;
  ctx_window_for_difficulty : option BlockWindowHeap;
  ctx_window_for_past_median_time : option BlockWindowHeap;
  ctx_mergeset_non_daa : option (gset hash);
  ctx_merge_depth_root : option hash;
  ctx_finality_point : option hash;
}.

Definition context_new (h : hash) (header : Header) (block_level : Z) (pruning_point : hash) (known_direct_parents : list hash) : HeaderProcessingContext :=
  mk_ctx h header pruning_point block_level known_direct_parents None None None None None None.

Definition with_data (d : SahyadriConsensusData) (x : HeaderProcessingContext) : HeaderProcessingContext :=
  mk_ctx (ctx_hash x) (ctx_header x) (ctx_pruning_point x) (ctx_block_level x) (ctx_known_direct_parents x) (Some d)
    (ctx_window_for_difficulty x) (ctx_window_for_past_median_time x) (ctx_mergeset_non_daa x) (ctx_merge_depth_root x) (ctx_finality_point x).

Definition with_difficulty_window (w : BlockWindowHeap) (non_daa : gset hash) (x : HeaderProcessingContext) : HeaderProcessingContext :=
  mk_ctx (ctx_hash x) (ctx_header x) (ctx_pruning_point x) (ctx_block_level x) (ctx_known_direct_parents x) (ctx_data x)
    (Some w) (ctx_window_for_past_median_time x) (Some non_daa) (ctx_merge_depth_root x) (ctx_finality_point x).

Definition with_median_window (w : BlockWindowHeap) (x : HeaderProcessingContext) : HeaderProcessingContext :=
  mk_ctx (ctx_hash x) (ctx_header x) (ctx_pruning_point x) (ctx_block_level x) (ctx_known_direct_parents x) (ctx_data x)
    (ctx_window_for_difficulty x) (Some w) (ctx_mergeset_non_daa x) (ctx_merge_depth_root x) (ctx_finality_point x).

Definition with_depth (root finality : hash) (x : HeaderProcessingContext) : HeaderProcessingContext :=
  mk_ctx (ctx_hash x) (ctx_header x) (ctx_pruning_point x) (ctx_block_level x) (ctx_known_direct_parents x) (ctx_data x)
    (ctx_window_for_difficulty x) (ctx_window_for_past_median_time x) (ctx_mergeset_non_daa x) (Some root) (Some finality).

Definition some_or_crash {A} (o : option A) : result halt A := run_ (assert_some o).

(** * pre_sahyadri_consensus_validation.rs *)

Definition BLOCK_VERSION : Z := 1.

Definition rule {A} (e : RuleError) : result halt A := Err (Rule e).

Definition check_header_version (header : Header) : result halt () :=
  if header_version header =? BLOCK_VERSION then Ok tt else rule (WrongBlockVersion (header_version header)).

Definition check_block_timestamp_in_isolation (header : Header) : result halt () :=
  let max_block_time := wadd64 now (wmul64 (hc_timestamp_deviation_tolerance c) 1000) in
  if max_block_time <? header_timestamp header then rule (TimeTooFarIntoTheFuture (header_timestamp header) max_block_time) else Ok tt.

Definition check_parents_limit (header : Header) : result halt () :=
  if bool_decide (direct_parents header = []) then rule NoParents
  else if (hc_max_block_parents c <? length (direct_parents header))%nat
  then rule (TooManyParents (length (direct_parents header)) (hc_max_block_parents c)) else Ok tt.

Definition check_parents_not_origin (header : Header) : result halt () :=
  if bool_decide (ORIGIN ∈ direct_parents header) then rule OriginParent else Ok tt.

Definition check_pow_and_calc_block_level (header : Header) : result halt Z :=
  state ← run_ (state_new BlockHash fuel header);
  r ← run_ (check_pow blake3 poseidon2_permute state (header_nonce header));
  if r.1 || hc_skip_proof_of_work c then Ok (calc_level_from_pow r.2 (Z.of_nat (hc_max_block_level c))) else rule InvalidPoW.

Definition validate_header_in_isolation (header : Header) : result halt Z :=
  _ ← check_header_version header;
  _ ← check_block_timestamp_in_isolation header;
  _ ← check_parents_limit header;
  _ ← check_parents_not_origin header;
  check_pow_and_calc_block_level header.

(** The parents with no status are collected; an invalid one ends the loop. *)
Fixpoint missing_parents (s : Stores) (parents : list hash) : result halt (list hash) :=
  match parents with
  | [] => Ok []
  | parent :: rest =>
      status ← run_ (optional (statuses_get (statuses_store s) parent));
      match status with
      | None => l ← missing_parents s rest; Ok (parent :: l)
      | Some StatusInvalid => rule (InvalidParent parent)
      | Some _ => missing_parents s rest
      end
  end.

Definition check_parents_exist (s : Stores) (header : Header) : result halt () :=
  missing ← missing_parents s (direct_parents header);
  if bool_decide (missing = []) then Ok tt else rule (MissingParents missing).

(** The inner and the outer loop over pairs of parents. *)
Fixpoint incest_with (s : Stores) (parent_a : hash) (parents : list hash) : result halt () :=
  match parents with
  | [] => Ok tt
  | parent_b :: rest =>
      if bool_decide (parent_a = parent_b) then incest_with s parent_a rest
      else
        below ← run_ (svc_is_dag_ancestor_of (reachability_service s) parent_a parent_b);
        if below : bool then rule (InvalidParentsRelation parent_a parent_b) else incest_with s parent_a rest
  end.

Fixpoint incest_among (s : Stores) (all parents : list hash) : result halt () :=
  match parents with
  | [] => Ok tt
  | parent_a :: rest => _ ← incest_with s parent_a all; incest_among s all rest
  end.

Definition check_parents_incest (s : Stores) (header : Header) : result halt () :=
  incest_among s (direct_parents header) (direct_parents header).

Definition validate_parent_relations (s : Stores) (header : Header) : result halt () :=
  _ ← check_parents_exist s header; check_parents_incest s header.

(** * The context and its data *)

(** [push_if_empty] *)
Definition push_if_empty (l : list hash) (h : hash) : list hash := if bool_decide (l = []) then [h] else l.

Fixpoint filter_known (s : Stores) (parents : list hash) : result stop (list hash) :=
  match parents with
  | [] => Ok []
  | parent :: rest =>
      has ← unwrapped (rl_has (relations_store s) parent);
      l ← filter_known s rest;
      Ok (if has : bool then parent :: l else l)
  end.

Definition collect_known_direct_parents (s : Stores) (header : Header) : result stop (list hash) :=
  l ← filter_known s (direct_parents header); Ok (push_if_empty l ORIGIN).

Definition build_processing_context (s : Stores) (header : Header) (block_level : Z) : result halt HeaderProcessingContext :=
  pruning_point ← some_or_crash (pruning_point_store s);
  parents ← run_ (collect_known_direct_parents s header);
  Ok (context_new (header_hash header) header block_level pruning_point parents).

(** [HeaderProcessor::sahyadri_consensus] *)
Definition order_block (s : Stores) (x : HeaderProcessingContext) : result halt HeaderProcessingContext :=
  known ← run_ (optional (dg_get_data (consensus_store s) (ctx_hash x)));
  d ← (match known with
       | Some d => Ok d
       | None => run_ (sahyadri_consensus fuel (consensus_manager s) (ctx_known_direct_parents x))
       end);
  Ok (with_data d x).

(** * pre_pow_validation.rs *)

Definition check_pruning_violation (s : Stores) (x : HeaderProcessingContext) : result halt () :=
  above ← run_ (is_dag_ancestor_of_any (reachability_service s) (ctx_pruning_point x) (ctx_known_direct_parents x));
  if above : bool then Ok tt else rule (PruningViolation (ctx_pruning_point x)).

Definition check_difficulty_and_daa_score (s : Stores) (x : HeaderProcessingContext) (header : Header) : result halt HeaderProcessingContext :=
  d ← some_or_crash (ctx_data x);
  window ← block_daa_window (window_manager s) fuel d;
  if negb (daa_score window =? header_daa_score header) then rule (UnexpectedHeaderDaaScore (daa_score window) (header_daa_score header))
  else
    expected_bits ← run_ (window_difficulty_bits (window_manager s) d window);
    if negb (header_bits header =? expected_bits) then rule (UnexpectedDifficulty (header_hash header) (header_bits header) expected_bits)
    else Ok (with_difficulty_window (daa_window window) (mergeset_non_daa window) x).

Definition pre_pow_validation (s : Stores) (x : HeaderProcessingContext) (header : Header) : result halt HeaderProcessingContext :=
  _ ← check_pruning_violation s x; check_difficulty_and_daa_score s x header.

(** * post_pow_validation.rs *)

Definition check_blue_score (x : HeaderProcessingContext) (header : Header) : result halt () :=
  d ← some_or_crash (ctx_data x);
  if blue_score d =? header_blue_score header then Ok tt else rule (UnexpectedHeaderBlueScore (blue_score d) (header_blue_score header)).

Definition check_blue_work (x : HeaderProcessingContext) (header : Header) : result halt () :=
  d ← some_or_crash (ctx_data x);
  if bool_decide (blue_work d = header_blue_work header) then Ok tt else rule (UnexpectedHeaderBlueWork (blue_work d) (header_blue_work header)).

Definition check_median_timestamp (s : Stores) (x : HeaderProcessingContext) (header : Header) : result halt HeaderProcessingContext :=
  d ← some_or_crash (ctx_data x);
  r ← window_past_median_time (window_manager s) fuel d;
  let '(past_median_time, window) := r in
  if header_timestamp header <=? past_median_time then rule (TimeTooOld (header_timestamp header) past_median_time)
  else Ok (with_median_window window x).

Definition check_mergeset_size_limit (x : HeaderProcessingContext) : result halt () :=
  d ← some_or_crash (ctx_data x);
  let size := Z.of_nat (mergeset_size d) in
  if hc_mergeset_size_limit c <? size then rule (MergeSetTooBig size (hc_mergeset_size_limit c)) else Ok tt.

(** The kosherizing blues are collected at the first red block that needs them. *)
Fixpoint check_reds (s : Stores) (d : SahyadriConsensusData) (root : hash) (reds : list hash) (kosherizing : option (list hash)) : result halt () :=
  match reds with
  | [] => Ok tt
  | red :: rest =>
      above ← run_ (svc_is_dag_ancestor_of (reachability_service s) root red);
      if above : bool then check_reds s d root rest kosherizing
      else
        blues ← (match kosherizing with Some l => Ok l | None => run_ (kosherizing_blues (depth_manager s) d root) end);
        below ← run_ (is_dag_ancestor_of_any (reachability_service s) red blues);
        if below : bool then check_reds s d root rest (Some blues) else rule ViolatingBoundedMergeDepth
  end.

Definition check_bounded_merge_depth (s : Stores) (x : HeaderProcessingContext) : result halt HeaderProcessingContext :=
  d ← some_or_crash (ctx_data x);
  root ← run_ (calc_merge_depth_root (depth_manager s) fuel d (ctx_pruning_point x));
  finality ← run_ (calc_finality_point (depth_manager s) fuel d (ctx_pruning_point x));
  _ ← check_reds s d root (mergeset_reds d) None;
  Ok (with_depth root finality x).

Definition same_level_parents (expected actual : list hash) : bool :=
  (length actual =? length expected)%nat && bool_decide (list_to_set (C := gset hash) actual = list_to_set expected).

Definition check_indirect_parents (s : Stores) (x : HeaderProcessingContext) (header : Header) : result halt () :=
  expected ← run_ (calc_block_parents (parents_manager s) (ctx_pruning_point x) (direct_parents header));
  if negb (expanded_len (parents_by_level header) =? expanded_len expected) then
    e ← some_or_crash (expanded_iter expected);
    a ← some_or_crash (expanded_iter (parents_by_level header));
    rule (UnexpectedIndirectParents e a)
  else
    e ← some_or_crash (expanded_iter expected);
    a ← some_or_crash (expanded_iter (parents_by_level header));
    if forallb (fun p => same_level_parents p.1 p.2) (zip e a) then Ok tt else rule (UnexpectedIndirectParents e a).

Definition post_pow_validation (s : Stores) (x : HeaderProcessingContext) (header : Header) : result halt HeaderProcessingContext :=
  _ ← check_blue_score x header;
  _ ← check_blue_work x header;
  x ← check_median_timestamp s x header;
  _ ← check_mergeset_size_limit x;
  x ← check_bounded_merge_depth s x;
  _ ← check_indirect_parents s x header;
  Ok x.

(** * Validation *)

(** A header that fails the last checks is recorded as invalid. *)
Definition post_pow_or_invalidate (x : HeaderProcessingContext) (header : Header) : st Stores halt HeaderProcessingContext :=
  fun s =>
    match post_pow_validation s x header with
    | Err (Rule e) => (put_statuses (statuses_set (ctx_hash x) StatusInvalid (statuses_store s)).1 s, Err (Rule e))
    | r => (s, r)
    end.

Definition validate_header (header : Header) : st Stores halt HeaderProcessingContext :=
  block_level ← lift (validate_header_in_isolation header);
  _ ← ask (fun s => validate_parent_relations s header);
  x ← ask (fun s => build_processing_context s header block_level);
  x ← ask (fun s => order_block s x);
  x ← ask (fun s => pre_pow_validation s x header);
  post_pow_or_invalidate x header.

Definition validate_trusted_header (header : Header) : st Stores halt HeaderProcessingContext :=
  block_level ← lift (validate_header_in_isolation header);
  x ← ask (fun s => build_processing_context s header block_level);
  ask (fun s => order_block s x).

(** * Commit *)

(** An unwrapped operation on the staging store. *)
Definition staged {A} (m : st StagingReachabilityStore stop A) (stg : StagingReachabilityStore) : result halt (StagingReachabilityStore * A) :=
  match m stg with
  | (stg', Ok a) => Ok (stg', a)
  | (_, Err Diverges) => Err (Stop Diverges)
  | (_, Err _) => Err (Stop Crashed)
  end.

Definition cache_windows (x : HeaderProcessingContext) : st Stores halt () :=
  fun s =>
    let put (w : option BlockWindowHeap) (cache : BlockWindowCacheStore) :=
      match w with Some w => <[ctx_hash x := w]> cache | None => cache end in
    (put_caches (put (ctx_window_for_difficulty x) (cache_for_difficulty s))
       (put (ctx_window_for_past_median_time x) (cache_for_past_median_time s)) s, Ok tt).

(** The block in the staging store, and the new tip when it has more work and the pruning
    point is on its chain. *)
Definition stage_reachability (x : HeaderProcessingContext) (header : Header) (d : SahyadriConsensusData) (s : Stores) :
    result halt (StagingReachabilityStore * option SortableBlock) :=
  r ← staged (add_block fuel (ctx_hash x) (selected_parent d) (data_unordered_mergeset_without_selected_parent d)) (staging_new (reachability_store s));
  let stg := r.1 in
  prev_hst ← run_ (unwrapped (hst_get (headers_selected_tip_store s)));
  let tip := mk_sortable (ctx_hash x) (header_blue_work header) in
  match sortable_cmp tip prev_hst with
  | Gt =>
      on_chain ← run_ (unwrap (is_chain_ancestor_of stg (ctx_pruning_point x) (ctx_hash x)));
      if on_chain : bool then
        r ← staged (hint_virtual_selected_parent fuel (ctx_hash x)) stg;
        Ok (r.1, Some tip)
      else Ok (stg, None)
  | _ => Ok (stg, None)
  end.

Definition write_reachability (db : DbReachabilityStore) : st Stores halt () := fun s => (put_reachability db s, Ok tt).

Definition commit_header (x : HeaderProcessingContext) (header : Header) : st Stores halt () :=
  d ← lift (some_or_crash (ctx_data x));
  _ ← must consensus_store put_consensus (dg_insert_batch (ctx_hash x) d);
  _ ← cache_windows x;
  non_daa ← lift (some_or_crash (ctx_mergeset_non_daa x));
  _ ← must daa_excluded_store put_daa_excluded (daa_insert (ctx_hash x) non_daa);
  _ ← must headers_store put_headers (headers_insert_batch (ctx_hash x) (ctx_header x) (ctx_block_level x));
  root ← lift (some_or_crash (ctx_merge_depth_root x));
  finality ← lift (some_or_crash (ctx_finality_point x));
  _ ← must depth_store put_depth (depth_insert (ctx_hash x) root finality);
  r ← ask (stage_reachability x header d);
  let '(stg, tip) := r in
  _ ← (match tip with Some b => must headers_selected_tip_store put_tip (hst_set b) | None => mret tt end);
  _ ← must relations_store put_relations (relations_insert (ctx_hash x) (ctx_known_direct_parents x));
  _ ← must reachability_relations_store put_reachability_relations (relations_insert (ctx_hash x) (ctx_known_direct_parents x));
  _ ← must statuses_store put_statuses (statuses_set (ctx_hash x) StatusHeaderOnly);
  write_reachability (commit stg).

(** An entry of the relations that already exists is no error. *)
Definition relations_insert_idempotent (h : hash) (parents : list hash) : st DbRelationsStore stop () :=
  fun s => match relations_insert h parents s with (s', Err (Failed (StoreErr (HashAlreadyExists _)))) => (s', Ok tt) | r => r end.

Definition commit_trusted_header (x : HeaderProcessingContext) : st Stores halt () :=
  d ← lift (some_or_crash (ctx_data x));
  _ ← must consensus_store put_consensus (idempotent (dg_insert_batch (ctx_hash x) d));
  _ ← must relations_store put_relations (relations_insert_idempotent (ctx_hash x) (ctx_known_direct_parents x));
  must statuses_store put_statuses (statuses_set (ctx_hash x) StatusHeaderOnly).

(** * process_header *)

Inductive BlockTask := Ordinary (header : Header) | Trusted (header : Header).

Definition task_header (task : BlockTask) : Header := match task with Ordinary h | Trusted h => h end.

Definition process_header (task : BlockTask) : st Stores halt BlockStatus :=
  let header := task_header task in
  status ← ask (fun s => run_ (optional (statuses_get (statuses_store s) (header_hash header))));
  match status with
  | Some StatusInvalid => throw (Rule KnownInvalid)
  | Some status => mret status
  | None =>
      _ ← (match task with
           | Ordinary _ => x ← validate_header header; commit_header x header
           | Trusted _ => x ← validate_trusted_header header; commit_trusted_header x
           end);
      mret StatusHeaderOnly
  end.

(** * Initialization *)

(** [From<&GenesisBlock> for Header], with the hash of the configuration. *)
Definition genesis_header : option Header :=
  let g := hc_genesis c in
  h ← new_finalized BlockHash (gen_version g) [] (gen_hash_merkle_root g) (replicate 32 0) (gen_account_commitment g) (gen_timestamp g)
        (gen_bits g) (gen_nonce g) (gen_daa_score g) (uint_from_u64 3 0) 0 (replicate 32 0);
  Some (with_hash h (gen_hash g)).

Definition process_genesis : st Stores halt () :=
  _ ← must headers_selected_tip_store put_tip (hst_set (mk_sortable genesis_hash (uint_from_u64 3 0)));
  header ← lift (some_or_crash genesis_header);
  let x := context_new genesis_hash header (Z.of_nat (hc_max_block_level c)) genesis_hash [ORIGIN] in
  let x := mk_ctx (ctx_hash x) (ctx_header x) (ctx_pruning_point x) (ctx_block_level x) (ctx_known_direct_parents x)
             (Some genesis_sahyadri_consensus_data) None None (Some ∅) (Some ORIGIN) (Some ORIGIN) in
  commit_header x header.

(** [HeaderProcessor::init] *)
Definition processor_init : st Stores halt () :=
  has ← ask (fun s => run_ (unwrapped (rl_has (relations_store s) ORIGIN)));
  if has : bool then mret tt
  else
    _ ← must relations_store put_relations (relations_insert ORIGIN []);
    _ ← must consensus_store put_consensus (dg_insert_batch ORIGIN origin_sahyadri_consensus_data);
    must headers_selected_tip_store put_tip (hst_set (mk_sortable ORIGIN (uint_from_u64 3 0))).

(** [reachability::init] on the database store *)
Definition reachability_init : st DbReachabilityStore (fault StoreError) () :=
  has ← (fun db => (db, as_fault (db_has db ORIGIN)));
  if has : bool then mret tt else db_init ORIGIN Interval_maximal.

(** The pruning point a new node registers ([VirtualStateProcessor::init]). *)
Definition register_pruning_point : st Stores halt () :=
  fun s => match pruning_point_store s with None => (put_pruning_point (Some genesis_hash) s, Ok tt) | Some _ => (s, Ok tt) end.

(** The stores of a new node, in the order of storage.rs and of [Consensus::new]. *)
Definition consensus_init : st Stores halt () :=
  _ ← must reachability_store put_reachability reachability_init;
  _ ← must reachability_relations_store put_reachability_relations relations_init;
  _ ← processor_init;
  _ ← register_pruning_point;
  process_genesis.
End processor.
