(* ===== verification/Body.v ===== *)
(** Block bodies: the masses of a transaction (consensus/core/src/mass/mod.rs), the body
    processor (consensus/src/pipeline/body_processor/*.rs) with its stores
    (consensus/src/model/stores/{block_transactions,tips}.rs), and a block through the
    header and the body processor ([queue_block] of both).

    The cache of a set in the database is written with it, so the tips are one set. The past
    median time of a block is computed at the first transaction that needs it; a computed
    window goes to the cache. Notifications and counters are not modelled. *)

From S2P Require Import Prelude Tx Coinbase Validator Access Header Merkle Interval Reach Relations Ghostdag GhostdagStores HeaderStores Window HeaderProcessor.

(** * mass/mod.rs *)

Definition HASH_SIZE : Z := 32.
Definition SUBNETWORK_ID_SIZE : Z := 20.
Definition TRANSIENT_BYTE_TO_MASS_FACTOR : Z := 4.

(** [iter().sum::<u64>()] in the release profile *)
Definition sum_u64 {A} (f : A -> Z) (l : list A) : Z := fold_left (fun acc x => wadd64 acc (f x)) l 0.

Definition outpoint_estimated_serialized_size : Z := HASH_SIZE + 4.

Definition transaction_input_estimated_serialized_size (i : TransactionInput) : Z :=
  wadd64 (wadd64 (wadd64 outpoint_estimated_serialized_size 8) (Z.of_nat (length (signature_script i)))) 8.

Definition transaction_output_estimated_serialized_size (o : TransactionOutput) : Z :=
  wadd64 (8 + 2 + 8) (Z.of_nat (length (spk_script (script_public_key o)))).

Definition transaction_estimated_serialized_size (tx : Transaction) : Z :=
  let size := 2 + 8 in
  let size := wadd64 size (sum_u64 transaction_input_estimated_serialized_size (inputs tx)) in
  let size := wadd64 size 8 in
  let size := wadd64 size (sum_u64 transaction_output_estimated_serialized_size (outputs tx)) in
  let size := wadd64 size (8 + SUBNETWORK_ID_SIZE + 8 + HASH_SIZE + 8) in
  wadd64 size (Z.of_nat (length (payload tx))).

Definition registry_unit_plurality (spk : ScriptPublicKey) : Z :=
  (32 + 4 + 8 + 8 + 1 + 2 + 8 + Z.of_nat (length (spk_script spk)) + (100 - 1)) / 100.

Record RegistryUnitCell := mk_cell { plurality : Z; amount : Z }.

Definition cell_of_output (o : TransactionOutput) : RegistryUnitCell := mk_cell (registry_unit_plurality (script_public_key o)) (value o).

Record NonContextualMasses := mk_masses { compute_mass : Z; transient_mass : Z }.

Definition non_contextual_max (m : NonContextualMasses) : Z := Z.max (compute_mass m) (transient_mass m).

(** [Mass]: the non-contextual masses and the storage mass *)
Definition mass_max (m : NonContextualMasses * Z) : Z := Z.max m.2 (non_contextual_max m.1).

Record MassCalculator := mk_calculator {
  mass_per_tx_byte : Z;
  mass_per_script_pub_key_byte : Z;
  mass_per_sig_op : Z;
  storage_mass_parameter : Z;
}.

Definition calc_non_contextual_masses (mc : MassCalculator) (tx : Transaction) : NonContextualMasses :=
  if is_coinbase tx then mk_masses 0 0
  else
    let size := transaction_estimated_serialized_size tx in
    let compute_mass_for_size := wmul64 size (mass_per_tx_byte mc) in
    let total_script_public_key_size := sum_u64 (fun o => wadd64 2 (Z.of_nat (length (spk_script (script_public_key o))))) (outputs tx) in
    let total_script_public_key_mass := wmul64 total_script_public_key_size (mass_per_script_pub_key_byte mc) in
    let total_sigops := sum_u64 sig_op_count (inputs tx) in
    let total_sigops_mass := wmul64 total_sigops (mass_per_sig_op mc) in
    mk_masses (wadd64 (wadd64 compute_mass_for_size total_script_public_key_mass) total_sigops_mass)
      (wmul64 size TRANSIENT_BYTE_TO_MASS_FACTOR).

Definition checked_mul64 (a b : Z) : option Z := if a * b <=? U64_MAX then Some (a * b) else None.

(** A division panics on zero. *)
Definition div64 (a b : Z) : result stop Z := if b =? 0 then Err Crashed else Ok (a / b).

(** The harmonic sum over the outputs; [None] when it overflows. *)
Fixpoint harmonic_outputs (storm_param acc_plurality acc_harm : Z) (cells : list RegistryUnitCell) : result stop (option (Z * Z)) :=
  match cells with
  | [] => Ok (Some (acc_plurality, acc_harm))
  | cell :: rest =>
      match checked_mul64 storm_param (plurality cell) ≫= (fun x => checked_mul64 x (plurality cell)) with
      | None => Ok None
      | Some product =>
          q ← div64 product (amount cell);
          match checked_add64 acc_harm q with
          | None => Ok None
          | Some harm => harmonic_outputs storm_param (wadd64 acc_plurality (plurality cell)) harm rest
          end
      end
  end.

Fixpoint harmonic_inputs (storm_param total : Z) (cells : list RegistryUnitCell) : result stop Z :=
  match cells with
  | [] => Ok total
  | cell :: rest =>
      q ← div64 (wmul64 (wmul64 storm_param (plurality cell)) (plurality cell)) (amount cell);
      harmonic_inputs storm_param (saturating_add64 total q) rest
  end.

Definition relaxed_formula_path (outs_plurality : Z) (ins : list RegistryUnitCell) : bool :=
  if outs_plurality =? 1 then true
  else if (2 <? length ins)%nat then false
  else let ins_plurality := sum_u64 plurality ins in (ins_plurality =? 1) || ((outs_plurality =? 2) && (ins_plurality =? 2)).

Definition calc_storage_mass (is_coinbase : bool) (ins outs : list RegistryUnitCell) (storm_param : Z) : result stop (option Z) :=
  if is_coinbase then Ok (Some 0)
  else
    r ← harmonic_outputs storm_param 0 0 outs;
    match r with
    | None => Ok None
    | Some (outs_plurality, harmonic_outs) =>
        if relaxed_formula_path outs_plurality ins then
          harmonic_ins ← harmonic_inputs storm_param 0 ins;
          Ok (Some (Z.max 0 (harmonic_outs - harmonic_ins)))
        else
          let ins_plurality := sum_u64 plurality ins in
          mean_ins ← div64 (sum_u64 amount ins) ins_plurality;
          unit_ins ← div64 storm_param mean_ins;
          let arithmetic_ins := Z.min U64_MAX (ins_plurality * unit_ins) in
          Ok (Some (Z.max 0 (harmonic_outs - arithmetic_ins)))
    end.

(** * The stores *)

Abbreviation DbTipsStore := (gset hash).

(** [CachedDbSetItem::update]: the removed ones first. *)
Definition tips_update (added removed : list hash) (tips : DbTipsStore) : DbTipsStore :=
  fold_left (fun t x => {[x]} ∪ t) added (fold_left (fun t x => t ∖ {[x]}) removed tips).

Definition add_tip (new_tip : hash) (new_tip_parents : list hash) : DbTipsStore -> DbTipsStore := tips_update [new_tip] new_tip_parents.
Definition prune_tips (pruned_tips : list hash) (tips : DbTipsStore) : DbTipsStore :=
  if bool_decide (pruned_tips = []) then tips else tips_update [] pruned_tips tips.
Definition delete_all_tips (tips : DbTipsStore) : DbTipsStore := tips_update [] (elements tips) tips.

Abbreviation DbBlockTransactionsStore := (gmap hash (list Transaction)).

Record NodeStores := mk_node {
  header_stores : Stores;
  block_transactions_store : DbBlockTransactionsStore;
  body_tips_store : DbTipsStore;
}.

(** A step of the stores of the header processor. *)
Definition on_headers {A} (m : st Stores halt A) : st NodeStores halt A :=
  fun n => let '(s, r) := m (header_stores n) in (mk_node s (block_transactions_store n) (body_tips_store n), r).

(** * body_validation_in_isolation.rs *)

Record Block := mk_block { block_header : Header; transactions : list Transaction }.

Definition block_hash (b : Block) : hash := header_hash (block_header b).

Section body.
Context (MerkleBranchHash TransactionHash TransactionID sha256 : bytes -> bytes) (verify : bytes -> bytes -> bytes -> bool).
Context (tv : TransactionValidator) (cm : CoinbaseManager) (mc : MassCalculator) (max_block_mass : Z).
Context (c : Config) (fuel : nat).

Definition check_has_transactions (b : Block) : result halt () :=
  if bool_decide (transactions b = []) then rule NoTransactions else Ok tt.

Definition check_hash_merkle_root (b : Block) : result halt () :=
  calculated ← some_or_crash (calc_hash_merkle_root MerkleBranchHash TransactionHash (transactions b));
  if bool_decide (calculated = hash_merkle_root (block_header b)) then Ok tt
  else rule (BadMerkleRoot (hash_merkle_root (block_header b)) calculated).

Definition check_only_one_coinbase (b : Block) : result halt () :=
  match transactions b with
  | [] => Err (Stop Crashed)
  | first :: rest =>
      if negb (is_coinbase first) then rule FirstTxNotCoinbase
      else match Validator.position is_coinbase rest with Some i => rule (MultipleCoinbases i) | None => Ok tt end
  end.

Fixpoint check_each_in_isolation (txs : list Transaction) : result halt () :=
  match txs with
  | [] => Ok tt
  | tx :: rest =>
      match validate_tx_in_isolation sha256 verify tv tx with
      | Err e => rule (TxInIsolationValidationFailed (tx_id tx) e)
      | Ok _ => check_each_in_isolation rest
      end
  end.

Definition check_transactions_in_isolation (b : Block) : result halt () := check_each_in_isolation (transactions b).

Fixpoint sum_masses (total_compute_mass total_transient_mass total_storage_mass : Z) (txs : list Transaction) : result halt (NonContextualMasses * Z) :=
  match txs with
  | [] => Ok (mk_masses total_compute_mass total_transient_mass, total_storage_mass)
  | tx :: rest =>
      let masses := calc_non_contextual_masses mc tx in
      let total_compute_mass := saturating_add64 total_compute_mass (compute_mass masses) in
      let total_transient_mass := saturating_add64 total_transient_mass (transient_mass masses) in
      let total_storage_mass := saturating_add64 total_storage_mass (mass tx) in
      if max_block_mass <? total_compute_mass then rule (ExceedsComputeMassLimit total_compute_mass max_block_mass)
      else if max_block_mass <? total_transient_mass then rule (ExceedsTransientMassLimit total_transient_mass max_block_mass)
      else if max_block_mass <? total_storage_mass then rule (ExceedsStorageMassLimit total_storage_mass max_block_mass)
      else sum_masses total_compute_mass total_transient_mass total_storage_mass rest
  end.

Definition check_block_mass (b : Block) : result halt (NonContextualMasses * Z) := sum_masses 0 0 0 (transactions b).

(** The outpoints the block spends, and those it creates. *)
Definition spent_outpoints (txs : list Transaction) : list RegistryRef := concat (map (fun tx => map previous_outpoint (inputs tx)) txs).
Definition created_outpoints (txs : list Transaction) : list RegistryRef :=
  concat (map (fun tx => imap (fun i _ => {| transaction_id := tx_id tx; index := wrap 32 (Z.of_nat i) |}) (outputs tx)) txs).

Fixpoint first_repeated {A} `{EqDecision A} (existing l : list A) : option A :=
  match l with
  | [] => None
  | x :: rest => if bool_decide (x ∈ existing) then Some x else first_repeated (x :: existing) rest
  end.

Definition check_block_double_spends (b : Block) : result halt () :=
  match first_repeated [] (spent_outpoints (transactions b)) with Some o => rule (DoubleSpendInSameBlock o) | None => Ok tt end.

Definition check_no_chained_transactions (b : Block) : result halt () :=
  match List.find (fun o => bool_decide (o ∈ created_outpoints (transactions b))) (spent_outpoints (transactions b)) with
  | Some o => rule (ChainedTransaction o)
  | None => Ok tt
  end.

Definition check_duplicate_transactions (b : Block) : result halt () :=
  match first_repeated [] (map tx_id (transactions b)) with Some id => rule (DuplicateTransactions id) | None => Ok tt end.

Definition validate_body_in_isolation (b : Block) : result halt (NonContextualMasses * Z) :=
  _ ← check_has_transactions b;
  _ ← check_hash_merkle_root b;
  _ ← check_only_one_coinbase b;
  _ ← check_transactions_in_isolation b;
  mass ← check_block_mass b;
  _ ← check_duplicate_transactions b;
  _ ← check_block_double_spends b;
  _ ← check_no_chained_transactions b;
  Ok mass.

(** * body_validation_in_context.rs *)

(** The parents without a body. *)
Fixpoint bodyless (s : Stores) (parents : list hash) : result halt (list hash) :=
  match parents with
  | [] => Ok []
  | parent :: rest =>
      status ← run_ (optional (statuses_get (statuses_store s) parent));
      missing ← bodyless s rest;
      Ok (match status with Some st => if has_block_body st then missing else parent :: missing | None => parent :: missing end)
  end.

Definition check_parent_bodies_exist (b : Block) (s : Stores) : result halt () :=
  missing ← bodyless s (direct_parents (block_header b));
  if bool_decide (missing = []) then Ok tt else rule (MissingParents missing).

Definition check_coinbase (b : Block) : result halt () :=
  match transactions b with
  | [] => Err (Stop Crashed)
  | coinbase :: _ =>
      match check_coinbase_blue_score_and_subsidy cm (header_blue_score (block_header b)) (header_daa_score (block_header b)) (payload coinbase) with
      | Ok _ => Ok tt
      | Err e => rule (CoinbasePayloadRule e)
      end
  end.

(** The past median time of the block, with the cache it fills. *)
Definition past_median_time_of (h : hash) : st Stores halt Z :=
  fun s =>
    match calc_past_median_time_for_known_hash (window_manager c s) fuel h with
    | Ok (time, cache) => (put_caches (cache_for_difficulty s) cache s, Ok time)
    | Err e => (s, Err e)
    end.

(** [lazy_pmt] is the past median time when a transaction before needed it. *)
Fixpoint check_each_in_context (b : Block) (lazy_pmt : option Z) (txs : list Transaction) : st Stores halt () :=
  match txs with
  | [] => mret tt
  | tx :: rest =>
      r ← (match get_lock_time_type tx with
           | TypeFinalized => mret (ArgFinalized, lazy_pmt)
           | TypeDaaScore => mret (ArgDaaScore (header_daa_score (block_header b)), lazy_pmt)
           | TypeTime =>
               t ← (match lazy_pmt with Some t => mret t | None => past_median_time_of (block_hash b) end);
               mret (ArgMedianTime t, Some t)
           end);
      match validate_tx_in_header_context tx r.1 with
      | Err e => throw (Rule (TxInContextFailed (tx_id tx) e))
      | Ok _ => check_each_in_context b r.2 rest
      end
  end.

Definition check_block_transactions_in_context (b : Block) : st Stores halt () := check_each_in_context b None (transactions b).

Definition validate_body_in_context (b : Block) : st Stores halt () :=
  _ ← ask (check_parent_bodies_exist b);
  _ ← lift (check_coinbase b);
  check_block_transactions_in_context b.

(** * processor.rs *)

Definition validate_body (b : Block) (is_trusted : bool) : st Stores halt (NonContextualMasses * Z) :=
  mass ← lift (validate_body_in_isolation b);
  _ ← (if is_trusted then mret tt else validate_body_in_context b);
  mret mass.

Definition commit_body (h : hash) (parents : list hash) (txs : list Transaction) : st NodeStores halt () :=
  _ ← (fun n => match table_insert h txs (block_transactions_store n) with
                | (t, Ok _) => (mk_node (header_stores n) t (body_tips_store n), Ok tt)
                | (_, Err _) => (n, Err (Stop Crashed))
                end);
  _ ← (fun n => (mk_node (header_stores n) (block_transactions_store n) (add_tip h parents (body_tips_store n)), Ok tt));
  on_headers (must statuses_store put_statuses (statuses_set h StatusStatePendingVerification)).

(** The errors that leave the block without the status of an invalid one. *)
Definition keeps_status (e : RuleError) : bool :=
  match e with BadMerkleRoot _ _ | MissingParents _ | PrunedBlock => true | _ => false end.

Definition validate_or_invalidate (b : Block) (is_trusted : bool) : st Stores halt (NonContextualMasses * Z) :=
  fun s =>
    match validate_body b is_trusted s with
    | (s', Err (Rule e)) =>
        if keeps_status e then (s', Err (Rule e))
        else (_ ← must statuses_store put_statuses (statuses_set (block_hash b) StatusInvalid); throw (Rule e)) s'
    | r => r
    end.

Definition process_body (b : Block) (is_trusted : bool) : st NodeStores halt BlockStatus :=
  status ← on_headers (ask (fun s => run_ (unwrapped (statuses_get (statuses_store s) (block_hash b)))));
  match status with
  | StatusInvalid => throw (Rule KnownInvalid)
  | StatusHeaderOnly =>
      _ ← on_headers (validate_or_invalidate b is_trusted);
      _ ← commit_body (block_hash b) (direct_parents (block_header b)) (transactions b);
      mret StatusStatePendingVerification
  | _ => if has_block_body status then mret status else throw (Stop Crashed)
  end.

Definition build_genesis_transactions : list Transaction :=
  [Transaction_new (compute_tx_id TransactionID) 0 [] [] 0 SUBNETWORK_ID_COINBASE 0 (gen_coinbase_payload (hc_genesis c))].

Definition process_genesis_body : st NodeStores halt () :=
  _ ← (fun n => (mk_node (header_stores n) (block_transactions_store n) (tips_update [] [] (body_tips_store n)), Ok tt));
  commit_body (gen_hash (hc_genesis c)) [] build_genesis_transactions.

(** * A block through the pipeline *)

(** [queue_block] of the header processor sends a block that passed, and that is not a
    header only, to the body processor. *)
Definition process_block (blake3 : bytes -> bytes) (poseidon2_permute : list Z -> list Z) (BlockHash : bytes -> bytes) (now : Z) (b : Block) :
    st NodeStores halt BlockStatus :=
  status ← on_headers (process_header blake3 poseidon2_permute BlockHash c fuel now (Ordinary (block_header b)));
  if bool_decide (transactions b = []) then mret status else process_body b false.

(** A new node, up to the body processor. *)
Definition node_init (BlockHash : bytes -> bytes) : st NodeStores halt () :=
  _ ← on_headers (consensus_init BlockHash c fuel);
  process_genesis_body.
End body.

Definition node_new : NodeStores := mk_node stores_new ∅ ∅.
