(* ===== verification/Params.v ===== *)
(** The parameters of the networks (consensus/core/src/config): the constants, the values a
    block rate gives, the genesis blocks, the overrides and the fork activations, and the
    configuration the consensus services get from them. *)

From S2P Require Import Prelude Tx Coinbase Validator Uint Work HeaderProcessor Body.

(** * constants.rs *)

Definition TIMESTAMP_DEVIATION_TOLERANCE : Z := 132.
Definition PAST_MEDIAN_TIME_SAMPLE_INTERVAL : Z := 10.
Definition MEDIAN_TIME_SAMPLED_WINDOW_SIZE : Z := div_ceil (2 * TIMESTAMP_DEVIATION_TOLERANCE - 1) PAST_MEDIAN_TIME_SAMPLE_INTERVAL.
Definition MAX_DIFFICULTY_TARGET : limbs := [18446744073709551615; 18446744073709551615; 18446744073709551615; 9223372036854775807].
Definition MIN_DIFFICULTY_WINDOW_SIZE : nat := 10.
Definition DIFFICULTY_WINDOW_DURATION : Z := 2641.
Definition DIFFICULTY_WINDOW_SAMPLE_INTERVAL : Z := 4.
Definition DIFFICULTY_SAMPLED_WINDOW_SIZE : Z := div_ceil DIFFICULTY_WINDOW_DURATION DIFFICULTY_WINDOW_SAMPLE_INTERVAL.
Definition FINALITY_DURATION : Z := 43200.
Definition PRUNING_DURATION : Z := 108000.
Definition MERGE_DEPTH_DURATION : Z := 3600.
Definition PRUNING_PROOF_M : Z := 1000.
Definition COINBASE_MATURITY_SECONDS : Z := 100.
Definition STORAGE_MASS_PARAMETER : Z := 0.

(** * bps.rs *)

Module Bps.
Section bps.
Context (BPS : Z).

(** [None]: the constant does not compile. *)
Definition sahyadri_consensus_k : option Z :=
  if 1 <=? BPS then
    [18; 31; 43; 55; 67; 79; 90; 102; 113; 124; 135; 146; 157; 168; 179; 190; 201; 212; 223; 234;
     244; 255; 266; 277; 288; 298; 309; 320; 330; 341; 352; 362] !! Z.to_nat (BPS - 1)
  else None.

Definition target_time_per_block : option Z := if 1000 mod BPS =? 0 then Some (1000 / BPS) else None.

Definition max_block_parents : option Z :=
  k ← sahyadri_consensus_k;
  let val := wrap 8 (k / 2) in
  Some (if val <? 10 then 10 else if 16 <? val then 16 else val).

Definition mergeset_size_limit : option Z :=
  k ← sahyadri_consensus_k;
  let val := k * 2 in
  Some (if val <? 180 then 180 else if 512 <? val then 512 else val).

Definition merge_depth_bound : Z := BPS * MERGE_DEPTH_DURATION.
Definition finality_depth : Z := BPS * FINALITY_DURATION.

Definition pruning_depth : option Z :=
  limit ← mergeset_size_limit;
  k ← sahyadri_consensus_k;
  let lower_bound := finality_depth + merge_depth_bound * 2 + 4 * limit * k + 2 * k + 2 in
  Some (if BPS * PRUNING_DURATION <? lower_bound then lower_bound else BPS * PRUNING_DURATION).

Definition past_median_time_sample_rate : Z := BPS * PAST_MEDIAN_TIME_SAMPLE_INTERVAL.
Definition difficulty_adjustment_sample_rate : Z := BPS * DIFFICULTY_WINDOW_SAMPLE_INTERVAL.
Definition coinbase_maturity : Z := BPS * COINBASE_MATURITY_SECONDS.
Definition deflationary_phase_daa_score : Z := BPS * (15778800 - 259200).
Definition pre_deflationary_phase_base_subsidy : Z := 50000000000 / BPS.
End bps.
End Bps.

(** * params.rs: forks *)

Abbreviation ForkActivation := Z.
Definition NEVER : ForkActivation := 2 ^ 64 - 1.
Definition ALWAYS : ForkActivation := 0.

Definition is_active (fork : ForkActivation) (current_daa_score : Z) : bool := fork <=? current_daa_score.

Definition is_within_range_from_activation (fork : ForkActivation) (current_daa_score range : Z) : bool :=
  negb (fork =? ALWAYS) && is_active fork current_daa_score && (current_daa_score <? wadd64 fork range).

Definition is_within_range_before_activation (fork : ForkActivation) (current_daa_score range : Z) : option Z :=
  if negb (is_active fork current_daa_score) && (fork <? wadd64 current_daa_score range) then Some (fork - current_daa_score) else None.

Record ForkedParam (T : Type) := mk_forked { fp_pre : T; fp_post : T; fp_activation : ForkActivation }.
Arguments mk_forked {T}.
Arguments fp_pre {T}.
Arguments fp_post {T}.
Arguments fp_activation {T}.

Section forked.
Context {T : Type}.

Definition forked_new_const (v : T) : ForkedParam T := mk_forked v v NEVER.
Definition forked_get (p : ForkedParam T) (daa_score : Z) : T := if is_active (fp_activation p) daa_score then fp_post p else fp_pre p.
Definition forked_before (p : ForkedParam T) : T := if fp_activation p =? ALWAYS then fp_post p else fp_pre p.
Definition forked_after (p : ForkedParam T) : T := if fp_activation p =? NEVER then fp_pre p else fp_post p.
Definition forked_map {U} (f : T -> U) (p : ForkedParam T) : ForkedParam U := mk_forked (f (fp_pre p)) (f (fp_post p)) (fp_activation p).
End forked.

Definition lower_bound (p : ForkedParam Z) : Z :=
  if fp_activation p =? NEVER then fp_pre p else if fp_activation p =? ALWAYS then fp_post p else Z.min (fp_pre p) (fp_post p).
Definition upper_bound (p : ForkedParam Z) : Z :=
  if fp_activation p =? NEVER then fp_pre p else if fp_activation p =? ALWAYS then fp_post p else Z.max (fp_pre p) (fp_post p).

(** * params.rs: the block rate *)

Record BlockrateParams := mk_blockrate {
  br_target_time_per_block : Z;
  br_sahyadri_consensus_k : Z;
  br_past_median_time_sample_rate : Z;
  br_difficulty_sample_rate : Z;
  br_max_block_parents : Z;
  br_mergeset_size_limit : Z;
  br_merge_depth : Z;
  br_finality_depth : Z;
  br_pruning_depth : Z;
  br_coinbase_maturity : Z;
}.

Definition BlockrateParams_new (bps : Z) : option BlockrateParams :=
  time ← Bps.target_time_per_block bps;
  k ← Bps.sahyadri_consensus_k bps;
  parents ← Bps.max_block_parents bps;
  limit ← Bps.mergeset_size_limit bps;
  pruning ← Bps.pruning_depth bps;
  Some (mk_blockrate time k (Bps.past_median_time_sample_rate bps) (Bps.difficulty_adjustment_sample_rate bps) parents limit
          (Bps.merge_depth_bound bps) (Bps.finality_depth bps) pruning (Bps.coinbase_maturity bps)).

Definition increase_max_block_parents (b : BlockrateParams) (parents : Z) : BlockrateParams :=
  mk_blockrate (br_target_time_per_block b) (br_sahyadri_consensus_k b) (br_past_median_time_sample_rate b) (br_difficulty_sample_rate b)
    (if br_max_block_parents b <? parents then parents else br_max_block_parents b) (br_mergeset_size_limit b)
    (br_merge_depth b) (br_finality_depth b) (br_pruning_depth b) (br_coinbase_maturity b).

(** * params.rs: the parameters *)

Inductive NetworkType := Mainnet | Testnet | Devnet | Simnet.

Record NetworkId := mk_network { network_type : NetworkType; network_suffix : option Z }.

(** Without the seeders and the maximal target as a float, which the rules do not use. *)
Record Params := mk_params {
  net : NetworkId;
  genesis : GenesisBlock;
  max_difficulty_target : limbs;
  timestamp_deviation_tolerance : Z;
  past_median_time_window_size : nat;
  difficulty_window_size : nat;
  min_difficulty_window_size : nat;
  coinbase_payload_script_public_key_max_len : Z;
  max_coinbase_payload_len : Z;
  max_tx_inputs : Z;
  max_tx_outputs : Z;
  max_signature_script_len : Z;
  max_script_public_key_len : Z;
  mass_per_tx_byte : Z;
  mass_per_script_pub_key_byte : Z;
  mass_per_sig_op : Z;
  max_block_mass : Z;
  storage_mass_parameter : Z;
  deflationary_phase_daa_score : Z;
  pre_deflationary_phase_base_subsidy : Z;
  skip_proof_of_work : bool;
  max_block_level : nat;
  pruning_proof_m : Z;
  blockrate : BlockrateParams;
  pre_raigad_target_time_per_block : Z;
  raigad_activation : ForkActivation;
}.

Record OverrideParams := mk_override {
  ov_timestamp_deviation_tolerance : option Z;
  ov_past_median_time_window_size : option nat;
  ov_difficulty_window_size : option nat;
  ov_min_difficulty_window_size : option nat;
  ov_coinbase_payload_script_public_key_max_len : option Z;
  ov_max_coinbase_payload_len : option Z;
  ov_max_tx_inputs : option Z;
  ov_max_tx_outputs : option Z;
  ov_max_signature_script_len : option Z;
  ov_max_script_public_key_len : option Z;
  ov_mass_per_tx_byte : option Z;
  ov_mass_per_script_pub_key_byte : option Z;
  ov_mass_per_sig_op : option Z;
  ov_max_block_mass : option Z;
  ov_storage_mass_parameter : option Z;
  ov_deflationary_phase_daa_score : option Z;
  ov_pre_deflationary_phase_base_subsidy : option Z;
  ov_skip_proof_of_work : option bool;
  ov_max_block_level : option nat;
  ov_pruning_proof_m : option Z;
  ov_blockrate : option BlockrateParams;
  ov_pre_raigad_target_time_per_block : option Z;
  ov_raigad_activation : option ForkActivation;
}.

(** [From<Params> for OverrideParams] *)
Definition OverrideParams_from (p : Params) : OverrideParams :=
  mk_override (Some (timestamp_deviation_tolerance p)) (Some (past_median_time_window_size p)) (Some (difficulty_window_size p))
    (Some (min_difficulty_window_size p)) (Some (coinbase_payload_script_public_key_max_len p)) (Some (max_coinbase_payload_len p))
    (Some (max_tx_inputs p)) (Some (max_tx_outputs p)) (Some (max_signature_script_len p)) (Some (max_script_public_key_len p))
    (Some (mass_per_tx_byte p)) (Some (mass_per_script_pub_key_byte p)) (Some (mass_per_sig_op p)) (Some (max_block_mass p))
    (Some (storage_mass_parameter p)) (Some (deflationary_phase_daa_score p)) (Some (pre_deflationary_phase_base_subsidy p))
    (Some (skip_proof_of_work p)) (Some (max_block_level p)) (Some (pruning_proof_m p)) (Some (blockrate p))
    (Some (pre_raigad_target_time_per_block p)) (Some (raigad_activation p)).

Definition override_params (p : Params) (o : OverrideParams) : Params :=
  mk_params (net p) (genesis p) (max_difficulty_target p)
    (default (timestamp_deviation_tolerance p) (ov_timestamp_deviation_tolerance o))
    (default (past_median_time_window_size p) (ov_past_median_time_window_size o))
    (default (difficulty_window_size p) (ov_difficulty_window_size o))
    (default (min_difficulty_window_size p) (ov_min_difficulty_window_size o))
    (default (coinbase_payload_script_public_key_max_len p) (ov_coinbase_payload_script_public_key_max_len o))
    (default (max_coinbase_payload_len p) (ov_max_coinbase_payload_len o)) (default (max_tx_inputs p) (ov_max_tx_inputs o))
    (default (max_tx_outputs p) (ov_max_tx_outputs o)) (default (max_signature_script_len p) (ov_max_signature_script_len o))
    (default (max_script_public_key_len p) (ov_max_script_public_key_len o)) (default (mass_per_tx_byte p) (ov_mass_per_tx_byte o))
    (default (mass_per_script_pub_key_byte p) (ov_mass_per_script_pub_key_byte o))
    (default (mass_per_sig_op p) (ov_mass_per_sig_op o)) (default (max_block_mass p) (ov_max_block_mass o))
    (default (storage_mass_parameter p) (ov_storage_mass_parameter o))
    (default (deflationary_phase_daa_score p) (ov_deflationary_phase_daa_score o))
    (default (pre_deflationary_phase_base_subsidy p) (ov_pre_deflationary_phase_base_subsidy o))
    (default (skip_proof_of_work p) (ov_skip_proof_of_work o)) (default (max_block_level p) (ov_max_block_level o))
    (default (pruning_proof_m p) (ov_pruning_proof_m o)) (default (blockrate p) (ov_blockrate o))
    (default (pre_raigad_target_time_per_block p) (ov_pre_raigad_target_time_per_block o))
    (default (raigad_activation p) (ov_raigad_activation o)).

(** The override that changes nothing. *)
Definition no_override : OverrideParams :=
  mk_override None None None None None None None None None None None None None None None None None None None None None None None.

Definition bps (p : Params) : Z := 1000 / br_target_time_per_block (blockrate p).

Definition bps_history (p : Params) : ForkedParam Z :=
  mk_forked (1000 / pre_raigad_target_time_per_block p) (1000 / br_target_time_per_block (blockrate p)) (raigad_activation p).

Definition finality_duration_in_milliseconds (p : Params) : Z :=
  wmul64 (br_target_time_per_block (blockrate p)) (br_finality_depth (blockrate p)).

Definition difficulty_window_duration_in_block_units (p : Params) : Z :=
  wmul64 (br_difficulty_sample_rate (blockrate p)) (Z.of_nat (difficulty_window_size p)).

Definition expected_difficulty_window_duration_in_milliseconds (p : Params) : Z :=
  wmul64 (wmul64 (br_target_time_per_block (blockrate p)) (br_difficulty_sample_rate (blockrate p))) (Z.of_nat (difficulty_window_size p)).

Definition anticone_finalization_depth (p : Params) : Z :=
  let b := blockrate p in
  let k := br_sahyadri_consensus_k b in
  let depth := wadd64 (wadd64 (wadd64 (wadd64 (br_finality_depth b) (br_merge_depth b)) (wmul64 (wmul64 4 (br_mergeset_size_limit b)) k)) (wmul64 2 k)) 2 in
  Z.min (br_pruning_depth b) depth.

(** * genesis.rs *)

Definition EMPTY_ACCOUNT_ROOT : bytes := replicate 32 0.

Definition GENESIS : GenesisBlock :=
  mk_genesis
    [186; 226; 18; 26; 223; 193; 11; 59; 115; 161; 9; 149; 217; 77; 147; 13; 16; 121; 135; 49; 210; 9; 231; 127; 141; 75; 108; 111; 102; 91; 76; 82]
    0
    [11; 59; 122; 137; 119; 69; 216; 252; 233; 195; 177; 168; 158; 84; 241; 191; 49; 113; 100; 255; 114; 76; 86; 169; 84; 142; 179; 243; 240; 200; 214; 88]
    EMPTY_ACCOUNT_ROOT 1773133000000 537198592 211244 1312860
    [0; 0; 0; 0; 0; 0; 0; 0; 0; 225; 245; 5; 0; 0; 0; 0; 0; 0; 1; 0; 215; 149; 215; 158; 215; 148; 32; 215; 147; 215; 153; 32; 215; 162; 215; 156; 215; 153; 215; 154;
     32; 215; 149; 215; 162; 215; 156; 32; 215; 144; 215; 151; 215; 153; 215; 154; 32; 215; 153; 215; 153; 215; 152; 215; 145; 32; 215; 145; 215; 169; 215; 144; 215; 168; 32; 215; 155; 215; 161; 215;
     164; 215; 144; 32; 215; 149; 215; 147; 215; 148; 215; 145; 215; 148; 32; 215; 156; 215; 158; 215; 162; 215; 145; 215; 147; 32; 215; 155; 215; 168; 215; 162; 215; 149; 215; 170; 32; 215; 144; 215;
     156; 215; 148; 215; 155; 215; 157; 32; 215; 170; 215; 162; 215; 145; 215; 147; 215; 149; 215; 159; 0; 0; 0; 0; 0; 0; 0; 0; 0; 11; 31; 142; 28; 23; 176; 19; 61; 67; 145; 116;
     229; 46; 251; 176; 196; 28; 53; 131; 168; 170; 102; 176; 15; 202; 55; 202; 102; 124; 45; 85; 10; 108; 68; 22; 218; 217; 113; 126; 80; 146; 113; 40; 196; 36; 250; 78; 219; 235; 196; 54;
     171; 19; 174; 239].

Definition TESTNET_GENESIS : GenesisBlock :=
  mk_genesis
    [124; 233; 180; 54; 188; 253; 110; 122; 101; 112; 189; 89; 247; 63; 87; 131; 212; 64; 93; 87; 197; 217; 166; 40; 83; 81; 150; 46; 84; 226; 179; 147]
    0
    [77; 17; 232; 166; 81; 78; 1; 77; 83; 188; 211; 253; 97; 123; 109; 128; 129; 12; 45; 246; 252; 86; 29; 209; 37; 26; 0; 13; 111; 130; 61; 118]
    EMPTY_ACCOUNT_ROOT 1633687894966 537198592 83330 0
    [0; 0; 0; 0; 0; 0; 0; 0; 0; 225; 245; 5; 0; 0; 0; 0; 0; 0; 1; 0; 107; 97; 115; 112; 97; 45; 116; 101; 115; 116; 110; 101; 116].

Definition SIMNET_GENESIS : GenesisBlock :=
  mk_genesis
    [137; 99; 80; 147; 175; 173; 234; 200; 50; 254; 188; 35; 73; 64; 27; 248; 201; 191; 49; 206; 195; 155; 117; 217; 180; 40; 91; 184; 94; 98; 72; 147]
    0
    [173; 171; 114; 242; 202; 241; 97; 192; 56; 63; 155; 233; 83; 252; 21; 75; 141; 100; 114; 243; 242; 89; 151; 228; 178; 184; 77; 240; 163; 35; 91; 134]
    EMPTY_ACCOUNT_ROOT 1633687894966 545259519 2 0
    [0; 0; 0; 0; 0; 0; 0; 0; 0; 225; 245; 5; 0; 0; 0; 0; 0; 0; 1; 0; 107; 97; 115; 112; 97; 45; 115; 105; 109; 110; 101; 116].

Definition DEVNET_GENESIS : GenesisBlock :=
  mk_genesis
    [130; 164; 128; 21; 213; 251; 230; 103; 23; 192; 106; 75; 94; 207; 225; 248; 171; 28; 173; 179; 104; 22; 89; 252; 216; 249; 122; 207; 3; 127; 177; 181]
    0
    [27; 151; 253; 116; 78; 238; 166; 102; 253; 94; 69; 136; 129; 16; 214; 131; 159; 77; 30; 57; 169; 90; 81; 52; 196; 61; 130; 40; 18; 152; 188; 211]
    EMPTY_ACCOUNT_ROOT 1231006505000 505527324 298590 0
    [0; 0; 0; 0; 0; 0; 0; 0; 0; 225; 245; 5; 0; 0; 0; 0; 0; 0; 1; 0; 107; 97; 115; 112; 97; 45; 100; 101; 118; 110; 101; 116].

(** * params.rs: the networks *)

Definition MAINNET_PARAMS : option Params :=
  rate ← BlockrateParams_new 1;
  Some (mk_params (mk_network Mainnet None) GENESIS MAX_DIFFICULTY_TARGET
    TIMESTAMP_DEVIATION_TOLERANCE (Z.to_nat MEDIAN_TIME_SAMPLED_WINDOW_SIZE) (Z.to_nat DIFFICULTY_SAMPLED_WINDOW_SIZE)
    MIN_DIFFICULTY_WINDOW_SIZE 150 204 1000 1000 10000 10000 1 1 100 20000000 STORAGE_MASS_PARAMETER
    126144000 8318123 false 225 1000 rate 1000 110165000).

Definition TESTNET_PARAMS : option Params :=
  rate ← BlockrateParams_new 1;
  Some (mk_params (mk_network Testnet (Some 10)) TESTNET_GENESIS MAX_DIFFICULTY_TARGET
    TIMESTAMP_DEVIATION_TOLERANCE (Z.to_nat MEDIAN_TIME_SAMPLED_WINDOW_SIZE) (Z.to_nat DIFFICULTY_SAMPLED_WINDOW_SIZE)
    MIN_DIFFICULTY_WINDOW_SIZE 150 204 1000 1000 10000 10000 1 2 1000 20000000 STORAGE_MASS_PARAMETER
    126144000 8318123 false 250 1000 rate 1000 88657000).

Definition SIMNET_PARAMS : option Params :=
  rate ← BlockrateParams_new 1;
  Some (mk_params (mk_network Simnet None) SIMNET_GENESIS MAX_DIFFICULTY_TARGET
    TIMESTAMP_DEVIATION_TOLERANCE (Z.to_nat MEDIAN_TIME_SAMPLED_WINDOW_SIZE) (Z.to_nat DIFFICULTY_SAMPLED_WINDOW_SIZE)
    MIN_DIFFICULTY_WINDOW_SIZE 150 204 1000 1000 10000 10000 1 2 1000 20000000 STORAGE_MASS_PARAMETER
    (Bps.deflationary_phase_daa_score 1) (Bps.pre_deflationary_phase_base_subsidy 1) true 250 PRUNING_PROOF_M (increase_max_block_parents rate 64) 1000 ALWAYS).

Definition DEVNET_PARAMS : option Params :=
  rate ← BlockrateParams_new 1;
  Some (mk_params (mk_network Devnet None) DEVNET_GENESIS MAX_DIFFICULTY_TARGET
    TIMESTAMP_DEVIATION_TOLERANCE (Z.to_nat MEDIAN_TIME_SAMPLED_WINDOW_SIZE) (Z.to_nat DIFFICULTY_SAMPLED_WINDOW_SIZE)
    MIN_DIFFICULTY_WINDOW_SIZE 150 204 1000 1000 10000 10000 1 2 1000 20000000 STORAGE_MASS_PARAMETER
    126144000 8318123 false 250 1000 rate 1000 ALWAYS).

(** [From<NetworkType>] and [From<NetworkId>]; an unsupported suffix panics. *)
Definition Params_from_type (t : NetworkType) : option Params :=
  match t with Mainnet => MAINNET_PARAMS | Testnet => TESTNET_PARAMS | Devnet => DEVNET_PARAMS | Simnet => SIMNET_PARAMS end.

Definition Params_from_id (id : NetworkId) : option Params :=
  match network_type id with
  | Testnet => match network_suffix id with Some 10 => TESTNET_PARAMS | _ => None end
  | t => Params_from_type t
  end.

(** * The services *)

(** What [ConsensusServices::new] and [HeaderProcessor::new] take from the parameters. *)
Definition config_of (p : Params) : Config :=
  let b := blockrate p in
  mk_config (genesis p) (timestamp_deviation_tolerance p) (Z.to_nat (br_max_block_parents b)) (br_mergeset_size_limit b)
    (skip_proof_of_work p) (max_block_level p) (br_sahyadri_consensus_k b) (br_merge_depth b) (br_finality_depth b)
    (max_difficulty_target p) (difficulty_window_size p) (min_difficulty_window_size p `min` difficulty_window_size p)
    (br_difficulty_sample_rate b) (br_target_time_per_block b) (past_median_time_window_size p) (br_past_median_time_sample_rate b).

Definition coinbase_manager_of (p : Params) : CoinbaseManager :=
  {| Coinbase.coinbase_payload_script_public_key_max_len := coinbase_payload_script_public_key_max_len p;
     Coinbase.max_coinbase_payload_len := max_coinbase_payload_len p; Coinbase.bps_after := forked_after (bps_history p) |}.

(** [MassCalculator::new_with_consensus_params] *)
Definition mass_calculator_of (p : Params) : MassCalculator :=
  mk_calculator (mass_per_tx_byte p) (mass_per_script_pub_key_byte p) (mass_per_sig_op p) (storage_mass_parameter p).

Definition transaction_validator_of (p : Params) : TransactionValidator :=
  {| Validator.max_tx_inputs := max_tx_inputs p; Validator.max_tx_outputs := max_tx_outputs p;
     Validator.max_signature_script_len := max_signature_script_len p; Validator.max_script_public_key_len := max_script_public_key_len p;
     Validator.validator_coinbase_spk_max_len := coinbase_payload_script_public_key_max_len p |}.
