(* ===== verification/Dag.v ===== *)
(** The order of a block history: [reaches] is a partial order whose least element is
    the origin, blocks are above their parents, and two blocks that are not ordered are
    in the anticone of each other. *)

From S2P Require Import Prelude Access Interval Reach ReachTree ReachHistory.

Fixpoint parents_of (G : list insertion) (y : hash) : list hash :=
  match G with
  | [] => []
  | b :: G' => if bool_decide (y = in_block b) then in_parents b else parents_of G' y
  end.

Fixpoint selected_of (G : list insertion) (y : hash) : hash :=
  match G with
  | [] => NONE
  | b :: G' => if bool_decide (y = in_block b) then in_selected_parent b else selected_of G' y
  end.

(** The blocks of a history, without the origin. *)
Definition blocks_of (G : list insertion) : list hash := map in_block G.

Lemma known_blocks G x : x ∈ known G <-> x = ORIGIN \/ x ∈ blocks_of G.
Proof. induction G as [|b G IH]; cbn; [set_solver|]. rewrite !elem_of_cons, IH. tauto. Qed.

Lemma known_nodup G : valid_history G -> NoDup (known G).
Proof.
  induction G as [|b G IH]; cbn; [intros _; apply NoDup_singleton|]. intros [Hv HG]. constructor; [apply (vi_new _ _ Hv)|by apply IH].
Qed.

Lemma length_known G : length (known G) = (length G + 1)%nat.
Proof. induction G as [|b G IH]; cbn; lia. Qed.

Lemma history_ind (G : list insertion) (P : hash -> Prop) : valid_history G ->
  P ORIGIN ->
  (forall y, y ∈ blocks_of G -> (forall q, q ∈ parents_of G y -> q ∈ known G /\ P q) -> P y) ->
  forall y, y ∈ known G -> P y.
Proof.
  intros HG H0 Hstep. assert (Hall : forall G', (exists l, G = l ++ G') -> forall y, y ∈ known G' -> P y).
  2: { apply Hall. by exists []. }
  induction G' as [|b G' IH]; intros (l & E) y Hy.
  { apply list_elem_of_singleton in Hy. by subst y. }
  assert (HG' : valid_history (b :: G')) by (subst G; clear -HG; induction l as [|c l IHl]; [done|]; apply IHl; apply HG).
  cbn [known] in Hy. apply elem_of_cons in Hy as [->|Hy]; [|apply IH; [|done]; exists (l ++ [b]); by rewrite <-app_assoc].
  assert (Hnl : forall c, c ∈ l -> in_block c <> in_block b).
  { subst G. clear -HG. induction l as [|c l IHl]; [intros ? ?%elem_of_nil; done|]. destruct HG as [Hv HG].
    intros d [->|Hd]%elem_of_cons; [|by apply IHl]. intros E. apply (vi_new _ _ Hv). rewrite E. apply known_blocks. right.
    unfold blocks_of. rewrite map_app. set_solver. }
  assert (Hpar : parents_of G (in_block b) = in_parents b).
  { subst G. clear -Hnl. induction l as [|c l IHl]; cbn; [by rewrite bool_decide_true|].
    rewrite bool_decide_false by (intros E; apply (Hnl c); [set_solver|done]). apply IHl. set_solver. }
  apply Hstep; [subst G; unfold blocks_of; rewrite map_app; set_solver|]. rewrite Hpar. intros q Hq.
  destruct HG' as [Hv _]. pose proof (vi_parents _ _ Hv q Hq) as Hk. split.
  - subst G. apply known_blocks. apply known_blocks in Hk as [?|?]; [by left|right]. unfold blocks_of in *. rewrite map_app. set_solver.
  - apply IH; [|done]. exists (l ++ [b]). by rewrite <-app_assoc.
Qed.

Section order.
Context (G : list insertion) (HG : valid_history G).

Lemma reaches_fresh b x y : valid_insertion G b -> y ∈ known G -> reaches (b :: G) x y = reaches G x y.
Proof. intros Hv Hy. cbn. rewrite bool_decide_false; [done|]. intros ->. by apply (vi_new _ _ Hv). Qed.

Lemma parents_known y q : q ∈ parents_of G y -> q ∈ known G.
Proof.
  induction G as [|b G' IH]; cbn; [by intros ?%elem_of_nil|]. destruct HG as [Hv HG']. case_bool_decide.
  - intros Hq. right. by apply (vi_parents _ _ Hv).
  - intros Hq. right. by apply IH.
Qed.

Lemma reaches_unfold x y : y ∈ known G ->
  reaches G x y = true <-> x = y \/ exists q, q ∈ parents_of G y /\ reaches G x q = true.
Proof.
  revert x y. induction G as [|b G' IH]; intros x y Hy.
  - apply list_elem_of_singleton in Hy as ->. cbn. rewrite andb_true_iff, !bool_decide_eq_true.
    split; [naive_solver|]. intros [->|(q & ?%elem_of_nil & _)]; done.
  - destruct HG as [Hv HG']. cbn [reaches parents_of]. case_bool_decide as Ey.
    + subst y. rewrite orb_true_iff, bool_decide_eq_true, existsb_exists. apply or_iff_compat_l.
      split; intros (q & Hq & Hr); exists q.
      * apply list_elem_of_In in Hq. split; [done|]. pose proof (vi_parents _ _ Hv q Hq).
        case_bool_decide; [subst q; by destruct (vi_new _ _ Hv)|done].
      * split; [by apply list_elem_of_In|]. pose proof (vi_parents _ _ Hv q Hq).
        case_bool_decide; [subst q; by destruct (vi_new _ _ Hv)|done].
    + cbn [known] in Hy. apply elem_of_cons in Hy as [?|Hy]; [done|]. rewrite (IH HG' x y Hy). apply or_iff_compat_l.
      assert (Hk : forall q, q ∈ parents_of G' y -> q <> in_block b).
      { intros q Hq ->. apply (vi_new _ _ Hv). clear -Hq HG'. revert Hq. induction G' as [|c G'' IH']; cbn; [by intros ?%elem_of_nil|].
        destruct HG' as [Hv' HG'']. case_bool_decide; intros Hq; right; [by apply (vi_parents _ _ Hv')|by apply IH']. }
      split; intros (q & Hq & Hr); exists q; (split; [done|]); specialize (Hk q Hq); revert Hr; case_bool_decide; done.
Qed.
End order.

Section partial_order.
Context (G : list insertion) (HG : valid_history G).

Lemma reaches_refl x : x ∈ known G -> reaches G x x = true.
Proof. intros Hx. apply (reaches_unfold G HG); auto. Qed.

Lemma origin_parents : parents_of G ORIGIN = [].
Proof.
  clear -HG. induction G as [|b G' IH]; [done|]. destruct HG as [Hv HG']. cbn. rewrite bool_decide_false; [auto|].
  intros E. apply (vi_new _ _ Hv). rewrite <-E. apply known_blocks. by left.
Qed.

Lemma reaches_trans x y z : reaches G x y = true -> reaches G y z = true -> reaches G x z = true.
Proof.
  intros Hxy Hyz. assert (Hz : z ∈ known G) by (by apply (reaches_known _ _ _ HG) in Hyz as [_ ?]). revert Hyz.
  pattern z. eapply (history_ind G _ HG); [..|exact Hz].
  - intros Hy. apply (reaches_unfold G HG) in Hy as [->|(q & Hq & _)]; [done|..].
    + rewrite origin_parents in Hq. by apply elem_of_nil in Hq.
    + apply known_blocks. by left.
  - intros w Hw IH Hy. assert (Hk : w ∈ known G) by (apply known_blocks; by right).
    apply (reaches_unfold G HG) in Hy as [->|(q & Hq & Hr)]; [done|..|done]. apply (reaches_unfold G HG); [done|].
    right. exists q. split; [done|]. by apply IH.
Qed.

Lemma reaches_antisym x y : reaches G x y = true -> reaches G y x = true -> x = y.
Proof.
  revert x y. induction G as [|b G' IH]; intros x y.
  - cbn. rewrite !andb_true_iff, !bool_decide_eq_true. naive_solver.
  - destruct HG as [Hv HG']. cbn. case_bool_decide as Ey; case_bool_decide as Ex; subst; try done.
    + intros _ [_ H]%(reaches_known _ _ _ HG')%and_comm. by destruct (vi_new _ _ Hv).
    + intros H _. apply (reaches_known _ _ _ HG') in H as [H _]. by destruct (vi_new _ _ Hv).
    + by apply IH.
Qed.

Lemma parent_below y q : y ∈ known G -> q ∈ parents_of G y -> reaches G q y = true.
Proof.
  intros Hy Hq. apply (reaches_unfold G HG); [done|]. right. exists q. split; [done|].
  apply reaches_refl. by eapply parents_known.
Qed.

Lemma block_not_origin x : x ∈ blocks_of G -> x <> ORIGIN.
Proof.
  intros Hx ->. clear -HG Hx. induction G as [|b G' IH]; cbn in Hx; [by apply elem_of_nil in Hx|]. destruct HG as [Hv HG'].
  apply elem_of_cons in Hx as [E|Hx]; [|by apply IH]. apply (vi_new _ _ Hv). rewrite <-E. apply known_blocks. by left.
Qed.

Lemma selected_parent_of x : x ∈ blocks_of G -> selected_of G x ∈ parents_of G x.
Proof.
  clear -HG. induction G as [|b G' IH]; cbn; [by intros ?%elem_of_nil|]. destruct HG as [Hv HG'].
  intros [->|Hx]%elem_of_cons; [rewrite !bool_decide_true by done; apply (vi_selected _ _ Hv)|].
  rewrite !bool_decide_false; [by apply IH|..]; intros ->; apply (vi_new _ _ Hv), known_blocks; by right.
Qed.
(** The chain of a block: the block and the chain of its selected parent. *)
Lemma on_chain_refl x : x ∈ blocks_of G -> on_chain G x x = true.
Proof.
  clear -HG. induction G as [|b G' IH]; intros Hx; [by apply elem_of_nil in Hx|]. destruct HG as [Hv HG']. cbn [on_chain]. case_bool_decide; [done|].
  unfold blocks_of in Hx. cbn [map] in Hx. apply elem_of_cons in Hx as [?|Hx]; [done|]. by apply IH.
Qed.

Lemma on_chain_selected x y : y ∈ blocks_of G -> on_chain G x (selected_of G y) = true -> on_chain G x y = true.
Proof.
  clear -HG. induction G as [|b G' IH]; intros Hy; [by apply elem_of_nil in Hy|]. destruct HG as [Hv HG']. unfold blocks_of in Hy. cbn [map] in Hy. cbn [on_chain selected_of].
  assert (Hsk : forall z, z ∈ blocks_of G' -> selected_of G' z <> in_block b).
  { intros z Hz E. apply (vi_new _ _ Hv). rewrite <-E. apply (parents_known G' HG' z). clear -Hz HG'. induction G' as [|a G'' IH]; [by apply elem_of_nil in Hz|].
    destruct HG' as [Hv HG'']. cbn. unfold blocks_of in Hz. cbn [map] in Hz. case_bool_decide as E; [apply (vi_selected _ _ Hv)|].
    apply elem_of_cons in Hz as [?|Hz]; [done|]. by apply IH. }
  destruct (decide (y = in_block b)) as [->|Ey].
  - rewrite !(bool_decide_true (in_block b = in_block b)) by done. rewrite bool_decide_false; [intros ->; apply orb_true_r|]. intros E. apply (vi_new _ _ Hv). rewrite <-E. apply (vi_parents _ _ Hv), (vi_selected _ _ Hv).
  - apply elem_of_cons in Hy as [?|Hy]; [done|]. rewrite !(bool_decide_false (y = in_block b)) by done.
    rewrite bool_decide_false by (by apply Hsk). by apply IH.
Qed.
End partial_order.

(** A history that starts with the genesis block, the only child of the origin. *)
Fixpoint rooted (g : hash) (G : list insertion) : Prop :=
  match G with
  | [] => False
  | [b] => b = mk_insertion g ORIGIN [ORIGIN] []
  | b :: G' => (ORIGIN ∉ in_parents b) /\ rooted g G'
  end.

Lemma rooted_cons g b G : rooted g G -> ORIGIN ∉ in_parents b -> rooted g (b :: G).
Proof. intros H1 H2. destruct G; [done|]. by split. Qed.

Lemma rooted_genesis g G : rooted g G -> g ∈ blocks_of G.
Proof.
  induction G as [|b [|c G] IH]; [done|..].
  - intros ->. unfold blocks_of. cbn. set_solver.
  - intros [_ H%IH]. unfold blocks_of in *. cbn [map] in *. set_solver.
Qed.

Lemma rooted_parents g G x : valid_history G -> rooted g G -> x ∈ blocks_of G -> x <> g ->
  (ORIGIN ∉ parents_of G x) /\ selected_of G x ∈ blocks_of G.
Proof.
  intros HG Hr Hx Hne. assert (Ho : ORIGIN ∉ parents_of G x).
  { clear -Hr Hx Hne HG. induction G as [|b [|c G] IH]; [by destruct Hr|..].
    - cbn in Hr. subst b. cbn in Hx. by apply list_elem_of_singleton in Hx.
    - destruct Hr as [Ho Hr], HG as [Hv HG]. unfold blocks_of in Hx. revert IH Hr HG Hx. generalize (c :: G). intros G' IH Hr HG Hx.
      cbn in *. case_bool_decide; [done|]. apply IH; [done..|]. by apply elem_of_cons in Hx as [?|?]. }
  split; [done|]. pose proof (selected_parent_of G HG x Hx) as Hs. pose proof (parents_known G HG x _ Hs) as Hk.
  apply known_blocks in Hk as [E|?]; [|done]. by rewrite E in Hs.
Qed.

Lemma genesis_below g G x : valid_history G -> rooted g G -> x ∈ blocks_of G -> reaches G g x = true.
Proof.
  intros HG Hr Hx. assert (Hk : x ∈ known G) by (apply known_blocks; by right). revert Hx. pattern x.
  eapply (history_ind G _ HG); [..|exact Hk].
  - intros Ho. by apply (block_not_origin G HG) in Ho.
  - intros y Hy IH _. destruct (decide (y = g)) as [->|Hne]; [apply reaches_refl; [done|apply known_blocks; by right]|].
    destruct (rooted_parents g G y HG Hr Hy Hne) as [_ Hsb]. pose proof (selected_parent_of G HG y Hy) as Hs.
    apply (reaches_unfold G HG); [apply known_blocks; by right|]. right. exists (selected_of G y). split; [done|]. by apply IH.
Qed.

(** Induction along the selected parents. *)
Lemma chain_ind g (G : list insertion) (P : hash -> Prop) : valid_history G -> rooted g G -> P g ->
  (forall y, y ∈ blocks_of G -> y <> g -> P (selected_of G y) -> P y) -> forall y, y ∈ blocks_of G -> P y.
Proof.
  intros HG Hr H0 Hstep y Hy. assert (Hk : y ∈ known G) by (apply known_blocks; by right). revert Hy. pattern y.
  eapply (history_ind G _ HG); [..|exact Hk].
  - intros Ho. by apply (block_not_origin G HG) in Ho.
  - intros z Hz IH _. destruct (decide (z = g)) as [->|Hne]; [done|].
    destruct (rooted_parents g G z HG Hr Hz Hne) as [_ Hsb]. apply Hstep; [done..|].
    apply IH; [|done]. by apply selected_parent_of.
Qed.

