(* ===== verification/GhostdagSpec.v ===== *)
(** What the ordering protocol promises, over a history: the blue set of a block, the
    k-clusters of the anticone, and the greedy colouring of a mergeset in the order of
    the blue work; and the record of the data a store holds for the blocks of a history. *)

From S2P Require Import Prelude Access Interval Reach ReachTree ReachHistory Dag Uint UintCorrect Work Relations Ghostdag.

(** The data of a store as a function; the invariant only reads it at known blocks. *)
Definition data_at (V : gmap hash SahyadriConsensusData) (x : hash) : SahyadriConsensusData :=
  default origin_sahyadri_consensus_data (V !! x).

Section spec.
Context (G : list insertion) (V : gmap hash SahyadriConsensusData).

Definition work_of (x : hash) : Z := val (blue_work (data_at V x)).

(** The order of the mergeset: the blue work, then the hash. *)
Definition key_lt (x y : hash) : Prop := work_of x < work_of y \/ work_of x = work_of y /\ bytes_ltb x y = true.

(** Blocks that are not ordered. *)
Definition anti (x y : hash) : bool := negb (reaches G x y) && negb (reaches G y x).

Definition anticone_in (x : hash) (S : gset hash) : gset hash := filter (fun y => anti x y = true) S.

(** Every member has at most [k] members in its anticone. *)
Definition kcluster (k : Z) (S : gset hash) : Prop := set_Forall (fun x => Z.of_nat (size (anticone_in x S)) <= k) S.

#[export] Instance kcluster_dec k S : Decision (kcluster k S).
Proof. unfold kcluster. apply _. Defined.

(** The blue blocks and the red blocks of a list of candidates, from a blue set [S]:
    a candidate is blue when it keeps the blue set a k-cluster. *)
Fixpoint greedy (k : Z) (S : gset hash) (candidates : list hash) : list hash * list hash :=
  match candidates with
  | [] => ([], [])
  | c :: rest =>
      if decide (kcluster k ({[c]} ∪ S)) then
        let '(blues, reds) := greedy k ({[c]} ∪ S) rest in (c :: blues, reds)
      else
        let '(blues, reds) := greedy k S rest in (blues, c :: reds)
  end.
End spec.

(** The blue blocks of the past of a block, along its selected parents. *)
Fixpoint blue_set (V : gmap hash SahyadriConsensusData) (G : list insertion) (x : hash) : gset hash :=
  match G with
  | [] => ∅
  | b :: G' =>
      if bool_decide (x = in_block b) then
        list_to_set (mergeset_blues (data_at V x)) ∪ blue_set V G' (in_selected_parent b)
      else blue_set V G' x
  end.

Fixpoint mergeset_of (G : list insertion) (x : hash) : list hash :=
  match G with
  | [] => []
  | b :: G' => if bool_decide (x = in_block b) then in_mergeset b else mergeset_of G' x
  end.

Fixpoint sum_works (wk : hash -> Z) (l : list hash) : Z :=
  match l with [] => 0 | x :: l' => wk x + sum_works wk l' end.

(** The sizes recorded with a block: exact on the blocks with an entry, and the
    blocks without one have no blue block of the mergeset in their anticone. *)
Record sizes_exact (G : list insertion) (sizes : gmap hash Z) (blues : list hash) (B : gset hash) : Prop := {
  sz_some : forall x n, sizes !! x = Some n -> x ∈ B /\ n = Z.of_nat (size (anticone_in G x B));
  sz_none : forall x, x ∈ B -> sizes !! x = None -> forall y, y ∈ blues -> y <> x /\ anti G x y = false;
}.

(** The data of a block other than the genesis. *)
Record block_data_ok (G : list insertion) (V : gmap hash SahyadriConsensusData) (k : Z) (wk : hash -> Z) (p : hash) : Prop := {
  bd_selected : selected_parent (data_at V p) = selected_of G p;
  bd_max : forall q, q ∈ parents_of G p -> q = selected_of G p \/ key_lt V q (selected_of G p);
  bd_order : exists L, L ≡ₚ mergeset_of G p /\ StronglySorted (key_lt V) L /\
    mergeset_blues (data_at V p) = selected_of G p :: (greedy G k ({[selected_of G p]} ∪ blue_set V G (selected_of G p)) L).1 /\
    mergeset_reds (data_at V p) = (greedy G k ({[selected_of G p]} ∪ blue_set V G (selected_of G p)) L).2;
  bd_score : blue_score (data_at V p) = Z.of_nat (size (blue_set V G p));
  bd_work_ok : limbs_ok (blue_work (data_at V p)) /\ length (blue_work (data_at V p)) = 3%nat;
  bd_work : work_of V p = work_of V (selected_of G p) + sum_works wk (mergeset_blues (data_at V p));
  bd_sizes : sizes_exact G (blues_anticone_sizes (data_at V p)) (mergeset_blues (data_at V p)) (blue_set V G p);
  bd_cluster : kcluster G k (blue_set V G p);
}.

(** The data of the blocks of a history. *)
Record ghost_ok (g : hash) (G : list insertion) (V : gmap hash SahyadriConsensusData) (k : Z) (wk : hash -> Z) : Prop := {
  go_dom : forall x, x ∈ known G <-> is_Some (V !! x);
  go_origin : V !! ORIGIN = Some origin_sahyadri_consensus_data;
  go_genesis : V !! g = Some genesis_sahyadri_consensus_data;
  go_blocks : forall p, p ∈ blocks_of G -> p <> g -> block_data_ok G V k wk p;
}.

Lemma sum_works_nonneg wk l : (forall x, x ∈ l -> 0 <= wk x) -> 0 <= sum_works wk l.
Proof.
  induction l as [|x l IH]; intros Hl; cbn; [done|]. pose proof (Hl x ltac:(set_solver)). specialize (IH ltac:(set_solver)). lia.
Qed.

(** * The notions do not change when the history grows *)

Lemma data_at_insert V h d x : x <> h -> data_at (<[h := d]> V) x = data_at V x.
Proof. intros Hne. unfold data_at. by rewrite lookup_insert_ne. Qed.

Lemma data_at_new V h d : data_at (<[h := d]> V) h = d.
Proof. unfold data_at. by rewrite lookup_insert_eq. Qed.

Section grow.
Context (G : list insertion) (b : insertion) (Hv : valid_insertion G b) (HG : valid_history G).

Lemma known_ne x : x ∈ known G -> x <> in_block b.
Proof. intros Hx ->. by apply (vi_new _ _ Hv). Qed.

Lemma anti_grow x y : x ∈ known G -> y ∈ known G -> anti (b :: G) x y = anti G x y.
Proof. intros Hx Hy. unfold anti. by rewrite !(reaches_fresh G b _ _ Hv). Qed.

Lemma anticone_grow x S : x ∈ known G -> (forall y, y ∈ S -> y ∈ known G) -> anticone_in (b :: G) x S = anticone_in G x S.
Proof.
  intros Hx HS. unfold anticone_in. apply set_eq. intros y. rewrite !elem_of_filter. split; intros [Ha Hy]; (split; [|done]).
  - by rewrite anti_grow in Ha by auto.
  - by rewrite anti_grow by auto.
Qed.

Lemma kcluster_grow k S : (forall y, y ∈ S -> y ∈ known G) -> kcluster (b :: G) k S <-> kcluster G k S.
Proof. intros HS. unfold kcluster, set_Forall. split; intros H x Hx; specialize (H x Hx); by rewrite anticone_grow in * by auto. Qed.

Lemma greedy_grow k S L : (forall y, y ∈ S -> y ∈ known G) -> (forall y, y ∈ L -> y ∈ known G) ->
  greedy (b :: G) k S L = greedy G k S L.
Proof.
  revert S. induction L as [|c L IH]; intros S HS HL; [done|]. cbn. assert (c ∈ known G) by (apply HL; set_solver).
  assert (HS' : forall y, y ∈ {[c]} ∪ S -> y ∈ known G) by set_solver.
  assert (HL' : forall y, y ∈ L -> y ∈ known G) by set_solver. rewrite (IH _ HS' HL'), (IH _ HS HL').
  destruct (decide (kcluster (b :: G) k _)) as [Hc|Hc]; rewrite kcluster_grow in Hc by done; destruct (decide (kcluster G k _)); done.
Qed.

Lemma parents_of_grow x : x ∈ known G -> parents_of (b :: G) x = parents_of G x.
Proof. intros Hx. cbn. by rewrite bool_decide_false by (by apply known_ne). Qed.

Lemma selected_of_grow x : x ∈ known G -> selected_of (b :: G) x = selected_of G x.
Proof. intros Hx. cbn. by rewrite bool_decide_false by (by apply known_ne). Qed.

Lemma mergeset_of_grow x : x ∈ known G -> mergeset_of (b :: G) x = mergeset_of G x.
Proof. intros Hx. cbn. by rewrite bool_decide_false by (by apply known_ne). Qed.

Lemma blue_set_agree V V' x : (forall y, y ∈ known G -> data_at V' y = data_at V y) -> x ∈ known G ->
  blue_set V' G x = blue_set V G x.
Proof.
  clear Hv b. revert x. induction G as [|c G' IH]; intros x HV Hx; [done|]. destruct HG as [Hc HG']. cbn.
  assert (HV' : forall y, y ∈ known G' -> data_at V' y = data_at V y) by (intros y Hy; apply HV; by right).
  cbn [known] in Hx. case_bool_decide.
  - rewrite HV by done. f_equal. apply IH; [done..|]. apply (vi_parents _ _ Hc), (vi_selected _ _ Hc).
  - apply IH; [done..|]. by apply elem_of_cons in Hx as [?|?].
Qed.

Lemma blue_set_grow V d x : x ∈ known G -> blue_set (<[in_block b := d]> V) (b :: G) x = blue_set V G x.
Proof.
  intros Hx. cbn. rewrite bool_decide_false by (by apply known_ne). apply blue_set_agree; [|done].
  intros y Hy. by apply data_at_insert, known_ne.
Qed.

Lemma key_lt_agree V d x y : x ∈ known G -> y ∈ known G -> key_lt (<[in_block b := d]> V) x y <-> key_lt V x y.
Proof. intros Hx Hy. unfold key_lt, work_of. by rewrite !data_at_insert by (by apply known_ne). Qed.
End grow.

(** * Facts on the blocks of a history *)

Section facts.
Context (G : list insertion) (HG : valid_history G).

Lemma block_known x : x ∈ blocks_of G -> x ∈ known G.
Proof. intros Hx. apply known_blocks. by right. Qed.

Lemma origin_known : ORIGIN ∈ known G.
Proof. apply known_blocks. by left. Qed.

Lemma origin_below x : x ∈ known G -> reaches G ORIGIN x = true.
Proof.
  intros Hx. pattern x. eapply (history_ind G _ HG); [..|exact Hx].
  - apply reaches_refl; [done|apply origin_known].
  - intros y Hy IH. pose proof (selected_parent_of G HG y Hy) as Hs. apply (reaches_unfold G HG); [by apply block_known|].
    right. exists (selected_of G y). split; [done|]. by apply IH.
Qed.

Lemma blue_set_unfold V p : p ∈ blocks_of G ->
  blue_set V G p = list_to_set (mergeset_blues (data_at V p)) ∪ blue_set V G (selected_of G p).
Proof.
  clear -HG. induction G as [|b G' IH]; intros Hp; [by apply elem_of_nil in Hp|]. destruct HG as [Hv HG'].
  unfold blocks_of in Hp. cbn [map] in Hp. apply elem_of_cons in Hp as [->|Hp]; cbn.
  - rewrite !bool_decide_true by done. f_equal. rewrite bool_decide_false; [done|]. intros E. apply (vi_new _ _ Hv). rewrite <-E.
    apply (vi_parents _ _ Hv), (vi_selected _ _ Hv).
  - assert (Hk : p ∈ known G') by (apply known_blocks; by right).
    rewrite !(bool_decide_false (p = in_block b)) by (intros ->; by apply (vi_new _ _ Hv)).
    rewrite bool_decide_false; [by apply IH|]. intros E. apply (vi_new _ _ Hv). rewrite <-E.
    apply (parents_known G' HG' p). by apply selected_parent_of.
Qed.

Lemma mergeset_of_spec p : p ∈ blocks_of G -> NoDup (mergeset_of G p) /\
  forall x, x ∈ mergeset_of G p <-> x <> p /\ reaches G x p = true /\ reaches G x (selected_of G p) = false.
Proof.
  clear -HG. induction G as [|b G' IH]; intros Hp; [by apply elem_of_nil in Hp|]. destruct HG as [Hv HG'].
  unfold blocks_of in Hp. cbn [map] in Hp. apply elem_of_cons in Hp as [->|Hp].
  - cbn [mergeset_of selected_of]. rewrite !bool_decide_true by done. split; [apply (vi_nodup _ _ Hv)|]. intros x.
    assert (Hs : in_selected_parent b ∈ known G') by apply (vi_parents _ _ Hv), (vi_selected _ _ Hv).
    rewrite (vi_mergeset _ _ Hv), (reaches_fresh G' b x _ Hv Hs). cbn [reaches]. rewrite bool_decide_true by done.
    rewrite orb_true_iff, bool_decide_eq_true. split.
    + intros (Hx & He & Hn). split_and!; [|by right|done]. intros ->. by apply (vi_new _ _ Hv).
    + intros (Hne & [?|He] & Hn); [done|]. split_and!; [|done..]. apply existsb_exists in He as (q & _ & Hr).
      exact (proj1 (reaches_known _ _ _ HG' Hr)).
  - assert (Hk : p ∈ known G') by (apply known_blocks; by right). rewrite (mergeset_of_grow G' b Hv p Hk), (selected_of_grow G' b Hv p Hk).
    destruct (IH HG' Hp) as [Hnd Hm]. split; [done|]. intros x. rewrite Hm, !(reaches_fresh G' b x _ Hv); [done| |done].
    apply (parents_known G' HG' p). by apply selected_parent_of.
Qed.

Lemma greedy_perm k S L : (greedy G k S L).1 ++ (greedy G k S L).2 ≡ₚ L.
Proof.
  revert S. induction L as [|c L IH]; intros S; [done|]. cbn. destruct (decide _).
  - specialize (IH ({[c]} ∪ S)). destruct (greedy G k _ L) as [bs rs]. cbn in *. by rewrite IH.
  - specialize (IH S). destruct (greedy G k S L) as [bs rs]. cbn in *. by rewrite <-Permutation_middle, IH.
Qed.

(** A block of a mergeset is neither the origin nor below the selected parent, and the
    selected parent is in its anticone when no parent is below another one. *)
Lemma mergeset_block p x : p ∈ blocks_of G -> x ∈ mergeset_of G p -> x ∈ blocks_of G.
Proof.
  intros Hp Hx. apply (mergeset_of_spec p Hp) in Hx as (Hne & Hr & Hn).
  pose proof (proj1 (reaches_known _ _ _ HG Hr)) as Hk. apply known_blocks in Hk as [->|?]; [|done].
  rewrite origin_below in Hn; [done|]. eapply parents_known; [done|]. by apply selected_parent_of.
Qed.
End facts.

Section ghost_facts.
Context (g : hash) (G : list insertion) (V : gmap hash SahyadriConsensusData) (k : Z) (wk : hash -> Z).
Context (HG : valid_history G) (Hroot : rooted g G) (Hgo : ghost_ok g G V k wk).

Lemma data_genesis : data_at V g = genesis_sahyadri_consensus_data.
Proof. unfold data_at. by rewrite (go_genesis _ _ _ _ _ Hgo). Qed.

Lemma view_data x : x ∈ known G -> V !! x = Some (data_at V x).
Proof. intros Hx. apply (go_dom _ _ _ _ _ Hgo) in Hx as [d Hd]. unfold data_at. by rewrite Hd. Qed.

Lemma genesis_selected : selected_of G g = ORIGIN.
Proof.
  clear -HG Hroot. induction G as [|b [|c G'] IH]; [done|..].
  - cbn in Hroot. subst b. cbn. by rewrite bool_decide_true.
  - destruct Hroot as [_ Hr], HG as [Hv HG']. rewrite (selected_of_grow (c :: G') b Hv); [by apply IH|].
    apply block_known. by apply rooted_genesis.
Qed.

Lemma blue_set_origin : blue_set V G ORIGIN = ∅.
Proof.
  clear -HG. induction G as [|b G' IH]; [done|]. destruct HG as [Hv HG']. cbn. rewrite bool_decide_false; [by apply IH|].
  intros E. apply (vi_new _ _ Hv). rewrite <-E. apply origin_known.
Qed.

Lemma blue_set_genesis : blue_set V G g = ∅.
Proof.
  rewrite (blue_set_unfold G HG V g) by (by apply rooted_genesis). rewrite data_genesis, genesis_selected, blue_set_origin. cbn. set_solver.
Qed.

Lemma blues_members p x : p ∈ blocks_of G -> p <> g -> x ∈ mergeset_blues (data_at V p) -> x = selected_of G p \/ x ∈ mergeset_of G p.
Proof.
  intros Hp Hne Hx. destruct (bd_order _ _ _ _ _ (go_blocks _ _ _ _ _ Hgo p Hp Hne)) as (L & HL & _ & Hb & _).
  rewrite Hb in Hx. apply elem_of_cons in Hx as [?|Hx]; [by left|right]. rewrite <-HL.
  rewrite <-(greedy_perm G k ({[selected_of G p]} ∪ blue_set V G (selected_of G p)) L). set_solver.
Qed.

(** Blue blocks are blocks of the past. *)
Lemma blue_set_past p x : p ∈ blocks_of G -> x ∈ blue_set V G p -> x ∈ blocks_of G /\ x <> p /\ reaches G x p = true.
Proof.
  intros Hp. revert x. pattern p. eapply (chain_ind g G); [done..| | |exact Hp].
  - intros x. rewrite blue_set_genesis. by intros ?%elem_of_empty.
  - intros y Hy Hne IH x. rewrite (blue_set_unfold G HG V y Hy). destruct (rooted_parents g G y HG Hroot Hy Hne) as [_ Hsb].
    assert (Hsy : reaches G (selected_of G y) y = true).
    { apply (parent_below G HG); [by apply block_known|]. by apply selected_parent_of. }
    assert (Hsne : selected_of G y <> y).
    { intros E. clear -E HG Hy. induction G as [|b G' IH]; [by apply elem_of_nil in Hy|]. destruct HG as [Hv HG'].
      unfold blocks_of in Hy. cbn [map] in Hy. apply elem_of_cons in Hy as [->|Hy].
      - cbn in E. rewrite bool_decide_true in E by done. apply (vi_new _ _ Hv). rewrite <-E. apply (vi_parents _ _ Hv), (vi_selected _ _ Hv).
      - rewrite (selected_of_grow G' b Hv) in E by (by apply block_known). by apply IH. }
    rewrite elem_of_union, elem_of_list_to_set. intros [Hx|Hx].
    + apply (blues_members y x Hy Hne) in Hx as [->|Hx]; [done|]. split; [by apply (mergeset_block G HG y)|].
      apply (mergeset_of_spec G HG y Hy) in Hx as (? & ? & _). done.
    + apply IH in Hx as (Hb & Hxn & Hr). split; [done|]. split; [|by eapply (reaches_trans G HG)].
      intros ->. apply Hsne. by apply (reaches_antisym G HG).
Qed.

Lemma selected_below p : p ∈ blocks_of G -> reaches G (selected_of G p) p = true.
Proof. intros Hp. apply (parent_below G HG); [by apply block_known|]. by apply selected_parent_of. Qed.

Lemma blues_nodup p : p ∈ blocks_of G -> p <> g -> NoDup (mergeset_blues (data_at V p)).
Proof.
  intros Hp Hne. destruct (bd_order _ _ _ _ _ (go_blocks _ _ _ _ _ Hgo p Hp Hne)) as (L & HL & _ & -> & _).
  destruct (mergeset_of_spec G HG p Hp) as [Hnd Hm]. rewrite <-HL in Hnd.
  rewrite <-(greedy_perm G k ({[selected_of G p]} ∪ blue_set V G (selected_of G p)) L) in Hnd, HL.
  constructor; [|by apply NoDup_app in Hnd as [? _]]. intros Hin.
  assert (Hs : selected_of G p ∈ mergeset_of G p) by (rewrite <-HL; set_solver +Hin).
  apply Hm in Hs as (_ & _ & Hs). rewrite reaches_refl in Hs; [done|done|]. eapply parents_known; [done|]. by apply selected_parent_of.
Qed.

(** The blue blocks a block adds are not in the past of its selected parent. *)
Lemma blues_disjoint p x : p ∈ blocks_of G -> p <> g -> x ∈ mergeset_blues (data_at V p) -> x ∉ blue_set V G (selected_of G p).
Proof.
  intros Hp Hne Hx Hin. destruct (rooted_parents g G p HG Hroot Hp Hne) as [_ Hsb].
  apply (blue_set_past _ _ Hsb) in Hin as (_ & Hn & Hr). apply (blues_members p x Hp Hne) in Hx as [->|Hx]; [done|].
  apply (mergeset_of_spec G HG p Hp) in Hx as (_ & _ & Hx). congruence.
Qed.
End ghost_facts.

(** * Growing the store with the history *)

Section extend.
Context (g : hash) (G : list insertion) (V : gmap hash SahyadriConsensusData) (k : Z) (wk : hash -> Z).
Context (HG : valid_history G) (Hroot : rooted g G) (Hgo : ghost_ok g G V k wk).
Context (b : insertion) (Hv : valid_insertion G b) (d : SahyadriConsensusData).
Abbreviation V' := (<[in_block b := d]> V).

Lemma selected_known p : p ∈ blocks_of G -> selected_of G p ∈ known G.
Proof. intros Hp. eapply parents_known; [done|]. by apply selected_parent_of. Qed.

Lemma mergeset_known p x : p ∈ blocks_of G -> x ∈ mergeset_of G p -> x ∈ known G.
Proof. intros Hp Hx. apply block_known. by apply (mergeset_block G HG p). Qed.

Lemma blue_set_known p x : p ∈ blocks_of G -> x ∈ blue_set V G p -> x ∈ known G.
Proof. intros Hp Hx. apply block_known. by apply (blue_set_past g G V k wk HG Hroot Hgo p x Hp) in Hx as [? _]. Qed.

Lemma data_at_old x : x ∈ known G -> data_at V' x = data_at V x.
Proof. intros Hx. apply data_at_insert. by apply (known_ne G b Hv). Qed.

Lemma sizes_exact_grow sizes blues B : (forall x, x ∈ B -> x ∈ known G) -> (forall x, x ∈ blues -> x ∈ known G) ->
  sizes_exact G sizes blues B -> sizes_exact (b :: G) sizes blues B.
Proof.
  intros HB Hb [H1 H2]. split.
  - intros x n Hl. destruct (H1 x n Hl) as [Hx ->]. split; [done|]. by rewrite (anticone_grow G b Hv) by auto.
  - intros x Hx Hl y Hy. rewrite (anti_grow G b Hv) by auto. by apply H2.
Qed.

Lemma sorted_grow L : (forall x, x ∈ L -> x ∈ known G) -> StronglySorted (key_lt V) L -> StronglySorted (key_lt V') L.
Proof.
  intros HL Hs. induction Hs as [|a r Hs IH Ha]; constructor; [apply IH; set_solver +HL|]. rewrite Forall_forall in *. intros y Hy.
  apply (key_lt_agree G b Hv); [apply HL; set_solver +Hy..|]. by apply Ha.
Qed.

Lemma block_data_grow p : p ∈ blocks_of G -> p <> g -> block_data_ok G V k wk p -> block_data_ok (b :: G) V' k wk p.
Proof.
  intros Hp Hne [D1 D2 D3 D4 D5 D6 D7 D8]. pose proof (block_known G p Hp) as Hk. pose proof (selected_known p Hp) as Hs.
  pose proof (blues_members g G V k wk HG Hroot Hgo p) as Hbm. destruct (rooted_parents g G p HG Hroot Hp Hne) as [_ Hsb].
  assert (Hbk : forall x, x ∈ mergeset_blues (data_at V p) -> x ∈ known G).
  { intros x Hx. destruct (Hbm x Hp Hne Hx) as [->|Hm]; [done|]. by apply (mergeset_known p). }
  assert (HS0 : forall y, y ∈ {[selected_of G p]} ∪ blue_set V G (selected_of G p) -> y ∈ known G).
  { intros y [->%elem_of_singleton|Hy]%elem_of_union; [done|]. by apply (blue_set_known (selected_of G p)). }
  split; rewrite ?(selected_of_grow G b Hv), ?(parents_of_grow G b Hv), ?(mergeset_of_grow G b Hv) by done;
    rewrite ?(blue_set_grow G b Hv HG V d) by done; rewrite ?data_at_old by done; try done.
  - intros q Hq. destruct (D2 q Hq) as [->|?]; [by left|right]. apply (key_lt_agree G b Hv); [by eapply parents_known|done..].
  - destruct D3 as (L & HL & Hss & Hbl & Hrd). assert (HLk : forall x, x ∈ L -> x ∈ known G).
    { intros x Hx. apply (mergeset_known p); [done|]. by rewrite <-HL. }
    exists L. rewrite (greedy_grow G b Hv HG k _ L HS0 HLk). split_and!; [done|by apply sorted_grow|done..].
  - unfold work_of in *. rewrite !data_at_old by done. done.
  - apply sizes_exact_grow; [intros x; by apply blue_set_known|done..].
  - apply (kcluster_grow G b Hv); [intros x; by apply blue_set_known|done].
Qed.

Lemma ghost_grow : ORIGIN ∉ in_parents b -> block_data_ok (b :: G) V' k wk (in_block b) ->
  valid_history (b :: G) /\ rooted g (b :: G) /\ ghost_ok g (b :: G) V' k wk.
Proof.
  intros Ho Hnew. split_and!; [done|by apply rooted_cons|]. split.
  - intros x. cbn [known]. rewrite elem_of_cons, (go_dom _ _ _ _ _ Hgo). destruct (decide (x = in_block b)) as [->|Hne].
    + rewrite lookup_insert_eq. naive_solver.
    + rewrite lookup_insert_ne by done. naive_solver.
  - rewrite lookup_insert_ne; [apply (go_origin _ _ _ _ _ Hgo)|]. apply not_eq_sym, (known_ne G b Hv), origin_known.
  - rewrite lookup_insert_ne; [apply (go_genesis _ _ _ _ _ Hgo)|]. apply not_eq_sym, (known_ne G b Hv), block_known. by apply rooted_genesis.
  - intros p Hp Hne. unfold blocks_of in Hp. cbn [map] in Hp. apply elem_of_cons in Hp as [->|Hp]; [done|].
    apply block_data_grow; [done..|]. by apply (go_blocks _ _ _ _ _ Hgo).
Qed.
End extend.
