(* ===== verification/GhostdagColor.v ===== *)
(** The colouring of a mergeset: the walk over the recorded sizes finds the exact size
    of a blue anticone, the check of a candidate decides whether it keeps the blue set a
    k-cluster, and the loop over an ordered mergeset is the greedy colouring. *)

From S2P Require Import Prelude Access Interval Reach ReachTree ReachHistory Dag Uint UintCorrect Work Relations Ghostdag GhostdagStores GhostdagSpec.

(** The length of the chain of selected parents. *)
Fixpoint chain_depth (G : list insertion) (x : hash) : nat :=
  match G with
  | [] => O
  | b :: G' => if bool_decide (x = in_block b) then Datatypes.S (chain_depth G' (in_selected_parent b)) else chain_depth G' x
  end.

Lemma chain_depth_le G x : (chain_depth G x <= length G)%nat.
Proof. revert x. induction G as [|b G IH]; intros x; cbn; [done|]. case_bool_decide; [pose proof (IH (in_selected_parent b))|pose proof (IH x)]; lia. Qed.

Lemma chain_depth_unfold G x : valid_history G -> x ∈ blocks_of G -> chain_depth G x = Datatypes.S (chain_depth G (selected_of G x)).
Proof.
  induction G as [|b G IH]; intros HG Hx; [by apply elem_of_nil in Hx|]. destruct HG as [Hv HG].
  unfold blocks_of in Hx. cbn [map] in Hx. apply elem_of_cons in Hx as [->|Hx]; cbn.
  - rewrite !bool_decide_true by done. rewrite bool_decide_false; [done|]. intros E. apply (vi_new _ _ Hv). rewrite <-E.
    apply (vi_parents _ _ Hv), (vi_selected _ _ Hv).
  - assert (Hk : x ∈ known G) by (apply known_blocks; by right).
    rewrite !(bool_decide_false (x = in_block b)) by (intros ->; by apply (vi_new _ _ Hv)).
    rewrite bool_decide_false; [by apply IH|]. intros E. apply (vi_new _ _ Hv). rewrite <-E.
    apply (parents_known G HG x). by apply selected_parent_of.
Qed.

Section anticone.
Context (G : list insertion).

Lemma anti_sym x y : anti G x y = anti G y x.
Proof. unfold anti. apply andb_comm. Qed.

Lemma anticone_add x c S : c ∉ S -> anticone_in G x ({[c]} ∪ S) = if anti G x c then {[c]} ∪ anticone_in G x S else anticone_in G x S.
Proof.
  intros Hc. unfold anticone_in. apply set_eq. intros y. destruct (anti G x c) eqn:E.
  - rewrite elem_of_filter, !elem_of_union, elem_of_filter, elem_of_singleton. split; [intros [? [->|?]]; auto|]. intros [->|[? ?]]; auto.
  - rewrite !elem_of_filter, elem_of_union, elem_of_singleton. split; [|intros [? ?]; auto]. intros [Ha [->|?]]; [congruence|auto].
Qed.

Lemma anticone_add_size x c S : c ∉ S ->
  Z.of_nat (size (anticone_in G x ({[c]} ∪ S))) = Z.of_nat (size (anticone_in G x S)) + (if anti G x c then 1 else 0).
Proof.
  intros Hc. rewrite anticone_add by done. destruct (anti G x c); [|lia]. rewrite size_union, size_singleton; [lia|].
  unfold anticone_in. set_solver.
Qed.

Lemma anticone_mono x S S' : S ⊆ S' -> (size (anticone_in G x S) <= size (anticone_in G x S'))%nat.
Proof. intros HS. apply subseteq_size. unfold anticone_in. set_solver. Qed.

(** A block with no entry is below the mergeset and its anticone is older. *)
Lemma sizes_none sizes blues R x : sizes_exact G sizes blues (list_to_set blues ∪ R) -> x ∈ (list_to_set blues : gset hash) ∪ R ->
  sizes !! x = None -> x ∈ R /\ anticone_in G x (list_to_set blues ∪ R) = anticone_in G x R.
Proof.
  intros [_ Hn] Hx Hs. specialize (Hn x Hx Hs). assert (x ∈ R).
  { apply elem_of_union in Hx as [Hx%elem_of_list_to_set|?]; [|done]. by destruct (Hn x Hx). }
  split; [done|]. unfold anticone_in. apply set_eq. intros y. rewrite !elem_of_filter, elem_of_union, elem_of_list_to_set.
  split; [|naive_solver]. intros [Ha [Hy|?]]; [|done]. destruct (Hn y Hy) as [_ E]. congruence.
Qed.
End anticone.

Section color.
Context {T S U W : Type} `{GS : SahyadriConsensusStore T, !SahyadriConsensusStoreLaws T, RelationsStore S, RVS : ReachabilityService U, HeaderBits W}.
Context (m : SahyadriConsensusManager T S U W) (G : list insertion) (wk : hash -> Z).
Abbreviation V := (gs_view (m_store m)).
Abbreviation g := (m_genesis_hash m).
Abbreviation k := (m_k m).
Context (HG : valid_history G) (Hroot : rooted g G) (Hk : 0 <= k < 65535).
Context (Hok : gs_ok (m_store m)) (Hgo : ghost_ok g G V k wk).
Context (Hreach : forall x y, x ∈ known G -> y ∈ known G -> rv_is_dag_ancestor_of (m_reachability m) x y = Ok (reaches G x y)).

(** * The sizes of the blue anticones *)

Lemma anticone_size_loop_run p x fuel : p ∈ blocks_of G -> x ∈ blue_set V G p -> (chain_depth G p <= fuel)%nat ->
  anticone_size_loop fuel m x (blues_anticone_sizes (data_at V p)) (selected_parent (data_at V p)) =
  Ok (Z.of_nat (size (anticone_in G x (blue_set V G p)))).
Proof.
  intros Hp. revert fuel. pattern p. eapply (chain_ind g G); [done..| | |exact Hp].
  - intros fuel. rewrite (blue_set_genesis g G V k wk HG Hroot Hgo). by intros ?%elem_of_empty.
  - intros y Hy Hne IH fuel Hx Hf. pose proof (go_blocks _ _ _ _ _ Hgo y Hy Hne) as Hd.
    destruct (rooted_parents g G y HG Hroot Hy Hne) as [_ Hsb]. rewrite (chain_depth_unfold G y HG Hy) in Hf.
    pose proof (bd_sizes _ _ _ _ _ Hd) as Hsz. rewrite (blue_set_unfold G HG _ y Hy) in Hx, Hsz |- *.
    destruct (blues_anticone_sizes (data_at V y) !! x) as [n|] eqn:E.
    { destruct (sz_some _ _ _ _ Hsz x n E) as [_ ->]. destruct fuel; cbn; by rewrite E. }
    destruct (sizes_none _ _ _ _ _ Hsz Hx E) as [Hr ->]. rewrite (bd_selected _ _ _ _ _ Hd).
    assert (Hsg : selected_of G y <> g).
    { intros E'. rewrite E', (blue_set_genesis g G V k wk HG Hroot Hgo) in Hr. by apply elem_of_empty in Hr. }
    destruct fuel as [|fuel]; [lia|]. cbn. rewrite E. rewrite !bool_decide_false; [|by apply (block_not_origin G HG)|done]. cbn.
    pose proof (view_data g G V k wk Hgo _ (block_known G _ Hsb)) as HV.
    rewrite (law_sizes _ _ _ Hok HV). cbn. rewrite (law_selected_parent _ _ _ Hok HV). cbn. apply IH; [done|lia].
Qed.

(** The blue set of the data under construction. *)
Definition blues_of (d : SahyadriConsensusData) : gset hash := list_to_set (mergeset_blues d) ∪ blue_set V G (selected_parent d).

Lemma blue_anticone_size_run d x fuel : selected_parent d ∈ blocks_of G ->
  sizes_exact G (blues_anticone_sizes d) (mergeset_blues d) (blues_of d) -> x ∈ blues_of d -> (length G < fuel)%nat ->
  blue_anticone_size fuel m x d = Ok (Z.of_nat (size (anticone_in G x (blues_of d)))).
Proof.
  intros Hsp Hsz Hx Hf. unfold blue_anticone_size. destruct (blues_anticone_sizes d !! x) as [n|] eqn:E.
  { destruct (sz_some _ _ _ _ Hsz x n E) as [_ ->]. destruct fuel; cbn; by rewrite E. }
  destruct (sizes_none _ _ _ _ _ Hsz Hx E) as [Hr Ha]. unfold blues_of at 1. rewrite Ha.
  assert (Hsg : selected_parent d <> g).
  { intros E'. rewrite E', (blue_set_genesis g G V k wk HG Hroot Hgo) in Hr. by apply elem_of_empty in Hr. }
  destruct fuel as [|fuel]; [lia|]. cbn. rewrite E. rewrite !bool_decide_false; [|by apply (block_not_origin G HG)|done]. cbn.
  pose proof (view_data g G V k wk Hgo _ (block_known G _ Hsp)) as HV.
  rewrite (law_sizes _ _ _ Hok HV). cbn. rewrite (law_selected_parent _ _ _ Hok HV). cbn.
  apply anticone_size_loop_run; [done..|]. pose proof (chain_depth_le G (selected_parent d)). lia.
Qed.

(** * The check of a candidate *)

Section candidate.
Context (d : SahyadriConsensusData) (c : hash) (fuel : nat).
Abbreviation B := (blues_of d).
Context (Hsp : selected_parent d ∈ blocks_of G) (Hsz : sizes_exact G (blues_anticone_sizes d) (mergeset_blues d) B).
Context (HB : forall y, y ∈ B -> y ∈ blocks_of G /\ reaches G c y = false) (Hcl : kcluster G k B).
Context (Hc : c ∈ blocks_of G) (HcB : c ∉ B) (Hfuel : (length G < fuel)%nat).

(** What is known of the candidate after the blue peers [Q]. *)
Record peers_inv (Q : gset hash) (sizes : gmap hash Z) (count : Z) : Prop := {
  pi_count : count = Z.of_nat (size (anticone_in G c Q));
  pi_le : count <= k;
  pi_sizes : forall x n, sizes !! x = Some n <-> x ∈ anticone_in G c Q /\ n = Z.of_nat (size (anticone_in G x B));
  pi_lt : forall x, x ∈ anticone_in G c Q -> Z.of_nat (size (anticone_in G x B)) < k;
}.

Lemma peer_anti y : y ∈ B -> anti G c y = negb (reaches G y c).
Proof. intros Hy. unfold anti. by rewrite (proj2 (HB y Hy)). Qed.

Lemma peers_inv_below Q sizes count P : (forall y, y ∈ P -> y ∈ B /\ reaches G y c = true) ->
  peers_inv Q sizes count -> peers_inv (Q ∪ P) sizes count.
Proof.
  intros HP [H1 H2 H3 H4]. assert (E : anticone_in G c (Q ∪ P) = anticone_in G c Q).
  { unfold anticone_in. apply set_eq. intros y. rewrite !elem_of_filter, elem_of_union. split; [|naive_solver].
    intros [Ha [?|Hy]]; [done|]. destruct (HP y Hy) as [Hb Hr]. rewrite peer_anti, Hr in Ha by done. done. }
  split; rewrite ?E; done.
Qed.

Lemma too_many Q : Q ⊆ B -> k < Z.of_nat (size (anticone_in G c Q)) -> ~ kcluster G k ({[c]} ∪ B).
Proof.
  intros HQ Hlt Hk'. specialize (Hk' c ltac:(set_solver +)). cbn in Hk'. rewrite anticone_add_size in Hk' by done.
  pose proof (anticone_mono G c Q B HQ). destruct (anti G c c); lia.
Qed.

Lemma peer_full y : y ∈ B -> anti G c y = true -> Z.of_nat (size (anticone_in G y B)) = k -> ~ kcluster G k ({[c]} ∪ B).
Proof.
  intros Hy Ha Hn Hk'. specialize (Hk' y ltac:(set_solver +Hy)). cbn in Hk'. rewrite anticone_add_size in Hk' by done.
  rewrite anti_sym, Ha in Hk'. lia.
Qed.

Lemma check_peers_run peers Q sizes count : NoDup peers -> (forall y, y ∈ peers -> y ∈ B /\ y ∉ Q) -> Q ⊆ B ->
  peers_inv Q sizes count ->
  exists st sizes' count', check_peers fuel m d c peers sizes count = Ok (st, sizes', count') /\
  match st with
  | StateBlue => False
  | StateRed => ~ kcluster G k ({[c]} ∪ B)
  | StatePending => peers_inv (Q ∪ list_to_set peers) sizes' count'
  end.
Proof.
  intros Hnd. revert Q sizes count. induction Hnd as [|y peers Hy Hnd IH]; intros Q sizes count Hp HQ Hi.
  { exists StatePending, sizes, count. split; [done|]. by rewrite list_to_set_nil, union_empty_r_L. }
  assert (Hyb : y ∈ B) by (apply Hp; set_solver +). destruct (HB y Hyb) as [Hyk _].
  assert (HQ' : Q ∪ list_to_set (y :: peers) = Q ∪ {[y]} ∪ list_to_set peers) by (rewrite list_to_set_cons; set_solver +).
  assert (Hp' : forall z, z ∈ peers -> z ∈ B /\ z ∉ Q ∪ {[y]}).
  { intros z Hz. destruct (Hp z ltac:(set_solver +Hz)). split; [done|]. set_solver. }
  cbn [check_peers]. rewrite Hreach by (by apply block_known). cbn [mbind result_bind]. rewrite HQ'.
  destruct (reaches G y c) eqn:Er.
  { apply (IH (Q ∪ {[y]})); [done|set_solver +HQ Hyb|]. apply peers_inv_below; [|done]. intros z ->%elem_of_singleton. done. }
  assert (Ha : anti G c y = true) by (by rewrite peer_anti, Er).
  rewrite (blue_anticone_size_run d y fuel Hsp Hsz Hyb Hfuel). cbn [mbind result_bind].
  set (n := Z.of_nat (size (anticone_in G y B))). destruct Hi as [Hi1 Hi2 Hi3 Hi4].
  assert (HyQ : y ∉ Q) by (apply Hp; set_solver +).
  assert (Hcnt : Z.of_nat (size (anticone_in G c (Q ∪ {[y]}))) = count + 1).
  { rewrite (union_comm_L Q), anticone_add_size by done. rewrite Ha. lia. }
  rewrite (wrap_small 16 (count + 1)) by lia. destruct (Z.ltb_spec k (count + 1)) as [Hlt|Hle].
  { do 3 eexists. split; [done|]. apply (too_many (Q ∪ {[y]})); [set_solver +HQ Hyb|lia]. }
  destruct (Z.eqb_spec n k) as [En|Hne]; [do 3 eexists; split; [done|]; by apply (peer_full y)|].
  pose proof (Hcl y Hyb) as Hyn. cbn in Hyn. fold n in Hyn. rewrite (proj2 (Z.ltb_ge k n)) by lia.
  assert (Ea : anticone_in G c (Q ∪ {[y]}) = {[y]} ∪ anticone_in G c Q) by (by rewrite (union_comm_L Q), anticone_add, Ha).
  apply (IH (Q ∪ {[y]})); [done|set_solver +HQ Hyb|]. split; [lia|lia|rewrite Ea..].
  - intros x n'. destruct (decide (x = y)) as [->|Hxy].
    + rewrite lookup_insert_eq. split; [intros [= <-]; split; [set_solver +|done]|]. by intros [_ ->].
    + rewrite lookup_insert_ne, Hi3 by done. set_solver +Hxy.
  - intros x [->%elem_of_singleton|Hx]%elem_of_union; [lia|auto].
Qed.

Definition colored (out : ColoringOutput) : Prop :=
  match out with Red => ~ kcluster G k ({[c]} ∪ B) | Blue count sizes => peers_inv B sizes count end.

Lemma candidate_loop_run p Q sizes count steps : p ∈ blocks_of G -> B = Q ∪ blue_set V G p -> Q ## blue_set V G p ->
  peers_inv Q sizes count -> (chain_depth G p <= steps)%nat ->
  exists out, candidate_loop steps fuel m d c (Some p) (data_at V p) sizes count = Ok out /\ colored out.
Proof.
  intros Hp. revert Q sizes count steps. pattern p. eapply (chain_ind g G); [done..| | |exact Hp].
  - intros Q sizes count steps EB _ Hi Hst. rewrite (chain_depth_unfold G g HG) in Hst by (by apply rooted_genesis).
    destruct steps as [|steps]; [lia|]. cbn. rewrite Hreach; [|apply block_known; by apply rooted_genesis|by apply block_known].
    rewrite (genesis_below g G c) by done. cbn. eexists. split; [done|]. cbn. rewrite EB.
    by rewrite (blue_set_genesis g G V k wk HG Hroot Hgo), union_empty_r_L.
  - intros y Hy Hne IH Q sizes count steps EB Hdis Hi Hst. rewrite (chain_depth_unfold G y HG Hy) in Hst.
    destruct steps as [|steps]; [lia|]. cbn. rewrite Hreach by (by apply block_known). cbn.
    destruct (rooted_parents g G y HG Hroot Hy Hne) as [_ Hsb]. destruct (reaches G y c) eqn:Eyc.
    { eexists. split; [done|]. cbn. rewrite EB. apply peers_inv_below; [|done]. intros z Hz.
      split; [rewrite EB; set_solver +Hz|]. apply (blue_set_past g G V k wk HG Hroot Hgo y z Hy) in Hz as (_ & _ & Hz).
      by eapply (reaches_trans G HG). }
    rewrite (blue_set_unfold G HG V y Hy) in EB, Hdis.
    destruct (check_peers_run (mergeset_blues (data_at V y)) Q sizes count) as (st & sizes' & count' & -> & Hst'); [..|done|].
    { by apply (blues_nodup g G V k wk HG Hgo). }
    { intros z Hz. rewrite EB. set_solver +Hz Hdis. }
    { rewrite EB. set_solver +. }
    cbn. destruct st; [done|by eexists|].
    rewrite (bd_selected _ _ _ _ _ (go_blocks _ _ _ _ _ Hgo y Hy Hne)).
    rewrite (law_data _ _ _ Hok (view_data g G V k wk Hgo _ (block_known G _ Hsb))). cbn.
    eapply IH; [| |exact Hst'|lia].
    + rewrite EB. set_solver +.
    + intros z Hz Hz'. apply elem_of_union in Hz as [Hz|Hz%elem_of_list_to_set]; [set_solver +Hz Hz' Hdis|].
      by apply (blues_disjoint g G V k wk HG Hroot Hgo y z Hy Hne Hz).
Qed.

(** The blue blocks after the selected parent are in its anticone. *)
Context (bs : list hash) (Hblues : mergeset_blues d = selected_parent d :: bs) (Hnd : NoDup (mergeset_blues d)).
Context (Hbs : forall y, y ∈ c :: bs -> reaches G y (selected_parent d) = false /\ reaches G (selected_parent d) y = false).

Lemma many_blues : Z.of_nat (length bs) <= k /\ (Z.of_nat (length bs) = k -> ~ kcluster G k ({[c]} ∪ B)).
Proof.
  assert (Hsub : list_to_set bs ⊆ anticone_in G (selected_parent d) B).
  { intros y Hy%elem_of_list_to_set. unfold anticone_in. apply elem_of_filter. split.
    - unfold anti. destruct (Hbs y ltac:(set_solver +Hy)) as [-> ->]. done.
    - unfold blues_of. rewrite Hblues. set_solver +Hy. }
  assert (HspB : selected_parent d ∈ B) by (unfold blues_of; rewrite Hblues; set_solver +).
  apply subseteq_size in Hsub. rewrite size_list_to_set in Hsub by (rewrite Hblues in Hnd; by apply NoDup_cons in Hnd as [_ ?]).
  pose proof (Hcl _ HspB) as Hle. cbn in Hle. split; [lia|]. intros Hlen. apply (peer_full (selected_parent d)); [done| |lia].
  unfold anti. destruct (Hbs c ltac:(set_solver +)) as [-> ->]. done.
Qed.

Lemma check_blue_candidate_run : exists out, check_blue_candidate fuel m d c = Ok out /\ colored out.
Proof.
  destruct many_blues as [Hlen Hfull]. unfold check_blue_candidate. rewrite Hblues. cbn [length].
  rewrite !wrap_small by lia. destruct (Z.eqb_spec (Z.of_nat (Datatypes.S (length bs))) (k + 1)) as [E|E].
  { eexists. split; [done|]. apply Hfull. lia. }
  enough (Hgen : forall steps, steps = fuel -> exists out, candidate_loop steps fuel m d c None d ∅ 0 = Ok out /\ colored out) by (by apply Hgen).
  intros [|steps] Est; [lia|]. cbn.
  destruct (check_peers_run (mergeset_blues d) ∅ ∅ 0) as (st & sizes' & count' & -> & Hst'); [done|..].
  { intros z Hz. split; [|set_solver +]. unfold blues_of. set_solver +Hz. }
  { set_solver +. }
  { assert (E0 : anticone_in G c ∅ = ∅) by (unfold anticone_in; set_solver +).
    split; rewrite ?E0; [by rewrite size_empty|lia|set_solver +..]. }
  cbn. destruct st; [done|by eexists|]. rewrite union_empty_l_L in Hst'.
  rewrite (law_data _ _ _ Hok (view_data g G V k wk Hgo _ (block_known G _ Hsp))). cbn.
  eapply candidate_loop_run; [done| | |exact Hst'|].
  - done.
  - intros z Hz%elem_of_list_to_set Hz'. apply (blue_set_past g G V k wk HG Hroot Hgo _ z Hsp) in Hz' as (_ & Hne & Hr).
    rewrite Hblues in Hz. apply elem_of_cons in Hz as [->|Hz]; [done|]. destruct (Hbs z ltac:(set_solver +Hz)). congruence.
  - pose proof (chain_depth_le G (selected_parent d)). lia.
Qed.

(** * A blue candidate joins the blue set *)

Lemma candidate_self : anti G c c = false.
Proof. unfold anti. by rewrite (reaches_refl G HG c) by (by apply block_known). Qed.

Lemma blue_cluster sizes count : peers_inv B sizes count -> kcluster G k ({[c]} ∪ B).
Proof.
  intros [H1 H2 H3 H4] x Hx. cbn. rewrite anticone_add_size by done. apply elem_of_union in Hx as [->%elem_of_singleton|Hx].
  - rewrite candidate_self. lia.
  - pose proof (Hcl x Hx) as Hle. cbn in Hle. destruct (anti G x c) eqn:E; [|lia].
    specialize (H4 x). unfold anticone_in in H4 at 1. rewrite elem_of_filter, anti_sym in H4. specialize (H4 (conj E Hx)). lia.
Qed.

Lemma blue_sizes sizes count : peers_inv B sizes count ->
  sizes_exact G (blues_anticone_sizes (add_blue d c count sizes)) (mergeset_blues d ++ [c]) ({[c]} ∪ B).
Proof.
  intros [H1 H2 H3 H4]. assert (Hm : forall x, x ∈ anticone_in G c B <-> x ∈ B /\ anti G x c = true).
  { intros x. unfold anticone_in. rewrite elem_of_filter, anti_sym. tauto. }
  split; cbn [blues_anticone_sizes add_blue].
  - intros x n Hl. apply lookup_union_Some_raw in Hl as [Hl|[Hn Hl]].
    + rewrite lookup_fmap in Hl. apply fmap_Some in Hl as (n' & Hl & ->). apply H3 in Hl as [Hx ->].
      specialize (H4 x Hx). apply Hm in Hx as [Hx Ha]. split; [set_solver +Hx|]. rewrite anticone_add_size, Ha by done.
      apply wrap_small. lia.
    + destruct (decide (x = c)) as [->|Hxc].
      * rewrite lookup_insert_eq in Hl. injection Hl as <-. split; [set_solver +|]. rewrite anticone_add_size, candidate_self by done. lia.
      * rewrite lookup_insert_ne in Hl by done. destruct (sz_some _ _ _ _ Hsz x n Hl) as [Hx ->]. split; [set_solver +Hx|].
        rewrite anticone_add_size by done. destruct (anti G x c) eqn:Ha; [|lia]. exfalso.
        assert (Hs : sizes !! x = Some (Z.of_nat (size (anticone_in G x B)))) by (apply H3; split; [by apply Hm|done]).
        by rewrite lookup_fmap, Hs in Hn.
  - intros x Hx Hl y Hy. apply lookup_union_None in Hl as [Hs Hl]. rewrite lookup_fmap, fmap_None in Hs.
    destruct (decide (x = c)) as [->|Hxc]; [by rewrite lookup_insert_eq in Hl|]. rewrite lookup_insert_ne in Hl by done.
    assert (HxB : x ∈ B) by set_solver +Hx Hxc. assert (Ha : anti G x c = false).
    { destruct (anti G x c) eqn:Ha; [|done]. exfalso. rewrite (proj2 (H3 x _) (conj (proj2 (Hm x) (conj HxB Ha)) eq_refl)) in Hs. done. }
    apply elem_of_app in Hy as [Hy| ->%list_elem_of_singleton]; [|done]. by apply (sz_none _ _ _ _ Hsz x HxB Hl y Hy).
Qed.
End candidate.

(** * The loop over the mergeset *)

Record working (d : SahyadriConsensusData) (bs : list hash) : Prop := {
  wg_sp : selected_parent d ∈ blocks_of G;
  wg_blues : mergeset_blues d = selected_parent d :: bs;
  wg_nodup : NoDup (mergeset_blues d);
  wg_anti : forall y, y ∈ bs -> y ∈ blocks_of G /\ reaches G y (selected_parent d) = false /\ reaches G (selected_parent d) y = false;
  wg_cluster : kcluster G k (blues_of d);
  wg_sizes : sizes_exact G (blues_anticone_sizes d) (mergeset_blues d) (blues_of d);
}.

Lemma working_blues d bs c : working d bs -> reaches G c (selected_parent d) = false ->
  (forall y, y ∈ bs -> reaches G c y = false) -> forall y, y ∈ blues_of d -> y ∈ blocks_of G /\ reaches G c y = false.
Proof.
  intros Hw Hc Hb y Hy. destruct Hw as [Hsp Hbl Hnd Ha _ _]. unfold blues_of in Hy. rewrite Hbl in Hy.
  apply elem_of_union in Hy as [Hy%elem_of_list_to_set|Hy].
  - apply elem_of_cons in Hy as [->|Hy]; [done|]. split; [apply (Ha y Hy)|auto].
  - apply (blue_set_past g G V k wk HG Hroot Hgo _ y Hsp) in Hy as (Hyb & _ & Hr). split; [done|].
    destruct (reaches G c y) eqn:E; [|done]. rewrite (reaches_trans G HG _ _ _ E Hr) in Hc. done.
Qed.

Lemma color_mergeset_run fuel L d bs : (length G < fuel)%nat -> working d bs -> NoDup L ->
  (forall c, c ∈ L -> c ∈ blocks_of G /\ reaches G c (selected_parent d) = false /\ reaches G (selected_parent d) c = false) ->
  (forall c y, c ∈ L -> y ∈ bs -> reaches G c y = false) -> StronglySorted (fun y c => reaches G c y = false) L ->
  exists d', color_mergeset fuel m L d = Ok d' /\ selected_parent d' = selected_parent d /\
    working d' (bs ++ (greedy G k (blues_of d) L).1) /\ mergeset_reds d' = mergeset_reds d ++ (greedy G k (blues_of d) L).2.
Proof.
  intros Hfuel. revert d bs. induction L as [|c L IH]; intros d bs Hw Hnd HL Hbs Hs.
  { exists d. cbn. by rewrite !app_nil_r. }
  apply NoDup_cons in Hnd as [HcL Hnd]. apply StronglySorted_inv in Hs as [Hs Hhd]. rewrite Forall_forall in Hhd.
  destruct (HL c ltac:(set_solver +)) as (Hc & Hcs & Hsc).
  pose proof (working_blues d bs c Hw Hcs (fun y => Hbs c y ltac:(set_solver +))) as HB. pose proof Hw as [Hsp Hbl Hndb Ha Hcl Hsz].
  assert (HcB : c ∉ blues_of d).
  { intros Hin. destruct (HB c Hin) as [_ E]. by rewrite (reaches_refl G HG c) in E by (by apply block_known). }
  destruct (check_blue_candidate_run d c fuel Hsp Hsz HB Hcl Hc HcB Hfuel bs Hbl Hndb) as (out & Hr & Hout).
  { intros y [->|Hy]%elem_of_cons; [done|]. by apply Ha. }
  cbn [color_mergeset]. rewrite Hr. cbn [mbind result_bind greedy]. destruct out as [count sizes|].
  - cbn [colored] in Hout. assert (Hk' : kcluster G k ({[c]} ∪ blues_of d)) by (by eapply blue_cluster). rewrite decide_True by done.
    assert (EB : blues_of (add_blue d c count sizes) = {[c]} ∪ blues_of d).
    { unfold blues_of. cbn. rewrite list_to_set_app_L. set_solver +. }
    destruct (IH (add_blue d c count sizes) (bs ++ [c])) as (d' & Hd' & Hsp' & Hw' & Hrd); [|done|..].
    + split; cbn [selected_parent mergeset_blues add_blue]; [done|by rewrite Hbl|..].
      * apply NoDup_app. split; [done|]. split; [|apply NoDup_singleton]. intros x Hx ->%list_elem_of_singleton.
        apply HcB. unfold blues_of. set_solver +Hx.
      * intros y [Hy| ->%list_elem_of_singleton]%elem_of_app; [by apply Ha|done].
      * by rewrite EB.
      * rewrite EB. by eapply blue_sizes.
    + cbn. intros c' Hc'. apply HL. set_solver +Hc'.
    + intros c' y Hc' [Hy| ->%list_elem_of_singleton]%elem_of_app; [apply Hbs; [set_solver +Hc'|done]|by apply Hhd].
    + done.
    + exists d'. rewrite EB in Hw', Hrd. destruct (greedy G k ({[c]} ∪ blues_of d) L) as [gb gr]. cbn in *.
      rewrite <-app_assoc in Hw'. done.
  - cbn [colored] in Hout. rewrite decide_False by done.
    destruct (IH (add_red d c) bs) as (d' & Hd' & Hsp' & Hw' & Hrd); [|done|..].
    + by split.
    + cbn. intros c' Hc'. apply HL. set_solver +Hc'.
    + intros c' y Hc'. apply Hbs. set_solver +Hc'.
    + done.
    + exists d'. change (blues_of (add_red d c)) with (blues_of d) in *. destruct (greedy G k (blues_of d) L) as [gb gr]. cbn in *.
      rewrite <-app_assoc in Hrd. done.
Qed.
End color.
