(* ===== verification/GhostdagOrder.v ===== *)
(** The order of the blocks: sorting and the choice of the selected parent on the keys
    read from the store, and the strict growth of the blue work along the order of the
    history, which makes the sorted mergeset topological. *)

From stdpp Require Import sorting.
From S2P Require Import Prelude Access Interval Reach ReachTree ReachHistory Dag Uint UintCorrect Work Relations Ghostdag GhostdagStores GhostdagSpec.

(** * The keys are totally ordered *)

Lemma uint_cmp_opp x y : uint_cmp y x = CompOpp (uint_cmp x y).
Proof.
  revert y. induction x as [|a x IH]; intros [|b y]; [done..|]. cbn. rewrite IH. destruct (uint_cmp x y); cbn; [|done..].
  by rewrite Z.compare_antisym.
Qed.

Lemma uint_cmp_eq x y : uint_cmp x y = Eq -> x = y.
Proof.
  revert y. induction x as [|a x IH]; intros [|b y]; [done..|]. cbn. destruct (uint_cmp x y) eqn:E; [|done..].
  intros ->%Z.compare_eq. by rewrite (IH y E).
Qed.

Lemma uint_cmp_refl x : uint_cmp x x = Eq.
Proof. induction x as [|a x IH]; [done|]. cbn. by rewrite IH, Z.compare_refl. Qed.

Lemma uint_cmp_trans x y z : uint_cmp x y = Lt -> uint_cmp y z = Lt -> uint_cmp x z = Lt.
Proof.
  revert y z. induction x as [|a x IH]; intros [|b y] [|c z]; try done. cbn.
  destruct (uint_cmp x y) eqn:E1; [apply uint_cmp_eq in E1 as ->| |done].
  - destruct (uint_cmp y z); [|done..]. rewrite !Z.compare_lt_iff. lia.
  - intros _. destruct (uint_cmp y z) eqn:E2; [apply uint_cmp_eq in E2 as <-; by rewrite E1| |done].
    by rewrite (IH y z).
Qed.

Lemma bytes_compare_spec a b :
  match bytes_compare a b with Lt => bytes_ltb a b = true | Eq => a = b | Gt => bytes_ltb b a = true end.
Proof.
  unfold bytes_compare. destruct (bytes_ltb a b) eqn:E1; [done|]. destruct (bytes_ltb b a) eqn:E2; [done|].
  destruct (bytes_ltb_trichotomy a b) as [H|[H|H]]; congruence.
Qed.

Lemma bytes_ltb_asym a b : bytes_ltb a b = true -> bytes_ltb b a = false.
Proof.
  intros H. destruct (bytes_ltb b a) eqn:E; [|done]. pose proof (bytes_ltb_trans _ _ _ H E) as H'. by rewrite bytes_ltb_irrefl in H'.
Qed.

Lemma sortable_cmp_opp a b : sortable_cmp b a = CompOpp (sortable_cmp a b).
Proof.
  unfold sortable_cmp. rewrite (uint_cmp_opp (sb_blue_work a)). destruct (uint_cmp (sb_blue_work a) _); cbn; [|done..].
  unfold bytes_compare. destruct (bytes_ltb (sb_hash a) (sb_hash b)) eqn:E.
  - by rewrite (bytes_ltb_asym _ _ E).
  - by destruct (bytes_ltb (sb_hash b) (sb_hash a)).
Qed.

Lemma sortable_cmp_eq a b : sortable_cmp a b = Eq -> a = b.
Proof.
  unfold sortable_cmp. destruct (uint_cmp _ _) eqn:E; [|done..]. intros E2. pose proof (bytes_compare_spec (sb_hash a) (sb_hash b)) as H.
  rewrite E2 in H. apply uint_cmp_eq in E. destruct a, b. cbn in *. by subst.
Qed.

Lemma sortable_cmp_trans a b c : sortable_cmp a b = Lt -> sortable_cmp b c = Lt -> sortable_cmp a c = Lt.
Proof.
  unfold sortable_cmp. destruct (uint_cmp (sb_blue_work a) (sb_blue_work b)) eqn:E1; [apply uint_cmp_eq in E1 as ->| |done].
  - destruct (uint_cmp (sb_blue_work b) (sb_blue_work c)) eqn:E2; [|done..]. intros H1 H2.
    pose proof (bytes_compare_spec (sb_hash a) (sb_hash b)) as B1. pose proof (bytes_compare_spec (sb_hash b) (sb_hash c)) as B2.
    rewrite H1 in B1. rewrite H2 in B2. unfold bytes_compare. by rewrite (bytes_ltb_trans _ _ _ B1 B2).
  - intros _. destruct (uint_cmp (sb_blue_work b) (sb_blue_work c)) eqn:E2; [apply uint_cmp_eq in E2 as <-; by rewrite E1| |done].
    by rewrite (uint_cmp_trans _ _ _ E1 E2).
Qed.

#[export] Instance sortable_le_total : Total sortable_le.
Proof. intros a b. unfold sortable_le. rewrite (sortable_cmp_opp a b). destruct (sortable_cmp a b); cbn; auto. Qed.

#[export] Instance sortable_le_trans : Transitive sortable_le.
Proof.
  intros a b c. unfold sortable_le. intros H1 H2. destruct (sortable_cmp a b) eqn:E1; [apply sortable_cmp_eq in E1 as ->; done| |done].
  destruct (sortable_cmp b c) eqn:E2; [apply sortable_cmp_eq in E2 as <-; by rewrite E1| |done]. by rewrite (sortable_cmp_trans _ _ _ E1 E2).
Qed.

#[export] Instance sortable_le_antisymm : AntiSymm (=) sortable_le.
Proof.
  intros a b. unfold sortable_le. rewrite (sortable_cmp_opp a b). destruct (sortable_cmp a b) eqn:E; cbn; [by intros; apply sortable_cmp_eq| |]; done.
Qed.

Lemma max_from_spec best l : max_from best l ∈ best :: l /\ forall x, x ∈ best :: l -> sortable_le x (max_from best l).
Proof.
  revert best. induction l as [|y l IH]; intros best; cbn.
  { split; [set_solver|]. intros x ->%list_elem_of_singleton. by destruct (sortable_le_total best best). }
  set (best' := match sortable_cmp best y with Gt => best | _ => y end). destruct (IH best') as [Hin Hle].
  assert (Hb : (best' = best \/ best' = y) /\ sortable_le best best' /\ sortable_le y best').
  { unfold best', sortable_le. pose proof (sortable_cmp_opp best y) as Ho. assert (Hr : forall z, sortable_cmp z z <> Gt).
    { intros z. destruct (sortable_le_total z z) as [H|H]; exact H. }
    destruct (sortable_cmp best y) eqn:E; cbn in Ho; split_and!; auto; try congruence; try apply Hr. }
  destruct Hb as (Hor & H1 & H2). split.
  - apply elem_of_cons in Hin as [->|Hin]; [destruct Hor as [->| ->]|]; set_solver.
  - intros x [->|[->|Hx]%elem_of_cons]%elem_of_cons; [etrans; [exact H1|]|etrans; [exact H2|]|]; apply Hle; set_solver.
Qed.

(** * Reading the keys from the store *)

Section order.
Context {T : Type} `{GS : SahyadriConsensusStore T, !SahyadriConsensusStoreLaws T}.
Context (s : T) (g : hash) (G : list insertion) (k : Z) (wk : hash -> Z).
Abbreviation V := (gs_view s).
Context (HG : valid_history G) (Hroot : rooted g G) (Hok : gs_ok s) (Hgo : ghost_ok g G V k wk).

Definition key_of (x : hash) : SortableBlock := mk_sortable x (blue_work (data_at V x)).

Lemma work_limbs x : x ∈ known G -> limbs_ok (blue_work (data_at V x)) /\ length (blue_work (data_at V x)) = 3%nat.
Proof.
  intros Hx. apply known_blocks in Hx as [->|Hx].
  { unfold data_at. rewrite (go_origin _ _ _ _ _ Hgo). split; [apply uint_zero_ok|done]. }
  destruct (decide (x = g)) as [->|Hne].
  { rewrite (data_genesis g G V k wk Hgo). split; [apply uint_zero_ok|done]. }
  apply (bd_work_ok _ _ _ _ _ (go_blocks _ _ _ _ _ Hgo x Hx Hne)).
Qed.

Lemma key_cmp x y : x ∈ known G -> y ∈ known G -> sortable_cmp (key_of x) (key_of y) = Lt <-> key_lt V x y.
Proof.
  intros Hx Hy. unfold sortable_cmp, key_of, key_lt, work_of. cbn [sb_hash sb_blue_work].
  destruct (work_limbs x Hx) as [H1 H2], (work_limbs y Hy) as [H3 H4]. rewrite uint_cmp_spec by congruence.
  pose proof (bytes_compare_spec x y) as Hb. destruct (Z.compare_spec (val (blue_work (data_at V x))) (val (blue_work (data_at V y)))) as [E|E|E].
  - destruct (bytes_compare x y).
    + subst y. split; [done|]. intros [?|[_ Hlt]]; [lia|]. by rewrite bytes_ltb_irrefl in Hlt.
    + split; auto.
    + split; [done|]. intros [?|[_ Hlt]]; [lia|]. by rewrite (bytes_ltb_asym _ _ Hb) in Hlt.
  - split; [auto|done].
  - split; [done|]. lia.
Qed.

Lemma key_le x y : x ∈ known G -> y ∈ known G -> sortable_le (key_of x) (key_of y) -> x = y \/ key_lt V x y.
Proof.
  intros Hx Hy Hle. unfold sortable_le in Hle. destruct (sortable_cmp (key_of x) (key_of y)) eqn:E; [|right; by apply key_cmp|done].
  left. by injection (sortable_cmp_eq _ _ E).
Qed.

Lemma key_lt_asym x y : key_lt V x y -> key_lt V y x -> False.
Proof. unfold key_lt. intros [?|[? H1]] [?|[? H2]]; try lia. by rewrite (bytes_ltb_asym _ _ H1) in H2. Qed.

Lemma collect_keys l : (forall x, x ∈ l -> x ∈ known G) -> collect (sortable s) l = Ok (map key_of l).
Proof.
  induction l as [|x l IH]; intros Hl; [done|]. assert (E : sortable s x = Ok (key_of x)).
  { unfold sortable. by rewrite (law_blue_work _ _ _ Hok (view_data g G V k wk Hgo x ltac:(apply Hl; set_solver))). }
  cbn [collect]. rewrite E. cbn. rewrite IH by set_solver. done.
Qed.

Lemma sort_blocks_run l : NoDup l -> (forall x, x ∈ l -> x ∈ known G) ->
  exists L, sort_blocks s l = Ok L /\ L ≡ₚ l /\ StronglySorted (key_lt V) L.
Proof.
  intros Hnd Hl. unfold sort_blocks. rewrite collect_keys by done. cbn. eexists. split; [done|].
  assert (Hp : map sb_hash (merge_sort sortable_le (map key_of l)) ≡ₚ l).
  { rewrite merge_sort_Permutation, map_map. cbn. by rewrite map_id. }
  split; [done|]. rewrite <-Hp in Hnd. pose proof (StronglySorted_merge_sort sortable_le (map key_of l)) as Hs.
  assert (Hk : forall a, a ∈ merge_sort sortable_le (map key_of l) -> a = key_of (sb_hash a) /\ sb_hash a ∈ known G).
  { intros a Ha. rewrite merge_sort_Permutation in Ha. apply list_elem_of_fmap in Ha as (x & -> & Hx). split; [done|]. by apply Hl. }
  clear Hp. induction Hs as [|a r Hs IH Ha]; [constructor|]. cbn in *. apply NoDup_cons in Hnd as [Hn Hnd].
  constructor; [apply IH; [done|]; intros; apply Hk; set_solver|]. rewrite Forall_forall in Ha. apply Forall_forall. intros y Hy.
  apply list_elem_of_fmap in Hy as (c & -> & Hc). destruct (Hk a ltac:(set_solver)) as [Ea Hka], (Hk c ltac:(set_solver)) as [Ec Hkc].
  specialize (Ha c Hc). rewrite Ea, Ec in Ha. destruct (key_le _ _ Hka Hkc Ha) as [E|?]; [|done].
  exfalso. apply Hn. rewrite E. apply list_elem_of_fmap. by exists c.
Qed.

Lemma find_selected_parent_run l : l <> [] -> (forall x, x ∈ l -> x ∈ known G) ->
  exists sp, find_selected_parent s l = Ok sp /\ sp ∈ l /\ forall q, q ∈ l -> q = sp \/ key_lt V q sp.
Proof.
  intros Hne Hl. unfold find_selected_parent. rewrite collect_keys by done. cbn. destruct l as [|x l]; [done|]. cbn.
  pose proof (max_from_spec (key_of x) (map key_of l)) as [Hin Hmax]. change (key_of x :: map key_of l) with (map key_of (x :: l)) in *.
  apply list_elem_of_fmap in Hin as (sp & E & Hsp). rewrite E in *. exists sp. split_and!; [done..|]. intros q Hq.
  apply key_le; [auto..|]. apply Hmax. apply list_elem_of_fmap. by exists q.
Qed.

(** * The blue work grows *)

Context (Hwk : forall x, x ∈ blocks_of G -> 1 <= wk x).

Lemma blues_blocks p x : p ∈ blocks_of G -> p <> g -> x ∈ mergeset_blues (data_at V p) -> x ∈ blocks_of G.
Proof.
  intros Hp Hne Hx. destruct (rooted_parents g G p HG Hroot Hp Hne) as [_ Hsb].
  apply (blues_members g G V k wk HG Hroot Hgo p x Hp Hne) in Hx as [->|Hx]; [done|]. by apply (mergeset_block G HG p).
Qed.

Lemma work_selected p : p ∈ blocks_of G -> p <> g -> work_of V (selected_of G p) < work_of V p.
Proof.
  intros Hp Hne. pose proof (go_blocks _ _ _ _ _ Hgo p Hp Hne) as Hd. rewrite (bd_work _ _ _ _ _ Hd).
  destruct (bd_order _ _ _ _ _ Hd) as (L & _ & _ & Hb & _). pose proof (blues_blocks p) as Hbb. rewrite Hb in *. cbn.
  destruct (rooted_parents g G p HG Hroot Hp Hne) as [_ Hsb]. pose proof (Hwk _ Hsb).
  match goal with |- context [sum_works wk ?l] => pose proof (sum_works_nonneg wk l) as H0 end.
  specialize (H0 ltac:(intros x Hx; pose proof (Hwk x (Hbb x Hp Hne ltac:(by right))); lia)). lia.
Qed.

Lemma work_monotone x y : x ∈ blocks_of G -> y ∈ known G -> reaches G x y = true -> x <> y -> work_of V x < work_of V y.
Proof.
  intros Hx Hy. pattern y. eapply (history_ind G _ HG); [..|exact Hy].
  - intros Hr Hne. apply (reaches_antisym G HG) in Hr; [done|]. apply (origin_below G HG). by apply block_known.
  - intros z Hz IH Hr Hne. apply (reaches_unfold G HG) in Hr as [?|(q & Hq & Hr)]; [done|..|by apply block_known].
    destruct (decide (z = g)) as [->|Hzg].
    { exfalso. assert (Hqo : q = ORIGIN).
      { clear -HG Hroot Hq. induction G as [|b [|c G'] IH]; [done|..].
        - cbn in Hroot. subst b. cbn in Hq. rewrite bool_decide_true in Hq by done. by apply list_elem_of_singleton in Hq.
        - destruct Hroot as [_ Hr], HG as [Hv HG']. rewrite (parents_of_grow (c :: G') b Hv) in Hq; [by apply IH|].
          apply block_known. by apply rooted_genesis. }
      subst q. apply (block_not_origin G HG x Hx). apply (reaches_antisym G HG); [done|]. apply (origin_below G HG). by apply block_known. }
    assert (work_of V x <= work_of V q). { destruct (decide (x = q)) as [->|Hxq]; [done|]. apply Z.lt_le_incl. by apply IH. }
    pose proof (work_selected z Hz Hzg). destruct (bd_max _ _ _ _ _ (go_blocks _ _ _ _ _ Hgo z Hz Hzg) q Hq) as [->|[?|[? _]]]; lia.
Qed.

(** A list sorted by the keys lists no block before one of its past. *)
Lemma sorted_topological L : (forall x, x ∈ L -> x ∈ blocks_of G) -> StronglySorted (key_lt V) L ->
  StronglySorted (fun y c => reaches G c y = false) L.
Proof.
  intros HL Hs. induction Hs as [|a r Hs IH Ha]; constructor; [apply IH; set_solver|]. rewrite Forall_forall in Ha. apply Forall_forall. intros y Hy.
  destruct (reaches G y a) eqn:E; [|done]. exfalso. specialize (Ha y Hy). destruct (decide (y = a)) as [->|Hne].
  { by apply (key_lt_asym a a). }
  apply (key_lt_asym a y Ha). left. apply work_monotone; [apply HL; set_solver|apply block_known, HL; set_solver|done..].
Qed.
End order.
