(* ===== verification/DifficultyTheorems.v ===== *)
(** What the difficulty adjustment computes: the target of the next block from the targets
    and the timestamps of the window, whatever the order in which the heap lists them. *)

From stdpp Require Import sorting.
From S2P Require Import Prelude Access Interval Reach ReachStores Relations Uint UintCorrect Work Ghostdag GhostdagOrder Header HeaderStores Difficulty.

(** * The oldest and the newest block *)

Lemma difficulty_cmp_lt a b : difficulty_block_cmp a b = Lt -> db_timestamp a <= db_timestamp b.
Proof. unfold difficulty_block_cmp. destruct (Z.compare_spec (db_timestamp a) (db_timestamp b)); (lia || done). Qed.

Lemma difficulty_cmp_ge a b : difficulty_block_cmp a b <> Lt -> db_timestamp b <= db_timestamp a.
Proof. unfold difficulty_block_cmp. destruct (Z.compare_spec (db_timestamp a) (db_timestamp b)); (lia || done). Qed.

Lemma difficulty_cmp_trans a b c : difficulty_block_cmp a b = Lt -> difficulty_block_cmp b c = Lt -> difficulty_block_cmp a c = Lt.
Proof.
  unfold difficulty_block_cmp. intros H1 H2.
  destruct (Z.compare_spec (db_timestamp a) (db_timestamp b)) as [E1|E1|E1], (Z.compare_spec (db_timestamp b) (db_timestamp c)) as [E2|E2|E2]; try done;
    destruct (Z.compare_spec (db_timestamp a) (db_timestamp c)); try lia; try done. by eapply sortable_cmp_trans.
Qed.

Lemma difficulty_cmp_total a b : difficulty_block_cmp a b <> Lt -> db_sortable_block a <> db_sortable_block b -> difficulty_block_cmp b a = Lt.
Proof.
  unfold difficulty_block_cmp. intros H1 Hne.
  destruct (Z.compare_spec (db_timestamp a) (db_timestamp b)) as [E1|E1|E1], (Z.compare_spec (db_timestamp b) (db_timestamp a)); try lia; try done.
  rewrite sortable_cmp_opp. destruct (sortable_cmp (db_sortable_block a) _) eqn:E; [|done..]. by apply sortable_cmp_eq in E.
Qed.

(** The first minimum and the last maximum of a list that starts with the seen part. *)
Lemma minmax_from_spec seen l i lo hi :
  i = length seen -> (seen ++ l) !! lo.1 = Some lo.2 -> (seen ++ l) !! hi.1 = Some hi.2 ->
  (forall y, y ∈ seen -> difficulty_block_cmp y lo.2 <> Lt) -> (forall y, y ∈ seen -> db_timestamp y <= db_timestamp hi.2) ->
  exists x z, (seen ++ l) !! (minmax_from i lo hi l).1 = Some x /\ (seen ++ l) !! (minmax_from i lo hi l).2 = Some z /\
    (forall y, y ∈ seen ++ l -> difficulty_block_cmp y x <> Lt) /\ (forall y, y ∈ seen ++ l -> db_timestamp y <= db_timestamp z).
Proof.
  revert seen i lo hi. induction l as [|w l IH]; intros seen i lo hi Hi Hlo Hhi Hs1 Hs2; cbn [minmax_from].
  { rewrite !app_nil_r in *. exists lo.2, hi.2. done. }
  rewrite cons_middle, app_assoc in Hlo, Hhi |- *.
  assert (Hw : ((seen ++ [w]) ++ l) !! i = Some w).
  { rewrite lookup_app_l by (rewrite length_app; cbn; lia). by rewrite Hi, lookup_app_r, Nat.sub_diag by lia. }
  apply IH; [rewrite length_app; cbn; lia|by case_match|by case_match|..].
  - intros y [Hy| ->%list_elem_of_singleton]%elem_of_app.
    + destruct (difficulty_block_cmp w lo.2) eqn:E; [by apply Hs1| |by apply Hs1]. intros E2. apply (Hs1 y Hy). by eapply difficulty_cmp_trans.
    + destruct (difficulty_block_cmp w lo.2) eqn:E; [congruence| |congruence]. cbn. intros E2.
      unfold difficulty_block_cmp in E2. rewrite Z.compare_refl in E2. assert (H := sortable_cmp_opp (db_sortable_block w) (db_sortable_block w)). rewrite E2 in H. done.
  - intros y [Hy| ->%list_elem_of_singleton]%elem_of_app.
    + specialize (Hs2 y Hy). destruct (difficulty_block_cmp w hi.2) eqn:E; [|done|]; (etrans; [exact Hs2|]; apply (difficulty_cmp_ge w); by rewrite E).
    + destruct (difficulty_block_cmp w hi.2) eqn:E; [done|by apply difficulty_cmp_lt|done].
Qed.

Lemma position_minmax_spec l : l <> [] -> exists i j x z, position_minmax l = Some (i, j) /\ l !! i = Some x /\ l !! j = Some z /\
  (forall y, y ∈ l -> difficulty_block_cmp y x <> Lt) /\ (forall y, y ∈ l -> db_timestamp y <= db_timestamp z).
Proof.
  destruct l as [|w l]; [done|]. intros _.
  assert (Hrefl : difficulty_block_cmp w w <> Lt).
  { unfold difficulty_block_cmp. rewrite Z.compare_refl. intros E2. assert (H := sortable_cmp_opp (db_sortable_block w) (db_sortable_block w)). rewrite E2 in H. done. }
  destruct (minmax_from_spec [w] l 1 (0%nat, w) (0%nat, w)) as (x & z & H1 & H2 & H3 & H4); try done.
  { by intros y ->%list_elem_of_singleton. }
  { by intros y ->%list_elem_of_singleton. }
  unfold position_minmax. destruct (minmax_from 1 (0%nat, w) (0%nat, w) l) as [i j]. exists i, j, x, z. done.
Qed.

Lemma swap_remove_perm {A} (i : nat) (l : list A) x : l !! i = Some x -> exists l', swap_remove i l = Some l' /\ l ≡ₚ x :: l'.
Proof.
  intros Hi. pose proof (lookup_lt_Some _ _ _ Hi) as Hlt. unfold swap_remove.
  destruct l as [|z l _] using rev_ind; [done|]. rewrite last_snoc. cbn [mbind option_bind].
  rewrite bool_decide_true by done. eexists. split; [done|]. rewrite length_app in Hlt |- *. cbn [length] in Hlt |- *. rewrite Nat.add_sub.
  destruct (decide (i < length l)%nat) as [Hil|Hil].
  - rewrite lookup_app_l in Hi by done. rewrite insert_app_l, take_app_le, take_ge by (rewrite ?length_insert; done || lia).
    rewrite <-(take_drop_middle l i x Hi) at 1. rewrite insert_take_drop by done. rewrite <-app_assoc. cbn [app].
    rewrite <-!Permutation_middle. by rewrite !app_nil_r.
  - assert (i = length l) as -> by lia. rewrite lookup_app_r, Nat.sub_diag in Hi by done. injection Hi as ->.
    rewrite insert_app_r_alt, take_app_length by lia. by rewrite Permutation_app_comm.
Qed.

Lemma swap_remove_map {A B} (f : A -> B) i l : swap_remove i (map f l) = map f <$> swap_remove i l.
Proof.
  unfold swap_remove. change (map f l) with (f <$> l). rewrite fmap_last. destruct (last l) as [z|]; [|done]. cbn [fmap option_fmap option_map mbind option_bind].
  rewrite length_fmap. case_bool_decide; [|done]. cbn. f_equal. by rewrite <-list_fmap_insert, fmap_take.
Qed.

(** * Arithmetic on targets *)

Lemma uint_div_u64_spec x y : limbs_ok x -> 0 < y < 2 ^ 64 ->
  exists q, uint_div_u64 x y = Some q /\ limbs_ok q /\ length q = length x /\ val q = val x / y.
Proof.
  intros Hx Hy. unfold uint_div_u64, div_rem_u64. rewrite (proj2 (Z.eqb_neq _ _)) by lia. eexists. split; [done|].
  destruct (div_rem_limbs_spec x y Hx ltac:(lia) ltac:(lia)) as (H1 & H2 & H3 & _). done.
Qed.

Lemma uint320_from_spec u : limbs_ok u -> length u = 4%nat ->
  limbs_ok (uint320_from u) /\ length (uint320_from u) = 5%nat /\ val (uint320_from u) = val u.
Proof.
  intros Hu Hl. unfold uint320_from. split_and!; [apply Forall_app; split; [done|by repeat constructor]|rewrite length_app; cbn; lia|].
  rewrite val_app. cbn. lia.
Qed.

Lemma uint_max2_spec a b : limbs_ok a -> limbs_ok b -> length a = length b ->
  limbs_ok (uint_max2 a b) /\ length (uint_max2 a b) = length a /\ val (uint_max2 a b) = Z.max (val a) (val b).
Proof.
  intros Ha Hb Hl. unfold uint_max2. rewrite uint_leb_spec by done. destruct (Z.leb_spec (val a) (val b)); split_and!; done || lia.
Qed.

Lemma uint_min2_spec a b : limbs_ok a -> limbs_ok b -> length a = length b ->
  limbs_ok (uint_min2 a b) /\ length (uint_min2 a b) = length a /\ val (uint_min2 a b) = Z.min (val a) (val b).
Proof.
  intros Ha Hb Hl. unfold uint_min2. rewrite uint_leb_spec by done. destruct (Z.leb_spec (val a) (val b)); split_and!; done || lia.
Qed.

Lemma uint256_try_from_spec x : limbs_ok x -> length x = 5%nat -> val x < 2 ^ 256 ->
  exists y, uint256_try_from x = Some y /\ limbs_ok y /\ length y = 4%nat /\ val y = val x.
Proof.
  intros Hx Hl Hv. destruct x as [|a [|b [|c [|d [|e [|]]]]]]; try done. unfold uint256_try_from. change ([a; b; c; d; e] !!! 4%nat) with e.
  repeat (apply Forall_cons in Hx as [? Hx]). cbn [val] in *. assert (e = 0) as -> by lia. eexists. split; [done|].
  split_and!; [|done|cbn; lia]. repeat (constructor; [done|]). constructor.
Qed.

Lemma target_bound bits : u32_range bits -> 0 <= val (from_compact_target_bits bits) < 2 ^ 256.
Proof.
  intros Hb. destruct (from_compact_ok bits Hb) as (Hx & Hl & _). pose proof (val_range _ Hx) as Hr. rewrite Hl in Hr. exact Hr.
Qed.

Lemma compact_representable bits : u32_range bits -> representable (val (from_compact_target_bits bits)).
Proof. intros Hb. destruct (from_compact_shape bits Hb) as (_ & _ & m & j & Hm & Hj & ->). exists m, j. split_and!; lia. Qed.

(** * The retargeting *)

(** The manager's constants are in their ranges. *)
Record difficulty_ok (m : SampledDifficultyManager) : Prop := {
  do_min : 2 <= dm_min_difficulty_window_size m <= dm_difficulty_window_size m;
  do_time : 0 < dm_target_time_per_block m;
  do_rate : 0 < dm_difficulty_sample_rate m;
  do_duration : dm_target_time_per_block m * dm_difficulty_sample_rate m * dm_difficulty_window_size m < 2 ^ 64;
  do_genesis : u32_range (dm_genesis_bits m);
  do_max : limbs_ok (dm_max_difficulty_target m) /\ length (dm_max_difficulty_target m) = 5%nat /\ val (dm_max_difficulty_target m) < 2 ^ 256;
}.

Definition genesis_target (m : SampledDifficultyManager) : Z := val (from_compact_target_bits (dm_genesis_bits m)).

(** The average target of the window without its oldest block, scaled by the measured over
    the expected duration, between the genesis and the maximal target. *)
Definition next_target (m : SampledDifficultyManager) (oldest newest : Z) (targets : list Z) : Z :=
  let n := Z.of_nat (length targets) in
  Z.min (Z.max (sumZ id targets / n * Z.max (newest - oldest) 1 / (dm_target_time_per_block m * dm_difficulty_sample_rate m * n)) (genesis_target m))
    (val (dm_max_difficulty_target m)).

Lemma sum_targets (l : list Z) : Forall (fun bits => u32_range bits) l ->
  let ts := map (fun bits => uint320_from (from_compact_target_bits bits)) l in
  Forall (fun x => limbs_ok x /\ length x = 5%nat) ts /\ sumZ val ts = sumZ id (map (fun bits => val (from_compact_target_bits bits)) l) /\
  0 <= sumZ val ts <= Z.of_nat (length l) * (2 ^ 256 - 1).
Proof.
  induction 1 as [|bits l Hb Hl IH]; [cbn; split; [constructor|lia]|]. destruct IH as (IH1 & IH2 & IH3). cbn [map].
  destruct (from_compact_ok bits Hb) as (Hx & Hlx & _). destruct (uint320_from_spec _ Hx Hlx) as (H1 & H2 & H3). pose proof (target_bound bits Hb).
  split; [by constructor|]. unfold sumZ in *. cbn [foldr] in *. rewrite H3, IH2. cbn [length]. unfold id at 1. split; [done|]. rewrite <-IH2. lia.
Qed.

Section retarget.
Context (m : SampledDifficultyManager) (Hm : difficulty_ok m).
Context (data : SortableBlock -> CompactHeaderData) (window : BlockWindowHeap).
Hypothesis Hdata : forall item, item ∈ window -> get_compact_header_data (dm_headers_store m) (sb_hash item) = Ok (data item) /\
  u64_range (ch_timestamp (data item)) /\ u32_range (ch_bits (data item)).

Definition difficulty_block (item : SortableBlock) : DifficultyBlock :=
  mk_difficulty_block (ch_timestamp (data item)) (ch_bits (data item)) item.

Definition target_of (item : SortableBlock) : Z := val (from_compact_target_bits (ch_bits (data item))).

Lemma get_difficulty_blocks_run : get_difficulty_blocks m window = Ok (map difficulty_block window).
Proof.
  unfold get_difficulty_blocks. apply collect_map. intros item Hi. destruct (Hdata item Hi) as (-> & _). done.
Qed.

Hypothesis Hsize : dm_min_difficulty_window_size m <= Z.of_nat (length window) <= dm_difficulty_window_size m.

Lemma retarget_arith (rest : list SortableBlock) lo hi : (forall y, y ∈ rest -> y ∈ window) -> length window = S (length rest) -> u64_range lo -> u64_range hi -> lo <= hi ->
  exists average target X,
    uint_div_u64 (uint_sum 5 (map (fun b => uint320_from (from_compact_target_bits (db_bits b))) (map difficulty_block rest))) (Z.of_nat (length rest)) = Some average /\
    uint_div_u64 (uint_mul_u64 average (Z.max (wsub64 hi lo) 1))
      (wmul64 (wmul64 (dm_target_time_per_block m) (dm_difficulty_sample_rate m)) (Z.of_nat (length rest))) = Some target /\
    uint256_try_from (uint_min2 (uint_max2 target (uint320_from (from_compact_target_bits (dm_genesis_bits m)))) (dm_max_difficulty_target m)) = Some X /\
    limbs_ok X /\ length X = 4%nat /\ val X = next_target m lo hi (map target_of rest).
Proof.
  intros Hin Hlen Hlo Hhi Hle. destruct Hm as [Hmin Ht Hr Hd Hg (Hx1 & Hx2 & Hx3)]. set (n := Z.of_nat (length rest)).
  assert (Hn : 1 <= n < dm_difficulty_window_size m) by lia.
  set (P := dm_target_time_per_block m * dm_difficulty_sample_rate m) in *. assert (HP : 1 <= P) by (unfold P; nia).
  assert (HPn : n <= P * n) by nia. assert (HPs : P * n < 2 ^ 64) by nia. assert (Hn64 : n < 2 ^ 64) by lia.
  rewrite map_map. cbn [db_bits difficulty_block].
  destruct (sum_targets (map (fun y => ch_bits (data y)) rest)) as (S1 & S2 & S3).
  { apply Forall_map, Forall_forall. intros y Hy. apply Hdata. auto. }
  rewrite map_map in S1, S2, S3. rewrite length_map in S3. fold n in S3. rewrite map_map in S2.
  assert (Hsum : sumZ val (map (fun y => uint320_from (from_compact_target_bits (ch_bits (data y)))) rest) < base 5).
  { change (base 5) with (2 ^ 320). assert (n * (2 ^ 256 - 1) <= (2 ^ 64 - 1) * (2 ^ 256 - 1)) by (apply Z.mul_le_mono_nonneg_r; lia). lia. }
  destruct (uint_sum_spec 5 _ S1 Hsum) as (U1 & U2 & U3). set (sum := uint_sum 5 _) in *.
  destruct (uint_div_u64_spec sum n U1 ltac:(lia)) as (avg & Ea & A1 & A2 & A3). exists avg. rewrite Ea, wsub64_small by lia.
  set (D := Z.max (hi - lo) 1). assert (HD : 1 <= D < 2 ^ 64) by lia.
  assert (Hav : 0 <= val avg < 2 ^ 256).
  { rewrite A3, U3. split; [apply Z.div_pos; lia|]. apply Z.div_lt_upper_bound; [lia|]. lia. }
  destruct (uint_mul_u64_spec avg D A1 ltac:(lia)) as (M1 & M2 & M3).
  { rewrite A2, U2. change (base 5) with (2 ^ 320). assert (val avg * D <= (2 ^ 256 - 1) * (2 ^ 64 - 1)) by (apply Z.mul_le_mono_nonneg; lia). lia. }
  rewrite (wmul64_small (dm_target_time_per_block m)) by (fold P; nia). fold P. rewrite wmul64_small by lia. set (E := P * n).
  assert (HE : 0 < E < 2 ^ 64) by lia.
  destruct (uint_div_u64_spec (uint_mul_u64 avg D) E M1 HE) as (nt & Ent & N1 & N2 & N3). exists nt. rewrite Ent.
  destruct (from_compact_ok _ Hg) as (G1 & G2 & _). destruct (uint320_from_spec _ G1 G2) as (G3 & G4 & G5).
  destruct (uint_max2_spec nt _ N1 G3 ltac:(congruence)) as (C1 & C2 & C3). destruct (uint_min2_spec _ _ C1 Hx1 ltac:(congruence)) as (D1 & D2 & D3).
  destruct (uint256_try_from_spec _ D1 ltac:(congruence) ltac:(lia)) as (X & EX & X1 & X2 & X3). exists X. split_and!; [done..|].
  rewrite X3, D3, C3, G5, N3, M3, A3, U3, S2. unfold next_target. rewrite length_map. done.
Qed.

Lemma retarget_run d : exists oldest newest rest X, window ≡ₚ oldest :: rest /\
  (forall y, y ∈ window -> difficulty_block_cmp (difficulty_block y) (difficulty_block oldest) <> Lt) /\
  newest ∈ window /\ (forall y, y ∈ window -> ch_timestamp (data y) <= ch_timestamp (data newest)) /\
  calculate_difficulty_bits m window d = Ok (compact_target_bits X) /\ limbs_ok X /\ length X = 4%nat /\
  val X = next_target m (ch_timestamp (data oldest)) (ch_timestamp (data newest)) (map target_of rest).
Proof.
  pose proof (do_min _ Hm) as Hmin. unfold calculate_difficulty_bits. rewrite get_difficulty_blocks_run. cbn [mbind result_bind]. rewrite length_map.
  rewrite (proj2 (Z.ltb_ge _ _)) by lia.
  destruct (position_minmax_spec (map difficulty_block window)) as (i & j & x & z & -> & Hi & Hj & Hlo & Hhi).
  { destruct window; [cbn in Hsize; lia|done]. }
  cbn [assert_some ok_or mbind result_bind]. rewrite Hi, Hj. cbn [assert_some ok_or mbind result_bind].
  rewrite swap_remove_map. apply list_lookup_fmap_Some in Hi as (oldest & -> & Hi), Hj as (newest & -> & Hj).
  destruct (swap_remove_perm i window oldest Hi) as (rest & -> & Hp). cbn [fmap option_fmap option_map assert_some ok_or mbind result_bind].
  assert (Hnew : newest ∈ window) by (by eapply list_elem_of_lookup_2). assert (Hold : oldest ∈ window) by (by eapply list_elem_of_lookup_2).
  assert (Hts : forall y, y ∈ window -> ch_timestamp (data y) <= ch_timestamp (data newest)).
  { intros y Hy. apply (Hhi (difficulty_block y)). by apply list_elem_of_fmap_2. }
  pose proof (Permutation_length Hp) as Hlen. cbn [length] in Hlen. rewrite length_map.
  destruct (retarget_arith rest (ch_timestamp (data oldest)) (ch_timestamp (data newest))) as (avg & nt & X & -> & E2 & E3 & HX);
    [intros y Hy; rewrite Hp; by right|done|apply Hdata; done..|by apply Hts|]. cbn [assert_some ok_or mbind result_bind db_timestamp difficulty_block].
  rewrite E2. cbn [assert_some ok_or mbind result_bind]. rewrite E3. cbn [assert_some ok_or mbind result_bind].
  exists oldest, newest, rest, X. split_and!; try done; try apply HX. intros y Hy. apply Hlo. by apply list_elem_of_fmap_2.
Qed.
End retarget.

(** C16: On a window of at least the minimal size the difficulty bits are the compact form of
    the exact retarget: the average target of the window without its oldest block, times
    the measured over the expected duration, between the genesis and the maximal target.
    Nothing wraps and nothing panics, for windows up to the configured size. A shorter
    window keeps the bits of the selected parent. *)
Theorem difficulty_adjustment_exact (m : SampledDifficultyManager) (data : SortableBlock -> CompactHeaderData) (window : BlockWindowHeap)
    (d : SahyadriConsensusData) (spb : Z) (Hm : difficulty_ok m)
    (Hdata : forall item, item ∈ window -> get_compact_header_data (dm_headers_store m) (sb_hash item) = Ok (data item) /\
      u64_range (ch_timestamp (data item)) /\ u32_range (ch_bits (data item)))
    (Hsp : get_header_bits (dm_headers_store m) (selected_parent d) = Ok spb)
    (Hlen : Z.of_nat (length window) <= dm_difficulty_window_size m) :
  if Z.of_nat (length window) <? dm_min_difficulty_window_size m
  then calculate_difficulty_bits m window d = Ok (if bool_decide (selected_parent d = dm_genesis_hash m) then dm_genesis_bits m else spb)
  else exists oldest newest rest X, window ≡ₚ oldest :: rest /\
    (forall y, y ∈ window -> ch_timestamp (data oldest) <= ch_timestamp (data y) <= ch_timestamp (data newest)) /\ newest ∈ window /\
    calculate_difficulty_bits m window d = Ok (compact_target_bits X) /\ limbs_ok X /\ length X = 4%nat /\
    val X = next_target m (ch_timestamp (data oldest)) (ch_timestamp (data newest)) (map (target_of data) rest).
Proof.
  destruct (Z.ltb_spec (Z.of_nat (length window)) (dm_min_difficulty_window_size m)) as [Hlt|Hge].
  - unfold calculate_difficulty_bits. rewrite (get_difficulty_blocks_run m data window Hdata). cbn [mbind result_bind]. rewrite length_map.
    rewrite (proj2 (Z.ltb_lt _ _)) by done. case_bool_decide; [done|]. by rewrite Hsp.
  - destruct (retarget_run m Hm data window Hdata ltac:(lia) d) as (oldest & newest & rest & X & Hp & Hlo & Hin & Hhi & E & HX).
    exists oldest, newest, rest, X. split_and!; try done; try apply HX. intros y Hy. split; [|by apply Hhi].
    by apply (difficulty_cmp_ge (difficulty_block data y) (difficulty_block data oldest)), Hlo.
Qed.

(** The oldest block is the same in every order of the window. *)
Lemma oldest_unique data (l : list SortableBlock) x y : x ∈ l -> y ∈ l ->
  (forall z, z ∈ l -> difficulty_block_cmp (difficulty_block data z) (difficulty_block data x) <> Lt) ->
  (forall z, z ∈ l -> difficulty_block_cmp (difficulty_block data z) (difficulty_block data y) <> Lt) -> x = y.
Proof.
  intros Hx Hy H1 H2. destruct (decide (sortable_cmp x y = Eq)) as [E|E]; [by apply sortable_cmp_eq|].
  exfalso. apply (H2 x Hx). apply difficulty_cmp_total; [by apply H1|]. cbn. intros ->. apply E. unfold sortable_cmp.
  rewrite uint_cmp_refl. pose proof (bytes_compare_spec (sb_hash x) (sb_hash x)) as B. destruct (bytes_compare _ _); [done| |]; by rewrite bytes_ltb_irrefl in B.
Qed.

Lemma sumZ_perm {A} (f : A -> Z) l l' : l ≡ₚ l' -> sumZ f l = sumZ f l'.
Proof. unfold sumZ. induction 1; cbn; lia. Qed.

(** The difficulty does not depend on the order in which the heap iterates its blocks:
    two windows with the same blocks give the same bits. *)
Theorem difficulty_order_irrelevant (m : SampledDifficultyManager) (data : SortableBlock -> CompactHeaderData) (w1 w2 : BlockWindowHeap)
    (d : SahyadriConsensusData) (Hm : difficulty_ok m)
    (Hdata : forall item, item ∈ w1 -> get_compact_header_data (dm_headers_store m) (sb_hash item) = Ok (data item) /\
      u64_range (ch_timestamp (data item)) /\ u32_range (ch_bits (data item)))
    (Hlen : Z.of_nat (length w1) <= dm_difficulty_window_size m) (Hp : w1 ≡ₚ w2) :
  calculate_difficulty_bits m w1 d = calculate_difficulty_bits m w2 d.
Proof.
  assert (Hdata2 : forall item, item ∈ w2 -> get_compact_header_data (dm_headers_store m) (sb_hash item) = Ok (data item) /\
      u64_range (ch_timestamp (data item)) /\ u32_range (ch_bits (data item))) by (intros item Hi; apply Hdata; by rewrite Hp).
  pose proof (Permutation_length Hp) as El.
  destruct (Z.lt_ge_cases (Z.of_nat (length w1)) (dm_min_difficulty_window_size m)) as [Hlt|Hge].
  - unfold calculate_difficulty_bits. rewrite (get_difficulty_blocks_run m data w1 Hdata), (get_difficulty_blocks_run m data w2 Hdata2).
    cbn [mbind result_bind]. rewrite !length_map, <-El. by rewrite (proj2 (Z.ltb_lt _ _)).
  - destruct (retarget_run m Hm data w1 Hdata ltac:(lia) d) as (o1 & n1 & r1 & X1 & P1 & L1 & I1 & T1 & -> & K1 & Q1 & V1).
    destruct (retarget_run m Hm data w2 Hdata2 ltac:(lia) d) as (o2 & n2 & r2 & X2 & P2 & L2 & I2 & T2 & -> & K2 & Q2 & V2).
    assert (o1 = o2) as <-.
    { apply (oldest_unique data w1); [rewrite P1; by left|rewrite Hp, P2; by left|done|]. intros z Hz. apply L2. by rewrite <-Hp. }
    assert (En : ch_timestamp (data n1) = ch_timestamp (data n2)).
    { pose proof (T1 n2 ltac:(by rewrite Hp)). pose proof (T2 n1 ltac:(by rewrite <-Hp)). lia. }
    assert (Hr : r1 ≡ₚ r2) by (apply (Permutation_cons_inv (a := o1)); by rewrite <-P1, <-P2).
    f_equal. f_equal. apply val_inj; [done..|congruence|]. rewrite V1, V2, En. unfold next_target.
    rewrite !length_map, (Permutation_length Hr), (sumZ_perm id _ _ (Permutation_map (target_of data) Hr)). done.
Qed.

(** The bits of a retarget stand for a target between the two bounds. *)
Lemma retarget_bounds (m : SampledDifficultyManager) (data : SortableBlock -> CompactHeaderData) (window : BlockWindowHeap) (d : SahyadriConsensusData) :
  difficulty_ok m ->
  (forall item, item ∈ window -> get_compact_header_data (dm_headers_store m) (sb_hash item) = Ok (data item) /\
    u64_range (ch_timestamp (data item)) /\ u32_range (ch_bits (data item))) ->
  dm_min_difficulty_window_size m <= Z.of_nat (length window) <= dm_difficulty_window_size m ->
  2 ^ 64 <= genesis_target m <= val (dm_max_difficulty_target m) ->
  exists bits, calculate_difficulty_bits m window d = Ok bits /\ u32_range bits /\
    genesis_target m <= val (from_compact_target_bits bits) <= val (dm_max_difficulty_target m).
Proof.
  intros Hm Hdata Hlen Hcap. destruct (retarget_run m Hm data window Hdata Hlen d) as (o & n & r & X & _ & _ & _ & _ & E & K & Q & V).
  exists (compact_target_bits X). split; [done|]. destruct (compact_truncates X K Q) as (_ & _ & k & Hk & Ev & Hmk). rewrite Ev.
  pose proof (val_range X K). pose proof (Z.pow_pos_nonneg 256 k ltac:(lia) Hk).
  assert (HgX : genesis_target m <= val X <= val (dm_max_difficulty_target m)) by (rewrite V; unfold next_target; lia).
  assert (Hlow : genesis_target m <= val X / 256 ^ k * 256 ^ k) by (apply truncate_floor; [done|lia|done|apply compact_representable, Hm|lia]).
  split; [|pose proof (Z.mul_div_le (val X) (256 ^ k) ltac:(lia)); lia].
  destruct (compact_form X K Q ltac:(lia)) as (j & Hj & Ej & Hjm). rewrite Ej. lia.
Qed.

(** A short window keeps the bits of the selected parent. *)
Lemma short_window_bits (m : SampledDifficultyManager) (data : SortableBlock -> CompactHeaderData) (window : BlockWindowHeap) (d : SahyadriConsensusData) spb :
  (forall item, item ∈ window -> get_compact_header_data (dm_headers_store m) (sb_hash item) = Ok (data item) /\
    u64_range (ch_timestamp (data item)) /\ u32_range (ch_bits (data item))) ->
  get_header_bits (dm_headers_store m) (selected_parent d) = Ok spb -> Z.of_nat (length window) < dm_min_difficulty_window_size m ->
  calculate_difficulty_bits m window d = Ok (if bool_decide (selected_parent d = dm_genesis_hash m) then dm_genesis_bits m else spb).
Proof.
  intros Hdata Hsp Hlt. unfold calculate_difficulty_bits. rewrite (get_difficulty_blocks_run m data window Hdata). cbn [mbind result_bind]. rewrite length_map.
  rewrite (proj2 (Z.ltb_lt _ _)) by done. case_bool_decide; [done|]. by rewrite Hsp.
Qed.

(** C32: The difficulty never exceeds that of the genesis: whatever the hash rate, the target
    the bits stand for is at least the genesis target and at most the maximal one, so the
    work a block counts for is at most the work of the genesis bits. *)
Theorem difficulty_capped_at_genesis (m : SampledDifficultyManager) (data : SortableBlock -> CompactHeaderData) (window : BlockWindowHeap)
    (d : SahyadriConsensusData) (bits : Z) (Hm : difficulty_ok m)
    (Hdata : forall item, item ∈ window -> get_compact_header_data (dm_headers_store m) (sb_hash item) = Ok (data item) /\
      u64_range (ch_timestamp (data item)) /\ u32_range (ch_bits (data item)))
    (Hlen : dm_min_difficulty_window_size m <= Z.of_nat (length window) <= dm_difficulty_window_size m)
    (Hcap : genesis_target m <= val (dm_max_difficulty_target m)) (Hbits : calculate_difficulty_bits m window d = Ok bits) :
  genesis_target m <= val (from_compact_target_bits bits) <= val (dm_max_difficulty_target m) /\
  (2 ^ 64 <= genesis_target m -> exists w, calc_work bits = Some w /\ 1 <= val w <= 2 ^ 256 / (genesis_target m + 1)).
Proof.
  split.
  - destruct (retarget_run m Hm data window Hdata Hlen d) as (o & n & r & X & _ & _ & _ & _ & E & K & Q & V).
    rewrite E in Hbits. injection Hbits as <-. destruct (compact_truncates X K Q) as (_ & _ & k & Hk & Ev & Hmk). rewrite Ev.
    pose proof (val_range X K). pose proof (Z.pow_pos_nonneg 256 k ltac:(lia) Hk).
    assert (HgX : genesis_target m <= val X <= val (dm_max_difficulty_target m)) by (rewrite V; unfold next_target; lia).
    assert (Hlow : genesis_target m <= val X / 256 ^ k * 256 ^ k) by (apply truncate_floor; [done|lia|done|apply compact_representable, Hm|lia]).
    pose proof (Z.mul_div_le (val X) (256 ^ k) ltac:(lia)). lia.
  - intros Hg. destruct (retarget_bounds m data window d Hm Hdata Hlen ltac:(lia)) as (b & E & Hb & Hr). rewrite E in Hbits. injection Hbits as ->.
    pose proof (calc_work_spec bits Hb) as Hw. cbv zeta in Hw.
    rewrite (proj2 (Z.eqb_neq _ _)), (proj2 (Z.leb_le _ _)) in Hw by lia. destruct Hw as (w & -> & _ & _ & Ew & Hw1 & _).
    exists w. split; [done|]. split; [done|]. rewrite Ew. apply Z.div_le_compat_l; lia.
Qed.

(** * A window of three blocks *)

Definition demo_headers : DbHeadersStore :=
  mk_headers (<[[1] := mk_compact_header 0 1000 537198592 0]> (<[[2] := mk_compact_header 1 2500 537198592 1]> (<[[3] := mk_compact_header 2 3100 520159231 2]> ∅))) ∅ ∅ ∅.

Definition demo_manager : SampledDifficultyManager :=
  mk_difficulty_manager demo_headers [1] 537198592 (uint320_from [18446744073709551615; 18446744073709551615; 18446744073709551615; 9223372036854775807]) 10 2 1 1000.

Definition demo_data (b : SortableBlock) : CompactHeaderData := default (mk_compact_header 0 0 0 0) (compact_headers_access demo_headers !! sb_hash b).

Definition demo_window : BlockWindowHeap := [mk_sortable [1] [1; 0; 0]; mk_sortable [2] [5; 0; 0]; mk_sortable [3] [9; 0; 0]].

Definition demo_child : SahyadriConsensusData := mk_data 3 [13; 0; 0] [3] [[3]] [] ∅.

Lemma demo_manager_ok : difficulty_ok demo_manager.
Proof. split; [vm_compute; split; discriminate|reflexivity|reflexivity|reflexivity|vm_compute; split; [discriminate|reflexivity]|]. split; [limbs_bounds|vm_compute; split; reflexivity]. Qed.

Lemma demo_window_data item : item ∈ demo_window -> get_compact_header_data (dm_headers_store demo_manager) (sb_hash item) = Ok (demo_data item) /\
  u64_range (ch_timestamp (demo_data item)) /\ u32_range (ch_bits (demo_data item)).
Proof. unfold demo_window. rewrite !elem_of_cons, elem_of_nil. intros [->|[->|[->|[]]]]; (split; [reflexivity|]); vm_compute; repeat split; discriminate. Qed.

Lemma difficulty_adjustment_exact_witness : exists X, calculate_difficulty_bits demo_manager demo_window demo_child = Ok (compact_target_bits X) /\ length X = 4%nat.
Proof.
  destruct (difficulty_adjustment_exact demo_manager demo_data demo_window demo_child 520159231 demo_manager_ok demo_window_data eq_refl ltac:(vm_compute; discriminate))
    as (o & n & r & X & _ & _ & _ & H & _ & HX & _). exists X. split; [exact H|exact HX].
Defined.

Lemma difficulty_order_irrelevant_witness : calculate_difficulty_bits demo_manager demo_window demo_child = calculate_difficulty_bits demo_manager (reverse demo_window) demo_child.
Proof.
  apply (difficulty_order_irrelevant demo_manager demo_data demo_window (reverse demo_window) demo_child demo_manager_ok demo_window_data); [vm_compute; discriminate|].
  symmetry. apply reverse_Permutation.
Defined.

Lemma difficulty_capped_at_genesis_witness : exists bits, calculate_difficulty_bits demo_manager demo_window demo_child = Ok bits /\
  genesis_target demo_manager <= val (from_compact_target_bits bits).
Proof.
  eexists. split; [vm_compute; reflexivity|]. refine (proj1 (proj1 (difficulty_capped_at_genesis demo_manager demo_data demo_window demo_child _ demo_manager_ok demo_window_data _ _ _)));
    [vm_compute; split; discriminate|vm_compute; discriminate|vm_compute; reflexivity].
Defined.
