(* ===== verification/GhostdagRun.v ===== *)
(** The run of the ordering of a block (protocol.rs): the walk from the parents collects
    exactly the mergeset, and the coloring returns the data of the GHOSTDAG rule. *)

From S2P Require Import Prelude Access Uint UintCorrect Interval Reach ReachTree ReachHistory Work Relations Ghostdag GhostdagStores Dag GhostdagSpec GhostdagColor GhostdagOrder.

Section mergeset.
Context {S U : Type} `{RLS : RelationsStore S, RVS : ReachabilityService U}.
Context (r : S) (u : U) (G : list insertion) (sp : hash) (HG : valid_history G) (Hspk : sp ∈ known G).
Context (Hrel : forall x, x ∈ known G -> rl_get_parents r x = Ok (parents_of G x)).
Context (Hreach : forall x y, x ∈ known G -> y ∈ known G -> rv_is_dag_ancestor_of u x y = Ok (reaches G x y)).

Lemma visit_parents_run rest f :
  (forall x, x ∈ rest -> x ∈ known G) -> (forall x, x ∈ fr_past f -> reaches G x sp = true) ->
  exists new past', visit_parents u sp rest f = Ok (mk_frontier (fr_queue f ++ new) (list_to_set new ∪ fr_mergeset f) past') /\
    (forall x, x ∈ past' -> reaches G x sp = true) /\ NoDup new /\
    (forall x, x ∈ new -> x ∈ rest /\ (x ∉ fr_mergeset f) /\ reaches G x sp = false) /\
    (forall x, x ∈ rest -> x ∈ new \/ x ∈ fr_mergeset f \/ reaches G x sp = true).
Proof.
  revert f. induction rest as [|y rest IH]; intros [queue ms past] Hr Hp; cbn [fr_queue fr_mergeset fr_past] in *.
  { exists [], past. cbn. rewrite app_nil_r, union_empty_l_L. split_and!; try done; [constructor|..]; by intros ? ?%elem_of_nil. }
  assert (Hy : y ∈ known G) by (apply Hr; set_solver +). assert (Hr' : forall x, x ∈ rest -> x ∈ known G) by set_solver +Hr.
  cbn [visit_parents fr_queue fr_mergeset fr_past]. destruct (bool_decide (y ∈ ms) || bool_decide (y ∈ past)) eqn:Eb.
  { destruct (IH (mk_frontier queue ms past) Hr' Hp) as (new & past' & E & H1 & H2 & H3 & H4). exists new, past'.
    cbn [fr_queue fr_mergeset fr_past] in *. split_and!; [done..| |].
    - intros x Hx. destruct (H3 x Hx). split; [set_solver|done].
    - intros x [->|Hx]%elem_of_cons; [|auto]. apply orb_true_iff in Eb as [Eb%bool_decide_eq_true|Eb%bool_decide_eq_true]; auto. }
  apply orb_false_iff in Eb as [Eb%bool_decide_eq_false _]. rewrite Hreach by done. cbn [mbind result_bind].
  destruct (reaches G y sp) eqn:Ey.
  - destruct (IH (mk_frontier queue ms ({[y]} ∪ past)) Hr') as (new & past' & E & H1 & H2 & H3 & H4); cbn [fr_queue fr_mergeset fr_past] in *.
    { intros x [->%elem_of_singleton|?]%elem_of_union; auto. }
    exists new, past'. split_and!; [done..| |].
    + intros x Hx. destruct (H3 x Hx). split; [set_solver|done].
    + intros x [->|Hx]%elem_of_cons; auto.
  - destruct (IH (mk_frontier (queue ++ [y]) ({[y]} ∪ ms) past) Hr') as (new & past' & E & H1 & H2 & H3 & H4); cbn [fr_queue fr_mergeset fr_past] in *; [done|].
    exists (y :: new), past'. rewrite E. split_and!; [|done|..].
    + f_equal. f_equal; [by rewrite <-app_assoc|]. rewrite list_to_set_cons. set_solver +.
    + constructor; [|done]. intros Hin. destruct (H3 y Hin) as (_ & Hn & _). set_solver +Hn.
    + intros x [->|Hx]%elem_of_cons; [split; [set_solver +|done]|]. destruct (H3 x Hx) as (? & Hn & ?). set_solver.
    + intros x [->|Hx]%elem_of_cons; [left; set_solver +|]. destruct (H4 x Hx) as [?|[?|?]]; set_solver.
Qed.

Context (ps : list hash) (Hps : forall p, p ∈ ps -> p ∈ known G).

Definition merged (x : hash) : Prop := x ∈ known G /\ existsb (reaches G x) ps = true /\ reaches G x sp = false.

Record bfs_inv (f : frontier) : Prop := {
  bf_merged : forall x, x ∈ fr_mergeset f -> merged x;
  bf_past : forall x, x ∈ fr_past f -> reaches G x sp = true;
  bf_queue : forall x, x ∈ fr_queue f -> x ∈ fr_mergeset f;
  bf_start : forall p, p ∈ ps -> p = sp \/ p ∈ fr_mergeset f;
  bf_closed : forall x q, x ∈ fr_mergeset f -> x ∉ fr_queue f -> q ∈ parents_of G x -> q ∈ fr_mergeset f \/ reaches G q sp = true;
}.

Lemma merged_down x q : merged x -> q ∈ parents_of G x -> reaches G q sp = false -> merged q.
Proof.
  intros (Hx & He & _) Hq Hn. split_and!; [by eapply parents_known| |done]. apply existsb_exists in He as (p & Hp & Hr).
  apply existsb_exists. exists p. split; [done|]. eapply (reaches_trans G HG); [|exact Hr]. by apply (parent_below G HG).
Qed.

Abbreviation K := (list_to_set (known G) : gset hash).

Lemma mergeset_loop_run fuel f : bfs_inv f -> (length (fr_queue f) + size (K ∖ fr_mergeset f) <= fuel)%nat ->
  exists M past, mergeset_loop fuel r u sp f = Ok M /\ bfs_inv (mk_frontier [] M past).
Proof.
  revert f. induction fuel as [|fuel IH]; intros [queue ms past] Hi Hf; cbn [fr_queue fr_mergeset fr_past] in *.
  { destruct queue; [|cbn in Hf; lia]. exists ms, past. done. }
  destruct queue as [|x queue]; [by exists ms, past|]. cbn [mergeset_loop fr_queue fr_mergeset fr_past].
  destruct Hi as [I1 I2 I3 I4 I5]. cbn [fr_queue fr_mergeset fr_past] in *.
  assert (Hxm : x ∈ ms) by (apply I3; set_solver +). assert (Hxk : x ∈ known G) by apply (I1 x Hxm).
  rewrite Hrel by done. cbn [unwrapped mbind result_bind].
  destruct (visit_parents_run (parents_of G x) (mk_frontier queue ms past)) as (new & past' & -> & H1 & H2 & H3 & H4);
    [intros q; by apply parents_known|done|]. cbn [mbind result_bind fr_queue fr_mergeset fr_past] in *.
  assert (Hnew : forall q, q ∈ new -> merged q).
  { intros q Hq. destruct (H3 q Hq) as (Hqp & _ & Hn). eapply merged_down; [apply (I1 x Hxm)|done..]. }
  apply IH.
  - split; cbn [fr_queue fr_mergeset fr_past]; [|done|..].
    + intros q [Hq%elem_of_list_to_set|Hq]%elem_of_union; auto.
    + intros q [Hq|Hq]%elem_of_app; [|set_solver +Hq]. apply elem_of_union. right. apply I3. by right.
    + intros p Hp. destruct (I4 p Hp); [by left|right; set_solver].
    + intros y q Hy Hnq Hq. destruct (decide (y = x)) as [->|Hyx].
      { destruct (H4 q Hq) as [?|[?|?]]; [left; set_solver|left; set_solver|by right]. }
      apply elem_of_union in Hy as [Hy%elem_of_list_to_set|Hy]; [set_solver +Hy Hnq|].
      destruct (I5 y q Hy) as [?|?]; [set_solver +Hnq Hyx|done|left; set_solver|by right].
  - cbn [fr_queue fr_mergeset]. rewrite length_app.
    assert (Hsz : (size (K ∖ (list_to_set new ∪ ms)) + length new = size (K ∖ ms))%nat).
    { rewrite <-(size_list_to_set (C := gset hash) new) by done. rewrite Nat.add_comm, <-size_union.
      - f_equal. apply set_eq. intros y. rewrite elem_of_union, !elem_of_difference, elem_of_union, !elem_of_list_to_set.
        destruct (decide (y ∈ new)) as [Hy|Hy]; [|tauto]. destruct (H3 y Hy) as (Hyp & Hym & _).
        pose proof (parents_known G HG x y Hyp). tauto.
      - set_solver +. }
    cbn [length] in Hf. lia.
Qed.

Lemma bfs_complete M past x : bfs_inv (mk_frontier [] M past) -> merged x -> x ∈ M.
Proof.
  intros [I1 I2 I3 I4 I5] (Hx & He & Hn). cbn in *. apply existsb_exists in He as (p & Hp%list_elem_of_In & Hr).
  assert (Hpm : p ∈ M) by (destruct (I4 p Hp) as [->|?]; [congruence|done]). pose proof (Hps p Hp) as Hpk. revert Hr Hpm.
  pattern p. eapply (history_ind G _ HG); [..|exact Hpk].
  - intros Hr Ho. apply (reaches_unfold G HG) in Hr as [->|(q & Hq & _)]; [done| |by apply known_blocks; left].
    rewrite (origin_parents G HG) in Hq. by apply elem_of_nil in Hq.
  - intros y Hy IH Hr Hym. apply (reaches_unfold G HG) in Hr as [->|(q & Hq & Hr)]; [done| |apply known_blocks; by right].
    destruct (I5 y q Hym ltac:(set_solver +) Hq) as [Hqm|Hqs]; [by apply (proj2 (IH q Hq))|]. rewrite (reaches_trans G HG _ _ _ Hr Hqs) in Hn. done.
Qed.

(** The parents may have duplicates, which the header checks do not exclude. *)
Lemma mergeset_run fuel : (forall p, p ∈ ps -> p = sp \/ reaches G p sp = false) -> (length ps + length G < fuel)%nat ->
  exists M, unordered_mergeset_without_selected_parent fuel r u sp ps = Ok M /\ forall x, x ∈ M <-> merged x.
Proof.
  intros Hanti Hf. unfold unordered_mergeset_without_selected_parent. set (queue := filter (fun p => p <> sp) ps).
  assert (Hq : forall x, x ∈ queue <-> x <> sp /\ x ∈ ps) by (intros x; unfold queue; by rewrite list_elem_of_filter).
  assert (Hi : bfs_inv (mk_frontier queue (list_to_set queue) ∅)).
  { split; cbn [fr_queue fr_mergeset fr_past].
    - intros x Hx%elem_of_list_to_set. apply Hq in Hx as [Hne Hx]. split_and!; [auto| |destruct (Hanti x Hx); [done|done]].
      apply existsb_exists. exists x. split; [by apply list_elem_of_In|]. apply (reaches_refl G HG). auto.
    - by intros x ?%elem_of_empty.
    - intros x Hx. by apply elem_of_list_to_set.
    - intros p Hp. destruct (decide (p = sp)); [by left|right]. apply elem_of_list_to_set. by apply Hq.
    - intros x q Hx%elem_of_list_to_set. done. }
  destruct (mergeset_loop_run fuel _ Hi) as (M & past & E & Hfin).
  - cbn [fr_queue fr_mergeset]. assert (length queue <= length ps)%nat by apply length_filter.
    assert (size (K ∖ list_to_set queue) <= size K)%nat by (apply subseteq_size; set_solver +).
    assert (Hsk : size K = (length G + 1)%nat) by (rewrite size_list_to_set by (by apply known_nodup); apply length_known). lia.
  - exists M. split; [done|]. intros x. split; [apply (bf_merged _ Hfin)|by apply (bfs_complete M past)].
Qed.
End mergeset.

(** * Sums of works *)

Lemma elements_add (l : list hash) (X : gset hash) : NoDup l -> (forall x, x ∈ l -> x ∉ X) -> elements (list_to_set l ∪ X) ≡ₚ l ++ elements X.
Proof.
  intros Hnd Hd. rewrite elements_disj_union by set_solver. by rewrite elements_list_to_set.
Qed.
Section sums.
Context (wk : hash -> Z).

Lemma sum_works_app l l' : sum_works wk (l ++ l') = sum_works wk l + sum_works wk l'.
Proof. induction l as [|x l IH]; cbn; lia. Qed.

Lemma sum_works_perm l l' : l ≡ₚ l' -> sum_works wk l = sum_works wk l'.
Proof. induction 1; cbn; lia. Qed.

Lemma sum_works_subset l l' : (forall x, x ∈ l' -> 0 <= wk x) -> NoDup l -> (forall x, x ∈ l -> x ∈ l') -> sum_works wk l <= sum_works wk l'.
Proof.
  intros Hp Hnd Hsub. assert (H : l ⊆+ l') by (by apply NoDup_submseteq).
  apply submseteq_Permutation in H as [l'' E]. rewrite (sum_works_perm _ _ E), sum_works_app.
  assert (0 <= sum_works wk l''); [|lia]. apply sum_works_nonneg. intros x Hx. apply Hp. rewrite E. set_solver.
Qed.

End sums.

Section run.
Context {T S U W : Type} `{GS : SahyadriConsensusStore T, !SahyadriConsensusStoreLaws T, RLS : RelationsStore S, RVS : ReachabilityService U, HB : HeaderBits W}.
Context (m : SahyadriConsensusManager T S U W) (G : list insertion) (wk : hash -> Z).
Abbreviation V := (gs_view (m_store m)).
Abbreviation g := (m_genesis_hash m).
Abbreviation k := (m_k m).

(** The stores of the manager hold the history. *)
Record holds : Prop := {
  ho_valid : valid_history G;
  ho_rooted : rooted g G;
  ho_k : 0 <= k < 65535;
  ho_ok : gs_ok (m_store m);
  ho_ghost : ghost_ok g G V k wk;
  ho_reach : forall x y, x ∈ known G -> y ∈ known G -> rv_is_dag_ancestor_of (m_reachability m) x y = Ok (reaches G x y);
  ho_parents : forall x, x ∈ known G -> rl_get_parents (m_relations m) x = Ok (parents_of G x);
  ho_work : forall x, x ∈ blocks_of G -> exists w, block_work m x = Ok w /\ limbs_ok w /\ length w = 3%nat /\ val w = wk x /\ 1 <= wk x;
  ho_total : sum_works wk (blocks_of G) < 2 ^ 192;
  ho_length : Z.of_nat (length G) < 2 ^ 64;
}.

Context (Hm : holds).

Lemma wk_pos x : x ∈ blocks_of G -> 1 <= wk x.
Proof. intros Hx. destruct (ho_work Hm x Hx) as (w & _ & _ & _ & _ & ?). done. Qed.

(** The blue work of a block is the work of its blue set. *)
Lemma work_total p : p ∈ blocks_of G -> work_of V p = sum_works wk (elements (blue_set V G p)).
Proof.
  pose proof (ho_valid Hm) as HG. pose proof (ho_rooted Hm) as Hroot. pose proof (ho_ghost Hm) as Hgo.
  intros Hp. pattern p. eapply (chain_ind g G); [done..| | |exact Hp].
  - rewrite (blue_set_genesis g G V k wk HG Hroot Hgo). unfold work_of. rewrite (data_genesis g G V k wk Hgo). done.
  - intros y Hy Hne IH. rewrite (bd_work _ _ _ _ _ (go_blocks _ _ _ _ _ Hgo y Hy Hne)), IH, (blue_set_unfold G HG _ y Hy).
    rewrite (sum_works_perm wk _ _ (elements_add _ _ (blues_nodup g G V k wk HG Hgo y Hy Hne)
      (fun x => blues_disjoint g G V k wk HG Hroot Hgo y x Hy Hne))), sum_works_app. lia.
Qed.

Lemma set_works_bound (X : gset hash) : (forall x, x ∈ X -> x ∈ blocks_of G) -> 0 <= sum_works wk (elements X) < 2 ^ 192.
Proof.
  intros HX. split.
  - apply sum_works_nonneg. intros x Hx%elem_of_elements. pose proof (wk_pos x (HX x Hx)). lia.
  - eapply Z.le_lt_trans; [|apply (ho_total Hm)]. apply sum_works_subset; [|apply NoDup_elements|].
    + intros x Hx. pose proof (wk_pos x Hx). lia.
    + intros x Hx%elem_of_elements. auto.
Qed.

(** What the code computes from the coloured mergeset. *)
Lemma finalize_run d : selected_parent d ∈ blocks_of G -> NoDup (mergeset_blues d) ->
  (forall x, x ∈ mergeset_blues d -> x ∈ blocks_of G /\ x ∉ blue_set V G (selected_parent d)) ->
  exists works w, collect (block_work m) (mergeset_blues d) = Ok works /\ w = uint_add (blue_work (data_at V (selected_parent d))) (uint_sum 3 works) /\
    limbs_ok w /\ length w = 3%nat /\ val w = work_of V (selected_parent d) + sum_works wk (mergeset_blues d).
Proof.
  intros Hsp Hnd Hb. set (h x := match block_work m x with Ok w => w | Err _ => [] end).
  assert (Hh : forall x, x ∈ blocks_of G -> block_work m x = Ok (h x) /\ limbs_ok (h x) /\ length (h x) = 3%nat /\ val (h x) = wk x).
  { intros x Hx. unfold h. destruct (ho_work Hm x Hx) as (w & -> & ? & ? & ? & _). done. }
  exists (map h (mergeset_blues d)). eexists. split; [apply collect_map; intros x Hx; apply Hh, Hb, Hx|]. split; [done|].
  assert (Hs : sumZ val (map h (mergeset_blues d)) = sum_works wk (mergeset_blues d)).
  { assert (Hb' : forall x, x ∈ mergeset_blues d -> x ∈ blocks_of G) by (intros x Hx; apply Hb, Hx).
    clear -Hh Hb'. induction (mergeset_blues d) as [|x l IH]; [done|]. change (sumZ val (map h (x :: l))) with (val (h x) + sumZ val (map h l)).
    rewrite IH by set_solver. cbn. destruct (Hh x (Hb' x ltac:(set_solver))) as (_ & _ & _ & ->). done. }
  pose proof (set_works_bound (list_to_set (mergeset_blues d) ∪ blue_set V G (selected_parent d))) as Htot.
  rewrite (sum_works_perm wk _ _ (elements_add _ _ Hnd (fun x Hx => proj2 (Hb x Hx)))), sum_works_app, <-work_total in Htot by done.
  specialize (Htot ltac:(intros x [Hx%elem_of_list_to_set|Hx]%elem_of_union; [apply Hb, Hx|];
    by apply (blue_set_past g G V k wk (ho_valid Hm) (ho_rooted Hm) (ho_ghost Hm)) in Hx as [? _])).
  assert (H0 : 0 <= work_of V (selected_parent d)).
  { unfold work_of. apply val_range. apply (work_limbs _ g G k wk (ho_ghost Hm)). by apply block_known. }
  destruct (uint_sum_spec 3 (map h (mergeset_blues d))) as (S1 & S2 & S3).
  { apply Forall_forall. intros w Hw. apply list_elem_of_fmap in Hw as (x & -> & Hx). destruct (Hh x) as (_ & ? & ? & _); [apply Hb, Hx|done]. }
  { rewrite Hs. change (base 3) with (2 ^ 192). lia. }
  destruct (work_limbs _ g G k wk (ho_ghost Hm) (selected_parent d) (block_known G _ Hsp)) as [L1 L2].
  destruct (uint_add_spec (blue_work (data_at V (selected_parent d))) (uint_sum 3 (map h (mergeset_blues d)))) as (A1 & A2 & A3);
    [done|done|congruence| |].
  { rewrite L2, S3, Hs. change (base 3) with (2 ^ 192). unfold work_of in Htot. lia. }
  split_and!; [done|congruence|]. rewrite A3, S3, Hs. done.
Qed.

Lemma cluster_of p : p ∈ blocks_of G -> kcluster G k (blue_set V G p).
Proof.
  intros Hp. destruct (decide (p = g)) as [->|Hne]; [|apply (bd_cluster _ _ _ _ _ (go_blocks _ _ _ _ _ (ho_ghost Hm) p Hp Hne))].
  rewrite (blue_set_genesis g G V k wk (ho_valid Hm) (ho_rooted Hm) (ho_ghost Hm)). by intros x ?%elem_of_empty.
Qed.

Lemma score_of p : p ∈ blocks_of G -> blue_score (data_at V p) = Z.of_nat (size (blue_set V G p)).
Proof.
  intros Hp. destruct (decide (p = g)) as [->|Hne]; [|apply (bd_score _ _ _ _ _ (go_blocks _ _ _ _ _ (ho_ghost Hm) p Hp Hne))].
  rewrite (blue_set_genesis g G V k wk (ho_valid Hm) (ho_rooted Hm) (ho_ghost Hm)), (data_genesis g G V k wk (ho_ghost Hm)). done.
Qed.

(** The selected parent joins its own blue set. *)
Lemma initial_working sp : sp ∈ blocks_of G -> working m G (new_with_selected_parent sp) [].
Proof.
  pose proof (ho_valid Hm) as HG. pose proof (ho_ghost Hm) as Hgo. intros Hsp.
  assert (Hp : forall x, x ∈ blue_set V G sp -> x <> sp /\ anti G sp x = false /\ anti G x sp = false).
  { intros x Hx. apply (blue_set_past g G V k wk HG (ho_rooted Hm) Hgo sp x Hsp) in Hx as (_ & Hne & Hr). unfold anti. rewrite Hr.
    by rewrite andb_false_r. }
  assert (Hself : anti G sp sp = false) by (unfold anti; by rewrite (reaches_refl G HG) by (by apply block_known)).
  assert (Hn : sp ∉ blue_set V G sp) by (intros Hin; by destruct (Hp sp Hin)).
  assert (EB : blues_of m G (new_with_selected_parent sp) = {[sp]} ∪ blue_set V G sp).
  { unfold blues_of. cbn. set_solver +. }
  assert (E0 : Z.of_nat (size (anticone_in G sp ({[sp]} ∪ blue_set V G sp))) = 0).
  { rewrite anticone_add_size, Hself by done. assert (anticone_in G sp (blue_set V G sp) = ∅) as ->; [|by rewrite size_empty].
    unfold anticone_in. apply set_eq. intros x. rewrite elem_of_filter. split; [|set_solver +]. intros [Ha Hx]. destruct (Hp x Hx) as (_ & E & _). congruence. }
  split; rewrite ?EB; cbn [new_with_selected_parent selected_parent mergeset_blues blues_anticone_sizes]; [done..|apply NoDup_singleton| | |].
  - by intros y ?%elem_of_nil.
  - intros x [->%elem_of_singleton|Hx]%elem_of_union; cbn; [pose proof (ho_k Hm); lia|]. rewrite anticone_add_size by done.
    destruct (Hp x Hx) as (_ & _ & ->). pose proof (cluster_of sp Hsp x Hx) as Hle. cbn in Hle. lia.
  - split.
    + intros x n. rewrite lookup_singleton_Some. intros [<- <-]. split; [set_solver +|done].
    + intros x Hx Hl y ->%list_elem_of_singleton. apply lookup_singleton_None in Hl. split; [done|].
      apply elem_of_union in Hx as [->%elem_of_singleton|Hx]; [done|]. by destruct (Hp x Hx) as (_ & _ & ?).
Qed.

Context (ps : list hash) (Hne : ps <> []) (Hps : forall p, p ∈ ps -> p ∈ blocks_of G).
Context (Hanti : forall p q, p ∈ ps -> q ∈ ps -> reaches G p q = true -> p = q).

Lemma merged_candidates sp c : sp ∈ ps -> merged G sp ps c ->
  c ∈ blocks_of G /\ reaches G c sp = false /\ reaches G sp c = false.
Proof.
  pose proof (ho_valid Hm) as HG. intros Hsp (Hc & He & Hn). split_and!; [|done|].
  - apply known_blocks in Hc as [->|?]; [|done]. rewrite (origin_below G HG) in Hn; [done|]. apply block_known, Hps, Hsp.
  - destruct (reaches G sp c) eqn:E; [|done]. apply existsb_exists in He as (p & Hp%list_elem_of_In & Hr).
    pose proof (Hanti sp p Hsp Hp (reaches_trans G HG _ _ _ E Hr)) as <-. congruence.
Qed.

(** What the data of the new block is. *)
Record consensus_spec (d : SahyadriConsensusData) (L : list hash) : Prop := {
  cs_selected : selected_parent d ∈ ps;
  cs_max : forall q, q ∈ ps -> q = selected_parent d \/ key_lt V q (selected_parent d);
  cs_mergeset : forall x, x ∈ L <-> merged G (selected_parent d) ps x;
  cs_sorted : StronglySorted (key_lt V) L;
  cs_nodup : NoDup L;
  cs_blues : mergeset_blues d = selected_parent d :: (greedy G k ({[selected_parent d]} ∪ blue_set V G (selected_parent d)) L).1;
  cs_reds : mergeset_reds d = (greedy G k ({[selected_parent d]} ∪ blue_set V G (selected_parent d)) L).2;
  cs_distinct : NoDup (mergeset_blues d);
  cs_score : blue_score d = Z.of_nat (size (blues_of m G d));
  cs_work_ok : limbs_ok (blue_work d) /\ length (blue_work d) = 3%nat;
  cs_work : val (blue_work d) = work_of V (selected_parent d) + sum_works wk (mergeset_blues d);
  cs_sizes : sizes_exact G (blues_anticone_sizes d) (mergeset_blues d) (blues_of m G d);
  cs_cluster : kcluster G k (blues_of m G d);
}.

Lemma ordered_mergeset_run fuel sp : sp ∈ ps -> (length ps + length G < fuel)%nat ->
  exists L, ordered_mergeset_without_selected_parent fuel m sp ps = Ok L /\ (forall x, x ∈ L <-> merged G sp ps x) /\
    NoDup L /\ StronglySorted (key_lt V) L.
Proof.
  intros Hsp Hf. unfold ordered_mergeset_without_selected_parent.
  destruct (mergeset_run (m_relations m) (m_reachability m) G sp (ho_valid Hm) (block_known G _ (Hps _ Hsp)) (ho_parents Hm) (ho_reach Hm)
    ps (fun p Hp => block_known G _ (Hps p Hp)) fuel) as (M & -> & HM).
  { intros p Hp. destruct (reaches G p sp) eqn:E; [left; by apply Hanti|by right]. }
  { lia. }
  cbn. destruct (sort_blocks_run (m_store m) g G k wk (ho_valid Hm) (ho_rooted Hm) (ho_ok Hm) (ho_ghost Hm) (elements M)) as (L & -> & Hp & Hs).
  { apply NoDup_elements. }
  { intros x Hx%elem_of_elements%HM. apply Hx. }
  exists L. split; [done|]. split; [|split; [|done]].
  - intros x. by rewrite Hp, elem_of_elements, HM.
  - rewrite Hp. apply NoDup_elements.
Qed.

Lemma score_run d : selected_parent d ∈ blocks_of G -> NoDup (mergeset_blues d) ->
  (forall x, x ∈ mergeset_blues d -> x ∈ blocks_of G /\ x ∉ blue_set V G (selected_parent d)) ->
  wadd64 (blue_score (data_at V (selected_parent d))) (Z.of_nat (length (mergeset_blues d))) = Z.of_nat (size (blues_of m G d)).
Proof.
  intros Hsp Hn Hb. unfold blues_of. rewrite size_union by (intros x Hx%elem_of_list_to_set; apply Hb, Hx).
  rewrite size_list_to_set, score_of by done.
  assert (Hle : (size (list_to_set (mergeset_blues d) ∪ blue_set V G (selected_parent d) : gset hash) <= length G)%nat).
  { assert (Hl : length (blocks_of G) = length G) by apply length_map. rewrite <-Hl.
    rewrite <-(size_list_to_set (C := gset hash) (blocks_of G)).
    - apply subseteq_size. intros x [Hx%elem_of_list_to_set|Hx]%elem_of_union; apply elem_of_list_to_set; [apply Hb, Hx|].
      by apply (blue_set_past g G V k wk (ho_valid Hm) (ho_rooted Hm) (ho_ghost Hm)) in Hx as [? _].
    - pose proof (known_nodup G (ho_valid Hm)) as Hk. clear -Hk. induction G as [|b G' IH]; [constructor|]. cbn in *.
      apply NoDup_cons in Hk as [Hk1 Hk2]. constructor; [|by apply IH]. intros Hin. apply Hk1, known_blocks. by right. }
  rewrite size_union, size_list_to_set in Hle by (done || intros x Hx%elem_of_list_to_set; apply Hb, Hx).
  pose proof (ho_length Hm). rewrite wadd64_small; lia.
Qed.

Lemma sahyadri_consensus_run fuel : (length ps + length G < fuel)%nat ->
  exists d L, sahyadri_consensus fuel m ps = Ok d /\ consensus_spec d L.
Proof.
  pose proof (ho_valid Hm) as HG. pose proof (ho_rooted Hm) as Hroot. pose proof (ho_ghost Hm) as Hgo. pose proof (ho_ok Hm) as Hok.
  intros Hf. unfold sahyadri_consensus. rewrite bool_decide_false by done.
  destruct (find_selected_parent_run (m_store m) g G k wk HG Hroot Hok Hgo ps Hne (fun p Hp => block_known G _ (Hps p Hp)))
    as (sp & -> & Hsp & Hmax). cbn [mbind result_bind].
  rewrite bool_decide_false by (by apply (block_not_origin G HG), Hps).
  destruct (ordered_mergeset_run fuel sp Hsp Hf) as (L & -> & HL & HLn & HLs). cbn [mbind result_bind].
  assert (Hc : forall c, c ∈ L -> c ∈ blocks_of G /\ reaches G c sp = false /\ reaches G sp c = false).
  { intros c Hin%HL. by apply merged_candidates. }
  destruct (color_mergeset_run m G wk HG Hroot (ho_k Hm) Hok Hgo (ho_reach Hm) fuel L (new_with_selected_parent sp) [] ltac:(lia)
    (initial_working sp (Hps sp Hsp)) HLn Hc) as (d & -> & Hds & Hw & Hred).
  { by intros c y _ ?%elem_of_nil. }
  { apply (sorted_topological (m_store m) g G k wk HG Hroot Hok Hgo wk_pos); [intros x Hx; apply Hc, Hx|done]. }
  cbn [mbind result_bind selected_parent new_with_selected_parent] in *. destruct Hw as [W1 W2 W3 W4 W5 W6].
  assert (EB : blues_of m G (new_with_selected_parent sp) = {[sp]} ∪ blue_set V G sp) by (unfold blues_of; cbn; set_solver +).
  rewrite EB in *. cbn [app] in *. rewrite Hds in *.
  assert (Hb : forall x, x ∈ mergeset_blues d -> x ∈ blocks_of G /\ x ∉ blue_set V G (selected_parent d)).
  { rewrite W2, Hds. intros x Hx. split; [apply elem_of_cons in Hx as [->|Hx]; [done|apply W4, Hx]|].
    intros Hin. apply (blue_set_past g G V k wk HG Hroot Hgo sp x W1) in Hin as (_ & Hxne & Hr).
    apply elem_of_cons in Hx as [->|Hx]; [done|]. destruct (W4 x Hx) as (_ & E & _). congruence. }
  pose proof (view_data g G V k wk Hgo _ (block_known G _ W1)) as HV.
  rewrite (law_blue_score _ _ _ Hok HV). cbn [unwrapped mbind result_bind].
  destruct (finalize_run d ltac:(by rewrite Hds) W3 Hb) as (works & w & -> & Ew & Hw1 & Hw2 & Hw3). cbn [mbind result_bind].
  rewrite (law_blue_work _ _ _ Hok HV). cbn [unwrapped mbind result_bind]. rewrite Hds in *. rewrite <-Ew.
  eexists _, L. split; [done|]. pose proof (score_run d ltac:(by rewrite Hds) W3 ltac:(by rewrite Hds)) as Hsc. rewrite Hds in Hsc.
  split; cbn [finalize_score_and_work selected_parent mergeset_blues mergeset_reds blue_score blue_work blues_anticone_sizes]; rewrite ?Hds; try done.
Qed.

(** The block with this data, and a list of the same parents. *)
Definition new_block (h : hash) (us : list hash) (d : SahyadriConsensusData) : insertion :=
  mk_insertion h (selected_parent d) us (data_unordered_mergeset_without_selected_parent d).

Context (us : list hash) (Hus : forall x, x ∈ us <-> x ∈ ps).

Lemma merged_same sp x : merged G sp ps x <-> merged G sp us x.
Proof.
  unfold merged. assert (E : existsb (reaches G x) ps = true <-> existsb (reaches G x) us = true); [|by rewrite E].
  rewrite !existsb_exists. split; intros (p & Hp & Hr); exists p; (split; [|done]); apply list_elem_of_In, Hus, list_elem_of_In, Hp.
Qed.

Lemma new_block_valid h d L : consensus_spec d L -> h ∉ known G -> h <> NONE ->
  valid_insertion G (new_block h us d) /\ in_mergeset (new_block h us d) ≡ₚ L.
Proof.
  intros Hs Hh Hn. assert (Hp : in_mergeset (new_block h us d) ≡ₚ L).
  { cbn. unfold data_unordered_mergeset_without_selected_parent. rewrite (cs_blues _ _ Hs), (cs_reds _ _ Hs). cbn.
    apply greedy_perm. }
  split; [|done]. split; [done|done|..].
  - intros q Hq%Hus. apply block_known. by apply Hps.
  - apply Hus, (cs_selected _ _ Hs).
  - rewrite Hp. apply (cs_nodup _ _ Hs).
  - intros x. rewrite Hp, (cs_mergeset _ _ Hs). apply merged_same.
Qed.

Lemma new_block_data h d L : consensus_spec d L -> h ∉ known G -> h <> NONE ->
  block_data_ok (new_block h us d :: G) (<[h := d]> V) k wk h.
Proof.
  intros Hs Hh Hn. destruct (new_block_valid h d L Hs Hh Hn) as [Hv Hp]. set (b := new_block h us d) in *.
  pose proof (ho_valid Hm) as HG. pose proof (Hps _ (cs_selected _ _ Hs)) as Hspb. pose proof (block_known G _ Hspb) as Hspk.
  pose proof Hs as [C1 C2 C3 C4 C5 C6 C7 C8 C9 C10 C11 C12 C13].
  assert (E1 : selected_of (b :: G) h = selected_parent d) by (cbn; by rewrite bool_decide_true).
  assert (E2 : parents_of (b :: G) h = us) by (cbn; by rewrite bool_decide_true).
  assert (E3 : mergeset_of (b :: G) h = in_mergeset b) by (cbn; by rewrite bool_decide_true).
  assert (ED : data_at (<[h := d]> V) h = d) by apply data_at_new.
  assert (EB : blue_set (<[h := d]> V) (b :: G) (selected_parent d) = blue_set V G (selected_parent d)) by (by apply (blue_set_grow G b Hv HG)).
  assert (EBh : blue_set (<[h := d]> V) (b :: G) h = blues_of m G d).
  { rewrite (blue_set_unfold (b :: G)), E1, EB, ED; [done|done|]. unfold blocks_of. cbn. set_solver +. }
  assert (Hbp : forall x, x ∈ blue_set V G (selected_parent d) -> x ∈ known G).
  { intros x. by apply (blue_set_known g G V k wk HG (ho_rooted Hm) (ho_ghost Hm)). }
  assert (HLk : forall x, x ∈ L -> x ∈ known G) by (intros x Hx%C3; apply Hx).
  assert (Hbl : forall x, x ∈ mergeset_blues d -> x ∈ known G).
  { rewrite C6. intros x [->|Hx]%elem_of_cons; [done|]. apply HLk. rewrite <-(greedy_perm G k ({[selected_parent d]} ∪ blue_set V G (selected_parent d)) L). set_solver +Hx. }
  assert (HBk : forall x, x ∈ blues_of m G d -> x ∈ known G).
  { intros x. unfold blues_of. intros [Hx%elem_of_list_to_set|Hx]%elem_of_union; auto. }
  split; rewrite ?E1, ?E2, ?E3, ?EBh, ?EB, ?ED; try done.
  - intros q Hq%Hus. destruct (C2 q Hq) as [?|?]; [by left|right]. apply (key_lt_agree G b Hv); [by apply block_known, Hps|done..].
  - exists L. rewrite (greedy_grow G b Hv HG k) by (done || intros y [->%elem_of_singleton|Hy]%elem_of_union; auto).
    split_and!; [done|by apply (sorted_grow G V b Hv d)|done..].
  - unfold work_of in *. rewrite ED, (data_at_old G V b Hv d) by done. done.
  - by apply (sizes_exact_grow G b Hv).
  - by apply (kcluster_grow G b Hv).
Qed.

Lemma run_grow h d L : consensus_spec d L -> h ∉ known G -> h <> NONE ->
  valid_history (new_block h us d :: G) /\ rooted g (new_block h us d :: G) /\ ghost_ok g (new_block h us d :: G) (<[h := d]> V) k wk.
Proof.
  intros Hs Hh Hn. destruct (new_block_valid h d L Hs Hh Hn) as [Hv _].
  apply (ghost_grow g G V k wk (ho_valid Hm) (ho_rooted Hm) (ho_ghost Hm) (new_block h us d) Hv d).
  - intros Ho%Hus%Hps. by apply (block_not_origin G (ho_valid Hm)) in Ho.
  - by apply (new_block_data h d L).
Qed.
End run.
