(* ===== verification/WindowTheorems.v ===== *)
(** The block window against its definition: the greatest sampled blocks of the mergesets
    down the selected chain. The bounded heap, the early exits of the walk and the windows
    taken from a cache change nothing. *)

From stdpp Require Import sorting.
From S2P Require Import Prelude Access Uint UintCorrect Header Interval Reach ReachTree ReachStores ReachDag ReachHistory Work Relations Ghostdag GhostdagStores HeaderStores Difficulty Window Dag GhostdagSpec GhostdagColor GhostdagOrder GhostdagRun.

Implicit Types (B w rest : list SortableBlock).

Lemma min_from_spec best B : min_from best B ∈ best :: B /\ forall x, x ∈ best :: B -> sortable_le (min_from best B) x.
Proof.
  revert best. induction B as [|y B IH]; intros best; cbn [min_from].
  { split; [set_solver|]. intros x ->%list_elem_of_singleton. by destruct (sortable_le_total best best). }
  set (best' := match sortable_cmp y best with Lt => y | _ => best end). destruct (IH best') as [Hin Hle].
  assert (Hb : (best' = best \/ best' = y) /\ sortable_le best' best /\ sortable_le best' y).
  { unfold best', sortable_le. pose proof (sortable_cmp_opp y best) as Ho. assert (Hr : forall z, sortable_cmp z z <> Gt).
    { intros z. destruct (sortable_le_total z z) as [H|H]; exact H. }
    destruct (sortable_cmp y best) eqn:E; cbn in Ho; split_and!; auto; try congruence; try apply Hr. }
  destruct Hb as (Hb & H1 & H2). split.
  { apply elem_of_cons in Hin as [->|Hin]; [|by right; right]. destruct Hb as [->| ->]; [by left|by right; left]. }
  intros x [->|[->|Hx]%elem_of_cons]%elem_of_cons; [by etrans; [apply Hle; left|]..|apply Hle; by right].
Qed.

Lemma heap_peek_spec w x : heap_peek w = Some x -> x ∈ w /\ forall y, y ∈ w -> sortable_le x y.
Proof. destruct w as [|b w]; [done|]. intros E%(inj Some). subst x. apply min_from_spec. Qed.

Lemma remove_first_perm x w : x ∈ w -> x :: remove_first x w ≡ₚ w.
Proof.
  induction w as [|y w IH]; [by intros ?%elem_of_nil|]. cbn. case_decide as E; [by subst|]. intros [?|Hx]%elem_of_cons; [congruence|].
  rewrite <-(IH Hx) at 2. constructor.
Qed.

Lemma heap_pop_perm w x : heap_peek w = Some x -> x :: heap_pop w ≡ₚ w.
Proof. intros E. unfold heap_pop. rewrite E. apply remove_first_perm. by apply heap_peek_spec. Qed.

(** [w] are greatest blocks of [B]. *)
Definition upper B w rest : Prop := w ++ rest ≡ₚ B /\ forall a b, a ∈ w -> b ∈ rest -> sortable_le b a.

(** [w] are the [n] greatest blocks of [B], or all of them when there are not as many. *)
Definition is_top (n : nat) B w : Prop :=
  exists rest, upper B w rest /\ (length w <= n)%nat /\ ((length w < n)%nat -> rest = []).

Lemma is_top_nil n : is_top n [] [].
Proof. exists []. split_and!; [split; [done|by intros ?? ?%elem_of_nil]|cbn; lia|done]. Qed.

#[export] Instance is_top_proper n : Proper ((≡ₚ) ==> (≡ₚ) ==> iff) (is_top n).
Proof.
  assert (Hi : forall B B' w w', B ≡ₚ B' -> w ≡ₚ w' -> is_top n B w -> is_top n B' w').
  { intros B B' w w' ES Ew (rest & [H1 H2] & H3 & H4). exists rest. unfold upper. rewrite <-ES, <-Ew. split_and!; [done| |done..].
    intros a b Ha. apply H2. by rewrite Ew. }
  intros B B' ES w w' Ew. split; [by apply Hi|by apply Hi].
Qed.

Lemma upper_pop B w rest x : upper B w rest -> heap_peek w = Some x -> upper B (heap_pop w) (x :: rest).
Proof.
  intros [H1 H2] E. pose proof (heap_pop_perm _ _ E) as Hp. destruct (heap_peek_spec _ _ E) as [Hx Hmin]. split.
  - rewrite <-H1, <-Permutation_middle. apply (Permutation_app_tail rest Hp).
  - assert (Hin : forall a, a ∈ heap_pop w -> a ∈ w) by (intros a Ha; rewrite <-Hp; by right).
    intros a b Ha [->|Hb]%elem_of_cons; [by apply Hmin, Hin|]. apply H2; [by apply Hin|done].
Qed.

Lemma heap_pop_length w : length (heap_pop w) = (length w - 1)%nat.
Proof.
  destruct (heap_peek w) as [x|] eqn:E; [|by destruct w].
  pose proof (Permutation_length (heap_pop_perm _ _ E)) as H. cbn in H. lia.
Qed.

Lemma heap_peek_some w : w <> [] -> exists x, heap_peek w = Some x.
Proof. destruct w; [done|]. intros _. by eexists. Qed.

Lemma upper_pops B w rest k : upper B w rest -> (k <= length w)%nat ->
  exists rest', upper B (Nat.iter k heap_pop w) rest' /\ length (Nat.iter k heap_pop w) = (length w - k)%nat.
Proof.
  intros Hu. induction k as [|k IH]; intros Hk; [exists rest; split; [done|cbn; lia]|].
  destruct (IH ltac:(lia)) as (r & Hr & Hl). change (Nat.iter (S k) heap_pop w) with (heap_pop (Nat.iter k heap_pop w)). set (w' := Nat.iter k heap_pop w) in *.
  destruct (heap_peek_some w') as (x & Ex); [intros E; apply (f_equal length) in E; cbn in E; lia|].
  exists (x :: r). split; [by apply upper_pop|]. rewrite heap_pop_length. lia.
Qed.

(** * Pushing a block *)

Lemma try_push_top n B w b : (0 < n)%nat -> is_top n B w ->
  is_top n (b :: B) (binary_heap (try_push (mk_bounded w n) b).1) /\ size_bound (try_push (mk_bounded w n) b).1 = n /\
  ((try_push (mk_bounded w n) b).2 = false -> length w = n /\ (try_push (mk_bounded w n) b).1 = mk_bounded w n /\
    forall a, a ∈ w -> sortable_le b a).
Proof.
  intros Hn (rest & [H1 H2] & H3 & H4). unfold try_push, reached_size_bound. cbn [binary_heap size_bound].
  destruct (Nat.eqb_spec (length w) n) as [E|E].
  - destruct (heap_peek_some w) as (x & Ex); [intros ->; cbn in E; lia|]. rewrite Ex. pose proof (heap_pop_perm _ _ Ex) as Hp.
    destruct (heap_peek_spec _ _ Ex) as [Hx Hmin]. pose proof (heap_pop_length w) as Hl.
    assert (Hpush : sortable_le x b -> is_top n (b :: B) (b :: heap_pop w)).
    { intros Hle. destruct (upper_pop B w rest x (conj H1 H2) Ex) as [P1 P2]. exists (x :: rest). split_and!; [split|cbn; lia..].
      - rewrite <-P1. by cbn.
      - intros a c [->|Ha]%elem_of_cons Hc; [|by apply P2]. apply elem_of_cons in Hc as [->|Hc]; [done|].
        etrans; [by apply (H2 x c)|done]. }
    destruct (sortable_cmp b x) eqn:Ec; cbn [fst snd binary_heap size_bound]; (split; [|split; [done|]]); try done.
    + apply Hpush. apply sortable_cmp_eq in Ec as ->. by destruct (sortable_le_total x x).
    + exists (b :: rest). split_and!; [split|lia..].
      * by rewrite <-H1, Permutation_middle.
      * intros a c Ha [->|Hc]%elem_of_cons; [|by apply H2]. etrans; [|by apply Hmin]. unfold sortable_le. by rewrite Ec.
    + intros _. split_and!; [done..|]. intros a Ha. etrans; [|by apply Hmin]. unfold sortable_le. by rewrite Ec.
    + apply Hpush. unfold sortable_le. rewrite (sortable_cmp_opp b x), Ec. done.
  - cbn [fst snd binary_heap size_bound]. split_and!; [|done|done]. specialize (H4 ltac:(lia)) as ->. rewrite app_nil_r in H1.
    exists []. split_and!; [split; [by rewrite app_nil_r, H1|by intros ?? _ ?%elem_of_nil]|cbn; lia|done].
Qed.

(** * Merging heaps *)

(** The greatest of the greatest are the greatest of all. *)
Lemma is_top_of_top n B1 B2 w1 u : is_top n B1 w1 -> is_top n (w1 ++ B2) u -> is_top n (B1 ++ B2) u.
Proof.
  intros (r1 & [A1 A2] & A3 & A4) (v & [D1 D2] & D3 & D4). exists (v ++ r1). destruct (decide (r1 = [])) as [->|Hr].
  { rewrite app_nil_r in *. rewrite A1 in D1. by split_and!. }
  assert (Hw1 : length w1 = n) by (destruct (decide (length w1 < n)%nat) as [Hlt|]; [by apply A4 in Hlt|lia]).
  pose proof (Permutation_length D1) as HL. rewrite !length_app in HL.
  assert (Hu : length u = n) by (destruct (decide (length u < n)%nat) as [Hlt|]; [apply D4 in Hlt as ->; cbn in HL; lia|lia]).
  split_and!; [split|done|lia].
  - rewrite app_assoc, D1, <-A1, <-!app_assoc. by rewrite (Permutation_app_comm B2 r1).
  - intros a b Ha [Hb|Hb]%elem_of_app; [by apply D2|]. assert (Hsub : w1 ⊆+ u ++ v) by (rewrite D1; apply submseteq_inserts_r; done).
    apply submseteq_app_r in Hsub as (k1 & k2 & Ek & Hk1 & Hk2). destruct k2 as [|c k2].
    + rewrite app_nil_r in Ek. apply A2; [|done]. rewrite Ek. apply submseteq_length_Permutation in Hk1; [by rewrite Hk1|].
      rewrite <-Ek. lia.
    + transitivity c.
      * apply A2; [|done]. rewrite Ek. set_solver +.
      * apply D2; [done|]. eapply elem_of_submseteq; [|exact Hk2]. by left.
Qed.

Lemma merge_heap_top n B1 B2 w1 w2 : is_top n B1 w1 -> is_top n B2 w2 ->
  is_top n (B1 ++ B2) (binary_heap (merge_ancestor_heap (mk_bounded w1 n) w2)).
Proof.
  intros H1 H2. apply (is_top_of_top n B1 B2 w1); [done|]. rewrite (Permutation_app_comm w1 B2).
  apply (is_top_of_top n B2 w1 w2); [done|]. unfold merge_ancestor_heap. cbn [binary_heap size_bound].
  rewrite (Permutation_app_comm w2 w1). set (k := (length (w1 ++ w2) - n)%nat).
  assert (Hu : upper (w1 ++ w2) (w1 ++ w2) []) by (split; [by rewrite app_nil_r|by intros ?? _ ?%elem_of_nil]).
  destruct (decide (length (w1 ++ w2) <= n)%nat) as [Hle|Hgt].
  { assert (Ek : k = 0%nat) by (unfold k; lia). rewrite Ek. exists []. by split_and!. }
  destruct (upper_pops _ _ _ k Hu ltac:(unfold k; lia)) as (rest & Hr & Hl). exists rest. split_and!; [done|unfold k in *; lia..].
Qed.

(** * Blocks that cannot enter *)

Lemma is_top_skip n B B' w : is_top n B w -> length w = n -> (forall a b, a ∈ w -> b ∈ B' -> sortable_le b a) -> is_top n (B ++ B') w.
Proof.
  intros (rest & [H1 H2] & H3 & H4) Hl Hs. exists (rest ++ B'). split_and!; [split|done|lia].
  - by rewrite app_assoc, H1.
  - intros a b Ha [Hb|Hb]%elem_of_app; auto.
Qed.

Lemma can_push_run n B w b : (0 < n)%nat -> is_top n B w ->
  exists c, can_push (mk_bounded w n) b = Some c /\ (c = false -> length w = n /\ forall a, a ∈ w -> sortable_le b a).
Proof.
  intros Hn (rest & _ & H3 & _). unfold can_push, reached_size_bound. cbn [binary_heap size_bound].
  destruct (Nat.eqb_spec (length w) n) as [E|E]; [|by eexists].
  destruct (heap_peek_some w) as (x & Ex); [intros ->; cbn in E; lia|]. rewrite Ex. cbn. eexists. split; [done|].
  destruct (sortable_cmp b x) eqn:Ec; try done. intros _. split; [done|]. intros a Ha. etrans; [|by apply (heap_peek_spec _ _ Ex)].
  unfold sortable_le. by rewrite Ec.
Qed.

(** * The greatest blocks are unique *)

Definition sortable_ge (a b : SortableBlock) : Prop := sortable_le b a.

#[export] Instance sortable_ge_dec a b : Decision (sortable_ge a b) := sortable_le_dec b a.
#[export] Instance sortable_ge_total : Total sortable_ge.
Proof. intros a b. destruct (sortable_le_total a b); [by right|by left]. Qed.
#[export] Instance sortable_ge_trans : Transitive sortable_ge.
Proof. intros a b c H1 H2. unfold sortable_ge in *. by transitivity b. Qed.

(** The reference: sort, then keep the first [n]. *)
Definition greatest (n : nat) B : list SortableBlock := take n (merge_sort sortable_ge B).

Lemma greatest_length n B : length (greatest n B) = Nat.min n (length B).
Proof. unfold greatest. by rewrite length_take, merge_sort_Permutation. Qed.

Lemma sorted_split (l1 l2 : list SortableBlock) : StronglySorted sortable_ge (l1 ++ l2) -> forall a b, a ∈ l1 -> b ∈ l2 -> sortable_le b a.
Proof.
  induction l1 as [|x l1 IH]; cbn; [by intros _ ?? ?%elem_of_nil|]. intros Hs a b Ha Hb. apply StronglySorted_inv in Hs as [Hs Hf].
  apply elem_of_cons in Ha as [->|Ha]; [|by apply IH]. rewrite Forall_forall in Hf. apply Hf. set_solver.
Qed.

Lemma is_top_unique n B w w' : is_top n B w -> is_top n B w' -> w ≡ₚ w'.
Proof.
  intros (r & [A1 A2] & A3 & A4) (r' & [B1 B2] & B3 & B4).
  assert (Hs : forall u v, upper B u v -> merge_sort sortable_ge u ++ merge_sort sortable_ge v = merge_sort sortable_ge B).
  { intros u v [H1 H2]. apply (StronglySorted_unique_strong sortable_ge).
    - intros a b _ _ ??. unfold sortable_ge in *. by apply (anti_symm sortable_le).
    - apply StronglySorted_app; split_and!; [|apply StronglySorted_merge_sort; apply _..]. intros a b Ha Hb.
      rewrite merge_sort_Permutation in Ha, Hb. by apply H2.
    - apply StronglySorted_merge_sort; apply _.
    - by rewrite !merge_sort_Permutation. }
  pose proof (Hs _ _ (conj A1 A2)) as E1. rewrite <-(Hs _ _ (conj B1 B2)) in E1.
  assert (Hl : length w = length w').
  { pose proof (Permutation_length A1) as L1. pose proof (Permutation_length B1) as L2. rewrite length_app in L1, L2.
    destruct (decide (length w < n)%nat) as [Hw|]; [apply A4 in Hw as ->|]; (destruct (decide (length w' < n)%nat) as [Hw'|]; [apply B4 in Hw' as ->|]); cbn in *; lia. }
  apply app_inj_1 in E1 as [E1 _]; [|by rewrite !merge_sort_Permutation].
  by rewrite <-(merge_sort_Permutation sortable_ge w), E1, merge_sort_Permutation.
Qed.

Lemma greatest_top n B : is_top n B (greatest n B).
Proof.
  unfold greatest. exists (drop n (merge_sort sortable_ge B)). split_and!; [split|..].
  - by rewrite take_drop, merge_sort_Permutation.
  - apply sorted_split. rewrite take_drop. apply StronglySorted_merge_sort; apply _.
  - rewrite length_take. lia.
  - rewrite length_take. intros H. apply drop_ge. lia.
Qed.

(** * Merging sorted lists *)

(** The lists are in decreasing order and have no block in common. *)
Lemma merge_join_desc (l1 l2 : list SortableBlock) :
  StronglySorted sortable_ge l1 -> StronglySorted sortable_ge l2 -> (forall a, a ∈ l1 -> a ∉ l2) ->
  exists l, merge_join (fun a b => sortable_cmp b a) l1 l2 = Ok l /\ l ≡ₚ l1 ++ l2 /\ StronglySorted sortable_ge l.
Proof.
  revert l2. induction l1 as [|a l1 IH1]; intros l2 H1 H2 Hd.
  { exists l2. by destruct l2. }
  induction l2 as [|b l2 IH2].
  { exists (a :: l1). by rewrite app_nil_r. }
  apply StronglySorted_inv in H1 as [H1 F1]. pose proof H2 as H2'. apply StronglySorted_inv in H2' as [H2' F2].
  assert (Hle : forall x (l l' : list SortableBlock), l ≡ₚ l' -> StronglySorted sortable_ge l -> (forall z, z ∈ l' -> sortable_le z x) ->
    StronglySorted sortable_ge (x :: l)).
  { intros x l l' Hp Hs Hf. constructor; [done|]. apply Forall_forall. intros z Hz. apply Hf. by rewrite <-Hp. }
  rewrite Forall_forall in F1, F2. cbn. destruct (sortable_cmp b a) eqn:E.
  - apply sortable_cmp_eq in E as ->. exfalso. by apply (Hd a ltac:(by left)); left.
  - destruct (IH1 (b :: l2) H1 H2) as (l & -> & Hp & Hs); [intros x Hx; apply Hd; by right|]. exists (a :: l). split; [done|].
    split; [by rewrite Hp|]. apply (Hle a l _ Hp Hs). assert (Hb : sortable_le b a) by (unfold sortable_le; by rewrite E).
    intros z [Hz|[->|Hz]%elem_of_cons]%elem_of_app; [by apply F1|done|]. etrans; [by apply (F2 z)|done].
  - destruct IH2 as (l & Hr & Hp & Hs); [done|intros x Hx Hx2; apply (Hd x Hx); by right|]. cbn in Hr. rewrite Hr. exists (b :: l). split; [done|].
    split; [rewrite Hp; cbn; rewrite (Permutation_middle (a :: l1) l2 b); done|].
    apply (Hle b l _ Hp Hs). assert (Ha : sortable_le a b) by (unfold sortable_le; by rewrite (sortable_cmp_opp b a), E).
    intros z [[->|Hz]%elem_of_cons|Hz]%elem_of_app; [done| |by apply F2]. etrans; [by apply (F1 z)|done].
Qed.

Lemma sorted_reverse_keys {A} (R : A -> A -> Prop) (f : A -> SortableBlock) l :
  (forall x y, x ∈ l -> y ∈ l -> R x y -> sortable_le (f x) (f y)) -> StronglySorted R l -> StronglySorted sortable_ge (map f (reverse l)).
Proof.
  intros Hf Hs. induction Hs as [|a l Hs IH Ha]; [constructor|]. rewrite reverse_cons, map_app. rewrite Forall_forall in Ha.
  apply StronglySorted_app. split_and!; [|apply IH; intros; apply Hf; by try right|repeat constructor].
  intros x y (z & -> & Hz)%list_elem_of_fmap ->%list_elem_of_singleton. unfold sortable_ge. rewrite elem_of_reverse in Hz.
  apply Hf; [by left|by right|by apply Ha].
Qed.

(** * The sampled blocks *)

Definition samples (l : list SampledBlock) : list SortableBlock :=
  omap (fun b => match b with Sampled s => Some s | NonDaa _ => None end) l.

Definition non_daa (l : list SampledBlock) : gset hash :=
  list_to_set (omap (fun b => match b with Sampled _ => None | NonDaa h => Some h end) l).

Lemma push_all_top n (l : list SampledBlock) B w nd : (0 < n)%nat -> is_top n B w ->
  exists w', push_all l (mk_bounded w n) nd = (mk_bounded w' n, non_daa l ∪ nd) /\ is_top n (samples l ++ B) w'.
Proof.
  intros Hn. revert B w nd. induction l as [|[b|h] l IH]; intros B w nd Hw; cbn [push_all].
  - exists w. split; [|done]. f_equal. unfold non_daa. cbn. set_solver +.
  - destruct (try_push_top n B w b Hn Hw) as (H1 & H2 & _). destruct (try_push _ b).1 as [w1 n1]. cbn in H1, H2. subst n1.
    destruct (IH (b :: B) w1 nd H1) as (w' & -> & Hw'). exists w'. split; [done|]. cbn. by rewrite (Permutation_middle (samples l) B b).
  - destruct (IH B w ({[h]} ∪ nd) Hw) as (w' & -> & Hw'). exists w'. split; [|done]. f_equal. unfold non_daa. cbn. set_solver +.
Qed.

(** A walk over a decreasing list may stop at the first block that does not enter. *)
Lemma push_until_full_top n (l : list SampledBlock) B w : (0 < n)%nat -> is_top n B w -> StronglySorted sortable_ge (samples l) ->
  exists w', push_until_full l (mk_bounded w n) = mk_bounded w' n /\ is_top n (samples l ++ B) w'.
Proof.
  intros Hn. revert B w. induction l as [|[b|h] l IH]; intros B w Hw Hs; cbn [push_until_full].
  - by exists w.
  - destruct (try_push_top n B w b Hn Hw) as (H1 & H2 & H3). destruct (try_push _ b) as [[w1 n1] [|]]; cbn in *; subst n1.
    + apply StronglySorted_inv in Hs as [Hs _]. destruct (IH (b :: B) w1 H1 Hs) as (w' & -> & Hw').
      exists w'. split; [done|]. by rewrite (Permutation_middle (samples l) B b).
    + destruct (H3 eq_refl) as (Hl & [= ->] & Hb). exists w. split; [done|].
      rewrite (Permutation_app_comm (samples l) B), (Permutation_middle B (samples l) b) at 1.
      apply is_top_skip; [done..|]. apply StronglySorted_inv in Hs as [_ Hf]. rewrite Forall_forall in Hf.
      intros a c Ha [->|Hc]%elem_of_cons; [by apply Hb|]. transitivity b; [by apply Hf|by apply Hb].
  - apply IH; done.
Qed.

(** * The reference *)

Section reference.
Context {T : Type} `{SahyadriConsensusStore T} (m : SampledWindowManager T).

(** The sampled blocks of the mergesets from [d] down to the genesis. *)
Fixpoint chain_samples (fuel : nat) (rate : Z) (d : SahyadriConsensusData) : result stop (list SortableBlock) :=
  if bool_decide (selected_parent d = wm_genesis_hash m) then Ok []
  else
    match fuel with
    | O => Err Diverges
    | S fuel' =>
        parent_data ← unwrapped_fault (gs_get_data (wm_store m) (selected_parent d));
        l ← sampled_mergeset_iterator m rate d (blue_work parent_data);
        rest ← chain_samples fuel' rate parent_data;
        Ok (samples l ++ rest)
    end.

Definition reference_window (fuel : nat) (d : SahyadriConsensusData) (window_type : WindowType) : result stop BlockWindowHeap :=
  all ← chain_samples fuel (sample_rate m window_type) d;
  Ok (greatest (window_size m window_type) all).

(** The blocks of the mergeset below the DAA window. *)
Definition reference_non_daa (d : SahyadriConsensusData) : result stop (gset hash) :=
  if bool_decide (selected_parent d = wm_genesis_hash m) then Ok {[wm_genesis_hash m]}
  else
    scores ← collect (fun h => score ← unwrapped (gs_get_blue_score (wm_store m) h); Ok (h, score)) (unordered_mergeset d);
    Ok (list_to_set (map fst (filter (fun p => p.2 < lowest_daa_blue_score (wm_difficulty_manager m) d) scores))).

(** What a cache holds of a block is a permutation of its window. *)
Definition cache_consistent (fuel : nat) (window_type : WindowType) : Prop :=
  forall h w, cache_of m window_type !! h = Some w ->
    exists d w', gs_get_data (wm_store m) h = Ok d /\ reference_window fuel d window_type = Ok w' /\ w ≡ₚ w'.
End reference.

(** * On a history *)

Section ledger.
Context {T : Type} `{GS : SahyadriConsensusStore T, !SahyadriConsensusStoreLaws T}.
Context (m : SampledWindowManager T) (G : list insertion) (k : Z) (wk : hash -> Z).
Abbreviation s := (wm_store m).
Abbreviation V := (gs_view s).
Abbreviation g := (wm_genesis_hash m).

(** The stores of the manager hold the history. *)
Record window_holds : Prop := {
  wh_valid : valid_history G;
  wh_rooted : rooted g G;
  wh_ok : gs_ok s;
  wh_ghost : ghost_ok g G V k wk;
  wh_work : forall x, x ∈ blocks_of G -> 1 <= wk x;
  wh_daa : forall x, x ∈ blocks_of G -> exists score, get_daa_score (wm_headers_store m) x = Ok score;
}.

(** The data of a block of the history, or of one to be added to it. *)
Record ordered_data (d : SahyadriConsensusData) : Prop := {
  od_selected : selected_parent d ∈ blocks_of G;
  od_blues : exists blues, mergeset_blues d = selected_parent d :: blues /\ StronglySorted (key_lt V) blues /\
    NoDup (blues ++ mergeset_reds d) /\ forall x, x ∈ blues ++ mergeset_reds d -> x ∈ blocks_of G /\ key_lt V x (selected_parent d);
  od_reds : StronglySorted (key_lt V) (mergeset_reds d);
}.

Context (Hm : window_holds).
Let HG := wh_valid Hm.
Let Hroot := wh_rooted Hm.
Let Hgo := wh_ghost Hm.

Abbreviation key := (key_of s).

Lemma key_lt_le x y : x ∈ known G -> y ∈ known G -> key_lt V x y -> sortable_le (key x) (key y).
Proof. intros Hx Hy Hlt. unfold sortable_le. by rewrite (proj2 (key_cmp s g G k wk Hgo x y Hx Hy) Hlt). Qed.

(** The mergeset in decreasing order, all of it below the selected parent. *)
Lemma descending_run d : ordered_data d ->
  exists l, descending_mergeset_without_selected_parent s d = Ok (map key l) /\ selected_parent d :: l ≡ₚ unordered_mergeset d /\
    (forall x, x ∈ l -> x ∈ blocks_of G) /\ StronglySorted sortable_ge (map key (selected_parent d :: l)).
Proof.
  intros [Hsp (blues & Eb & Sb & Hnd & Hall) Sr]. unfold descending_mergeset_without_selected_parent. rewrite Eb.
  change (drop 1 (selected_parent d :: blues)) with blues.
  assert (Hk : forall x, x ∈ blues ++ mergeset_reds d -> x ∈ known G) by (intros x Hx; apply block_known, Hall, Hx).
  assert (Hkb : forall x, x ∈ blues -> x ∈ known G) by (intros x Hx; apply Hk; set_solver +Hx).
  assert (Hkr : forall x, x ∈ mergeset_reds d -> x ∈ known G) by (intros x Hx; apply Hk; set_solver +Hx).
  pose proof (collect_keys s g G k wk HG Hroot (wh_ok Hm) Hgo) as Hck.
  rewrite (Hck (reverse blues)), (Hck (reverse (mergeset_reds d))); [|intros x Hx; apply Hkr, elem_of_reverse, Hx|intros x Hx; apply Hkb, elem_of_reverse, Hx]. cbn [mbind result_bind].
  destruct (merge_join_desc (map key (reverse blues)) (map key (reverse (mergeset_reds d)))) as (l & Hl & Hp & Hs).
  - apply (sorted_reverse_keys (key_lt V)); [|done]. intros; apply key_lt_le; auto.
  - apply (sorted_reverse_keys (key_lt V)); [|done]. intros; apply key_lt_le; auto.
  - intros a (x & -> & Hx)%list_elem_of_fmap (y & Ey & Hy)%list_elem_of_fmap. rewrite elem_of_reverse in Hx, Hy.
    injection Ey as -> _. apply NoDup_app in Hnd as (_ & Hd & _). by apply (Hd y).
  - assert (El : l = map key (map sb_hash l)).
    { assert (Ha : forall a, a ∈ l -> a = key (sb_hash a)).
      { intros a. rewrite Hp, <-map_app. by intros (x & -> & _)%list_elem_of_fmap. }
      clear -Ha. induction l as [|a l IH]; [done|]. cbn. f_equal; [apply Ha; by left|]. apply IH. intros b Hb. apply Ha. by right. }
    assert (Hpl : map sb_hash l ≡ₚ blues ++ mergeset_reds d).
    { rewrite Hp, map_app, !map_map. cbn. rewrite !map_id. by rewrite !reverse_Permutation. }
    exists (map sb_hash l). rewrite <-El. split; [done|]. split; [unfold unordered_mergeset; rewrite Eb; cbn; by rewrite Hpl|].
    split; [intros x; rewrite Hpl; apply Hall|]. cbn [map]. rewrite <-El. constructor; [done|]. apply Forall_forall. intros a.
    rewrite El. intros (x & -> & Hx)%list_elem_of_fmap. rewrite Hpl in Hx. apply key_lt_le; [by apply Hk|by apply block_known|by apply Hall].
Qed.

Lemma block_view x : x ∈ blocks_of G -> V !! x = Some (data_at V x).
Proof. intros Hx. apply (view_data g G V k wk Hgo). by apply block_known. Qed.

(** The sampled blocks are a part of the blocks, in their order. *)
Lemma sample_run rate score threshold index l : (forall x, x ∈ l -> x ∈ blocks_of G) ->
  exists r, sample m rate score threshold index (map key l) = Ok r /\ samples r `sublist_of` map key l /\
    non_daa r = list_to_set (filter (fun x => blue_score (data_at V x) < threshold) l).
Proof.
  revert index. induction l as [|x l IH]; intros index Hl; [by exists []|].
  assert (Hx : x ∈ blocks_of G) by (apply Hl; by left). assert (Hl' : forall y, y ∈ l -> y ∈ blocks_of G) by (intros y Hy; apply Hl; by right).
  cbn [sample map]. cbn [key_of sb_hash]. rewrite (law_blue_score _ _ _ (wh_ok Hm) (block_view x Hx)). cbn [unwrapped mbind result_bind].
  rewrite filter_cons. destruct (Z.ltb_spec (blue_score (data_at V x)) threshold) as [Hlt|Hge].
  - destruct (IH index Hl') as (r & -> & Hs & Hn). exists (NonDaa x :: r). rewrite decide_True by done.
    split_and!; [done|by apply sublist_cons|]. unfold non_daa in *. cbn. by rewrite Hn.
  - destruct (IH (wadd64 index 1) Hl') as (r & -> & Hs & Hn). cbn. eexists. split; [done|]. rewrite decide_False by lia.
    destruct (is_multiple_of _ _); split; [by apply sublist_skip|done|by apply sublist_cons|done].
Qed.

Lemma sorted_sublist (l l' : list SortableBlock) : l `sublist_of` l' -> StronglySorted sortable_ge l' -> StronglySorted sortable_ge l.
Proof.
  induction 1 as [|x l l' Hs IH|x l l' Hs IH]; intros Hsort; [done|..]; apply StronglySorted_inv in Hsort as [Hsort Hf]; [|by apply IH].
  constructor; [by apply IH|]. rewrite Forall_forall in Hf |- *. intros y Hy. apply Hf. by eapply elem_of_sublist.
Qed.

Definition below_window (d : SahyadriConsensusData) : gset hash :=
  list_to_set (filter (fun x => blue_score (data_at V x) < lowest_daa_blue_score (wm_difficulty_manager m) d) (unordered_mergeset d)).

Lemma iterator_run rate d : ordered_data d ->
  exists l, sampled_mergeset_iterator m rate d (blue_work (data_at V (selected_parent d))) = Ok l /\ StronglySorted sortable_ge (samples l) /\
    (forall b, b ∈ samples l -> sortable_le b (key (selected_parent d)) /\ sb_hash b ∈ blocks_of G) /\ non_daa l = below_window d.
Proof.
  intros Hd. destruct (descending_run d Hd) as (l & Hl & Hp & Hb & Hs). unfold sampled_mergeset_iterator.
  destruct (wh_daa Hm _ (od_selected d Hd)) as (score & ->). cbn [unwrapped mbind result_bind]. rewrite Hl. cbn [mbind result_bind].
  change (mk_sortable (selected_parent d) _ :: map key l) with (map key (selected_parent d :: l)).
  destruct (sample_run rate score (lowest_daa_blue_score (wm_difficulty_manager m) d) 0 (selected_parent d :: l)) as (r & Hr & Hsub & Hn).
  { intros x [->|Hx]%elem_of_cons; [apply (od_selected d Hd)|by apply Hb]. }
  exists r. split_and!; [done|by eapply sorted_sublist| |].
  - intros b Hbs. assert (Hin : b ∈ map key (selected_parent d :: l)) by (by eapply elem_of_sublist). split; cycle 1.
    { apply list_elem_of_fmap in Hin as (x & -> & [->|Hx]%elem_of_cons); [apply (od_selected d Hd)|by apply Hb]. }
    cbn [map] in Hs, Hin.
    apply StronglySorted_inv in Hs as [_ Hf]. rewrite Forall_forall in Hf. apply elem_of_cons in Hin as [->|Hin]; [by destruct (sortable_le_total (key (selected_parent d)) (key (selected_parent d)))|by apply Hf].
  - rewrite Hn. unfold below_window. by rewrite Hp.
Qed.

(** * Down the chain *)

Lemma greedy_sorted (R : hash -> hash -> Prop) (c : Z) (S : gset hash) L : StronglySorted R L ->
  StronglySorted R (greedy G c S L).1 /\ StronglySorted R (greedy G c S L).2.
Proof.
  intros Hs. revert S. induction Hs as [|x L Hs IH Hx]; intros S; [split; constructor|]. cbn. rewrite Forall_forall in Hx.
  destruct (decide _).
  - specialize (IH ({[x]} ∪ S)). pose proof (greedy_perm G c ({[x]} ∪ S) L) as Hp. destruct (greedy G c _ L) as [bs rs]. cbn in *.
    split; [|apply IH]. constructor; [apply IH|]. apply Forall_forall. intros y Hy. apply Hx. rewrite <-Hp. set_solver +Hy.
  - specialize (IH S). pose proof (greedy_perm G c S L) as Hp. destruct (greedy G c _ L) as [bs rs]. cbn in *.
    split; [apply IH|]. constructor; [apply IH|]. apply Forall_forall. intros y Hy. apply Hx. rewrite <-Hp. set_solver +Hy.
Qed.

(** A block of the past of the parents has a smaller key than the greatest parent. *)
Lemma past_key_lt ps sp x : (forall q, q ∈ ps -> q ∈ known G /\ (q = sp \/ key_lt V q sp)) -> x ∈ blocks_of G ->
  existsb (reaches G x) ps = true -> reaches G x sp = false -> key_lt V x sp.
Proof.
  intros Hps Hx (q & Hq%list_elem_of_In & Hr)%existsb_exists Hn. destruct (Hps q Hq) as [Hk [->|Hlt]]; [congruence|].
  destruct (decide (x = q)) as [->|Hne]; [done|]. left.
  pose proof (work_monotone s g G k wk HG Hroot Hgo (wh_work Hm) x q Hx Hk Hr Hne). destruct Hlt as [?|[? _]]; lia.
Qed.

Lemma block_ordered p : p ∈ blocks_of G -> p <> g -> ordered_data (data_at V p).
Proof.
  intros Hp Hne. pose proof (go_blocks _ _ _ _ _ Hgo p Hp Hne) as Hd. destruct (rooted_parents g G p HG Hroot Hp Hne) as [_ Hsb].
  destruct (bd_order _ _ _ _ _ Hd) as (L & HL & HLs & Hb & Hr).
  destruct (mergeset_of_spec G HG p Hp) as [Hnd Hms].
  match type of Hb with _ = _ :: (greedy _ _ ?S _).1 => pose proof (greedy_perm G k S L) as Hgp; destruct (greedy_sorted (key_lt V) k S L HLs) as [S1 S2] end.
  split; rewrite ?(bd_selected _ _ _ _ _ Hd), ?Hr; [done| |done]. eexists. split; [exact Hb|]. split; [done|].
  split; [by rewrite Hgp, HL|]. intros x. rewrite Hgp, HL. intros Hx. pose proof (mergeset_block G HG p x Hp Hx) as Hxb. split; [done|].
  apply Hms in Hx as (Hxne & Hxr & Hxn). apply (reaches_unfold G HG) in Hxr as [?|(q & Hq & Hxq)]; [done| |by apply block_known].
  apply (past_key_lt (parents_of G p)); [|done| |done].
  - intros q' Hq'. split; [by apply (parents_known G HG p)|by apply (bd_max _ _ _ _ _ Hd)].
  - apply existsb_exists. exists q. split; [by apply list_elem_of_In|done].
Qed.

Lemma chain_samples_mono fuel fuel' rate d S : (fuel <= fuel')%nat -> chain_samples m fuel rate d = Ok S -> chain_samples m fuel' rate d = Ok S.
Proof.
  revert fuel' d S. induction fuel as [|fuel IH]; intros fuel' d S Hle; destruct fuel' as [|fuel']; cbn; try (case_bool_decide; done || lia).
  case_bool_decide; [done|]. destruct (unwrapped_fault _) as [pd|]; cbn; [|done]. destruct (sampled_mergeset_iterator _ _ _ _) as [l|]; cbn; [|done].
  destruct (chain_samples m fuel rate pd) as [rest|] eqn:E; cbn; [|done]. by rewrite (IH fuel' pd rest ltac:(lia) E).
Qed.

Lemma get_block_data p : p ∈ blocks_of G -> gs_get_data s p = Ok (data_at V p).
Proof. intros Hp. by rewrite (law_data _ _ _ (wh_ok Hm) (block_view p Hp)). Qed.

Lemma selected_key_le p : p ∈ blocks_of G -> p <> g -> sortable_le (key (selected_of G p)) (key p).
Proof.
  intros Hp Hne. destruct (rooted_parents g G p HG Hroot Hp Hne) as [_ Hsb]. apply key_lt_le; [by apply block_known..|]. left.
  by apply (work_selected s g G k wk HG Hroot Hgo (wh_work Hm)).
Qed.

(** The reference is defined, and no sampled block exceeds the selected parent. *)
Lemma chain_samples_run rate d fuel : ordered_data d -> (chain_depth G (selected_parent d) <= fuel)%nat ->
  exists S, chain_samples m fuel rate d = Ok S /\ forall b, b ∈ S -> sortable_le b (key (selected_parent d)) /\ sb_hash b ∈ blocks_of G.
Proof.
  intros Hd. remember (selected_parent d) as p eqn:Ep. pose proof (od_selected d Hd) as Hp. rewrite <-Ep in Hp. revert d fuel Hd Ep.
  pattern p. eapply (chain_ind g G); [done..| | |exact Hp].
  - intros d fuel Hd Ep _. exists []. split; [destruct fuel; cbn; by rewrite bool_decide_true|by intros ? ?%elem_of_nil].
  - intros y Hy Hne IH d fuel Hd Ep Hf. rewrite (chain_depth_unfold G y HG Hy) in Hf. destruct fuel as [|fuel]; [lia|].
    cbn [chain_samples]. rewrite <-Ep, bool_decide_false by done. rewrite (get_block_data y Hy). cbn [unwrapped_fault mbind result_bind].
    destruct (iterator_run rate d Hd) as (l & Hl & _ & Hle & _). rewrite <-Ep in Hl, Hle. rewrite Hl. cbn [mbind result_bind].
    pose proof (bd_selected _ _ _ _ _ (go_blocks _ _ _ _ _ Hgo y Hy Hne)) as Es.
    destruct (IH (data_at V y) fuel (block_ordered y Hy Hne) (eq_sym Es) ltac:(lia)) as (S & -> & HS). cbn [mbind result_bind].
    exists (samples l ++ S). split; [done|]. intros b [Hb|Hb]%elem_of_app; [by apply Hle|]. destruct (HS b Hb) as [HS1 HS2]. split; [|done].
    transitivity (key (selected_of G y)); [done|]. by apply selected_key_le.
Qed.

Lemma cached_top F window_type h w S : (length G <= F)%nat -> cache_consistent m F window_type -> h ∈ blocks_of G ->
  cache_of m window_type !! h = Some w -> chain_samples m F (sample_rate m window_type) (data_at V h) = Ok S ->
  is_top (window_size m window_type) S w.
Proof.
  intros HF Hc Hh Hw HS. destruct (Hc h w Hw) as (d & w' & Hd & Hr & Hp). rewrite (get_block_data h Hh) in Hd. injection Hd as <-.
  unfold reference_window in Hr. rewrite HS in Hr. cbn in Hr. injection Hr as <-. rewrite Hp. apply greatest_top.
Qed.

(** The walk with its early exits, from the data of a chain block. *)
Lemma window_loop_run F window_type p fuel S B w : (length G <= F)%nat -> cache_consistent m F window_type ->
  (0 < window_size m window_type)%nat -> p ∈ blocks_of G -> p <> g -> (chain_depth G p <= fuel)%nat ->
  chain_samples m F (sample_rate m window_type) (data_at V p) = Ok S -> is_top (window_size m window_type) B w ->
  exists w', window_loop m fuel (sample_rate m window_type) (cache_of m window_type) (data_at V p) (mk_bounded w (window_size m window_type)) =
      Ok (mk_bounded w' (window_size m window_type)) /\ is_top (window_size m window_type) (S ++ B) w'.
Proof.
  intros HF Hc Hn Hp. set (n := window_size m window_type) in *. set (rate := sample_rate m window_type) in *. revert fuel S B w.
  pattern p. eapply (chain_ind g G); [done..| |intros y Hy Hne IH fuel S B w _ Hf HS Hw|exact Hp]; [done|].
  rewrite (chain_depth_unfold G y HG Hy) in Hf. destruct fuel as [|fuel]; [lia|]. cbn [window_loop].
  destruct (rooted_parents g G y HG Hroot Hy Hne) as [_ Hsb]. pose proof (block_ordered y Hy Hne) as Hd.
  pose proof (bd_selected _ _ _ _ _ (go_blocks _ _ _ _ _ Hgo y Hy Hne)) as Es. set (q := selected_of G y) in *. rewrite Es.
  rewrite bool_decide_false by (by apply (block_not_origin G HG)). case_bool_decide as Eg.
  { exists w. split; [done|]. destruct F; cbn in HS; rewrite Es, bool_decide_true in HS by done; injection HS as <-; done. }
  rewrite (get_block_data q Hsb). cbn [unwrapped_fault run_ mbind result_bind].
  destruct (chain_samples_run rate (data_at V y) F Hd) as (S0 & HS0 & Hle0). { pose proof (chain_depth_le G (selected_parent (data_at V y))). lia. }
  rewrite HS0 in HS. injection HS as ->. rewrite Es in Hle0.
  change (mk_sortable q (blue_work (data_at V q))) with (key q).
  destruct (can_push_run n B w (key q) Hn Hw) as ([|] & -> & Hfull); cbn [assert_some run_ mbind result_bind negb].
  2: { destruct (Hfull eq_refl) as [Hl Hb]. exists w. split; [done|]. rewrite (Permutation_app_comm S B). apply is_top_skip; [done..|].
       intros a b Ha HbS. transitivity (key q); [by apply Hle0, HbS|by apply Hb]. }
  destruct (iterator_run rate (data_at V y) Hd) as (l & Hl & Hsort & _ & _). rewrite Es in Hl. unfold push_mergeset. rewrite Hl. cbn [mbind result_bind run_].
  destruct (push_until_full_top n l B w Hn Hw Hsort) as (w1 & -> & Hw1).
  pose proof HS0 as HS1. destruct F as [|F']; [cbn in HS1; rewrite Es, bool_decide_false in HS1 by done; done|]. cbn [chain_samples] in HS1.
  rewrite Es, bool_decide_false, (get_block_data q Hsb) in HS1 by done. cbn [unwrapped_fault mbind result_bind] in HS1. rewrite Hl in HS1. cbn [mbind result_bind] in HS1.
  destruct (chain_samples m F' rate (data_at V q)) as [S'|] eqn:ES'; [|done]. injection HS1 as <-.
  apply (chain_samples_mono F' (Datatypes.S F')) in ES'; [|lia]. unfold try_merge_with_selected_parent_cache.
  destruct (cache_of m window_type !! q) as [wc|] eqn:Ec.
  - eexists. split; [unfold merge_ancestor_heap; reflexivity|]. pose proof (cached_top _ _ q wc S' HF Hc Hsb Ec ES') as Hwc.
    pose proof (merge_heap_top n _ _ _ _ Hw1 Hwc) as Hmg. unfold merge_ancestor_heap in Hmg. cbn [binary_heap size_bound] in Hmg.
    rewrite <-(app_assoc (samples l)), (Permutation_app_comm S' B), (app_assoc (samples l)). exact Hmg.
  - destruct (IH fuel S' (samples l ++ B) w1 Eg ltac:(lia) ES' Hw1) as (w' & -> & Hw'). exists w'. split; [done|].
    rewrite <-(app_assoc (samples l)), (Permutation_app_comm (samples l) (S' ++ B)), <-app_assoc, (Permutation_app_comm B (samples l)). exact Hw'.
Qed.

(** The blocks of the mergeset outside the DAA window. *)
Definition outside_window (d : SahyadriConsensusData) : gset hash :=
  if bool_decide (selected_parent d = g) then {[g]} else below_window d.

(** The window of a block is that of the reference, whatever the cache holds. *)
Lemma build_block_window_run F fuel window_type d : (length G <= F)%nat -> (length G <= fuel)%nat -> cache_consistent m F window_type ->
  (0 < window_size m window_type)%nat -> ordered_data d ->
  exists w w', build_block_window m fuel d window_type = Ok (w, outside_window d) /\
    reference_window m F d window_type = Ok w' /\ w ≡ₚ w'.
Proof.
  intros HF Hfuel Hc Hn Hd. pose proof (od_selected d Hd) as Hsp. unfold build_block_window, outside_window, reference_window.
  set (n := window_size m window_type) in *. set (rate := sample_rate m window_type) in *.
  rewrite (proj2 (Nat.eqb_neq n 0)) by lia. case_bool_decide as Eg.
  { exists [], []. split; [done|]. split; [|done]. destruct F; cbn; rewrite bool_decide_true by done; cbn; unfold greatest; by destruct n. }
  rewrite bool_decide_false by (by apply (block_not_origin G HG)).
  rewrite (law_blue_work _ _ _ (wh_ok Hm) (block_view _ Hsp)). cbn [unwrapped run_ mbind result_bind].
  destruct (chain_samples_run rate d F Hd) as (S & HS & _). { pose proof (chain_depth_le G (selected_parent d)). lia. }
  destruct (iterator_run rate d Hd) as (l & Hl & Hsort & _ & Hnd).
  assert (HS' : exists S', chain_samples m F rate (data_at V (selected_parent d)) = Ok S' /\ S = samples l ++ S').
  { destruct F as [|F']; cbn [chain_samples] in HS; rewrite bool_decide_false in HS by done; [done|].
    rewrite (get_block_data _ Hsp) in HS. cbn [unwrapped_fault mbind result_bind] in HS. rewrite Hl in HS. cbn [mbind result_bind] in HS.
    destruct (chain_samples m F' rate _) as [S'|] eqn:E; [|done]. injection HS as <-. exists S'. split; [|done]. by apply (chain_samples_mono F'); [lia|]. }
  destruct HS' as (S' & HS' & ES). rewrite HS. cbn [mbind result_bind]. unfold try_init_from_cache.
  destruct (cache_of m window_type !! selected_parent d) as [wc|] eqn:Ec.
  - pose proof (cached_top F window_type _ wc S' HF Hc Hsp Ec HS') as Hwc. unfold push_mergeset_with_inserter, from_binary_heap.
    rewrite Hl. cbn [mbind result_bind]. destruct (push_all_top n l S' wc ∅ Hn Hwc) as (w & -> & Hw). cbn [run_ mbind result_bind fst snd binary_heap].
    exists w, (greatest n S). rewrite Hnd, union_empty_r_L. split_and!; [done..|]. apply (is_top_unique n S); [by rewrite ES|apply greatest_top].
  - cbn [run_ mbind result_bind]. unfold push_mergeset_with_inserter, bounded_new. rewrite Hl. cbn [run_ mbind result_bind].
    destruct (push_all_top n l [] [] ∅ Hn (is_top_nil n)) as (w & -> & Hw). cbn [run_ mbind result_bind].
    rewrite (get_block_data _ Hsp). cbn [unwrapped_fault run_ mbind result_bind]. rewrite Hnd, union_empty_r_L.
    destruct (window_loop_run F window_type (selected_parent d) fuel S' (samples l ++ []) w HF Hc Hn Hsp Eg) as (w' & Hlw & Hw').
    { pose proof (chain_depth_le G (selected_parent d)). lia. }
    { done. }
    { done. }
    fold n rate in Hlw, Hw'. rewrite Hlw. cbn [mbind result_bind binary_heap]. exists w', (greatest n S). split_and!; [done..|]. rewrite app_nil_r, (Permutation_app_comm S') in Hw'.
    apply (is_top_unique n S); [by rewrite ES|apply greatest_top].
Qed.
End ledger.
