(* ===== verification/HeaderLedger.v ===== *)
(** The stores of the header processor as the record of a history: the invariant that ties
    every store to the blocks added so far, and what the services of the processor read
    while it holds. *)

From stdpp Require Import sorting.
From S2P Require Import Prelude Access Uint UintCorrect Header HeaderCodec Interval Reach ReachTree ReachStores ReachLaws ReachDag ReachService ReachHistory ReachLedger Work Relations Ghostdag GhostdagStores HeaderStores Difficulty Window BlockDepth ParentsBuilder Pow HeaderProcessor Dag GhostdagSpec GhostdagColor GhostdagOrder DifficultyTheorems GhostdagRun WindowTheorems.

(** * The configuration *)

Definition target_of_bits (bits : Z) : Z := val (from_compact_target_bits bits).

Record config_ok (c : Config) : Prop := {
  cf_genesis : gen_hash (hc_genesis c) <> ORIGIN /\ gen_hash (hc_genesis c) <> NONE;
  cf_genesis_time : u64_range (gen_timestamp (hc_genesis c));
  cf_k : 0 <= hc_k c < 65535;
  cf_difficulty : difficulty_ok (difficulty_manager c stores_new);
  cf_target : 2 ^ 88 <= target_of_bits (gen_bits (hc_genesis c)) <= val (uint320_from (hc_max_difficulty_target c));
  cf_median : (0 < hc_past_median_time_window_size c)%nat;
  cf_levels : (hc_max_block_level c <= 254)%nat;
  cf_depths : u64_range (hc_merge_depth c) /\ u64_range (hc_finality_depth c);
}.

(** The number of headers the reachability tree has room for. *)
Definition MAX_BLOCKS : Z := 2 ^ 23.

(** What the insertions and the moves of the reindex root may have cost. *)
Fixpoint spent (G : list insertion) : Z :=
  match G with
  | [] => 0
  | b :: G' => spent G' + insertion_loss G' + move_loss (b :: G')
  end.

Lemma spent_bound G : 0 <= spent G <= 2 ^ 17 * Z.of_nat (length G) * (Z.of_nat (length G) + 2).
Proof.
  induction G as [|b G IH]; [cbn; lia|]. cbn [spent length]. unfold insertion_loss, move_loss, DEFAULT_REINDEX_SLACK. cbn [length].
  rewrite Nat2Z.inj_succ. set (n := Z.of_nat (length G)) in *. assert (0 <= n) by lia. nia.
Qed.

Lemma spent_room G b : Z.of_nat (length (b :: G)) <= MAX_BLOCKS -> spent (b :: G) <= 2 ^ 64 - 2.
Proof.
  intros Hl. pose proof (spent_bound (b :: G)) as Hb. set (n := Z.of_nat (length (b :: G))) in *.
  assert (Hn : 0 <= n <= 2 ^ 23) by (unfold n, MAX_BLOCKS in *; lia).
  assert (2 ^ 17 * n * (n + 2) <= 2 ^ 17 * 2 ^ 23 * (2 ^ 23 + 2)) by (apply Z.mul_le_mono_nonneg; lia). lia.
Qed.

(** * The invariant *)

Section ledger.
Context (c : Config).
Abbreviation g := (gen_hash (hc_genesis c)).

Definition bits_ok (bits : Z) : Prop := u32_range bits /\ target_of_bits (gen_bits (hc_genesis c)) <= target_of_bits bits.

(** A header of the history: its parents at every level are blocks of the history. *)
Record stored_header (G : list insertion) (x : hash) (v : HeaderWithBlockLevel) : Prop := {
  sh_hash : header_hash (lv_header v) = x;
  sh_time : u64_range (header_timestamp (lv_header v));
  sh_bits : bits_ok (header_bits (lv_header v));
  sh_levels : forall level p, p ∈ parents_at_level (parents_manager c stores_new) (lv_header v) level -> p ∈ blocks_of G;
}.

(** The points stored with a block are on its chain. *)
Record stored_depth (G : list insertion) (x : hash) (i : BlockDepthInfo) : Prop := {
  sd_root : info_merge_depth_root i = ORIGIN \/ (info_merge_depth_root i ∈ blocks_of G /\ on_chain G (info_merge_depth_root i) x = true);
  sd_finality : info_finality_point i = ORIGIN \/ (info_finality_point i ∈ blocks_of G /\ on_chain G (info_finality_point i) x = true);
}.

Record ledger (s : Stores) (G : list insertion) (t : rtree) (R : hash) (wk : hash -> Z) (fuel : nat) : Prop := {
  lg_valid : valid_history G;
  lg_rooted : rooted g G;
  lg_length : Z.of_nat (length G) <= MAX_BLOCKS;
  lg_fuel : (2 * length G + 3 < fuel)%nat;
  lg_tracked : tracked (staging_new (reachability_store s)) G t R (spent G);
  lg_relations : forall x, x ∈ known G -> dr_parents_access (relations_store s) !! x = Some (parents_of G x);
  lg_no_relations : forall x, x ∉ known G -> dr_parents_access (relations_store s) !! x = None;
  lg_no_reachability_relations : forall x, x ∉ known G -> dr_parents_access (reachability_relations_store s) !! x = None;
  lg_consensus : gs_ok (consensus_store s);
  lg_ghost : ghost_ok g G (gs_view (consensus_store s)) (hc_k c) wk;
  lg_status : forall x, x ∈ blocks_of G -> is_Some (statuses_store s !! x);
  lg_no_status : forall x, x ∉ blocks_of G -> statuses_store s !! x = None \/ statuses_store s !! x = Some StatusInvalid;
  lg_pruning_point : exists pp, pruning_point_store s = Some pp /\ pp ∈ blocks_of G;
  lg_headers : headers_ok (headers_store s);
  lg_header : forall x, x ∈ blocks_of G -> exists v, headers_access (headers_store s) !! x = Some v /\ stored_header G x v /\
    exists w, calc_work (header_bits (lv_header v)) = Some w /\ val w = wk x;
  lg_no_header : forall x, x ∉ blocks_of G -> headers_access (headers_store s) !! x = None;
  lg_no_fallback : fallback_headers (headers_store s) = ∅;
  lg_no_daa : forall x, x ∉ blocks_of G -> daa_excluded_store s !! x = None;
  lg_depth : forall x, x ∈ blocks_of G -> exists i, depth_store s !! x = Some i /\ stored_depth G x i;
  lg_no_depth : forall x, x ∉ blocks_of G -> depth_store s !! x = None;
  lg_tip : is_Some (headers_selected_tip_store s);
  lg_difficulty_cache : cache_consistent (window_manager c s) fuel DifficultyWindow;
  lg_median_cache : cache_consistent (window_manager c s) fuel MedianTimeWindow;
}.

Context (Hc : config_ok c).

(** * The work of a block *)

Lemma work_of_bits bits : bits_ok bits -> exists w, calc_work bits = Some w /\ limbs_ok w /\ length w = 3%nat /\ 1 <= val w <= 2 ^ 168.
Proof.
  intros [Hb Ht]. pose proof (cf_target _ Hc) as [Hg _]. pose proof (calc_work_spec bits Hb) as Hw. cbv zeta in Hw. unfold target_of_bits in *.
  rewrite (proj2 (Z.eqb_neq _ _)), (proj2 (Z.leb_le _ _)) in Hw by lia. destruct Hw as (w & Hw & H1 & H2 & H3 & H4 & _).
  exists w. split_and!; [done..|]. rewrite H3. assert (2 ^ 256 / (val (from_compact_target_bits bits) + 1) <= 2 ^ 256 / 2 ^ 88) by (apply Z.div_le_compat_l; lia).
  change (2 ^ 256 / 2 ^ 88) with (2 ^ 168) in *. done.
Qed.

Context (s : Stores) (G : list insertion) (t : rtree) (R : hash) (wk : hash -> Z) (fuel : nat) (Hl : ledger s G t R wk fuel).
Abbreviation V := (gs_view (consensus_store s)).

Lemma header_of x : x ∈ blocks_of G -> exists v, headers_access (headers_store s) !! x = Some v /\ stored_header G x v /\
  header_with_level (headers_store s) x = Ok v /\ get_compact_header_data (headers_store s) x = Ok (compact_of (lv_header v)) /\
  exists w, calc_work (header_bits (lv_header v)) = Some w /\ limbs_ok w /\ length w = 3%nat /\ val w = wk x /\ 1 <= wk x <= 2 ^ 168.
Proof.
  intros Hx. destruct (lg_header _ _ _ _ _ _ Hl x Hx) as (v & Hv & Hs & w & Hw & Ew). exists v. split; [done|]. split; [done|].
  assert (Hr : header_with_level (headers_store s) x = Ok v) by (apply read_stored; [apply (lg_headers _ _ _ _ _ _ Hl)|]; unfold stored_value; by rewrite Hv).
  split; [done|]. split; [by apply compact_read; [apply (lg_headers _ _ _ _ _ _ Hl)|]|].
  destruct (work_of_bits _ (sh_bits _ _ _ Hs)) as (w' & Hw' & H1 & H2 & H3). rewrite Hw in Hw'. injection Hw' as <-. exists w. rewrite <-Ew. done.
Qed.

Lemma work_sum_bound : 0 <= sum_works wk (blocks_of G) < 2 ^ 192.
Proof.
  assert (Hb : forall l, (forall x, x ∈ l -> x ∈ blocks_of G) -> 0 <= sum_works wk l <= Z.of_nat (length l) * 2 ^ 168).
  { induction l as [|x l IH]; intros Hin; [cbn; lia|]. cbn [sum_works length]. destruct (header_of x (Hin x ltac:(by left))) as (v & _ & _ & _ & _ & w & _ & _ & _ & _ & Hwx).
    specialize (IH ltac:(intros y Hy; apply Hin; by right)). lia. }
  specialize (Hb (blocks_of G) ltac:(done)). pose proof (lg_length _ _ _ _ _ _ Hl) as Hn. unfold blocks_of in Hb at 3. rewrite length_map in Hb. unfold MAX_BLOCKS in Hn.
  assert (Z.of_nat (length G) * 2 ^ 168 <= 2 ^ 23 * 2 ^ 168) by (apply Z.mul_le_mono_nonneg_r; lia). lia.
Qed.

(** * What the services read *)

Lemma ancestor_run x y : x ∈ known G -> y ∈ known G -> svc_is_dag_ancestor_of (reachability_service s) x y = Ok (reaches G x y).
Proof. intros Hx Hy. unfold svc_is_dag_ancestor_of, reachability_service. by rewrite (tracked_ancestor _ _ _ _ _ x y (lg_tracked _ _ _ _ _ _ Hl)). Qed.

Lemma chain_ancestor_run x y : x ∈ known G -> y ∈ known G -> svc_is_chain_ancestor_of (reachability_service s) x y = Ok (on_chain G x y).
Proof. intros Hx Hy. unfold svc_is_chain_ancestor_of, reachability_service. by rewrite (tracked_chain_ancestor _ _ _ _ _ x y (lg_tracked _ _ _ _ _ _ Hl)). Qed.

Lemma any_ancestor_run x l : x ∈ known G -> (forall y, y ∈ l -> y ∈ known G) ->
  is_dag_ancestor_of_any (reachability_service s) x l = Ok (existsb (reaches G x) l).
Proof.
  intros Hx. induction l as [|y l IH]; intros Hy; [done|]. cbn [is_dag_ancestor_of_any existsb].
  pose proof (ancestor_run x y Hx (Hy y ltac:(by left))) as E. unfold svc_is_dag_ancestor_of in E. rewrite E. cbn [mbind result_bind].
  destruct (reaches G x y); [done|]. cbn. apply IH. intros z Hz. apply Hy. by right.
Qed.

Lemma ledger_holds : holds (consensus_manager c s) G wk.
Proof.
  pose proof work_sum_bound as [_ Hsum]. destruct Hl as []. split; try done.
  - apply (cf_k _ Hc).
  - intros x y Hx Hy. by apply ancestor_run.
  - intros x Hx. cbn. unfold dr_get_parents. by rewrite lg_relations0.
  - intros x Hx. destruct (header_of x Hx) as (v & _ & _ & _ & Hcp & w & Hw & H1 & H2 & H3 & H4). exists w. unfold block_work. cbn [m_headers consensus_manager manager_new].
    unfold get_bits, headers_bits, get_header_bits. rewrite Hcp. cbn [mbind result_bind unwrapped ch_bits compact_of]. rewrite Hw. cbn [assert_some ok_or mbind result_bind m_level_work].
    rewrite uint_cmp_spec; [|done|apply (uint_zero_ok 3)|by rewrite H2].
    split; [|split_and!; [done..|lia]]. match goal with |- context [val w ?= ?z] => change z with 0 end.
    by rewrite (proj2 (Z.compare_gt_iff (val w) 0)) by lia.
  - unfold MAX_BLOCKS in *. lia.
Qed.
End ledger.
