(* ===== verification/ParamsTheorems.v ===== *)
(** The parameters of the networks meet what the header processor needs of them. *)

From S2P Require Import Prelude Interval Reach Uint UintCorrect Work Header HeaderStores Difficulty Window HeaderProcessor Params DifficultyTheorems HeaderLedger.

(** * The block rate *)

Lemma supported_rate bps b : BlockrateParams_new bps = Some b -> bps ∈ [1; 2; 4; 5; 8; 10; 20; 25].
Proof.
  unfold BlockrateParams_new, Bps.target_time_per_block. destruct (Z.eqb_spec (1000 mod bps) 0) as [Hm|]; [|done]. cbn [mbind option_bind].
  unfold Bps.sahyadri_consensus_k at 1. destruct (Z.leb_spec 1 bps) as [H1|]; [|done].
  destruct (decide (bps <= 32)) as [H2|H2]; [|rewrite lookup_ge_None_2 by (cbn; lia); done]. intros _.
  assert (Hc : bps = 1 \/ bps = 2 \/ bps = 3 \/ bps = 4 \/ bps = 5 \/ bps = 6 \/ bps = 7 \/ bps = 8 \/ bps = 9 \/ bps = 10 \/ bps = 11 \/ bps = 12 \/ bps = 13 \/ bps = 14 \/ bps = 15 \/ bps = 16 \/
    bps = 17 \/ bps = 18 \/ bps = 19 \/ bps = 20 \/ bps = 21 \/ bps = 22 \/ bps = 23 \/ bps = 24 \/ bps = 25 \/ bps = 26 \/ bps = 27 \/ bps = 28 \/ bps = 29 \/ bps = 30 \/ bps = 31 \/ bps = 32) by lia.
  repeat (destruct Hc as [->|Hc]; [first [by vm_compute in Hm | by rewrite !elem_of_cons; tauto]|]). subst. by vm_compute in Hm.
Qed.

(** C27: for every block rate the code supports, the anticone of a chain block is final before
    it can be pruned: [anticone_finalization_depth] is the sum of the finality depth, the
    merge depth and the bound of the merge sets, which is never cut down by the pruning depth,
    never overflows, and stays a merge depth below the pruning depth. *)
Theorem finalized_before_pruned (p : Params) (rate : Z) : BlockrateParams_new rate = Some (blockrate p) ->
  let b := blockrate p in
  let k := br_sahyadri_consensus_k b in
  anticone_finalization_depth p = br_finality_depth b + br_merge_depth b + 4 * br_mergeset_size_limit b * k + 2 * k + 2 /\
  anticone_finalization_depth p + br_merge_depth b <= br_pruning_depth b < 2 ^ 64 /\
  br_merge_depth b < br_finality_depth b.
Proof.
  intros Hb b k. pose proof (supported_rate rate _ Hb) as Hr. unfold anticone_finalization_depth, k, b. clear k b. cbv zeta.
  revert Hb. generalize (blockrate p) as b. intros b Hb. rewrite !elem_of_cons, elem_of_nil in Hr.
  destruct Hr as [->|[->|[->|[->|[->|[->|[->|[->|[]]]]]]]]]; vm_compute in Hb; injection Hb as <-; vm_compute; repeat split; discriminate.
Qed.

Lemma finalized_before_pruned_witness : exists p, MAINNET_PARAMS = Some p /\
  anticone_finalization_depth p + br_merge_depth (blockrate p) <= br_pruning_depth (blockrate p).
Proof.
  eexists. split; [vm_compute; reflexivity|]. refine (proj1 (proj1 (proj2 (finalized_before_pruned _ 1 _)))). vm_compute. reflexivity.
Defined.

(** * The networks *)

(** A bound between constants. *)
Ltac bounds := vm_compute; repeat (split || reflexivity || discriminate).

Lemma network_difficulty t p : Params_from_type t = Some p -> difficulty_ok (difficulty_manager (config_of p) stores_new).
Proof.
  destruct t; vm_compute; intros [= <-]; (split; [bounds|bounds|bounds|bounds|bounds|]); (split; [repeat constructor; bounds|bounds]).
Qed.

Lemma network_config t p : Params_from_type t = Some p -> config_ok (config_of p).
Proof.
  intros Hp. split; [| | |by apply (network_difficulty t)|..]; destruct t; vm_compute in Hp; injection Hp as <-; try (by bounds); vm_compute; lia.
Qed.

(** C26: the parameters of every network meet what the header processor relies on: a genesis
    hash other than the origin and the null hash, a sound difficulty window, a genesis target
    between 2^88 and the maximal target, fewer levels than a byte holds; and what a node
    overrides with the parameters of a network is that network's. *)
Theorem network_parameters_sound (t : NetworkType) :
  exists p, Params_from_type t = Some p /\ config_ok (config_of p) /\ override_params p no_override = p /\
    (forall q, net q = net p -> genesis q = genesis p -> max_difficulty_target q = max_difficulty_target p -> override_params q (OverrideParams_from p) = p).
Proof.
  destruct (Params_from_type t) as [p|] eqn:Hp; [|by destruct t]. exists p. split; [done|]. split; [by apply (network_config t)|]. split; [by destruct p|].
  intros [] E1 E2 E3. destruct p. cbn in *. by subst.
Qed.
