(* ===== verification/HeaderChecks.v ===== *)
(** The checks of the header processor while the stores hold a history: none of them
    panics, and what each has established when it passes. *)

From stdpp Require Import sorting.
From S2P Require Import Prelude Access Uint UintCorrect Header HeaderCodec Interval Reach ReachTree ReachStores ReachQueries ReachLaws ReachDag ReachService ReachHistory ReachLedger Work Relations Ghostdag GhostdagStores HeaderStores Difficulty Window BlockDepth ParentsBuilder Pow PowTheorems HeaderProcessor Dag GhostdagSpec GhostdagColor GhostdagOrder DifficultyTheorems GhostdagRun WindowTheorems HeaderLedger.

(** The outcomes of a check that does not stop. *)
Definition checked {A} (P : A -> Prop) (r : result halt A) : Prop :=
  match r with Ok a => P a | Err (Rule _) => True | Err (Stop _) => False end.

Lemma checked_bind {A B} (P : A -> Prop) (Q : B -> Prop) (r : result halt A) (f : A -> result halt B) :
  checked P r -> (forall a, P a -> checked Q (f a)) -> checked Q (a ← r; f a).
Proof. destruct r as [a|[e|e]]; cbn; auto. Qed.

Section checks.
Context (blake3 : bytes -> bytes) (poseidon2_permute : list Z -> list Z) (BlockHash : bytes -> bytes).
Context (c : Config) (Hc : config_ok c) (fuel : nat) (now : Z).
Context (s : Stores) (G : list insertion) (t : rtree) (R : hash) (wk : hash -> Z) (Hl : ledger c s G t R wk fuel).
Abbreviation g := (gen_hash (hc_genesis c)).
Abbreviation V := (gs_view (consensus_store s)).
Abbreviation wm := (window_manager c s).

Let HG : valid_history G := lg_valid _ _ _ _ _ _ _ Hl.
Let Hfuel : (length G <= fuel)%nat.
Proof. pose proof (lg_fuel _ _ _ _ _ _ _ Hl). lia. Qed.

(** * Windows *)

Lemma ledger_window : window_holds wm G (hc_k c) wk.
Proof.
  pose proof Hl as []. split; try done.
  - intros x Hx. destruct (header_of c Hc s G t R wk fuel Hl x Hx) as (v & _ & _ & _ & _ & w & _ & _ & _ & _ & H). lia.
  - intros x Hx. destruct (header_of c Hc s G t R wk fuel Hl x Hx) as (v & _ & _ & _ & Hcp & _). unfold get_daa_score. cbn [wm_headers_store window_manager].
    rewrite Hcp. by eexists.
Qed.

(** The data of a block to be added is ordered as that of the others. *)
Lemma spec_ordered ps d L : (forall p, p ∈ ps -> p ∈ blocks_of G) -> consensus_spec (consensus_manager c s) G wk ps d L -> ordered_data wm G d.
Proof.
  intros Hps Hs. pose proof Hs as [C1 C2 C3 C4 C5 C6 C7 C8 C9 C10 C11 C12 C13]. cbn [m_store consensus_manager manager_new m_k] in *.
  set (S := {[selected_parent d]} ∪ blue_set V G (selected_parent d)) in *. pose proof (greedy_perm G (hc_k c) S L) as Hgp.
  destruct (greedy_sorted G (key_lt V) (hc_k c) S L C4) as [S1 S2].
  split; [by apply Hps| |by rewrite C7]. exists (greedy G (hc_k c) S L).1. split; [done|]. split; [done|]. rewrite C7. split; [by rewrite Hgp|].
  intros x. rewrite Hgp. intros Hx. apply C3 in Hx as (Hk & He & Hn).
  assert (Hxb : x ∈ blocks_of G).
  { apply known_blocks in Hk as [->|?]; [|done]. rewrite (origin_below G HG) in Hn; [done|]. by apply block_known, Hps. }
  split; [done|]. eapply (past_key_lt wm G (hc_k c) wk ledger_window ps); [|done..].
  intros q Hq. split; [by apply block_known, Hps|by apply C2].
Qed.

Definition window_of (window_type : WindowType) (d : SahyadriConsensusData) (w : BlockWindowHeap) : Prop :=
  (exists w', reference_window wm fuel d window_type = Ok w' /\ w ≡ₚ w') /\ (forall b, b ∈ w -> sb_hash b ∈ blocks_of G) /\
  (length w <= window_size wm window_type)%nat.

Lemma reference_blocks window_type d w : ordered_data wm G d -> reference_window wm fuel d window_type = Ok w ->
  (forall b, b ∈ w -> sb_hash b ∈ blocks_of G) /\ (length w <= window_size wm window_type)%nat.
Proof.
  intros Hd Href. unfold reference_window in Href.
  destruct (chain_samples_run wm G (hc_k c) wk ledger_window (sample_rate wm window_type) d fuel Hd) as (S & HS & Hb).
  { pose proof (chain_depth_le G (selected_parent d)). lia. }
  rewrite HS in Href. cbn in Href. injection Href as <-. split.
  - intros b. unfold greatest. intros Hin. apply Hb. rewrite <-(merge_sort_Permutation sortable_ge S).
    eapply elem_of_sublist; [exact Hin|apply sublist_take].
  - rewrite greatest_length. lia.
Qed.

Lemma window_run window_type d : ordered_data wm G d -> cache_consistent wm fuel window_type -> (0 < window_size wm window_type)%nat ->
  exists w nd, build_block_window wm fuel d window_type = Ok (w, nd) /\ window_of window_type d w.
Proof.
  intros Hd Hcache Hn. pose proof ledger_window as Hw.
  destruct (build_block_window_run wm G (hc_k c) wk Hw fuel fuel window_type d Hfuel Hfuel Hcache Hn Hd) as (w & w' & Hr & Href & Hp).
  exists w, (outside_window wm d). split; [done|]. split; [by exists w'|]. destruct (reference_blocks window_type d w' Hd Href) as [H1 H2].
  split; [intros b; rewrite Hp; apply H1|by rewrite Hp].
Qed.

(** * Difficulty *)

Definition compact_at (b : SortableBlock) : CompactHeaderData :=
  match get_compact_header_data (headers_store s) (sb_hash b) with Ok d => d | Err _ => mk_compact_header 0 0 0 0 end.

Lemma window_data (w : BlockWindowHeap) : (forall b, b ∈ w -> sb_hash b ∈ blocks_of G) ->
  forall b, b ∈ w -> get_compact_header_data (headers_store s) (sb_hash b) = Ok (compact_at b) /\
    u64_range (ch_timestamp (compact_at b)) /\ u32_range (ch_bits (compact_at b)).
Proof.
  intros Hw b Hb. destruct (header_of c Hc s G t R wk fuel Hl _ (Hw b Hb)) as (v & _ & Hsh & _ & Hcp & _). unfold compact_at. rewrite Hcp.
  split; [done|]. split; [apply (sh_time _ _ _ _ Hsh)|apply (sh_bits _ _ _ _ Hsh)].
Qed.

Lemma difficulty_manager_ok : difficulty_ok (difficulty_manager c s).
Proof. destruct (cf_difficulty _ Hc) as []. by split. Qed.

Lemma difficulty_run d w score nd : selected_parent d ∈ blocks_of G -> window_of DifficultyWindow d w ->
  exists bits, window_difficulty_bits wm d (mk_daa_window w score nd) = Ok bits /\ bits_ok c bits.
Proof.
  intros Hsp (_ & Hw & Hlen). unfold window_difficulty_bits. cbn [daa_window wm_difficulty_manager window_manager].
  pose proof (window_data w Hw) as Hdata. pose proof (cf_target _ Hc) as Ht. pose proof difficulty_manager_ok as Hm.
  destruct (header_of c Hc s G t R wk fuel Hl _ Hsp) as (v & _ & Hsh & _ & Hcp & _).
  assert (Hgb : bits_ok c (gen_bits (hc_genesis c))) by (split; [apply (do_genesis _ Hm)|done]).
  destruct (Z.lt_ge_cases (Z.of_nat (length w)) (dm_min_difficulty_window_size (difficulty_manager c s))) as [Hlt|Hge].
  - rewrite (short_window_bits (difficulty_manager c s) compact_at w d (header_bits (lv_header v)) Hdata); [|..|done].
    + eexists. split; [done|]. case_bool_decide; [done|apply (sh_bits _ _ _ _ Hsh)].
    + unfold get_header_bits. cbn [dm_headers_store difficulty_manager]. by rewrite Hcp.
  - destruct (retarget_bounds (difficulty_manager c s) compact_at w d Hm Hdata) as (bits & E & Hb & Hr).
    + cbn in Hlen, Hge |- *. lia.
    + unfold genesis_target. cbn [dm_genesis_bits dm_max_difficulty_target difficulty_manager]. unfold target_of_bits in Ht. lia.
    + exists bits. split; [done|]. split; [done|]. unfold target_of_bits. apply Hr.
Qed.

Lemma daa_score_run d nd : selected_parent d ∈ blocks_of G -> exists score, calc_daa_score (wm_difficulty_manager wm) d nd = Ok score.
Proof.
  intros Hsp. unfold calc_daa_score, internal_calc_daa_score, get_daa_score. cbn [wm_difficulty_manager window_manager difficulty_manager dm_headers_store].
  destruct (header_of c Hc s G t R wk fuel Hl _ Hsp) as (v & _ & _ & _ & Hcp & _). rewrite Hcp. by eexists.
Qed.

Lemma median_of_window w p : (forall b, b ∈ w -> sb_hash b ∈ blocks_of G) -> p ∈ blocks_of G -> exists time, calc_past_median_time (headers_store s) w p = Ok time.
Proof.
  intros Hw Hp. unfold calc_past_median_time, get_timestamp. case_bool_decide.
  - destruct (header_of c Hc s G t R wk fuel Hl _ Hp) as (v & _ & _ & _ & Hcp & _). rewrite Hcp. by eexists.
  - rewrite (collect_map _ (fun b => ch_timestamp (compact_at b))); [by eexists|]. intros b Hb. destruct (window_data w Hw b Hb) as (-> & _). done.
Qed.

Lemma median_time_run d : ordered_data wm G d -> exists time w, window_past_median_time wm fuel d = Ok (time, w) /\ window_of MedianTimeWindow d w.
Proof.
  intros Hd. destruct (window_run MedianTimeWindow d Hd (lg_median_cache _ _ _ _ _ _ _ Hl) (cf_median _ Hc)) as (w & nd & Hr & Hw).
  unfold window_past_median_time, block_window. rewrite Hr. cbn [mbind result_bind fst].
  destruct (median_of_window w (selected_parent d) (proj1 (proj2 Hw)) (od_selected _ _ _ Hd)) as (time & Hp). cbn [wm_headers_store window_manager]. rewrite Hp. cbn. by exists time, w.
Qed.

(** * Depth *)

Lemma score_known x : x ∈ known G -> exists score, gs_get_blue_score (consensus_store s) x = Ok score.
Proof.
  intros Hx. pose proof (view_data g G V (hc_k c) wk (lg_ghost _ _ _ _ _ _ _ Hl) x Hx) as Hv. eexists.
  exact (law_blue_score _ _ _ (lg_consensus _ _ _ _ _ _ _ Hl) Hv).
Qed.

Lemma depth_walk_run n tA d required current : tA ∈ subtrees t -> d ∈ nodes tA -> (tsize tA < n)%nat ->
  exists r, depth_walk (depth_manager c s) n (mk_iterator (Some (label tA)) d true) required current = Ok r /\ (r = current \/ anc t r d).
Proof.
  pose proof (lg_tracked _ _ _ _ _ _ _ Hl) as Htk. pose proof (rg_tree _ _ _ (tk_dag _ _ _ _ _ Htk)) as Hrep.
  revert tA current. induction n as [|n IH]; intros tA current HA Hd Hn; [lia|]. cbn [depth_walk]. unfold forward_next. cbn [it_current it_end it_inclusive].
  assert (HAk : label tA ∈ known G) by (apply (tk_known _ _ _ _ _ Htk), nodes_subtree; by exists tA).
  assert (Hanc : anc t (label tA) d) by (by exists tA). pose proof (tsize_pos tA). destruct (score_known _ HAk) as (score & Hsc). case_bool_decide as E.
  - subst d. cbn [mbind result_bind dp_store depth_manager]. rewrite Hsc. cbn [unwrapped mbind result_bind]. destruct (_ <=? _); [exists current; auto|].
    destruct n as [|n]; [lia|]. cbn. exists (label tA). auto.
  - assert (exists K, K ∈ kids tA /\ d ∈ nodes K) as (K & HK & HdK).
    { destruct tA as [h ts]. apply nodes_node in Hd as [->|?]; done. }
    cbn [dp_reachability depth_manager]. unfold reachability_service. rewrite (get_next_chain_ancestor_run _ t Hrep tA K d HA HK HdK). cbn [unwrap mbind result_bind dp_store depth_manager].
    rewrite Hsc. cbn [unwrapped mbind result_bind]. destruct (_ <=? _); [exists current; auto|].
    destruct (IH K (label tA) (subtrees_kid_of _ _ _ HA HK) HdK) as (r & -> & Hr); [pose proof (tsize_kid _ _ HK); lia|]. exists r. split; [done|].
    destruct Hr as [->|?]; auto.
Qed.

(** A block on the chain, or the origin. *)
Definition on_chain_of (d : SahyadriConsensusData) (b : hash) : Prop :=
  b = ORIGIN \/ (b ∈ blocks_of G /\ on_chain G b (selected_parent d) = true).

Lemma genesis_on_chain x : x ∈ blocks_of G -> on_chain G g x = true.
Proof.
  intros Hx. pattern x. eapply (chain_ind g G); [exact HG|apply (lg_rooted _ _ _ _ _ _ _ Hl)|..|exact Hx].
  - apply (on_chain_refl G HG). apply rooted_genesis, (lg_rooted _ _ _ _ _ _ _ Hl).
  - intros y Hy _ IH. by apply (on_chain_selected G HG).
Qed.

Lemma block_at_depth_run depth_type d pp : pp ∈ blocks_of G -> selected_parent d ∈ blocks_of G ->
  exists b, calculate_block_at_depth (depth_manager c s) fuel d depth_type pp = Ok b /\ on_chain_of d b.
Proof.
  intros Hpp Hsp. pose proof (lg_tracked _ _ _ _ _ _ _ Hl) as Htk. unfold calculate_block_at_depth.
  rewrite bool_decide_false by (by apply (block_not_origin G HG)).
  set (depth := match depth_type with MergeRoot => _ | Finality => _ end). destruct (_ <? depth).
  { eexists. split; [done|]. right. split; [apply rooted_genesis, (lg_rooted _ _ _ _ _ _ _ Hl)|by apply genesis_on_chain]. }
  destruct (score_known pp (block_known G _ Hpp)) as (pps & Hpps). cbn [dp_store depth_manager]. rewrite Hpps. cbn [unwrapped mbind result_bind].
  destruct (_ <? wadd64 pps depth); [exists ORIGIN; split; [done|by left]|].
  cbn [dp_reachability depth_manager]. rewrite (chain_ancestor_run c s G t R wk fuel Hl pp (selected_parent d)) by (by apply block_known). cbn [mbind result_bind].
  destruct (on_chain G pp (selected_parent d)) eqn:Hchain; cbn [negb]; [|exists ORIGIN; split; [done|by left]].
  destruct (lg_depth _ _ _ _ _ _ _ Hl _ Hsp) as (i & Hi & Hd). cbn [dp_depth_store depth_manager]. unfold merge_depth_root, finality_point, table_read. rewrite Hi.
  set (stored := match depth_type with MergeRoot => info_merge_depth_root i | Finality => info_finality_point i end).
  assert (Hst : stored = ORIGIN \/ stored ∈ blocks_of G /\ on_chain G stored (selected_parent d) = true) by (unfold stored; destruct depth_type; apply Hd).
  replace (unwrapped _) with (Ok (E := stop) stored) by (by unfold stored; destruct depth_type). cbn [mbind result_bind].
  set (current := if bool_decide (stored = ORIGIN) then pp else stored).
  assert (Hcur : current ∈ blocks_of G /\ on_chain G current (selected_parent d) = true) by (unfold current; case_bool_decide; [done|by destruct Hst]).
  destruct Hcur as [Hcb Hcc]. pose proof Hcc as Hanc. apply (tk_chain _ _ _ _ _ Htk) in Hanc as (tA & HA & El & HdA).
  destruct (depth_walk_run fuel tA (selected_parent d) (wsub64 (blue_score d) depth) current HA HdA) as (r & Hr & Hrc).
  { pose proof (tsize_sub _ _ HA). pose proof (tk_size _ _ _ _ _ Htk). pose proof (lg_fuel _ _ _ _ _ _ _ Hl). lia. }
  rewrite El in Hr. unfold ForwardChainIterator_new. cbv zeta. rewrite Hr. exists r. split; [done|]. destruct Hrc as [->|Ha]; [by right|].
  pose proof (proj1 (anc_nodes _ _ _ Ha)) as Hrk. apply (tk_known _ _ _ _ _ Htk), known_blocks in Hrk as [->|Hrb]; [by left|right]. split; [done|].
  by apply (tk_chain _ _ _ _ _ Htk).
Qed.

Lemma blues_above_run root l : root ∈ known G -> (forall x, x ∈ l -> x ∈ known G) ->
  exists r, blues_above (depth_manager c s) root l = Ok r /\ forall x, x ∈ r -> x ∈ l.
Proof.
  intros Hroot. induction l as [|x l IH]; intros Hx; [by exists []|]. cbn [blues_above dp_reachability depth_manager].
  rewrite (chain_ancestor_run c s G t R wk fuel Hl root x Hroot (Hx x ltac:(by left))). cbn [mbind result_bind].
  destruct (IH ltac:(intros y Hy; apply Hx; by right)) as (r & -> & Hr). cbn [mbind result_bind]. eexists. split; [done|].
  destruct (on_chain G root x); intros y Hy; [apply elem_of_cons in Hy as [->|Hy]; [by left|]|]; right; auto.
Qed.

Lemma check_reds_run d root reds kosherizing : root ∈ known G -> (forall x, x ∈ mergeset_blues d -> x ∈ known G) -> (forall x, x ∈ reds -> x ∈ known G) ->
  (forall l, kosherizing = Some l -> forall x, x ∈ l -> x ∈ known G) -> checked (fun _ => True) (check_reds c s d root reds kosherizing).
Proof.
  intros Hroot Hb. revert kosherizing. induction reds as [|red reds IH]; intros kos Hr Hk; [done|]. cbn [check_reds].
  rewrite (ancestor_run c s G t R wk fuel Hl root red Hroot (Hr red ltac:(by left))). cbn [run_ mbind result_bind].
  assert (Hr' : forall x, x ∈ reds -> x ∈ known G) by (intros x Hx; apply Hr; by right).
  destruct (reaches G root red); [by apply IH|].
  assert (Hbl : exists blues, (match kos with Some l => Ok l | None => run_ (kosherizing_blues (depth_manager c s) d root) end) = Ok blues /\ forall x, x ∈ blues -> x ∈ known G).
  { destruct kos as [l|]; [exists l; split; [done|by apply Hk]|]. unfold kosherizing_blues. destruct (blues_above_run root _ Hroot Hb) as (r & -> & Hin).
    exists r. split; [done|]. intros x Hx. by apply Hb, Hin. }
  destruct Hbl as (blues & -> & Hbk). cbn [mbind result_bind]. rewrite (any_ancestor_run c s G t R wk fuel Hl red blues) by (done || apply Hr; by left). cbn [run_ mbind result_bind].
  destruct (existsb _ _); [|done]. apply IH; [done|]. by intros l [= <-].
Qed.
End checks.

(** * The parents at the higher levels *)

Lemma block_unique_from_elem seen l x : x ∈ block_unique_from seen l <-> x ∈ l /\ x ∉ seen.
Proof.
  revert seen. induction l as [|y l IH]; intros seen.
  { split; [by intros ?%elem_of_nil|by intros [?%elem_of_nil _]]. }
  cbn [block_unique_from]. case_bool_decide as Hy; rewrite !elem_of_cons, ?IH, ?not_elem_of_union, ?not_elem_of_singleton.
  - split; [tauto|]. intros [[->|?] ?]; tauto.
  - destruct (decide (x = y)) as [->|]; tauto.
Qed.

Lemma block_unique_elem l x : x ∈ block_unique l <-> x ∈ l.
Proof. unfold block_unique. rewrite block_unique_from_elem. split; [tauto|]. intros Hx. split; [done|apply not_elem_of_empty]. Qed.

Section parents.
Context (c : Config) (Hc : config_ok c) (fuel : nat).
Context (s : Stores) (G : list insertion) (t : rtree) (R : hash) (wk : hash -> Z) (Hl : ledger c s G t R wk fuel).
Abbreviation pm := (parents_manager c s).

Definition all_blocks (l : list hash) : Prop := forall x, x ∈ l -> x ∈ blocks_of G.

(** The candidates and their reference blocks are blocks of the history. *)
Definition candidates_ok (m : gmap hash (list hash)) : Prop := forall h refs, m !! h = Some refs -> h ∈ blocks_of G /\ all_blocks refs.

Lemma has_data_run x : x ∈ blocks_of G -> has_reachability_data (reachability_service s) x = Ok true.
Proof.
  intros Hx. pose proof (lg_tracked _ _ _ _ _ _ _ Hl) as Htk. unfold has_reachability_data, reachability_service.
  pose proof (rg_tree _ _ _ (tk_dag _ _ _ _ _ Htk)) as Hrep.
  destruct (shape_lookup _ _ _ x (rt_shape _ _ _ Hrep)) as [d Hv]; [by apply (tk_known _ _ _ _ _ Htk), block_known|].
  by rewrite (ReachQueries.law_has _ x (rt_ok _ _ _ Hrep)) by eauto.
Qed.

Lemma any_below_run l x : all_blocks l -> x ∈ blocks_of G -> exists b, is_any_dag_ancestor (reachability_service s) l x = Ok b.
Proof.
  intros Hin Hx. unfold is_any_dag_ancestor. induction l as [|y l IH]; [by eexists|]. cbn [try_is_any_dag_ancestor].
  pose proof (ancestor_run c s G t R wk fuel Hl y x (block_known G _ (Hin y ltac:(by left))) (block_known G _ Hx)) as E. unfold svc_is_dag_ancestor_of, unwrap in E.
  destruct (is_dag_ancestor_of _ y x) as [b|]; [|done]. cbn [mbind result_bind]. destruct b; [by eexists|]. apply IH. intros z Hz. apply Hin. by right.
Qed.

Lemma retain_run parent (l : list (hash * list hash)) : parent ∈ blocks_of G -> (forall h refs, (h, refs) ∈ l -> all_blocks refs) ->
  exists r, retain_not_below pm parent l = Ok r /\ r `sublist_of` l.
Proof.
  intros Hp. induction l as [|[h refs] l IH]; intros Hl'; [by exists []|]. cbn [retain_not_below pm_reachability parents_manager].
  destruct (any_below_run refs parent (Hl' h refs ltac:(by left)) Hp) as (b & ->). cbn [mbind result_bind].
  destruct IH as (r & -> & Hr); [intros h' refs' Hin; apply (Hl' h' refs'); by right|]. cbn [mbind result_bind]. eexists. split; [done|].
  destruct b; [by apply sublist_cons|by apply sublist_skip].
Qed.

Lemma below_any_run parent (l : list (hash * list hash)) : parent ∈ blocks_of G -> (forall h refs, (h, refs) ∈ l -> all_blocks refs) ->
  exists b, below_any_candidate pm parent l = Ok b.
Proof.
  intros Hp. induction l as [|[h refs] l IH]; intros Hl'; [by eexists|]. cbn [below_any_candidate pm_reachability parents_manager].
  rewrite (any_ancestor_run c s G t R wk fuel Hl parent refs) by (by apply block_known || (intros y Hy; eapply block_known, Hl'; [by left|done])).
  cbn [mbind result_bind]. destruct (existsb _ _); [by eexists|]. apply IH. intros h' refs' Hin. apply (Hl' h' refs'). by right.
Qed.

Lemma visit_grandparent_run level marker i parent m cached : parent ∈ blocks_of G -> candidates_ok m ->
  exists m', visit_grandparent pm level marker i parent m cached = Ok (m', cached) /\ candidates_ok m'.
Proof.
  intros Hp Hm. unfold visit_grandparent. cbn [pm_reachability parents_manager]. rewrite (has_data_run parent Hp). cbn [mbind result_bind].
  assert (Hins : forall m', candidates_ok m' -> candidates_ok (<[parent := [parent]]> m')).
  { intros m' Hm' h refs. destruct (decide (h = parent)) as [->|]; [rewrite lookup_insert_eq; intros [= <-]|by rewrite lookup_insert_ne by done; apply Hm'].
    split; [done|]. by intros x ->%list_elem_of_singleton. }
  destruct (i <? marker)%nat; [eexists; split; [done|by apply Hins]|]. cbn [negb].
  assert (Hrefs : forall h refs, (h, refs) ∈ map_to_list m -> all_blocks refs) by (intros h refs Hin%elem_of_map_to_list; by apply (Hm h)).
  destruct (retain_run parent (map_to_list m) Hp Hrefs) as (kept & -> & Hk). cbn [mbind result_bind].
  assert (Hkr : forall h refs, (h, refs) ∈ kept -> (h, refs) ∈ map_to_list m) by (intros h refs Hin; by eapply elem_of_sublist).
  assert (Hkm : candidates_ok (list_to_map kept)).
  { intros h refs Hin%elem_of_list_to_map_2. apply (Hm h), elem_of_map_to_list. by apply Hkr. }
  destruct (below_any_run parent kept Hp) as (b & Hb); [intros h refs Hin; by apply (Hrefs h), Hkr|].
  assert (Hadd : exists add, (if (length kept <? size m)%nat then Ok true else below ← below_any_candidate pm parent kept; Ok (negb below)) = Ok (E := stop) add).
  { destruct (_ <? _)%nat; [by eexists|]. rewrite Hb. by eexists. }
  destruct Hadd as (add & ->). cbn [mbind result_bind]. eexists. split; [done|]. destruct add; [by apply Hins|done].
Qed.

Lemma visit_grandparents_run level marker i l m cached : all_blocks l -> candidates_ok m ->
  exists m', visit_grandparents pm level marker i l m cached = Ok (m', cached) /\ candidates_ok m'.
Proof.
  revert i m. induction l as [|x l IH]; intros i m Hin Hm; [by exists m|]. cbn [visit_grandparents].
  destruct (visit_grandparent_run level marker i x m cached (Hin x ltac:(by left)) Hm) as (m1 & -> & Hm1). cbn [mbind result_bind fst snd].
  apply IH; [|done]. intros y Hy. apply Hin. by right.
Qed.

(** Headers of blocks of the history. *)
Definition headers_in (hs : list HeaderWithBlockLevel) : Prop := forall v, v ∈ hs -> header_hash (lv_header v) ∈ blocks_of G /\ stored_header c G (header_hash (lv_header v)) v.

Lemma level_parents_in hs level : headers_in hs -> all_blocks (concat (map (fun h => parents_at_level pm (lv_header h) level) hs)).
Proof.
  intros Hh x Hx. apply list_elem_of_In, in_concat in Hx as (l & (v & <- & Hv)%in_map_iff & Hx). apply list_elem_of_In in Hv, Hx.
  by apply (sh_levels _ _ _ _ (proj2 (Hh v Hv)) level).
Qed.

Lemma keys_in m : candidates_ok m -> all_blocks (map fst (map_to_list m)).
Proof. intros Hm x Hx. apply list_elem_of_fmap in Hx as ([h refs] & -> & Hin). rewrite elem_of_map_to_list in Hin. exact (proj1 (Hm h refs Hin)). Qed.

Lemma level_parents_run level hs cached : headers_in hs -> hs <> [] ->
  exists l, level_parents pm level hs cached = Ok (l, cached) /\ all_blocks l.
Proof.
  intros Hh Hne. unfold level_parents. set (cands := foldl _ _ _).
  assert (Hcands : candidates_ok cands).
  { unfold cands. set (l := filter _ hs). assert (Hin : forall v, v ∈ l -> v ∈ hs) by (intros v Hv; by apply list_elem_of_filter in Hv as [_ ?]). clearbody l.
    assert (Hgen : forall acc, candidates_ok acc -> candidates_ok (foldl (fun acc h => <[header_hash (lv_header h) := [header_hash (lv_header h)]]> acc) acc l)); [|by apply Hgen; intros ? ? ?%lookup_empty_Some].
    induction l as [|v l IH]; intros acc Hacc; [done|]. cbn [foldl]. apply IH; [intros; apply Hin; by right|].
    destruct (Hh v (Hin v ltac:(by left))) as [Hb _]. intros h refs. destruct (decide (h = header_hash (lv_header v))) as [->|]; [|rewrite lookup_insert_ne by done; apply Hacc].
    rewrite lookup_insert_eq. intros [= <-]. split; [done|]. by intros x ->%list_elem_of_singleton. }
  assert (Hu : forall l, all_blocks l -> all_blocks (block_unique l)) by (intros l Hl' x Hx; rewrite block_unique_elem in Hx; by apply Hl').
  case_bool_decide as Ec.
  - destruct hs as [|v hs]; [done|]. cbn [lookup list_lookup assert_some ok_or mbind result_bind]. change (drop 1 (v :: hs)) with hs.
    assert (Hall : all_blocks (block_unique (block_unique (parents_at_level pm (lv_header v) level) ++ concat (map (fun h => parents_at_level pm (lv_header h) level) hs)))).
    { apply Hu. intros x. rewrite elem_of_app, block_unique_elem. intros [Hx|Hx]; apply (level_parents_in (v :: hs) level Hh); cbn; apply elem_of_app; auto. }
    destruct (_ =? _)%nat; [by eexists|].
    destruct (visit_grandparents_run level (length (block_unique (parents_at_level pm (lv_header v) level))) 0 _ cands cached Hall Hcands) as (m' & -> & Hm').
    cbn [mbind result_bind fst snd]. eexists. split; [done|]. by apply keys_in.
  - edestruct (visit_grandparents_run level 0 0) as (m' & Hr & Hm'); [|exact Hcands|rewrite Hr; cbn [mbind result_bind fst snd]; eexists; split; [done|by apply keys_in]].
    apply Hu, level_parents_in. intros v Hv. apply Hh. by apply list_elem_of_filter in Hv as [_ ?].
Qed.

Lemma build_levels_run count level hs cached cp levels : headers_in hs -> hs <> [] -> (level + count <= 255)%nat ->
  header_parents_ok cp -> expanded_iter cp = Some levels -> length levels = level -> Forall all_blocks levels ->
  exists cp' levels', build_levels pm count level hs cached cp = Ok cp' /\ header_parents_ok cp' /\ expanded_iter cp' = Some levels' /\ Forall all_blocks levels'.
Proof.
  intros Hh Hne. revert level cp levels. induction count as [|count IH]; intros level cp levels Hlv Hcp He Hlen Hall; [by exists cp, levels|]. cbn [build_levels].
  destruct (level_parents_run level hs cached Hh Hne) as (l & -> & Hla). cbn [mbind result_bind]. destruct (_ && _); [by exists cp, levels|].
  pose proof (parents_push_spec cp levels l Hcp He) as Hp. rewrite bool_decide_true in Hp by lia. destruct Hp as (cp1 & -> & Hcp1 & He1).
  cbn [assert_some ok_or mbind result_bind]. apply (IH (level + 1)%nat cp1 (levels ++ [l])); [lia|done..| |].
  - rewrite length_app. cbn. lia.
  - apply Forall_app. split; [done|by constructor].
Qed.

Lemma position_above_run pp ps i : pp ∈ blocks_of G -> all_blocks ps -> existsb (reaches G pp) ps = true ->
  exists j, position_above pm pp ps i = Ok (Some (i + j)%nat) /\ (j < length ps)%nat.
Proof.
  intros Hpp. revert i. induction ps as [|p ps IH]; intros i Hps He; [done|]. cbn [position_above existsb] in *. cbn [pm_reachability parents_manager].
  rewrite (ancestor_run c s G t R wk fuel Hl pp p (block_known G _ Hpp) (block_known G _ (Hps p ltac:(by left)))).
  cbn [mbind result_bind]. destruct (reaches G pp p); [exists 0%nat; rewrite Nat.add_0_r; split; [done|cbn; lia]|].
  destruct (IH (i + 1)%nat) as (j & -> & Hj); [intros x Hx; apply Hps; by right|done|]. exists (j + 1)%nat. split; [do 2 f_equal; lia|cbn; lia].
Qed.

Lemma calc_block_parents_run pp ps : pp ∈ blocks_of G -> all_blocks ps -> ps <> [] -> existsb (reaches G pp) ps = true ->
  exists cp levels, calc_block_parents pm pp ps = Ok cp /\ header_parents_ok cp /\ expanded_iter cp = Some levels /\ Forall all_blocks levels.
Proof.
  intros Hpp Hps Hne He. unfold calc_block_parents. cbn [pm_headers_store parents_manager].
  set (read x := match headers_access (headers_store s) !! x with Some v => v | None => mk_leveled (mk_header [] 0 [] [] [] [] 0 0 0 0 [] 0 []) 0 end).
  assert (Hread : forall x, x ∈ blocks_of G -> header_with_level (headers_store s) x = Ok (read x) /\ stored_header c G x (read x)).
  { intros x Hx. destruct (lg_header _ _ _ _ _ _ _ Hl x Hx) as (v & Hv & Hsh & _). unfold read. rewrite Hv. split; [|done]. apply read_stored; [apply (lg_headers _ _ _ _ _ _ _ Hl)|]. unfold stored_value. by rewrite Hv. }
  rewrite (collect_map _ read). 2: { intros x Hx. by destruct (Hread x (Hps x Hx)) as [-> _]. }
  cbn [mbind result_bind]. destruct (position_above_run pp ps 0 Hpp Hps He) as (j & -> & Hj). cbn [Nat.add assert_some ok_or mbind result_bind].
  assert (Hsw : exists hs, swap_first j (map read ps) = Some hs /\ hs <> [] /\ forall v, v ∈ hs -> v ∈ map read ps).
  { unfold swap_first. destruct ps as [|p ps]; [done|]. cbn [map].
    destruct (lookup_lt_is_Some_2 (read p :: map read ps) j) as [y Hy]; [cbn in *; rewrite length_map; lia|]. rewrite Hy. cbn [lookup list_lookup mbind option_bind].
    eexists. split; [done|]. split; [by destruct j|]. intros v Hv. apply list_elem_of_lookup in Hv as [i Hi].
    apply list_lookup_insert_Some in Hi as [(_ & <- & _)|[_ Hi]]; [by eapply list_elem_of_lookup_2|].
    apply list_lookup_insert_Some in Hi as [(_ & <- & _)|[_ Hi]]; [by left|by eapply list_elem_of_lookup_2]. }
  destruct Hsw as (hs & -> & Hhne & Hin). cbn [assert_some ok_or mbind result_bind].
  pose proof (cf_levels _ Hc) as Hlv. cbn [pm_max_block_level parents_manager].
  apply (build_levels_run (hc_max_block_level c + 1) 0 hs None [] []); [|done|lia|done..].
  intros v Hv. apply Hin, list_elem_of_fmap in Hv as (x & -> & Hx). destruct (Hread x (Hps x Hx)) as [_ Hsh]. rewrite (sh_hash _ _ _ _ Hsh). split; [by apply Hps|done].
Qed.

Lemma same_levels_in (e a : list (list hash)) : length e = length a -> Forall all_blocks e -> forallb (fun p => same_level_parents p.1 p.2) (zip e a) = true -> Forall all_blocks a.
Proof.
  revert a. induction e as [|x e IH]; intros [|y a] Hlen He Hf; try done. cbn in Hf. apply andb_true_iff in Hf as [Hxy Hf]. apply Forall_cons in He as [Hx He].
  constructor; [|apply IH; [by injection Hlen|done..]]. unfold same_level_parents in Hxy. apply andb_true_iff in Hxy as [_ Hs%bool_decide_eq_true].
  intros z Hz. apply Hx. rewrite <-(elem_of_list_to_set (C := gset hash)), <-Hs, elem_of_list_to_set. done.
Qed.

(** A header that passes the check names blocks of the history at all of its levels. *)
Lemma check_indirect_parents_run x header : ctx_pruning_point x ∈ blocks_of G -> header_parents_ok (parents_by_level header) ->
  all_blocks (direct_parents header) -> direct_parents header <> [] -> existsb (reaches G (ctx_pruning_point x)) (direct_parents header) = true ->
  checked (fun _ => forall level p, p ∈ parents_at_level (parents_manager c stores_new) header level -> p ∈ blocks_of G) (check_indirect_parents c s x header).
Proof.
  intros Hpp Hok Hps Hne He. unfold check_indirect_parents.
  destruct (calc_block_parents_run _ _ Hpp Hps Hne He) as (cp & levels & -> & Hcp & Hx & Hall). cbn [run_ mbind result_bind].
  destruct (expand_some 0 (parents_by_level header) Hok) as (lv & Elv). change (expand_from 0 (parents_by_level header)) with (expanded_iter (parents_by_level header)) in Elv.
  rewrite (expanded_len_spec _ _ Hok Elv), (expanded_len_spec _ _ Hcp Hx). unfold some_or_crash. rewrite Hx, Elv. cbn [assert_some ok_or run_ mbind result_bind].
  destruct (Z.eqb_spec (Z.of_nat (length lv)) (Z.of_nat (length levels))) as [El|]; cbn [negb]; [|done].
  destruct (forallb _ _) eqn:Ef; [|done]. cbn [checked]. apply same_levels_in in Ef; [|lia|done]. intros level p. unfold parents_at_level.
  rewrite (parents_get_spec _ _ _ Hok Elv) by lia. rewrite Nat2Z.id. destruct (lv !! level) as [l|] eqn:E.
  - rewrite Forall_forall in Ef. apply (Ef l). by eapply list_elem_of_lookup_2.
  - case_bool_decide; [by intros ?%elem_of_nil|]. intros ->%list_elem_of_singleton. apply rooted_genesis, (lg_rooted _ _ _ _ _ _ _ Hl).
Qed.
End parents.

(** What a header is known to be when it was read from its encoding. *)
Record header_wf (header : Header) : Prop := {
  hw_parents : header_parents_ok (parents_by_level header);
  hw_time : u64_range (header_timestamp header);
  hw_hash : header_hash header <> ORIGIN /\ header_hash header <> NONE;
}.

Lemma bind_run {A B} (r : result stop A) a (f : A -> result halt B) : r = Ok a -> (x ← run_ r; f x) = f a.
Proof. by intros ->. Qed.

Section validate.
Context (blake3 : bytes -> bytes) (poseidon2_permute : list Z -> list Z) (BlockHash : bytes -> bytes).
Context (c : Config) (Hc : config_ok c) (fuel : nat) (now : Z).
Context (s : Stores) (G : list insertion) (t : rtree) (R : hash) (wk : hash -> Z) (Hl : ledger c s G t R wk fuel).
Abbreviation V := (gs_view (consensus_store s)).
Abbreviation cm := (consensus_manager c s).

(** * In isolation *)

Lemma validate_in_isolation_run header : header_wf header ->
  match validate_header_in_isolation blake3 poseidon2_permute BlockHash c fuel now header with
  | Ok _ => direct_parents header <> [] /\ (length (direct_parents header) <= hc_max_block_parents c)%nat /\ ORIGIN ∉ direct_parents header
  | Err (Rule _) => True
  | Err (Stop e) => e = Diverges /\ state_new BlockHash fuel header = Err Diverges
  end.
Proof.
  intros Hw. unfold validate_header_in_isolation, check_header_version. destruct (_ =? _); [|done]. cbn [mbind result_bind].
  unfold check_block_timestamp_in_isolation. cbv zeta. destruct (_ <? _); [done|]. cbn [mbind result_bind]. unfold check_parents_limit.
  case_bool_decide as Hne; [done|]. destruct (Nat.ltb_spec (hc_max_block_parents c) (length (direct_parents header))) as [|Hlen]; [done|]. cbn [mbind result_bind].
  unfold check_parents_not_origin. case_bool_decide as Ho; [done|]. cbn [mbind result_bind]. unfold check_pow_and_calc_block_level.
  destruct (expand_some 0 _ (hw_parents _ Hw)) as (levels & El).
  assert (Hpre : header_preimage header 0 0 <> None).
  { unfold header_preimage. unfold expanded_iter, expand_rle. by rewrite El. }
  pose proof (state_new_run BlockHash fuel header) as Hst. destruct (state_new BlockHash fuel header) as [st|e].
  - destruct Hst as (Hm & _ & Hml). destruct (check_pow_run blake3 poseidon2_permute st (header_nonce header) Hm Hml) as (r & Er).
    rewrite (bind_run _ _ _ eq_refl), (bind_run _ _ _ Er). destruct (_ || _); [|done]. split_and!; done.
  - by destruct Hst as [->|[_ ?]].
Qed.

(** * The parents *)

Lemma missing_parents_run ps : checked (fun l => l = [] -> all_blocks G ps) (missing_parents s ps).
Proof.
  induction ps as [|p ps IH]; [by intros _ x ?%elem_of_nil|]. cbn [missing_parents]. unfold statuses_get, table_read, optional.
  assert (Hcons : p ∈ blocks_of G -> all_blocks G ps -> all_blocks G (p :: ps)) by (intros Hp Hps x [->|Hx]%elem_of_cons; [done|by apply Hps]).
  destruct (decide (p ∈ blocks_of G)) as [Hp|Hp].
  - destruct (lg_status _ _ _ _ _ _ _ Hl p Hp) as (st & ->). cbn [ok_or run_ mbind result_bind].
    destruct st; [done|..]; (destruct (missing_parents s ps) as [l|[e|e]]; [|done..]; intros El; apply Hcons; [done|by apply IH]).
  - destruct (lg_no_status _ _ _ _ _ _ _ Hl p Hp) as [->| ->]; [|done]. cbn [ok_or run_ mbind result_bind].
    destruct (missing_parents s ps) as [l|[e|e]]; done.
Qed.

Lemma check_parents_exist_run header : checked (fun _ => all_blocks G (direct_parents header)) (check_parents_exist s header).
Proof.
  unfold check_parents_exist. pose proof (missing_parents_run (direct_parents header)) as Hm.
  destruct (missing_parents s (direct_parents header)) as [l|[e|e]]; [|done..]. cbn [mbind result_bind]. case_bool_decide; [by apply Hm|done].
Qed.

Lemma incest_with_run a l : a ∈ blocks_of G -> all_blocks G l -> checked (fun _ => forall b, b ∈ l -> reaches G a b = true -> a = b) (incest_with s a l).
Proof.
  intros Ha. induction l as [|b l IH]; intros Hin; [by intros x ?%elem_of_nil|]. cbn [incest_with].
  assert (Hl' : all_blocks G l) by (intros x Hx; apply Hin; by right). specialize (IH Hl'). case_bool_decide as E.
  - subst b. destruct (incest_with s a l) as [|[e|e]]; [|done..]. intros b [->|Hb]%elem_of_cons; [done|by apply IH].
  - rewrite (ancestor_run c s G t R wk fuel Hl a b (block_known G _ Ha) (block_known G _ (Hin b ltac:(by left)))). cbn [run_ mbind result_bind].
    destruct (reaches G a b) eqn:Er; [done|]. destruct (incest_with s a l) as [|[e|e]]; [|done..].
    intros x [->|Hx]%elem_of_cons; [congruence|by apply IH].
Qed.

Lemma check_parents_incest_run header : all_blocks G (direct_parents header) ->
  checked (fun _ => forall p q, p ∈ direct_parents header -> q ∈ direct_parents header -> reaches G p q = true -> p = q) (check_parents_incest s header).
Proof.
  intros Hps. unfold check_parents_incest.
  assert (Hgen : forall l, all_blocks G l -> checked (fun _ => forall p q, p ∈ l -> q ∈ direct_parents header -> reaches G p q = true -> p = q) (incest_among s (direct_parents header) l)); [|by apply Hgen].
  induction l as [|a l IH]; intros Hin; [by intros p q ?%elem_of_nil|]. cbn [incest_among].
  pose proof (incest_with_run a (direct_parents header) (Hin a ltac:(by left)) Hps) as Ha. destruct (incest_with s a _) as [|[e|e]]; [|done..]. cbn [mbind result_bind].
  specialize (IH ltac:(intros x Hx; apply Hin; by right)). destruct (incest_among s _ l) as [|[e|e]]; [|done..].
  intros p q [->|Hp]%elem_of_cons Hq; [by apply Ha|by apply IH].
Qed.

Lemma validate_parent_relations_run header :
  checked (fun _ => all_blocks G (direct_parents header) /\ forall p q, p ∈ direct_parents header -> q ∈ direct_parents header -> reaches G p q = true -> p = q)
    (validate_parent_relations s header).
Proof.
  unfold validate_parent_relations. eapply checked_bind; [apply check_parents_exist_run|]. intros u Hps.
  pose proof (check_parents_incest_run header Hps) as Hi. destruct (check_parents_incest s header) as [|[e|e]]; [|done..]. by split.
Qed.

(** * The context *)

Lemma filter_known_run ps : all_blocks G ps -> filter_known s ps = Ok ps.
Proof.
  induction ps as [|p ps IH]; intros Hps; [done|]. cbn [filter_known]. unfold rl_has, db_relations, dr_has.
  rewrite (lg_relations _ _ _ _ _ _ _ Hl p) by (apply block_known, Hps; by left). cbn [unwrapped mbind result_bind].
  rewrite IH by (intros x Hx; apply Hps; by right). done.
Qed.

Lemma build_context_run header level : all_blocks G (direct_parents header) -> direct_parents header <> [] ->
  exists pp, pp ∈ blocks_of G /\ pruning_point_store s = Some pp /\
    build_processing_context s header level = Ok (context_new (header_hash header) header level pp (direct_parents header)).
Proof.
  intros Hps Hne. destruct (lg_pruning_point _ _ _ _ _ _ _ Hl) as (pp & Hpp & Hb). exists pp. split; [done|]. split; [done|].
  unfold build_processing_context, some_or_crash, collect_known_direct_parents. rewrite Hpp, filter_known_run by done. cbn [assert_some ok_or run_ mbind result_bind].
  unfold push_if_empty. by rewrite bool_decide_false.
Qed.

Lemma order_block_run x ps : ctx_hash x ∉ known G -> ctx_known_direct_parents x = ps -> ps <> [] -> all_blocks G ps ->
  (forall p q, p ∈ ps -> q ∈ ps -> reaches G p q = true -> p = q) -> (length ps <= hc_max_block_parents c)%nat -> (hc_max_block_parents c + length G < fuel)%nat ->
  exists d L, order_block c fuel s x = Ok (with_data d x) /\ consensus_spec cm G wk ps d L.
Proof.
  intros Hh Hx Hne Hps Hanti Hlen Hf. unfold order_block, optional, dg_get_data.
  assert (Hn : dg_access (consensus_store s) !! ctx_hash x = None).
  { destruct (dg_access (consensus_store s) !! ctx_hash x) eqn:E; [|done]. exfalso. apply Hh, (go_dom _ _ _ _ _ (lg_ghost _ _ _ _ _ _ _ Hl)). cbn. eauto. }
  rewrite Hn. cbn [ok_or run_ mbind result_bind].
  destruct (sahyadri_consensus_run cm G wk (ledger_holds c Hc s G t R wk fuel Hl) ps Hne Hps Hanti fuel ltac:(lia)) as (d & L & Hr & Hs).
  rewrite Hx, Hr. cbn [run_ mbind result_bind]. by exists d, L.
Qed.

(** * The checks against the history *)

Lemma pre_pow_run x header d : ctx_data x = Some d -> ctx_pruning_point x ∈ blocks_of G -> all_blocks G (ctx_known_direct_parents x) ->
  ordered_data (window_manager c s) G d ->
  checked (fun x' => exists w nd, x' = with_difficulty_window w nd x /\ window_of c fuel s G DifficultyWindow d w /\ bits_ok c (header_bits header) /\
    existsb (reaches G (ctx_pruning_point x)) (ctx_known_direct_parents x) = true) (pre_pow_validation c fuel s x header).
Proof.
  intros Hd Hpp Hps Ho. unfold pre_pow_validation, check_pruning_violation.
  rewrite (any_ancestor_run c s G t R wk fuel Hl) by (by apply block_known || (intros y Hy; by apply block_known, Hps)). cbn [run_ mbind result_bind].
  destruct (existsb _ _) eqn:He; [|done]. cbn [mbind result_bind]. unfold check_difficulty_and_daa_score. rewrite Hd. cbn [some_or_crash assert_some ok_or run_ mbind result_bind].
  assert (Hsize : (0 < window_size (window_manager c s) DifficultyWindow)%nat).
  { pose proof (do_min _ (cf_difficulty _ Hc)) as Hmin. cbn in Hmin |- *. lia. }
  destruct (window_run c Hc fuel s G t R wk Hl DifficultyWindow d Ho (lg_difficulty_cache _ _ _ _ _ _ _ Hl) Hsize) as (w & nd & Hw & Hof).
  unfold block_daa_window. rewrite Hw. cbn [mbind result_bind fst snd].
  destruct (daa_score_run c Hc fuel s G t R wk Hl d nd (od_selected _ _ _ Ho)) as (score & Hsc). rewrite Hsc. cbn [run_ mbind result_bind daa_score].
  destruct (score =? _); cbn [negb]; [|done].
  destruct (difficulty_run c Hc fuel s G t R wk Hl d w score nd (od_selected _ _ _ Ho) Hof) as (bits & Hb & Hbok). rewrite Hb. cbn [run_ mbind result_bind].
  destruct (Z.eqb_spec (header_bits header) bits) as [->|]; cbn [negb]; [|done]. cbn [checked daa_window mergeset_non_daa]. exists w, nd. done.
Qed.

Lemma post_pow_run x header d : ctx_data x = Some d -> ctx_pruning_point x ∈ blocks_of G -> header_wf header ->
  all_blocks G (direct_parents header) -> direct_parents header <> [] -> existsb (reaches G (ctx_pruning_point x)) (direct_parents header) = true ->
  ordered_data (window_manager c s) G d -> (forall y, y ∈ mergeset_blues d -> y ∈ known G) -> (forall y, y ∈ mergeset_reds d -> y ∈ known G) ->
  checked (fun x' => exists w root finality, x' = with_depth root finality (with_median_window w x) /\ window_of c fuel s G MedianTimeWindow d w /\
    on_chain_of G d root /\ on_chain_of G d finality /\ blue_score d = header_blue_score header /\ blue_work d = header_blue_work header /\
    Z.of_nat (mergeset_size d) <= hc_mergeset_size_limit c /\
    forall level p, p ∈ parents_at_level (parents_manager c stores_new) header level -> p ∈ blocks_of G) (post_pow_validation c fuel s x header).
Proof.
  intros Hd Hpp Hwf Hps Hne He Ho Hb Hr. unfold post_pow_validation, check_blue_score. rewrite Hd. cbn [some_or_crash assert_some ok_or run_ mbind result_bind].
  destruct (Z.eqb_spec (blue_score d) (header_blue_score header)) as [Es|]; [|done]. cbn [mbind result_bind]. unfold check_blue_work. rewrite Hd. cbn [some_or_crash assert_some ok_or run_ mbind result_bind].
  case_bool_decide as Ew; [|done]. cbn [mbind result_bind]. unfold check_median_timestamp. rewrite Hd. cbn [some_or_crash assert_some ok_or run_ mbind result_bind].
  destruct (median_time_run c Hc fuel s G t R wk Hl d Ho) as (time & w & Hm & Hw). rewrite Hm. cbn [mbind result_bind].
  destruct (_ <=? time); [done|]. cbn [mbind result_bind]. unfold check_mergeset_size_limit. cbn [ctx_data with_median_window]. rewrite Hd. cbn [some_or_crash assert_some ok_or run_ mbind result_bind]. cbv zeta.
  destruct (Z.ltb_spec (hc_mergeset_size_limit c) (Z.of_nat (mergeset_size d))) as [|Hsz]; [done|]. cbn [mbind result_bind].
  unfold check_bounded_merge_depth. cbn [ctx_data ctx_pruning_point with_median_window]. rewrite Hd. cbn [some_or_crash assert_some ok_or run_ mbind result_bind].
  unfold calc_merge_depth_root, calc_finality_point.
  destruct (block_at_depth_run c fuel s G t R wk Hl MergeRoot d (ctx_pruning_point x) Hpp (od_selected _ _ _ Ho)) as (root & -> & Hroot). cbn [run_ mbind result_bind].
  destruct (block_at_depth_run c fuel s G t R wk Hl Finality d (ctx_pruning_point x) Hpp (od_selected _ _ _ Ho)) as (fin & -> & Hfin). cbn [run_ mbind result_bind].
  assert (Hrk : root ∈ known G) by (apply known_blocks; destruct Hroot as [->|[? _]]; auto).
  pose proof (check_reds_run c fuel s G t R wk Hl d root (mergeset_reds d) None Hrk Hb Hr ltac:(done)) as Hreds.
  destruct (check_reds c s d root (mergeset_reds d) None) as [|[e|e]]; [|done..]. cbn [mbind result_bind].
  pose proof (check_indirect_parents_run c Hc fuel s G t R wk Hl (with_depth root fin (with_median_window w x)) header Hpp (hw_parents _ Hwf) Hps Hne He) as Hi.
  destruct (check_indirect_parents c s _ header) as [|[e|e]]; [|done..]. cbn [mbind result_bind checked] in Hi |- *. by exists w, root, fin.
Qed.

(** * A validated header *)

Record validated (header : Header) (x : HeaderProcessingContext) (d : SahyadriConsensusData) (L : list hash) : Prop := {
  vd_hash : ctx_hash x = header_hash header;
  vd_header : ctx_header x = header;
  vd_parents : ctx_known_direct_parents x = direct_parents header;
  vd_nonempty : direct_parents header <> [];
  vd_blocks : all_blocks G (direct_parents header);
  vd_antichain : forall p q, p ∈ direct_parents header -> q ∈ direct_parents header -> reaches G p q = true -> p = q;
  vd_data : ctx_data x = Some d;
  vd_spec : consensus_spec cm G wk (direct_parents header) d L;
  vd_pruning_point : ctx_pruning_point x ∈ blocks_of G;
  vd_difficulty : exists w, ctx_window_for_difficulty x = Some w /\ window_of c fuel s G DifficultyWindow d w;
  vd_median : exists w, ctx_window_for_past_median_time x = Some w /\ window_of c fuel s G MedianTimeWindow d w;
  vd_non_daa : is_Some (ctx_mergeset_non_daa x);
  vd_root : exists b, ctx_merge_depth_root x = Some b /\ on_chain_of G d b;
  vd_finality : exists b, ctx_finality_point x = Some b /\ on_chain_of G d b;
  vd_bits : bits_ok c (header_bits header);
  vd_score : blue_score d = header_blue_score header;
  vd_work : blue_work d = header_blue_work header;
  vd_levels : forall level p, p ∈ parents_at_level (parents_manager c stores_new) header level -> p ∈ blocks_of G;
}.

Lemma validate_header_run header : header_wf header -> header_hash header ∉ known G -> (hc_max_block_parents c + length G < fuel)%nat ->
  match validate_header blake3 poseidon2_permute BlockHash c fuel now header s with
  | (s', Ok x) => s' = s /\ exists d L, validated header x d L
  | (s', Err (Rule e)) => s' = s \/ s' = put_statuses (<[header_hash header := StatusInvalid]> (statuses_store s)) s
  | (s', Err (Stop e)) => s' = s /\ e = Diverges /\ state_new BlockHash fuel header = Err Diverges
  end.
Proof.
  intros Hwf Hh Hf. pose proof (validate_in_isolation_run header Hwf) as Hiso. unfold validate_header, lift, ask, mbind, st_bind.
  destruct (validate_header_in_isolation _ _ _ _ _ _ _) as [level|[e|e]]; [|done|by left]. destruct Hiso as (Hne & Hlen & _).
  pose proof (validate_parent_relations_run header) as Hrel. destruct (validate_parent_relations s header) as [|[e|e]]; [|done|by left]. destruct Hrel as [Hps Hanti].
  destruct (build_context_run header level Hps Hne) as (pp & Hpp & Epp & ->).
  set (x0 := context_new _ _ _ _ _). destruct (order_block_run x0 (direct_parents header) Hh eq_refl Hne Hps Hanti Hlen Hf) as (d & L & -> & Hs).
  pose proof (spec_ordered c Hc fuel s G t R wk Hl _ d L Hps Hs) as Ho.
  pose proof (pre_pow_run (with_data d x0) header d eq_refl Hpp Hps Ho) as Hpre. destruct (pre_pow_validation c fuel s _ header) as [x1|[e|e]]; [|done|by left].
  destruct Hpre as (w & nd & -> & Hw & Hbits & He).
  assert (Hms : forall y, y ∈ mergeset_blues d \/ y ∈ mergeset_reds d -> y ∈ known G).
  { destruct (od_blues _ _ _ Ho) as (bl & Eb & _ & _ & Hall). intros y. rewrite Eb, elem_of_cons. intros [[->|Hy]|Hy]; apply block_known;
      [apply (od_selected _ _ _ Ho)|apply Hall, elem_of_app; auto..]. }
  unfold post_pow_or_invalidate.
  pose proof (post_pow_run (with_difficulty_window w nd (with_data d x0)) header d eq_refl Hpp Hwf Hps Hne He Ho ltac:(auto) ltac:(auto)) as Hpost.
  destruct (post_pow_validation c fuel s _ header) as [x2|[e|e]]; [|done|by right].
  destruct Hpost as (wm & root & fin & -> & Hwm & Hroot & Hfin & Hsc & Hwork & _ & Hlev). split; [done|]. exists d, L.
  split; cbn; try done; eauto.
Qed.
End validate.
