(* ===== verification/HeaderCommit.v ===== *)
(** The commit of a validated header: every store accepts its part, and the stores then
    hold the history with the new block. *)

From S2P Require Import Prelude Access Uint UintCorrect Header HeaderCodec Interval Reach ReachTree ReachStores ReachQueries ReachLaws ReachCount ReachPropagate ReachSides ReachReclaim ReachInsert ReachDag ReachService ReachHistory ReachLedger ReachCommit Work Relations Ghostdag GhostdagStores HeaderStores Difficulty Window BlockDepth ParentsBuilder Pow HeaderProcessor Dag GhostdagSpec GhostdagOrder DifficultyTheorems GhostdagRun WindowTheorems HeaderLedger HeaderChecks.

(** * The reachability store after the commit *)

Lemma tracked_commit (s : StagingReachabilityStore) G t R W : tracked s G t R W -> tracked (staging_new (commit s)) G t R W.
Proof.
  intros [Hg Hk Hch Hroot Hin Hlab Hsz Hf Hh Hw]. set (c1 := set_cache (db_children (commit s))). set (c2 := set_cache (db_fcs (commit s))).
  assert (Ee : evicted c1 c2 (commit s) = commit s) by (unfold evicted, c1, c2; by destruct (commit s) as [? [] [] ? ?]).
  destruct (commit_represents s t _ Hg c1 c2 ltac:(done) ltac:(done)) as [Hg' Hr']. pose proof (cold_view s t _ Hg c1 c2 ltac:(done) ltac:(done)) as Hv.
  pose proof (cold_sets s t _ Hg c1 c2 ltac:(done) ltac:(done)) as Hsets. pose proof (cold_access s t _ Hg c1 c2 ltac:(done) ltac:(done)) as Hacc. rewrite Ee in *.
  split; try done.
  - intros x Hx. specialize (Hf x Hx). cbn [fresh staging_laws] in *. destruct Hf as (F1 & F2 & F3 & F4).
    assert (Hvx : stg_view s !! x = None) by (rewrite stg_view_lookup, F1; by case_bool_decide).
    unfold stg_fresh, stg_data, stg_children, stg_fcs, base_children, base_fcs. cbn [staging_new staging_writes staging_deletions staging_children staging_fcs store_read].
    rewrite !lookup_empty. destruct (Hsets x) as [-> ->]. unfold chl, fcs. rewrite Hvx. split_and!; try done. rewrite Hacc, F1. by case_decide.
  - cbn [view staging_laws] in *. by rewrite Hv.
  - cbn [view staging_laws] in *. by rewrite Hv.
Qed.

(** * The window of an older block *)

Section kept.
Context {T : Type} `{SahyadriConsensusStore T} (m m' : SampledWindowManager T).
Hypothesis Hgen : wm_genesis_hash m' = wm_genesis_hash m.
Hypothesis Hlow : forall d, lowest_daa_blue_score (wm_difficulty_manager m') d = lowest_daa_blue_score (wm_difficulty_manager m) d.
Hypothesis Hdata : forall x d, gs_get_data (wm_store m) x = Ok d ->
  gs_get_data (wm_store m') x = Ok d /\ get_daa_score (wm_headers_store m') x = get_daa_score (wm_headers_store m) x.
Hypothesis Hscore : forall x v, gs_get_blue_score (wm_store m) x = Ok v -> gs_get_blue_score (wm_store m') x = Ok v.
Hypothesis Hwork : forall x v, gs_get_blue_work (wm_store m) x = Ok v -> gs_get_blue_work (wm_store m') x = Ok v.

Lemma sortable_kept x y : sortable (wm_store m) x = Ok y -> sortable (wm_store m') x = Ok y.
Proof. unfold sortable. destruct (gs_get_blue_work (wm_store m) x) as [w|] eqn:E; [|done]. by rewrite (Hwork x w E). Qed.

Lemma keys_kept l ks : collect (sortable (wm_store m)) l = Ok ks -> collect (sortable (wm_store m')) l = Ok ks.
Proof.
  revert ks. induction l as [|x l IH]; intros ks; [done|]. cbn [collect].
  destruct (sortable (wm_store m) x) as [y|] eqn:E; [|done]. rewrite (sortable_kept _ _ E). cbn [mbind result_bind].
  destruct (collect _ l) as [r|]; [|done]. by rewrite (IH r).
Qed.

Lemma sample_kept rate score threshold index l r : sample m rate score threshold index l = Ok r -> sample m' rate score threshold index l = Ok r.
Proof.
  revert index r. induction l as [|b l IH]; intros index r; [done|]. cbn [sample].
  destruct (gs_get_blue_score (wm_store m) (sb_hash b)) as [v|] eqn:E; [|done]. rewrite (Hscore _ v E). cbn [unwrapped mbind result_bind].
  destruct (v <? threshold).
  - destruct (sample m rate score threshold index l) as [r'|] eqn:Er; [|done]. by rewrite (IH _ _ Er).
  - destruct (sample m rate score threshold (wadd64 index 1) l) as [r'|] eqn:Er; [|done]. by rewrite (IH _ _ Er).
Qed.

Lemma iterator_kept rate d work l sp : gs_get_data (wm_store m) (selected_parent d) = Ok sp ->
  sampled_mergeset_iterator m rate d work = Ok l -> sampled_mergeset_iterator m' rate d work = Ok l.
Proof.
  intros Hsp. unfold sampled_mergeset_iterator. destruct (Hdata _ _ Hsp) as [_ ->]. rewrite Hlow. destruct (get_daa_score _ _) as [score|]; [|done]. cbn [unwrapped mbind result_bind].
  unfold descending_mergeset_without_selected_parent.
  destruct (collect _ (reverse (drop 1 (mergeset_blues d)))) as [k1|] eqn:E1; [|done]. rewrite (keys_kept _ _ E1). cbn [mbind result_bind].
  destruct (collect _ (reverse (mergeset_reds d))) as [k2|] eqn:E2; [|done]. rewrite (keys_kept _ _ E2). cbn [mbind result_bind].
  destruct (merge_join _ k1 k2) as [k3|]; [|done]. cbn [mbind result_bind]. apply sample_kept.
Qed.

Lemma chain_samples_kept fuel rate d S : chain_samples m fuel rate d = Ok S -> chain_samples m' fuel rate d = Ok S.
Proof.
  revert d S. induction fuel as [|fuel IH]; intros d S; cbn [chain_samples]; rewrite Hgen; case_bool_decide; try done.
  destruct (gs_get_data (wm_store m) (selected_parent d)) as [pd|] eqn:Ed; [|done]. destruct (Hdata _ _ Ed) as [-> _]. cbn [unwrapped_fault mbind result_bind].
  destruct (sampled_mergeset_iterator m rate d (blue_work pd)) as [l|] eqn:El; [|done]. rewrite (iterator_kept _ _ _ _ _ Ed El). cbn [mbind result_bind].
  destruct (chain_samples m fuel rate pd) as [r|] eqn:Er; [|done]. by rewrite (IH _ _ Er).
Qed.
End kept.

(** * The relations of the new block *)

(** The parents as the store keeps them. *)
Definition stored_parents (ps : list hash) : list hash := if bool_decide (length ps = length (block_unique ps)) then ps else block_unique ps.

Lemma stored_parents_elem ps x : x ∈ stored_parents ps <-> x ∈ ps.
Proof. unfold stored_parents. case_bool_decide; [done|apply block_unique_elem]. Qed.

Lemma relations_insert_run (s : DbRelationsStore) h ps : dr_parents_access s !! h = None ->
  exists s', relations_insert h ps s = (s', Ok tt) /\ dr_parents_access s' = <[h := stored_parents ps]> (dr_parents_access s).
Proof.
  intros Hn. unfold relations_insert. erewrite st_bind_run by (unfold query; cbn; unfold dr_has; rewrite Hn; done). cbv beta iota.
  rewrite bool_decide_false by (by intros [? ?]). fold (stored_parents ps). set (us := stored_parents ps). erewrite st_bind_run by done. cbv beta iota.
  assert (Hgen : forall (l : list hash) (s0 : DbRelationsStore), exists s', for_each (fun parent => update (rl_insert_child parent h)) l s0 = (s', Ok tt) /\ dr_parents_access s' = dr_parents_access s0).
  { induction l as [|p l IH]; intros s0; [by exists s0|]. cbn [for_each]. erewrite st_bind_run by done. cbv beta iota.
    match goal with |- exists s', for_each _ l ?s1 = _ /\ _ => destruct (IH s1) as (s' & -> & E) end. exists s'. split; [done|]. by rewrite E. }
  match goal with |- exists s', for_each _ us ?s1 = _ /\ _ => destruct (Hgen us s1) as (s' & -> & E) end. exists s'. split; [done|]. by rewrite E.
Qed.

(** * The effect of the commit on the stores *)

Lemma must_run {T E A} (get : Stores -> T) (put : T -> Stores -> Stores) (m : st T E A) s t a :
  m (get s) = (t, Ok a) -> must get put m s = (put t s, Ok a).
Proof. unfold must, map_err, on_store. by intros ->. Qed.

Lemma table_insert_run {V : Type} (t : gmap hash V) h v : t !! h = None -> table_insert h v t = (<[h := v]> t, Ok tt).
Proof. intros Hn. unfold table_insert, mbind, st_bind, table_has. rewrite Hn. by rewrite bool_decide_false by (by intros [? ?]). Qed.

Section commit.
Context (c : Config) (fuel : nat).

Lemma stage_reachability_run x header d s G t R W b :
  tracked (staging_new (reachability_store s)) G t R W -> valid_history G -> valid_insertion G b ->
  in_block b = ctx_hash x -> in_selected_parent b = selected_parent d -> in_mergeset b = data_unordered_mergeset_without_selected_parent d ->
  W + insertion_loss G + move_loss (b :: G) <= 2 ^ 64 - 2 -> (length G + 3 <= fuel)%nat ->
  ctx_pruning_point x ∈ known (b :: G) -> is_Some (headers_selected_tip_store s) ->
  exists stg t' R' tip, stage_reachability fuel x header d s = Ok (stg, tip) /\ tracked stg (b :: G) t' R' (W + insertion_loss G + move_loss (b :: G)).
Proof.
  intros Htk HG Hv E1 E2 E3 HW Hfu Hpp [hst Hhst]. unfold stage_reachability, staged. rewrite <-E1, <-E2, <-E3.
  assert (Hmv : 0 <= move_loss (b :: G)) by (unfold move_loss, DEFAULT_REINDEX_SLACK; lia).
  destruct (tracked_add fuel _ G t R W b Htk HG Hv ltac:(lia) ltac:(lia)) as (stg & t' & -> & Htk'). cbn [mbind result_bind fst].
  assert (Hstay : tracked stg (b :: G) t' R (W + insertion_loss G + move_loss (b :: G))) by (eapply tracked_weaken; [|exact Htk']; lia).
  unfold hst_get. rewrite Hhst. cbn [ok_or unwrapped run_ mbind result_bind]. destruct (sortable_cmp _ hst); [by eauto 10..|].
  assert (Hb : in_block b ∈ known (b :: G)) by (cbn; set_solver +).
  rewrite (tracked_chain_ancestor _ _ _ _ _ _ _ Htk' Hpp Hb). cbn [unwrap run_ mbind result_bind]. destruct (on_chain _ _ _); [|by eauto 10].
  assert (HneR : in_block b <> R).
  { intros <-. apply (vi_new _ _ Hv). apply (tk_known _ _ _ _ _ Htk), (tk_in _ _ _ _ _ Htk). }
  destruct (tracked_hint fuel stg (b :: G) t' R _ (in_block b) Htk' Hb HneR ltac:(lia) ltac:(cbn; lia)) as (stg' & R' & -> & Htk''). cbn [mbind result_bind fst]. eauto 10.
Qed.

(** The stores after the commit, but for the reachability store, the relations and the tip. *)
Record committed (x : HeaderProcessingContext) (d : SahyadriConsensusData) (us : list hash) (s s' : Stores) : Prop := {
  cm_consensus : dg_access (consensus_store s') = <[ctx_hash x := d]> (dg_access (consensus_store s));
  cm_compact : dg_compact_access (consensus_store s') = <[ctx_hash x := to_compact d]> (dg_compact_access (consensus_store s));
  cm_difficulty : cache_for_difficulty s' = match ctx_window_for_difficulty x with Some w => <[ctx_hash x := w]> (cache_for_difficulty s) | None => cache_for_difficulty s end;
  cm_median : cache_for_past_median_time s' = match ctx_window_for_past_median_time x with Some w => <[ctx_hash x := w]> (cache_for_past_median_time s) | None => cache_for_past_median_time s end;
  cm_daa : exists nd, daa_excluded_store s' = <[ctx_hash x := nd]> (daa_excluded_store s);
  cm_headers : (headers_insert_batch (ctx_hash x) (ctx_header x) (ctx_block_level x) (headers_store s)) = (headers_store s', Ok tt);
  cm_depth : exists root finality, ctx_merge_depth_root x = Some root /\ ctx_finality_point x = Some finality /\
    depth_store s' = <[ctx_hash x := mk_depth_info root finality]> (depth_store s);
  cm_relations : dr_parents_access (relations_store s') = <[ctx_hash x := us]> (dr_parents_access (relations_store s));
  cm_reachability_relations : dr_parents_access (reachability_relations_store s') = <[ctx_hash x := us]> (dr_parents_access (reachability_relations_store s));
  cm_status : statuses_store s' = <[ctx_hash x := StatusHeaderOnly]> (statuses_store s);
  cm_pruning_point : pruning_point_store s' = pruning_point_store s;
  cm_tip : is_Some (headers_selected_tip_store s');
}.

(** The tables have no entry of the block. *)
Record uncommitted (h : hash) (s : Stores) : Prop := {
  uc_consensus : dg_access (consensus_store s) !! h = None;
  uc_daa : daa_excluded_store s !! h = None;
  uc_headers_ok : headers_ok (headers_store s);
  uc_headers : headers_access (headers_store s) !! h = None;
  uc_fallback : fallback_headers (headers_store s) !! h = None;
  uc_depth : depth_store s !! h = None;
  uc_relations : dr_parents_access (relations_store s) !! h = None;
  uc_reachability_relations : dr_parents_access (reachability_relations_store s) !! h = None;
  uc_tip : is_Some (headers_selected_tip_store s);
}.

Lemma commit_header_run x header d s G t R W b :
  uncommitted (ctx_hash x) s -> ctx_data x = Some d -> is_Some (ctx_mergeset_non_daa x) -> is_Some (ctx_merge_depth_root x) -> is_Some (ctx_finality_point x) ->
  tracked (staging_new (reachability_store s)) G t R W -> valid_history G -> valid_insertion G b ->
  in_block b = ctx_hash x -> in_selected_parent b = selected_parent d -> in_mergeset b = data_unordered_mergeset_without_selected_parent d ->
  W + insertion_loss G + move_loss (b :: G) <= 2 ^ 64 - 2 -> (length G + 3 <= fuel)%nat -> ctx_pruning_point x ∈ known (b :: G) ->
  exists s' t' R', commit_header fuel x header s = (s', Ok tt) /\ committed x d (stored_parents (ctx_known_direct_parents x)) s s' /\
    tracked (staging_new (reachability_store s')) (b :: G) t' R' (W + insertion_loss G + move_loss (b :: G)).
Proof.
  intros [U1 U2 U3 U4 U5 U6 U7 U8 [hst U9]] Ed [nd End] [root Er] [fin Ef] Htk HG Hv E1 E2 E3 HW Hfu Hpp.
  unfold commit_header. erewrite st_bind_run by (unfold lift; rewrite Ed; done).
  erewrite st_bind_run by (apply must_run; unfold dg_insert_batch, mbind, st_bind, dg_has; rewrite U1, bool_decide_false by (by intros [? ?]); done).
  erewrite st_bind_run by (unfold cache_windows; done). erewrite st_bind_run by (unfold lift; rewrite End; done).
  erewrite st_bind_run by (apply must_run, table_insert_run; done).
  destruct (headers_insert_run _ _ (ctx_header x) (ctx_block_level x) U3 U4 U5) as (hs & Hhs & _).
  erewrite st_bind_run by (apply must_run; exact Hhs). erewrite st_bind_run by (unfold lift; rewrite Er; done). erewrite st_bind_run by (unfold lift; rewrite Ef; done).
  erewrite st_bind_run by (apply must_run, table_insert_run; done).
  match goal with |- exists _ _ _, (ask _ ≫= _) ?s1 = _ /\ _ =>
    destruct (stage_reachability_run x header d s1 G t R W b Htk HG Hv E1 E2 E3 HW Hfu Hpp) as (stg & t' & R' & tip & Hst & Htk'); [by eexists|] end.
  erewrite st_bind_run by (unfold ask; rewrite Hst; done). cbv beta iota.
  destruct (relations_insert_run (relations_store s) (ctx_hash x) (ctx_known_direct_parents x) U7) as (rs & Hrs & Ers).
  destruct (relations_insert_run (reachability_relations_store s) (ctx_hash x) (ctx_known_direct_parents x) U8) as (rrs & Hrrs & Errs).
  destruct tip as [tip|]; (erewrite st_bind_run by done); (erewrite st_bind_run by (apply must_run; exact Hrs)); (erewrite st_bind_run by (apply must_run; exact Hrrs));
    (erewrite st_bind_run by (apply must_run; done)); unfold write_reachability; (eexists _, t', R'; split; [done|]; split; [split; cbn; eauto|by apply tracked_commit]).
Qed.
End commit.

(** * The ledger after the commit *)

Section grow.
Context (c : Config) (Hc : config_ok c) (fuel : nat).
Context (s : Stores) (G : list insertion) (t : rtree) (R : hash) (wk : hash -> Z) (Hl : ledger c s G t R wk fuel).
Abbreviation g := (gen_hash (hc_genesis c)).
Context (header : Header) (x : HeaderProcessingContext) (d : SahyadriConsensusData) (L : list hash).
Context (Hwf : header_wf header) (Hh : header_hash header ∉ known G) (Hvd : validated c fuel s G wk header x d L).
Abbreviation h := (header_hash header).
Abbreviation us := (stored_parents (direct_parents header)).
Abbreviation b := (new_block h us d).
Context (s' : Stores) (Hcm : committed x d us s s').

Lemma ledger_uncommitted : uncommitted h s.
Proof.
  assert (Hb : h ∉ blocks_of G) by (intros ?%block_known; done). destruct Hl. split; auto.
  - destruct (dg_access (consensus_store s) !! h) as [d'|] eqn:E; [|done]. exfalso. apply Hh. apply (go_dom _ _ _ _ _ lg_ghost). exists d'. exact E.
  - rewrite lg_no_fallback. apply lookup_empty.
Qed.

Lemma consensus_after : gs_ok (consensus_store s') /\ gs_view (consensus_store s') = <[h := d]> (gs_view (consensus_store s)).
Proof.
  pose proof (lg_consensus _ _ _ _ _ _ _ Hl) as Hok. destruct Hcm. rewrite (vd_hash _ _ _ _ _ _ _ _ _ Hvd) in *. split; [|done].
  cbn [gs_ok db_gd_laws] in *. unfold dg_ok in *. rewrite cm_consensus0, cm_compact0, Hok. by rewrite fmap_insert.
Qed.

Lemma data_kept y v : dg_access (consensus_store s) !! y = Some v -> y <> h /\ gs_view (consensus_store s') !! y = Some v.
Proof.
  intros Hy. assert (y <> h) by (intros ->; by rewrite (uc_consensus _ _ ledger_uncommitted) in Hy). split; [done|].
  destruct consensus_after as [_ ->]. by rewrite lookup_insert_ne.
Qed.

Lemma score_read (st : DbSahyadriConsensusStore) y v : gs_ok st -> gs_get_blue_score st y = Ok v -> exists e, dg_access st !! y = Some e /\ v = blue_score e.
Proof.
  intros Hok Hr. destruct (dg_access st !! y) as [e|] eqn:E; [exists e; split; [done|]; rewrite (law_blue_score st y e Hok E) in Hr; congruence|].
  cbn [gs_get_blue_score db_gd] in Hr. unfold dg_get_blue_score, dg_read_from_cache, dg_get_compact_data in Hr. cbn [gs_ok db_gd_laws] in Hok. unfold dg_ok in Hok. rewrite Hok, lookup_fmap, E in Hr.
  by case_bool_decide.
Qed.

Lemma work_read (st : DbSahyadriConsensusStore) y v : gs_ok st -> gs_get_blue_work st y = Ok v -> exists e, dg_access st !! y = Some e /\ v = blue_work e.
Proof.
  intros Hok Hr. destruct (dg_access st !! y) as [e|] eqn:E; [exists e; split; [done|]; rewrite (law_blue_work st y e Hok E) in Hr; congruence|].
  cbn [gs_get_blue_work db_gd] in Hr. unfold dg_get_blue_work, dg_read_from_cache, dg_get_compact_data in Hr. cbn [gs_ok db_gd_laws] in Hok. unfold dg_ok in Hok. rewrite Hok, lookup_fmap, E in Hr.
  by case_bool_decide.
Qed.

Lemma headers_after : headers_ok (headers_store s') /\ headers_access (headers_store s') = <[h := mk_leveled header (ctx_block_level x)]> (headers_access (headers_store s)) /\
  fallback_headers (headers_store s') = fallback_headers (headers_store s) /\
  (forall y, y <> h -> get_compact_header_data (headers_store s') y = get_compact_header_data (headers_store s) y).
Proof.
  destruct ledger_uncommitted. pose proof (cm_headers _ _ _ _ _ Hcm) as E. rewrite (vd_hash _ _ _ _ _ _ _ _ _ Hvd), (vd_header _ _ _ _ _ _ _ _ _ Hvd) in E.
  destruct (headers_insert_run _ _ header (ctx_block_level x) uc_headers_ok0 uc_headers0 uc_fallback0) as (hs & Hhs & H1 & _ & _ & H2 & H3 & H4). rewrite E in Hhs. injection Hhs as <-. done.
Qed.

Lemma samples_after rate e S : chain_samples (window_manager c s) fuel rate e = Ok S -> chain_samples (window_manager c s') fuel rate e = Ok S.
Proof.
  pose proof (lg_consensus _ _ _ _ _ _ _ Hl) as Hok. destruct consensus_after as [Hok' _].
  apply chain_samples_kept; [done|done|..]; cbn [wm_store wm_headers_store window_manager].
  - intros y v Hy. assert (Hv : dg_access (consensus_store s) !! y = Some v).
    { cbn [gs_get_data db_gd] in Hy. unfold dg_get_data in Hy. by destruct (dg_access (consensus_store s) !! y) as [v'|]; cbn in Hy; [congruence|]. }
    destruct (data_kept y v Hv) as [Hne Hv']. split; [by apply law_data|]. unfold get_daa_score. by rewrite (proj2 (proj2 (proj2 headers_after)) y Hne).
  - intros y v Hy. destruct (score_read _ y v Hok Hy) as (e' & He & ->). apply law_blue_score; [done|]. by apply data_kept.
  - intros y v Hy. destruct (work_read _ y v Hok Hy) as (e' & He & ->). apply law_blue_work; [done|]. by apply data_kept.
Qed.

Lemma window_after window_type e w : reference_window (window_manager c s) fuel e window_type = Ok w -> reference_window (window_manager c s') fuel e window_type = Ok w.
Proof.
  unfold reference_window. intros Hw. destruct (chain_samples (window_manager c s) fuel _ e) as [S|] eqn:E; [|done].
  replace (sample_rate (window_manager c s') window_type) with (sample_rate (window_manager c s) window_type) by (by destruct window_type).
  rewrite (samples_after _ _ _ E). cbn [mbind result_bind] in *. rewrite <-Hw. by destruct window_type.
Qed.

Lemma cache_after window_type w : cache_consistent (window_manager c s) fuel window_type -> window_of c fuel s G window_type d w ->
  cache_of (window_manager c s') window_type = <[h := w]> (cache_of (window_manager c s) window_type) -> cache_consistent (window_manager c s') fuel window_type.
Proof.
  intros Hcc [(w0 & Hw0 & Hp) _] E y v. rewrite E. destruct consensus_after as [Hok' Hv']. destruct (decide (y = h)) as [->|Hne].
  - rewrite lookup_insert_eq. intros [= <-]. exists d, w0. split; [apply law_data; [done|]; cbn [wm_store window_manager]; rewrite Hv'; apply lookup_insert_eq|].
    split; [by apply window_after|done].
  - rewrite lookup_insert_ne by done. intros Hy. destruct (Hcc y v Hy) as (e & w1 & He & Hw1 & Hp1). exists e, w1. split; [|split; [by apply window_after|done]].
    apply law_data; [done|]. apply data_kept. cbn [wm_store window_manager gs_get_data db_gd] in He. unfold dg_get_data in He.
    by destruct (dg_access (consensus_store s) !! y); cbn in He; [congruence|].
Qed.

Lemma blocks_after y : y ∈ blocks_of (b :: G) <-> y = h \/ y ∈ blocks_of G.
Proof. unfold blocks_of. cbn [map in_block new_block]. apply elem_of_cons. Qed.

Lemma known_after y : y ∈ known (b :: G) <-> y = h \/ y ∈ known G.
Proof. cbn [known in_block new_block]. apply elem_of_cons. Qed.

Lemma chain_after y z : z ∈ known G -> on_chain (b :: G) y z = on_chain G y z.
Proof. intros Hz. cbn [on_chain in_block new_block]. rewrite bool_decide_false; [done|]. by intros ->. Qed.

Lemma depth_after p : on_chain_of G d p -> p = ORIGIN \/ (p ∈ blocks_of (b :: G) /\ on_chain (b :: G) p h = true).
Proof.
  intros [->|[Hp Hch]]; [by left|right]. split; [apply blocks_after; by right|]. cbn [on_chain in_block new_block in_selected_parent].
  rewrite bool_decide_true by done. rewrite Hch. apply orb_true_r.
Qed.
Lemma spec_grows : valid_insertion G b /\ valid_history (b :: G) /\ rooted g (b :: G) /\ ghost_ok g (b :: G) (gs_view (consensus_store s')) (hc_k c) wk.
Proof.
  destruct consensus_after as [_ ->]. destruct Hvd. pose proof (ledger_holds c Hc s G t R wk fuel Hl) as Hm. pose proof (proj2 (hw_hash _ Hwf)) as Hn.
  pose proof (new_block_valid (consensus_manager c s) G wk (direct_parents header) vd_blocks us (stored_parents_elem _) h d L vd_spec Hh Hn) as [Hv _].
  split; [done|]. apply (run_grow (consensus_manager c s) G wk Hm (direct_parents header) vd_blocks us (stored_parents_elem _) h d L vd_spec Hh Hn).
Qed.

Lemma stored_header_after y v : stored_header c G y v -> stored_header c (b :: G) y v.
Proof. intros [S1 S2 S3 S4]. split; [done..|]. intros level p Hp. apply blocks_after. right. eauto. Qed.

Lemma stored_depth_after y i : y ∈ blocks_of G -> stored_depth G y i -> stored_depth (b :: G) y i.
Proof.
  intros Hy [S1 S2]. split; [destruct S1 as [?|[? ?]]|destruct S2 as [?|[? ?]]]; try (by left); right; (split; [apply blocks_after; by right|]);
    (rewrite chain_after; [done|by apply block_known]).
Qed.

Context (t' : rtree) (R' : hash) (Htk : tracked (staging_new (reachability_store s')) (b :: G) t' R' (spent G + insertion_loss G + move_loss (b :: G))).
Context (Hlen : Z.of_nat (S (length G)) <= MAX_BLOCKS) (Hfuel : (2 * S (length G) + 3 < fuel)%nat).
Context (w : limbs) (Hw : calc_work (header_bits header) = Some w) (Hwk : val w = wk h).

Lemma header_after y : y ∈ blocks_of (b :: G) -> exists v, headers_access (headers_store s') !! y = Some v /\ stored_header c (b :: G) y v /\
  exists w, calc_work (header_bits (lv_header v)) = Some w /\ val w = wk y.
Proof.
  destruct headers_after as (_ & -> & _). rewrite blocks_after. destruct (decide (y = h)) as [->|Hne].
  - intros _. rewrite lookup_insert_eq. eexists. split; [done|]. cbn [lv_header]. split; [|by exists w]. destruct Hvd, Hwf. split; cbn [lv_header]; try done.
    intros level p Hp. apply blocks_after. right. eauto.
  - intros [?|Hy]; [done|]. rewrite lookup_insert_ne by done. destruct (lg_header _ _ _ _ _ _ _ Hl y Hy) as (v & Hv & Hs & Hx). exists v.
    split; [done|]. split; [by apply stored_header_after|done].
Qed.

Lemma depths_after y : y ∈ blocks_of (b :: G) -> exists i, depth_store s' !! y = Some i /\ stored_depth (b :: G) y i.
Proof.
  destruct (cm_depth _ _ _ _ _ Hcm) as (root & fin & Er & Ef & ->). rewrite (vd_hash _ _ _ _ _ _ _ _ _ Hvd), blocks_after. destruct (decide (y = h)) as [->|Hne].
  - intros _. rewrite lookup_insert_eq. eexists. split; [done|]. destruct (vd_root _ _ _ _ _ _ _ _ _ Hvd) as (p1 & E1 & H1). destruct (vd_finality _ _ _ _ _ _ _ _ _ Hvd) as (p2 & E2 & H2).
    split; cbn; apply depth_after; congruence.
  - intros [?|Hy]; [done|]. rewrite lookup_insert_ne by done. destruct (lg_depth _ _ _ _ _ _ _ Hl y Hy) as (i & Hi & Hs). exists i. split; [done|]. by apply stored_depth_after.
Qed.

Lemma ledger_grow : ledger c s' (b :: G) t' R' wk fuel.
Proof.
  destruct spec_grows as (Hv & HG & Hr & Hgo). destruct consensus_after as [Hok _]. destruct headers_after as (Hho & Hha & Hhf & _). pose proof (vd_hash _ _ _ _ _ _ _ _ _ Hvd) as Ex.
  split; try done; try (cbn [length]; done).
  - intros y. rewrite (cm_relations _ _ _ _ _ Hcm), Ex, known_after. cbn [parents_of in_block new_block in_parents]. destruct (decide (y = h)) as [->|Hne].
    + intros _. by rewrite lookup_insert_eq, bool_decide_true.
    + intros [?|Hy]; [done|]. rewrite lookup_insert_ne, bool_decide_false by done. by apply (lg_relations _ _ _ _ _ _ _ Hl).
  - intros y. rewrite (cm_relations _ _ _ _ _ Hcm), Ex, known_after. intros Hy. rewrite lookup_insert_ne by (intros E; apply Hy; auto). apply (lg_no_relations _ _ _ _ _ _ _ Hl). auto.
  - intros y. rewrite (cm_reachability_relations _ _ _ _ _ Hcm), Ex, known_after. intros Hy. rewrite lookup_insert_ne by (intros E; apply Hy; auto). apply (lg_no_reachability_relations _ _ _ _ _ _ _ Hl). auto.
  - intros y. rewrite (cm_status _ _ _ _ _ Hcm), Ex, blocks_after. destruct (decide (y = h)) as [->|Hne]; [intros _; rewrite lookup_insert_eq; by eexists|].
    intros [?|Hy]; [done|]. rewrite lookup_insert_ne by done. by apply (lg_status _ _ _ _ _ _ _ Hl).
  - intros y. rewrite (cm_status _ _ _ _ _ Hcm), Ex, blocks_after. intros Hy. rewrite lookup_insert_ne by (intros E; apply Hy; auto). apply (lg_no_status _ _ _ _ _ _ _ Hl). auto.
  - rewrite (cm_pruning_point _ _ _ _ _ Hcm). destruct (lg_pruning_point _ _ _ _ _ _ _ Hl) as (pp & Epp & Hpp). exists pp. split; [done|]. apply blocks_after. auto.
  - apply header_after.
  - intros y. rewrite Hha, blocks_after. intros Hy. rewrite lookup_insert_ne by (intros E; apply Hy; auto). apply (lg_no_header _ _ _ _ _ _ _ Hl). auto.
  - rewrite Hhf. apply (lg_no_fallback _ _ _ _ _ _ _ Hl).
  - intros y. destruct (cm_daa _ _ _ _ _ Hcm) as (nd & ->). rewrite Ex, blocks_after. intros Hy. rewrite lookup_insert_ne by (intros E; apply Hy; auto). apply (lg_no_daa _ _ _ _ _ _ _ Hl). auto.
  - apply depths_after.
  - intros y. destruct (cm_depth _ _ _ _ _ Hcm) as (root & fin & _ & _ & ->). rewrite Ex, blocks_after. intros Hy. rewrite lookup_insert_ne by (intros E; apply Hy; auto). apply (lg_no_depth _ _ _ _ _ _ _ Hl). auto.
  - apply (cm_tip _ _ _ _ _ Hcm).
  - destruct (vd_difficulty _ _ _ _ _ _ _ _ _ Hvd) as (wd & Ed & Hwd). apply (cache_after DifficultyWindow wd (lg_difficulty_cache _ _ _ _ _ _ _ Hl) Hwd).
    cbn. by rewrite (cm_difficulty _ _ _ _ _ Hcm), Ed, Ex.
  - destruct (vd_median _ _ _ _ _ _ _ _ _ Hvd) as (wm & Em & Hwm). apply (cache_after MedianTimeWindow wm (lg_median_cache _ _ _ _ _ _ _ Hl) Hwm).
    cbn. by rewrite (cm_median _ _ _ _ _ Hcm), Em, Ex.
Qed.
End grow.
