(* ===== verification/HeaderTheorems.v ===== *)
(** The header processor from the start of a new node: every header is accepted, found
    known or rejected by a rule, and the stores hold the history of the accepted ones. *)

From S2P Require Import Prelude Access Uint UintCorrect Header HeaderCodec Interval Reach ReachTree ReachStores ReachQueries ReachLaws ReachCount ReachPropagate ReachSides ReachReclaim ReachInsert ReachDag ReachService ReachHistory ReachLedger ReachCommit ReachTheorems Work Relations Ghostdag GhostdagStores HeaderStores Difficulty Window BlockDepth ParentsBuilder Pow PowTheorems HeaderProcessor Params Dag GhostdagSpec GhostdagOrder DifficultyTheorems GhostdagRun WindowTheorems HeaderLedger ParamsTheorems HeaderChecks HeaderCommit.

(** * The invariant under the smaller changes *)

Section ledger.
Context (c : Config) (Hc : config_ok c) (fuel : nat).
Context (s : Stores) (G : list insertion) (t : rtree) (R : hash) (wk : hash -> Z) (Hl : ledger c s G t R wk fuel).
Abbreviation g := (gen_hash (hc_genesis c)).

(** The work of a hash that is no block is free. *)
Lemma ledger_agree wk' : (forall x, x ∈ blocks_of G -> wk' x = wk x) -> ledger c s G t R wk' fuel.
Proof.
  intros He. pose proof Hl as []. split; try done.
  - pose proof lg_ghost as [G1 G2 G3 G4]. split; [done..|]. intros p Hp Hne. destruct (G4 p Hp Hne) as [B1 B2 B3 B4 B5 B6 B7 B8]. split; try done. rewrite B6. f_equal.
    assert (Hsum : forall l, (forall x, x ∈ l -> x ∈ blocks_of G) -> sum_works wk l = sum_works wk' l).
    { induction l as [|x l IH]; intros Hin; [done|]. cbn [sum_works]. rewrite (He x) by (apply Hin; by left). rewrite IH; [done|]. intros y Hy. apply Hin. by right. }
    apply Hsum. intros x Hx. by apply (blues_blocks (consensus_store s) g G (hc_k c) wk lg_valid lg_rooted lg_ghost p x).
  - intros x Hx. destruct (lg_header x Hx) as (v & Hv & Hs & w & Hw & Ew). exists v. split; [done|]. split; [done|]. exists w. by rewrite He.
Qed.

(** A block found invalid is not of the history. *)
Lemma ledger_invalid h : h ∉ blocks_of G -> ledger c (put_statuses (<[h := StatusInvalid]> (statuses_store s)) s) G t R wk fuel.
Proof.
  intros Hh. destruct Hl. split; try done; cbn [statuses_store put_statuses].
  - intros x Hx. rewrite lookup_insert_ne by (by intros ->). by apply lg_status.
  - intros x Hx. destruct (decide (x = h)) as [->|Hne]; [right; apply lookup_insert_eq|]. rewrite lookup_insert_ne by done. by apply lg_no_status.
Qed.

Lemma commit_run header x d L w :
  header_wf header -> header_hash header ∉ known G -> validated c fuel s G wk header x d L ->
  Z.of_nat (S (length G)) <= MAX_BLOCKS -> (2 * S (length G) + 3 < fuel)%nat -> calc_work (header_bits header) = Some w -> val w = wk (header_hash header) ->
  exists s' t' R', commit_header fuel x header s = (s', Ok tt) /\ ledger c s' (new_block (header_hash header) (stored_parents (direct_parents header)) d :: G) t' R' wk fuel /\
    statuses_store s' = <[header_hash header := StatusHeaderOnly]> (statuses_store s).
Proof.
  intros Hwf Hh Hvd Hlen Hfu Hw Hwk. set (b := new_block _ _ d). pose proof (ledger_holds c Hc s G t R wk fuel Hl) as Hm.
  pose proof (new_block_valid (consensus_manager c s) G wk (direct_parents header) (vd_blocks _ _ _ _ _ _ _ _ _ Hvd) _ (stored_parents_elem _) _ d L (vd_spec _ _ _ _ _ _ _ _ _ Hvd) Hh (proj2 (hw_hash _ Hwf))) as [Hv _].
  pose proof (ledger_uncommitted c fuel s G t R wk Hl header Hh) as Hu. pose proof (vd_hash _ _ _ _ _ _ _ _ _ Hvd) as Ex. rewrite <-Ex in Hu.
  destruct (commit_header_run fuel x header d s G t R (spent G) b Hu) as (s' & t' & R' & Hr & Hcm & Htk).
  - apply (vd_data _ _ _ _ _ _ _ _ _ Hvd).
  - apply (vd_non_daa _ _ _ _ _ _ _ _ _ Hvd).
  - destruct (vd_root _ _ _ _ _ _ _ _ _ Hvd) as (p & -> & _). by eexists.
  - destruct (vd_finality _ _ _ _ _ _ _ _ _ Hvd) as (p & -> & _). by eexists.
  - apply (lg_tracked _ _ _ _ _ _ _ Hl).
  - apply (lg_valid _ _ _ _ _ _ _ Hl).
  - exact Hv.
  - by rewrite Ex.
  - done.
  - done.
  - apply (spent_room G b). exact Hlen.
  - lia.
  - cbn [known]. right. apply block_known. apply (vd_pruning_point _ _ _ _ _ _ _ _ _ Hvd).
  - exists s', t', R'. split; [done|]. split; [|rewrite <-Ex; apply (cm_status _ _ _ _ _ Hcm)]. rewrite (vd_parents _ _ _ _ _ _ _ _ _ Hvd) in Hcm.
    by apply (ledger_grow c Hc fuel s G t R wk Hl header x d L Hwf Hh Hvd s' Hcm t' R' Htk Hlen Hfu w Hw Hwk).
Qed.
End ledger.

(** * One header *)

(** The history after a header: the same, or with the header's block over its parents. *)
Definition extends (header : Header) (G G' : list insertion) : Prop :=
  exists d, G' = new_block (header_hash header) (stored_parents (direct_parents header)) d :: G /\ header_hash header ∉ known G.

Section step.
Context (blake3 : bytes -> bytes) (poseidon2_permute : list Z -> list Z) (BlockHash : bytes -> bytes).
Context (c : Config) (Hc : config_ok c) (fuel : nat).

Lemma process_header_run now header s G t R wk : ledger c s G t R wk fuel -> header_wf header ->
  (hc_max_block_parents c + length G < fuel)%nat -> Z.of_nat (S (length G)) <= MAX_BLOCKS -> (2 * S (length G) + 3 < fuel)%nat ->
  match process_header blake3 poseidon2_permute BlockHash c fuel now (Ordinary header) s with
  | (s', Ok _) => exists G' t' R' wk', ledger c s' G' t' R' wk' fuel /\ ((G' = G /\ header_hash header ∈ blocks_of G /\ s' = s) \/
      (extends header G G' /\ statuses_store s' = <[header_hash header := StatusHeaderOnly]> (statuses_store s)))
  | (s', Err (Rule _)) => (exists wk', ledger c s' G t R wk' fuel) /\ (s' = s \/
      ((header_hash header ∉ blocks_of G) /\ statuses_store s' = <[header_hash header := StatusInvalid]> (statuses_store s)))
  | (s', Err (Stop e)) => s' = s /\ e = Diverges /\ state_new BlockHash fuel header = Err Diverges
  end.
Proof.
  intros Hl Hwf Hf1 Hlen Hf2. unfold process_header. cbn [task_header]. set (h := header_hash header).
  assert (Hread : optional (statuses_get (statuses_store s) h) = Ok (statuses_store s !! h)).
  { unfold statuses_get, table_read. by destruct (statuses_store s !! h). }
  erewrite st_bind_run by (unfold ask; rewrite Hread; done). cbv beta iota. destruct (statuses_store s !! h) as [st|] eqn:Est.
  - assert (Hin : st <> StatusInvalid -> h ∈ blocks_of G).
    { intros Hne. destruct (decide (h ∈ blocks_of G)) as [|Hn]; [done|]. destruct (lg_no_status _ _ _ _ _ _ _ Hl h Hn); congruence. }
    destruct st; first [split; [by exists wk|by left] | exists G, t, R, wk; split; [done|left; split; [done|split; [by apply Hin|done]]]].
  - assert (Hb : h ∉ blocks_of G) by (intros Hin; destruct (lg_status _ _ _ _ _ _ _ Hl h Hin); congruence).
    assert (Hk : h ∉ known G) by (rewrite known_blocks; intros [Ho|Hi]; [by apply (proj1 (hw_hash _ Hwf))|done]).
    set (wk' := fun x => if bool_decide (x = h) then match calc_work (header_bits header) with Some w => val w | None => 0 end else wk x).
    assert (Hl' : ledger c s G t R wk' fuel).
    { apply (ledger_agree c fuel s G t R wk Hl). intros x Hx. unfold wk'. rewrite bool_decide_false; [done|]. by intros ->. }
    pose proof (validate_header_run blake3 poseidon2_permute BlockHash c Hc fuel now s G t R wk' Hl' header Hwf Hk Hf1) as Hval.
    unfold mbind at 1 2, st_bind at 1 2. destruct (validate_header _ _ _ _ _ _ header s) as [s1 [x|[e|e]]].
    + destruct Hval as (-> & d & L & Hvd). destruct (work_of_bits c Hc _ (vd_bits _ _ _ _ _ _ _ _ _ Hvd)) as (w & Hw & _).
      destruct (commit_run c Hc fuel s G t R wk' Hl' header x d L w Hwf Hk Hvd Hlen Hf2 Hw) as (s' & t' & R' & -> & Hl2 & Est').
      { unfold wk'. by rewrite bool_decide_true, Hw. }
      exists (new_block h (stored_parents (direct_parents header)) d :: G), t', R', wk'. split; [done|]. right. split; [by exists d|done].
    + done.
    + destruct Hval as [->| ->]; [split; [by exists wk'|by left]|]. split; [exists wk'; by apply ledger_invalid|right; done].
Qed.
End step.

(** * A new node *)

Definition genesis_insertion (c : Config) : insertion := mk_insertion (gen_hash (hc_genesis c)) ORIGIN [ORIGIN] [].

Lemma reachability_init_run : exists db, reachability_init db_new = (db, Ok tt) /\ tracked (staging_new db) [] (Node ORIGIN []) ORIGIN 0.
Proof.
  exists (commit (init (staging_new db_new)).1). split; [vm_compute; reflexivity|].
  destruct (tracked_init (staging_new db_new) (proj1 staging_new_ok) (proj2 staging_new_ok)) as (s' & -> & Ht). by apply tracked_commit.
Qed.

Section genesis.
Context (BlockHash : bytes -> bytes) (c : Config) (Hc : config_ok c) (fuel : nat) (Hfuel : (5 < fuel)%nat).
Abbreviation g := (gen_hash (hc_genesis c)).

Lemma genesis_header_run : exists header, genesis_header BlockHash c = Some header /\ header_hash header = g /\ parents_by_level header = [] /\ header_timestamp header = gen_timestamp (hc_genesis c) /\ header_bits header = gen_bits (hc_genesis c).
Proof. eexists. split; [done|]. done. Qed.

(** The stores before the genesis block is processed. *)
Record origin_only (s : Stores) : Prop := {
  oo_tracked : tracked (staging_new (reachability_store s)) [] (Node ORIGIN []) ORIGIN 0;
  oo_relations : dr_parents_access (relations_store s) = <[ORIGIN := []]> ∅;
  oo_reachability_relations : dr_parents_access (reachability_relations_store s) = <[ORIGIN := []]> ∅;
  oo_consensus : dg_access (consensus_store s) = <[ORIGIN := origin_sahyadri_consensus_data]> ∅;
  oo_compact : dg_compact_access (consensus_store s) = <[ORIGIN := to_compact origin_sahyadri_consensus_data]> ∅;
  oo_statuses : statuses_store s = ∅;
  oo_pruning_point : pruning_point_store s = Some g;
  oo_difficulty : cache_for_difficulty s = ∅;
  oo_median : cache_for_past_median_time s = ∅;
  oo_daa : daa_excluded_store s = ∅;
  oo_headers : headers_store s = headers_new;
  oo_depth : depth_store s = ∅;
}.

Lemma before_genesis_run : exists s0, origin_only s0 /\ consensus_init BlockHash c fuel stores_new = process_genesis BlockHash c fuel s0.
Proof.
  destruct reachability_init_run as (db & Hdb & Htk). unfold consensus_init. erewrite st_bind_run by (apply must_run; exact Hdb).
  destruct (relations_insert_run dr_new ORIGIN [] ltac:(done)) as (rs & Hrs & Ers).
  assert (Hri : relations_init dr_new = (rs, Ok tt)).
  { unfold relations_init. erewrite st_bind_run by done. cbv beta iota. rewrite bool_decide_false by (by intros [? ?]). unfold unwrap_update, map_err. by rewrite Hrs. }
  erewrite st_bind_run by (apply must_run; exact Hri). erewrite (st_bind_run (processor_init)).
  2: { unfold processor_init. erewrite st_bind_run by done. cbn [relations_store put_reachability put_reachability_relations]. rewrite bool_decide_false by (by intros [? ?]). erewrite st_bind_run by (apply must_run; exact Hrs).
       erewrite st_bind_run by (apply must_run; done). apply must_run. done. }
  erewrite st_bind_run by done. eexists. split; [|done]. split; cbn; try done.
Qed.
Lemma genesis_valid : valid_insertion [] (genesis_insertion c).
Proof.
  destruct (cf_genesis _ Hc) as [Ho Hn]. split; cbn; try done; try set_solver. constructor.
Qed.

(** The context of the genesis block. *)
Definition genesis_context (header : Header) : HeaderProcessingContext :=
  mk_ctx g header g (Z.of_nat (hc_max_block_level c)) [ORIGIN] (Some genesis_sahyadri_consensus_data) None None (Some ∅) (Some ORIGIN) (Some ORIGIN).

Lemma origin_uncommitted s0 header : origin_only s0 -> header_hash header = g -> uncommitted g (put_tip (Some (mk_sortable g (uint_from_u64 3 0))) s0).
Proof.
  destruct (cf_genesis _ Hc) as [Ho Hn]. intros [] _. split; cbn [consensus_store daa_excluded_store headers_store depth_store relations_store reachability_relations_store headers_selected_tip_store put_tip].
  - by rewrite oo_consensus0, lookup_insert_ne.
  - by rewrite oo_daa0.
  - rewrite oo_headers0. apply headers_new_ok.
  - by rewrite oo_headers0.
  - by rewrite oo_headers0.
  - by rewrite oo_depth0.
  - by rewrite oo_relations0, lookup_insert_ne.
  - by rewrite oo_reachability_relations0, lookup_insert_ne.
  - by eexists.
Qed.

Lemma genesis_ghost V k wk : V = <[g := genesis_sahyadri_consensus_data]> (<[ORIGIN := origin_sahyadri_consensus_data]> ∅) -> ghost_ok g [genesis_insertion c] V k wk.
Proof.
  destruct (cf_genesis _ Hc) as [Ho _]. intros ->. split.
  - intros x. cbn [known genesis_insertion in_block]. rewrite !elem_of_cons, elem_of_nil. destruct (decide (x = g)) as [->|Hg]; [rewrite lookup_insert_eq; split; [by eexists|auto]|].
    rewrite lookup_insert_ne by done. destruct (decide (x = ORIGIN)) as [->|Hx]; [rewrite lookup_insert_eq; split; [by eexists|auto]|].
    rewrite lookup_insert_ne, lookup_empty by done. split; [naive_solver|by intros []].
  - by rewrite lookup_insert_ne, lookup_insert_eq by done.
  - apply lookup_insert_eq.
  - intros p Hp Hne. exfalso. apply Hne. unfold blocks_of in Hp. cbn in Hp. by apply list_elem_of_singleton in Hp.
Qed.
Lemma genesis_ledger s0 header s t R : origin_only s0 -> header_hash header = g -> parents_by_level header = [] ->
  header_timestamp header = gen_timestamp (hc_genesis c) -> header_bits header = gen_bits (hc_genesis c) ->
  committed (genesis_context header) genesis_sahyadri_consensus_data [ORIGIN] (put_tip (Some (mk_sortable g (uint_from_u64 3 0))) s0) s ->
  tracked (staging_new (reachability_store s)) [genesis_insertion c] t R (spent [genesis_insertion c]) ->
  exists wk, ledger c s [genesis_insertion c] t R wk fuel.
Proof.
  intros Ho Hg Hp Ht Hb Hcm Htk. pose proof (cf_genesis _ Hc) as [Hgo Hgn]. pose proof (do_genesis _ (cf_difficulty _ Hc)) as Hbits.
  assert (Hbo : bits_ok c (header_bits header)) by (rewrite Hb; split; [exact Hbits|done]).
  destruct (work_of_bits c Hc _ Hbo) as (w & Hw & _). exists (fun _ => val w).
  assert (Hblk : forall x, x ∈ blocks_of [genesis_insertion c] <-> x = g) by (intros x; unfold blocks_of; cbn; apply list_elem_of_singleton).
  assert (Hkn : forall x, x ∈ known [genesis_insertion c] <-> x = g \/ x = ORIGIN) by (intros x; cbn; rewrite !elem_of_cons, elem_of_nil; tauto).
  destruct Ho, Hcm. cbn [ctx_hash genesis_context consensus_store daa_excluded_store headers_store depth_store relations_store reachability_relations_store statuses_store pruning_point_store
    cache_for_difficulty cache_for_past_median_time put_tip ctx_window_for_difficulty ctx_window_for_past_median_time ctx_header ctx_merge_depth_root ctx_finality_point] in *.
  destruct (headers_insert_run headers_new g header (Z.of_nat (hc_max_block_level c)) headers_new_ok eq_refl eq_refl) as (hs & Hhs & Hho & _ & _ & _ & Eha & Ehf).
  rewrite oo_headers0 in cm_headers. cbn [ctx_block_level genesis_context] in cm_headers. rewrite Hhs in cm_headers. injection cm_headers as Ehs. subst hs. cbn [headers_access fallback_headers headers_new] in Eha, Ehf.
  destruct cm_daa as (nd & Ed). destruct cm_depth as (r0 & f0 & [= <-] & [= <-] & Edp). split; try done.
  - split; [apply genesis_valid|done].
  - intros x [->| ->]%Hkn; rewrite cm_relations, oo_relations0; cbn [parents_of genesis_insertion in_block in_parents]; [by rewrite lookup_insert_eq, bool_decide_true|].
    by rewrite lookup_insert_ne, lookup_insert_eq, bool_decide_false.
  - intros x Hx. rewrite Hkn in Hx. rewrite cm_relations, oo_relations0, !lookup_insert_ne by naive_solver. apply lookup_empty.
  - intros x Hx. rewrite Hkn in Hx. rewrite cm_reachability_relations, oo_reachability_relations0, !lookup_insert_ne by naive_solver. apply lookup_empty.
  - cbn [gs_ok db_gd_laws]. unfold dg_ok. by rewrite cm_consensus, cm_compact, oo_consensus0, oo_compact0, !fmap_insert, fmap_empty.
  - apply genesis_ghost. cbn [gs_view db_gd_laws]. by rewrite cm_consensus, oo_consensus0.
  - intros x ->%Hblk. rewrite cm_status, lookup_insert_eq. by eexists.
  - intros x Hx. rewrite Hblk in Hx. left. rewrite cm_status, oo_statuses0, lookup_insert_ne by naive_solver. apply lookup_empty.
  - rewrite cm_pruning_point, oo_pruning_point0. exists g. split; [done|by apply Hblk].
  - intros x ->%Hblk. rewrite Eha, lookup_insert_eq. eexists. split; [done|]. cbn [lv_header]. split; [|by exists w].
    split; cbn [lv_header]; [done|rewrite Ht; apply (cf_genesis_time _ Hc)|done|]. intros level p Hin. unfold parents_at_level in Hin. rewrite Hp in Hin. by destruct level; apply elem_of_nil in Hin.
  - intros x Hx. rewrite Hblk in Hx. rewrite Eha, lookup_insert_ne by naive_solver. apply lookup_empty.
  - intros x Hx. rewrite Hblk in Hx. rewrite Ed, oo_daa0, lookup_insert_ne by naive_solver. apply lookup_empty.
  - intros x ->%Hblk. rewrite Edp, lookup_insert_eq. eexists. split; [done|]. split; by left.
  - intros x Hx. rewrite Hblk in Hx. rewrite Edp, oo_depth0, lookup_insert_ne by naive_solver. apply lookup_empty.
  - intros h v. cbn. rewrite cm_difficulty, oo_difficulty0, lookup_empty. done.
  - intros h v. cbn. rewrite cm_median, oo_median0, lookup_empty. done.
Qed.

Lemma init_ledger : exists s t R wk, consensus_init BlockHash c fuel stores_new = (s, Ok tt) /\ ledger c s [genesis_insertion c] t R wk fuel /\
  statuses_store s = <[g := StatusHeaderOnly]> ∅.
Proof.
  destruct before_genesis_run as (s0 & Ho & ->). destruct genesis_header_run as (header & Eh & Hg & Hp & Ht & Hb).
  unfold process_genesis. erewrite st_bind_run by (apply must_run; done). erewrite st_bind_run by (unfold lift; rewrite Eh; done).
  change (mk_ctx _ _ _ _ _ _ _ _ _ _ _) with (genesis_context header).
  destruct (commit_header_run fuel (genesis_context header) header genesis_sahyadri_consensus_data _ [] (Node ORIGIN []) ORIGIN 0 (genesis_insertion c) (origin_uncommitted s0 header Ho Hg))
    as (s' & t' & R' & -> & Hcm & Htk); try done; try (by eexists).
  - apply (oo_tracked _ Ho).
  - apply genesis_valid.
  - cbn. lia.
  - by left.
  - destruct (genesis_ledger s0 header s' t' R' Ho Hg Hp Ht Hb Hcm Htk) as (wk & Hl). exists s', t', R', wk.
    split; [done|]. split; [done|]. rewrite (cm_status _ _ _ _ _ Hcm). cbn. by rewrite (oo_statuses _ Ho).
Qed.
End genesis.

(** What the stores have of a hash that is no block. *)
Lemma unknown_absent c (Hc : config_ok c) s G t R wk fuel : ledger c s G t R wk fuel -> forall x, x ∉ known G ->
  (exists e, dr_get_parents (relations_store s) x = Err e) /\ (exists e, header_with_level (headers_store s) x = Err e) /\
  daa_excluded_store s !! x = None /\ depth_store s !! x = None /\ (statuses_store s !! x = None \/ statuses_store s !! x = Some StatusInvalid).
Proof.
  intros Hl x Hx. assert (Hb : x ∉ blocks_of G) by (intros Hin; by apply Hx, block_known). split_and!.
  - unfold dr_get_parents. rewrite (lg_no_relations _ _ _ _ _ _ _ Hl x Hx). by eexists.
  - destruct (header_with_level (headers_store s) x) as [v|e] eqn:E; [|by exists e]. apply read_stored in E; [|apply (lg_headers _ _ _ _ _ _ _ Hl)].
    unfold stored_value in E. by rewrite (lg_no_header _ _ _ _ _ _ _ Hl x Hb), (lg_no_fallback _ _ _ _ _ _ _ Hl), lookup_empty in E.
  - by apply (lg_no_daa _ _ _ _ _ _ _ Hl).
  - by apply (lg_no_depth _ _ _ _ _ _ _ Hl).
  - by apply (lg_no_status _ _ _ _ _ _ _ Hl).
Qed.

(** * A sequence of headers *)

Section headers.
Context (blake3 : bytes -> bytes) (poseidon2_permute : list Z -> list Z) (BlockHash : bytes -> bytes).
Context (c : Config) (fuel : nat).
Abbreviation g := (gen_hash (hc_genesis c)).

(** Headers in the order they arrive, each with the time of the clock. *)
Fixpoint process_headers (tasks : list (Z * Header)) (s : Stores) : Stores * list (result halt BlockStatus) :=
  match tasks with
  | [] => (s, [])
  | (now, header) :: tasks' =>
      let '(s1, r) := process_header blake3 poseidon2_permute BlockHash c fuel now (Ordinary header) s in
      let '(s2, rs) := process_headers tasks' s1 in
      (s2, r :: rs)
  end.

(** The outcome of a header: accepted, or rejected by a rule of the protocol; only the search
    for an invertible matrix may not end. *)
Definition outcome_ok (G : list insertion) (task : Z * Header) (r : result halt BlockStatus) : Prop :=
  match r with
  | Ok _ => header_hash task.2 ∈ blocks_of G
  | Err (Rule _) => True
  | Err (Stop e) => e = Diverges /\ state_new BlockHash fuel task.2 = Err Diverges
  end.

(** The block [x] of an accepted header, with its parents in the history. *)
Definition accepted_with (tasks : list (Z * Header)) (rs : list (result halt BlockStatus)) (G : list insertion) (x : hash) : Prop :=
  exists now header status, ((now, header), Ok status) ∈ zip tasks rs /\ header_hash header = x /\ parents_of G x = stored_parents (direct_parents header).

(** The blocks of the history are the genesis and exactly those of the accepted headers,
    over their parents. *)
Record accepted_history (tasks : list (Z * Header)) (rs : list (result halt BlockStatus)) (G : list insertion) : Prop := {
  ah_blocks : forall x, x ∈ blocks_of G <-> x = g \/ exists now header status, ((now, header), Ok status) ∈ zip tasks rs /\ header_hash header = x;
  ah_parents : forall x, x ∈ blocks_of G -> x = g \/ accepted_with tasks rs G x;
}.

Definition grown (tasks : list (Z * Header)) (rs : list (result halt BlockStatus)) (G G' : list insertion) : Prop :=
  (length G' <= length tasks + length G)%nat /\ (forall x, x ∈ blocks_of G -> x ∈ blocks_of G' /\ parents_of G' x = parents_of G x) /\
  forall x, x ∈ blocks_of G' -> x ∈ blocks_of G \/ accepted_with tasks rs G' x.

Context (Hc : config_ok c).

Lemma process_headers_run tasks s G t R wk : ledger c s G t R wk fuel -> Forall (fun task => header_wf task.2) tasks ->
  Z.of_nat (length tasks + length G) <= MAX_BLOCKS -> (2 * (length tasks + length G) + 3 < fuel)%nat -> (hc_max_block_parents c + (length tasks + length G) < fuel)%nat ->
  exists s' rs G' t' R' wk', process_headers tasks s = (s', rs) /\ ledger c s' G' t' R' wk' fuel /\ grown tasks rs G G' /\ Forall2 (outcome_ok G') tasks rs.
Proof.
  intros Hl Hwf. revert s G t R wk Hl. induction Hwf as [|[now header] tasks Hw Hwf IH]; intros s G t R wk Hl Hn Hf1 Hf2.
  { exists s, [], G, t, R, wk. split; [done|]. split; [done|]. split; [|constructor]. split; [done|]. split; [done|auto]. }
  cbn [length snd] in *. pose proof (process_header_run blake3 poseidon2_permute BlockHash c Hc fuel now header s G t R wk Hl Hw ltac:(lia) ltac:(lia) ltac:(lia)) as Hstep.
  cbn [process_headers]. destruct (process_header _ _ _ _ _ _ _ s) as [s1 r].
  assert (Hcase : exists G1 t1 R1 wk1, ledger c s1 G1 t1 R1 wk1 fuel /\ (G1 = G \/ extends header G G1 /\ exists st, r = Ok st) /\ outcome_ok G1 (now, header) r).
  { destruct r as [st|[e|e]].
    - destruct Hstep as (G' & t' & R' & wk' & Hl' & Hc'). exists G', t', R', wk'. split; [done|].
      split; [destruct Hc' as [(-> & _)|[He _]]; [by left|right; split; [done|by exists st]]|]. destruct Hc' as [(-> & Hin & _)|[(d & -> & _) _]]; [done|]. unfold blocks_of. cbn. by left.
    - destruct Hstep as (-> & -> & Hd). exists G, t, R, wk. split; [done|]. split; [by left|done].
    - destruct Hstep as [(wk' & Hl') _]. exists G, t, R, wk'. split; [done|]. split; [by left|done]. }
  destruct Hcase as (G1 & t1 & R1 & wk1 & Hl1 & Hg1 & Ho1).
  assert (Hb1 : (length G1 <= S (length G))%nat /\ (forall x, x ∈ blocks_of G -> x ∈ blocks_of G1 /\ parents_of G1 x = parents_of G x) /\
    forall x, x ∈ blocks_of G1 -> x ∈ blocks_of G \/ (header_hash header = x /\ parents_of G1 x = stored_parents (direct_parents header) /\ exists st, r = Ok st)).
  { destruct Hg1 as [->|[(d & -> & Hk) Hr]]; [split; [lia|]; split; [done|auto]|]. split; [done|]. unfold blocks_of. cbn [map in_block new_block parents_of in_parents]. split.
    - intros x Hx. split; [by right|]. rewrite bool_decide_false; [done|]. intros ->. apply Hk, block_known, Hx.
    - intros x [->|Hx]%elem_of_cons; [right; by rewrite bool_decide_true|by left]. }
  destruct Hb1 as (B1 & B2 & B3). destruct (IH s1 G1 t1 R1 wk1 Hl1 ltac:(lia) ltac:(lia) ltac:(lia)) as (s' & rs & G' & t' & R' & wk' & -> & Hl' & (D1 & D2 & D3) & Ho').
  exists s', (r :: rs), G', t', R', wk'. split; [done|]. split; [done|]. split.
  - split; [cbn; lia|]. split.
    + intros x Hx. destruct (B2 x Hx) as [H1 H2]. destruct (D2 x H1) as [H3 H4]. split; [done|]. by rewrite H4.
    + intros x Hx. destruct (D3 x Hx) as [Hx1|(nw & hd & st & Hin & He)]; [|right; exists nw, hd, st; split; [by right|done]].
      destruct (B3 x Hx1) as [?|(He & Hp & st & ->)]; [by left|right]. exists now, header, st. split; [by left|]. split; [done|]. by rewrite (proj2 (D2 x Hx1)).
  - constructor; [|done]. destruct r as [st|[e|e]]; [|done..]. apply D2, Ho1.
Qed.

Lemma new_node_run tasks : Forall (fun task => header_wf task.2) tasks -> Z.of_nat (S (length tasks)) <= MAX_BLOCKS ->
  (2 * S (length tasks) + 3 < fuel)%nat -> (hc_max_block_parents c + S (length tasks) < fuel)%nat ->
  exists s0 s rs G t R wk, consensus_init BlockHash c fuel stores_new = (s0, Ok tt) /\ process_headers tasks s0 = (s, rs) /\
    ledger c s G t R wk fuel /\ accepted_history tasks rs G /\ Forall2 (outcome_ok G) tasks rs /\ (length G <= S (length tasks))%nat.
Proof.
  intros Hwf Hn Hf1 Hf2. assert (E : (length tasks + length [genesis_insertion c] = S (length tasks))%nat) by (cbn; lia).
  destruct (init_ledger BlockHash c Hc fuel) as (s0 & t0 & R0 & wk0 & Hi & Hl0 & _).
  { lia. }
  destruct (process_headers_run tasks s0 _ t0 R0 wk0 Hl0 Hwf) as (s & rs & G & t & R & wk & Hr & Hl & (Hlen & Hsub & Hb) & Ho); [rewrite E; done..|].
  assert (Hg : forall x, x ∈ blocks_of [genesis_insertion c] <-> x = g) by (intros x; unfold blocks_of; cbn; apply list_elem_of_singleton).
  exists s0, s, rs, G, t, R, wk. split_and!; try done; [|by rewrite E in Hlen]. split.
  - intros x. split; [intros Hx; destruct (Hb x Hx) as [?%Hg|(now & header & st & ? & ? & _)]; [by left|right; by exists now, header, st]|].
    intros [->|(now & header & st & Hin & <-)]; [by apply Hsub, Hg|]. apply elem_of_lookup_zip_with in Hin as (i & task & res & Et & H1 & H2). injection Et as <- <-.
    exact (Forall2_lookup_lr _ _ _ _ _ _ Ho H1 H2).
  - intros x Hx. destruct (Hb x Hx) as [?%Hg|?]; [by left|by right].
Qed.
End headers.

(** * The claims *)

(** C5: a new node with sound parameters starts, and then never stops: whatever headers
    arrive (well formed, at most 2^23), in whatever order and at whatever times, each is
    accepted, known, or rejected by a rule of the protocol. No lookup fails, no assertion
    of the reachability tree or of the difficulty arithmetic is hit and no store refuses a
    write; the one loop without a bound is the search for an invertible matrix of the proof of work. *)
Theorem header_processor_total blake3 poseidon2_permute BlockHash c fuel (tasks : list (Z * Header)) :
  config_ok c -> Forall (fun task => header_wf task.2) tasks -> Z.of_nat (S (length tasks)) <= MAX_BLOCKS ->
  (2 * S (length tasks) + 3 < fuel)%nat -> (hc_max_block_parents c + S (length tasks) < fuel)%nat ->
  exists s0 s rs, consensus_init BlockHash c fuel stores_new = (s0, Ok tt) /\
    process_headers blake3 poseidon2_permute BlockHash c fuel tasks s0 = (s, rs) /\ length rs = length tasks /\
    forall i header now e, tasks !! i = Some (now, header) -> rs !! i = Some (Err (Stop e)) -> e = Diverges /\ state_new BlockHash fuel header = Err Diverges.
Proof.
  intros Hc Hwf Hn Hf1 Hf2. destruct (new_node_run blake3 poseidon2_permute BlockHash c fuel Hc tasks Hwf Hn Hf1 Hf2) as (s0 & s & rs & G & t & R & wk & Hi & Hr & _ & _ & Ho & _).
  exists s0, s, rs. split; [done|]. split; [done|]. split; [symmetry; by eapply Forall2_length|].
  intros i header now e Ht He. exact (Forall2_lookup_lr _ _ _ _ _ _ Ho Ht He).
Qed.


(** * A run on the main network *)

(** With one seed for every header, and work that meets the target of the genesis block. *)
Definition demo_hash (_ : bytes) : bytes := demo_seed.

Definition mainnet : Params := ltac:(let p := eval vm_compute in MAINNET_PARAMS in match p with Some ?q => exact q end).

Lemma mainnet_ok : config_ok (config_of mainnet).
Proof. apply (network_config Mainnet). vm_compute. reflexivity. Qed.

Definition demo_header (h : Z) (parents : list hash) (root : bytes) (daa_score work blue_score : Z) : Header :=
  mk_header (replicate 32 h) 1 [(1, parents)] root (replicate 32 0) (replicate 32 0) 1773133001000 537198592 7 daa_score (uint_from_u64 3 work) blue_score (gen_hash GENESIS).

Definition demo_child (h : Z) : Header := demo_header h [gen_hash GENESIS] (replicate 32 0) 1312860 51 1.
Definition demo_merge (blue_score : Z) : Header :=
  mk_header (replicate 32 5) 1 [(1, [replicate 32 4; replicate 32 3])] (replicate 32 0) (replicate 32 0) (replicate 32 0) 1773133002000 537198592 7 1312862 (uint_from_u64 3 153) blue_score (gen_hash GENESIS).

(** Two children of the genesis block, one of an unknown block, a block that merges the two,
    and one of the children again. *)
Definition demo_tasks : list (Z * Header) :=
  [(1773133002000, demo_child 3); (1773133002000, demo_child 4); (1773133003000, demo_header 6 [replicate 32 9] [] 0 0 0);
   (1773133003000, demo_merge 3); (1773133003000, demo_child 3)].

Lemma demo_tasks_ok : Forall (fun task => header_wf task.2) demo_tasks.
Proof. repeat constructor; done. Qed.

Lemma level_of_pow blake3 poseidon2_permute BlockHash c fuel header state r : state_new BlockHash fuel header = Ok state ->
  check_pow blake3 poseidon2_permute state (header_nonce header) = Ok r -> r.1 = true ->
  check_pow_and_calc_block_level blake3 poseidon2_permute BlockHash c fuel header = Ok (calc_level_from_pow r.2 (Z.of_nat (hc_max_block_level c))).
Proof. intros E H Hr. unfold check_pow_and_calc_block_level. rewrite (bind_run _ _ _ E), (bind_run _ _ _ H). by rewrite Hr. Qed.

Lemma demo_level header : is_Some (header_preimage header 0 0) -> uint_leb [0; 0; 0; 2 ^ 47] (from_compact_target_bits (header_bits header)) = true ->
  check_pow_and_calc_block_level demo_hash demo_permute demo_hash (config_of mainnet) 40 header = Ok 0.
Proof.
  intros Hp Ht. destruct (demo_check_pow demo_hash 39 header Hp) as (s & E & H). exact (level_of_pow _ _ _ (config_of mainnet) _ _ _ _ E (H _) Ht).
Qed.

Lemma demo_header_level h parents root daa_score work blue_score :
  check_pow_and_calc_block_level demo_hash demo_permute demo_hash (config_of mainnet) 40 (demo_header h parents root daa_score work blue_score) = Ok 0.
Proof. apply demo_level; [by eexists|vm_compute; reflexivity]. Qed.

Lemma demo_merge_level blue_score : check_pow_and_calc_block_level demo_hash demo_permute demo_hash (config_of mainnet) 40 (demo_merge blue_score) = Ok 0.
Proof. apply demo_level; [by eexists|vm_compute; reflexivity]. Qed.

(** The checks after the proof of work, and the commits, are evaluated. *)
Ltac run_headers :=
  unfold process_header; cbn [task_header]; unfold validate_header, validate_header_in_isolation; rewrite ?demo_header_level, ?demo_merge_level; vm_compute; reflexivity.

Definition demo_results : list (result halt BlockStatus) :=
  [Ok StatusHeaderOnly; Ok StatusHeaderOnly; Err (Rule (MissingParents [replicate 32 9])); Ok StatusHeaderOnly; Ok StatusHeaderOnly].

Lemma demo_headers_evaluated :
  (process_headers demo_hash demo_permute demo_hash (config_of mainnet) 40 demo_tasks (consensus_init demo_hash (config_of mainnet) 40 stores_new).1).2 = demo_results.
Proof. unfold demo_tasks, demo_child. cbn [process_headers]. run_headers. Qed.

Lemma demo_run : exists s0 s, consensus_init demo_hash (config_of mainnet) 40 stores_new = (s0, Ok tt) /\
  process_headers demo_hash demo_permute demo_hash (config_of mainnet) 40 demo_tasks s0 = (s, demo_results).
Proof.
  destruct (init_ledger demo_hash (config_of mainnet) mainnet_ok 40 ltac:(lia)) as (s0 & _ & _ & _ & E & _).
  pose proof demo_headers_evaluated as H. rewrite E in H. exists s0. destruct (process_headers _ _ _ _ _ _ _) as [s rs]. exists s. split; [exact E|exact (f_equal (pair s) H)].
Qed.

Lemma demo_bounds : Z.of_nat (S (S (length demo_tasks))) <= MAX_BLOCKS /\ (2 * S (S (length demo_tasks)) + 3 < 40)%nat /\
  (hc_max_block_parents (config_of mainnet) + S (S (length demo_tasks)) < 40)%nat.
Proof. split; [vm_compute; discriminate|]. split; [cbn; lia|vm_compute; lia]. Qed.

Lemma header_processor_total_witness : exists s0 s, consensus_init demo_hash (config_of mainnet) 40 stores_new = (s0, Ok tt) /\
  process_headers demo_hash demo_permute demo_hash (config_of mainnet) 40 demo_tasks s0 = (s, demo_results).
Proof.
  destruct demo_bounds as (B1 & B2 & B3). destruct demo_run as (d0 & d & D1 & D2).
  destruct (header_processor_total demo_hash demo_permute demo_hash (config_of mainnet) 40 demo_tasks mainnet_ok demo_tasks_ok ltac:(lia) ltac:(lia) ltac:(lia)) as (s0 & s & rs & H1 & H2 & _).
  exists s0, s. split; [exact H1|]. rewrite D1 in H1. injection H1 as <-. rewrite D2 in H2. injection H2 as <- <-. exact D2.
Defined.

