(* ===== verification/HeaderAccept.v ===== *)
(** When a header is accepted: exactly when it follows the rules of the protocol on the
    history the stores hold. *)

From S2P Require Import Prelude Access Uint UintCorrect Header HeaderCodec Interval Reach ReachTree ReachStores ReachQueries ReachLaws ReachDag ReachService ReachHistory ReachLedger Work Relations Ghostdag GhostdagStores HeaderStores Difficulty Window BlockDepth ParentsBuilder Pow PowTheorems HeaderProcessor Params Dag GhostdagSpec GhostdagOrder DifficultyTheorems GhostdagRun WindowTheorems HeaderLedger HeaderChecks HeaderCommit HeaderTheorems.

(** A check that passes exactly when [P] holds. *)
Definition decides {A} (P : Prop) (r : result halt A) : Prop := match r with Ok _ => P | Err _ => ~ P end.

Lemma decides_bind {A B} (P Q : Prop) (r : result halt A) (f : A -> result halt B) :
  decides P r -> (forall a, r = Ok a -> P -> decides Q (f a)) -> decides (P /\ Q) (a ← r; f a).
Proof.
  destruct r as [a|e]; cbn; intros HP Hf; [|tauto]. specialize (Hf a eq_refl HP). destruct (f a) as [b|e]; cbn in *; tauto.
Qed.

Lemma bind_stop {A B} (r : result stop A) e (f : A -> result halt B) : r = Err e -> (x ← run_ r; f x) = Err (Stop e).
Proof. by intros ->. Qed.

Lemma decides_iff {A} (P Q : Prop) (r : result halt A) : (P <-> Q) -> decides P r -> decides Q r.
Proof. destruct r as [a|e]; cbn; tauto. Qed.

(** Every red block of the mergeset is above the root, or below a blue block
    whose chain has the root. *)
Definition merges_in_depth (G : list insertion) (d : SahyadriConsensusData) (root : hash) : Prop :=
  forall red, red ∈ mergeset_reds d -> reaches G root red = true \/ exists blue, blue ∈ mergeset_blues d /\ on_chain G root blue = true /\ reaches G red blue = true.

(** The same levels, each with the same set of parents. *)
Definition same_parents (expected actual : CompressedParents) : Prop :=
  exists e a, expanded_iter expected = Some e /\ expanded_iter actual = Some a /\
    Forall2 (fun x y => length y = length x /\ forall p, p ∈ y <-> p ∈ x) e a.

Section accept.
Context (blake3 : bytes -> bytes) (poseidon2_permute : list Z -> list Z) (BlockHash : bytes -> bytes).
Context (c : Config) (Hc : config_ok c) (fuel : nat) (now : Z).
Context (s : Stores) (G : list insertion) (t : rtree) (R : hash) (wk : hash -> Z) (Hl : ledger c s G t R wk fuel).

(** * The rules *)

(** The hash of the header meets its target. *)
Definition passes_pow (header : Header) : Prop :=
  exists state r, state_new BlockHash fuel header = Ok state /\ check_pow blake3 poseidon2_permute state (header_nonce header) = Ok r /\ r.1 || hc_skip_proof_of_work c = true.

(** Of the header alone. *)
Record isolated_rules (header : Header) : Prop := {
  ir_version : header_version header = BLOCK_VERSION;
  ir_time : header_timestamp header <= wadd64 now (wmul64 (hc_timestamp_deviation_tolerance c) 1000);
  ir_parents : direct_parents header <> [] /\ (length (direct_parents header) <= hc_max_block_parents c)%nat;
  ir_origin : ORIGIN ∉ direct_parents header;
  ir_pow : passes_pow header;
}.

(** Of the header over its parents; [d] is the ordering of the new block. *)
Record dag_rules (header : Header) (pruning_point : hash) (d : SahyadriConsensusData) : Prop := {
  dr_above : existsb (reaches G pruning_point) (direct_parents header) = true;
  dr_daa : exists w, block_daa_window (window_manager c s) fuel d = Ok w /\ daa_score w = header_daa_score header /\
    window_difficulty_bits (window_manager c s) d w = Ok (header_bits header);
  dr_score : blue_score d = header_blue_score header;
  dr_work : blue_work d = header_blue_work header;
  dr_median : exists time w, window_past_median_time (window_manager c s) fuel d = Ok (time, w) /\ time < header_timestamp header;
  dr_size : Z.of_nat (mergeset_size d) <= hc_mergeset_size_limit c;
  dr_depth : exists root, calc_merge_depth_root (depth_manager c s) fuel d pruning_point = Ok root /\ merges_in_depth G d root;
  dr_indirect : exists expected, calc_block_parents (parents_manager c s) pruning_point (direct_parents header) = Ok expected /\
    same_parents expected (parents_by_level header);
}.

(** The parents are blocks of the history, none of them with an invalid body. *)
Definition usable (ps : list hash) : Prop := forall p, p ∈ ps -> p ∈ blocks_of G /\ statuses_store s !! p <> Some StatusInvalid.
Definition usable_parents (header : Header) : Prop := usable (direct_parents header).

Record follows_rules (header : Header) : Prop := {
  fr_isolated : isolated_rules header;
  fr_known : usable_parents header;
  fr_antichain : forall p q, p ∈ direct_parents header -> q ∈ direct_parents header -> reaches G p q = true -> p = q;
  fr_dag : exists pruning_point d, pruning_point_store s = Some pruning_point /\
    sahyadri_consensus fuel (consensus_manager c s) (direct_parents header) = Ok d /\ dag_rules header pruning_point d;
}.

(** * The checks decide them *)

Lemma pow_decides header : decides (passes_pow header) (check_pow_and_calc_block_level blake3 poseidon2_permute BlockHash c fuel header).
Proof.
  unfold check_pow_and_calc_block_level, passes_pow. destruct (state_new BlockHash fuel header) as [state|e]; [|rewrite (bind_stop _ e) by done; by intros (? & ? & ? & _)].
  rewrite (bind_run _ _ _ eq_refl). destruct (check_pow blake3 poseidon2_permute state (header_nonce header)) as [r|e] eqn:Er.
  - rewrite (bind_run _ r) by done. destruct (r.1 || _) eqn:Ep; [by exists state, r|]. intros (st & r' & [= <-] & E & Ep'). congruence.
  - rewrite (bind_stop _ e) by done. intros (st & r' & [= <-] & E & _). congruence.
Qed.

Lemma isolated_decides header : header_wf header -> decides (isolated_rules header) (validate_header_in_isolation blake3 poseidon2_permute BlockHash c fuel now header).
Proof.
  intros Hw. unfold validate_header_in_isolation, check_header_version. destruct (Z.eqb_spec (header_version header) BLOCK_VERSION) as [Hv|Hv]; [|by intros []]. cbn [mbind result_bind].
  unfold check_block_timestamp_in_isolation. cbv zeta. destruct (Z.ltb_spec (wadd64 now (wmul64 (hc_timestamp_deviation_tolerance c) 1000)) (header_timestamp header)) as [Ht|Ht]; [intros []; lia|]. cbn [mbind result_bind].
  unfold check_parents_limit. case_bool_decide as Hne; [by intros [? ? [? ?]]|]. destruct (Nat.ltb_spec (hc_max_block_parents c) (length (direct_parents header))) as [Hn|Hn]; [intros [? ? [? ?]]; lia|]. cbn [mbind result_bind].
  unfold check_parents_not_origin. case_bool_decide as Ho; [by intros []|]. cbn [mbind result_bind].
  eapply decides_iff; [|apply pow_decides]. split; [by split|by intros []].
Qed.

Lemma known_decides header : decides (usable_parents header) (check_parents_exist s header).
Proof.
  unfold check_parents_exist. assert (Hgen : forall ps, match missing_parents s ps with Ok l => l = [] <-> usable ps | Err _ => ~ usable ps end).
  { induction ps as [|p ps IH]; [split; [by intros _ x ?%elem_of_nil|done]|]. cbn [missing_parents]. unfold statuses_get, table_read, optional.
    assert (Hcons : usable (p :: ps) <-> (p ∈ blocks_of G /\ statuses_store s !! p <> Some StatusInvalid) /\ usable ps).
    { split; [intros H; split; [apply H; by left|intros x Hx; apply H; by right]|intros [H1 H2] x [->|Hx]%elem_of_cons; auto]. }
    destruct (decide (p ∈ blocks_of G)) as [Hp|Hp].
    - destruct (lg_status _ _ _ _ _ _ _ Hl p Hp) as (st & Est). rewrite Est in Hcons |- *. cbn [ok_or run_ mbind result_bind].
      destruct st; [unfold rule; rewrite Hcons; tauto|..]; (destruct (missing_parents s ps) as [l|e]; rewrite Hcons; intuition congruence).
    - destruct (lg_no_status _ _ _ _ _ _ _ Hl p Hp) as [->| ->]; cbn [ok_or run_ mbind result_bind]; [|unfold rule; rewrite Hcons; tauto].
      destruct (missing_parents s ps) as [l|e]; cbn [mbind result_bind]; rewrite Hcons; [split; [done|tauto]|tauto]. }
  specialize (Hgen (direct_parents header)). destruct (missing_parents s _) as [l|e]; cbn [mbind result_bind]; [|done]. case_bool_decide; cbn; tauto.
Qed.

Lemma antichain_decides header : all_blocks G (direct_parents header) ->
  decides (forall p q, p ∈ direct_parents header -> q ∈ direct_parents header -> reaches G p q = true -> p = q) (check_parents_incest s header).
Proof.
  intros Hps. unfold check_parents_incest. set (all := direct_parents header) in *.
  assert (Hin : forall a l, a ∈ blocks_of G -> all_blocks G l -> decides (forall b, b ∈ l -> reaches G a b = true -> a = b) (incest_with s a l)).
  { intros a l Ha. induction l as [|b l IH]; intros Hl'; [by intros x ?%elem_of_nil|]. cbn [incest_with].
    specialize (IH ltac:(intros x Hx; apply Hl'; by right)). case_bool_decide as E.
    - subst b. eapply decides_iff; [|exact IH]. split; [intros H b [->|Hb]%elem_of_cons; auto|intros H b Hb; apply H; by right].
    - rewrite (ancestor_run c s G t R wk fuel Hl a b (block_known G _ Ha) (block_known G _ (Hl' b ltac:(by left)))). cbn [run_ mbind result_bind].
      destruct (reaches G a b) eqn:Er; [intros H; apply E, (H b); [by left|done]|].
      eapply decides_iff; [|exact IH]. split; [intros H x [->|Hx]%elem_of_cons; [congruence|auto]|intros H x Hx; apply H; by right]. }
  assert (Hgen : forall l, all_blocks G l -> decides (forall p q, p ∈ l -> q ∈ all -> reaches G p q = true -> p = q) (incest_among s all l)); [|by apply Hgen].
  induction l as [|a l IH]; intros Hl'; [by intros p q ?%elem_of_nil|]. cbn [incest_among].
  assert (Ha : a ∈ blocks_of G) by (apply Hl'; by left). specialize (IH ltac:(intros x Hx; apply Hl'; by right)).
  pose proof (decides_bind _ _ _ (fun _ => incest_among s all l) (Hin a all Ha Hps) (fun _ _ _ => IH)) as H. eapply decides_iff; [|exact H].
  clear H. split; [intros [H1 H2] p q [->|Hp]%elem_of_cons; auto|intros H; split; [intros b Hb; apply H; [by left|done]|intros p q Hp; apply H; by right]].
Qed.

(** The blues whose chain has the root. *)
Definition blues_on_chain (d : SahyadriConsensusData) (root : hash) : list hash := filter (fun b => on_chain G root b = true) (mergeset_blues d).

Lemma kosherizing_exact d root : root ∈ known G -> (forall x, x ∈ mergeset_blues d -> x ∈ known G) ->
  kosherizing_blues (depth_manager c s) d root = Ok (blues_on_chain d root).
Proof.
  intros Hroot. unfold kosherizing_blues, blues_on_chain. induction (mergeset_blues d) as [|b l IH]; intros Hb; [done|]. cbn [blues_above].
  cbn [dp_reachability depth_manager]. rewrite (chain_ancestor_run c s G t R wk fuel Hl root b Hroot (Hb b ltac:(by left))). cbn [mbind result_bind]. rewrite IH by (intros x Hx; apply Hb; by right). cbn [mbind result_bind].
  rewrite filter_cons. destruct (on_chain G root b) eqn:E; by case_decide.
Qed.

Lemma reds_decides d root reds kos : root ∈ known G -> (forall x, x ∈ mergeset_blues d -> x ∈ known G) -> (forall x, x ∈ reds -> x ∈ known G) ->
  (kos = None \/ kos = Some (blues_on_chain d root)) ->
  decides (forall red, red ∈ reds -> reaches G root red = true \/ exists blue, blue ∈ mergeset_blues d /\ on_chain G root blue = true /\ reaches G red blue = true) (check_reds c s d root reds kos).
Proof.
  intros Hroot Hb. revert kos. induction reds as [|red reds IH]; intros kos Hr Hk; [by intros red ?%elem_of_nil|]. cbn [check_reds].
  assert (Hr' : forall x, x ∈ reds -> x ∈ known G) by (intros x Hx; apply Hr; by right). pose proof (Hr red ltac:(by left)) as Hred.
  rewrite (ancestor_run c s G t R wk fuel Hl root red Hroot Hred). cbn [run_ mbind result_bind].
  destruct (reaches G root red) eqn:Er.
  { eapply decides_iff; [|apply (IH kos Hr' Hk)]. split; [intros H x [->|Hx]%elem_of_cons; auto|intros H x Hx; apply H; by right]. }
  assert (Hbl : (match kos with Some l => Ok l | None => run_ (kosherizing_blues (depth_manager c s) d root) end) = Ok (blues_on_chain d root)).
  { destruct Hk as [->| ->]; [|done]. by rewrite kosherizing_exact. }
  rewrite Hbl. cbn [mbind result_bind].
  rewrite (any_ancestor_run c s G t R wk fuel Hl red) by (done || (intros x [_ Hx]%list_elem_of_filter; auto)). cbn [run_ mbind result_bind].
  assert (He : existsb (reaches G red) (blues_on_chain d root) = true <-> exists blue, blue ∈ mergeset_blues d /\ on_chain G root blue = true /\ reaches G red blue = true).
  { rewrite existsb_exists. unfold blues_on_chain. split; intros (b & H); exists b; rewrite <-list_elem_of_In, list_elem_of_filter in *; tauto. }
  destruct (existsb _ _).
  - eapply decides_iff; [|apply (IH (Some (blues_on_chain d root)) Hr' ltac:(by right))]. split; [intros H x [->|Hx]%elem_of_cons; [right; by apply He|auto]|intros H x Hx; apply H; by right].
  - intros H. destruct (H red ltac:(by left)) as [?|Hx]; [congruence|]. by apply He in Hx.
Qed.

Lemma same_levels e a : length a = length e -> forallb (fun p => same_level_parents p.1 p.2) (zip e a) = true <->
  Forall2 (fun x y => length y = length x /\ forall p, p ∈ y <-> p ∈ x) e a.
Proof.
  revert a. induction e as [|x e IH]; intros [|y a] Hlen; try done. cbn [zip zip_with forallb fst snd]. rewrite andb_true_iff, Forall2_cons, IH by (cbn in Hlen; lia).
  unfold same_level_parents. rewrite andb_true_iff, Nat.eqb_eq, bool_decide_eq_true. set_unfold. naive_solver.
Qed.

Lemma indirect_decides x header : ctx_pruning_point x ∈ blocks_of G -> header_parents_ok (parents_by_level header) ->
  all_blocks G (direct_parents header) -> direct_parents header <> [] -> existsb (reaches G (ctx_pruning_point x)) (direct_parents header) = true ->
  decides (exists expected, calc_block_parents (parents_manager c s) (ctx_pruning_point x) (direct_parents header) = Ok expected /\ same_parents expected (parents_by_level header))
    (check_indirect_parents c s x header).
Proof.
  intros Hpp Hok Hps Hne He. unfold check_indirect_parents.
  destruct (calc_block_parents_run c Hc fuel s G t R wk Hl _ _ Hpp Hps Hne He) as (cp & levels & Ecp & Hcp & Hx & _). rewrite Ecp. cbn [run_ mbind result_bind].
  destruct (expand_some 0 (parents_by_level header) Hok) as (lv & Elv). change (expand_from 0 (parents_by_level header)) with (expanded_iter (parents_by_level header)) in Elv.
  rewrite (expanded_len_spec _ _ Hok Elv), (expanded_len_spec _ _ Hcp Hx). unfold some_or_crash. rewrite Hx, Elv. cbn [assert_some ok_or run_ mbind result_bind].
  assert (Hiff : (exists expected, Ok (E := stop) cp = Ok expected /\ same_parents expected (parents_by_level header)) <-> Forall2 (fun x y => length y = length x /\ forall p, p ∈ y <-> p ∈ x) levels lv).
  { split; [intros (ex & [= <-] & e & a & E1 & E2 & H); congruence|intros H; exists cp; split; [done|]; by exists levels, lv]. }
  destruct (Z.eqb_spec (Z.of_nat (length lv)) (Z.of_nat (length levels))) as [El|El]; cbn [negb].
  - pose proof (same_levels levels lv ltac:(lia)) as Hs. destruct (forallb _ _); [by apply Hiff, Hs|]. intros H. by apply Hiff, Hs in H.
  - intros H%Hiff%Forall2_length. lia.
Qed.

(** * The header over its parents *)

Lemma pre_pow_decides x header d : ctx_data x = Some d -> ctx_pruning_point x ∈ blocks_of G -> ctx_known_direct_parents x = direct_parents header ->
  all_blocks G (direct_parents header) -> ordered_data (window_manager c s) G d ->
  decides (existsb (reaches G (ctx_pruning_point x)) (direct_parents header) = true /\
    exists w, block_daa_window (window_manager c s) fuel d = Ok w /\ daa_score w = header_daa_score header /\ window_difficulty_bits (window_manager c s) d w = Ok (header_bits header))
    (pre_pow_validation c fuel s x header).
Proof.
  intros Hd Hpp Ex Hps Ho. unfold pre_pow_validation, check_pruning_violation. rewrite Ex.
  rewrite (any_ancestor_run c s G t R wk fuel Hl) by (by apply block_known || (intros y Hy; by apply block_known, Hps)). cbn [run_ mbind result_bind].
  destruct (existsb _ _); [|by intros [? _]]. cbn [mbind result_bind]. unfold check_difficulty_and_daa_score. rewrite Hd. cbn [some_or_crash assert_some ok_or run_ mbind result_bind].
  assert (Hsize : (0 < window_size (window_manager c s) DifficultyWindow)%nat).
  { pose proof (do_min _ (cf_difficulty _ Hc)) as Hmin. cbn in Hmin |- *. lia. }
  destruct (window_run c Hc fuel s G t R wk Hl DifficultyWindow d Ho (lg_difficulty_cache _ _ _ _ _ _ _ Hl) Hsize) as (w & nd & Hw & Hof).
  destruct (daa_score_run c Hc fuel s G t R wk Hl d nd (od_selected _ _ _ Ho)) as (score & Hsc).
  destruct (difficulty_run c Hc fuel s G t R wk Hl d w score nd (od_selected _ _ _ Ho) Hof) as (bits & Hb & _).
  assert (Hbw : block_daa_window (window_manager c s) fuel d = Ok (mk_daa_window w score nd)).
  { unfold block_daa_window. rewrite Hw. cbn [mbind result_bind fst snd]. by rewrite Hsc. }
  rewrite Hbw. cbn [mbind result_bind daa_score]. destruct (Z.eqb_spec score (header_daa_score header)) as [Es|Es]; cbn [negb].
  - rewrite Hb. cbn [run_ mbind result_bind]. destruct (Z.eqb_spec (header_bits header) bits) as [Eb|Eb]; cbn [negb decides].
    + split; [done|]. eexists. split; [done|]. split; [done|]. congruence.
    + intros (_ & w' & [= <-] & _ & E). congruence.
  - intros (_ & w' & [= <-] & E & _). done.
Qed.

Lemma post_pow_decides x header d : ctx_data x = Some d -> ctx_pruning_point x ∈ blocks_of G -> header_wf header ->
  all_blocks G (direct_parents header) -> direct_parents header <> [] -> existsb (reaches G (ctx_pruning_point x)) (direct_parents header) = true ->
  (exists w, block_daa_window (window_manager c s) fuel d = Ok w /\ daa_score w = header_daa_score header /\ window_difficulty_bits (window_manager c s) d w = Ok (header_bits header)) ->
  ordered_data (window_manager c s) G d -> (forall y, y ∈ mergeset_blues d \/ y ∈ mergeset_reds d -> y ∈ known G) ->
  decides (dag_rules header (ctx_pruning_point x) d) (post_pow_validation c fuel s x header).
Proof.
  intros Hd Hpp Hwf Hps Hne He Hdaa Ho Hms. unfold post_pow_validation, check_blue_score. rewrite Hd. cbn [some_or_crash assert_some ok_or run_ mbind result_bind].
  destruct (Z.eqb_spec (blue_score d) (header_blue_score header)) as [Es|Es]; [|by intros []]. cbn [mbind result_bind]. unfold check_blue_work. rewrite Hd. cbn [some_or_crash assert_some ok_or run_ mbind result_bind].
  case_bool_decide as Ew; [|by intros []]. cbn [mbind result_bind]. unfold check_median_timestamp. rewrite Hd. cbn [some_or_crash assert_some ok_or run_ mbind result_bind].
  destruct (median_time_run c Hc fuel s G t R wk Hl d Ho) as (time & w & Hm & _). rewrite Hm. cbn [mbind result_bind].
  destruct (Z.leb_spec (header_timestamp header) time) as [Ht|Ht]; [intros []; destruct dr_median0 as (t' & w' & E & Hlt); rewrite Hm in E; injection E as <- <-; lia|].
  cbn [mbind result_bind]. unfold check_mergeset_size_limit. cbn [ctx_data with_median_window]. rewrite Hd. cbn [some_or_crash assert_some ok_or run_ mbind result_bind]. cbv zeta.
  destruct (Z.ltb_spec (hc_mergeset_size_limit c) (Z.of_nat (mergeset_size d))) as [Hsz|Hsz]; [intros []; lia|]. cbn [mbind result_bind].
  unfold check_bounded_merge_depth. cbn [ctx_data ctx_pruning_point with_median_window]. rewrite Hd. cbn [some_or_crash assert_some ok_or run_ mbind result_bind].
  unfold calc_finality_point.
  destruct (block_at_depth_run c fuel s G t R wk Hl MergeRoot d (ctx_pruning_point x) Hpp (od_selected _ _ _ Ho)) as (root & Eroot & Hroot). change (calculate_block_at_depth (depth_manager c s) fuel d MergeRoot (ctx_pruning_point x)) with (calc_merge_depth_root (depth_manager c s) fuel d (ctx_pruning_point x)) in Eroot.
  rewrite Eroot. cbn [run_ mbind result_bind].
  destruct (block_at_depth_run c fuel s G t R wk Hl Finality d (ctx_pruning_point x) Hpp (od_selected _ _ _ Ho)) as (fin & -> & _). cbn [run_ mbind result_bind].
  assert (Hrk : root ∈ known G) by (apply known_blocks; destruct Hroot as [->|[? _]]; auto).
  pose proof (reds_decides d root (mergeset_reds d) None Hrk ltac:(auto) ltac:(auto) ltac:(by left)) as Hreds.
  destruct (check_reds c s d root (mergeset_reds d) None) as [u|e]; cbn [mbind result_bind]; [|intros []; destruct dr_depth0 as (r & E & H); rewrite Eroot in E; injection E as <-; by apply Hreds].
  pose proof (indirect_decides (with_depth root fin (with_median_window w x)) header Hpp (hw_parents _ Hwf) Hps Hne He) as Hi. cbn [ctx_pruning_point with_depth with_median_window] in Hi.
  destruct (check_indirect_parents c s _ header) as [u'|e]; cbn [mbind result_bind]; [|intros []; by apply Hi].
  split; try done; [by exists time, w|by exists root].
Qed.

Lemma ordering_computed x d : ctx_hash x ∉ known G -> order_block c fuel s x = Ok (with_data d x) ->
  sahyadri_consensus fuel (consensus_manager c s) (ctx_known_direct_parents x) = Ok d.
Proof.
  intros Hh. unfold order_block, optional, dg_get_data.
  destruct (dg_access (consensus_store s) !! ctx_hash x) eqn:E; [exfalso; apply Hh, (go_dom _ _ _ _ _ (lg_ghost _ _ _ _ _ _ _ Hl)); cbn; eauto|]. cbn [ok_or run_ mbind result_bind].
  destruct (sahyadri_consensus _ _ _) as [d'|e]; cbn [run_ mbind result_bind]; [|done]. intros [= ?]. congruence.
Qed.

(** A header without a status. *)
Lemma validate_decides header : header_wf header -> header_hash header ∉ known G -> (hc_max_block_parents c + length G < fuel)%nat ->
  decides (follows_rules header) (validate_header blake3 poseidon2_permute BlockHash c fuel now header s).2.
Proof.
  intros Hwf Hh Hf. pose proof (isolated_decides header Hwf) as Hiso. unfold validate_header, lift, ask, mbind, st_bind.
  destruct (validate_header_in_isolation _ _ _ _ _ _ _) as [level|e]; [|by intros []]. pose proof (ir_parents _ Hiso) as [Hne Hlen].
  unfold validate_parent_relations. pose proof (known_decides header) as Hus. destruct (check_parents_exist s header) as [u|e]; [|by intros []]. cbn [mbind result_bind].
  assert (Hps : all_blocks G (direct_parents header)) by (intros p Hp; by apply Hus).
  pose proof (antichain_decides header Hps) as Hanti. destruct (check_parents_incest s header) as [u'|e]; [|by intros []].
  destruct (build_context_run c fuel s G t R wk Hl header level Hps Hne) as (pp & Hpp & Epp & ->). set (x0 := context_new _ _ _ _ _).
  destruct (order_block_run c Hc fuel s G t R wk Hl x0 (direct_parents header) Hh eq_refl Hne Hps Hanti Hlen Hf) as (d & L & Eo & Hs). rewrite Eo.
  pose proof (ordering_computed x0 d Hh Eo) as Ed. change (ctx_known_direct_parents x0) with (direct_parents header) in Ed.
  pose proof (spec_ordered c Hc fuel s G t R wk Hl _ d L Hps Hs) as Ho.
  assert (Hms : forall y, y ∈ mergeset_blues d \/ y ∈ mergeset_reds d -> y ∈ known G).
  { destruct (od_blues _ _ _ Ho) as (bl & Eb & _ & _ & Hall). intros y. rewrite Eb, elem_of_cons. intros [[->|Hy]|Hy]; apply block_known;
      [apply (od_selected _ _ _ Ho)|apply Hall, elem_of_app; auto..]. }
  assert (Hrules : follows_rules header <-> dag_rules header pp d).
  { split; [intros [_ _ _ (pp' & d' & E1 & E2 & H)]; congruence|intros H; split; try done; by exists pp, d]. }
  pose proof (pre_pow_decides (with_data d x0) header d eq_refl Hpp eq_refl Hps Ho) as Hpre.
  pose proof (pre_pow_run c Hc fuel s G t R wk Hl (with_data d x0) header d eq_refl Hpp Hps Ho) as Hrun.
  destruct (pre_pow_validation c fuel s _ header) as [x1|e]; [|intros [Ha Hb]%Hrules; by apply Hpre].
  destruct Hrun as (w & nd & -> & _). destruct Hpre as [He Hdaa]. unfold post_pow_or_invalidate.
  pose proof (post_pow_decides (with_difficulty_window w nd (with_data d x0)) header d eq_refl Hpp Hwf Hps Hne He Hdaa Ho Hms) as Hpost.
  destruct (post_pow_validation c fuel s _ header) as [x2|[e|e]]; [by apply Hrules|..]; intros H%Hrules; by apply Hpost.
Qed.
End accept.

Section process.
Context (blake3 : bytes -> bytes) (poseidon2_permute : list Z -> list Z) (BlockHash : bytes -> bytes).
Context (c : Config) (Hc : config_ok c) (fuel : nat).

Lemma process_decides now header s G t R wk : ledger c s G t R wk fuel -> header_wf header -> statuses_store s !! header_hash header = None ->
  (hc_max_block_parents c + length G < fuel)%nat -> Z.of_nat (S (length G)) <= MAX_BLOCKS -> (2 * S (length G) + 3 < fuel)%nat ->
  (process_header blake3 poseidon2_permute BlockHash c fuel now (Ordinary header) s).2 = Ok StatusHeaderOnly <-> follows_rules blake3 poseidon2_permute BlockHash c fuel now s G header.
Proof.
  intros Hl Hwf Hst Hf1 Hlen Hf2. set (h := header_hash header) in *.
  assert (Hk : h ∉ known G).
  { rewrite known_blocks. intros [Ho|Hi]; [by apply (proj1 (hw_hash _ Hwf))|]. destruct (lg_status _ _ _ _ _ _ _ Hl h Hi). congruence. }
  set (wk' := fun x => if bool_decide (x = h) then match calc_work (header_bits header) with Some w => val w | None => 0 end else wk x).
  assert (Hl' : ledger c s G t R wk' fuel).
  { apply (ledger_agree c fuel s G t R wk Hl). intros x Hx. unfold wk'. rewrite bool_decide_false; [done|]. intros ->. by apply Hk, block_known. }
  pose proof (validate_decides blake3 poseidon2_permute BlockHash c Hc fuel now s G t R wk' Hl' header Hwf Hk Hf1) as Hdec.
  pose proof (validate_header_run blake3 poseidon2_permute BlockHash c Hc fuel now s G t R wk' Hl' header Hwf Hk Hf1) as Hval.
  unfold process_header. cbn [task_header]. erewrite st_bind_run.
  2: { unfold ask, statuses_get, table_read. fold h. by rewrite Hst. }
  cbv beta iota. unfold mbind at 1 2, st_bind at 1 2. destruct (validate_header _ _ _ _ _ _ header s) as [s1 [x|e]]; cbn [snd] in Hdec.
  - destruct Hval as (-> & d & L & Hvd). destruct (work_of_bits c Hc _ (vd_bits _ _ _ _ _ _ _ _ _ Hvd)) as (w & Hw & _).
    destruct (commit_run c Hc fuel s G t R wk' Hl' header x d L w Hwf Hk Hvd Hlen Hf2 Hw) as (s' & t' & R' & -> & _); [unfold wk'; by rewrite bool_decide_true, Hw|]. done.
  - split; [done|]. intros H. by apply Hdec in H.
Qed.
End process.


(** Two children of the genesis block; then a block that merges them, and one with a wrong
    score. *)
Definition demo_children : list (Z * Header) := [(1773133002000, demo_child 3); (1773133002000, demo_child 4)].

Lemma demo_merge_evaluated : let s := (process_headers demo_hash demo_permute demo_hash (config_of mainnet) 40 demo_children (consensus_init demo_hash (config_of mainnet) 40 stores_new).1).1 in
  (statuses_store s !! header_hash (demo_merge 3), (process_header demo_hash demo_permute demo_hash (config_of mainnet) 40 1773133003000 (Ordinary (demo_merge 3)) s).2,
   (process_header demo_hash demo_permute demo_hash (config_of mainnet) 40 1773133003000 (Ordinary (demo_merge 2)) s).2) =
  (None, Ok StatusHeaderOnly, Err (Rule (UnexpectedHeaderBlueScore 3 2))).
Proof. cbv zeta. unfold demo_children, demo_child. cbn [process_headers]. run_headers. Qed.

Lemma demo_children_run : exists s0 s rs, consensus_init demo_hash (config_of mainnet) 40 stores_new = (s0, Ok tt) /\
  process_headers demo_hash demo_permute demo_hash (config_of mainnet) 40 demo_children s0 = (s, rs) /\ statuses_store s !! header_hash (demo_merge 3) = None /\
  (process_header demo_hash demo_permute demo_hash (config_of mainnet) 40 1773133003000 (Ordinary (demo_merge 3)) s).2 = Ok StatusHeaderOnly /\
  (process_header demo_hash demo_permute demo_hash (config_of mainnet) 40 1773133003000 (Ordinary (demo_merge 2)) s).2 = Err (Rule (UnexpectedHeaderBlueScore 3 2)).
Proof.
  destruct (init_ledger demo_hash (config_of mainnet) mainnet_ok 40 ltac:(lia)) as (s0 & _ & _ & _ & E & _).
  pose proof demo_merge_evaluated as H. rewrite E in H. exists s0. destruct (process_headers _ _ _ _ _ _ _) as [s rs]. exists s, rs.
  split; [exact E|]. split; [reflexivity|]. split; [exact (f_equal (fun r => r.1.1) H)|]. split; [exact (f_equal (fun r => r.1.2) H)|exact (f_equal snd H)].
Qed.

