(* ===== verification/GhostdagTheorems.v ===== *)
(** The ordering of a block and the windows over it: the claims on any stores that hold a
    history, and their instances on the stores of a new node. *)

From S2P Require Import Prelude Access Uint UintCorrect Header Interval Reach ReachTree ReachStores ReachQueries ReachLaws ReachDag ReachService ReachHistory ReachLedger Work Relations Ghostdag GhostdagStores HeaderStores Difficulty Window HeaderProcessor Params Dag GhostdagSpec GhostdagOrder DifficultyTheorems GhostdagRun WindowTheorems HeaderLedger ParamsTheorems HeaderChecks HeaderTheorems.

Section ghostdag.
Context {T S U W : Type} `{GS : SahyadriConsensusStore T, !SahyadriConsensusStoreLaws T, RLS : RelationsStore S, RVS : ReachabilityService U, HB : HeaderBits W}.
Context (m : SahyadriConsensusManager T S U W) (G : list insertion) (wk : hash -> Z).

(** C6: on stores that hold a history, the ordering of a new block over an antichain of
    parents always returns, and what it returns is the GHOSTDAG rule: the selected parent is
    the parent of most blue work (the larger hash on a tie); the candidates are exactly the
    blocks the parents reach and the selected parent does not, in ascending order of work and
    hash; each is blue when the blue set of the selected parent and the blues before it stay a
    k-cluster with it, and red otherwise; score, work and the sizes of the blue anticones are
    those of the blue set. With it the history grows: the data is that of the new block. *)
Theorem ghostdag_refines_greedy fuel ps h : holds m G wk -> ps <> [] -> (forall p, p ∈ ps -> p ∈ blocks_of G) ->
  (forall p q, p ∈ ps -> q ∈ ps -> reaches G p q = true -> p = q) -> (length ps + length G < fuel)%nat -> h ∉ known G -> h <> NONE ->
  exists d L, sahyadri_consensus fuel m ps = Ok d /\ consensus_spec m G wk ps d L /\
    valid_insertion G (new_block h ps d) /\
    ghost_ok (m_genesis_hash m) (new_block h ps d :: G) (<[h := d]> (gs_view (m_store m))) (m_k m) wk.
Proof.
  intros Hm Hne Hps Hanti Hf Hh Hn. destruct (sahyadri_consensus_run m G wk Hm ps Hne Hps Hanti fuel Hf) as (d & L & Hr & Hs). exists d, L. split; [done|]. split; [done|].
  split; [by apply (new_block_valid m G wk ps Hps ps ltac:(done) h d L)|]. by apply (run_grow m G wk Hm ps Hps ps ltac:(done) h d L).
Qed.
End ghostdag.

Section window.
Context {T : Type} `{GS : SahyadriConsensusStore T, !SahyadriConsensusStoreLaws T}.
Context (m : SampledWindowManager T) (G : list insertion) (k : Z) (wk : hash -> Z).

(** C15: the window of a block does not depend on the cache: built by walking the chain of
    selected parents with a bounded heap, started from the window of the selected parent when
    the cache has it or stopped early at the first cached ancestor, it is the sampled blocks of
    the whole chain of greatest work, as many as the size of the window; the blocks of the
    mergeset below the DAA window are returned with it. *)
Theorem window_cache_irrelevant fuel window_type d : window_holds m G k wk -> (length G <= fuel)%nat -> cache_consistent m fuel window_type ->
  (0 < window_size m window_type)%nat -> ordered_data m G d ->
  exists w w', build_block_window m fuel d window_type = Ok (w, outside_window m d) /\ reference_window m fuel d window_type = Ok w' /\ w ≡ₚ w'.
Proof. intros Hm Hf Hc Hn Hd. by apply (build_block_window_run m G k wk Hm fuel fuel window_type d). Qed.
End window.

(** * On the stores of a new node *)

Lemma genesis_alone : exists s wk, holds (consensus_manager (config_of mainnet) s) [genesis_insertion (config_of mainnet)] wk /\
  window_holds (window_manager (config_of mainnet) s) [genesis_insertion (config_of mainnet)] (hc_k (config_of mainnet)) wk /\
  cache_consistent (window_manager (config_of mainnet) s) 30 DifficultyWindow.
Proof.
  destruct (init_ledger demo_hash (config_of mainnet) mainnet_ok 30 ltac:(lia)) as (s & t & R & wk & _ & Hl & _). exists s, wk.
  split; [by apply (ledger_holds _ mainnet_ok s _ t R wk 30)|]. split; [by apply (ledger_window _ mainnet_ok 30 s _ t R wk)|apply (lg_difficulty_cache _ _ _ _ _ _ _ Hl)].
Qed.

Lemma ghostdag_refines_greedy_witness : exists s d, sahyadri_consensus 30 (consensus_manager (config_of mainnet) s) [gen_hash GENESIS] = Ok d /\ selected_parent d ∈ [gen_hash GENESIS].
Proof.
  destruct genesis_alone as (s & wk & Hm & _). exists s.
  destruct (ghostdag_refines_greedy (consensus_manager (config_of mainnet) s) [genesis_insertion (config_of mainnet)] wk 30 [gen_hash GENESIS] (replicate 32 3) Hm) as (d & L & Hr & Hs & _).
  - discriminate.
  - intros p Hp. exact Hp.
  - intros p q Hp Hq _. apply list_elem_of_singleton in Hp, Hq. congruence.
  - cbn. lia.
  - apply (bool_decide_unpack _). vm_compute. exact I.
  - discriminate.
  - exists d. split; [exact Hr|exact (cs_selected _ _ _ _ _ _ Hs)].
Defined.

Lemma window_cache_irrelevant_witness : exists s w nd, build_block_window (window_manager (config_of mainnet) s) 30 (mk_data 1 (uint_from_u64 3 1) (gen_hash GENESIS) [gen_hash GENESIS] [] ∅) DifficultyWindow = Ok (w, nd).
Proof.
  destruct genesis_alone as (s & wk & _ & Hm & Hc). exists s.
  destruct (window_cache_irrelevant (window_manager (config_of mainnet) s) [genesis_insertion (config_of mainnet)] (hc_k (config_of mainnet)) wk 30 DifficultyWindow
    (mk_data 1 (uint_from_u64 3 1) (gen_hash GENESIS) [gen_hash GENESIS] [] ∅) Hm) as (w & w' & Hr & _).
  - cbn. lia.
  - exact Hc.
  - vm_compute. lia.
  - split; [by left|exists []; split; [reflexivity|]; split; [constructor|]; split; [constructor|]; intros x Hx; by apply elem_of_nil in Hx|constructor].
  - eexists w, _. exact Hr.
Defined.
