(* ===== verification/BodyTheorems.v ===== *)
(** Block bodies: when a body is accepted, what the body processor leaves in its stores, and
    a node that processes whole blocks. *)

From S2P Require Import Prelude Tx Coinbase Validator Access Uint UintCorrect Header HeaderCodec Merkle Interval Reach ReachTree ReachStores ReachHistory Work Relations Ghostdag GhostdagStores HeaderStores Window Pow HeaderProcessor Body Params Dag GhostdagSpec DifficultyTheorems GhostdagRun WindowTheorems HeaderLedger HeaderChecks HeaderCommit PowTheorems HeaderTheorems HeaderAccept.

(** * Storage mass *)

Fixpoint total {A} (f : A -> Z) (l : list A) : Z := match l with [] => 0 | x :: l' => f x + total f l' end.

Lemma cells_total_nonneg {A} (f : A -> Z) l : (forall x, x ∈ l -> 0 <= f x) -> 0 <= total f l.
Proof. induction l as [|x l IH]; intros H; cbn [total]; [lia|]. pose proof (H x ltac:(by left)). specialize (IH ltac:(intros y Hy; apply H; by right)). lia. Qed.

Lemma sum_u64_exact {A} (f : A -> Z) l : (forall x, x ∈ l -> 0 <= f x) -> total f l < 2 ^ 64 -> sum_u64 f l = total f l.
Proof.
  intros Hf Hl. unfold sum_u64. assert (Hgen : forall acc, 0 <= acc -> acc + total f l < 2 ^ 64 -> fold_left (fun a x => wadd64 a (f x)) l acc = acc + total f l); [|by rewrite Hgen].
  clear Hl. induction l as [|x l IH]; intros acc Ha Hb; cbn [fold_left total] in *; [lia|].
  pose proof (Hf x ltac:(by left)). pose proof (cells_total_nonneg f l ltac:(intros y Hy; apply Hf; by right)).
  assert (E : wadd64 acc (f x) = acc + f x) by (unfold wadd64, wrap; apply Z.mod_small; lia).
  rewrite E, IH; [lia|intros y Hy; apply Hf; by right|lia|lia].
Qed.

Definition cell_ok (cell : RegistryUnitCell) : Prop := 1 <= plurality cell /\ 1 <= amount cell.

Lemma harmonic_outputs_run C p h outs : Forall cell_ok outs -> exists r, harmonic_outputs C p h outs = Ok r.
Proof.
  intros Hok. revert p h. induction Hok as [|cell outs [_ Ha] _ IH]; intros p h; cbn [harmonic_outputs]; [by eexists|].
  destruct (_ ≫= _) as [product|]; [|by eexists]. unfold div64. rewrite (proj2 (Z.eqb_neq _ _)) by lia. cbn [mbind result_bind].
  destruct (checked_add64 _ _); [apply IH|by eexists].
Qed.

Lemma harmonic_inputs_run C tot ins : Forall cell_ok ins -> exists r, harmonic_inputs C tot ins = Ok r.
Proof.
  intros Hok. revert tot. induction Hok as [|cell ins [_ Ha] _ IH]; intros tot; cbn [harmonic_inputs]; [by eexists|].
  unfold div64. rewrite (proj2 (Z.eqb_neq _ _)) by lia. apply IH.
Qed.

(** C23: Under the assumptions its documentation states (amounts that are not zero, at least one
    input), and with sums that fit in 64 bits, the storage mass of a transaction still fails,
    with a division by zero, exactly when the arithmetic formula applies and the inputs hold
    less than one unit of value for each storage unit. *)
Theorem storage_mass_panics_exactly (ins outs : list RegistryUnitCell) (storm_param : Z) : Forall cell_ok ins -> Forall cell_ok outs -> ins <> [] ->
  total plurality ins < 2 ^ 64 -> total amount ins < 2 ^ 64 ->
  calc_storage_mass false ins outs storm_param = Err Crashed <->
  (exists p h, harmonic_outputs storm_param 0 0 outs = Ok (Some (p, h)) /\ relaxed_formula_path p ins = false) /\ total amount ins < total plurality ins.
Proof.
  intros Hi Ho Hne Hp Ha. unfold calc_storage_mass. destruct (harmonic_outputs_run storm_param 0 0 outs Ho) as (r & ->). cbn [mbind result_bind].
  destruct r as [[p h]|]; [|split; [done|naive_solver]]. rewrite Forall_forall in Hi. cbv zeta.
  rewrite (sum_u64_exact amount), (sum_u64_exact plurality) by (try done; intros x Hx; destruct (Hi x Hx); lia).
  destruct (relaxed_formula_path p ins) eqn:Er.
  - destruct (harmonic_inputs_run storm_param 0 ins) as (r & ->); [by apply Forall_forall|]. split; [done|]. intros [(p' & h' & [= <- <-] & ?) _]. congruence.
  - assert (Hpos : 0 < total plurality ins).
    { destruct ins as [|x ins]; [done|]. cbn [total]. pose proof (proj1 (Hi x ltac:(by left))).
      pose proof (cells_total_nonneg plurality ins ltac:(intros y Hy; destruct (Hi y ltac:(by right)); lia)). lia. }
    pose proof (cells_total_nonneg amount ins ltac:(intros y Hy; destruct (Hi y Hy); lia)).
    assert (Hdiv : forall a b, b <> 0 -> div64 a b = Ok (a / b)) by (intros a b Hb; unfold div64; by rewrite (proj2 (Z.eqb_neq _ _))).
    rewrite (Hdiv (total amount ins)) by lia. cbn [mbind result_bind]. unfold div64. destruct (Z.eqb_spec (total amount ins / total plurality ins) 0) as [E|E].
    + split; [|done]. intros _. split; [by exists p, h|]. apply Z.div_small_iff in E as [?|?]; lia.
    + split; [done|]. intros [_ Hlt]. rewrite Z.div_small in E by lia. done.
Qed.

Lemma storage_mass_panics_exactly_witness : calc_storage_mass false [mk_cell 2 1; mk_cell 2 1; mk_cell 2 1] [mk_cell 1 1; mk_cell 1 1] 0 = Err Crashed.
Proof.
  apply storage_mass_panics_exactly; [repeat constructor; cbn; lia|repeat constructor; cbn; lia|done|cbn; lia|cbn; lia|].
  split; [exists 2, 0; split; reflexivity|cbn; lia].
Defined.

(** A check that never stops, and passes exactly when [P] holds. *)
Definition settles {A} (P : Prop) (r : result halt A) : Prop := match r with Ok _ => P | Err (Rule _) => ~ P | Err (Stop _) => False end.

Lemma settles_bind {A B} (P Q : Prop) (r : result halt A) (f : A -> result halt B) :
  settles P r -> (forall a, P -> settles Q (f a)) -> settles (P /\ Q) (a ← r; f a).
Proof.
  destruct r as [a|[e|e]]; cbn; intros HP Hf; [|done|tauto]. specialize (Hf a HP). destruct (f a) as [b|[e|e]]; cbn in *; tauto.
Qed.

Lemma settles_iff {A} (P Q : Prop) (r : result halt A) : (P <-> Q) -> settles P r -> settles Q r.
Proof. destruct r as [a|[e|e]]; cbn; tauto. Qed.

(** * The rules of a body *)

Section rules.
Context (MerkleBranchHash TransactionHash TransactionID sha256 : bytes -> bytes) (verify : bytes -> bytes -> bytes -> bool).
Context (tv : TransactionValidator) (cm : CoinbaseManager) (mc : MassCalculator) (max_block_mass : Z).
Context (c : Config) (fuel : nat).
Abbreviation root_of := (calc_hash_merkle_root MerkleBranchHash TransactionHash).

(** Of the body alone. The masses are those of [calc_non_contextual_masses], their sums exact. *)
Record isolated_body (b : Block) : Prop := {
  ib_root : root_of (transactions b) = Some (hash_merkle_root (block_header b));
  ib_coinbase : exists first rest, transactions b = first :: rest /\ is_coinbase first = true /\ Forall (fun tx => is_coinbase tx = false) rest;
  ib_valid : Forall (fun tx => validate_tx_in_isolation sha256 verify tv tx = Ok tt) (transactions b);
  ib_compute : total (fun tx => compute_mass (calc_non_contextual_masses mc tx)) (transactions b) <= max_block_mass;
  ib_transient : total (fun tx => transient_mass (calc_non_contextual_masses mc tx)) (transactions b) <= max_block_mass;
  ib_storage : total mass (transactions b) <= max_block_mass;
  ib_ids : NoDup (map tx_id (transactions b));
  ib_spends : NoDup (spent_outpoints (transactions b));
  ib_chained : forall o, o ∈ spent_outpoints (transactions b) -> o ∉ created_outpoints (transactions b);
}.

(** A transaction whose lock time has passed, or that does not use it. *)
Definition unlocked (tx : Transaction) (bound : Z) : Prop := lock_time tx < bound \/ Forall (fun i => sequence i = U64_MAX) (inputs tx).

(** Over the stores of the node, with the past median time of the block. *)
Record contextual_body (s : Stores) (b : Block) : Prop := {
  cb_parents : forall p, p ∈ direct_parents (block_header b) -> exists st, statuses_store s !! p = Some st /\ has_block_body st = true;
  cb_payload : exists first rest data, transactions b = first :: rest /\ deserialize_coinbase_payload cm (payload first) = Ok data /\
    Coinbase.cb_blue_score data = header_blue_score (block_header b);
  cb_lock : forall tx, tx ∈ transactions b ->
    match get_lock_time_type tx with
    | TypeFinalized => True
    | TypeDaaScore => unlocked tx (header_daa_score (block_header b))
    | TypeTime => exists t, (past_median_time_of c fuel (block_hash b) s).2 = Ok t /\ unlocked tx t
    end;
}.

(** ** Each check settles its rule *)

Lemma position_none {A} (p : A -> bool) l : Validator.position p l = None <-> Forall (fun x => p x = false) l.
Proof.
  induction l as [|x l IH]; cbn [Validator.position]; [by split|]. rewrite Forall_cons. destruct (p x); [naive_solver|].
  rewrite <-IH. destruct (Validator.position p l); cbn; naive_solver.
Qed.

Lemma position_some {A} (p : A -> bool) l i : Validator.position p l = Some i -> ~ Forall (fun x => p x = false) l.
Proof. intros E H%position_none. congruence. Qed.

Lemma coinbase_settles b : transactions b <> [] ->
  settles (exists first rest, transactions b = first :: rest /\ is_coinbase first = true /\ Forall (fun tx => is_coinbase tx = false) rest) (check_only_one_coinbase b).
Proof.
  intros Hne. unfold check_only_one_coinbase. destruct (transactions b) as [|first rest]; [by destruct Hne|]. destruct (is_coinbase first) eqn:Ef; cbn [negb]; [|intros (? & ? & [= -> ->] & ? & _); congruence].
  destruct (Validator.position is_coinbase rest) as [i|] eqn:E; [apply position_some in E; intros (? & ? & [= <- <-] & _ & ?); done|].
  apply position_none in E. by exists first, rest.
Qed.

Lemma each_isolated_settles txs : settles (Forall (fun tx => validate_tx_in_isolation sha256 verify tv tx = Ok tt) txs) (check_each_in_isolation sha256 verify tv txs).
Proof.
  induction txs as [|tx txs IH]; cbn [check_each_in_isolation]; [by constructor|]. destruct (validate_tx_in_isolation sha256 verify tv tx) as [[]|e] eqn:E.
  - eapply settles_iff; [|exact IH]. rewrite Forall_cons. naive_solver.
  - cbn. rewrite Forall_cons. intros [? _]. congruence.
Qed.

Lemma masses_nonneg tx : 0 <= compute_mass (calc_non_contextual_masses mc tx) /\ 0 <= transient_mass (calc_non_contextual_masses mc tx).
Proof.
  unfold calc_non_contextual_masses. destruct (is_coinbase tx); [done|]. cbn [compute_mass transient_mass]. unfold wadd64, wmul64, wrap.
  split; apply Z.mod_pos_bound; done.
Qed.

Lemma masses_settles txs a1 a2 a3 : 0 <= max_block_mass < U64_MAX -> 0 <= a1 <= max_block_mass -> 0 <= a2 <= max_block_mass -> 0 <= a3 <= max_block_mass -> (forall tx, tx ∈ txs -> 0 <= mass tx) ->
  settles (a1 + total (fun tx => compute_mass (calc_non_contextual_masses mc tx)) txs <= max_block_mass /\
    a2 + total (fun tx => transient_mass (calc_non_contextual_masses mc tx)) txs <= max_block_mass /\ a3 + total mass txs <= max_block_mass)
    (sum_masses mc max_block_mass a1 a2 a3 txs).
Proof.
  intros Hmax. revert a1 a2 a3. induction txs as [|tx txs IH]; intros a1 a2 a3 H1 H2 H3 Hm; cbn [sum_masses total]; [cbn; lia|]. cbv zeta.
  pose proof (masses_nonneg tx) as [M1 M2]. pose proof (Hm tx ltac:(by left)) as M3.
  assert (Hr : forall f : Transaction -> Z, (forall x, 0 <= f x) -> 0 <= total f txs) by (intros f Hf; by apply cells_total_nonneg).
  pose proof (Hr _ (fun x => proj1 (masses_nonneg x))) as T1. pose proof (Hr _ (fun x => proj2 (masses_nonneg x))) as T2.
  pose proof (cells_total_nonneg mass txs ltac:(intros x Hx; apply Hm; by right)) as T3. unfold saturating_add64.
  destruct (Z.ltb_spec max_block_mass (Z.min U64_MAX (a1 + compute_mass (calc_non_contextual_masses mc tx)))); [cbn; lia|].
  destruct (Z.ltb_spec max_block_mass (Z.min U64_MAX (a2 + transient_mass (calc_non_contextual_masses mc tx)))); [cbn; lia|].
  destruct (Z.ltb_spec max_block_mass (Z.min U64_MAX (a3 + mass tx))); [cbn; lia|].
  rewrite !Z.min_r by lia. eapply settles_iff; [|apply IH; [lia..|intros x Hx; apply Hm; by right]]. lia.
Qed.

Lemma first_repeated_none {A} `{EqDecision A} (seen l : list A) : first_repeated seen l = None <-> NoDup l /\ forall x, x ∈ l -> x ∉ seen.
Proof.
  revert seen. induction l as [|x l IH]; intros seen; cbn [first_repeated]; [split; [by split; [constructor|intros ? ?%elem_of_nil]|done]|].
  rewrite NoDup_cons. case_bool_decide as Hx; [split; [done|]; intros [_ Hs]; by destruct (Hs x ltac:(by left))|]. rewrite IH. split.
  - intros [Hn Hs]. split; [split; [intros Hin; apply (Hs x Hin); by left|done]|]. intros y [->|Hy]%elem_of_cons; [done|]. intros Hin. apply (Hs y Hy). by right.
  - intros [[Hn Hd] Hs]. split; [done|]. intros y Hy [->|Hin]%elem_of_cons; [done|]. apply (Hs y); [by right|done].
Qed.

Lemma repeated_settles {A} `{EqDecision A} (l : list A) (f : A -> RuleError) :
  settles (NoDup l) (match first_repeated [] l with Some x => rule (A := ()) (f x) | None => Ok tt end).
Proof.
  pose proof (first_repeated_none [] l) as H. destruct (first_repeated [] l) as [x|]; cbn.
  - intros Hd. assert (Some x = None) by (apply H; split; [done|by intros y _ ?%elem_of_nil]). done.
  - by apply H.
Qed.

Lemma find_none {A} (p : A -> bool) l : List.find p l = None <-> forall x, x ∈ l -> p x = false.
Proof.
  induction l as [|x l IH]; cbn [List.find]; [split; [by intros _ ? ?%elem_of_nil|done]|]. destruct (p x) eqn:E.
  - split; [done|]. intros H. rewrite (H x ltac:(by left)) in E. done.
  - rewrite IH. split; [intros H y [->|Hy]%elem_of_cons; auto|intros H y Hy; apply H; by right].
Qed.

Lemma chained_settles b : settles (forall o, o ∈ spent_outpoints (transactions b) -> o ∉ created_outpoints (transactions b)) (check_no_chained_transactions b).
Proof.
  unfold check_no_chained_transactions. match goal with |- context [List.find ?p ?l] => pose proof (find_none p l) as H; destruct (List.find p l) as [o|] end; cbn.
  - intros Ho. assert (Some o = None) by (apply H; intros x Hx; by apply bool_decide_eq_false, Ho). done.
  - intros o Ho. by eapply bool_decide_eq_false, H.
Qed.

Lemma root_settles b : transactions b <> [] ->
  settles (root_of (transactions b) = Some (hash_merkle_root (block_header b))) (check_hash_merkle_root MerkleBranchHash TransactionHash b).
Proof.
  intros Hne. unfold check_hash_merkle_root, calc_hash_merkle_root. set (l := map (tx_hash TransactionHash) (transactions b)).
  assert (Hl : l <> []) by (unfold l; by destruct (transactions b)). rewrite calc_merkle_root_run by done.
  destruct (merkle_tree MerkleBranchHash _ l) as [r|] eqn:E; [|by apply tree_none in E]. cbn [some_or_crash assert_some ok_or run_ mbind result_bind].
  case_bool_decide as Hr; cbn; congruence.
Qed.

Lemma isolation_settles b : 0 <= max_block_mass < U64_MAX -> (forall tx, tx ∈ transactions b -> 0 <= mass tx) ->
  settles (isolated_body b) (validate_body_in_isolation MerkleBranchHash TransactionHash sha256 verify tv mc max_block_mass b).
Proof.
  intros Hmax Hm. unfold validate_body_in_isolation, check_has_transactions. case_bool_decide as Hne; [cbn; intros [_ (? & ? & E & _)]; congruence|]. cbn [mbind result_bind].
  pose proof (root_settles b Hne) as H1. pose proof (coinbase_settles b Hne) as H2. pose proof (each_isolated_settles (transactions b)) as H3.
  pose proof (masses_settles (transactions b) 0 0 0 Hmax ltac:(lia) ltac:(lia) ltac:(lia) Hm) as H4. rewrite !Z.add_0_l in H4.
  pose proof (repeated_settles (map tx_id (transactions b)) DuplicateTransactions) as H5.
  pose proof (repeated_settles (spent_outpoints (transactions b)) DoubleSpendInSameBlock) as H6. pose proof (chained_settles b) as H7.
  eapply settles_iff; [|eapply settles_bind; [exact H1|intros _ _; eapply settles_bind; [exact H2|intros _ _; eapply settles_bind; [exact H3|intros _ _;
    eapply settles_bind; [exact H4|intros m _; eapply settles_bind; [exact H5|intros _ _; eapply settles_bind; [exact H6|intros _ _;
    eapply (settles_bind _ True); [exact H7|done]]]]]]]].
  split; [intros (? & ? & ? & (? & ? & ?) & ? & ? & ? & _); by split|intros []; by split_and!].
Qed.

(** ** In context *)

Lemma bodyless_run s ps : exists l, bodyless s ps = Ok l /\ (l = [] <-> forall p, p ∈ ps -> exists st, statuses_store s !! p = Some st /\ has_block_body st = true).
Proof.
  induction ps as [|p ps (l & E & IH)]; [exists []; split; [done|split; [by intros _ ? ?%elem_of_nil|done]]|]. cbn [bodyless]. unfold statuses_get, table_read, optional.
  assert (Hcons : (forall q, q ∈ p :: ps -> exists st, statuses_store s !! q = Some st /\ has_block_body st = true) <->
    (exists st, statuses_store s !! p = Some st /\ has_block_body st = true) /\ l = []).
  { rewrite IH. split; [intros H; split; [apply H; by left|intros q Hq; apply H; by right]|intros [H1 H2] q [->|Hq]%elem_of_cons; auto]. }
  setoid_rewrite Hcons. destruct (statuses_store s !! p) as [st|]; cbn [ok_or run_ mbind result_bind]; rewrite E; cbn [mbind result_bind].
  - destruct (has_block_body st) eqn:Eb; eexists; (split; [done|]); [split; [intros ->; split; [by exists st|done]|by intros [_ ->]]|]. split; [done|]. intros [(st' & [= ->] & ?) _]. congruence.
  - eexists. split; [done|]. split; [done|]. by intros [(? & ? & _) _].
Qed.

Lemma payload_settles b : transactions b <> [] -> settles (exists first rest data, transactions b = first :: rest /\ deserialize_coinbase_payload cm (payload first) = Ok data /\
    Coinbase.cb_blue_score data = header_blue_score (block_header b)) (check_coinbase cm b).
Proof.
  intros Hne. unfold check_coinbase. destruct (transactions b) as [|first rest]; [by destruct Hne|]. unfold check_coinbase_blue_score_and_subsidy.
  destruct (deserialize_coinbase_payload cm (payload first)) as [data|e] eqn:E.
  - destruct (Z.eqb_spec (Coinbase.cb_blue_score data) (header_blue_score (block_header b))) as [Eb|Eb]; cbn [negb]; [by exists first, rest, data|].
    cbn. intros (? & ? & data' & [= <- <-] & E' & ?). congruence.
  - cbn. intros (? & ? & data' & [= <- <-] & E' & ?). congruence.
Qed.

Lemma unlocked_spec tx bound arg : arg = ArgDaaScore bound \/ arg = ArgMedianTime bound ->
  match validate_tx_in_header_context tx arg with Ok _ => unlocked tx bound | Err _ => ~ unlocked tx bound end.
Proof.
  intros Harg. assert (E : validate_tx_in_header_context tx arg = if lock_time tx <? bound then Ok tt
    else match Validator.position (fun i => negb (sequence i =? U64_MAX)) (inputs tx) with Some i => Err (NotFinalized i) | None => Ok tt end) by (by destruct Harg as [->| ->]).
  rewrite E. unfold unlocked. destruct (Z.ltb_spec (lock_time tx) bound); [by left|].
  assert (Hf : Forall (fun i => negb (sequence i =? U64_MAX) = false) (inputs tx) <-> Forall (fun i => sequence i = U64_MAX) (inputs tx)).
  { apply Forall_iff. intros i. rewrite negb_false_iff. apply Z.eqb_eq. }
  destruct (Validator.position _ (inputs tx)) as [i|] eqn:Ep; [apply position_some in Ep|apply position_none in Ep]; rewrite Hf in Ep; [intros [?|?]; [lia|done]|by right].
Qed.

Definition lock_ok (b : Block) (t : Z) (tx : Transaction) : Prop :=
  match get_lock_time_type tx with TypeFinalized => True | TypeDaaScore => unlocked tx (header_daa_score (block_header b)) | TypeTime => unlocked tx t end.

Lemma each_in_context_run b s s1 t : past_median_time_of c fuel (block_hash b) s = (s1, Ok t) -> forall txs lazy sx, (lazy = None /\ sx = s) \/ (lazy = Some t /\ sx = s1) ->
  settles (Forall (lock_ok b t) txs) (check_each_in_context c fuel b lazy txs sx).2 /\
  ((check_each_in_context c fuel b lazy txs sx).1 = s \/ (check_each_in_context c fuel b lazy txs sx).1 = s1).
Proof.
  intros Ht. induction txs as [|tx txs IH]; intros lazy sx Hsx; cbn [check_each_in_context]; [cbn; split; [by constructor|destruct Hsx as [[_ ->]|[_ ->]]; auto]|].
  assert (Hstep : exists arg lazy' sx', ((lazy' = None /\ sx' = s) \/ (lazy' = Some t /\ sx' = s1)) /\
    (match validate_tx_in_header_context tx arg with Ok _ => lock_ok b t tx | Err _ => ~ lock_ok b t tx end) /\
    (match get_lock_time_type tx with
     | TypeFinalized => mret (ArgFinalized, lazy)
     | TypeDaaScore => mret (ArgDaaScore (header_daa_score (block_header b)), lazy)
     | TypeTime => t' ← (match lazy with Some t' => mret t' | None => past_median_time_of c fuel (block_hash b) end); mret (ArgMedianTime t', Some t')
     end) sx = (sx', Ok (arg, lazy'))).
  { unfold lock_ok. destruct (get_lock_time_type tx).
    - exists ArgFinalized, lazy, sx. split; [done|]. by split.
    - exists (ArgDaaScore (header_daa_score (block_header b))), lazy, sx. split; [done|]. split; [by apply unlocked_spec; left|done].
    - exists (ArgMedianTime t), (Some t), s1. split; [by right|]. split; [by apply unlocked_spec; right|].
      destruct Hsx as [[-> ->]|[-> ->]]; [|done]. unfold mbind, st_bind. by rewrite Ht. }
  destruct Hstep as (arg & lazy' & sx' & Hsx' & Harg & Er). erewrite (st_bind_run _ _ _ _ _ Er). cbn [fst snd].
  destruct (validate_tx_in_header_context tx arg) as [u|e].
  - destruct (IH lazy' sx' Hsx') as [H1 H2]. split; [|done]. eapply settles_iff; [|exact H1]. rewrite Forall_cons. tauto.
  - cbn. rewrite Forall_cons. split; [tauto|destruct Hsx' as [[_ ->]|[_ ->]]; auto].
Qed.
End rules.

(** * On a history *)

Section bodies.
Context (c : Config) (Hc : config_ok c) (fuel : nat).
Abbreviation g := (gen_hash (hc_genesis c)).

Lemma ledger_statuses s G t R wk h st : ledger c s G t R wk fuel -> h ∈ blocks_of G -> ledger c (put_statuses (<[h := st]> (statuses_store s)) s) G t R wk fuel.
Proof.
  intros Hl Hh. destruct Hl. split; try done; cbn [statuses_store put_statuses].
  - intros x Hx. destruct (decide (x = h)) as [->|Hne]; [rewrite lookup_insert_eq; by eexists|]. rewrite lookup_insert_ne by done. by apply lg_status.
  - intros x Hx. rewrite lookup_insert_ne by (by intros ->). by apply lg_no_status.
Qed.

Lemma ledger_caches s G t R wk cache : ledger c s G t R wk fuel ->
  (forall h w, cache !! h = Some w -> exists d w', gs_get_data (consensus_store s) h = Ok d /\ reference_window (window_manager c s) fuel d MedianTimeWindow = Ok w' /\ w ≡ₚ w') ->
  ledger c (put_caches (cache_for_difficulty s) cache s) G t R wk fuel.
Proof. intros Hl Hcache. destruct Hl. by split. Qed.

(** The same stores, but for the windows of past median times that are cached. *)
Definition median_cached (s s1 : Stores) : Prop := exists cache, s1 = put_caches (cache_for_difficulty s) cache s.

Lemma median_cached_refl s : median_cached s s.
Proof. exists (cache_for_past_median_time s). by destruct s. Qed.

Lemma median_cached_statuses s s1 : median_cached s s1 -> statuses_store s1 = statuses_store s.
Proof. by intros [cache ->]. Qed.

(** The past median time of a block of the history, and the cache it leaves. *)
Lemma median_known_run s G t R wk x : ledger c s G t R wk fuel -> x ∈ blocks_of G -> x <> g ->
  exists s1 time, past_median_time_of c fuel x s = (s1, Ok time) /\ ledger c s1 G t R wk fuel /\ median_cached s s1.
Proof.
  intros Hl Hx Hne. pose proof (ledger_window c Hc fuel s G t R wk Hl) as Hw. pose proof (block_ordered (window_manager c s) G (hc_k c) wk Hw x Hx Hne) as Hd.
  pose proof (get_block_data (window_manager c s) G (hc_k c) wk Hw x Hx) as Hdata. cbn [wm_store window_manager] in Hdata, Hd. set (d := data_at _ x) in *.
  unfold past_median_time_of, calc_past_median_time_for_known_hash. cbn [wm_store wm_headers_store wm_cache_for_past_median_time window_manager].
  destruct (cache_for_past_median_time s !! x) as [w|] eqn:Ew.
  - destruct (lg_median_cache _ _ _ _ _ _ _ Hl x w Ew) as (d' & w' & Hd' & Href & Hp). cbn [wm_store window_manager] in Hd'. rewrite Hdata in Hd'. injection Hd' as <-.
    destruct (reference_blocks c Hc fuel s G t R wk Hl MedianTimeWindow d w' Hd Href) as [Hb _].
    assert (Hsp : gs_get_selected_parent (consensus_store s) x = Ok (selected_parent d)).
    { apply law_selected_parent; [apply (lg_consensus _ _ _ _ _ _ _ Hl)|]. by apply (view_data g G _ (hc_k c) wk (lg_ghost _ _ _ _ _ _ _ Hl)), block_known. }
    rewrite Hsp. cbn [unwrapped run_ mbind result_bind].
    destruct (median_of_window c Hc fuel s G t R wk Hl w (selected_parent d)) as (time & ->); [intros b; rewrite Hp; apply Hb|apply (od_selected _ _ _ Hd)|].
    cbn [run_ mbind result_bind]. eexists _, time. split; [done|]. split; [|by eexists]. apply ledger_caches; [done|]. apply (lg_median_cache _ _ _ _ _ _ _ Hl).
  - rewrite Hdata. cbn [unwrapped_fault run_ mbind result_bind]. destruct (median_time_run c Hc fuel s G t R wk Hl d Hd) as (time & w & -> & (w' & Href & Hp) & _).
    cbn [mbind result_bind fst snd]. eexists _, time. split; [done|]. split; [|by eexists]. apply ledger_caches; [done|]. intros h v.
    destruct (decide (h = x)) as [->|Hh]; [rewrite lookup_insert_eq; intros [= <-]; by exists d, w'|]. rewrite lookup_insert_ne by done. apply (lg_median_cache _ _ _ _ _ _ _ Hl).
Qed.
End bodies.

(** * One body *)

Section process.
Context (MerkleBranchHash TransactionHash TransactionID sha256 : bytes -> bytes) (verify : bytes -> bytes -> bytes -> bool).
Context (tv : TransactionValidator) (cm : CoinbaseManager) (mc : MassCalculator) (max_block_mass : Z).
Context (c : Config) (Hc : config_ok c) (fuel : nat) (Hmax : 0 <= max_block_mass < U64_MAX).
Abbreviation g := (gen_hash (hc_genesis c)).
Abbreviation validate := (validate_body MerkleBranchHash TransactionHash sha256 verify tv cm mc max_block_mass c fuel).
Abbreviation process := (process_body MerkleBranchHash TransactionHash sha256 verify tv cm mc max_block_mass c fuel).

Record body_rules (s : Stores) (b : Block) : Prop := {
  br_isolated : isolated_body MerkleBranchHash TransactionHash sha256 verify tv mc max_block_mass b;
  br_context : contextual_body cm c fuel s b;
}.

Definition masses_ok (b : Block) : Prop := forall tx, tx ∈ transactions b -> 0 <= mass tx.

Lemma context_run s G t R wk b : ledger c s G t R wk fuel -> block_hash b ∈ blocks_of G -> block_hash b <> g -> transactions b <> [] ->
  match validate_body_in_context cm c fuel b s with
  | (s1, r) => ledger c s1 G t R wk fuel /\ median_cached s s1 /\ settles (contextual_body cm c fuel s b) r
  end.
Proof.
  intros Hl Hb Hg Hne. destruct (median_known_run c Hc fuel s G t R wk _ Hl Hb Hg) as (s1 & time & Hpm & Hl1 & Hst). pose proof (median_cached_refl s) as Hsame.
  unfold validate_body_in_context, check_parent_bodies_exist. destruct (bodyless_run s (direct_parents (block_header b))) as (l & El & Hbl).
  unfold mbind at 1, st_bind at 1, ask. rewrite El. cbn [mbind result_bind]. case_bool_decide as Enil; [|split_and!; [done..|]; intros []; by apply Enil, Hbl].
  pose proof (payload_settles cm b Hne) as Hpay. unfold mbind, st_bind, lift. destruct (check_coinbase cm b) as [u|[e|e]]; [|done|split_and!; [done..|]; by intros []].
  destruct (each_in_context_run c fuel b s s1 time Hpm (transactions b) None s ltac:(by left)) as [H1 H2]. unfold check_block_transactions_in_context.
  destruct (check_each_in_context c fuel b None (transactions b) s) as [s2 r]. cbn [fst snd] in H1, H2.
  split; [destruct H2 as [->| ->]; done|]. split; [destruct H2 as [->| ->]; done|]. eapply settles_iff; [|exact H1]. rewrite Forall_forall. unfold lock_ok. split.
  - intros Hlock. split; [by apply Hbl|done|]. intros tx Htx. specialize (Hlock tx Htx). destruct (get_lock_time_type tx); [done..|]. exists time. by rewrite Hpm.
  - intros [_ _ Hlock] tx Htx. specialize (Hlock tx Htx). destruct (get_lock_time_type tx); [done..|]. destruct Hlock as (time' & E & ?). rewrite Hpm in E. by injection E as <-.
Qed.

Lemma validate_body_run s G t R wk b : ledger c s G t R wk fuel -> block_hash b ∈ blocks_of G -> block_hash b <> g -> masses_ok b ->
  match validate b false s with
  | (s1, r) => ledger c s1 G t R wk fuel /\ median_cached s s1 /\ settles (body_rules s b) r
  end.
Proof.
  intros Hl Hb Hg Hm. pose proof (median_cached_refl s) as Hsame. unfold validate_body. pose proof (isolation_settles MerkleBranchHash TransactionHash sha256 verify tv mc max_block_mass b Hmax Hm) as Hiso.
  unfold mbind, st_bind, lift. destruct (validate_body_in_isolation _ _ _ _ _ _ _ b) as [m|[e|e]]; [|done|split_and!; [done..|]; by intros []].
  assert (Hne : transactions b <> []) by (destruct (ib_coinbase _ _ _ _ _ _ _ _ Hiso) as (? & ? & -> & _); done).
  pose proof (context_run s G t R wk b Hl Hb Hg Hne) as Hcx. destruct (validate_body_in_context cm c fuel b s) as [s1 [u|[e|e]]]; destruct Hcx as (H1 & H2 & H3); [|done|].
  - split; [done|]. split; [done|]. by split.
  - split; [done|]. split; [done|]. by intros [].
Qed.

(** The outcomes of a body whose header has been accepted. *)
Lemma process_body_run n G t R wk b : ledger c (header_stores n) G t R wk fuel -> block_hash b ∈ blocks_of G -> block_hash b <> g -> masses_ok b ->
  statuses_store (header_stores n) !! block_hash b = Some StatusHeaderOnly -> block_transactions_store n !! block_hash b = None ->
  (body_rules (header_stores n) b /\ exists s1, ledger c (put_statuses (<[block_hash b := StatusStatePendingVerification]> (statuses_store (header_stores n))) s1) G t R wk fuel /\
     median_cached (header_stores n) s1 /\
     process b false n = (mk_node (put_statuses (<[block_hash b := StatusStatePendingVerification]> (statuses_store (header_stores n))) s1)
       (<[block_hash b := transactions b]> (block_transactions_store n)) (add_tip (block_hash b) (direct_parents (block_header b)) (body_tips_store n)), Ok StatusStatePendingVerification)) \/
  (~ body_rules (header_stores n) b /\ exists s1 e, let statuses := if keeps_status e then statuses_store (header_stores n) else <[block_hash b := StatusInvalid]> (statuses_store (header_stores n)) in
     ledger c (put_statuses statuses s1) G t R wk fuel /\ median_cached (header_stores n) s1 /\
     process b false n = (mk_node (put_statuses statuses s1) (block_transactions_store n) (body_tips_store n), Err (Rule e))).
Proof.
  intros Hl Hb Hg Hm Hst Hbt. pose proof (validate_body_run (header_stores n) G t R wk b Hl Hb Hg Hm) as Hval. unfold process_body.
  assert (Hread : on_headers (ask (fun s => run_ (unwrapped (statuses_get (statuses_store s) (block_hash b))))) n = (n, Ok StatusHeaderOnly)).
  { unfold on_headers, ask, statuses_get, table_read. rewrite Hst. by destruct n. }
  rewrite !(st_bind_run _ _ _ _ _ Hread). cbv beta iota. unfold mbind, st_bind, on_headers, validate_or_invalidate.
  destruct (validate b false (header_stores n)) as [s1 [m|[e|e]]]; destruct Hval as (Hl1 & Hs1 & Hset); [left|done|right].
  - split; [done|]. exists s1. rewrite <-(median_cached_statuses _ _ Hs1). split; [by apply ledger_statuses|]. split; [done|].
    unfold commit_body, mbind, st_bind. cbn [block_transactions_store]. rewrite (table_insert_run _ _ _ Hbt). reflexivity.
  - split; [done|]. exists s1, e. cbv zeta. rewrite <-(median_cached_statuses _ _ Hs1). destruct (keeps_status e) eqn:Ek.
    + assert (E : put_statuses (statuses_store s1) s1 = s1) by (by destruct s1). rewrite E. done.
    + split; [by apply ledger_statuses|]. split; [done|]. reflexivity.
Qed.
End process.

(** * A node *)

(** What the stores of the bodies hold over a history: the blocks with a body are blocks of the
    history, as many as have the status of one; with a block its parents have their bodies;
    and the tips are the blocks with a body that no other such block has as a parent. *)
Record bodies_ok (g : hash) (n : NodeStores) (G : list insertion) : Prop := {
  bo_known : forall x, is_Some (block_transactions_store n !! x) -> x ∈ blocks_of G;
  bo_status : forall x, is_Some (block_transactions_store n !! x) <-> exists st, statuses_store (header_stores n) !! x = Some st /\ has_block_body st = true;
  bo_genesis : is_Some (block_transactions_store n !! g);
  bo_closed : forall x p, is_Some (block_transactions_store n !! x) -> p ∈ parents_of G x -> p ∈ blocks_of G -> is_Some (block_transactions_store n !! p);
  bo_tips : forall x, x ∈ body_tips_store n <-> is_Some (block_transactions_store n !! x) /\ forall y, is_Some (block_transactions_store n !! y) -> x ∉ parents_of G y;
}.

Lemma removed_elem (l : list hash) (t : gset hash) x : x ∈ fold_left (fun t y => t ∖ {[y]}) l t <-> x ∈ t /\ x ∉ l.
Proof. revert t. induction l as [|y l IH]; intros t; cbn [fold_left]; [set_solver|]. rewrite IH. set_solver. Qed.

Lemma add_tip_elem (h : hash) (ps : list hash) (t : gset hash) x : x ∈ add_tip h ps t <-> x = h \/ (x ∈ t /\ x ∉ ps).
Proof. unfold add_tip, tips_update. cbn [fold_left]. rewrite elem_of_union, elem_of_singleton, removed_elem. done. Qed.

(** A header leaves the bodies as they are. *)
Lemma bodies_header g n s' G G' : bodies_ok g n G -> (forall x p, x ∈ blocks_of G -> p ∈ parents_of G x -> p ∈ blocks_of G' -> p ∈ blocks_of G) -> (forall x, x ∈ blocks_of G -> x ∈ blocks_of G' /\ parents_of G' x = parents_of G x) ->
  (forall x st, has_block_body st = true -> statuses_store s' !! x = Some st <-> statuses_store (header_stores n) !! x = Some st) ->
  bodies_ok g (mk_node s' (block_transactions_store n) (body_tips_store n)) G'.
Proof.
  intros [H1 H2 H3 H4 H5] Hpar HG Hst. split; cbn [block_transactions_store body_tips_store header_stores].
  - intros x Hx. by apply HG, H1.
  - intros x. rewrite H2. split; intros (st & E & Hb); exists st; (split; [by apply (Hst x st Hb)|done]).
  - done.
  - intros x p Hx. rewrite (proj2 (HG x (H1 x Hx))). intros Hp Hb. apply (H4 x p Hx Hp). by apply (Hpar x); [apply H1| |].
  - intros x. rewrite H5. split; intros [Hx Hy]; (split; [done|]); intros y Hyb; specialize (Hy y Hyb); [rewrite (proj2 (HG y (H1 y Hyb)))|rewrite <-(proj2 (HG y (H1 y Hyb)))]; done.
Qed.

(** A new body over parents that have theirs. *)
Lemma bodies_body g n s' G h txs ps : bodies_ok g n G -> h ∈ blocks_of G -> block_transactions_store n !! h = None ->
  (forall p, p ∈ parents_of G h <-> p ∈ ps) -> (forall p, p ∈ ps -> is_Some (block_transactions_store n !! p)) -> (h ∉ parents_of G h) ->
  statuses_store s' = <[h := StatusStatePendingVerification]> (statuses_store (header_stores n)) ->
  bodies_ok g (mk_node s' (<[h := txs]> (block_transactions_store n)) (add_tip h ps (body_tips_store n))) G.
Proof.
  intros [H1 H2 H3 H4 H5] Hh Hn Hps Hbody Hself Hst.
  assert (Hin : forall x, is_Some (<[h := txs]> (block_transactions_store n) !! x) <-> x = h \/ is_Some (block_transactions_store n !! x)).
  { intros x. destruct (decide (x = h)) as [->|Hne]; [rewrite lookup_insert_eq; split; [auto|by eexists]|]. rewrite lookup_insert_ne by done. naive_solver. }
  split; cbn [block_transactions_store body_tips_store header_stores].
  - intros x [->|Hx]%Hin; auto.
  - intros x. rewrite Hin, Hst, H2. destruct (decide (x = h)) as [->|Hne]; [rewrite lookup_insert_eq; split; [intros _; by eexists|auto]|]. rewrite lookup_insert_ne by done. naive_solver.
  - apply Hin. auto.
  - intros x p [->|Hx]%Hin Hp Hpb; apply Hin; right; [apply Hbody, Hps, Hp|by apply (H4 x)].
  - intros x. rewrite add_tip_elem, H5. split.
    + intros [->|[[Hx Hy] Hxp]]; [split; [apply Hin; auto|]|split; [apply Hin; auto|]]; intros y [->|Hyb]%Hin; [done| |by rewrite Hps|by apply Hy].
      intros Hp. destruct (H4 y h Hyb Hp Hh) as [? E]. congruence.
    + intros [[->|Hx]%Hin Hy]; [by left|right]. split; [split; [done|intros y Hyb; apply Hy, Hin; auto]|]. rewrite <-Hps. apply Hy, Hin. auto.
Qed.

Lemma not_own_parent G x : valid_history G -> x ∈ blocks_of G -> x ∉ parents_of G x.
Proof.
  intros HG Hx. assert (H : x = ORIGIN \/ (x ∉ parents_of G x)); [|destruct H as [->|]; [by rewrite origin_parents by done; intros ?%elem_of_nil|done]].
  apply (history_ind G (fun y => y = ORIGIN \/ (y ∉ parents_of G y)) HG); [by left| |by apply block_known].
  intros y Hy IH. right. intros Hp. destruct (IH y Hp) as [_ [->|?]]; [by apply (block_not_origin G HG ORIGIN Hy)|done].
Qed.

Section node.
Context (blake3 : bytes -> bytes) (poseidon2_permute : list Z -> list Z) (BlockHash : bytes -> bytes).
Context (MerkleBranchHash TransactionHash TransactionID sha256 : bytes -> bytes) (verify : bytes -> bytes -> bytes -> bool).
Context (tv : TransactionValidator) (cm : CoinbaseManager) (mc : MassCalculator) (max_block_mass : Z).
Context (c : Config) (fuel : nat).
Abbreviation g := (gen_hash (hc_genesis c)).
Abbreviation process := (process_body MerkleBranchHash TransactionHash sha256 verify tv cm mc max_block_mass c fuel).
Abbreviation step := (process_block MerkleBranchHash TransactionHash sha256 verify tv cm mc max_block_mass c fuel blake3 poseidon2_permute BlockHash).
Abbreviation rules := (body_rules MerkleBranchHash TransactionHash sha256 verify tv cm mc max_block_mass c fuel).

Fixpoint process_blocks (tasks : list (Z * Block)) (n : NodeStores) : NodeStores * list (result halt BlockStatus) :=
  match tasks with
  | [] => (n, [])
  | (now, b) :: tasks' =>
      let '(n1, r) := step now b n in
      let '(n2, rs) := process_blocks tasks' n1 in
      (n2, r :: rs)
  end.

(** Every block of the history is one that was submitted, over its parents. *)
Definition from_blocks (tasks : list (Z * Block)) (G : list insertion) : Prop :=
  forall x, x ∈ blocks_of G -> x = g \/ exists now b, (now, b) ∈ tasks /\ block_hash b = x /\ forall p, p ∈ parents_of G x <-> p ∈ direct_parents (block_header b).

(** A body of an accepted block, whose transactions give the root of the header. *)
Definition accepted_body (tasks : list (Z * Block)) (rs : list (result halt BlockStatus)) (x : hash) (txs : list Transaction) : Prop :=
  exists now b status, ((now, b), Ok status) ∈ zip tasks rs /\ block_hash b = x /\ transactions b = txs /\
    calc_hash_merkle_root MerkleBranchHash TransactionHash txs = Some (hash_merkle_root (block_header b)).

Definition block_outcome (G : list insertion) (n : NodeStores) (task : Z * Block) (r : result halt BlockStatus) : Prop :=
  match r with
  | Ok _ => block_hash task.2 ∈ blocks_of G /\ (transactions task.2 <> [] -> is_Some (block_transactions_store n !! block_hash task.2))
  | Err (Rule _) => True
  | Err (Stop e) => e = Diverges /\ state_new BlockHash fuel (block_header task.2) = Err Diverges
  end.

(** Submitted blocks with the same hash have the same parents. *)
Definition hash_determines (tasks : list (Z * Block)) : Prop :=
  forall now b now' b', (now, b) ∈ tasks -> (now', b') ∈ tasks -> block_hash b = block_hash b' ->
    direct_parents (block_header b) = direct_parents (block_header b').

Definition block_wf (b : Block) : Prop := header_wf (block_header b) /\ masses_ok b.

Context (Hc : config_ok c) (Hmax : 0 <= max_block_mass < U64_MAX).

(** The header step. *)
Lemma header_step now header n G t R wk : ledger c (header_stores n) G t R wk fuel -> bodies_ok g n G -> header_wf header ->
  (hc_max_block_parents c + length G < fuel)%nat -> Z.of_nat (S (length G)) <= MAX_BLOCKS -> (2 * S (length G) + 3 < fuel)%nat ->
  match on_headers (process_header blake3 poseidon2_permute BlockHash c fuel now (Ordinary header)) n with
  | (n', r) => block_transactions_store n' = block_transactions_store n /\ exists G' t' R' wk', ledger c (header_stores n') G' t' R' wk' fuel /\ bodies_ok g n' G' /\
      (G' = G \/ extends header G G') /\
      match r with
      | Ok _ => header_hash header ∈ blocks_of G'
      | Err (Rule _) => True
      | Err (Stop e) => e = Diverges /\ state_new BlockHash fuel header = Err Diverges
      end
  end.
Proof.
  intros Hl Hb Hw Hf1 Hf2 Hf3. pose proof (process_header_run blake3 poseidon2_permute BlockHash c Hc fuel now header (header_stores n) G t R wk Hl Hw Hf1 Hf2 Hf3) as Hr.
  unfold on_headers. destruct (process_header _ _ _ _ _ _ _ (header_stores n)) as [s' r]. cbn [block_transactions_store header_stores]. split; [done|].
  assert (Hsame : bodies_ok g (mk_node (header_stores n) (block_transactions_store n) (body_tips_store n)) G) by (by destruct n).
  assert (Hfresh : forall st0 st x, header_hash header ∉ blocks_of G -> has_block_body st0 = false -> has_block_body st = true ->
    <[header_hash header := st0]> (statuses_store (header_stores n)) !! x = Some st <-> statuses_store (header_stores n) !! x = Some st).
  { intros st0 st x Hh H0 Hst. destruct (decide (x = header_hash header)) as [->|Hne]; [|by rewrite lookup_insert_ne]. rewrite lookup_insert_eq.
    destruct (lg_no_status _ _ _ _ _ _ _ Hl _ Hh) as [->| ->]; split; intros [= E]; subst; cbn in *; congruence. }
  destruct r as [st|[e|e]].
  - destruct Hr as (G' & t' & R' & wk' & Hl' & [(-> & Hh & ->)|[(d & -> & Hk) Est]]); [by exists G, t', R', wk'; split_and!; auto|].
    assert (Hh : header_hash header ∉ blocks_of G) by (intros Hin; by apply Hk, block_known). eexists _, t', R', wk'. split; [done|]. split; [|split; [right; by exists d|by left]].
    apply bodies_header with G; [done|..].
    + intros x p Hx Hp [->|Hpb]%elem_of_cons; [|done]. exfalso. apply Hk. by apply (parents_known G (lg_valid _ _ _ _ _ _ _ Hl) x).
    + intros x Hx. split; [by right|]. cbn [parents_of in_block new_block]. rewrite bool_decide_false; [done|]. by intros ->.
    + intros x st' Hst'. rewrite Est. by apply Hfresh.
  - destruct Hr as (-> & -> & Hd). by exists G, t, R, wk; split_and!; auto.
  - destruct Hr as [(wk' & Hl') [->|[Hh Est]]]; [by exists G, t, R, wk'; split_and!; auto|]. exists G, t, R, wk'. split; [done|]. split; [|auto].
    apply bodies_header with G; [done|done|done|]. intros x st' Hst'. rewrite Est. by apply Hfresh.
Qed.

(** The body step, for a block whose header was accepted. *)
Lemma body_step b n G t R wk : ledger c (header_stores n) G t R wk fuel -> bodies_ok g n G -> block_hash b ∈ blocks_of G -> masses_ok b ->
  (block_hash b <> g -> forall p, p ∈ parents_of G (block_hash b) <-> p ∈ direct_parents (block_header b)) ->
  match process b false n with
  | (n', r) => ledger c (header_stores n') G t R wk fuel /\ bodies_ok g n' G /\ match r with Ok _ => is_Some (block_transactions_store n' !! block_hash b) | Err (Rule _) => True | Err (Stop _) => False end /\
      (block_transactions_store n' = block_transactions_store n \/
       (block_transactions_store n' = <[block_hash b := transactions b]> (block_transactions_store n) /\ rules (header_stores n) b /\ exists st, r = Ok st))
  end.
Proof.
  intros Hl Hb Hin Hm Hps. destruct (lg_status _ _ _ _ _ _ _ Hl _ Hin) as (st & Est).
  assert (Hread : on_headers (ask (fun s => run_ (unwrapped (statuses_get (statuses_store s) (block_hash b))))) n = (n, Ok st)).
  { unfold on_headers, ask, statuses_get, table_read. rewrite Est. by destruct n. }
  assert (Hsome : is_Some (block_transactions_store n !! block_hash b) <-> has_block_body st = true).
  { rewrite (bo_status _ _ _ Hb). split; [intros (st' & E & ?); congruence|intros ?; by exists st]. }
  destruct (decide (st = StatusHeaderOnly)) as [->|Hst].
  2: { unfold process_body. rewrite (st_bind_run _ _ _ _ _ Hread). destruct st; try done; cbn; split_and!; auto; by apply Hsome. }
  assert (Hnone : block_transactions_store n !! block_hash b = None) by (apply eq_None_not_Some; intros ?%Hsome; done).
  assert (Hg : block_hash b <> g) by (intros E; pose proof (bo_genesis _ _ _ Hb) as Hbg; rewrite <-E, Hnone in Hbg; by destruct Hbg). specialize (Hps Hg).
  destruct (process_body_run MerkleBranchHash TransactionHash sha256 verify tv cm mc max_block_mass c Hc fuel Hmax n G t R wk b Hl Hin Hg Hm Est Hnone)
    as [(Hrules & s1 & Hl' & _ & ->)|(Hrules & s1 & e & Hl' & _ & ->)]; cbn [header_stores block_transactions_store].
  - split; [done|]. split; [|split; [rewrite lookup_insert_eq; by eexists|right; split_and!; [done|done|by eexists]]]. apply bodies_body; try done; [|apply not_own_parent; [apply (lg_valid _ _ _ _ _ _ _ Hl)|done]].
    intros p Hp. apply (bo_status _ _ _ Hb). apply (cb_parents _ _ _ _ _ (br_context _ _ _ _ _ _ _ _ _ _ _ _ Hrules) p Hp).
  - split; [done|]. split; [|split; [done|left; done]]. apply bodies_header with G; [done|done|done|]. intros x st' Hst'. cbn [statuses_store put_statuses]. destruct (keeps_status e); [done|].
    destruct (decide (x = block_hash b)) as [->|Hne]; [|by rewrite lookup_insert_ne]. rewrite lookup_insert_eq, Est. split; intros [= <-]; done.
Qed.

(** The bodies before and after some blocks. *)
Definition bodies_added (tasks : list (Z * Block)) (rs : list (result halt BlockStatus)) (n n' : NodeStores) : Prop :=
  (forall x, is_Some (block_transactions_store n !! x) -> is_Some (block_transactions_store n' !! x)) /\
  (forall x txs, block_transactions_store n' !! x = Some txs -> block_transactions_store n !! x = Some txs \/ accepted_body tasks rs x txs).

Lemma bodies_same tasks rs n n' : block_transactions_store n' = block_transactions_store n -> bodies_added tasks rs n n'.
Proof. intros E. split; rewrite E; auto. Qed.

Lemma process_block_run all now b n G t R wk : ledger c (header_stores n) G t R wk fuel -> bodies_ok g n G -> from_blocks all G -> block_wf b ->
  (now, b) ∈ all -> hash_determines all ->
  (hc_max_block_parents c + length G < fuel)%nat -> Z.of_nat (S (length G)) <= MAX_BLOCKS -> (2 * S (length G) + 3 < fuel)%nat ->
  match step now b n with
  | (n', r) => exists G' t' R' wk', ledger c (header_stores n') G' t' R' wk' fuel /\ bodies_ok g n' G' /\ from_blocks all G' /\ bodies_added [(now, b)] [r] n n' /\
      (length G' <= S (length G))%nat /\ (forall x, x ∈ blocks_of G -> x ∈ blocks_of G') /\ block_outcome G' n' (now, b) r
  end.
Proof.
  intros Hl Hb HfG [Hw Hm] Hall Hdet Hf1 Hf2 Hf3. pose proof (header_step now (block_header b) n G t R wk Hl Hb Hw Hf1 Hf2 Hf3) as Hh.
  unfold process_block, mbind, st_bind. destruct (on_headers _ n) as [n1 r]. destruct Hh as (Et & G1 & t1 & R1 & wk1 & Hl1 & Hb1 & Hext & Hr).
  assert (HG1 : (length G1 <= S (length G))%nat /\ (forall x, x ∈ blocks_of G -> x ∈ blocks_of G1) /\ from_blocks all G1).
  { destruct Hext as [->|(d & -> & Hk)]; [by split_and!; try lia|]. split; [done|]. split; [intros x Hx; by right|].
    intros x Hx. cbn [parents_of in_block new_block in_parents]. case_bool_decide as Ex; [right; exists now, b; split_and!; [done..|]; apply stored_parents_elem|].
    apply HfG. by apply elem_of_cons in Hx as [?|?]. }
  destruct HG1 as (Hlen & Hin & Hf). destruct r as [st|[e|e]]; [|exists G1, t1, R1, wk1; split_and!; auto; by apply bodies_same..].
  case_bool_decide as Hempty; [exists G1, t1, R1, wk1; split_and!; auto; [by apply bodies_same|by split]|].
  assert (Hps : block_hash b <> g -> forall p, p ∈ parents_of G1 (block_hash b) <-> p ∈ direct_parents (block_header b)).
  { intros Hg. destruct (Hf _ Hr) as [?|(now' & b' & Hin' & Eh & Hp)]; [done|]. intros p. by rewrite Hp, (Hdet now b now' b' Hall Hin' ltac:(done)). }
  pose proof (body_step b n1 G1 t1 R1 wk1 Hl1 Hb1 Hr Hm Hps) as Hbody. destruct (process b false n1) as [n2 r]. destruct Hbody as (Hl2 & Hb2 & Hno & Ht2).
  exists G1, t1, R1, wk1. split; [done|]. split; [done|]. split; [done|]. split; [|split; [done|split; [done|by destruct r as [|[]]]]].
  destruct Ht2 as [Es|(Es & [Hiso _] & st' & ->)]; [apply bodies_same; by rewrite Es|]. split; rewrite Es, Et.
  - intros x Hx. destruct (decide (x = block_hash b)) as [->|Hne]; [rewrite lookup_insert_eq; by eexists|by rewrite lookup_insert_ne].
  - intros x txs. destruct (decide (x = block_hash b)) as [->|Hne]; [|rewrite lookup_insert_ne by done; auto].
    rewrite lookup_insert_eq. intros [= <-]. right. exists now, b, st'. split_and!; [by left|done..|]. apply (ib_root _ _ _ _ _ _ _ _ Hiso).
Qed.

Lemma process_blocks_run all : hash_determines all -> forall tasks n G t R wk, ledger c (header_stores n) G t R wk fuel -> bodies_ok g n G -> from_blocks all G ->
  Forall (fun task => block_wf task.2) tasks -> (forall task, task ∈ tasks -> task ∈ all) ->
  Z.of_nat (length tasks + length G) <= MAX_BLOCKS -> (2 * (length tasks + length G) + 3 < fuel)%nat -> (hc_max_block_parents c + (length tasks + length G) < fuel)%nat ->
  exists n' rs G' t' R' wk', process_blocks tasks n = (n', rs) /\ ledger c (header_stores n') G' t' R' wk' fuel /\ bodies_ok g n' G' /\ from_blocks all G' /\ bodies_added tasks rs n n' /\
    (length G' <= length tasks + length G)%nat /\ (forall x, x ∈ blocks_of G -> x ∈ blocks_of G') /\ Forall2 (block_outcome G' n') tasks rs.
Proof.
  intros Hdet tasks. induction tasks as [|[now b] tasks IH]; intros n G t R wk Hl Hb Hf Hwf Hin Hn Hf1 Hf2; cbn [process_blocks].
  { exists n, [], G, t, R, wk. split_and!; try done. by apply bodies_same. }
  cbn [length] in *. apply Forall_cons in Hwf as [Hw Hwf].
  pose proof (process_block_run all now b n G t R wk Hl Hb Hf Hw (Hin _ ltac:(by left)) Hdet ltac:(lia) ltac:(lia) ltac:(lia)) as Hstep.
  destruct (step now b n) as [n1 r]. destruct Hstep as (G1 & t1 & R1 & wk1 & Hl1 & Hb1 & Hf1' & [A1 A2] & Hlen & Hsub & Ho).
  destruct (IH n1 G1 t1 R1 wk1 Hl1 Hb1 Hf1' Hwf ltac:(intros task Htask; apply Hin; by right) ltac:(lia) ltac:(lia) ltac:(lia))
    as (n' & rs & G' & t' & R' & wk' & -> & Hl' & Hb' & Hf' & [A3 A4] & Hlen' & Hsub' & Ho').
  exists n', (r :: rs), G', t', R', wk'. split_and!; try done; [|lia|auto|].
  - split; [auto|]. intros x txs Hx. destruct (A4 x txs Hx) as [Hx1|(now' & b' & st & Hz & He)]; [|right; exists now', b', st; split; [by right|done]].
    destruct (A2 x txs Hx1) as [?|(now' & b' & st & Hz & He)]; [by left|right]. exists now', b', st. split; [|done]. apply list_elem_of_singleton in Hz. rewrite Hz. by left.
  - constructor; [|done]. destruct r as [st|[e|e]]; [|done..]. destruct Ho as [O1 O2]. split; [by apply Hsub'|auto].
Qed.

Abbreviation init := (node_init TransactionID c fuel BlockHash).

Lemma node_init_run : (5 < fuel)%nat -> exists n t R wk, init node_new = (n, Ok tt) /\ ledger c (header_stores n) [genesis_insertion c] t R wk fuel /\
  bodies_ok g n [genesis_insertion c] /\ from_blocks [] [genesis_insertion c] /\ (forall x, is_Some (block_transactions_store n !! x) -> x = g).
Proof.
  intros Hfuel. destruct (init_ledger BlockHash c Hc fuel Hfuel) as (s & t & R & wk & Hi & Hl & Est).
  assert (Hg : g ∈ blocks_of [genesis_insertion c]) by by left. pose proof (block_not_origin _ (lg_valid _ _ _ _ _ _ _ Hl) g Hg) as Ho.
  assert (Hblk : forall x, x ∈ blocks_of [genesis_insertion c] <-> x = g) by (intros x; unfold blocks_of; cbn; apply list_elem_of_singleton).
  set (txs := build_genesis_transactions TransactionID c). set (s1 := put_statuses (<[g := StatusStatePendingVerification]> (statuses_store s)) s).
  exists (mk_node s1 (<[g := txs]> ∅) (add_tip g [] ∅)), t, R, wk.
  assert (Hin : forall x, is_Some ((<[g := txs]> ∅ : gmap hash (list Transaction)) !! x) <-> x = g).
  { intros x. destruct (decide (x = g)) as [->|Hne]; [rewrite lookup_insert_eq; split; [done|by eexists]|]. rewrite lookup_insert_ne, lookup_empty by done.
    split; [by intros [? ?]|done]. }
  split; [|split; [by apply (ledger_statuses c fuel s _ t R wk g)|split]].
  - unfold node_init, mbind, st_bind, on_headers, node_new. cbn [header_stores]. rewrite Hi. unfold process_genesis_body, commit_body, mbind, st_bind. cbn [header_stores block_transactions_store body_tips_store].
    rewrite (table_insert_run _ _ _ (lookup_empty g)). reflexivity.
  - split; cbn [block_transactions_store header_stores body_tips_store].
    + intros x ->%Hin. done.
    + intros x. rewrite Hin. unfold s1. cbn [statuses_store put_statuses]. destruct (decide (x = g)) as [->|Hne].
      * rewrite lookup_insert_eq. split; [intros _; by eexists|done].
      * rewrite lookup_insert_ne, Est, lookup_insert_ne, lookup_empty by done. split; [done|by intros (? & ? & _)].
    + by apply Hin.
    + intros x p _ _ ->%Hblk. by apply Hin.
    + intros x. rewrite add_tip_elem, Hin. split.
      * intros [->|[?%elem_of_empty _]]; [|done]. split; [done|]. intros y ->%Hin. cbn. rewrite bool_decide_true by done. by intros ?%list_elem_of_singleton.
      * intros [-> _]. by left.
  - split; [intros x ->%Hblk; by left|]. intros x Hx. by apply Hin.
Qed.

Lemma node_run tasks : Forall (fun task => block_wf task.2) tasks -> hash_determines tasks -> Z.of_nat (S (length tasks)) <= MAX_BLOCKS ->
  (2 * S (length tasks) + 3 < fuel)%nat -> (hc_max_block_parents c + S (length tasks) < fuel)%nat ->
  exists n0 n rs G t R wk, init node_new = (n0, Ok tt) /\ process_blocks tasks n0 = (n, rs) /\ ledger c (header_stores n) G t R wk fuel /\ bodies_ok g n G /\
    from_blocks tasks G /\ (forall x txs, block_transactions_store n !! x = Some txs -> x = g \/ accepted_body tasks rs x txs) /\ Forall2 (block_outcome G n) tasks rs.
Proof.
  intros Hwf Hdet Hn Hf1 Hf2. destruct (node_init_run ltac:(lia)) as (n0 & t0 & R0 & wk0 & Hi & Hl0 & Hb0 & F1 & F2).
  destruct (process_blocks_run tasks Hdet tasks n0 _ t0 R0 wk0 Hl0 Hb0) as (n & rs & G & t & R & wk & Hr & Hl & Hb & Hf & [_ Ha] & _ & _ & Ho); try done; try (cbn; lia).
  { intros x Hx. destruct (F1 x Hx) as [?|(? & ? & ?%elem_of_nil & _)]; [by left|done]. }
  exists n0, n, rs, G, t, R, wk. split_and!; try done. intros x txs Hx. destruct (Ha x txs Hx) as [E|?]; [left; apply F2; by eexists|by right].
Qed.
End node.

(** * The claims *)



(** * A run on the main network *)

Definition body_digest (bs : bytes) : bytes := to_le 32 (foldl (fun acc x => (acc * 257 + x + 1) mod 2 ^ 200) 3 bs).

(** A coinbase transaction for a block of the given blue score, and the root of the body it is. *)
Definition demo_coinbase (blue_score : Z) : Transaction :=
  {| tx_version := 0; inputs := []; outputs := []; lock_time := 0; subnetwork_id := SUBNETWORK_ID_COINBASE; gas := 0;
     payload := to_le 8 blue_score ++ to_le 8 5 ++ [0; 0; 2; 7; 7]; mass := 0; tx_id := [3] |}.

Definition demo_root (blue_score : Z) : bytes := default [] (calc_hash_merkle_root body_digest body_digest [demo_coinbase blue_score]).

(** A child of the genesis; its blue score is one. *)
Definition demo_block (h root_score : Z) (txs : list Transaction) : Block := mk_block (demo_header h [gen_hash GENESIS] (demo_root root_score) 1312860 51 1) txs.

(** A block with its body, the same block again, and two headers, the second of a block whose
    coinbase has another blue score. *)
Definition demo_blocks : list (Z * Block) :=
  [(1773133002000, demo_block 3 1 [demo_coinbase 1]); (1773133002000, demo_block 3 1 [demo_coinbase 1]); (1773133003000, demo_block 4 1 []);
   (1773133003000, demo_block 5 2 [])].

Lemma demo_masses h root_score score : masses_ok (demo_block h root_score [demo_coinbase score]).
Proof. intros tx Htx%list_elem_of_singleton. by rewrite Htx. Qed.

Lemma demo_blocks_ok : Forall (fun task => block_wf task.2) demo_blocks.
Proof.
  repeat apply Forall_cons_2; [..|done]; (split; [by repeat constructor|]); [apply demo_masses|apply demo_masses|..]; by intros tx ?%elem_of_nil.
Qed.

Lemma demo_blocks_hashes : hash_determines demo_blocks.
Proof.
  intros now b now' b'. unfold demo_blocks. rewrite !elem_of_cons, !elem_of_nil. intros [E|[E|[E|[E|[]]]]] [E'|[E'|[E'|[E'|[]]]]] Hh; injection E as -> ->; injection E' as -> ->; done.
Qed.

Lemma demo_block_bounds : Z.of_nat (S (length demo_blocks)) <= MAX_BLOCKS /\ (2 * S (length demo_blocks) + 3 < 40)%nat /\
  (hc_max_block_parents (config_of mainnet) + S (length demo_blocks) < 40)%nat /\ 0 <= max_block_mass mainnet < U64_MAX.
Proof. split; [vm_compute; discriminate|]. split; [cbn; lia|]. split; [vm_compute; lia|]. by split. Qed.

Abbreviation mainnet_blocks := (process_blocks demo_hash demo_permute demo_hash body_digest body_digest body_digest (fun _ _ _ => true) (transaction_validator_of mainnet)
  (coinbase_manager_of mainnet) (mass_calculator_of mainnet) (max_block_mass mainnet) (config_of mainnet) 40).
Abbreviation mainnet_body := (process_body body_digest body_digest body_digest (fun _ _ _ => true) (transaction_validator_of mainnet) (coinbase_manager_of mainnet)
  (mass_calculator_of mainnet) (max_block_mass mainnet) (config_of mainnet) 40).
Abbreviation mainnet_rules := (body_rules body_digest body_digest body_digest (fun _ _ _ => true) (transaction_validator_of mainnet) (coinbase_manager_of mainnet)
  (mass_calculator_of mainnet) (max_block_mass mainnet) (config_of mainnet) 40).
Abbreviation mainnet_init := (node_init body_digest (config_of mainnet) 40 demo_hash node_new).

Definition demo_block_results : list (result halt BlockStatus) :=
  [Ok StatusStatePendingVerification; Ok StatusStatePendingVerification; Ok StatusHeaderOnly; Ok StatusHeaderOnly].

(** After these blocks the body of the first header only is accepted, and that of the second
    is rejected for its blue score. *)
Lemma demo_blocks_evaluated : let r := mainnet_blocks demo_blocks mainnet_init.1 in
  (r.2, statuses_store (header_stores r.1) !! replicate 32 4, (mainnet_body (demo_block 4 1 [demo_coinbase 1]) false r.1).2,
   statuses_store (header_stores r.1) !! replicate 32 5, (mainnet_body (demo_block 5 2 [demo_coinbase 2]) false r.1).2) =
  (demo_block_results, Some StatusHeaderOnly, Ok StatusStatePendingVerification, Some StatusHeaderOnly, Err (Rule (CoinbasePayloadRule (BadCoinbasePayloadBlueScore 2 1)))).
Proof.
  cbv zeta. unfold demo_blocks. cbn [process_blocks]. unfold process_block, demo_block. cbn [block_header transactions]. run_headers.
Qed.

Lemma demo_blocks_run : exists n0 n, mainnet_init = (n0, Ok tt) /\ mainnet_blocks demo_blocks n0 = (n, demo_block_results) /\
  statuses_store (header_stores n) !! replicate 32 4 = Some StatusHeaderOnly /\ (mainnet_body (demo_block 4 1 [demo_coinbase 1]) false n).2 = Ok StatusStatePendingVerification /\
  statuses_store (header_stores n) !! replicate 32 5 = Some StatusHeaderOnly /\
  (mainnet_body (demo_block 5 2 [demo_coinbase 2]) false n).2 = Err (Rule (CoinbasePayloadRule (BadCoinbasePayloadBlueScore 2 1))).
Proof.
  destruct (node_init_run demo_hash body_digest (config_of mainnet) 40 mainnet_ok ltac:(lia)) as (n0 & t & R & wk & E & _).
  pose proof demo_blocks_evaluated as H. cbv zeta in H. rewrite E in H. cbn [fst] in H. exists n0. destruct (process_blocks _ _ _ _ _ _ _ _ _ _ _ _ _ _ _) as [n rs]. exists n.
  split; [exact E|]. split; [exact (f_equal (fun r => (n, r.1.1.1.1)) H)|]. split; [exact (f_equal (fun r => r.1.1.1.2) H)|]. split; [exact (f_equal (fun r => r.1.1.2) H)|].
  split; [exact (f_equal (fun r => r.1.2) H)|exact (f_equal snd H)].
Qed.


